(* ===== verification/_CoqProject ===== *)
-Q . S2P
Prelude.v
Error.v
Bytes.v
Lsn.v
Column.v
Checksum.v
Record.v
SegmentHeader.v
Journal.v
Filter.v
FooterRow.v
Varint.v
Prefix.v
PrefixSeek.v
PackedCursor.v
Partition.v
Footer.v
FooterSeal.v
FooterRead.v
Block.v
BlockRead.v
Store.v
MemoryStore.v
PassPlane.v
Admission.v
Arrays.v
TreeKey.v
TBTree.v
TBTreeRep.v
TBTreeFind.v
TBTreeOps.v
TBTreeSplit.v
TBTreeInsert.v
TBTreeWalk.v
TBTreeMany.v
TBTreeBuild.v
TBTreeMap.v
IndexEntry.v
Counters.v
CounterCells.v
SegmentTable.v
Tally.v
KeyPage.v
ShardFilter.v
FilledBits.v
SealedRanges.v
ShardMap.v
ColumnIndex.v
ColumnRep.v
ColumnWrites.v
ColumnSweep.v
ColumnHistory.v
ColumnPages.v
Publish.v
KeyRun.v
KeyRunFile.v
KeyRunSeek.v
KeyRunSet.v
KeyMerge.v
KeyMergeProofs.v
KeyMergeRun.v
SpotSlot.v
SpotTable.v
SpotTableRep.v
SpotShard.v
SpotColumn.v
SpotLookup.v
