(* ===== verification/Prelude.v ===== *)
(** * Verification library for reel

    reel is a log-structured key-value store. A write becomes a _record_ appended to the open
    _segment_ of a reel; beside the records a _journal_ of checksummed groups says what each write
    put where. When a segment is full it is sealed: its records' rows are gathered by column, sorted,
    given a bloom filter each, prefix packed and written as the segment's _footer_. A resident index
    maps keys to their records, column by column, and answers for the sealed side through the spans
    of the sealed segments' footers, through a _spot index_ of record locations, or through _key
    runs_ merged from footers. Batches move the index behind a barrier that reads of several keys
    share. Above this sits an engine that implements the [Store] trait of reel-core.

    All paths below are under [src/crates/], and under [src/crates/reel/src/] where no crate is
    named. A definition keeps the name of the function it translates, with its type in front where it
    is a method ([FooterPartition::lookup] is [FooterPartition_lookup]).

    ** Files

    Shared:
    - [Prelude] (this file): lengths, reads and updates of byte vectors at integer positions, the
      rewriting base [len], the hint base [reel] and the tactics the other files share.
    - [Error]: [error.rs], the result type [res] and the monad of [?]. [Bytes]: machine integers,
      encodings, Rust's order on byte slices. [Arrays]: fixed arrays with a count of slots in use.
    - [Checksum]: the checksums of packages outside the repository, as a class with laws.

    The format:
    - [Lsn]: [format/lsn.rs], [format/loc.rs]. [Column]: [format/column.rs]. [Record]:
      [format/record.rs]. [SegmentHeader]: [format/segment_header.rs]. [Journal]:
      [format/journal.rs]. [Filter]: [format/filter.rs].
    - [Varint], [Prefix], [PrefixSeek], [PackedCursor]: [format/prefix.rs]. Numbers and tails of a
      packed row; packing, encoding and unpacking; the bisecting search; the cursor.
    - [FooterRow], [Partition], [Footer], [FooterSeal], [FooterRead]: [format/footer.rs]. One row;
      one column's rows, their sort and searches; gathering, packing and parsing; the theorems on
      sealing and reading back; the theorems on arbitrary bytes and the directory.
    - [Block], [BlockRead]: [format/block.rs] and the lookup of one key in [reel/mod.rs] ([find],
      [load_block], [answer_of]). The directory map, the restart tables, the block reads and the
      searches over them.

    The store interface: [Store]: [reel-core/src/store.rs], [batch.rs], [error.rs], the trait as a
    class, its own methods as functions over the class and its laws as another. [MemoryStore]:
    [reel-mock/src/memory.rs], an instance of both.

    The index:
    - [TreeKey], [TBTree]: [index/tbtreemap.rs], its traits and every operation. [TBTreeRep],
      [TBTreeFind], [TBTreeOps], [TBTreeSplit], [TBTreeInsert], [TBTreeWalk], [TBTreeMany],
      [TBTreeBuild] and [TBTreeMap] prove it an ordered map.
    - [IndexEntry]: [index/entry.rs]. [KeyPage]: [index/page.rs].
    - [Counters], [CounterCells], [SegmentTable], [Tally]: [index/counters.rs]. The window of rows
      and the table; the window as one cell a segment; what the table answers over any history; the
      [Bookings] interface and the tally that batches bookings.
    - [ShardFilter], [FilledBits], [ShardMap], [ColumnIndex], [ColumnRep], [ColumnWrites],
      [ColumnSweep], [ColumnHistory], [ColumnPages]: [index/column.rs]. The filters and filled bits;
      the interfaces of index keys and of a shard's map, and the tree behind it; every operation of a
      column; its invariant; puts and deletes; the sweep behind a range delete; any history of
      writes; pages.
    - [SealedRanges]: [index/paged.rs], the sealed segments by key span.
    - [SpotSlot], [SpotTable], [SpotTableRep], [SpotShard], [SpotColumn], [SpotLookup]:
      [index/spot.rs]. Slots; cuckoo tables; what a table holds; shards; the column; what a lookup
      answers.
    - [KeyRun], [KeyRunFile], [KeyRunSeek], [KeyRunSet]: [index/keyrun.rs]. The run and its writer;
      its file; the seek, and a run written and finished or abandoned; the runs a volume holds.

    Writing, pacing and merging:
    - [Publish]: [append/publish.rs], the barrier between batches and whole-set reads, thread turns
      interleaved. [Admission]: [append/admission.rs], the byte budget, thread turns interleaved.
      [PassPlane]: the pass plane of [compaction/pressure.rs], likewise.
    - [KeyMerge], [KeyMergeProofs], [KeyMergeRun]: [compaction/keymerge.rs] and the claims of
      [compaction/compactor.rs]. The merge of footers and key runs; its cursors and heap; the run it
      leaves and the claims it is made under.

    ** What the theorems show

    - _A sealed segment answers exactly what was put in it_: [FooterSeal.sealed_footer_answers] and
      [BlockRead.blocked_lookup_exact], from gather to lookup, the second against any driver that
      keeps [FileReads].
    - _Bytes that were never written are refused, not tripped over_: [Record.header_unpack_sound],
      [FooterRead.parse_never_panics], [KeyRunSeek.key_run_open_total]. What is written reads back:
      [FooterSeal.footer_roundtrip], [Record.keyed_record_reads_back], [Journal.read_groups_exact],
      [KeyRunSeek.key_run_reads_back], the last with what each failure of the device leaves on disk.
    - _The index holds what was written_: [TBTreeMap.tree_refines_map], [TBTreeMap.tree_range_exact]
      and [TBTreeMap.tree_get_many_exact] for the tree; [ColumnHistory.newest_write_wins],
      [ColumnHistory.arrival_order_irrelevant], [ColumnHistory.sweep_ends], [ColumnPages.page_exact]
      and [ColumnPages.page_back_exact] for a column over any map that keeps [ShardMapLaws] and any
      keys that keep [IndexKeyLaws]; [SpotShard.spot_shard_refines], [SpotSlot.slot_brackets_length]
      and [SpotLookup.spot_read_newest] for the spot index; [SealedRanges.candidates_exact];
      [KeyRunSeek.key_run_seek_exact], [KeyRunSet.key_runs_answer], [KeyRunSet.loaded_runs_cover] and
      [KeyRunSet.holds_older_exact] for key runs.
    - _The counters count_: [SegmentTable.booking_books_one_segment], [SegmentTable.retired_is_final],
      [SegmentTable.stamps_never_reissued], [SegmentTable.ranking_and_floors_exact] and
      [Tally.tally_settles_as_booked].
    - _A merge loses nothing and disturbs nobody_: [KeyMergeRun.merge_installs_newest] and
      [KeyMergeRun.merge_under_claims].
    - _Threads keep their promises over every interleaving_: [Publish.served_reads_are_whole],
      [Publish.barrier_never_stuck], [Publish.let_in_by_arrival],
      [Admission.budget_bounds_in_flight], [PassPlane.plane_never_overfills].
    - _Filters and the store's own methods_: [Filter.filter_no_false_negatives]; [Store.sweep_covers]
      uses only [StoreLaws]; [MemoryStore.memory_store_refines] shows the in-memory store keeps the
      meaning of any sequence of writes.

    ** How the code is modelled

    A fallible function returns [res]: [Ok], [Err] with a [ReelError], or [Panic]. A slice or index
    expression of the source is [must (slice ...)], [must (get ...)] or [idx], which is [Panic]
    outside the bounds; its [.get] is [slice] or [get] itself. So a theorem that excludes [Panic] is
    a theorem about indexing. Two reads are total here, the words of the shard filters and of the
    filled bits; [ShardFilter.words_in_place] and [ColumnRep.shard_word_stands] give that they are in
    range. A message built by [format!] is its format string.

    An unsigned integer is a [Z] with the width written out where the code can leave it: [as_u32] and
    its kin are the casts and the wrap of release-mode arithmetic, and [saturating_], [checked_] and
    [wrapping_] operations are their own definitions. Conditions such as [is_u32] are hypotheses of
    well-formedness, never built into a type. Where a sum of lengths could leave [u32] the theorem
    says how much was gathered: [len (flat_of ...) < 2 ^ 27] keeps the footer's length, filters
    included, under [2 ^ 32], the width of the field that stores it. A tree's arenas stay below the
    tag bit of a node's index under the hypotheses [roomy], at most [2 ^ 28] nodes; its theorems are
    for 3 to 256 keys a node, where the source admits 2 and uses 16 to 64. Turns of the barrier and
    stamps of the segment table are taken short of their width.

    A loop whose end depends on the data takes fuel: a unit per byte and one more in the packed rows
    and the journal, a unit per level in a descent, the width of the window and one more in a
    bisection, the rows left in a merge. Fuel that ran out would be [Panic], or [None] where the loop
    is pure; every step consumes a byte, a row or a level or halves the window, and the theorems
    prove the answer itself, so the fuel is enough. The read of journal groups is total on every
    input by [Journal.read_groups_loop_total].

    An unstable sort is stdpp's [merge_sort] under the same comparison: what it may exchange are rows
    of one key with one sequence number, or equal spans. [binary_search_by_key] is the position its
    contract fixes on ascending input. Iterators are the lists they yield; the SIMD scans of a node
    are the count they compute, lane by lane, under any of the processor's scans. The one product of
    floats in the format, the filter's probe count, is computed exactly; [Filter.probes_for_stable]
    shows rounding to a double first gives the same count at every width.

    Keys of the index are their bytes. A bound of a page or a range delete is taken at its bytes, and
    the theorems say which bounds they are about: keys, or bytes no wider than the column's keys.

    Code outside the repository is a parameter: CRC-32C and SipHash are the class [Checksum] with
    [ChecksumLaws] (results at their width, a digest of pieces is the digest of their join, and
    nothing of their strength); xxh3 is a hash parameter of the spot index; the file driver is
    [pread] with [FileReads], and where files are written each call of the driver, an unlink too,
    fails or not as a parameter says. The growth ladder of the spot tables (no rung past [2 ^ 60],
    which the source's reaches only past any memory), the sources of records and footers a lookup
    reads through and the caller's caches are parameters with the laws the code relies on. Each has a
    concrete instance at which the witnesses evaluate.

    Threads that share atomics are a list of thread states; each load, exchange or add is one step
    of one thread, in any order, and a weak exchange may fail without cause. Work under a lock is one
    step. In the barrier a parked thread has a token, a thread on a condition variable is asleep until
    the variable is notified, and either may wake for no reason. A merge keeps a log of its steps with
    the claims that stood at each.

    ** What is not modelled

    Of the parts above: counters and probes that only report; memory layout, capacity, heap sizes,
    prefetching and buffer reuse; drawing a random check key; the waitlist a refused writer parks on
    and the float product that picks a throttled ceiling (the ceiling is a parameter of the step); a
    packed cursor after a failed read; the caches of parsed footers and blocks; the async twins of the
    store's methods; the threads that load and settle the spot index. In the journal's exactness
    theorem a group that padding follows, and the last group, ends at a block's edge or at least four
    bytes short of one ([Journal.clear_of_edge]): nearer than that the padding cannot hold a zero
    count, and telling it from a group rests on the strength of the checksum. Histories of the
    segment table do not clear it or swap in a rebuilt one.

    Left out: [index/map.rs], which sets the columns side by side; recovery, playback and the tailer
    of a reader process; the batches to tails, the sealer and the flusher of [append/]; the choice and
    the rewrite of a segment in [compactor.rs]; the pressure tiers, the rate limiter and the rate
    gate, which are float rates over a clock; segment files, volumes and checkpoints of [reel/]; the
    engine, which forwards to the parts above; the I/O backends, the lock file, reports, the command
    line and configuration. *)
From stdpp Require Export base numbers list strings sorting gmap.
From Stdlib Require Export ZArith Lia.

Global Open Scope Z_scope.
#[export] Set Default Goal Selector "!".

(** ** Lengths and positions over [Z]

    Rust indexes with [usize], so positions and lengths are integers here, and a read names what
    the source does when it falls outside: [get] and [slice] are the [.get] forms that answer
    [None]. *)

Section seqs.
Context {A : Type}.
Implicit Types (l p q s : list A) (a b i : Z).

Definition len l : Z := Z.of_nat (length l).

Definition get l i : option A :=
  if (0 <=? i) && (i <? len l) then l !! Z.to_nat i else None.

Definition slice l a b : option (list A) :=
  if (0 <=? a) && (a <=? b) && (b <=? len l)
  then Some (take (Z.to_nat (b - a)) (drop (Z.to_nat a) l))
  else None.

Definition slice_from l a : option (list A) :=
  if (0 <=? a) && (a <=? len l) then Some (drop (Z.to_nat a) l) else None.

(** Overwrite a window of a fixed array, the shape of [out[a..b].copy_from_slice(s)]. *)
Definition put l (a : nat) s : list A :=
  take a l ++ s ++ drop (a + length s) l.

Lemma len_nil : len [] = 0.
Proof. reflexivity. Qed.

Lemma len_cons x l : len (x :: l) = 1 + len l.
Proof. unfold len; cbn [length]; lia. Qed.

Lemma len_app l1 l2 : len (l1 ++ l2) = len l1 + len l2.
Proof. unfold len; rewrite length_app; lia. Qed.

Lemma len_nonneg l : 0 <= len l.
Proof. unfold len; lia. Qed.

Lemma len_take n l : len (take n l) = Z.min (Z.of_nat n) (len l).
Proof. unfold len; rewrite length_take; lia. Qed.

Lemma len_drop n l : len (drop n l) = Z.max 0 (len l - Z.of_nat n).
Proof. unfold len; rewrite length_drop; lia. Qed.

Lemma len_0_inv l : len l = 0 -> l = [].
Proof. unfold len; destruct l; [done | cbn [length]; lia]. Qed.

Lemma len_replicate n (x : A) : len (replicate n x) = Z.of_nat n.
Proof. unfold len; rewrite length_replicate; lia. Qed.

Lemma len_reverse l : len (reverse l) = len l.
Proof. unfold len; by rewrite length_reverse. Qed.

Lemma to_nat_len l : Z.to_nat (len l) = length l.
Proof. unfold len; lia. Qed.

Lemma slice_Some l a b s :
  slice l a b = Some s <-> exists p q, l = p ++ s ++ q /\ len p = a /\ b = a + len s.
Proof.
  unfold slice; split.
  - destruct ((0 <=? a) && (a <=? b) && (b <=? len l)) eqn:E; [intros [= <-] | done].
    exists (take (Z.to_nat a) l), (drop (Z.to_nat (b - a)) (drop (Z.to_nat a) l)).
    rewrite !take_drop, !len_take, len_drop; split_and!; [done | lia | lia].
  - intros (p & q & -> & <- & ->).
    pose proof (len_nonneg p); pose proof (len_nonneg s); pose proof (len_nonneg q).
    rewrite !len_app.
    destruct ((0 <=? len p) && (len p <=? len p + len s)
              && (len p + len s <=? len p + (len s + len q))) eqn:E; [| lia].
    rewrite to_nat_len, drop_app_length.
    replace (Z.to_nat (len p + len s - len p)) with (length s) by (unfold len; lia).
    by rewrite take_app_length.
Qed.

Lemma slice_mid p s q a b :
  len p = a -> b = a + len s -> slice (p ++ s ++ q) a b = Some s.
Proof. intros; apply slice_Some; eauto. Qed.

Lemma slice_is_Some l a b : 0 <= a <= b -> b <= len l -> exists s, slice l a b = Some s.
Proof.
  intros; unfold slice.
  destruct ((0 <=? a) && (a <=? b) && (b <=? len l)) eqn:E; [eauto | lia].
Qed.

Lemma slice_None l a b : ~ (0 <= a <= b /\ b <= len l) -> slice l a b = None.
Proof.
  intros; unfold slice.
  destruct ((0 <=? a) && (a <=? b) && (b <=? len l)) eqn:E; [lia | done].
Qed.

Lemma slice_bounds l a b s :
  slice l a b = Some s -> 0 <= a /\ b = a + len s /\ b <= len l.
Proof.
  intros (p & q & -> & <- & ->)%slice_Some.
  rewrite !len_app; pose proof (len_nonneg p); pose proof (len_nonneg q); lia.
Qed.

Lemma slice_all l : slice l 0 (len l) = Some l.
Proof. apply slice_Some; exists [], []; rewrite app_nil_r; auto. Qed.

Lemma slice_app_r p l a b :
  0 <= a -> slice (p ++ l) (len p + a) (len p + b) = slice l a b.
Proof.
  intros Ha; destruct (slice l a b) as [s|] eqn:E.
  - apply slice_Some in E as (p' & q & -> & <- & ->).
    apply slice_Some; exists (p ++ p'), q.
    rewrite <- app_assoc, len_app; split_and!; [done | done | lia].
  - apply slice_None; intros [? ?].
    destruct (slice_is_Some l a b) as [s Hs]; rewrite ?len_app in *; [lia | lia | congruence].
Qed.

Lemma slice_app_l p l a b : b <= len p -> slice (p ++ l) a b = slice p a b.
Proof.
  intros Hb; destruct (slice p a b) as [s|] eqn:E.
  - apply slice_Some in E as (p' & q & -> & <- & ->).
    apply slice_Some; exists p', (q ++ l); rewrite <- !app_assoc; done.
  - apply slice_None; intros [? ?].
    destruct (slice_is_Some p a b) as [s Hs]; [lia | lia | congruence].
Qed.

Lemma slice_skip p l a b :
  len p <= a -> slice (p ++ l) a b = slice l (a - len p) (b - len p).
Proof.
  intros; rewrite <- (slice_app_r p l (a - len p) (b - len p)) by lia; f_equal; lia.
Qed.

Lemma slice_hit s l a b : a = 0 -> b = len s -> slice (s ++ l) a b = Some s.
Proof. intros -> ->; apply (slice_mid [] s l); done. Qed.

Lemma slice_whole s a b : a = 0 -> b = len s -> slice s a b = Some s.
Proof. intros -> ->; apply slice_all. Qed.

Lemma slice_nested l a b s c d :
  slice l a b = Some s -> 0 <= c -> d <= len s -> slice l (a + c) (a + d) = slice s c d.
Proof.
  intros (p & q & -> & <- & ->)%slice_Some Hc Hd.
  by rewrite slice_app_r, slice_app_l.
Qed.

Lemma get_Some l i x :
  get l i = Some x <-> exists p q, l = p ++ x :: q /\ len p = i.
Proof.
  unfold get; split.
  - destruct ((0 <=? i) && (i <? len l)) eqn:E; [| done]; intros Hx.
    exists (take (Z.to_nat i) l), (drop (S (Z.to_nat i)) l).
    rewrite take_drop_middle, len_take by done; split; [done | lia].
  - intros (p & q & -> & <-); rewrite len_app, len_cons.
    pose proof (len_nonneg p); pose proof (len_nonneg q).
    destruct ((0 <=? len p) && (len p <? len p + (1 + len q))) eqn:E; [| lia].
    by rewrite to_nat_len, list_lookup_middle.
Qed.

Lemma get_mid p x q i : len p = i -> get (p ++ x :: q) i = Some x.
Proof. intros; apply get_Some; eauto. Qed.

Lemma get_is_Some l i : 0 <= i < len l -> exists x, get l i = Some x.
Proof.
  intros; unfold get; destruct ((0 <=? i) && (i <? len l)) eqn:E; [| lia].
  apply lookup_lt_is_Some; unfold len in *; lia.
Qed.

Lemma get_None l i : ~ (0 <= i < len l) -> get l i = None.
Proof. intros; unfold get; destruct ((0 <=? i) && (i <? len l)) eqn:E; [lia | done]. Qed.

Lemma get_bounds l i x : get l i = Some x -> 0 <= i < len l.
Proof. unfold get; destruct ((0 <=? i) && (i <? len l)) eqn:E; [lia | done]. Qed.

Lemma get_lookup l (i : nat) : get l (Z.of_nat i) = l !! i.
Proof.
  unfold get; destruct ((0 <=? Z.of_nat i) && (Z.of_nat i <? len l)) eqn:E.
  - by rewrite Nat2Z.id.
  - symmetry; apply lookup_ge_None; unfold len in *; lia.
Qed.

Lemma get_app_r p l i : 0 <= i -> get (p ++ l) (len p + i) = get l i.
Proof.
  intros Hi; destruct (get l i) as [x|] eqn:E.
  - apply get_Some in E as (p' & q & -> & <-); apply get_Some; exists (p ++ p'), q.
    by rewrite <- app_assoc, len_app.
  - apply get_None; intros ?; rewrite len_app in *.
    destruct (get_is_Some l i); [lia | congruence].
Qed.

Lemma get_app_l p l i : i < len p -> get (p ++ l) i = get p i.
Proof.
  intros Hi; destruct (get p i) as [x|] eqn:E.
  - apply get_Some in E as (p' & q & -> & <-); apply get_Some; exists p', (q ++ l).
    by rewrite <- app_assoc.
  - apply get_None; intros ?; destruct (get_is_Some p i); [lia | congruence].
Qed.

Lemma get_skip p l i : len p <= i -> get (p ++ l) i = get l (i - len p).
Proof. intros; rewrite <- (get_app_r p l (i - len p)) by lia; f_equal; lia. Qed.

Lemma get_hit x l i : i = 0 -> get (x :: l) i = Some x.
Proof. intros ->; apply (get_mid [] x l); done. Qed.

Lemma slice_from_Some l a s :
  slice_from l a = Some s <-> exists p, l = p ++ s /\ len p = a.
Proof.
  unfold slice_from; split.
  - destruct ((0 <=? a) && (a <=? len l)) eqn:E; [intros [= <-] | done].
    exists (take (Z.to_nat a) l); rewrite take_drop, len_take; split; [done | lia].
  - intros (p & -> & <-); rewrite len_app.
    pose proof (len_nonneg p); pose proof (len_nonneg s).
    destruct ((0 <=? len p) && (len p <=? len p + len s)) eqn:E; [| lia].
    by rewrite to_nat_len, drop_app_length.
Qed.

Lemma cut_at l a : 0 <= a <= len l -> exists p q, l = p ++ q /\ len p = a.
Proof.
  intros; exists (take (Z.to_nat a) l), (drop (Z.to_nat a) l).
  rewrite take_drop, len_take; split; [done | lia].
Qed.

Lemma put_app (p old new q : list A) (a : nat) :
  length p = a -> length old = length new -> put (p ++ old ++ q) a new = p ++ new ++ q.
Proof.
  intros <- Hl; unfold put.
  by rewrite take_app_length, <- Hl, <- length_app, (app_assoc p old), drop_app_length.
Qed.

Lemma put_skip (p l s : list A) (a : nat) : put (p ++ l) (length p + a) s = p ++ put l a s.
Proof. unfold put; by rewrite take_app_add, <- Nat.add_assoc, drop_app_add, <- app_assoc. Qed.

Lemma len_put l (a : nat) s : Z.of_nat a + len s <= len l -> len (put l a s) = len l.
Proof. intros; unfold put; rewrite !len_app, len_take, len_drop; unfold len in *; lia. Qed.

Lemma app_len_inj l1 l2 r1 r2 :
  len l1 = len l2 -> l1 ++ r1 = l2 ++ r2 -> l1 = l2 /\ r1 = r2.
Proof. intros; apply app_inj_1; [unfold len in *; lia | done]. Qed.

End seqs.

(** Of two ends of one list the longer ends in the shorter. *)
Lemma suffix_within {A} (h t p suf : list A) : h ++ t = p ++ suf -> len suf <= len t -> exists k, t = k ++ suf.
Proof.
  intros E Hl; apply app_eq_inv in E as [(k & -> & E)|(k & -> & ->)]; [| by exists k].
  apply (f_equal len) in E as E'; rewrite len_app in E'.
  assert (k = []) as -> by (apply len_0_inv; pose proof (len_nonneg k); lia); exists []; by rewrite E.
Qed.

Lemma StronglySorted_lookup {A} (R : relation A) l i j a b :
  StronglySorted R l -> (i < j)%nat -> l !! i = Some a -> l !! j = Some b -> R a b.
Proof.
  intros Hs Hij Ha Hb; rewrite <- (take_drop_middle l i a Ha) in Hs.
  apply StronglySorted_app_1_r, StronglySorted_inv in Hs as [_ Hs]; rewrite Forall_forall in Hs; apply Hs.
  apply list_elem_of_lookup; exists (j - S i)%nat; rewrite lookup_drop.
  replace (S i + (j - S i))%nat with j by lia; done.
Qed.

Lemma filter_false {A} (test : A -> bool) l : (forall x, x ∈ l -> test x = false) -> List.filter test l = [].
Proof. induction l as [|x l IH]; intros H; [done|]; cbn; rewrite H by left; apply IH; intros y Hy; apply H; by right. Qed.

Lemma seqZ_seq (n : nat) : seqZ 0 (Z.of_nat n) = map Z.of_nat (seq 0 n).
Proof. unfold seqZ; rewrite Nat2Z.id; apply map_ext; intros; lia. Qed.

Create HintDb reel discriminated.
Create Rewrite HintDb len.
#[export] Hint Rewrite @len_nil @len_cons @len_app @len_take @len_drop @len_replicate
  @len_reverse : len.

(** Normalise lengths of concatenations, then arithmetic. *)
Ltac len_simpl := autorewrite with len in *.

Ltac len_pos :=
  repeat match goal with
  | |- context [len ?l] =>
      lazymatch goal with H : 0 <= len l |- _ => fail | _ => pose proof (len_nonneg l) end
  | _ : context [len ?l] |- _ =>
      lazymatch goal with H : 0 <= len l |- _ => fail | _ => pose proof (len_nonneg l) end
  end.

(** Boolean comparisons in hypotheses as propositions. *)
Ltac b2p :=
  repeat match goal with
  | H : (_ <? _) = true |- _ => apply Z.ltb_lt in H
  | H : (_ <? _) = false |- _ => apply Z.ltb_ge in H
  | H : (_ <=? _) = true |- _ => apply Z.leb_le in H
  | H : (_ <=? _) = false |- _ => apply Z.leb_gt in H
  | H : (_ >? _) = true |- _ => apply Z.gtb_lt in H
  | H : (_ >? _) = false |- _ => rewrite Z.gtb_ltb in H; apply Z.ltb_ge in H
  | H : _ || _ = false |- _ => apply orb_false_iff in H; destruct H
  | H : (_ =? _) = true |- _ => apply Z.eqb_eq in H
  | H : (_ =? _) = false |- _ => apply Z.eqb_neq in H
  | H : _ && _ = true |- _ => apply andb_true_iff in H; destruct H
  | H : negb _ = true |- _ => apply negb_true_iff in H
  | H : negb _ = false |- _ => apply negb_false_iff in H
  end.

Ltac len_lia := len_simpl; b2p; len_pos; first [lia | exfalso; lia].

(** Read a window or a byte at a known place of a concatenation, chunk by chunk. *)
Ltac slice_solve :=
  lazymatch goal with
  | |- context [slice (?p ++ ?l) ?a ?b] =>
      first [ rewrite (slice_hit p l a b) by len_lia
            | rewrite (slice_skip p l a b) by len_lia; slice_solve ]
  | |- context [slice (?x :: ?l) ?a ?b] =>
      first [ rewrite (slice_whole (x :: l) a b) by len_lia
            | change (slice (x :: l) a b) with (slice ([x] ++ l) a b);
              rewrite (slice_skip [x] l a b) by len_lia; slice_solve ]
  | |- context [slice ?s ?a ?b] => rewrite (slice_whole s a b) by len_lia
  end.

Ltac get_solve :=
  lazymatch goal with
  | |- context [get ((?x :: ?r) ++ ?l) ?i] =>
      change ((x :: r) ++ l) with (x :: (r ++ l)); cbn [app]; get_solve
  | |- context [get (?p ++ ?l) ?i] => rewrite (get_skip p l i) by len_lia; get_solve
  | |- context [get (?x :: ?l) ?i] =>
      first [ rewrite (get_hit x l i) by len_lia
            | change (x :: l) with ([x] ++ l); rewrite (get_skip [x] l i) by len_lia; get_solve ]
  end.

(** Invert a successful chain of [?] on options. *)
Ltac opt_inv :=
  repeat match goal with
  | H : mbind _ _ = Some _ |- _ => apply bind_Some in H; destruct H as (? & ? & H)
  | H : (let '(_, _) := ?x in _) = Some _ |- _ => destruct x
  | H : (match ?x with (_, _) => _ end) = Some _ |- _ => destruct x
  | H : (if ?c then None else _) = Some _ |- _ => destruct c eqn:?; [discriminate H|]
  | H : (if ?c then _ else None) = Some _ |- _ => destruct c eqn:?; [|discriminate H]
  | H : Some _ = Some _ |- _ => injection H as H
  | H : None = Some _ |- _ => discriminate H
  end.
