(* ===== verification/Error.v ===== *)
(** * Errors and results ([crates/reel/src/error.rs])

    [ReelError] with the source's six constructors, the [Result] of every fallible operation and the
    monad its [?] operator is. A Rust slice or index expression that falls outside its bounds
    panics; [res] keeps that outcome apart from a returned error, so that a theorem can say a parser
    refuses bad bytes without ever panicking on them. A message built with [format!] is kept as its
    format string. *)
From S2P Require Import Prelude.

(** The kinds of [std::io::Error] the source asks about. *)
Inductive io_kind := NotFound | StorageFull | OtherKind.

Inductive ReelError :=
| Config (message : string)
| Io (source : io_kind)
| Corruption (message : string)
| Backend (message : string)
| Rejected (message : string)
| LockHeld (message : string).

(** The store-facing error ([crates/reel-core/src/error.rs]). *)
Inductive StoreError :=
| Database (message : string)
| ColumnFamilyNotFound (message : string)
| Serialization (message : string)
| StoreIo (source : io_kind).

Definition ReelError_is_missing (e : ReelError) : bool :=
  match e with
  | Io source => match source with NotFound => true | _ => false end
  | _ => false
  end.

Definition ReelError_is_full (e : ReelError) : bool :=
  match e with
  | Io source => match source with StorageFull => true | _ => false end
  | _ => false
  end.

Definition StoreError_from (e : ReelError) : StoreError :=
  match e with
  | Io source => StoreIo source
  | Config message | Corruption message | Backend message
  | Rejected message | LockHeld message => Database message
  end.

(** ** Results *)

Inductive res (A : Type) :=
| Ok (a : A)
| Err (e : ReelError)
| Panic.
Arguments Ok {A} _.
Arguments Err {A} _.
Arguments Panic {A}.

Global Instance res_ret : MRet res := fun A a => Ok a.
Global Instance res_bind : MBind res := fun A B f m =>
  match m with
  | Ok a => f a
  | Err e => Err e
  | Panic => Panic
  end.
Global Instance res_fmap : FMap res := fun A B f m =>
  match m with
  | Ok a => Ok (f a)
  | Err e => Err e
  | Panic => Panic
  end.

(** [option.ok_or(e)?] *)
Definition ok_or {A} (o : option A) (e : ReelError) : res A :=
  match o with Some a => Ok a | None => Err e end.

(** An indexing expression, which panics where [.get] answers nothing. *)
Definition must {A} (o : option A) : res A :=
  match o with Some a => Ok a | None => Panic end.

(** [result.ok()] *)
Definition res_ok {A} (r : res A) : option A :=
  match r with Ok a => Some a | Err _ | Panic => None end.

(** [result.map_err(f)] *)
Definition map_err {A} (f : ReelError -> ReelError) (r : res A) : res A :=
  match r with Ok a => Ok a | Err e => Err (f e) | Panic => Panic end.

(** A [for] loop whose body may fail. *)
Fixpoint foldm {A B} (f : B -> A -> res B) (l : list A) (b : B) : res B :=
  match l with
  | [] => Ok b
  | x :: l => b ← f b x; foldm f l b
  end.

(** [map] then [collect] of a fallible function. *)
Fixpoint mapm {A B} (f : A -> res B) (l : list A) : res (list B) :=
  match l with
  | [] => Ok []
  | x :: l => y ← f x; ys ← mapm f l; Ok (y :: ys)
  end.

(** The outcome is a value or a returned error. *)
Definition returns {A} (r : res A) : Prop := r <> Panic.

(** The outcome is a value or a returned corruption. *)
Definition refuses_or {A} (P : A -> Prop) (r : res A) : Prop :=
  match r with
  | Ok a => P a
  | Err (Corruption _) => True
  | Err _ | Panic => False
  end.

Lemma bind_Ok {A B} (m : res A) (f : A -> res B) b :
  m ≫= f = Ok b <-> exists a, m = Ok a /\ f a = Ok b.
Proof. destruct m; cbn; naive_solver. Qed.

Lemma must_Ok {A} (o : option A) a : must o = Ok a <-> o = Some a.
Proof. destruct o; cbn; naive_solver. Qed.

Lemma ok_or_Ok {A} (o : option A) e a : ok_or o e = Ok a <-> o = Some a.
Proof. destruct o; cbn; naive_solver. Qed.

Lemma returns_bind {A B} (m : res A) (f : A -> res B) :
  returns m -> (forall a, m = Ok a -> returns (f a)) -> returns (m ≫= f).
Proof. destruct m; cbn; unfold returns; naive_solver. Qed.

Lemma refuses_or_bind {A B} (P : A -> Prop) (Q : B -> Prop) (m : res A) (f : A -> res B) :
  refuses_or P m -> (forall a, m = Ok a -> P a -> refuses_or Q (f a)) -> refuses_or Q (m ≫= f).
Proof. destruct m as [a|[]|]; cbn; naive_solver. Qed.

Lemma refuses_or_mono {A} (P Q : A -> Prop) (m : res A) :
  refuses_or P m -> (forall a, P a -> Q a) -> refuses_or Q m.
Proof. destruct m as [a|[]|]; cbn; naive_solver. Qed.

Lemma refuses_or_returns {A} (P : A -> Prop) (m : res A) : refuses_or P m -> returns m.
Proof. destruct m as [a|[]|]; cbn; unfold returns; naive_solver. Qed.

Lemma foldm_app {A B} (f : B -> A -> res B) l1 l2 b :
  foldm f (l1 ++ l2) b = (b' ← foldm f l1 b; foldm f l2 b').
Proof.
  revert b; induction l1 as [|x l1 IH]; intros b; cbn; [done|].
  destruct (f b x); cbn; auto.
Qed.

(** A loop that keeps an invariant and whose body always succeeds under it succeeds. *)
Lemma foldm_ok {A B} (I : B -> Prop) (f : B -> A -> res B) l b :
  I b -> (forall x b, x ∈ l -> I b -> exists b', f b x = Ok b' /\ I b') ->
  exists b', foldm f l b = Ok b' /\ I b'.
Proof.
  revert b; induction l as [|x l IH]; intros b Hb Hf; cbn; [eauto|].
  destruct (Hf x b) as (b1 & -> & Hb1); [by left | done |]; cbn.
  apply IH; [done|]; intros; apply Hf; [by right | done].
Qed.

Lemma mapm_Ok {A B} (f : A -> res B) (g : A -> B) l :
  (forall x, x ∈ l -> f x = Ok (g x)) -> mapm f l = Ok (map g l).
Proof.
  induction l as [|x l IH]; intros H; cbn [mapm map]; [done|].
  rewrite H by (by left); cbn; rewrite IH; [done|]; intros; apply H; by right.
Qed.

Lemma foldm_unit {A} (f : unit -> A -> res unit) l :
  (forall x, x ∈ l -> f tt x = Ok tt) -> foldm f l tt = Ok tt.
Proof.
  induction l as [|x l IH]; intros H; cbn [foldm]; [done|].
  rewrite H by (by left); cbn; apply IH; intros; apply H; by right.
Qed.

(** A loop whose body keeps an invariant or refuses. *)
Lemma refuses_or_foldm {A B} (I : B -> Prop) (f : B -> A -> res B) l : forall b,
  I b -> (forall x b, x ∈ l -> I b -> refuses_or I (f b x)) -> refuses_or I (foldm f l b).
Proof.
  induction l as [|x l IH]; intros b Hb Hf; cbn [foldm]; [done|].
  eapply refuses_or_bind; [apply Hf; [left | done]|]; intros b' _ Hb'; apply IH; [done|]; intros; apply Hf; [by right | done].
Qed.

Lemma must_slice_fits {A} (l : list A) a b : 0 <= a <= b -> b <= len l ->
  refuses_or (fun s => slice l a b = Some s /\ len s = b - a) (must (slice l a b)).
Proof.
  intros Ha Hb; destruct (slice_is_Some l a b Ha Hb) as [s E]; rewrite E; cbn; split; [done|].
  apply slice_bounds in E; lia.
Qed.

(** Step a monadic goal whose head is a known value. *)
Ltac res_simpl := cbn [mbind res_bind mret res_ret fmap res_fmap ok_or must res_ok map_err
  option_bind option_ret option_fmap option_map].

Ltac res_inv :=
  repeat match goal with
  | H : mbind _ _ = Ok _ |- _ => apply bind_Ok in H; destruct H as (? & ? & H)
  | H : must _ = Ok _ |- _ => apply must_Ok in H
  | H : ok_or _ _ = Ok _ |- _ => apply ok_or_Ok in H
  | H : Ok _ = Ok _ |- _ => injection H as H
  | H : mret _ = Ok _ |- _ => injection H as H
  | H : Err _ = Ok _ |- _ => discriminate H
  | H : Panic = Ok _ |- _ => discriminate H
  | H : Some _ = Some _ |- _ => injection H as H
  | H : None = Some _ |- _ => discriminate H
  end.

(** Case on the first option of a chain, where the empty case is immediate. *)
Ltac opt_case x :=
  match goal with |- (?m ≫= _) = _ => destruct m as [x|] eqn:?; [|done]; res_simpl end.
