(* ===== verification/Bytes.v ===== *)
(** * Bytes and machine integers

    What the source uses of the language's own integers: [u8] as [byte], the wider unsigned types as
    [Z] with their wrap-around written out, little and big endian encodings, and the lexicographic
    order Rust compares byte slices by. *)
From S2P Require Import Prelude.
From Stdlib Require Strings.Byte.

Abbreviation byte := Corelib.Init.Byte.byte.
Abbreviation bytes := (list byte).

Global Instance byte_eq_dec : EqDecision byte := Byte.byte_eq_dec.

Definition u8 (b : byte) : Z := Z.of_N (Byte.to_N b).
Definition byte_of (z : Z) : byte :=
  default Byte.x00 (Byte.of_N (Z.to_N (z mod 256))).

(** ** Widths *)

Definition U8 : Z := 256.
Definition U16 : Z := 65536.
Definition U32 : Z := 4294967296.
Definition U64 : Z := 18446744073709551616.
Definition I64_HALF : Z := 9223372036854775808.

Definition is_u8 (z : Z) : Prop := 0 <= z < U8.
Definition is_u16 (z : Z) : Prop := 0 <= z < U16.
Definition is_u32 (z : Z) : Prop := 0 <= z < U32.
Definition is_u64 (z : Z) : Prop := 0 <= z < U64.
Definition is_i64 (z : Z) : Prop := - I64_HALF <= z < I64_HALF.

(** [value as uN], which keeps the low bits. *)
Definition as_u8 (z : Z) : Z := z mod U8.
Definition as_u16 (z : Z) : Z := z mod U16.
Definition as_u32 (z : Z) : Z := z mod U32.
Definition as_u64 (z : Z) : Z := z mod U64.
(** [value as i64], the two's complement reading of the low 64 bits. *)
Definition as_i64 (z : Z) : Z := (z + I64_HALF) mod U64 - I64_HALF.

Definition u64_saturating_add (a b : Z) : Z := Z.min (a + b) (U64 - 1).
Definition u64_saturating_mul (a b : Z) : Z := Z.min (a * b) (U64 - 1).
Definition saturating_sub (a b : Z) : Z := Z.max 0 (a - b).
Definition div_ceil (a b : Z) : Z := (a + b - 1) / b.

(** ** Endian encodings *)

Fixpoint le_bytes (n : nat) (z : Z) : bytes :=
  match n with
  | O => []
  | S n => byte_of z :: le_bytes n (z / 256)
  end.

Fixpoint le_val (bs : bytes) : Z :=
  match bs with
  | [] => 0
  | b :: bs => u8 b + 256 * le_val bs
  end.

Definition be_val (bs : bytes) : Z := le_val (reverse bs).

Definition u16_le (z : Z) : bytes := le_bytes 2 z.
Definition u32_le (z : Z) : bytes := le_bytes 4 z.
Definition u64_le (z : Z) : bytes := le_bytes 8 z.

Definition zeros (n : nat) : bytes := replicate n Byte.x00.

(** ** The order of byte slices *)

Fixpoint bytes_cmp (a b : bytes) : comparison :=
  match a, b with
  | [], [] => Eq
  | [], _ :: _ => Lt
  | _ :: _, [] => Gt
  | x :: a, y :: b =>
      match u8 x ?= u8 y with
      | Eq => bytes_cmp a b
      | c => c
      end
  end.

Definition bytes_eqb (a b : bytes) : bool := bool_decide (a = b).
Definition bytes_leb (a b : bytes) : bool :=
  match bytes_cmp a b with Gt => false | _ => true end.
Definition bytes_ltb (a b : bytes) : bool :=
  match bytes_cmp a b with Lt => true | _ => false end.

Definition bytes_le (a b : bytes) : Prop := bytes_cmp a b <> Gt.
Definition bytes_lt (a b : bytes) : Prop := bytes_cmp a b = Lt.

(** ** Bytes *)

Lemma u8_range b : 0 <= u8 b < 256.
Proof. unfold u8; pose proof (Byte.to_N_bounded b); lia. Qed.

Lemma u8_inj a b : u8 a = u8 b -> a = b.
Proof.
  unfold u8; intros E; assert (Byte.to_N a = Byte.to_N b) as E' by lia.
  apply (f_equal Byte.of_N) in E'; rewrite !Byte.of_to_N in E'; congruence.
Qed.

Lemma u8_byte_of z : u8 (byte_of z) = z mod 256.
Proof.
  unfold byte_of, u8; pose proof (Z.mod_pos_bound z 256 ltac:(lia)).
  destruct (Byte.of_N (Z.to_N (z mod 256))) as [b|] eqn:E; cbn.
  - apply Byte.to_of_N in E; lia.
  - apply Byte.of_N_None_iff in E; lia.
Qed.

Lemma byte_of_u8 b : byte_of (u8 b) = b.
Proof. apply u8_inj; rewrite u8_byte_of; pose proof (u8_range b); apply Z.mod_small; lia. Qed.

Global Instance byte_countable : Countable byte := inj_countable' u8 byte_of byte_of_u8.

Lemma u8_x00 : u8 Byte.x00 = 0.
Proof. reflexivity. Qed.

(** ** Joining bit fields *)

Lemma land_shifted a b k : 0 <= k -> 0 <= b < 2 ^ k -> Z.land (a * 2 ^ k) b = 0.
Proof.
  intros Hk Hb; apply Z.bits_inj'; intros i Hi; rewrite Z.land_spec, Z.bits_0.
  destruct (Z.lt_ge_cases i k).
  - by rewrite Z.mul_pow2_bits_low.
  - rewrite <- (Z.mod_small b (2 ^ k)), Z.mod_pow2_bits_high by lia; apply andb_false_r.
Qed.

Lemma lor_shifted a b k : 0 <= k -> 0 <= b < 2 ^ k -> Z.lor (a * 2 ^ k) b = a * 2 ^ k + b.
Proof.
  intros Hk Hb; pose proof (land_shifted a b k Hk Hb) as H.
  by rewrite Z.add_nocarry_lxor, Z.lxor_lor.
Qed.

(** ** Little endian words *)

Lemma length_le_bytes n z : length (le_bytes n z) = n.
Proof. revert z; induction n; intros; cbn; auto. Qed.

Lemma len_le_bytes n z : len (le_bytes n z) = Z.of_nat n.
Proof. unfold len; by rewrite length_le_bytes. Qed.

Lemma le_val_le_bytes n z : le_val (le_bytes n z) = z mod 256 ^ Z.of_nat n.
Proof.
  revert z; induction n as [|n IH]; intros z.
  { cbn; by rewrite Z.mod_1_r. }
  cbn [le_bytes le_val]; rewrite IH, u8_byte_of.
  rewrite Nat2Z.inj_succ, Z.pow_succ_r by lia.
  rewrite Z.rem_mul_r; lia.
Qed.

Lemma pow256_len_cons {A} (x : A) l : 256 ^ len (x :: l) = 256 * 256 ^ len l.
Proof. rewrite len_cons, Z.add_comm; apply Z.pow_succ_r, len_nonneg. Qed.

Lemma le_val_range bs : 0 <= le_val bs < 256 ^ len bs.
Proof.
  induction bs as [|b bs IH]; [done|].
  cbn [le_val]; rewrite pow256_len_cons; pose proof (u8_range b); lia.
Qed.

Lemma le_bytes_le_val bs : le_bytes (length bs) (le_val bs) = bs.
Proof.
  induction bs as [|b bs IH]; [done|]; cbn [length le_bytes le_val].
  pose proof (u8_range b).
  f_equal.
  - apply u8_inj; rewrite u8_byte_of, Z.mul_comm, Z_mod_plus_full; by apply Z.mod_small.
  - replace ((u8 b + 256 * le_val bs) / 256) with (le_val bs); [done|].
    apply Z.div_unique with (u8 b); lia.
Qed.

Lemma le_bytes_val_eq n bs : length bs = n -> le_bytes n (le_val bs) = bs.
Proof. intros <-; apply le_bytes_le_val. Qed.

Lemma le_val_inj a b : length a = length b -> le_val a = le_val b -> a = b.
Proof.
  intros Hl Hv; rewrite <- (le_bytes_le_val a), <- (le_bytes_le_val b); congruence.
Qed.

Lemma le_val_app a b : le_val (a ++ b) = le_val a + 256 ^ len a * le_val b.
Proof.
  induction a as [|x a IH]; [cbn [app le_val]; change (256 ^ len []) with 1; lia|].
  cbn [app le_val]; rewrite IH, pow256_len_cons; lia.
Qed.

Lemma le_val_zeros n : le_val (zeros n) = 0.
Proof. unfold zeros; induction n as [|n IH]; [done|]; cbn [replicate le_val]; by rewrite IH. Qed.

Lemma len_zeros n : len (zeros n) = Z.of_nat n.
Proof. apply len_replicate. Qed.

Lemma le_val_u16 z : is_u16 z -> le_val (u16_le z) = z.
Proof. unfold is_u16, U16; intros; unfold u16_le; rewrite le_val_le_bytes; apply Z.mod_small; lia. Qed.

Lemma le_val_u32 z : is_u32 z -> le_val (u32_le z) = z.
Proof. unfold is_u32, U32; intros; unfold u32_le; rewrite le_val_le_bytes; apply Z.mod_small; lia. Qed.

Lemma le_val_u64 z : is_u64 z -> le_val (u64_le z) = z.
Proof. unfold is_u64, U64; intros; unfold u64_le; rewrite le_val_le_bytes; apply Z.mod_small; lia. Qed.

Lemma le_val_is_u16 bs : len bs = 2 -> is_u16 (le_val bs).
Proof. intros H; pose proof (le_val_range bs) as R; rewrite H in R; exact R. Qed.

Lemma le_val_is_u32 bs : len bs = 4 -> is_u32 (le_val bs).
Proof. intros H; pose proof (le_val_range bs) as R; rewrite H in R; exact R. Qed.

Lemma le_val_is_u64 bs : len bs = 8 -> is_u64 (le_val bs).
Proof. intros H; pose proof (le_val_range bs) as R; rewrite H in R; exact R. Qed.

Lemma u16_le_val bs : len bs = 2 -> u16_le (le_val bs) = bs.
Proof. intros; apply le_bytes_val_eq; unfold len in *; lia. Qed.

Lemma u32_le_val bs : len bs = 4 -> u32_le (le_val bs) = bs.
Proof. intros; apply le_bytes_val_eq; unfold len in *; lia. Qed.

Lemma u64_le_val bs : len bs = 8 -> u64_le (le_val bs) = bs.
Proof. intros; apply le_bytes_val_eq; unfold len in *; lia. Qed.

Lemma len_u16_le z : len (u16_le z) = 2.
Proof. reflexivity. Qed.

Lemma len_u32_le z : len (u32_le z) = 4.
Proof. reflexivity. Qed.

Lemma len_u64_le z : len (u64_le z) = 8.
Proof. reflexivity. Qed.

Lemma as_u64_small z : is_u64 z -> as_u64 z = z.
Proof. apply Z.mod_small. Qed.

Lemma as_u32_small z : is_u32 z -> as_u32 z = z.
Proof. apply Z.mod_small. Qed.

Lemma as_u16_small z : is_u16 z -> as_u16 z = z.
Proof. apply Z.mod_small. Qed.

Lemma as_u8_small z : is_u8 z -> as_u8 z = z.
Proof. apply Z.mod_small. Qed.

(** ** The order of byte slices *)

Lemma bytes_cmp_refl a : bytes_cmp a a = Eq.
Proof. induction a as [|x a IH]; [done|]; cbn; by rewrite Z.compare_refl. Qed.

Lemma bytes_cmp_eq a b : bytes_cmp a b = Eq <-> a = b.
Proof.
  split; [| intros ->; apply bytes_cmp_refl].
  revert b; induction a as [|x a IH]; intros [|y b]; cbn; try done.
  destruct (Z.compare_spec (u8 x) (u8 y)); try done.
  intros; f_equal; [by apply u8_inj | auto].
Qed.

Lemma bytes_cmp_antisym a b : bytes_cmp b a = CompOpp (bytes_cmp a b).
Proof.
  revert b; induction a as [|x a IH]; intros [|y b]; cbn; try done.
  rewrite (Z.compare_antisym (u8 x) (u8 y)).
  destruct (u8 x ?= u8 y); cbn; auto.
Qed.

Lemma bytes_cmp_app p a b : bytes_cmp (p ++ a) (p ++ b) = bytes_cmp a b.
Proof. induction p as [|x p IH]; [done|]; cbn; by rewrite Z.compare_refl. Qed.

Lemma bytes_lt_trans a b c : bytes_lt a b -> bytes_lt b c -> bytes_lt a c.
Proof.
  unfold bytes_lt; revert b c; induction a as [|x a IH]; intros [|y b] [|z c]; cbn; try done.
  destruct (Z.compare_spec (u8 x) (u8 y)), (Z.compare_spec (u8 y) (u8 z)); try done;
    destruct (Z.compare_spec (u8 x) (u8 z)); try lia; eauto.
Qed.

Lemma bytes_lt_irrefl a : ~ bytes_lt a a.
Proof. unfold bytes_lt; by rewrite bytes_cmp_refl. Qed.

Lemma bytes_le_lteq a b : bytes_le a b <-> bytes_lt a b \/ a = b.
Proof.
  unfold bytes_le, bytes_lt; rewrite <- bytes_cmp_eq; destruct (bytes_cmp a b); naive_solver.
Qed.

Lemma bytes_cmp_gt a b : bytes_cmp a b = Gt <-> bytes_lt b a.
Proof. unfold bytes_lt; rewrite (bytes_cmp_antisym a b); destruct (bytes_cmp a b); cbn; naive_solver. Qed.

Lemma bytes_nle_lt a b : ~ bytes_le a b <-> bytes_lt b a.
Proof. unfold bytes_le; rewrite <- bytes_cmp_gt; destruct (bytes_cmp a b); naive_solver. Qed.

Global Instance bytes_le_refl : Reflexive bytes_le.
Proof. intros a; apply bytes_le_lteq; auto. Qed.

Global Instance bytes_le_trans : Transitive bytes_le.
Proof.
  intros a b c; rewrite !bytes_le_lteq; intros [?| ->] [?| ->]; eauto using bytes_lt_trans.
Qed.

Global Instance bytes_le_total : Total bytes_le.
Proof.
  intros a b; unfold bytes_le; rewrite (bytes_cmp_antisym a b).
  destruct (bytes_cmp a b); cbn; naive_solver.
Qed.

Global Instance bytes_le_antisymm : AntiSymm (=) bytes_le.
Proof.
  intros a b; unfold bytes_le; rewrite (bytes_cmp_antisym a b), <- bytes_cmp_eq.
  destruct (bytes_cmp a b); cbn; naive_solver.
Qed.

Lemma bytes_lt_le a b : bytes_lt a b -> bytes_le a b.
Proof. rewrite bytes_le_lteq; auto. Qed.

Lemma bytes_le_lt_trans a b c : bytes_le a b -> bytes_lt b c -> bytes_lt a c.
Proof. rewrite bytes_le_lteq; intros [?| ->]; eauto using bytes_lt_trans. Qed.

Lemma bytes_lt_le_trans a b c : bytes_lt a b -> bytes_le b c -> bytes_lt a c.
Proof. rewrite bytes_le_lteq; intros ? [?| <-]; eauto using bytes_lt_trans. Qed.

Lemma bytes_leb_le a b : bytes_leb a b = true <-> bytes_le a b.
Proof. unfold bytes_leb, bytes_le; destruct (bytes_cmp a b); naive_solver. Qed.

Lemma bytes_ltb_lt a b : bytes_ltb a b = true <-> bytes_lt a b.
Proof. unfold bytes_ltb, bytes_lt; destruct (bytes_cmp a b); naive_solver. Qed.

Lemma bytes_ltb_ge a b : bytes_ltb a b = false <-> bytes_le b a.
Proof.
  rewrite <- not_true_iff_false, bytes_ltb_lt, <- bytes_nle_lt.
  unfold bytes_le; destruct (bytes_cmp b a); naive_solver.
Qed.

Lemma bytes_leb_gt a b : bytes_leb a b = false <-> bytes_lt b a.
Proof. rewrite <- not_true_iff_false, bytes_leb_le; apply bytes_nle_lt. Qed.

Lemma bytes_eqb_eq a b : bytes_eqb a b = true <-> a = b.
Proof. apply bool_decide_eq_true. Qed.

Global Instance bytes_le_dec : RelDecision bytes_le.
Proof.
  intros a b; destruct (bytes_leb a b) eqn:E; [left | right].
  - by apply bytes_leb_le.
  - intros ?%bytes_leb_le; congruence.
Defined.

Global Instance bytes_lt_dec : RelDecision bytes_lt.
Proof. intros a b; unfold bytes_lt; solve_decision. Defined.

#[export] Hint Rewrite len_le_bytes len_u16_le len_u32_le len_u64_le len_zeros : len.
#[export] Hint Resolve le_val_is_u16 le_val_is_u32 le_val_is_u64 bytes_lt_le : reel.

Create Rewrite HintDb le.
#[export] Hint Rewrite le_val_u16 le_val_u32 le_val_u64 using done : le.

(** ** Big endian words sort like their bytes *)

Lemma be_val_cons x a : be_val (x :: a) = u8 x * 256 ^ len a + be_val a.
Proof. unfold be_val; rewrite reverse_cons, le_val_app, len_reverse; cbn [le_val]; lia. Qed.

Lemma be_val_snoc a x : be_val (a ++ [x]) = 256 * be_val a + u8 x.
Proof. unfold be_val; rewrite reverse_app; cbn [reverse rev_append app le_val]; lia. Qed.

Lemma be_val_range a : 0 <= be_val a < 256 ^ len a.
Proof. unfold be_val; rewrite <- (len_reverse a); apply le_val_range. Qed.

Lemma be_val_cmp a b : len a = len b -> (be_val a ?= be_val b) = bytes_cmp a b.
Proof.
  revert b; induction a as [|x a IH]; intros [|y b] Hl; len_simpl; len_pos; try lia; [done|].
  rewrite !be_val_cons; cbn [bytes_cmp]; assert (len a = len b) as Hab by lia.
  pose proof (be_val_range a) as Ra; pose proof (be_val_range b) as Rb; rewrite Hab in *.
  destruct (Z.compare_spec (u8 x) (u8 y)) as [->|Hlt|Hlt].
  - rewrite <- IH by done; apply Z.add_compare_mono_l.
  - apply Z.compare_lt_iff; nia.
  - apply Z.compare_gt_iff; nia.
Qed.

(** A key cut or zero-filled to a width. *)
Definition zero_padded (n : nat) (bs : bytes) : bytes := take n (bs ++ zeros n).

Lemma len_zero_padded n bs : len (zero_padded n bs) = Z.of_nat n.
Proof. unfold zero_padded; len_lia. Qed.

Lemma zero_padded_cons n b bs : zero_padded (S n) (b :: bs) = b :: zero_padded n bs.
Proof.
  unfold zero_padded; cbn [app]; rewrite firstn_cons; f_equal.
  rewrite !take_app; f_equal; unfold zeros; rewrite !take_replicate; f_equal; lia.
Qed.

Lemma zero_padded_S n bs :
  zero_padded (S n) bs = zero_padded n bs ++ [default Byte.x00 (bs !! n)].
Proof.
  unfold zero_padded; rewrite take_S_r with (x := default Byte.x00 (bs !! n)).
  - f_equal; rewrite !take_app; f_equal; unfold zeros; rewrite !take_replicate; f_equal; lia.
  - destruct (bs !! n) as [b|] eqn:E; [by apply lookup_app_l_Some|].
    apply lookup_ge_None in E; rewrite lookup_app_r by lia.
    apply lookup_replicate_2; lia.
Qed.

Lemma zero_padded_nil n : zero_padded n [] = zeros n.
Proof. unfold zero_padded, zeros; cbn; rewrite take_replicate; f_equal; lia. Qed.

Lemma zeros_le bs : bytes_le (zeros (length bs)) bs.
Proof.
  unfold bytes_le, zeros; induction bs as [|b bs IH]; [done|]; cbn [length replicate bytes_cmp].
  rewrite u8_x00; pose proof (u8_range b).
  destruct (Z.compare_spec 0 (u8 b)); [done | done | lia].
Qed.

Lemma zero_padded_mono n a b : bytes_le a b -> bytes_le (zero_padded n a) (zero_padded n b).
Proof.
  revert a b; induction n as [|n IH]; intros [|x a] [|y b] Hle; try done.
  - rewrite zero_padded_nil; pose proof (len_zero_padded (S n) (y :: b)) as Hl.
    replace (S n) with (length (zero_padded (S n) (y :: b))) at 1 by (unfold len in *; lia).
    apply zeros_le.
  - rewrite !zero_padded_cons; unfold bytes_le in *; cbn [bytes_cmp] in *.
    destruct (u8 x ?= u8 y); auto.
Qed.

(** ** Tables of words *)

Definition u32_table (l : list Z) : bytes := concat (map u32_le l).

Lemma len_u32_table l : len (u32_table l) = 4 * len l.
Proof.
  unfold u32_table; induction l as [|x l IH]; [done|]; cbn [map concat]; len_simpl; lia.
Qed.

Lemma u32_table_app l1 l2 : u32_table (l1 ++ l2) = u32_table l1 ++ u32_table l2.
Proof. unfold u32_table; by rewrite map_app, concat_app. Qed.

Lemma slice_u32_table p l q (j : nat) x : l !! j = Some x ->
  slice (p ++ u32_table l ++ q) (len p + 4 * Z.of_nat j) (len p + 4 * Z.of_nat j + 4) = Some (u32_le x).
Proof.
  intros Hx; rewrite <- (take_drop_middle l j x Hx), u32_table_app.
  change (x :: drop (S j) l) with ([x] ++ drop (S j) l); rewrite u32_table_app, <- !app_assoc, app_assoc.
  apply slice_mid; rewrite ?len_app, ?len_u32_table, ?len_take; [| reflexivity].
  pose proof (lookup_lt_Some _ _ _ Hx); unfold len; lia.
Qed.

Lemma fold_u32_table l : forall out, fold_left (fun out x => out ++ u32_le x) l out = out ++ u32_table l.
Proof.
  induction l as [|x l IH]; intros out; cbn [fold_left]; [by rewrite app_nil_r|].
  rewrite IH; unfold u32_table; cbn [map concat]; by rewrite <- app_assoc.
Qed.

#[export] Hint Rewrite len_u32_table : len.
