(* ===== verification/Lsn.v ===== *)
(** * Sequence numbers and locations ([format/lsn.rs], [format/loc.rs])

    The per reel append counter as a value threaded through its atomic operations. Each operation is
    one read-modify-write, so a run of concurrent callers is some sequence of them, and the theorem
    below is stated over every such sequence. *)
From S2P Require Import Prelude Error Bytes.

(** ** Data *)

Abbreviation Lsn := Z (only parsing).
Abbreviation SegmentId := Z (only parsing).
Abbreviation SegmentIncarnation := Z (only parsing).

Definition FIRST_LSN : Z := 1.
Definition Lsn_NONE : Lsn := 0.

Definition Lsn_pack (l : Lsn) : bytes := u64_le l.
Definition Lsn_unpack (bs : bytes) : Lsn := le_val bs.

Definition SegmentIncarnation_NONE : SegmentIncarnation := 0.
Definition SegmentIncarnation_is_none (i : SegmentIncarnation) : bool :=
  i =? SegmentIncarnation_NONE.

Record Loc := mkLoc { loc_segment : SegmentId; loc_offset : Z; loc_len : Z }.
Definition Loc_new (segment : SegmentId) (offset length : Z) : Loc :=
  mkLoc segment offset length.

Global Instance Loc_eq_dec : EqDecision Loc.
Proof. solve_decision. Defined.

(** ** The counter *)

Definition LsnCounter_new : Z := FIRST_LSN.

(** Each operation takes the counter and gives back the counter and what it returned. *)
Definition LsnCounter_issue (c : Z) : Z * Lsn := (as_u64 (c + 1), c).
Definition LsnCounter_issue_run (c count : Z) : Z * Lsn := (as_u64 (c + count), c).
Definition LsnCounter_peek (c : Z) : Lsn := c.
Definition LsnCounter_recover_to (c highest_seen : Z) : Z :=
  let floor := Z.max (u64_saturating_add highest_seen 1) FIRST_LSN in
  Z.max c floor.

Inductive CounterOp :=
| Issue
| IssueRun (count : Z)
| RecoverTo (highest_seen : Lsn).

(** One atomic operation, and the run of numbers it handed out: first and count. *)
Definition counter_step (c : Z) (op : CounterOp) : Z * option (Lsn * Z) :=
  match op with
  | Issue => let '(c', l) := LsnCounter_issue c in (c', Some (l, 1))
  | IssueRun count => let '(c', l) := LsnCounter_issue_run c count in (c', Some (l, count))
  | RecoverTo h => (LsnCounter_recover_to c h, None)
  end.

Fixpoint counter_run (c : Z) (ops : list CounterOp) : Z * list (Lsn * Z) :=
  match ops with
  | [] => (c, [])
  | op :: ops =>
      let '(c', issued) := counter_step c op in
      let '(c'', runs) := counter_run c' ops in
      (c'', match issued with Some r => r :: runs | None => runs end)
  end.

(** Where the counter stands on unbounded integers, which bounds it away from wrapping. *)
Fixpoint counter_ideal (c : Z) (ops : list CounterOp) : Z :=
  match ops with
  | [] => c
  | Issue :: ops => counter_ideal (c + 1) ops
  | IssueRun n :: ops => counter_ideal (c + n) ops
  | RecoverTo h :: ops => counter_ideal (Z.max c (h + 1)) ops
  end.

Definition op_ok (op : CounterOp) : Prop :=
  match op with
  | Issue => True
  | IssueRun n => 0 <= n
  | RecoverTo h => is_u64 h
  end.

(** ** Properties *)

Lemma Lsn_roundtrip l : is_u64 l -> Lsn_unpack (Lsn_pack l) = l.
Proof. apply le_val_u64. Qed.

Lemma counter_ideal_ge c ops : Forall op_ok ops -> c <= counter_ideal c ops.
Proof.
  intros H; revert c; induction H as [|[|n|h] ops Hop _ IH]; intros c; cbn in *; [lia|..].
  - specialize (IH (c + 1)); lia.
  - specialize (IH (c + n)); lia.
  - specialize (IH (Z.max c (h + 1))); lia.
Qed.

(** One operation below the wrap moves the counter up, past exactly the run it handed out. *)
Lemma counter_step_spec c op ops :
  op_ok op -> Forall op_ok ops -> 1 <= c -> counter_ideal c (op :: ops) < U64 ->
  exists c' o, counter_step c op = (c', o) /\ c <= c'
    /\ counter_ideal c (op :: ops) = counter_ideal c' ops
    /\ match o with Some r => r.1 = c /\ r.1 + r.2 = c' | None => True end.
Proof.
  intros Hop Hops Hc Hwrap; destruct op as [|n|h]; cbn in *;
    unfold LsnCounter_issue, LsnCounter_issue_run, LsnCounter_recover_to, u64_saturating_add, FIRST_LSN.
  - pose proof (counter_ideal_ge (c + 1) ops Hops).
    rewrite as_u64_small by (unfold is_u64; lia).
    exists (c + 1), (Some (c, 1)); split_and!; [done | lia | done | done | done].
  - pose proof (counter_ideal_ge (c + n) ops Hops).
    rewrite as_u64_small by (unfold is_u64; lia).
    exists (c + n), (Some (c, n)); split_and!; [done | lia | done | done | done].
  - pose proof (counter_ideal_ge (Z.max c (h + 1)) ops Hops); unfold is_u64 in *.
    do 2 eexists; split_and!; [done | lia | f_equal; lia | done].
Qed.

Lemma counter_ideal_app c ops1 ops2 :
  counter_ideal c (ops1 ++ ops2) = counter_ideal (counter_ideal c ops1) ops2.
Proof. revert c; induction ops1 as [|[|n|h] ops1 IH]; intros c; cbn; auto. Qed.

Lemma counter_run_app c ops1 ops2 :
  counter_run c (ops1 ++ ops2) =
  let before := counter_run c ops1 in
  let after := counter_run before.1 ops2 in
  (after.1, before.2 ++ after.2).
Proof.
  revert c; induction ops1 as [|op ops1 IH]; intros c; cbn; [by destruct (counter_run c ops2)|].
  destruct (counter_step c op) as [c' o]; rewrite IH.
  destruct (counter_run c' ops1) as [c'' runs]; cbn; by destruct o.
Qed.

Lemma recover_to_max c h : is_u64 h -> h + 1 < U64 -> 1 <= c ->
  LsnCounter_recover_to c h = Z.max c (h + 1).
Proof. unfold LsnCounter_recover_to, u64_saturating_add, FIRST_LSN, is_u64; lia. Qed.

Lemma counter_run_ascends c ops :
  Forall op_ok ops -> 1 <= c -> counter_ideal c ops < U64 ->
  (counter_run c ops).1 = counter_ideal c ops
  /\ StronglySorted (fun r s => r.1 + r.2 <= s.1) ((c, 0) :: (counter_run c ops).2)
  /\ Forall (fun r => r.1 + r.2 <= counter_ideal c ops) (counter_run c ops).2.
Proof.
  intros H; revert c; induction H as [|op ops Hop Hops IH]; intros c Hc Hwrap.
  { cbn; split_and!; repeat constructor; cbn; lia. }
  destruct (counter_step_spec c op ops Hop Hops Hc Hwrap) as (c' & o & Es & Hle & Ei & Ho).
  rewrite Ei in Hwrap |- *; cbn [counter_run]; rewrite Es.
  destruct (IH c' ltac:(lia) Hwrap) as (Er & Hs & Hf).
  pose proof (counter_ideal_ge c' ops Hops).
  destruct (counter_run c' ops) as [c'' runs]; cbn [snd fst] in *.
  apply StronglySorted_inv in Hs as [Hs Hall].
  assert (Forall (fun s : Z * Z => c <= s.1) runs)
    by (eapply Forall_impl; [exact Hall|]; cbn; lia).
  destruct o as [r|]; cbn [fst snd]; split_and!; auto.
  - constructor; [constructor; [done|] | constructor; cbn; [lia|]].
    + eapply Forall_impl; [exact Hall|]; cbn; lia.
    + eapply Forall_impl; [done|]; cbn; lia.
  - constructor; [lia | done].
  - constructor; [done|]; eapply Forall_impl; [done|]; cbn; lia.
Qed.

(** Over any sequence of issues, batch issues and recoveries from a fresh counter that stays
    below the 64 bit wrap, the runs of numbers handed out ascend and never overlap, no run hands out
    the reserved zero, and every number issued after recovering to a number found on disk exceeds
    it. *)
Lemma counter_issues_fresh ops1 h ops2 :
  Forall op_ok (ops1 ++ RecoverTo h :: ops2) ->
  counter_ideal LsnCounter_new (ops1 ++ RecoverTo h :: ops2) < U64 ->
  let before := counter_run LsnCounter_new ops1 in
  let after := counter_run (LsnCounter_recover_to before.1 h) ops2 in
  counter_run LsnCounter_new (ops1 ++ RecoverTo h :: ops2) = (after.1, before.2 ++ after.2)
  /\ StronglySorted (fun r s => r.1 + r.2 <= s.1) (before.2 ++ after.2)
  /\ Forall (fun r => Lsn_NONE < r.1) (before.2 ++ after.2)
  /\ Forall (fun r => h < r.1) after.2.
Proof.
  intros Hok Hwrap before after.
  assert (counter_run LsnCounter_new (ops1 ++ RecoverTo h :: ops2) = (after.1, before.2 ++ after.2)) as E.
  { rewrite counter_run_app; cbn; subst before after; by destruct (counter_run _ ops2). }
  split; [done|].
  destruct (counter_run_ascends LsnCounter_new _ Hok ltac:(done) Hwrap) as (_ & Hs & _).
  rewrite E in Hs; cbn [snd] in Hs; apply StronglySorted_inv in Hs as [Hs Hall].
  split_and!; [done | eapply Forall_impl; [exact Hall|]; cbn;
    unfold LsnCounter_new, FIRST_LSN, Lsn_NONE; lia |].
  apply Forall_app in Hok as [Hok1 [Hh Hok2]%Forall_cons].
  rewrite counter_ideal_app in Hwrap; cbn [counter_ideal] in Hwrap.
  pose proof (counter_ideal_ge LsnCounter_new ops1 Hok1) as H1; change LsnCounter_new with 1 in H1.
  pose proof (counter_ideal_ge (Z.max (counter_ideal LsnCounter_new ops1) (h + 1)) _ Hok2) as H2.
  destruct (counter_run_ascends LsnCounter_new ops1 Hok1 ltac:(done) ltac:(lia)) as (Hb & _).
  subst after before; rewrite Hb, recover_to_max by (cbn in Hh; auto; unfold LsnCounter_new, FIRST_LSN in *; lia).
  destruct (counter_run_ascends (Z.max (counter_ideal LsnCounter_new ops1) (h + 1)) ops2 Hok2)
    as (_ & Hs2 & _); [change LsnCounter_new with 1; lia | done |].
  apply StronglySorted_inv in Hs2 as [_ Hall2]; eapply Forall_impl; [exact Hall2|]; cbn; lia.
Qed.

Lemma counter_issues_fresh_witness :
  Forall (fun r => 41 < r.1) (counter_run (LsnCounter_recover_to (counter_run LsnCounter_new [Issue; IssueRun 3]).1 41) [Issue; Issue]).2.
Proof.
  apply (counter_issues_fresh [Issue; IssueRun 3] 41 [Issue; Issue]).
  - repeat constructor; cbn; unfold is_u64, U64; lia.
  - reflexivity.
Defined.
