(* ===== verification/Column.v ===== *)
(** * Columns and keys ([format/column.rs])

    Keys in their three representations, compared through the bytes they stand for; column widths,
    purge marks and index shards. *)
From S2P Require Import Prelude Error Bytes.

(** ** Constants *)

Definition MAX_KEY_LEN : Z := 1056.
Definition INLINE_KEY_LEN : Z := 108.
Definition SHORT_KEY_LEN : Z := 40.
Definition MARK_LEN : Z := 8.

(** ** Codecs and columns *)

Inductive Codec := CodecNone | Lz4.

Definition Codec_as_byte (c : Codec) : Z :=
  match c with CodecNone => 0 | Lz4 => 1 end.

Abbreviation ColumnId := Z (only parsing).

(** ** Key bytes *)

Inductive KeyBytes :=
| Inline (width : Z) (bs : bytes)
| Boxed (bs : bytes)
| Spilled (bs : bytes).

Definition KeyBytes_new (bs : bytes) : res KeyBytes :=
  if len bs >? MAX_KEY_LEN then
    Err (Rejected "a key of {} bytes is wider than the {MAX_KEY_LEN} byte maximum")
  else if len bs >? INLINE_KEY_LEN then Ok (Spilled bs)
  else if len bs >? SHORT_KEY_LEN then Ok (Boxed bs)
  else
    let inline := put (zeros (Z.to_nat SHORT_KEY_LEN)) 0 bs in
    Ok (Inline (as_u8 (len bs)) inline).

Definition KeyBytes_empty : KeyBytes := Inline 0 (zeros (Z.to_nat SHORT_KEY_LEN)).

Definition KeyBytes_as_slice (k : KeyBytes) : bytes :=
  match k with
  | Inline width bs => take (Z.to_nat width) bs
  | Boxed bs => bs
  | Spilled bs => bs
  end.

Definition KeyBytes_width (k : KeyBytes) : Z :=
  match k with
  | Inline width _ => width
  | Boxed bs => as_u16 (len bs)
  | Spilled bs => as_u16 (len bs)
  end.

Definition KeyBytes_spilled_bytes (k : KeyBytes) : option bytes :=
  match k with
  | Inline _ _ | Boxed _ => None
  | Spilled bs => Some bs
  end.

Definition KeyBytes_eq (a b : KeyBytes) : bool :=
  bytes_eqb (KeyBytes_as_slice a) (KeyBytes_as_slice b).

Definition KeyBytes_cmp (a b : KeyBytes) : comparison :=
  bytes_cmp (KeyBytes_as_slice a) (KeyBytes_as_slice b).

(** ** Record keys *)

Record RecordKey := mkRecordKey { rk_column : ColumnId; rk_key : KeyBytes }.

Record KeyRef := mkKeyRef { kr_column : ColumnId; kr_bytes : bytes }.

Definition RecordKey_new (column : ColumnId) (key : KeyBytes) : RecordKey :=
  mkRecordKey column key.

Definition RecordKey_from_bytes (column : ColumnId) (bs : bytes) : res RecordKey :=
  k ← KeyBytes_new bs; Ok (RecordKey_new column k).

Definition RecordKey_none : RecordKey := RecordKey_new 0 KeyBytes_empty.
Definition RecordKey_as_slice (k : RecordKey) : bytes := KeyBytes_as_slice (rk_key k).
Definition RecordKey_as_ref (k : RecordKey) : KeyRef :=
  mkKeyRef (rk_column k) (KeyBytes_as_slice (rk_key k)).
Definition RecordKey_width (k : RecordKey) : Z := KeyBytes_width (rk_key k).

Definition KeyRef_width (k : KeyRef) : Z := len (kr_bytes k).
Definition KeyRef_to_owned_key (k : KeyRef) : res RecordKey :=
  RecordKey_from_bytes (kr_column k) (kr_bytes k).

(** Derived [Ord]: the column, then the key. *)
Definition RecordKey_cmp (a b : RecordKey) : comparison :=
  match rk_column a ?= rk_column b with
  | Eq => KeyBytes_cmp (rk_key a) (rk_key b)
  | c => c
  end.

(** ** Widths, marks and shards *)

Inductive KeyWidth := Fixed (width : Z) | Variable_.

Definition KeyWidth_fixed (w : KeyWidth) : option Z :=
  match w with Fixed width => Some width | Variable_ => None end.

Definition KeyWidth_admits (w : KeyWidth) (n : Z) : bool :=
  match w with
  | Fixed width => n =? width
  | Variable_ => n <=? MAX_KEY_LEN
  end.

Record PurgeMark := mkPurgeMark { pm_at : Z }.

Definition PurgeMark_read (m : PurgeMark) (key : bytes) : Z :=
  let at_ := pm_at m in
  match slice key at_ (at_ + MARK_LEN) with
  | None => 0
  | Some mark => be_val mark
  end.

Record ColumnSpec := mkColumnSpec {
  cs_id : ColumnId;
  cs_name : string;
  cs_key_width : KeyWidth;
  cs_shard_bytes : Z;
  cs_purge_mark : option PurgeMark;
  cs_codec : Codec;
}.

Definition ColumnSpec_mark_of (s : ColumnSpec) (key : bytes) : option Z :=
  m ← cs_purge_mark s; Some (PurgeMark_read m key).

Definition ColumnSpec_shard_count (s : ColumnSpec) : Z := Z.shiftl 1 (8 * cs_shard_bytes s).

(** The loop body: shift the shard up and take in one more leading byte, absent bytes as zero. *)
Definition shard_step (key : bytes) (shard : Z) (at_ : nat) : Z :=
  let b := match get key (Z.of_nat at_) with Some b => u8 b | None => 0 end in
  Z.lor (as_u64 (Z.shiftl shard 8)) b.

Definition ColumnSpec_shard_of (s : ColumnSpec) (key : bytes) : Z :=
  fold_left (shard_step key) (seq 0 (Z.to_nat (cs_shard_bytes s))) 0.

Definition spec_by_name (columns : list ColumnSpec) (name : string) : option ColumnSpec :=
  List.find (fun spec => String.eqb (cs_name spec) name) columns.

(** ** Well-formed keys

    [KeyBytes_new] picks one representation per byte string; a key built any other way is not made
    by this code. *)

Definition key_wf (k : KeyBytes) : Prop := KeyBytes_new (KeyBytes_as_slice k) = Ok k.
Definition record_key_wf (k : RecordKey) : Prop := is_u8 (rk_column k) /\ key_wf (rk_key k).

(** ** Key lemmas *)

Lemma put_zeros n (bs : bytes) : len bs <= Z.of_nat n ->
  put (zeros n) 0 bs = bs ++ zeros (n - length bs).
Proof.
  intros; unfold put; rewrite take_0; cbn [app Nat.add]; unfold zeros.
  by rewrite drop_replicate.
Qed.

Lemma KeyBytes_new_slice bs k : KeyBytes_new bs = Ok k -> KeyBytes_as_slice k = bs /\ len bs <= MAX_KEY_LEN.
Proof.
  unfold KeyBytes_new, MAX_KEY_LEN, INLINE_KEY_LEN, SHORT_KEY_LEN.
  destruct (len bs >? 1056) eqn:?; [done|].
  destruct (len bs >? 108) eqn:?; [intros [= <-]; split; [done | lia]|].
  destruct (len bs >? 40) eqn:?; [intros [= <-]; split; [done | lia]|].
  intros [= <-]; split; [| lia]; cbn [KeyBytes_as_slice].
  rewrite put_zeros, as_u8_small, to_nat_len, take_app_length; [done|..].
  - unfold is_u8, U8; len_lia.
  - lia.
Qed.

Lemma KeyBytes_new_total bs : len bs <= MAX_KEY_LEN -> exists k, KeyBytes_new bs = Ok k.
Proof.
  unfold KeyBytes_new; intros; destruct (len bs >? MAX_KEY_LEN) eqn:E; [lia|].
  destruct (len bs >? INLINE_KEY_LEN), (len bs >? SHORT_KEY_LEN); eauto.
Qed.

Lemma key_wf_new bs k : KeyBytes_new bs = Ok k -> key_wf k.
Proof. intros H; unfold key_wf; by destruct (KeyBytes_new_slice _ _ H) as [-> _]. Qed.

Lemma key_wf_len k : key_wf k -> len (KeyBytes_as_slice k) <= MAX_KEY_LEN.
Proof. intros H; apply KeyBytes_new_slice in H as [_ ?]; done. Qed.

Lemma key_wf_inj a b : key_wf a -> key_wf b -> KeyBytes_as_slice a = KeyBytes_as_slice b -> a = b.
Proof. unfold key_wf; congruence. Qed.

Lemma key_wf_width k : key_wf k -> KeyBytes_width k = len (KeyBytes_as_slice k).
Proof.
  intros H; pose proof (key_wf_len k H) as Hl; unfold key_wf in H; revert H Hl.
  generalize (KeyBytes_as_slice k) as bs; intros bs; unfold KeyBytes_new, MAX_KEY_LEN.
  intros H Hl; destruct (len bs >? 1056) eqn:?; [lia|]; revert H.
  destruct (len bs >? INLINE_KEY_LEN) eqn:?, (len bs >? SHORT_KEY_LEN) eqn:?; intros [= <-];
    cbn [KeyBytes_width]; unfold SHORT_KEY_LEN, INLINE_KEY_LEN in *;
    first [rewrite as_u16_small | rewrite as_u8_small]; unfold is_u16, is_u8, U16, U8; len_lia.
Qed.

Lemma key_wf_spilled k : key_wf k ->
  KeyBytes_spilled_bytes k =
    if len (KeyBytes_as_slice k) >? INLINE_KEY_LEN then Some (KeyBytes_as_slice k) else None.
Proof.
  intros H; pose proof (key_wf_len k H) as Hl; unfold key_wf in H; revert H Hl.
  generalize (KeyBytes_as_slice k) as bs; intros bs; unfold KeyBytes_new, MAX_KEY_LEN.
  intros H Hl; destruct (len bs >? 1056) eqn:?; [lia|]; revert H.
  destruct (len bs >? INLINE_KEY_LEN) eqn:?; [by intros [= <-]|].
  by destruct (len bs >? SHORT_KEY_LEN) eqn:?; intros [= <-].
Qed.

Lemma RecordKey_from_bytes_ok column bs k :
  RecordKey_from_bytes column bs = Ok k ->
  rk_column k = column /\ RecordKey_as_slice k = bs /\ key_wf (rk_key k).
Proof.
  unfold RecordKey_from_bytes; intros; res_inv; subst; cbn.
  split_and!; [done | by apply KeyBytes_new_slice | by eapply key_wf_new].
Qed.

Lemma RecordKey_from_slice k : key_wf (rk_key k) ->
  RecordKey_from_bytes (rk_column k) (RecordKey_as_slice k) = Ok k.
Proof.
  destruct k as [c k]; unfold RecordKey_from_bytes, RecordKey_as_slice, key_wf; cbn.
  by intros ->.
Qed.

Lemma RecordKey_from_bytes_total column bs :
  len bs <= MAX_KEY_LEN -> exists k, RecordKey_from_bytes column bs = Ok k.
Proof. intros (k & E)%KeyBytes_new_total; unfold RecordKey_from_bytes; rewrite E; cbn; eauto. Qed.

Lemma KeyBytes_empty_wf : key_wf KeyBytes_empty.
Proof. reflexivity. Qed.

(** ** Shards and marks *)

Lemma shard_step_val key shard i : 0 <= shard < 2 ^ 56 ->
  shard_step key shard i = shard * 256 + match key !! i with Some b => u8 b | None => 0 end.
Proof.
  intros Hs; unfold shard_step; rewrite get_lookup.
  set (b := match key !! i with Some b => u8 b | None => 0 end).
  assert (0 <= b < 256) by (subst b; destruct (key !! i); [apply u8_range | lia]).
  rewrite Z.shiftl_mul_pow2, as_u64_small by (unfold is_u64, U64; lia).
  by rewrite lor_shifted.
Qed.

(** The shard is the leading bytes of the key, zero-filled, read big endian. *)
Lemma shard_of_be s key : 0 <= cs_shard_bytes s <= 7 ->
  ColumnSpec_shard_of s key = be_val (zero_padded (Z.to_nat (cs_shard_bytes s)) key).
Proof.
  intros Hs; unfold ColumnSpec_shard_of.
  assert (Z.to_nat (cs_shard_bytes s) <= 7)%nat as Hn by lia.
  revert Hn; generalize (Z.to_nat (cs_shard_bytes s)) as n; clear Hs s; intros n Hn.
  assert (forall m, (m <= n)%nat ->
    fold_left (shard_step key) (seq 0 m) 0 = be_val (zero_padded m key)) as H; [| by apply H].
  induction m as [|m IH]; intros Hm; [done|].
  rewrite seq_S, fold_left_app, IH by lia; cbn [fold_left Nat.add].
  pose proof (be_val_range (zero_padded m key)) as R; rewrite len_zero_padded in R.
  rewrite shard_step_val.
  2:{ assert (256 ^ Z.of_nat m <= 256 ^ 6); [apply Z.pow_le_mono_r; lia | lia]. }
  rewrite zero_padded_S, be_val_snoc; destruct (key !! m); cbn [from_option id]; rewrite ?u8_x00; lia.
Qed.

(** a column's shard number is always below its shard count and never falls as keys rise, so
    walking the shards in order walks the keys in order. *)
Lemma shard_of_ordered s a b :
  0 <= cs_shard_bytes s <= 7 -> bytes_le a b ->
  0 <= ColumnSpec_shard_of s a <= ColumnSpec_shard_of s b
  /\ ColumnSpec_shard_of s b < ColumnSpec_shard_count s.
Proof.
  intros Hs Hle; rewrite !shard_of_be by done; unfold ColumnSpec_shard_count.
  set (n := Z.to_nat (cs_shard_bytes s)).
  pose proof (be_val_range (zero_padded n a)); pose proof (be_val_range (zero_padded n b)) as Rb.
  rewrite len_zero_padded in Rb; rewrite Z.shiftl_1_l.
  replace (2 ^ (8 * cs_shard_bytes s)) with (256 ^ Z.of_nat n)
    by (change 256 with (2 ^ 8); rewrite <- Z.pow_mul_r by lia; f_equal; lia).
  pose proof (zero_padded_mono n _ _ Hle) as Hm; unfold bytes_le in Hm.
  rewrite <- be_val_cmp in Hm by (by rewrite !len_zero_padded).
  apply Z.compare_le_iff in Hm; split_and!; [apply be_val_range | done | apply Rb].
Qed.

Definition demo_spec : ColumnSpec := mkColumnSpec 1 "slices" Variable_ 2 (Some (mkPurgeMark 2)) Lz4.

Lemma shard_of_ordered_witness :
  0 <= ColumnSpec_shard_of demo_spec [Byte.x01] <= ColumnSpec_shard_of demo_spec [Byte.x01; Byte.x02; Byte.x09]
  /\ ColumnSpec_shard_of demo_spec [Byte.x01; Byte.x02; Byte.x09] < ColumnSpec_shard_count demo_spec.
Proof. apply (shard_of_ordered demo_spec); [cbn; lia | vm_compute; discriminate]. Defined.

(** two keys that agree up to the purge mark and are long enough to hold it sort by the mark
    first: the smaller mark is the smaller key, whatever follows. *)
Lemma purge_mark_ordered m (p m1 r1 m2 r2 : bytes) :
  pm_at m = len p -> len m1 = MARK_LEN -> len m2 = MARK_LEN ->
  PurgeMark_read m (p ++ m1 ++ r1) < PurgeMark_read m (p ++ m2 ++ r2) ->
  bytes_lt (p ++ m1 ++ r1) (p ++ m2 ++ r2).
Proof.
  intros Hat H1 H2; unfold PurgeMark_read.
  rewrite !slice_mid by (rewrite ?H1, ?H2; done || lia).
  intros Hlt; apply Z.compare_lt_iff in Hlt; rewrite be_val_cmp in Hlt by lia.
  unfold bytes_lt; rewrite bytes_cmp_app.
  assert (Hl : length m1 = length m2) by (unfold len in *; lia).
  clear - Hlt Hl; revert m2 Hlt Hl; induction m1 as [|x m1 IH]; intros [|y m2]; cbn; try done.
  destruct (u8 x ?= u8 y); auto.
Qed.

Lemma purge_mark_ordered_witness :
  bytes_lt ([Byte.x07; Byte.x07] ++ u64_le 0 ++ [Byte.xff]) ([Byte.x07; Byte.x07] ++ u64_le 256 ++ []).
Proof. apply (purge_mark_ordered (mkPurgeMark 2)); reflexivity. Defined.
