(* ===== verification/Checksum.v ===== *)
(** * Checksums the format relies on

    The record and footer checksum comes from the [crc-fast] package and the keyless check from
    [siphasher], neither of them part of the repository. They are operations of a class here, and
    what the format relies on is the laws class: results at their width, and a digest fed piece by
    piece giving the checksum of the pieces joined. The instance at the end computes CRC-32C bit by
    bit, so the laws can hold and witnesses can run. *)
From S2P Require Import Prelude Error Bytes.

Class Checksum := {
  (** [crc_fast::checksum(Crc32Iscsi, bytes) as u32] *)
  crc_checksum : bytes -> Z;
  (** [Digest::new(Crc32Iscsi)], an [update] per piece, [finalize() as u32] *)
  crc_digest : list bytes -> Z;
  (** [SipHasher13::new_with_key(key)], a [write] per piece, [finish()] *)
  siphash13 : bytes -> list bytes -> Z;
}.

Class ChecksumLaws `{Checksum} := {
  crc_checksum_u32 bs : is_u32 (crc_checksum bs);
  crc_digest_concat pieces : crc_digest pieces = crc_checksum (concat pieces);
  siphash13_u64 key pieces : is_u64 (siphash13 key pieces);
}.

Section laws.
Context `{ChecksumLaws}.

Lemma crc_digest_u32 pieces : is_u32 (crc_digest pieces).
Proof. rewrite crc_digest_concat; apply crc_checksum_u32. Qed.

End laws.

#[export] Hint Resolve crc_checksum_u32 crc_digest_u32 siphash13_u64 : reel.

(** ** An instance that runs *)

Definition crc32c_bit (c : Z) : Z :=
  if Z.odd c then Z.lxor (Z.shiftr c 1) 2197175160 else Z.shiftr c 1.

Definition crc32c_byte (c : Z) (b : byte) : Z :=
  Nat.iter 8 crc32c_bit (Z.lxor c (u8 b)).

Definition crc32c (bs : bytes) : Z :=
  as_u32 (Z.lxor (fold_left crc32c_byte bs 4294967295) 4294967295).

#[export] Instance demo_checksum : Checksum := {
  crc_checksum := crc32c;
  crc_digest pieces := crc32c (concat pieces);
  siphash13 key pieces :=
    crc32c (key ++ concat pieces) * 4294967296 + crc32c (concat pieces ++ key);
}.

#[export] Instance demo_checksum_laws : ChecksumLaws.
Proof.
  split; cbn.
  - intros; apply Z.mod_pos_bound; done.
  - done.
  - intros; unfold is_u64, U64, crc32c, as_u32, U32.
    pose proof (Z.mod_pos_bound (Z.lxor (fold_left crc32c_byte (key ++ concat pieces) 4294967295) 4294967295) 4294967296 ltac:(lia)).
    pose proof (Z.mod_pos_bound (Z.lxor (fold_left crc32c_byte (concat pieces ++ key) 4294967295) 4294967295) 4294967296 ltac:(lia)).
    lia.
Qed.

(** The check value of CRC-32C over the digits 1 to 9. *)
Example crc32c_check :
  crc32c (map (fun z => byte_of z) [49; 50; 51; 52; 53; 54; 55; 56; 57]) = 3808858755.
Proof. vm_compute; reflexivity. Qed.
