(* ===== verification/Record.v ===== *)
(** * Records ([format/record.rs])

    The keyed record header and the keyless prefix: their flags, bytes, spans and checks. *)
From S2P Require Import Prelude Error Bytes Checksum Lsn Column.

(** ** Constants *)

Definition HEADER_LEN : Z := 21.
Definition PREFIX_CAP : Z := HEADER_LEN + INLINE_KEY_LEN.
Definition BLOCK : Z := 4096.
Definition KEYLESS_PREFIX : Z := 10.
Definition KEYLESS_MAX : Z := 4096.
Definition KEYLESS_CHECK_AT : Z := 0.
Definition KEYLESS_SHAPE_AT : Z := 8.
Definition CODEC_BITS : Z := 2.
Definition CHECK_KEY_LEN : Z := 16.

Definition OFFSET_LENGTH : Z := 0.
Definition OFFSET_CRC : Z := 4.
Definition OFFSET_LSN : Z := 8.
Definition OFFSET_FLAGS : Z := 16.
Definition OFFSET_COLUMN : Z := 17.
Definition OFFSET_KEY_WIDTH : Z := 18.
Definition OFFSET_CODEC : Z := 20.

Definition KIND_MASK : Z := 31.
Definition FLAG_TOMBSTONE : Z := 1.
Definition FLAG_RANGE_TOMBSTONE : Z := 2.
Definition FLAG_SEGMENT_HEADER : Z := 8.
Definition FLAG_RELOCATED : Z := 64.
Definition CONTROL_MASK : Z := FLAG_SEGMENT_HEADER.
Definition MARK_MASK : Z := FLAG_RELOCATED.
Definition KNOWN_MASK : Z := Z.lor KIND_MASK MARK_MASK.

(** [read_u16_le], [read_u32_le], [read_u64_le] on slices of exactly that many bytes. *)
Definition read_u16_le (bs : bytes) : Z := le_val bs.
Definition read_u32_le (bs : bytes) : Z := le_val bs.
Definition read_u64_le (bs : bytes) : Z := le_val bs.

(** ** Flags *)

Abbreviation Flags := Z (only parsing).

Definition Flags_DATA : Flags := 0.
Definition Flags_TOMBSTONE : Flags := FLAG_TOMBSTONE.
Definition Flags_RANGE_TOMBSTONE : Flags := FLAG_RANGE_TOMBSTONE.
Definition Flags_SEGMENT_HEADER : Flags := FLAG_SEGMENT_HEADER.

Definition Flags_relocated (f : Flags) : Flags := Z.lor f FLAG_RELOCATED.
Definition Flags_is_data (f : Flags) : bool := Z.land f KIND_MASK =? 0.
Definition Flags_is_tombstone (f : Flags) : bool := negb (Z.land f FLAG_TOMBSTONE =? 0).
Definition Flags_is_range_tombstone (f : Flags) : bool := negb (Z.land f FLAG_RANGE_TOMBSTONE =? 0).
Definition Flags_is_segment_header (f : Flags) : bool := negb (Z.land f FLAG_SEGMENT_HEADER =? 0).
Definition Flags_is_relocated (f : Flags) : bool := negb (Z.land f FLAG_RELOCATED =? 0).
Definition Flags_is_control (f : Flags) : bool := negb (Z.land f CONTROL_MASK =? 0).

Definition u8_count_ones (z : Z) : Z :=
  fold_right (fun i n => n + if Z.testbit z i then 1 else 0) 0 [0; 1; 2; 3; 4; 5; 6; 7].

Definition Flags_from_bits (b : Z) : res Flags :=
  if negb (Z.land b (Z.lxor 255 KNOWN_MASK) =? 0) then
    Err (Corruption "record header carries a bit no writer sets: {byte:#010b}")
  else
  let kind := Z.land b KIND_MASK in
  if u8_count_ones kind >? 1 then
    Err (Corruption "record header carries more than one kind bit: {byte:#010b}")
  else
  if negb (Z.land kind CONTROL_MASK =? 0) && negb (Z.land b MARK_MASK =? 0) then
    Err (Corruption "record header marks a control record: {byte:#010b}")
  else Ok b.

(** ** The bytes ahead of a payload *)

Record RecordPrefix := mkRecordPrefix {
  rp_bytes : bytes;
  rp_len : Z;
  rp_tail : option bytes;
}.

Definition RecordPrefix_as_slice (p : RecordPrefix) : bytes := take (Z.to_nat (rp_len p)) (rp_bytes p).
Definition RecordPrefix_len (p : RecordPrefix) : Z :=
  rp_len p + match rp_tail p with Some t => len t | None => 0 end.

(** What the drain writes: the staged bytes, then a key too wide to stage. *)
Definition RecordPrefix_disk (p : RecordPrefix) : bytes :=
  RecordPrefix_as_slice p ++ default [] (rp_tail p).

Definition RecordPrefix_keyless (check shape : Z) : RecordPrefix :=
  let b := zeros (Z.to_nat PREFIX_CAP) in
  let b := put b 0 (u64_le check) in
  let b := put b 8 (u16_le shape) in
  mkRecordPrefix b KEYLESS_PREFIX None.

(** ** Layouts *)

Abbreviation CheckKey := bytes (only parsing).

Inductive RecordLayout := Keyed | Keyless (check : CheckKey).

Definition RecordLayout_KEYLESS : RecordLayout := Keyless (zeros (Z.to_nat CHECK_KEY_LEN)).

Definition RecordLayout_as_u8 (l : RecordLayout) : Z :=
  match l with Keyed => 0 | Keyless _ => 1 end.

Definition RecordLayout_is_keyless_layout (l : RecordLayout) : bool :=
  match l with Keyless _ => true | Keyed => false end.

Definition fits_keyless (n : Z) : bool := n <=? KEYLESS_MAX.

Definition RecordLayout_is_keyless (l : RecordLayout) (n : Z) : bool :=
  RecordLayout_is_keyless_layout l && fits_keyless n.

Definition RecordLayout_keyless_key (l : RecordLayout) (n : Z) : option CheckKey :=
  match l with
  | Keyless check => if fits_keyless n then Some check else None
  | Keyed => None
  end.

Definition RecordLayout_prefix_len (l : RecordLayout) (key_width n : Z) : Z :=
  if RecordLayout_is_keyless l n then KEYLESS_PREFIX else HEADER_LEN + key_width.

(** ** Headers *)

Record RecordHeader := mkRecordHeader {
  rh_length : Z;
  rh_crc : Z;
  rh_lsn : Lsn;
  rh_flags : Flags;
  rh_key : RecordKey;
  rh_codec : Z;
}.

Definition RecordHeader_has_payload (h : RecordHeader) : bool :=
  Flags_is_data (rh_flags h) || Flags_is_segment_header (rh_flags h)
  || Flags_is_range_tombstone (rh_flags h).

Definition RecordHeader_is_unwritten (h : RecordHeader) : bool :=
  Flags_is_data (rh_flags h) && (rh_lsn h =? Lsn_NONE).

Definition RecordHeader_prefix_len (h : RecordHeader) : Z :=
  HEADER_LEN + RecordKey_width (rh_key h).

Definition RecordHeader_span (h : RecordHeader) : Z :=
  RecordHeader_prefix_len h + rh_length h.

Definition RecordHeader_fits_within (h : RecordHeader) (remaining : Z) : bool :=
  RecordHeader_span h <=? remaining.

Definition RecordHeader_is_keyless_in (h : RecordHeader) (l : RecordLayout) : bool :=
  RecordLayout_is_keyless l (rh_length h) && negb (Flags_is_control (rh_flags h)).

Definition RecordHeader_span_in (h : RecordHeader) (l : RecordLayout) : Z :=
  if RecordHeader_is_keyless_in h l then KEYLESS_PREFIX + rh_length h
  else RecordHeader_span h.

(** The fixed part of the header, checksum field left zero. *)
Definition RecordHeader_fixed (h : RecordHeader) : bytes :=
  let out := zeros (Z.to_nat HEADER_LEN) in
  let out := put out 0 (u32_le (rh_length h)) in
  let out := put out 8 (Lsn_pack (rh_lsn h)) in
  let out := put out 16 [byte_of (rh_flags h)] in
  let out := put out 17 [byte_of (rk_column (rh_key h))] in
  let out := put out 18 (u16_le (RecordKey_width (rh_key h))) in
  put out 20 [byte_of (rh_codec h)].

Definition RecordHeader_pack (h : RecordHeader) : RecordPrefix :=
  let tail_ := KeyBytes_spilled_bytes (rk_key (rh_key h)) in
  let staged := match tail_ with
                | Some _ => HEADER_LEN
                | None => HEADER_LEN + RecordKey_width (rh_key h)
                end in
  let b := zeros (Z.to_nat PREFIX_CAP) in
  let b := put b 0 (RecordHeader_fixed h) in
  let b := put b 4 (u32_le (rh_crc h)) in
  let b := match tail_ with
           | None => put b 21 (RecordKey_as_slice (rh_key h))
           | Some _ => b
           end in
  mkRecordPrefix b staged tail_.

Definition RecordHeader_unpack (bs : bytes) : res RecordHeader :=
  if len bs <? HEADER_LEN then
    Err (Corruption "record header is shorter than one header")
  else
  length ← must (slice bs OFFSET_LENGTH OFFSET_CRC);
  crc ← must (slice bs OFFSET_CRC OFFSET_LSN);
  lsn ← must (slice bs OFFSET_LSN OFFSET_FLAGS);
  flags_byte ← must (get bs OFFSET_FLAGS);
  flags ← Flags_from_bits (u8 flags_byte);
  column ← must (get bs OFFSET_COLUMN);
  width ← must (slice bs OFFSET_KEY_WIDTH OFFSET_CODEC);
  let key_width := read_u16_le width in
  codec ← must (get bs OFFSET_CODEC);
  if key_width >? MAX_KEY_LEN then
    Err (Corruption "record header claims a key of {key_width} bytes")
  else
  if len bs <? HEADER_LEN + key_width then
    Err (Corruption "record header is shorter than the key it claims")
  else
  key_bytes ← must (slice bs HEADER_LEN (HEADER_LEN + key_width));
  key ← map_err (fun _ => Corruption "{error}") (RecordKey_from_bytes (u8 column) key_bytes);
  Ok (mkRecordHeader (read_u32_le length) (read_u32_le crc) (read_u64_le lsn)
        flags key (u8 codec)).

(** ** Reading a header in place *)

Definition data_codec (prefix : bytes) (key : KeyRef) (lsn : Lsn) (length : Z) : option Z :=
  fixed ← slice prefix 0 HEADER_LEN;
  f ← get fixed OFFSET_FLAGS;
  c ← get fixed OFFSET_COLUMN;
  w ← slice fixed OFFSET_KEY_WIDTH OFFSET_CODEC;
  s ← slice fixed OFFSET_LSN OFFSET_FLAGS;
  n ← slice fixed OFFSET_LENGTH OFFSET_CRC;
  codec ← get fixed OFFSET_CODEC;
  let is_match :=
    match Flags_from_bits (u8 f) with Ok flags => Flags_is_data flags | _ => false end
    && (u8 c =? kr_column key)
    && (read_u16_le w =? len (kr_bytes key))
    && bool_decide (slice prefix HEADER_LEN (HEADER_LEN + len (kr_bytes key)) = Some (kr_bytes key))
    && (read_u64_le s =? lsn)
    && (read_u32_le n =? length) in
  if is_match then Some (u8 codec) else None.

Definition head_for (prefix : bytes) (key : KeyRef) : option (Lsn * Z * Flags) :=
  fixed ← slice prefix 0 HEADER_LEN;
  c ← get fixed OFFSET_COLUMN;
  w ← slice fixed OFFSET_KEY_WIDTH OFFSET_CODEC;
  let is_match :=
    (u8 c =? kr_column key)
    && (read_u16_le w =? len (kr_bytes key))
    && bool_decide (slice prefix HEADER_LEN (HEADER_LEN + len (kr_bytes key)) = Some (kr_bytes key)) in
  if negb is_match then None else
  f ← get fixed OFFSET_FLAGS;
  flags ← res_ok (Flags_from_bits (u8 f));
  s ← slice fixed OFFSET_LSN OFFSET_FLAGS;
  n ← slice fixed OFFSET_LENGTH OFFSET_CRC;
  Some (read_u64_le s, read_u32_le n, flags).

Definition peek_key_width (bs : bytes) : option Z :=
  field ← slice bs OFFSET_KEY_WIDTH OFFSET_CODEC;
  let width := read_u16_le field in
  if width >? MAX_KEY_LEN then None else Some width.

Definition align_up (value alignment : Z) : Z := div_ceil value alignment * alignment.

(** ** Keyless prefixes *)

Definition keyless_shape (n codec : Z) : Z :=
  as_u16 (Z.lor (as_u32 (Z.shiftl n CODEC_BITS)) codec).

Definition keyless_len (prefix : bytes) : option Z :=
  shape ← slice prefix KEYLESS_SHAPE_AT KEYLESS_PREFIX;
  Some (Z.shiftr (read_u16_le shape) CODEC_BITS).

Definition keyless_len_codec (prefix : bytes) : option (Z * Z) :=
  field ← slice prefix KEYLESS_SHAPE_AT KEYLESS_PREFIX;
  let shape := read_u16_le field in
  Some (Z.shiftr shape CODEC_BITS, Z.land shape (Z.shiftl 1 CODEC_BITS - 1)).

Definition keyless_codec (prefix : bytes) : Z :=
  Z.land (read_u16_le (drop 8 prefix)) (Z.shiftl 1 CODEC_BITS - 1).

Inductive KeylessRead := Intact (codec : Z) | Unwritten | Corrupt.

Definition is_zero_byte (b : byte) : bool := u8 b =? 0.

(** ** Checksummed construction *)

Section checksummed.
Context `{Checksum}.

Definition checksum (bs : bytes) : Z := crc_checksum bs.

Definition RecordHeader_compute_crc (h : RecordHeader) (payload : bytes) : Z :=
  crc_digest [RecordHeader_fixed h; RecordKey_as_slice (rh_key h); payload].

Definition RecordHeader_new_coded (length : Z) (lsn : Lsn) (flags : Flags) (key : RecordKey)
    (codec : Z) (payload : bytes) : RecordHeader :=
  let header := mkRecordHeader length 0 lsn flags key codec in
  mkRecordHeader length (RecordHeader_compute_crc header payload) lsn flags key codec.

Definition RecordHeader_new (length : Z) (lsn : Lsn) (flags : Flags) (key : RecordKey)
    (payload : bytes) : RecordHeader :=
  RecordHeader_new_coded length lsn flags key 0 payload.

Definition RecordHeader_data (key : RecordKey) (lsn : Lsn) (payload : bytes) : RecordHeader :=
  RecordHeader_new (as_u32 (len payload)) lsn Flags_DATA key payload.

Definition RecordHeader_tombstone (key : RecordKey) (lsn : Lsn) : RecordHeader :=
  RecordHeader_new 0 lsn Flags_TOMBSTONE key [].

Definition RecordHeader_segment_header (payload : bytes) : RecordHeader :=
  RecordHeader_new (as_u32 (len payload)) Lsn_NONE Flags_SEGMENT_HEADER RecordKey_none payload.

Definition RecordHeader_framed (layout : RecordLayout) (length : Z) (lsn : Lsn) (flags : Flags)
    (key : RecordKey) (codec : Z) (payload : bytes) : RecordHeader :=
  if negb (RecordLayout_is_keyless layout length) || Flags_is_control flags then
    RecordHeader_new_coded length lsn flags key codec payload
  else mkRecordHeader length 0 lsn flags key codec.

Definition RecordHeader_verify (h : RecordHeader) (payload : bytes) : bool :=
  let covered := if RecordHeader_has_payload h then payload else [] in
  RecordHeader_compute_crc h covered =? rh_crc h.

Definition keyless_check (check : CheckKey) (key : KeyRef) (flags : Flags) (shape : Z)
    (payload : bytes) : Z :=
  let fixed := zeros 10 in
  let fixed := put fixed 0 [byte_of (kr_column key)] in
  let fixed := put fixed 1 (u16_le (as_u16 (len (kr_bytes key)))) in
  let fixed := put fixed 3 [byte_of (Z.land flags KIND_MASK)] in
  let fixed := put fixed 4 (u16_le shape) in
  let fixed := put fixed 6 (u32_le (checksum payload)) in
  siphash13 check [fixed; kr_bytes key].

Definition RecordHeader_pack_in (h : RecordHeader) (layout : RecordLayout) (payload : bytes)
    : RecordPrefix :=
  match layout, RecordHeader_is_keyless_in h layout with
  | Keyless check, true =>
      let shape := keyless_shape (rh_length h) (rh_codec h) in
      let covered := if RecordHeader_has_payload h then payload else [] in
      let sum := keyless_check check (RecordKey_as_ref (rh_key h)) (rh_flags h) shape covered in
      RecordPrefix_keyless sum shape
  | _, _ => RecordHeader_pack h
  end.

Definition check_keyless (prefix payload : bytes) (key : KeyRef) (flags : Flags)
    (check : CheckKey) : KeylessRead :=
  match slice prefix 0 KEYLESS_PREFIX with
  | None => Unwritten
  | Some fixed =>
      let stored := read_u64_le (take 8 fixed) in
      let shape := read_u16_le (drop 8 fixed) in
      let n := Z.shiftr shape CODEC_BITS in
      if (n =? len payload) && (keyless_check check key flags shape payload =? stored)
      then Intact (Z.land shape (Z.shiftl 1 CODEC_BITS - 1))
      else
      if forallb is_zero_byte fixed && forallb is_zero_byte payload
      then Unwritten else Corrupt
  end.

End checksummed.

(** ** Well-formed headers *)

Definition flags_wf (f : Flags) : Prop := is_u8 f /\ Flags_from_bits f = Ok f.

Record header_wf (h : RecordHeader) : Prop := {
  hw_length : is_u32 (rh_length h);
  hw_crc : is_u32 (rh_crc h);
  hw_lsn : is_u64 (rh_lsn h);
  hw_flags : flags_wf (rh_flags h);
  hw_key : record_key_wf (rh_key h);
  hw_codec : is_u8 (rh_codec h);
}.

(** A record header as its seven fields back to back. *)
Definition header_bytes (length crc lsn : bytes) (f c : byte) (w : bytes) (codec : byte) : bytes :=
  length ++ crc ++ lsn ++ [f] ++ [c] ++ w ++ [codec].

(** ** Flags *)

Definition accepted_flags : list Z := [0; 1; 2; 4; 8; 16; 64; 65; 66; 68; 80].

Lemma from_bits_table b : is_u8 b ->
  if bool_decide (b ∈ accepted_flags) then Flags_from_bits b = Ok b
  else exists m, Flags_from_bits b = Err (Corruption m).
Proof.
  intros Hb; rewrite <- (Z2Nat.id b) by (unfold is_u8 in Hb; lia).
  assert (Z.to_nat b < 256)%nat as Hn by (unfold is_u8, U8 in Hb; lia).
  generalize dependent (Z.to_nat b); clear b Hb; intros n Hn.
  do 256 (destruct n as [|n]; [vm_compute; eauto|]); lia.
Qed.

(** The flag bytes the header parse accepts are exactly eleven, each one kind bit at most and a
    relocation mark only on a record that is not control. Two of the kind bits among them, 4 and 16,
    are bits no writer sets. *)
Lemma from_bits_exact b : is_u8 b ->
  (Flags_from_bits b = Ok b <-> b ∈ accepted_flags)
  /\ (b ∉ accepted_flags -> exists m, Flags_from_bits b = Err (Corruption m))
  /\ Forall (fun f => f ∈ accepted_flags)
       (Flags_SEGMENT_HEADER :: concat (map (fun f => [f; Flags_relocated f])
         [Flags_DATA; Flags_TOMBSTONE; Flags_RANGE_TOMBSTONE])).
Proof.
  intros Hb; pose proof (from_bits_table b Hb) as Ht; case_bool_decide as Hin; split_and!;
    try (by repeat (apply Forall_cons; split; [apply (bool_decide_unpack _); reflexivity|]); apply Forall_nil);
    [done | done | | done].
  destruct Ht as [m ->]; done.
Qed.

Lemma from_bits_exact_witness :
  (Flags_from_bits 4 = Ok 4 <-> 4 ∈ accepted_flags)
  /\ (4 ∉ accepted_flags -> exists m, Flags_from_bits 4 = Err (Corruption m))
  /\ Forall (fun f => f ∈ accepted_flags)
       (Flags_SEGMENT_HEADER :: concat (map (fun f => [f; Flags_relocated f])
         [Flags_DATA; Flags_TOMBSTONE; Flags_RANGE_TOMBSTONE])).
Proof. apply (from_bits_exact 4); unfold is_u8, U8; lia. Defined.

Lemma from_bits_Ok b f : Flags_from_bits b = Ok f -> f = b.
Proof.
  unfold Flags_from_bits; repeat case_match; try done; congruence.
Qed.

Lemma from_bits_refuses b : refuses_or (fun f => f = b) (Flags_from_bits b).
Proof. unfold Flags_from_bits; repeat case_match; done. Qed.

Lemma flags_wf_from_bits b f : is_u8 b -> Flags_from_bits b = Ok f -> flags_wf f.
Proof. intros ? E; pose proof (from_bits_Ok _ _ E) as ->; done. Qed.

Lemma u8_is_u8 b : is_u8 (u8 b).
Proof. apply u8_range. Qed.

Lemma u8_byte_of_small z : is_u8 z -> u8 (byte_of z) = z.
Proof. intros; rewrite u8_byte_of; by apply Z.mod_small. Qed.

#[export] Hint Resolve u8_is_u8 flags_wf_from_bits : reel.

(** ** Header bytes *)

Lemma fixed_layout h :
  RecordHeader_fixed h =
  header_bytes (u32_le (rh_length h)) (zeros 4) (u64_le (rh_lsn h)) (byte_of (rh_flags h))
    (byte_of (rk_column (rh_key h))) (u16_le (RecordKey_width (rh_key h))) (byte_of (rh_codec h)).
Proof. reflexivity. Qed.

Lemma len_header_bytes l c n f col w codec :
  len l = 4 -> len c = 4 -> len n = 8 -> len w = 2 ->
  len (header_bytes l c n f col w codec) = HEADER_LEN.
Proof. unfold header_bytes, HEADER_LEN; intros; len_lia. Qed.

Lemma disk_pack h : key_wf (rk_key (rh_key h)) ->
  RecordPrefix_disk (RecordHeader_pack h) =
  header_bytes (u32_le (rh_length h)) (u32_le (rh_crc h)) (u64_le (rh_lsn h)) (byte_of (rh_flags h))
    (byte_of (rk_column (rh_key h))) (u16_le (RecordKey_width (rh_key h))) (byte_of (rh_codec h))
  ++ RecordKey_as_slice (rh_key h).
Proof.
  intros Hk; pose proof (key_wf_width _ Hk) as Hw; pose proof (key_wf_spilled _ Hk) as Hs.
  unfold RecordPrefix_disk, RecordPrefix_as_slice, RecordHeader_pack.
  unfold RecordKey_as_slice, RecordKey_width in *; rewrite Hs; cbn [rp_len rp_bytes rp_tail].
  set (head := header_bytes (u32_le (rh_length h)) (u32_le (rh_crc h)) _ _ _ _ _).
  assert (put (put (zeros (Z.to_nat PREFIX_CAP)) 0 (RecordHeader_fixed h)) 4 (u32_le (rh_crc h))
          = head ++ zeros 108) as -> by reflexivity.
  assert (length head = 21%nat) as Hh by reflexivity.
  destruct (len (KeyBytes_as_slice (rk_key (rh_key h))) >? INLINE_KEY_LEN) eqn:E.
  - change (Z.to_nat HEADER_LEN) with 21%nat; rewrite <- Hh, take_app_length; done.
  - unfold INLINE_KEY_LEN in E; rewrite Hw; cbn [default from_option]; rewrite app_nil_r.
    unfold put; rewrite <- Hh at 1; rewrite take_app_length.
    rewrite app_assoc; replace (Z.to_nat (HEADER_LEN + len (KeyBytes_as_slice (rk_key (rh_key h)))))
      with (length (head ++ KeyBytes_as_slice (rk_key (rh_key h)))).
    + by rewrite take_app_length.
    + rewrite length_app, Hh; unfold HEADER_LEN, len; lia.
Qed.

(** Header fields at their offsets. *)
Section fields.
Context (l c n : bytes) (f col : byte) (w : bytes) (codec : byte) (rest : bytes).
Context (Hl : len l = 4) (Hc : len c = 4) (Hn : len n = 8) (Hw : len w = 2).
Let bs := header_bytes l c n f col w codec ++ rest.

Lemma field_length : slice bs OFFSET_LENGTH OFFSET_CRC = Some l.
Proof using Hl. subst bs; unfold header_bytes, OFFSET_LENGTH, OFFSET_CRC; rewrite <- !app_assoc; slice_solve; done. Qed.

Lemma field_crc : slice bs OFFSET_CRC OFFSET_LSN = Some c.
Proof using Hl Hc. subst bs; unfold header_bytes, OFFSET_CRC, OFFSET_LSN; rewrite <- !app_assoc; slice_solve; done. Qed.

Lemma field_lsn : slice bs OFFSET_LSN OFFSET_FLAGS = Some n.
Proof using Hl Hc Hn. subst bs; unfold header_bytes, OFFSET_LSN, OFFSET_FLAGS; rewrite <- !app_assoc; slice_solve; done. Qed.

Lemma field_flags : get bs OFFSET_FLAGS = Some f.
Proof using Hl Hc Hn. subst bs; unfold header_bytes, OFFSET_FLAGS; rewrite <- !app_assoc; get_solve; done. Qed.

Lemma field_column : get bs OFFSET_COLUMN = Some col.
Proof using Hl Hc Hn. subst bs; unfold header_bytes, OFFSET_COLUMN; rewrite <- !app_assoc; get_solve; done. Qed.

Lemma field_width : slice bs OFFSET_KEY_WIDTH OFFSET_CODEC = Some w.
Proof using Hl Hc Hn Hw. subst bs; unfold header_bytes, OFFSET_KEY_WIDTH, OFFSET_CODEC; rewrite <- !app_assoc; slice_solve; done. Qed.

Lemma field_codec : get bs OFFSET_CODEC = Some codec.
Proof using Hl Hc Hn Hw. subst bs; unfold header_bytes, OFFSET_CODEC; rewrite <- !app_assoc; get_solve; done. Qed.

Lemma field_key k : slice bs HEADER_LEN (HEADER_LEN + k) = slice rest 0 k.
Proof using Hl Hc Hn Hw.
  subst bs; rewrite <- (len_header_bytes l c n f col w codec) by done.
  rewrite <- (Z.add_0_r (len (header_bytes _ _ _ _ _ _ _))) at 1; by apply slice_app_r.
Qed.

Lemma unpack_fields :
  RecordHeader_unpack bs =
  flags ← Flags_from_bits (u8 f);
  if le_val w >? MAX_KEY_LEN then
    Err (Corruption "record header claims a key of {key_width} bytes")
  else if len rest <? le_val w then
    Err (Corruption "record header is shorter than the key it claims")
  else
    key_bytes ← must (slice rest 0 (le_val w));
    key ← map_err (fun _ => Corruption "{error}") (RecordKey_from_bytes (u8 col) key_bytes);
    Ok (mkRecordHeader (le_val l) (le_val c) (le_val n) flags key (u8 codec)).
Proof using Hl Hc Hn Hw.
  unfold RecordHeader_unpack.
  rewrite field_length, field_crc, field_lsn, field_flags, field_column, field_width, field_codec.
  res_simpl; unfold read_u16_le, read_u32_le, read_u64_le; rewrite field_key.
  assert (len bs = HEADER_LEN + len rest) as ->
    by (subst bs; rewrite len_app, len_header_bytes; done).
  destruct (HEADER_LEN + len rest <? HEADER_LEN) eqn:E; [len_lia|].
  assert ((HEADER_LEN + len rest <? HEADER_LEN + le_val w) = (len rest <? le_val w)) as -> by lia.
  done.
Qed.

End fields.

Lemma header_split bs : HEADER_LEN <= len bs ->
  exists l c n f col w codec rest,
    bs = header_bytes l c n f col w codec ++ rest
    /\ len l = 4 /\ len c = 4 /\ len n = 8 /\ len w = 2.
Proof.
  unfold HEADER_LEN; intros H.
  destruct (cut_at bs 4) as (l & b1 & -> & Hl); [len_lia|]; rewrite len_app in H.
  destruct (cut_at b1 4) as (c & b2 & -> & Hc); [len_lia|]; rewrite len_app in H.
  destruct (cut_at b2 8) as (n & b3 & -> & Hn); [len_lia|]; rewrite len_app in H.
  destruct b3 as [|f [|col b4]]; [len_lia|len_lia|]; rewrite !len_cons in H.
  destruct (cut_at b4 2) as (w & [|codec rest] & -> & Hw); [len_lia|len_lia|].
  exists l, c, n, f, col, w, codec, rest; unfold header_bytes; rewrite <- !app_assoc; done.
Qed.

(** Packing a well-formed header and parsing what the drain writes, whatever bytes follow, gives
    the header back, and its packed length is the prefix length readers skip. *)
Lemma header_roundtrip h rest : header_wf h ->
  RecordHeader_unpack (RecordPrefix_disk (RecordHeader_pack h) ++ rest) = Ok h
  /\ len (RecordPrefix_disk (RecordHeader_pack h)) = RecordHeader_prefix_len h.
Proof.
  intros [Hl Hc Hn [Hf Hfb] [Hcol Hk] Hcd]; pose proof (key_wf_len _ Hk) as Hmax.
  pose proof (key_wf_width _ Hk) as Hw.
  rewrite disk_pack by done; unfold RecordHeader_prefix_len; split.
  2:{ rewrite len_app, len_header_bytes by done; unfold RecordKey_width, RecordKey_as_slice; lia. }
  rewrite <- app_assoc, unpack_fields by done.
  unfold RecordKey_width; rewrite Hw, !u8_byte_of_small, le_val_u16, !le_val_u32, le_val_u64 by
    (try done; unfold is_u16, U16, MAX_KEY_LEN in *; len_lia).
  rewrite Hfb; res_simpl; unfold RecordKey_as_slice.
  destruct (len (KeyBytes_as_slice (rk_key (rh_key h))) >? MAX_KEY_LEN) eqn:?; [lia|].
  rewrite len_app.
  destruct (_ <? _) eqn:?; [len_lia|].
  rewrite slice_hit by done; res_simpl.
  change (KeyBytes_as_slice (rk_key (rh_key h))) with (RecordKey_as_slice (rh_key h)).
  rewrite RecordKey_from_slice by done; res_simpl; by destruct h.
Qed.

(** C32: parsing any bytes at all returns a header or refuses with a corruption, and never panics; a
    header it returns is well-formed and its packed bytes are the very bytes it was read from. *)
Theorem header_unpack_sound bs :
  refuses_or (fun h => header_wf h
      /\ exists rest, bs = RecordPrefix_disk (RecordHeader_pack h) ++ rest)
    (RecordHeader_unpack bs).
Proof.
  destruct (Z.lt_ge_cases (len bs) HEADER_LEN) as [Hlt|Hge].
  { unfold RecordHeader_unpack; destruct (len bs <? HEADER_LEN) eqn:?; [done | lia]. }
  destruct (header_split bs Hge) as (l & c & n & f & col & w & codec & rest & -> & Hl & Hc & Hn & Hw).
  rewrite unpack_fields by done.
  eapply refuses_or_bind; [apply from_bits_refuses|]; intros ? Hf ->; cbn beta.
  destruct (le_val w >? MAX_KEY_LEN) eqn:?; [done|].
  destruct (len rest <? le_val w) eqn:?; [done|].
  pose proof (le_val_is_u16 w Hw) as Hw16.
  destruct (slice_is_Some rest 0 (le_val w)) as [kb Hkb]; [unfold is_u16 in Hw16; lia | lia |].
  rewrite Hkb; res_simpl.
  apply slice_Some in Hkb as (p & rest' & -> & Hp%len_0_inv & Hkw); subst p; cbn [app] in *.
  destruct (RecordKey_from_bytes_total (u8 col) kb) as [k Hk]; [lia|].
  rewrite Hk; res_simpl; cbn [refuses_or].
  apply RecordKey_from_bytes_ok in Hk as (Hcol & Hsl & Hwf).
  assert (record_key_wf k) by (split; [rewrite Hcol; apply u8_range | done]).
  split; [constructor; cbn; eauto using u8_range with reel|].
  exists rest'; rewrite disk_pack by done; cbn [rh_length rh_crc rh_lsn rh_flags rh_key rh_codec].
  unfold RecordKey_width; rewrite (key_wf_width _ Hwf).
  fold (RecordKey_as_slice k); rewrite Hsl, Hcol, !byte_of_u8, <- app_assoc.
  replace (len kb) with (le_val w) by lia.
  by rewrite !u32_le_val, u64_le_val, u16_le_val.
Qed.

(** ** In-place readers *)

Lemma key_match rest w (key : bytes) : len w = 2 -> len key <= MAX_KEY_LEN ->
  (le_val w =? len key) && bool_decide (slice rest 0 (len key) = Some key) = true <->
  le_val w = len key /\ exists rest', rest = key ++ rest'.
Proof.
  intros Hw Hk; rewrite andb_true_iff, Z.eqb_eq, bool_decide_eq_true; split.
  - intros [-> (p & q & -> & Hp%len_0_inv & _)%slice_Some]; subst p; eauto.
  - intros [-> [rest' ->]]; split; [done | by apply slice_hit].
Qed.

(** A parse of cut bytes succeeds exactly on the flags, width and key it holds. *)
Lemma unpack_fields_ok l c n f col w codec rest h :
  len l = 4 -> len c = 4 -> len n = 8 -> len w = 2 ->
  RecordHeader_unpack (header_bytes l c n f col w codec ++ rest) = Ok h <->
  exists key rest', rest = RecordKey_as_slice key ++ rest'
    /\ le_val w = len (RecordKey_as_slice key) /\ rk_column key = u8 col /\ key_wf (rk_key key)
    /\ Flags_from_bits (u8 f) = Ok (u8 f)
    /\ h = mkRecordHeader (le_val l) (le_val c) (le_val n) (u8 f) key (u8 codec).
Proof.
  intros Hl Hc Hn Hw; rewrite unpack_fields by done; split.
  - intros H; res_inv; pose proof (from_bits_Ok _ _ H0) as ->.
    destruct (le_val w >? MAX_KEY_LEN) eqn:?; [done|].
    destruct (len rest <? le_val w) eqn:?; [done|]; res_inv.
    apply slice_Some in H1 as (p & q & -> & Hp%len_0_inv & ?); subst p; cbn [app] in *.
    destruct (RecordKey_from_bytes _ _) as [k| |] eqn:E; cbn in H2; [|done|done]; simplify_eq.
    apply RecordKey_from_bytes_ok in E as (? & <- & ?).
    eexists _, q; split_and!; [done | lia | done | done | done | done].
  - intros (key & rest' & -> & Hwk & Hcol & Hk & Hf & ->); rewrite Hf; res_simpl.
    pose proof (key_wf_len _ Hk); fold (RecordKey_as_slice key) in *; rewrite Hwk.
    destruct (_ >? MAX_KEY_LEN) eqn:?; [lia|].
    rewrite len_app; destruct (_ <? _) eqn:?; [len_lia|].
    rewrite slice_hit by done; res_simpl; rewrite <- Hcol, RecordKey_from_slice; done.
Qed.

Lemma slice_head l c n f col w codec rest :
  len l = 4 -> len c = 4 -> len n = 8 -> len w = 2 ->
  slice (header_bytes l c n f col w codec ++ rest) 0 HEADER_LEN =
  Some (header_bytes l c n f col w codec).
Proof. intros; apply slice_hit; [done | by rewrite len_header_bytes]. Qed.

Lemma head_fields l c n f col w codec (b := header_bytes l c n f col w codec) :
  len l = 4 -> len c = 4 -> len n = 8 -> len w = 2 ->
  slice b OFFSET_LENGTH OFFSET_CRC = Some l /\ slice b OFFSET_LSN OFFSET_FLAGS = Some n
  /\ get b OFFSET_FLAGS = Some f /\ get b OFFSET_COLUMN = Some col
  /\ slice b OFFSET_KEY_WIDTH OFFSET_CODEC = Some w /\ get b OFFSET_CODEC = Some codec.
Proof.
  intros; subst b; rewrite <- (app_nil_r (header_bytes _ _ _ _ _ _ _)).
  split_and!; auto using field_length, field_lsn, field_flags, field_column, field_width, field_codec.
Qed.

Lemma key_of_bytes (key : KeyRef) : len (kr_bytes key) <= MAX_KEY_LEN ->
  exists k, RecordKey_as_ref k = key /\ key_wf (rk_key k).
Proof.
  intros (k & Hk)%KeyBytes_new_total; exists (mkRecordKey (kr_column key) k).
  split; [| by eapply key_wf_new]; unfold RecordKey_as_ref; cbn.
  apply KeyBytes_new_slice in Hk as [-> _]; by destruct key.
Qed.

(** reading a record's version, length and kind in place, when its prefix holds this key, gives
    exactly what the full parse of the header gives. *)
Lemma head_for_equiv prefix key lsn length flags :
  len (kr_bytes key) <= MAX_KEY_LEN ->
  head_for prefix key = Some (lsn, length, flags) <->
  exists h, RecordHeader_unpack prefix = Ok h /\ RecordKey_as_ref (rh_key h) = key
    /\ rh_lsn h = lsn /\ rh_length h = length /\ rh_flags h = flags.
Proof.
  intros Hmax; destruct (Z.lt_ge_cases (len prefix) HEADER_LEN) as [Hlt|Hge].
  { unfold head_for, RecordHeader_unpack; rewrite (slice_None prefix 0 HEADER_LEN) by lia; res_simpl.
    destruct (len prefix <? HEADER_LEN) eqn:?; [split; [done | intros (? & ? & _); done] | lia]. }
  destruct (header_split prefix Hge) as (l & c & n & f & col & w & codec & rest & -> & Hl & Hc & Hn & Hw).
  unfold head_for; rewrite slice_head, field_key by done; res_simpl.
  destruct (head_fields l c n f col w codec) as (-> & -> & -> & -> & -> & _); [done..|]; res_simpl.
  unfold read_u16_le, read_u32_le, read_u64_le.
  setoid_rewrite unpack_fields_ok; [|done..]; rewrite <- andb_assoc.
  pose proof (key_match rest w (kr_bytes key) Hw Hmax) as Hkm; split.
  - destruct (u8 col =? kr_column key) eqn:Ec; cbn [andb negb]; [|done].
    destruct (_ && _) eqn:Em; cbn [negb]; [|done].
    destruct Hkm as [Hkm _]; destruct (Hkm eq_refl) as [Hwk [rest' ->]].
    destruct (Flags_from_bits (u8 f)) as [fl| |] eqn:Ef; res_simpl; [|done|done].
    pose proof (from_bits_Ok _ _ Ef) as ->; intros [= <- <- <-].
    destruct (key_of_bytes key Hmax) as (k & <- & Hk); cbn in *.
    eexists; split_and!; [exists k, rest'; split_and!; try done; lia | done..].
  - intros (h & (k & rest' & -> & Hwk & Hcol & Hk & Hf & ->) & <- & <- & <- & <-); cbn in *.
    rewrite Hcol, Z.eqb_refl; cbn [andb].
    destruct Hkm as [_ Hkm]; rewrite Hkm by eauto; cbn [negb]; by rewrite Hf.
Qed.

Lemma head_for_equiv_witness :
  exists h, RecordHeader_unpack (RecordPrefix_disk (RecordHeader_pack
      (mkRecordHeader 3 7 9 65 RecordKey_none 0))) = Ok h
    /\ RecordKey_as_ref (rh_key h) = mkKeyRef 0 [] /\ rh_lsn h = 9 /\ rh_length h = 3 /\ rh_flags h = 65.
Proof. apply head_for_equiv; [vm_compute; discriminate | vm_compute; reflexivity]. Defined.

(** the codec read in place for a data record, checked against the key, version and length asked
    for, is exactly the codec of the parsed header when all three match, and nothing otherwise. *)
Lemma data_codec_equiv prefix key lsn length codec_byte :
  len (kr_bytes key) <= MAX_KEY_LEN ->
  data_codec prefix key lsn length = Some codec_byte <->
  exists h, RecordHeader_unpack prefix = Ok h /\ Flags_is_data (rh_flags h) = true
    /\ RecordKey_as_ref (rh_key h) = key /\ rh_lsn h = lsn /\ rh_length h = length
    /\ rh_codec h = codec_byte.
Proof.
  intros Hmax; destruct (Z.lt_ge_cases (len prefix) HEADER_LEN) as [Hlt|Hge].
  { unfold data_codec, RecordHeader_unpack; rewrite (slice_None prefix 0 HEADER_LEN) by lia; res_simpl.
    destruct (len prefix <? HEADER_LEN) eqn:?; [split; [done | intros (? & ? & _); done] | lia]. }
  destruct (header_split prefix Hge) as (l & c & n & f & col & w & codec & rest & -> & Hl & Hc & Hn & Hw).
  unfold data_codec; rewrite slice_head, field_key by done; res_simpl.
  destruct (head_fields l c n f col w codec) as (-> & -> & -> & -> & -> & ->); [done..|]; res_simpl.
  unfold read_u16_le, read_u32_le, read_u64_le.
  setoid_rewrite unpack_fields_ok; [|done..].
  pose proof (key_match rest w (kr_bytes key) Hw Hmax) as Hkm; rewrite andb_true_iff in Hkm.
  match goal with |- (if ?b then _ else _) = _ <-> _ => destruct b eqn:Em end.
  - repeat apply andb_true_iff in Em as [Em ?].
    destruct (Flags_from_bits (u8 f)) as [fl| |] eqn:Ef; [|done|done].
    pose proof (from_bits_Ok _ _ Ef) as ->; destruct Hkm as [[Hwk [rest' ->]] _]; [done|].
    split.
    + intros [= <-]; destruct (key_of_bytes key Hmax) as (k & <- & Hk); cbn in *.
      eexists; split_and!; [exists k, rest'; split_and!; try done; lia | done | done | cbn; lia | cbn; lia | done].
    + by intros (h & (k & ? & _ & _ & _ & _ & _ & ->) & _ & _ & _ & _ & <-).
  - split; [done|].
    intros (h & (k & rest' & -> & Hwk & Hcol & Hk & Hf & ->) & Hd & <- & <- & <- & <-); cbn in *.
    destruct Hkm as [_ Hkm]; destruct Hkm as [Hk1 Hk2]; [eauto|]; exfalso.
    revert Em; rewrite Hf, Hd, Hcol, Hk1, Hk2, !Z.eqb_refl; done.
Qed.

Lemma data_codec_equiv_witness :
  exists h, RecordHeader_unpack (RecordPrefix_disk (RecordHeader_pack
      (mkRecordHeader 3 7 9 64 RecordKey_none 1))) = Ok h /\ Flags_is_data (rh_flags h) = true
    /\ RecordKey_as_ref (rh_key h) = mkKeyRef 0 [] /\ rh_lsn h = 9 /\ rh_length h = 3 /\ rh_codec h = 1.
Proof. apply data_codec_equiv; [vm_compute; discriminate | vm_compute; reflexivity]. Defined.

(** ** Checks *)

Section checks.
Context `{ChecksumLaws}.

Lemma new_coded_wf length lsn flags key codec payload :
  is_u32 length -> is_u64 lsn -> flags_wf flags -> record_key_wf key -> is_u8 codec ->
  header_wf (RecordHeader_new_coded length lsn flags key codec payload).
Proof. intros; constructor; cbn; try done; apply crc_digest_u32. Qed.

Lemma new_coded_verifies length lsn flags key codec payload :
  let h := RecordHeader_new_coded length lsn flags key codec payload in
  RecordHeader_has_payload h = true \/ payload = [] -> RecordHeader_verify h payload = true.
Proof.
  intros h Hp; unfold RecordHeader_verify.
  assert ((if RecordHeader_has_payload h then payload else []) = payload) as ->
    by (destruct Hp as [->| ->]; [done | by destruct (RecordHeader_has_payload h)]).
  apply Z.eqb_eq; reflexivity.
Qed.

(** C33: a keyed record written as header, key and payload reads back whole whatever follows it: the
    header parses, the payload lies at its prefix length, it fits, and its checksum verifies. *)
Theorem keyed_record_reads_back lsn flags key codec payload rest :
  len payload < U32 -> is_u64 lsn -> flags_wf flags -> record_key_wf key -> is_u8 codec ->
  let h := RecordHeader_new_coded (len payload) lsn flags key codec payload in
  RecordHeader_has_payload h = true \/ payload = [] ->
  let file := RecordPrefix_disk (RecordHeader_pack h) ++ payload ++ rest in
  RecordHeader_unpack file = Ok h
  /\ slice file (RecordHeader_prefix_len h) (RecordHeader_span h) = Some payload
  /\ RecordHeader_fits_within h (len file) = true
  /\ RecordHeader_verify h payload = true.
Proof.
  intros Hlen Hlsn Hf Hk Hcd h Hp file.
  assert (header_wf h) as Hwf by (apply new_coded_wf; try done; pose proof (len_nonneg payload); split; lia).
  destruct (header_roundtrip h (payload ++ rest) Hwf) as [Hu Hlen'].
  unfold RecordHeader_span, RecordHeader_fits_within; split_and!; [done|..].
  - subst file; rewrite <- Hlen'; by apply slice_mid.
  - apply Z.leb_le; subst file; unfold RecordHeader_span; rewrite <- Hlen'; change (rh_length h) with (len payload); len_lia.
  - by apply new_coded_verifies.
Qed.

Lemma keyless_disk check shape :
  RecordPrefix_disk (RecordPrefix_keyless check shape) = u64_le check ++ u16_le shape.
Proof. reflexivity. Qed.

Lemma keyless_shape_val n codec : 0 <= n <= KEYLESS_MAX -> 0 <= codec < 4 ->
  keyless_shape n codec = n * 4 + codec.
Proof.
  unfold KEYLESS_MAX, keyless_shape, CODEC_BITS; intros.
  rewrite Z.shiftl_mul_pow2, as_u32_small by (unfold is_u32, U32; lia).
  rewrite lor_shifted by lia; apply as_u16_small; unfold is_u16, U16; lia.
Qed.

Lemma keyless_shape_len n codec : 0 <= n <= KEYLESS_MAX -> 0 <= codec < 4 ->
  Z.shiftr (keyless_shape n codec) CODEC_BITS = n.
Proof.
  intros; rewrite keyless_shape_val by done; unfold CODEC_BITS.
  rewrite Z.shiftr_div_pow2, Z.div_add_l, Z.div_small; lia.
Qed.

Lemma keyless_shape_codec n codec : 0 <= n <= KEYLESS_MAX -> 0 <= codec < 4 ->
  Z.land (keyless_shape n codec) (Z.shiftl 1 CODEC_BITS - 1) = codec.
Proof.
  intros; rewrite keyless_shape_val by done; unfold CODEC_BITS.
  change (Z.shiftl 1 2 - 1) with (Z.ones 2); rewrite Z.land_ones, Z.add_comm, Z_mod_plus_full by lia.
  by apply Z.mod_small.
Qed.

(** A keyless check sees a record's kind and not its marks. *)
Lemma keyless_check_kind check key f g shape payload :
  Z.land f KIND_MASK = Z.land g KIND_MASK ->
  keyless_check check key f shape payload = keyless_check check key g shape payload.
Proof. unfold keyless_check; by intros ->. Qed.

Lemma keyless_check_u64 check key f shape payload : is_u64 (keyless_check check key f shape payload).
Proof. unfold keyless_check; apply siphash13_u64. Qed.

Lemma pack_in_keyless h check payload :
  RecordHeader_is_keyless_in h (Keyless check) = true ->
  RecordHeader_has_payload h = true \/ payload = [] ->
  RecordPrefix_disk (RecordHeader_pack_in h (Keyless check) payload) =
  u64_le (keyless_check check (RecordKey_as_ref (rh_key h)) (rh_flags h)
            (keyless_shape (rh_length h) (rh_codec h)) payload)
  ++ u16_le (keyless_shape (rh_length h) (rh_codec h)).
Proof.
  intros Hin Hp; unfold RecordHeader_pack_in; rewrite Hin, keyless_disk.
  destruct Hp as [->| ->]; [done | by destruct (RecordHeader_has_payload h)].
Qed.

(** What the readers make of ten keyless bytes. *)
Lemma keyless_readers sum shape rest : is_u16 shape ->
  let prefix := u64_le sum ++ u16_le shape in
  slice (prefix ++ rest) 0 KEYLESS_PREFIX = Some prefix
  /\ keyless_len_codec (prefix ++ rest)
     = Some (Z.shiftr shape CODEC_BITS, Z.land shape (Z.shiftl 1 CODEC_BITS - 1))
  /\ keyless_len (prefix ++ rest) = Some (Z.shiftr shape CODEC_BITS)
  /\ keyless_codec prefix = Z.land shape (Z.shiftl 1 CODEC_BITS - 1).
Proof.
  intros Hs prefix; unfold keyless_len_codec, keyless_len, keyless_codec, KEYLESS_SHAPE_AT, KEYLESS_PREFIX.
  subst prefix; split; [by apply slice_hit|].
  rewrite <- !app_assoc; slice_solve; res_simpl; unfold read_u16_le.
  change (drop 8 (u64_le sum ++ u16_le shape)) with (u16_le shape).
  by rewrite le_val_u16.
Qed.

(** A keyless record written under a segment's check key is found intact by a reader that holds
    its key and kind, even a reader that knows it under a relocation mark; the reader recovers its
    stored length and codec from the two shape bytes, and the prefix is ten bytes. *)
Lemma keyless_record_reads_back check lsn flags flags' key codec payload rest :
  Z.land flags KIND_MASK = Z.land flags' KIND_MASK ->
  Flags_is_control flags = false -> len payload <= KEYLESS_MAX -> 0 <= codec < 4 ->
  let layout := Keyless check in
  let h := RecordHeader_framed layout (len payload) lsn flags key codec payload in
  RecordHeader_has_payload h = true \/ payload = [] ->
  let prefix := RecordPrefix_disk (RecordHeader_pack_in h layout payload) in
  check_keyless (prefix ++ rest) payload (RecordKey_as_ref key) flags' check = Intact codec
  /\ keyless_len_codec (prefix ++ rest) = Some (len payload, codec)
  /\ keyless_len (prefix ++ rest) = Some (len payload)
  /\ keyless_codec prefix = codec
  /\ len prefix + len payload = RecordHeader_span_in h layout.
Proof.
  intros Hkind Hctl Hlen Hcodec layout h Hp prefix; pose proof (len_nonneg payload).
  assert (RecordLayout_is_keyless layout (len payload) = true) as Hkl
    by (unfold RecordLayout_is_keyless, fits_keyless; cbn; lia).
  assert (h = mkRecordHeader (len payload) 0 lsn flags key codec) as Eh
    by (subst h; unfold RecordHeader_framed; by rewrite Hkl, Hctl).
  clearbody h; subst h; subst layout.
  assert (RecordHeader_is_keyless_in (mkRecordHeader (len payload) 0 lsn flags key codec) (Keyless check)
    = true) as Hin by (unfold RecordHeader_is_keyless_in; cbn [rh_length rh_flags]; by rewrite Hkl, Hctl).
  subst prefix; rewrite pack_in_keyless by done; unfold RecordHeader_span_in; rewrite Hin.
  cbn [rh_length rh_key rh_flags rh_codec].
  set (shape := keyless_shape (len payload) codec).
  set (sum := keyless_check check (RecordKey_as_ref key) flags shape payload).
  assert (is_u16 shape)
    by (subst shape; rewrite keyless_shape_val by done; unfold is_u16, U16, KEYLESS_MAX in *; lia).
  destruct (keyless_readers sum shape rest) as (Hsl & -> & -> & ->); [done|].
  unfold check_keyless; rewrite Hsl; unfold read_u64_le, read_u16_le.
  change (take 8 (u64_le sum ++ u16_le shape)) with (u64_le sum).
  change (drop 8 (u64_le sum ++ u16_le shape)) with (u16_le shape).
  rewrite le_val_u16, le_val_u64 by (apply keyless_check_u64 || done).
  rewrite (keyless_check_kind check _ flags' flags) by done; subst sum shape.
  rewrite keyless_shape_len, keyless_shape_codec, !Z.eqb_refl by done.
  split_and!; try done; unfold KEYLESS_PREFIX; len_lia.
Qed.

(** a record's bytes ahead of its payload take exactly the length the layout predicts from the
    key width and stored length alone, in a keyed and in a keyless segment, so an index entry's
    footprint and a reader's skip agree with what was written. *)
Lemma layout_prefix_len_exact h layout payload :
  key_wf (rk_key (rh_key h)) -> Flags_is_control (rh_flags h) = false ->
  len (RecordPrefix_disk (RecordHeader_pack_in h layout payload))
    = RecordLayout_prefix_len layout (RecordKey_width (rh_key h)) (rh_length h)
  /\ len (RecordPrefix_disk (RecordHeader_pack_in h layout payload))
    = RecordPrefix_len (RecordHeader_pack_in h layout payload)
  /\ RecordHeader_span_in h layout
    = RecordLayout_prefix_len layout (RecordKey_width (rh_key h)) (rh_length h) + rh_length h.
Proof.
  intros Hk Hc; unfold RecordHeader_span_in, RecordLayout_prefix_len, RecordHeader_is_keyless_in.
  assert (len (RecordPrefix_disk (RecordHeader_pack h)) = HEADER_LEN + RecordKey_width (rh_key h)
    /\ RecordPrefix_len (RecordHeader_pack h) = HEADER_LEN + RecordKey_width (rh_key h)) as [Hp Hp'].
  { rewrite disk_pack, len_app, len_header_bytes by done; unfold RecordPrefix_len, RecordHeader_pack.
    unfold RecordKey_as_slice, RecordKey_width; rewrite (key_wf_width _ Hk), (key_wf_spilled _ Hk).
    split; [lia|]; destruct (_ >? INLINE_KEY_LEN); cbn [rp_len rp_tail]; lia. }
  rewrite Hc, andb_true_r; destruct layout as [|check].
  - cbn [RecordLayout_is_keyless RecordLayout_is_keyless_layout andb]; unfold RecordHeader_pack_in.
    rewrite Hp, Hp'; unfold RecordHeader_span, RecordHeader_prefix_len; done.
  - unfold RecordHeader_pack_in, RecordHeader_is_keyless_in; rewrite Hc, andb_true_r.
    destruct (RecordLayout_is_keyless _ _); [done|].
    rewrite Hp, Hp'; unfold RecordHeader_span, RecordHeader_prefix_len; done.
Qed.

(** Unwritten space: zeros parse as data with no sequence number, keyed or keyless. *)
Lemma zeros_unwritten (n : nat) : HEADER_LEN <= Z.of_nat n ->
  exists h, RecordHeader_unpack (zeros n) = Ok h /\ RecordHeader_is_unwritten h = true.
Proof.
  unfold HEADER_LEN; intros Hn; replace n with (21 + (n - 21))%nat by lia.
  unfold zeros; rewrite replicate_add.
  change (replicate 21 Byte.x00) with
    (header_bytes (zeros 4) (zeros 4) (zeros 8) Byte.x00 Byte.x00 (zeros 2) Byte.x00).
  rewrite unpack_fields, le_val_zeros by done; cbn [Flags_from_bits].
  change (Flags_from_bits (u8 Byte.x00)) with (@Ok Z 0); res_simpl; cbn [Z.gtb Z.compare MAX_KEY_LEN].
  destruct (len (replicate (n - 21) Byte.x00) <? 0) eqn:?; [len_lia|].
  rewrite (slice_hit [] (replicate (n - 21) Byte.x00)) by done; cbn; eauto.
Qed.

End checks.

(** ** Witnesses *)

Definition demo_key : RecordKey := mkRecordKey 3 (Boxed (replicate 60 Byte.x6b)).

Definition demo_wide_key : RecordKey := mkRecordKey 3 (Spilled (replicate 200 Byte.x6b)).

Lemma demo_key_wf : record_key_wf demo_key.
Proof. split; [unfold is_u8, U8; cbn; lia | reflexivity]. Qed.

Lemma demo_wide_key_wf : record_key_wf demo_wide_key.
Proof. split; [unfold is_u8, U8; cbn; lia | reflexivity]. Qed.

Ltac widths := unfold len, is_u8, is_u16, is_u32, is_u64, U8, U16, U32, U64; cbn; lia.

Lemma header_roundtrip_witness :
  RecordHeader_unpack (RecordPrefix_disk (RecordHeader_pack (mkRecordHeader 5 77 12 66 demo_wide_key 0))
    ++ [Byte.xff]) = Ok (mkRecordHeader 5 77 12 66 demo_wide_key 0)
  /\ len (RecordPrefix_disk (RecordHeader_pack (mkRecordHeader 5 77 12 66 demo_wide_key 0)))
     = RecordHeader_prefix_len (mkRecordHeader 5 77 12 66 demo_wide_key 0).
Proof.
  apply header_roundtrip; constructor; try widths; [split; [widths | reflexivity] | apply demo_wide_key_wf].
Defined.

Lemma keyed_record_reads_back_witness :
  RecordHeader_verify (RecordHeader_new_coded 3 12 0 demo_key 0 [Byte.x01; Byte.x02; Byte.x03])
    [Byte.x01; Byte.x02; Byte.x03] = true.
Proof.
  apply (keyed_record_reads_back 12 0 demo_key 0 [Byte.x01; Byte.x02; Byte.x03] []);
    [widths | widths | split; [widths | reflexivity] | apply demo_key_wf | widths | left; reflexivity].
Defined.

Lemma keyless_record_reads_back_witness :
  let h := RecordHeader_framed (Keyless (zeros 16)) 2 12 0 demo_key 1 [Byte.x01; Byte.x02] in
  check_keyless (RecordPrefix_disk (RecordHeader_pack_in h (Keyless (zeros 16)) [Byte.x01; Byte.x02]) ++ [Byte.xff])
    [Byte.x01; Byte.x02] (RecordKey_as_ref demo_key) 64 (zeros 16) = Intact 1.
Proof.
  apply (keyless_record_reads_back (zeros 16) 12 0 64 demo_key 1 [Byte.x01; Byte.x02] [Byte.xff]);
    [reflexivity | reflexivity | unfold KEYLESS_MAX, len; cbn; lia | lia | left; reflexivity].
Defined.

Lemma layout_prefix_len_exact_witness :
  len (RecordPrefix_disk (RecordHeader_pack_in (mkRecordHeader 5000 77 12 0 demo_wide_key 0) (Keyless (zeros 16)) []))
    = RecordLayout_prefix_len (Keyless (zeros 16)) 200 5000.
Proof.
  apply (layout_prefix_len_exact (mkRecordHeader 5000 77 12 0 demo_wide_key 0)); reflexivity.
Defined.
