(* ===== verification/SegmentHeader.v ===== *)
(** * Segment headers ([format/segment_header.rs])

    The payload of every segment's first record, whose frozen prefix an older or newer build still
    reads. *)
From S2P Require Import Prelude Error Bytes Checksum Lsn Column Record.

Definition FORMAT_VERSION : Z := 8.
Definition VERSION_AT : Z := 0.
Definition SEGMENT_AT : Z := 2.
Definition SEGMENT_HEADER_LEN : Z := 6.
Definition LAYOUT_AT : Z := 6.
Definition CHECK_AT : Z := 7.
Definition ROWS_AT : Z := CHECK_AT + CHECK_KEY_LEN.
Definition SEGMENT_HEADER_SPAN : Z := ROWS_AT + 8.

Record SegmentHeader := mkSegmentHeader {
  sh_version : Z;
  sh_segment : SegmentId;
  sh_layout : RecordLayout;
  sh_rows_at : Z;
}.

Definition SegmentHeader_new (segment : SegmentId) : SegmentHeader :=
  mkSegmentHeader FORMAT_VERSION segment Keyed 0.

Definition SegmentHeader_laid_out (h : SegmentHeader) (layout : RecordLayout) : SegmentHeader :=
  mkSegmentHeader (sh_version h) (sh_segment h) layout (sh_rows_at h).

Definition SegmentHeader_rows_from (h : SegmentHeader) (rows_at : Z) : SegmentHeader :=
  mkSegmentHeader (sh_version h) (sh_segment h) (sh_layout h) rows_at.

Definition SegmentHeader_pack (h : SegmentHeader) : bytes :=
  let out := zeros (Z.to_nat SEGMENT_HEADER_SPAN) in
  let out := put out 0 (u16_le (sh_version h)) in
  let out := put out 2 (u32_le (sh_segment h)) in
  let out := put out 6 [byte_of (RecordLayout_as_u8 (sh_layout h))] in
  let out := match sh_layout h with
             | Keyless check => put out 7 check
             | Keyed => out
             end in
  put out 23 (u64_le (sh_rows_at h)).

Definition SegmentHeader_unpack (bs : bytes) : res SegmentHeader :=
  if len bs <? SEGMENT_HEADER_LEN then
    Err (Corruption "segment header payload is shorter than the frozen prefix")
  else
  version ← must (slice bs VERSION_AT SEGMENT_AT);
  segment ← must (slice bs SEGMENT_AT SEGMENT_HEADER_LEN);
  layout ← match get bs LAYOUT_AT with
           | None => Ok Keyed
           | Some b =>
               if u8 b =? 0 then Ok Keyed
               else if u8 b =? 1 then
                 check ← ok_or (slice bs CHECK_AT ROWS_AT)
                           (Corruption "a keyless segment header holds no check key");
                 Ok (Keyless check)
               else Err (Corruption "segment header holds record layout {byte}, which no writer stores")
           end;
  let rows_at := match slice bs ROWS_AT SEGMENT_HEADER_SPAN with
                 | Some at_ => le_val at_
                 | None => 0
                 end in
  Ok (mkSegmentHeader (read_u16_le version) (read_u32_le segment) layout rows_at).

(** ** Properties *)

Definition layout_wf (l : RecordLayout) : Prop :=
  match l with Keyed => True | Keyless check => len check = CHECK_KEY_LEN end.

Record segment_header_wf (h : SegmentHeader) : Prop := {
  shw_version : is_u16 (sh_version h);
  shw_segment : is_u32 (sh_segment h);
  shw_layout : layout_wf (sh_layout h);
  shw_rows_at : is_u64 (sh_rows_at h);
}.

Definition layout_check (l : RecordLayout) : bytes :=
  match l with Keyed => zeros (Z.to_nat CHECK_KEY_LEN) | Keyless check => check end.

Lemma segment_header_layout h : layout_wf (sh_layout h) ->
  SegmentHeader_pack h =
  u16_le (sh_version h) ++ u32_le (sh_segment h) ++ [byte_of (RecordLayout_as_u8 (sh_layout h))]
  ++ layout_check (sh_layout h) ++ u64_le (sh_rows_at h).
Proof.
  intros Hw; unfold SegmentHeader_pack; destruct (sh_layout h) as [|check]; [reflexivity|].
  cbn [layout_wf layout_check RecordLayout_as_u8] in *.
  set (head := u16_le (sh_version h) ++ u32_le (sh_segment h) ++ [byte_of 1]).
  assert (put (put (put (zeros (Z.to_nat SEGMENT_HEADER_SPAN)) 0 (u16_le (sh_version h))) 2
    (u32_le (sh_segment h))) 6 [byte_of 1] = head ++ zeros 16 ++ zeros 8) as -> by reflexivity.
  assert (length check = 16%nat) as Hc by (unfold len, CHECK_KEY_LEN in Hw; lia).
  rewrite (put_app head (zeros 16) check (zeros 8) 7) by (rewrite ?Hc; reflexivity).
  rewrite app_assoc, <- (app_nil_r (zeros 8)).
  rewrite (put_app (head ++ check) (zeros 8) (u64_le (sh_rows_at h)) [] 23);
    [| rewrite length_app, Hc; reflexivity | reflexivity].
  subst head; by rewrite <- !app_assoc, app_nil_r.
Qed.

Lemma len_layout_check l : layout_wf l -> len (layout_check l) = CHECK_KEY_LEN.
Proof. by destruct l. Qed.

(** A segment header payload reads back as written, also when a later build has appended fields
    behind it; cut anywhere inside the frozen prefix it is refused, and cut after the prefix it still
    reads with the version and segment it was written with. *)
Lemma segment_header_roundtrip h more : segment_header_wf h ->
  SegmentHeader_unpack (SegmentHeader_pack h ++ more) = Ok h
  /\ len (SegmentHeader_pack h) = SEGMENT_HEADER_SPAN
  /\ (forall n : nat, Z.of_nat n < SEGMENT_HEADER_LEN ->
        exists m, SegmentHeader_unpack (take n (SegmentHeader_pack h)) = Err (Corruption m))
  /\ SegmentHeader_unpack (take (Z.to_nat SEGMENT_HEADER_LEN) (SegmentHeader_pack h))
     = Ok (mkSegmentHeader (sh_version h) (sh_segment h) Keyed 0).
Proof.
  intros [Hv Hs Hl Hr]; pose proof (len_layout_check _ Hl) as Hc; rewrite segment_header_layout by done.
  assert (len (u16_le (sh_version h) ++ u32_le (sh_segment h) ++ [byte_of (RecordLayout_as_u8 (sh_layout h))]
    ++ layout_check (sh_layout h) ++ u64_le (sh_rows_at h)) = SEGMENT_HEADER_SPAN) as Hlen.
  { unfold SEGMENT_HEADER_SPAN, ROWS_AT, CHECK_AT; unfold CHECK_KEY_LEN in *; len_lia. }
  split_and!; [| done | |].
  - rewrite <- !app_assoc; unfold SegmentHeader_unpack, SEGMENT_HEADER_LEN, VERSION_AT, SEGMENT_AT, LAYOUT_AT,
      SEGMENT_HEADER_SPAN, ROWS_AT, CHECK_AT, CHECK_KEY_LEN in *.
    destruct (_ <? 6) eqn:?; [len_lia|].
    get_solve; repeat slice_solve; res_simpl.
    unfold read_u16_le, read_u32_le; rewrite le_val_u16, le_val_u32, le_val_u64 by done.
    by destruct h as [v s [|check] r].
  - intros n Hn; unfold SegmentHeader_unpack; destruct (_ <? SEGMENT_HEADER_LEN) eqn:E; [eauto | len_lia].
  - change (take _ _) with (u16_le (sh_version h) ++ u32_le (sh_segment h)).
    unfold SegmentHeader_unpack, SEGMENT_HEADER_LEN, VERSION_AT, SEGMENT_AT, LAYOUT_AT,
      SEGMENT_HEADER_SPAN, ROWS_AT, CHECK_AT, CHECK_KEY_LEN.
    destruct (_ <? 6) eqn:?; [len_lia|].
    rewrite get_None, (slice_None _ (7 + 16)) by len_lia; repeat slice_solve; res_simpl.
    unfold read_u16_le, read_u32_le; by rewrite le_val_u16, le_val_u32.
Qed.

Lemma segment_header_roundtrip_witness :
  SegmentHeader_unpack (SegmentHeader_pack (mkSegmentHeader 8 41 (Keyless (replicate 16 Byte.xc0)) 9000)
    ++ [Byte.xff]) = Ok (mkSegmentHeader 8 41 (Keyless (replicate 16 Byte.xc0)) 9000).
Proof. apply segment_header_roundtrip; constructor; try widths; reflexivity. Defined.
