(* ===== verification/Journal.v ===== *)
(** * The journal of an open segment ([format/journal.rs])

    One checksummed group of rows per write, read back until the first torn group. The read loop
    takes one unit of fuel per step; a step always moves forward inside the bytes, so a unit per byte
    and one more is enough, which [read_groups_loop_total] proves. *)
From S2P Require Import Prelude Error Bytes Checksum Lsn Column Record SegmentHeader.

Definition GROUP_HEAD : Z := 8.
Definition GROUP_TAIL : Z := 4.
Definition ROW_FIXED : Z := 20.
Definition NO_END : Z := 65535.

Record JournalRow := mkJournalRow {
  jr_key : RecordKey;
  jr_lsn : Lsn;
  jr_offset : Z;
  jr_len : Z;
  jr_flags : Flags;
  jr_range_end : option KeyBytes;
}.

(** ** Writing *)

Definition push_row (row : JournalRow) (out : bytes) : bytes :=
  let key := RecordKey_as_slice (jr_key row) in
  let out := out ++ [byte_of (rk_column (jr_key row))] in
  let out := out ++ u16_le (as_u16 (len key)) in
  let out := out ++ key in
  let out := out ++ u64_le (jr_lsn row) in
  let out := out ++ u32_le (jr_offset row) in
  let out := out ++ u32_le (jr_len row) in
  let out := out ++ [byte_of (jr_flags row)] in
  if Flags_is_range_tombstone (jr_flags row) then
    match jr_range_end row with
    | Some end_ =>
        let out := out ++ u16_le (as_u16 (len (KeyBytes_as_slice end_))) in
        out ++ KeyBytes_as_slice end_
    | None => out ++ u16_le NO_END
    end
  else out.

(** ** Reading *)

Definition read_row (bs : bytes) (at_ : Z) : option (JournalRow * Z) :=
  column ← get bs at_;
  width_field ← slice bs (at_ + 1) (at_ + 3);
  let width := read_u16_le width_field in
  let key_at := at_ + 3 in
  key_bytes ← slice bs key_at (key_at + width);
  key ← res_ok (RecordKey_from_bytes (u8 column) key_bytes);
  let fixed := key_at + width in
  tail_ ← slice bs fixed (fixed + ROW_FIXED - 3);
  flags_byte ← get tail_ 16;
  flags ← res_ok (Flags_from_bits (u8 flags_byte));
  let next := fixed + ROW_FIXED - 3 in
  '(range_end, next) ←
    (if Flags_is_range_tombstone flags then
       len_field ← slice bs next (next + 2);
       let n := read_u16_le len_field in
       let next := next + 2 in
       if n =? NO_END then Some (None, next)
       else
         end_bytes ← slice bs next (next + n);
         end_ ← res_ok (KeyBytes_new end_bytes);
         Some (Some end_, next + n)
     else Some (None, next));
  lsn ← slice tail_ 0 8;
  offset ← slice tail_ 8 12;
  length ← slice tail_ 12 16;
  Some (mkJournalRow key (read_u64_le lsn) (read_u32_le offset) (read_u32_le length) flags range_end, next).

(** The [for _ in 0..count] loop. *)
Fixpoint read_rows (count : nat) (bs : bytes) (rows : list JournalRow) (cursor : Z)
    : option (list JournalRow * Z) :=
  match count with
  | O => Some (rows, cursor)
  | S count =>
      '(row, next) ← read_row bs cursor;
      read_rows count bs (rows ++ [row]) next
  end.

Definition u64_next_multiple_of (v m : Z) : Z := div_ceil v m * m.

Section journal.
Context `{Checksum}.

Definition push_group (rows : list JournalRow) (out : bytes) : bytes :=
  let start := length out in
  let out := out ++ zeros 8 in
  let '(count, out) :=
    fold_left (fun '(count, out) row => (as_u32 (count + 1), push_row row out)) rows (0, out) in
  let body := as_u32 (len out - Z.of_nat start - GROUP_HEAD) in
  let out := put out start (u32_le count) in
  let out := put out (start + 4) (u32_le body) in
  let crc := checksum (drop start out) in
  out ++ u32_le crc.

Definition read_group (bs : bytes) (at_ : Z) : option (list JournalRow * Z) :=
  head ← slice bs at_ (at_ + GROUP_HEAD);
  let count := read_u32_le (take 4 head) in
  let body := read_u32_le (drop 4 head) in
  let end_ := at_ + (GROUP_HEAD + body) in
  stored ← slice bs end_ (end_ + GROUP_TAIL);
  covered ← slice bs at_ end_;
  if (count =? 0) || negb (checksum covered =? read_u32_le stored) then None else
  '(rows, cursor) ← read_rows (Z.to_nat count) (take (Z.to_nat end_) bs) [] (at_ + GROUP_HEAD);
  if cursor =? end_ then Some (rows, end_ + GROUP_TAIL) else None.

Fixpoint read_groups_loop (fuel : nat) (bs : bytes) (groups : list (list JournalRow)) (at_ : Z)
    : option (list (list JournalRow) * Z) :=
  match fuel with
  | O => None
  | S fuel =>
      match read_group bs at_ with
      | Some (rows, next) => read_groups_loop fuel bs (groups ++ [rows]) next
      | None =>
          let boundary := u64_next_multiple_of at_ BLOCK in
          let is_padding :=
            (boundary >? at_)
            && match slice bs at_ boundary with
               | Some pad => forallb is_zero_byte pad
               | None => false
               end in
          if is_padding && match read_group bs boundary with Some _ => true | None => false end
          then read_groups_loop fuel bs groups boundary
          else Some (groups, at_)
      end
  end.

Definition read_groups (bs : bytes) : list (list JournalRow) * Z :=
  default ([], 0) (read_groups_loop (S (length bs)) bs [] 0).

End journal.

Definition rows_region (segment : bytes) : option (Z * bytes) :=
  first ← slice segment 0 HEADER_LEN;
  head ← res_ok (RecordHeader_unpack first);
  payload ← slice segment HEADER_LEN (HEADER_LEN + rh_length head);
  header ← res_ok (SegmentHeader_unpack payload);
  let rows_at := sh_rows_at header in
  rows ← slice_from segment rows_at;
  if rows_at >? 0 then Some (rows_at, rows) else None.

(** ** Rows *)

Definition range_end_wf (flags : Flags) (range_end : option KeyBytes) : Prop :=
  match range_end with
  | Some end_ => Flags_is_range_tombstone flags = true /\ key_wf end_
  | None => True
  end.

Record row_wf (row : JournalRow) : Prop := {
  jw_key : record_key_wf (jr_key row);
  jw_lsn : is_u64 (jr_lsn row);
  jw_offset : is_u32 (jr_offset row);
  jw_len : is_u32 (jr_len row);
  jw_flags : flags_wf (jr_flags row);
  jw_range_end : range_end_wf (jr_flags row) (jr_range_end row);
}.

Definition row_tail (row : JournalRow) : bytes :=
  u64_le (jr_lsn row) ++ u32_le (jr_offset row) ++ u32_le (jr_len row) ++ [byte_of (jr_flags row)].

Definition range_bytes (row : JournalRow) : bytes :=
  if Flags_is_range_tombstone (jr_flags row) then
    match jr_range_end row with
    | Some end_ => u16_le (len (KeyBytes_as_slice end_)) ++ KeyBytes_as_slice end_
    | None => u16_le NO_END
    end
  else [].

Definition row_bytes (row : JournalRow) : bytes :=
  [byte_of (rk_column (jr_key row))] ++ u16_le (len (RecordKey_as_slice (jr_key row)))
  ++ RecordKey_as_slice (jr_key row) ++ row_tail row ++ range_bytes row.

Lemma key_len_u16 k : key_wf k -> is_u16 (len (KeyBytes_as_slice k)).
Proof. intros ?%key_wf_len; unfold is_u16, U16, MAX_KEY_LEN in *; len_lia. Qed.

Lemma push_row_bytes row out : row_wf row -> push_row row out = out ++ row_bytes row.
Proof.
  intros [[_ Hk] _ _ _ _ Hr]; pose proof (key_len_u16 _ Hk).
  unfold push_row, row_bytes, row_tail, range_bytes, RecordKey_as_slice.
  rewrite (as_u16_small (len (KeyBytes_as_slice (rk_key (jr_key row))))) by done.
  destruct (Flags_is_range_tombstone _); [| by rewrite <- !app_assoc, !app_nil_r].
  destruct (jr_range_end row) as [e|]; [| by rewrite <- !app_assoc].
  destruct Hr as [_ He]; rewrite as_u16_small by (by apply key_len_u16); by rewrite <- !app_assoc.
Qed.

Lemma len_row_tail row : len (row_tail row) = 17.
Proof. reflexivity. Qed.

Lemma len_row_bytes row : ROW_FIXED <= len (row_bytes row).
Proof. unfold row_bytes, ROW_FIXED; rewrite !len_app, len_row_tail; len_lia. Qed.

Lemma res_ok_key k : key_wf (rk_key k) ->
  res_ok (RecordKey_from_bytes (rk_column k) (RecordKey_as_slice k)) = Some k.
Proof. intros; by rewrite RecordKey_from_slice. Qed.

Lemma row_tail_fields row : 
  get (row_tail row) 16 = Some (byte_of (jr_flags row))
  /\ slice (row_tail row) 0 8 = Some (u64_le (jr_lsn row))
  /\ slice (row_tail row) 8 12 = Some (u32_le (jr_offset row))
  /\ slice (row_tail row) 12 16 = Some (u32_le (jr_len row)).
Proof. split_and!; reflexivity. Qed.

#[local] Hint Rewrite len_row_tail : len.

(** The range end a row keeps behind its tail, when it is a range tombstone. *)
Lemma read_range_back row q : row_wf row ->
  (if Flags_is_range_tombstone (jr_flags row) then
     len_field ← slice (range_bytes row ++ q) 0 2;
     if le_val len_field =? NO_END then Some (None, 2)
     else
       end_bytes ← slice (range_bytes row ++ q) 2 (2 + le_val len_field);
       end_ ← res_ok (KeyBytes_new end_bytes);
       Some (Some end_, 2 + le_val len_field)
   else Some (None, 0)) = Some (jr_range_end row, len (range_bytes row)).
Proof.
  intros [_ _ _ _ _ Hr]; unfold range_bytes.
  destruct (Flags_is_range_tombstone (jr_flags row)) eqn:Et.
  - destruct (jr_range_end row) as [e|]; rewrite <- ?app_assoc; slice_solve; res_simpl; [|done].
    destruct Hr as [_ He]; rewrite le_val_u16 by (by apply key_len_u16); pose proof (key_wf_len _ He).
    destruct (_ =? NO_END) eqn:E; [unfold NO_END, MAX_KEY_LEN in *; lia|].
    slice_solve; res_simpl; by rewrite He, len_app, len_u16_le.
  - destruct (jr_range_end row) as [e|]; [destruct Hr as [Hr _]; congruence | done].
Qed.

Lemma read_row_back p row q : row_wf row ->
  read_row (p ++ row_bytes row ++ q) (len p) = Some (row, len p + len (row_bytes row)).
Proof.
  intros Hwf; pose proof (read_range_back row q Hwf) as Hrange.
  destruct Hwf as [[Hc Hk] Hl Ho Hn [Hf Hfb] _]; pose proof (key_len_u16 _ Hk) as Hk16.
  fold (RecordKey_as_slice (jr_key row)) in Hk16.
  unfold row_bytes; set (key := RecordKey_as_slice (jr_key row)) in *; rewrite <- !app_assoc.
  set (bs := p ++ _ ++ _ ++ _ ++ _ ++ _ ++ q).
  assert (get bs (len p) = Some (byte_of (rk_column (jr_key row)))) as E1 by (subst bs; get_solve; done).
  assert (slice bs (len p + 1) (len p + 3) = Some (u16_le (len key))) as E2 by (subst bs; slice_solve; done).
  assert (slice bs (len p + 3) (len p + 3 + len key) = Some key) as E3 by (subst bs; slice_solve; done).
  assert (forall k, k = len key -> slice bs (len p + 3 + k) (len p + 3 + k + ROW_FIXED - 3) = Some (row_tail row))
    as E4 by (intros ? ->; subst bs; unfold ROW_FIXED; slice_solve; done).
  assert (forall a b, 0 <= a -> slice bs (len p + 3 + len key + ROW_FIXED - 3 + a) (len p + 3 + len key + ROW_FIXED - 3 + b)
    = slice (range_bytes row ++ q) a b) as E5.
  { intros a b Ha; unfold ROW_FIXED.
    rewrite <- (slice_app_r (p ++ [byte_of (rk_column (jr_key row))] ++ u16_le (len key) ++ key ++ row_tail row)
      (range_bytes row ++ q) a b Ha).
    subst bs; rewrite <- !app_assoc; f_equal; len_lia. }
  clearbody bs; unfold read_row; rewrite E1, E2; res_simpl; unfold read_u16_le; rewrite le_val_u16 by done.
  rewrite E3, u8_byte_of_small by done; res_simpl; subst key; rewrite res_ok_key, E4 by done; res_simpl.
  destruct (row_tail_fields row) as (-> & -> & -> & ->); res_simpl.
  rewrite u8_byte_of_small, Hfb by done; res_simpl.
  unfold read_u64_le, read_u32_le; rewrite le_val_u64, !le_val_u32 by done.
  set (base := len p + 3 + len (RecordKey_as_slice (jr_key row)) + ROW_FIXED - 3) in *.
  rewrite !len_app, len_row_tail; change (len [byte_of (rk_column (jr_key row))]) with 1; rewrite len_u16_le.
  match goal with |- (?m ≫= _) = _ =>
    assert (m = Some (jr_range_end row, base + len (range_bytes row))) as -> end.
  { destruct (Flags_is_range_tombstone (jr_flags row)); [| injection Hrange as -> <-; by rewrite Z.add_0_r].
    pose proof (E5 0 2 ltac:(lia)) as E; rewrite Z.add_0_r in E; rewrite E.
    destruct (slice (range_bytes row ++ q) 0 2) as [f|]; [|done]; cbn in Hrange |- *.
    destruct (le_val f =? NO_END); [by injection Hrange as <- <-|].
    rewrite <- Z.add_assoc, E5 by lia.
    destruct (slice _ 2 _) as [eb|]; [|done]; cbn in Hrange |- *.
    destruct (res_ok (KeyBytes_new eb)); [|done]; cbn in Hrange |- *; by injection Hrange as <- <-. }
  res_simpl; destruct row; cbn [jr_key jr_lsn jr_offset jr_len jr_flags jr_range_end] in *.
  do 2 f_equal; subst base; unfold ROW_FIXED; lia.
Qed.

(** ** Groups *)

Definition rows_bytes (rows : list JournalRow) : bytes := concat (map row_bytes rows).

Lemma rows_bytes_cons row rows : rows_bytes (row :: rows) = row_bytes row ++ rows_bytes rows.
Proof. reflexivity. Qed.

Lemma read_rows_back rows : Forall row_wf rows -> forall p q done_rows,
  read_rows (length rows) (p ++ rows_bytes rows ++ q) done_rows (len p)
  = Some (done_rows ++ rows, len p + len (rows_bytes rows)).
Proof.
  induction 1 as [|row rows Hrow _ IH]; intros p q acc; cbn [length read_rows].
  { by rewrite app_nil_r, Z.add_0_r. }
  rewrite rows_bytes_cons, <- app_assoc, read_row_back by done; res_simpl.
  rewrite app_assoc, <- len_app, IH, <- app_assoc, !len_app; do 2 f_equal; lia.
Qed.

Definition group_wf (rows : list JournalRow) : Prop :=
  rows <> [] /\ Forall row_wf rows /\ len rows < U32 /\ len (rows_bytes rows) < U32.

Section groups.
Context `{ChecksumLaws}.

Definition group_head (rows : list JournalRow) : bytes :=
  u32_le (len rows) ++ u32_le (len (rows_bytes rows)).

Definition group_bytes (rows : list JournalRow) : bytes :=
  group_head rows ++ rows_bytes rows ++ u32_le (checksum (group_head rows ++ rows_bytes rows)).

Lemma push_rows_fold rows : Forall row_wf rows -> forall n out, 0 <= n -> n + len rows < U32 ->
  fold_left (fun '(count, out) row => (as_u32 (count + 1), push_row row out)) rows (n, out)
  = (n + len rows, out ++ rows_bytes rows).
Proof.
  induction 1 as [|row rows Hrow _ IH]; intros n out Hn Hlt; cbn [fold_left].
  { by rewrite app_nil_r, Z.add_0_r. }
  rewrite len_cons in *; pose proof (len_nonneg rows).
  rewrite push_row_bytes, as_u32_small, IH by (done || unfold is_u32; lia).
  rewrite rows_bytes_cons, app_assoc; f_equal; lia.
Qed.

Lemma push_group_bytes rows out : group_wf rows -> push_group rows out = out ++ group_bytes rows.
Proof.
  intros (_ & Hw & Hn & Hb); unfold push_group; pose proof (len_nonneg (rows_bytes rows)).
  rewrite push_rows_fold by (done || lia); rewrite Z.add_0_l.
  replace (len ((out ++ zeros 8) ++ rows_bytes rows) - Z.of_nat (length out) - GROUP_HEAD)
    with (len (rows_bytes rows)) by (unfold GROUP_HEAD; rewrite !len_app, len_zeros; unfold len; lia).
  rewrite as_u32_small by (unfold is_u32; lia).
  change (zeros 8) with (zeros 4 ++ zeros 4); rewrite <- !app_assoc, (put_app out (zeros 4)) by done.
  rewrite app_assoc, (put_app (out ++ u32_le (len rows)) (zeros 4)) by (rewrite ?length_app; done).
  rewrite <- !app_assoc, drop_app_length; unfold group_bytes, group_head; by rewrite <- !app_assoc.
Qed.

Lemma len_group_bytes rows : len (group_bytes rows) = 12 + len (rows_bytes rows).
Proof. unfold group_bytes, group_head; len_lia. Qed.

Lemma read_group_back p rows q : group_wf rows ->
  read_group (p ++ group_bytes rows ++ q) (len p) = Some (rows, len p + len (group_bytes rows)).
Proof.
  intros (Hne & Hw & Hn & Hb); pose proof (len_nonneg (rows_bytes rows)); pose proof (len_nonneg rows).
  assert (len rows <> 0) by (destruct rows; [done | len_lia]).
  set (crc := checksum (group_head rows ++ rows_bytes rows)).
  unfold group_bytes; fold crc; rewrite <- !app_assoc.
  set (bs := p ++ _); unfold read_group, GROUP_HEAD, GROUP_TAIL.
  assert (slice bs (len p) (len p + 8) = Some (group_head rows)) as ->
    by (subst bs; unfold group_head; rewrite <- !app_assoc, (app_assoc (u32_le _)); slice_solve; done).
  res_simpl; change (take 4 (group_head rows)) with (u32_le (len rows)).
  change (drop 4 (group_head rows)) with (u32_le (len (rows_bytes rows))).
  unfold read_u32_le; rewrite !le_val_u32 by (unfold is_u32; lia).
  assert (slice bs (len p + (8 + len (rows_bytes rows))) (len p + (8 + len (rows_bytes rows)) + 4)
    = Some (u32_le crc)) as -> by (subst bs; unfold group_head; rewrite <- !app_assoc; slice_solve; done).
  assert (slice bs (len p) (len p + (8 + len (rows_bytes rows))) = Some (group_head rows ++ rows_bytes rows)) as ->
    by (subst bs; rewrite (app_assoc (group_head rows)); unfold group_head; slice_solve; done).
  res_simpl; fold crc; rewrite le_val_u32, Z.eqb_refl by apply crc_checksum_u32.
  destruct (len rows =? 0) eqn:?; [lia|]; cbn [orb negb].
  assert (take (Z.to_nat (len p + (8 + len (rows_bytes rows)))) bs = (p ++ group_head rows) ++ rows_bytes rows ++ []) as ->.
  { subst bs; rewrite app_nil_r, <- app_assoc, (app_assoc (group_head rows)), app_assoc.
    apply take_app_length'; unfold group_head; rewrite !length_app; unfold len; cbn; lia. }
  replace (len p + 8) with (len (p ++ group_head rows)) by (unfold group_head; len_lia).
  rewrite to_nat_len, read_rows_back by done; res_simpl.
  match goal with |- context [?a =? ?b] => destruct (Z.eqb_spec a b) end; unfold group_head in *; [| len_lia].
  do 2 f_equal; len_lia.
Qed.


(** ** The read loop *)

Lemma read_group_bounds bs at_ rows next : 0 <= at_ ->
  read_group bs at_ = Some (rows, next) -> at_ < next <= len bs.
Proof.
  intros Hat E; unfold read_group, GROUP_HEAD, GROUP_TAIL in E; opt_inv; subst.
  repeat match goal with H : slice _ _ _ = Some _ |- _ => apply slice_bounds in H end; len_lia.
Qed.

Lemma next_multiple_ge v m : 0 < m -> v <= u64_next_multiple_of v m < v + m.
Proof.
  intros; unfold u64_next_multiple_of, div_ceil.
  pose proof (Z.div_mod (v + m - 1) m ltac:(lia)); pose proof (Z.mod_pos_bound (v + m - 1) m); lia.
Qed.

Lemma read_groups_loop_total bs fuel : forall groups at_, 0 <= at_ <= len bs ->
  len bs - at_ < Z.of_nat fuel -> is_Some (read_groups_loop fuel bs groups at_).
Proof.
  induction fuel as [|fuel IH]; intros groups at_ Hat Hf; [lia|]; cbn [read_groups_loop].
  destruct (read_group bs at_) as [[rows next]|] eqn:E.
  { apply read_group_bounds in E; [apply IH; lia | lia]. }
  set (boundary := u64_next_multiple_of at_ BLOCK).
  destruct (boundary >? at_) eqn:Eb; [| eauto]; cbn [andb].
  destruct (slice bs at_ boundary) as [pad|] eqn:Ep; [| eauto]; apply slice_bounds in Ep.
  destruct (forallb _ _ && _); [apply IH; lia | eauto].
Qed.

Lemma read_groups_loop_mono bs fuel more : forall groups at_ r,
  read_groups_loop fuel bs groups at_ = Some r -> read_groups_loop (fuel + more) bs groups at_ = Some r.
Proof.
  induction fuel as [|fuel IH]; intros groups at_ r; [done|]; cbn [Nat.add read_groups_loop].
  destruct (read_group bs at_) as [[rows next]|]; [apply IH|].
  destruct (_ && _); [apply IH | done].
Qed.

Lemma read_groups_loop_prefix bs fuel : forall groups at_ r,
  read_groups_loop fuel bs groups at_ = Some r -> groups `prefix_of` r.1.
Proof.
  induction fuel as [|fuel IH]; intros groups at_ r; [done|]; cbn [read_groups_loop].
  destruct (read_group bs at_) as [[rows next]|].
  { intros E; etransitivity; [| by eapply IH]; by apply prefix_app_r. }
  destruct (_ && _); [apply IH | by intros [= <-]].
Qed.

(** Whatever run of the loop returns, [read_groups] returns. *)
Lemma read_groups_runs bs fuel r : read_groups_loop fuel bs [] 0 = Some r -> read_groups bs = r.
Proof.
  intros E; unfold read_groups.
  destruct (read_groups_loop_total bs (S (length bs)) [] 0) as [r' E'];
    [len_lia | unfold len; lia |]; rewrite E'; cbn [from_option id].
  apply (read_groups_loop_mono _ _ (S (length bs))) in E; apply (read_groups_loop_mono _ _ fuel) in E'.
  rewrite Nat.add_comm in E; congruence.
Qed.

(** ** Journals as they are written

    A journal is a run of group writes. A write on a whole-block volume fills the rest of its last
    block with zeros, so each write here carries the zeros behind it: none, or as many as reach the
    next block. A group that ends one to three bytes short of a block leaves too little padding to
    hold a zero count, so the reader there depends on the checksum refusing a misplaced group; the
    statements keep to ends clear of that edge. *)

Definition journal_write (out : bytes) (w : list JournalRow * nat) : bytes :=
  push_group w.1 out ++ zeros w.2.

Definition clear_of_edge (at_ : Z) : Prop :=
  at_ mod BLOCK = 0 \/ at_ mod BLOCK <= BLOCK - 4.

Definition pad_ok (at_ : Z) (pad : nat) : Prop :=
  pad = 0%nat \/ (clear_of_edge at_ /\ at_ + Z.of_nat pad = u64_next_multiple_of at_ BLOCK).

(** The writes from byte [at_] on, each group within its limits and its padding right. *)
Fixpoint writes_ok (at_ : Z) (ws : list (list JournalRow * nat)) : Prop :=
  match ws with
  | [] => True
  | (rows, pad) :: ws =>
      let end_ := at_ + len (group_bytes rows) in
      group_wf rows /\ pad_ok end_ pad /\ writes_ok (end_ + Z.of_nat pad) ws
  end.

(** Where the last whole group ends. *)
Fixpoint whole_end (last at_ : Z) (ws : list (list JournalRow * nat)) : Z :=
  match ws with
  | [] => last
  | (rows, pad) :: ws =>
      let end_ := at_ + len (group_bytes rows) in whole_end end_ (end_ + Z.of_nat pad) ws
  end.

Definition writes_image (ws : list (list JournalRow * nat)) : bytes :=
  concat (map (fun w => group_bytes w.1 ++ zeros w.2) ws).

Lemma writes_image_fold ws : forall out at_, writes_ok at_ ws ->
  fold_left journal_write ws out = out ++ writes_image ws.
Proof.
  induction ws as [|[rows pad] ws IH]; intros out at_ Hok; cbn [fold_left]; [by rewrite app_nil_r|].
  destruct Hok as (Hw & _ & Hok); rewrite (IH _ _ Hok); unfold journal_write; cbn [fst snd].
  rewrite push_group_bytes by done; unfold writes_image; cbn [map concat fst snd]; by rewrite !app_assoc.
Qed.

Lemma next_multiple_mod v m : 0 < m ->
  u64_next_multiple_of v m = if v mod m =? 0 then v else v - v mod m + m.
Proof.
  intros Hm; unfold u64_next_multiple_of, div_ceil.
  pose proof (Z.div_mod v m ltac:(lia)) as Ed; pose proof (Z.mod_pos_bound v m Hm) as Hr.
  set (q := v / m) in *; set (r := v mod m) in *; destruct (r =? 0) eqn:E.
  - rewrite <- (Z.div_unique (v + m - 1) m q (m - 1)); lia.
  - rewrite <- (Z.div_unique (v + m - 1) m (q + 1) (r - 1)); lia.
Qed.

(** Padding that reaches a block is at least a zero count wide, and no group reads out of it. *)
Lemma read_group_zeros p pad q : 4 <= Z.of_nat pad -> read_group (p ++ zeros pad ++ q) (len p) = None.
Proof.
  intros Hp; unfold read_group, GROUP_HEAD; set (bs := p ++ _).
  destruct (slice bs (len p) (len p + 8)) as [head|] eqn:Eh; [|done]; res_simpl.
  apply slice_Some in Eh as (p' & q' & E & Hl & Hh).
  assert (p = p' /\ zeros pad ++ q = head ++ q') as [<- E2] by (apply app_len_inj; subst bs; congruence).
  assert (take 4 head = zeros 4) as ->.
  { rewrite <- (take_app_le head q'), <- E2 by (unfold len in *; lia).
    replace pad with (4 + (pad - 4))%nat by lia; unfold zeros; by rewrite replicate_add, <- app_assoc. }
  opt_case stored; by opt_case covered.
Qed.

Lemma pad_ok_wide at_ pad : pad_ok at_ pad -> pad <> 0%nat ->
  4 <= Z.of_nat pad /\ u64_next_multiple_of at_ BLOCK = at_ + Z.of_nat pad.
Proof.
  intros [?|[Hc He]] Hp; [done|]; split; [| done].
  rewrite next_multiple_mod in He by done; unfold clear_of_edge, BLOCK in *.
  destruct (at_ mod 4096 =? 0) eqn:E; lia.
Qed.

Lemma zeros_all n : forallb is_zero_byte (zeros n) = true.
Proof. induction n; [done | by cbn]. Qed.

(** One write behind some padding takes at most two turns of the loop. *)
Lemma read_groups_step p pad rows q acc : pad_ok (len p) pad -> group_wf rows ->
  exists k, forall fuel, let bs := p ++ zeros pad ++ group_bytes rows ++ q in
    read_groups_loop (k + fuel) bs acc (len p)
    = read_groups_loop fuel bs (acc ++ [rows]) (len p + Z.of_nat pad + len (group_bytes rows)).
Proof.
  intros Hpad Hw; destruct (decide (pad = 0%nat)) as [->|Hnz].
  { exists 1%nat; intros fuel bs; subst bs; cbn [zeros replicate app Nat.add read_groups_loop].
    rewrite read_group_back, Z.add_0_r by done; done. }
  destruct (pad_ok_wide _ _ Hpad Hnz) as [Hwide Hb].
  exists 2%nat; intros fuel bs; cbn [Nat.add read_groups_loop]; subst bs.
  assert (read_group (p ++ zeros pad ++ group_bytes rows ++ q) (len p + Z.of_nat pad)
    = Some (rows, len p + Z.of_nat pad + len (group_bytes rows))) as Eg.
  { replace (len p + Z.of_nat pad) with (len (p ++ zeros pad)) by len_lia.
    rewrite app_assoc; by apply read_group_back. }
  rewrite read_group_zeros, Hb, slice_mid by (done || len_lia); rewrite zeros_all, Eg.
  by destruct (_ >? _) eqn:E; [| lia].
Qed.

Lemma read_groups_steps ws tail_ : forall p pad acc, pad_ok (len p) pad ->
  writes_ok (len p + Z.of_nat pad) ws ->
  exists k p' pad', p ++ zeros pad ++ writes_image ws = p' ++ zeros pad' /\ pad_ok (len p') pad'
    /\ len p' = whole_end (len p) (len p + Z.of_nat pad) ws
    /\ forall fuel, let bs := p ++ zeros pad ++ writes_image ws ++ tail_ in
         read_groups_loop (k + fuel) bs acc (len p) = read_groups_loop fuel bs (acc ++ map fst ws) (len p').
Proof.
  induction ws as [|[rows pad'] ws IH]; intros p pad acc Hpad Hok.
  { exists 0%nat, p, pad; cbn; rewrite !app_nil_r; done. }
  destruct Hok as (Hw & Hpad' & Hok); cbn [whole_end map fst].
  unfold writes_image; cbn [map concat fst snd]; fold (writes_image ws); rewrite <- !app_assoc.
  destruct (read_groups_step p pad rows (zeros pad' ++ writes_image ws ++ tail_) acc Hpad Hw) as [k1 E1].
  assert (len (p ++ zeros pad ++ group_bytes rows) = len p + Z.of_nat pad + len (group_bytes rows)) as El by len_lia.
  destruct (IH (p ++ zeros pad ++ group_bytes rows) pad' (acc ++ [rows])) as (k2 & p2 & pad2 & Ep & Hp2 & Hl2 & E2);
    [by rewrite El | by rewrite El |].
  rewrite El, <- !app_assoc in *.
  exists (k1 + k2)%nat, p2, pad2; split_and!; [done | done | done |].
  intros fuel; rewrite <- Nat.add_assoc, E1, E2, <- ?app_assoc; done.
Qed.

(** Nothing reads out of a group cut short. *)
Lemma read_group_torn p rows k : group_wf rows -> 0 <= k < len (group_bytes rows) ->
  read_group (p ++ take (Z.to_nat k) (group_bytes rows)) (len p) = None.
Proof.
  intros (_ & _ & _ & Hb) Hk; rewrite len_group_bytes in Hk; set (cut := take _ _).
  assert (len cut = k) as Hcut by (subst cut; rewrite len_take, len_group_bytes; lia).
  unfold read_group, GROUP_HEAD, GROUP_TAIL.
  destruct (slice (p ++ cut) (len p) (len p + 8)) as [head|] eqn:Eh; [|done]; res_simpl.
  apply slice_Some in Eh as (p' & q' & E & Hl & Hh); apply app_len_inj in E as [<- E]; [| done].
  assert (head = group_head rows) as ->.
  { assert (len head = 8) as H8 by lia; pose proof (f_equal len E) as Ecut; rewrite len_app in Ecut.
    rewrite <- (take_app_length head q'), <- E; subst cut.
    rewrite take_take, Nat.min_l by (unfold len in *; lia).
    unfold group_bytes; replace (length head) with 8%nat by (unfold len in *; lia); done. }
  change (drop 4 (group_head rows)) with (u32_le (len (rows_bytes rows))).
  unfold read_u32_le; rewrite le_val_u32 by (unfold is_u32; len_lia).
  rewrite (slice_None _ (len p + _) (_ + 4)) by (rewrite len_app, Hcut; lia); done.
Qed.

Lemma le_val_all_zero bs : forallb is_zero_byte bs = true -> le_val bs = 0.
Proof.
  unfold is_zero_byte; induction bs as [|b bs IH]; [done|]; cbn [forallb le_val]; intros; b2p.
  rewrite IH by done; lia.
Qed.

Lemma torn_not_padding rows k n pad : group_wf rows -> 4 <= n ->
  slice (take (Z.to_nat k) (group_bytes rows)) 0 n = Some pad -> forallb is_zero_byte pad = false.
Proof.
  intros (Hne & _ & Hn & _) H4 (p & q & E & Hp & Hl)%slice_Some.
  apply len_0_inv in Hp as ->; apply not_true_iff_false; intros Hz.
  assert (take 4 pad = u32_le (len rows)) as E4.
  { rewrite <- (take_app_le pad q) by (unfold len in *; lia); cbn [app] in E; rewrite <- E.
    pose proof (f_equal len E) as Hlen; rewrite len_app in Hlen; len_simpl; len_pos.
    rewrite take_take, Nat.min_l by lia; done. }
  assert (le_val (take 4 pad) = 0) as E0.
  { apply le_val_all_zero; apply forallb_forall; intros x Hx; rewrite forallb_forall in Hz.
    apply Hz; rewrite <- (take_drop 4 pad); apply in_or_app; auto. }
  rewrite E4, le_val_u32 in E0 by (unfold is_u32; len_lia).
  by apply len_0_inv in E0.
Qed.

(** At a torn group the loop stops, with or without padding in front of it. *)
Lemma read_groups_stop p pad rows k acc : pad_ok (len p) pad -> clear_of_edge (len p) ->
  group_wf rows -> 0 <= k < len (group_bytes rows) ->
  read_groups_loop 1 (p ++ zeros pad ++ take (Z.to_nat k) (group_bytes rows)) acc (len p)
  = Some (acc, len p).
Proof.
  intros Hpad Hedge Hw Hk; cbn [read_groups_loop]; destruct (decide (pad = 0%nat)) as [->|Hnz].
  - cbn [zeros replicate app]; rewrite read_group_torn by done.
    rewrite next_multiple_mod by done; unfold clear_of_edge, BLOCK in *.
    destruct (len p mod 4096 =? 0) eqn:E; [by rewrite Z.gtb_ltb, Z.ltb_irrefl|].
    rewrite slice_skip, Z.sub_diag by lia.
    destruct (slice _ _ _) as [z|] eqn:Es; [| by rewrite andb_false_r].
    apply torn_not_padding in Es as ->; [by rewrite andb_false_r | done | lia].
  - destruct (pad_ok_wide _ _ Hpad Hnz) as [Hwide ->]; rewrite read_group_zeros by done.
    replace (len p + Z.of_nat pad) with (len (p ++ zeros pad)) by len_lia.
    rewrite (app_assoc p), read_group_torn by done; by rewrite andb_false_r.
Qed.

(** C34: the journal a run of group writes leaves, whole-block padding included, reads back as
    exactly the groups written and the byte the last of them ends at, also when the file goes on
    with a group of which only a strict prefix landed. The read always returns: the fuel of its loop
    is enough for any bytes. *)
Theorem read_groups_exact ws rows k :
  writes_ok 0 ws -> group_wf rows -> 0 <= k < len (group_bytes rows) ->
  clear_of_edge (whole_end 0 0 ws) ->
  read_groups (fold_left journal_write ws [] ++ take (Z.to_nat k) (group_bytes rows))
  = (map fst ws, whole_end 0 0 ws).
Proof.
  intros Hok Hw Hk Hedge; rewrite (writes_image_fold _ _ _ Hok); cbn [app].
  destruct (read_groups_steps ws (take (Z.to_nat k) (group_bytes rows)) [] 0 [])
    as (n & p & pad & E & Hpad & Hl & Es); [by left | done |].
  change (len [] + Z.of_nat 0) with 0 in *; change (len []) with 0 in *; cbn [zeros replicate app] in *.
  apply (read_groups_runs _ (n + 1)); rewrite Es.
  rewrite E, <- app_assoc, <- Hl; apply read_groups_stop; congruence || done.
Qed.

(** Whatever bytes follow, every group written is read back, in order and ahead of anything
    else the reader makes of them. *)
Lemma read_groups_keeps ws junk :
  writes_ok 0 ws -> map fst ws `prefix_of` (read_groups (fold_left journal_write ws [] ++ junk)).1.
Proof.
  intros Hok; rewrite (writes_image_fold _ _ _ Hok); cbn [app].
  destruct (read_groups_steps ws junk [] 0 []) as (n & p & pad & E & Hpad & Hl & Es); [by left | done |].
  change (len []) with 0 in *; cbn [zeros replicate app] in *; set (bs := writes_image ws ++ junk) in *.
  assert (len p <= len bs) by (subst bs; rewrite E; len_lia).
  destruct (read_groups_loop_total bs (S (length bs)) (map fst ws) (len p)) as [r Er];
    [len_lia | unfold len; lia |].
  rewrite (read_groups_runs bs (n + S (length bs)) r) by (by rewrite Es).
  by apply (read_groups_loop_prefix _ _ _ _ _ Er).
Qed.

End groups.

(** ** Witnesses *)

Definition demo_rows : list JournalRow :=
  [mkJournalRow demo_key 12 4096 700 Flags_DATA None;
   mkJournalRow demo_key 13 0 0 Flags_RANGE_TOMBSTONE (Some (Boxed (replicate 60 Byte.x6d)))].

Lemma demo_rows_wf : group_wf demo_rows.
Proof.
  split; [done|]; split; [| split; reflexivity].
  repeat (apply Forall_cons; split); [..| apply Forall_nil];
    constructor; try apply demo_key_wf; try widths; try (split; [widths | reflexivity]); try done.
Qed.

(** A bare write, a write padded to its block, and a third group of which 100 bytes landed. *)
Definition demo_writes : list (list JournalRow * nat) := [(demo_rows, 0%nat); (demo_rows, 3628%nat)].

Lemma demo_writes_ok : writes_ok 0 demo_writes.
Proof.
  split; [apply demo_rows_wf|]; split; [by left|].
  split; [apply demo_rows_wf|]; split; [| done].
  right; split; [right; vm_compute; discriminate | reflexivity].
Qed.

Lemma read_groups_exact_witness :
  read_groups (fold_left journal_write demo_writes [] ++ take 100 (group_bytes demo_rows))
  = ([demo_rows; demo_rows], 468).
Proof.
  apply (read_groups_exact demo_writes demo_rows 100);
    [apply demo_writes_ok | apply demo_rows_wf | split; vm_compute; [discriminate | reflexivity]
    | right; vm_compute; discriminate].
Defined.

Lemma read_groups_keeps_witness :
  [demo_rows; demo_rows]
    `prefix_of` (read_groups (fold_left journal_write demo_writes [] ++ [Byte.x07; Byte.x00])).1.
Proof. apply (read_groups_keeps demo_writes [Byte.x07; Byte.x00] demo_writes_ok). Defined.
