(* ===== verification/Filter.v ===== *)
(** * Bloom filters of a sealed segment ([format/filter.rs])

    One blocked bloom filter per partition: built over every key of the partition, encoded into the
    footer, and asked before a partition is searched. A filter may only rule a key out, so the
    theorems are that no key it was built over is ever ruled out, and that whatever bytes the region
    holds the read returns a filter or nothing for every partition and never panics. *)
From S2P Require Import Prelude Error Bytes Record.

(** ** Constants *)

Definition KIND_ABSENT : Z := 0.
Definition KIND_BLOOM : Z := 1.
Definition FILTER_HEADER_LEN : Z := 12.
Definition BLOCK_BYTES : Z := 64.
Definition BLOCK_BITS : Z := 512.
Definition MAX_PROBES : Z := 8.
Definition SEED : Z := 0.
Definition MAX_BITS_PER_KEY : Z := 32.

Record Filter := mkFilter {
  fl_kind : Z;
  fl_seed : Z;
  fl_probes : Z;
  fl_keys : Z;
  fl_body : bytes;
}.

(** ** Hashing *)

Definition u64_rotate_left (v n : Z) : Z :=
  Z.lor (as_u64 (Z.shiftl v n)) (Z.shiftr v (64 - n)).

Definition ODD : Z := 11400714819323198485.

Definition hash_word (state : Z) (chunk : bytes) : Z :=
  u64_rotate_left (as_u64 (Z.lxor state (le_val chunk) * ODD)) 31.

(** The [chunks_exact(8)] loop: the state after the whole words, and the remainder. *)
Fixpoint hash_words (state : Z) (key : bytes) : Z * bytes :=
  match key with
  | b0 :: b1 :: b2 :: b3 :: b4 :: b5 :: b6 :: b7 :: rest =>
      hash_words (hash_word state [b0; b1; b2; b3; b4; b5; b6; b7]) rest
  | remainder => (state, remainder)
  end.

Definition hash_tail (remainder : bytes) : Z :=
  foldl Z.lor 0 (imap (fun at_ b => Z.shiftl (u8 b) (Z.of_nat at_ * 8)) remainder).

Definition hash_key (key : bytes) (seed : Z) : Z :=
  let state := Z.lxor 14695981039346656037 (as_u64 (seed * ODD)) in
  let '(state, remainder) := hash_words state key in
  let tail_ := hash_tail remainder in
  let state := Z.lxor state (Z.lxor tail_ (as_u64 (len key))) in
  let state := Z.lxor state (Z.shiftr state 30) in
  let state := as_u64 (state * 13787848793156543929) in
  let state := Z.lxor state (Z.shiftr state 27) in
  let state := as_u64 (state * 10723151780598845931) in
  Z.lxor state (Z.shiftr state 31).

Definition blocks_for (count bits_per_key : Z) : Z :=
  let bits := u64_saturating_mul count bits_per_key in
  div_ceil bits BLOCK_BITS.

(** [f64] multiplication by [LN_2], which is 6243314768165359 / 2^53 exactly, and [round]. The
    product is rounded to a double before it is rounded to an integer; [probes_for_stable] shows it
    is never close enough to a half for that to matter. *)
Definition LN_2_NUM : Z := 6243314768165359.

Definition probes_for (bits_per_key : Z) : Z :=
  let probes := (2 * bits_per_key * LN_2_NUM + 2 ^ 53) / 2 ^ 54 in
  Z.min probes MAX_PROBES.

Definition block_of (hash blocks : Z) : Z :=
  Z.shiftr (as_u64 (Z.shiftr hash 32 * blocks)) 32.

Definition bits_of (hash probes : Z) : list Z :=
  let first := as_u32 hash in
  let step := Z.lor (as_u32 (Z.shiftr (as_u64 (hash * ODD)) 32)) 1 in
  map (fun probe => as_u32 (first + as_u32 (probe * step)) mod BLOCK_BITS) (seqZ 0 probes).

(** ** Building and asking *)

(** [body[at_] |= 1 << k] *)
Definition set_bit (body : bytes) (at_ k : Z) : res bytes :=
  b ← must (get body at_);
  Ok (put body (Z.to_nat at_) [byte_of (Z.lor (u8 b) (Z.shiftl 1 k))]).

(** The body of the loop over the keys. *)
Definition set_key (blocks probes : Z) (body key : bytes) : res bytes :=
  let hash := hash_key key SEED in
  let block := block_of hash blocks * BLOCK_BYTES in
  foldm (fun body bit => set_bit body (block + bit / 8) (bit mod 8)) (bits_of hash probes) body.

Definition Filter_build (keys : list bytes) (count bits_per_key : Z) : res (option Filter) :=
  if (count =? 0) || (bits_per_key =? 0) then Ok None else
  let bits_per_key := Z.min bits_per_key MAX_BITS_PER_KEY in
  let blocks := blocks_for count bits_per_key in
  let probes := probes_for bits_per_key in
  let body := zeros (Z.to_nat (blocks * BLOCK_BYTES)) in
  body ← foldm (set_key blocks probes) keys body;
  Ok (Some (mkFilter KIND_BLOOM SEED (as_u8 probes) (as_u32 count) body)).

(** The probe loop: a clear bit answers no at once. *)
Fixpoint bits_all_set (body : bytes) (block : Z) (bits : list Z) : res bool :=
  match bits with
  | [] => Ok true
  | bit :: bits =>
      b ← must (get body (block + bit / 8));
      if Z.land (u8 b) (Z.shiftl 1 (bit mod 8)) =? 0 then Ok false
      else bits_all_set body block bits
  end.

Definition Filter_bloom_holds (f : Filter) (key : bytes) : res bool :=
  let blocks := len (fl_body f) / BLOCK_BYTES in
  if (blocks =? 0) || (fl_probes f =? 0) then Ok true else
  let hash := hash_key key (fl_seed f) in
  let block := block_of hash blocks * BLOCK_BYTES in
  bits_all_set (fl_body f) block (bits_of hash (fl_probes f)).

Definition Filter_may_hold (f : Filter) (key : bytes) : res bool :=
  if fl_kind f =? KIND_BLOOM then Filter_bloom_holds f key else Ok true.

(** ** The filter region *)

Definition Filter_encoded_len (f : Filter) : Z := FILTER_HEADER_LEN + len (fl_body f).

Definition Filter_encode (f : Filter) (out : bytes) : bytes :=
  let out := out ++ [byte_of (fl_kind f)] in
  let out := out ++ [byte_of (fl_seed f)] in
  let out := out ++ [byte_of (fl_probes f)] in
  let out := out ++ [byte_of 0] in
  let out := out ++ u32_le (fl_keys f) in
  let out := out ++ u32_le (as_u32 (Filter_encoded_len f)) in
  out ++ fl_body f.

Definition Filter_parse (region : bytes) : res (option Filter * Z) :=
  if len region <? FILTER_HEADER_LEN then Ok (None, len region) else
  kind ← must (get region 0);
  seed ← must (get region 1);
  probes ← must (get region 2);
  keys_field ← must (slice region 4 8);
  len_field ← must (slice region 8 FILTER_HEADER_LEN);
  let keys := read_u32_le keys_field in
  let length := read_u32_le len_field in
  if (length <? FILTER_HEADER_LEN) || (length >? len region) then Ok (None, len region) else
  if u8 kind =? KIND_ABSENT then Ok (None, length) else
  body ← must (slice region FILTER_HEADER_LEN length);
  Ok (Some (mkFilter (u8 kind) (u8 seed) (u8 probes) keys body), length).

(** The loop pushes one filter a turn until there are [partitions] of them. *)
Fixpoint parse_region_loop (partitions : nat) (region : bytes) (at_ : Z)
    (filters : list (option Filter)) : res (list (option Filter)) :=
  match partitions with
  | O => Ok filters
  | S partitions =>
      if at_ >=? len region then parse_region_loop partitions region at_ (filters ++ [None])
      else
        rest ← must (slice_from region at_);
        '(filter, took) ← Filter_parse rest;
        parse_region_loop partitions region (at_ + took) (filters ++ [filter])
  end.

Definition Filter_parse_region (region : bytes) (partitions : nat) : res (list (option Filter)) :=
  parse_region_loop partitions region 0 [].

Definition Filter_absent : Filter := mkFilter KIND_ABSENT SEED 0 0 [].

(** ** Arithmetic of the hash *)

(** At every [u8] the exact product is a thousandth away from a half, far more than a double can
    round it by. *)
Lemma probes_for_stable :
  forallb (fun bits => 2 ^ 53 <? 1000 * Z.abs ((2 * bits * LN_2_NUM) mod 2 ^ 54 - 2 ^ 53)) (seqZ 0 256) = true.
Proof. vm_compute; reflexivity. Qed.

Lemma probes_for_range bits : 0 <= bits -> 0 <= probes_for bits <= MAX_PROBES.
Proof.
  intros; unfold probes_for, LN_2_NUM, MAX_PROBES; split; [| lia].
  apply Z.min_glb; [apply Z.div_pos; lia | lia].
Qed.

Lemma lxor_u64 a b : is_u64 a -> is_u64 b -> is_u64 (Z.lxor a b).
Proof.
  unfold is_u64; change U64 with (2 ^ 64); intros Ha Hb.
  assert (0 <= Z.lxor a b) as H0 by (apply Z.lxor_nonneg; lia); split; [done|].
  destruct (Z.eq_dec (Z.lxor a b) 0); [lia|]; apply Z.log2_lt_pow2; [lia|].
  eapply Z.le_lt_trans; [apply Z.log2_lxor; lia|].
  destruct (Z.eq_dec a 0), (Z.eq_dec b 0); subst; rewrite ?Z.max_lt_iff; apply Z.max_lub_lt;
    first [by cbn | apply Z.log2_lt_pow2; lia].
Qed.

Lemma as_u64_range z : is_u64 (as_u64 z).
Proof. apply Z.mod_pos_bound; done. Qed.

Lemma shiftr_u64 z n : 0 <= n -> is_u64 z -> is_u64 (Z.shiftr z n).
Proof.
  intros Hn [H0 H1]; rewrite Z.shiftr_div_pow2 by done; pose proof (Z.pow_pos_nonneg 2 n ltac:(lia) Hn).
  split; [apply Z.div_pos; lia|]; apply Z.div_lt_upper_bound; nia.
Qed.

#[local] Hint Resolve lxor_u64 as_u64_range shiftr_u64 : reel.

Lemma hash_key_u64 key seed : is_u64 (hash_key key seed).
Proof.
  unfold hash_key; destruct (hash_words _ key) as [s r].
  apply lxor_u64; [| apply shiftr_u64; [lia|]]; apply as_u64_range.
Qed.

Lemma block_of_lt hash blocks : is_u64 hash -> 0 < blocks <= U32 -> 0 <= block_of hash blocks < blocks.
Proof.
  unfold is_u64, U32, U64, block_of; intros Hh Hb; rewrite !Z.shiftr_div_pow2 by lia.
  change (2 ^ 32) with 4294967296.
  assert (0 <= hash / 4294967296 < 4294967296) as Hq.
  { split; [apply Z.div_pos; lia | apply Z.div_lt_upper_bound; lia]. }
  rewrite as_u64_small by (unfold is_u64, U64; nia).
  split; [apply Z.div_pos; nia | apply Z.div_lt_upper_bound; nia].
Qed.

Lemma bits_of_range hash probes : Forall (fun bit => 0 <= bit < BLOCK_BITS) (bits_of hash probes).
Proof.
  unfold bits_of; apply Forall_forall; intros bit (p & -> & _)%list_elem_of_fmap.
  by apply Z.mod_pos_bound.
Qed.

(** ** Bits of a body *)

Definition has_bit (body : bytes) (at_ k : Z) : Prop :=
  exists b, get body at_ = Some b /\ Z.testbit (u8 b) k = true.

Definition bits_le (a b : bytes) : Prop :=
  len a = len b /\ forall at_ k, 0 <= k -> has_bit a at_ k -> has_bit b at_ k.

Global Instance bits_le_preorder : PreOrder bits_le.
Proof.
  split; [done|]; intros a b c [Hl1 H1] [Hl2 H2]; split; [congruence | auto].
Qed.

Lemma land_bit_zero b k : 0 <= k -> Z.land b (Z.shiftl 1 k) = 0 <-> Z.testbit b k = false.
Proof.
  intros Hk; split; intros H.
  - apply (f_equal (fun z => Z.testbit z k)) in H; rewrite Z.land_spec, Z.bits_0, Z.shiftl_1_l in H.
    by rewrite Z.pow2_bits_true, andb_true_r in H.
  - apply Z.bits_inj'; intros i Hi; rewrite Z.land_spec, Z.bits_0, Z.shiftl_1_l, Z.pow2_bits_eqb by done.
    destruct (Z.eqb_spec k i) as [->|]; [by rewrite H | apply andb_false_r].
Qed.

Lemma testbit_or_bit b k i : 0 <= k < 8 -> 0 <= i ->
  Z.testbit (u8 b) i = true \/ i = k -> Z.testbit (u8 (byte_of (Z.lor (u8 b) (Z.shiftl 1 k)))) i = true.
Proof.
  intros Hk Hi Hb; rewrite u8_byte_of; change 256 with (2 ^ 8).
  assert (i < 8).
  { destruct Hb as [Hb|]; [| lia]; apply Z.nle_gt; intros Hge; pose proof (u8_range b) as Hr.
    rewrite <- (Z.mod_small (u8 b) (2 ^ 8)), Z.mod_pow2_bits_high in Hb by (done || lia); done. }
  rewrite Z.mod_pow2_bits_low, Z.lor_spec, Z.shiftl_1_l by lia; apply orb_true_iff.
  destruct Hb as [?| ->]; [by left | right; apply Z.pow2_bits_true; lia].
Qed.

Lemma get_put_one (body : bytes) at_ x i : 0 <= at_ < len body ->
  get (put body (Z.to_nat at_) [x]) i = if i =? at_ then Some x else get body i.
Proof.
  intros Ha; destruct (cut_at body at_ ltac:(lia)) as (p & q & -> & Hp).
  destruct q as [|y q]; [len_lia|].
  change (p ++ y :: q) with (p ++ [y] ++ q); rewrite put_app by (done || unfold len in Hp; lia).
  destruct (Z.eqb_spec i at_) as [->|Hne]; [by apply get_mid|].
  destruct (Z.lt_ge_cases i (len p)); [by rewrite !get_app_l|].
  rewrite !get_skip by (len_simpl; lia); done.
Qed.

Lemma set_bit_sets body at_ k : 0 <= at_ < len body -> 0 <= k < 8 ->
  exists body', set_bit body at_ k = Ok body' /\ bits_le body body' /\ has_bit body' at_ k.
Proof.
  intros Ha Hk; destruct (get_is_Some body at_ Ha) as [b Hb]; unfold set_bit; rewrite Hb; res_simpl.
  eexists; split; [done|]; split; [split|].
  - symmetry; apply len_put; rewrite len_cons, len_nil; lia.
  - intros i j Hj (c & Hc & Ht); unfold has_bit; rewrite get_put_one by done.
    destruct (Z.eqb_spec i at_) as [->|]; [| eauto].
    rewrite Hb in Hc; injection Hc as <-; eexists; split; [done|]; apply testbit_or_bit; auto.
  - unfold has_bit; rewrite get_put_one, Z.eqb_refl by done; eexists; split; [done|].
    apply testbit_or_bit; [lia | lia | auto].
Qed.

(** A loop over a growing body, each turn of which leaves a mark that stays. *)
Lemma foldm_marks {A} (mark : A -> bytes -> Prop) (f : bytes -> A -> res bytes) l body :
  (forall x a b, mark x a -> bits_le a b -> mark x b) ->
  (forall x b, x ∈ l -> bits_le body b -> exists b', f b x = Ok b' /\ bits_le b b' /\ mark x b') ->
  exists b', foldm f l body = Ok b' /\ bits_le body b' /\ forall x, x ∈ l -> mark x b'.
Proof.
  intros Hmono; revert body; induction l as [|x l IH]; intros body Hf; cbn [foldm].
  { exists body; split_and!; [done | done | intros x Hx; by apply elem_of_nil in Hx]. }
  destruct (Hf x body) as (b1 & -> & Hle1 & Hm1); [by left | done |]; res_simpl.
  destruct (IH b1) as (b2 & -> & Hle2 & Hm2).
  { intros y b Hy Hb; apply Hf; [by right | by transitivity b1]. }
  exists b2; split_and!; [done | by transitivity b1 |].
  intros y [->|Hy]%elem_of_cons; eauto.
Qed.

(** ** No false negatives *)

Definition key_marked (blocks probes : Z) (key body : bytes) : Prop :=
  let hash := hash_key key SEED in
  forall bit, bit ∈ bits_of hash probes ->
    has_bit body (block_of hash blocks * BLOCK_BYTES + bit / 8) (bit mod 8).

Lemma bit_in_block hash blocks bit : is_u64 hash -> 0 < blocks <= U32 -> 0 <= bit < BLOCK_BITS ->
  0 <= block_of hash blocks * BLOCK_BYTES + bit / 8 < blocks * BLOCK_BYTES /\ 0 <= bit mod 8 < 8.
Proof.
  unfold BLOCK_BITS, BLOCK_BYTES; intros Hh Hb Hbit; pose proof (block_of_lt hash blocks Hh Hb).
  pose proof (Z.div_mod bit 8 ltac:(lia)); pose proof (Z.mod_pos_bound bit 8 ltac:(lia)); nia.
Qed.

Lemma set_key_marks blocks probes body key : 0 < blocks <= U32 -> len body = blocks * BLOCK_BYTES ->
  exists body', set_key blocks probes body key = Ok body' /\ bits_le body body'
    /\ key_marked blocks probes key body'.
Proof.
  intros Hb Hl; unfold set_key; set (hash := hash_key key SEED).
  apply (foldm_marks (fun bit b => has_bit b (block_of hash blocks * BLOCK_BYTES + bit / 8) (bit mod 8))).
  { intros bit a b Hm [_ Hle]; apply Hle; [apply Z.mod_pos_bound; lia | done]. }
  intros bit b Hin [Hlen _]; pose proof (bits_of_range hash probes) as Hr; rewrite Forall_forall in Hr.
  destruct (bit_in_block hash blocks bit (hash_key_u64 _ _) Hb (Hr _ Hin)).
  apply set_bit_sets; lia.
Qed.

Lemma bits_all_set_true body block bits :
  (forall bit, bit ∈ bits -> has_bit body (block + bit / 8) (bit mod 8)) ->
  bits_all_set body block bits = Ok true.
Proof.
  induction bits as [|bit bits IH]; intros H; cbn [bits_all_set]; [done|].
  destruct (H bit) as (b & -> & Ht); [by left|]; res_simpl.
  destruct (Z.eqb_spec (Z.land (u8 b) (Z.shiftl 1 (bit mod 8))) 0) as [E|].
  { apply land_bit_zero in E; [congruence | apply Z.mod_pos_bound; lia]. }
  apply IH; intros; apply H; by right.
Qed.

Lemma bits_all_set_returns body blocks hash bits : is_u64 hash -> 0 < blocks <= U32 ->
  blocks * BLOCK_BYTES <= len body -> Forall (fun bit => 0 <= bit < BLOCK_BITS) bits ->
  exists b, bits_all_set body (block_of hash blocks * BLOCK_BYTES) bits = Ok b.
Proof.
  intros Hh Hb Hl; induction 1 as [|bit bits Hbit _ IH]; cbn [bits_all_set]; [eauto|].
  destruct (bit_in_block hash blocks bit Hh Hb Hbit).
  destruct (get_is_Some body (block_of hash blocks * BLOCK_BYTES + bit / 8)) as [c ->]; [lia|].
  res_simpl; destruct (_ =? 0); eauto.
Qed.

Record filter_wf (f : Filter) : Prop := {
  fw_kind : is_u8 (fl_kind f);
  fw_seed : is_u8 (fl_seed f);
  fw_probes : is_u8 (fl_probes f);
  fw_keys : is_u32 (fl_keys f);
  fw_len : Filter_encoded_len f < U32;
}.

Lemma blocks_for_range count bits : 0 < count <= 2 ^ 36 -> 0 < bits <= MAX_BITS_PER_KEY ->
  blocks_for count bits = (count * bits + 511) / 512 /\ 0 < blocks_for count bits <= U32.
Proof.
  unfold MAX_BITS_PER_KEY, blocks_for, u64_saturating_mul, div_ceil, BLOCK_BITS, U64, U32; intros Hc Hb.
  rewrite Z.min_l by nia; replace (count * bits + 512 - 1) with (count * bits + 511) by lia; split; [done|].
  split; [apply Z.div_str_pos; nia | apply Z.lt_succ_r, Z.div_lt_upper_bound; nia].
Qed.

Lemma filter_build_spec keys count bits_per_key :
  0 <= count <= 2 ^ 36 -> is_u8 bits_per_key ->
  if (count =? 0) || (bits_per_key =? 0) then Filter_build keys count bits_per_key = Ok None
  else exists f, Filter_build keys count bits_per_key = Ok (Some f)
    /\ (forall key, key ∈ keys -> Filter_may_hold f key = Ok true)
    /\ len (fl_body f) = (count * Z.min bits_per_key MAX_BITS_PER_KEY + 511) / 512 * 64
    /\ len (fl_body f) <= U32 * BLOCK_BYTES
    /\ fl_kind f = KIND_BLOOM /\ fl_seed f = SEED /\ is_u8 (fl_probes f) /\ is_u32 (fl_keys f).
Proof.
  intros Hc Hbits; unfold Filter_build, is_u8 in *.
  destruct ((count =? 0) || (bits_per_key =? 0)) eqn:E0; [done|].
  apply orb_false_iff in E0 as [? ?]; b2p; set (bits := Z.min bits_per_key MAX_BITS_PER_KEY).
  assert (0 < bits <= MAX_BITS_PER_KEY) as Hb by (subst bits; unfold MAX_BITS_PER_KEY; lia).
  destruct (blocks_for_range count bits ltac:(lia) Hb) as [Eblocks Hblocks].
  set (blocks := blocks_for count bits) in *; set (probes := probes_for bits).
  assert (len (zeros (Z.to_nat (blocks * BLOCK_BYTES))) = blocks * BLOCK_BYTES) as Hz
    by (rewrite len_zeros; unfold BLOCK_BYTES; lia).
  destruct (foldm_marks (key_marked blocks probes) (set_key blocks probes) keys
    (zeros (Z.to_nat (blocks * BLOCK_BYTES)))) as (body & -> & [Hlen _] & Hm).
  { intros key a b Hm [_ Hle] bit Hbit; apply Hle; [apply Z.mod_pos_bound; lia | by apply Hm]. }
  { intros key b _ [Hl _]; apply set_key_marks; [done | congruence]. }
  res_simpl; eexists; split; [done|]; cbn [fl_body]; rewrite Hz in Hlen.
  split; [| split; [by rewrite <- Hlen, Eblocks | split; [rewrite <- Hlen; unfold BLOCK_BYTES; lia|]];
    do 2 (split; [done|]); split; by apply Z.mod_pos_bound].
  intros key Hkey; unfold Filter_may_hold; cbn [fl_kind]; rewrite Z.eqb_refl.
  unfold Filter_bloom_holds; cbn [fl_body fl_probes fl_seed].
  replace (len body / BLOCK_BYTES) with blocks by (rewrite <- Hlen; by rewrite Z.div_mul).
  pose proof (probes_for_range bits ltac:(lia)) as Hp; unfold MAX_PROBES in Hp; fold probes in Hp.
  rewrite as_u8_small by (unfold is_u8, U8; lia).
  destruct (_ || _); [done|]; apply bits_all_set_true; exact (Hm key Hkey).
Qed.

(** C35: a filter built over any keys exists whenever it was asked for any bits, answers yes for
    every key it was built over, and spends the blocks its budget names; asked for no bits, or over
    no keys, there is none. *)
Theorem filter_no_false_negatives keys count bits_per_key :
  0 <= count <= 2 ^ 36 -> is_u8 bits_per_key ->
  if (count =? 0) || (bits_per_key =? 0) then Filter_build keys count bits_per_key = Ok None
  else exists f, Filter_build keys count bits_per_key = Ok (Some f)
    /\ (forall key, key ∈ keys -> Filter_may_hold f key = Ok true)
    /\ len (fl_body f) = (count * Z.min bits_per_key MAX_BITS_PER_KEY + 511) / 512 * 64.
Proof.
  intros Hc Hb; pose proof (filter_build_spec keys count bits_per_key Hc Hb) as H; destruct (_ || _); [done|].
  destruct H as (f & ? & ? & ? & _); eauto.
Qed.

Lemma filter_no_false_negatives_witness :
  exists f, Filter_build [[Byte.x01]; replicate 20 Byte.x6b; []] 3 10 = Ok (Some f)
    /\ (forall key, key ∈ [[Byte.x01]; replicate 20 Byte.x6b; []] -> Filter_may_hold f key = Ok true)
    /\ len (fl_body f) = (3 * Z.min 10 MAX_BITS_PER_KEY + 511) / 512 * 64.
Proof.
  apply (filter_no_false_negatives [[Byte.x01]; replicate 20 Byte.x6b; []] 3 10);
    [lia | unfold is_u8, U8; lia].
Defined.

(** ** The region *)

Definition filter_bytes (f : Filter) : bytes :=
  [byte_of (fl_kind f); byte_of (fl_seed f); byte_of (fl_probes f); byte_of 0]
  ++ u32_le (fl_keys f) ++ u32_le (Filter_encoded_len f) ++ fl_body f.

(** What a reader has after the round trip: the filter, or nothing for the absent kind. *)
Definition filter_kept (f : Filter) : option Filter :=
  if fl_kind f =? KIND_ABSENT then None else Some f.

Lemma filter_len_u32 f : filter_wf f -> is_u32 (Filter_encoded_len f).
Proof. intros [_ _ _ _ ?]; split; [unfold Filter_encoded_len, FILTER_HEADER_LEN; len_lia | done]. Qed.

Lemma Filter_encode_bytes f out : filter_wf f -> Filter_encode f out = out ++ filter_bytes f.
Proof.
  intros Hw%filter_len_u32; unfold Filter_encode, filter_bytes; rewrite as_u32_small by done.
  by rewrite <- !app_assoc.
Qed.

Lemma len_filter_bytes f : len (filter_bytes f) = Filter_encoded_len f.
Proof. unfold filter_bytes, Filter_encoded_len, FILTER_HEADER_LEN; len_lia. Qed.

Lemma Filter_parse_back f q : filter_wf f ->
  Filter_parse (filter_bytes f ++ q) = Ok (filter_kept f, Filter_encoded_len f).
Proof.
  intros Hw; pose proof (filter_len_u32 _ Hw) as Hl; destruct Hw as [Hk Hs Hp Hn _].
  pose proof (len_filter_bytes f) as Hlb; unfold Filter_parse, FILTER_HEADER_LEN, filter_kept in *.
  assert (12 <= Filter_encoded_len f) by (unfold Filter_encoded_len, FILTER_HEADER_LEN; len_lia).
  set (n := Filter_encoded_len f) in *.
  destruct (len (filter_bytes f ++ q) <? 12) eqn:?; [len_lia|].
  assert (len (filter_bytes f ++ q) = n + len q) as Hlen by len_lia.
  unfold filter_bytes in *; fold n in Hlen |- *; set (bs := _ ++ q) in *.
  assert (get bs 0 = Some (byte_of (fl_kind f))) as -> by (subst bs; rewrite <- !app_assoc; get_solve; done).
  assert (get bs 1 = Some (byte_of (fl_seed f))) as -> by (subst bs; rewrite <- !app_assoc; get_solve; done).
  assert (get bs 2 = Some (byte_of (fl_probes f))) as -> by (subst bs; rewrite <- !app_assoc; get_solve; done).
  assert (slice bs 4 8 = Some (u32_le (fl_keys f))) as -> by (subst bs; rewrite <- !app_assoc; slice_solve; done).
  assert (slice bs 8 12 = Some (u32_le n)) as -> by (subst bs; rewrite <- !app_assoc; slice_solve; done).
  assert (slice bs 12 n = Some (fl_body f)) as Eb
    by (subst bs n; unfold Filter_encoded_len, FILTER_HEADER_LEN; rewrite <- !app_assoc; slice_solve; done).
  res_simpl; unfold read_u32_le; rewrite !le_val_u32, !u8_byte_of_small by done.
  destruct (_ || _) eqn:Eo; [apply orb_true_iff in Eo as [?|?]; len_lia|].
  destruct (fl_kind f =? KIND_ABSENT); [done|]; rewrite Eb; res_simpl; by destruct f.
Qed.

Definition filters_bytes (fs : list Filter) : bytes := concat (map filter_bytes fs).

Lemma slice_from_app {A} (p q : list A) : slice_from (p ++ q) (len p) = Some q.
Proof. apply slice_from_Some; eauto. Qed.

Lemma parse_region_back fs : Forall filter_wf fs -> forall p acc extra,
  parse_region_loop (length fs + extra) (p ++ filters_bytes fs) (len p) acc
  = Ok (acc ++ map filter_kept fs ++ replicate extra None).
Proof.
  induction 1 as [|f fs Hf _ IH]; intros p acc extra; cbn [length Nat.add].
  - cbn [filters_bytes map concat app]; rewrite app_nil_r.
    revert acc; induction extra as [|extra IHe]; intros acc; cbn [parse_region_loop replicate].
    { by rewrite app_nil_r. }
    rewrite Z.geb_leb, Z.leb_refl, IHe, <- app_assoc; done.
  - cbn [parse_region_loop]; change (filters_bytes (f :: fs)) with (filter_bytes f ++ filters_bytes fs).
    pose proof (len_filter_bytes f) as Hl.
    destruct (_ >=? _) eqn:E; [unfold Filter_encoded_len, FILTER_HEADER_LEN in Hl; len_lia|].
    rewrite slice_from_app; res_simpl; rewrite Filter_parse_back by done; res_simpl.
    rewrite <- Hl, <- len_app, app_assoc, IH, <- app_assoc; done.
Qed.

(** the filter region a seal writes, one filter per partition and a placeholder where there is
    none, reads back filter by filter; partitions past the end of the region have none. *)
Lemma filter_region_roundtrip fs extra : Forall filter_wf fs ->
  Filter_parse_region (foldl (fun out f => Filter_encode f out) [] fs) (length fs + extra)
  = Ok (map filter_kept fs ++ replicate extra None).
Proof.
  intros Hw; assert (foldl (fun out f => Filter_encode f out) [] fs = filters_bytes fs) as ->.
  { change (filters_bytes fs) with ([] ++ filters_bytes fs); generalize ([] : bytes) as out.
    induction Hw as [|f fs Hf _ IH]; intros out; cbn [foldl]; [by rewrite app_nil_r|].
    rewrite IH, Filter_encode_bytes by done; by rewrite <- app_assoc. }
  apply (parse_region_back fs Hw [] []).
Qed.

Lemma filter_region_roundtrip_witness :
  Filter_parse_region (foldl (fun out f => Filter_encode f out) []
    [mkFilter 1 0 7 2 (replicate 64 Byte.xff); Filter_absent]) 3
  = Ok [Some (mkFilter 1 0 7 2 (replicate 64 Byte.xff)); None; None].
Proof.
  apply (filter_region_roundtrip [mkFilter 1 0 7 2 (replicate 64 Byte.xff); Filter_absent] 1).
  repeat constructor; try widths; cbn; reflexivity.
Defined.

Lemma Filter_parse_total region :
  exists f took, Filter_parse region = Ok (f, took)
    /\ (0 < len region -> 0 < took)
    /\ forall g, f = Some g -> len (fl_body g) < U32.
Proof.
  unfold Filter_parse, FILTER_HEADER_LEN; destruct (len region <? 12) eqn:E.
  { do 2 eexists; split_and!; [done | done | done]. }
  b2p; destruct (get_is_Some region 0) as [k ->]; [lia|]; destruct (get_is_Some region 1) as [s ->]; [lia|].
  destruct (get_is_Some region 2) as [p ->]; [lia|]; destruct (slice_is_Some region 4 8) as [n ->]; [lia | lia |].
  destruct (slice_is_Some region 8 12) as [l El]; [lia | lia |]; rewrite El; res_simpl; unfold read_u32_le.
  assert (is_u32 (le_val l)) as [? ?] by (apply slice_bounds in El; apply le_val_is_u32; lia).
  destruct (_ || _) eqn:Eo; [do 2 eexists; split_and!; [done | lia | done]|].
  apply orb_false_iff in Eo as [? ?]; b2p; assert (le_val l <= len region) by lia.
  destruct (_ =? KIND_ABSENT); [do 2 eexists; split_and!; [done | lia | done]|].
  destruct (slice_is_Some region 12 (le_val l)) as [body Eb]; [lia | lia |]; rewrite Eb; res_simpl.
  do 2 eexists; split_and!; [done | lia |]; intros g [= <-]; cbn [fl_body]; apply slice_bounds in Eb; lia.
Qed.

Lemma may_hold_returns f key : len (fl_body f) <= U32 * BLOCK_BYTES -> exists b, Filter_may_hold f key = Ok b.
Proof.
  intros Hl; unfold Filter_may_hold, Filter_bloom_holds, BLOCK_BYTES in *; destruct (_ =? KIND_BLOOM); [| eauto].
  destruct (_ || _) eqn:E; [eauto|]; apply orb_false_iff in E as [? _]; b2p.
  pose proof (len_nonneg (fl_body f)); pose proof (Z.div_mod (len (fl_body f)) 64 ltac:(lia)).
  pose proof (Z.mod_pos_bound (len (fl_body f)) 64 ltac:(lia)).
  apply (bits_all_set_returns _ _ _ _ (hash_key_u64 _ _)); [| unfold BLOCK_BYTES; lia | apply bits_of_range].
  pose proof (Z.div_pos (len (fl_body f)) 64); unfold U32, BLOCK_BYTES in *; lia.
Qed.

Lemma parse_region_total region partitions :
  exists filters, Filter_parse_region region partitions = Ok filters
    /\ length filters = partitions
    /\ Forall (fun f => forall g key, f = Some g -> exists b, Filter_may_hold g key = Ok b) filters.
Proof.
  unfold Filter_parse_region.
  enough (forall at_ acc, 0 <= at_ -> exists more, parse_region_loop partitions region at_ acc = Ok (acc ++ more)
    /\ length more = partitions
    /\ Forall (fun f => forall g key, f = Some g -> exists b, Filter_may_hold g key = Ok b) more) as H
    by (apply (H 0 []); lia).
  induction partitions as [|n IH]; intros at_ acc Hat; cbn [parse_region_loop].
  { exists []; by rewrite app_nil_r. }
  destruct (at_ >=? len region) eqn:E.
  - destruct (IH at_ (acc ++ [None]) Hat) as (more & -> & Hl & Hm); exists (None :: more).
    rewrite <- app_assoc; split_and!; [done | cbn; lia | by constructor].
  - destruct (slice_from region at_) as [rest|] eqn:Er; [| unfold slice_from in Er;
      destruct (_ && _) eqn:?; [done | len_lia]].
    res_simpl; destruct (Filter_parse_total rest) as (f & took & -> & Ht & Hb); res_simpl.
    assert (0 < took) by (apply slice_from_Some in Er as (p & -> & <-); apply Ht; len_lia).
    destruct (IH (at_ + took) (acc ++ [f]) ltac:(lia)) as (more & -> & Hl & Hm); exists (f :: more).
    rewrite <- app_assoc; split_and!; [done | cbn; lia |].
    constructor; [| done]; intros g key Hg; apply may_hold_returns; specialize (Hb g Hg); unfold BLOCK_BYTES, U32 in *; lia.
Qed.

(** Whatever bytes a filter region holds, the read gives one answer per partition without
    panicking, and every filter it gives answers every key. *)
Lemma filter_region_fails_open region partitions :
  exists filters, Filter_parse_region region partitions = Ok filters
    /\ length filters = partitions
    /\ Forall (fun f => forall g key, f = Some g -> exists b, Filter_may_hold g key = Ok b) filters.
Proof. apply parse_region_total. Qed.
