(* ===== verification/FooterRow.v ===== *)
(** * One footer row ([format/footer.rs])

    The record fields a footer keeps behind each key, and the entry a caller sees. *)
From S2P Require Import Prelude Error Bytes Lsn Column Record.

Definition U32_BYTES : Z := 4.
Definition U64_BYTES : Z := 8.
Definition ENTRY_TAIL_LEN : Z := U64_BYTES + U32_BYTES + U32_BYTES + 1.

Record FooterRow := mkFooterRow {
  fr_lsn : Lsn;
  fr_offset : Z;
  fr_len : Z;
  fr_flags : Flags;
}.

Record FooterEntry := mkFooterEntry {
  fe_key : RecordKey;
  fe_lsn : Lsn;
  fe_offset : Z;
  fe_len : Z;
  fe_flags : Flags;
}.

Global Instance FooterRow_eq_dec : EqDecision FooterRow.
Proof. solve_decision. Defined.

Definition FooterRow_read (row : bytes) (width : Z) : res FooterRow :=
  let offset_at := width + U64_BYTES in
  let len_at := offset_at + U32_BYTES in
  let flags_at := len_at + U32_BYTES in
  lsn ← must (slice row width offset_at);
  offset ← must (slice row offset_at len_at);
  length ← must (slice row len_at flags_at);
  flags_byte ← must (get row flags_at);
  flags ← Flags_from_bits (u8 flags_byte);
  Ok (mkFooterRow (read_u64_le lsn) (read_u32_le offset) (read_u32_le length) flags).

Definition FooterEntry_new (key : RecordKey) (lsn : Lsn) (offset length : Z) (flags : Flags) : FooterEntry :=
  mkFooterEntry key lsn offset length flags.

Definition FooterRow_into_entry (r : FooterRow) (key : RecordKey) : FooterEntry :=
  FooterEntry_new key (fr_lsn r) (fr_offset r) (fr_len r) (fr_flags r).

Definition FooterRow_is_tombstone (r : FooterRow) : bool := Flags_is_tombstone (fr_flags r).
Definition FooterRow_is_range_tombstone (r : FooterRow) : bool := Flags_is_range_tombstone (fr_flags r).
Definition FooterEntry_is_tombstone (e : FooterEntry) : bool := Flags_is_tombstone (fe_flags e).
Definition FooterEntry_is_range_tombstone (e : FooterEntry) : bool := Flags_is_range_tombstone (fe_flags e).

Definition is_listed (flags : Flags) : bool :=
  Flags_is_data flags || Flags_is_tombstone flags || Flags_is_range_tombstone flags.

Definition FooterEntry_from_record (header : RecordHeader) (offset : Z) : option FooterEntry :=
  if negb (is_listed (rh_flags header)) then None
  else Some (FooterEntry_new (rh_key header) (rh_lsn header) offset (rh_length header) (rh_flags header)).

(** ** Rows as bytes *)

Record footer_row_wf (r : FooterRow) : Prop := {
  frw_lsn : is_u64 (fr_lsn r);
  frw_offset : is_u32 (fr_offset r);
  frw_len : is_u32 (fr_len r);
  frw_flags : flags_wf (fr_flags r);
}.

(** The tail a row keeps behind its key. *)
Definition entry_tail (r : FooterRow) : bytes :=
  u64_le (fr_lsn r) ++ u32_le (fr_offset r) ++ u32_le (fr_len r) ++ [byte_of (fr_flags r)].

Lemma len_entry_tail r : len (entry_tail r) = ENTRY_TAIL_LEN.
Proof. reflexivity. Qed.

Lemma FooterRow_read_back key r : footer_row_wf r ->
  FooterRow_read (key ++ entry_tail r) (len key) = Ok r.
Proof.
  intros [Hl Ho Hn [Hf Hfb]]; unfold FooterRow_read, U64_BYTES, U32_BYTES, entry_tail.
  set (row := key ++ _).
  assert (slice row (len key) (len key + 8) = Some (u64_le (fr_lsn r))) as -> by (subst row; slice_solve; done).
  assert (slice row (len key + 8) (len key + 8 + 4) = Some (u32_le (fr_offset r))) as ->
    by (subst row; slice_solve; done).
  assert (slice row (len key + 8 + 4) (len key + 8 + 4 + 4) = Some (u32_le (fr_len r))) as ->
    by (subst row; slice_solve; done).
  assert (get row (len key + 8 + 4 + 4) = Some (byte_of (fr_flags r))) as -> by (subst row; get_solve; done).
  res_simpl; rewrite u8_byte_of_small, Hfb by done; res_simpl.
  unfold read_u64_le, read_u32_le; rewrite le_val_u64, !le_val_u32 by done; by destruct r.
Qed.
