(* ===== verification/Varint.v ===== *)
(** * Numbers and tails of a packed row ([format/prefix.rs])

    The seven-bit varint, the zigzag fold of signed differences, and a footer entry's tail kept as
    differences from the row before it. *)
From S2P Require Import Prelude Error Bytes Lsn Column Record FooterRow.

(** ** Constants *)

Definition TAIL_CAP : Z := 32.
Definition OFFSET_AT : Z := 8.
Definition LEN_AT : Z := 12.
Definition FLAGS_AT : Z := 16.

Inductive Tail := TailEntry | Raw (n : Z).

Definition Tail_len (t : Tail) : Z :=
  match t with TailEntry => ENTRY_TAIL_LEN | Raw n => n end.

(** A tail read back whole: [TAIL_CAP] bytes, zero past its length. *)
Abbreviation Whole := bytes (only parsing).
Definition no_tail : Whole := zeros (Z.to_nat TAIL_CAP).

(** ** Varints *)

(** The [while value >= 0x80] loop. A [u64] leaves it within ten bytes. *)
Fixpoint varint (fuel : nat) (value : Z) : bytes :=
  match fuel with
  | O => []
  | S fuel =>
      if value >=? 128 then byte_of (Z.lor (as_u8 value) 128) :: varint fuel (Z.shiftr value 7)
      else [byte_of value]
  end.

Definition put_varint (out : bytes) (value : Z) : bytes := out ++ varint 10 value.

Definition truncated_number : ReelError := Corruption "a footer row number is truncated".

(** The [for shift in (0..64).step_by(7)] loop, over the shifts left to try. *)
Fixpoint get_varint_loop (shifts : list Z) (bs : bytes) (at_ value : Z) : res (Z * Z) :=
  match shifts with
  | [] => Err (Corruption "a footer row number runs past ten bytes")
  | shift :: shifts =>
      match get bs at_ with
      | None => Err truncated_number
      | Some b =>
          let at_ := at_ + 1 in
          let value := Z.lor value (as_u64 (Z.shiftl (Z.land (u8 b) 127) shift)) in
          if Z.land (u8 b) 128 =? 0 then Ok (value, at_)
          else get_varint_loop shifts bs at_ value
      end
  end.

Definition varint_shifts : list Z := [0; 7; 14; 21; 28; 35; 42; 49; 56; 63].

(** The value, and where the next field starts. *)
Definition get_varint (bs : bytes) (at_ : Z) : res (Z * Z) := get_varint_loop varint_shifts bs at_ 0.

(** ** Zigzag *)

Definition zigzag (value : Z) : Z :=
  as_u64 (Z.lxor (as_i64 (Z.shiftl value 1)) (Z.shiftr value 63)).

Definition unzigzag (value : Z) : Z :=
  Z.lxor (as_i64 (Z.shiftr value 1)) (- as_i64 (Z.land value 1)).

(** ** Tails *)

Definition u64_at (tail_ : bytes) (at_ : Z) : res Z :=
  b ← must (slice tail_ at_ (at_ + 8)); Ok (le_val b).

Definition u32_at (tail_ : bytes) (at_ : Z) : res Z :=
  b ← must (slice tail_ at_ (at_ + 4)); Ok (le_val b).

Definition u64_wrapping_sub (a b : Z) : Z := as_u64 (a - b).
Definition u64_wrapping_add (a b : Z) : Z := as_u64 (a + b).

Definition put_tail (out : bytes) (shape : Tail) (tail_ : bytes) (before : Whole) : res bytes :=
  match shape with
  | Raw _ => Ok (out ++ tail_)
  | TailEntry =>
      flags ← must (get tail_ FLAGS_AT);
      let out := out ++ [flags] in
      length ← u32_at tail_ LEN_AT;
      let out := put_varint out length in
      offset ← u32_at tail_ OFFSET_AT;
      offset_before ← u32_at before OFFSET_AT;
      let out := put_varint out (zigzag (offset - offset_before)) in
      lsn ← u64_at tail_ 0;
      lsn_before ← u64_at before 0;
      Ok (put_varint out (zigzag (as_i64 (u64_wrapping_sub lsn lsn_before))))
  end.

(** [u32::try_from] of a wider integer. *)
Definition u32_try_from (z : Z) (e : ReelError) : res Z :=
  if (0 <=? z) && (z <? U32) then Ok z else Err e.

Definition get_tail (bs : bytes) (at_ : Z) (shape : Tail) (before : Whole) : res (Whole * Z) :=
  let truncated := Corruption "footer row tail is truncated" in
  let tail_ := no_tail in
  match shape with
  | Raw n =>
      raw ← ok_or (slice bs at_ (at_ + n)) truncated;
      _ ← must (slice tail_ 0 n);
      Ok (put tail_ 0 raw, at_ + n)
  | TailEntry =>
      flags ← ok_or (get bs at_) truncated;
      let tail_ := put tail_ 16 [flags] in
      let at_ := at_ + 1 in
      '(v, at_) ← get_varint bs at_;
      length ← u32_try_from v (Corruption "a footer row length is past four bytes");
      offset_before ← u32_at before OFFSET_AT;
      '(v, at_) ← get_varint bs at_;
      offset ← u32_try_from (as_i64 (offset_before + unzigzag v))
        (Corruption "a footer row offset is out of range");
      lsn_before ← u64_at before 0;
      '(v, at_) ← get_varint bs at_;
      let lsn := u64_wrapping_add lsn_before (as_u64 (unzigzag v)) in
      let tail_ := put tail_ 0 (u64_le lsn) in
      let tail_ := put tail_ 8 (u32_le offset) in
      let tail_ := put tail_ 12 (u32_le length) in
      Ok (tail_, at_)
  end.

(** ** Varints read back *)

Lemma byte_forall (P : Z -> bool) : forallb P (seqZ 0 256) = true -> forall w, 0 <= w < 256 -> P w = true.
Proof. rewrite forallb_forall; intros H w Hw; apply H, list_elem_of_In, elem_of_seqZ; lia. Qed.

Lemma varint_more_byte w : 0 <= w < 256 ->
  Z.land (u8 (byte_of (Z.lor w 128))) 127 = w mod 128 /\ Z.land (u8 (byte_of (Z.lor w 128))) 128 <> 0.
Proof.
  intros Hw; pose proof (byte_forall (fun w => (Z.land (u8 (byte_of (Z.lor w 128))) 127 =? w mod 128)
    && negb (Z.land (u8 (byte_of (Z.lor w 128))) 128 =? 0)) eq_refl w Hw) as H; cbn beta in H; b2p; auto.
Qed.

Lemma varint_last_byte w : 0 <= w < 128 ->
  Z.land (u8 (byte_of w)) 127 = w /\ Z.land (u8 (byte_of w)) 128 = 0.
Proof.
  intros Hw; pose proof (byte_forall (fun w => (128 <=? w) || ((Z.land (u8 (byte_of w)) 127 =? w)
    && (Z.land (u8 (byte_of w)) 128 =? 0))) eq_refl w ltac:(lia)) as H; cbn beta in H.
  apply orb_true_iff in H as [H|H]; b2p; [lia | auto].
Qed.

Lemma varint_nonempty fuel v : 0 < len (varint (S fuel) v).
Proof. cbn [varint]; destruct (_ >=? _); len_lia. Qed.

Lemma get_varint_step acc x k : 0 <= k -> 0 <= acc < 2 ^ k -> 0 <= x * 2 ^ k < U64 ->
  Z.lor acc (as_u64 (Z.shiftl x k)) = acc + x * 2 ^ k.
Proof.
  intros Hk Ha Hx; rewrite Z.shiftl_mul_pow2, as_u64_small, Z.lor_comm, lor_shifted by done; lia.
Qed.

Lemma varint_S fuel v : varint (S fuel) v =
  if v >=? 128 then byte_of (Z.lor (v mod 256) 128) :: varint fuel (Z.shiftr v 7) else [byte_of v].
Proof. reflexivity. Qed.

Lemma get_varint_loop_back fuel : forall j v acc p q,
  (fuel + j = 9)%nat -> 0 <= v -> v * 2 ^ (7 * Z.of_nat j) < U64 -> 0 <= acc < 2 ^ (7 * Z.of_nat j) ->
  get_varint_loop (drop j varint_shifts) (p ++ varint (S fuel) v ++ q) (len p) acc
  = Ok (acc + v * 2 ^ (7 * Z.of_nat j), len p + len (varint (S fuel) v)).
Proof.
  induction fuel as [|fuel IH]; intros j v acc p q Hj Hv Hlt Hacc.
  all: assert (drop j varint_shifts = 7 * Z.of_nat j :: drop (S j) varint_shifts) as ->
    by (apply drop_S; do 10 (destruct j as [|j]; [reflexivity|]); lia).
  all: set (k := 7 * Z.of_nat j) in *; assert (0 < 2 ^ k) by (apply Z.pow_pos_nonneg; lia).
  all: rewrite (varint_S _ v); cbn [get_varint_loop]; destruct (v >=? 128) eqn:E.
  1:{ assert (j = 9%nat) as -> by lia; subst k; cbn in Hlt; unfold U64 in Hlt; lia. }
  1,3: cbn [app]; rewrite get_mid by done; destruct (varint_last_byte v) as [-> ->]; [lia|];
       rewrite get_varint_step by (lia || nia); done.
  cbn [app]; rewrite get_mid by done; pose proof (Z.mod_pos_bound v 256 ltac:(lia)) as Hm.
  destruct (varint_more_byte (v mod 256) Hm) as [-> Hne]; destruct (_ =? 0) eqn:E0; [lia|].
  assert (v mod 256 mod 128 = v mod 128) as -> by (apply Z.mod_mod_divide; by exists 2).
  pose proof (Z.div_mod v 128 ltac:(lia)) as Hd; pose proof (Z.mod_pos_bound v 128 ltac:(lia)) as Hr.
  assert (2 ^ (7 * Z.of_nat (S j)) = 128 * 2 ^ k) as Ek
    by (subst k; change 128 with (2 ^ 7); rewrite <- Z.pow_add_r by lia; f_equal; lia).
  pose proof (Z.div_pos v 128 ltac:(lia) ltac:(lia)).
  rewrite Z.shiftr_div_pow2, get_varint_step by (lia || nia); change (2 ^ 7) with 128 in *.
  match goal with |- context [byte_of ?x] => set (b := byte_of x) end.
  pose proof (IH (S j) (v / 128) (acc + v mod 128 * 2 ^ k) (p ++ [b]) q ltac:(lia) ltac:(lia)
    ltac:(nia) ltac:(nia)) as IH'; rewrite Ek, <- app_assoc, len_app in IH'.
  change (len [b]) with 1 in IH'; cbn [app] in IH'.
  rewrite IH'; f_equal; f_equal; [nia | rewrite len_cons; lia].
Qed.

Lemma get_varint_back p v q : is_u64 v ->
  get_varint (p ++ varint 10 v ++ q) (len p) = Ok (v, len p + len (varint 10 v)).
Proof.
  intros [H0 H1]; unfold get_varint; change varint_shifts with (drop 0 varint_shifts).
  rewrite get_varint_loop_back by (cbn; lia); do 2 f_equal; cbn; lia.
Qed.

Lemma lor_u64 a b : is_u64 a -> is_u64 b -> is_u64 (Z.lor a b).
Proof.
  unfold is_u64; change U64 with (2 ^ 64); intros Ha Hb.
  assert (0 <= Z.lor a b) as H0 by (apply Z.lor_nonneg; lia); split; [done|].
  destruct (Z.eq_dec (Z.lor a b) 0); [lia|]; apply Z.log2_lt_pow2; [lia|].
  rewrite Z.log2_lor by lia; apply Z.max_lub_lt.
  - destruct (Z.eq_dec a 0); [by subst | apply Z.log2_lt_pow2; lia].
  - destruct (Z.eq_dec b 0); [by subst | apply Z.log2_lt_pow2; lia].
Qed.

(** A number read off any bytes is a [u64], and the read moves forward inside them. *)
Lemma get_varint_sound bs at_ : 0 <= at_ ->
  refuses_or (fun r => is_u64 r.1 /\ at_ < r.2 <= len bs) (get_varint bs at_).
Proof.
  enough (forall shifts at_ v, 0 <= at_ -> is_u64 v ->
    refuses_or (fun r => is_u64 r.1 /\ at_ < r.2 <= len bs) (get_varint_loop shifts bs at_ v)) as H
    by (intros; by apply H).
  clear at_; induction shifts as [|k shifts IH]; intros at_ v H0 Hv; cbn [get_varint_loop]; [done|].
  destruct (get bs at_) as [b|] eqn:Eb; [|done]; apply get_bounds in Eb.
  assert (is_u64 (Z.lor v (as_u64 (Z.shiftl (Z.land (u8 b) 127) k)))) as Hv'
    by (apply lor_u64; [done | apply Z.mod_pos_bound; done]).
  destruct (_ =? 0); [cbn; split; [done | lia]|].
  eapply refuses_or_mono; [apply IH; [lia | done]|]; cbn; intros a [? ?]; split; [done | lia].
Qed.

(** ** Zigzag *)

Lemma as_i64_small z : is_i64 z -> as_i64 z = z.
Proof. unfold is_i64, as_i64, U64, I64_HALF; intros; rewrite Z.mod_small; lia. Qed.

Lemma zigzag_val v : is_i64 v -> zigzag v = if v <? 0 then - 2 * v - 1 else 2 * v.
Proof.
  unfold zigzag, as_u64, as_i64, is_i64, I64_HALF; intros Hv.
  rewrite Z.shiftl_mul_pow2, Z.shiftr_div_pow2 by lia; change (2 ^ 1) with 2.
  set (w := (v * 2 + 9223372036854775808) mod U64 - 9223372036854775808).
  assert (exists c, w = 2 * v + c * U64) as [c Hc].
  { exists (- ((v * 2 + 9223372036854775808) / U64)).
    pose proof (Z.div_mod (v * 2 + 9223372036854775808) U64 ltac:(done)); subst w; lia. }
  destruct (v <? 0) eqn:E.
  - replace (v / 2 ^ 63) with (-1) by (apply Z.div_unique with (v + 2 ^ 63); lia).
    rewrite Z.lxor_m1_r; unfold Z.lnot; rewrite Hc.
    replace (Z.pred (- (2 * v + c * U64))) with (- 2 * v - 1 + - c * U64) by lia.
    rewrite Z_mod_plus_full; apply Z.mod_small; unfold U64; lia.
  - rewrite (Z.div_small v) by lia; rewrite Z.lxor_0_r, Hc, Z_mod_plus_full; apply Z.mod_small; unfold U64; lia.
Qed.

Lemma zigzag_u64 v : is_u64 (zigzag v).
Proof. apply Z.mod_pos_bound; done. Qed.

Lemma unzigzag_zigzag v : is_i64 v -> unzigzag (zigzag v) = v.
Proof.
  intros Hv; rewrite zigzag_val by done; unfold unzigzag, is_i64, I64_HALF in *.
  assert (forall x, Z.land x 1 = x mod 2) as -> by (intros x; apply (Z.land_ones x 1); lia).
  rewrite Z.shiftr_div_pow2 by lia.
  change (2 ^ 1) with 2; destruct (v <? 0) eqn:E.
  - replace ((-2 * v - 1) / 2) with (- v - 1) by (apply Z.div_unique with 1; lia).
    replace ((-2 * v - 1) mod 2) with 1 by (apply Z.mod_unique with (- v - 1); lia).
    rewrite !as_i64_small by (unfold is_i64, I64_HALF; lia).
    change (- (1)) with (-1); rewrite Z.lxor_m1_r; unfold Z.lnot; lia.
  - rewrite Z.mul_comm, Z.div_mul, Z.mod_mul by lia; rewrite !as_i64_small by (unfold is_i64, I64_HALF; lia).
    apply Z.lxor_0_r.
Qed.

Lemma as_u64_as_i64 z : as_u64 (as_i64 z) = as_u64 z.
Proof.
  unfold as_u64, as_i64; rewrite Zminus_mod_idemp_l; f_equal; lia.
Qed.

Lemma as_i64_range z : is_i64 (as_i64 z).
Proof.
  unfold is_i64, as_i64, I64_HALF; pose proof (Z.mod_pos_bound (z + 9223372036854775808) U64 ltac:(done)).
  unfold U64 in *; lia.
Qed.

(** ** Tails read back *)

Definition tail_ok (shape : Tail) (t : bytes) : Prop := len t = Tail_len shape /\ len t <= TAIL_CAP.

(** A tail filled to the width it is read back at. *)
Definition whole (t : bytes) : Whole := t ++ zeros (Z.to_nat TAIL_CAP - length t).

(** The fields of an entry tail. *)
Definition tail_lsn (t : bytes) : Z := le_val (take 8 t).
Definition tail_offset (t : bytes) : Z := le_val (take 4 (drop 8 t)).
Definition tail_length (t : bytes) : Z := le_val (take 4 (drop 12 t)).
Definition tail_flags (t : bytes) : byte := default Byte.x00 (t !! 16%nat).

(** The bytes a tail packs to against the whole tail before it. *)
Definition tail_bytes (shape : Tail) (t : bytes) (before : Whole) : bytes :=
  match shape with
  | Raw _ => t
  | TailEntry =>
      [tail_flags t] ++ varint 10 (tail_length t)
      ++ varint 10 (zigzag (tail_offset t - tail_offset before))
      ++ varint 10 (zigzag (as_i64 (u64_wrapping_sub (tail_lsn t) (tail_lsn before))))
  end.

Lemma cut_bytes (bs : bytes) (n : nat) : Z.of_nat n <= len bs ->
  exists a b, bs = a ++ b /\ length a = n.
Proof.
  intros; exists (take n bs), (drop n bs); rewrite take_drop, length_take; unfold len in *; split; [done | lia].
Qed.

Lemma entry_tail_split (t : bytes) : len t = ENTRY_TAIL_LEN ->
  exists a b c f, t = a ++ b ++ c ++ [f] /\ length a = 8%nat /\ length b = 4%nat /\ length c = 4%nat.
Proof.
  unfold ENTRY_TAIL_LEN, U64_BYTES, U32_BYTES; intros Hl.
  destruct (cut_bytes t 8) as (a & t1 & -> & Ha); [lia|]; rewrite len_app in Hl; unfold len in Hl.
  destruct (cut_bytes t1 4) as (b & t2 & -> & Hb); [unfold len; lia|]; rewrite length_app in Hl.
  destruct (cut_bytes t2 4) as (c & t3 & -> & Hc); [unfold len; lia|]; rewrite length_app in Hl.
  destruct t3 as [|f [|]]; cbn in Hl; [lia | exists a, b, c, f; done | lia].
Qed.

Lemma before_split (before : bytes) : len before = TAIL_CAP ->
  exists a b r, before = a ++ b ++ r /\ length a = 8%nat /\ length b = 4%nat.
Proof.
  unfold TAIL_CAP; intros Hl.
  destruct (cut_bytes before 8) as (a & t1 & -> & Ha); [lia|]; rewrite len_app in Hl; unfold len in Hl.
  destruct (cut_bytes t1 4) as (b & t2 & -> & Hb); [unfold len; lia|]; eauto 10.
Qed.

Lemma len_no_tail : len no_tail = TAIL_CAP.
Proof. reflexivity. Qed.

Lemma len_whole t : len t <= TAIL_CAP -> len (whole t) = TAIL_CAP.
Proof. unfold whole, TAIL_CAP; intros; rewrite len_app, len_zeros; unfold len in *; lia. Qed.

Lemma u64_at_0 (a r : bytes) : length a = 8%nat -> u64_at (a ++ r) 0 = Ok (le_val a).
Proof. intros Ha; unfold u64_at; rewrite slice_hit by (unfold len; lia); done. Qed.

Lemma u32_at_mid p a r at_ : len p = at_ -> length a = 4%nat -> u32_at (p ++ a ++ r) at_ = Ok (le_val a).
Proof. intros <- Ha; unfold u32_at; rewrite slice_mid by (unfold len; lia); done. Qed.

Lemma tail_lsn_app a r : length a = 8%nat -> tail_lsn (a ++ r) = le_val a.
Proof. intros; unfold tail_lsn; by rewrite take_app_length'. Qed.

Lemma tail_offset_app a b r : length a = 8%nat -> length b = 4%nat -> tail_offset (a ++ b ++ r) = le_val b.
Proof. intros; unfold tail_offset; by rewrite drop_app_length', take_app_length'. Qed.

Lemma tail_length_app a b c r : length a = 8%nat -> length b = 4%nat -> length c = 4%nat ->
  tail_length (a ++ b ++ c ++ r) = le_val c.
Proof.
  intros; unfold tail_length; rewrite (app_assoc a), (drop_app_length' (a ++ b)), take_app_length';
    rewrite ?length_app; done || lia.
Qed.

Lemma tail_flags_app a b c f : length a = 8%nat -> length b = 4%nat -> length c = 4%nat ->
  tail_flags (a ++ b ++ c ++ [f]) = f /\ get (a ++ b ++ c ++ [f]) FLAGS_AT = Some f.
Proof.
  intros; unfold FLAGS_AT.
  assert (get (a ++ b ++ c ++ [f]) 16 = Some f) as E
    by (rewrite !app_assoc; apply get_mid; rewrite !len_app; unfold len; lia).
  split; [| done]; unfold tail_flags; rewrite <- get_lookup; change (Z.of_nat 16) with 16; by rewrite E.
Qed.

Lemma put_tail_bytes out shape t before : tail_ok shape t -> len before = TAIL_CAP ->
  put_tail out shape t before = Ok (out ++ tail_bytes shape t before).
Proof.
  intros [Ht _] (a' & b' & r' & -> & Ha' & Hb')%before_split; destruct shape as [|n]; [| done].
  apply entry_tail_split in Ht as (a & b & c & f & -> & Ha & Hb & Hc); unfold put_tail, tail_bytes.
  destruct (tail_flags_app a b c f Ha Hb Hc) as [-> ->]; res_simpl.
  rewrite tail_length_app, !tail_offset_app, !tail_lsn_app, !u64_at_0 by done.
  rewrite !(u32_at_mid a), (u32_at_mid a') by (done || unfold len, OFFSET_AT; lia).
  rewrite (app_assoc a), u32_at_mid by (done || rewrite len_app; unfold len, LEN_AT; lia).
  res_simpl; unfold put_varint; by rewrite <- !app_assoc.
Qed.

Lemma word_u64 (a : bytes) : length a = 8%nat -> is_u64 (le_val a).
Proof. intros; apply le_val_is_u64; unfold len; lia. Qed.

Lemma word_u32 (a : bytes) : length a = 4%nat -> is_u32 (le_val a).
Proof. intros; apply le_val_is_u32; unfold len; lia. Qed.

Lemma u32_try_from_ok z e : is_u32 z -> u32_try_from z e = Ok z.
Proof. unfold u32_try_from, is_u32; intros; destruct (_ && _) eqn:E; [done | lia]. Qed.

Lemma wrapping_diff l lb : is_u64 l ->
  u64_wrapping_add lb (as_u64 (as_i64 (u64_wrapping_sub l lb))) = l.
Proof.
  intros Hl; rewrite as_u64_as_i64; unfold u64_wrapping_add, u64_wrapping_sub, as_u64.
  rewrite Zmod_mod, Zplus_mod_idemp_r; replace (lb + (l - lb)) with l by lia; by apply Z.mod_small.
Qed.

(** The tail a reader fills in, field by field. *)
Lemma entry_whole_fields (a b c : bytes) f : length a = 8%nat -> length b = 4%nat -> length c = 4%nat ->
  put (put (put (put no_tail 16 [f]) 0 a) 8 b) 12 c = whole (a ++ b ++ c ++ [f]).
Proof.
  intros Ha Hb Hc; unfold whole; rewrite !length_app, Ha, Hb, Hc; cbn [length].
  do 9 (destruct a as [|? a]; try discriminate Ha); do 5 (destruct b as [|? b]; try discriminate Hb);
    do 5 (destruct c as [|? c]; try discriminate Hc); reflexivity.
Qed.

Lemma get_tail_back p shape t before q : tail_ok shape t -> len before = TAIL_CAP ->
  get_tail (p ++ tail_bytes shape t before ++ q) (len p) shape before
  = Ok (whole t, len p + len (tail_bytes shape t before)).
Proof.
  intros [Ht Hcap] (a' & b' & r' & -> & Ha' & Hb')%before_split; destruct shape as [|n].
  - apply entry_tail_split in Ht as (a & b & c & f & -> & Ha & Hb & Hc); unfold tail_bytes.
    destruct (tail_flags_app a b c f Ha Hb Hc) as [-> _].
    rewrite tail_length_app, !tail_offset_app, !tail_lsn_app by done.
    pose proof (word_u32 _ Hb) as Hob; pose proof (word_u32 _ Hb') as Hob'; pose proof (word_u32 _ Hc) as Hlc.
    set (v1 := le_val c) in *; set (v2 := zigzag _); set (v3 := zigzag (as_i64 _)); set (bs := p ++ _).
    assert (get bs (len p) = Some f) as E0 by (subst bs; apply get_mid; done).
    assert (get_varint bs (len p + 1) = Ok (v1, len p + 1 + len (varint 10 v1))) as E1.
    { subst bs; rewrite <- !app_assoc, (app_assoc p [f]); replace (len p + 1) with (len (p ++ [f])) by len_lia.
      apply get_varint_back; unfold is_u32, is_u64, U32, U64 in *; lia. }
    assert (get_varint bs (len p + 1 + len (varint 10 v1))
      = Ok (v2, len p + 1 + len (varint 10 v1) + len (varint 10 v2))) as E2.
    { subst bs; rewrite <- !app_assoc, (app_assoc p [f]), (app_assoc (p ++ [f])).
      replace (len p + 1 + len (varint 10 v1)) with (len ((p ++ [f]) ++ varint 10 v1)) by len_lia.
      apply get_varint_back, zigzag_u64. }
    assert (get_varint bs (len p + 1 + len (varint 10 v1) + len (varint 10 v2))
      = Ok (v3, len p + 1 + len (varint 10 v1) + len (varint 10 v2) + len (varint 10 v3))) as E3.
    { subst bs; rewrite <- !app_assoc, (app_assoc p [f]), (app_assoc (p ++ [f])), (app_assoc ((p ++ [f]) ++ _)).
      replace (len p + 1 + len (varint 10 v1) + len (varint 10 v2))
        with (len (((p ++ [f]) ++ varint 10 v1) ++ varint 10 v2)) by len_lia.
      apply get_varint_back, zigzag_u64. }
    clearbody bs; unfold get_tail; rewrite E0; res_simpl; rewrite E1; res_simpl.
    rewrite u32_try_from_ok by done; res_simpl.
    rewrite (u32_at_mid a') by (done || unfold len, OFFSET_AT; lia); res_simpl; rewrite E2; res_simpl.
    subst v2; rewrite unzigzag_zigzag by (unfold is_i64, is_u32, I64_HALF, U32 in *; lia).
    replace (le_val b' + (le_val b - le_val b')) with (le_val b) by lia.
    rewrite as_i64_small, u32_try_from_ok by (done || unfold is_i64, is_u32, I64_HALF, U32 in *; lia); res_simpl.
    rewrite u64_at_0 by done; res_simpl; rewrite E3; res_simpl.
    subst v3; rewrite unzigzag_zigzag, wrapping_diff by (apply as_i64_range || by apply word_u64).
    assert (u64_le (le_val a) = a) as -> by (by apply le_bytes_val_eq).
    assert (u32_le (le_val b) = b) as -> by (by apply le_bytes_val_eq).
    assert (u32_le (le_val c) = c) as Ec by (by apply le_bytes_val_eq); subst v1; rewrite Ec.
    rewrite entry_whole_fields by done; do 2 f_equal; len_lia.
  - cbn [Tail_len tail_bytes] in *; unfold get_tail; rewrite slice_mid by lia; res_simpl.
    destruct (slice_is_Some no_tail 0 n) as [x ->]; [len_lia | rewrite len_no_tail; lia |]; res_simpl.
    do 2 f_equal; [| lia]; unfold no_tail; rewrite put_zeros by (unfold TAIL_CAP in *; lia).
    reflexivity.
Qed.

Lemma u32_at_ok bs at_ : 0 <= at_ -> at_ + 4 <= len bs -> exists v, u32_at bs at_ = Ok v /\ is_u32 v.
Proof.
  intros; destruct (slice_is_Some bs at_ (at_ + 4)) as [s E]; [lia | lia |].
  unfold u32_at; rewrite E; res_simpl; eexists; split; [done|].
  apply slice_bounds in E; apply le_val_is_u32; lia.
Qed.

Lemma u64_at_ok bs at_ : 0 <= at_ -> at_ + 8 <= len bs -> exists v, u64_at bs at_ = Ok v.
Proof.
  intros; destruct (slice_is_Some bs at_ (at_ + 8)) as [s E]; [lia | lia |].
  unfold u64_at; rewrite E; res_simpl; eauto.
Qed.

Lemma u32_try_from_refuses z m : refuses_or is_u32 (u32_try_from z (Corruption m)).
Proof. unfold u32_try_from; destruct (_ && _) eqn:E; cbn; [unfold is_u32; lia | done]. Qed.

(** On any bytes a tail reads back whole and inside them, or is refused. *)
Lemma get_tail_sound bs at_ shape before : 0 <= at_ -> len before = TAIL_CAP -> 0 <= Tail_len shape <= TAIL_CAP ->
  refuses_or (fun r => len r.1 = TAIL_CAP /\ at_ <= r.2 <= len bs) (get_tail bs at_ shape before).
Proof.
  intros Hat Hb Hs; unfold get_tail; destruct shape as [|n]; cbn [Tail_len] in Hs.
  - destruct (get bs at_) as [f|] eqn:Ef; [|done]; res_simpl; apply get_bounds in Ef.
    eapply refuses_or_bind; [apply get_varint_sound; lia|]; intros [v at1] _ [_ H1]; cbn [fst snd] in *.
    eapply refuses_or_bind; [apply u32_try_from_refuses|]; intros n _ _.
    destruct (u32_at_ok before OFFSET_AT) as (ob & -> & _); [done | rewrite Hb; done |]; res_simpl.
    eapply refuses_or_bind; [apply get_varint_sound; lia|]; intros [v2 at2] _ [_ H2]; cbn [fst snd] in *.
    eapply refuses_or_bind; [apply u32_try_from_refuses|]; intros o _ _.
    destruct (u64_at_ok before 0) as (lb & ->); [done | rewrite Hb; done |]; res_simpl.
    eapply refuses_or_bind; [apply get_varint_sound; lia|]; intros [v3 at3] _ [_ H3]; cbn [fst snd] in *.
    cbn [refuses_or fst snd]; split; [reflexivity | lia].
  - destruct (slice bs at_ (at_ + n)) as [raw|] eqn:Er; [|done]; res_simpl; apply slice_bounds in Er.
    destruct (slice_is_Some no_tail 0 n) as [x ->]; [lia | rewrite len_no_tail; lia |]; res_simpl.
    cbn [refuses_or fst snd]; split; [| lia]; rewrite len_put, len_no_tail; [done|]; rewrite len_no_tail; lia.
Qed.
