(* ===== verification/Prefix.v ===== *)
(** * Prefix-packed rows ([format/prefix.rs])

    Rows that keep only the key bytes they do not share with the row before, in restart blocks of
    sixteen. The file holds the operations and the encoding they produce; the searches over it are
    proved in [PrefixSeek] and the cursors in [PackedCursor].

    A loop whose end depends on the bytes takes fuel, one unit per byte and one more, and would answer
    [Panic] if it ran out; every theorem that excludes [Panic] so also proves the fuel enough. *)
From S2P Require Import Prelude Error Bytes Lsn Column Record FooterRow Varint.

Definition RESTART_INTERVAL : Z := 16.
Definition TRAILER_LEN : Z := 8.

Record Row := mkRow {
  rw_shared : Z;
  rw_suffix : bytes;
  rw_tail : Whole;
  rw_next : Z;
}.

Record PrefixRows := mkPrefixRows {
  pr_packed : bytes;
  pr_restarts : list Z;
  pr_rows : Z;
  pr_last : bytes;
  pr_last_tail : Whole;
  pr_tail : Tail;
}.

Record Found := mkFound { found_index : Z; found_tail : bytes }.

Definition is_multiple_of (a b : Z) : bool := a mod b =? 0.

Fixpoint shared_prefix (l r : bytes) : nat :=
  match l, r with
  | a :: l, b :: r => if bool_decide (a = b) then S (shared_prefix l r) else O
  | _, _ => O
  end.

(** ** Reading one row *)

Definition read_row_packed (bs : bytes) (at_ : Z) (shape : Tail) (before : Whole) : res Row :=
  '(shared, next) ← get_varint bs at_;
  '(suffix_len, next) ← get_varint bs next;
  suffix ← ok_or (slice bs next (next + suffix_len)) (Corruption "footer row suffix is truncated");
  let next := next + suffix_len in
  '(tail_, next) ← get_tail bs next shape before;
  Ok (mkRow shared suffix tail_ next).

(** ** Building *)

Definition PrefixRows_new (tail_ : Tail) : PrefixRows := mkPrefixRows [] [] 0 [] no_tail tail_.

Definition PrefixRows_len (r : PrefixRows) : Z := pr_rows r.
Definition PrefixRows_is_empty (r : PrefixRows) : bool := pr_rows r =? 0.
Definition PrefixRows_packed_len (r : PrefixRows) : Z := len (pr_packed r).

Definition PrefixRows_push (r : PrefixRows) (key tail_ : bytes) : res PrefixRows :=
  if (pr_rows r >? 0) && bytes_ltb key (pr_last r) then
    Err (Rejected "a prefix-compressed row arrived out of order")
  else if negb (len tail_ =? Tail_len (pr_tail r)) then
    Err (Rejected "a packed row's tail is not the width its rows declare")
  else
  let restart := is_multiple_of (pr_rows r) RESTART_INTERVAL in
  let restarts := if restart then pr_restarts r ++ [as_u32 (len (pr_packed r))] else pr_restarts r in
  let last_tail := if restart then no_tail else pr_last_tail r in
  let shared := if restart then O else shared_prefix (pr_last r) key in
  let suffix := drop shared key in
  let packed := put_varint (pr_packed r) (Z.of_nat shared) in
  let packed := put_varint packed (len suffix) in
  let packed := packed ++ suffix in
  packed ← put_tail packed (pr_tail r) tail_ last_tail;
  _ ← must (slice last_tail 0 (len tail_));
  Ok (mkPrefixRows packed restarts (pr_rows r + 1) key (put last_tail 0 tail_) (pr_tail r)).

(** ** Seeking *)

Definition PrefixRows_row_at (r : PrefixRows) (at_ : Z) (before : Whole) : res Row :=
  read_row_packed (pr_packed r) at_ (pr_tail r) before.

Definition PrefixRows_restart_key (r : PrefixRows) (restart : Z) : res bytes :=
  at_ ← must (get (pr_restarts r) restart);
  row ← PrefixRows_row_at r at_ no_tail;
  if rw_shared row =? 0 then Ok (rw_suffix row)
  else Err (Corruption "a restart row does not carry its whole key").

(** How the target compares with the row, from how it compared with the row before. *)
Definition walk_cmp (target : bytes) (matched : Z) (order : comparison) (row : Row) : res comparison :=
  match rw_shared row ?= matched with
  | Gt => Ok order
  | Lt =>
      match rw_suffix row with
      | b :: _ => t ← must (get target (rw_shared row)); Ok (u8 t ?= u8 b)
      | [] => Ok Gt
      end
  | Eq => rest ← must (slice_from target matched); Ok (bytes_cmp rest (rw_suffix row))
  end.

Definition walk_matched (target : bytes) (matched : Z) (row : Row) : res Z :=
  match rw_shared row ?= matched with
  | Eq =>
      rest ← must (slice_from target matched);
      Ok (rw_shared row + Z.of_nat (shared_prefix rest (rw_suffix row)))
  | Lt => Ok (rw_shared row)
  | Gt => Ok matched
  end.

(** The [while at < end] loop of one restart block: the row found, or nothing in this block. *)
Fixpoint walk_rows (fuel : nat) (r : PrefixRows) (target : bytes) (at_ end_ index matched : Z)
    (order : comparison) (before : Whole) : res (option Found) :=
  match fuel with
  | O => Panic
  | S fuel =>
      if at_ <? end_ then
        row ← PrefixRows_row_at r at_ before;
        cmp ← walk_cmp target matched order row;
        match cmp with
        | Gt =>
            matched ← walk_matched target matched row;
            walk_rows fuel r target (rw_next row) end_ (index + 1) matched cmp (rw_tail row)
        | _ =>
            tail_ ← must (slice (rw_tail row) 0 (Tail_len (pr_tail r)));
            Ok (Some (mkFound index tail_))
        end
      else Ok None
  end.

(** [walk] and its recursion on the next block, one unit of fuel per block. *)
Fixpoint PrefixRows_walk (fuel : nat) (r : PrefixRows) (block : Z) (target : bytes) : res (option Found) :=
  match fuel with
  | O => Panic
  | S fuel =>
      at_ ← must (get (pr_restarts r) block);
      let index := block * RESTART_INTERVAL in
      let end_ := match get (pr_restarts r) (block + 1) with
                  | Some next => next
                  | None => len (pr_packed r)
                  end in
      found ← walk_rows (S (length (pr_packed r))) r target at_ end_ index 0 Lt no_tail;
      match found with
      | Some f => Ok (Some f)
      | None =>
          match get (pr_restarts r) (block + 1) with
          | Some _ => PrefixRows_walk fuel r (block + 1) target
          | None => Ok None
          end
      end
  end.

Fixpoint seek_bisect (fuel : nat) (r : PrefixRows) (target : bytes) (low high : Z) : res Z :=
  match fuel with
  | O => Panic
  | S fuel =>
      if low <? high then
        let mid := (low + high) / 2 in
        key ← PrefixRows_restart_key r mid;
        match bytes_cmp key target with
        | Lt => seek_bisect fuel r target (mid + 1) high
        | _ => seek_bisect fuel r target low mid
        end
      else Ok low
  end.

Definition PrefixRows_seek (r : PrefixRows) (target : bytes) : res (option Found) :=
  if pr_rows r =? 0 then Ok None else
  low ← seek_bisect (S (length (pr_restarts r))) r target 0 (len (pr_restarts r));
  let block := saturating_sub low (if (low >? 0) || (low =? len (pr_restarts r)) then 1 else 0) in
  PrefixRows_walk (S (length (pr_restarts r))) r block target.

(** ** The cursor *)

Record PrefixCursor := mkPrefixCursor {
  pc_at : Z;
  pc_index : Z;
  pc_key : bytes;
  pc_tail : Whole;
}.

Definition PrefixCursor_new : PrefixCursor := mkPrefixCursor 0 0 [] no_tail.
Definition PrefixCursor_index (c : PrefixCursor) : Z := saturating_sub (pc_index c) 1.

Definition PrefixCursor_advance (r : PrefixRows) (c : PrefixCursor) : res (bool * PrefixCursor) :=
  if pc_index c >=? pr_rows r then Ok (false, c) else
  let tail_ := if is_multiple_of (pc_index c) RESTART_INTERVAL then no_tail else pc_tail c in
  row ← PrefixRows_row_at r (pc_at c) tail_;
  if rw_shared row >? len (pc_key c) then
    Err (Corruption "a footer row shares more than the key before it holds")
  else
  let key := take (Z.to_nat (rw_shared row)) (pc_key c) ++ rw_suffix row in
  Ok (true, mkPrefixCursor (rw_next row) (pc_index c + 1) key (rw_tail row)).

(** [while cursor.advance()?] pushing each key: one turn per row and one to stop. *)
Fixpoint keys_loop (fuel : nat) (r : PrefixRows) (c : PrefixCursor) (out : list bytes) : res (list bytes) :=
  match fuel with
  | O => Panic
  | S fuel =>
      '(more, c) ← PrefixCursor_advance r c;
      if more : bool then keys_loop fuel r c (out ++ [pc_key c]) else Ok out
  end.

Definition PrefixRows_keys (r : PrefixRows) : res (list bytes) :=
  keys_loop (S (Z.to_nat (pr_rows r))) r PrefixCursor_new [].

(** ** The encoded block *)

Definition PrefixRows_encoded_len (r : PrefixRows) : Z :=
  len (pr_packed r) + len (pr_restarts r) * 4 + TRAILER_LEN.

Definition PrefixRows_encode (r : PrefixRows) (out : bytes) : bytes :=
  let out := out ++ pr_packed r in
  let out := fold_left (fun out restart => out ++ u32_le restart) (pr_restarts r) out in
  let out := out ++ u32_le (as_u32 (len (pr_restarts r))) in
  out ++ u32_le (as_u32 (pr_rows r)).

Definition PrefixRows_into_encoded (r : PrefixRows) : bytes :=
  let packed := fold_left (fun packed restart => packed ++ u32_le restart) (pr_restarts r) (pr_packed r) in
  let packed := packed ++ u32_le (as_u32 (len (pr_restarts r))) in
  packed ++ u32_le (as_u32 (pr_rows r)).

Record Frame := mkFrame { frame_rows_end : Z; frame_restarts : Z; frame_rows : Z }.

Definition Frame_restart (f : Frame) (bs : bytes) (at_ : Z) : res Z :=
  let from := frame_rows_end f + at_ * 4 in
  b ← must (slice bs from (from + 4)); Ok (le_val b).

Definition Frame_read (bs : bytes) : res Frame :=
  if len bs <? TRAILER_LEN then Err (Corruption "a packed row block has no trailer") else
  let trailer_at := len bs - TRAILER_LEN in
  a ← must (slice bs trailer_at (trailer_at + 4));
  b ← must (slice bs (trailer_at + 4) (trailer_at + 4 + 4));
  let restarts := le_val a in
  let rows := le_val b in
  if trailer_at <? restarts * 4 then
    Err (Corruption "a packed row block claims more restarts than it holds")
  else
  let rows_end := trailer_at - restarts * 4 in
  if negb (restarts =? div_ceil rows RESTART_INTERVAL) then
    Err (Corruption "a packed row block holds {rows} rows under {restarts} restarts")
  else
  let frame := mkFrame rows_end restarts rows in
  _ ← foldm (fun (_ : unit) at_ =>
    restart ← Frame_restart frame bs at_;
    if restart >? rows_end then Err (Corruption "a packed row restart points past the rows")
    else Ok tt) (seqZ 0 restarts) tt;
  Ok frame.

Definition PrefixRows_decode (bs : bytes) (tail_ : Tail) : res PrefixRows :=
  frame ← Frame_read bs;
  restarts ← mapm (Frame_restart frame bs) (seqZ 0 (frame_restarts frame));
  packed ← must (slice bs 0 (frame_rows_end frame));
  Ok (mkPrefixRows packed restarts (frame_rows frame) [] no_tail tail_).

(** ** Unpacking *)

Record Unpacking := mkUnpacking {
  up_packed : bytes;
  up_starts : list Z;
  up_key : bytes;
  up_before : Whole;
  up_at : Z;
}.

(** The body of the [while at < bytes.len()] loop of [unpack_block]. *)
Definition unpack_block_row (bs : bytes) (shape : Tail) (index : Z) (u : Unpacking) : res Unpacking :=
  let before := if is_multiple_of index RESTART_INTERVAL then no_tail else up_before u in
  row ← read_row_packed bs (up_at u) shape before;
  if (up_at u =? 0) && negb (rw_shared row =? 0) then
    Err (Corruption "a restart row does not carry its whole key")
  else
  if rw_shared row >? len (up_key u) then
    Err (Corruption "a footer row shares more than the key before it holds")
  else
  let key := take (Z.to_nat (rw_shared row)) (up_key u) ++ rw_suffix row in
  let packed := up_packed u ++ key in
  tail_ ← must (slice (rw_tail row) 0 (Tail_len shape));
  let packed := packed ++ tail_ in
  Ok (mkUnpacking packed (up_starts u ++ [as_u32 (len packed)]) key (rw_tail row) (rw_next row)).

Fixpoint unpack_block_loop (fuel : nat) (bs : bytes) (shape : Tail) (index : Z) (u : Unpacking) : res Unpacking :=
  match fuel with
  | O => Panic
  | S fuel =>
      if up_at u <? len bs then
        u ← unpack_block_row bs shape index u;
        unpack_block_loop fuel bs shape (index + 1) u
      else Ok u
  end.

Definition unpack_block (bs : bytes) (shape : Tail) : res (bytes * list Z) :=
  u ← unpack_block_loop (S (length bs)) bs shape 0 (mkUnpacking [] [0] [] no_tail 0);
  Ok (up_packed u, up_starts u).

(** The body of the [for index in 0..frame.rows] loop of [unpack]. *)
Definition unpack_row (bs rows_bytes : bytes) (frame : Frame) (tail_ : Tail) (row_len : option Z)
    (u : Unpacking) (index : Z) : res Unpacking :=
  before ← (if is_multiple_of index RESTART_INTERVAL then
              restart ← Frame_restart frame bs (index / RESTART_INTERVAL);
              if negb (restart =? up_at u) then
                Err (Corruption "a packed row restart does not open the row it counts")
              else Ok no_tail
            else Ok (up_before u));
  row ← read_row_packed rows_bytes (up_at u) tail_ before;
  if (rw_shared row >? len (up_key u))
     || (is_multiple_of index RESTART_INTERVAL && negb (rw_shared row =? 0)) then
    Err (Corruption "a footer row shares more than the key before it holds")
  else
  let key := take (Z.to_nat (rw_shared row)) (up_key u) ++ rw_suffix row in
  let packed := up_packed u ++ key in
  t ← must (slice (rw_tail row) 0 (Tail_len tail_));
  let packed := packed ++ t in
  if match row_len with Some n => negb (len packed =? (index + 1) * n) | None => false end then
    Err (Corruption "a packed row is not the width its partition strides by")
  else
  let starts := match row_len with
                | None => up_starts u ++ [as_u32 (len packed)]
                | Some _ => up_starts u
                end in
  Ok (mkUnpacking packed starts key (rw_tail row) (rw_next row)).

Definition unpack (bs : bytes) (tail_ : Tail) (row_len : option Z) : res (bytes * list Z * Z) :=
  frame ← Frame_read bs;
  rows_bytes ← must (slice bs 0 (frame_rows_end frame));
  let starts := match row_len with Some _ => [] | None => [0] end in
  u ← foldm (unpack_row bs rows_bytes frame tail_ row_len) (seqZ 0 (frame_rows frame))
        (mkUnpacking [] starts [] no_tail 0);
  if negb (up_at u =? frame_rows_end frame) then
    Err (Corruption "a packed row block holds bytes past its last row")
  else Ok (up_packed u, up_starts u, frame_rows frame).

(** ** The encoding of a list of rows *)

Abbreviation prow := (bytes * bytes)%type (only parsing).

Definition row_ok (shape : Tail) (row : prow) : Prop := len row.1 < U64 /\ tail_ok shape row.2.

Definition is_restart (i : nat) : bool := is_multiple_of (Z.of_nat i) RESTART_INTERVAL.

(** What a row at index [i] is kept against: nothing at a restart, the row before elsewhere. *)
Definition last_key (rows : list prow) : bytes := from_option fst [] (last rows).
Definition last_whole (rows : list prow) : Whole := from_option (fun r => whole r.2) no_tail (last rows).
Definition key_before (rows : list prow) : bytes := if is_restart (length rows) then [] else last_key rows.
Definition tail_before (rows : list prow) : Whole := if is_restart (length rows) then no_tail else last_whole rows.

Definition packed_row (shape : Tail) (before : list prow) (row : prow) : bytes :=
  let s := shared_prefix (key_before before) row.1 in
  varint 10 (Z.of_nat s) ++ varint 10 (len (drop s row.1)) ++ drop s row.1
  ++ tail_bytes shape row.2 (tail_before before).

(** The rows [rows] behind the rows [before]. *)
Fixpoint packed_after (shape : Tail) (before rows : list prow) : bytes :=
  match rows with
  | [] => []
  | row :: rows => packed_row shape before row ++ packed_after shape (before ++ [row]) rows
  end.

Definition packed (shape : Tail) (rows : list prow) : bytes := packed_after shape [] rows.

Definition block_count (n : nat) : nat := (n + 15) / 16.

Definition restart_offset (shape : Tail) (rows : list prow) (j : nat) : Z :=
  len (packed shape (take (16 * j) rows)).

Definition restart_offsets (shape : Tail) (rows : list prow) : list Z :=
  map (restart_offset shape rows) (seq 0 (block_count (length rows))).

Definition pack_state (shape : Tail) (rows : list prow) : PrefixRows :=
  mkPrefixRows (packed shape rows) (restart_offsets shape rows) (len rows)
    (last_key rows) (last_whole rows) shape.

Lemma packed_after_app shape r1 r2 : forall before,
  packed_after shape before (r1 ++ r2)
  = packed_after shape before r1 ++ packed_after shape (before ++ r1) r2.
Proof.
  induction r1 as [|row r1 IH]; intros before; cbn [app packed_after]; [by rewrite app_nil_r|].
  by rewrite IH, <- !app_assoc.
Qed.

Lemma packed_app shape r1 r2 : packed shape (r1 ++ r2) = packed shape r1 ++ packed_after shape r1 r2.
Proof. apply packed_after_app. Qed.

Lemma packed_snoc shape rows row :
  packed shape (rows ++ [row]) = packed shape rows ++ packed_row shape rows row.
Proof. rewrite packed_app; cbn [packed_after]; by rewrite app_nil_r. Qed.

Lemma packed_split shape r1 row r2 :
  packed shape (r1 ++ row :: r2)
  = packed shape r1 ++ packed_row shape r1 row ++ packed_after shape (r1 ++ [row]) r2.
Proof. by rewrite packed_app. Qed.

(** ** Shared prefixes *)

Lemma shared_prefix_take a b : take (shared_prefix a b) a = take (shared_prefix a b) b.
Proof.
  revert b; induction a as [|x a IH]; intros [|y b]; cbn [shared_prefix]; try done.
  case_bool_decide; [subst; cbn [take]; f_equal; apply IH | done].
Qed.

Lemma shared_prefix_le a b : (shared_prefix a b <= length a)%nat /\ (shared_prefix a b <= length b)%nat.
Proof.
  revert b; induction a as [|x a IH]; intros [|y b]; cbn [shared_prefix length]; try lia.
  case_bool_decide; [destruct (IH b)|]; lia.
Qed.

Lemma shared_prefix_join a b : take (shared_prefix a b) a ++ drop (shared_prefix a b) b = b.
Proof. rewrite shared_prefix_take; apply take_drop. Qed.

(** ** Reading rows back *)

Lemma len_tail_before shape rows : Forall (row_ok shape) rows -> len (tail_before rows) = TAIL_CAP.
Proof.
  intros Hok; unfold tail_before; destruct (is_restart _); [apply len_no_tail|].
  unfold last_whole; destruct (last rows) as [r|] eqn:E; [| apply len_no_tail].
  cbn; apply len_whole; apply last_Some_elem_of in E; rewrite Forall_forall in Hok; by apply Hok in E as [_ [_ ?]].
Qed.

Definition row_read (shape : Tail) (before : list prow) (row : prow) : Row :=
  let s := shared_prefix (key_before before) row.1 in
  mkRow (Z.of_nat s) (drop s row.1) (whole row.2) (len (packed shape (before ++ [row]))).

Lemma packed_row_ok_len shape before row : row_ok shape row ->
  is_u64 (Z.of_nat (shared_prefix (key_before before) row.1))
  /\ is_u64 (len (drop (shared_prefix (key_before before) row.1) row.1)).
Proof.
  intros [Hk _]; destruct (shared_prefix_le (key_before before) row.1).
  unfold is_u64, len in *; rewrite length_drop; lia.
Qed.

Lemma read_packed_row shape p before row q : row_ok shape row -> len (tail_before before) = TAIL_CAP ->
  read_row_packed (p ++ packed_row shape before row ++ q) (len p) shape (tail_before before)
  = Ok (mkRow (Z.of_nat (shared_prefix (key_before before) row.1))
         (drop (shared_prefix (key_before before) row.1) row.1) (whole row.2)
         (len p + len (packed_row shape before row))).
Proof.
  intros Hr Hb; destruct (packed_row_ok_len shape before row Hr) as [H1 H2]; destruct Hr as [_ Ht].
  unfold packed_row; set (s := shared_prefix _ _) in *; set (v1 := varint 10 (Z.of_nat s)).
  set (suffix := drop s row.1) in *; set (v2 := varint 10 (len suffix)).
  set (t := tail_bytes shape row.2 (tail_before before)).
  rewrite <- !app_assoc; set (bs := p ++ _); unfold read_row_packed.
  assert (get_varint bs (len p) = Ok (Z.of_nat s, len p + len v1)) as -> by (by apply get_varint_back).
  assert (get_varint bs (len p + len v1) = Ok (len suffix, len p + len v1 + len v2)) as E2.
  { subst bs; rewrite <- len_app, (app_assoc p); by apply get_varint_back. }
  assert (slice bs (len p + len v1 + len v2) (len p + len v1 + len v2 + len suffix) = Some suffix) as E3
    by (subst bs; slice_solve; done).
  assert (get_tail bs (len p + len v1 + len v2 + len suffix) shape (tail_before before)
    = Ok (whole row.2, len p + len v1 + len v2 + len suffix + len t)) as E4.
  { subst bs; rewrite (app_assoc p v1), (app_assoc (p ++ v1)), (app_assoc ((p ++ v1) ++ v2)).
    rewrite <- (len_app p v1), <- (len_app (p ++ v1)), <- (len_app ((p ++ v1) ++ v2)); by apply get_tail_back. }
  clearbody bs; res_simpl; rewrite E2; res_simpl; rewrite E3; res_simpl; rewrite E4; res_simpl.
  do 2 f_equal; len_lia.
Qed.

(** The row at any index, read where it lies among all of them. *)
Lemma read_packed_at shape r1 row r2 : Forall (row_ok shape) (r1 ++ row :: r2) ->
  read_row_packed (packed shape (r1 ++ row :: r2)) (len (packed shape r1)) shape (tail_before r1)
  = Ok (row_read shape r1 row).
Proof.
  intros [H1 [Hrow H2]%Forall_cons]%Forall_app; rewrite packed_split.
  rewrite read_packed_row by (done || by eapply len_tail_before).
  unfold row_read; by rewrite packed_snoc, len_app.
Qed.

Lemma row_read_key shape before row :
  rw_shared (row_read shape before row) <= len (last_key before)
  /\ take (Z.to_nat (rw_shared (row_read shape before row))) (last_key before)
     ++ rw_suffix (row_read shape before row) = row.1
  /\ (is_restart (length before) = true ->
        rw_shared (row_read shape before row) = 0 /\ rw_suffix (row_read shape before row) = row.1).
Proof.
  unfold row_read, key_before; cbn [rw_shared rw_suffix]; destruct (is_restart _).
  - cbn [shared_prefix]; split_and!; [len_lia | done | done].
  - destruct (shared_prefix_le (last_key before) row.1); rewrite Nat2Z.id.
    split_and!; [unfold len; lia | apply shared_prefix_join | done].
Qed.

Lemma packed_row_nonempty shape before row : 0 < len (packed_row shape before row).
Proof.
  unfold packed_row; rewrite !len_app; pose proof (varint_nonempty 9 (Z.of_nat (shared_prefix (key_before before) row.1))).
  len_pos; lia.
Qed.

Lemma last_key_snoc rows row : last_key (rows ++ [row]) = row.1.
Proof. unfold last_key; by rewrite last_snoc. Qed.

Lemma last_whole_snoc rows row : last_whole (rows ++ [row]) = whole row.2.
Proof. unfold last_whole; by rewrite last_snoc. Qed.

(** ** Block arithmetic *)

Lemma block_count_bounds n : (n <= 16 * block_count n <= n + 15)%nat.
Proof.
  unfold block_count; pose proof (Nat.div_mod_eq (n + 15) 16); pose proof (Nat.mod_upper_bound (n + 15) 16); lia.
Qed.

Lemma is_restart_spec n : if is_restart n then exists m, n = (16 * m)%nat
  else exists m k, n = (16 * m + k)%nat /\ (0 < k < 16)%nat.
Proof.
  unfold is_restart, is_multiple_of, RESTART_INTERVAL.
  pose proof (Z.div_mod (Z.of_nat n) 16 ltac:(lia)); pose proof (Z.mod_pos_bound (Z.of_nat n) 16 ltac:(lia)).
  destruct (Z.eqb_spec (Z.of_nat n mod 16) 0).
  - exists (Z.to_nat (Z.of_nat n / 16)); lia.
  - exists (Z.to_nat (Z.of_nat n / 16)), (Z.to_nat (Z.of_nat n mod 16)); lia.
Qed.

Lemma is_restart_block j : is_restart (16 * j) = true.
Proof.
  pose proof (is_restart_spec (16 * j)) as H; destruct (is_restart _); [done|].
  destruct H as (m & k & ? & ?); lia.
Qed.

Lemma block_count_S n : block_count (S n) = if is_restart n then S (block_count n) else block_count n.
Proof.
  pose proof (block_count_bounds n); pose proof (block_count_bounds (S n)).
  pose proof (is_restart_spec n) as Hr; destruct (is_restart n).
  - destruct Hr as (m & ?); lia.
  - destruct Hr as (m & k & ? & ?); lia.
Qed.

Lemma restart_offset_app shape r1 r2 j : (16 * j <= length r1)%nat ->
  restart_offset shape (r1 ++ r2) j = restart_offset shape r1 j.
Proof. intros; unfold restart_offset; by rewrite take_app_le. Qed.

Lemma restart_offsets_snoc shape rows row :
  restart_offsets shape (rows ++ [row]) =
  if is_restart (length rows) then restart_offsets shape rows ++ [len (packed shape rows)]
  else restart_offsets shape rows.
Proof.
  assert (forall n, (n <= block_count (length rows))%nat ->
    map (restart_offset shape (rows ++ [row])) (seq 0 n) = map (restart_offset shape rows) (seq 0 n)) as Hm.
  { intros n Hn; apply map_ext_in; intros j Hj%in_seq; apply restart_offset_app.
    pose proof (block_count_bounds (length rows)); lia. }
  unfold restart_offsets; rewrite length_app, Nat.add_comm; cbn [length Nat.add]; rewrite block_count_S.
  pose proof (is_restart_spec (length rows)) as Hr; pose proof (block_count_bounds (length rows)).
  destruct (is_restart (length rows)); [| by apply Hm].
  destruct Hr as (m & Hm'); assert (block_count (length rows) = m) as -> by lia.
  rewrite seq_S, map_app, Hm by lia; f_equal; cbn [map Nat.add]; unfold restart_offset.
  by rewrite <- Hm', take_app_length.
Qed.

(** ** Pushing *)

(** Rows in the order they were pushed: never one below the row before it. *)
Definition rows_sorted (rows : list prow) : Prop := StronglySorted bytes_le (map fst rows).

Lemma put_whole (t t' : bytes) : length t = length t' -> put (whole t) 0 t' = whole t'.
Proof. intros Hl; unfold put, whole; cbn [Nat.add take app]; by rewrite <- Hl, drop_app_length. Qed.

Lemma put_no_tail (t : bytes) : len t <= TAIL_CAP -> put no_tail 0 t = whole t.
Proof. intros; unfold no_tail; rewrite put_zeros; [reflexivity | unfold TAIL_CAP in *; lia]. Qed.

Lemma put_tail_before shape rows row : Forall (row_ok shape) rows -> row_ok shape row ->
  put (tail_before rows) 0 row.2 = whole row.2.
Proof.
  intros Hok [_ [Hw Hcap]]; unfold tail_before; destruct (is_restart _); [by apply put_no_tail|].
  unfold last_whole; destruct (last rows) as [r|] eqn:E; [| by apply put_no_tail].
  cbn; apply put_whole; apply last_Some_elem_of in E; rewrite Forall_forall in Hok.
  apply Hok in E as [_ [Hw' _]]; unfold len in *; lia.
Qed.

Lemma push_snoc shape rows row : Forall (row_ok shape) rows -> row_ok shape row ->
  rows = [] \/ bytes_le (last_key rows) row.1 -> len (packed shape rows) < U32 ->
  PrefixRows_push (pack_state shape rows) row.1 row.2 = Ok (pack_state shape (rows ++ [row])).
Proof.
  intros Hok Hrow Hord Hlen; pose proof (len_tail_before shape rows Hok) as Hb.
  unfold PrefixRows_push, pack_state at 1 2; cbn [pr_rows pr_last pr_tail].
  assert ((len rows >? 0) && bytes_ltb row.1 (last_key rows) = false) as ->.
  { destruct Hord as [->|Hle]; [done|]; apply bytes_ltb_ge in Hle; rewrite Hle; apply andb_false_r. }
  destruct (Hrow) as [Hk [Hw Hcap]]; rewrite Hw, Z.eqb_refl; cbn [negb].
  cbn [pr_packed pr_restarts pr_last_tail pack_state pr_rows pr_tail pr_last].
  change (is_multiple_of (len rows) RESTART_INTERVAL) with (is_restart (length rows)).
  fold (tail_before rows).
  assert ((if is_restart (length rows) then 0%nat else shared_prefix (last_key rows) row.1)
    = shared_prefix (key_before rows) row.1) as -> by (unfold key_before; by destruct (is_restart _)).
  rewrite put_tail_bytes by done; res_simpl.
  destruct (slice_is_Some (tail_before rows) 0 (Tail_len shape)) as [x ->]; [len_lia | lia |]; res_simpl.
  rewrite (put_tail_before shape) by done; unfold pack_state; f_equal.
  rewrite last_key_snoc, last_whole_snoc, packed_snoc, restart_offsets_snoc, len_app.
  rewrite as_u32_small by (split; [apply len_nonneg | done]).
  unfold put_varint, packed_row; by rewrite <- !app_assoc.
Qed.

Lemma packed_prefix_len shape r1 r2 : len (packed shape r1) <= len (packed shape (r1 ++ r2)).
Proof. rewrite packed_app; len_lia. Qed.

Lemma rows_sorted_snoc_le rows row : rows_sorted (rows ++ [row]) -> rows = [] \/ bytes_le (last_key rows) row.1.
Proof.
  unfold rows_sorted, last_key; destruct (last rows) as [r|] eqn:E; [| left; by apply last_None].
  intros Hs; right; cbn; apply last_Some in E as [l ->].
  rewrite !map_app, <- app_assoc in Hs; apply StronglySorted_app in Hs as (_ & _ & Hs); cbn in Hs.
  apply StronglySorted_inv in Hs as [_ Hs]; by apply Forall_cons in Hs as [? _].
Qed.

(** A block that holds exactly these rows, built or decoded. *)
Record rep (shape : Tail) (rows : list prow) (r : PrefixRows) : Prop := {
  rep_packed : pr_packed r = packed shape rows;
  rep_restarts : pr_restarts r = restart_offsets shape rows;
  rep_rows : pr_rows r = len rows;
  rep_tail : pr_tail r = shape;
}.

Lemma pack_state_rep shape rows : rep shape rows (pack_state shape rows).
Proof. done. Qed.

Lemma push_all shape rows : Forall (row_ok shape) rows -> rows_sorted rows ->
  len (packed shape rows) < U32 ->
  foldm (fun r row => PrefixRows_push r row.1 row.2) rows (PrefixRows_new shape) = Ok (pack_state shape rows).
Proof.
  induction rows as [|row rows IH] using rev_ind; intros Hok Hs Hl; [done|].
  pose proof (rows_sorted_snoc_le _ _ Hs) as Hle; pose proof (packed_prefix_len shape rows [row]).
  apply Forall_app in Hok as [Hok [Hrow _]%Forall_cons]; unfold rows_sorted in Hs; rewrite map_app in Hs.
  apply StronglySorted_app in Hs as (_ & Hs & _); rewrite foldm_app, IH by (done || lia); res_simpl.
  cbn [foldm]; rewrite push_snoc by (done || lia); done.
Qed.

(** A restart row's whole key is what a bisection compares. *)
Lemma restart_key_rep shape rows r (j : nat) row : rep shape rows r -> Forall (row_ok shape) rows ->
  rows !! (16 * j)%nat = Some row ->
  PrefixRows_restart_key r (Z.of_nat j) = Ok row.1.
Proof.
  intros [Hp Hr _ Ht] Hok Hrow; pose proof (lookup_lt_Some _ _ _ Hrow) as Hlt.
  unfold PrefixRows_restart_key; rewrite get_lookup, Hr; unfold restart_offsets.
  pose proof (block_count_bounds (length rows)).
  rewrite list_lookup_fmap, lookup_seq_lt by lia; cbn [Nat.add fmap option_fmap option_map]; res_simpl.
  unfold PrefixRows_row_at, restart_offset; rewrite Hp, Ht.
  rewrite <- (take_drop_middle _ _ _ Hrow) in Hok |- * at 1.
  assert (length (take (16 * j) rows) = (16 * j)%nat) as Hlen by (rewrite length_take; lia).
  assert (tail_before (take (16 * j) rows) = no_tail) as <-
    by (unfold tail_before; by rewrite Hlen, is_restart_block).
  rewrite read_packed_at by done; res_simpl.
  destruct (row_read_key shape (take (16 * j) rows) row) as (_ & _ & H0).
  rewrite Hlen, is_restart_block in H0; destruct (H0 eq_refl) as [-> ->]; done.
Qed.

(** ** The cursor *)

Definition cursor_at (shape : Tail) (rows : list prow) : PrefixCursor :=
  mkPrefixCursor (len (packed shape rows)) (len rows) (last_key rows) (last_whole rows).

Lemma advance_rep shape r r1 row r2 : rep shape (r1 ++ row :: r2) r -> Forall (row_ok shape) (r1 ++ row :: r2) ->
  PrefixCursor_advance r (cursor_at shape r1) = Ok (true, cursor_at shape (r1 ++ [row])).
Proof.
  intros [Hp _ Hn Ht] Hok; unfold PrefixCursor_advance, cursor_at; cbn [pc_index pc_tail pc_at pc_key].
  destruct (_ >=? _) eqn:E; [rewrite Hn in E; len_lia|].
  change (is_multiple_of (len r1) RESTART_INTERVAL) with (is_restart (length r1)); fold (tail_before r1).
  unfold PrefixRows_row_at; rewrite Hp, Ht, read_packed_at by done; res_simpl.
  destruct (row_read_key shape r1 row) as (Hle & -> & _).
  destruct (_ >? _) eqn:E2; [b2p; lia|]; do 3 f_equal; [len_lia | by rewrite last_key_snoc | by rewrite last_whole_snoc].
Qed.

Lemma keys_loop_S fuel r c out : keys_loop (S fuel) r c out =
  '(more, c) ← PrefixCursor_advance r c; if more : bool then keys_loop fuel r c (out ++ [pc_key c]) else Ok out.
Proof. reflexivity. Qed.

Lemma keys_rep shape rows r : rep shape rows r -> Forall (row_ok shape) rows ->
  PrefixRows_keys r = Ok (map fst rows).
Proof.
  intros Hr Hok; unfold PrefixRows_keys; rewrite (rep_rows _ _ _ Hr), to_nat_len.
  change PrefixCursor_new with (cursor_at shape []); change (map fst rows) with ([] ++ map fst rows).
  assert (forall r2 r1, rows = r1 ++ r2 -> forall out,
    keys_loop (S (length r2)) r (cursor_at shape r1) out = Ok (out ++ map fst r2)) as H; [| by apply H].
  induction r2 as [|row r2 IH]; intros r1 ->; intros out.
  - cbn [length keys_loop]; unfold PrefixCursor_advance, cursor_at; cbn [pc_index].
    rewrite (rep_rows _ _ _ Hr); destruct (_ >=? _) eqn:E; [| rewrite app_nil_r in E; len_lia].
    res_simpl; by rewrite app_nil_r.
  - cbn [length]; rewrite keys_loop_S, (advance_rep shape r r1 row r2) by done; res_simpl.
    rewrite (IH (r1 ++ [row])) by (by rewrite <- app_assoc); unfold cursor_at; cbn [pc_key].
    by rewrite last_key_snoc, <- app_assoc.
Qed.

(** rows pushed in key order with tails of the declared width all pack, and walking the packed
    bytes gives back every key; a row below the last is refused and one with a tail of another width
    too, and neither leaves anything behind. *)
Lemma pushed_rows_walk_back shape rows :
  Forall (row_ok shape) rows -> rows_sorted rows -> len (packed shape rows) < U32 ->
  exists r, foldm (fun r row => PrefixRows_push r row.1 row.2) rows (PrefixRows_new shape) = Ok r
    /\ PrefixRows_len r = len rows
    /\ PrefixRows_keys r = Ok (map fst rows)
    /\ (forall key t, bytes_lt key (last_key rows) -> exists m, PrefixRows_push r key t = Err (Rejected m))
    /\ (forall key t, len t <> Tail_len shape -> exists m, PrefixRows_push r key t = Err (Rejected m)).
Proof.
  intros Hok Hs Hl; exists (pack_state shape rows); split_and!; [by apply push_all | done | |..].
  - by apply (keys_rep shape); [apply pack_state_rep|].
  - intros key t Hlt; unfold PrefixRows_push; cbn [pr_rows pack_state pr_last].
    destruct rows as [|row rows]; [exfalso; destruct key; done|].
    destruct (_ >? 0) eqn:E; [| len_lia]; apply bytes_ltb_lt in Hlt; rewrite Hlt; cbn; eauto.
  - intros key t Hne; unfold PrefixRows_push; destruct (_ && _); [eauto|]; cbn [pr_tail pack_state].
    destruct (_ =? _) eqn:E; [b2p; done | cbn; eauto].
Qed.

(** ** The encoded block read back *)

Definition block_bytes (r : PrefixRows) : bytes :=
  pr_packed r ++ u32_table (pr_restarts r) ++ u32_le (len (pr_restarts r)) ++ u32_le (pr_rows r).

(** The counts and offsets of the block are within the words that hold them. *)
Definition block_fits (shape : Tail) (rows : list prow) : Prop :=
  Forall (row_ok shape) rows /\ len (packed shape rows) < U32 /\ len rows < U32.

Lemma length_restart_offsets shape rows : length (restart_offsets shape rows) = block_count (length rows).
Proof. unfold restart_offsets; by rewrite length_map, length_seq. Qed.

Lemma len_restart_offsets shape rows : len (restart_offsets shape rows) = div_ceil (len rows) RESTART_INTERVAL.
Proof.
  unfold len; rewrite length_restart_offsets; unfold div_ceil, RESTART_INTERVAL, block_count.
  rewrite Nat2Z.inj_div, Nat2Z.inj_add; f_equal; lia.
Qed.

Lemma restart_offset_le shape rows j : restart_offset shape rows j <= len (packed shape rows).
Proof.
  unfold restart_offset; rewrite <- (take_drop (16 * j) rows) at 2; apply packed_prefix_len.
Qed.

Lemma restart_offsets_lookup shape rows (j : nat) : (j < block_count (length rows))%nat ->
  restart_offsets shape rows !! j = Some (restart_offset shape rows j).
Proof. intros; unfold restart_offsets; rewrite list_lookup_fmap, lookup_seq_lt by done; done. Qed.

Lemma div_ceil_u32 n : 0 <= n < U32 -> is_u32 (div_ceil n RESTART_INTERVAL).
Proof.
  unfold is_u32, div_ceil, RESTART_INTERVAL, U32; intros; split; [apply Z.div_pos; lia|].
  apply Z.div_lt_upper_bound; lia.
Qed.

Lemma encode_bytes shape rows r out : rep shape rows r -> block_fits shape rows ->
  PrefixRows_encode r out = out ++ block_bytes r
  /\ PrefixRows_into_encoded r = block_bytes r
  /\ PrefixRows_encoded_len r = len (block_bytes r).
Proof.
  intros [_ Hr Hn _] (_ & _ & Hlt); pose proof (len_nonneg rows).
  unfold PrefixRows_encode, PrefixRows_into_encoded, PrefixRows_encoded_len, block_bytes, TRAILER_LEN.
  rewrite !fold_u32_table, !as_u32_small.
  - split_and!; [by rewrite <- !app_assoc | by rewrite <- !app_assoc | len_lia].
  - rewrite Hn; by split.
  - rewrite Hr, len_restart_offsets; by apply div_ceil_u32.
Qed.

Definition frame_of (shape : Tail) (rows : list prow) : Frame :=
  mkFrame (len (packed shape rows)) (div_ceil (len rows) RESTART_INTERVAL) (len rows).

Lemma frame_restart_rep shape rows r q (j : nat) : rep shape rows r -> block_fits shape rows ->
  (j < block_count (length rows))%nat ->
  Frame_restart (frame_of shape rows) (block_bytes r ++ q) (Z.of_nat j) = Ok (restart_offset shape rows j).
Proof.
  intros [Hp Hr _ _] (_ & Hlt & _) Hj; unfold Frame_restart, frame_of, block_bytes; cbn [frame_rows_end].
  rewrite Hp, Hr, <- !app_assoc, (Z.mul_comm (Z.of_nat j)).
  rewrite (slice_u32_table _ _ _ j (restart_offset shape rows j)) by (by apply restart_offsets_lookup).
  res_simpl; f_equal; apply le_val_u32; pose proof (restart_offset_le shape rows j).
  split; [unfold restart_offset; len_lia | lia].
Qed.

Lemma elem_of_seqZ_restarts (shape : Tail) (rows : list prow) x :
  x ∈ seqZ 0 (div_ceil (len rows) RESTART_INTERVAL) ->
  exists j, x = Z.of_nat j /\ (j < block_count (length rows))%nat.
Proof.
  rewrite <- (len_restart_offsets shape); unfold len; rewrite length_restart_offsets.
  intros Hx%elem_of_seqZ; exists (Z.to_nat x); lia.
Qed.

Lemma frame_read_rep shape rows r : rep shape rows r -> block_fits shape rows ->
  Frame_read (block_bytes r) = Ok (frame_of shape rows).
Proof.
  intros Hrep Hfit; pose proof Hrep as [Hp Hr Hn _]; pose proof Hfit as (_ & Hlt & Hrows).
  pose proof (len_restart_offsets shape rows) as Hres; pose proof (div_ceil_u32 (len rows)) as Hd.
  pose proof (len_nonneg rows); pose proof (len_nonneg (packed shape rows)).
  assert (len (block_bytes r) = len (packed shape rows) + 4 * div_ceil (len rows) RESTART_INTERVAL + 8) as Hlen
    by (unfold block_bytes; rewrite Hp, Hr; len_simpl; lia).
  assert (0 <= div_ceil (len rows) RESTART_INTERVAL) by (rewrite <- Hres; apply len_nonneg).
  unfold Frame_read, TRAILER_LEN; destruct (_ <? 8) eqn:?; [lia|].
  set (bs := block_bytes r) in *; rewrite Hlen.
  assert (slice bs (len (packed shape rows) + 4 * div_ceil (len rows) RESTART_INTERVAL + 8 - 8)
    (len (packed shape rows) + 4 * div_ceil (len rows) RESTART_INTERVAL + 8 - 8 + 4)
    = Some (u32_le (div_ceil (len rows) RESTART_INTERVAL))) as ->.
  { subst bs; unfold block_bytes; rewrite Hp, Hr, Hres, app_assoc; apply slice_mid; len_simpl; lia. }
  assert (slice bs (len (packed shape rows) + 4 * div_ceil (len rows) RESTART_INTERVAL + 8 - 8 + 4)
    (len (packed shape rows) + 4 * div_ceil (len rows) RESTART_INTERVAL + 8 - 8 + 4 + 4)
    = Some (u32_le (len rows))) as ->.
  { subst bs; unfold block_bytes; rewrite Hp, Hr, Hn, !app_assoc, <- (app_nil_r (u32_le (len rows))).
    apply slice_mid; len_simpl; lia. }
  res_simpl; rewrite !le_val_u32 by (by auto || by split).
  destruct (_ <? _ * 4) eqn:?; [lia|]; rewrite Z.eqb_refl; cbn [negb].
  replace (len (packed shape rows) + 4 * div_ceil (len rows) RESTART_INTERVAL + 8 - 8
    - div_ceil (len rows) RESTART_INTERVAL * 4) with (len (packed shape rows)) by lia.
  fold (frame_of shape rows); rewrite foldm_unit; [done|].
  intros x (j & -> & Hj)%(elem_of_seqZ_restarts shape).
  rewrite <- (app_nil_r bs); subst bs; rewrite frame_restart_rep by done; res_simpl.
  pose proof (restart_offset_le shape rows j); destruct (_ >? _) eqn:?; [b2p; lia | done].
Qed.

Lemma decode_rep shape rows r : rep shape rows r -> block_fits shape rows ->
  exists r', PrefixRows_decode (block_bytes r) shape = Ok r' /\ rep shape rows r'.
Proof.
  intros Hrep Hfit; unfold PrefixRows_decode; rewrite (frame_read_rep shape rows) by done; res_simpl.
  rewrite (mapm_Ok _ (fun z => restart_offset shape rows (Z.to_nat z))).
  - res_simpl; unfold block_bytes at 1; cbn [frame_rows_end frame_of]; rewrite slice_hit;
      [| done | by rewrite (rep_packed _ _ _ Hrep)].
    res_simpl; eexists; split; [done|]; constructor; cbn; [apply Hrep | | done | done].
    rewrite <- (len_restart_offsets shape); unfold len; rewrite length_restart_offsets, seqZ_seq, map_map.
    apply map_ext; intros; by rewrite Nat2Z.id.
  - intros x (j & -> & Hj)%(elem_of_seqZ_restarts shape).
    rewrite <- (app_nil_r (block_bytes r)), frame_restart_rep by done; by rewrite Nat2Z.id.
Qed.

(** ** Unpacking *)

(** The rows whole, back to back, and where each begins with a closing sentinel. *)
Definition flat (rows : list prow) : bytes := concat (map (fun r => r.1 ++ r.2) rows).
Definition flat_starts (rows : list prow) : list Z :=
  map (fun i => len (flat (take i rows))) (seq 0 (S (length rows))).

Lemma flat_app r1 r2 : flat (r1 ++ r2) = flat r1 ++ flat r2.
Proof. unfold flat; by rewrite map_app, concat_app. Qed.

Lemma flat_snoc rows row : flat (rows ++ [row]) = (flat rows ++ row.1) ++ row.2.
Proof. rewrite flat_app; unfold flat at 2; cbn; by rewrite app_nil_r, app_assoc. Qed.

Lemma flat_starts_snoc rows row :
  flat_starts (rows ++ [row]) = flat_starts rows ++ [len (flat (rows ++ [row]))].
Proof.
  unfold flat_starts; rewrite length_app, Nat.add_comm; cbn [length Nat.add].
  rewrite (seq_S (S (length rows))), map_app; cbn [map Nat.add]; f_equal.
  - apply map_ext_in; intros i Hi%in_seq; rewrite take_app_le by lia; done.
  - rewrite take_ge; [done|]; rewrite length_app; cbn; lia.
Qed.

Definition unpacked_at (shape : Tail) (row_len : option Z) (rows : list prow) : Unpacking :=
  mkUnpacking (flat rows) (match row_len with Some _ => [] | None => flat_starts rows end)
    (last_key rows) (last_whole rows) (len (packed shape rows)).

(** A row kept whole takes a whole tail's leading bytes. *)
Lemma slice_whole_tail shape row : row_ok shape row -> slice (whole row.2) 0 (Tail_len shape) = Some row.2.
Proof. intros [_ [<- _]]; unfold whole; by apply slice_hit. Qed.

Lemma unpack_row_rep shape rows r row_len r1 row r2 :
  rows = r1 ++ row :: r2 -> rep shape rows r -> block_fits shape rows -> len (flat rows) < U32 ->
  (forall n, row_len = Some n -> Forall (fun r => len r.1 + len r.2 = n) rows) ->
  unpack_row (block_bytes r) (packed shape rows) (frame_of shape rows) shape row_len
    (unpacked_at shape row_len r1) (len r1)
  = Ok (unpacked_at shape row_len (r1 ++ [row])).
Proof.
  intros -> Hrep Hfit Hflat Hstride; pose proof Hfit as (Hok & _ & _); set (rows := r1 ++ row :: r2) in *.
  unfold unpack_row, unpacked_at; cbn [up_at up_before up_key up_packed up_starts].
  change (is_multiple_of (len r1) RESTART_INTERVAL) with (is_restart (length r1)).
  match goal with |- (?m ≫= _) = _ => assert (m = Ok (tail_before r1)) as -> end.
  { pose proof (is_restart_spec (length r1)) as Hs; unfold tail_before.
    destruct (is_restart (length r1)); [| done]; destruct Hs as [m Hm].
    replace (len r1 / RESTART_INTERVAL) with (Z.of_nat m)
      by (unfold len, RESTART_INTERVAL; rewrite Hm; apply Z.div_unique with 0; lia).
    rewrite <- (app_nil_r (block_bytes r)), frame_restart_rep; [| done | done |].
    - res_simpl; unfold restart_offset; subst rows; rewrite take_app_length' by lia.
      by rewrite Z.eqb_refl.
    - pose proof (block_count_bounds (length rows)); subst rows; rewrite length_app in *; cbn in *; lia. }
  res_simpl; subst rows; rewrite read_packed_at by done; res_simpl.
  destruct (row_read_key shape r1 row) as (Hle & -> & Hres).
  assert ((rw_shared (row_read shape r1 row) >? len (last_key r1))
    || (is_restart (length r1) && negb (rw_shared (row_read shape r1 row) =? 0)) = false) as ->.
  { apply orb_false_iff; split; [rewrite Z.gtb_ltb; by apply Z.ltb_ge|].
    destruct (is_restart _); [destruct Hres as [-> _]|]; done. }
  cbn [row_read rw_tail]; rewrite slice_whole_tail by (apply Forall_app in Hok as [_ [? _]%Forall_cons]; done).
  res_simpl; rewrite <- flat_snoc, last_key_snoc, last_whole_snoc.
  assert (len (flat (r1 ++ [row])) < U32) as Hl
    by (rewrite cons_middle, app_assoc, flat_app, len_app in Hflat; len_pos; lia).
  destruct row_len as [n|].
  - assert (len (flat (r1 ++ [row])) = (len r1 + 1) * n) as ->; [| by rewrite Z.eqb_refl].
    rewrite cons_middle, app_assoc in Hstride; specialize (Hstride n eq_refl).
    apply Forall_app in Hstride as [Hst _]; replace (len r1 + 1) with (len (r1 ++ [row])) by len_lia.
    clear -Hst; induction Hst as [|x l Hx _ IH]; [done|].
    change (flat (x :: l)) with ((x.1 ++ x.2) ++ flat l); len_simpl; lia.
  - rewrite flat_starts_snoc, as_u32_small by (split; [apply len_nonneg | done]); done.
Qed.

Lemma unpack_rep shape rows r row_len :
  rep shape rows r -> block_fits shape rows -> len (flat rows) < U32 ->
  (forall n, row_len = Some n -> Forall (fun r => len r.1 + len r.2 = n) rows) ->
  unpack (block_bytes r) shape row_len
  = Ok (flat rows, match row_len with Some _ => [] | None => flat_starts rows end, len rows).
Proof.
  intros Hrep Hfit Hflat Hstride; unfold unpack; rewrite (frame_read_rep shape rows) by done; res_simpl.
  assert (slice (block_bytes r) 0 (len (packed shape rows)) = Some (packed shape rows)) as Es
    by (unfold block_bytes; rewrite (rep_packed _ _ _ Hrep); by apply slice_hit).
  cbn [frame_of frame_rows_end frame_rows]; rewrite Es; res_simpl.
  assert (forall r2 r1, rows = r1 ++ r2 ->
    foldm (unpack_row (block_bytes r) (packed shape rows) (frame_of shape rows) shape row_len)
      (map Z.of_nat (seq (length r1) (length r2))) (unpacked_at shape row_len r1)
    = Ok (unpacked_at shape row_len rows)) as H.
  { induction r2 as [|row r2 IH]; intros r1 E; [by rewrite app_nil_r in E; subst|].
    cbn [length seq map foldm]; fold (len r1).
    rewrite (unpack_row_rep shape rows r row_len r1 row r2) by done; res_simpl.
    specialize (IH (r1 ++ [row])); rewrite <- app_assoc, length_app, Nat.add_comm in IH; cbn in IH; auto. }
  specialize (H rows [] eq_refl); cbn [length] in H; rewrite <- seqZ_seq in H; fold (len rows) in H.
  assert (mkUnpacking [] (match row_len with Some _ => [] | None => [0] end) [] no_tail 0
    = unpacked_at shape row_len []) as -> by (by destruct row_len).
  rewrite H; res_simpl; cbn [unpacked_at up_at up_packed up_starts].
  by rewrite Z.eqb_refl.
Qed.

(** A run of rows that opens on a restart packs the same wherever it lies. *)
Lemma packed_after_restart shape before : is_restart (length before) = true ->
  forall rows r1, packed_after shape (before ++ r1) rows = packed_after shape r1 rows.
Proof.
  intros Hb; induction rows as [|row rows IH]; intros r1; cbn [packed_after]; [done|].
  rewrite <- app_assoc, IH; f_equal; unfold packed_row, key_before, tail_before.
  assert (is_restart (length (before ++ r1)) = is_restart (length r1)) as ->.
  { unfold is_restart, is_multiple_of, RESTART_INTERVAL in *; rewrite length_app, Nat2Z.inj_add; b2p.
    rewrite Z.add_mod, Hb, Z.add_0_l, Z.mod_mod by lia; done. }
  destruct (is_restart (length r1)) eqn:E; [done|].
  destruct r1 as [|x r1 _] using rev_ind; [done|].
  rewrite (app_assoc before), !last_key_snoc, !last_whole_snoc; done.
Qed.

Lemma packed_pos shape rows : rows <> [] -> 0 < len (packed shape rows).
Proof.
  intros Hne; destruct rows as [|x rows]; [done|]; pose proof (packed_row_nonempty shape [] x).
  unfold packed; cbn [packed_after]; len_lia.
Qed.

Lemma unpack_block_row_rep shape r1 row r2 :
  Forall (row_ok shape) (r1 ++ row :: r2) -> len (flat (r1 ++ [row])) < U32 ->
  unpack_block_row (packed shape (r1 ++ row :: r2)) shape (len r1) (unpacked_at shape None r1)
  = Ok (unpacked_at shape None (r1 ++ [row])).
Proof.
  intros Hok Hl; unfold unpack_block_row, unpacked_at; cbn [up_at up_before up_key up_packed up_starts].
  change (is_multiple_of (len r1) RESTART_INTERVAL) with (is_restart (length r1)); fold (tail_before r1).
  rewrite read_packed_at by done; res_simpl; destruct (row_read_key shape r1 row) as (Hle & -> & Hres).
  assert ((len (packed shape r1) =? 0) && negb (rw_shared (row_read shape r1 row) =? 0) = false) as ->.
  { destruct r1 as [|x r1]; [destruct Hres as [-> _]; done|].
    pose proof (packed_pos shape (x :: r1) ltac:(done)).
    destruct (Z.eqb_spec (len (packed shape (x :: r1))) 0); [lia | done]. }
  destruct (_ >? _) eqn:Eg; [b2p; lia|]; apply Forall_app in Hok as [_ [Hrow _]%Forall_cons].
  cbn [row_read rw_tail rw_next]; rewrite slice_whole_tail by done; res_simpl.
  rewrite <- flat_snoc, as_u32_small by (split; [apply len_nonneg | done]).
  by rewrite flat_starts_snoc, last_key_snoc, last_whole_snoc.
Qed.

Lemma unpack_block_rep shape rows : Forall (row_ok shape) rows -> len (flat rows) < U32 ->
  unpack_block (packed shape rows) shape = Ok (flat rows, flat_starts rows).
Proof.
  intros Hok Hflat; unfold unpack_block.
  change (mkUnpacking [] [0] [] no_tail 0) with (unpacked_at shape None []).
  assert (forall r2 r1 fuel, rows = r1 ++ r2 -> len (packed shape rows) - len (packed shape r1) < Z.of_nat fuel ->
    unpack_block_loop fuel (packed shape rows) shape (len r1) (unpacked_at shape None r1)
    = Ok (unpacked_at shape None rows)) as H.
  { induction r2 as [|row r2 IH]; intros r1 fuel E Hf;
      (destruct fuel as [|fuel]; [rewrite E in Hf; match type of Hf with len (packed _ (?a ++ ?b)) - _ < _ => pose proof (packed_prefix_len shape a b); lia end|]);
      cbn [unpack_block_loop]; change (up_at (unpacked_at shape None r1)) with (len (packed shape r1)).
    - rewrite app_nil_r in E; subst r1; by rewrite Z.ltb_irrefl.
    - pose proof (packed_row_nonempty shape r1 row) as Hpos.
      destruct (_ <? _) eqn:Elt; [| rewrite E, packed_split in Elt; len_lia].
      assert (unpack_block_row (packed shape rows) shape (len r1) (unpacked_at shape None r1)
        = Ok (unpacked_at shape None (r1 ++ [row]))) as ->.
      { subst rows; apply unpack_block_row_rep; [done|].
        rewrite cons_middle, app_assoc, flat_app, len_app in Hflat; len_pos; lia. }
      res_simpl; replace (len r1 + 1) with (len (r1 ++ [row])) by len_lia.
      apply IH; [by rewrite <- app_assoc | rewrite packed_snoc, len_app; lia]. }
  specialize (H rows [] (S (length (packed shape rows))) eq_refl).
  change (len (@nil prow)) with 0 in H; rewrite H; [done|].
  change (packed shape []) with (@nil byte); unfold len; cbn [length]; lia.
Qed.

(** A block that holds a list of rows survives its trip to disk: encoding writes the length it
    announces, in both of its forms; decoding gives a block that holds the same rows; unpacking it
    gives every row whole in order, strided when all rows are one width and with a table of starts
    otherwise; and any run of rows cut at a restart unpacks on its own. *)
Lemma packed_block_roundtrip shape rows r :
  rep shape rows r -> block_fits shape rows -> len (flat rows) < U32 ->
  let bs := PrefixRows_encode r [] in
  PrefixRows_into_encoded r = bs
  /\ PrefixRows_encoded_len r = len bs
  /\ (exists r', PrefixRows_decode bs shape = Ok r' /\ rep shape rows r' /\ PrefixRows_keys r' = Ok (map fst rows))
  /\ unpack bs shape None = Ok (flat rows, flat_starts rows, len rows)
  /\ (forall n, Forall (fun r => len r.1 + len r.2 = n) rows -> unpack bs shape (Some n) = Ok (flat rows, [], len rows))
  /\ (forall r1 r2 r3, rows = r1 ++ r2 ++ r3 -> is_restart (length r1) = true ->
       slice bs (len (packed shape r1)) (len (packed shape (r1 ++ r2))) = Some (packed_after shape r1 r2)
       /\ unpack_block (packed_after shape r1 r2) shape = Ok (flat r2, flat_starts r2)).
Proof.
  intros Hrep Hfit Hflat bs; destruct (encode_bytes shape rows r [] Hrep Hfit) as (E1 & E2 & E3).
  subst bs; rewrite E1; cbn [app]; split_and!; [done | done | | | |].
  - destruct (decode_rep shape rows r Hrep Hfit) as (r' & E & Hr'); exists r'; split_and!; [done | done |].
    by apply (keys_rep shape); [| apply Hfit].
  - by rewrite (unpack_rep shape rows r None).
  - intros n Hn; rewrite (unpack_rep shape rows r (Some n)); [done | done | done | done | by intros ? [= <-]].
  - intros r1 r2 r3 -> Hr1; destruct Hfit as (Hok & _); apply Forall_app in Hok as [_ [Hok _]%Forall_app].
    rewrite !flat_app, !len_app in Hflat; split.
    + unfold block_bytes; rewrite (rep_packed _ _ _ Hrep), !packed_app, packed_after_app, <- !app_assoc.
      apply slice_mid; [done | len_lia].
    + rewrite <- (app_nil_r r1), packed_after_restart by done; apply unpack_block_rep; [done | len_lia].
Qed.

(** ** Witnesses *)

(** Eighteen entry rows, one restart block and the opening of the next. *)
Definition demo_prows : list prow :=
  map (fun i => ([Byte.x61; byte_of (Z.of_nat i)], entry_tail (mkFooterRow (100 + Z.of_nat i) (Z.of_nat i * 64) 7 0)))
    (seq 0 18).

Lemma demo_prows_ok : Forall (row_ok TailEntry) demo_prows.
Proof.
  apply Forall_forall; intros row (i & -> & _)%list_elem_of_fmap; split; [reflexivity|].
  split; [reflexivity | vm_compute; discriminate].
Qed.

Lemma demo_prows_fit : block_fits TailEntry demo_prows.
Proof. split; [apply demo_prows_ok | split; vm_compute; reflexivity]. Qed.

Lemma demo_prows_sorted : rows_sorted demo_prows.
Proof.
  apply Sorted_StronglySorted; [apply bytes_le_trans|].
  cbn [demo_prows map seq fst].
  repeat (apply Sorted_cons; [| first [apply HdRel_nil | apply HdRel_cons; vm_compute; discriminate]]); apply Sorted_nil.
Qed.

Lemma pushed_rows_walk_back_witness :
  exists r, foldm (fun r row => PrefixRows_push r row.1 row.2) demo_prows (PrefixRows_new TailEntry) = Ok r
    /\ PrefixRows_keys r = Ok (map fst demo_prows).
Proof.
  destruct (pushed_rows_walk_back TailEntry demo_prows) as (r & E & _ & Ek & _);
    [apply demo_prows_ok | apply demo_prows_sorted | apply demo_prows_fit | eauto].
Defined.

Lemma packed_block_roundtrip_witness :
  unpack (PrefixRows_encode (pack_state TailEntry demo_prows) []) TailEntry (Some 19)
  = Ok (flat demo_prows, [], 18).
Proof.
  apply (packed_block_roundtrip TailEntry demo_prows (pack_state TailEntry demo_prows));
    [apply pack_state_rep | apply demo_prows_fit | reflexivity |].
  apply Forall_forall; intros row (i & -> & _)%list_elem_of_fmap; reflexivity.
Defined.
