(* ===== verification/PrefixSeek.v ===== *)
(** * Searching a packed block ([format/prefix.rs])

    [seek] bisects the restart rows and walks one block comparing each row only where it differs from
    the row before. The theorem is that it lands where a search over the whole keys would; and that
    on a block decoded from any bytes the search and the walk return a value or a corruption. *)
From S2P Require Import Prelude Error Bytes Lsn Column Record FooterRow Varint Prefix.

(** ** The incremental comparison *)

Lemma u8_compare_ne (a b : byte) : a <> b -> (u8 a ?= u8 b) <> Eq.
Proof. intros Hne ->%Z.compare_eq%u8_inj; done. Qed.

Lemma bytes_cmp_cons x a y b :
  bytes_cmp (x :: a) (y :: b) = match u8 x ?= u8 y with Eq => bytes_cmp a b | c => c end.
Proof. reflexivity. Qed.

Lemma bytes_cmp_cons_ne x a y b : x <> y -> bytes_cmp (x :: a) (y :: b) = (u8 x ?= u8 y).
Proof. intros Hne%u8_compare_ne; rewrite bytes_cmp_cons; by destruct (u8 x ?= u8 y). Qed.

Lemma bytes_cmp_cons_eq x a b : bytes_cmp (x :: a) (x :: b) = bytes_cmp a b.
Proof. by rewrite bytes_cmp_cons, Z.compare_refl. Qed.

(** Comparing against a key through what it shares with the key before it. *)
Definition step_cmp (target last key : bytes) (s m : nat) : comparison :=
  match (s ?= m)%nat with
  | Gt => bytes_cmp target last
  | Lt => match drop s key, target !! s with b :: _, Some t => u8 t ?= u8 b | _, _ => Gt end
  | Eq => bytes_cmp (drop m target) (drop s key)
  end.

Definition step_shared (target key : bytes) (s m : nat) : nat :=
  match (s ?= m)%nat with
  | Gt => m
  | Lt => s
  | Eq => s + shared_prefix (drop m target) (drop s key)
  end.

Lemma step_cmp_correct last : forall target key,
  let s := shared_prefix last key in
  let m := shared_prefix target last in
  bytes_cmp target key = step_cmp target last key s m
  /\ shared_prefix target key = step_shared target key s m.
Proof.
  induction last as [|x last IH]; intros target key; [by destruct target|].
  destruct target as [|t target], key as [|y key]; cbn [shared_prefix]; cbv zeta.
  - done.
  - by case_bool_decide.
  - by case_bool_decide.
  - destruct (decide (t = x)) as [->|Htx], (decide (x = y)) as [->|Hxy];
      repeat (case_bool_decide; [try congruence | try congruence]).
    + destruct (IH target key) as [IH1 IH2]; rewrite bytes_cmp_cons_eq, IH1, IH2.
      unfold step_cmp, step_shared; cbn [Nat.compare drop lookup list_lookup]; rewrite bytes_cmp_cons_eq.
      destruct (_ ?= _)%nat; split; try done; lia.
    + unfold step_cmp, step_shared; cbn [Nat.compare drop lookup list_lookup].
      by rewrite bytes_cmp_cons_ne.
    + unfold step_cmp, step_shared; cbn [Nat.compare]; by rewrite !bytes_cmp_cons_ne.
    + split; [done|]; unfold step_shared; cbn [Nat.compare drop Nat.add shared_prefix]; by rewrite bool_decide_true.
    + split; [done|]; unfold step_shared; cbn [Nat.compare drop Nat.add shared_prefix]; by rewrite bool_decide_false.
Qed.

Lemma slice_from_drop {A} (l : list A) (n : nat) : (n <= length l)%nat ->
  slice_from l (Z.of_nat n) = Some (drop n l).
Proof.
  intros; unfold slice_from; destruct (_ && _) eqn:E; [by rewrite Nat2Z.id | unfold len in E; lia].
Qed.

(** The walk's state agrees with the key before: how far the target matches it, and how they order.
    Before the first row of a block the order is not used. *)
Lemma walk_step target before (order : comparison) shape row :
  let kb := key_before before in
  kb = [] \/ order = bytes_cmp target kb ->
  walk_cmp target (Z.of_nat (shared_prefix target kb)) order (row_read shape before row)
    = Ok (bytes_cmp target row.1)
  /\ walk_matched target (Z.of_nat (shared_prefix target kb)) (row_read shape before row)
    = Ok (Z.of_nat (shared_prefix target row.1)).
Proof.
  intros kb Hord; destruct (step_cmp_correct kb target row.1) as [Ec Em].
  destruct (shared_prefix_le target kb) as [Hm _].
  unfold walk_cmp, walk_matched, row_read; fold kb; cbn [rw_shared rw_suffix]; rewrite Ec, Em.
  unfold step_cmp, step_shared; rewrite Nat2Z.inj_compare; destruct (Nat.compare_spec (shared_prefix kb row.1)
    (shared_prefix target kb)) as [E|E|E].
  - rewrite slice_from_drop by lia; res_simpl; rewrite E; split; [done | f_equal; lia].
  - split; [| done]; rewrite get_lookup.
    destruct (lookup_lt_is_Some_2 target (shared_prefix kb row.1)) as [t ->]; [lia|].
    by destruct (drop _ row.1).
  - split; [| done]; destruct Hord as [H0| ->]; [| done].
    rewrite H0 in E; cbn [shared_prefix] in E; lia.
Qed.

(** ** The first row at or after a target *)

Fixpoint first_from (target : bytes) (rows : list prow) (index : Z) : option Found :=
  match rows with
  | [] => None
  | row :: rows =>
      if bytes_leb target row.1 then Some (mkFound index row.2)
      else first_from target rows (index + 1)
  end.

Lemma first_from_app target r1 r2 index :
  first_from target (r1 ++ r2) index
  = match first_from target r1 index with
    | Some f => Some f
    | None => first_from target r2 (index + len r1)
    end.
Proof.
  revert index; induction r1 as [|row r1 IH]; intros index; cbn [app first_from].
  { by rewrite Z.add_0_r. }
  destruct (bytes_leb _ _); [done|]; rewrite IH; destruct (first_from target r1 _); [done|].
  f_equal; rewrite len_cons; lia.
Qed.

Lemma first_from_skip target r1 r2 index : Forall (fun row => bytes_lt row.1 target) r1 ->
  first_from target (r1 ++ r2) index = first_from target r2 (index + len r1).
Proof.
  intros H; rewrite first_from_app; assert (first_from target r1 index = None) as ->; [| done].
  revert index; induction H as [|row r1 Hr _ IH]; intros index; cbn [first_from]; [done|].
  apply bytes_leb_gt in Hr; by rewrite Hr.
Qed.

(** ** One block *)

(** No row past the first of [rows] opens a block. *)
Definition in_block (before rows : list prow) : Prop :=
  forall a row b, rows = a ++ row :: b -> a <> [] -> is_restart (length (before ++ a)) = false.

Lemma in_block_tail before row rows : in_block before (row :: rows) ->
  in_block (before ++ [row]) rows /\ (rows <> [] -> is_restart (length (before ++ [row])) = false).
Proof.
  intros H; split.
  - intros a x b -> Ha; rewrite <- app_assoc; by apply (H ([row] ++ a) x b).
  - intros Hne; destruct rows as [|x rows]; [done|]; by apply (H [row] x rows).
Qed.

Lemma walk_rows_rep shape r target r3 r2 : forall r1 fuel order,
  rep shape (r1 ++ r2 ++ r3) r -> Forall (row_ok shape) (r1 ++ r2 ++ r3) -> in_block r1 r2 ->
  key_before r1 = [] \/ order = bytes_cmp target (key_before r1) ->
  len (packed shape (r1 ++ r2)) - len (packed shape r1) < Z.of_nat fuel ->
  walk_rows fuel r target (len (packed shape r1)) (len (packed shape (r1 ++ r2))) (len r1)
    (Z.of_nat (shared_prefix target (key_before r1))) order (tail_before r1)
  = Ok (first_from target r2 (len r1)).
Proof.
  induction r2 as [|row r2 IH]; intros r1 fuel order Hrep Hok Hblk Hord Hf.
  - rewrite !app_nil_r in *; destruct fuel; [lia|]; cbn [walk_rows]; by rewrite Z.ltb_irrefl.
  - destruct (in_block_tail _ _ _ Hblk) as [Hblk' Hnr].
    pose proof (packed_row_nonempty shape r1 row); pose proof (packed_prefix_len shape (r1 ++ [row]) r2) as Hle.
    rewrite packed_snoc, len_app, <- app_assoc in Hle; cbn [app] in Hle.
    destruct fuel as [|fuel]; [lia|]; cbn [walk_rows first_from].
    destruct (_ <? _) eqn:E; [| lia]; pose proof Hrep as [Hp _ _ Ht].
    unfold PrefixRows_row_at; rewrite Hp, Ht; cbn [app] in Hok |- *; rewrite read_packed_at by done; res_simpl.
    destruct (walk_step target r1 order shape row Hord) as [-> Em]; res_simpl.
    assert (row_ok shape row) as Hrow by (apply Forall_app in Hok as [_ [? _]%Forall_cons]; done).
    unfold bytes_leb; destruct (bytes_cmp target row.1) eqn:Ec.
    1,2: cbn [row_read rw_tail]; rewrite slice_whole_tail by done; done.
    rewrite Em; res_simpl; cbn [row_read rw_next rw_tail].
    destruct (decide (r2 = [])) as [->|Hne].
    { cbn [first_from]; destruct fuel as [|fuel]; [rewrite packed_snoc, len_app in *; lia|].
      cbn [walk_rows]; by rewrite Z.ltb_irrefl. }
    specialize (IH (r1 ++ [row]) fuel Gt); rewrite <- !app_assoc in IH; cbn [app] in IH.
    assert (key_before (r1 ++ [row]) = row.1) as Ek by (unfold key_before; by rewrite Hnr, last_key_snoc).
    assert (tail_before (r1 ++ [row]) = whole row.2) as Et by (unfold tail_before; by rewrite Hnr, last_whole_snoc).
    rewrite Ek, Et, (len_app r1 [row]) in IH; change (len [row]) with 1 in IH.
    apply IH; [done | done | done | by right | rewrite packed_snoc, len_app; lia].
Qed.

(** ** The walk across blocks *)

Lemma block_split (rows : list prow) (j : nat) :
  rows = take (16 * j) rows ++ take 16 (drop (16 * j) rows) ++ drop (16 * S j) rows
  /\ take (16 * j) rows ++ take 16 (drop (16 * j) rows) = take (16 * S j) rows.
Proof.
  assert (take (16 * j) rows ++ take 16 (drop (16 * j) rows) = take (16 * S j) rows) as E.
  { replace (16 * S j)%nat with (16 * j + 16)%nat by lia; by rewrite take_take_drop. }
  split; [| done]; by rewrite app_assoc, E, take_drop.
Qed.

Lemma block_in_block (rows : list prow) (j : nat) : (16 * j <= length rows)%nat ->
  in_block (take (16 * j) rows) (take 16 (drop (16 * j) rows)).
Proof.
  intros Hj a row b E Ha; rewrite length_app, length_take, Nat.min_l by done.
  pose proof (f_equal length E) as El; rewrite length_app, length_take in El; cbn [length] in El.
  destruct a as [|x a]; [done|]; cbn [length] in *.
  pose proof (is_restart_spec (16 * j + S (length a))) as Hs; destruct (is_restart _); [| done].
  destruct Hs as [m Hm]; lia.
Qed.

Lemma get_restart shape rows r (j : nat) : rep shape rows r ->
  get (pr_restarts r) (Z.of_nat j)
  = if decide (j < block_count (length rows))%nat then Some (restart_offset shape rows j) else None.
Proof.
  intros [_ Hr _ _]; rewrite get_lookup, Hr; case_decide; [by apply restart_offsets_lookup|].
  apply lookup_ge_None; rewrite length_restart_offsets; lia.
Qed.

Lemma walk_rep shape rows r target : rep shape rows r -> Forall (row_ok shape) rows ->
  forall k j fuel, (j + k = block_count (length rows))%nat -> (0 < k < fuel)%nat ->
  PrefixRows_walk fuel r (Z.of_nat j) target
  = Ok (first_from target (drop (16 * j) rows) (Z.of_nat (16 * j))).
Proof.
  intros Hrep Hok; induction k as [|k IH]; intros j fuel Hj Hk; [lia|].
  destruct fuel as [|fuel]; [lia|]; cbn [PrefixRows_walk].
  pose proof (block_count_bounds (length rows)) as Hbc.
  rewrite (get_restart shape rows), decide_True by (done || lia); res_simpl.
  replace (Z.of_nat j + 1) with (Z.of_nat (S j)) by lia; rewrite (get_restart shape rows) by done.
  destruct (block_split rows j) as [Esplit Etake].
  set (r1 := take (16 * j) rows) in *; set (r2 := take 16 (drop (16 * j) rows)) in *.
  set (r3 := drop (16 * S j) rows) in *.
  assert (length r1 = (16 * j)%nat) as Hr1 by (subst r1; rewrite length_take; lia).
  assert (is_restart (length r1) = true) as Hres by (rewrite Hr1; apply is_restart_block).
  assert (key_before r1 = [] /\ tail_before r1 = no_tail) as [Ekb Etb]
    by (unfold key_before, tail_before; by rewrite Hres).
  assert ((match (if decide (S j < block_count (length rows))%nat then Some (restart_offset shape rows (S j)) else None)
           with Some next => next | None => len (pr_packed r) end) = len (packed shape (r1 ++ r2))) as ->.
  { case_decide; [unfold restart_offset; by rewrite Etake|].
    rewrite (rep_packed _ _ _ Hrep), Etake, take_ge by lia; done. }
  assert (walk_rows (S (length (pr_packed r))) r target (restart_offset shape rows j)
    (len (packed shape (r1 ++ r2))) (Z.of_nat j * RESTART_INTERVAL) 0 Lt no_tail
    = Ok (first_from target r2 (Z.of_nat (16 * j)))) as ->.
  { pose proof (walk_rows_rep shape r target r3 r2 r1 (S (length (pr_packed r))) Lt) as Hw.
    rewrite <- Esplit, Ekb, Etb in Hw; cbn [shared_prefix] in Hw.
    replace (Z.of_nat (shared_prefix target [])) with 0 in Hw by (by destruct target).
    replace (len r1) with (Z.of_nat (16 * j)) in Hw by (unfold len; lia).
    replace (Z.of_nat j * RESTART_INTERVAL) with (Z.of_nat (16 * j)) by (unfold RESTART_INTERVAL; lia).
    apply Hw; [done | done | apply block_in_block; lia | by left |].
    rewrite (rep_packed _ _ _ Hrep), Esplit, app_assoc; pose proof (packed_prefix_len shape (r1 ++ r2) r3).
    pose proof (len_nonneg (packed shape r1)); unfold len in *; lia. }
  res_simpl; assert (drop (16 * j) rows = r2 ++ r3) as ->.
  { rewrite Esplit, drop_app_length' by done; done. }
  rewrite first_from_app; destruct (first_from target r2 _); [done|].
  case_decide.
  - rewrite IH by lia; subst r3; do 2 f_equal; subst r2; unfold len; rewrite length_take, length_drop; lia.
  - assert (r3 = []) as -> by (subst r3; apply drop_ge; lia); done.
Qed.

(** ** The bisection *)

Lemma sorted_lookup_le rows i j (a b : prow) : rows_sorted rows -> (i <= j)%nat ->
  rows !! i = Some a -> rows !! j = Some b -> bytes_le a.1 b.1.
Proof.
  intros Hs Hij Ha Hb; destruct (decide (i = j)) as [->|Hne]; [rewrite Ha in Hb; by injection Hb as ->|].
  eapply (StronglySorted_lookup bytes_le (map fst rows) i j); [done | lia | |].
  - by rewrite list_lookup_fmap, Ha.
  - by rewrite list_lookup_fmap, Hb.
Qed.

(** The restart rows below [j] are below the target; those from it on are not. *)
Lemma bisect_rep shape rows r target : rep shape rows r -> Forall (row_ok shape) rows -> rows_sorted rows ->
  forall fuel (low high : nat), (low <= high <= block_count (length rows))%nat -> (high - low < fuel)%nat ->
  (forall j row, (j < low)%nat -> rows !! (16 * j)%nat = Some row -> bytes_lt row.1 target) ->
  exists low' : nat, seek_bisect fuel r target (Z.of_nat low) (Z.of_nat high) = Ok (Z.of_nat low')
    /\ (low' <= block_count (length rows))%nat
    /\ (forall j row, (j < low')%nat -> rows !! (16 * j)%nat = Some row -> bytes_lt row.1 target).
Proof.
  intros Hrep Hok Hs; induction fuel as [|fuel IH]; intros low high Hlh Hf Hlow; [lia|]; cbn [seek_bisect].
  destruct (_ <? _) eqn:E; [| exists low; split_and!; [done | lia | done]].
  pose proof (block_count_bounds (length rows)) as Hbc.
  assert ((Z.of_nat low + Z.of_nat high) / 2 = Z.of_nat ((low + high) / 2)) as ->
    by (by rewrite Nat2Z.inj_div, Nat2Z.inj_add).
  pose proof (Nat.div_mod_eq (low + high) 2); pose proof (Nat.mod_upper_bound (low + high) 2 ltac:(lia)).
  set (mid := ((low + high) / 2)%nat) in *; assert (low <= mid < high)%nat as Hmid by lia.
  destruct (lookup_lt_is_Some_2 rows (16 * mid)) as [row Hrow]; [lia|].
  rewrite (restart_key_rep shape rows r mid row) by done; res_simpl.
  replace (Z.of_nat mid + 1) with (Z.of_nat (S mid)) by lia.
  destruct (bytes_cmp row.1 target) eqn:Ec; [apply IH; [lia | lia | done] | | apply IH; [lia | lia | done]].
  apply IH; [lia | lia |]; intros j row' Hj Hrow'.
  eapply bytes_le_lt_trans; [| exact Ec]; apply (sorted_lookup_le rows (16 * j) (16 * mid)); auto; lia.
Qed.

Lemma seek_first shape rows r target : rep shape rows r -> Forall (row_ok shape) rows -> rows_sorted rows ->
  PrefixRows_seek r target = Ok (first_from target rows 0).
Proof.
  intros Hrep Hok Hs; unfold PrefixRows_seek; rewrite (rep_rows _ _ _ Hrep).
  pose proof (block_count_bounds (length rows)) as Hbc.
  destruct (len rows =? 0) eqn:E0; [b2p; apply len_0_inv in E0 as ->; done|].
  assert (len (pr_restarts r) = Z.of_nat (block_count (length rows))) as Hlr
    by (rewrite (rep_restarts _ _ _ Hrep); unfold len; by rewrite length_restart_offsets).
  assert (length (pr_restarts r) = block_count (length rows)) as Hlr' by (unfold len in Hlr; lia).
  rewrite Hlr, Hlr'.
  destruct (bisect_rep shape rows r target Hrep Hok Hs (S (block_count (length rows))) 0 (block_count (length rows)))
    as (low & Eb & Hle & Hlow); [lia | lia | lia |]; change (Z.of_nat 0) with 0 in Eb; rewrite Eb; res_simpl.
  assert (length rows <> 0%nat) as Hn by (unfold len in E0; lia).
  set (block := (low - 1)%nat).
  replace (saturating_sub (Z.of_nat low) _) with (Z.of_nat block)
    by (unfold saturating_sub; subst block; destruct ((_ >? 0) || _) eqn:Eo; lia).
  rewrite (walk_rep shape rows r target Hrep Hok (block_count (length rows) - block) block);
    [| subst block; lia | subst block; lia].
  f_equal; rewrite <- (take_drop (16 * block) rows) at 2; rewrite first_from_skip.
  - f_equal; rewrite len_take; unfold len; subst block; lia.
  - apply Forall_forall; intros row (i & Hi)%list_elem_of_lookup.
    apply lookup_take_Some in Hi as [Hi Hlt]; destruct low as [|low']; [subst block; lia|].
    destruct (lookup_lt_is_Some_2 rows (16 * low')) as [rrow Hr]; [lia|].
    eapply bytes_le_lt_trans; [| eapply (Hlow low'); [lia | exact Hr]].
    apply (sorted_lookup_le rows i (16 * low')); auto; subst block; lia.
Qed.

(** Where a seek may land: on the first row not below the target, or past them all. *)
Definition lands (rows : list prow) (target : bytes) (found : option Found) : Prop :=
  match found with
  | Some f => exists (i : nat) row, found_index f = Z.of_nat i /\ rows !! i = Some row
      /\ found_tail f = row.2 /\ bytes_le target row.1
      /\ Forall (fun row => bytes_lt row.1 target) (take i rows)
  | None => Forall (fun row => bytes_lt row.1 target) rows
  end.

Lemma first_from_lands rows target : lands rows target (first_from target rows 0).
Proof.
  assert (forall r2 r1, rows = r1 ++ r2 -> Forall (fun row => bytes_lt row.1 target) r1 ->
    lands rows target (first_from target r2 (len r1))) as H; [| by apply (H rows [])].
  induction r2 as [|row r2 IH]; intros r1 E Hr1; cbn [first_from].
  { rewrite app_nil_r in E; by subst. }
  destruct (bytes_leb target row.1) eqn:El.
  - exists (length r1), row; subst rows; cbn [found_index found_tail].
    rewrite take_app_length, list_lookup_middle by done; split_and!; [done | done | done | by apply bytes_leb_le | done].
  - replace (len r1 + 1) with (len (r1 ++ [row])) by len_lia; apply IH; [by rewrite <- app_assoc|].
    apply Forall_app; split; [done|]; constructor; [by apply bytes_leb_gt | done].
Qed.

(** Rows pushed in order pack, encode and decode, and a seek, on the block as built and on the
    block as decoded, lands on the first row whose key is not below the target with that row's own
    tail, or reports that every row is below it. *)
Lemma seek_lands_first shape rows : block_fits shape rows -> rows_sorted rows ->
  exists r r', foldm (fun r row => PrefixRows_push r row.1 row.2) rows (PrefixRows_new shape) = Ok r
    /\ PrefixRows_decode (PrefixRows_encode r []) shape = Ok r'
    /\ forall target, exists found, PrefixRows_seek r target = Ok found
         /\ PrefixRows_seek r' target = Ok found /\ lands rows target found.
Proof.
  intros Hfit Hs; pose proof Hfit as (Hok & Hlen & _); pose proof (pack_state_rep shape rows) as Hrep.
  destruct (encode_bytes shape rows (pack_state shape rows) [] Hrep Hfit) as (E1 & _).
  destruct (decode_rep shape rows (pack_state shape rows) Hrep Hfit) as (r' & E2 & Hr').
  exists (pack_state shape rows), r'; split_and!; [by apply push_all | by rewrite E1 |].
  intros target; exists (first_from target rows 0); split_and!;
    [by apply (seek_first shape) | by apply (seek_first shape) | apply first_from_lands].
Qed.

(** ** Blocks of any bytes *)

Definition shape_ok (shape : Tail) : Prop := 0 <= Tail_len shape <= TAIL_CAP.

Lemma read_row_sound bs at_ shape before : 0 <= at_ -> len before = TAIL_CAP -> shape_ok shape ->
  refuses_or (fun row => 0 <= rw_shared row /\ at_ < rw_next row <= len bs /\ len (rw_tail row) = TAIL_CAP)
    (read_row_packed bs at_ shape before).
Proof.
  intros Hat Hb Hs; unfold read_row_packed.
  eapply refuses_or_bind; [by apply get_varint_sound|]; intros [v at1] _ [[? ?] Ha1]; cbn [fst snd] in *.
  eapply refuses_or_bind; [apply get_varint_sound; lia|]; intros [n at2] _ [[? ?] Ha2]; cbn [fst snd] in *.
  destruct (slice bs at2 (at2 + n)) as [suffix|] eqn:Es; [|done]; res_simpl; apply slice_bounds in Es.
  eapply refuses_or_bind; [apply get_tail_sound; [lia | done | done]|].
  intros [t at3] _ [? Ha3]; cbn in *; lia.
Qed.

(** What a decoded block promises whatever it was decoded from. *)
Record block_wf (r : PrefixRows) : Prop := {
  bw_restarts : Forall (fun at_ => 0 <= at_ <= len (pr_packed r)) (pr_restarts r);
  bw_count : len (pr_restarts r) = div_ceil (pr_rows r) RESTART_INTERVAL;
  bw_rows : 0 <= pr_rows r;
  bw_tail : shape_ok (pr_tail r);
}.

Lemma frame_restart_sound f bs at_ : 0 <= frame_rows_end f -> 0 <= at_ ->
  frame_rows_end f + at_ * 4 + 4 <= len bs ->
  exists v, Frame_restart f bs at_ = Ok v /\ 0 <= v.
Proof.
  intros; unfold Frame_restart; destruct (slice_is_Some bs (frame_rows_end f + at_ * 4) (frame_rows_end f + at_ * 4 + 4))
    as [s ->]; [lia | lia |]; res_simpl; eexists; split; [done | apply le_val_range].
Qed.

Definition frame_wf (bs : bytes) (f : Frame) : Prop :=
  0 <= frame_rows_end f /\ 0 <= frame_restarts f /\ 0 <= frame_rows f
  /\ len bs = frame_rows_end f + frame_restarts f * 4 + TRAILER_LEN
  /\ frame_restarts f = div_ceil (frame_rows f) RESTART_INTERVAL
  /\ forall at_, 0 <= at_ < frame_restarts f ->
       exists v, Frame_restart f bs at_ = Ok v /\ 0 <= v <= frame_rows_end f.

Lemma frame_loop_sound bs f l : 0 <= frame_rows_end f -> len bs = frame_rows_end f + frame_restarts f * 4 + TRAILER_LEN ->
  Forall (fun at_ => 0 <= at_ < frame_restarts f) l ->
  refuses_or (fun _ => Forall (fun at_ => exists v, Frame_restart f bs at_ = Ok v /\ 0 <= v <= frame_rows_end f) l)
    (foldm (fun (_ : unit) at_ => restart ← Frame_restart f bs at_;
      if restart >? frame_rows_end f then Err (Corruption "a packed row restart points past the rows") else Ok tt) l tt).
Proof.
  intros H0 Hlen; unfold TRAILER_LEN in Hlen; induction 1 as [|x l Hx _ IH]; cbn [foldm]; [by constructor|].
  destruct (frame_restart_sound f bs x) as (v & Ev & Hv); [lia | lia | lia |]; rewrite Ev; res_simpl.
  destruct (v >? frame_rows_end f) eqn:E; [done|]; res_simpl.
  eapply refuses_or_mono; [apply IH|]; cbn; intros _ Hl; constructor; [| done].
  exists v; split; [done | lia].
Qed.

Lemma frame_read_sound bs : refuses_or (frame_wf bs) (Frame_read bs).
Proof.
  unfold Frame_read, TRAILER_LEN; destruct (len bs <? 8) eqn:E; [done|].
  destruct (slice_is_Some bs (len bs - 8) (len bs - 8 + 4)) as [a ->]; [lia | lia |].
  destruct (slice_is_Some bs (len bs - 8 + 4) (len bs - 8 + 4 + 4)) as [b ->]; [lia | lia |]; res_simpl.
  pose proof (le_val_range a); pose proof (le_val_range b).
  destruct (len bs - 8 <? le_val a * 4) eqn:E2; [done|].
  destruct (le_val a =? div_ceil (le_val b) RESTART_INTERVAL) eqn:E3; [| done]; cbn [negb].
  set (f := mkFrame (len bs - 8 - le_val a * 4) (le_val a) (le_val b)).
  assert (0 <= frame_rows_end f) as Hre by (cbn; lia).
  assert (len bs = frame_rows_end f + frame_restarts f * 4 + TRAILER_LEN) as Hl by (cbn; unfold TRAILER_LEN; lia).
  eapply refuses_or_bind; [apply (frame_loop_sound bs f (seqZ 0 (le_val a)) Hre Hl)|].
  { apply Forall_forall; intros x Hx%elem_of_seqZ; cbn; lia. }
  intros [] _ Hall; cbn beta in Hall; rewrite Forall_forall in Hall; b2p; cbn [refuses_or]; unfold frame_wf.
  split_and!; [done | cbn; lia | cbn; lia | done | done |].
  intros at_ Hat; apply Hall, elem_of_seqZ; cbn in Hat; lia.
Qed.

Lemma mapm_restarts bs f l : frame_wf bs f -> Forall (fun at_ => 0 <= at_ < frame_restarts f) l ->
  exists vs, mapm (Frame_restart f bs) l = Ok vs /\ length vs = length l
    /\ Forall (fun v => 0 <= v <= frame_rows_end f) vs.
Proof.
  intros (_ & _ & _ & _ & _ & Hf); induction 1 as [|x l Hx _ IH]; cbn [mapm]; [by eexists|].
  destruct (Hf x Hx) as (v & -> & Hv); destruct IH as (vs & -> & Hl & Hvs); res_simpl.
  eexists; split_and!; [done | cbn; lia | by constructor].
Qed.

Lemma decode_sound bs shape : shape_ok shape -> refuses_or block_wf (PrefixRows_decode bs shape).
Proof.
  intros Hs; unfold PrefixRows_decode; eapply refuses_or_bind; [apply frame_read_sound|].
  intros f _ Hf; destruct (mapm_restarts bs f (seqZ 0 (frame_restarts f)) Hf) as (vs & -> & Hl & Hvs).
  { apply Forall_forall; intros x Hx%elem_of_seqZ; lia. }
  res_simpl; destruct Hf as (H0 & H1 & H2 & H3 & H4 & _); unfold TRAILER_LEN in H3.
  destruct (slice_is_Some bs 0 (frame_rows_end f)) as [packed Ep]; [lia | lia |]; rewrite Ep; res_simpl.
  apply slice_bounds in Ep; constructor; cbn [pr_restarts pr_packed pr_rows pr_tail]; [| | done | done].
  - eapply Forall_impl; [exact Hvs|]; cbn; lia.
  - rewrite length_seqZ in Hl; unfold len; rewrite Hl; lia.
Qed.

(** ** Searching any block *)

Lemma walk_cmp_sound target matched order row : 0 <= matched <= len target -> 0 <= rw_shared row ->
  (exists c, walk_cmp target matched order row = Ok c)
  /\ exists m, walk_matched target matched row = Ok m /\ 0 <= m <= len target.
Proof.
  intros Hm Hs; unfold walk_cmp, walk_matched; destruct (Z.compare_spec (rw_shared row) matched) as [E|E|E].
  - destruct (slice_from target matched) as [rest|] eqn:Er.
    + res_simpl; split; [eauto|]; eexists; split; [done|].
      destruct (shared_prefix_le rest (rw_suffix row)) as [Hle _].
      apply slice_from_Some in Er as (p & -> & <-); rewrite len_app in *; unfold len in *; lia.
    + unfold slice_from in Er; destruct (_ && _) eqn:?; [done | lia].
  - split; [| eexists; split; [done | lia]].
    destruct (rw_suffix row); [eauto|].
    destruct (get_is_Some target (rw_shared row)) as [t ->]; [lia|]; res_simpl; eauto.
  - split; eauto.
Qed.

Lemma walk_rows_sound r target end_ : block_wf r -> end_ <= len (pr_packed r) ->
  forall fuel at_ index matched order before, 0 <= at_ -> end_ - at_ <= Z.of_nat fuel ->
  0 <= matched <= len target -> len before = TAIL_CAP ->
  refuses_or (fun _ => True) (walk_rows (S fuel) r target at_ end_ index matched order before).
Proof.
  intros [_ _ _ Hs] Hend; induction fuel as [|fuel IH]; intros at_ index matched order before Hat Hf Hm Hb;
    cbn [walk_rows]; (destruct (at_ <? end_) eqn:E; [| done]); [lia|].
  eapply refuses_or_bind; [by apply read_row_sound|]; intros row _ (Hsh & Hnext & Htail).
  destruct (walk_cmp_sound target matched order row Hm Hsh) as [[c ->] (m & Em & Hm')]; res_simpl.
  destruct (slice_is_Some (rw_tail row) 0 (Tail_len (pr_tail r))) as [t Et];
    [destruct Hs; lia | destruct Hs; lia |].
  destruct c; [rewrite Et; done | rewrite Et; done |]; rewrite Em; res_simpl.
  apply IH; [lia | lia | done | done].
Qed.

Lemma walk_sound r target : block_wf r -> forall fuel block, 0 <= block < len (pr_restarts r) ->
  len (pr_restarts r) - block <= Z.of_nat fuel ->
  refuses_or (fun _ => True) (PrefixRows_walk fuel r block target).
Proof.
  intros Hr; pose proof (bw_restarts _ Hr) as Hres; rewrite Forall_forall in Hres.
  assert (forall i v, get (pr_restarts r) i = Some v -> 0 <= v <= len (pr_packed r)) as Hget.
  { intros i v (p & q & E & _)%get_Some; apply Hres; rewrite E; set_solver. }
  induction fuel as [|fuel IH]; intros block Hb Hf; [lia|]; cbn [PrefixRows_walk].
  destruct (get_is_Some (pr_restarts r) block Hb) as [at_ Eat]; rewrite Eat; apply Hget in Eat; cbn [must]; res_simpl.
  set (next := get (pr_restarts r) (block + 1)) in *.
  eapply refuses_or_bind.
  - apply walk_rows_sound; [done | | lia | | len_lia | apply len_no_tail].
    + subst next; destruct (get (pr_restarts r) (block + 1)) as [n|] eqn:En; [apply Hget in En; lia | lia].
    + fold (len (pr_packed r)); subst next; destruct (get (pr_restarts r) (block + 1)) as [n|] eqn:En;
        [apply Hget in En; lia | lia].
  - intros [f|] _ _; [done|]; subst next; destruct (get (pr_restarts r) (block + 1)) as [n|] eqn:En; [| done].
    apply get_bounds in En; apply IH; lia.
Qed.

Lemma bisect_sound r target : block_wf r -> forall fuel low high, 0 <= low <= high ->
  high <= len (pr_restarts r) -> high - low < Z.of_nat fuel ->
  refuses_or (fun l => 0 <= l <= len (pr_restarts r)) (seek_bisect fuel r target low high).
Proof.
  intros Hr; pose proof (bw_restarts _ Hr) as Hres; rewrite Forall_forall in Hres.
  induction fuel as [|fuel IH]; intros low high Hl Hh Hf; [lia|]; cbn [seek_bisect].
  destruct (low <? high) eqn:E; [| cbn; lia].
  pose proof (Z.div_mod (low + high) 2 ltac:(lia)); pose proof (Z.mod_pos_bound (low + high) 2 ltac:(lia)).
  set (mid := (low + high) / 2) in *; assert (low <= mid < high) as Hmid by lia.
  eapply (refuses_or_bind (fun _ => True)).
  - unfold PrefixRows_restart_key; destruct (get_is_Some (pr_restarts r) mid) as [at_ Eat]; [lia|].
    rewrite Eat; res_simpl; apply get_Some in Eat as (p & q & Er & _).
    eapply refuses_or_bind; [apply read_row_sound; [| apply len_no_tail | apply Hr]|].
    + assert (at_ ∈ pr_restarts r) as Hin by (rewrite Er; set_solver); apply Hres in Hin; lia.
    + intros row _ _; by destruct (_ =? 0).
  - intros key _ _; destruct (bytes_cmp key target); apply IH; lia.
Qed.

Lemma seek_sound r target : block_wf r -> refuses_or (fun _ => True) (PrefixRows_seek r target).
Proof.
  intros Hr; unfold PrefixRows_seek; destruct (pr_rows r =? 0) eqn:E0; [done|].
  pose proof (bw_count _ Hr) as Hc; pose proof (bw_rows _ Hr).
  assert (0 < len (pr_restarts r)) as Hpos by (rewrite Hc; apply Z.div_str_pos; unfold RESTART_INTERVAL; lia).
  eapply refuses_or_bind; [apply (bisect_sound r target Hr); [lia | lia | unfold len; lia]|].
  intros low _ Hlow; cbn beta in Hlow; unfold saturating_sub.
  destruct ((low >? 0) || (low =? len (pr_restarts r))) eqn:E; b2p; (apply walk_sound; [done | lia | unfold len in *; lia]).
Qed.

Lemma keys_sound r : block_wf r -> refuses_or (fun _ => True) (PrefixRows_keys r).
Proof.
  intros Hr; unfold PrefixRows_keys; pose proof (bw_rows _ Hr).
  enough (forall fuel c out, 0 <= pc_at c -> len (pc_tail c) = TAIL_CAP -> pr_rows r - pc_index c <= Z.of_nat fuel ->
    refuses_or (fun _ => True) (keys_loop (S fuel) r c out)) as H'.
  { apply H'; [done | reflexivity | cbn; lia]. }
  induction fuel as [|fuel IH]; intros c out Hat Ht Hf; rewrite keys_loop_S; unfold PrefixCursor_advance;
    (destruct (_ >=? _) eqn:E; [done|]); [lia|].
  assert (len (if is_multiple_of (pc_index c) RESTART_INTERVAL then no_tail else pc_tail c) = TAIL_CAP) as Hb
    by (destruct (is_multiple_of _ _); [reflexivity | done]).
  unfold PrefixRows_row_at; pose proof (read_row_sound (pr_packed r) (pc_at c) (pr_tail r) _ Hat Hb (bw_tail _ Hr)) as Hread.
  destruct (read_row_packed _ _ _ _) as [row|[]|]; cbn in Hread |- *; try done.
  destruct Hread as (_ & Hnext & Htail); destruct (_ >? _); [done|]; res_simpl.
  apply IH; cbn [pc_at pc_tail pc_index]; [lia | done | lia].
Qed.

Lemma unpack_sound bs shape row_len : shape_ok shape -> refuses_or (fun _ => True) (unpack bs shape row_len).
Proof.
  intros Hs; unfold unpack; eapply refuses_or_bind; [apply frame_read_sound|].
  intros f _ Hf; pose proof Hf as (H0 & H1 & H2 & H3 & H4 & Hres); unfold TRAILER_LEN in H3.
  destruct (slice_is_Some bs 0 (frame_rows_end f)) as [rb ->]; [lia | lia |]; res_simpl.
  enough (forall l u, Forall (fun i => 0 <= i < frame_rows f) l -> 0 <= up_at u -> len (up_before u) = TAIL_CAP ->
    refuses_or (fun _ => True) (foldm (unpack_row bs rb f shape row_len) l u)) as H.
  { eapply refuses_or_bind; [apply H; [| done | reflexivity]|].
    - apply Forall_forall; intros x Hx%elem_of_seqZ; lia.
    - intros u _ _; by destruct (negb _). }
  induction l as [|i l IH]; intros u Hl Hat Hb; cbn [foldm]; [done|]; apply Forall_cons in Hl as [Hi Hl].
  eapply (refuses_or_bind (fun u => 0 <= up_at u /\ len (up_before u) = TAIL_CAP)); [| intros u' _ [? ?]; by apply IH].
  unfold unpack_row; eapply (refuses_or_bind (fun b => len b = TAIL_CAP)).
  { destruct (is_multiple_of i RESTART_INTERVAL) eqn:E; [| done].
    destruct (Hres (i / RESTART_INTERVAL)) as (v & -> & _); [| res_simpl; by destruct (negb _)].
    unfold is_multiple_of, RESTART_INTERVAL, div_ceil in *; b2p; split; [apply Z.div_pos; lia|].
    rewrite H4; pose proof (Z.div_mod i 16 ltac:(lia)); pose proof (Z.div_mod (frame_rows f + 16 - 1) 16 ltac:(lia)).
    pose proof (Z.mod_pos_bound (frame_rows f + 16 - 1) 16 ltac:(lia)); lia. }
  intros before _ Hbefore; eapply refuses_or_bind; [by apply read_row_sound|].
  intros row _ (_ & Hnext & Htail); destruct (_ || _); [done|]; unfold shape_ok in Hs.
  destruct (slice_is_Some (rw_tail row) 0 (Tail_len shape)) as [t ->]; [lia | lia |]; res_simpl.
  match goal with |- context [if ?b then Err _ else _] => destruct b end; [done|].
  cbn [refuses_or up_at up_before]; split; [lia | done].
Qed.

(** Decoding a block never panics, on any bytes at all: it gives a block or a corruption. On any
    block it gives, however its rows lie, every seek and the walk over all keys return a value or a
    corruption too, and so does unpacking the bytes. *)
Lemma decoded_block_never_panics bs shape : 0 <= Tail_len shape <= TAIL_CAP ->
  refuses_or (fun r => (forall target, refuses_or (fun _ => True) (PrefixRows_seek r target))
                       /\ refuses_or (fun _ => True) (PrefixRows_keys r)) (PrefixRows_decode bs shape)
  /\ forall row_len, refuses_or (fun _ => True) (unpack bs shape row_len).
Proof.
  intros Hs; split; [| intros; by apply unpack_sound].
  eapply refuses_or_mono; [by apply decode_sound|]; intros r Hr; split; [intros; by apply seek_sound | by apply keys_sound].
Qed.

Lemma seek_lands_first_witness :
  exists r r', foldm (fun r row => PrefixRows_push r row.1 row.2) demo_prows (PrefixRows_new TailEntry) = Ok r
    /\ PrefixRows_decode (PrefixRows_encode r []) TailEntry = Ok r'
    /\ forall target, exists found, PrefixRows_seek r target = Ok found
         /\ PrefixRows_seek r' target = Ok found /\ lands demo_prows target found.
Proof. apply (seek_lands_first TailEntry demo_prows); [apply demo_prows_fit | apply demo_prows_sorted]. Defined.

(** The same seek run on the bytes: between two rows of the second block. *)
Example seek_runs :
  match foldm (fun r row => PrefixRows_push r row.1 row.2) demo_prows (PrefixRows_new TailEntry) with
  | Ok r => PrefixRows_seek r [Byte.x61; Byte.x10; Byte.x00]
  | _ => Panic
  end = Ok (Some (mkFound 17 (entry_tail (mkFooterRow 117 1088 7 0)))).
Proof. vm_compute; reflexivity. Qed.

Lemma decoded_block_never_panics_witness :
  refuses_or (fun r => (forall target, refuses_or (fun _ => True) (PrefixRows_seek r target))
                       /\ refuses_or (fun _ => True) (PrefixRows_keys r))
    (PrefixRows_decode [Byte.xff; Byte.x03; Byte.x00; Byte.x00; Byte.x00; Byte.x00; Byte.x01; Byte.x00; Byte.x00; Byte.x00;
      Byte.x02; Byte.x00; Byte.x00; Byte.x00] TailEntry).
Proof. apply decoded_block_never_panics; vm_compute; split; discriminate. Defined.
