(* ===== verification/PackedCursor.v ===== *)
(** * The cursor over a packed footer partition ([format/prefix.rs])

    [PackedCursor] decodes entry rows in place and resumes from the row it holds, or from the restart
    of the block asked for. The theorem is over any sequence of reads in any order: whatever the
    cursor was asked before, it gives the row at the index asked for. A failed read leaves the
    source's cursor part-way through a row; the model hands no cursor back then, so nothing is
    claimed of reading on from a failure. *)
From S2P Require Import Prelude Error Bytes Lsn Column Record FooterRow Varint Prefix.

Record PackedCursor := mkPackedCursor {
  pk_row : option Z;
  pk_next : Z;
  pk_key : bytes;
  pk_found : FooterRow;
}.

Definition NO_ROW : FooterRow := mkFooterRow 0 0 0 Flags_DATA.
Definition PackedCursor_default : PackedCursor := mkPackedCursor None 0 [] NO_ROW.

Definition no_restart : ReelError := Corruption "a packed footer has no restart for row {row}".
Definition bad_row : ReelError := Corruption "a packed footer row does not decode".

Definition PackedCursor_step (c : PackedCursor) (bs : bytes) : res PackedCursor :=
  '(shared, at_) ← get_varint bs (pk_next c);
  '(suffix_len, at_) ← get_varint bs at_;
  match slice bs at_ (at_ + suffix_len), shared <=? len (pk_key c) with
  | Some suffix, true =>
      let at_ := at_ + suffix_len in
      let key := take (Z.to_nat shared) (pk_key c) ++ suffix in
      flags ← ok_or (get bs at_) bad_row;
      let at_ := at_ + 1 in
      '(v, at_) ← get_varint bs at_;
      length ← u32_try_from v bad_row;
      '(v, at_) ← get_varint bs at_;
      offset ← u32_try_from (as_i64 (fr_offset (pk_found c) + unzigzag v)) bad_row;
      '(v, at_) ← get_varint bs at_;
      let lsn := u64_wrapping_add (fr_lsn (pk_found c)) (as_u64 (unzigzag v)) in
      flags ← Flags_from_bits (u8 flags);
      Ok (mkPackedCursor (pk_row c) at_ key (mkFooterRow lsn offset length flags))
  | _, _ => Err bad_row
  end.

(** [while let Some(held) = self.row.filter(|held| *held < row)], at most a block's rows. *)
Fixpoint read_on (fuel : nat) (bs : bytes) (row : Z) (c : PackedCursor) : res PackedCursor :=
  match fuel with
  | O => Panic
  | S fuel =>
      match pk_row c with
      | Some held =>
          if held <? row then
            c ← PackedCursor_step c bs;
            read_on fuel bs row (mkPackedCursor (Some (held + 1)) (pk_next c) (pk_key c) (pk_found c))
          else Ok c
      | None => Ok c
      end
  end.

Definition PackedCursor_read (c : PackedCursor) (bs : bytes) (restart : Z -> option Z) (row : Z)
    : res (PackedCursor * (bytes * FooterRow)) :=
  let block := row / RESTART_INTERVAL in
  let resumes := match pk_row c with
                 | Some held => (held <=? row) && (held / RESTART_INTERVAL =? block)
                 | None => false
                 end in
  c ← (if negb resumes then
         at_ ← ok_or (restart block) no_restart;
         c ← PackedCursor_step (mkPackedCursor (pk_row c) at_ [] NO_ROW) bs;
         Ok (mkPackedCursor (Some (block * RESTART_INTERVAL)) (pk_next c) (pk_key c) (pk_found c))
       else Ok c);
  c ← read_on (Z.to_nat RESTART_INTERVAL) bs row c;
  Ok (c, (pk_key c, pk_found c)).

(** ** The two decoders agree *)

Definition tail_row (t : bytes) (flags : Flags) : FooterRow :=
  mkFooterRow (tail_lsn t) (tail_offset t) (tail_length t) flags.

Lemma before_fields before : len before = TAIL_CAP ->
  u32_at before OFFSET_AT = Ok (tail_offset before) /\ u64_at before 0 = Ok (tail_lsn before).
Proof.
  intros (a & b & r & -> & Ha & Hb)%before_split.
  rewrite tail_offset_app, tail_lsn_app, u64_at_0, u32_at_mid by (done || unfold len, OFFSET_AT; lia); done.
Qed.

Lemma entry_fields lsn offset length f :
  is_u64 lsn -> is_u32 offset -> is_u32 length ->
  let t := put (put (put (put no_tail 16 [f]) 0 (u64_le lsn)) 8 (u32_le offset)) 12 (u32_le length) in
  tail_lsn t = lsn /\ tail_offset t = offset /\ tail_length t = length /\ tail_flags t = f.
Proof.
  intros Hl Ho Hn t; subst t; rewrite entry_whole_fields by reflexivity; unfold whole; rewrite <- !app_assoc.
  rewrite tail_lsn_app, tail_offset_app, tail_length_app, le_val_u64, !le_val_u32 by done.
  split_and!; done.
Qed.

(** On any bytes the cursor's step decodes the row [read_row] decodes, when it holds the row the tail
    is read against. *)
Lemma step_read_row c bs before row :
  read_row_packed bs (pk_next c) TailEntry before = Ok row -> 0 <= pk_next c -> len before = TAIL_CAP ->
  fr_offset (pk_found c) = tail_offset before -> fr_lsn (pk_found c) = tail_lsn before ->
  rw_shared row <= len (pk_key c) ->
  PackedCursor_step c bs =
    flags ← Flags_from_bits (u8 (tail_flags (rw_tail row)));
    Ok (mkPackedCursor (pk_row c) (rw_next row)
         (take (Z.to_nat (rw_shared row)) (pk_key c) ++ rw_suffix row) (tail_row (rw_tail row) flags)).
Proof.
  intros E Hat Hb Ho Hl Hs; destruct (before_fields before Hb) as [Eo El].
  unfold read_row_packed, get_tail in E; rewrite Eo, El in E; unfold PackedCursor_step.
  pose proof (get_varint_sound bs (pk_next c) Hat) as S1.
  destruct (get_varint bs (pk_next c)) as [[shared at1]|e|]; cbn [mbind res_bind] in E; [|done|done]; cbn [refuses_or fst snd mbind res_bind] in E, S1 |- *.
  destruct S1 as [_ S1]; pose proof (get_varint_sound bs at1 ltac:(lia)) as S2.
  destruct (get_varint bs at1) as [[n at2]|e|]; cbn [mbind res_bind] in E; [|done|done]; cbn [refuses_or fst snd mbind res_bind] in E, S2 |- *.
  destruct (slice bs at2 (at2 + n)) as [suffix|]; [| discriminate E]; cbn [mbind res_bind ok_or] in E |- *.
  destruct (get bs (at2 + n)) as [f|] eqn:Ef; [| discriminate E]; cbn [mbind res_bind ok_or] in E |- *; apply get_bounds in Ef.
  pose proof (get_varint_sound bs (at2 + n + 1) ltac:(lia)) as S3.
  destruct (get_varint bs (at2 + n + 1)) as [[v3 at3]|e|]; cbn [mbind res_bind] in E; [|done|done]; cbn [refuses_or fst snd mbind res_bind] in E, S3 |- *.
  unfold u32_try_from in *; destruct ((0 <=? v3) && (v3 <? U32)) eqn:E3; [| discriminate E]; cbn [mbind res_bind ok_or] in E |- *.
  pose proof (get_varint_sound bs at3 ltac:(lia)) as S4.
  destruct (get_varint bs at3) as [[v4 at4]|e|]; cbn [mbind res_bind] in E; [|done|done]; cbn [refuses_or fst snd mbind res_bind] in E, S4 |- *.
  rewrite Ho, Hl; set (o := as_i64 (tail_offset before + unzigzag v4)) in *.
  destruct ((0 <=? o) && (o <? U32)) eqn:E4; [| discriminate E]; cbn [mbind res_bind ok_or] in E |- *.
  destruct (get_varint bs at4) as [[v5 at5]|e|]; cbn [mbind res_bind] in E; [|done|done]; cbn [mbind res_bind] in E |- *.
  injection E as <-; cbn [rw_shared rw_next rw_suffix rw_tail] in *.
  destruct (shared <=? len (pk_key c)) eqn:Es; [| b2p; lia].
  set (lsn := u64_wrapping_add _ _); b2p.
  destruct (entry_fields lsn o v3 f) as (F1 & F2 & F3 & F4); [apply Z.mod_pos_bound; done | by split | by split |].
  unfold tail_row; rewrite F1, F2, F3, F4; by destruct (Flags_from_bits (u8 f)).
Qed.

(** ** Reading any row from any state *)

Abbreviation erow := (bytes * FooterRow)%type (only parsing).

Definition erow_ok (e : erow) : Prop := len e.1 < U64 /\ footer_row_wf e.2.
Definition prow_of (e : erow) : prow := (e.1, entry_tail e.2).

Lemma erow_ok_row e : erow_ok e -> row_ok TailEntry (prow_of e).
Proof. intros [Hk _]; split; [done|]; split; [done | vm_compute; discriminate]. Qed.

Lemma erows_ok es : Forall erow_ok es -> Forall (row_ok TailEntry) (map prow_of es).
Proof. intros H; apply Forall_map; eapply Forall_impl; [exact H | apply erow_ok_row]. Qed.

Lemma entry_tail_fields r : footer_row_wf r ->
  tail_lsn (whole (entry_tail r)) = fr_lsn r /\ tail_offset (whole (entry_tail r)) = fr_offset r
  /\ tail_length (whole (entry_tail r)) = fr_len r
  /\ Flags_from_bits (u8 (tail_flags (whole (entry_tail r)))) = Ok (fr_flags r).
Proof.
  intros [Hl Ho Hn [Hf Hfb]]; unfold whole, entry_tail; rewrite <- !app_assoc.
  rewrite tail_lsn_app, tail_offset_app, tail_length_app, le_val_u64, !le_val_u32 by done.
  split_and!; [done | done | done |].
  change (tail_flags _) with (byte_of (fr_flags r)); by rewrite u8_byte_of_small.
Qed.

(** The row the tail at index [length es] is kept against. *)
Definition row_before (es : list erow) : FooterRow :=
  if is_restart (length es) then NO_ROW else from_option snd NO_ROW (last es).

Lemma row_before_tail es : Forall erow_ok es ->
  fr_offset (row_before es) = tail_offset (tail_before (map prow_of es))
  /\ fr_lsn (row_before es) = tail_lsn (tail_before (map prow_of es)).
Proof.
  intros Hok; unfold row_before, tail_before; rewrite length_map; destruct (is_restart _); [done|].
  unfold last_whole; rewrite last_fmap || rewrite fmap_last.
  destruct (last es) as [e|] eqn:E; [| done]; cbn [from_option fmap option_fmap option_map snd prow_of].
  apply last_Some_elem_of in E; rewrite Forall_forall in Hok; apply Hok in E as [_ Hw].
  destruct (entry_tail_fields e.2 Hw) as (E1 & E2 & _); by rewrite E1, E2.
Qed.

(** What a cursor over these rows may hold: nothing, or one of the rows with its place. *)
Definition holds_row (es : list erow) (c : PackedCursor) (i : nat) : Prop :=
  pk_row c = Some (Z.of_nat i)
  /\ pk_next c = len (packed TailEntry (map prow_of (take (S i) es)))
  /\ es !! i = Some (pk_key c, pk_found c).

Definition cursor_ok (es : list erow) (c : PackedCursor) : Prop :=
  pk_row c = None \/ exists i, holds_row es c i.

(** One step from the state the row is kept against. *)
Lemma step_at es q c (i : nat) e : Forall erow_ok es -> es !! i = Some e ->
  pk_next c = len (packed TailEntry (map prow_of (take i es))) ->
  pk_key c = key_before (map prow_of (take i es)) -> pk_found c = row_before (take i es) ->
  PackedCursor_step c (packed TailEntry (map prow_of es) ++ q)
  = Ok (mkPackedCursor (pk_row c) (len (packed TailEntry (map prow_of (take (S i) es)))) e.1 e.2).
Proof.
  intros Hok He Hn Hk Hf; set (r1 := map prow_of (take i es)) in *.
  assert (map prow_of es = r1 ++ prow_of e :: map prow_of (drop (S i) es)) as Esplit
    by (rewrite <- (take_drop_middle es i e He) at 1; by rewrite map_app).
  assert (map prow_of (take (S i) es) = r1 ++ [prow_of e]) as Etake
    by (rewrite (take_S_r _ _ _ He), map_app; done).
  pose proof (erows_ok _ Hok) as Hrows; rewrite Esplit in Hrows |- *.
  assert (erow_ok e) as [Hkey Hw] by (rewrite Forall_forall in Hok; apply Hok; by eapply list_elem_of_lookup_2).
  assert (Forall erow_ok (take i es)) as Hr1 by (by apply Forall_take).
  assert (read_row_packed (packed TailEntry (r1 ++ prow_of e :: map prow_of (drop (S i) es)) ++ q) (pk_next c)
    TailEntry (tail_before r1) = Ok (row_read TailEntry r1 (prow_of e))) as Eread.
  { rewrite packed_split, <- !app_assoc, Hn; apply Forall_app in Hrows as [Ho [Hrow _]%Forall_cons].
    rewrite read_packed_row by (done || by eapply len_tail_before).
    unfold row_read; by rewrite packed_snoc, len_app. }
  destruct (row_before_tail (take i es) Hr1) as [Eo El]; fold r1 in Eo, El.
  rewrite (step_read_row c _ (tail_before r1) (row_read TailEntry r1 (prow_of e)) Eread).
  - cbn [row_read rw_tail prow_of fst snd]; destruct (entry_tail_fields e.2 Hw) as (F1 & F2 & F3 & ->); res_simpl.
    unfold tail_row; rewrite F1, F2, F3, Hk, Etake; cbn [row_read rw_shared rw_suffix rw_next].
    rewrite Nat2Z.id, shared_prefix_join; by destruct e as [k []].
  - rewrite Hn; len_lia.
  - apply (len_tail_before TailEntry), erows_ok, Hr1.
  - by rewrite Hf.
  - by rewrite Hf.
  - cbn [row_read rw_shared]; rewrite Hk.
    destruct (shared_prefix_le (key_before r1) (prow_of e).1); unfold len; lia.
Qed.

Lemma holds_before es c i : holds_row es c i -> is_restart (S i) = false ->
  pk_key c = key_before (map prow_of (take (S i) es)) /\ pk_found c = row_before (take (S i) es).
Proof.
  intros (_ & _ & He) Hr; unfold key_before, row_before; pose proof (lookup_lt_Some _ _ _ He).
  rewrite length_map, length_take, Nat.min_l, Hr by lia; rewrite (take_S_r _ _ _ He), map_app.
  cbn [map]; by rewrite last_key_snoc, last_snoc.
Qed.

Lemma same_block_restart (i row : nat) : (i < row)%nat ->
  Z.of_nat i / RESTART_INTERVAL = Z.of_nat row / RESTART_INTERVAL -> is_restart (S i) = false.
Proof.
  intros Hlt Hb; unfold RESTART_INTERVAL in Hb; pose proof (is_restart_spec (S i)) as Hs.
  destruct (is_restart (S i)); [| done]; destruct Hs as [m Hm].
  pose proof (Z.div_mod (Z.of_nat i) 16 ltac:(lia)); pose proof (Z.mod_pos_bound (Z.of_nat i) 16 ltac:(lia)).
  pose proof (Z.div_mod (Z.of_nat row) 16 ltac:(lia)); pose proof (Z.mod_pos_bound (Z.of_nat row) 16 ltac:(lia)).
  lia.
Qed.

Lemma read_on_holds es q (row : nat) : Forall erow_ok es -> (row < length es)%nat ->
  forall fuel c i, holds_row es c i -> (i <= row)%nat ->
  Z.of_nat i / RESTART_INTERVAL = Z.of_nat row / RESTART_INTERVAL -> (row - i < fuel)%nat ->
  exists c', read_on fuel (packed TailEntry (map prow_of es) ++ q) (Z.of_nat row) c = Ok c' /\ holds_row es c' row.
Proof.
  intros Hok Hrow; induction fuel as [|fuel IH]; intros c i Hc Hi Hb Hf; [lia|]; cbn [read_on].
  pose proof Hc as (Er & En & He); rewrite Er.
  destruct (Z.of_nat i <? Z.of_nat row) eqn:E.
  2:{ assert (i = row) as -> by lia; eauto. }
  destruct (lookup_lt_is_Some_2 es (S i)) as [e Hse]; [lia|].
  destruct (holds_before es c i Hc) as [Hk Hfd]; [apply (same_block_restart i row); [lia | done]|].
  rewrite (step_at es q c (S i) e) by done; res_simpl; cbn [pk_next pk_key pk_found].
  apply (IH _ (S i)); [| lia | | lia].
  - unfold holds_row; cbn; split_and!; [f_equal; lia | done | by destruct e].
  - unfold RESTART_INTERVAL in *; pose proof (Z.div_le_mono (Z.of_nat i) (Z.of_nat (S i)) 16 ltac:(lia) ltac:(lia)).
    pose proof (Z.div_le_mono (Z.of_nat (S i)) (Z.of_nat row) 16 ltac:(lia) ltac:(lia)); lia.
Qed.

Definition restart_of (es : list erow) (block : Z) : option Z :=
  get (restart_offsets TailEntry (map prow_of es)) block.

Lemma block_of_row (row : nat) : exists j : nat,
  Z.of_nat row / RESTART_INTERVAL = Z.of_nat j /\ (16 * j <= row < 16 * j + 16)%nat.
Proof.
  exists (Z.to_nat (Z.of_nat row / 16)); unfold RESTART_INTERVAL.
  pose proof (Z.div_mod (Z.of_nat row) 16 ltac:(lia)); pose proof (Z.mod_pos_bound (Z.of_nat row) 16 ltac:(lia)); lia.
Qed.

Lemma read_from_any es q c (row : nat) e : Forall erow_ok es -> cursor_ok es c -> es !! row = Some e ->
  exists c', PackedCursor_read c (packed TailEntry (map prow_of es) ++ q) (restart_of es) (Z.of_nat row)
    = Ok (c', e) /\ cursor_ok es c'.
Proof.
  intros Hok Hc He; pose proof (lookup_lt_Some _ _ _ He) as Hlt; set (bs := _ ++ q).
  destruct (block_of_row row) as (j & Ej & Hj).
  assert (exists c1 i, (if negb (match pk_row c with
                 | Some held => (held <=? Z.of_nat row) && (held / RESTART_INTERVAL =? Z.of_nat row / RESTART_INTERVAL)
                 | None => false end)
     then at_ ← ok_or (restart_of es (Z.of_nat row / RESTART_INTERVAL)) no_restart;
          c ← PackedCursor_step (mkPackedCursor (pk_row c) at_ [] NO_ROW) bs;
          Ok (mkPackedCursor (Some (Z.of_nat row / RESTART_INTERVAL * RESTART_INTERVAL)) (pk_next c) (pk_key c) (pk_found c))
     else Ok c) = Ok c1 /\ holds_row es c1 i /\ (i <= row)%nat /\ Z.of_nat i / RESTART_INTERVAL = Z.of_nat row / RESTART_INTERVAL
     /\ (row - i < 16)%nat) as (c1 & i & E1 & Hh & Hi & Hb & Hf).
  { destruct (match pk_row c with Some held => _ | None => false end) eqn:Er; cbn [negb].
    - destruct Hc as [Hc|(i & Hc)]; [by rewrite Hc in Er|]; pose proof Hc as (Ei & _ & _); rewrite Ei in Er; b2p.
      exists c, i; split_and!; [done | done | lia | done |]; unfold RESTART_INTERVAL in *.
      pose proof (Z.div_mod (Z.of_nat i) 16 ltac:(lia)); pose proof (Z.mod_pos_bound (Z.of_nat i) 16 ltac:(lia)); lia.
    - clear Er; rewrite Ej; unfold restart_of; rewrite get_lookup, restart_offsets_lookup.
      2:{ rewrite length_map; pose proof (block_count_bounds (length es)); lia. }
      res_simpl; destruct (lookup_lt_is_Some_2 es (16 * j)) as [e0 He0]; [lia|]; subst bs.
      rewrite (step_at es q _ (16 * j) e0); [| done | done | | |].
      + res_simpl; cbn [pk_next pk_key pk_found]; eexists _, (16 * j)%nat; split; [done|]; unfold holds_row; cbn [pk_row pk_next pk_key pk_found].
        split_and!; [f_equal; unfold RESTART_INTERVAL; lia | done | by destruct e0 | lia | | lia].
        unfold RESTART_INTERVAL; symmetry; apply Z.div_unique with 0; lia.
      + cbn [pk_next]; unfold restart_offset; by rewrite firstn_map.
      + cbn [pk_key]; unfold key_before; by rewrite length_map, length_take, Nat.min_l, is_restart_block by lia.
      + cbn [pk_found]; unfold row_before; by rewrite length_take, Nat.min_l, is_restart_block by lia. }
  unfold PackedCursor_read; rewrite E1; res_simpl.
  destruct (read_on_holds es q row Hok Hlt (Z.to_nat RESTART_INTERVAL) c1 i Hh Hi Hb Hf) as (c2 & E2 & Hh2).
  fold bs in E2; rewrite E2; res_simpl; exists c2; split; [| right; eauto].
  destruct Hh2 as (_ & _ & He2); rewrite He in He2; injection He2 as ->; done.
Qed.

(** A run of reads through one cursor, in whatever order they come. *)
Fixpoint read_all (c : PackedCursor) (bs : bytes) (restart : Z -> option Z) (asked : list Z) : res (list erow) :=
  match asked with
  | [] => Ok []
  | row :: asked =>
      '(c, e) ← PackedCursor_read c bs restart row;
      es ← read_all c bs restart asked;
      Ok (e :: es)
  end.

(** over a packed partition of entry rows one cursor, read at any indices in any order, forwards,
    backwards, across blocks or the same row again, gives each time the key and the record fields of
    exactly the row asked for. *)
Lemma cursor_reads_any_order es q asked : Forall erow_ok es ->
  Forall (fun i => (i < length es)%nat) asked ->
  exists out, read_all PackedCursor_default (packed TailEntry (map prow_of es) ++ q) (restart_of es)
                (map Z.of_nat asked) = Ok out
    /\ map Some out = map (fun i => es !! i) asked.
Proof.
  intros Hok Hin; enough (forall c, cursor_ok es c -> exists out,
    read_all c (packed TailEntry (map prow_of es) ++ q) (restart_of es) (map Z.of_nat asked) = Ok out
    /\ map Some out = map (fun i => es !! i) asked) as H by (apply H; by left).
  induction Hin as [|i asked Hi _ IH]; intros c Hc; cbn [map read_all]; [by exists []|].
  destruct (lookup_lt_is_Some_2 es i Hi) as [e He].
  destruct (read_from_any es q c i e Hok Hc He) as (c' & -> & Hc'); res_simpl.
  destruct (IH c' Hc') as (out & -> & Eout); res_simpl; exists (e :: out); cbn [map]; by rewrite Eout, He.
Qed.

Definition demo_erows : list erow :=
  map (fun i => ([Byte.x61; byte_of (Z.of_nat i)], mkFooterRow (100 + Z.of_nat i) (Z.of_nat i * 64) 7 0)) (seq 0 18).

Lemma demo_erows_ok : Forall erow_ok demo_erows.
Proof.
  apply Forall_forall; intros e (i & -> & Hi%elem_of_seq)%list_elem_of_fmap; split; [reflexivity|].
  constructor; cbn [fr_lsn fr_offset fr_len fr_flags snd]; unfold is_u64, is_u32, U64, U32; try lia.
  split; [widths | reflexivity].
Qed.

Lemma cursor_reads_any_order_witness :
  exists out, read_all PackedCursor_default (packed TailEntry (map prow_of demo_erows) ++ [Byte.xff])
                (restart_of demo_erows) (map Z.of_nat [17; 3; 4; 4; 16]%nat) = Ok out
    /\ map Some out = map (fun i => demo_erows !! i) [17; 3; 4; 4; 16]%nat.
Proof.
  apply (cursor_reads_any_order demo_erows [Byte.xff] [17; 3; 4; 4; 16]%nat demo_erows_ok).
  repeat constructor; cbn; lia.
Defined.
