(* ===== verification/Partition.v ===== *)
(** * One column's rows in a footer ([format/footer.rs])

    [FooterPartition]: rows appended one at a time, striding while every key is one width and with a
    table of starts once they are not; sorted at seal; searched by bisection after. The theorems
    show each operation in terms of the list of rows the partition holds. *)
From S2P Require Import Prelude Error Bytes Lsn Column Record Filter FooterRow Varint Prefix PackedCursor.

Definition VARYING_WIDTH : Z := 65535.
Definition START_BYTES : Z := U32_BYTES.

Inductive FooterFind :=
| RuledOut
| Missing
| FoundRow (row : FooterRow).

Record FooterPartition := mkFooterPartition {
  fp_column : ColumnId;
  fp_key_width : Z;
  fp_packed : bytes;
  fp_starts : list Z;
  fp_filter : option Filter;
  fp_is_packed : bool;
}.

Definition FooterPartition_new (column : ColumnId) (key_width : Z) : FooterPartition :=
  let starts := if key_width =? VARYING_WIDTH then [0] else [] in
  mkFooterPartition column key_width [] starts None (key_width =? VARYING_WIDTH).

Definition FooterPartition_encoded_len (p : FooterPartition) : Z :=
  len (fp_starts p) * START_BYTES + len (fp_packed p).

Definition FooterPartition_is_varying (p : FooterPartition) : bool := fp_key_width p =? VARYING_WIDTH.

Definition FooterPartition_stride (p : FooterPartition) : Z := fp_key_width p + ENTRY_TAIL_LEN.

Definition FooterPartition_len (p : FooterPartition) : Z :=
  if FooterPartition_is_varying p then saturating_sub (len (fp_starts p)) 1
  else len (fp_packed p) / FooterPartition_stride p.

Definition FooterPartition_is_empty (p : FooterPartition) : bool := len (fp_packed p) =? 0.

Definition FooterPartition_stop_striding (p : FooterPartition) : FooterPartition :=
  if FooterPartition_is_varying p then p else
  let stride := FooterPartition_stride p in
  let rows := FooterPartition_len p in
  mkFooterPartition (fp_column p) VARYING_WIDTH (fp_packed p)
    (map (fun row => as_u32 (row * stride)) (seqZ 0 (rows + 1))) (fp_filter p) true.

Definition FooterPartition_row_span (p : FooterPartition) (index : Z) : option (Z * Z) :=
  if FooterPartition_is_varying p then
    start ← get (fp_starts p) index;
    end_ ← get (fp_starts p) (index + 1);
    if (end_ >=? start) && (end_ <=? len (fp_packed p)) then Some (start, end_) else None
  else
    let stride := FooterPartition_stride p in
    let start := index * stride in
    let end_ := start + stride in
    if end_ <=? len (fp_packed p) then Some (start, end_) else None.

Definition FooterPartition_key_len (p : FooterPartition) (index : Z) : option Z :=
  if negb (FooterPartition_is_varying p) then Some (fp_key_width p) else
  '(start, end_) ← FooterPartition_row_span p index;
  if end_ - start <? ENTRY_TAIL_LEN then None else Some (end_ - start - ENTRY_TAIL_LEN).

Definition FooterPartition_push (p : FooterPartition) (entry : FooterEntry) : FooterPartition :=
  let packed := fp_packed p ++ RecordKey_as_slice (fe_key entry) in
  let packed := packed ++ Lsn_pack (fe_lsn entry) in
  let packed := packed ++ u32_le (fe_offset entry) in
  let packed := packed ++ u32_le (fe_len entry) in
  let packed := packed ++ [byte_of (fe_flags entry)] in
  let starts := if FooterPartition_is_varying p then fp_starts p ++ [as_u32 (len packed)] else fp_starts p in
  mkFooterPartition (fp_column p) (fp_key_width p) packed starts (fp_filter p) (fp_is_packed p).

Definition out_of_range : ReelError := Corruption "footer row is out of range".

Definition FooterPartition_row_bytes (p : FooterPartition) (index : Z) : res bytes :=
  '(start, end_) ← ok_or (FooterPartition_row_span p index) out_of_range;
  ok_or (slice (fp_packed p) start end_) out_of_range.

Definition FooterPartition_row_at (p : FooterPartition) (index : Z) : res FooterRow :=
  width ← ok_or (FooterPartition_key_len p index) out_of_range;
  row ← FooterPartition_row_bytes p index;
  FooterRow_read row width.

Definition FooterPartition_entry_at (p : FooterPartition) (index : Z) : res FooterEntry :=
  width ← ok_or (FooterPartition_key_len p index) out_of_range;
  row ← FooterPartition_row_bytes p index;
  key_bytes ← must (slice row 0 width);
  key ← map_err (fun _ => Corruption "{error}") (RecordKey_from_bytes (fp_column p) key_bytes);
  r ← FooterRow_read row width;
  Ok (FooterRow_into_entry r key).

Definition FooterPartition_entries (p : FooterPartition) : list (res FooterEntry) :=
  map (FooterPartition_entry_at p) (seqZ 0 (FooterPartition_len p)).

Definition FooterPartition_lsn_at (p : FooterPartition) (index : Z) : Z :=
  match FooterPartition_row_span p index, FooterPartition_key_len p index with
  | Some (start, _), Some width =>
      let at_ := start + width in
      match slice (fp_packed p) at_ (at_ + U64_BYTES) with
      | Some b => read_u64_le b
      | None => 0
      end
  | _, _ => 0
  end.

Definition FooterPartition_key_at (p : FooterPartition) (index : Z) : option bytes :=
  '(start, _) ← FooterPartition_row_span p index;
  width ← FooterPartition_key_len p index;
  slice (fp_packed p) start (start + width).

Definition FooterPartition_widest_key (p : FooterPartition) : Z :=
  if negb (FooterPartition_is_varying p) then fp_key_width p
  else foldr Z.max 0 (omap (FooterPartition_key_len p) (seqZ 0 (FooterPartition_len p))).

(** ** Searching *)

(** The [while low < high] loop: the window halves, so its width in turns is enough. *)
Fixpoint bound_loop (fuel : nat) (p : FooterPartition) (key : bytes) (past_equal : bool) (low high : Z) : option Z :=
  match fuel with
  | O => None
  | S fuel =>
      if low <? high then
        let middle := low + (high - low) / 2 in
        match FooterPartition_key_at p middle with
        | None => Some (FooterPartition_len p)
        | Some found =>
            let is_below := if past_equal then bytes_leb found key else bytes_ltb found key in
            if is_below then bound_loop fuel p key past_equal (middle + 1) high
            else bound_loop fuel p key past_equal low middle
        end
      else Some low
  end.

Definition FooterPartition_bound_within (p : FooterPartition) (key : bytes) (low high : Z) (past_equal : bool) : Z :=
  let high := Z.min high (FooterPartition_len p) in
  default 0 (bound_loop (S (Z.to_nat (high - low))) p key past_equal low high).

Definition FooterPartition_bound (p : FooterPartition) (key : bytes) (past_equal : bool) : Z :=
  FooterPartition_bound_within p key 0 (FooterPartition_len p) past_equal.

Definition FooterPartition_lower_bound (p : FooterPartition) (key : bytes) : Z := FooterPartition_bound p key false.
Definition FooterPartition_upper_bound (p : FooterPartition) (key : bytes) : Z := FooterPartition_bound p key true.

(** [checked_sub(1)] *)
Definition checked_pred (z : Z) : option Z := if z <? 1 then None else Some (z - 1).

Definition FooterPartition_locate (p : FooterPartition) (key : bytes) : option Z :=
  at_ ← checked_pred (FooterPartition_upper_bound p key);
  k ← FooterPartition_key_at p at_;
  if bytes_eqb k key then Some at_ else None.

Definition FooterPartition_find (p : FooterPartition) (key : bytes) : option (res FooterEntry) :=
  at_ ← FooterPartition_locate p key; Some (FooterPartition_entry_at p at_).

Definition FooterPartition_find_row (p : FooterPartition) (key : bytes) : option (res FooterRow) :=
  at_ ← FooterPartition_locate p key; Some (FooterPartition_row_at p at_).

Definition FooterPartition_run (p : FooterPartition) (index : Z) : option (Z * Z) :=
  key ← FooterPartition_key_at p index;
  let first := match (before ← checked_pred index; FooterPartition_key_at p before) with
               | Some before => if bytes_eqb before key then FooterPartition_lower_bound p key else index
               | None => index
               end in
  last ← (if bool_decide (FooterPartition_key_at p (index + 1) = Some key)
          then checked_pred (FooterPartition_upper_bound p key) else Some index);
  Some (first, last).

Definition FooterPartition_key_range (p : FooterPartition) : option (bytes * bytes) :=
  let count := FooterPartition_len p in
  if count =? 0 then None else
  first ← FooterPartition_key_at p 0;
  last ← FooterPartition_key_at p (count - 1);
  Some (first, last).

(** ** Filters *)

Definition FooterPartition_may_hold (p : FooterPartition) (key : bytes) : res bool :=
  match fp_filter p with
  | Some filter => Filter_may_hold filter key
  | None => Ok true
  end.

Definition FooterPartition_lookup (p : FooterPartition) (key : bytes) : res FooterFind :=
  may ← FooterPartition_may_hold p key;
  if negb may then Ok RuledOut else
  match FooterPartition_find_row p key with
  | None => Ok Missing
  | Some row => row ← row; Ok (FoundRow row)
  end.

Definition FooterPartition_build_filter (p : FooterPartition) (bits_per_key : Z) : res FooterPartition :=
  let rows := FooterPartition_len p in
  let keys := omap (FooterPartition_key_at p) (seqZ 0 rows) in
  filter ← Filter_build keys rows bits_per_key;
  Ok (mkFooterPartition (fp_column p) (fp_key_width p) (fp_packed p) (fp_starts p) filter (fp_is_packed p)).

(** ** Sorting *)

Fixpoint in_key_order_loop (p : FooterPartition) (before : bytes) (ats : list Z) : bool :=
  match ats with
  | [] => true
  | at_ :: ats =>
      match FooterPartition_key_at p at_ with
      | None => false
      | Some here =>
          match bytes_cmp before here with
          | Lt => in_key_order_loop p here ats
          | Gt => false
          | Eq =>
              if FooterPartition_lsn_at p (at_ - 1) >=? FooterPartition_lsn_at p at_ then false
              else in_key_order_loop p here ats
          end
      end
  end.

Definition FooterPartition_in_key_order (p : FooterPartition) : bool :=
  let count := FooterPartition_len p in
  match FooterPartition_key_at p 0 with
  | None => true
  | Some before => in_key_order_loop p before (seqZ 1 (count - 1))
  end.

(** The loop stops early at nothing shared, which the minimum keeps at nothing. *)
Definition FooterPartition_shared_prefix (p : FooterPartition) : nat :=
  match FooterPartition_key_at p 0 with
  | None => O
  | Some first =>
      fold_left (fun shared at_ =>
        if (shared =? 0)%nat then shared
        else Nat.min shared (shared_prefix first (default [] (FooterPartition_key_at p at_))))
        (seqZ 1 (FooterPartition_len p - 1)) (length first)
  end.

Definition FooterPartition_key_head (p : FooterPartition) (index : Z) (shared : nat) : Z :=
  let key := default [] (FooterPartition_key_at p index) in
  let rest := default [] (slice_from key (Z.of_nat shared)) in
  let head := zeros (Z.to_nat U64_BYTES) in
  let held := Z.min (len rest) U64_BYTES in
  be_val (put head 0 (take (Z.to_nat held) rest)).

(** The closure the sort compares two rows by: their heads, then their keys, then their numbers. *)
Definition order_cmp (p : FooterPartition) (l r : Z * Z) : comparison :=
  match l.1 ?= r.1 with
  | Eq =>
      match bytes_cmp (default [] (FooterPartition_key_at p l.2)) (default [] (FooterPartition_key_at p r.2)) with
      | Eq => FooterPartition_lsn_at p l.2 ?= FooterPartition_lsn_at p r.2
      | c => c
      end
  | c => c
  end.

Definition order_le (p : FooterPartition) (l r : Z * Z) : Prop := order_cmp p l r <> Gt.

Global Instance order_le_dec p : RelDecision (order_le p).
Proof. intros l r; unfold order_le; apply _. Defined.

(** The permute: each row copied out in its new place. *)
Definition permute_row (p : FooterPartition) (out : bytes * list Z) (index : Z) : res (bytes * list Z) :=
  let '(sorted, starts) := out in
  let '(start, end_) := default (0, 0) (FooterPartition_row_span p index) in
  row ← must (slice (fp_packed p) start end_);
  let sorted := sorted ++ row in
  Ok (sorted, if FooterPartition_is_varying p then starts ++ [as_u32 (len sorted)] else starts).

(** [sort_unstable_by] is [merge_sort] over the same order: rows it could tell apart only by their
    place are equal in key and in number. *)
Definition FooterPartition_sort (p : FooterPartition) : res FooterPartition :=
  if FooterPartition_in_key_order p then Ok p else
  let count := FooterPartition_len p in
  let shared := FooterPartition_shared_prefix p in
  let order := map (fun at_ => (FooterPartition_key_head p at_ shared, at_)) (seqZ 0 (as_u32 count)) in
  let order := merge_sort (order_le p) order in
  let starts := if FooterPartition_is_varying p then [0] else [] in
  '(sorted, starts) ← foldm (permute_row p) (map snd order) ([], starts);
  Ok (mkFooterPartition (fp_column p) (fp_key_width p) sorted
       (if FooterPartition_is_varying p then starts else fp_starts p) (fp_filter p) (fp_is_packed p)).

(** ** The rows a partition holds *)

Abbreviation flat_of es := (flat (map prow_of es)).

Record part_rep (p : FooterPartition) (es : list erow) : Prop := {
  pp_packed : fp_packed p = flat_of es;
  pp_starts : fp_starts p = if FooterPartition_is_varying p then flat_starts (map prow_of es) else [];
  pp_width : 0 <= fp_key_width p;
  pp_keys : FooterPartition_is_varying p = false -> Forall (fun e => len e.1 = fp_key_width p) es;
  pp_rows : Forall (fun e => footer_row_wf e.2) es;
  pp_fits : len (fp_packed p) < U32;
}.

Lemma len_flat_snoc es e : len (flat_of (es ++ [e])) = len (flat_of es) + len e.1 + ENTRY_TAIL_LEN.
Proof.
  rewrite map_app; cbn [map]; rewrite flat_snoc; cbn [prow_of fst snd].
  rewrite !len_app, len_entry_tail; lia.
Qed.

Lemma len_flat_strided w es : Forall (fun e => len e.1 = w) es -> len (flat_of es) = len es * (w + ENTRY_TAIL_LEN).
Proof.
  induction es as [|e es IH] using rev_ind; [done|]; intros [H1 [H2 _]%Forall_cons]%Forall_app.
  rewrite len_flat_snoc, IH, H2, len_app by done; change (len [e]) with 1; lia.
Qed.

Lemma flat_split es i e : es !! i = Some e ->
  flat_of es = flat_of (take i es) ++ e.1 ++ entry_tail e.2 ++ flat_of (drop (S i) es).
Proof.
  intros He; rewrite <- (take_drop_middle es i e He) at 1; rewrite map_app, flat_app; f_equal.
  cbn [map]; unfold flat; cbn [map concat prow_of fst snd]; by rewrite <- app_assoc.
Qed.

Lemma take_S_flat es i e : es !! i = Some e ->
  len (flat_of (take (S i) es)) = len (flat_of (take i es)) + len e.1 + ENTRY_TAIL_LEN.
Proof. intros He; by rewrite (take_S_r _ _ _ He), len_flat_snoc. Qed.

Lemma len_flat_starts es : len (flat_starts (map prow_of es)) = len es + 1.
Proof. unfold flat_starts, len; rewrite length_map, length_seq, length_map; lia. Qed.

Lemma get_flat_starts es (i : nat) : (i <= length es)%nat ->
  get (flat_starts (map prow_of es)) (Z.of_nat i) = Some (len (flat_of (take i es))).
Proof.
  intros Hi; rewrite get_lookup; unfold flat_starts; rewrite list_lookup_fmap, lookup_seq_lt
    by (rewrite length_map; lia); cbn [fmap option_fmap option_map Nat.add]; by rewrite firstn_map.
Qed.

Lemma stride_pos p es : part_rep p es -> 17 <= FooterPartition_stride p.
Proof. intros [_ _ Hw _ _ _]; unfold FooterPartition_stride, ENTRY_TAIL_LEN, U64_BYTES, U32_BYTES; lia. Qed.

Lemma part_len p es : part_rep p es -> FooterPartition_len p = len es.
Proof.
  intros Hp; pose proof (stride_pos p es Hp) as Hst; destruct Hp as [Hpk Hs Hw Hk _ _].
  unfold FooterPartition_len; destruct (FooterPartition_is_varying p) eqn:E.
  - rewrite Hs, len_flat_starts; unfold saturating_sub; len_lia.
  - rewrite Hpk, (len_flat_strided (fp_key_width p)) by auto; fold (FooterPartition_stride p).
    by rewrite Z.div_mul by lia.
Qed.

Lemma part_row_span p es (i : nat) e : part_rep p es -> es !! i = Some e ->
  FooterPartition_row_span p (Z.of_nat i)
  = Some (len (flat_of (take i es)), len (flat_of (take i es)) + len e.1 + ENTRY_TAIL_LEN).
Proof.
  intros Hp He; pose proof (lookup_lt_Some _ _ _ He) as Hlt; pose proof (take_S_flat es i e He) as Hs1.
  assert (len (flat_of (take (S i) es)) <= len (flat_of es)) as Hle
    by (rewrite <- (take_drop (S i) es) at 2; rewrite map_app, flat_app, len_app; len_lia).
  pose proof (stride_pos p es Hp); destruct Hp as [Hpk Hs Hw Hk _ _]; unfold FooterPartition_row_span; rewrite Hpk.
  assert (0 <= ENTRY_TAIL_LEN) by done; pose proof (len_nonneg e.1).
  destruct (FooterPartition_is_varying p) eqn:E.
  - rewrite Hs; replace (Z.of_nat i + 1) with (Z.of_nat (S i)) by lia.
    rewrite !get_flat_starts by lia; res_simpl; rewrite Hs1 in *.
    destruct (_ && _) eqn:Eb; [done|]; apply andb_false_iff in Eb as [?|?]; b2p; lia.
  - specialize (Hk eq_refl); assert (len e.1 = fp_key_width p) as Ek
      by (rewrite Forall_forall in Hk; apply Hk; by eapply list_elem_of_lookup_2).
    rewrite (len_flat_strided (fp_key_width p) (take i es)) in * by (by apply Forall_take).
    fold (FooterPartition_stride p) in *; rewrite len_take, Z.min_l in * by (unfold len; lia).
    rewrite Ek in *; unfold FooterPartition_stride in *.
    destruct (_ <=? _) eqn:Eb; [f_equal; f_equal; lia | b2p; lia].
Qed.

Lemma part_row_span_out p es (i : nat) : part_rep p es -> (length es <= i)%nat ->
  FooterPartition_row_span p (Z.of_nat i) = None.
Proof.
  intros Hp Hi; pose proof (stride_pos p es Hp); destruct Hp as [Hpk Hs Hw Hk _ _].
  unfold FooterPartition_row_span; destruct (FooterPartition_is_varying p) eqn:E.
  - rewrite Hs; destruct (get _ (Z.of_nat i)); [| done]; res_simpl.
    rewrite get_None; [done|]; rewrite len_flat_starts; unfold len; lia.
  - rewrite Hpk, (len_flat_strided (fp_key_width p)) by auto; fold (FooterPartition_stride p).
    destruct (_ <=? _) eqn:Eb; [| done]; b2p; unfold len in *; nia.
Qed.

Lemma part_key_len p es (i : nat) e : part_rep p es -> es !! i = Some e ->
  FooterPartition_key_len p (Z.of_nat i) = Some (len e.1).
Proof.
  intros Hp He; unfold FooterPartition_key_len; destruct (FooterPartition_is_varying p) eqn:E; cbn [negb].
  - rewrite (part_row_span p es i e) by done; res_simpl; pose proof (len_nonneg e.1).
    destruct (_ <? _) eqn:?; [b2p; lia | f_equal; lia].
  - f_equal; symmetry; pose proof (pp_keys _ _ Hp E) as Hk; rewrite Forall_forall in Hk.
    apply Hk; by eapply list_elem_of_lookup_2.
Qed.

Lemma part_key_at p es (i : nat) : part_rep p es ->
  FooterPartition_key_at p (Z.of_nat i) = fst <$> es !! i.
Proof.
  intros Hp; unfold FooterPartition_key_at; destruct (es !! i) as [e|] eqn:He.
  - rewrite (part_row_span p es i e), (part_key_len p es i e) by done; res_simpl.
    rewrite (pp_packed _ _ Hp), (flat_split es i e He); by apply slice_mid.
  - apply lookup_ge_None in He; by rewrite (part_row_span_out p es i).
Qed.

Lemma part_lsn_at p es (i : nat) e : part_rep p es -> es !! i = Some e ->
  FooterPartition_lsn_at p (Z.of_nat i) = fr_lsn e.2.
Proof.
  intros Hp He; unfold FooterPartition_lsn_at; rewrite (part_row_span p es i e), (part_key_len p es i e) by done.
  rewrite (pp_packed _ _ Hp), (flat_split es i e He); unfold entry_tail; rewrite <- !app_assoc, (app_assoc (flat_of _)).
  rewrite slice_mid by (rewrite ?len_app; done); apply le_val_u64.
  pose proof (pp_rows _ _ Hp) as Hr; rewrite Forall_forall in Hr.
  destruct (Hr e ltac:(by eapply list_elem_of_lookup_2)); done.
Qed.

Lemma part_row_bytes p es (i : nat) e : part_rep p es -> es !! i = Some e ->
  FooterPartition_row_bytes p (Z.of_nat i) = Ok (e.1 ++ entry_tail e.2).
Proof.
  intros Hp He; unfold FooterPartition_row_bytes; rewrite (part_row_span p es i e) by done; res_simpl.
  rewrite (pp_packed _ _ Hp), (flat_split es i e He), (app_assoc e.1), slice_mid; [done | done|].
  rewrite len_app, len_entry_tail; lia.
Qed.

Lemma part_row_wf p es (i : nat) e : part_rep p es -> es !! i = Some e -> footer_row_wf e.2.
Proof.
  intros Hp He; pose proof (pp_rows _ _ Hp) as Hr; rewrite Forall_forall in Hr; apply Hr.
  by eapply list_elem_of_lookup_2.
Qed.

Lemma part_row_at p es (i : nat) e : part_rep p es -> es !! i = Some e ->
  FooterPartition_row_at p (Z.of_nat i) = Ok e.2.
Proof.
  intros Hp He; unfold FooterPartition_row_at; rewrite (part_key_len p es i e), (part_row_bytes p es i e) by done.
  res_simpl; by eapply FooterRow_read_back, part_row_wf.
Qed.

(** The entry a caller sees for a row. *)
Definition entry_of (column : ColumnId) (e : erow) : FooterEntry :=
  FooterRow_into_entry e.2 (mkRecordKey column (match KeyBytes_new e.1 with Ok k => k | _ => KeyBytes_empty end)).

Lemma part_entry_at p es (i : nat) e : part_rep p es -> es !! i = Some e -> len e.1 <= MAX_KEY_LEN ->
  FooterPartition_entry_at p (Z.of_nat i) = Ok (entry_of (fp_column p) e).
Proof.
  intros Hp He Hk; unfold FooterPartition_entry_at; rewrite (part_key_len p es i e), (part_row_bytes p es i e) by done.
  res_simpl; rewrite slice_hit by done; res_simpl; unfold RecordKey_from_bytes.
  destruct (KeyBytes_new_total e.1 Hk) as [k Ek]; rewrite Ek; res_simpl.
  rewrite FooterRow_read_back by (by eapply part_row_wf); res_simpl; unfold entry_of; by rewrite Ek.
Qed.

(** ** Appending *)

Definition erow_of (entry : FooterEntry) : erow :=
  (RecordKey_as_slice (fe_key entry), mkFooterRow (fe_lsn entry) (fe_offset entry) (fe_len entry) (fe_flags entry)).

Lemma part_new_rep column width : 0 <= width -> part_rep (FooterPartition_new column width) [].
Proof.
  intros Hw; unfold FooterPartition_new; constructor; unfold FooterPartition_is_varying; cbn; try done.
Qed.

Lemma part_push_rep p es entry : part_rep p es -> footer_row_wf (erow_of entry).2 ->
  FooterPartition_is_varying p = true \/ len (erow_of entry).1 = fp_key_width p ->
  len (flat_of (es ++ [erow_of entry])) < U32 ->
  part_rep (FooterPartition_push p entry) (es ++ [erow_of entry]).
Proof.
  intros [Hpk Hs Hw Hk Hr Hf] Hwf Hwid Hfits.
  assert (fp_packed (FooterPartition_push p entry) = flat_of (es ++ [erow_of entry])) as Ep.
  { rewrite map_app; cbn [map]; rewrite flat_snoc; cbn; rewrite Hpk; unfold entry_tail, Lsn_pack; cbn.
    by rewrite <- !app_assoc. }
  constructor; [done | | done | | | by rewrite Ep].
  - change (FooterPartition_is_varying (FooterPartition_push p entry)) with (FooterPartition_is_varying p).
    unfold FooterPartition_push in Ep |- *; cbn [fp_packed fp_starts] in *; rewrite Ep.
    destruct (FooterPartition_is_varying p); [| done].
    rewrite map_app; cbn [map]; rewrite flat_starts_snoc, Hs, as_u32_small; [done|].
    split; [apply len_nonneg | by rewrite map_app in Hfits].
  - change (FooterPartition_is_varying (FooterPartition_push p entry)) with (FooterPartition_is_varying p).
    intros E; apply Forall_app; split; [by apply Hk|]; constructor; [| done].
    destruct Hwid as [Hv|Hv]; [congruence | done].
  - apply Forall_app; split; [done|]; by constructor.
Qed.

Lemma part_stop_striding_rep p es : part_rep p es -> part_rep (FooterPartition_stop_striding p) es.
Proof.
  intros Hp; unfold FooterPartition_stop_striding; destruct (FooterPartition_is_varying p) eqn:E; [done|].
  rewrite (part_len p es Hp); destruct Hp as [Hpk Hs Hw Hk Hr Hf]; constructor; cbn [fp_packed fp_starts fp_key_width]; try done.
  unfold FooterPartition_is_varying; cbn [fp_key_width]; rewrite Z.eqb_refl.
  replace (len es + 1) with (Z.of_nat (S (length es))) by (unfold len; lia); rewrite seqZ_seq, map_map.
  unfold flat_starts; rewrite length_map; apply map_ext_in; intros i Hi%in_seq.
  specialize (Hk E); rewrite firstn_map, (len_flat_strided (fp_key_width p)) by (by apply Forall_take).
  rewrite len_take, Z.min_l by (unfold len; lia); fold (FooterPartition_stride p); apply as_u32_small.
  rewrite Hpk, (len_flat_strided (fp_key_width p)) in Hf by done; fold (FooterPartition_stride p) in Hf.
  assert (17 <= FooterPartition_stride p) by (unfold FooterPartition_stride, ENTRY_TAIL_LEN, U64_BYTES, U32_BYTES; lia).
  unfold is_u32, len in *; nia.
Qed.

(** ** Searching sorted rows *)

Definition is_below (past_equal : bool) (found key : bytes) : bool :=
  if past_equal then bytes_leb found key else bytes_ltb found key.

Definition keys_sorted (es : list erow) : Prop := StronglySorted bytes_le (map fst es).

(** The bound: every row in front of it is below the key and none from it on is. *)
Definition bound_at (past_equal : bool) (key : bytes) (es : list erow) (b : nat) : Prop :=
  (b <= length es)%nat
  /\ (forall i e, (i < b)%nat -> es !! i = Some e -> is_below past_equal e.1 key = true)
  /\ (forall i e, (b <= i)%nat -> es !! i = Some e -> is_below past_equal e.1 key = false).

Lemma keys_sorted_le es i j a b : keys_sorted es -> (i <= j)%nat ->
  es !! i = Some a -> es !! j = Some b -> bytes_le a.1 b.1.
Proof.
  intros Hs Hij Ha Hb; destruct (decide (i = j)) as [->|Hne]; [rewrite Ha in Hb; by injection Hb as ->|].
  eapply (StronglySorted_lookup bytes_le (map fst es) i j); [done | lia | |].
  - by rewrite list_lookup_fmap, Ha.
  - by rewrite list_lookup_fmap, Hb.
Qed.

Lemma is_below_mono past a b key : bytes_le a b -> is_below past b key = true -> is_below past a key = true.
Proof.
  unfold is_below; destruct past; rewrite ?bytes_leb_le, ?bytes_ltb_lt; intros.
  - by transitivity b.
  - by eapply bytes_le_lt_trans.
Qed.

Lemma bound_loop_spec p es past key : part_rep p es -> keys_sorted es ->
  forall fuel low high : nat, (low <= high <= length es)%nat -> (high - low < fuel)%nat ->
  (forall i e, (i < low)%nat -> es !! i = Some e -> is_below past e.1 key = true) ->
  (forall i e, (high <= i)%nat -> es !! i = Some e -> is_below past e.1 key = false) ->
  exists b, bound_loop fuel p key past (Z.of_nat low) (Z.of_nat high) = Some (Z.of_nat b) /\ bound_at past key es b.
Proof.
  intros Hp Hs; induction fuel as [|fuel IH]; intros low high Hlh Hf Hlow Hhigh; [lia|]; cbn [bound_loop].
  destruct (_ <? _) eqn:E.
  2:{ exists low; split; [done|]; split_and!; [lia | done |]; intros i x Hi Hx; apply (Hhigh i x); [lia | done]. }
  pose proof (Nat.div_mod_eq (high - low) 2); pose proof (Nat.mod_upper_bound (high - low) 2 ltac:(lia)).
  set (mid := (low + (high - low) / 2)%nat) in *.
  replace (Z.of_nat low + (Z.of_nat high - Z.of_nat low) / 2) with (Z.of_nat mid)
    by (subst mid; rewrite Nat2Z.inj_add, Nat2Z.inj_div, Nat2Z.inj_sub by lia; done).
  assert (low <= mid < high)%nat as Hmid by (subst mid; lia).
  destruct (lookup_lt_is_Some_2 es mid) as [e He]; [lia|].
  rewrite (part_key_at p es mid Hp), He; cbn [fmap option_fmap option_map]; fold (is_below past e.1 key).
  destruct (is_below past e.1 key) eqn:Eb.
  - replace (Z.of_nat mid + 1) with (Z.of_nat (S mid)) by lia; apply IH; [lia | lia | | done].
    intros i x Hi Hx; apply (is_below_mono past _ e.1); [| done]; apply (keys_sorted_le es i mid); auto; lia.
  - apply IH; [lia | lia | done |]; intros i x Hi Hx; apply not_true_iff_false; intros Hb.
    rewrite (is_below_mono past e.1 x.1) in Eb; [done | | done]; apply (keys_sorted_le es mid i); auto; lia.
Qed.

Lemma bound_spec p es past key : part_rep p es -> keys_sorted es ->
  exists b, FooterPartition_bound p key past = Z.of_nat b /\ bound_at past key es b.
Proof.
  intros Hp Hs; unfold FooterPartition_bound, FooterPartition_bound_within.
  rewrite (part_len p es Hp), Z.min_id, Z.sub_0_r, to_nat_len.
  destruct (bound_loop_spec p es past key Hp Hs (S (length es)) 0 (length es)) as (b & E & Hb);
    [lia | lia | lia | intros i e Hi He; apply lookup_lt_Some in He; lia |].
  change (Z.of_nat 0) with 0 in E; fold (len es) in E; rewrite E; eauto.
Qed.

(** a bisection bounded to any window that holds its answer finds the row count below the key:
    every row in front of the bound is below it (or equal, where equal rows count), none behind it
    is, and it is the bound a search of all the rows finds. *)
Lemma bound_within_exact p es past key (low high : nat) :
  part_rep p es -> keys_sorted es ->
  (forall i e, (i < low)%nat -> es !! i = Some e -> is_below past e.1 key = true) ->
  (forall i e, (high <= i)%nat -> es !! i = Some e -> is_below past e.1 key = false) ->
  (low <= high)%nat -> (low <= length es)%nat ->
  exists b, FooterPartition_bound_within p key (Z.of_nat low) (Z.of_nat high) past = Z.of_nat b
    /\ FooterPartition_bound p key past = Z.of_nat b
    /\ bound_at past key es b.
Proof.
  intros Hp Hs Hlow Hhigh Hlh Hll; destruct (bound_spec p es past key Hp Hs) as (b & Eb & Hb).
  unfold FooterPartition_bound_within; rewrite (part_len p es Hp).
  replace (Z.min (Z.of_nat high) (len es)) with (Z.of_nat (Nat.min high (length es))) by (unfold len; lia).
  destruct (bound_loop_spec p es past key Hp Hs (S (Z.to_nat (Z.of_nat (Nat.min high (length es)) - Z.of_nat low)))
    low (Nat.min high (length es))) as (b' & -> & Hb'); [lia | lia | done | |].
  { intros i e Hi He; apply (Hhigh i e); [| done]; apply lookup_lt_Some in He; lia. }
  cbn [from_option id]; exists b'; split_and!; [done | rewrite Eb | done]; f_equal.
  destruct Hb as (H1 & H2 & H3), Hb' as (H1' & H2' & H3').
  destruct (Nat.lt_trichotomy b b') as [Hlt|[->|Hlt]]; [exfalso | done | exfalso].
  - destruct (lookup_lt_is_Some_2 es b) as [e He]; [lia|].
    specialize (H3 b e ltac:(lia) He); specialize (H2' b e Hlt He); congruence.
  - destruct (lookup_lt_is_Some_2 es b') as [e He]; [lia|].
    specialize (H3' b' e ltac:(lia) He); specialize (H2 b' e Hlt He); congruence.
Qed.

(** The order a seal leaves rows in: by key, a key's versions by sequence number. *)
Definition entry_le (a b : erow) : Prop :=
  bytes_lt a.1 b.1 \/ (a.1 = b.1 /\ fr_lsn a.2 <= fr_lsn b.2).

Definition sealed_order (es : list erow) : Prop := StronglySorted entry_le es.

Lemma sealed_keys_sorted es : sealed_order es -> keys_sorted es.
Proof.
  unfold keys_sorted; induction 1 as [|e es _ IH Hall]; cbn [map]; constructor; [done|].
  apply Forall_map; eapply Forall_impl; [exact Hall|]; intros x [?| [-> _]]; [by apply bytes_lt_le | reflexivity].
Qed.

Lemma locate_spec p es key : part_rep p es -> keys_sorted es ->
  match FooterPartition_locate p key with
  | Some at_ => exists (i : nat) row, at_ = Z.of_nat i /\ es !! i = Some (key, row)
      /\ forall j e, (i < j)%nat -> es !! j = Some e -> bytes_lt key e.1
  | None => forall e, e ∈ es -> e.1 <> key
  end.
Proof.
  intros Hp Hs; unfold FooterPartition_locate, FooterPartition_upper_bound.
  destruct (bound_spec p es true key Hp Hs) as (b & -> & Hb & Hlow & Hhigh).
  assert (forall j e, (b <= j)%nat -> es !! j = Some e -> bytes_lt key e.1) as Hgt.
  { intros j e Hj He; specialize (Hhigh j e Hj He); cbn in Hhigh; by apply bytes_leb_gt. }
  unfold checked_pred; destruct (_ <? 1) eqn:E.
  - intros e (j & He)%list_elem_of_lookup <-; apply (bytes_lt_irrefl e.1), (Hgt j); [lia | done].
  - destruct b as [|b]; [done|]; replace (Z.of_nat (S b) - 1) with (Z.of_nat b) by lia; res_simpl.
    destruct (lookup_lt_is_Some_2 es b) as [e He]; [lia|].
    rewrite (part_key_at p es b Hp), He; res_simpl; destruct (bytes_eqb e.1 key) eqn:Ek.
    + apply bytes_eqb_eq in Ek; subst key; exists b, e.2; split_and!; [done | by destruct e |].
      intros j x Hj; apply (Hgt j x); lia.
    + intros x (j & Hx)%list_elem_of_lookup <-; destruct (Nat.lt_trichotomy j b) as [Hj|[->|Hj]].
      * specialize (Hlow b e ltac:(lia) He); cbn in Hlow; apply bytes_leb_le in Hlow.
        assert (bytes_le x.1 e.1) by (apply (keys_sorted_le es j b); auto; lia).
        assert (e.1 = x.1) by (by apply (anti_symm bytes_le)); rewrite H0 in Ek.
        by rewrite (proj2 (bytes_eqb_eq x.1 x.1) eq_refl) in Ek.
      * rewrite He in Hx; injection Hx as ->; by rewrite (proj2 (bytes_eqb_eq x.1 x.1) eq_refl) in Ek.
      * apply (bytes_lt_irrefl x.1), (Hgt j); [lia | done].
Qed.

Lemma find_row_cases p es key : part_rep p es -> sealed_order es ->
  (exists row, FooterPartition_find_row p key = Some (Ok row) /\ (key, row) ∈ es
     /\ forall row', (key, row') ∈ es -> fr_lsn row' <= fr_lsn row)
  \/ (FooterPartition_find_row p key = None /\ forall row, (key, row) ∉ es).
Proof.
  intros Hp Hs; pose proof (locate_spec p es key Hp (sealed_keys_sorted _ Hs)) as Hl.
  unfold FooterPartition_find_row; destruct (FooterPartition_locate p key) as [at_|]; res_simpl.
  - destruct Hl as (i & row & -> & Hi & Hgt); rewrite (part_row_at p es i (key, row)) by done; cbn [snd].
    left; exists row; split; [done|]; split; [by eapply list_elem_of_lookup_2|].
    intros row' (j & Hj)%list_elem_of_lookup; destruct (Nat.lt_trichotomy i j) as [Hij|[->|Hij]].
    + by apply (Hgt j) in Hj as ?%bytes_lt_irrefl.
    + rewrite Hi in Hj; injection Hj as ->; lia.
    + destruct (StronglySorted_lookup entry_le es j i _ _ Hs Hij Hj Hi) as [?%bytes_lt_irrefl|[_ ?]]; done.
  - right; split; [done|]; intros row Hin; by apply (Hl _ Hin).
Qed.

(** over sorted rows a find gives the key's newest row, the one of highest sequence number, or
    nothing exactly when no row has the key. *)
Lemma find_gives_newest p es key : part_rep p es -> sealed_order es ->
  match FooterPartition_find_row p key with
  | Some (Ok row) => (key, row) ∈ es /\ forall row', (key, row') ∈ es -> fr_lsn row' <= fr_lsn row
  | None => forall row, (key, row) ∉ es
  | _ => False
  end.
Proof. intros Hp Hs; destruct (find_row_cases p es key Hp Hs) as [(row & -> & ?)|[-> ?]]; done. Qed.

(** ** Lookups through the filter *)

Lemma omap_lookup_all (es : list erow) :
  omap (fun z => fst <$> es !! Z.to_nat z) (seqZ 0 (len es)) = map fst es.
Proof.
  unfold len; rewrite seqZ_seq.
  assert (forall r2 r1, es = r1 ++ r2 ->
    omap (fun z => fst <$> es !! Z.to_nat z) (map Z.of_nat (seq (length r1) (length r2))) = map fst r2) as H;
    [| by apply (H es [])].
  induction r2 as [|e r2 IH]; intros r1 E; cbn [length seq map omap list_omap]; [done|].
  rewrite Nat2Z.id, E, list_lookup_middle by done; cbn [fmap option_fmap option_map]; f_equal.
  specialize (IH (r1 ++ [e])); rewrite <- app_assoc, length_app, Nat.add_comm in IH; rewrite <- E; by apply IH.
Qed.

Lemma part_keys p es : part_rep p es ->
  omap (FooterPartition_key_at p) (seqZ 0 (FooterPartition_len p)) = map fst es.
Proof.
  intros Hp; rewrite (part_len p es Hp), <- omap_lookup_all; apply list_omap_ext.
  apply Forall_Forall2_diag, Forall_forall; intros z Hz%elem_of_seqZ; rewrite <- (part_key_at p es) by done.
  by rewrite Z2Nat.id by lia.
Qed.

Lemma build_filter_spec p es bits : part_rep p es -> len es <= 2 ^ 36 -> is_u8 bits ->
  exists p', FooterPartition_build_filter p bits = Ok p' /\ part_rep p' es
    /\ fp_column p' = fp_column p /\ fp_key_width p' = fp_key_width p /\ fp_is_packed p' = fp_is_packed p
    /\ (forall key, exists b, FooterPartition_may_hold p' key = Ok b)
    /\ (forall e, e ∈ es -> FooterPartition_may_hold p' e.1 = Ok true)
    /\ match fp_filter p' with
       | Some f => len (fl_body f) <= 4 * len es + 64 /\ fl_kind f = KIND_BLOOM /\ fl_seed f = SEED
           /\ is_u8 (fl_probes f) /\ is_u32 (fl_keys f)
       | None => True
       end.
Proof.
  intros Hp Hl Hb; unfold FooterPartition_build_filter; rewrite (part_keys p es Hp), (part_len p es Hp).
  pose proof (filter_build_spec (map fst es) (len es) bits ltac:(len_lia) Hb) as Hf.
  destruct (_ || _); [rewrite Hf; res_simpl | destruct Hf as (f & -> & Hin & Hlen & Hmax & Hfields); res_simpl];
    (eexists; split; [done|]; split; [by destruct Hp; constructor|]; split_and!; try done);
    unfold FooterPartition_may_hold; cbn [fp_filter].
  - eauto.
  - intros key; by apply may_hold_returns.
  - intros e He; apply Hin, list_elem_of_fmap; eauto.
  - split; [| done]; rewrite Hlen; unfold MAX_BITS_PER_KEY; pose proof (len_nonneg es).
    assert (len es * Z.min bits 32 <= len es * 32) by (unfold is_u8 in Hb; nia).
    pose proof (Z.div_mod (len es * Z.min bits 32 + 511) 512 ltac:(lia)).
    pose proof (Z.mod_pos_bound (len es * Z.min bits 32 + 511) 512 ltac:(lia)); lia.
Qed.

(** A partition sealed with a filter answers a lookup exactly: the key's newest row when it has
    one, and a miss, ruled out by the filter or searched for, only when it has none. *)
Lemma lookup_exact p es bits key : part_rep p es -> sealed_order es -> len es <= 2 ^ 36 -> is_u8 bits ->
  exists p', FooterPartition_build_filter p bits = Ok p'
    /\ match FooterPartition_lookup p' key with
       | Ok (FoundRow row) => (key, row) ∈ es /\ forall row', (key, row') ∈ es -> fr_lsn row' <= fr_lsn row
       | Ok Missing | Ok RuledOut => forall row, (key, row) ∉ es
       | _ => False
       end.
Proof.
  intros Hp Hs Hl Hb; destruct (build_filter_spec p es bits Hp Hl Hb) as (p' & E & Hp' & _ & _ & _ & Hret & Hin & _).
  exists p'; split; [done|]; unfold FooterPartition_lookup; destruct (Hret key) as [b Eb]; rewrite Eb; res_simpl.
  destruct b; cbn [negb].
  - destruct (find_row_cases p' es key Hp' Hs) as [(row & -> & ?)|[-> ?]]; done.
  - intros row He; apply Hin in He; cbn [fst] in He; congruence.
Qed.

(** ** Runs of one key *)

(** over sorted rows the run of any row is exactly the rows that share its key. *)
Lemma run_is_the_key p es (i : nat) e : part_rep p es -> keys_sorted es -> es !! i = Some e ->
  exists first last : nat, FooterPartition_run p (Z.of_nat i) = Some (Z.of_nat first, Z.of_nat last)
    /\ (first <= i <= last)%nat
    /\ forall j x, es !! j = Some x -> x.1 = e.1 <-> (first <= j <= last)%nat.
Proof.
  intros Hp Hs He; unfold FooterPartition_run; rewrite (part_key_at p es i Hp), He; res_simpl.
  destruct (bound_spec p es false e.1 Hp Hs) as (lo & Elo & _ & Hlo & Hlo').
  destruct (bound_spec p es true e.1 Hp Hs) as (hi & Ehi & _ & Hhi & Hhi').
  unfold FooterPartition_lower_bound, FooterPartition_upper_bound; rewrite Elo, Ehi.
  cbn [is_below] in *.
  assert (lo <= i)%nat as Hloi.
  { apply Nat.nlt_ge; intros Hlt; specialize (Hlo i e Hlt He); by apply bytes_ltb_lt, bytes_lt_irrefl in Hlo. }
  assert (i < hi)%nat as Hihi.
  { apply Nat.nle_gt; intros Hle; specialize (Hhi' i e Hle He); by apply bytes_leb_gt, bytes_lt_irrefl in Hhi'. }
  assert (forall j x, es !! j = Some x -> (lo <= j)%nat -> (j < hi)%nat -> x.1 = e.1) as Hmid.
  { intros j x Hx Hj1 Hj2; specialize (Hlo' j x Hj1 Hx); specialize (Hhi j x Hj2 Hx).
    apply bytes_ltb_ge in Hlo'; apply bytes_leb_le in Hhi; by apply (anti_symm bytes_le). }
  assert (forall j x, es !! j = Some x -> x.1 = e.1 -> (lo <= j < hi)%nat) as Hin.
  { intros j x Hx Ex; split.
    - apply Nat.nlt_ge; intros Hlt; specialize (Hlo j x Hlt Hx); rewrite Ex in Hlo; by apply bytes_ltb_lt, bytes_lt_irrefl in Hlo.
    - apply Nat.nle_gt; intros Hle; specialize (Hhi' j x Hle Hx); rewrite Ex in Hhi'; by apply bytes_leb_gt, bytes_lt_irrefl in Hhi'. }
  exists lo, (hi - 1)%nat; split; [| split; [lia | intros j x Hx; split; [intros Ex; specialize (Hin j x Hx Ex); lia |
    intros [? ?]; apply (Hmid j x Hx); lia]]].
  assert ((match (before ← checked_pred (Z.of_nat i); FooterPartition_key_at p before) with
    | Some before => if bytes_eqb before e.1 then Z.of_nat lo else Z.of_nat i | None => Z.of_nat i end) = Z.of_nat lo) as ->.
  { unfold checked_pred; destruct (Z.ltb_spec (Z.of_nat i) 1); res_simpl; [f_equal; lia|].
    destruct i as [|i]; [lia|]; replace (Z.of_nat (S i) - 1) with (Z.of_nat i) by lia.
    pose proof (lookup_lt_Some _ _ _ He); destruct (lookup_lt_is_Some_2 es i) as [x Hx]; [lia|].
    rewrite (part_key_at p es i Hp), Hx; res_simpl; destruct (bytes_eqb x.1 e.1) eqn:Ek; [done|].
    f_equal; destruct (decide (lo = S i)) as [|Hne]; [done|].
    rewrite (Hmid i x Hx) in Ek by lia; by rewrite (proj2 (bytes_eqb_eq e.1 e.1) eq_refl) in Ek. }
  replace (Z.of_nat i + 1) with (Z.of_nat (S i)) by lia; rewrite (part_key_at p es (S i) Hp).
  assert (checked_pred (Z.of_nat hi) = Some (Z.of_nat (hi - 1))) as Ecp
    by (unfold checked_pred; destruct (_ <? 1) eqn:E; [lia | f_equal; lia]).
  case_bool_decide as Eb; [by rewrite Ecp|]; res_simpl; do 2 f_equal; f_equal.
  destruct (decide (hi = S i)) as [|Hne]; [lia|]; exfalso; apply Eb.
  destruct (es !! S i) as [x|] eqn:Hx; [by cbn; rewrite (Hmid (S i) x Hx) by lia|].
  destruct (bound_spec p es true e.1 Hp Hs) as (hi' & Ehi2 & Hle & _).
  apply lookup_ge_None in Hx; assert (hi' = hi) by lia; lia.
Qed.

(** ** The sort *)

Lemma fold_min_le p first ats : forall acc,
  let r := fold_left (fun shared at_ => if (shared =? 0)%nat then shared
    else Nat.min shared (shared_prefix first (default [] (FooterPartition_key_at p at_)))) ats acc in
  (r <= acc)%nat
  /\ Forall (fun at_ => (r <= shared_prefix first (default [] (FooterPartition_key_at p at_)))%nat) ats.
Proof.
  induction ats as [|at_ ats IH]; intros acc; cbn [fold_left]; [done|].
  match goal with |- context [fold_left _ ats ?a] => destruct (IH a) as [H1 H2]; set (r := fold_left _ ats a) in *; set (m := a) in * end.
  assert (m <= acc /\ m <= shared_prefix first (default [] (FooterPartition_key_at p at_)))%nat as [? ?]
    by (subst m; destruct (Nat.eqb_spec acc 0); lia).
  split; [lia|]; constructor; [lia | done].
Qed.

(** Every key opens with the same [shared] bytes. *)
Lemma shared_common p es : part_rep p es ->
  exists c, length c = FooterPartition_shared_prefix p
    /\ forall e, e ∈ es -> exists rest, e.1 = c ++ rest.
Proof.
  intros Hp; unfold FooterPartition_shared_prefix; rewrite (part_len p es Hp).
  change 0 with (Z.of_nat 0); rewrite (part_key_at p es 0 Hp).
  destruct es as [|e0 es]; [by exists []; split; [done | set_solver]|]; cbn [lookup list_lookup fmap option_fmap option_map].
  destruct (fold_min_le p e0.1 (seqZ 1 (len (e0 :: es) - 1)) (length e0.1)) as [H1 H2].
  set (r := fold_left _ _ _) in *; exists (take r e0.1); split; [rewrite length_take; lia|].
  intros e (i & He)%list_elem_of_lookup; destruct i as [|i].
  { injection He as ->; exists (drop r e.1); by rewrite take_drop. }
  rewrite Forall_forall in H2; specialize (H2 (Z.of_nat (S i))).
  rewrite (part_key_at p _ _ Hp), He in H2; cbn [from_option fmap option_fmap option_map id] in H2.
  assert (r <= shared_prefix e0.1 e.1)%nat as Hr.
  { apply H2, elem_of_seqZ; apply lookup_lt_Some in He; unfold len; lia. }
  exists (drop r e.1); pose proof (shared_prefix_take e0.1 e.1) as Et.
  apply (f_equal (take r)) in Et; rewrite !take_take, !Nat.min_l in Et by lia; by rewrite Et, take_drop.
Qed.

Lemma key_head_padded p es (i : nat) e shared rest c : part_rep p es -> es !! i = Some e ->
  length c = shared -> e.1 = c ++ rest ->
  FooterPartition_key_head p (Z.of_nat i) shared = be_val (zero_padded 8 rest).
Proof.
  intros Hp He Hc Ee; unfold FooterPartition_key_head; rewrite (part_key_at p es i Hp), He, <- Hc.
  cbn [from_option fmap option_fmap option_map id]; rewrite Ee; change (Z.of_nat (length c)) with (len c).
  assert (slice_from (c ++ rest) (len c) = Some rest) as -> by (apply slice_from_Some; eauto).
  cbn [from_option id]; f_equal; unfold zero_padded; change (Z.to_nat U64_BYTES) with 8%nat.
  replace (Z.to_nat (Z.min (len rest) U64_BYTES)) with (Nat.min (length rest) 8) by (unfold len, U64_BYTES; lia).
  assert (take (length rest `min` 8) rest = take 8 rest) as ->
    by (destruct (Nat.le_ge_cases (length rest) 8); [rewrite Nat.min_l, !take_ge by lia | rewrite Nat.min_r by lia]; done).
  rewrite put_zeros by (rewrite len_take; lia); rewrite take_app, length_take; f_equal.
  unfold zeros; rewrite take_replicate; f_equal; lia.
Qed.

Lemma head_mono a b : bytes_le a b -> be_val (zero_padded 8 a) <= be_val (zero_padded 8 b).
Proof.
  intros Hle%(zero_padded_mono 8); unfold bytes_le in Hle; rewrite <- be_val_cmp in Hle by (by rewrite !len_zero_padded).
  by apply Z.compare_le_iff.
Qed.

(** The order the sort means: the key, then the sequence number. *)
Definition entry_cmp (a b : erow) : comparison :=
  match bytes_cmp a.1 b.1 with Eq => fr_lsn a.2 ?= fr_lsn b.2 | c => c end.

Lemma order_cmp_entry p es (i j : nat) a b : part_rep p es -> es !! i = Some a -> es !! j = Some b ->
  let shared := FooterPartition_shared_prefix p in
  order_cmp p (FooterPartition_key_head p (Z.of_nat i) shared, Z.of_nat i)
              (FooterPartition_key_head p (Z.of_nat j) shared, Z.of_nat j) = entry_cmp a b.
Proof.
  intros Hp Ha Hb shared; destruct (shared_common p es Hp) as (c & Hc & Hall).
  destruct (Hall a) as [ra Ea]; [by eapply list_elem_of_lookup_2|].
  destruct (Hall b) as [rb Eb]; [by eapply list_elem_of_lookup_2|].
  unfold order_cmp, entry_cmp; cbn [fst snd]; rewrite (key_head_padded p es i a shared ra c), (key_head_padded p es j b shared rb c) by done.
  rewrite (part_key_at p es i Hp), (part_key_at p es j Hp), Ha, Hb, (part_lsn_at p es i a), (part_lsn_at p es j b) by done.
  cbn [from_option fmap option_fmap option_map id].
  assert (bytes_cmp a.1 b.1 = bytes_cmp ra rb) as Ecmp by (by rewrite Ea, Eb, bytes_cmp_app).
  destruct (Z.compare_spec (be_val (zero_padded 8 ra)) (be_val (zero_padded 8 rb))) as [E|E|E]; [done | |].
  - rewrite Ecmp; destruct (bytes_cmp ra rb) eqn:Ec; [apply bytes_cmp_eq in Ec; subst; lia | done |].
    apply bytes_cmp_gt, bytes_lt_le, head_mono in Ec; lia.
  - rewrite Ecmp; destruct (bytes_cmp ra rb) eqn:Ec; [apply bytes_cmp_eq in Ec; subst; lia | | done].
    apply bytes_lt_le, head_mono in Ec; lia.
Qed.

Lemma order_le_spec p l r : order_le p l r <->
  l.1 < r.1 \/ l.1 = r.1 /\ (let kl := default [] (FooterPartition_key_at p l.2) in
    let kr := default [] (FooterPartition_key_at p r.2) in
    bytes_lt kl kr \/ kl = kr /\ FooterPartition_lsn_at p l.2 <= FooterPartition_lsn_at p r.2).
Proof.
  unfold order_le, order_cmp; cbv zeta; set (kl := default [] _); set (kr := default [] _).
  destruct (Z.compare_spec l.1 r.1) as [E|E|E]; [| split; [by left | done] | split; [done | intros [?|[? _]]; lia]].
  destruct (bytes_cmp kl kr) eqn:Ec.
  - apply bytes_cmp_eq in Ec; rewrite Ec; rewrite <- Z.compare_le_iff; split; [intros ?; right; auto|].
    intros [?|[_ [?%bytes_lt_irrefl|[_ ?]]]]; [lia | done | done].
  - split; [intros _; right; split; [done | by left] | done].
  - apply bytes_cmp_gt in Ec; split; [done|]; intros [?|[_ [Hlt|[Heq _]]]]; [lia | |].
    + by destruct (bytes_lt_irrefl kl); eapply bytes_lt_trans.
    + rewrite Heq in Ec; by apply bytes_lt_irrefl in Ec.
Qed.

Global Instance order_le_trans p : Transitive (order_le p).
Proof.
  intros a b c; rewrite !order_le_spec; cbv zeta.
  intros [H1|[E1 H1]] [H2|[E2 H2]]; [left; lia | left; lia | left; lia | right; split; [lia|]].
  destruct H1 as [H1|[H1 L1]], H2 as [H2|[H2 L2]].
  - left; by eapply bytes_lt_trans.
  - left; by rewrite <- H2.
  - left; by rewrite H1.
  - right; split; [congruence | lia].
Qed.

Global Instance order_le_total p : Total (order_le p).
Proof.
  intros a b; rewrite !order_le_spec; cbv zeta; set (ka := default [] _); set (kb := default [] _).
  destruct (Z.lt_trichotomy a.1 b.1) as [?|[E|?]]; [by left; left | | by right; left].
  destruct (bytes_cmp ka kb) eqn:Ec.
  - apply bytes_cmp_eq in Ec.
    destruct (Z.le_ge_cases (FooterPartition_lsn_at p a.2) (FooterPartition_lsn_at p b.2)); [left | right]; right; auto.
  - left; right; split; [done | by left].
  - right; right; split; [done | left; by apply bytes_cmp_gt].
Qed.

Lemma entry_cmp_le a b : entry_cmp a b <> Gt -> entry_le a b.
Proof.
  unfold entry_cmp, entry_le; destruct (bytes_cmp a.1 b.1) eqn:E; [| by left | done].
  apply bytes_cmp_eq in E; intros H; right; split; [done | by apply Z.compare_le_iff].
Qed.

Global Instance entry_le_trans : Transitive entry_le.
Proof.
  intros a b c [H1|[H1 L1]] [H2|[H2 L2]]; [left; by eapply bytes_lt_trans | left; by rewrite <- H2 | left; by rewrite H1 |].
  right; split; [congruence | lia].
Qed.

Lemma in_key_order_loop_spec p es : part_rep p es -> forall r2 r1 e, es = r1 ++ e :: r2 ->
  in_key_order_loop p e.1 (map Z.of_nat (seq (S (length r1)) (length r2))) = true -> sealed_order (e :: r2).
Proof.
  intros Hp; induction r2 as [|x r2 IH]; intros r1 e E H; [by repeat constructor|].
  cbn [length seq map in_key_order_loop] in H.
  assert (es !! length r1 = Some e) as He by (rewrite E; by apply list_lookup_middle).
  assert (es !! S (length r1) = Some x) as Hx.
  { rewrite E, cons_middle, app_assoc, list_lookup_middle; [done | rewrite length_app; cbn; lia]. }
  rewrite (part_key_at p es _ Hp), Hx in H; cbn [fmap option_fmap option_map] in H.
  replace (Z.of_nat (S (length r1)) - 1) with (Z.of_nat (length r1)) in H by lia.
  rewrite (part_lsn_at p es _ e), (part_lsn_at p es _ x) in H by done.
  specialize (IH (r1 ++ [e]) x); rewrite <- app_assoc, length_app, Nat.add_comm in IH; cbn [length Nat.add app] in IH.
  assert (entry_le e x /\ in_key_order_loop p x.1 (map Z.of_nat (seq (S (S (length r1))) (length r2))) = true) as [Hle Hrest].
  { destruct (bytes_cmp e.1 x.1) eqn:Ec; [| by split; [left|] | done].
    destruct (_ >=? _) eqn:El; [done|]; apply bytes_cmp_eq in Ec; split; [right; split; [done | lia] | done]. }
  specialize (IH E Hrest); constructor; [done|]; constructor; [done|].
  apply StronglySorted_inv in IH as [_ Hall]; eapply Forall_impl; [exact Hall|]; intros y Hy; by transitivity x.
Qed.

Lemma in_key_order_spec p es : part_rep p es -> FooterPartition_in_key_order p = true -> sealed_order es.
Proof.
  intros Hp; unfold FooterPartition_in_key_order; rewrite (part_len p es Hp); change 0 with (Z.of_nat 0).
  rewrite (part_key_at p es 0 Hp); destruct es as [|e es]; [by constructor|].
  cbn [lookup list_lookup fmap option_fmap option_map]; intros H.
  apply (in_key_order_loop_spec p (e :: es) Hp es [] e eq_refl); cbn [length].
  rewrite <- H; f_equal; rewrite len_cons; replace (1 + len es - 1) with (len es) by lia; unfold seqZ, len.
  rewrite Nat2Z.id, <- seq_shift, map_map; apply map_ext; intros; lia.
Qed.

Definition rows_at (es : list erow) (is_ : list nat) : list erow := omap (fun i => es !! i) is_.

Lemma rows_at_all es : rows_at es (seq 0 (length es)) = es.
Proof.
  unfold rows_at; assert (forall r2 r1, es = r1 ++ r2 ->
    omap (fun i => es !! i) (seq (length r1) (length r2)) = r2) as H; [| by apply (H es [])].
  induction r2 as [|e r2 IH]; intros r1 E; cbn [length seq omap list_omap]; [done|].
  rewrite E, list_lookup_middle by done; f_equal.
  specialize (IH (r1 ++ [e])); rewrite <- app_assoc, length_app, Nat.add_comm in IH; rewrite <- E; by apply IH.
Qed.

Lemma rows_at_cons es i is_ e : es !! i = Some e -> rows_at es (i :: is_) = e :: rows_at es is_.
Proof. intros He; unfold rows_at; cbn [omap list_omap]; by rewrite He. Qed.

Lemma rows_at_perm es is_ : is_ ≡ₚ seq 0 (length es) -> rows_at es is_ ≡ₚ es.
Proof. intros H; rewrite <- (rows_at_all es) at 2; unfold rows_at; by rewrite H. Qed.

Definition starts_of (p : FooterPartition) (es : list erow) : list Z :=
  if FooterPartition_is_varying p then flat_starts (map prow_of es) else [].

Lemma permute_row_step p es (i : nat) e acc : part_rep p es -> es !! i = Some e ->
  len (flat_of (acc ++ [e])) < U32 ->
  permute_row p (flat_of acc, starts_of p acc) (Z.of_nat i)
  = Ok (flat_of (acc ++ [e]), starts_of p (acc ++ [e])).
Proof.
  intros Hp He Hl; unfold permute_row; rewrite (part_row_span p es i e) by done; cbn [from_option id].
  rewrite (pp_packed _ _ Hp), (flat_split es i e He), (app_assoc e.1), slice_mid;
    [| done | rewrite len_app, len_entry_tail; lia]; res_simpl.
  assert (flat_of acc ++ e.1 ++ entry_tail e.2 = flat_of (acc ++ [e])) as ->
    by (rewrite map_app; cbn [map]; rewrite flat_snoc, <- app_assoc; done).
  unfold starts_of; destruct (FooterPartition_is_varying p); [| done].
  rewrite as_u32_small by (split; [apply len_nonneg | done]); rewrite map_app; cbn [map].
  by rewrite flat_starts_snoc.
Qed.

Lemma permute_rows p es is_ : part_rep p es -> Forall (fun i => (i < length es)%nat) is_ -> forall acc,
  len (flat_of (acc ++ rows_at es is_)) < U32 ->
  foldm (permute_row p) (map Z.of_nat is_) (flat_of acc, starts_of p acc)
  = Ok (flat_of (acc ++ rows_at es is_), starts_of p (acc ++ rows_at es is_)).
Proof.
  intros Hp; induction 1 as [|i is_ Hi _ IH]; intros acc Hl; cbn [map foldm].
  { cbn [rows_at omap list_omap]; by rewrite app_nil_r. }
  destruct (lookup_lt_is_Some_2 es i Hi) as [e He]; rewrite (rows_at_cons es i is_ e He), cons_middle, app_assoc in Hl |- *.
  rewrite (permute_row_step p es i e acc) by (done || (rewrite (map_app _ (acc ++ [e])), flat_app, len_app in Hl; len_pos; lia)).
  res_simpl; by apply IH.
Qed.

Lemma flat_perm_len es es' : es ≡ₚ es' -> len (flat_of es) = len (flat_of es').
Proof.
  induction 1 as [|x l l' _ IH|x y l|l1 l2 l3 _ IH1 _ IH2]; [done | | | congruence];
    cbn [map]; unfold flat in *; cbn [map concat]; rewrite !len_app; lia.
Qed.

Lemma sorted_rows_at p es is_ : part_rep p es -> Forall (fun i => (i < length es)%nat) is_ ->
  StronglySorted (order_le p)
    (map (fun i => (FooterPartition_key_head p (Z.of_nat i) (FooterPartition_shared_prefix p), Z.of_nat i)) is_) ->
  sealed_order (rows_at es is_).
Proof.
  intros Hp Hin; induction Hin as [|i is_ Hi Hin IH]; intros Hs; [by constructor|].
  cbn [map] in Hs; apply StronglySorted_inv in Hs as [Hs Hall].
  destruct (lookup_lt_is_Some_2 es i Hi) as [e He]; rewrite (rows_at_cons es i is_ e He); constructor; [by apply IH|].
  apply Forall_forall; intros x (j & Hj & Hx)%list_elem_of_omap.
  rewrite Forall_forall in Hall; specialize (Hall _ (list_elem_of_fmap_2 _ _ _ Hj)).
  unfold order_le in Hall; rewrite (order_cmp_entry p es i j e x) in Hall by done; by apply entry_cmp_le.
Qed.

Lemma sort_spec p es : part_rep p es ->
  exists p' es', FooterPartition_sort p = Ok p' /\ part_rep p' es' /\ es' ≡ₚ es /\ sealed_order es'
    /\ fp_column p' = fp_column p /\ fp_key_width p' = fp_key_width p
    /\ fp_filter p' = fp_filter p /\ fp_is_packed p' = fp_is_packed p.
Proof.
  intros Hp; unfold FooterPartition_sort; destruct (FooterPartition_in_key_order p) eqn:E.
  { exists p, es; split_and!; try done; by eapply in_key_order_spec. }
  assert (len es < U32) as Hn.
  { pose proof (pp_fits _ _ Hp) as Hf; rewrite (pp_packed _ _ Hp) in Hf; clear -Hf.
    enough (len es <= len (flat_of es)) by lia; clear Hf; induction es as [|e es IH] using rev_ind; [done|].
    rewrite len_flat_snoc, len_app; change (len [e]) with 1; unfold ENTRY_TAIL_LEN, U64_BYTES, U32_BYTES.
    pose proof (len_nonneg e.1); lia. }
  rewrite (part_len p es Hp), as_u32_small by (split; [apply len_nonneg | done]); unfold len at 1; rewrite seqZ_seq, map_map.
  set (g := fun i => (FooterPartition_key_head p (Z.of_nat i) (FooterPartition_shared_prefix p), Z.of_nat i)).
  pose proof (StronglySorted_merge_sort (order_le p) (map g (seq 0 (length es)))) as Hs.
  destruct (Permutation_map_inv g (l1 := merge_sort (order_le p) (map g (seq 0 (length es)))) (seq 0 (length es)))
    as (is_ & Eis & Hperm); [apply merge_sort_Permutation|].
  rewrite Eis in Hs |- *; rewrite map_map; cbn [snd]; subst g; cbn [snd] in *.
  assert (Forall (fun i => (i < length es)%nat) is_) as Hin.
  { rewrite <- Hperm; apply Forall_forall; intros i Hi%elem_of_seq; lia. }
  pose proof (rows_at_perm es is_ (symmetry Hperm)) as Hp'.
  pose proof (permute_rows p es is_ Hp Hin []) as Hrows; cbn [app] in Hrows.
  rewrite (flat_perm_len _ _ Hp'), <- (pp_packed _ _ Hp) in Hrows; specialize (Hrows (pp_fits _ _ Hp)).
  change (flat_of []) with (@nil byte) in Hrows.
  assert (starts_of p [] = if FooterPartition_is_varying p then [0] else []) as E0 by done; rewrite E0 in Hrows.
  change (fun x : nat => Z.of_nat x) with Z.of_nat; rewrite Hrows; res_simpl; do 2 eexists; split; [done|]; split_and!; try done; [| by eapply sorted_rows_at].
  destruct Hp as [Hpk Hst Hw Hk Hr Hf]; constructor; cbn [fp_packed fp_starts fp_key_width]; try done.
  - unfold starts_of; change (FooterPartition_is_varying (mkFooterPartition _ (fp_key_width p) _ _ _ _))
      with (FooterPartition_is_varying p); destruct (FooterPartition_is_varying p); [done | by rewrite Hst].
  - intros Ev; rewrite Hp'; by apply Hk.
  - by rewrite Hp'.
  - by rewrite (flat_perm_len _ _ Hp'), <- Hpk.
Qed.

(** The sort puts any partition's rows in key order, a key's versions by sequence number: it loses
    no row, makes none up, and leaves the column, the width and the filter alone. The eight-byte key
    heads it compares first, and the order check it skips the work on, never change the answer. *)
Lemma sort_seals p es : part_rep p es ->
  exists p' es', FooterPartition_sort p = Ok p' /\ part_rep p' es' /\ es' ≡ₚ es /\ sealed_order es'
    /\ fp_column p' = fp_column p /\ fp_key_width p' = fp_key_width p
    /\ fp_filter p' = fp_filter p /\ fp_is_packed p' = fp_is_packed p.
Proof. apply sort_spec. Qed.

(** ** Witnesses *)

(** Three versions of one key between two others, in the order a seal leaves them. *)
Definition demo_versions : list erow :=
  [([Byte.x61], mkFooterRow 9 0 5 0); ([Byte.x62], mkFooterRow 3 64 5 0); ([Byte.x62], mkFooterRow 5 128 5 0);
   ([Byte.x62], mkFooterRow 8 192 5 1); ([Byte.x63], mkFooterRow 4 256 5 0)].

Definition demo_part (es : list erow) : FooterPartition := mkFooterPartition 2 1 (flat_of es) [] None false.

Lemma demo_part_rep es : Forall (fun e => len e.1 = 1 /\ footer_row_wf e.2) es -> len (flat_of es) < U32 ->
  part_rep (demo_part es) es.
Proof.
  intros Hw Hl; constructor; [done | done | cbn; lia | intros _ | | done]; eapply Forall_impl; try exact Hw; by intros e [].
Qed.

Lemma demo_versions_rows : Forall (fun e => len e.1 = 1 /\ footer_row_wf e.2) demo_versions.
Proof. repeat constructor; try done; widths. Qed.

Lemma demo_versions_sorted : sealed_order demo_versions.
Proof.
  repeat (apply SSorted_cons; [| repeat (apply List.Forall_cons || apply List.Forall_nil);
    first [left; vm_compute; reflexivity | right; split; [reflexivity | vm_compute; discriminate]]]).
  apply SSorted_nil.
Qed.

Lemma bound_within_exact_witness :
  exists b, FooterPartition_bound_within (demo_part demo_versions) [Byte.x62] 1 4 true = Z.of_nat b
    /\ bound_at true [Byte.x62] demo_versions b.
Proof.
  destruct (bound_within_exact (demo_part demo_versions) demo_versions true [Byte.x62] 1 4) as (b & E & _ & Hb).
  - apply demo_part_rep; [apply demo_versions_rows | reflexivity].
  - apply sealed_keys_sorted, demo_versions_sorted.
  - intros i e Hi He; destruct i; [injection He as <-; reflexivity | lia].
  - intros i e Hi He; do 4 (destruct i as [|i]; [lia|]); destruct i; [injection He as <-; reflexivity | done].
  - lia.
  - cbn; lia.
  - exists b; split; [exact E | exact Hb].
Defined.

Lemma find_gives_newest_witness :
  match FooterPartition_find_row (demo_part demo_versions) [Byte.x62] with
  | Some (Ok row) => ([Byte.x62], row) ∈ demo_versions /\ forall row', ([Byte.x62], row') ∈ demo_versions -> fr_lsn row' <= fr_lsn row
  | None => forall row, ([Byte.x62], row) ∉ demo_versions
  | _ => False
  end /\ FooterPartition_find_row (demo_part demo_versions) [Byte.x62] = Some (Ok (mkFooterRow 8 192 5 1)).
Proof.
  split; [| vm_compute; reflexivity].
  apply (find_gives_newest (demo_part demo_versions) demo_versions [Byte.x62]);
    [apply demo_part_rep; [apply demo_versions_rows | reflexivity] | apply demo_versions_sorted].
Defined.

Lemma lookup_exact_witness :
  exists p', FooterPartition_build_filter (demo_part demo_versions) 10 = Ok p'
    /\ match FooterPartition_lookup p' [Byte.x64] with
       | Ok (FoundRow row) => ([Byte.x64], row) ∈ demo_versions /\ forall row', ([Byte.x64], row') ∈ demo_versions -> fr_lsn row' <= fr_lsn row
       | Ok Missing | Ok RuledOut => forall row, ([Byte.x64], row) ∉ demo_versions
       | _ => False
       end.
Proof.
  apply (lookup_exact (demo_part demo_versions) demo_versions 10 [Byte.x64]);
    [apply demo_part_rep; [apply demo_versions_rows | reflexivity] | apply demo_versions_sorted | vm_compute; discriminate | done].
Defined.

Lemma run_is_the_key_witness :
  exists first last : nat, FooterPartition_run (demo_part demo_versions) 2 = Some (Z.of_nat first, Z.of_nat last)
    /\ (first <= 2 <= last)%nat
    /\ forall j x, demo_versions !! j = Some x -> x.1 = [Byte.x62] <-> (first <= j <= last)%nat.
Proof.
  apply (run_is_the_key (demo_part demo_versions) demo_versions 2 ([Byte.x62], mkFooterRow 5 128 5 0));
    [apply demo_part_rep; [apply demo_versions_rows | reflexivity] | apply sealed_keys_sorted, demo_versions_sorted | reflexivity].
Defined.

Lemma sort_seals_witness :
  exists p' es', FooterPartition_sort (demo_part (reverse demo_versions)) = Ok p' /\ part_rep p' es'
    /\ es' ≡ₚ reverse demo_versions /\ sealed_order es' /\ fp_column p' = 2 /\ fp_key_width p' = 1.
Proof.
  destruct (sort_seals (demo_part (reverse demo_versions)) (reverse demo_versions)) as (p' & es' & E & Hp & Hperm & Hs & Hc & Hw & _).
  - apply demo_part_rep; [| reflexivity]; by rewrite reverse_Permutation; apply demo_versions_rows.
  - exists p', es'; split_and!; [exact E | exact Hp | exact Hperm | exact Hs | exact Hc | exact Hw].
Defined.

(** The sort run: reversed, the rows come back in order. *)
Example sort_runs :
  (p ← FooterPartition_sort (demo_part (reverse demo_versions)); Ok (fp_packed p)) = Ok (flat_of demo_versions).
Proof. vm_compute; reflexivity. Qed.
