(* ===== verification/Footer.v ===== *)
(** * Segment footers ([format/footer.rs])

    [SegmentFooter]: rows grouped by column as a segment is written, sorted, filtered, prefix packed
    and checksummed at seal, and parsed back whole. The row bytes lie first, then the filters, the
    directory and the fixed tail; the seal mark lies in the room a segment keeps for it. *)
From S2P Require Import Prelude Error Bytes Checksum Lsn Column Record Filter FooterRow Varint Prefix PackedCursor Partition.

(** ** Constants *)

(** The four letters of each magic, read little endian. *)
Definition FOOTER_MAGIC : Z := le_val [Byte.x52; Byte.x45; Byte.x45; Byte.x4c].
Definition SEAL_MAGIC : Z := le_val [Byte.x53; Byte.x45; Byte.x41; Byte.x4c].

Definition DIRECTORY_ROW_LEN : Z := 1 + 2 + U32_BYTES + U32_BYTES.
Definition DIRECTORY_SPAN_AT : Z := 1 + 2 + U32_BYTES.
Definition PACKED_WIDTH : Z := 32768.
Definition SEAL_MARK_LEN : Z := U64_BYTES + U32_BYTES + U32_BYTES + U32_BYTES.

Definition MAGIC_FROM_END : Z := U32_BYTES.
Definition FOOTER_LEN_FROM_END : Z := MAGIC_FROM_END + U32_BYTES.
Definition CRC_FROM_END : Z := FOOTER_LEN_FROM_END + U32_BYTES.
Definition MAX_LSN_FROM_END : Z := CRC_FROM_END + U64_BYTES.
Definition MIN_LSN_FROM_END : Z := MAX_LSN_FROM_END + U64_BYTES.
Definition LIVE_BYTES_FROM_END : Z := MIN_LSN_FROM_END + U64_BYTES.
Definition DEAD_BYTES_FROM_END : Z := LIVE_BYTES_FROM_END + U64_BYTES.
Definition ENTRY_COUNT_FROM_END : Z := DEAD_BYTES_FROM_END + U32_BYTES.
Definition PARTITION_COUNT_FROM_END : Z := ENTRY_COUNT_FROM_END + U32_BYTES.
Definition BLOOM_LEN_FROM_END : Z := PARTITION_COUNT_FROM_END + U32_BYTES.
Definition SEALED_AT_FROM_END : Z := BLOOM_LEN_FROM_END + U64_BYTES.
Definition FIXED_TAIL_LEN : Z := SEALED_AT_FROM_END.

(** ** Data *)

Record FooterTally := mkFooterTally { ft_live : Z; ft_dead : Z }.

Record SegmentFooter := mkSegmentFooter {
  sf_partitions : list FooterPartition;
  sf_min_lsn : Lsn;
  sf_max_lsn : Lsn;
  sf_sealed_at : Lsn;
  sf_tally : FooterTally;
}.

Record DirectorySpan := mkDirectorySpan {
  ds_footer_len : Z;
  ds_directory_at : Z;
  ds_partitions : Z;
  ds_filter_len : Z;
}.

(** Where one column's rows sit in a segment file ([format/block.rs]). *)
Record PartitionSpan := mkPartitionSpan {
  ps_column : ColumnId;
  ps_key_width : Z;
  ps_is_packed : bool;
  ps_rows : Z;
  ps_at : Z;
  ps_encoded : Z;
}.

(** ** Gathering rows *)

Definition SegmentFooter_empty : SegmentFooter :=
  mkSegmentFooter [] Lsn_NONE Lsn_NONE Lsn_NONE (mkFooterTally 0 0).

(** Room is reserved without changing what the footer holds. *)
Definition SegmentFooter_empty_like (f : SegmentFooter) : SegmentFooter :=
  mkSegmentFooter (map (fun held => FooterPartition_new (fp_column held) (fp_key_width held)) (sf_partitions f))
    Lsn_NONE Lsn_NONE Lsn_NONE (mkFooterTally 0 0).

(** [binary_search_by_key] over entries in column order, by what it promises of a sorted slice: the
    column's place, or where it goes. *)
Fixpoint search_column {A} (column_of : A -> ColumnId) (column : ColumnId) (held : list A) (at_ : nat) : nat + nat :=
  match held with
  | [] => inr at_
  | one :: held =>
      match column_of one ?= column with
      | Eq => inl at_
      | Gt => inr at_
      | Lt => search_column column_of column held (S at_)
      end
  end.

(** [Vec::insert] *)
Definition vec_insert {A} (at_ : nat) (x : A) (l : list A) : list A := take at_ l ++ x :: drop at_ l.

Definition SegmentFooter_push (f : SegmentFooter) (entry : FooterEntry) : SegmentFooter :=
  let column := rk_column (fe_key entry) in
  let width := RecordKey_width (fe_key entry) in
  let '(at_, partitions) :=
    match search_column fp_column column (sf_partitions f) 0 with
    | inl at_ => (at_, sf_partitions f)
    | inr at_ => (at_, vec_insert at_ (FooterPartition_new column width) (sf_partitions f))
    end in
  let partitions := alter (fun p =>
    let p := if negb (fp_key_width p =? width) then FooterPartition_stop_striding p else p in
    FooterPartition_push p entry) at_ partitions in
  let min_lsn := if (sf_min_lsn f =? Lsn_NONE) || (fe_lsn entry <? sf_min_lsn f) then fe_lsn entry else sf_min_lsn f in
  let max_lsn := if fe_lsn entry >? sf_max_lsn f then fe_lsn entry else sf_max_lsn f in
  mkSegmentFooter partitions min_lsn max_lsn (sf_sealed_at f) (sf_tally f).

Definition SegmentFooter_build (entries : list FooterEntry) : SegmentFooter :=
  fold_left SegmentFooter_push entries SegmentFooter_empty.

Definition SegmentFooter_entry_count (f : SegmentFooter) : Z :=
  foldr Z.add 0 (map FooterPartition_len (sf_partitions f)).

Definition SegmentFooter_is_empty (f : SegmentFooter) : bool := SegmentFooter_entry_count f =? 0.

Definition SegmentFooter_entries (f : SegmentFooter) : list (res FooterEntry) :=
  concat (map FooterPartition_entries (sf_partitions f)).

(** ** Packing *)

Definition filter_region_len (ps : list FooterPartition) : Z :=
  if existsb (fun p => match fp_filter p with Some _ => true | None => false end) ps then
    foldr Z.add 0 (map (fun p => match fp_filter p with
                                 | Some filter => Filter_encoded_len filter
                                 | None => FILTER_HEADER_LEN
                                 end) ps)
  else 0.

Definition SegmentFooter_encoded_len (f : SegmentFooter) : Z :=
  let rows := foldr Z.add 0 (map FooterPartition_encoded_len (sf_partitions f)) in
  rows + filter_region_len (sf_partitions f) + len (sf_partitions f) * DIRECTORY_ROW_LEN + FIXED_TAIL_LEN.

Definition push_partition_row (p : FooterPartition) (rows : PrefixRows) (index : Z) : res PrefixRows :=
  width ← ok_or (FooterPartition_key_len p index)
    (Corruption "footer row is shorter than the tail every row carries");
  row ← FooterPartition_row_bytes p index;
  key ← must (slice row 0 width);
  tail_ ← must (slice_from row width);
  PrefixRows_push rows key tail_.

(** The rows' on-disk form; a strided partition lends its own bytes. *)
Definition encoded_partition_rows (p : FooterPartition) : res bytes :=
  if negb (fp_is_packed p) then Ok (fp_packed p) else
  rows ← foldm (push_partition_row p) (seqZ 0 (FooterPartition_len p)) (PrefixRows_new TailEntry);
  Ok (PrefixRows_into_encoded rows).

Definition write_directory_row (buf : bytes) (p : FooterPartition) (span : Z) : bytes :=
  let buf := buf ++ [byte_of (fp_column p)] in
  let width := if fp_is_packed p && negb (FooterPartition_is_varying p)
               then Z.lor (fp_key_width p) PACKED_WIDTH else fp_key_width p in
  let buf := buf ++ u16_le width in
  let buf := buf ++ u32_le (as_u32 (FooterPartition_len p)) in
  buf ++ u32_le (as_u32 span).

(** Sort by column and prepare each partition for its bytes. *)
Definition column_le (a b : FooterPartition) : Prop := fp_column a <= fp_column b.
Global Instance column_le_dec : RelDecision column_le.
Proof. intros a b; unfold column_le; apply _. Defined.

Definition seal_partition (filter_bits : Z) (p : FooterPartition) : res FooterPartition :=
  p ← FooterPartition_sort p;
  p ← FooterPartition_build_filter p filter_bits;
  Ok (mkFooterPartition (fp_column p) (fp_key_width p) (fp_packed p) (fp_starts p) (fp_filter p) true).

Definition encode_filters (ps : list FooterPartition) : bytes :=
  fold_left (fun buf p => match fp_filter p with
                          | Some filter => Filter_encode filter buf
                          | None => Filter_encode Filter_absent buf
                          end) ps [].

Section checksummed.
Context `{Checksum}.

Definition seal_mark (footer_end footer_len : Z) : bytes :=
  let mark := zeros (Z.to_nat SEAL_MARK_LEN) in
  let mark := put mark 0 (u64_le footer_end) in
  let mark := put mark 8 (u32_le footer_len) in
  let mark := put mark 16 (u32_le SEAL_MAGIC) in
  let check := checksum mark in
  put mark 12 (u32_le check).

Definition read_seal_mark (bs : bytes) : option (Z * Z) :=
  if negb (len bs =? SEAL_MARK_LEN) then None else
  if negb (read_u32_le (drop 16 bs) =? SEAL_MAGIC) then None else
  let check := read_u32_le (take 4 (drop 12 bs)) in
  let mark := put bs 12 (zeros 4) in
  if negb (checksum mark =? check) then None
  else Some (read_u64_le (take 8 mark), read_u32_le (take 4 (drop 8 mark))).

(** The bytes behind the rows with their checksum field zero, and where that field lies. *)
Definition footer_tail (f : SegmentFooter) (ps : list FooterPartition) (encoded : list bytes) : bytes * Z * Z :=
  let rows_len := foldr Z.add 0 (map len encoded) in
  let region_len := filter_region_len ps in
  let footer_len := rows_len + region_len + len ps * DIRECTORY_ROW_LEN + FIXED_TAIL_LEN in
  let buf := if region_len >? 0 then encode_filters ps else [] in
  let buf := fold_left (fun buf pr => write_directory_row buf pr.1 (len (pr.2 : bytes))) (zip ps encoded) buf in
  let buf := buf ++ Lsn_pack (sf_sealed_at f) in
  let buf := buf ++ u32_le (as_u32 region_len) in
  let buf := buf ++ u32_le (as_u32 (len ps)) in
  let buf := buf ++ u32_le (as_u32 (foldr Z.add 0 (map FooterPartition_len ps))) in
  let buf := buf ++ u64_le (ft_dead (sf_tally f)) in
  let buf := buf ++ u64_le (ft_live (sf_tally f)) in
  let buf := buf ++ Lsn_pack (sf_min_lsn f) in
  let buf := buf ++ Lsn_pack (sf_max_lsn f) in
  let crc_at := len buf in
  let buf := buf ++ zeros 4 in
  let buf := buf ++ u32_le (as_u32 footer_len) in
  let buf := buf ++ u32_le FOOTER_MAGIC in
  (buf, crc_at, footer_len).

(** The sealed footer, the pieces of rows and the bytes behind them. *)
Definition SegmentFooter_pack_apart (f : SegmentFooter) (filter_bits : Z)
    : res (SegmentFooter * list bytes * bytes) :=
  let ps := List.filter (fun p => negb (FooterPartition_is_empty p)) (sf_partitions f) in
  let ps := merge_sort column_le ps in
  ps ← mapm (seal_partition filter_bits) ps;
  encoded ← mapm encoded_partition_rows ps;
  let '(buf, crc_at, _) := footer_tail f ps encoded in
  let crc := crc_digest (encoded ++ [buf]) in
  let buf := put buf (Z.to_nat crc_at) (u32_le crc) in
  let rows := encoded in
  let ps := map (fun p => if fp_is_packed p then p
                          else mkFooterPartition (fp_column p) (fp_key_width p) [] (fp_starts p) (fp_filter p) false) ps in
  Ok (mkSegmentFooter ps (sf_min_lsn f) (sf_max_lsn f) (sf_sealed_at f) (sf_tally f), rows, buf).

Definition SegmentFooter_put_rows (f : SegmentFooter) (rows : list bytes) : SegmentFooter :=
  mkSegmentFooter
    (zip_with (fun p r => if negb (fp_is_packed p)
       then mkFooterPartition (fp_column p) (fp_key_width p) r (fp_starts p) (fp_filter p) (fp_is_packed p)
       else p) (sf_partitions f) rows ++ drop (length rows) (sf_partitions f))
    (sf_min_lsn f) (sf_max_lsn f) (sf_sealed_at f) (sf_tally f).

Definition SegmentFooter_pack (f : SegmentFooter) (filter_bits : Z) : res (SegmentFooter * bytes) :=
  '(f, rows, tail_) ← SegmentFooter_pack_apart f filter_bits;
  let buf := concat rows ++ tail_ in
  Ok (SegmentFooter_put_rows f rows, buf).

(** ** Parsing *)

Definition width_field (field : Z) : Z * bool :=
  if field =? VARYING_WIDTH then (VARYING_WIDTH, true)
  else if negb (Z.land field PACKED_WIDTH =? 0) then (Z.land field (Z.lxor 65535 PACKED_WIDTH), true)
  else (field, false).

Definition read_at_u32 (footer : bytes) (footer_len from_end : Z) : res Z :=
  b ← must (slice footer (footer_len - from_end) (footer_len - from_end + U32_BYTES));
  Ok (read_u32_le b).

Definition verify_footer_crc (footer : bytes) (footer_len : Z) : res unit :=
  let crc_at := footer_len - CRC_FROM_END in
  stored ← must (slice footer crc_at (footer_len - FOOTER_LEN_FROM_END));
  _ ← must (slice footer crc_at (crc_at + U32_BYTES));
  let check := put footer (Z.to_nat crc_at) (zeros 4) in
  if negb (checksum check =? read_u32_le stored) then Err (Corruption "footer checksum mismatch") else Ok tt.

Record Reading := mkReading {
  rd_partitions : list FooterPartition;
  rd_rows_at : Z;
  rd_lead : option Z;
  rd_listed : list Z;
}.

(** One turn of the directory loop. *)
Definition read_partition (footer : bytes) (directory_at : Z) (r : Reading) (index : Z) : res Reading :=
  let at_ := directory_at + index * DIRECTORY_ROW_LEN in
  row ← ok_or (slice footer at_ (at_ + DIRECTORY_ROW_LEN)) (Corruption "footer directory is truncated");
  column_byte ← must (get row 0);
  let column := u8 column_byte in
  if bool_decide (column ∈ rd_listed r) then Err (Corruption "footer directory lists a column twice") else
  let listed := column :: rd_listed r in
  width_bytes ← must (slice row 1 3);
  let '(key_width, is_packed) := width_field (le_val width_bytes) in
  count_bytes ← must (slice row 3 DIRECTORY_SPAN_AT);
  span_bytes ← must (slice row DIRECTORY_SPAN_AT DIRECTORY_ROW_LEN);
  let count := read_u32_le count_bytes in
  let listed_span := read_u32_le span_bytes in
  let p := FooterPartition_new column key_width in
  if is_packed : bool then
    blob ← ok_or (slice footer (rd_rows_at r) (rd_rows_at r + listed_span)) (Corruption "footer partition is truncated");
    let row_len := if negb (FooterPartition_is_varying p) then Some (FooterPartition_stride p) else None in
    '(packed, starts, rows) ← unpack blob TailEntry row_len;
    if negb (rows =? count) then
      Err (Corruption "footer partition holds a row count its directory row denies")
    else
    let p := mkFooterPartition column key_width packed
               (if FooterPartition_is_varying p then starts else fp_starts p) None true in
    Ok (mkReading (rd_partitions r ++ [p]) (rd_rows_at r + listed_span) (rd_lead r) listed)
  else
    let span := count * FooterPartition_stride p in
    packed ← ok_or (slice footer (rd_rows_at r) (rd_rows_at r + span)) (Corruption "footer partition is truncated");
    if negb (span =? listed_span) then
      Err (Corruption "footer partition is not the length its directory row claims")
    else
    let p := mkFooterPartition column key_width (if index =? 0 then [] else packed) (fp_starts p) None false in
    Ok (mkReading (rd_partitions r ++ [p]) (rd_rows_at r + span)
          (if index =? 0 then Some span else rd_lead r) listed).

Definition read_partitions (footer : bytes) (directory_at partition_count : Z)
    : res (list FooterPartition * Z * option Z) :=
  r ← foldm (read_partition footer directory_at) (seqZ 0 partition_count) (mkReading [] 0 None []);
  Ok (rd_partitions r, rd_rows_at r, rd_lead r).

Definition set_filter (p : FooterPartition) (filter : option Filter) : FooterPartition :=
  mkFooterPartition (fp_column p) (fp_key_width p) (fp_packed p) (fp_starts p) filter (fp_is_packed p).

Definition set_packed (p : FooterPartition) (packed : bytes) : FooterPartition :=
  mkFooterPartition (fp_column p) (fp_key_width p) packed (fp_starts p) (fp_filter p) (fp_is_packed p).

Definition SegmentFooter_parse_owned (segment_tail : bytes) : res SegmentFooter :=
  let total := len segment_tail in
  if total <? FIXED_TAIL_LEN then Err (Corruption "segment is shorter than a footer trailer") else
  magic ← must (slice segment_tail (total - MAGIC_FROM_END) total);
  if negb (read_u32_le magic =? FOOTER_MAGIC) then Err (Corruption "segment has no footer magic") else
  length_bytes ← must (slice segment_tail (total - FOOTER_LEN_FROM_END) (total - MAGIC_FROM_END));
  let footer_len := read_u32_le length_bytes in
  if (footer_len <? FIXED_TAIL_LEN) || (footer_len >? total) then
    Err (Corruption "footer length is out of range")
  else
  let opens := total - footer_len in
  footer ← must (slice segment_tail opens total);
  _ ← verify_footer_crc footer footer_len;
  entry_count ← read_at_u32 footer footer_len ENTRY_COUNT_FROM_END;
  live ← must (slice footer (footer_len - LIVE_BYTES_FROM_END) (footer_len - MIN_LSN_FROM_END));
  dead ← must (slice footer (footer_len - DEAD_BYTES_FROM_END) (footer_len - LIVE_BYTES_FROM_END));
  partition_count ← read_at_u32 footer footer_len PARTITION_COUNT_FROM_END;
  bloom_len ← read_at_u32 footer footer_len BLOOM_LEN_FROM_END;
  min_lsn ← must (slice footer (footer_len - MIN_LSN_FROM_END) (footer_len - MAX_LSN_FROM_END));
  max_lsn ← must (slice footer (footer_len - MAX_LSN_FROM_END) (footer_len - CRC_FROM_END));
  sealed_at ← must (slice footer (footer_len - SEALED_AT_FROM_END) (footer_len - BLOOM_LEN_FROM_END));
  let body := footer_len - FIXED_TAIL_LEN in
  let directory_len := partition_count * DIRECTORY_ROW_LEN in
  if (bloom_len >? body) || (directory_len >? body - bloom_len) then
    Err (Corruption "footer directory does not fit its own length")
  else
  let directory_at := body - directory_len in
  '(partitions, consumed, lead) ← read_partitions footer directory_at partition_count;
  region ← must (slice footer (directory_at - bloom_len) directory_at);
  filters ← Filter_parse_region region (Z.to_nat partition_count);
  let partitions := zip_with set_filter partitions filters in
  partitions ← match lead with
               | None => Ok partitions
               | Some span =>
                   p ← must (get partitions 0);
                   Ok (alter (fun p => set_packed p (drop (Z.to_nat opens) (take (Z.to_nat (opens + span)) segment_tail)))
                         0%nat partitions)
               end;
  let listed := foldr Z.add 0 (map FooterPartition_len partitions) in
  if negb (consumed =? directory_at - bloom_len) || negb (listed =? entry_count) then
    Err (Corruption "footer entry count is inconsistent with its length")
  else
  Ok (mkSegmentFooter (merge_sort column_le partitions) (read_u64_le min_lsn) (read_u64_le max_lsn)
       (read_u64_le sealed_at) (mkFooterTally (read_u64_le live) (read_u64_le dead))).

Definition SegmentFooter_parse (segment_tail : bytes) : res SegmentFooter :=
  SegmentFooter_parse_owned segment_tail.

End checksummed.

(** One column's entry in a slice held in column order, scanned when short. *)
Definition partition_in {A} (held : list A) (column : ColumnId) (column_of : A -> ColumnId) : option A :=
  if len held <=? 8 then List.find (fun one => column_of one =? column) held
  else match search_column column_of column held 0 with
       | inl at_ => held !! at_
       | inr _ => None
       end.

Definition SegmentFooter_partition (f : SegmentFooter) (column : ColumnId) : option FooterPartition :=
  partition_in (sf_partitions f) column fp_column.

(** ** The directory on its own *)

Definition directory_span (tail_ : bytes) (file_len : Z) : res (option DirectorySpan) :=
  let total := len tail_ in
  if total <? FIXED_TAIL_LEN then Ok None else
  magic ← must (slice tail_ (total - MAGIC_FROM_END) total);
  if negb (read_u32_le magic =? FOOTER_MAGIC) then Ok None else
  length_bytes ← must (slice tail_ (total - FOOTER_LEN_FROM_END) (total - MAGIC_FROM_END));
  let footer_len := read_u32_le length_bytes in
  if (footer_len <? FIXED_TAIL_LEN) || (footer_len >? file_len) then
    Err (Corruption "footer length is out of range")
  else
  count_bytes ← must (slice tail_ (total - PARTITION_COUNT_FROM_END) (total - PARTITION_COUNT_FROM_END + U32_BYTES));
  bloom_bytes ← must (slice tail_ (total - BLOOM_LEN_FROM_END) (total - BLOOM_LEN_FROM_END + U32_BYTES));
  let partitions := read_u32_le count_bytes in
  let bloom_len := read_u32_le bloom_bytes in
  let body := footer_len - FIXED_TAIL_LEN in
  let directory_len := partitions * DIRECTORY_ROW_LEN in
  if (bloom_len >? body) || (directory_len >? body - bloom_len) then
    Err (Corruption "footer directory does not fit its own length")
  else Ok (Some (mkDirectorySpan footer_len (body - directory_len) partitions bloom_len)).

Definition partition_span_row (directory : bytes) (acc : list PartitionSpan * Z) (index : Z)
    : res (list PartitionSpan * Z) :=
  let '(spans, at_) := acc in
  let start := index * DIRECTORY_ROW_LEN in
  row ← ok_or (slice directory start (start + DIRECTORY_ROW_LEN)) (Corruption "footer directory is truncated");
  width_bytes ← must (slice row 1 3);
  let '(key_width, is_packed) := width_field (le_val width_bytes) in
  rows ← must (slice row 3 DIRECTORY_SPAN_AT);
  encoded ← must (slice row DIRECTORY_SPAN_AT DIRECTORY_ROW_LEN);
  column ← must (get row 0);
  let span := mkPartitionSpan (u8 column) key_width is_packed (read_u32_le rows) at_ (read_u32_le encoded) in
  Ok (spans ++ [span], at_ + read_u32_le encoded).

Definition partition_spans (directory : bytes) (partitions rows_at : Z) : res (list PartitionSpan) :=
  '(spans, _) ← foldm (partition_span_row directory) (seqZ 0 partitions) ([], rows_at);
  Ok spans.

(** ** Seal marks *)

Section seal.
Context `{ChecksumLaws}.

Definition mark_bytes (a b c : bytes) : bytes := a ++ b ++ c ++ u32_le SEAL_MAGIC.

Lemma seal_mark_layout footer_end footer_len :
  seal_mark footer_end footer_len
  = mark_bytes (u64_le footer_end) (u32_le footer_len)
      (u32_le (checksum (mark_bytes (u64_le footer_end) (u32_le footer_len) (zeros 4)))).
Proof. reflexivity. Qed.

Lemma mark_split (bs : bytes) : len bs = SEAL_MARK_LEN -> exists a b c d,
  bs = a ++ b ++ c ++ d /\ length a = 8%nat /\ length b = 4%nat /\ length c = 4%nat /\ length d = 4%nat.
Proof.
  unfold SEAL_MARK_LEN, U64_BYTES, U32_BYTES; intros Hl.
  destruct (cut_bytes bs 8) as (a & t1 & -> & Ha); [lia|]; rewrite len_app in Hl; unfold len in Hl.
  destruct (cut_bytes t1 4) as (b & t2 & -> & Hb); [unfold len; lia|]; rewrite length_app in Hl.
  destruct (cut_bytes t2 4) as (c & d & -> & Hc); [unfold len; lia|]; rewrite length_app in Hl.
  exists a, b, c, d; split_and!; lia || done.
Qed.

Lemma read_seal_mark_fields a b c d : length a = 8%nat -> length b = 4%nat -> length c = 4%nat -> length d = 4%nat ->
  read_seal_mark (a ++ b ++ c ++ d)
  = if (le_val d =? SEAL_MAGIC) && (checksum (a ++ b ++ zeros 4 ++ d) =? le_val c)
    then Some (le_val a, le_val b) else None.
Proof.
  intros Ha Hb Hc Hd; unfold read_seal_mark, read_u32_le, read_u64_le.
  assert (len (a ++ b ++ c ++ d) = SEAL_MARK_LEN) as -> by (rewrite !len_app; unfold len, SEAL_MARK_LEN, U64_BYTES, U32_BYTES; lia).
  rewrite Z.eqb_refl; cbn [negb].
  assert (put (a ++ b ++ c ++ d) 12 (zeros 4) = a ++ b ++ zeros 4 ++ d) as ->
    by (rewrite !(app_assoc a); apply put_app; [rewrite length_app; lia | done]).
  assert (drop 16 (a ++ b ++ c ++ d) = d) as -> by (rewrite !app_assoc; apply drop_app_length'; rewrite !length_app; lia).
  assert (take 4 (drop 12 (a ++ b ++ c ++ d)) = c) as ->
    by (rewrite (app_assoc a), drop_app_length' by (rewrite length_app; lia); apply take_app_length'; lia).
  rewrite (take_app_length' a), (drop_app_length' a), (take_app_length' b) by lia.
  destruct (le_val d =? SEAL_MAGIC), (checksum _ =? le_val c); done.
Qed.

(** the bytes that read as a seal mark are exactly the marks written, one for each footer end
    and length: a mark reads back as what it was written for, and nothing else reads as a mark. *)
Lemma seal_mark_exact bs footer_end footer_len :
  read_seal_mark bs = Some (footer_end, footer_len)
  <-> bs = seal_mark footer_end footer_len /\ is_u64 footer_end /\ is_u32 footer_len.
Proof.
  split.
  - intros E; destruct (Z.eqb_spec (len bs) SEAL_MARK_LEN) as [Hl|Hl].
    2:{ unfold read_seal_mark in E; destruct (Z.eqb_spec (len bs) SEAL_MARK_LEN); done. }
    apply mark_split in Hl as (a & b & c & d & -> & Ha & Hb & Hc & Hd).
    rewrite read_seal_mark_fields in E by done; destruct (_ && _) eqn:Ec; [| done]; b2p; injection E as <- <-.
    assert (d = u32_le SEAL_MAGIC) as ->.
    { rewrite <- (u32_le_val d) by (unfold len; lia); congruence. }
    rewrite seal_mark_layout; unfold mark_bytes.
    rewrite (u64_le_val a), (u32_le_val b) by (unfold len; lia).
    split; [| split; [apply le_val_is_u64; unfold len; lia | apply le_val_is_u32; unfold len; lia]].
    do 2 f_equal; f_equal; match goal with E : checksum _ = le_val c |- _ => rewrite E end; symmetry; apply u32_le_val; unfold len; lia.
  - intros (-> & He & Hl); rewrite seal_mark_layout; unfold mark_bytes at 1.
    rewrite read_seal_mark_fields by reflexivity.
    rewrite (le_val_u32 (checksum _)) by apply crc_checksum_u32; unfold mark_bytes; rewrite Z.eqb_refl.
    rewrite (le_val_u64 footer_end), (le_val_u32 footer_len) by done; by rewrite Z.eqb_refl.
Qed.

End seal.

Lemma seal_mark_exact_witness : read_seal_mark (seal_mark 4096 700) = Some (4096, 700).
Proof. apply (seal_mark_exact (seal_mark 4096 700) 4096 700); split; [reflexivity | split; widths]. Defined.

(** ** Directory rows *)

Definition part_width_ok (p : FooterPartition) : Prop :=
  fp_key_width p = VARYING_WIDTH \/ 0 <= fp_key_width p <= MAX_KEY_LEN.

Definition directory_row (p : FooterPartition) (count span : Z) : bytes :=
  [byte_of (fp_column p)]
  ++ u16_le (if fp_is_packed p && negb (FooterPartition_is_varying p) then Z.lor (fp_key_width p) PACKED_WIDTH else fp_key_width p)
  ++ u32_le count ++ u32_le span.

Lemma packed_width_fields w : 0 <= w < 32768 ->
  Z.lor w PACKED_WIDTH = w + 32768 /\ Z.land (w + 32768) PACKED_WIDTH <> 0 /\ Z.land (w + 32768) (Z.lxor 65535 PACKED_WIDTH) = w.
Proof.
  intros Hw; unfold PACKED_WIDTH.
  assert (Z.lor w 32768 = w + 32768) as E by (rewrite Z.lor_comm; change 32768 with (1 * 2 ^ 15) at 1; rewrite lor_shifted by lia; lia).
  split; [done|]; rewrite <- E; split.
  - intros E0; apply (f_equal (fun z => Z.testbit z 15)) in E0; rewrite Z.land_spec, Z.lor_spec, Z.bits_0 in E0.
    by rewrite orb_true_r in E0.
  - change (Z.lxor 65535 32768) with (Z.ones 15); rewrite Z.land_ones by lia.
    rewrite E, <- Z.add_mod_idemp_r by lia; change (32768 mod 2 ^ 15) with 0; rewrite Z.add_0_r; apply Z.mod_small; lia.
Qed.

Lemma width_field_back p : part_width_ok p -> fp_is_packed p = true ->
  let w := if fp_is_packed p && negb (FooterPartition_is_varying p) then Z.lor (fp_key_width p) PACKED_WIDTH else fp_key_width p in
  is_u16 w /\ width_field w = (fp_key_width p, true).
Proof.
  intros Hw Hpk w; subst w; rewrite Hpk; unfold FooterPartition_is_varying, width_field.
  destruct (Z.eqb_spec (fp_key_width p) VARYING_WIDTH) as [E|E]; cbn [negb andb].
  - rewrite E, Z.eqb_refl; done.
  - destruct Hw as [?|Hw]; [done|]; unfold MAX_KEY_LEN in Hw.
    destruct (packed_width_fields (fp_key_width p) ltac:(lia)) as (-> & E2 & ->).
    split; [unfold is_u16, U16; lia|]; unfold VARYING_WIDTH; destruct (Z.eqb_spec (fp_key_width p + 32768) 65535); [lia|].
    destruct (Z.eqb_spec (Z.land (fp_key_width p + 32768) PACKED_WIDTH) 0); done.
Qed.

Lemma write_directory_row_bytes buf p span : is_u32 (FooterPartition_len p) -> is_u32 span ->
  write_directory_row buf p span = buf ++ directory_row p (FooterPartition_len p) span.
Proof.
  intros; unfold write_directory_row, directory_row; rewrite !as_u32_small by done; by rewrite <- !app_assoc.
Qed.

Lemma len_directory_row p count span : len (directory_row p count span) = DIRECTORY_ROW_LEN.
Proof. reflexivity. Qed.

Lemma directory_row_fields p count span : is_u8 (fp_column p) -> part_width_ok p -> fp_is_packed p = true ->
  is_u32 count -> is_u32 span ->
  get (directory_row p count span) 0 = Some (byte_of (fp_column p)) /\ u8 (byte_of (fp_column p)) = fp_column p
  /\ (exists wb, slice (directory_row p count span) 1 3 = Some wb /\ width_field (le_val wb) = (fp_key_width p, true))
  /\ (exists cb, slice (directory_row p count span) 3 DIRECTORY_SPAN_AT = Some cb /\ read_u32_le cb = count)
  /\ (exists sb, slice (directory_row p count span) DIRECTORY_SPAN_AT DIRECTORY_ROW_LEN = Some sb /\ read_u32_le sb = span).
Proof.
  intros Hc Hw Hpk Hn Hs; destruct (width_field_back p Hw Hpk) as [H16 Hf].
  split_and!; [reflexivity | by apply u8_byte_of_small | | |].
  - eexists (u16_le _); split; [reflexivity|]; by rewrite le_val_u16.
  - exists (u32_le count); split; [reflexivity | by apply le_val_u32].
  - exists (u32_le span); split; [reflexivity | by apply le_val_u32].
Qed.

(** ** Gathering *)

Definition columns_ascend (ps : list FooterPartition) : Prop :=
  StronglySorted (fun a b => fp_column a < fp_column b) ps.

Definition entry_column (e : FooterEntry) : ColumnId := rk_column (fe_key e).

(** The rows of one column among the entries, in the order they came. *)
Definition rows_in (column : ColumnId) (es : list FooterEntry) : list erow :=
  map erow_of (List.filter (fun e => entry_column e =? column) es).

Record entry_wf (e : FooterEntry) : Prop := {
  ew_key : record_key_wf (fe_key e);
  ew_row : footer_row_wf (erow_of e).2;
}.

Definition lsn_min (es : list FooterEntry) : Lsn :=
  fold_left (fun m e => if (m =? Lsn_NONE) || (fe_lsn e <? m) then fe_lsn e else m) es Lsn_NONE.
Definition lsn_max (es : list FooterEntry) : Lsn :=
  fold_left (fun m e => if fe_lsn e >? m then fe_lsn e else m) es Lsn_NONE.

Record footer_holds (f : SegmentFooter) (es : list FooterEntry) : Prop := {
  fh_ascend : columns_ascend (sf_partitions f);
  fh_parts : Forall (fun p => part_rep p (rows_in (fp_column p) es) /\ part_width_ok p /\ is_u8 (fp_column p))
               (sf_partitions f);
  fh_all : forall e, e ∈ es -> entry_column e ∈ map fp_column (sf_partitions f);
  fh_min : sf_min_lsn f = lsn_min es;
  fh_max : sf_max_lsn f = lsn_max es;
}.

Lemma rows_in_snoc column es e : rows_in column (es ++ [e]) =
  if entry_column e =? column then rows_in column es ++ [erow_of e] else rows_in column es.
Proof.
  unfold rows_in; rewrite List.filter_app; cbn [List.filter]; destruct (_ =? _); rewrite ?app_nil_r; [by rewrite map_app | done].
Qed.

Lemma rows_in_nil column es : (forall e, e ∈ es -> entry_column e <> column) -> rows_in column es = [].
Proof.
  intros H; unfold rows_in; replace (List.filter _ es) with (@nil FooterEntry); [done|].
  induction es as [|e es IH]; [done|]; cbn [List.filter].
  destruct (Z.eqb_spec (entry_column e) column) as [E|_]; [by apply H in E; [| left]|].
  apply IH; intros; apply H; by right.
Qed.

Lemma search_column_spec {A} (column_of : A -> ColumnId) column ps :
  StronglySorted (fun a b => column_of a < column_of b) ps -> forall at_,
  match search_column column_of column ps at_ with
  | inl i => exists a p b, ps = a ++ p :: b /\ i = (at_ + length a)%nat /\ column_of p = column
  | inr i => exists a b, ps = a ++ b /\ i = (at_ + length a)%nat
      /\ Forall (fun p => column_of p < column) a /\ Forall (fun p => column < column_of p) b
  end.
Proof.
  induction 1 as [|p ps Hs IH Hall]; intros at_; cbn [search_column].
  { exists [], []; split_and!; [done | cbn; lia | constructor | constructor]. }
  destruct (Z.compare_spec (column_of p) column) as [E|E|E].
  - exists [], p, ps; split_and!; [done | cbn; lia | done].
  - specialize (IH (S at_)); destruct (search_column _ _ _ _) as [i|i].
    + destruct IH as (a & q & b & -> & -> & ?); exists (p :: a), q, b; split_and!; [done | cbn; lia | done].
    + destruct IH as (a & b & -> & -> & ? & ?); exists (p :: a), b; split_and!; [done | cbn; lia | by constructor | done].
  - exists [], (p :: ps); split_and!; [done | cbn; lia | constructor|]; constructor; [done|].
    eapply Forall_impl; [exact Hall|]; cbn; lia.
Qed.

(** A column names at most one entry of a list in column order, and sorting leaves such a list be. *)
Lemma column_once {A} (column_of : A -> ColumnId) l a b : StronglySorted (fun a b => column_of a < column_of b) l ->
  a ∈ l -> b ∈ l -> column_of a = column_of b -> a = b.
Proof.
  intros Hc [i Hi]%list_elem_of_lookup [j Hj]%list_elem_of_lookup E.
  destruct (Nat.lt_trichotomy i j) as [Hij|[->|Hij]]; [| congruence |].
  - pose proof (StronglySorted_lookup _ l i j a b Hc Hij Hi Hj); cbv beta in *; lia.
  - pose proof (StronglySorted_lookup _ l j i b a Hc Hij Hj Hi); cbv beta in *; lia.
Qed.

Lemma merge_column_order {A} (column_of : A -> ColumnId) (R : relation A) `{!RelDecision R} l :
  (forall a b, R a b <-> column_of a <= column_of b) ->
  StronglySorted (fun a b => column_of a < column_of b) l -> merge_sort R l = l.
Proof.
  intros HR Hc; apply (StronglySorted_unique_strong R).
  - intros a b Ha Hb H1%HR H2%HR; rewrite merge_sort_Permutation in Ha.
    apply (column_once column_of l); [done | done | done | lia].
  - apply StronglySorted_merge_sort; [intros a b c; rewrite !HR; lia | intros a b; rewrite !HR; lia].
  - clear -HR Hc; induction Hc as [|p ps _ IH Hall]; constructor; [done|]; eapply Forall_impl; [exact Hall|]; intros q; rewrite HR; lia.
  - apply merge_sort_Permutation.
Qed.

Lemma partition_in_spec {A} (column_of : A -> ColumnId) ps column : StronglySorted (fun a b => column_of a < column_of b) ps ->
  match partition_in ps column column_of with
  | Some p => p ∈ ps /\ column_of p = column
  | None => column ∉ map column_of ps
  end.
Proof.
  intros Hs; unfold partition_in; destruct (_ <=? _).
  - destruct (List.find _ ps) as [p|] eqn:E.
    + apply find_some in E as [Hin Hc]; split; [by apply list_elem_of_In | by apply Z.eqb_eq].
    + intros (p & Ep & Hp)%list_elem_of_fmap; apply list_elem_of_In in Hp; apply (find_none _ _ E) in Hp; b2p; congruence.
  - pose proof (search_column_spec column_of column ps Hs 0) as Hf; destruct (search_column _ _ _ _) as [i|i].
    + destruct Hf as (a & p & b & -> & -> & Hc); cbn [Nat.add]; rewrite list_lookup_middle by done; set_solver.
    + destruct Hf as (a & b & -> & _ & Ha & Hb); intros (p & Ep & [Hp|Hp]%elem_of_app)%list_elem_of_fmap.
      * rewrite Forall_forall in Ha; apply Ha in Hp; lia.
      * rewrite Forall_forall in Hb; apply Hb in Hp; lia.
Qed.

Lemma alter_middle {A} (g : A -> A) a x b (i : nat) : i = length a -> alter g i (a ++ x :: b) = a ++ g x :: b.
Proof.
  intros ->; induction a as [|y a IH]; [done|].
  change (y :: alter g (length a) (a ++ x :: b) = y :: (a ++ g x :: b)); by rewrite IH.
Qed.

Lemma columns_ascend_replace a p q b : fp_column q = fp_column p ->
  columns_ascend (a ++ p :: b) -> columns_ascend (a ++ q :: b).
Proof.
  unfold columns_ascend; intros Hc Hs; apply StronglySorted_app in Hs as (Hab & Ha & Hb).
  apply StronglySorted_inv in Hb as [Hb Hall].
  apply StronglySorted_app; split_and!; [| done | constructor; [done | by rewrite Hc]].
  intros x y Hx [->|Hy]%elem_of_cons; [rewrite Hc; apply Hab; [done | by left] | apply Hab; [done | by right]].
Qed.

Lemma push_part_rep p es e : entry_wf e -> part_rep p es -> part_width_ok p ->
  len (flat_of (es ++ [erow_of e])) < U32 ->
  let p1 := if negb (fp_key_width p =? RecordKey_width (fe_key e)) then FooterPartition_stop_striding p else p in
  part_rep (FooterPartition_push p1 e) (es ++ [erow_of e]) /\ part_width_ok (FooterPartition_push p1 e)
  /\ fp_column (FooterPartition_push p1 e) = fp_column p.
Proof.
  intros [[_ Hk] Hr] Hp Hw Hl p1.
  assert (len (erow_of e).1 = RecordKey_width (fe_key e)) as Elen
    by (cbn; unfold RecordKey_width, RecordKey_as_slice; by rewrite key_wf_width).
  assert (part_rep p1 es /\ part_width_ok p1 /\ fp_column p1 = fp_column p
    /\ (FooterPartition_is_varying p1 = true \/ len (erow_of e).1 = fp_key_width p1)) as (H1 & H2 & H3 & H4).
  { subst p1; destruct (Z.eqb_spec (fp_key_width p) (RecordKey_width (fe_key e))) as [E|E]; cbn [negb].
    - split_and!; [done | done | done | right; congruence].
    - split_and!; [by apply part_stop_striding_rep | | |]; unfold FooterPartition_stop_striding;
        destruct (FooterPartition_is_varying p) eqn:Ev; try done.
      + by left.
      + by left. 
      + by left. }
  split; [by apply part_push_rep | done].
Qed.

Lemma new_part_rep column k : key_wf k ->
  part_rep (FooterPartition_new column (KeyBytes_width k)) [] /\ part_width_ok (FooterPartition_new column (KeyBytes_width k)).
Proof.
  intros Hk; pose proof (key_wf_len k Hk); rewrite key_wf_width by done; split.
  - apply part_new_rep, len_nonneg.
  - right; cbn; split; [apply len_nonneg | done].
Qed.

(** Pushing an entry into a partition list split at its column. *)
Lemma push_parts_holds a p b e es : entry_wf e -> columns_ascend (a ++ p :: b) ->
  Forall (fun p => part_rep p (rows_in (fp_column p) es) /\ part_width_ok p /\ is_u8 (fp_column p)) (a ++ p :: b) ->
  fp_column p = entry_column e -> len (flat_of (rows_in (fp_column p) es ++ [erow_of e])) < U32 ->
  let p1 := if negb (fp_key_width p =? RecordKey_width (fe_key e)) then FooterPartition_stop_striding p else p in
  columns_ascend (a ++ FooterPartition_push p1 e :: b)
  /\ Forall (fun p => part_rep p (rows_in (fp_column p) (es ++ [e])) /\ part_width_ok p /\ is_u8 (fp_column p))
       (a ++ FooterPartition_push p1 e :: b).
Proof.
  intros He Hs Hall Hc Hl p1; pose proof Hs as Hs'; apply StronglySorted_app in Hs' as (Hab & _ & Hpb).
  apply StronglySorted_inv in Hpb as [_ Hpb]; rewrite Forall_forall in Hpb.
  apply Forall_app in Hall as [Ha [(Hp & Hw & Hu) Hb]%Forall_cons].
  destruct (push_part_rep p _ e He Hp Hw Hl) as (H1 & H2 & H3); fold p1 in H1, H2, H3.
  split; [by apply (columns_ascend_replace a p)|].
  assert (forall q, fp_column q <> fp_column p -> rows_in (fp_column q) (es ++ [e]) = rows_in (fp_column q) es) as Hother.
  { intros q Hq; rewrite rows_in_snoc; destruct (Z.eqb_spec (entry_column e) (fp_column q)); [congruence | done]. }
  apply Forall_app; split; [| constructor].
  - apply Forall_forall; intros q Hq; rewrite Hother; [rewrite Forall_forall in Ha; by apply Ha|].
    specialize (Hab q p Hq ltac:(by left)); cbn in Hab; lia.
  - rewrite H3, rows_in_snoc, Hc, Z.eqb_refl; rewrite Hc in H1, Hu; done.
  - apply Forall_forall; intros q Hq; rewrite Hother; [rewrite Forall_forall in Hb; by apply Hb|].
    specialize (Hpb q Hq); cbn in Hpb; lia.
Qed.

Lemma rows_in_flat_le column es : len (flat_of (rows_in column es)) <= len (flat_of (map erow_of es)).
Proof.
  induction es as [|e es IH] using rev_ind; [done|]; rewrite rows_in_snoc, map_app; cbn [map].
  rewrite (len_flat_snoc (map erow_of es)); destruct (_ =? _); [rewrite len_flat_snoc; lia|].
  pose proof (len_nonneg (erow_of e).1); unfold ENTRY_TAIL_LEN, U64_BYTES, U32_BYTES; lia.
Qed.

(** The partition a push lands in, there already or new, is in place among partitions that hold the
    rows so far. *)
Lemma push_place ps es e : columns_ascend ps -> entry_wf e ->
  Forall (fun p => part_rep p (rows_in (fp_column p) es) /\ part_width_ok p /\ is_u8 (fp_column p)) ps ->
  (forall x, x ∈ es -> entry_column x ∈ map fp_column ps) ->
  exists a p b, (match search_column fp_column (entry_column e) ps 0 with
      | inl at_ => (at_, ps)
      | inr at_ => (at_, vec_insert at_ (FooterPartition_new (entry_column e) (RecordKey_width (fe_key e))) ps)
      end) = (length a, a ++ p :: b) /\ fp_column p = entry_column e
    /\ columns_ascend (a ++ p :: b)
    /\ Forall (fun p => part_rep p (rows_in (fp_column p) es) /\ part_width_ok p /\ is_u8 (fp_column p)) (a ++ p :: b)
    /\ forall c, c ∈ map fp_column ps -> c ∈ map fp_column (a ++ p :: b).
Proof.
  intros Hs He Hall Hin; pose proof (search_column_spec fp_column (entry_column e) ps Hs 0) as Hf.
  destruct (search_column _ _ _ _) as [i|i].
  { destruct Hf as (a & p & b & E & -> & Hc); exists a, p, b; rewrite <- E; split_and!; done. }
  destruct Hf as (a & b & -> & -> & Ha & Hb).
  destruct (new_part_rep (entry_column e) (rk_key (fe_key e))) as [Hn1 Hn2]; [apply He|].
  set (new := FooterPartition_new _ _) in *; exists a, new, b.
  assert (rows_in (entry_column e) es = []) as Hnone.
  { apply rows_in_nil; intros x Hx Ex; apply Hin in Hx; rewrite Ex in Hx.
    apply list_elem_of_fmap in Hx as (q & Eq & [Hq|Hq]%elem_of_app).
    - rewrite Forall_forall in Ha; apply Ha in Hq; lia.
    - rewrite Forall_forall in Hb; apply Hb in Hq; lia. }
  assert (vec_insert (0 + length a) new (a ++ b) = a ++ new :: b) as ->
    by (unfold vec_insert; cbn [Nat.add]; by rewrite take_app_length, drop_app_length).
  split_and!; [done | done | | |].
  - apply StronglySorted_app in Hs as (Hab & Hsa & Hsb); apply StronglySorted_app; split_and!; [| done | by constructor].
    rewrite Forall_forall in Ha; intros x y Hx [->|Hy]%elem_of_cons; [by apply Ha | by apply Hab].
  - apply Forall_app in Hall as [Hall1 Hall2]; apply Forall_app; split; [done|]; constructor; [| done].
    change (fp_column new) with (entry_column e); rewrite Hnone; split_and!; [done | done | apply He].
  - intros c; rewrite !map_app; cbn [map]; set_solver.
Qed.

Lemma push_column p e : fp_column (FooterPartition_push (if negb (fp_key_width p =? RecordKey_width (fe_key e))
  then FooterPartition_stop_striding p else p) e) = fp_column p.
Proof.
  destruct (negb _); [| done]; unfold FooterPartition_push, FooterPartition_stop_striding; cbn.
  by destruct (FooterPartition_is_varying p).
Qed.

Lemma push_holds f es e : footer_holds f es -> entry_wf e ->
  len (flat_of (map erow_of (es ++ [e]))) < U32 -> footer_holds (SegmentFooter_push f e) (es ++ [e]).
Proof.
  intros [Hs Hall Hin Hmin Hmax] He Hl; unfold SegmentFooter_push.
  assert (forall column, len (flat_of (rows_in column es ++ [erow_of e])) < U32) as Hfit.
  { intros c; pose proof (rows_in_flat_le c es); rewrite (map_app erow_of) in Hl; cbn [map] in Hl.
    rewrite len_flat_snoc in Hl |- *; lia. }
  change (rk_column (fe_key e)) with (entry_column e).
  destruct (push_place (sf_partitions f) es e Hs He Hall Hin) as (a & p & b & -> & Hc & Hs' & Hall' & Hsub).
  rewrite alter_middle by done; cbv zeta.
  destruct (push_parts_holds a p b e es He Hs' Hall' Hc (Hfit _)) as [R1 R2].
  constructor; cbn [sf_partitions sf_min_lsn sf_max_lsn]; [done | done | | |].
  - intros x Hx; rewrite map_app; cbn [map]; rewrite push_column; apply elem_of_app in Hx as [Hx|Hx].
    + apply Hin, Hsub in Hx; by rewrite map_app in Hx.
    + apply list_elem_of_singleton in Hx as ->; rewrite <- Hc; set_solver.
  - rewrite Hmin; unfold lsn_min; by rewrite fold_left_app.
  - rewrite Hmax; unfold lsn_max; by rewrite fold_left_app.
Qed.

Lemma build_holds es : Forall entry_wf es -> len (flat_of (map erow_of es)) < U32 ->
  footer_holds (SegmentFooter_build es) es.
Proof.
  induction es as [|e es IH] using rev_ind; intros Hw Hl.
  { split; cbn; [apply SSorted_nil | by apply Forall_nil | by intros e He%elem_of_nil | done | done]. }
  apply Forall_app in Hw as [Hw [He _]%Forall_cons]; unfold SegmentFooter_build; rewrite fold_left_app; cbn [fold_left].
  apply push_holds; [| done | done]; apply IH; [done|].
  rewrite map_app in Hl; cbn [map] in Hl; rewrite len_flat_snoc in Hl; pose proof (len_nonneg (erow_of e).1).
  unfold ENTRY_TAIL_LEN, U64_BYTES, U32_BYTES in Hl; lia.
Qed.
