(* ===== verification/FooterSeal.v ===== *)
(** * Sealing a footer and reading it back ([format/footer.rs])

    The packed footer parses back as the footer that was sealed, behind any bytes of a segment, and
    what it answers a lookup is what was gathered. *)
From S2P Require Import Prelude Error Bytes Checksum Lsn Column Record Filter FooterRow Varint Prefix PackedCursor Partition Footer.

(** ** Sizes *)

Lemma len_varint_le fuel : forall v, len (varint fuel v) <= Z.of_nat fuel.
Proof.
  induction fuel as [|fuel IH]; intros v; [done|]; rewrite varint_S; destruct (_ >=? _); [| len_lia].
  specialize (IH (Z.shiftr v 7)); rewrite len_cons; lia.
Qed.

Lemma packed_row_le before row : tail_ok TailEntry row.2 ->
  len (packed_row TailEntry before row) <= 3 * (len row.1 + len row.2).
Proof.
  intros [Ht _]; unfold packed_row, tail_bytes; set (s := shared_prefix _ _); rewrite !len_app, len_drop.
  cbn [Tail_len] in Ht; unfold ENTRY_TAIL_LEN, U64_BYTES, U32_BYTES in Ht; change (len [tail_flags row.2]) with 1.
  repeat match goal with |- context [len (varint 10 ?v)] =>
    lazymatch goal with H : len (varint 10 v) <= _ |- _ => fail | _ => pose proof (len_varint_le 10 v) end end.
  pose proof (len_nonneg row.1); lia.
Qed.

Lemma packed_le rows : Forall (row_ok TailEntry) rows -> len (packed TailEntry rows) <= 3 * len (flat rows).
Proof.
  induction rows as [|row rows IH] using rev_ind; [done|]; intros [Hr [[_ Hrow] _]%Forall_cons]%Forall_app.
  rewrite packed_snoc, flat_snoc, !len_app; pose proof (packed_row_le rows row Hrow); specialize (IH Hr); lia.
Qed.

Lemma packed_ge rows : len rows <= len (packed TailEntry rows).
Proof.
  induction rows as [|row rows IH] using rev_ind; [done|]; rewrite packed_snoc, !len_app.
  pose proof (packed_row_nonempty TailEntry rows row); change (len [row]) with 1; lia.
Qed.

(** ** One sealed partition *)

Record sealed_part (p : FooterPartition) (es : list erow) : Prop := {
  sp_rep : part_rep p es;
  sp_order : sealed_order es;
  sp_packed : fp_is_packed p = true;
  sp_width : part_width_ok p;
  sp_column : is_u8 (fp_column p);
  sp_keys : Forall (fun e => len e.1 <= MAX_KEY_LEN) es;
  sp_filter : match fp_filter p with
              | Some f => fl_kind f = KIND_BLOOM /\ filter_wf f
              | None => True
              end;
  sp_may : (forall key, exists b, FooterPartition_may_hold p key = Ok b)
           /\ forall e, e ∈ es -> FooterPartition_may_hold p e.1 = Ok true;
}.

Lemma rows_of_sealed p es : sealed_part p es -> Forall (row_ok TailEntry) (map prow_of es) /\ rows_sorted (map prow_of es).
Proof.
  intros Hp; split.
  - apply Forall_map; pose proof (sp_keys _ _ Hp) as Hk; eapply Forall_impl; [exact Hk|]; intros e He.
    split; [unfold MAX_KEY_LEN, U64 in *; cbn [prow_of fst]; lia | split; [done | vm_compute; discriminate]].
  - pose proof (sealed_keys_sorted _ (sp_order _ _ Hp)) as Hs; unfold rows_sorted, keys_sorted in *.
    by rewrite map_map.
Qed.

Definition enc (es : list erow) : bytes := block_bytes (pack_state TailEntry (map prow_of es)).

Lemma block_bytes_parts es : len (enc es) = len (packed TailEntry (map prow_of es))
  + 4 * div_ceil (len es) RESTART_INTERVAL + 8.
Proof.
  unfold enc, block_bytes; cbn [pack_state pr_packed pr_restarts pr_rows]; len_simpl.
  rewrite len_restart_offsets; unfold len at 2; rewrite length_map; unfold len; lia.
Qed.

Lemma sealed_fits p es : sealed_part p es -> len (enc es) < U32 -> block_fits TailEntry (map prow_of es).
Proof.
  intros Hp Hl; split; [by eapply rows_of_sealed|]; rewrite block_bytes_parts in Hl.
  pose proof (packed_ge (map prow_of es)); assert (0 <= div_ceil (len es) RESTART_INTERVAL).
  { apply Z.div_pos; unfold RESTART_INTERVAL; len_lia. }
  lia.
Qed.

Lemma push_partition_rows p es : part_rep p es -> forall r2 r1 r, es = r1 ++ r2 ->
  foldm (push_partition_row p) (map Z.of_nat (seq (length r1) (length r2))) r
  = foldm (fun r row => PrefixRows_push r row.1 row.2) (map prow_of r2) r.
Proof.
  intros Hp; induction r2 as [|e r2 IH]; intros r1 r E; cbn [length seq map foldm]; [done|].
  assert (es !! length r1 = Some e) as He by (rewrite E; by apply list_lookup_middle).
  assert (push_partition_row p r (Z.of_nat (length r1)) = PrefixRows_push r (prow_of e).1 (prow_of e).2) as ->.
  { unfold push_partition_row; rewrite (part_key_len p es _ e), (part_row_bytes p es _ e) by done; res_simpl.
    rewrite slice_hit by done; res_simpl.
    assert (slice_from (e.1 ++ entry_tail e.2) (len e.1) = Some (entry_tail e.2)) as -> by (apply slice_from_Some; eauto).
    done. }
  destruct (PrefixRows_push r _ _) as [r'|e'|]; res_simpl; [| done | done].
  specialize (IH (r1 ++ [e]) r'); rewrite <- app_assoc, length_app, Nat.add_comm in IH; by apply IH.
Qed.

Lemma encoded_sealed p es : sealed_part p es -> len (enc es) < U32 -> encoded_partition_rows p = Ok (enc es).
Proof.
  intros Hp Hl; pose proof (sealed_fits p es Hp Hl) as Hfit; destruct (rows_of_sealed p es Hp) as [Hok Hs].
  unfold encoded_partition_rows; rewrite (sp_packed _ _ Hp), (part_len p es (sp_rep _ _ Hp)); cbn [negb].
  unfold len at 1; rewrite seqZ_seq, (push_partition_rows p es (sp_rep _ _ Hp) es [] _ eq_refl).
  rewrite push_all by (done || apply Hfit); res_simpl; f_equal.
  by apply (encode_bytes TailEntry (map prow_of es) _ [] (pack_state_rep _ _) Hfit).
Qed.

Lemma seal_partition_spec p es bits : part_rep p es -> part_width_ok p -> is_u8 (fp_column p) ->
  Forall (fun e => len e.1 <= MAX_KEY_LEN) es -> len (fp_packed p) < 2 ^ 27 -> is_u8 bits ->
  exists p' es', seal_partition bits p = Ok p' /\ sealed_part p' es' /\ es' ≡ₚ es /\ fp_column p' = fp_column p
    /\ match fp_filter p' with Some f => Filter_encoded_len f <= len (flat_of es) + 76 | None => True end.
Proof.
  intros Hp Hw Hc Hk Hl Hb; unfold seal_partition.
  destruct (sort_spec p es Hp) as (p1 & es1 & -> & Hp1 & Hperm & Hs & E1 & E2 & E3 & E4); res_simpl.
  pose proof (flat_perm_len _ _ Hperm) as Hflat.
  assert (17 * len es1 <= len (flat_of es1)) as Hn.
  { clear; induction es1 as [|e es IH] using rev_ind; [done|]; rewrite len_flat_snoc, len_app.
    change (len [e]) with 1; pose proof (len_nonneg e.1); unfold ENTRY_TAIL_LEN, U64_BYTES, U32_BYTES; lia. }
  rewrite (pp_packed _ _ Hp) in Hl.
  destruct (build_filter_spec p1 es1 bits Hp1 ltac:(lia) Hb) as (p2 & -> & Hp2 & F1 & F2 & F3 & Hret & Hin & Hf); res_simpl.
  eexists; exists es1; split; [done|]; split; [| split_and!; [done | cbn; congruence |]].
  - constructor; try done.
    + destruct Hp2; by constructor.
    + unfold part_width_ok in *; cbn [fp_key_width]; by rewrite F2, E2.
    + cbn [fp_column]; by rewrite F1, E1.
    + by rewrite Hperm.
    + cbn [fp_filter]; destruct (fp_filter p2) as [f|]; [| done]; destruct Hf as (Hlen & Hkind & Hseed & Hpr & Hks).
      split; [done|]; constructor; rewrite ?Hseed, ?Hkind; try done.
      unfold Filter_encoded_len, FILTER_HEADER_LEN, U32; lia.
  - cbn [fp_filter]; destruct (fp_filter p2) as [f|]; [| done]; destruct Hf as (Hlen & _).
    pose proof (len_nonneg es1); unfold Filter_encoded_len, FILTER_HEADER_LEN; lia.
Qed.

(** ** The bytes behind the rows *)

Abbreviation part := (FooterPartition * list erow)%type (only parsing).

Definition parts_sealed (parts : list part) : Prop :=
  Forall (fun pe => sealed_part pe.1 pe.2) parts /\ columns_ascend (map fst parts).

Definition encs (parts : list part) : list bytes := map (fun pe => enc pe.2) parts.
Definition kept_filter (p : FooterPartition) : Filter := default Filter_absent (fp_filter p).
Definition region (ps : list FooterPartition) : bytes :=
  if filter_region_len ps >? 0 then filters_bytes (map kept_filter ps) else [].
Definition directory (parts : list part) : bytes :=
  concat (map (fun pe => directory_row pe.1 (len pe.2) (len (enc pe.2))) parts).
Definition sum_len (l : list bytes) : Z := foldr Z.add 0 (map len l).
Definition rows_total (parts : list part) : Z := foldr Z.add 0 (map (fun pe => len pe.2) parts).

Definition footer_length (parts : list part) : Z :=
  sum_len (encs parts) + filter_region_len (map fst parts) + len parts * DIRECTORY_ROW_LEN + FIXED_TAIL_LEN.

(** The fixed fields, around whatever the checksum field holds. *)
Definition fixed_tail (f : SegmentFooter) (parts : list part) (crc : bytes) : bytes :=
  u64_le (sf_sealed_at f) ++ u32_le (filter_region_len (map fst parts)) ++ u32_le (len parts)
  ++ u32_le (rows_total parts) ++ u64_le (ft_dead (sf_tally f)) ++ u64_le (ft_live (sf_tally f))
  ++ u64_le (sf_min_lsn f) ++ u64_le (sf_max_lsn f) ++ crc ++ u32_le (footer_length parts) ++ u32_le FOOTER_MAGIC.

Lemma sum_len_concat l : sum_len l = len (concat l).
Proof. induction l as [|x l IH]; [done|]; cbn [concat]; rewrite len_app, <- IH; reflexivity. Qed.

Lemma len_directory parts : len (directory parts) = len parts * DIRECTORY_ROW_LEN.
Proof.
  induction parts as [|pe parts IH]; [done|]; unfold directory in *; cbn [map concat].
  rewrite len_app, IH, len_directory_row, len_cons; lia.
Qed.

Lemma kept_filter_wf pe : sealed_part pe.1 pe.2 ->
  filter_wf (kept_filter pe.1) /\ filter_kept (kept_filter pe.1) = fp_filter pe.1.
Proof.
  intros Hp; pose proof (sp_filter _ _ Hp) as Hf; unfold kept_filter; destruct (fp_filter pe.1) as [f|]; cbn.
  - destruct Hf as [Hk Hw]; split; [done|]; unfold filter_kept; by rewrite Hk.
  - split; [| done]; constructor; done.
Qed.

Lemma kept_filters_wf parts : Forall (fun pe => sealed_part pe.1 pe.2) parts ->
  Forall filter_wf (map kept_filter (map fst parts)).
Proof.
  intros H; rewrite map_map; apply Forall_map; eapply Forall_impl; [exact H|]; intros pe Hp; by apply kept_filter_wf.
Qed.

Lemma encode_filters_bytes parts : Forall (fun pe => sealed_part pe.1 pe.2) parts ->
  encode_filters (map fst parts) = filters_bytes (map kept_filter (map fst parts)).
Proof.
  intros H; unfold encode_filters; enough (forall buf,
    fold_left (fun buf p => match fp_filter p with Some filter => Filter_encode filter buf | None => Filter_encode Filter_absent buf end)
      (map fst parts) buf = buf ++ filters_bytes (map kept_filter (map fst parts))) as E by apply E.
  induction H as [|pe parts Hp _ IH]; intros buf; cbn [map fold_left]; [by rewrite app_nil_r|].
  rewrite IH; change (filters_bytes (?f :: ?l)) with (filter_bytes f ++ filters_bytes l).
  rewrite app_assoc; f_equal; destruct (kept_filter_wf pe Hp) as [Hw _]; unfold kept_filter in *.
  destruct (fp_filter pe.1); by apply Filter_encode_bytes.
Qed.

Lemma len_region ps : len (region ps) = filter_region_len ps.
Proof.
  unfold region, filter_region_len; destruct (existsb _ ps) eqn:Ee; [| done].
  assert (len (filters_bytes (map kept_filter ps)) = foldr Z.add 0 (map (fun p => match fp_filter p with
    | Some filter => Filter_encoded_len filter | None => FILTER_HEADER_LEN end) ps)) as El.
  { clear Ee; induction ps as [|p ps IH]; [done|]; unfold filters_bytes in *; cbn [map concat foldr].
    rewrite len_app, IH, len_filter_bytes; f_equal; unfold kept_filter; by destruct (fp_filter p). }
  rewrite <- El; destruct (_ >? 0) eqn:E; [done|]; b2p; rewrite len_nil; len_pos; lia.
Qed.

Lemma write_directory_bytes parts buf : Forall (fun pe => sealed_part pe.1 pe.2) parts ->
  Forall (fun pe => len (enc pe.2) < U32) parts ->
  fold_left (fun buf pr => write_directory_row buf pr.1 (len (pr.2 : bytes))) (zip (map fst parts) (encs parts)) buf
  = buf ++ directory parts.
Proof.
  intros H; revert buf; induction H as [|pe parts Hp _ IH]; intros buf Hl; [by rewrite app_nil_r|].
  unfold encs in *; cbn [map zip zip_with fold_left fst snd]; apply Forall_cons in Hl as [Hl Hls]; destruct (sealed_fits _ _ Hp Hl) as (_ & _ & Hn).
  rewrite write_directory_row_bytes, (part_len _ _ (sp_rep _ _ Hp)).
  - rewrite IH by done; unfold directory; cbn [map concat]; by rewrite app_assoc.
  - rewrite (part_len _ _ (sp_rep _ _ Hp)); unfold len in *; rewrite length_map in Hn; split; [lia | done].
  - split; [apply len_nonneg | done].
Qed.

Lemma len_total parts : Forall (fun pe => sealed_part pe.1 pe.2) parts ->
  foldr Z.add 0 (map FooterPartition_len (map fst parts)) = rows_total parts
  /\ 0 <= rows_total parts <= sum_len (encs parts)
  /\ Forall (fun pe => len (enc pe.2) <= sum_len (encs parts)) parts.
Proof.
  induction 1 as [|pe parts Hp _ (IH1 & IH2 & IH3)]; [split_and!; try done; constructor|].
  unfold rows_total, sum_len, encs in *; cbn [map foldr]; rewrite IH1, (part_len _ _ (sp_rep _ _ Hp)).
  assert (0 <= len pe.2 <= len (enc pe.2)) as Hle.
  { rewrite block_bytes_parts; pose proof (packed_ge (map prow_of pe.2)); assert (0 <= div_ceil (len pe.2) RESTART_INTERVAL).
    { apply Z.div_pos; unfold RESTART_INTERVAL; len_lia. }
    unfold len in *; rewrite length_map in *; lia. }
  split; [done|]; split; [lia|]; constructor; [lia|]; eapply Forall_impl; [exact IH3|]; intros x Hx; cbv beta in *; lia.
Qed.

Lemma region_len_nonneg ps : 0 <= filter_region_len ps.
Proof. rewrite <- len_region; apply len_nonneg. Qed.

Lemma footer_length_parts parts : footer_length parts
  = sum_len (encs parts) + filter_region_len (map fst parts) + len parts * 11 + 64.
Proof. reflexivity. Qed.

Lemma footer_tail_layout f parts : parts_sealed parts -> footer_length parts < U32 ->
  footer_tail f (map fst parts) (encs parts)
  = (region (map fst parts) ++ directory parts ++ fixed_tail f parts (zeros 4),
     len (region (map fst parts)) + len (directory parts) + 52, footer_length parts).
Proof.
  intros [Hs _] Hl; destruct (len_total parts Hs) as (Et & Ht & Hall); pose proof (region_len_nonneg (map fst parts)).
  pose proof (footer_length_parts parts) as El; pose proof (len_nonneg parts).
  assert (Forall (fun pe => len (enc pe.2) < U32) parts) as Henc
    by (eapply Forall_impl; [exact Hall|]; intros x Hx; cbv beta in *; lia).
  unfold footer_tail; rewrite write_directory_bytes, Et by done.
  assert (len (map fst parts) = len parts) as Elen by (unfold len; by rewrite length_map).
  fold (sum_len (encs parts)); rewrite Elen; fold (footer_length parts).
  rewrite (as_u32_small (filter_region_len _)), (as_u32_small (len parts)), (as_u32_small (rows_total parts)),
    (as_u32_small (footer_length parts)) by (unfold is_u32; lia).
  assert ((if filter_region_len (map fst parts) >? 0 then encode_filters (map fst parts) else []) = region (map fst parts)) as ->
    by (unfold region; by rewrite encode_filters_bytes).
  unfold Lsn_pack; f_equal; f_equal; [unfold fixed_tail; by rewrite <- !app_assoc | len_simpl; lia].
Qed.

(** ** Reading the bytes back *)

(** A field of the fixed tail, read at its distance from the end. *)
Lemma tail_field pre f parts c (v : bytes) k k' a b : slice (fixed_tail f parts (u32_le c)) a b = Some v ->
  0 <= a -> k = len pre + a -> k' = len pre + b ->
  slice (pre ++ fixed_tail f parts (u32_le c)) k k' = Some v.
Proof. intros Hv Ha -> ->; rewrite slice_skip by lia; rewrite <- Hv; f_equal; lia. Qed.

Ltac next_field F :=
  match goal with
  | |- (must (slice _ ?k ?k') ≫= _) = _ => rewrite (tail_field _ _ _ _ _ k k' _ _ F) by len_lia
  | |- ((must (slice _ ?k ?k') ≫= _) ≫= _) = _ => rewrite (tail_field _ _ _ _ _ k k' _ _ F) by len_lia
  end; res_simpl.

Section parsing.
Context `{ChecksumLaws}.

Definition body (parts : list part) : bytes := concat (encs parts) ++ region (map fst parts) ++ directory parts.

Lemma len_body parts : len (body parts) = footer_length parts - 64.
Proof.
  unfold body; rewrite !len_app, <- sum_len_concat, len_region, len_directory, footer_length_parts.
  change DIRECTORY_ROW_LEN with 11; lia.
Qed.

Lemma fixed_tail_fields f parts c : let ft := fixed_tail f parts (u32_le c) in
  len ft = 64
  /\ slice ft 0 8 = Some (u64_le (sf_sealed_at f))
  /\ slice ft 8 12 = Some (u32_le (filter_region_len (map fst parts)))
  /\ slice ft 12 16 = Some (u32_le (len parts))
  /\ slice ft 16 20 = Some (u32_le (rows_total parts))
  /\ slice ft 20 28 = Some (u64_le (ft_dead (sf_tally f)))
  /\ slice ft 28 36 = Some (u64_le (ft_live (sf_tally f)))
  /\ slice ft 36 44 = Some (u64_le (sf_min_lsn f))
  /\ slice ft 44 52 = Some (u64_le (sf_max_lsn f))
  /\ slice ft 52 56 = Some (u32_le c)
  /\ slice ft 56 60 = Some (u32_le (footer_length parts))
  /\ slice ft 60 64 = Some (u32_le FOOTER_MAGIC)
  /\ put ft 52 (zeros 4) = fixed_tail f parts (zeros 4).
Proof.
  unfold fixed_tail; generalize (filter_region_len (map fst parts)) (len parts) (rows_total parts) (footer_length parts) FOOTER_MAGIC.
  intros; split_and!; reflexivity.
Qed.

Definition columns_of (parts : list part) : list Z := map (fun pe => fp_column pe.1) parts.

(** The state of the directory loop behind some partitions. *)
Definition reading_at (a : list part) : Reading :=
  mkReading (map (fun pe => set_filter pe.1 None) a) (sum_len (encs a)) None (rev (columns_of a)).

Lemma sealed_column_fresh (a b : list part) pe : columns_ascend (map fst (a ++ pe :: b)) ->
  fp_column pe.1 ∉ rev (columns_of a).
Proof.
  unfold columns_ascend, columns_of; rewrite map_app; intros (Hab & _ & _)%StronglySorted_app Hin.
  apply list_elem_of_In, in_rev, list_elem_of_In, list_elem_of_fmap in Hin as (q & Eq & Hq).
  specialize (Hab q.1 pe.1); cbn [map] in Hab; rewrite Eq in Hab.
  specialize (Hab ltac:(apply list_elem_of_fmap; eauto) ltac:(left)); lia.
Qed.

Lemma unpack_sealed p es : sealed_part p es -> len (enc es) < U32 ->
  unpack (enc es) TailEntry (if negb (FooterPartition_is_varying p) then Some (FooterPartition_stride p) else None)
  = Ok (fp_packed p, fp_starts p, len es).
Proof.
  intros Hp Hl; pose proof (sp_rep _ _ Hp) as Hr; unfold enc; rewrite (unpack_rep TailEntry (map prow_of es)).
  - rewrite (pp_packed _ _ Hr), (pp_starts _ _ Hr); unfold len; rewrite length_map.
    by destruct (FooterPartition_is_varying p).
  - apply pack_state_rep.
  - by apply (sealed_fits p).
  - rewrite <- (pp_packed _ _ Hr); apply Hr.
  - intros n En; destruct (FooterPartition_is_varying p) eqn:Ev; [done|]; injection En as <-.
    apply Forall_map; eapply Forall_impl; [by apply (pp_keys _ _ Hr)|]; intros e He; cbn [prow_of fst snd].
    rewrite len_entry_tail, He; done.
Qed.

Lemma read_partition_back a pe b tl : sealed_part pe.1 pe.2 -> columns_ascend (map fst (a ++ pe :: b)) ->
  footer_length (a ++ pe :: b) < U32 ->
  is_u32 (len pe.2) -> len (enc pe.2) < U32 ->
  read_partition (body (a ++ pe :: b) ++ tl) (footer_length (a ++ pe :: b) - 64 - len (a ++ pe :: b) * 11)
    (reading_at a) (len a) = Ok (reading_at (a ++ [pe])).
Proof.
  intros Hp Hs Hfl Hn Hl; set (parts := a ++ pe :: b) in *; unfold read_partition.
  assert (directory parts = directory a ++ directory_row pe.1 (len pe.2) (len (enc pe.2)) ++ directory b) as Ed
    by (unfold directory, parts; by rewrite map_app, concat_app).
  assert (concat (encs parts) = concat (encs a) ++ enc pe.2 ++ concat (encs b)) as Ee
    by (unfold encs, parts; by rewrite map_app, concat_app).
  pose proof (len_body parts) as Hb; unfold body in Hb; rewrite !len_app, len_directory in Hb; change DIRECTORY_ROW_LEN with 11 in Hb.
  change (len a * DIRECTORY_ROW_LEN) with (len a * 11); set (at_ := _ + len a * 11).
  assert (slice (body parts ++ tl) at_ (at_ + DIRECTORY_ROW_LEN) = Some (directory_row pe.1 (len pe.2) (len (enc pe.2)))) as ->.
  { unfold body; rewrite Ed, <- !app_assoc; rewrite (app_assoc (concat _)), (app_assoc _ (directory a)).
    apply slice_mid; [rewrite !len_app, len_directory; change DIRECTORY_ROW_LEN with 11; subst at_; lia | done]. }
  res_simpl; destruct (directory_row_fields pe.1 (len pe.2) (len (enc pe.2))) as (-> & Hu8 & (wb & -> & Hwb) & (cb & -> & Hcb) & (sb & -> & Hsb));
    [apply Hp | apply Hp | apply Hp | done | split; [apply len_nonneg | done] |].
  res_simpl; rewrite Hu8, bool_decide_eq_false_2 by (by apply (sealed_column_fresh a b)).
  rewrite Hwb; res_simpl; rewrite Hcb, Hsb; cbn [rd_rows_at reading_at].
  assert (slice (body parts ++ tl) (sum_len (encs a)) (sum_len (encs a) + len (enc pe.2)) = Some (enc pe.2)) as ->
    by (unfold body; rewrite Ee, <- !app_assoc; apply slice_mid; [by rewrite sum_len_concat | done]).
  res_simpl; change (FooterPartition_is_varying (FooterPartition_new (fp_column pe.1) (fp_key_width pe.1)))
    with (FooterPartition_is_varying pe.1).
  change (FooterPartition_stride (FooterPartition_new (fp_column pe.1) (fp_key_width pe.1)))
    with (FooterPartition_stride pe.1).
  rewrite unpack_sealed by done; res_simpl; rewrite Z.eqb_refl; cbn [negb].
  f_equal; unfold reading_at, columns_of, encs; rewrite !map_app, rev_app_distr; cbn [map rev app rd_partitions rd_lead rd_listed reading_at].
  f_equal; [do 2 f_equal; unfold set_filter; f_equal; [| by rewrite (sp_packed _ _ Hp)] | rewrite !sum_len_concat, concat_app; cbn [concat]; by rewrite app_nil_r, len_app].
  rewrite (pp_starts _ _ (sp_rep _ _ Hp)); unfold FooterPartition_new; cbn [fp_starts]; change (fp_key_width pe.1 =? VARYING_WIDTH) with (FooterPartition_is_varying pe.1).
  by destruct (FooterPartition_is_varying pe.1).
Qed.

Lemma read_partitions_back parts tl : parts_sealed parts -> footer_length parts < U32 ->
  read_partitions (body parts ++ tl) (footer_length parts - 64 - len parts * 11) (len parts)
  = Ok (map (fun pe => set_filter pe.1 None) parts, sum_len (encs parts), None).
Proof.
  intros [Hs Hc] Hfl; destruct (len_total parts Hs) as (_ & _ & Hall); pose proof (region_len_nonneg (map fst parts)).
  pose proof (footer_length_parts parts) as El; pose proof (len_nonneg parts); unfold read_partitions.
  assert (forall b a, parts = a ++ b ->
    foldm (read_partition (body parts ++ tl) (footer_length parts - 64 - len parts * 11))
      (map Z.of_nat (seq (length a) (length b))) (reading_at a) = Ok (reading_at parts)) as Hloop.
  { induction b as [|pe b IH]; intros a E; [by rewrite app_nil_r in E; subst|].
    assert (pe ∈ parts) as Hin by (rewrite E; set_solver).
    rewrite Forall_forall in Hs, Hall; pose proof (Hs _ Hin) as Hp; pose proof (Hall _ Hin) as Hl; cbv beta in Hp, Hl.
    destruct (sealed_fits _ _ Hp ltac:(lia)) as (_ & _ & Hn).
    cbn [length seq map foldm]; fold (len a).
    assert (read_partition (body parts ++ tl) (footer_length parts - 64 - len parts * 11) (reading_at a) (len a)
      = Ok (reading_at (a ++ [pe]))) as ->.
    { rewrite E in *; apply read_partition_back; try done; [| lia].
      unfold len in *; rewrite length_map in Hn; split; [lia | done]. }
    res_simpl; specialize (IH (a ++ [pe])); rewrite <- app_assoc, length_app, Nat.add_comm in IH; by apply IH. }
  specialize (Hloop parts [] eq_refl); cbn [length] in Hloop.
  replace (seqZ 0 (len parts)) with (map Z.of_nat (seq 0 (length parts))) by (symmetry; apply seqZ_seq).
  change (mkReading [] 0 None []) with (reading_at []); rewrite Hloop; res_simpl; done.
Qed.

Lemma filters_back parts : Forall (fun pe => sealed_part pe.1 pe.2) parts ->
  Filter_parse_region (region (map fst parts)) (length parts) = Ok (map (fun pe => fp_filter pe.1) parts).
Proof.
  intros Hs; unfold Filter_parse_region, region; destruct (_ >? 0) eqn:E.
  - pose proof (parse_region_back _ (kept_filters_wf parts Hs) [] [] 0) as Hb.
    rewrite Nat.add_0_r, !length_map in Hb; etransitivity; [exact Hb|]; f_equal; cbn [replicate app].
    rewrite app_nil_r, !map_map; apply map_ext_in; intros pe Hin%list_elem_of_In.
    rewrite Forall_forall in Hs; by apply kept_filter_wf, Hs.
  - etransitivity; [apply (parse_region_back [] (List.Forall_nil _) [] [] (length parts))|]; f_equal; cbn [map app].
    unfold filter_region_len in E; destruct (existsb _ _) eqn:Ex.
    + exfalso; destruct parts as [|pe parts]; [done|]; cbn [map foldr] in E.
      assert (forall ps, 0 <= foldr Z.add 0 (map (fun p => match fp_filter p with
        | Some filter => Filter_encoded_len filter | None => FILTER_HEADER_LEN end) ps)) as Hpos.
      { induction ps as [|p ps IH]; [done|]; cbn [map foldr]; unfold Filter_encoded_len, FILTER_HEADER_LEN in *.
        destruct (fp_filter p); len_lia. }
      specialize (Hpos (map fst parts)); unfold Filter_encoded_len, FILTER_HEADER_LEN in *; destruct (fp_filter pe.1); len_lia.
    + clear -Ex; induction parts as [|pe parts IH]; [done|]; cbn [map existsb length replicate] in *.
      apply orb_false_iff in Ex as [E1 E2]; rewrite <- IH by done; by destruct (fp_filter pe.1).
Qed.

Lemma zip_filters parts :
  zip_with set_filter (map (fun pe : part => set_filter pe.1 None) parts) (map (fun pe => fp_filter pe.1) parts) = map fst parts.
Proof. induction parts as [|[[] es] parts IH]; [done|]; cbn [map zip_with]; rewrite IH; done. Qed.

Lemma merge_columns ps : columns_ascend ps -> merge_sort column_le ps = ps.
Proof. by apply merge_column_order. Qed.

Definition footer_fields_ok (f : SegmentFooter) : Prop :=
  is_u64 (sf_min_lsn f) /\ is_u64 (sf_max_lsn f) /\ is_u64 (sf_sealed_at f)
  /\ is_u64 (ft_live (sf_tally f)) /\ is_u64 (ft_dead (sf_tally f)).

Definition footer_bytes (f : SegmentFooter) (parts : list part) : bytes :=
  body parts ++ fixed_tail f parts (u32_le (checksum (body parts ++ fixed_tail f parts (zeros 4)))).

Lemma verify_footer_back f parts : verify_footer_crc (footer_bytes f parts) (footer_length parts) = Ok tt.
Proof.
  unfold footer_bytes; set (c := checksum _).
  destruct (fixed_tail_fields f parts c) as (Hlen & _ & _ & _ & _ & _ & _ & _ & _ & Hc & _ & _ & Hput).
  pose proof (len_body parts) as Hb; unfold verify_footer_crc.
  change CRC_FROM_END with 12; change FOOTER_LEN_FROM_END with 8; change U32_BYTES with 4; set (ft := fixed_tail _ _ (u32_le c)) in *.
  assert (slice (body parts ++ ft) (footer_length parts - 12) (footer_length parts - 8) = Some (u32_le c)) as ->.
  { rewrite slice_skip by lia; rewrite <- Hc; f_equal; lia. }
  assert (slice (body parts ++ ft) (footer_length parts - 12) (footer_length parts - 12 + 4) = Some (u32_le c)) as ->.
  { rewrite slice_skip by lia; rewrite <- Hc; f_equal; lia. }
  res_simpl.
  assert (put (body parts ++ ft) (Z.to_nat (footer_length parts - 12)) (zeros 4) = body parts ++ fixed_tail f parts (zeros 4)) as ->.
  { rewrite <- Hput, <- put_skip; f_equal; unfold len in Hb; lia. }
  fold c; unfold read_u32_le; rewrite le_val_u32 by apply crc_checksum_u32; by rewrite Z.eqb_refl.
Qed.

Lemma len_fixed_tail f parts c : len (fixed_tail f parts (u32_le c)) = 64.
Proof. apply fixed_tail_fields. Qed.

Lemma len_footer_bytes f parts : len (footer_bytes f parts) = footer_length parts.
Proof. unfold footer_bytes; rewrite len_app, len_body, len_fixed_tail; lia. Qed.

Lemma parse_back pre f parts : parts_sealed parts -> footer_fields_ok f -> footer_length parts < U32 ->
  SegmentFooter_parse (pre ++ footer_bytes f parts)
  = Ok (mkSegmentFooter (map fst parts) (sf_min_lsn f) (sf_max_lsn f) (sf_sealed_at f) (sf_tally f)).
Proof.
  intros Hps (Hmin & Hmax & Hsealed & Hlive & Hdead) Hfl; pose proof Hps as [Hs Hc].
  destruct (len_total parts Hs) as (Et & Ht & _); pose proof (region_len_nonneg (map fst parts)) as Hreg.
  pose proof (footer_length_parts parts) as El; pose proof (len_nonneg parts) as Hn; pose proof (len_body parts) as Hb.
  pose proof (verify_footer_back f parts) as Hv; pose proof (len_footer_bytes f parts) as Hfb.
  unfold SegmentFooter_parse, SegmentFooter_parse_owned; cbv zeta; rewrite len_app, Hfb.
  change FIXED_TAIL_LEN with 64; change DIRECTORY_ROW_LEN with 11; unfold read_at_u32.
  change MAGIC_FROM_END with 4; change FOOTER_LEN_FROM_END with 8; change CRC_FROM_END with 12; change MAX_LSN_FROM_END with 20;
    change MIN_LSN_FROM_END with 28; change LIVE_BYTES_FROM_END with 36; change DEAD_BYTES_FROM_END with 44;
    change ENTRY_COUNT_FROM_END with 48; change PARTITION_COUNT_FROM_END with 52; change BLOOM_LEN_FROM_END with 56;
    change SEALED_AT_FROM_END with 64; change U32_BYTES with 4.
  assert (0 <= sum_len (encs parts)) as Hsum by lia; pose proof (len_nonneg pre).
  destruct (_ <? 64) eqn:E64; [b2p; lia|]; clear E64.
  set (total := len pre + footer_length parts) in *.
  assert (slice (pre ++ footer_bytes f parts) (total - footer_length parts) total = Some (footer_bytes f parts)) as Hfooter
    by (rewrite slice_skip by lia; apply slice_whole; lia).
  unfold footer_bytes in Hfooter, Hv |- *; set (c := checksum (body parts ++ _)) in *; set (ft := fixed_tail f parts (u32_le c)) in *.
  destruct (fixed_tail_fields f parts c) as (_ & F1 & F2 & F3 & F4 & F5 & F6 & F7 & F8 & _ & F9 & F10 & _).
  rewrite app_assoc in Hfooter |- *; next_field F10; change (read_u32_le (u32_le FOOTER_MAGIC) =? FOOTER_MAGIC) with true.
  cbn [negb]; next_field F9; unfold read_u32_le, read_u64_le; rewrite (le_val_u32 (footer_length parts)) by (unfold is_u32; lia).
  destruct (_ || _) eqn:Eo; [apply orb_true_iff in Eo as [?|?]; b2p; lia|]; clear Eo.
  rewrite Hfooter; res_simpl; rewrite Hv; res_simpl.
  next_field F4; next_field F6; next_field F5; next_field F3; next_field F2; next_field F7; next_field F8; next_field F1.
  rewrite !le_val_u64, !le_val_u32 by first [done | unfold is_u32; lia].
  destruct (_ || _) eqn:Eo; [apply orb_true_iff in Eo as [?|?]; b2p; lia|]; clear Eo.
  rewrite read_partitions_back by done; res_simpl.
  assert (slice (body parts ++ ft) (footer_length parts - 64 - len parts * 11 - filter_region_len (map fst parts))
    (footer_length parts - 64 - len parts * 11) = Some (region (map fst parts))) as ->.
  { unfold body; rewrite <- !app_assoc; apply slice_mid; [rewrite <- sum_len_concat; lia | rewrite len_region; lia]. }
  res_simpl; rewrite to_nat_len, filters_back by done; res_simpl; rewrite zip_filters, Et.
  rewrite (proj2 (Z.eqb_eq _ _)) by lia; rewrite Z.eqb_refl; cbn [negb orb]; rewrite merge_columns by done.
  by destruct (sf_tally f).
Qed.



End parsing.

(** ** Sealing every column *)

Definition holds_rows (es : list FooterEntry) (p : FooterPartition) : Prop :=
  part_rep p (rows_in (fp_column p) es) /\ part_width_ok p /\ is_u8 (fp_column p).

Definition sealed_from (es : list FooterEntry) (p : FooterPartition) (pe : part) : Prop :=
  sealed_part pe.1 pe.2 /\ pe.2 ≡ₚ rows_in (fp_column p) es /\ fp_column pe.1 = fp_column p
  /\ match fp_filter pe.1 with Some f => Filter_encoded_len f <= len (flat_of pe.2) + 76 | None => True end.

Lemma rows_in_keys column es : Forall entry_wf es -> Forall (fun e => len e.1 <= MAX_KEY_LEN) (rows_in column es).
Proof.
  intros Hw; apply Forall_forall; intros e (x & -> & Hx)%list_elem_of_fmap; apply list_elem_of_In, filter_In in Hx as [Hx _].
  rewrite Forall_forall in Hw; apply list_elem_of_In, Hw in Hx as [[_ Hk] _]; apply key_wf_len in Hk; exact Hk.
Qed.

Lemma seal_all bits es : Forall entry_wf es -> len (flat_of (map erow_of es)) < 2 ^ 27 -> is_u8 bits ->
  forall ps, Forall (holds_rows es) ps ->
  exists parts, mapm (seal_partition bits) ps = Ok (map fst parts) /\ Forall2 (sealed_from es) ps parts.
Proof.
  intros Hw Hl Hb; induction ps as [|p ps IH]; intros Hall.
  { exists []; split; [done | constructor]. }
  apply Forall_cons in Hall as [(Hp & Hwd & Hu) Hall]; destruct (IH Hall) as (parts & Em & H2).
  destruct (seal_partition_spec p _ bits Hp Hwd Hu (rows_in_keys _ es Hw)) as (p' & es' & Es & Hsp & Hperm & Hcol & Hf); [| done |].
  { rewrite (pp_packed _ _ Hp); pose proof (rows_in_flat_le (fp_column p) es); lia. }
  exists ((p', es') :: parts); cbn [mapm map fst]; rewrite Es; res_simpl; rewrite Em; res_simpl; split; [done|].
  constructor; [| done]; split_and!; try done; cbn [fst snd]; by rewrite (flat_perm_len _ _ Hperm).
Qed.

Lemma sealed_columns es ps parts : Forall2 (sealed_from es) ps parts -> columns_ascend ps -> parts_sealed parts.
Proof.
  intros H2 Hs; split.
  - clear Hs; induction H2 as [|p pe ps parts Hpe _ IH]; constructor; [apply Hpe | done].
  - unfold columns_ascend in *; induction H2 as [|p pe ps parts Hpe H2 IH]; cbn [map]; [constructor|].
    apply StronglySorted_inv in Hs as [Hs Hall]; constructor; [by apply IH|]; clear IH Hs.
    destruct Hpe as (_ & _ & Hc & _); induction H2 as [|q qe qs qarts Hqe _ IH2]; constructor; [| apply IH2].
    + destruct Hqe as (_ & _ & Hq & _); apply Forall_cons in Hall as [Hpq _]; cbv beta in *; by rewrite Hc, Hq.
    + by apply Forall_cons in Hall as [_ ?].
Qed.

(** Each row lies in one column, so the columns are no larger than the rows together. *)
Lemma columns_flat_le es cs : NoDup cs ->
  foldr Z.add 0 (map (fun c => len (flat_of (rows_in c es))) cs) <= len (flat_of (map erow_of es)).
Proof.
  intros Hnd; induction es as [|e es IH] using rev_ind.
  { clear Hnd; induction cs as [|c cs IHc]; [done | exact IHc]. }
  rewrite map_app; cbn [map]; rewrite len_flat_snoc; set (w := len (erow_of e).1).
  assert (0 <= w + ENTRY_TAIL_LEN) as Hpos by (subst w; unfold ENTRY_TAIL_LEN, U64_BYTES, U32_BYTES; len_lia).
  enough (foldr Z.add 0 (map (fun c => len (flat_of (rows_in c (es ++ [e])))) cs)
    <= foldr Z.add 0 (map (fun c => len (flat_of (rows_in c es))) cs)
       + if bool_decide (entry_column e ∈ cs) then w + ENTRY_TAIL_LEN else 0) as Hle by (case_bool_decide; lia).
  clear IH; induction Hnd as [|c cs Hc Hnd IH]; [by rewrite bool_decide_eq_false_2 by set_solver|]; cbn [map foldr]; rewrite rows_in_snoc.
  destruct (Z.eqb_spec (entry_column e) c) as [<-|Hne].
  - rewrite len_flat_snoc, (bool_decide_eq_true_2 (entry_column e ∈ entry_column e :: cs)) by left.
    rewrite bool_decide_eq_false_2 in IH by done; fold w; lia.
  - rewrite (bool_decide_ext (entry_column e ∈ c :: cs) (entry_column e ∈ cs)) by set_solver; lia.
Qed.

Lemma columns_nodup ps : columns_ascend ps -> NoDup (map fp_column ps).
Proof.
  induction 1 as [|p ps _ IH Hall]; cbn [map]; [constructor|]; constructor; [| done].
  intros (q & Eq & Hq)%list_elem_of_fmap; rewrite Forall_forall in Hall; apply Hall in Hq; lia.
Qed.

Lemma flat_ge es : 17 * len es <= len (flat_of es).
Proof.
  induction es as [|e es IH] using rev_ind; [done|]; rewrite len_flat_snoc, len_app.
  change (len [e]) with 1; pose proof (len_nonneg e.1); unfold ENTRY_TAIL_LEN, U64_BYTES, U32_BYTES; lia.
Qed.

(** What a nonempty column adds to a footer, over the size of its rows. *)
Lemma part_size es p pe : sealed_from es p pe -> rows_in (fp_column p) es <> [] ->
  len (enc pe.2) + Filter_encoded_len (kept_filter pe.1) + 11 <= 12 * len (flat_of (rows_in (fp_column p) es)).
Proof.
  intros (Hp & Hperm & _ & Hf) Hne; rewrite <- (flat_perm_len _ _ Hperm).
  assert (1 <= len pe.2) as Hn.
  { destruct pe as [q [|e l]]; cbn [snd] in *; [by apply Permutation_nil_l in Hperm | len_lia]. }
  pose proof (flat_ge pe.2) as Hfg; rewrite block_bytes_parts; destruct (rows_of_sealed _ _ Hp) as [Hok _].
  pose proof (packed_le _ Hok) as Hpl; assert (div_ceil (len pe.2) RESTART_INTERVAL <= len pe.2) as Hd.
  { unfold div_ceil, RESTART_INTERVAL; apply Z.div_le_upper_bound; lia. }
  assert (Filter_encoded_len (kept_filter pe.1) <= len (flat_of pe.2) + 76) as Hk; [| lia].
  unfold kept_filter; destruct (fp_filter pe.1); cbn [default]; [exact Hf|].
  unfold Filter_encoded_len, Filter_absent, FILTER_HEADER_LEN; cbn [fl_body]; rewrite len_nil; lia.
Qed.

Lemma region_le ps : filter_region_len ps <= foldr Z.add 0 (map (fun p => Filter_encoded_len (kept_filter p)) ps).
Proof.
  assert (0 <= foldr Z.add 0 (map (fun p => Filter_encoded_len (kept_filter p)) ps)).
  { induction ps as [|p ps IH]; [done|]; cbn [map foldr]; unfold Filter_encoded_len, FILTER_HEADER_LEN in *; len_lia. }
  unfold filter_region_len; destruct (existsb _ _); [| done].
  assert (map (fun p => match fp_filter p with Some filter => Filter_encoded_len filter | None => FILTER_HEADER_LEN end) ps
    = map (fun p => Filter_encoded_len (kept_filter p)) ps) as ->; [| lia].
  apply map_ext; intros p; unfold kept_filter; by destruct (fp_filter p).
Qed.

Lemma footer_length_le es ps parts : Forall2 (sealed_from es) ps parts -> columns_ascend ps ->
  Forall (fun p => rows_in (fp_column p) es <> []) ps ->
  footer_length parts <= 12 * len (flat_of (map erow_of es)) + 64.
Proof.
  intros H2 Hs Hne; pose proof (columns_flat_le es _ (columns_nodup ps Hs)) as Hle; rewrite map_map in Hle.
  pose proof (region_le (map fst parts)) as Hr; rewrite footer_length_parts.
  assert (sum_len (encs parts) + foldr Z.add 0 (map (fun p => Filter_encoded_len (kept_filter p)) (map fst parts)) + len parts * 11
    <= 12 * foldr Z.add 0 (map (fun p => len (flat_of (rows_in (fp_column p) es))) ps)); [| lia].
  clear Hle Hr Hs; induction H2 as [|p pe ps parts Hpe _ IH]; [done|]; apply Forall_cons in Hne as [Hn Hne].
  specialize (IH Hne); pose proof (part_size es p pe Hpe Hn) as Hsz.
  unfold sum_len, encs in *; cbn [map foldr] in *; rewrite len_cons; lia.
Qed.

(** ** Packing *)

Section packing.
Context `{ChecksumLaws}.

Definition nonempty_columns (f : SegmentFooter) : list FooterPartition :=
  List.filter (fun p => negb (FooterPartition_is_empty p)) (sf_partitions f).

Lemma nonempty_columns_spec f es : footer_holds f es ->
  columns_ascend (nonempty_columns f) /\ Forall (holds_rows es) (nonempty_columns f)
  /\ Forall (fun p => rows_in (fp_column p) es <> []) (nonempty_columns f)
  /\ forall e, e ∈ es -> entry_column e ∈ map fp_column (nonempty_columns f).
Proof.
  intros [Hs Hall Hin _ _]; unfold nonempty_columns; split_and!.
  - clear -Hs; induction Hs as [|p ps Hs IH Hall]; cbn [List.filter]; [constructor|]; destruct (negb _); [| done].
    constructor; [done|]; apply Forall_forall; intros q Hq%list_elem_of_In%filter_In; destruct Hq as [Hq%list_elem_of_In _].
    rewrite Forall_forall in Hall; by apply Hall.
  - apply Forall_forall; intros q Hq%list_elem_of_In%filter_In; destruct Hq as [Hq%list_elem_of_In _].
    rewrite Forall_forall in Hall; by apply Hall.
  - apply Forall_forall; intros q Hq%list_elem_of_In%filter_In; destruct Hq as [Hq%list_elem_of_In He].
    rewrite Forall_forall in Hall; destruct (Hall q Hq) as [Hp _]; unfold FooterPartition_is_empty in He.
    rewrite (pp_packed _ _ Hp) in He; by intros E; rewrite E in He.
  - intros e He; pose proof (Hin e He) as (p & Ep & Hp)%list_elem_of_fmap; rewrite Ep; apply list_elem_of_fmap; exists p; split; [done|].
    apply list_elem_of_In, filter_In; split; [by apply list_elem_of_In|]; rewrite Forall_forall in Hall.
    destruct (Hall p Hp) as [Hr _]; unfold FooterPartition_is_empty; rewrite (pp_packed _ _ Hr).
    assert (erow_of e ∈ rows_in (fp_column p) es) as Hrow.
    { apply list_elem_of_fmap; exists e; split; [done|]; apply list_elem_of_In, filter_In; split; [by apply list_elem_of_In|].
      by apply Z.eqb_eq. }
    pose proof (flat_ge (rows_in (fp_column p) es)); destruct (rows_in _ es) as [|x l]; [by apply not_elem_of_nil in Hrow|].
    destruct (Z.eqb_spec (len (flat_of (x :: l))) 0); [len_lia | done].
Qed.

Lemma put_rows_sealed parts a b c d rows : Forall (fun pe => sealed_part pe.1 pe.2) parts -> length rows = length parts ->
  SegmentFooter_put_rows (mkSegmentFooter (map fst parts) a b c d) rows = mkSegmentFooter (map fst parts) a b c d.
Proof.
  intros Hs Hl; unfold SegmentFooter_put_rows; cbn [sf_partitions]; f_equal.
  rewrite drop_ge, app_nil_r by (rewrite length_map; lia); revert rows Hl.
  induction Hs as [|pe parts Hp _ IH]; intros [|r rows] Hl; try done; cbn [map zip_with].
  rewrite (sp_packed _ _ Hp), IH by (cbn in Hl; lia); done.
Qed.

Lemma encoded_all parts : Forall (fun pe => sealed_part pe.1 pe.2) parts -> footer_length parts < U32 ->
  mapm encoded_partition_rows (map fst parts) = Ok (encs parts).
Proof.
  intros Hs Hl; destruct (len_total parts Hs) as (_ & _ & Henc); rewrite footer_length_parts in Hl.
  pose proof (region_len_nonneg (map fst parts)) as Hr; pose proof (len_nonneg parts) as Hn.
  assert (sum_len (encs parts) < U32) as Hb by lia; clear Hl Hr Hn; revert Hb Henc; generalize (sum_len (encs parts)) as bound.
  intros bound Hb Henc; induction Hs as [|pe parts Hp _ IH]; [done|]; apply Forall_cons in Henc as [He Henc].
  unfold encs in *; cbn [mapm map]; rewrite (encoded_sealed pe.1 pe.2) by (done || cbv beta in *; lia).
  by res_simpl; rewrite IH.
Qed.

Lemma pack_spec f es bits : footer_holds f es -> Forall entry_wf es ->
  len (flat_of (map erow_of es)) < 2 ^ 27 -> is_u8 bits ->
  exists parts, Forall2 (sealed_from es) (nonempty_columns f) parts /\ parts_sealed parts /\ footer_length parts < U32
    /\ SegmentFooter_pack f bits
       = Ok (mkSegmentFooter (map fst parts) (sf_min_lsn f) (sf_max_lsn f) (sf_sealed_at f) (sf_tally f), footer_bytes f parts).
Proof.
  intros Hf Hw Hl Hb; destruct (nonempty_columns_spec f es Hf) as (Hs & Hall & Hne & _).
  destruct (seal_all bits es Hw Hl Hb _ Hall) as (parts & Em & H2); exists parts.
  pose proof (sealed_columns _ _ _ H2 Hs) as Hps; pose proof (footer_length_le _ _ _ H2 Hs Hne) as Hfl.
  assert (footer_length parts < U32) as Hu by (unfold U32; lia); split_and!; [done | done | done|].
  pose proof Hps as [Hsp _]; unfold SegmentFooter_pack, SegmentFooter_pack_apart; fold (nonempty_columns f).
  rewrite merge_columns, Em by done; res_simpl; rewrite encoded_all by done; res_simpl; rewrite footer_tail_layout by done.
  set (crc := crc_digest _).
  assert (crc = checksum (body parts ++ fixed_tail f parts (zeros 4))) as Ecrc.
  { subst crc; rewrite crc_digest_concat, concat_app; unfold body; cbn [concat]; by rewrite app_nil_r, <- !app_assoc. }
  assert (map (fun p => if fp_is_packed p then p
    else mkFooterPartition (fp_column p) (fp_key_width p) [] (fp_starts p) (fp_filter p) false) (map fst parts) = map fst parts) as ->.
  { rewrite map_map; apply map_ext_in; intros pe Hin%list_elem_of_In; rewrite Forall_forall in Hsp.
    by rewrite (sp_packed _ _ (Hsp pe Hin)). }
  res_simpl; rewrite put_rows_sealed by (done || unfold encs; by rewrite length_map); do 2 f_equal.
  unfold footer_bytes; rewrite <- Ecrc; unfold body; rewrite <- !app_assoc; f_equal.
  rewrite !(app_assoc (region _)); set (rd := region _ ++ _).
  replace (Z.to_nat _) with (length rd + 52)%nat by (subst rd; rewrite <- len_app; unfold len; lia).
  by rewrite put_skip.
Qed.


Lemma lsn_range_u64 es : Forall entry_wf es -> is_u64 (lsn_min es) /\ is_u64 (lsn_max es).
Proof.
  induction es as [|e es IH] using rev_ind; intros Hw; [done|]; apply Forall_app in Hw as [Hw [[_ He] _]%Forall_cons].
  destruct (IH Hw) as [H1 H2]; unfold lsn_min, lsn_max in *; rewrite !fold_left_app; cbn [fold_left].
  pose proof (frw_lsn _ He) as Hl; change (is_u64 (fe_lsn e)) in Hl; split; [by destruct (_ || _) | by destruct (_ >? _)].
Qed.

Lemma lookup_sealed p rows key : sealed_part p rows ->
  match FooterPartition_lookup p key with
  | Ok (FoundRow row) => (key, row) ∈ rows /\ forall row', (key, row') ∈ rows -> fr_lsn row' <= fr_lsn row
  | Ok Missing | Ok RuledOut => forall row, (key, row) ∉ rows
  | _ => False
  end.
Proof.
  intros Hp; unfold FooterPartition_lookup; destruct (sp_may _ _ Hp) as [Hret Hin]; destruct (Hret key) as [b Eb]; rewrite Eb; res_simpl.
  destruct b; cbn [negb].
  - destruct (find_row_cases p rows key (sp_rep _ _ Hp) (sp_order _ _ Hp)) as [(row & -> & ?)|[-> ?]]; done.
  - intros row He; apply Hin in He; cbn [fst] in He; congruence.
Qed.

Lemma rows_in_elem es column row : row ∈ rows_in column es <-> exists e, e ∈ es /\ entry_column e = column /\ erow_of e = row.
Proof.
  unfold rows_in; rewrite list_elem_of_fmap; setoid_rewrite list_elem_of_In; setoid_rewrite filter_In; setoid_rewrite Z.eqb_eq.
  naive_solver.
Qed.

(** What a footer answers for a key of a column. *)
Definition footer_lookup (f : SegmentFooter) (column : ColumnId) (key : bytes) : res (option FooterRow) :=
  match SegmentFooter_partition f column with
  | None => Ok None
  | Some p =>
      found ← FooterPartition_lookup p key;
      Ok match found with FoundRow row => Some row | Missing | RuledOut => None end
  end.

Lemma footer_lookup_sealed f es parts a b c d column key :
  Forall2 (sealed_from es) (nonempty_columns f) parts -> parts_sealed parts -> footer_holds f es ->
  exists found, footer_lookup (mkSegmentFooter (map fst parts) a b c d) column key = Ok found
    /\ match found with
       | Some row => (key, row) ∈ rows_in column es /\ forall row', (key, row') ∈ rows_in column es -> fr_lsn row' <= fr_lsn row
       | None => forall row, (key, row) ∉ rows_in column es
       end.
Proof.
  intros H2 [Hs Hc] Hf; unfold footer_lookup, SegmentFooter_partition; cbn [sf_partitions].
  pose proof (partition_in_spec fp_column (map fst parts) column Hc) as Hp; destruct (partition_in _ _ _) as [p|].
  - destruct Hp as [(pe & -> & Hpe)%list_elem_of_fmap <-].
    apply list_elem_of_lookup in Hpe as [i Hi]; destruct (Forall2_lookup_r _ _ _ _ _ H2 Hi) as (q & _ & Hsp & Hperm & Hcol & _).
    pose proof (lookup_sealed pe.1 pe.2 key Hsp) as Hl; rewrite <- Hcol in Hperm.
    assert (forall x, x ∈ pe.2 <-> x ∈ rows_in (fp_column pe.1) es) as Hx by (intros x; by rewrite Hperm).
    destruct (FooterPartition_lookup pe.1 key) as [[| |row]| |]; try done; res_simpl; (eexists; split; [done|]);
      setoid_rewrite Hx in Hl; exact Hl.
  - exists None; split; [done|]; intros row (e & He & Ec & _)%rows_in_elem.
    destruct (nonempty_columns_spec f es Hf) as (_ & _ & _ & Hin); apply Hin in He; rewrite Ec in He; apply Hp.
    clear -H2 He; apply list_elem_of_fmap in He as (q & -> & Hq); apply list_elem_of_lookup in Hq as [i Hi].
    destruct (Forall2_lookup_l _ _ _ _ _ H2 Hi) as (pe & Hpe & _ & _ & Hcol & _); rewrite <- Hcol.
    apply list_elem_of_fmap; exists pe.1; split; [done|]; apply list_elem_of_fmap; exists pe; split; [done|].
    by eapply list_elem_of_lookup_2.
Qed.

(** C14: a footer packs, filters and all, and the bytes parse back, behind any bytes of a segment, as
    exactly the footer the pack returned: its columns in order with their sorted rows and filters,
    its numbers and its tally. *)
Theorem footer_roundtrip f es bits pre : footer_holds f es -> footer_fields_ok f -> Forall entry_wf es ->
  len (flat_of (map erow_of es)) < 2 ^ 27 -> is_u8 bits ->
  exists f' buf, SegmentFooter_pack f bits = Ok (f', buf) /\ SegmentFooter_parse (pre ++ buf) = Ok f'
    /\ columns_ascend (sf_partitions f')
    /\ Forall (fun p => exists rows, part_rep p rows /\ sealed_order rows /\ rows ≡ₚ rows_in (fp_column p) es) (sf_partitions f')
    /\ sf_min_lsn f' = lsn_min es /\ sf_max_lsn f' = lsn_max es
    /\ sf_sealed_at f' = sf_sealed_at f /\ sf_tally f' = sf_tally f.
Proof.
  intros Hf Hok Hw Hl Hb; destruct (pack_spec f es bits Hf Hw Hl Hb) as (parts & H2 & Hps & Hfl & Hpack).
  do 2 eexists; split; [exact Hpack|]; rewrite (parse_back pre f parts Hps Hok Hfl).
  cbn [sf_partitions sf_min_lsn sf_max_lsn sf_sealed_at sf_tally].
  split_and!; [done | apply Hps | | apply Hf | apply Hf | done | done].
  clear -H2; induction H2 as [|p pe ps parts (Hp & Hperm & Hc & _) _ IH]; cbn [map]; constructor; [| done].
  exists pe.2; rewrite Hc; split_and!; [apply Hp | apply Hp | done].
Qed.

(** The footer a segment's entries gather, stamped as the seal stamps it. *)
Definition stamped (es : list FooterEntry) (sealed_at : Lsn) (tally : FooterTally) : SegmentFooter :=
  let f := SegmentFooter_build es in
  mkSegmentFooter (sf_partitions f) (sf_min_lsn f) (sf_max_lsn f) sealed_at tally.


(** C1: what a segment's entries gather, once sealed, written behind any bytes and parsed back,
    answers every lookup exactly: the newest of the entries of that column and key, and none only
    when no entry has them. *)
Theorem sealed_footer_answers es sealed_at tally bits pre column key :
  Forall entry_wf es -> len (flat_of (map erow_of es)) < 2 ^ 27 -> is_u8 bits ->
  is_u64 sealed_at -> is_u64 (ft_live tally) -> is_u64 (ft_dead tally) ->
  exists f' buf found, SegmentFooter_pack (stamped es sealed_at tally) bits = Ok (f', buf)
    /\ SegmentFooter_parse (pre ++ buf) = Ok f'
    /\ footer_lookup f' column key = Ok found
    /\ match found with
       | Some row => (exists e, e ∈ es /\ entry_column e = column /\ erow_of e = (key, row))
           /\ forall e row', e ∈ es -> entry_column e = column -> erow_of e = (key, row') -> fr_lsn row' <= fr_lsn row
       | None => forall e row, e ∈ es -> entry_column e = column -> erow_of e <> (key, row)
       end.
Proof.
  intros Hw Hl Hb Hsa Hli Hde; pose proof (build_holds es Hw ltac:(unfold U32; lia)) as Hbuild.
  assert (footer_holds (stamped es sealed_at tally) es) as Hf by (by destruct Hbuild; constructor).
  assert (footer_fields_ok (stamped es sealed_at tally)) as Hok.
  { destruct Hbuild as [_ _ _ Hmin Hmax]; destruct (lsn_range_u64 es Hw); unfold footer_fields_ok, stamped; cbn.
    by rewrite Hmin, Hmax. }
  destruct (pack_spec _ es bits Hf Hw Hl Hb) as (parts & H2 & Hps & Hfl & Hpack).
  edestruct (fun a b c d => footer_lookup_sealed (stamped es sealed_at tally) es parts a b c d column key H2 Hps Hf) as (found & El & Hfound).
  do 2 eexists; exists found; split; [exact Hpack|]; split; [by apply parse_back|]; split; [exact El|].
  destruct found as [row|]; setoid_rewrite rows_in_elem in Hfound; [destruct Hfound as [He Hnew]; split; [exact He | intros; apply Hnew; eauto] | intros e row ? ? ?; apply (Hfound row); eauto].
Qed.

End packing.

(** ** Witnesses *)

Definition demo_entry (column : ColumnId) (key : bytes) (lsn : Lsn) : FooterEntry :=
  mkFooterEntry (mkRecordKey column match KeyBytes_new key with Ok k => k | _ => KeyBytes_empty end) lsn (lsn * 64) 5 0.

(** Two columns out of order, one of one key width and one of several, a key written twice. *)
Definition demo_entries : list FooterEntry :=
  [demo_entry 7 [Byte.x62] 1; demo_entry 3 [Byte.x6b; Byte.x31] 2; demo_entry 7 [Byte.x61; Byte.x61] 3;
   demo_entry 3 [Byte.x6b; Byte.x30] 4; demo_entry 7 [Byte.x62] 5].

Lemma demo_entries_wf : Forall entry_wf demo_entries.
Proof. repeat (constructor; [repeat constructor; first [widths | vm_compute; reflexivity]|]); constructor. Qed.

Lemma demo_entries_held : footer_holds (stamped demo_entries 9 (mkFooterTally 25 0)) demo_entries.
Proof.
  destruct (build_holds demo_entries demo_entries_wf ltac:(vm_compute; reflexivity)); by constructor.
Qed.

Lemma footer_roundtrip_witness :
  exists f' buf, SegmentFooter_pack (stamped demo_entries 9 (mkFooterTally 25 0)) 10 = Ok (f', buf)
    /\ SegmentFooter_parse ([Byte.x01; Byte.x02] ++ buf) = Ok f'.
Proof.
  destruct (footer_roundtrip (stamped demo_entries 9 (mkFooterTally 25 0)) demo_entries 10 [Byte.x01; Byte.x02]
    demo_entries_held) as (f' & buf & E1 & E2 & _).
  - repeat split; vm_compute; first [reflexivity | discriminate].
  - exact demo_entries_wf.
  - vm_compute; reflexivity.
  - split; vm_compute; first [reflexivity | discriminate].
  - exists f', buf; split; [exact E1 | exact E2].
Defined.

Lemma sealed_footer_answers_witness :
  exists f' buf found, SegmentFooter_pack (stamped demo_entries 9 (mkFooterTally 25 0)) 10 = Ok (f', buf)
    /\ SegmentFooter_parse ([] ++ buf) = Ok f' /\ footer_lookup f' 7 [Byte.x62] = Ok found
    /\ match found with
       | Some row => (exists e, e ∈ demo_entries /\ entry_column e = 7 /\ erow_of e = ([Byte.x62], row))
           /\ forall e row', e ∈ demo_entries -> entry_column e = 7 -> erow_of e = ([Byte.x62], row') -> fr_lsn row' <= fr_lsn row
       | None => forall e row, e ∈ demo_entries -> entry_column e = 7 -> erow_of e <> ([Byte.x62], row)
       end.
Proof.
  apply (sealed_footer_answers demo_entries 9 (mkFooterTally 25 0) 10 [] 7 [Byte.x62]);
    [exact demo_entries_wf | vm_compute; reflexivity | ..]; split; vm_compute; first [reflexivity | discriminate].
Defined.

(** The whole path run: the newer of the key's two entries. *)
Example footer_runs :
  ('(_, buf) ← SegmentFooter_pack (stamped demo_entries 9 (mkFooterTally 25 0)) 10;
   f ← SegmentFooter_parse ([Byte.x01; Byte.x02] ++ buf);
   footer_lookup f 7 [Byte.x62]) = Ok (Some (mkFooterRow 5 320 5 0)).
Proof. vm_compute; reflexivity. Qed.
