(* ===== verification/FooterRead.v ===== *)
(** * Reading footers that may not be footers ([format/footer.rs])

    What the parse promises of arbitrary bytes, and where the directory alone says a column's rows
    lie. *)
From S2P Require Import Prelude Error Bytes Checksum Lsn Column Record Filter FooterRow Varint Prefix PrefixSeek PackedCursor Partition Footer FooterSeal.

(** ** Any bytes *)

(** What the directory loop keeps, whatever the bytes hold. *)
Record reading_wf (r : Reading) : Prop := {
  rw_at : 0 <= rd_rows_at r;
  rw_listed : rev (map fp_column (rd_partitions r)) = rd_listed r;
  rw_once : NoDup (rd_listed r);
  rw_first : rd_lead r <> None -> rd_partitions r <> [];
}.

Lemma reading_wf_push r p at_ lead : reading_wf r -> fp_column p ∉ rd_listed r -> rd_rows_at r <= at_ ->
  reading_wf (mkReading (rd_partitions r ++ [p]) at_ lead (fp_column p :: rd_listed r)).
Proof.
  intros [Ha Hl Ho _] Hc Hat; constructor; cbn [rd_rows_at rd_partitions rd_listed rd_lead].
  - lia.
  - by rewrite map_app, rev_app_distr, <- Hl.
  - by constructor.
  - intros _ E; by apply app_nil in E as [_ ?].
Qed.

Lemma read_partition_sound footer directory_at r index : reading_wf r ->
  refuses_or reading_wf (read_partition footer directory_at r index).
Proof.
  intros Hr; unfold read_partition; set (at_ := _ + _ * _).
  destruct (slice footer at_ (at_ + DIRECTORY_ROW_LEN)) as [row|] eqn:Erow; res_simpl; [| done].
  apply slice_bounds in Erow as (_ & Hrow & _); change DIRECTORY_ROW_LEN with 11 in Hrow.
  change DIRECTORY_SPAN_AT with 7; change DIRECTORY_ROW_LEN with 11.
  destruct (get_is_Some row 0) as [cb ->]; [lia|]; res_simpl; case_bool_decide as Hc; [done|].
  destruct (slice_is_Some row 1 3) as [wb ->]; [lia | lia |]; res_simpl; destruct (width_field _) as [key_width is_packed].
  destruct (slice_is_Some row 3 7) as [nb En]; [lia | lia |]; destruct (slice_is_Some row 7 11) as [sb Es]; [lia | lia |].
  rewrite En, Es; res_simpl; unfold read_u32_le; pose proof (le_val_range nb); pose proof (le_val_range sb).
  destruct is_packed.
  - destruct (slice footer _ _) as [blob|]; res_simpl; [| done].
    eapply refuses_or_bind; [by apply unpack_sound|]; intros [[packed starts] rows] _ _; destruct (negb _); [done|].
    apply reading_wf_push; [done | done | lia].
  - destruct (slice footer _ _) as [packed|] eqn:Ep; res_simpl; [| done]; destruct (negb _); [done|].
    apply reading_wf_push; [done | done |]; apply slice_bounds in Ep; pose proof (len_nonneg packed); lia.
Qed.

Lemma read_partitions_sound footer directory_at count :
  refuses_or (fun r => 0 <= r.1.2 /\ NoDup (map fp_column r.1.1) /\ (r.2 <> None -> r.1.1 <> [] /\ 0 < count))
    (read_partitions footer directory_at count).
Proof.
  unfold read_partitions; destruct (Z.ltb_spec 0 count) as [Hc|Hc].
  - eapply refuses_or_bind; [apply (refuses_or_foldm reading_wf); [by constructor; try constructor | intros; by apply read_partition_sound]|].
    intros r _ [Ha Hl Ho Hf]; cbn [refuses_or fst snd]; split_and!; [done | | intros Hn; split; [by apply Hf | done]].
    rewrite <- Hl in Ho; by rewrite <- Permutation_rev in Ho.
  - rewrite seqZ_nil by lia; cbn; split_and!; [done | constructor | done].
Qed.

Section any_bytes.
Context `{ChecksumLaws}.

Lemma sorted_columns_ascend ps : NoDup (map fp_column ps) -> columns_ascend (merge_sort column_le ps).
Proof.
  intros Hnd; assert (StronglySorted column_le (merge_sort column_le ps)) as Hs
    by (apply StronglySorted_merge_sort; [intros a b c | intros a b]; unfold column_le; lia).
  assert (NoDup (map fp_column (merge_sort column_le ps))) as Hn by (by rewrite merge_sort_Permutation).
  revert Hs Hn; generalize (merge_sort column_le ps) as l; clear; induction 1 as [|p l Hs IH Hall]; cbn [map]; intros Hn; [constructor|].
  apply NoDup_cons in Hn as [Hp Hn]; constructor; [by apply IH|]; apply Forall_forall; intros q Hq.
  rewrite Forall_forall in Hall; specialize (Hall q Hq); unfold column_le in Hall.
  assert (fp_column p <> fp_column q); [| lia]; intros E; apply Hp; rewrite E; apply list_elem_of_fmap; eauto.
Qed.

Lemma zip_columns ps fs : map fp_column (zip_with set_filter ps fs) = take (length fs) (map fp_column ps).
Proof. revert fs; induction ps as [|p ps IH]; intros [|f fs]; cbn [zip_with map length take]; try done; by rewrite IH. Qed.

Lemma alter_columns i packed ps : map fp_column (alter (fun p => set_packed p packed) i ps) = map fp_column ps.
Proof. revert i; induction ps as [|p ps IH]; intros [|i]; cbn; try done; f_equal; apply IH. Qed.

(** Everything behind the length checks. *)
Lemma verify_footer_sound footer footer_len : len footer = footer_len -> 64 <= footer_len ->
  refuses_or (fun _ => True) (verify_footer_crc footer footer_len).
Proof.
  intros Hl H64; unfold verify_footer_crc; change CRC_FROM_END with 12; change FOOTER_LEN_FROM_END with 8; change U32_BYTES with 4.
  eapply refuses_or_bind; [apply must_slice_fits; lia|]; intros s _ _.
  eapply refuses_or_bind; [apply must_slice_fits; lia|]; intros s' _ _; by destruct (negb _).
Qed.

Ltac next_slice := eapply refuses_or_bind; [apply must_slice_fits; lia|];
  let s := fresh "s" in intros s _ [_ ?]; cbn beta.

Lemma must_u32_fits (l : bytes) a : 0 <= a -> a + 4 <= len l ->
  refuses_or is_u32 (b ← must (slice l a (a + 4)); Ok (read_u32_le b)).
Proof.
  intros Ha Hb; eapply refuses_or_bind; [apply must_slice_fits; lia|]; intros s _ [_ Hs]; cbn.
  apply le_val_is_u32; lia.
Qed.

Ltac next_u32 n := eapply refuses_or_bind; [apply must_u32_fits; lia|]; intros n _ ?; cbn beta.

Lemma parse_sound bs : refuses_or (fun f => columns_ascend (sf_partitions f)) (SegmentFooter_parse bs).
Proof.
  unfold SegmentFooter_parse, SegmentFooter_parse_owned; cbv zeta; unfold read_at_u32; change FIXED_TAIL_LEN with 64.
  change MAGIC_FROM_END with 4; change FOOTER_LEN_FROM_END with 8; change CRC_FROM_END with 12; change MAX_LSN_FROM_END with 20;
    change MIN_LSN_FROM_END with 28; change LIVE_BYTES_FROM_END with 36; change DEAD_BYTES_FROM_END with 44;
    change ENTRY_COUNT_FROM_END with 48; change PARTITION_COUNT_FROM_END with 52; change BLOOM_LEN_FROM_END with 56;
    change SEALED_AT_FROM_END with 64; change U32_BYTES with 4.
  destruct (_ <? 64) eqn:E64; [done|]; b2p; next_slice; destruct (negb _); [done|]; next_slice.
  set (footer_len := read_u32_le _); destruct (_ || _) eqn:Eo; [done|]; apply orb_false_iff in Eo as [? ?]; b2p.
  next_slice; rename s1 into footer; assert (len footer = footer_len) as Hfl by lia.
  eapply refuses_or_bind; [by apply verify_footer_sound|]; intros [] _ _.
  next_u32 entry_count; next_slice; next_slice; next_u32 count; next_u32 bloom_len; next_slice; next_slice; next_slice.
  destruct (_ || _) eqn:Eo; [done|]; apply orb_false_iff in Eo as [Hbloom Hdir]; b2p; change DIRECTORY_ROW_LEN with 11 in *.
  unfold is_u32 in *; eapply refuses_or_bind; [apply read_partitions_sound|]; intros [[ps consumed] lead] _ (_ & Hnd & Hlead).
  cbn [fst snd] in *; eapply refuses_or_bind; [apply must_slice_fits; lia|]; intros fr _ _; cbn beta.
  destruct (parse_region_total fr (Z.to_nat count)) as (filters & -> & Hlen & _); res_simpl.
  assert (NoDup (map fp_column (zip_with set_filter ps filters))) as Hz.
  { rewrite zip_columns; eapply sublist_NoDup; [exact Hnd | apply sublist_take]. }
  eapply (refuses_or_bind (fun ps => NoDup (map fp_column ps))).
  - destruct lead as [span|]; [| done]; destruct (Hlead ltac:(done)) as [Hne Hc].
    destruct ps as [|p ps]; [done|]; destruct filters as [|f filters]; [cbn in Hlen; lia|].
    cbn [zip_with]; rewrite get_hit by done; res_simpl; cbn [refuses_or]; by rewrite alter_columns.
  - intros ps' _ Hn; destruct (_ || _); [done|]; by apply sorted_columns_ascend.
Qed.

(** C31: parsing never panics, on any bytes at all: it gives a footer or a corruption. A footer it
    gives lists each column once and in column order, so a column's rows are always found. *)
Theorem parse_never_panics bs : refuses_or (fun f => columns_ascend (sf_partitions f)
    /\ forall p, p ∈ sf_partitions f -> SegmentFooter_partition f (fp_column p) = Some p) (SegmentFooter_parse bs).
Proof.
  eapply refuses_or_mono; [apply parse_sound|]; intros f Hs; split; [done|]; intros p Hp.
  pose proof (partition_in_spec fp_column (sf_partitions f) (fp_column p) Hs) as Hf; unfold SegmentFooter_partition.
  destruct (partition_in _ _ _) as [q|]; [| exfalso; apply Hf, list_elem_of_fmap; eauto].
  destruct Hf as [Hq Hc]; f_equal; by apply (column_once fp_column (sf_partitions f)).
Qed.

(** ** The directory on its own *)

(** The spans of some partitions, one behind the other. *)
Fixpoint spans_from (at_ : Z) (parts : list (FooterPartition * list erow)) : list PartitionSpan :=
  match parts with
  | [] => []
  | pe :: parts =>
      mkPartitionSpan (fp_column pe.1) (fp_key_width pe.1) true (len pe.2) at_ (len (enc pe.2))
      :: spans_from (at_ + len (enc pe.2)) parts
  end.

Lemma partition_spans_back parts rows_at tl : parts_sealed parts -> footer_length parts < U32 ->
  partition_spans (directory parts ++ tl) (len parts) rows_at = Ok (spans_from rows_at parts).
Proof.
  intros [Hs _] Hl; destruct (len_total parts Hs) as (_ & _ & Hall); rewrite footer_length_parts in Hl.
  pose proof (region_len_nonneg (map fst parts)); pose proof (len_nonneg parts); unfold partition_spans.
  assert (forall b a spans at_, parts = a ++ b ->
    exists end_, foldm (partition_span_row (directory parts ++ tl)) (map Z.of_nat (seq (length a) (length b))) (spans, at_)
    = Ok (spans ++ spans_from at_ b, end_)) as Hloop.
  { induction b as [|pe b IH]; intros a spans at_ E; [exists at_; cbn; by rewrite app_nil_r|].
    assert (pe ∈ parts) as Hin by (rewrite E; set_solver).
    rewrite Forall_forall in Hs, Hall; pose proof (Hs _ Hin) as Hp; pose proof (Hall _ Hin) as He; cbv beta in Hp, He.
    destruct (sealed_fits _ _ Hp ltac:(lia)) as (_ & _ & Hn); assert (is_u32 (len pe.2)) as Hrows
      by (unfold len in *; rewrite length_map in Hn; split; [lia | done]).
    cbn [length seq map foldm]; change (Z.of_nat (length a)) with (len a).
    assert (partition_span_row (directory parts ++ tl) (spans, at_) (len a)
      = Ok (spans ++ [mkPartitionSpan (fp_column pe.1) (fp_key_width pe.1) true (len pe.2) at_ (len (enc pe.2))], at_ + len (enc pe.2))) as ->.
    { unfold partition_span_row.
      assert (slice (directory parts ++ tl) (len a * DIRECTORY_ROW_LEN) (len a * DIRECTORY_ROW_LEN + DIRECTORY_ROW_LEN)
        = Some (directory_row pe.1 (len pe.2) (len (enc pe.2)))) as ->.
      { rewrite E; unfold directory; rewrite map_app, concat_app; cbn [map concat]; fold (directory a).
        rewrite <- !app_assoc; apply slice_mid; [by rewrite len_directory | done]. }
      res_simpl; destruct (directory_row_fields pe.1 (len pe.2) (len (enc pe.2))) as (Hg & Hu8 & (wb & -> & Hwb) & (cb & Hcs & Hcb) & (sb & Hss & Hsb));
        [apply Hp | apply Hp | apply Hp | done | split; [apply len_nonneg | lia] |].
      res_simpl; rewrite Hwb, Hcs, Hss, Hg; res_simpl; by rewrite Hu8, Hcb, Hsb. }
    res_simpl.
    specialize (IH (a ++ [pe])); rewrite <- app_assoc, length_app, Nat.add_comm in IH.
    destruct (IH (spans ++ [mkPartitionSpan (fp_column pe.1) (fp_key_width pe.1) true (len pe.2) at_ (len (enc pe.2))])
      (at_ + len (enc pe.2)) E) as [end_ E2]; exists end_; cbn [length Nat.add] in E2; rewrite E2, <- app_assoc; done. }
  destruct (Hloop parts [] [] rows_at eq_refl) as [end_ E]; cbn [length] in E; rewrite <- seqZ_seq in E; fold (len parts) in E.
  by rewrite E.
Qed.

Lemma directory_span_back pre f parts file_len : parts_sealed parts -> footer_length parts < U32 ->
  footer_length parts <= file_len ->
  directory_span (pre ++ fixed_tail f parts (u32_le (checksum (body parts ++ fixed_tail f parts (zeros 4))))) file_len
  = Ok (Some (mkDirectorySpan (footer_length parts) (footer_length parts - 64 - len parts * 11) (len parts)
                (filter_region_len (map fst parts)))).
Proof.
  intros [Hs _] Hl Hfile; destruct (len_total parts Hs) as (_ & Ht & _); set (c := checksum _).
  pose proof (region_len_nonneg (map fst parts)); pose proof (len_nonneg parts); pose proof (len_nonneg pre).
  pose proof (footer_length_parts parts) as El; pose proof (len_fixed_tail f parts c) as Hft; unfold directory_span; cbv zeta.
  destruct (fixed_tail_fields f parts c) as (_ & _ & F2 & F3 & _ & _ & _ & _ & _ & _ & F9 & F10 & _).
  change FIXED_TAIL_LEN with 64; change MAGIC_FROM_END with 4; change FOOTER_LEN_FROM_END with 8; change DIRECTORY_ROW_LEN with 11;
    change PARTITION_COUNT_FROM_END with 52; change BLOOM_LEN_FROM_END with 56; change U32_BYTES with 4; rewrite len_app, Hft.
  destruct (_ <? 64) eqn:E64; [b2p; lia|]; next_field F10; change (read_u32_le (u32_le FOOTER_MAGIC) =? FOOTER_MAGIC) with true.
  cbn [negb]; next_field F9; unfold read_u32_le; rewrite (le_val_u32 (footer_length parts)) by (unfold is_u32; lia).
  destruct (_ || _) eqn:Eo; [apply orb_true_iff in Eo as [?|?]; b2p; lia|]; clear Eo; next_field F3; next_field F2.
  rewrite !le_val_u32 by (unfold is_u32; lia).
  destruct (_ || _) eqn:Eo; [apply orb_true_iff in Eo as [?|?]; b2p; lia|]; done.
Qed.

Lemma spans_from_hit parts pre rest : Forall2 (fun pe s => slice (pre ++ concat (encs parts) ++ rest) (ps_at s) (ps_at s + ps_encoded s)
    = Some (enc pe.2) /\ ps_column s = fp_column pe.1 /\ ps_key_width s = fp_key_width pe.1 /\ ps_is_packed s = true /\ ps_rows s = len pe.2)
  parts (spans_from (len pre) parts).
Proof.
  revert pre; induction parts as [|pe parts IH]; intros pre; cbn [spans_from]; [constructor|]; constructor.
  - split; [| done]; unfold encs; cbn [map concat ps_at ps_encoded]; rewrite <- app_assoc; by apply slice_mid.
  - specialize (IH (pre ++ enc pe.2)); rewrite len_app in IH; unfold encs in *; cbn [map concat]; by rewrite <- !app_assoc in *.
Qed.

(** The directory of a packed footer finds every column's rows without the footer itself: from
    any end of the file that holds the fixed tail, the directory's place is found, and its rows,
    read alone, give each column, its key width and row count, and the bytes of the file that are
    exactly the column's encoded rows. *)
Lemma directory_locates_rows f es bits pre head tail_ : footer_holds f es -> Forall entry_wf es ->
  len (flat_of (map erow_of es)) < 2 ^ 27 -> is_u8 bits ->
  exists f' buf, SegmentFooter_pack f bits = Ok (f', buf)
    /\ (head ++ tail_ = pre ++ buf -> FIXED_TAIL_LEN <= len tail_ ->
        exists d dir spans, directory_span tail_ (len (pre ++ buf)) = Ok (Some d)
          /\ ds_footer_len d = len buf /\ ds_partitions d = len (sf_partitions f')
          /\ slice (pre ++ buf) (len pre + ds_directory_at d)
               (len pre + ds_directory_at d + ds_partitions d * DIRECTORY_ROW_LEN) = Some dir
          /\ partition_spans dir (ds_partitions d) (len pre) = Ok spans
          /\ Forall2 (fun p s => ps_column s = fp_column p /\ ps_key_width s = fp_key_width p
                 /\ ps_is_packed s = fp_is_packed p /\ ps_rows s = FooterPartition_len p
                 /\ exists blob, slice (pre ++ buf) (ps_at s) (ps_at s + ps_encoded s) = Some blob
                      /\ encoded_partition_rows p = Ok blob) (sf_partitions f') spans).
Proof.
  intros Hf Hw Hl Hb; destruct (pack_spec f es bits Hf Hw Hl Hb) as (parts & _ & Hps & Hfl & Hpack).
  do 2 eexists; split; [exact Hpack|]; intros Esuf H64; cbn [sf_partitions]; pose proof Hps as [Hsp _].
  pose proof (len_footer_bytes f parts) as Hlen; pose proof (len_nonneg pre).
  pose proof Esuf as Esuf'; unfold footer_bytes in Esuf'; rewrite (app_assoc pre) in Esuf'.
  destruct (suffix_within _ _ _ _ Esuf') as [q ->]; [by rewrite len_fixed_tail|].
  rewrite (directory_span_back q f parts) by (done || len_lia).
  eexists; exists (directory parts), (spans_from (len pre) parts); split; [done|]; cbn [ds_footer_len ds_partitions ds_directory_at].
  split_and!; [done | unfold len; by rewrite length_map | | rewrite <- (app_nil_r (directory parts)); by apply partition_spans_back |].
  - unfold footer_bytes, body; rewrite <- !app_assoc, (app_assoc (concat _)), (app_assoc pre).
    pose proof (footer_length_parts parts); change DIRECTORY_ROW_LEN with 11.
    apply slice_mid; [rewrite !len_app, <- sum_len_concat, len_region; lia | rewrite len_directory; change DIRECTORY_ROW_LEN with 11; lia].
  - unfold footer_bytes, body; rewrite <- !app_assoc; set (rest := region _ ++ _).
    pose proof (spans_from_hit parts pre rest) as H2; apply Forall2_fmap_l.
    apply Forall2_same_length_lookup; split; [by eapply Forall2_length|]; intros i pe sp Hi Hj.
    destruct (Forall2_lookup_lr _ _ _ _ _ _ H2 Hi Hj) as (Hslice & H3 & H4 & H5 & H6); cbn [compose].
    pose proof (list_elem_of_lookup_2 _ _ _ Hi) as Hin; destruct (len_total parts Hsp) as (_ & _ & Hall).
    rewrite Forall_forall in Hsp, Hall; pose proof (Hsp pe Hin) as Hp; specialize (Hall pe Hin); cbv beta in *.
    split_and!; [done | done | by rewrite (sp_packed _ _ Hp) | by rewrite H6, (part_len _ _ (sp_rep _ _ Hp)) |].
    exists (enc pe.2); split; [done|]; apply encoded_sealed; [done|].
    pose proof (footer_length_parts parts); pose proof (region_len_nonneg (map fst parts)); pose proof (len_nonneg parts); lia.
Qed.

End any_bytes.

(** ** Witnesses *)

Lemma directory_locates_rows_witness :
  exists f' buf, SegmentFooter_pack (stamped demo_entries 9 (mkFooterTally 25 0)) 10 = Ok (f', buf)
    /\ ([] ++ ([Byte.x01] ++ buf) = [Byte.x01] ++ buf -> FIXED_TAIL_LEN <= len ([Byte.x01] ++ buf) ->
        exists d dir spans, directory_span ([Byte.x01] ++ buf) (len ([Byte.x01] ++ buf)) = Ok (Some d)
          /\ partition_spans dir (ds_partitions d) 1 = Ok spans
          /\ map ps_column spans = map fp_column (sf_partitions f')).
Proof.
  set (f := stamped demo_entries 9 (mkFooterTally 25 0)).
  destruct (SegmentFooter_pack f 10) as [[f0 buf0]| |] eqn:Epack; [| vm_compute in Epack; discriminate ..].
  exists f0, buf0; split; [done|]; intros Esuf Hlen.
  destruct (directory_locates_rows f demo_entries 10 [Byte.x01] [] ([Byte.x01] ++ buf0) demo_entries_held demo_entries_wf
    ltac:(vm_compute; reflexivity) ltac:(split; vm_compute; first [reflexivity | discriminate])) as (f' & buf & E & Hd).
  rewrite Epack in E; injection E as <- <-; destruct (Hd Esuf Hlen) as (d & dir & spans & E1 & _ & _ & _ & E2 & H2).
  exists d, dir, spans; split; [exact E1|]; split; [exact E2|].
  clear -H2; induction H2 as [|p s ps ss [Hc _] _ IH]; cbn [map]; [done | by rewrite Hc, IH].
Defined.

Lemma parse_never_panics_witness :
  refuses_or (fun f => columns_ascend (sf_partitions f)
    /\ forall p, p ∈ sf_partitions f -> SegmentFooter_partition f (fp_column p) = Some p) (SegmentFooter_parse (zeros 100)).
Proof. apply (parse_never_panics (zeros 100)). Defined.
