(* ===== verification/Block.v ===== *)
(** * Reading a sealed footer a block at a time ([format/block.rs])

    [FooterMap] reads a segment's directory, filters and restart tables from the end of its file and
    none of its rows; [RowBlock] reads the rows of one block, and the searches at the end read only
    the blocks they touch. The driver is the parameter [pread] of the file being read; the caller's
    cache of blocks is the parameter [load] of the searches. The counters of reads a map notes do
    not change what is read and are left out. *)
From S2P Require Import Prelude Error Bytes Lsn Column Record Filter FooterRow Varint Prefix PackedCursor Partition Footer.

Definition TAIL_PROBE : Z := 512.
Definition BLOCK_ROWS : Z := 64.
Definition ROW_BLOCK_BYTES : Z := 8 * 1024.

Definition block_rows_of (key_width : Z) (is_packed : bool) : Z :=
  if is_packed then RESTART_INTERVAL else
  let stride := key_width + ENTRY_TAIL_LEN in
  Z.min BLOCK_ROWS (Z.max (ROW_BLOCK_BYTES / Z.max stride 1) 1).

Definition PartitionSpan_stride (s : PartitionSpan) : Z := ps_key_width s + ENTRY_TAIL_LEN.

Definition PartitionSpan_block_rows (s : PartitionSpan) : Z := block_rows_of (ps_key_width s) (ps_is_packed s).

Definition PartitionSpan_blocks (s : PartitionSpan) : Z := div_ceil (ps_rows s) (PartitionSpan_block_rows s).

(** The first row of one block and how many rows it holds. *)
Definition PartitionSpan_block (s : PartitionSpan) (at_ : Z) : Z * Z :=
  let rows := PartitionSpan_block_rows s in
  let first := at_ * rows in
  (first, Z.min rows (saturating_sub (ps_rows s) first)).

Record RestartTable := mkRestartTable {
  rt_offsets : list Z;
  rt_rows_end : Z;
}.

Definition RestartTable_start (t : RestartTable) (block : Z) : option Z := get (rt_offsets t) block.

Definition RestartTable_cut (t : RestartTable) (block : Z) : option (Z * Z) :=
  start ← get (rt_offsets t) block;
  let end_ := default (rt_rows_end t) (get (rt_offsets t) (block + 1)) in
  if end_ >? start then Some (start, end_) else None.

(** One column's place in a sealed segment and everything read about it with the directory. *)
Record PartitionHeld := mkPartitionHeld {
  ph_span : PartitionSpan;
  ph_filter : option Filter;
  ph_restarts : option RestartTable;
}.

Record FooterMap := mkFooterMap { fm_partitions : list PartitionHeld }.

Definition held_column (h : PartitionHeld) : ColumnId := ps_column (ph_span h).

Definition held_le (a b : PartitionHeld) : Prop := held_column a <= held_column b.
Global Instance held_le_dec : RelDecision held_le.
Proof. intros a b; unfold held_le; apply _. Defined.

Record RowBlock := mkRowBlock {
  rb_packed : bytes;
  rb_stride : Z;
  rb_key_width : Z;
  rb_starts : list Z;
  rb_first : Z;
}.

(** ** Reading *)

Section driver.
Variable pread : Z -> Z -> res bytes.

(** One turn of the loop that reads a table's offsets. *)
Definition read_restart (bs : bytes) (rows_end : Z) (offsets : list Z) (at_ : Z) : res (list Z) :=
  b ← must (slice bs (at_ * 4) (at_ * 4 + 4));
  let offset := read_u32_le b in
  if (offset >=? rows_end) || match last offsets with Some l => offset <=? l | None => false end then
    Err (Corruption "a packed partition's restarts do not ascend")
  else Ok (offsets ++ [offset]).

Definition read_restarts (span : PartitionSpan) : res (option RestartTable) :=
  if negb (ps_is_packed span) || (ps_rows span =? 0) then Ok None else
  let count := div_ceil (ps_rows span) RESTART_INTERVAL in
  let wanted := count * 4 + TRAILER_LEN in
  if ps_encoded span <? wanted then Err (Corruption "a packed partition is shorter than its restart table") else
  bs ← pread (ps_at span + ps_encoded span - wanted) wanted;
  if len bs <? wanted then Err (Corruption "a packed partition's restart table is truncated") else
  let table_len := count * 4 in
  a ← must (slice bs table_len (table_len + 4));
  b ← must (slice bs (table_len + 4) (table_len + 8));
  if negb (read_u32_le a =? count) || negb (read_u32_le b =? ps_rows span) then
    Err (Corruption "a packed partition's trailer disagrees with its directory row")
  else
  let rows_end := as_u32 (ps_encoded span - wanted) in
  offsets ← foldm (read_restart bs rows_end) (seqZ 0 count) [];
  if negb (bool_decide (head offsets = Some 0)) then
    Err (Corruption "a packed partition's rows do not open on a restart")
  else Ok (Some (mkRestartTable offsets rows_end)).

Definition FooterMap_read (file_len : Z) : res (option FooterMap) :=
  if file_len <? FIXED_TAIL_LEN then Ok None else
  let probe := Z.min TAIL_PROBE file_len in
  tail_ ← pread (file_len - probe) probe;
  if len tail_ <? FIXED_TAIL_LEN then Ok None else
  span ← directory_span tail_ file_len;
  match span with
  | None => Ok None
  | Some span =>
      let wanted := ds_footer_len span - ds_directory_at span + ds_filter_len span in
      tailed ← (if wanted <=? probe then must (slice_from tail_ (len tail_ - wanted))
                else pread (file_len - wanted) wanted);
      if len tailed <? ds_filter_len span + ds_partitions span * DIRECTORY_ROW_LEN then Ok None else
      region ← must (slice tailed 0 (ds_filter_len span));
      directory ← must (slice_from tailed (ds_filter_len span));
      let rows_at := file_len - ds_footer_len span in
      spans ← partition_spans directory (ds_partitions span) rows_at;
      restarts ← mapm read_restarts spans;
      filters ← Filter_parse_region region (length spans);
      let partitions := zip_with (fun sf r => mkPartitionHeld sf.1 sf.2 r) (zip spans filters) restarts in
      Ok (Some (mkFooterMap (merge_sort held_le partitions)))
  end.

Definition RowBlock_read (span : PartitionSpan) (at_ : Z) (restarts : option RestartTable) : res RowBlock :=
  let '(first, rows) := PartitionSpan_block span at_ in
  if negb (ps_is_packed span) then
    let stride := PartitionSpan_stride span in
    let offset := ps_at span + first * stride in
    packed ← pread offset (rows * stride);
    Ok (mkRowBlock packed stride (ps_key_width span) [] first)
  else
  table ← ok_or restarts (Corruption "a packed partition was read without its restart table");
  '(start, end_) ← ok_or (RestartTable_cut table at_) (Corruption "a packed partition's restarts leave a block empty");
  bs ← pread (ps_at span + start) (end_ - start);
  if len bs <? end_ - start then Err (Corruption "footer partition is truncated") else
  '(packed, starts) ← unpack_block bs TailEntry;
  if negb (len starts - 1 =? rows) then
    Err (Corruption "a restart block holds a row count its table denies")
  else Ok (mkRowBlock packed 0 0 starts first).

End driver.

(** ** The map *)

Definition FooterMap_at (m : FooterMap) (column : ColumnId) : option PartitionHeld :=
  partition_in (fm_partitions m) column held_column.

Definition FooterMap_locate (m : FooterMap) (column : ColumnId) : option (PartitionSpan * option Filter) :=
  held ← FooterMap_at m column; Some (ph_span held, ph_filter held).

Definition FooterMap_span_of (m : FooterMap) (column : ColumnId) : option PartitionSpan :=
  held ← FooterMap_at m column; Some (ph_span held).

Definition FooterMap_restarts_of (m : FooterMap) (column : ColumnId) : option RestartTable :=
  held ← FooterMap_at m column; ph_restarts held.

Definition FooterMap_columns (m : FooterMap) : list ColumnId := map held_column (fm_partitions m).

(** ** One block *)

Definition RowBlock_len (b : RowBlock) : Z :=
  match rb_starts b with
  | _ :: _ => len (rb_starts b) - 1
  | [] => if rb_stride b =? 0 then 0 else len (rb_packed b) / rb_stride b
  end.

Definition RowBlock_is_empty (b : RowBlock) : bool := RowBlock_len b =? 0.

(** [checked_mul], [checked_add] *)
Definition checked_u64 (z : Z) : option Z := if z <? U64 then Some z else None.

Definition RowBlock_row_span (b : RowBlock) (at_ : Z) : option (Z * Z) :=
  match rb_starts b with
  | _ :: _ =>
      start ← get (rb_starts b) at_;
      end_ ← get (rb_starts b) (at_ + 1);
      if (end_ >=? start) && (end_ <=? len (rb_packed b)) then Some (start, end_) else None
  | [] =>
      start ← checked_u64 (at_ * rb_stride b);
      end_ ← checked_u64 (start + rb_stride b);
      if end_ <=? len (rb_packed b) then Some (start, end_) else None
  end.

Definition RowBlock_key_len (b : RowBlock) (at_ : Z) : option Z :=
  match rb_starts b with
  | [] => Some (rb_key_width b)
  | _ :: _ =>
      '(start, end_) ← RowBlock_row_span b at_;
      if end_ - start <? ENTRY_TAIL_LEN then None else Some (end_ - start - ENTRY_TAIL_LEN)
  end.

Definition RowBlock_key_at (b : RowBlock) (at_ : Z) : option bytes :=
  '(start, _) ← RowBlock_row_span b at_;
  width ← RowBlock_key_len b at_;
  slice (rb_packed b) start (start + width).

Definition RowBlock_first_key (b : RowBlock) : option bytes := RowBlock_key_at b 0.

Definition RowBlock_row_at (b : RowBlock) (at_ : Z) : res FooterRow :=
  '(start, end_) ← ok_or (RowBlock_row_span b at_) out_of_range;
  width ← ok_or (RowBlock_key_len b at_) (Corruption "footer row is shorter than its tail");
  row ← ok_or (slice (rb_packed b) start end_) out_of_range;
  FooterRow_read row width.

(** The [while low < high] loop of the bisection; the window halves, so its width in turns is enough. *)
Fixpoint upper_bound_loop (fuel : nat) (b : RowBlock) (key : bytes) (low high : Z) : option Z :=
  match fuel with
  | O => None
  | S fuel =>
      if low <? high then
        let mid := low + (high - low) / 2 in
        match RowBlock_key_at b mid with
        | Some found => if bytes_leb found key then upper_bound_loop fuel b key (mid + 1) high
                        else upper_bound_loop fuel b key low mid
        | None => Some low
        end
      else Some low
  end.

Definition RowBlock_upper_bound (b : RowBlock) (key : bytes) : Z :=
  default 0 (upper_bound_loop (S (Z.to_nat (RowBlock_len b))) b key 0 (RowBlock_len b)).

Definition RowBlock_find (b : RowBlock) (key : bytes) : option (res FooterRow) :=
  at_ ← checked_pred (RowBlock_upper_bound b key);
  k ← RowBlock_key_at b at_;
  if negb (bytes_eqb k key) then None else Some (RowBlock_row_at b at_).

(** ** Searching the blocks *)

Section searches.
Variable load : Z -> res (option RowBlock).

Fixpoint landing_loop (fuel : nat) (key : bytes) (low high : Z) : res (option (option Z)) :=
  match fuel with
  | O => Panic
  | S fuel =>
      if low <? high then
        let mid := low + (high - low) / 2 in
        block ← load mid;
        match block with
        | None => Ok None
        | Some block =>
            match RowBlock_first_key block with
            | Some first => if bytes_leb first key then landing_loop fuel key (mid + 1) high
                            else landing_loop fuel key low mid
            | None => landing_loop fuel key low mid
            end
        end
      else Ok (Some (checked_pred low))
  end.

(** A segment that is gone and a key below every block both answer nothing. *)
Definition landing (key : bytes) (blocks : Z) : res (option Z) :=
  found ← landing_loop (S (Z.to_nat blocks)) key 0 blocks;
  Ok (match found with Some at_ => at_ | None => None end).

Definition find_in_span (span : PartitionSpan) (key : bytes) : res (option FooterRow) :=
  let blocks := PartitionSpan_blocks span in
  if blocks =? 0 then Ok None else
  at_ ← landing key blocks;
  match at_ with
  | None => Ok None
  | Some at_ =>
      block ← load at_;
      match block with
      | None => Ok None
      | Some block =>
          match RowBlock_find block key with
          | Some found => row ← found; Ok (Some row)
          | None => Ok None
          end
      end
  end.

Definition rules_out (filter : option Filter) (key : bytes) : res bool :=
  match filter with
  | Some filter => held ← Filter_may_hold filter key; Ok (negb held)
  | None => Ok false
  end.

Definition lookup_in_span (span : PartitionSpan) (filter : option Filter) (key : bytes) : res FooterFind :=
  out ← rules_out filter key;
  if out : bool then Ok RuledOut else
  found ← find_in_span span key;
  Ok match found with None => Missing | Some row => FoundRow row end.

(** What the walk back through one block's rows ends on: a row, a key that is another, or the
    block's first row. *)
Inductive BlockWalk := WalkFound (row : FooterRow) | WalkOver | WalkBack.

Fixpoint walk_block (row : nat) (block : RowBlock) (key : bytes) (offset : Z) : res BlockWalk :=
  match row with
  | O => Ok WalkBack
  | S row =>
      if negb (bool_decide (RowBlock_key_at block (Z.of_nat row) = Some key)) then Ok WalkOver else
      found ← RowBlock_row_at block (Z.of_nat row);
      if fr_offset found =? offset then Ok (WalkFound found) else walk_block row block key offset
  end.

Fixpoint walk_blocks (at_ : nat) (key : bytes) (offset : Z) : res (option FooterRow) :=
  block ← load (Z.of_nat at_);
  match block with
  | None => Ok None
  | Some block =>
      walked ← walk_block (Z.to_nat (RowBlock_upper_bound block key)) block key offset;
      match walked with
      | WalkFound row => Ok (Some row)
      | WalkOver => Ok None
      | WalkBack => match at_ with S previous => walk_blocks previous key offset | O => Ok None end
      end
  end.

Definition find_offset_in_span (span : PartitionSpan) (filter : option Filter) (key : bytes) (offset : Z)
    : res (option FooterRow) :=
  out ← rules_out filter key;
  if out : bool then Ok None else
  at_ ← landing key (PartitionSpan_blocks span);
  match at_ with
  | None => Ok None
  | Some at_ => walk_blocks (Z.to_nat at_) key offset
  end.

End searches.

(** ** The rows a block holds *)

(** A block read as a partition of its own rows. *)
Definition block_part (b : RowBlock) : FooterPartition :=
  mkFooterPartition 0 (match rb_starts b with [] => rb_key_width b | _ :: _ => VARYING_WIDTH end)
    (rb_packed b) (rb_starts b) None true.

Record block_rep (b : RowBlock) (es : list (bytes * FooterRow)) : Prop := {
  br_part : part_rep (block_part b) es;
  br_stride : rb_starts b = [] -> rb_stride b = rb_key_width b + ENTRY_TAIL_LEN /\ rb_key_width b <> VARYING_WIDTH;
}.

Lemma block_varying b es : block_rep b es ->
  FooterPartition_is_varying (block_part b) = match rb_starts b with [] => false | _ :: _ => true end.
Proof.
  intros [_ Hs]; unfold FooterPartition_is_varying, block_part; cbn [fp_key_width]; destruct (rb_starts b); [| done].
  destruct (Hs eq_refl) as [_ Hw]; by apply Z.eqb_neq.
Qed.

Lemma block_row_span b es at_ : block_rep b es -> 0 <= at_ ->
  RowBlock_row_span b at_ = FooterPartition_row_span (block_part b) at_.
Proof.
  intros Hb Ha; unfold RowBlock_row_span, FooterPartition_row_span; rewrite (block_varying b es Hb).
  destruct Hb as [Hp Hs]; pose proof (stride_pos _ _ Hp) as Hst; pose proof (pp_fits _ _ Hp) as Hf.
  unfold FooterPartition_stride in *; unfold block_part in *; cbn [fp_key_width fp_packed fp_starts] in *.
  destruct (rb_starts b) as [|x l]; [| done]; destruct (Hs eq_refl) as [-> Hw]; set (st := rb_key_width b + _) in *.
  unfold checked_u64; unfold U32, U64 in *; assert (0 <= at_ * st) by nia.
  destruct (at_ * st <? _) eqn:E1; res_simpl; [destruct (at_ * st + st <? _) eqn:E2; res_simpl; [done|]|];
    destruct (at_ * st + st <=? _) eqn:E3; try done; b2p; lia.
Qed.

Lemma block_key_len b es at_ : block_rep b es -> 0 <= at_ -> RowBlock_key_len b at_ = FooterPartition_key_len (block_part b) at_.
Proof.
  intros Hb Ha; unfold RowBlock_key_len, FooterPartition_key_len; rewrite (block_varying b es Hb), <- (block_row_span b es at_ Hb Ha).
  unfold block_part; cbn [fp_key_width]; by destruct (rb_starts b).
Qed.

Lemma block_key_at b es (i : nat) : block_rep b es -> RowBlock_key_at b (Z.of_nat i) = fst <$> es !! i.
Proof.
  intros Hb; rewrite <- (part_key_at _ es i (br_part _ _ Hb)); unfold RowBlock_key_at, FooterPartition_key_at.
  by rewrite (block_row_span b es), (block_key_len b es) by (done || lia).
Qed.

Lemma block_len b es : block_rep b es -> RowBlock_len b = len es.
Proof.
  intros Hb; rewrite <- (part_len _ es (br_part _ _ Hb)); unfold RowBlock_len, FooterPartition_len; rewrite (block_varying b es Hb).
  pose proof (br_stride _ _ Hb) as Hs; pose proof (stride_pos _ _ (br_part _ _ Hb)) as Hst.
  unfold FooterPartition_stride in *; unfold block_part in *; cbn [fp_packed fp_starts fp_key_width] in *; destruct (rb_starts b) as [|x l].
  - destruct (Hs eq_refl) as [-> _]; destruct (Z.eqb_spec (rb_key_width b + ENTRY_TAIL_LEN) 0); [lia | done].
  - unfold saturating_sub; len_lia.
Qed.

Lemma block_row_at b es (i : nat) e : block_rep b es -> es !! i = Some e -> RowBlock_row_at b (Z.of_nat i) = Ok e.2.
Proof.
  intros Hb He; pose proof (part_row_at _ es i e (br_part _ _ Hb) He) as Hr; revert Hr.
  unfold RowBlock_row_at, FooterPartition_row_at, FooterPartition_row_bytes.
  rewrite (block_row_span b es), (block_key_len b es) by (done || lia).
  destruct (FooterPartition_row_span _ _) as [[start end_]|], (FooterPartition_key_len _ _) as [w|]; res_simpl; done.
Qed.

Lemma upper_bound_loop_part b es key : block_rep b es -> forall fuel (low high : nat), (high <= length es)%nat ->
  upper_bound_loop fuel b key (Z.of_nat low) (Z.of_nat high) = bound_loop fuel (block_part b) key true (Z.of_nat low) (Z.of_nat high).
Proof.
  intros Hb; induction fuel as [|fuel IH]; intros low high Hh; cbn [upper_bound_loop bound_loop]; [done|].
  destruct (_ <? _) eqn:E; [| done]; b2p.
  assert (0 <= (Z.of_nat high - Z.of_nat low) / 2 < Z.of_nat high - Z.of_nat low) as Hd
    by (split; [apply Z.div_pos; lia | apply Z.div_lt; lia]).
  set (mid := Z.of_nat low + _) in *; assert (exists m : nat, mid = Z.of_nat m) as [m Hm]
    by (exists (Z.to_nat mid); lia); rewrite Hm in *.
  rewrite (block_key_at b es m Hb), (part_key_at _ es m (br_part _ _ Hb)).
  destruct (lookup_lt_is_Some_2 es m) as [e He]; [lia|]; rewrite He; cbn [fmap option_fmap option_map].
  replace (Z.of_nat m + 1) with (Z.of_nat (S m)) by lia; destruct (bytes_leb _ _); apply IH; lia.
Qed.

Lemma block_upper_bound b es key : block_rep b es -> keys_sorted es ->
  exists u, RowBlock_upper_bound b key = Z.of_nat u /\ bound_at true key es u.
Proof.
  intros Hb Hs; destruct (bound_loop_spec (block_part b) es true key (br_part _ _ Hb) Hs (S (length es)) 0 (length es))
    as (u & E & Hu); [lia | lia | lia | intros i e Hi He; apply lookup_lt_Some in He; lia |].
  exists u; split; [| done]; unfold RowBlock_upper_bound; rewrite (block_len b es Hb), to_nat_len.
  rewrite <- (upper_bound_loop_part b es key Hb) in E by lia; change (Z.of_nat 0) with 0 in E; fold (len es) in E; by rewrite E.
Qed.

(** ** Searches over a column cut into blocks *)

Section chunks.
Variable load : Z -> res (option RowBlock).
Variable chunks : list (list (bytes * FooterRow)).
Hypothesis loads : forall i c, chunks !! i = Some c -> exists b, load (Z.of_nat i) = Ok (Some b) /\ block_rep b c.
Hypothesis filled : Forall (fun c => c <> []) chunks.
Hypothesis ordered : sealed_order (concat chunks).

Lemma entry_le_key a b : entry_le a b -> bytes_le a.1 b.1.
Proof. intros [?| [-> _]]; [by apply bytes_lt_le | reflexivity]. Qed.

Lemma chunk_sorted i c : chunks !! i = Some c -> sealed_order c.
Proof.
  intros Hc; unfold sealed_order in *; rewrite <- (take_drop_middle chunks i c Hc), concat_app in ordered.
  apply StronglySorted_app in ordered as (_ & _ & Hs); cbn [concat] in Hs; by apply StronglySorted_app in Hs as (_ & ? & _).
Qed.

Lemma chunk_before i j c d x y : chunks !! i = Some c -> chunks !! j = Some d -> (i < j)%nat -> x ∈ c -> y ∈ d -> entry_le x y.
Proof.
  intros Hc Hd Hij Hx Hy; unfold sealed_order in *; rewrite <- (take_drop_middle chunks i c Hc), concat_app in ordered.
  apply StronglySorted_app in ordered as (_ & _ & Hs); cbn [concat] in Hs; apply StronglySorted_app in Hs as (H & _ & _).
  apply H; [done|]; apply list_elem_of_In, in_concat; exists d; split; [| by apply list_elem_of_In].
  apply list_elem_of_In, list_elem_of_lookup; exists (j - S i)%nat; rewrite lookup_drop; by replace (S i + (j - S i))%nat with j by lia.
Qed.

Lemma chunk_head i c : chunks !! i = Some c -> exists e, c !! 0%nat = Some e /\ e ∈ c.
Proof.
  intros Hc; rewrite Forall_lookup in filled; specialize (filled i c Hc).
  destruct c as [|e c]; [done|]; exists e; split; [done | left].
Qed.

Lemma elem_of_chunks e : e ∈ concat chunks <-> exists i c, chunks !! i = Some c /\ e ∈ c.
Proof.
  rewrite list_elem_of_In, in_concat; setoid_rewrite <- list_elem_of_In; setoid_rewrite list_elem_of_lookup at 1; naive_solver.
Qed.

Definition opens_at_or_below (key : bytes) (i : nat) : Prop :=
  forall c e, chunks !! i = Some c -> c !! 0%nat = Some e -> bytes_le e.1 key.
Definition opens_above (key : bytes) (i : nat) : Prop :=
  forall c e, chunks !! i = Some c -> c !! 0%nat = Some e -> bytes_lt key e.1.

Lemma opens_mono key i j c e : (i <= j)%nat -> chunks !! j = Some c -> c !! 0%nat = Some e -> bytes_le e.1 key -> opens_at_or_below key i.
Proof.
  intros Hij Hc He Hle c' e' Hc' He'; destruct (decide (i = j)) as [->|Hne].
  - rewrite Hc in Hc'; injection Hc' as <-; rewrite He in He'; by injection He' as <-.
  - transitivity e.1; [| done]; apply entry_le_key, (chunk_before i j c' c); auto; [lia | |]; by eapply list_elem_of_lookup_2.
Qed.

Lemma landing_loop_spec key : forall fuel low high : nat, (low <= high <= length chunks)%nat -> (high - low < fuel)%nat ->
  (forall i, (i < low)%nat -> opens_at_or_below key i) -> (forall i, (high <= i)%nat -> opens_above key i) ->
  exists n, landing_loop load fuel key (Z.of_nat low) (Z.of_nat high) = Ok (Some (checked_pred (Z.of_nat n)))
    /\ (n <= length chunks)%nat /\ (forall i, (i < n)%nat -> opens_at_or_below key i) /\ (forall i, (n <= i)%nat -> opens_above key i).
Proof.
  induction fuel as [|fuel IH]; intros low high Hlh Hf Hlow Hhigh; [lia|]; cbn [landing_loop]; destruct (_ <? _) eqn:E; b2p.
  2:{ exists low; split_and!; [done | lia | done |]; intros i Hi; apply Hhigh; lia. }
  assert (0 <= (Z.of_nat high - Z.of_nat low) / 2 < Z.of_nat high - Z.of_nat low) as Hd
    by (split; [apply Z.div_pos; lia | apply Z.div_lt; lia]).
  set (mid := Z.of_nat low + _) in *; assert (exists m : nat, mid = Z.of_nat m) as [m Hm]
    by (exists (Z.to_nat mid); lia); rewrite Hm in *.
  destruct (lookup_lt_is_Some_2 chunks m) as [c Hc]; [lia|]; destruct (loads m c Hc) as (b & -> & Hb); res_simpl.
  destruct (chunk_head m c Hc) as (e & He & _); unfold RowBlock_first_key; change 0 with (Z.of_nat 0) at 1.
  rewrite (block_key_at b c 0 Hb), He; cbn [fmap option_fmap option_map].
  replace (Z.of_nat m + 1) with (Z.of_nat (S m)) by lia; destruct (bytes_leb e.1 key) eqn:El.
  - apply bytes_leb_le in El; apply IH; [lia | lia | | done]; intros i Hi; apply (opens_mono key i m c e); auto; lia.
  - apply IH; [lia | lia | done |]; intros i Hi c' e' Hc' He'; apply bytes_leb_gt in El; apply bytes_nle_lt; intros Hle.
    apply (opens_mono key m i c' e' ltac:(lia) Hc' He') in Hle; specialize (Hle c e Hc He).
    apply (bytes_lt_irrefl key); by eapply bytes_lt_le_trans.
Qed.

Lemma landing_spec key : exists n, landing load key (len chunks) = Ok (checked_pred (Z.of_nat n))
  /\ (n <= length chunks)%nat /\ (forall i, (i < n)%nat -> opens_at_or_below key i) /\ (forall i, (n <= i)%nat -> opens_above key i).
Proof.
  destruct (landing_loop_spec key (S (length chunks)) 0 (length chunks)) as (n & E & Hn); [lia | lia | lia | |].
  { intros i Hi c e Hc; apply lookup_lt_Some in Hc; lia. }
  exists n; split; [| done]; unfold landing; rewrite to_nat_len; change (Z.of_nat 0) with 0 in E; fold (len chunks) in E; by rewrite E.
Qed.

Lemma above_all key i c e : opens_above key i -> chunks !! i = Some c -> e ∈ c -> bytes_lt key e.1.
Proof.
  intros Ho Hc He; destruct (chunk_head i c Hc) as (h & Hh & Hhc); eapply bytes_lt_le_trans; [by apply (Ho c h)|].
  apply list_elem_of_lookup in He as [j Hj]; pose proof (sealed_keys_sorted _ (chunk_sorted i c Hc)) as Hs.
  apply (keys_sorted_le c 0 j); auto; lia.
Qed.

Lemma bound_key_absent c key u : sealed_order c -> bound_at true key c u ->
  match u with O => True | S v => exists e, c !! v = Some e /\ e.1 <> key end ->
  forall e, e ∈ c -> e.1 <> key.
Proof.
  intros Hs (Hu & Hlow & Hhigh) Hlast e (i & Hi)%list_elem_of_lookup E.
  destruct (decide (u <= i)%nat) as [Hge|Hlt].
  { specialize (Hhigh i e Hge Hi); cbn in Hhigh; apply bytes_leb_gt in Hhigh; rewrite E in Hhigh; by apply bytes_lt_irrefl in Hhigh. }
  destruct u as [|v]; [lia|]; destruct Hlast as (l & Hl & Hne); apply Hne, (anti_symm bytes_le).
  - specialize (Hlow v l ltac:(lia) Hl); cbn in Hlow; by apply bytes_leb_le in Hlow.
  - rewrite <- E; apply (keys_sorted_le c i v); [by apply sealed_keys_sorted | lia | done | done].
Qed.

(** The newest of a block's rows of a key, and none when it has none. *)
Lemma block_find_cases b c key : block_rep b c -> sealed_order c ->
  (exists row, RowBlock_find b key = Some (Ok row) /\ (key, row) ∈ c
     /\ forall row', (key, row') ∈ c -> fr_lsn row' <= fr_lsn row)
  \/ (RowBlock_find b key = None /\ forall e, e ∈ c -> e.1 <> key).
Proof.
  intros Hb Hs; destruct (block_upper_bound b c key Hb (sealed_keys_sorted _ Hs)) as (u & Eu & Hu).
  unfold RowBlock_find; rewrite Eu; unfold checked_pred; destruct u as [|v]; cbn.
  { right; split; [done|]; by apply (bound_key_absent c key 0). }
  replace (Z.of_nat (S v) <? 1) with false by (symmetry; apply Z.ltb_ge; lia); res_simpl.
  replace (Z.of_nat (S v) - 1) with (Z.of_nat v) by lia; pose proof Hu as (Hul & Hlow & Hhigh).
  destruct (lookup_lt_is_Some_2 c v) as [e He]; [lia|]; rewrite (block_key_at b c v Hb), He; res_simpl.
  destruct (bytes_eqb e.1 key) eqn:Ek; cbn [negb].
  - apply bytes_eqb_eq in Ek; subst key; left; exists e.2; rewrite (block_row_at b c v e Hb He); split; [done|].
    split; [destruct e; by eapply list_elem_of_lookup_2|]; intros row' [i Hi]%list_elem_of_lookup.
    destruct (Nat.lt_trichotomy i v) as [Hiv|[->|Hiv]].
    + destruct (StronglySorted_lookup _ c i v _ _ Hs Hiv Hi He) as [?%bytes_lt_irrefl|[_ ?]]; done.
    + rewrite He in Hi; injection Hi as ->; cbn; lia.
    + specialize (Hhigh i _ ltac:(lia) Hi); cbn in Hhigh; apply bytes_leb_gt in Hhigh; by apply bytes_lt_irrefl in Hhigh.
  - right; split; [done|]; apply (bound_key_absent c key (S v)); [done | done|]; exists e; split; [done|].
    intros E; by rewrite (proj2 (bytes_eqb_eq e.1 key) E) in Ek.
Qed.

(** A key none of whose rows are in the block it lands on has no rows. *)
Lemma landing_absent key n c : chunks !! n = Some c -> opens_at_or_below key n ->
  (forall i, (S n <= i)%nat -> opens_above key i) -> (forall e, e ∈ c -> e.1 <> key) ->
  forall e, e ∈ concat chunks -> e.1 <> key.
Proof.
  intros Hc Hlow Hhigh Hno e (i & d & Hd & He)%elem_of_chunks E; destruct (Nat.lt_trichotomy i n) as [Hin|[->|Hin]].
  - destruct (chunk_head n c Hc) as (h & Hh & Hhc); apply (Hno h Hhc), (anti_symm bytes_le); [by apply (Hlow c)|].
    rewrite <- E; apply entry_le_key, (chunk_before i n d c); done.
  - rewrite Hc in Hd; injection Hd as <-; by apply (Hno e).
  - pose proof (above_all key i d e (Hhigh i ltac:(lia)) Hd He) as Hlt; rewrite E in Hlt; by apply bytes_lt_irrefl in Hlt.
Qed.

Definition newest_of (key : bytes) (found : option FooterRow) (es : list (bytes * FooterRow)) : Prop :=
  match found with
  | Some row => (key, row) ∈ es /\ forall row', (key, row') ∈ es -> fr_lsn row' <= fr_lsn row
  | None => forall row, (key, row) ∉ es
  end.

Lemma find_in_span_spec span key : PartitionSpan_blocks span = len chunks ->
  exists found, find_in_span load span key = Ok found /\ newest_of key found (concat chunks).
Proof.
  intros Hn; unfold find_in_span; rewrite Hn; destruct (Z.eqb_spec (len chunks) 0) as [E|Hne].
  { apply len_0_inv in E; rewrite E; exists None; split; [done|]; intros row Hr; by apply not_elem_of_nil in Hr. }
  destruct (landing_spec key) as (n & -> & Hnl & Hlow & Hhigh); res_simpl; unfold checked_pred; destruct n as [|n].
  { exists None; split; [done|]; intros row (i & c & Hc & Hr)%elem_of_chunks.
    apply (above_all key i c _ (Hhigh i ltac:(lia)) Hc) in Hr; by apply bytes_lt_irrefl in Hr. }
  replace (Z.of_nat (S n) <? 1) with false by (symmetry; apply Z.ltb_ge; lia).
  replace (Z.of_nat (S n) - 1) with (Z.of_nat n) by lia.
  destruct (lookup_lt_is_Some_2 chunks n) as [c Hc]; [lia|]; destruct (loads n c Hc) as (b & -> & Hb); res_simpl.
  destruct (block_find_cases b c key Hb (chunk_sorted n c Hc)) as [(row & -> & Hin & Hmax)|[-> Hno]]; res_simpl.
  - exists (Some row); split; [done|]; split; [apply elem_of_chunks; eauto|]; intros row' (i & d & Hd & Hr)%elem_of_chunks.
    destruct (Nat.lt_trichotomy i n) as [Hi|[->|Hi]].
    + destruct (chunk_before i n d c _ _ Hd Hc Hi Hr Hin) as [?%bytes_lt_irrefl|[_ ?]]; done.
    + rewrite Hc in Hd; injection Hd as <-; by apply Hmax.
    + apply (above_all key i d _ (Hhigh i ltac:(lia)) Hd) in Hr; by apply bytes_lt_irrefl in Hr.
  - exists None; split; [done|]; intros row Hr.
    by apply (landing_absent key n c Hc (Hlow n ltac:(lia)) ltac:(intros; apply Hhigh; lia) Hno _ Hr).
Qed.

Lemma lookup_in_span_cases span filter key : PartitionSpan_blocks span = len chunks ->
  (exists out, rules_out filter key = Ok out) -> (forall row, (key, row) ∈ concat chunks -> rules_out filter key = Ok false) ->
  exists found, lookup_in_span load span filter key = Ok found
    /\ newest_of key (match found with FoundRow row => Some row | Missing | RuledOut => None end) (concat chunks).
Proof.
  intros Hn [out Hret] Hin; unfold lookup_in_span; rewrite Hret; res_simpl; destruct out.
  - exists RuledOut; split; [done|]; intros row Hr; apply Hin in Hr; congruence.
  - destruct (find_in_span_spec span key Hn) as ([row|] & -> & Hf); res_simpl; eexists; split; done.
Qed.

(** A column cut into blocks answers a lookup exactly, filter or none, whatever block it loads
    first: the key's newest row, and a miss only when it has none. *)
Lemma lookup_in_span_exact span filter key : PartitionSpan_blocks span = len chunks ->
  (exists out, rules_out filter key = Ok out) -> (forall row, (key, row) ∈ concat chunks -> rules_out filter key = Ok false) ->
  match lookup_in_span load span filter key with
  | Ok RuledOut | Ok Missing => newest_of key None (concat chunks)
  | Ok (FoundRow row) => newest_of key (Some row) (concat chunks)
  | _ => False
  end.
Proof.
  intros Hn Hret Hin; by destruct (lookup_in_span_cases span filter key Hn Hret Hin) as ([| |row] & -> & Hf).
Qed.

Lemma walk_block_spec b c key offset : block_rep b c -> forall r, (r <= length c)%nat ->
  exists w, walk_block r b key offset = Ok w
    /\ match w with
       | WalkFound row => (key, row) ∈ c /\ fr_offset row = offset
       | WalkOver => exists v e, (v < r)%nat /\ c !! v = Some e /\ e.1 <> key
           /\ forall i row, (v < i < r)%nat -> c !! i = Some (key, row) -> fr_offset row <> offset
       | WalkBack => forall i row, (i < r)%nat -> c !! i = Some (key, row) -> fr_offset row <> offset
       end.
Proof.
  intros Hb; induction r as [|r IH]; intros Hr; cbn [walk_block].
  { exists WalkBack; split; [done | lia]. }
  destruct (lookup_lt_is_Some_2 c r) as [e He]; [lia|]; rewrite (block_key_at b c r Hb), He; cbn [fmap option_fmap option_map].
  case_bool_decide as Ek; cbn [negb].
  2:{ exists WalkOver; split; [done|]; exists r, e; split_and!; [lia | done | congruence | lia]. }
  injection Ek as Ek; rewrite (block_row_at b c r e Hb He); res_simpl; destruct (Z.eqb_spec (fr_offset e.2) offset) as [Eo|Eo].
  { exists (WalkFound e.2); split; [done|]; split; [| done]; rewrite <- Ek; destruct e; by eapply list_elem_of_lookup_2. }
  destruct (IH ltac:(lia)) as (w & -> & Hw); exists w; split; [done|].
  assert (forall row, c !! r = Some (key, row) -> fr_offset row <> offset) as Hr' by (intros row Hrow; rewrite He in Hrow; by injection Hrow as ->).
  destruct w as [row| |]; [done | |].
  - destruct Hw as (v & x & Hv & Hx & Hxk & Hi); exists v, x; split_and!; [lia | done | done|].
    intros i row Hir Hrow; destruct (decide (i = r)) as [->|]; [by apply Hr' | apply (Hi i); [lia | done]].
  - intros i row Hir Hrow; destruct (decide (i = r)) as [->|]; [by apply Hr' | apply (Hw i); [lia | done]].
Qed.

Definition offset_of (key : bytes) (offset : Z) (found : option FooterRow) (es : list (bytes * FooterRow)) : Prop :=
  match found with
  | Some row => (key, row) ∈ es /\ fr_offset row = offset
  | None => forall row, (key, row) ∈ es -> fr_offset row <> offset
  end.

(** A block the walk stops inside of ends the search: what lies before it is all below the key. *)
Lemma walk_over_ends key n c u v e : chunks !! n = Some c -> bound_at true key c u -> (v < u)%nat ->
  c !! v = Some e -> e.1 <> key -> forall i d row, (i <= n)%nat -> chunks !! i = Some d -> (key, row) ∈ d ->
  exists j, i = n /\ (v < j < u)%nat /\ c !! j = Some (key, row).
Proof.
  intros Hc (Hul & Hlow & Hhigh) Hv He Hne i d row Hin Hd Hr.
  assert (bytes_lt e.1 key) as Hlt.
  { specialize (Hlow v e Hv He); cbn in Hlow; apply bytes_leb_le, bytes_le_lteq in Hlow as [?|?]; done. }
  assert (forall x, x ∈ d -> x.1 = key -> (i < n)%nat -> False) as Hbefore.
  { intros x Hx Ex Hi; assert (bytes_le key e.1) as Hle
      by (rewrite <- Ex; apply entry_le_key, (chunk_before i n d c); auto; by eapply list_elem_of_lookup_2).
    apply (bytes_lt_irrefl key); by eapply bytes_le_lt_trans. }
  destruct (decide (i = n)) as [->|]; [| exfalso; eapply (Hbefore _ Hr); [done | lia]].
  rewrite Hc in Hd; injection Hd as <-; apply list_elem_of_lookup in Hr as [j Hj]; exists j; split; [done|]; split; [| done]; split.
  - apply not_ge; intros Hge; assert (bytes_le key e.1) as Hle.
    { change key with (key, row).1; apply (keys_sorted_le c j v); [by eapply sealed_keys_sorted, chunk_sorted | lia | done | done]. }
    apply (bytes_lt_irrefl key); by eapply bytes_le_lt_trans.
  - apply not_ge; intros Hge; specialize (Hhigh j _ ltac:(lia) Hj); cbn in Hhigh; apply bytes_leb_gt in Hhigh.
    by apply bytes_lt_irrefl in Hhigh.
Qed.

Lemma walk_blocks_spec key offset : forall n c, chunks !! n = Some c ->
  exists found, walk_blocks load n key offset = Ok found
    /\ match found with
       | Some row => (key, row) ∈ concat chunks /\ fr_offset row = offset
       | None => forall i d row, (i <= n)%nat -> chunks !! i = Some d -> (key, row) ∈ d -> fr_offset row <> offset
       end.
Proof.
  induction n as [|n IH]; intros c Hc; cbn [walk_blocks]; destruct (loads _ c Hc) as (b & -> & Hb); res_simpl;
    (destruct (block_upper_bound b c key Hb (sealed_keys_sorted _ (chunk_sorted _ c Hc))) as (u & -> & Hu));
    rewrite Nat2Z.id; pose proof Hu as (Hul & _ & Hhigh);
    destruct (walk_block_spec b c key offset Hb u Hul) as (w & -> & Hw); res_simpl; destruct w as [row| |].
  all: try (eexists; split; [done|]; destruct Hw; split; [apply elem_of_chunks; eauto | done]).
  all: try (destruct Hw as (v & e & Hv & He & Hne & Hi); exists None; split; [done|]; intros i d row Hin Hd Hr;
    destruct (walk_over_ends _ _ _ _ _ _ Hc Hu Hv He Hne i d row Hin Hd Hr) as (j & -> & Hj & Hrow); by apply (Hi j)).
  all: assert (forall row, (key, row) ∈ c -> fr_offset row <> offset) as Hhere by
    (intros row [j Hj]%list_elem_of_lookup; destruct (decide (j < u)%nat) as [Hju|Hju]; [by apply (Hw j)|];
     specialize (Hhigh j _ ltac:(lia) Hj); cbn in Hhigh; apply bytes_leb_gt in Hhigh; by apply bytes_lt_irrefl in Hhigh).
  - exists None; split; [done|]; intros i d row Hi Hd Hr; assert (i = 0%nat) as -> by lia.
    rewrite Hc in Hd; injection Hd as <-; by apply Hhere.
  - destruct (lookup_lt_is_Some_2 chunks n) as [c' Hc']; [apply lookup_lt_Some in Hc; lia|].
    destruct (IH c' Hc') as (found & -> & Hf); exists found; split; [done|]; destruct found as [row|]; [done|].
    intros i d row Hi Hd Hr; destruct (decide (i = S n)) as [->|]; [| apply (Hf i d); [lia | done | done]].
    rewrite Hc in Hd; injection Hd as <-; by apply Hhere.
Qed.

(** the search for the row of a key at one offset walks back over every version of the key,
    through as many blocks as they fill, and finds the row exactly when one is there. *)
Lemma find_offset_exact span filter key offset : PartitionSpan_blocks span = len chunks ->
  (exists out, rules_out filter key = Ok out) -> (forall row, (key, row) ∈ concat chunks -> rules_out filter key = Ok false) ->
  exists found, find_offset_in_span load span filter key offset = Ok found /\ offset_of key offset found (concat chunks).
Proof.
  intros Hn [out Hret] Hin; unfold find_offset_in_span; rewrite Hret, Hn; res_simpl; destruct out.
  { exists None; split; [done|]; intros row Hr; apply Hin in Hr; congruence. }
  destruct (landing_spec key) as (n & -> & Hnl & Hlow & Hhigh); res_simpl; unfold checked_pred; destruct n as [|n].
  { exists None; split; [done|]; intros row (i & c & Hc & Hr)%elem_of_chunks.
    apply (above_all key i c _ (Hhigh i ltac:(lia)) Hc) in Hr; by apply bytes_lt_irrefl in Hr. }
  replace (Z.of_nat (S n) <? 1) with false by (symmetry; apply Z.ltb_ge; lia).
  replace (Z.to_nat (Z.of_nat (S n) - 1)) with n by lia.
  destruct (lookup_lt_is_Some_2 chunks n) as [c Hc]; [lia|]; destruct (walk_blocks_spec key offset n c Hc) as (found & -> & Hf).
  exists found; split; [done|]; destruct found as [row|]; [done|]; intros row (i & d & Hd & Hr)%elem_of_chunks.
  destruct (decide (i <= n)%nat) as [Hi|Hi]; [by apply (Hf i d)|].
  apply (above_all key i d _ (Hhigh i ltac:(lia)) Hd) in Hr; by apply bytes_lt_irrefl in Hr.
Qed.

End chunks.

(** ** Witnesses *)

Definition demo_chunks : list (list (bytes * FooterRow)) := [take 16 demo_erows; drop 16 demo_erows].

(** The two blocks of eighteen rows, held whole. *)
Definition demo_load (at_ : Z) : res (option RowBlock) :=
  c ← must (get demo_chunks at_);
  Ok (Some (mkRowBlock (flat_of c) 19 2 [] (at_ * 16))).

Definition demo_span : PartitionSpan := mkPartitionSpan 3 2 true 18 0 300.

Lemma demo_loads i c : demo_chunks !! i = Some c -> exists b, demo_load (Z.of_nat i) = Ok (Some b) /\ block_rep b c.
Proof.
  intros Hc; unfold demo_load; rewrite get_lookup, Hc; res_simpl; eexists; split; [done|].
  assert (Forall (fun e => len e.1 = 2 /\ footer_row_wf e.2) c /\ len (flat_of c) < U32) as [Hw Hl].
  { assert (Forall (fun e => len e.1 = 2 /\ footer_row_wf e.2) demo_erows) as Hall.
    { apply Forall_forall; intros e He; split; [by apply list_elem_of_fmap in He as (j & -> & _)|].
      pose proof demo_erows_ok as Hok; rewrite Forall_forall in Hok; by apply Hok. }
    destruct i as [|[|i]]; [| | done]; injection Hc as <-; split; try (vm_compute; reflexivity);
      [exact (Forall_take _ 16 _ Hall) | exact (Forall_drop _ 16 _ Hall)]. }
  split; [| done]; constructor; [done | done | cbn; lia | intros _ | | done]; eapply Forall_impl; try exact Hw; by intros e [].
Qed.

Lemma demo_ordered : sealed_order (concat demo_chunks).
Proof.
  change (concat demo_chunks) with demo_erows; unfold sealed_order; apply Sorted_StronglySorted; [apply _|].
  cbn [demo_erows map seq].
  repeat (apply Sorted_cons; [| first [apply HdRel_nil | apply HdRel_cons; left; vm_compute; reflexivity]]); apply Sorted_nil.
Qed.

Lemma demo_filled : Forall (fun c => c <> []) demo_chunks.
Proof. repeat constructor; discriminate. Qed.

Lemma lookup_in_span_exact_witness :
  match lookup_in_span demo_load demo_span None [Byte.x61; Byte.x10] with
  | Ok RuledOut | Ok Missing => newest_of [Byte.x61; Byte.x10] None (concat demo_chunks)
  | Ok (FoundRow row) => newest_of [Byte.x61; Byte.x10] (Some row) (concat demo_chunks)
  | _ => False
  end /\ lookup_in_span demo_load demo_span None [Byte.x61; Byte.x10] = Ok (FoundRow (mkFooterRow 116 1024 7 0)).
Proof.
  split; [| vm_compute; reflexivity].
  apply (lookup_in_span_exact demo_load demo_chunks demo_loads demo_filled demo_ordered demo_span None [Byte.x61; Byte.x10]);
    [reflexivity | by exists false | reflexivity].
Defined.

Lemma find_offset_exact_witness :
  exists found, find_offset_in_span demo_load demo_span None [Byte.x61; Byte.x03] 192 = Ok found
    /\ offset_of [Byte.x61; Byte.x03] 192 found (concat demo_chunks).
Proof.
  apply (find_offset_exact demo_load demo_chunks demo_loads demo_filled demo_ordered demo_span None [Byte.x61; Byte.x03] 192);
    [reflexivity | by exists false | reflexivity].
Defined.
