(* ===== verification/BlockRead.v ===== *)
(** * Lookups that read blocks of a sealed file ([format/block.rs])

    A footer packed at the end of a segment file answers the same lookups read a block at a time as
    it does parsed whole. *)
From S2P Require Import Prelude Error Bytes Checksum Lsn Column Record Filter FooterRow Varint Prefix PackedCursor Partition Footer FooterSeal FooterRead Block.

(** What the driver promises of a file: a range inside it reads as the bytes there. *)
Class FileReads (file : bytes) (pread : Z -> Z -> res bytes) : Prop :=
  reads_range offset n bs : slice file offset (offset + n) = Some bs -> pread offset n = Ok bs.

(** A driver over bytes in memory, which answers what it can fill. *)
Definition memory_pread (file : bytes) (offset n : Z) : res bytes :=
  Ok (take (Z.to_nat n) (drop (Z.to_nat offset) file)).

#[export] Instance memory_reads file : FileReads file (memory_pread file).
Proof.
  intros offset n bs H; unfold memory_pread; unfold slice in H; destruct (_ && _); [| done]; injection H as <-.
  do 2 f_equal; lia.
Qed.

(** ** Rows cut into restart blocks *)

Definition restart_chunk {A} (l : list A) (i : nat) : list A := take 16 (drop (16 * i) l).
Definition restart_chunks {A} (l : list A) : list (list A) := map (restart_chunk l) (seq 0 (block_count (length l))).

Lemma restart_chunks_lookup {A} (l : list A) i c : restart_chunks l !! i = Some c <->
  (i < block_count (length l))%nat /\ c = restart_chunk l i.
Proof.
  unfold restart_chunks; rewrite list_lookup_fmap; split.
  - intros (j & [Hj Hl]%lookup_seq & ->)%fmap_Some; split; [lia|]; by rewrite Hj.
  - intros [Hi ->]; rewrite fmap_Some; exists i; split; [by apply lookup_seq_lt | done].
Qed.

Lemma block_count_spec n : (16 * block_count n < n + 16)%nat /\ (n <= 16 * block_count n)%nat.
Proof.
  unfold block_count; pose proof (Nat.div_mod_eq (n + 15) 16); pose proof (Nat.mod_upper_bound (n + 15) 16 ltac:(lia)); lia.
Qed.

Lemma concat_restart_chunks {A} (l : list A) : concat (restart_chunks l) = l.
Proof.
  unfold restart_chunks; assert (forall n, concat (map (restart_chunk l) (seq 0 n)) = take (16 * n) l) as ->.
  { induction n as [|n IH]; [done|]; rewrite seq_S, map_app, concat_app, IH; cbn [map concat Nat.add]; rewrite app_nil_r.
    unfold restart_chunk; replace (16 * S n)%nat with (16 * n + 16)%nat by lia; by rewrite take_take_drop. }
  apply take_ge, block_count_spec.
Qed.

Lemma restart_chunks_filled {A} (l : list A) : Forall (fun c => c <> []) (restart_chunks l).
Proof.
  apply Forall_lookup; intros i c [Hi ->]%restart_chunks_lookup E; apply (f_equal length) in E; unfold restart_chunk in E.
  rewrite length_take, length_drop in E; destruct (block_count_spec (length l)); cbn [length] in E; lia.
Qed.

Lemma chunk_split {A} (l : list A) i : l = take (16 * i) l ++ restart_chunk l i ++ drop (16 * i + 16) l.
Proof. unfold restart_chunk; by rewrite <- drop_drop, take_drop, take_drop. Qed.

(** ** Restart tables *)

Lemma restart_offset_strict rows (i j : nat) : (i < j)%nat -> (16 * i < length rows)%nat ->
  restart_offset TailEntry rows i < restart_offset TailEntry rows j.
Proof.
  intros Hij Hi; unfold restart_offset; rewrite <- (take_drop (16 * i) (take (16 * j) rows)), packed_app, len_app.
  rewrite take_take, Nat.min_l by lia; assert (drop (16 * i) (take (16 * j) rows) <> []) as Hne.
  { intros E; apply (f_equal length) in E; rewrite length_drop, length_take in E; cbn [length] in E; lia. }
  destruct (drop _ _) as [|row r] eqn:E; [done|]; cbn [packed_after]; pose proof (packed_row_nonempty TailEntry (take (16 * i) rows) row).
  len_lia.
Qed.

Lemma restart_offset_last rows j : (length rows <= 16 * j)%nat -> restart_offset TailEntry rows j = len (packed TailEntry rows).
Proof. intros Hj; unfold restart_offset; by rewrite take_ge. Qed.

Lemma read_restart_back (rows : list prow) rest (at_ : nat) :
  (at_ < block_count (length rows))%nat -> len (packed TailEntry rows) < U32 ->
  read_restart (u32_table (restart_offsets TailEntry rows) ++ rest) (len (packed TailEntry rows))
    (map (restart_offset TailEntry rows) (seq 0 at_)) (Z.of_nat at_)
  = Ok (map (restart_offset TailEntry rows) (seq 0 (S at_))).
Proof.
  intros Hat Hl; unfold read_restart; pose proof (restart_offsets_lookup TailEntry rows at_ Hat) as Hlook.
  pose proof (slice_u32_table [] _ rest at_ _ Hlook) as Hs; cbn [app] in Hs; rewrite len_nil in Hs.
  pose proof (block_count_spec (length rows)) as Hbc.
  assert (restart_offset TailEntry rows at_ < len (packed TailEntry rows)) as Hlt.
  { rewrite <- (restart_offset_last rows (block_count (length rows))) by lia; apply restart_offset_strict; lia. }
  replace (Z.of_nat at_ * 4) with (0 + 4 * Z.of_nat at_) by lia; rewrite Hs; res_simpl.
  unfold read_u32_le; rewrite le_val_u32 by (unfold is_u32, restart_offset in *; len_lia).
  destruct (restart_offset TailEntry rows at_ >=? _) eqn:E1; [b2p; lia|]; cbn [orb].
  rewrite (seq_S at_), map_app; cbn [map Nat.add].
  assert (match last (map (restart_offset TailEntry rows) (seq 0 at_)) with
    | Some l => restart_offset TailEntry rows at_ <=? l | None => false end = false) as ->; [| done].
  destruct at_ as [|at_]; [done|]; rewrite (seq_S at_), map_app; cbn [map Nat.add]; rewrite last_snoc; apply Z.leb_gt.
  apply restart_offset_strict; lia.
Qed.

(** ** Blocks of a sealed partition *)

Section file.
Variable file : bytes.
Variable pread : Z -> Z -> res bytes.
Context `{FileReads file pread}.

(** A span that says where a sealed partition's rows lie in the file. *)
Record span_at (s : PartitionSpan) (es : list erow) : Prop := {
  sa_bytes : slice file (ps_at s) (ps_at s + ps_encoded s) = Some (enc es);
  sa_packed : ps_is_packed s = true;
  sa_rows : ps_rows s = len es;
  sa_ok : Forall (row_ok TailEntry) (map prow_of es);
  sa_fits : len (enc es) < U32;
  sa_flat : len (flat_of es) < U32;
  sa_wf : Forall (fun e => footer_row_wf e.2) es;
  sa_some : es <> [];
}.

Definition table_of (es : list erow) : RestartTable :=
  mkRestartTable (restart_offsets TailEntry (map prow_of es)) (len (packed TailEntry (map prow_of es))).

Lemma pread_within s es a n bs : span_at s es -> slice (enc es) a (a + n) = Some bs -> pread (ps_at s + a) n = Ok bs.
Proof.
  intros Hs Hb; apply reads_range; pose proof (sa_bytes _ _ Hs) as Hf; pose proof (slice_bounds _ _ _ _ Hf) as (H1 & H2 & _).
  replace (ps_at s + a + n) with (ps_at s + (a + n)) by lia; rewrite (slice_nested file _ _ _ a (a + n) Hf); [done | | ]; apply slice_bounds in Hb; pose proof (len_nonneg bs); lia.
Qed.

Lemma len_prows (es : list erow) : len (map prow_of es) = len es.
Proof. unfold len; by rewrite length_map. Qed.

Lemma read_restarts_back s es : span_at s es -> read_restarts pread s = Ok (Some (table_of es)).
Proof.
  intros Hs; unfold read_restarts; rewrite (sa_packed _ _ Hs), (sa_rows _ _ Hs); cbn [negb orb].
  destruct (Z.eqb_spec (len es) 0) as [E|_]; [by apply len_0_inv in E; pose proof (sa_some _ _ Hs)|].
  pose proof (slice_bounds _ _ _ _ (sa_bytes _ _ Hs)) as (_ & He & _); pose proof (block_bytes_parts es) as Hl.
  set (rows := map prow_of es) in *; set (count := div_ceil (len es) RESTART_INTERVAL) in *; change TRAILER_LEN with 8.
  assert (0 <= count) as Hc by (apply Z.div_pos; unfold RESTART_INTERVAL; len_lia).
  pose proof (len_nonneg (packed TailEntry rows)) as Hp; pose proof (sa_fits _ _ Hs) as Hfits.
  destruct (_ <? _) eqn:E1; [b2p; lia|]; clear E1.
  assert (enc es = packed TailEntry rows ++ u32_table (restart_offsets TailEntry rows) ++ u32_le count ++ u32_le (len es)) as Ee.
  { unfold enc, block_bytes, pack_state; cbn [pr_packed pr_restarts pr_rows]; fold rows; rewrite len_restart_offsets.
    subst rows count; by rewrite !len_prows. }
  assert (count = len (restart_offsets TailEntry rows)) as Ec by (rewrite len_restart_offsets; subst rows; by rewrite len_prows).
  pose proof (len_u32_table (restart_offsets TailEntry rows)) as Ht.
  set (tail_ := u32_table _ ++ _) in Ee; assert (len tail_ = count * 4 + 8) as Htl by (subst tail_; len_simpl; lia).
  replace (ps_at s + ps_encoded s - (count * 4 + 8)) with (ps_at s + len (packed TailEntry rows)) by lia.
  assert (pread (ps_at s + len (packed TailEntry rows)) (count * 4 + 8) = Ok tail_) as ->.
  { apply (pread_within s es); [done|]; rewrite Ee, slice_skip by lia; apply slice_whole; lia. }
  res_simpl; destruct (_ <? _) eqn:E1; [b2p; lia|]; clear E1.
  assert (slice tail_ (count * 4) (count * 4 + 4) = Some (u32_le count)) as ->
    by (apply slice_mid; [lia | len_simpl; lia]).
  assert (slice tail_ (count * 4 + 4) (count * 4 + 8) = Some (u32_le (len es))) as ->.
  { subst tail_; rewrite (app_assoc (u32_table _)), slice_skip by (len_simpl; lia); apply slice_whole; len_simpl; lia. }
  res_simpl; unfold read_u32_le; pose proof (packed_ge rows) as Hge; subst rows; rewrite len_prows in Hge; set (rows := map prow_of es) in *.
  rewrite !le_val_u32 by (unfold is_u32; pose proof (len_nonneg es); lia); rewrite !Z.eqb_refl; cbn [negb orb].
  replace (ps_encoded s - (count * 4 + 8)) with (len (packed TailEntry rows)) by lia.
  rewrite as_u32_small by (unfold is_u32; lia).
  assert (foldm (read_restart tail_ (len (packed TailEntry rows))) (seqZ 0 count) [] = Ok (restart_offsets TailEntry rows)) as ->.
  { replace (seqZ 0 count) with (map Z.of_nat (seq 0 (block_count (length rows))))
      by (rewrite Ec; unfold len; rewrite length_restart_offsets, seqZ_seq; done).
    assert (forall n, (n <= block_count (length rows))%nat ->
      foldm (read_restart tail_ (len (packed TailEntry rows))) (map Z.of_nat (seq 0 n)) []
      = Ok (map (restart_offset TailEntry rows) (seq 0 n))) as Hloop; [| by apply Hloop].
    induction n as [|n IH]; intros Hn; [done|]; rewrite seq_S at 1; rewrite map_app, foldm_app, IH by lia; res_simpl.
    cbn [map foldm Nat.add]; subst tail_; by rewrite read_restart_back by lia. }
  res_simpl; rewrite bool_decide_eq_true_2; [done|].
  assert (head (restart_offsets TailEntry rows) = restart_offsets TailEntry rows !! 0%nat) as -> by (by destruct (restart_offsets _ _)).
  rewrite restart_offsets_lookup; [done|]; pose proof (block_count_spec (length rows)) as [_ Hbc].
  assert (length rows <> 0%nat); [| lia]; subst rows; rewrite length_map; pose proof (sa_some _ _ Hs); by destruct es.
Qed.

Lemma cut_back es i : (i < block_count (length es))%nat ->
  RestartTable_cut (table_of es) (Z.of_nat i)
  = Some (restart_offset TailEntry (map prow_of es) i, restart_offset TailEntry (map prow_of es) (S i)).
Proof.
  intros Hi; unfold RestartTable_cut, table_of; cbn [rt_offsets rt_rows_end]; set (rows := map prow_of es).
  assert (length rows = length es) as El by apply length_map; rewrite <- El in Hi; pose proof (block_count_spec (length rows)) as Hbc.
  rewrite get_lookup, restart_offsets_lookup by done; res_simpl; replace (Z.of_nat i + 1) with (Z.of_nat (S i)) by lia; rewrite get_lookup.
  assert (default (len (packed TailEntry rows)) (restart_offsets TailEntry rows !! S i) = restart_offset TailEntry rows (S i)) as ->.
  { destruct (decide (S i < block_count (length rows))%nat) as [Hlt|Hge]; [by rewrite restart_offsets_lookup|].
    rewrite lookup_ge_None_2 by (rewrite length_restart_offsets; lia); cbn; symmetry; apply restart_offset_last; lia. }
  pose proof (restart_offset_strict rows i (S i) ltac:(lia) ltac:(lia)); destruct (_ >? _) eqn:E; [done | b2p; lia].
Qed.

Lemma flat_starts_cons rows : exists x l, flat_starts rows = x :: l.
Proof. unfold flat_starts; destruct (length rows); cbn; eauto. Qed.

Lemma chunk_rep es i first : Forall (fun e => footer_row_wf e.2) es -> len (flat_of es) < U32 ->
  block_rep (mkRowBlock (flat_of (restart_chunk es i)) 0 0 (flat_starts (map prow_of (restart_chunk es i))) first) (restart_chunk es i).
Proof.
  intros Hw Hf; destruct (flat_starts_cons (map prow_of (restart_chunk es i))) as (x & l & E).
  rewrite (chunk_split es i) in Hw, Hf; apply Forall_app in Hw as [_ [Hw _]%Forall_app].
  rewrite !map_app, !flat_app, !len_app in Hf; split; [| by rewrite E]; constructor; unfold FooterPartition_is_varying, block_part;
    cbn [fp_packed fp_starts fp_key_width rb_starts rb_packed]; rewrite ?E; try done.
  clear -Hf; len_lia.
Qed.

Lemma block_read_back s es i : span_at s es -> (i < block_count (length es))%nat ->
  exists b, RowBlock_read pread s (Z.of_nat i) (Some (table_of es)) = Ok b /\ block_rep b (restart_chunk es i).
Proof.
  intros Hs Hi; unfold RowBlock_read, PartitionSpan_block, PartitionSpan_block_rows, block_rows_of; rewrite (sa_packed _ _ Hs), (sa_rows _ _ Hs).
  cbn [negb]; res_simpl; rewrite cut_back by done; res_simpl; set (rows := map prow_of es).
  pose proof (chunk_split es i) as Hsplit; set (before := take (16 * i) es) in *; set (after := drop _ es) in *.
  set (c := restart_chunk es i) in *; assert (rows = map prow_of before ++ map prow_of c ++ map prow_of after) as Erows
    by (subst rows; rewrite <- !map_app; congruence).
  assert (restart_offset TailEntry rows i = len (packed TailEntry (map prow_of before))) as E1
    by (unfold restart_offset, rows, before; by rewrite firstn_map).
  assert (restart_offset TailEntry rows (S i) = len (packed TailEntry (map prow_of before ++ map prow_of c))) as E2.
  { unfold restart_offset, rows, before, c, restart_chunk; rewrite <- map_app, take_take_drop, firstn_map.
    by replace (16 * S i)%nat with (16 * i + 16)%nat by lia. }
  rewrite E1, E2, packed_app, len_app.
  set (bs := packed_after TailEntry (map prow_of before) (map prow_of c)).
  replace (len (packed TailEntry (map prow_of before)) + len bs - len (packed TailEntry (map prow_of before))) with (len bs) by lia.
  assert (pread (ps_at s + len (packed TailEntry (map prow_of before))) (len bs) = Ok bs) as ->.
  { apply (pread_within s es); [done|]; unfold enc, block_bytes; cbn [pack_state pr_packed]; fold rows.
    rewrite Erows at 1; rewrite packed_app, packed_after_app, <- !app_assoc; by apply slice_mid. }
  res_simpl; rewrite Z.ltb_irrefl; pose proof (sa_ok _ _ Hs) as Hok; fold rows in Hok; rewrite Erows in Hok.
  apply Forall_app in Hok as [_ [Hok _]%Forall_app]; pose proof (chunk_rep es i (Z.of_nat i * RESTART_INTERVAL) (sa_wf _ _ Hs) (sa_flat _ _ Hs)) as Hrep.
  fold c in Hrep; pose proof (pp_fits _ _ (br_part _ _ Hrep)) as Hfit; cbn [block_part fp_packed rb_packed] in Hfit.
  assert (unpack_block bs TailEntry = Ok (flat_of c, flat_starts (map prow_of c))) as ->.
  { subst bs; rewrite <- (app_nil_r (map prow_of before)), packed_after_restart; [by apply unpack_block_rep|].
    subst before; rewrite length_map, length_take, Nat.min_l; [apply is_restart_block|].
    pose proof (block_count_spec (length es)); lia. }
  res_simpl; rewrite len_flat_starts; assert (len c + 1 - 1 = Z.min RESTART_INTERVAL (saturating_sub (len es) (Z.of_nat i * RESTART_INTERVAL))) as ->.
  { subst c; unfold restart_chunk, saturating_sub, RESTART_INTERVAL; rewrite len_take, len_drop; lia. }
  rewrite Z.eqb_refl; eauto.
Qed.

(** The blocks a lookup loads through a map. *)
Definition load_block (span : PartitionSpan) (restarts : option RestartTable) (at_ : Z) : res (option RowBlock) :=
  block ← RowBlock_read pread span at_ restarts; Ok (Some block).

Lemma span_loads s es : span_at s es -> forall i c, restart_chunks es !! i = Some c ->
  exists b, load_block s (Some (table_of es)) (Z.of_nat i) = Ok (Some b) /\ block_rep b c.
Proof.
  intros Hs i c [Hi ->]%restart_chunks_lookup; destruct (block_read_back s es i Hs Hi) as (b & E & Hb).
  exists b; unfold load_block; rewrite E; done.
Qed.

Lemma span_blocks s es : span_at s es -> PartitionSpan_blocks s = len (restart_chunks es).
Proof.
  intros Hs; unfold PartitionSpan_blocks, PartitionSpan_block_rows, block_rows_of; rewrite (sa_packed _ _ Hs), (sa_rows _ _ Hs).
  rewrite <- (len_prows es), <- (len_restart_offsets TailEntry); unfold len; rewrite length_restart_offsets.
  unfold restart_chunks; by rewrite !length_map, length_seq.
Qed.


End file.

(** ** The map of a sealed segment *)

Section map_read.
Context `{ChecksumLaws}.
Variable pre : bytes.
Variable f : SegmentFooter.
Variable parts : list (FooterPartition * list erow).
Variable pread : Z -> Z -> res bytes.
Hypothesis sealed : parts_sealed parts.
Hypothesis fits : footer_length parts < U32.
Hypothesis some_rows : Forall (fun pe => pe.2 <> []) parts.

Definition segment_file : bytes := pre ++ footer_bytes f parts.
Context `{FileReads segment_file pread}.

Definition held_of (s : PartitionSpan) (pe : FooterPartition * list erow) : PartitionHeld :=
  mkPartitionHeld s (fp_filter pe.1) (Some (table_of pe.2)).
Definition helds : list PartitionHeld := zip_with held_of (spans_from (len pre) parts) parts.

Lemma spans_at : Forall2 (fun s pe => span_at segment_file s pe.2 /\ ps_column s = fp_column pe.1) (spans_from (len pre) parts) parts.
Proof.
  apply Forall2_flip; unfold segment_file, footer_bytes, body; rewrite <- !app_assoc; set (rest := region _ ++ _).
  pose proof (spans_from_hit parts pre rest) as H2; destruct sealed as [Hs _]; destruct (len_total parts Hs) as (_ & _ & Hall).
  apply Forall2_same_length_lookup; split; [by eapply Forall2_length|]; intros i pe s Hi Hj.
  destruct (Forall2_lookup_lr _ _ _ _ _ _ H2 Hi Hj) as (Hslice & Hcol & _ & Hpk & Hrows); unfold flip.
  rewrite Forall_lookup in Hs, Hall; pose proof (Hs i pe Hi) as Hp; specialize (Hall i pe Hi); cbv beta in *.
  destruct (rows_of_sealed _ _ Hp) as [Hok _]; pose proof (sp_rep _ _ Hp) as Hr.
  split; [| done]; constructor; try done.
  - pose proof (footer_length_parts parts); pose proof (region_len_nonneg (map fst parts)); pose proof (len_nonneg parts); lia.
  - rewrite <- (pp_packed _ _ Hr); apply Hr.
  - apply Hr.
  - rewrite Forall_lookup in some_rows; by apply (some_rows i).
Qed.

Lemma length_spans : length (spans_from (len pre) parts) = length parts.
Proof. eapply Forall2_length, spans_at. Qed.

Lemma map_spans_zip : zip_with (fun sf r => mkPartitionHeld sf.1 sf.2 r)
    (zip (spans_from (len pre) parts) (map (fun pe => fp_filter pe.1) parts)) (map (fun pe => Some (table_of pe.2)) parts) = helds.
Proof.
  unfold helds; generalize (spans_from (len pre) parts) as l; clear; induction parts as [|pe ps IH]; intros [|s l]; try done.
  cbn [map zip zip_with]; rewrite <- IH; done.
Qed.

Lemma helds_columns : map held_column helds = map (fun pe => fp_column pe.1) parts.
Proof.
  unfold helds; pose proof spans_at as H2; revert H2; generalize (spans_from (len pre) parts) parts; intros l0 ps0 H2; induction H2 as [|s pe l ps [_ Hc] _ IH]; [done|].
  cbn [zip_with map]; f_equal; [exact Hc | exact IH].
Qed.

Lemma helds_ascend : StronglySorted (fun a b => held_column a < held_column b) helds.
Proof.
  destruct sealed as [_ Hc]; unfold columns_ascend in Hc.
  assert (StronglySorted Z.lt (map held_column helds)) as Hs.
  { rewrite helds_columns; clear -Hc; induction parts as [|pe ps IH]; cbn [map] in *; [constructor|].
    apply StronglySorted_inv in Hc as [Hc Hall]; constructor; [by apply IH|]; apply Forall_map in Hall.
    by rewrite map_map in Hall. }
  revert Hs; generalize helds as l; clear; induction l as [|h hs IH]; cbn [map]; intros Hs; [constructor|].
  apply StronglySorted_inv in Hs as [Hs Hall]; constructor; [by apply IH | exact (proj1 (Forall_map held_column _ _) Hall)].
Qed.

Lemma restarts_back : mapm (read_restarts pread) (spans_from (len pre) parts) = Ok (map (fun pe => Some (table_of pe.2)) parts).
Proof.
  pose proof spans_at as H2; revert H2; generalize (spans_from (len pre) parts) parts; intros l0 ps0 H2.
  induction H2 as [|s pe l ps [Hs _] _ IH]; [done|]; cbn [mapm map].
  rewrite (read_restarts_back segment_file pread s pe.2) by done; res_simpl; by rewrite IH.
Qed.

Lemma map_read_back : FooterMap_read pread (len segment_file) = Ok (Some (mkFooterMap helds)).
Proof.
  destruct sealed as [Hs _]; destruct (len_total parts Hs) as (_ & Ht & _); pose proof (footer_length_parts parts) as El.
  pose proof (region_len_nonneg (map fst parts)) as Hreg; pose proof (len_nonneg parts) as Hn; pose proof (len_nonneg pre) as Hpre.
  assert (len segment_file = len pre + footer_length parts) as Hfile by (unfold segment_file; by rewrite len_app, len_footer_bytes).
  unfold FooterMap_read, TAIL_PROBE; set (probe := Z.min 512 (len segment_file)).
  assert (64 <= probe <= len segment_file) as Hprobe by lia; change FIXED_TAIL_LEN with 64; change DIRECTORY_ROW_LEN with 11.
  destruct (len segment_file <? 64) eqn:E; [b2p; lia|]; clear E.
  destruct (cut_at segment_file (len segment_file - probe)) as (head & tail_ & Ecut & Hhead); [lia|].
  assert (len tail_ = probe) as Htail by (rewrite Ecut, len_app in Hhead; lia).
  assert (pread (len segment_file - probe) probe = Ok tail_) as ->.
  { apply reads_range; rewrite Ecut at 1; rewrite slice_skip by lia; apply slice_whole; lia. }
  res_simpl; rewrite Htail; destruct (probe <? 64) eqn:E; [b2p; lia|]; clear E.
  set (ft := fixed_tail f parts (u32_le (checksum (body parts ++ fixed_tail f parts (zeros 4))))).
  set (suf := region (map fst parts) ++ directory parts ++ ft).
  assert (segment_file = (pre ++ concat (encs parts)) ++ suf) as Esuf
    by (unfold segment_file, footer_bytes; fold ft; unfold body, suf; by rewrite <- !app_assoc).
  assert (len ft = 64) as Hft by apply len_fixed_tail.
  assert (len suf = filter_region_len (map fst parts) + len parts * 11 + 64) as Hsuf
    by (unfold suf; rewrite !len_app, len_region, len_directory, Hft; change DIRECTORY_ROW_LEN with 11; lia).
  destruct (suffix_within head tail_ (pre ++ body parts) ft) as [q Eq];
    [rewrite <- Ecut; unfold segment_file, footer_bytes; fold ft; by rewrite <- app_assoc | lia |].
  rewrite Eq at 1; unfold ft; rewrite directory_span_back by (done || lia); res_simpl.
  cbn [ds_footer_len ds_directory_at ds_filter_len ds_partitions].
  set (wanted := _ - _ + filter_region_len _); assert (wanted = len suf) as Ew by (subst wanted; lia).
  assert ((if wanted <=? probe then must (slice_from tail_ (probe - wanted)) else pread (len segment_file - wanted) wanted) = Ok suf) as ->.
  { destruct (wanted <=? probe) eqn:E; b2p.
    - destruct (suffix_within head tail_ (pre ++ concat (encs parts)) suf) as [k Ek]; [congruence | lia|].
      assert (slice_from tail_ (probe - wanted) = Some suf) as ->; [| done].
      apply slice_from_Some; exists k; split; [done|]; rewrite Ek, len_app in Htail; lia.
    - apply reads_range; rewrite Esuf at 1; rewrite slice_skip by (rewrite Esuf, !len_app in *; lia).
      apply slice_whole; rewrite Esuf, !len_app in *; lia. }
  res_simpl; rewrite Hsuf; destruct (_ <? _) eqn:E; [b2p; lia|]; clear E.
  assert (slice suf 0 (filter_region_len (map fst parts)) = Some (region (map fst parts))) as -> by (apply slice_hit; [done | by rewrite len_region]).
  assert (slice_from suf (filter_region_len (map fst parts)) = Some (directory parts ++ ft)) as ->
    by (rewrite <- len_region; apply slice_from_app).
  res_simpl; replace (len segment_file - footer_length parts) with (len pre) by lia.
  rewrite partition_spans_back by done; res_simpl; rewrite restarts_back; res_simpl; rewrite length_spans, filters_back by done; res_simpl.
  rewrite map_spans_zip, (merge_column_order held_column) by (done || apply helds_ascend); done.
Qed.

End map_read.

(** ** One key in a sealed segment *)

Definition answer_of (found : FooterFind) : option FooterRow :=
  match found with FoundRow row => Some row | Missing | RuledOut => None end.

(** One key answered by reading the blocks the search touches and no more. *)
Definition find_in_map (pread : Z -> Z -> res bytes) (map : FooterMap) (column : ColumnId) (key : bytes)
    : res (option FooterRow) :=
  match FooterMap_locate map column with
  | None => Ok None
  | Some (span, filter) =>
      outcome ← lookup_in_span (load_block pread span (FooterMap_restarts_of map (ps_column span))) span filter key;
      Ok (answer_of outcome)
  end.

Section find.
Context `{ChecksumLaws}.

Lemma filter_rules_sealed p es key : sealed_part p es ->
  (exists out, rules_out (fp_filter p) key = Ok out) /\ forall row, (key, row) ∈ es -> rules_out (fp_filter p) key = Ok false.
Proof.
  intros Hp; destruct (sp_may _ _ Hp) as [Hret Hin]; unfold FooterPartition_may_hold, rules_out in *; destruct (fp_filter p) as [f|].
  - split; [destruct (Hret key) as [b ->]; eauto|]; intros row Hr; apply Hin in Hr; cbn [fst] in Hr; by rewrite Hr.
  - split; eauto.
Qed.

Lemma parts_ascend (parts : list (FooterPartition * list erow)) : columns_ascend (map fst parts) ->
  StronglySorted (fun a b => fp_column a.1 < fp_column b.1) parts.
Proof.
  unfold columns_ascend; induction parts as [|pe parts IH]; cbn [map]; intros Hs; [constructor|].
  apply StronglySorted_inv in Hs as [Hs Hall]; constructor; [by apply IH | exact (proj1 (Forall_map fst _ _) Hall)].
Qed.

Lemma find_in_map_sealed pre f parts pread : parts_sealed parts -> footer_length parts < U32 ->
  Forall (fun pe => pe.2 <> []) parts -> FileReads (segment_file pre f parts) pread ->
  forall column key, exists found, find_in_map pread (mkFooterMap (helds pre parts)) column key = Ok found
    /\ match found with
       | Some _ => exists pe, pe ∈ parts /\ fp_column pe.1 = column /\ newest_of key found pe.2
       | None => forall pe, pe ∈ parts -> fp_column pe.1 = column -> newest_of key found pe.2
       end.
Proof.
  intros Hps Hfl Hsome Hreads column key; unfold find_in_map, FooterMap_locate, FooterMap_restarts_of, FooterMap_at.
  cbn [fm_partitions]; pose proof (helds_ascend pre f parts Hps Hfl Hsome) as Has.
  pose proof (partition_in_spec held_column (helds pre parts) column Has) as Hin; pose proof (spans_at pre f parts Hps Hfl Hsome) as H2.
  destruct (partition_in _ column _) as [h|] eqn:Eh; res_simpl.
  2:{ exists None; split; [done|]; intros pe Hpe Hc; exfalso; apply Hin; rewrite (helds_columns pre f parts Hps Hfl Hsome).
      rewrite <- Hc; apply list_elem_of_fmap; eauto. }
  destruct Hin as [Hh Hcol]; pose proof Hh as Hh'; unfold helds in Hh; apply elem_of_lookup_zip_with in Hh as (i & s & pe & -> & Hi & Hj).
  destruct (Forall2_lookup_lr _ _ _ _ _ _ H2 Hi Hj) as [Hs Hsc]; cbn [held_of ph_span ph_filter ph_restarts].
  change (ps_column s = column) in Hcol; rewrite Hcol, Eh; res_simpl; cbn [held_of ph_restarts].
  destruct Hps as [Hsp Hasc]; rewrite Forall_lookup in Hsp; pose proof (Hsp i pe Hj) as Hp; cbv beta in Hp.
  destruct (filter_rules_sealed pe.1 pe.2 key Hp) as [Hret Hheld].
  pose proof (lookup_in_span_cases (load_block pread s (Some (table_of pe.2))) (restart_chunks pe.2)
    (span_loads (segment_file pre f parts) pread s pe.2 Hs) (restart_chunks_filled pe.2)) as Hl.
  rewrite concat_restart_chunks in Hl.
  destruct (Hl (sp_order _ _ Hp) s (fp_filter pe.1) key (span_blocks _ s pe.2 Hs) Hret Hheld) as (found & -> & Hf); res_simpl.
  exists (answer_of found); split; [done|].
  assert (forall qe, qe ∈ parts -> fp_column qe.1 = column -> qe = pe) as Honce.
  { intros qe Hq Hqc; apply (column_once (fun pe => fp_column pe.1) parts); [by apply parts_ascend | done | | congruence].
    by eapply list_elem_of_lookup_2. }
  unfold answer_of; destruct found as [| |row].
  - intros qe Hq Hqc; by rewrite (Honce qe Hq Hqc).
  - intros qe Hq Hqc; by rewrite (Honce qe Hq Hqc).
  - exists pe; split_and!; [by eapply list_elem_of_lookup_2 | congruence | done].
Qed.

Lemma sealed_from_some es ps parts : Forall2 (sealed_from es) ps parts -> Forall (fun p => rows_in (fp_column p) es <> []) ps ->
  Forall (fun pe => pe.2 <> []) parts.
Proof.
  induction 1 as [|p pe ps parts (_ & Hperm & _) _ IH]; intros Hne; [constructor|]; apply Forall_cons in Hne as [Hn Hne].
  constructor; [| by apply IH]; intros E; rewrite E in Hperm; by apply Permutation_nil_l in Hperm.
Qed.

(** C2: a segment's entries, sealed at the end of its file, answer every lookup exactly through the
    directory alone, reading only blocks: the map reads back from any driver that reads the file,
    and a column and key give the newest entry that has them, or none when no entry does. *)
Theorem blocked_lookup_exact es sealed_at tally bits pre :
  Forall entry_wf es -> len (flat_of (map erow_of es)) < 2 ^ 27 -> is_u8 bits ->
  exists f' buf, SegmentFooter_pack (stamped es sealed_at tally) bits = Ok (f', buf)
    /\ forall pread, FileReads (pre ++ buf) pread ->
       exists map, FooterMap_read pread (len (pre ++ buf)) = Ok (Some map)
         /\ forall column key, exists found, find_in_map pread map column key = Ok found
              /\ match found with
                 | Some row => (exists e, e ∈ es /\ entry_column e = column /\ erow_of e = (key, row))
                     /\ forall e row', e ∈ es -> entry_column e = column -> erow_of e = (key, row') -> fr_lsn row' <= fr_lsn row
                 | None => forall e row, e ∈ es -> entry_column e = column -> erow_of e <> (key, row)
                 end.
Proof.
  intros Hw Hl Hb; pose proof (build_holds es Hw ltac:(unfold U32; lia)) as Hbuild.
  assert (footer_holds (stamped es sealed_at tally) es) as Hf by (by destruct Hbuild; constructor).
  destruct (pack_spec _ es bits Hf Hw Hl Hb) as (parts & H2 & Hps & Hfl & Hpack); do 2 eexists; split; [exact Hpack|].
  intros pread Hreads; destruct (nonempty_columns_spec _ es Hf) as (_ & _ & Hne & Hcols).
  pose proof (sealed_from_some _ _ _ H2 Hne) as Hsome.
  eexists; split; [by apply (map_read_back pre (stamped es sealed_at tally) parts)|]; intros column key.
  destruct (find_in_map_sealed pre _ parts pread Hps Hfl Hsome Hreads column key) as (found & E & Hfound); exists found; split; [exact E|].
  assert (forall pe, pe ∈ parts -> forall x, x ∈ pe.2 <-> exists e, e ∈ es /\ entry_column e = fp_column pe.1 /\ erow_of e = x) as Hx.
  { intros pe [i Hi]%list_elem_of_lookup x; destruct (Forall2_lookup_r _ _ _ _ _ H2 Hi) as (q & _ & _ & Hperm & Hc & _).
    rewrite Hperm, rows_in_elem, Hc; done. }
  destruct found as [row|].
  - destruct Hfound as (pe & Hpe & <- & Hin & Hmax); rewrite (Hx pe Hpe) in Hin; split; [exact Hin|]; intros e row' He Hc Er.
    apply Hmax, (Hx pe Hpe); eauto.
  - intros e row He Hc Er; pose proof (Hcols e He) as (q & Eq & [i Hi]%list_elem_of_lookup)%list_elem_of_fmap.
    destruct (Forall2_lookup_l _ _ _ _ _ H2 Hi) as (pe & Hpe & _ & _ & Hcol & _); apply list_elem_of_lookup_2 in Hpe.
    apply (Hfound pe Hpe ltac:(congruence) row), (Hx pe Hpe); exists e; split_and!; [done | congruence | done].
Qed.


End find.

(** ** Witnesses *)

Lemma blocked_lookup_exact_witness :
  exists f' buf map, SegmentFooter_pack (stamped demo_entries 9 (mkFooterTally 25 0)) 10 = Ok (f', buf)
    /\ FooterMap_read (memory_pread ([Byte.x01] ++ buf)) (len ([Byte.x01] ++ buf)) = Ok (Some map)
    /\ exists found, find_in_map (memory_pread ([Byte.x01] ++ buf)) map 7 [Byte.x62] = Ok found
         /\ match found with
            | Some row => (exists e, e ∈ demo_entries /\ entry_column e = 7 /\ erow_of e = ([Byte.x62], row))
                /\ forall e row', e ∈ demo_entries -> entry_column e = 7 -> erow_of e = ([Byte.x62], row') -> fr_lsn row' <= fr_lsn row
            | None => forall e row, e ∈ demo_entries -> entry_column e = 7 -> erow_of e <> ([Byte.x62], row)
            end.
Proof.
  destruct (blocked_lookup_exact demo_entries 9 (mkFooterTally 25 0) 10 [Byte.x01] demo_entries_wf
    ltac:(vm_compute; reflexivity) ltac:(split; vm_compute; first [reflexivity | discriminate])) as (f' & buf & E & Hm).
  destruct (Hm (memory_pread ([Byte.x01] ++ buf)) (memory_reads _)) as (map & Em & Hl).
  exists f', buf, map; split; [exact E|]; split; [exact Em | exact (Hl 7 [Byte.x62])].
Defined.

(** The map and a search of its blocks run on the bytes. *)
Example blocks_run :
  ('(_, buf) ← SegmentFooter_pack (stamped demo_entries 9 (mkFooterTally 25 0)) 10;
   map ← FooterMap_read (memory_pread ([Byte.x01] ++ buf)) (len ([Byte.x01] ++ buf));
   match map with
   | Some map => find_in_map (memory_pread ([Byte.x01] ++ buf)) map 7 [Byte.x62]
   | None => Panic
   end) = Ok (Some (mkFooterRow 5 320 5 0)).
Proof. vm_compute; reflexivity. Qed.
