(* ===== verification/Store.v ===== *)
(** * The store interface ([reel-core])

    The [Store] trait of [reel-core] as a class of the operations a backend must give, the trait's
    own methods as functions over the class, and the laws a backend owes its callers. A [Value] is the bytes it dereferences to: which buffer
    holds them is not modelled. *)
From S2P Require Import Prelude Error Bytes.

Abbreviation store_result := (sum StoreError).

Global Instance store_result_ret : MRet (sum StoreError) := fun A a => inr a.
Global Instance store_result_bind : MBind (sum StoreError) := fun A B f m =>
  match m with inl e => inl e | inr a => f a end.

Inductive Direction := Asc | Desc.

Abbreviation KeyValue := (bytes * bytes)%type (only parsing).

Inductive BatchOp :=
| BatchPut (cf : string) (key value : bytes)
| BatchDelete (cf : string) (key : bytes).

Abbreviation WriteBatch := (list BatchOp) (only parsing).

Definition BatchOp_cf (op : BatchOp) : string :=
  match op with BatchPut cf _ _ => cf | BatchDelete cf _ => cf end.

Definition WriteBatch_new : WriteBatch := [].
Definition WriteBatch_put_named (b : WriteBatch) (cf : string) (key value : bytes) : WriteBatch := b ++ [BatchPut cf key value].
Definition WriteBatch_delete_named (b : WriteBatch) (cf : string) (key : bytes) : WriteBatch := b ++ [BatchDelete cf key].
Definition WriteBatch_is_empty (b : WriteBatch) : bool := match b with [] => true | _ => false end.
Definition WriteBatch_len (b : WriteBatch) : Z := len b.

(** ** The trait *)

(** An iterator is the list it yields. *)
Class Store (St : Type) := {
  store_get : St -> string -> bytes -> store_result (option bytes);
  store_put : St -> string -> bytes -> bytes -> store_result St;
  store_delete : St -> string -> bytes -> store_result St;
  store_contains : St -> string -> bytes -> store_result bool;
  store_write_batch : St -> WriteBatch -> store_result St;
  store_iter : St -> string -> store_result (list KeyValue);
  store_iter_prefix : St -> string -> bytes -> store_result (list KeyValue);
  store_iter_from : St -> string -> bytes -> Direction -> store_result (list KeyValue);
  store_iter_range : St -> string -> bytes -> bytes -> store_result (list KeyValue);
  store_bytes_prefix : St -> string -> bytes -> store_result (option Z);
}.

(** [key.starts_with(prefix)] *)
Definition starts_with (key prefix : bytes) : bool := bytes_eqb (take (length prefix) key) prefix.

Definition range_of (value : bytes) (offset length_ : Z) : res bytes :=
  let held := len value in
  let at_ := Z.min offset held in
  let end_ := Z.min (u64_saturating_add at_ length_) held in
  must (slice value at_ end_).

Fixpoint collect {A B} (f : A -> store_result B) (l : list A) : store_result (list B) :=
  match l with
  | [] => inr []
  | x :: l => y ← f x; ys ← collect f l; inr (y :: ys)
  end.

(** One page off an iterator: the first row past it names the next. *)
Fixpoint sweep_page (limit : nat) (prefix : bytes) (held : list KeyValue) (rows : list KeyValue)
    : list KeyValue * option bytes :=
  match held with
  | [] => (rows, None)
  | (key, value) :: held =>
      if negb (starts_with key prefix) then (rows, None)
      else if (length rows =? limit)%nat then (rows, Some key)
      else sweep_page limit prefix held (rows ++ [(key, value)])
  end.

(** The page of a sweep with no prefix to leave. *)
Fixpoint sweep_page_all (limit : nat) (held : list KeyValue) (rows : list KeyValue) : list KeyValue * option bytes :=
  match held with
  | [] => (rows, None)
  | (key, value) :: held =>
      if (length rows =? limit)%nat then (rows, Some key)
      else sweep_page_all limit held (rows ++ [(key, value)])
  end.

(** A walk that lends rows to a callback with its own state, until it says no. *)
Fixpoint walk_held {S} (take_ : S -> bytes -> bytes -> S * bool) (held : list KeyValue) (state : S) : S :=
  match held with
  | [] => state
  | (key, value) :: held =>
      let '(state, more) := take_ state key value in
      if more : bool then walk_held take_ held state else state
  end.

Section defaults.
Context {St : Type} `{Store St}.

Definition Store_get_many (s : St) (cf : string) (keys : list bytes) : store_result (list (option bytes)) :=
  collect (store_get s cf) keys.

Definition Store_get_range (s : St) (cf : string) (key : bytes) (offset length_ : Z) : store_result (option (res bytes)) :=
  value ← store_get s cf key;
  inr (match value with Some value => Some (range_of value offset length_) | None => None end).

Definition Store_delete_range (s : St) (cf : string) (start end_ : bytes) : store_result St :=
  rows ← store_iter_range s cf start end_;
  let keys := map fst rows in
  match keys with
  | [] => inr s
  | _ => store_write_batch s (fold_left (fun batch key => WriteBatch_delete_named batch cf key) keys WriteBatch_new)
  end.

Definition Store_iter_keys_prefix (s : St) (cf : string) (prefix : bytes) : store_result (list bytes) :=
  rows ← store_iter_prefix s cf prefix; inr (map fst rows).

Definition Store_sweep (s : St) (cf : string) (from : option bytes) (limit : nat) : store_result (list KeyValue * option bytes) :=
  held ← store_iter_from s cf (default [] from) Asc; inr (sweep_page_all limit held []).

Definition Store_sweep_prefix (s : St) (cf : string) (prefix : bytes) (from : option bytes) (limit : nat)
    : store_result (list KeyValue * option bytes) :=
  held ← store_iter_from s cf (default prefix from) Asc; inr (sweep_page limit prefix held []).

Definition Store_sweep_keys_prefix (s : St) (cf : string) (prefix : bytes) (from : option bytes) (limit : nat)
    : store_result (list bytes * option bytes) :=
  page ← Store_sweep_prefix s cf prefix from limit; inr (map fst page.1, page.2).

Definition Store_count_prefix (s : St) (cf : string) (prefix : bytes) : store_result Z :=
  keys ← Store_iter_keys_prefix s cf prefix; inr (len keys).

Definition Store_walk_from {S} (s : St) (cf : string) (start : bytes) (direction : Direction)
    (take_ : S -> bytes -> bytes -> S * bool) (state : S) : store_result S :=
  held ← store_iter_from s cf start direction; inr (walk_held take_ held state).

End defaults.

(** ** The laws *)

Definition key_lt (a b : KeyValue) : Prop := bytes_lt a.1 b.1.

(** A list of rows in key order that are exactly a map's rows with such keys. *)
Definition lists (m : gmap bytes bytes) (P : bytes -> Prop) (l : list KeyValue) : Prop :=
  StronglySorted key_lt l /\ forall k v, (k, v) ∈ l <-> m !! k = Some v /\ P k.

Definition apply_op (cf : string) (m : gmap bytes bytes) (op : BatchOp) : gmap bytes bytes :=
  match op with
  | BatchPut cf' key value => if bool_decide (cf' = cf) then <[key:=value]> m else m
  | BatchDelete cf' key => if bool_decide (cf' = cf) then delete key m else m
  end.

Class StoreLaws (St : Type) `{Store St} (rows : St -> string -> gmap bytes bytes) : Prop := {
  law_get s cf k : store_get s cf k = inr (rows s cf !! k);
  law_put s cf k v : exists s', store_put s cf k v = inr s'
    /\ forall cf', rows s' cf' = apply_op cf' (rows s cf') (BatchPut cf k v);
  law_delete s cf k : exists s', store_delete s cf k = inr s'
    /\ forall cf', rows s' cf' = apply_op cf' (rows s cf') (BatchDelete cf k);
  law_contains s cf k : store_contains s cf k = inr (bool_decide (is_Some (rows s cf !! k)));
  law_write_batch s b : exists s', store_write_batch s b = inr s'
    /\ forall cf, rows s' cf = fold_left (apply_op cf) b (rows s cf);
  law_iter s cf : exists l, store_iter s cf = inr l /\ lists (rows s cf) (fun _ => True) l;
  law_iter_prefix s cf prefix : exists l, store_iter_prefix s cf prefix = inr l
    /\ lists (rows s cf) (fun k => starts_with k prefix = true) l;
  law_iter_asc s cf start : exists l, store_iter_from s cf start Asc = inr l
    /\ lists (rows s cf) (fun k => bytes_le start k) l;
  law_iter_desc s cf start : exists l, store_iter_from s cf start Desc = inr (reverse l)
    /\ lists (rows s cf) (fun k => bytes_le k start) l;
  law_iter_range s cf start end_ : exists l, store_iter_range s cf start end_ = inr l
    /\ lists (rows s cf) (fun k => bytes_le start k /\ bytes_lt k end_) l;
}.

(** ** Listings *)

Lemma key_lt_strict a b : key_lt a b -> a.1 <> b.1.
Proof. unfold key_lt; intros Hl E; rewrite E in Hl; by apply bytes_lt_irrefl in Hl. Qed.

Lemma listing_nodup l : StronglySorted key_lt l -> NoDup l.
Proof.
  induction 1 as [|x l _ IH Hall]; constructor; [| done]; intros Hin; rewrite Forall_forall in Hall.
  by apply Hall, key_lt_strict in Hin.
Qed.

Lemma lists_unique m P Q l l' : (forall k, P k <-> Q k) -> lists m P l -> lists m Q l' -> l = l'.
Proof.
  intros HPQ [Hs Hl] [Hs' Hl']; apply (StronglySorted_unique_strong key_lt); [| done | done |].
  - intros [k v] [k' v'] _ _ H1 H2; unfold key_lt in *; cbn in *; exfalso; apply (bytes_lt_irrefl k); by eapply bytes_lt_trans.
  - apply NoDup_Permutation; [by apply listing_nodup | by apply listing_nodup|]; intros [k v]; by rewrite Hl, Hl', HPQ.
Qed.

Lemma lists_drop m P l n k v : lists m P l -> l !! n = Some (k, v) -> lists m (fun x => P x /\ bytes_le k x) (drop n l).
Proof.
  intros [Hs Hl] Hn; rewrite <- (take_drop n l) in Hs; apply StronglySorted_app in Hs as (Hb & _ & Hd); split; [done|].
  rewrite (drop_S l (k, v) n Hn) in *; apply StronglySorted_inv in Hd as [_ Hd]; rewrite Forall_forall in Hd.
  intros x y; split.
  - intros Hin; assert ((x, y) ∈ l) as Hx%Hl by (rewrite <- (take_drop n l), (drop_S l (k, v) n Hn); set_solver).
    split; [by apply Hx|]; split; [by apply Hx|]; apply elem_of_cons in Hin as [E|Hin]; [injection E as -> ->; reflexivity|].
    apply bytes_lt_le; exact (Hd _ Hin).
  - intros (Hm & HP & Hle); assert ((x, y) ∈ l) as Hx by (by apply Hl); rewrite <- (take_drop n l), (drop_S l (k, v) n Hn) in Hx.
    apply elem_of_app in Hx as [Hx|Hx]; [| done]; specialize (Hb (x, y) (k, v) Hx ltac:(left)); unfold key_lt in Hb; cbn in Hb.
    exfalso; apply (bytes_lt_irrefl x); by eapply bytes_lt_le_trans.
Qed.

(** Keys with a prefix lie together, from the prefix on. *)
Lemma starts_with_cons x y key prefix : starts_with (x :: key) (y :: prefix) = true <-> x = y /\ starts_with key prefix = true.
Proof. unfold starts_with; cbn [length take]; rewrite !bytes_eqb_eq; split; [intros E; by injection E | by intros [-> ->]]. Qed.

Lemma starts_with_le key prefix : starts_with key prefix = true -> bytes_le prefix key.
Proof.
  unfold starts_with; rewrite bytes_eqb_eq; intros <-; rewrite <- (take_drop (length prefix) key) at 2.
  generalize (take (length prefix) key) (drop (length prefix) key); intros a b; rewrite <- (app_nil_r a) at 1.
  unfold bytes_le; rewrite bytes_cmp_app; by destruct b.
Qed.

Lemma starts_with_between prefix : forall a b, bytes_le prefix a -> bytes_le a b -> starts_with b prefix = true -> starts_with a prefix = true.
Proof.
  induction prefix as [|x p IH]; intros a b Hpa Hab Hb; [done|].
  destruct b as [|y b]; [done|]; apply starts_with_cons in Hb as [-> Hb].
  destruct a as [|z a]; [done|]; unfold bytes_le in *; cbn [bytes_cmp] in *.
  destruct (Z.compare_spec (u8 x) (u8 z)), (Z.compare_spec (u8 z) (u8 x)); try done; try lia.
  apply starts_with_cons; split; [by apply u8_inj | by eapply IH].
Qed.

(** ** What the trait's own methods give, over any lawful store *)

Section lawful.
Context {St : Type} `{StoreLaws St rows}.

Lemma lists_run m start prefix l : lists m (fun k => bytes_le start k) l -> bytes_le prefix start ->
  exists run rest, l = run ++ rest /\ Forall (fun r => starts_with r.1 prefix = true) run
    /\ match rest with [] => True | r :: _ => starts_with r.1 prefix = false end
    /\ lists m (fun k => bytes_le start k /\ starts_with k prefix = true) run.
Proof.
  intros [Hs Hl] Hp.
  assert (exists run rest, l = run ++ rest /\ Forall (fun r => starts_with r.1 prefix = true) run
    /\ match rest with [] => True | r :: _ => starts_with r.1 prefix = false end) as (run & rest & E & Hrun & Hrest).
  { clear; induction l as [|r l (run & rest & -> & Hr & Hh)]; [exists [], []; split_and!; [done | constructor | done]|].
    destruct (starts_with r.1 prefix) eqn:Er; [exists (r :: run), rest; split_and!; [done | by constructor | done]|].
    exists [], (r :: run ++ rest); split_and!; [done | constructor | done]. }
  exists run, rest; split_and!; [done | done | done|]; rewrite E in Hs, Hl; apply StronglySorted_app in Hs as (_ & Hsr & Hst).
  split; [done|]; intros k v; split.
  - intros Hin; pose proof (proj1 (Hl k v) ltac:(set_solver)) as [Hm Hle]; split_and!; [done | done|].
    rewrite Forall_forall in Hrun; exact (Hrun _ Hin).
  - intros (Hm & Hle & Hsw); pose proof (proj2 (Hl k v) (conj Hm Hle)) as Hin; apply elem_of_app in Hin as [|Hin]; [done|].
    exfalso; destruct rest as [|r rest]; [by apply not_elem_of_nil in Hin|].
    assert (bytes_le r.1 k) as Hrk.
    { apply elem_of_cons in Hin as [<-|Hin]; [reflexivity|]; apply StronglySorted_inv in Hst as [_ Hall].
      rewrite Forall_forall in Hall; apply bytes_lt_le; exact (Hall _ Hin). }
    destruct r as [rk rv]; pose proof (proj1 (Hl rk rv) ltac:(set_solver)) as [_ Hsr']; cbn in *.
    rewrite (starts_with_between prefix rk k) in Hrest; [done | by transitivity start | done | done].
Qed.

Lemma sweep_page_spec limit prefix rest : match rest with [] => True | r :: _ => starts_with r.1 prefix = false end ->
  forall run acc, Forall (fun r => starts_with r.1 prefix = true) run -> (length acc <= limit)%nat ->
  sweep_page limit prefix (run ++ rest) acc = (acc ++ take (limit - length acc) run, fst <$> run !! (limit - length acc)%nat).
Proof.
  intros Hrest; induction run as [|[k v] run IH]; intros acc Hrun Hl; cbn [app].
  - rewrite take_nil, app_nil_r, lookup_nil; destruct rest as [|[k v] rest]; [done|]; cbn [sweep_page fst] in *; by rewrite Hrest.
  - apply Forall_cons in Hrun as [Hk Hrun]; cbn [sweep_page]; cbn [fst] in Hk; rewrite Hk; cbn [negb].
    destruct (Nat.eqb_spec (length acc) limit) as [E|Hne].
    + replace (limit - length acc)%nat with 0%nat by lia; cbn; by rewrite app_nil_r.
    + rewrite IH by (done || rewrite length_app; cbn; lia); rewrite length_app; cbn [length].
      replace (limit - length acc)%nat with (S (limit - (length acc + 1))) by lia; cbn [take lookup list_lookup]; by rewrite <- app_assoc.
Qed.

Lemma sweep_page_no_prefix limit held : forall acc, sweep_page_all limit held acc = sweep_page limit [] held acc.
Proof. induction held as [|[k v] held IH]; intros acc; cbn; [done|]; destruct (_ =? _)%nat; [done | apply IH]. Qed.

(** Pages from a mark to the last. *)
Fixpoint sweep_all (fuel : nat) (s : St) (cf : string) (prefix : bytes) (from : option bytes) (limit : nat)
    : store_result (option (list (list KeyValue))) :=
  match fuel with
  | O => inr None
  | S fuel =>
      page ← Store_sweep_prefix s cf prefix from limit;
      match page.2 with
      | None => inr (Some [page.1])
      | Some mark => rest ← sweep_all fuel s cf prefix (Some mark) limit; inr (option_map (cons page.1) rest)
      end
  end.

Lemma sweep_all_spec s cf prefix limit : (1 <= limit)%nat -> forall fuel run from,
  bytes_le prefix (default prefix from) ->
  lists (rows s cf) (fun k => bytes_le (default prefix from) k /\ starts_with k prefix = true) run -> (length run < fuel)%nat ->
  exists pages, sweep_all fuel s cf prefix from limit = inr (Some pages) /\ concat pages = run
    /\ Forall (fun page => (length page <= limit)%nat) pages.
Proof.
  intros Hlim; induction fuel as [|fuel IH]; intros run from Hp Hrun Hf; [lia|]; cbn [sweep_all]; unfold Store_sweep_prefix.
  destruct (law_iter_asc s cf (default prefix from)) as (l & -> & Hl); cbn [mbind store_result_bind].
  destruct (lists_run _ _ prefix l Hl Hp) as (run' & rest & -> & Hall & Hrest & Hrun').
  assert (run' = run) as -> by (by eapply (lists_unique (rows s cf))).
  rewrite sweep_page_spec by (done || cbn; lia); cbn [fst snd length app]; rewrite Nat.sub_0_r.
  destruct (run !! limit) as [[mark v]|] eqn:Em; cbn [fmap option_fmap option_map fst].
  - assert (lists (rows s cf) (fun k => bytes_le (default prefix (Some mark)) k /\ starts_with k prefix = true) (drop limit run)) as Hd.
    { pose proof (lists_drop _ _ _ _ _ _ Hrun Em) as [Hds Hdl]; split; [done|]; intros k w; rewrite Hdl; cbn [default].
      split; [naive_solver|]; intros (Hm & Hle & Hsw); split_and!; try done.
      destruct Hrun as [_ Hr]; transitivity mark; [| done]; apply (Hr mark v); by eapply list_elem_of_lookup_2. }
    destruct (IH (drop limit run) (Some mark)) as (pages & -> & Ec & Hpg); [| done | rewrite length_drop; apply lookup_lt_Some in Em; lia|].
    + destruct Hrun as [_ Hr]; cbn [default]; apply starts_with_le, (Hr mark v); by eapply list_elem_of_lookup_2.
    + cbn; eexists; split; [done|]; cbn [concat]; rewrite Ec, take_drop; split; [done|]; constructor; [rewrite length_take; lia | done].
  - exists [take limit run]; split; [done|]; cbn [concat]; apply lookup_ge_None in Em; rewrite take_ge, app_nil_r by lia.
    split; [done|]; constructor; [lia | constructor].
Qed.

Lemma delete_keys cf keys m k : fold_left (apply_op cf) (map (BatchDelete cf) keys) m !! k
  = if bool_decide (k ∈ keys) then None else m !! k.
Proof.
  revert m; induction keys as [|x keys IH]; intros m; cbn [map fold_left]; [by rewrite bool_decide_eq_false_2 by set_solver|].
  rewrite IH; cbn [apply_op]; rewrite (bool_decide_eq_true_2 (cf = cf)) by done.
  destruct (decide (k ∈ keys)) as [Hk|Hk].
  - by rewrite !bool_decide_eq_true_2 by set_solver.
  - rewrite (bool_decide_eq_false_2 (k ∈ keys)) by done; destruct (decide (k = x)) as [->|Hne].
    + by rewrite lookup_delete_eq, bool_decide_eq_true_2 by set_solver.
    + by rewrite lookup_delete_ne, bool_decide_eq_false_2 by set_solver.
Qed.

Lemma delete_other cf cf' keys m : cf <> cf' -> fold_left (apply_op cf') (map (BatchDelete cf) keys) m = m.
Proof.
  intros Hne; induction keys as [|x keys IH]; cbn [map fold_left apply_op]; [done|]; by rewrite bool_decide_eq_false_2.
Qed.

Lemma delete_range_spec s cf start end_ : exists s', Store_delete_range s cf start end_ = inr s'
  /\ (forall k, rows s' cf !! k = if bool_decide (bytes_le start k /\ bytes_lt k end_) then None else rows s cf !! k)
  /\ forall cf', cf' <> cf -> rows s' cf' = rows s cf'.
Proof.
  destruct (law_iter_range s cf start end_) as (l & El & _ & Hl); unfold Store_delete_range; rewrite El; cbn [mbind store_result_bind].
  assert (forall k, k ∈ map fst l <-> is_Some (rows s cf !! k) /\ bytes_le start k /\ bytes_lt k end_) as Hk.
  { intros k; rewrite list_elem_of_fmap; split.
    - intros ([x v] & -> & Hin); apply Hl in Hin as [Hm ?]; split; [by exists v | done].
    - intros [[v Hv] Hr]; exists (k, v); split; [done|]; by apply Hl. }
  assert (forall k, (if bool_decide (k ∈ map fst l) then None else rows s cf !! k)
    = if bool_decide (bytes_le start k /\ bytes_lt k end_) then None else rows s cf !! k) as Hcut.
  { intros k; destruct (rows s cf !! k) as [v|] eqn:Ev; [| by repeat case_bool_decide].
    assert (bool_decide (k ∈ map fst l) = bool_decide (bytes_le start k /\ bytes_lt k end_)) as ->; [| done].
    apply bool_decide_ext; rewrite Hk, Ev; naive_solver. }
  assert (forall keys b, fold_left (fun batch key => WriteBatch_delete_named batch cf key) keys b = b ++ map (BatchDelete cf) keys) as Hb.
  { induction keys as [|x keys IH]; intros b; cbn [fold_left map]; [by rewrite app_nil_r|]; rewrite IH; unfold WriteBatch_delete_named.
    by rewrite <- app_assoc. }
  destruct (map fst l) as [|x keys] eqn:Em.
  - exists s; split; [done|]; split; [| done]; intros k; rewrite <- Hcut; by rewrite bool_decide_eq_false_2 by set_solver.
  - rewrite Hb; cbn [WriteBatch_new app]; destruct (law_write_batch s (map (BatchDelete cf) (x :: keys))) as (s' & -> & Hs').
    exists s'; split; [done|]; split; [intros k; rewrite Hs', delete_keys; apply Hcut|].
    intros cf' Hne; rewrite Hs'; by apply delete_other.
Qed.

(** A ranged delete takes out of one family exactly the keys from its start up to its end, and
    touches no other family. *)
Lemma delete_range_exact s cf start end_ : exists s', Store_delete_range s cf start end_ = inr s'
  /\ (forall k, rows s' cf !! k = if bool_decide (bytes_le start k /\ bytes_lt k end_) then None else rows s cf !! k)
  /\ forall cf', cf' <> cf -> rows s' cf' = rows s cf'.
Proof. apply delete_range_spec. Qed.

(** C39: sweeping a prefix page by page, each page from the mark the last one left, ends, and the
    pages put together are every row under the prefix once, in key order, none longer than asked. A
    sweep of the whole family is the sweep of the empty prefix. *)
Theorem sweep_covers s cf prefix limit : (1 <= limit)%nat ->
  exists pages, sweep_all (S (size (rows s cf))) s cf prefix None limit = inr (Some pages)
    /\ lists (rows s cf) (fun k => starts_with k prefix = true) (concat pages)
    /\ Forall (fun page => (length page <= limit)%nat) pages
    /\ forall from, Store_sweep s cf from limit = Store_sweep_prefix s cf [] from limit.
Proof.
  intros Hlim; destruct (law_iter_asc s cf prefix) as (l & _ & Hl).
  destruct (lists_run _ _ prefix l Hl ltac:(reflexivity)) as (run & rest & _ & _ & _ & Hrun).
  destruct (sweep_all_spec s cf prefix limit Hlim (S (size (rows s cf))) run None) as (pages & E & Ec & Hp);
    [reflexivity | done | |].
  - destruct Hrun as [Hs Hr]; rewrite <- length_map_to_list; enough (length run <= length (map_to_list (rows s cf)))%nat by lia.
    apply submseteq_length, NoDup_submseteq; [by apply listing_nodup|]; intros [k v] Hin; apply Hr in Hin.
    apply elem_of_map_to_list, Hin.
  - exists pages; split; [done|]; split; [| split; [done|]; intros from; unfold Store_sweep, Store_sweep_prefix;
      destruct (store_iter_from _ _ _ _); cbn; [done | by rewrite sweep_page_no_prefix]].
    rewrite Ec; destruct Hrun as [Hs Hr]; split; [done|]; intros k v; rewrite Hr.
    split; [naive_solver|]; intros [? Hsw]; split_and!; try done; by apply starts_with_le.
Qed.

End lawful.
