(* ===== verification/MemoryStore.v ===== *)
(** * The in-memory store ([reel-mock/src/memory.rs])

    The store tests compare the engine against: a map of families, each a map of keys, behind one
    lock, so that every operation is one step. It keeps every law of [StoreLaws]. *)
From S2P Require Import Prelude Error Bytes Store.

Abbreviation ColumnData := (gmap bytes bytes) (only parsing).

Record MemoryStore := mkMemoryStore { ms_data : gmap string (gmap bytes bytes) }.

Definition MemoryStore_new : MemoryStore := mkMemoryStore ∅.

Definition entry_bytes (e : KeyValue) : Z := len e.1 + len e.2.
Definition sum_of {A} (f : A -> Z) (l : list A) : Z := fold_right (fun x t => f x + t) 0 l.

Definition MemoryStore_total_size_bytes (s : MemoryStore) : Z :=
  sum_of (fun cf => sum_of entry_bytes (map_to_list cf)) (map snd (map_to_list (ms_data s))).

(** The rows of one family, none when there is no such family. *)
Definition MemoryStore_rows (s : MemoryStore) (cf : string) : gmap bytes bytes := default ∅ (ms_data s !! cf).

Definition MemoryStore_get (s : MemoryStore) (cf : string) (key : bytes) : store_result (option bytes) :=
  inr (match ms_data s !! cf with Some cf_data => cf_data !! key | None => None end).

Definition data_put (data : gmap string (gmap bytes bytes)) (cf : string) (key value : bytes) : gmap string (gmap bytes bytes) :=
  <[cf := <[key := value]> (default ∅ (data !! cf))]> data.

Definition data_delete (data : gmap string (gmap bytes bytes)) (cf : string) (key : bytes) : gmap string (gmap bytes bytes) :=
  match data !! cf with
  | Some cf_data => <[cf := delete key cf_data]> data
  | None => data
  end.

Definition MemoryStore_put (s : MemoryStore) (cf : string) (key value : bytes) : store_result MemoryStore :=
  inr (mkMemoryStore (data_put (ms_data s) cf key value)).

Definition MemoryStore_delete (s : MemoryStore) (cf : string) (key : bytes) : store_result MemoryStore :=
  inr (mkMemoryStore (data_delete (ms_data s) cf key)).

Definition MemoryStore_contains (s : MemoryStore) (cf : string) (key : bytes) : store_result bool :=
  inr (match ms_data s !! cf with Some cf_data => bool_decide (is_Some (cf_data !! key)) | None => false end).

Definition MemoryStore_write_batch (s : MemoryStore) (batch : list BatchOp) : store_result MemoryStore :=
  inr (mkMemoryStore (fold_left (fun data op =>
    match op with
    | BatchPut cf key value => data_put data cf key value
    | BatchDelete cf key => data_delete data cf key
    end) batch (ms_data s))).

Definition key_asc (a b : KeyValue) : Prop := bytes_le a.1 b.1.
Definition key_desc (a b : KeyValue) : Prop := bytes_le b.1 a.1.
Global Instance key_asc_dec : RelDecision key_asc.
Proof. intros a b; unfold key_asc; apply _. Defined.
Global Instance key_desc_dec : RelDecision key_desc.
Proof. intros a b; unfold key_desc; apply _. Defined.

(** A family's entries that pass a test, unordered as a hash map gives them. *)
Definition entries_of (s : MemoryStore) (cf : string) (keep : bytes -> bool) : list KeyValue :=
  match ms_data s !! cf with
  | Some cf_data => List.filter (fun e => keep e.1) (map_to_list cf_data)
  | None => []
  end.

Definition MemoryStore_iter (s : MemoryStore) (cf : string) : store_result (list KeyValue) :=
  inr (merge_sort key_asc (entries_of s cf (fun _ => true))).

Definition MemoryStore_iter_prefix (s : MemoryStore) (cf : string) (prefix : bytes) : store_result (list KeyValue) :=
  inr (merge_sort key_asc (entries_of s cf (fun k => starts_with k prefix))).

Definition MemoryStore_iter_from (s : MemoryStore) (cf : string) (start : bytes) (direction : Direction)
    : store_result (list KeyValue) :=
  let entries := entries_of s cf (fun k => match direction with
                                           | Asc => bytes_leb start k
                                           | Desc => bytes_leb k start
                                           end) in
  inr (match direction with
       | Asc => merge_sort key_asc entries
       | Desc => merge_sort key_desc entries
       end).

Definition MemoryStore_iter_range (s : MemoryStore) (cf : string) (start end_ : bytes) : store_result (list KeyValue) :=
  inr (merge_sort key_asc (entries_of s cf (fun k => bytes_leb start k && bytes_ltb k end_))).

Definition MemoryStore_count_prefix (s : MemoryStore) (cf : string) (prefix : bytes) : store_result Z :=
  inr (len (entries_of s cf (fun k => starts_with k prefix))).

Definition MemoryStore_bytes_prefix (s : MemoryStore) (cf : string) (prefix : bytes) : store_result (option Z) :=
  inr (Some (sum_of (fun e => len e.2) (entries_of s cf (fun k => starts_with k prefix)))).

#[export] Instance MemoryStore_store : Store MemoryStore := {
  store_get := MemoryStore_get;
  store_put := MemoryStore_put;
  store_delete := MemoryStore_delete;
  store_contains := MemoryStore_contains;
  store_write_batch := MemoryStore_write_batch;
  store_iter := MemoryStore_iter;
  store_iter_prefix := MemoryStore_iter_prefix;
  store_iter_from := MemoryStore_iter_from;
  store_iter_range := MemoryStore_iter_range;
  store_bytes_prefix := MemoryStore_bytes_prefix;
}.

(** ** The laws *)

Global Instance key_asc_trans : Transitive key_asc.
Proof. intros a b c; unfold key_asc; apply transitivity. Qed.
Global Instance key_asc_total : Total key_asc.
Proof. intros a b; unfold key_asc; apply (total bytes_le). Qed.
Global Instance key_desc_trans : Transitive key_desc.
Proof. intros a b c; unfold key_desc; intros; by transitivity b.1. Qed.
Global Instance key_desc_total : Total key_desc.
Proof. intros a b; unfold key_desc; apply (total bytes_le). Qed.

Lemma data_put_rows data cf key value cf' :
  default ∅ (data_put data cf key value !! cf') = apply_op cf' (default ∅ (data !! cf')) (BatchPut cf key value).
Proof.
  unfold data_put; cbn [apply_op]; case_bool_decide as E; [subst; by rewrite lookup_insert_eq | by rewrite lookup_insert_ne].
Qed.

Lemma data_delete_rows data cf key cf' :
  default ∅ (data_delete data cf key !! cf') = apply_op cf' (default ∅ (data !! cf')) (BatchDelete cf key).
Proof.
  unfold data_delete; cbn [apply_op]; destruct (data !! cf) as [m|] eqn:Em; case_bool_decide as E.
  - subst; rewrite lookup_insert_eq, Em; done.
  - by rewrite lookup_insert_ne.
  - subst; rewrite Em; cbn; by rewrite delete_empty.
  - done.
Qed.

Lemma batch_rows batch : forall data cf,
  default ∅ (fold_left (fun data op => match op with
    | BatchPut cf key value => data_put data cf key value
    | BatchDelete cf key => data_delete data cf key end) batch data !! cf)
  = fold_left (apply_op cf) batch (default ∅ (data !! cf)).
Proof.
  induction batch as [|op batch IH]; intros data cf; cbn [fold_left]; [done|]; rewrite IH.
  destruct op; [by rewrite data_put_rows | by rewrite data_delete_rows].
Qed.

Lemma entries_of_elem s cf keep k v : (k, v) ∈ entries_of s cf keep <-> MemoryStore_rows s cf !! k = Some v /\ keep k = true.
Proof.
  unfold entries_of, MemoryStore_rows; destruct (ms_data s !! cf) as [m|]; cbn [default].
  - rewrite list_elem_of_In, filter_In, <- list_elem_of_In, elem_of_map_to_list; done.
  - rewrite lookup_empty; split; [by intros ?%not_elem_of_nil | by intros [? _]].
Qed.

Lemma entries_of_keys s cf keep : NoDup (map fst (entries_of s cf keep)).
Proof.
  unfold entries_of; destruct (ms_data s !! cf) as [m|]; [| constructor].
  pose proof (NoDup_fst_map_to_list m) as Hn; induction (map_to_list m) as [|e l IH]; cbn in *; [constructor|].
  apply NoDup_cons in Hn as [He Hn]; destruct (keep e.1); [| by apply IH]; cbn; constructor; [| by apply IH].
  intros (x & Ex & Hx)%list_elem_of_fmap; apply He; apply list_elem_of_In, filter_In in Hx as [Hx _]; apply list_elem_of_fmap.
  exists x; split; [done | by apply list_elem_of_In].
Qed.

Lemma sorted_strictly l : NoDup (map fst l) -> StronglySorted key_asc l -> StronglySorted key_lt l.
Proof.
  induction 2 as [|e l Hs IH Hall]; [constructor|]; cbn [map] in *; apply NoDup_cons in H as [He Hn]; constructor; [by apply IH|].
  apply Forall_forall; intros x Hx; rewrite Forall_forall in Hall; specialize (Hall x Hx); unfold key_asc, key_lt in *.
  apply bytes_le_lteq in Hall as [?|E]; [done|]; exfalso; apply He, list_elem_of_fmap; eauto.
Qed.

Lemma listing_sorted s cf keep P : (forall k, keep k = true <-> P k) ->
  lists (MemoryStore_rows s cf) P (merge_sort key_asc (entries_of s cf keep)).
Proof.
  intros HP; split.
  - apply sorted_strictly; [rewrite merge_sort_Permutation; apply entries_of_keys | by apply StronglySorted_merge_sort; apply _].
  - intros k v; by rewrite merge_sort_Permutation, entries_of_elem, HP.
Qed.

Lemma keys_inj (l : list KeyValue) a b : NoDup (map fst l) -> a ∈ l -> b ∈ l -> a.1 = b.1 -> a = b.
Proof.
  intros Hn [i Hi]%list_elem_of_lookup [j Hj]%list_elem_of_lookup E.
  assert (i = j) as -> by (apply (NoDup_lookup (map fst l) i j a.1 Hn); rewrite list_lookup_fmap; [by rewrite Hi | by rewrite Hj, E]).
  congruence.
Qed.

Lemma reverse_sorted (l : list KeyValue) : StronglySorted key_asc l -> StronglySorted key_desc (reverse l).
Proof.
  induction 1 as [|e l Hs IH Hall]; [constructor|]; rewrite reverse_cons; apply StronglySorted_app; split_and!; [| done | repeat constructor].
  intros a b Ha ->%list_elem_of_singleton; rewrite Forall_forall in Hall; apply (Hall a); by rewrite reverse_Permutation in Ha.
Qed.

Lemma desc_reverse (l : list KeyValue) : NoDup (map fst l) -> merge_sort key_desc l = reverse (merge_sort key_asc l).
Proof.
  intros Hn; apply (StronglySorted_unique_strong key_desc).
  - intros a b Ha Hb H1 H2; rewrite merge_sort_Permutation in Ha; rewrite reverse_Permutation, merge_sort_Permutation in Hb.
    apply (keys_inj l); [done | done | done|]; unfold key_desc in *; by apply (anti_symm bytes_le).
  - apply StronglySorted_merge_sort; apply _.
  - apply reverse_sorted, StronglySorted_merge_sort; apply _.
  - by rewrite reverse_Permutation, !merge_sort_Permutation.
Qed.

#[export] Instance memory_laws : StoreLaws MemoryStore MemoryStore_rows.
Proof.
  split; intros s cf; cbn [MemoryStore_store store_get store_put store_delete store_contains store_write_batch store_iter
    store_iter_prefix store_iter_from store_iter_range].
  - intros k; unfold MemoryStore_get, MemoryStore_rows; by destruct (ms_data s !! cf); cbn.
  - intros k v; eexists; split; [done|]; intros cf'; apply data_put_rows.
  - intros k; eexists; split; [done|]; intros cf'; apply data_delete_rows.
  - intros k; unfold MemoryStore_contains, MemoryStore_rows; destruct (ms_data s !! cf); cbn [default]; [done|].
    by rewrite lookup_empty, bool_decide_eq_false_2 by (by intros [? ?]).
  - eexists; split; [done|]; intros cf'; apply batch_rows.
  - eexists; split; [done|]; by apply listing_sorted.
  - intros prefix; eexists; split; [done|]; by apply listing_sorted.
  - intros start; eexists; split; [done|]; apply listing_sorted; intros; apply bytes_leb_le.
  - intros start; eexists; split; [unfold MemoryStore_iter_from; f_equal; apply desc_reverse, entries_of_keys|].
    apply listing_sorted; intros; apply bytes_leb_le.
  - intros start end_; eexists; split; [done|]; apply listing_sorted; intros k; rewrite andb_true_iff, bytes_leb_le, bytes_ltb_lt; done.
Qed.

(** ** Any run of writes *)

Inductive StoreOp :=
| OpPut (cf : string) (key value : bytes)
| OpDelete (cf : string) (key : bytes)
| OpBatch (batch : list BatchOp)
| OpDeleteRange (cf : string) (start end_ : bytes).

Definition store_step {St} `{Store St} (s : St) (op : StoreOp) : store_result St :=
  match op with
  | OpPut cf key value => store_put s cf key value
  | OpDelete cf key => store_delete s cf key
  | OpBatch batch => store_write_batch s batch
  | OpDeleteRange cf start end_ => Store_delete_range s cf start end_
  end.

Fixpoint store_run {St} `{Store St} (s : St) (ops : list StoreOp) : store_result St :=
  match ops with
  | [] => inr s
  | op :: ops => s ← store_step s op; store_run s ops
  end.

(** What one family holds after a write, as a map. *)
Definition spec_step (cf : string) (m : gmap bytes bytes) (op : StoreOp) : gmap bytes bytes :=
  match op with
  | OpPut cf' key value => apply_op cf m (BatchPut cf' key value)
  | OpDelete cf' key => apply_op cf m (BatchDelete cf' key)
  | OpBatch batch => fold_left (apply_op cf) batch m
  | OpDeleteRange cf' start end_ =>
      if bool_decide (cf' = cf) then filter (fun e => ~ (bytes_le start e.1 /\ bytes_lt e.1 end_)) m else m
  end.

Lemma store_run_spec {St} `{StoreLaws St rows} ops : forall s : St,
  exists s', store_run s ops = inr s' /\ forall cf, rows s' cf = fold_left (spec_step cf) ops (rows s cf).
Proof.
  induction ops as [|op ops IH]; intros s; cbn [store_run fold_left]; [eauto|].
  assert (exists s1, store_step s op = inr s1 /\ forall cf, rows s1 cf = spec_step cf (rows s cf) op) as (s1 & -> & H1).
  { destruct op as [cf k v|cf k|batch|cf start end_]; cbn [store_step spec_step].
    - apply law_put.
    - apply law_delete.
    - apply law_write_batch.
    - destruct (delete_range_spec s cf start end_) as (s1 & E & Hin & Hout); exists s1; split; [done|]; intros cf'.
      case_bool_decide as Ec; [subst cf' | apply Hout; congruence]; apply map_eq; intros k; rewrite Hin, map_lookup_filter.
      destruct (rows s cf !! k); cbn; repeat case_bool_decide || case_guard; try done; naive_solver. }
  cbn [mbind store_result_bind]; destruct (IH s1) as (s' & -> & Hs'); exists s'; split; [done|]; intros cf; by rewrite Hs', H1.
Qed.

(** C38: the in-memory store, whatever writes it is given, holds in every family exactly what those
    writes spell in order, a batch's operations in the order they were added: reads of a key, of its
    presence and its listings, whole, by prefix, by range, and from a key up or down, all answer from
    that. *)
Theorem memory_store_refines ops : exists s, store_run MemoryStore_new ops = inr s
  /\ forall cf, let m := fold_left (spec_step cf) ops ∅ in
     (forall k, store_get s cf k = inr (m !! k) /\ store_contains s cf k = inr (bool_decide (is_Some (m !! k))))
     /\ (exists l, store_iter s cf = inr l /\ lists m (fun _ => True) l)
     /\ (forall start, exists l, store_iter_from s cf start Desc = inr (reverse l) /\ lists m (fun k => bytes_le k start) l)
     /\ (forall start, exists l, store_iter_from s cf start Asc = inr l /\ lists m (fun k => bytes_le start k) l)
     /\ (forall prefix, exists l, store_iter_prefix s cf prefix = inr l /\ lists m (fun k => starts_with k prefix = true) l)
     /\ (forall start end_, exists l, store_iter_range s cf start end_ = inr l /\ lists m (fun k => bytes_le start k /\ bytes_lt k end_) l).
Proof.
  destruct (store_run_spec ops MemoryStore_new) as (s & E & Hs); exists s; split; [done|]; intros cf m.
  assert (MemoryStore_rows s cf = m) as Em by apply Hs; rewrite <- Em; split_and!.
  - intros k; split; [apply law_get | apply law_contains].
  - apply law_iter.
  - intros start; apply law_iter_desc.
  - intros start; apply law_iter_asc.
  - intros prefix; apply law_iter_prefix.
  - intros start end_; apply law_iter_range.
Qed.

(** ** Witnesses *)

Definition demo_ops : list StoreOp :=
  [OpPut "a" [Byte.x02] [Byte.x20]; OpPut "a" [Byte.x01; Byte.x05] [Byte.x15]; OpPut "a" [Byte.x01] [Byte.x10];
   OpBatch [BatchDelete "a" [Byte.x02]; BatchPut "a" [Byte.x01; Byte.x03] []]].

Definition demo_store : MemoryStore := match store_run MemoryStore_new demo_ops with inr s => s | inl _ => MemoryStore_new end.

Lemma delete_range_exact_witness :
  exists s', Store_delete_range demo_store "a" [Byte.x01] [Byte.x01; Byte.x04] = inr s'
    /\ forall k, MemoryStore_rows s' "a" !! k
       = if bool_decide (bytes_le [Byte.x01] k /\ bytes_lt k [Byte.x01; Byte.x04]) then None else MemoryStore_rows demo_store "a" !! k.
Proof.
  destruct (delete_range_exact demo_store "a" [Byte.x01] [Byte.x01; Byte.x04]) as (s' & E & Hk & _).
  exists s'; split; [exact E | exact Hk].
Defined.

Lemma sweep_covers_witness :
  exists pages, sweep_all (S (size (MemoryStore_rows demo_store "a"))) demo_store "a" [Byte.x01] None 2 = inr (Some pages)
    /\ lists (MemoryStore_rows demo_store "a") (fun k => starts_with k [Byte.x01] = true) (concat pages).
Proof.
  destruct (sweep_covers demo_store "a" [Byte.x01] 2 ltac:(lia)) as (pages & E & Hl & _); exists pages; split; [exact E | exact Hl].
Defined.

(** The sweep run: three rows in pages of two. *)
Example sweep_runs :
  sweep_all 4 demo_store "a" [Byte.x01] None 2
  = inr (Some [[([Byte.x01], [Byte.x10]); ([Byte.x01; Byte.x03], [])]; [([Byte.x01; Byte.x05], [Byte.x15])]]).
Proof. vm_compute; reflexivity. Qed.
