(* ===== verification/PassPlane.v ===== *)
(** * How many rewrites run at once ([compaction/pressure.rs])

    [PassPlane] counts the passes under way in one atomic and hands out seats by compare and swap.
    Each thread's turn at the atomic is one step here, so a run is any interleaving of the turns of
    any number of threads, and a weak compare and swap may fail for no reason. *)
From S2P Require Import Prelude Bytes.

(** Where one thread is in [enter], or in a pass it entered. *)
Inductive PassThread :=
| PassOutside
| PassLoaded (running : Z)
| PassSeated.

Record PassPlane := mkPassPlane {
  pl_running : Z;
  pl_width : Z;
  pl_threads : list PassThread;
}.

Definition PassPlane_new (width : Z) (threads : nat) : PassPlane :=
  mkPassPlane 0 (Z.max width 1) (replicate threads PassOutside).

Inductive PassTurn := TurnLoad | TurnSwap (fails : bool) | TurnDrop.

(** One turn of one thread: the load that opens [enter], one round of its loop, or the drop of a
    seat. *)
Definition PassPlane_turn (i : nat) (turn : PassTurn) (p : PassPlane) : option PassPlane :=
  t ← pl_threads p !! i;
  match turn, t with
  | TurnLoad, PassOutside =>
      Some (mkPassPlane (pl_running p) (pl_width p) (<[i := PassLoaded (pl_running p)]> (pl_threads p)))
  | TurnSwap fails, PassLoaded running =>
      if running >=? pl_width p then
        Some (mkPassPlane (pl_running p) (pl_width p) (<[i := PassOutside]> (pl_threads p)))
      else if (pl_running p =? running) && negb fails then
        Some (mkPassPlane (as_u64 (running + 1)) (pl_width p) (<[i := PassSeated]> (pl_threads p)))
      else
        Some (mkPassPlane (pl_running p) (pl_width p) (<[i := PassLoaded (pl_running p)]> (pl_threads p)))
  | TurnDrop, PassSeated =>
      Some (mkPassPlane (as_u64 (pl_running p - 1)) (pl_width p) (<[i := PassOutside]> (pl_threads p)))
  | _, _ => None
  end.

Inductive plane_step : PassPlane -> PassPlane -> Prop :=
| PlaneTurn i turn p p' : PassPlane_turn i turn p = Some p' -> plane_step p p'.

Definition seat_of (t : PassThread) : Z := match t with PassSeated => 1 | _ => 0 end.
Definition seats (l : list PassThread) : Z := fold_right (fun t n => seat_of t + n) 0 l.

(** ** The invariant *)

Record plane_ok (p : PassPlane) : Prop := {
  po_counted : pl_running p = seats (pl_threads p);
  po_width : pl_running p <= pl_width p;
  po_word : pl_width p < U64;
  po_seen : Forall (fun t => match t with PassLoaded n => 0 <= n <= pl_width p | _ => True end) (pl_threads p);
}.

Lemma seats_cons t l : seats (t :: l) = seat_of t + seats l.
Proof. reflexivity. Qed.

Lemma seat_range t : 0 <= seat_of t <= 1.
Proof. destruct t; cbn; lia. Qed.

Lemma seats_nonneg l : 0 <= seats l.
Proof. induction l as [|t l IH]; [done|]; rewrite seats_cons; pose proof (seat_range t); lia. Qed.

Lemma seats_seated l i : l !! i = Some PassSeated -> 1 <= seats l.
Proof.
  revert i; induction l as [|x l IH]; intros [|i] Hi; try done; rewrite seats_cons; cbn [lookup list_lookup] in Hi.
  - injection Hi as ->; pose proof (seats_nonneg l); cbn [seat_of]; lia.
  - specialize (IH i Hi); pose proof (seat_range x); lia.
Qed.

Lemma seats_insert l i t t' : l !! i = Some t -> seats (<[i := t']> l) = seats l - seat_of t + seat_of t'.
Proof.
  revert i; induction l as [|x l IH]; intros [|i] Hi; try done.
  - injection Hi as ->; change (<[0%nat := t']> (t :: l)) with (t' :: l); rewrite !seats_cons; lia.
  - change (<[S i := t']> (x :: l)) with (x :: <[i := t']> l); rewrite !seats_cons, (IH i) by done; lia.
Qed.

Lemma seats_replicate n : seats (replicate n PassOutside) = 0.
Proof. induction n as [|n IH]; [done | exact IH]. Qed.

Lemma plane_new_ok width n : is_u64 width -> plane_ok (PassPlane_new width n).
Proof.
  intros [? ?]; constructor; cbn [PassPlane_new pl_running pl_width pl_threads]; [by rewrite seats_replicate | lia | unfold U64 in *; lia|].
  apply Forall_replicate; done.
Qed.

Lemma plane_turn_ok i turn p p' : plane_ok p -> PassPlane_turn i turn p = Some p' -> plane_ok p'.
Proof.
  intros [Hc Hw Hu Hs] E; unfold PassPlane_turn in E; destruct (pl_threads p !! i) as [t|] eqn:Ht; [| done]; cbn [mbind option_bind] in E.
  pose proof (seats_nonneg (pl_threads p)) as Hn; pose proof (fun t' => seats_insert _ i t t' Ht) as Hins.
  assert (Forall (fun t => match t with PassLoaded n => 0 <= n <= pl_width p | _ => True end) (pl_threads p)) as Hs' by done.
  rewrite Forall_lookup in Hs'; specialize (Hs' i t Ht).
  destruct turn as [|fails|], t as [|running|]; try discriminate; cbn [seat_of] in Hins.
  - injection E as <-; constructor; cbn [pl_running pl_width pl_threads]; [rewrite Hins; cbn; lia | done | done|].
    apply Forall_insert; [done | lia].
  - destruct (running >=? pl_width p) eqn:Ew; [| destruct (_ && _) eqn:Ec]; injection E as <-; b2p;
      constructor; cbn [pl_running pl_width pl_threads]; rewrite ?Hins; cbn [seat_of]; try lia; try done.
    + apply Forall_insert; done.
    + unfold as_u64; rewrite Z.mod_small by lia; lia.
    + unfold as_u64; rewrite Z.mod_small by lia; lia.
    + apply Forall_insert; done.
    + apply Forall_insert; [done | lia].
  - injection E as <-; pose proof (seats_seated _ i Ht) as H1.
    constructor; cbn [pl_running pl_width pl_threads]; rewrite ?Hins; cbn [seat_of]; unfold as_u64; rewrite ?Z.mod_small by lia; try lia; try done.
    apply Forall_insert; done.
Qed.

Lemma plane_reachable_ok p p' : rtc plane_step p p' -> plane_ok p -> plane_ok p'.
Proof. induction 1 as [|x y z [i turn a b E] _ IH]; [done|]; intros Hx; by eapply IH, plane_turn_ok. Qed.

(** C37: however the turns of any number of threads interleave, the passes seated on a plane are never
    more than its width, and the count it keeps is how many there are; a thread is turned away only
    when it saw every seat taken. *)
Theorem plane_never_overfills width n p : is_u64 width -> rtc plane_step (PassPlane_new width n) p ->
  pl_running p = seats (pl_threads p) /\ seats (pl_threads p) <= Z.max width 1
  /\ forall i p' fails seen, pl_threads p !! i = Some (PassLoaded seen) -> PassPlane_turn i (TurnSwap fails) p = Some p' ->
     pl_threads p' !! i = Some PassOutside -> seen = Z.max width 1.
Proof.
  intros Hw Hr; assert (pl_width p = Z.max width 1) as Ew.
  { assert (forall x y, rtc plane_step x y -> pl_width y = pl_width x) as Hk; [| by apply Hk in Hr].
    induction 1 as [|x y z [i turn a b E] _ IH]; [done|]; rewrite IH; unfold PassPlane_turn in E.
    destruct (pl_threads a !! i) as [t|]; [| done]; cbn [mbind option_bind] in E.
    destruct turn, t; try done; repeat destruct (_ : bool); by injection E as <-. }
  destruct (plane_reachable_ok _ _ Hr (plane_new_ok width n Hw)) as [Hc Hle _ Hseen]; split; [done|]; split; [lia|].
  intros i p' fails seen Hi E Hout; rewrite Forall_lookup in Hseen; specialize (Hseen i _ Hi); cbv beta iota in Hseen.
  unfold PassPlane_turn in E; rewrite Hi in E; cbn [mbind option_bind] in E.
  apply lookup_lt_Some in Hi; destruct (seen >=? pl_width p) eqn:Eg; [b2p; lia|].
  destruct (_ && _); injection E as <-; cbn [pl_threads] in Hout; rewrite list_lookup_insert_eq in Hout by done; done.
Qed.

Lemma plane_never_overfills_witness :
  exists p, rtc plane_step (PassPlane_new 1 2) p /\ seats (pl_threads p) = 1
    /\ pl_running p = seats (pl_threads p) /\ seats (pl_threads p) <= Z.max 1 1.
Proof.
  set (p := mkPassPlane 1 1 [PassSeated; PassLoaded 1]).
  assert (rtc plane_step (PassPlane_new 1 2) p) as Hr.
  { do 4 (eapply rtc_l; [first
      [ apply (PlaneTurn 1 TurnLoad (mkPassPlane 0 1 [PassOutside; PassOutside])); reflexivity
      | apply (PlaneTurn 0 TurnLoad (mkPassPlane 0 1 [PassOutside; PassLoaded 0])); reflexivity
      | apply (PlaneTurn 0 (TurnSwap false) (mkPassPlane 0 1 [PassLoaded 0; PassLoaded 0])); reflexivity
      | apply (PlaneTurn 1 (TurnSwap false) (mkPassPlane 1 1 [PassSeated; PassLoaded 0])); reflexivity]|]); apply rtc_refl. }
  exists p; split; [exact Hr|]; split; [reflexivity|].
  destruct (plane_never_overfills 1 2 p ltac:(split; [lia | reflexivity]) Hr) as (H1 & H2 & _); split; [exact H1 | exact H2].
Defined.
