(* ===== verification/Admission.v ===== *)
(** * The bytes a volume lets in flight ([append/admission.rs])

    [InflightBudget] is a semaphore of bytes in four atomics. Each turn of a thread at one of them
    is a step, so a run is any interleaving of the turns of any number of writers, with the
    maintenance tick moving the ceiling between them. A writer that is refused waits outside and
    tries again as a new attempt; the list it waits on is not modelled. The tick's ceiling is a
    parameter of its step: the float product that picks it is not modelled. *)
From S2P Require Import Prelude Bytes.

Definition UNBOUNDED : Z := 0.
Definition DEFAULT_INFLIGHT_BYTES : Z := 512 * 1024 * 1024.

(** Where one writer is: in [try_acquire], or holding what it acquired. *)
Inductive Writer :=
| WriterIdle
| WriterLoaded (bytes held : Z)
| WriterCleared (bytes held : Z)
| WriterAdded (bytes : Z)
| WriterHolding (bytes : Z).

Record InflightBudget := mkInflightBudget {
  ib_ceiling : Z;
  ib_throttled : Z;
  ib_in_flight : Z;
  ib_admitted : Z;
  ib_writers : list Writer;
}.

Definition InflightBudget_new (ceiling : Z) (writers : nat) : InflightBudget :=
  mkInflightBudget ceiling ceiling 0 0 (replicate writers WriterIdle).

Definition InflightBudget_is_bounded (b : InflightBudget) : bool := negb (ib_ceiling b =? UNBOUNDED).

Definition can_admit (throttled in_flight bytes_ : Z) : bool :=
  if in_flight =? 0 then true else as_u64 (in_flight + bytes_) <=? throttled.

(** The tick, where the share it asked for came to this ceiling. *)
Definition InflightBudget_throttle (ceiling : Z) (b : InflightBudget) : InflightBudget :=
  if ib_ceiling b =? UNBOUNDED then b
  else mkInflightBudget (ib_ceiling b) ceiling (ib_in_flight b) (ib_admitted b) (ib_writers b).

Inductive WriterTurn :=
| TurnAcquire (bytes : Z)
| TurnCheck
| TurnExchange (fails : bool)
| TurnNote
| TurnRelease.

Definition set_writer (b : InflightBudget) (in_flight admitted : Z) (i : nat) (w : Writer) : InflightBudget :=
  mkInflightBudget (ib_ceiling b) (ib_throttled b) in_flight admitted (<[i := w]> (ib_writers b)).

(** One turn of one writer: the load or add that opens [try_acquire], the check and the exchange of
    its loop, the count of what it admitted, and the release. *)
Definition InflightBudget_turn (i : nat) (turn : WriterTurn) (b : InflightBudget) : option InflightBudget :=
  w ← ib_writers b !! i;
  match turn, w with
  | TurnAcquire n, WriterIdle =>
      if ib_ceiling b =? UNBOUNDED
      then Some (set_writer b (as_u64 (ib_in_flight b + n)) (ib_admitted b) i (WriterAdded n))
      else Some (set_writer b (ib_in_flight b) (ib_admitted b) i (WriterLoaded n (ib_in_flight b)))
  | TurnCheck, WriterLoaded n held =>
      if negb (can_admit (ib_throttled b) held n)
      then Some (set_writer b (ib_in_flight b) (ib_admitted b) i WriterIdle)
      else Some (set_writer b (ib_in_flight b) (ib_admitted b) i (WriterCleared n held))
  | TurnExchange fails, WriterCleared n held =>
      if (ib_in_flight b =? held) && negb fails
      then Some (set_writer b (as_u64 (held + n)) (ib_admitted b) i (WriterAdded n))
      else Some (set_writer b (ib_in_flight b) (ib_admitted b) i (WriterLoaded n (ib_in_flight b)))
  | TurnNote, WriterAdded n =>
      Some (set_writer b (ib_in_flight b) (as_u64 (ib_admitted b + n)) i (WriterHolding n))
  | TurnRelease, WriterHolding n =>
      Some (set_writer b (as_u64 (ib_in_flight b - n)) (ib_admitted b) i WriterIdle)
  | _, _ => None
  end.

(** Turns that ask for no more than a largest record, and ticks that keep to the ceiling. *)
Inductive budget_step (largest : Z) : InflightBudget -> InflightBudget -> Prop :=
| BudgetTurn i turn b b' : (forall n, turn = TurnAcquire n -> 0 <= n <= largest) ->
    InflightBudget_turn i turn b = Some b' -> budget_step largest b b'
| BudgetTick c b : 0 <= c <= ib_ceiling b -> budget_step largest b (InflightBudget_throttle c b).

Definition outstanding_of (w : Writer) : Z :=
  match w with WriterAdded n | WriterHolding n => n | _ => 0 end.
Definition outstanding (l : list Writer) : Z := fold_right (fun w n => outstanding_of w + n) 0 l.

(** ** The invariant *)

Definition writer_ok (ceiling largest : Z) (w : Writer) : Prop :=
  match w with
  | WriterIdle => True
  | WriterLoaded n held => 0 <= n <= largest /\ 0 <= held <= Z.max ceiling largest
  | WriterCleared n held => 0 <= n <= largest /\ 0 <= held /\ (held = 0 \/ held + n <= ceiling)
  | WriterAdded n | WriterHolding n => 0 <= n <= largest
  end.

Record budget_ok (ceiling largest : Z) (b : InflightBudget) : Prop := {
  bo_ceiling : ib_ceiling b = ceiling;
  bo_throttled : ib_throttled b <= ceiling;
  bo_counted : ib_in_flight b = outstanding (ib_writers b);
  bo_bound : 0 <= ib_in_flight b <= Z.max ceiling largest;
  bo_writers : Forall (writer_ok ceiling largest) (ib_writers b);
}.

Lemma outstanding_cons w l : outstanding (w :: l) = outstanding_of w + outstanding l.
Proof. reflexivity. Qed.

Lemma outstanding_insert l i w w' : l !! i = Some w ->
  outstanding (<[i := w']> l) = outstanding l - outstanding_of w + outstanding_of w'.
Proof.
  revert i; induction l as [|x l IH]; intros [|i] Hi; try done.
  - injection Hi as ->; change (<[0%nat := w']> (w :: l)) with (w' :: l); rewrite !outstanding_cons; lia.
  - change (<[S i := w']> (x :: l)) with (x :: <[i := w']> l); rewrite !outstanding_cons, (IH i) by done; lia.
Qed.

Lemma outstanding_ge ceiling largest l i w : Forall (writer_ok ceiling largest) l -> l !! i = Some w ->
  0 <= outstanding_of w <= outstanding l.
Proof.
  intros Hall; assert (forall l, Forall (writer_ok ceiling largest) l -> 0 <= outstanding l) as Hn.
  { induction 1 as [|x l' Hx _ IH]; [done|]; rewrite outstanding_cons; destruct x; cbn [outstanding_of writer_ok] in *; lia. }
  revert i; induction Hall as [|x l Hx Hall IH]; intros [|i] Hi; try done; rewrite outstanding_cons; specialize (Hn l Hall).
  - injection Hi as ->; destruct w; cbn [outstanding_of writer_ok] in *; lia.
  - specialize (IH i Hi); destruct x; cbn [outstanding_of writer_ok] in *; lia.
Qed.

Section bounded.
Variables ceiling largest : Z.
Hypothesis bounded : 0 < ceiling.
Hypothesis fits : ceiling + largest < U64.
Hypothesis fits_twice : largest + largest < U64.

Lemma budget_turn_ok i turn b b' : (forall n, turn = TurnAcquire n -> 0 <= n <= largest) -> budget_ok ceiling largest b ->
  InflightBudget_turn i turn b = Some b' -> budget_ok ceiling largest b'.
Proof.
  intros Hask [Hceil Hth Hc Hb Hw] E; unfold InflightBudget_turn in E; destruct (ib_writers b !! i) as [w|] eqn:Hi; [| done].
  cbn [mbind option_bind] in E; pose proof (outstanding_ge _ _ _ i w Hw Hi) as Hge; pose proof (fun w' => outstanding_insert _ i w w' Hi) as Hins.
  assert (writer_ok ceiling largest w) as Hok by (rewrite Forall_lookup in Hw; by apply (Hw i)).
  rewrite Hceil in E; unfold UNBOUNDED in E; destruct (Z.eqb_spec ceiling 0) as [|_]; [lia|].
  assert (forall f a w', 0 <= f <= Z.max ceiling largest -> f = outstanding (ib_writers b) - outstanding_of w + outstanding_of w' ->
    writer_ok ceiling largest w' -> budget_ok ceiling largest (set_writer b f a i w')) as Hset.
  { intros f a w' Hf Ef Hw'; constructor; cbn [set_writer ib_ceiling ib_throttled ib_in_flight ib_writers]; try done.
    - by rewrite Hins.
    - by apply Forall_insert. }
  destruct turn as [n'| |fails| |], w as [|n held|n held|n|n]; try discriminate; cbn [outstanding_of writer_ok] in *.
  - injection E as <-; apply Hset; cbn [outstanding_of writer_ok]; [done | lia | split; [by apply Hask | lia]].
  - destruct (can_admit (ib_throttled b) held n) eqn:Ea; cbn [negb] in E; injection E as <-; apply Hset; cbn [outstanding_of writer_ok]; try lia; try done.
    unfold can_admit in Ea; destruct (Z.eqb_spec held 0); [lia|]; unfold as_u64 in Ea; b2p; rewrite Z.mod_small in Ea by lia; lia.
  - destruct (_ && _) eqn:Ee; b2p; injection E as <-; apply Hset; cbn [outstanding_of writer_ok]; unfold as_u64;
      rewrite ?Z.mod_small by lia; lia.
  - injection E as <-; apply Hset; cbn [outstanding_of writer_ok]; lia.
  - injection E as <-; apply Hset; cbn [outstanding_of writer_ok]; unfold as_u64; rewrite ?Z.mod_small by lia; try lia; done.
Qed.

Lemma budget_reachable_ok b b' : rtc (budget_step largest) b b' -> budget_ok ceiling largest b -> budget_ok ceiling largest b'.
Proof.
  induction 1 as [|x y z Hstep _ IH]; [done|]; intros Hx; apply IH; destruct Hstep as [i turn b1 b2 Hask E|c b1 Hc].
  - by eapply budget_turn_ok.
  - destruct Hx as [Hceil Hth Hcn Hb Hw]; unfold InflightBudget_throttle; destruct (_ =? _); constructor; cbn; lia || done.
Qed.

Lemma budget_new_ok n : 0 <= largest -> budget_ok ceiling largest (InflightBudget_new ceiling n).
Proof.
  intros Hl; constructor; cbn [InflightBudget_new ib_ceiling ib_throttled ib_in_flight ib_writers]; try lia.
  - by induction n as [|n IH]; [| cbn [replicate]; rewrite outstanding_cons, <- IH].
  - apply Forall_replicate; done.
Qed.

(** C36: however the turns of any number of writers and the tick interleave, the bytes in flight are
    exactly what the writers hold, and never more than the ceiling, or than one record where that is
    more; and an idle budget lets any record in, so no throttle stalls a writer for good. *)
Theorem budget_bounds_in_flight n b : 0 <= largest -> rtc (budget_step largest) (InflightBudget_new ceiling n) b ->
  ib_in_flight b = outstanding (ib_writers b) /\ 0 <= ib_in_flight b <= Z.max ceiling largest
  /\ (ib_in_flight b = 0 -> forall bytes_, can_admit (ib_throttled b) (ib_in_flight b) bytes_ = true).
Proof.
  intros Hl Hr; destruct (budget_reachable_ok _ _ Hr (budget_new_ok n Hl)) as [_ _ Hc Hb _].
  split_and!; try done; try lia; intros E bytes_; by rewrite E.
Qed.

End bounded.

Lemma budget_bounds_in_flight_witness :
  exists b, rtc (budget_step 700) (InflightBudget_new 1000 2) b /\ ib_in_flight b = 600
    /\ 0 <= ib_in_flight b <= Z.max 1000 700.
Proof.
  set (b := mkInflightBudget 1000 500 600 600 [WriterHolding 600; WriterIdle]).
  assert (rtc (budget_step 700) (InflightBudget_new 1000 2) b) as Hr.
  { eapply rtc_l; [apply (BudgetTurn _ 0 (TurnAcquire 600)); [intros n [= <-]; lia | reflexivity]|].
    eapply rtc_l; [apply (BudgetTurn _ 0 TurnCheck); [done | reflexivity]|].
    eapply rtc_l; [apply (BudgetTurn _ 0 (TurnExchange false)); [done | reflexivity]|].
    eapply rtc_l; [apply (BudgetTick _ 500); cbn; lia|].
    eapply rtc_l; [apply (BudgetTurn _ 0 TurnNote); [done | reflexivity]|].
    eapply rtc_l; [apply (BudgetTurn _ 1 (TurnAcquire 300)); [intros n [= <-]; lia | reflexivity]|].
    eapply rtc_l; [apply (BudgetTurn _ 1 TurnCheck); [done | reflexivity]|]; apply rtc_refl. }
  exists b; split; [exact Hr|]; split; [reflexivity|].
  apply (budget_bounds_in_flight 1000 700 ltac:(lia) ltac:(reflexivity) ltac:(reflexivity) 2 b ltac:(lia) Hr).
Defined.
