(* ===== verification/Arrays.v ===== *)
(** * Fixed arrays

    The slots of a tree's node are arrays of one length for good, with a count of the slots in use
    and fillers behind them. These are the operations the source makes of such an array, each one
    panicking where Rust panics, and what they do to the slots in use. Slots are [nat]. *)
From S2P Require Import Prelude Error.

Section arrays.
Context {A : Type}.
Implicit Types (l a s r : list A) (i n slot : nat).

(** [l[i]] *)
Definition idx l i : res A := must (l !! i).

(** [l[i] = x] *)
Definition set_idx l i (x : A) : res (list A) :=
  if (i <? length l)%nat then Ok (<[i := x]> l) else Panic.

(** [&l[..n]] *)
Definition front l n : res (list A) :=
  if (n <=? length l)%nat then Ok (take n l) else Panic.

(** [&l[from..to]] *)
Definition span l (from to : nat) : res (list A) :=
  if (from <=? to)%nat && (to <=? length l)%nat then Ok (take (to - from) (drop from l)) else Panic.

(** [l[at..at + s.len()].copy_from_slice(s)] *)
Definition copy_in l (at_ : nat) s : res (list A) :=
  if (at_ + length s <=? length l)%nat then Ok (put l at_ s) else Panic.

(** [l.copy_within(from..to, dest)] *)
Definition copy_within l (from to dest : nat) : res (list A) :=
  s ← span l from to; copy_in l dest s.

(** [l[from..to].rotate_right(1)] *)
Definition rotate_right l (from to : nat) : res (list A) :=
  s ← span l from to;
  if (length s <? 1)%nat then Panic
  else copy_in l from (drop (length s - 1) s ++ take (length s - 1) s).

(** [l[from..to].rotate_left(1)] *)
Definition rotate_left l (from to : nat) : res (list A) :=
  s ← span l from to;
  if (length s <? 1)%nat then Panic else copy_in l from (drop 1 s ++ take 1 s).

(** ** Slots in use *)

Lemma idx_Ok l i x : idx l i = Ok x <-> l !! i = Some x.
Proof. apply must_Ok. Qed.

Lemma set_idx_Ok l i x : (i < length l)%nat -> set_idx l i x = Ok (<[i := x]> l).
Proof. intros; unfold set_idx; by destruct (Nat.ltb_spec i (length l)); [| lia]. Qed.

Lemma front_Ok l n : (n <= length l)%nat -> front l n = Ok (take n l).
Proof. intros; unfold front; by destruct (Nat.leb_spec n (length l)); [| lia]. Qed.

Lemma span_Ok l from to : (from <= to <= length l)%nat -> span l from to = Ok (drop from (take to l)).
Proof.
  intros; unfold span; destruct (Nat.leb_spec from to), (Nat.leb_spec to (length l)); try lia; cbn [andb].
  by rewrite skipn_firstn_comm.
Qed.

Lemma copy_in_Ok l at_ s : (at_ + length s <= length l)%nat -> copy_in l at_ s = Ok (put l at_ s).
Proof. intros; unfold copy_in; by destruct (Nat.leb_spec (at_ + length s) (length l)); [| lia]. Qed.

Lemma length_put l at_ s : (at_ + length s <= length l)%nat -> length (put l at_ s) = length l.
Proof. intros; unfold put; rewrite !length_app, length_take, length_drop; lia. Qed.

Lemma take_put l at_ s : (at_ + length s <= length l)%nat -> take (at_ + length s) (put l at_ s) = take at_ l ++ s.
Proof.
  intros; unfold put; rewrite app_assoc; apply take_app_length'; rewrite length_app, length_take; lia.
Qed.

(** An array whose slot was opened for a value still to be written there. *)
Definition opened l slot n l' : Prop :=
  length l' = length l /\ forall x, take (S n) (<[slot := x]> l') = take slot l ++ x :: drop slot (take n l).

(** An array whose slot was closed up. *)
Definition closed l slot n l' : Prop :=
  length l' = length l /\ take (n - 1) l' = take slot l ++ drop (S slot) (take n l).

Lemma put_opened l slot n z : (slot <= n < length l)%nat ->
  opened l slot n (put l slot (z :: drop slot (take n l))).
Proof.
  intros H; assert (length (drop slot (take n l)) = (n - slot)%nat) as Hd by (rewrite length_drop, length_take; lia).
  split; [apply length_put; cbn [length]; rewrite Hd; lia|]; intros x.
  unfold put; rewrite insert_app_r_alt by (rewrite length_take; lia).
  rewrite length_take, Nat.min_l, Nat.sub_diag by lia; cbn [app insert list_insert].
  rewrite (app_comm_cons _ _ x), app_assoc; apply take_app_length'.
  rewrite length_app, length_take; cbn [length]; rewrite Hd; lia.
Qed.

Lemma copy_within_opens l slot n : (slot <= n < length l)%nat ->
  exists l', copy_within l slot n (S slot) = Ok l' /\ opened l slot n l'.
Proof.
  intros H; destruct (lookup_lt_is_Some_2 l slot) as [z Hz]; [lia|].
  unfold copy_within; rewrite span_Ok by lia; res_simpl.
  rewrite copy_in_Ok by (rewrite length_drop, length_take; lia); eexists; split; [done|].
  replace (put l (S slot) _) with (put l slot (z :: drop slot (take n l))); [by apply put_opened|].
  unfold put; rewrite (take_S_r l slot z Hz), <- app_assoc; cbn [app length].
  by replace (slot + S (length (drop slot (take n l))))%nat with (S slot + length (drop slot (take n l)))%nat by lia.
Qed.

Lemma rotate_right_opens l slot n : (slot <= n < length l)%nat ->
  exists l', rotate_right l slot (S n) = Ok l' /\ opened l slot n l'.
Proof.
  intros H; destruct (lookup_lt_is_Some_2 l n) as [y Hy]; [lia|].
  unfold rotate_right; rewrite span_Ok by lia; res_simpl; set (s := drop slot (take (S n) l)).
  assert (s = drop slot (take n l) ++ [y]) as Es.
  { subst s; rewrite (take_S_r l n y Hy), drop_app_le by (rewrite length_take; lia); done. }
  rewrite Es, length_app; cbn [length]; destruct (Nat.ltb_spec (length (drop slot (take n l)) + 1) 1); [lia|].
  rewrite Nat.add_sub, drop_app_length, take_app_length; cbn [app].
  rewrite copy_in_Ok by (cbn [length]; rewrite length_drop, length_take; lia).
  eexists; split; [done | by apply put_opened].
Qed.

Lemma put_closed l slot n s : (slot < n <= length l)%nat -> length s = (n - slot)%nat ->
  take (n - slot - 1) s = drop (S slot) (take n l) -> closed l slot n (put l slot s).
Proof.
  intros H Hs E; split; [apply length_put; lia|]; rewrite <- E; unfold put.
  rewrite take_app_ge by (rewrite length_take; lia); f_equal; rewrite length_take, Nat.min_l by lia.
  rewrite take_app_le by lia; f_equal; lia.
Qed.

Lemma copy_within_closes l slot n : (slot < n <= length l)%nat ->
  exists l', copy_within l (S slot) n slot = Ok l' /\ closed l slot n l'.
Proof.
  intros H; destruct (lookup_lt_is_Some_2 l (n - 1)) as [z Hz]; [lia|].
  unfold copy_within; rewrite span_Ok by lia; res_simpl; set (s := drop (S slot) (take n l)).
  assert (length s = (n - slot - 1)%nat) as Hs by (subst s; rewrite length_drop, length_take; lia).
  rewrite copy_in_Ok by lia; eexists; split; [done|].
  replace (put l slot s) with (put l slot (s ++ [z])).
  { apply put_closed; [lia | rewrite length_app; cbn [length]; lia |]; rewrite take_app_le by lia.
    rewrite take_ge by lia; done. }
  unfold put; rewrite length_app, <- app_assoc; cbn [length app]; do 2 f_equal.
  replace (slot + length s)%nat with (n - 1)%nat by lia; replace (slot + (length s + 1))%nat with (S (n - 1)) by lia.
  symmetry; by apply drop_S.
Qed.

Lemma rotate_left_closes l slot n : (slot < n <= length l)%nat ->
  exists l', rotate_left l slot n = Ok l' /\ closed l slot n l'.
Proof.
  intros H; unfold rotate_left; rewrite span_Ok by lia; res_simpl; set (s := drop slot (take n l)).
  assert (length s = (n - slot)%nat) as Hs by (subst s; rewrite length_drop, length_take; lia).
  destruct (Nat.ltb_spec (length s) 1); [lia|].
  rewrite copy_in_Ok by (rewrite length_app, length_drop, length_take; lia); eexists; split; [done|].
  apply put_closed; [lia | rewrite length_app, length_drop, length_take; lia |].
  rewrite take_app_le by (rewrite length_drop; lia); rewrite take_ge by (rewrite length_drop; lia).
  subst s; by rewrite drop_drop, Nat.add_1_r.
Qed.

End arrays.
