(* ===== verification/TreeKey.v ===== *)
(** * Keys of the index tree ([index/tbtreemap.rs])

    The traits [TreeKey] and [LeadWindow] as classes, the two windows a node searches through, the
    scans that count a node's leads, and the key types. A key and the probe that borrows it are one
    value here. What the tree relies on is the class [TreeKeyLaws]; every key type keeps it. *)
From S2P Require Import Prelude Error Arrays Bytes.

(** The edge a probe takes when a node's window puts it outside the node. *)
Inductive Place := Below | Above.

(** [Result<u64, Place>] *)
Inductive Placed := Word (word : Z) | Edge (place : Place).

Class LeadWindow (K W : Type) := {
  window_default : W;
  window_lead : W -> K -> Z;
  window_word : W -> K -> Placed;
  window_tune : W -> list K -> W * bool;
}.

Class TreeKey (K : Type) := {
  Window : Type;
  key_window :: LeadWindow K Window;
  key_cmp : K -> K -> comparison;
  filler : K;
  head : K -> Z;
  key_open : list K -> nat -> nat -> res (list K);
  key_close : list K -> nat -> nat -> res (list K);
  key_hand_over : list K -> list K -> nat -> nat -> res (list K * list K);
  separator : K -> K -> K * bool;
}.

(** The trait's own methods: a slot opens and closes by rotation, and a run moves key by key. *)
Definition TreeKey_open {K} (keys : list K) (slot n : nat) : res (list K) := rotate_right keys slot (S n).
Definition TreeKey_close {K} (keys : list K) (slot n : nat) : res (list K) := rotate_left keys slot n.
Definition TreeKey_hand_over {K} (filler : K) (from to : list K) (at_ count : nat) : res (list K * list K) :=
  foldm (fun '(from, to) step =>
    moved ← idx from (at_ + step);
    from ← set_idx from (at_ + step) filler;
    to ← set_idx to step moved;
    Ok (from, to)) (seq 0 count) (from, to).

(** The forms a key that is plain bytes replaces them with. *)
Definition array_open {K} (keys : list K) (slot n : nat) : res (list K) := copy_within keys slot n (slot + 1).
Definition array_close {K} (keys : list K) (slot n : nat) : res (list K) := copy_within keys (slot + 1) n slot.
Definition array_hand_over {K} (from to : list K) (at_ count : nat) : res (list K * list K) :=
  s ← span from at_ (at_ + count); to ← copy_in to 0 s; Ok (from, to).

(** ** The window for numbers *)

Section whole.
Context {K : Type} (head_of : K -> Z).

Definition Whole_lead (probe : K) : Z := head_of probe.
Definition Whole_word (probe : K) : Placed := Word (head_of probe).
Definition Whole_tune (w : unit) (held : list K) : unit * bool := (w, false).

End whole.

(** ** The window for bytes *)

Definition SHARED_CAP : nat := 128.

Record Shared := mkShared { sh_off : nat; sh_pre : bytes }.

Fixpoint against_bytes (probe pre : bytes) : comparison :=
  match probe, pre with
  | held :: probe, want :: pre => if bool_decide (held = want) then against_bytes probe pre else u8 held ?= u8 want
  | _, _ => Eq
  end.

(** A word at a time while eight bytes are left. *)
Fixpoint against_words (fuel : nat) (probe pre : bytes) : comparison :=
  match fuel with
  | O => against_bytes probe pre
  | S fuel =>
      if (8 <=? length probe)%nat then
        let held := be_val (take 8 probe) in
        let want := be_val (take 8 pre) in
        if negb (held =? want) then held ?= want else against_words fuel (drop 8 probe) (drop 8 pre)
      else against_bytes probe pre
  end.

Definition against (probe pre : bytes) : comparison := against_words (length probe) probe pre.

(** [take_while(|(a, b)| a == b).count()] *)
Fixpoint agreed_from (ls rs : bytes) : nat :=
  match ls, rs with
  | a :: ls, b :: rs => if bool_decide (a = b) then S (agreed_from ls rs) else O
  | _, _ => O
  end.

Section shared.
Variable CAP : nat.

Definition Shared_default : Shared := mkShared 0 (zeros CAP).

Definition agreed (left right : bytes) : nat :=
  let cut := Nat.min (Nat.min (length left) (length right)) CAP in
  agreed_from (take cut left) (take cut right).

Definition Shared_at_window (w : Shared) (probe : bytes) : Z :=
  let at_ := sh_off w in
  let wide := zeros 8 in
  be_val (if (at_ + 8 <=? length probe)%nat then put wide 0 (take 8 (drop at_ probe))
          else if (at_ <? length probe)%nat then put wide 0 (drop at_ probe)
          else wide).

(** [Result<(), Place>]: nothing, or the edge the probe takes. *)
Definition Shared_inside (w : Shared) (probe : bytes) : option Place :=
  let at_ := sh_off w in
  if (at_ =? 0)%nat then None else
  let cut := Nat.min at_ (length probe) in
  match against (take cut probe) (take cut (sh_pre w)) with
  | Lt => Some Below
  | Gt => Some Above
  | Eq => if (length probe <? at_)%nat then Some Below else None
  end.

Definition Shared_lead (w : Shared) (probe : bytes) : Z := Shared_at_window w probe.

Definition Shared_word (w : Shared) (probe : bytes) : Placed :=
  match Shared_inside w probe with
  | Some place => Edge place
  | None => Word (Shared_at_window w probe)
  end.

(** The loop over the entries past the first, which stops under eight. *)
Fixpoint tune_shared (first : bytes) (held : list bytes) (shared : nat) : nat :=
  match held with
  | [] => shared
  | next :: held =>
      let shared := Nat.min shared (agreed first next) in
      if (shared <? 8)%nat then shared else tune_shared first held shared
  end.

Definition Shared_tune (w : Shared) (held : list bytes) : Shared * bool :=
  match held with
  | [] => (w, false)
  | first :: held =>
      let shared := tune_shared first held (Nat.min (length first) CAP) in
      let shared := if (shared <? 8)%nat then 0%nat else shared in
      if (shared =? sh_off w)%nat && bytes_eqb (take shared (sh_pre w)) (take shared first) then (w, false)
      else (mkShared (Z.to_nat (as_u16 (Z.of_nat shared))) (put (sh_pre w) 0 (take shared first)), true)
  end.

#[local] Instance Shared_window : LeadWindow bytes Shared := {|
  window_default := Shared_default;
  window_lead := Shared_lead;
  window_word := Shared_word;
  window_tune := Shared_tune;
|}.

End shared.

(** ** The key types *)

(** Where two runs of bytes first differ. *)
Fixpoint first_differs (ls rs : bytes) : option nat :=
  match ls, rs with
  | low :: ls, high :: rs => if bool_decide (low = high) then S <$> first_differs ls rs else Some O
  | _, _ => None
  end.

(** [[u8; N]] *)
Section array_key.
Variable N : nat.

Definition array_head (probe : bytes) : Z :=
  let keep := if (N <? 8)%nat then N else 8%nat in
  be_val (put (zeros 8) 0 (take keep probe)).

Definition array_separator (left right : bytes) : bytes * bool :=
  let keep := match first_differs left right with Some at_ => (at_ + 1)%nat | None => N end in
  (put (zeros N) 0 (take keep right), true).

Definition array_key : TreeKey bytes := {|
  Window := Shared;
  key_window := Shared_window N;
  key_cmp := bytes_cmp;
  filler := zeros N;
  head := array_head;
  key_open := array_open;
  key_close := array_close;
  key_hand_over := array_hand_over;
  separator := array_separator;
|}.

End array_key.

(** [Box<[u8]>] *)
Definition boxed_head (probe : bytes) : Z :=
  let keep := Nat.min (length probe) 8 in
  be_val (put (zeros 8) 0 (take keep probe)).

Definition boxed_separator (left right : bytes) : bytes * bool :=
  let keep := (default (length left) (first_differs left right) + 1)%nat in
  (take (Nat.min keep (length right)) right, true).

Definition boxed_key : TreeKey bytes := {|
  Window := Shared;
  key_window := Shared_window SHARED_CAP;
  key_cmp := bytes_cmp;
  filler := [];
  head := boxed_head;
  key_open := TreeKey_open;
  key_close := TreeKey_close;
  key_hand_over := TreeKey_hand_over [];
  separator := boxed_separator;
|}.

(** [u64] and [u32], each its own lead. *)
Definition number_head (probe : Z) : Z := probe.
Definition number_separator (left right : Z) : Z * bool := (right, false).

Definition number_key : TreeKey Z := {|
  Window := unit;
  key_window := {| window_default := tt; window_lead := fun _ => Whole_lead number_head;
                   window_word := fun _ => Whole_word number_head; window_tune := Whole_tune |};
  key_cmp := Z.compare;
  filler := 0;
  head := number_head;
  key_open := TreeKey_open;
  key_close := TreeKey_close;
  key_hand_over := TreeKey_hand_over 0;
  separator := number_separator;
|}.

(** ** Node widths *)

Definition NODE_BUDGET : nat := 1024.
Definition MIN_NODE_WIDTH : nat := 16.
Definition MAX_NODE_WIDTH : nat := 64.

Definition node_width (key_bytes : nat) : nat :=
  let key := match key_bytes with O => 1%nat | held => held end in
  let wide := (NODE_BUDGET / key)%nat in
  if (wide <? MIN_NODE_WIDTH)%nat then MIN_NODE_WIDTH
  else if (MAX_NODE_WIDTH <? wide)%nat then MAX_NODE_WIDTH
  else wide.

(** ** Counting leads *)

Inductive Scan := Avx512 | Avx2 | Scalar.

Definition count_scalar (leads : list Z) (want : Z) : nat :=
  length (List.filter (fun held => held <? want) leads).

(** [chunks_exact(lane)]: a count per whole lane, and the remainder by the plain scan. *)
Fixpoint count_chunks (fuel lane : nat) (mask : list Z -> list bool) (leads : list Z) (want : Z) (below : nat) : nat :=
  match fuel with
  | O => below + count_scalar leads want
  | S fuel =>
      if (lane <=? length leads)%nat then
        count_chunks fuel lane mask (drop lane leads) want
          (below + length (List.filter id (mask (take lane leads))))
      else below + count_scalar leads want
  end%nat.

(** [_mm512_cmplt_epu64_mask], a bit a lane. *)
Definition mask_avx512 (want : Z) (lane : list Z) : list bool := map (fun held => held <? want) lane.

Definition count_avx512 (leads : list Z) (want : Z) : nat :=
  count_chunks (length leads) 8 (mask_avx512 want) leads want 0.

Definition BIAS : Z := I64_HALF.

(** [_mm256_cmpgt_epi64] of the biased lanes, the sign bits of which [_mm256_movemask_pd] takes. *)
Definition mask_avx2 (want : Z) (lane : list Z) : list bool :=
  map (fun held => as_i64 (Z.lxor want BIAS) >? as_i64 (Z.lxor held BIAS)) lane.

Definition count_avx2 (leads : list Z) (want : Z) : nat :=
  count_chunks (length leads) 4 (mask_avx2 want) leads want 0.

Definition count_below (scan : Scan) (leads : list Z) (want : Z) : nat :=
  match scan with
  | Avx512 => count_avx512 leads want
  | Avx2 => count_avx2 leads want
  | Scalar => count_scalar leads want
  end.

(** ** What the tree relies on *)

Definition key_lt {K} `{TreeKey K} (a b : K) : Prop := key_cmp a b = Lt.
Definition key_le {K} `{TreeKey K} (a b : K) : Prop := key_cmp a b <> Gt.

(** The keys a node holds are well formed and inside its window: there its leads are in key order,
    and a probe outside is on the side its edge says. A separator falls between its neighbours, and
    a key type that does not keep it whole has leads that are the key. *)
Class TreeKeyLaws (K : Type) `{TreeKey K} := {
  key_wf : K -> Prop;
  window_ok : Window -> Prop;
  inside : Window -> K -> Prop;
  whole : bool;
  key_cmp_eq a b : key_cmp a b = Eq <-> a = b;
  key_cmp_antisym a b : key_cmp b a = CompOpp (key_cmp a b);
  key_lt_trans a b c : key_lt a b -> key_lt b c -> key_lt a c;
  default_ok : window_ok window_default;
  default_inside k : inside window_default k;
  default_lead k : key_wf k -> window_lead window_default k = head k;
  lead_u64 w k : key_wf k -> is_u64 (window_lead w k);
  word_lead w k word : window_ok w -> window_word w k = Word word <-> inside w k /\ word = window_lead w k;
  lead_mono w a b : inside w a -> inside w b -> window_lead w a < window_lead w b -> key_lt a b;
  word_below w p k : window_ok w -> window_word w p = Edge Below -> inside w k -> key_lt p k;
  word_above w p k : window_ok w -> window_word w p = Edge Above -> inside w k -> key_lt k p;
  tune_nil w : window_tune w [] = (w, false);
  tune_ok w held : window_ok w -> window_ok (window_tune w held).1 /\ Forall (inside (window_tune w held).1) held;
  tune_same w held : (window_tune w held).2 = false -> (window_tune w held).1 = w;
  separator_between l r : key_wf l -> key_wf r -> key_lt l r ->
    key_wf (separator l r).1 /\ key_lt l (separator l r).1 /\ key_le (separator l r).1 r /\ (separator l r).2 = whole;
  lead_exact w a b : whole = false -> inside w a /\ window_lead w a = head a /\ (window_lead w a = window_lead w b -> a = b);
  open_ok keys slot n : (slot <= n < length keys)%nat ->
    exists keys', key_open keys slot n = Ok keys' /\ opened keys slot n keys';
  close_ok keys slot n : (slot < n <= length keys)%nat ->
    exists keys', key_close keys slot n = Ok keys' /\ closed keys slot n keys';
  hand_over_ok from to at_ count : (at_ + count <= length from)%nat -> (count <= length to)%nat ->
    exists from' to', key_hand_over from to at_ count = Ok (from', to')
      /\ length from' = length from /\ length to' = length to
      /\ take at_ from' = take at_ from /\ take count to' = take count (drop at_ from);
}.

(** ** The windows keep their laws *)

Lemma bytes_cmp_app_eq a b c d : length a = length b ->
  bytes_cmp (a ++ c) (b ++ d) = match bytes_cmp a b with Eq => bytes_cmp c d | r => r end.
Proof.
  revert b; induction a as [|x a IH]; intros [|y b] Hl; try done; cbn [app bytes_cmp].
  destruct (u8 x ?= u8 y); [apply IH; by injection Hl | done | done].
Qed.

Lemma against_bytes_cmp probe pre : length probe = length pre -> against_bytes probe pre = bytes_cmp probe pre.
Proof.
  revert pre; induction probe as [|x a IH]; intros [|y b] Hl; try done; cbn [against_bytes bytes_cmp].
  case_bool_decide as E; [subst; rewrite Z.compare_refl; apply IH; by injection Hl|].
  destruct (u8 x ?= u8 y) eqn:Ec; [| done | done]; by apply Z.compare_eq, u8_inj in Ec.
Qed.

Lemma against_cmp probe pre : length probe = length pre -> against probe pre = bytes_cmp probe pre.
Proof.
  unfold against; generalize (length probe) at 2 as fuel; intros fuel; revert probe pre.
  induction fuel as [|fuel IH]; intros a b Hl; cbn [against_words]; [by apply against_bytes_cmp|].
  destruct (Nat.leb_spec 8 (length a)); [| by apply against_bytes_cmp].
  assert (length (take 8 a) = length (take 8 b)) as Ht by (rewrite !length_take; lia).
  rewrite <- (take_drop 8 a) at 4; rewrite <- (take_drop 8 b) at 4; rewrite (bytes_cmp_app_eq _ _ _ _ Ht).
  assert (len (take 8 a) = len (take 8 b)) as Hz by (unfold len; lia); rewrite <- (be_val_cmp _ _ Hz).
  destruct (Z.eqb_spec (be_val (take 8 a)) (be_val (take 8 b))) as [E|E]; cbn [negb].
  - rewrite E, Z.compare_refl; apply IH; rewrite !length_drop; lia.
  - destruct (be_val (take 8 a) ?= be_val (take 8 b)) eqn:Ec; [by apply Z.compare_eq in Ec | done | done].
Qed.

Lemma put_padded bs : (length bs <= 8)%nat -> put (zeros 8) 0 bs = zero_padded 8 bs.
Proof.
  intros Hl; unfold put, zero_padded; rewrite take_0, app_nil_l; rewrite Nat.add_0_l.
  rewrite take_app_ge by lia; f_equal; unfold zeros; rewrite drop_replicate, take_replicate; f_equal; lia.
Qed.

Lemma zero_padded_take n k bs : (n <= k)%nat -> zero_padded n (take k bs) = zero_padded n bs.
Proof.
  intros Hk; unfold zero_padded; destruct (Nat.le_gt_cases (length bs) k); [by rewrite (take_ge bs k) by lia|].
  rewrite !take_app_le by (rewrite ?length_take; lia); rewrite take_take; f_equal; lia.
Qed.

Lemma at_window_padded w k : Shared_at_window w k = be_val (zero_padded 8 (drop (sh_off w) k)).
Proof.
  unfold Shared_at_window; f_equal; destruct (Nat.leb_spec (sh_off w + 8) (length k)) as [H8|H8].
  { rewrite put_padded by (rewrite length_take; lia); by apply zero_padded_take. }
  destruct (Nat.ltb_spec (sh_off w) (length k)) as [Hlt|Hlt]; [by apply put_padded; rewrite length_drop; lia|].
  by rewrite drop_ge, zero_padded_nil by lia.
Qed.

Lemma padded_u64 bs : is_u64 (be_val (zero_padded 8 bs)).
Proof. pose proof (be_val_range (zero_padded 8 bs)) as R; rewrite len_zero_padded in R; exact R. Qed.

Lemma padded_mono a b : be_val (zero_padded 8 a) < be_val (zero_padded 8 b) -> bytes_lt a b.
Proof.
  intros Hlt; apply bytes_nle_lt; intros Hle; apply (zero_padded_mono 8) in Hle; apply Hle.
  rewrite <- be_val_cmp by (rewrite !len_zero_padded; done); by apply Z.compare_gt_iff.
Qed.

Definition Shared_holds (w : Shared) (k : bytes) : Prop :=
  sh_off w = 0%nat \/ ((sh_off w <= length k)%nat /\ take (sh_off w) k = take (sh_off w) (sh_pre w)).
Definition Shared_ok (w : Shared) : Prop := (sh_off w <= length (sh_pre w))%nat.

(** How a probe cut to the window compares with a key inside it. *)
Lemma window_cmp w p k : Shared_ok w -> sh_off w <> 0%nat -> Shared_holds w k ->
  let cut := Nat.min (sh_off w) (length p) in
  match against (take cut p) (take cut (sh_pre w)) with
  | Lt => bytes_lt p k
  | Gt => bytes_lt k p
  | Eq => (length p < sh_off w)%nat -> bytes_lt p k
  end.
Proof.
  intros Hok Hnz Hk cut; destruct Hk as [?|[Hl E]]; [done|]; unfold Shared_ok in Hok.
  assert (length (take cut p) = length (take cut (sh_pre w))) as Hc by (rewrite !length_take; lia).
  rewrite (against_cmp _ _ Hc).
  assert (take cut (sh_pre w) = take cut k) as Ek.
  { rewrite <- (Nat.min_l cut (sh_off w)) at 1 2 by lia; by rewrite <- !take_take, E. }
  rewrite Ek in *.
  assert (bytes_cmp p k = match bytes_cmp (take cut p) (take cut k) with Eq => bytes_cmp (drop cut p) (drop cut k) | r => r end)
    as Ecmp by (by rewrite <- (bytes_cmp_app_eq _ _ _ _ Hc), !take_drop).
  destruct (bytes_cmp (take cut p) (take cut k)) eqn:Ecut.
  - intros Hs; unfold bytes_lt; rewrite Ecmp, (drop_ge p) by lia.
    destruct (drop cut k) eqn:Ed; [| done]; apply (f_equal length) in Ed; rewrite length_drop in Ed; cbn in Ed; lia.
  - exact Ecmp.
  - by apply bytes_cmp_gt.
Qed.

Lemma Shared_inside_holds w k : Shared_ok w -> Shared_inside w k = None <-> Shared_holds w k.
Proof.
  intros Hok; unfold Shared_inside, Shared_holds; destruct (Nat.eqb_spec (sh_off w) 0) as [?|Hnz]; [naive_solver|].
  split.
  - destruct (Nat.ltb_spec (length k) (sh_off w)); [by destruct (against _ _)|].
    rewrite Nat.min_l by lia; rewrite against_cmp by (unfold Shared_ok in Hok; rewrite !length_take; lia).
    destruct (bytes_cmp _ _) eqn:E; [| done | done]; right; split; [lia | by apply bytes_cmp_eq].
  - intros [?|[Hl E]]; [done|]; rewrite Nat.min_l by lia; rewrite E, against_cmp, bytes_cmp_refl by done.
    by destruct (Nat.ltb_spec (length k) (sh_off w)); [lia|].
Qed.

Lemma Shared_word_spec w k word : Shared_ok w ->
  Shared_word w k = Word word <-> Shared_holds w k /\ word = Shared_lead w k.
Proof.
  intros Hok; rewrite <- Shared_inside_holds by done; unfold Shared_word, Shared_lead.
  destruct (Shared_inside w k); naive_solver.
Qed.

Lemma Shared_word_edge w p k place : Shared_ok w -> Shared_word w p = Edge place -> Shared_holds w k ->
  match place with Below => bytes_lt p k | Above => bytes_lt k p end.
Proof.
  intros Hok; unfold Shared_word, Shared_inside.
  destruct (Nat.eqb_spec (sh_off w) 0) as [?|Hnz]; [done|]; intros E Hk.
  pose proof (window_cmp w p k Hok Hnz Hk) as Hc; cbv zeta in Hc.
  destruct (against _ _); [| by injection E as <- | by injection E as <-].
  destruct (Nat.ltb_spec (length p) (sh_off w)); [| done]; injection E as <-; auto.
Qed.

Lemma Shared_lead_mono w a b : Shared_holds w a -> Shared_holds w b -> Shared_lead w a < Shared_lead w b -> bytes_lt a b.
Proof.
  unfold Shared_lead; rewrite !at_window_padded; intros Ha Hb Hlt%padded_mono.
  destruct Ha as [E|[Hla Ea]]; [by rewrite E in Hlt|]; destruct Hb as [E|[Hlb Eb]]; [by rewrite E in Hlt|].
  unfold bytes_lt in *; rewrite <- (take_drop (sh_off w) a), <- (take_drop (sh_off w) b), Ea, Eb; by rewrite bytes_cmp_app.
Qed.

Lemma agreed_from_take a b n : (n <= agreed_from a b)%nat ->
  (n <= length a)%nat /\ (n <= length b)%nat /\ take n a = take n b.
Proof.
  revert b n; induction a as [|x a IH]; intros [|y b] n; cbn [agreed_from]; try (intros ->%Nat.le_0_r; cbn; by auto with lia).
  case_bool_decide as E; [| intros ->%Nat.le_0_r; cbn; by auto with lia].
  subst; destruct n as [|n]; [cbn; auto with lia|]; intros Hn%le_S_n; apply IH in Hn as (? & ? & E).
  cbn [length firstn]; split_and!; [lia | lia | by f_equal].
Qed.

Lemma agreed_take CAP a b n : (n <= agreed CAP a b)%nat ->
  (n <= length b)%nat /\ take n a = take n b.
Proof.
  unfold agreed; set (cut := Nat.min _ _); intros (Ha & Hb & E)%agreed_from_take.
  rewrite length_take in Ha, Hb; rewrite !take_take, !(Nat.min_l n cut) in E by lia; split; [lia | done].
Qed.

Lemma tune_shared_spec CAP first held shared : let s := tune_shared CAP first held shared in
  (s <= shared)%nat /\ ((8 <= s)%nat -> Forall (fun next => (s <= length next)%nat /\ take s next = take s first) held).
Proof.
  revert shared; induction held as [|next held IH]; intros shared; cbn [tune_shared]; [split; [lia | constructor]|].
  set (m := Nat.min shared (agreed CAP first next)); destruct (Nat.ltb_spec m 8); [split; [lia | intros; lia]|].
  destruct (IH m) as [Hle Hf]; split; [lia|]; intros H8; constructor; [| auto].
  destruct (agreed_take CAP first next (tune_shared CAP first held m)) as [? ?]; [lia | by split].
Qed.

Lemma Shared_tune_ok CAP w held : Z.of_nat CAP < U16 -> Shared_ok w /\ length (sh_pre w) = CAP ->
  let w' := (Shared_tune CAP w held).1 in
  (Shared_ok w' /\ length (sh_pre w') = CAP) /\ Forall (Shared_holds w') held.
Proof.
  intros HC [Hok Hl]; destruct held as [|first held]; [by repeat split|]; unfold Shared_tune.
  destruct (tune_shared_spec CAP first held (Nat.min (length first) CAP)) as [Hle Hf].
  set (s0 := tune_shared _ _ _ _) in *; set (s := if (s0 <? 8)%nat then 0%nat else s0).
  assert (s = 0%nat \/ ((s <= length first)%nat /\ (s <= CAP)%nat
    /\ Forall (fun next => (s <= length next)%nat /\ take s next = take s first) held)) as Hs.
  { subst s; destruct (Nat.ltb_spec s0 8); [by left | right]; split_and!; [lia | lia | by apply Hf]. }
  destruct (Nat.eqb_spec s (sh_off w)) as [Eo|_]; [destruct (bytes_eqb _ _) eqn:Eb|]; cbn [andb fst].
  { apply bytes_eqb_eq in Eb; split; [done|]; unfold Shared_holds; rewrite <- Eo, Eb.
    destruct Hs as [->|(? & ? & H)]; [constructor; [by left | apply Forall_true; by left]|].
    constructor; [by right|]; eapply Forall_impl; [exact H|]; by right. }
  all: assert ((s <= CAP)%nat) by (destruct Hs as [->|(?&?&?)]; lia).
  all: assert (Z.to_nat (as_u16 (Z.of_nat s)) = s) as Es by (rewrite as_u16_small by (unfold is_u16, U16 in *; lia); lia).
  all: assert (length (take s first) = s) as Ht by (rewrite length_take; destruct Hs as [->|(?&?&?)]; lia).
  all: unfold Shared_ok, Shared_holds; cbn [sh_off sh_pre]; rewrite Es.
  all: assert (length (put (sh_pre w) 0 (take s first)) = CAP) as -> by
    (unfold put; rewrite take_0, app_nil_l; rewrite length_app, length_drop; lia).
  all: assert (take s (put (sh_pre w) 0 (take s first)) = take s first) as -> by
    (unfold put; rewrite take_0, app_nil_l; rewrite <- Ht at 1; apply take_app_length).
  all: split; [split; lia|]; destruct Hs as [->|(? & ? & H')]; [constructor; [by left | apply Forall_true; by left]|].
  all: constructor; [by right|]; eapply Forall_impl; [exact H'|]; by right.
Qed.

Lemma Shared_tune_same CAP w held : (Shared_tune CAP w held).2 = false -> (Shared_tune CAP w held).1 = w.
Proof. unfold Shared_tune; destruct held; [done|]; by destruct (_ && _). Qed.

(** ** Separators *)

Lemma first_differs_spec ls rs :
  match first_differs ls rs with
  | Some d => exists c x ls' y rs', ls = c ++ x :: ls' /\ rs = c ++ y :: rs' /\ x <> y /\ d = length c
  | None => ls `prefix_of` rs \/ rs `prefix_of` ls
  end.
Proof.
  revert rs; induction ls as [|x ls IH]; intros [|y rs]; cbn [first_differs]; try (left; apply prefix_nil); try (right; apply prefix_nil).
  case_bool_decide as E; [subst | by exists [], x, ls, y, rs].
  specialize (IH rs); destruct (first_differs ls rs) as [d|]; cbn.
  - destruct IH as (c & x & ls' & y' & rs' & -> & -> & ? & ->); by exists (y :: c), x, ls', y', rs'.
  - destruct IH; [left | right]; by apply prefix_cons.
Qed.

Lemma bytes_cmp_cons_lt c x a y b : x <> y -> bytes_lt (c ++ x :: a) (c ++ y :: b) -> u8 x < u8 y.
Proof.
  unfold bytes_lt; rewrite bytes_cmp_app; cbn [bytes_cmp]; intros Hne.
  destruct (u8 x ?= u8 y) eqn:E; [by apply Z.compare_eq, u8_inj in E | by intros; apply Z.compare_lt_iff | done].
Qed.

Lemma bytes_lt_differ c x a y b : u8 x < u8 y -> bytes_lt (c ++ x :: a) (c ++ y :: b).
Proof. intros H; unfold bytes_lt; rewrite bytes_cmp_app; cbn [bytes_cmp]; by apply Z.compare_lt_iff in H as ->. Qed.

Lemma bytes_prefix_le a b : bytes_le a (a ++ b).
Proof. unfold bytes_le; rewrite <- (app_nil_r a) at 1; rewrite bytes_cmp_app; by destruct b. Qed.

Lemma take_snoc_middle {A} (c : list A) y r : take (length c + 1) (c ++ y :: r) = c ++ [y].
Proof. rewrite take_app_ge by lia; f_equal; by replace (length c + 1 - length c)%nat with 1%nat by lia. Qed.

Lemma array_separator_between N l r : length l = N -> length r = N -> bytes_lt l r ->
  let s := (array_separator N l r).1 in length s = N /\ bytes_lt l s /\ bytes_le s r.
Proof.
  intros Hl Hr Hlt; unfold array_separator; pose proof (first_differs_spec l r) as Hd.
  destruct (first_differs l r) as [d|].
  - destruct Hd as (c & x & l' & y & r' & -> & -> & Hne & ->); apply bytes_cmp_cons_lt in Hlt; [| done].
    rewrite length_app in Hl, Hr; cbn [length] in Hl, Hr; cbn [fst].
    rewrite take_snoc_middle.
    assert (put (zeros N) 0 (c ++ [y]) = c ++ y :: zeros (length r')) as ->.
    { unfold put; rewrite take_0, app_nil_l, <- app_assoc; cbn [app]; do 2 f_equal.
      unfold zeros; rewrite drop_replicate; f_equal; rewrite length_app; cbn [length]; lia. }
    split_and!.
    + rewrite length_app; cbn [length]; unfold zeros; rewrite length_replicate; lia.
    + by apply bytes_lt_differ.
    + unfold bytes_le; rewrite bytes_cmp_app; cbn [bytes_cmp]; rewrite Z.compare_refl; apply zeros_le.
  - exfalso; assert (l = r) as ->; [| by apply bytes_lt_irrefl in Hlt].
    destruct Hd as [[k ->]|[k ->]]; rewrite length_app in *; assert (length k = 0%nat) as ->%nil_length_inv by lia; by rewrite app_nil_r.
Qed.

Lemma boxed_separator_between l r : bytes_lt l r ->
  let s := (boxed_separator l r).1 in bytes_lt l s /\ bytes_le s r.
Proof.
  intros Hlt; unfold boxed_separator; pose proof (first_differs_spec l r) as Hd.
  destruct (first_differs l r) as [d|]; cbn [fst default from_option id].
  - destruct Hd as (c & x & l' & y & r' & -> & -> & Hne & ->); apply bytes_cmp_cons_lt in Hlt; [| done].
    rewrite Nat.min_l by (rewrite length_app; cbn [length]; lia); rewrite take_snoc_middle; split.
    + by apply bytes_lt_differ.
    + change (c ++ y :: r') with (c ++ [y] ++ r'); rewrite app_assoc; apply bytes_prefix_le.
  - destruct Hd as [[k ->]|[k ->]].
    + destruct k as [|y k]; [rewrite app_nil_r in Hlt; by apply bytes_lt_irrefl in Hlt|].
      rewrite Nat.min_l by (rewrite length_app; cbn [length]; lia); rewrite take_snoc_middle; split.
      * unfold bytes_lt; rewrite <- (app_nil_r l) at 1; by rewrite bytes_cmp_app.
      * change (l ++ y :: k) with (l ++ [y] ++ k); rewrite app_assoc; apply bytes_prefix_le.
    + exfalso; pose proof (bytes_prefix_le r k) as Hle; apply bytes_nle_lt in Hlt; done.
Qed.

(** ** Moving keys *)

Lemma hand_over_steps {K} (fill : K) from to at_ count : (at_ + count <= length from)%nat -> (count <= length to)%nat ->
  exists from' to', TreeKey_hand_over fill from to at_ count = Ok (from', to')
    /\ length from' = length from /\ length to' = length to
    /\ take at_ from' = take at_ from /\ drop (at_ + count) from' = drop (at_ + count) from
    /\ take count to' = take count (drop at_ from).
Proof.
  induction count as [|n IH]; intros Hf Ht.
  { exists from, to; split_and!; done. }
  destruct IH as (from' & to' & E & Hlf & Hlt & Etf & Edf & Eto); [lia | lia |].
  destruct (lookup_lt_is_Some_2 from (at_ + n)) as [x Hx]; [lia|].
  assert (from' !! (at_ + n)%nat = Some x) as Hx'.
  { rewrite <- (Nat.add_0_r (at_ + n)), <- lookup_drop, Edf, lookup_drop, Nat.add_0_r; done. }
  unfold TreeKey_hand_over in *; rewrite seq_S, foldm_app, E; cbn [foldm mbind res_bind]; rewrite Nat.add_0_l.
  unfold idx; rewrite Hx'; res_simpl; rewrite !set_idx_Ok by lia; res_simpl.
  do 2 eexists; split; [done|]; rewrite !length_insert; split_and!; [done | done | | |].
  - rewrite take_insert_ge by lia; done.
  - rewrite drop_insert_lt by lia.
    assert (forall l : list K, drop (at_ + S n) l = drop 1 (drop (at_ + n) l)) as Hd by (intros; rewrite drop_drop; f_equal; lia).
    by rewrite !Hd, Edf.
  - assert (length (take n to') = n) by (rewrite length_take; lia).
    rewrite (take_S_r _ n x) by (apply list_lookup_insert_eq; lia); rewrite take_insert_ge, Eto by lia.
    symmetry; apply take_S_r; by rewrite lookup_drop.
Qed.

Lemma array_hand_over_ok {K} (from to : list K) at_ count : (at_ + count <= length from)%nat -> (count <= length to)%nat ->
  exists from' to', array_hand_over from to at_ count = Ok (from', to')
    /\ length from' = length from /\ length to' = length to
    /\ take at_ from' = take at_ from /\ take count to' = take count (drop at_ from).
Proof.
  intros Hf Ht; unfold array_hand_over; rewrite span_Ok by lia; res_simpl; set (s := drop at_ _).
  assert (length s = count) as Hs by (subst s; rewrite length_drop, length_take; lia).
  rewrite copy_in_Ok by lia; res_simpl; do 2 eexists; split; [done|]; rewrite length_put by lia; split_and!; try done.
  pose proof (take_put to 0 s ltac:(lia)) as E; rewrite Nat.add_0_l, Hs in E; rewrite E; subst s; rewrite take_0, app_nil_l, skipn_firstn_comm; f_equal; lia.
Qed.

(** ** The key types keep the laws *)

Lemma array_head_padded N k : length k = N -> array_head N k = be_val (zero_padded 8 k).
Proof.
  intros Hl; unfold array_head; destruct (Nat.ltb_spec N 8).
  - rewrite take_ge by lia; by rewrite put_padded by lia.
  - rewrite put_padded by (rewrite length_take; lia); by rewrite zero_padded_take by lia.
Qed.

Lemma boxed_head_padded k : boxed_head k = be_val (zero_padded 8 k).
Proof.
  unfold boxed_head; rewrite put_padded by (rewrite length_take; lia).
  destruct (Nat.le_gt_cases (length k) 8); [by rewrite take_ge by lia|].
  rewrite Nat.min_r by lia; by rewrite zero_padded_take.
Qed.

Lemma Shared_lead_u64 w k : is_u64 (Shared_lead w k).
Proof. unfold Shared_lead; rewrite at_window_padded; apply padded_u64. Qed.

#[refine] Definition array_key_laws (N : nat) (HN : Z.of_nat N < U16) : @TreeKeyLaws bytes (array_key N) :=
  @Build_TreeKeyLaws bytes (array_key N) (fun k => length k = N)
    (fun w => Shared_ok w /\ length (sh_pre w) = N) Shared_holds true _ _ _ _ _ _ _ _ _ _ _ _ _ _ _ _ _ _ _.
Proof.
  all: cbn [key_cmp window_default window_lead window_word window_tune key_window array_key Shared_window head
            separator key_open key_close key_hand_over Window].
  - apply bytes_cmp_eq.
  - apply bytes_cmp_antisym.
  - apply bytes_lt_trans.
  - split; [unfold Shared_ok; cbn; lia | apply length_replicate].
  - intros k; by left.
  - intros k Hk; rewrite array_head_padded by done; apply at_window_padded.
  - intros; apply Shared_lead_u64.
  - intros w k word [Hok _]; by apply Shared_word_spec.
  - apply Shared_lead_mono.
  - intros w p k [Hok _] E; by apply (Shared_word_edge w p k Below).
  - intros w p k [Hok _] E; by apply (Shared_word_edge w p k Above).
  - done.
  - intros w held Hw; by apply Shared_tune_ok.
  - apply Shared_tune_same.
  - intros l r Hl Hr Hlt; destruct (array_separator_between N l r Hl Hr Hlt) as (? & ? & ?); by split_and!.
  - done.
  - intros keys slot n Hs; unfold array_open; rewrite Nat.add_1_r; by apply copy_within_opens.
  - intros keys slot n Hs; unfold array_close; rewrite Nat.add_1_r; by apply copy_within_closes.
  - apply array_hand_over_ok.
Defined.

#[refine] Definition boxed_key_laws : @TreeKeyLaws bytes boxed_key :=
  @Build_TreeKeyLaws bytes boxed_key (fun _ => True)
    (fun w => Shared_ok w /\ length (sh_pre w) = SHARED_CAP) Shared_holds true _ _ _ _ _ _ _ _ _ _ _ _ _ _ _ _ _ _ _.
Proof.
  all: cbn [key_cmp window_default window_lead window_word window_tune key_window boxed_key Shared_window head
            separator key_open key_close key_hand_over Window].
  - apply bytes_cmp_eq.
  - apply bytes_cmp_antisym.
  - apply bytes_lt_trans.
  - split; [unfold Shared_ok; cbn; lia | apply length_replicate].
  - intros k; by left.
  - intros k _; rewrite boxed_head_padded; apply at_window_padded.
  - intros; apply Shared_lead_u64.
  - intros w k word [Hok _]; by apply Shared_word_spec.
  - apply Shared_lead_mono.
  - intros w p k [Hok _] E; by apply (Shared_word_edge w p k Below).
  - intros w p k [Hok _] E; by apply (Shared_word_edge w p k Above).
  - done.
  - intros w held Hw; by apply Shared_tune_ok.
  - apply Shared_tune_same.
  - intros l r Hl Hr Hlt; destruct (boxed_separator_between l r Hlt) as (? & ?); by split_and!.
  - done.
  - apply rotate_right_opens.
  - apply rotate_left_closes.
  - intros from to at_ count Hf Ht; destruct (hand_over_steps [] from to at_ count Hf Ht) as (from' & to' & ? & ? & ? & ? & ? & ?).
    exists from', to'; by split_and!.
Defined.

#[refine] Definition number_key_laws : @TreeKeyLaws Z number_key :=
  @Build_TreeKeyLaws Z number_key is_u64 (fun _ => True) (fun _ _ => True) false _ _ _ _ _ _ _ _ _ _ _ _ _ _ _ _ _ _ _.
Proof.
  all: cbn [key_cmp window_default window_lead window_word window_tune key_window number_key head
            separator key_open key_close key_hand_over Window]; unfold key_lt, Whole_lead, Whole_word, number_head; cbn.
  - apply Z.compare_eq_iff.
  - intros a b; apply Z.compare_antisym.
  - intros a b c; rewrite !Z.compare_lt_iff; lia.
  - done.
  - done.
  - done.
  - done.
  - naive_solver.
  - intros _ a b _ _; by rewrite Z.compare_lt_iff.
  - done.
  - done.
  - done.
  - intros _ held _; split; [done | by apply Forall_true].
  - done.
  - intros l r _ Hr Hlt; unfold key_le; cbn; rewrite Z.compare_refl; split_and!; done.
  - done.
  - apply rotate_right_opens.
  - apply rotate_left_closes.
  - intros from to at_ count Hf Ht; destruct (hand_over_steps 0 from to at_ count Hf Ht) as (from' & to' & ? & ? & ? & ? & ? & ?).
    exists from', to'; by split_and!.
Defined.

(** ** The scans agree *)

Lemma bias_signed a : is_u64 a -> as_i64 (Z.lxor a BIAS) = a - I64_HALF.
Proof.
  unfold is_u64, U64, BIAS, I64_HALF; intros Ha; destruct (Z.lt_ge_cases a (2 ^ 63)).
  - rewrite <- Z.add_nocarry_lxor.
    + unfold as_i64, U64, I64_HALF; replace (a + _ + _) with (a + 1 * 18446744073709551616) by lia.
      rewrite Z.mod_add, Z.mod_small by lia; lia.
    + rewrite Z.land_comm; change 9223372036854775808 with (1 * 2 ^ 63); apply land_shifted; lia.
  - replace a with (Z.lxor (a - 2 ^ 63) 9223372036854775808) at 1.
    + rewrite Z.lxor_assoc, Z.lxor_nilpotent, Z.lxor_0_r; unfold as_i64, U64, I64_HALF; rewrite Z.mod_small by lia; lia.
    + rewrite <- Z.add_nocarry_lxor; [lia|].
      rewrite Z.land_comm; change 9223372036854775808 with (1 * 2 ^ 63); apply land_shifted; lia.
Qed.

Lemma count_scalar_app a b want : count_scalar (a ++ b) want = (count_scalar a want + count_scalar b want)%nat.
Proof. unfold count_scalar; by rewrite List.filter_app, length_app. Qed.

Lemma count_chunks_scalar mask want lane : forall fuel leads below,
  Forall is_u64 leads -> (forall l, Forall is_u64 l -> length (List.filter id (mask l)) = count_scalar l want) ->
  count_chunks fuel lane mask leads want below = (below + count_scalar leads want)%nat.
Proof.
  induction fuel as [|fuel IH]; intros leads below Hl Hm; cbn [count_chunks]; [done|].
  destruct (_ <=? _)%nat; [| done]; rewrite IH by (by try apply Forall_drop).
  rewrite Hm by (by apply Forall_take); rewrite <- (take_drop lane leads) at 3; rewrite count_scalar_app; lia.
Qed.

Lemma mask_count (f g : Z -> bool) l : Forall (fun x => f x = g x) l ->
  length (List.filter id (map f l)) = length (List.filter g l).
Proof. induction 1 as [|x l E _ IH]; [done|]; cbn; rewrite E; destruct (g x); cbn; by rewrite IH. Qed.

(** Whichever scan the processor has, a node's leads are counted the same. *)
Lemma count_below_scalar scan leads want : Forall is_u64 leads -> is_u64 want ->
  count_below scan leads want = count_scalar leads want.
Proof.
  intros Hl Hw; destruct scan; cbn [count_below]; [| | done].
  - unfold count_avx512; rewrite count_chunks_scalar; [done | done |]; intros l _.
    unfold mask_avx512, count_scalar; by apply mask_count, Forall_true.
  - unfold count_avx2; rewrite count_chunks_scalar; [done | done |]; intros l Hls.
    unfold mask_avx2, count_scalar; apply mask_count; eapply Forall_impl; [exact Hls|]; intros x Hx; cbv beta.
    rewrite !bias_signed by done; rewrite Z.gtb_ltb; destruct (Z.ltb_spec x want), (Z.ltb_spec (x - I64_HALF) (want - I64_HALF)); lia.
Qed.
