(* ===== verification/TBTree.v ===== *)
(** * The index tree ([index/tbtreemap.rs])

    [TBTreeMap] is a B+ tree whose nodes lie in two arenas and point at each other by index, a tag
    bit telling the arenas apart; its leaves are chained both ways. This file holds every operation
    of it. A node's arrays are lists of the node width with fillers behind the slots in use.
    Indexing outside an arena or an array is [Panic]; so is a loop whose fuel ran out. A descent has
    a unit of fuel for every inner node and one more, a walk one for every key and leaf and one
    more; the theorems give the results themselves, so the fuel is always enough. An iterator is the
    list of what it yields. The capacity reserved, and the prefetches, change no result. *)
From S2P Require Import Prelude Error Arrays Bytes TreeKey.

Definition NONE : Z := U32 - 1.
Definition INNER : Z := Z.shiftl 1 31.

Definition is_inner (at_ : Z) : bool := negb (Z.land at_ INNER =? 0).
Definition slot_of (at_ : Z) : nat := Z.to_nat (Z.land at_ (Z.lxor INNER (U32 - 1))).

(** [len as u32 - 1] *)
Definition arena_index (n : nat) : Z := as_u32 (as_u32 (Z.of_nat n) - 1).

(** [slot as u8] *)
Definition spill_slot (slot : nat) : nat := Z.to_nat (as_u8 (Z.of_nat slot)).

(** [l[n - 1]], which has no slot before the first. *)
Definition idx_before {A} (l : list A) (n : nat) : res A := match n with O => Panic | S n => idx l n end.

(** [Result<usize, usize>] *)
Inductive Seat := Held (slot : nat) | Gap (slot : nat).

Inductive Bound (K : Type) := Unbounded | Included (key : K) | Excluded (key : K).
Arguments Unbounded {K}.
Arguments Included {K}.
Arguments Excluded {K}.

Section tree.
Context {K V : Type} `{TreeKey K} `{Inhabited V}.
Variable scan : Scan.
Variable B : nat.

(** ** Searching a node *)

Fixpoint seek_ties (fuel : nat) (leads : list Z) (keys : list K) (n : nat) (want : Z) (probe : K) (at_ : nat) : res Seat :=
  match fuel with
  | O => Panic
  | S fuel =>
      if (at_ <? n)%nat then
        lead ← idx leads at_;
        if lead =? want then
          key ← idx keys at_;
          match key_cmp key probe with
          | Lt => seek_ties fuel leads keys n want probe (at_ + 1)
          | Eq => Ok (Held at_)
          | Gt => Ok (Gap at_)
          end
        else Ok (Gap at_)
      else Ok (Gap at_)
  end.

Definition seek (win : Window) (leads : list Z) (keys : list K) (n : nat) (probe : K) : res Seat :=
  match window_word win probe with
  | Edge Below => Ok (Gap 0)
  | Edge Above => Ok (Gap n)
  | Word want =>
      shown ← front leads n;
      seek_ties (S n) leads keys n want probe (count_below scan shown want)
  end.

Record Leaf := mkLeaf {
  lf_len : nat;
  lf_win : Window;
  lf_lead : list Z;
  lf_keys : list K;
  lf_vals : list V;
  lf_next : Z;
  lf_prev : Z;
}.

Record Inner := mkInner {
  in_len : nat;
  in_win : Window;
  in_lead : list Z;
  in_kids : list Z;
  in_spill : list (nat * K);
}.

(** [partition_point]: how many entries lead the run that keep the test. *)
Fixpoint partition_point {A} (test : A -> bool) (l : list A) : nat :=
  match l with
  | [] => O
  | x :: l => if test x then S (partition_point test l) else O
  end.

Definition spill_from (spill : list (nat * K)) (slot : nat) : nat :=
  partition_point (fun e => (e.1 <? slot)%nat) spill.

Definition spill_here (spill : list (nat * K)) (at_ slot : nat) : option K :=
  match spill !! at_ with
  | Some (held, key) => if (held =? slot)%nat then Some key else None
  | None => None
  end.

(** The cursor moved along, and what it stops at. *)
Definition spill_at (spill : list (nat * K)) (cursor slot : nat) : option K * nat :=
  let cursor := (cursor + partition_point (fun e => (e.1 <? slot)%nat) (drop cursor spill))%nat in
  (spill_here spill cursor slot, cursor).

Definition spill_of (spill : list (nat * K)) (slot : nat) : option K := spill_here spill (spill_from spill slot) slot.

(** [Vec::insert] and [Vec::remove] at a place the search just found. *)
Definition put_spill (spill : list (nat * K)) (slot : nat) (key : K) : list (nat * K) :=
  let at_ := spill_from spill slot in
  take at_ spill ++ (spill_slot slot, key) :: drop at_ spill.

Definition take_spill (spill : list (nat * K)) (slot : nat) : option K * list (nat * K) :=
  let at_ := spill_from spill slot in
  match spill !! at_ with
  | Some (held, key) => if (held =? slot)%nat then (Some key, take at_ spill ++ drop (S at_) spill) else (None, spill)
  | None => (None, spill)
  end.

(** What stays and what moves. *)
Definition split_spill (spill : list (nat * K)) (half : nat) : list (nat * K) * list (nat * K) :=
  fold_left (fun '(kept, moved) '(slot, key) =>
    if (half <? slot)%nat then (kept, moved ++ [((slot - spill_slot half - 1)%nat, key)])
    else (kept ++ [(slot, key)], moved)) spill ([], []).

Definition shift_spill (spill : list (nat * K)) (slot : nat) : list (nat * K) :=
  map (fun '(held, key) => ((if (slot <=? held)%nat then held + 1 else held)%nat, key)) spill.

Fixpoint inner_ties (fuel : nat) (inner : Inner) (want : Z) (probe : K) (at_ cursor : nat) : res nat :=
  match fuel with
  | O => Panic
  | S fuel =>
      if (at_ <? in_len inner)%nat then
        lead ← idx (in_lead inner) at_;
        if lead =? want then
          let '(held, cursor) := spill_at (in_spill inner) cursor at_ in
          match held with
          | Some full =>
              match key_cmp full probe with
              | Gt => Ok at_
              | _ => inner_ties fuel inner want probe (at_ + 1) cursor
              end
          | None => inner_ties fuel inner want probe (at_ + 1) cursor
          end
        else Ok at_
      else Ok at_
  end.

Definition inner_seek (inner : Inner) (probe : K) : res nat :=
  if (in_len inner =? 0)%nat then Ok 0%nat else
  match window_word (in_win inner) probe with
  | Edge Below => Ok 0%nat
  | Edge Above => Ok (in_len inner)
  | Word want =>
      shown ← front (in_lead inner) (in_len inner);
      inner_ties (S (in_len inner)) inner want probe (count_below scan shown want) 0
  end.

(** The pair a probe ranks by in one node. *)
Definition rank (win : Window) (probe : K) : Z * Z :=
  match window_word win probe with
  | Word lead => (1, lead)
  | Edge Below => (0, 0)
  | Edge Above => (2, U64 - 1)
  end.

(** The order of pairs. *)
Definition rank_cmp (a b : Z * Z) : comparison :=
  match a.1 ?= b.1 with Eq => a.2 ?= b.2 | c => c end.

Record TBTreeMap := mkTBTreeMap {
  tb_leaves : list Leaf;
  tb_inners : list Inner;
  tb_root : Z;
  tb_first : Z;
  tb_len : nat;
}.

Definition empty_leaf : Leaf :=
  mkLeaf 0 window_default (replicate B 0) (replicate B filler) (replicate B inhabitant) NONE NONE.

Definition empty_inner : Inner := mkInner 0 window_default (replicate B 0) (replicate B NONE) [].

Definition Leaf_retune (leaf : Leaf) : res Leaf :=
  held ← front (lf_keys leaf) (lf_len leaf);
  let '(win, moved) := window_tune (lf_win leaf) held in
  if negb moved then Ok (mkLeaf (lf_len leaf) win (lf_lead leaf) (lf_keys leaf) (lf_vals leaf) (lf_next leaf) (lf_prev leaf)) else
  lead ← foldm (fun lead slot => key ← idx (lf_keys leaf) slot; set_idx lead slot (window_lead win key))
           (seq 0 (lf_len leaf)) (lf_lead leaf);
  Ok (mkLeaf (lf_len leaf) win lead (lf_keys leaf) (lf_vals leaf) (lf_next leaf) (lf_prev leaf)).

Definition Inner_retune (inner : Inner) : res Inner :=
  let '(win, moved) := window_tune (in_win inner) (map snd (in_spill inner)) in
  if negb moved then Ok (mkInner (in_len inner) win (in_lead inner) (in_kids inner) (in_spill inner)) else
  lead ← foldm (fun lead slot => held ← must (spill_of (in_spill inner) slot); set_idx lead slot (window_lead win held))
           (seq 0 (in_len inner)) (in_lead inner);
  Ok (mkInner (in_len inner) win lead (in_kids inner) (in_spill inner)).

(** ** Looking up *)

Definition TBTreeMap_new : TBTreeMap := mkTBTreeMap [] [] NONE NONE 0.
Definition TBTreeMap_len (t : TBTreeMap) : nat := tb_len t.
Definition TBTreeMap_is_empty (t : TBTreeMap) : bool := (tb_len t =? 0)%nat.

(** The [while is_inner(at)] loop every lookup opens with. *)
Fixpoint descend (fuel : nat) (t : TBTreeMap) (at_ : Z) (probe : K) : res Z :=
  match fuel with
  | O => Panic
  | S fuel =>
      if is_inner at_ then
        inner ← idx (tb_inners t) (slot_of at_);
        down ← inner_seek inner probe;
        at_ ← idx (in_kids inner) down;
        descend fuel t at_ probe
      else Ok at_
  end.

Definition descent (t : TBTreeMap) (probe : K) : res Z := descend (S (length (tb_inners t))) t (tb_root t) probe.

(** The leaf a probe descends to, and its place there; nothing in an empty tree. *)
Definition TBTreeMap_find (t : TBTreeMap) (probe : K) : res (option (nat * Leaf * Seat)) :=
  if tb_root t =? NONE then Ok None else
  at_ ← descent t probe;
  leaf ← idx (tb_leaves t) (slot_of at_);
  found ← seek (lf_win leaf) (lf_lead leaf) (lf_keys leaf) (lf_len leaf) probe;
  Ok (Some (slot_of at_, leaf, found)).

Definition TBTreeMap_get (t : TBTreeMap) (probe : K) : res (option V) :=
  found ← TBTreeMap_find t probe;
  match found with
  | Some (_, leaf, Held slot) => val ← idx (lf_vals leaf) slot; Ok (Some val)
  | Some (_, _, Gap _) | None => Ok None
  end.

Definition set_leaf (t : TBTreeMap) (at_ : nat) (leaf : Leaf) : TBTreeMap :=
  mkTBTreeMap (<[at_ := leaf]> (tb_leaves t)) (tb_inners t) (tb_root t) (tb_first t) (tb_len t).
Definition set_inner (t : TBTreeMap) (at_ : nat) (inner : Inner) : TBTreeMap :=
  mkTBTreeMap (tb_leaves t) (<[at_ := inner]> (tb_inners t)) (tb_root t) (tb_first t) (tb_len t).
Definition push_leaf (t : TBTreeMap) (leaf : Leaf) : TBTreeMap :=
  mkTBTreeMap (tb_leaves t ++ [leaf]) (tb_inners t) (tb_root t) (tb_first t) (tb_len t).
Definition push_inner (t : TBTreeMap) (inner : Inner) : TBTreeMap :=
  mkTBTreeMap (tb_leaves t) (tb_inners t ++ [inner]) (tb_root t) (tb_first t) (tb_len t).

(** The borrow of a value, and what its holder writes through it. *)
Definition TBTreeMap_get_mut (t : TBTreeMap) (probe : K) (write : V -> V) : res (option TBTreeMap) :=
  found ← TBTreeMap_find t probe;
  match found with
  | Some (at_, leaf, Held slot) =>
      val ← idx (lf_vals leaf) slot;
      Ok (Some (set_leaf t at_ (mkLeaf (lf_len leaf) (lf_win leaf) (lf_lead leaf) (lf_keys leaf)
                  (<[slot := write val]> (lf_vals leaf)) (lf_next leaf) (lf_prev leaf))))
  | Some (_, _, Gap _) | None => Ok None
  end.

Definition TBTreeMap_contains_key (t : TBTreeMap) (probe : K) : res bool :=
  found ← TBTreeMap_get t probe; Ok (match found with Some _ => true | None => false end).

(** ** Putting in *)

Definition TBTreeMap_full (t : TBTreeMap) (at_ : Z) : res bool :=
  if is_inner at_ then
    inner ← idx (tb_inners t) (slot_of at_); Ok (in_len inner =? B - 1)%nat
  else
    leaf ← idx (tb_leaves t) (slot_of at_); Ok (lf_len leaf =? B)%nat.

(** An inner node cut in two around the separator it lifts: the halves, and what is lifted. *)
Definition halve_inner (inner : Inner) : res (Inner * Inner * Z * option K) :=
  let half := (in_len inner / 2)%nat in
  lift_lead ← idx (in_lead inner) half;
  let '(lift_spill, spill) := take_spill (in_spill inner) half in
  let right_len := (in_len inner - half - 1)%nat in
  leads ← span (in_lead inner) (half + 1) (in_len inner);
  lead ← copy_in (replicate B 0) 0 leads;
  kid_run ← span (in_kids inner) (half + 1) (in_len inner + 1);
  kids ← copy_in (replicate B NONE) 0 kid_run;
  let '(kept, moved) := split_spill spill half in
  right ← Inner_retune (mkInner right_len (in_win inner) lead kids moved);
  left ← Inner_retune (mkInner half (in_win inner) (in_lead inner) (in_kids inner) kept);
  Ok (left, right, lift_lead, lift_spill).

(** The arm of [split_child] for an inner node: the tree with the right half pushed, what is lifted
    and where the right half is. *)
Definition split_inner (t : TBTreeMap) (at_ : nat) : res (TBTreeMap * Z * option K * Z) :=
  inner ← idx (tb_inners t) at_;
  '(lower, upper, lift_lead, lift_spill) ← halve_inner inner;
  let t := push_inner (set_inner t at_ lower) upper in
  Ok (t, lift_lead, lift_spill, Z.lor INNER (arena_index (length (tb_inners t)))).

(** [mem::take] a value at a time. *)
Definition hand_vals (from to : list V) (half count : nat) : res (list V * list V) :=
  foldm (fun '(from, to) step =>
    moved ← idx from (half + step);
    from ← set_idx from (half + step) inhabitant;
    to ← set_idx to step moved;
    Ok (from, to)) (seq 0 count) (from, to).

(** A leaf cut in two, and the separator cut at the boundary. *)
Definition halve_leaf (leaf : Leaf) (at_ : nat) (appending : bool) : res (Leaf * Leaf * Z * option K) :=
  let half := if appending then (lf_len leaf - 1)%nat else (lf_len leaf / 2)%nat in
  let right_len := (lf_len leaf - half)%nat in
  leads ← span (lf_lead leaf) half (lf_len leaf);
  lead ← copy_in (replicate B 0) 0 leads;
  '(left_keys, right_keys) ← key_hand_over (lf_keys leaf) (replicate B filler) half right_len;
  '(left_vals, right_vals) ← hand_vals (lf_vals leaf) (replicate B inhabitant) half right_len;
  low ← idx_before left_keys half;
  high ← idx right_keys 0;
  let '(lift_key, lift_whole) := separator low high in
  let lift_lead := head lift_key in
  let lift_spill := if lift_whole then Some lift_key else None in
  right ← Leaf_retune (mkLeaf right_len (lf_win leaf) lead right_keys right_vals (lf_next leaf) (Z.of_nat at_));
  left ← Leaf_retune (mkLeaf half (lf_win leaf) (lf_lead leaf) left_keys left_vals (lf_next leaf) (lf_prev leaf));
  Ok (left, right, lift_lead, lift_spill).

(** The arm for a leaf: the right half pushed and chained behind the left. *)
Definition split_leaf (t : TBTreeMap) (at_ : nat) (appending : bool) : res (TBTreeMap * Z * option K * Z) :=
  leaf ← idx (tb_leaves t) at_;
  '(lower, upper, lift_lead, lift_spill) ← halve_leaf leaf at_ appending;
  let t := push_leaf (set_leaf t at_ lower) upper in
  let right_at := arena_index (length (tb_leaves t)) in
  let t := set_leaf t at_ (mkLeaf (lf_len lower) (lf_win lower) (lf_lead lower) (lf_keys lower) (lf_vals lower) right_at (lf_prev lower)) in
  let after := lf_next upper in
  t ← (if after =? NONE then Ok t else
       next ← idx (tb_leaves t) (Z.to_nat after);
       Ok (set_leaf t (Z.to_nat after)
             (mkLeaf (lf_len next) (lf_win next) (lf_lead next) (lf_keys next) (lf_vals next) (lf_next next) right_at)));
  Ok (t, lift_lead, lift_spill, right_at).

(** The end of [split_child]: the separator and the fresh node hung in the parent. *)
Definition hang (inner : Inner) (slot : nat) (lift_lead : Z) (lift_spill : option K) (fresh : Z) : res Inner :=
  lead ← copy_within (in_lead inner) slot (in_len inner) (slot + 1);
  kids ← copy_within (in_kids inner) (slot + 1) (in_len inner + 1) (slot + 2);
  let spill := shift_spill (in_spill inner) slot in
  let lifted := window_word (in_win inner) <$> lift_spill in
  lead ← set_idx lead slot (match lifted with
                            | Some (Word word) => word
                            | Some (Edge _) => 0
                            | None => lift_lead
                            end);
  let broke := match lifted with Some (Edge _) => true | _ => false end in
  let spill := match lift_spill with Some full => put_spill spill slot full | None => spill end in
  kids ← set_idx kids (slot + 1) fresh;
  let inner := mkInner (in_len inner + 1) (in_win inner) lead kids spill in
  if broke then Inner_retune inner else Ok inner.

Definition split_child (t : TBTreeMap) (parent slot : nat) (appending : bool) : res TBTreeMap :=
  inner ← idx (tb_inners t) parent;
  child ← idx (in_kids inner) slot;
  '(t, lift_lead, lift_spill, fresh) ←
    (if is_inner child then split_inner t (slot_of child) else split_leaf t (slot_of child) appending);
  inner ← idx (tb_inners t) parent;
  inner ← hang inner slot lift_lead lift_spill fresh;
  Ok (set_inner t parent inner).

(** Whether a full leaf is the last and the key lands past its last key. *)
Definition is_appending (t : TBTreeMap) (child : Z) (key : K) : res bool :=
  if is_inner child then Ok false else
  leaf ← idx (tb_leaves t) (slot_of child);
  if negb ((lf_next leaf =? NONE) && (0 <? lf_len leaf)%nat) then Ok false else
  last ← idx_before (lf_keys leaf) (lf_len leaf);
  Ok (match key_cmp key last with Gt => true | _ => false end).

(** The descent of [insert], which splits every full child on its way. *)
Fixpoint insert_descend (fuel : nat) (t : TBTreeMap) (at_ : Z) (key : K) : res (TBTreeMap * Z) :=
  match fuel with
  | O => Panic
  | S fuel =>
      if is_inner at_ then
        let parent := slot_of at_ in
        inner ← idx (tb_inners t) parent;
        down ← inner_seek inner key;
        child ← idx (in_kids inner) down;
        full ← TBTreeMap_full t child;
        if full : bool then
          appending ← is_appending t child key;
          t ← split_child t parent down appending;
          inner ← idx (tb_inners t) parent;
          down ← inner_seek inner key;
          at_ ← idx (in_kids inner) down;
          insert_descend fuel t at_ key
        else insert_descend fuel t child key
      else Ok (t, at_)
  end.

(** A slot opened in a leaf for a key that is not there. *)
Definition leaf_insert (leaf : Leaf) (slot : nat) (key : K) (val : V) : res Leaf :=
  let word := window_word (lf_win leaf) key in
  lead ← copy_within (lf_lead leaf) slot (lf_len leaf) (slot + 1);
  keys ← key_open (lf_keys leaf) slot (lf_len leaf);
  vals ← rotate_right (lf_vals leaf) slot (lf_len leaf + 1);
  lead ← set_idx lead slot (match word with Word word => word | Edge _ => 0 end);
  keys ← set_idx keys slot key;
  vals ← set_idx vals slot val;
  let leaf := mkLeaf (lf_len leaf + 1) (lf_win leaf) lead keys vals (lf_next leaf) (lf_prev leaf) in
  match word with Edge _ => Leaf_retune leaf | Word _ => Ok leaf end.

(** An empty tree gets its first leaf, and a full root a root above it. *)
Definition insert_root (t : TBTreeMap) : res TBTreeMap :=
  let t := if tb_root t =? NONE then
             let t := push_leaf t empty_leaf in
             let root := arena_index (length (tb_leaves t)) in
             mkTBTreeMap (tb_leaves t) (tb_inners t) root root (tb_len t)
           else t in
  full ← TBTreeMap_full t (tb_root t);
  if full : bool then
    kids ← set_idx (in_kids empty_inner) 0 (tb_root t);
    let t := push_inner t (mkInner 0 window_default (in_lead empty_inner) kids []) in
    let root_at := arena_index (length (tb_inners t)) in
    let t := mkTBTreeMap (tb_leaves t) (tb_inners t) (Z.lor INNER root_at) (tb_first t) (tb_len t) in
    split_child t (Z.to_nat root_at) 0 false
  else Ok t.

(** The place found in a leaf filled: the value there displaced, or a slot opened. *)
Definition insert_at (t : TBTreeMap) (at_ : nat) (key : K) (val : V) : res (TBTreeMap * option V) :=
  leaf ← idx (tb_leaves t) at_;
  found ← seek (lf_win leaf) (lf_lead leaf) (lf_keys leaf) (lf_len leaf) key;
  match found with
  | Held slot =>
      old ← idx (lf_vals leaf) slot;
      Ok (set_leaf t at_ (mkLeaf (lf_len leaf) (lf_win leaf) (lf_lead leaf) (lf_keys leaf)
            (<[slot := val]> (lf_vals leaf)) (lf_next leaf) (lf_prev leaf)), Some old)
  | Gap slot =>
      leaf ← leaf_insert leaf slot key val;
      let t := set_leaf t at_ leaf in
      Ok (mkTBTreeMap (tb_leaves t) (tb_inners t) (tb_root t) (tb_first t) (tb_len t + 1), None)
  end.

Definition TBTreeMap_insert (t : TBTreeMap) (key : K) (val : V) : res (TBTreeMap * option V) :=
  t ← insert_root t;
  '(t, at_) ← insert_descend (S (length (tb_inners t))) t (tb_root t) key;
  insert_at t (slot_of at_) key val.

(** ** Taking out *)

Definition leaf_remove (leaf : Leaf) (found : nat) : res (Leaf * V) :=
  lead ← copy_within (lf_lead leaf) (found + 1) (lf_len leaf) found;
  keys ← key_close (lf_keys leaf) found (lf_len leaf);
  vals ← rotate_left (lf_vals leaf) found (lf_len leaf);
  let last := (lf_len leaf - 1)%nat in
  keys ← set_idx keys last filler;
  held ← idx vals last;
  vals ← set_idx vals last inhabitant;
  Ok (mkLeaf last (lf_win leaf) lead keys vals (lf_next leaf) (lf_prev leaf), held).

Definition TBTreeMap_remove (t : TBTreeMap) (probe : K) : res (TBTreeMap * option V) :=
  found ← TBTreeMap_find t probe;
  match found with
  | Some (at_, leaf, Held slot) =>
      '(leaf, held) ← leaf_remove leaf slot;
      let t := set_leaf t at_ leaf in
      Ok (mkTBTreeMap (tb_leaves t) (tb_inners t) (tb_root t) (tb_first t) (tb_len t - 1), Some held)
  | Some (_, _, Gap _) | None => Ok (t, None)
  end.

Definition TBTreeMap_clear (t : TBTreeMap) : TBTreeMap := TBTreeMap_new.

(** ** Building from sorted input *)

(** The last slot in use of the last leaf, when it holds the key. *)
Definition last_repeats (t : TBTreeMap) (key : K) : option (Leaf * nat) :=
  match last (tb_leaves t) with
  | Some leaf =>
      match lf_len leaf with
      | O => None
      | S n => if bool_decide (option_map (key_cmp key) (lf_keys leaf !! n) = Some Eq) then Some (leaf, n) else None
      end
  | None => None
  end.

Definition put_leaves (t : TBTreeMap) (leaves : list Leaf) : TBTreeMap :=
  mkTBTreeMap leaves (tb_inners t) (tb_root t) (tb_first t) (tb_len t).

(** The last leaf closed and an empty one chained behind it. *)
Definition fresh_leaf (t : TBTreeMap) : res TBTreeMap :=
  leaves ← match last (tb_leaves t) with
           | Some done => done ← Leaf_retune done; Ok (<[(length (tb_leaves t) - 1)%nat := done]> (tb_leaves t))
           | None => Ok (tb_leaves t)
           end;
  let leaves := leaves ++ [empty_leaf] in
  let at_ := (length leaves - 1)%nat in
  if (0 <? at_)%nat then
    before ← idx leaves (at_ - 1);
    let leaves := <[(at_ - 1)%nat := mkLeaf (lf_len before) (lf_win before) (lf_lead before)
        (lf_keys before) (lf_vals before) (as_u32 (Z.of_nat at_)) (lf_prev before)]> leaves in
    made ← idx leaves at_;
    Ok (put_leaves t (<[at_ := mkLeaf (lf_len made) (lf_win made) (lf_lead made) (lf_keys made) (lf_vals made)
          (lf_next made) (as_u32 (Z.of_nat (at_ - 1)))]> leaves))
  else Ok (put_leaves t leaves).

(** A pair behind the last of the last leaf. *)
Definition append_pair (t : TBTreeMap) (key : K) (val : V) : res TBTreeMap :=
  let at_ := (length (tb_leaves t) - 1)%nat in
  leaf ← idx (tb_leaves t) at_;
  lead ← set_idx (lf_lead leaf) (lf_len leaf) (window_lead (lf_win leaf) key);
  keys ← set_idx (lf_keys leaf) (lf_len leaf) key;
  vals ← set_idx (lf_vals leaf) (lf_len leaf) val;
  let t := set_leaf t at_ (mkLeaf (lf_len leaf + 1) (lf_win leaf) lead keys vals (lf_next leaf) (lf_prev leaf)) in
  Ok (mkTBTreeMap (tb_leaves t) (tb_inners t) (tb_root t) (tb_first t) (tb_len t + 1)).

(** One pair of the input: over the key before it, or behind it, in a leaf of its own once the last is filled. *)
Definition sorted_step (fill : nat) (t : TBTreeMap) (pair : K * V) : res TBTreeMap :=
  let '(key, val) := pair in
  match last_repeats t key with
  | Some (leaf, n) =>
      vals ← set_idx (lf_vals leaf) n val;
      Ok (set_leaf t (length (tb_leaves t) - 1)
            (mkLeaf (lf_len leaf) (lf_win leaf) (lf_lead leaf) (lf_keys leaf) vals (lf_next leaf) (lf_prev leaf)))
  | None =>
      let fresh := match last (tb_leaves t) with Some leaf => (lf_len leaf =? fill)%nat | None => true end in
      t ← (if fresh then fresh_leaf t else Ok t);
      append_pair t key val
  end.

(** A subtree's first leaf, last leaf and node. *)
Record Sub := mkSub { sb_low : Z; sb_high : Z; sb_at : Z }.

(** One subtree of a run: its node among the children, and the separator cut before it. *)
Definition run_slot (t : TBTreeMap) (run : list Sub) (inner : Inner) (entry : nat * Sub) : res Inner :=
  let '(slot, sub) := entry in
  kids ← set_idx (in_kids inner) slot (sb_at sub);
  let inner := mkInner (in_len inner) (in_win inner) (in_lead inner) kids (in_spill inner) in
  match slot with
  | O => Ok inner
  | S before =>
      prior ← idx run before;
      left ← idx (tb_leaves t) (Z.to_nat (sb_high prior));
      right ← idx (tb_leaves t) (Z.to_nat (sb_low sub));
      low ← idx_before (lf_keys left) (lf_len left);
      high ← idx (lf_keys right) 0;
      let '(sep, whole) := separator low high in
      lead ← set_idx (in_lead inner) before (head sep);
      Ok (mkInner (in_len inner) (in_win inner) lead (in_kids inner)
            (if whole : bool then in_spill inner ++ [(Z.to_nat (as_u8 (as_u8 (Z.of_nat slot) - 1)), sep)] else in_spill inner))
  end.

(** One run of a level as an inner node. *)
Definition run_inner (t : TBTreeMap) (run : list Sub) : res Inner :=
  inner ← foldm (run_slot t run) (imap pair run) (mkInner (length run - 1) window_default (in_lead empty_inner) (in_kids empty_inner) []);
  Inner_retune inner.

Fixpoint chunks_of {A} (fuel n : nat) (l : list A) : list (list A) :=
  match fuel with
  | O => []
  | S fuel => match l with [] => [] | _ => take n l :: chunks_of fuel n (drop n l) end
  end.

Definition raise_run (acc : TBTreeMap * list Sub) (run : list Sub) : res (TBTreeMap * list Sub) :=
  let '(t, up) := acc in
  inner ← run_inner t run;
  let t := push_inner t inner in
  first ← idx run 0;
  final ← idx_before run (length run);
  Ok (t, up ++ [mkSub (sb_low first) (sb_high final) (Z.lor INNER (arena_index (length (tb_inners t))))]).

(** The [while level.len() > 1] loop; a level is shorter than the one under it. *)
Fixpoint raise_levels (fuel : nat) (t : TBTreeMap) (level : list Sub) : res (TBTreeMap * list Sub) :=
  match fuel with
  | O => Panic
  | S fuel =>
      if (1 <? length level)%nat then
        '(t, level) ← foldm raise_run (chunks_of (length level) B level) (t, []);
        raise_levels fuel t level
      else Ok (t, level)
  end.

Definition TBTreeMap_from_sorted (sorted : list (K * V)) (fill : nat) : res TBTreeMap :=
  let fill := Nat.max 1 (Nat.min fill B) in
  t ← foldm (sorted_step fill) sorted TBTreeMap_new;
  match last (tb_leaves t) with
  | None => Ok t
  | Some done =>
      done ← Leaf_retune done;
      let t := mkTBTreeMap (<[(length (tb_leaves t) - 1)%nat := done]> (tb_leaves t)) (tb_inners t) (tb_root t) 0 (tb_len t) in
      let level := map (fun at_ => mkSub (as_u32 (Z.of_nat at_)) (as_u32 (Z.of_nat at_)) (as_u32 (Z.of_nat at_)))
                     (seq 0 (length (tb_leaves t))) in
      '(t, level) ← raise_levels (length level) t level;
      top ← idx level 0;
      Ok (mkTBTreeMap (tb_leaves t) (tb_inners t) (sb_at top) (tb_first t) (tb_len t))
  end.

(** The leaves of the chain from one on. *)
Fixpoint chain_from (fuel : nat) (t : TBTreeMap) (at_ : Z) : res (list nat) :=
  match fuel with
  | O => Panic
  | S fuel =>
      if at_ =? NONE then Ok [] else
      leaf ← idx (tb_leaves t) (Z.to_nat at_);
      rest ← chain_from fuel t (lf_next leaf);
      Ok (Z.to_nat at_ :: rest)
  end.

(** A leaf's pairs. *)
Definition leaf_pairs (leaf : Leaf) : res (list (K * V)) :=
  keys ← front (lf_keys leaf) (lf_len leaf);
  vals ← front (lf_vals leaf) (lf_len leaf);
  Ok (zip keys vals).

Definition TBTreeMap_repack (t : TBTreeMap) (fill : nat) : res TBTreeMap :=
  if tb_root t =? NONE then Ok t else
  chain ← chain_from (S (length (tb_leaves t))) t (tb_first t);
  pairs ← mapm (fun at_ => leaf ← idx (tb_leaves t) at_; leaf_pairs leaf) chain;
  TBTreeMap_from_sorted (concat pairs) fill.

Definition TBTreeMap_get_or_insert (t : TBTreeMap) (key : K) (val : V) : res (TBTreeMap * V) :=
  found ← TBTreeMap_get t key;
  t ← (match found with Some _ => Ok t | None => '(t, _) ← TBTreeMap_insert t key val; Ok t end);
  held ← TBTreeMap_get t key;
  held ← must held;
  Ok (t, held).

(** ** Room *)

Definition TBTreeMap_leaf_count (t : TBTreeMap) : nat := length (tb_leaves t).

Definition div_up (a b : nat) : nat := ((a + b - 1) / b)%nat.

Definition TBTreeMap_is_packed (t : TBTreeMap) : bool :=
  (length (tb_leaves t) <=? Nat.max (div_up (tb_len t) (B - 1)) 1)%nat.

Definition TBTreeMap_repack_owed (t : TBTreeMap) : bool :=
  (1 <? length (tb_leaves t))%nat && (2 * Nat.max (div_up (tb_len t) B) 1 <=? length (tb_leaves t))%nat.

Definition TBTreeMap_remove_packed (t : TBTreeMap) (probe : K) : res (TBTreeMap * option V) :=
  '(t, held) ← TBTreeMap_remove t probe;
  match held with
  | None => Ok (t, None)
  | Some held =>
      t ← (if TBTreeMap_repack_owed t then TBTreeMap_repack t B else Ok t);
      Ok (t, Some held)
  end.

(** ** Walking *)

Definition TBTreeMap_seat (t : TBTreeMap) (probe : K) : res (option (Z * nat)) :=
  if tb_root t =? NONE then Ok None else
  at_ ← descent t probe;
  leaf ← idx (tb_leaves t) (slot_of at_);
  found ← seek (lf_win leaf) (lf_lead leaf) (lf_keys leaf) (lf_len leaf) probe;
  Ok (Some (at_, match found with Held slot | Gap slot => slot end)).

Fixpoint last_descend (fuel : nat) (t : TBTreeMap) (at_ : Z) : res Z :=
  match fuel with
  | O => Panic
  | S fuel =>
      if is_inner at_ then
        inner ← idx (tb_inners t) (slot_of at_);
        at_ ← idx (in_kids inner) (in_len inner);
        last_descend fuel t at_
      else Ok at_
  end.

Definition TBTreeMap_last_leaf (t : TBTreeMap) : res (option Z) :=
  if tb_root t =? NONE then Ok None else
  at_ ← last_descend (S (length (tb_inners t))) t (tb_root t); Ok (Some at_).

Definition key_eqb (a b : K) : bool := match key_cmp a b with Eq => true | _ => false end.
Definition key_leb (a b : K) : bool := match key_cmp a b with Gt => false | _ => true end.
Definition key_ltb (a b : K) : bool := match key_cmp a b with Lt => true | _ => false end.

(** Where the pairs at a key or past it start. *)
Definition seat_at (t : TBTreeMap) (key : K) : res (Z * nat) :=
  found ← TBTreeMap_seat t key; Ok (default (NONE, 0%nat) found).

(** Where the pairs past a key start: a slot behind the leaf's keys holds a filler and is not read. *)
Definition seat_past (t : TBTreeMap) (key : K) : res (Z * nat) :=
  found ← TBTreeMap_seat t key;
  match found with
  | Some (at_, slot) =>
      leaf ← idx (tb_leaves t) (slot_of at_);
      if (slot <? lf_len leaf)%nat then
        held ← idx (lf_keys leaf) slot;
        Ok (if key_eqb held key then (at_, slot + 1)%nat else (at_, slot))
      else Ok (at_, slot)
  | None => Ok (NONE, 0%nat)
  end.

Definition range_start (t : TBTreeMap) (low : Bound K) : res (Z * nat) :=
  match low with
  | Unbounded => Ok (tb_first t, 0%nat)
  | Included key => seat_at t key
  | Excluded key => seat_past t key
  end.

Definition below_high (high : Bound K) (key : K) : bool :=
  match high with Unbounded => true | Included e => key_leb key e | Excluded e => key_ltb key e end.
Definition above_low (low : Bound K) (key : K) : bool :=
  match low with Unbounded => true | Included e => key_leb e key | Excluded e => key_ltb e key end.

Fixpoint range_walk (fuel : nat) (t : TBTreeMap) (high : Bound K) (at_ : Z) (slot : nat) : res (list (K * V)) :=
  match fuel with
  | O => Panic
  | S fuel =>
      if at_ =? NONE then Ok [] else
      leaf ← idx (tb_leaves t) (slot_of at_);
      if (lf_len leaf <=? slot)%nat then range_walk fuel t high (lf_next leaf) 0 else
      key ← idx (lf_keys leaf) slot;
      val ← idx (lf_vals leaf) slot;
      if negb (below_high high key) then Ok [] else
      rest ← range_walk fuel t high at_ (slot + 1);
      Ok ((key, val) :: rest)
  end.

Definition walk_fuel (t : TBTreeMap) : nat := S (tb_len t + length (tb_leaves t)).

Definition TBTreeMap_range (t : TBTreeMap) (low high : Bound K) : res (list (K * V)) :=
  '(at_, slot) ← range_start t low;
  range_walk (walk_fuel t) t high at_ slot.

Fixpoint runs_walk (fuel : nat) (t : TBTreeMap) (at_ : Z) (slot : nat) : res (list (list K * list V)) :=
  match fuel with
  | O => Panic
  | S fuel =>
      if at_ =? NONE then Ok [] else
      leaf ← idx (tb_leaves t) (slot_of at_);
      rest ← runs_walk fuel t (lf_next leaf) 0;
      if (slot <? lf_len leaf)%nat then
        keys ← span (lf_keys leaf) slot (lf_len leaf);
        vals ← span (lf_vals leaf) slot (lf_len leaf);
        Ok ((keys, vals) :: rest)
      else Ok rest
  end.

Definition TBTreeMap_range_runs (t : TBTreeMap) (low : Bound K) : res (list (list K * list V)) :=
  '(at_, slot) ← range_start t low;
  runs_walk (walk_fuel t) t at_ slot.

Definition range_back_start (t : TBTreeMap) (high : Bound K) : res (Z * nat) :=
  match high with
  | Unbounded =>
      found ← TBTreeMap_last_leaf t;
      match found with
      | Some at_ => leaf ← idx (tb_leaves t) (slot_of at_); Ok (at_, lf_len leaf)
      | None => Ok (NONE, 0%nat)
      end
  | Included key => seat_past t key
  | Excluded key => seat_at t key
  end.

Fixpoint range_back_walk (fuel : nat) (t : TBTreeMap) (low : Bound K) (at_ : Z) (slot : nat) : res (list (K * V)) :=
  match fuel with
  | O => Panic
  | S fuel =>
      if at_ =? NONE then Ok [] else
      leaf ← idx (tb_leaves t) (slot_of at_);
      match slot with
      | O =>
          let at_ := lf_prev leaf in
          slot ← (if at_ =? NONE then Ok 0%nat else leaf ← idx (tb_leaves t) (slot_of at_); Ok (lf_len leaf));
          range_back_walk fuel t low at_ slot
      | S slot =>
          key ← idx (lf_keys leaf) slot;
          val ← idx (lf_vals leaf) slot;
          if negb (above_low low key) then Ok [] else
          rest ← range_back_walk fuel t low at_ slot;
          Ok ((key, val) :: rest)
      end
  end.

Definition TBTreeMap_range_back (t : TBTreeMap) (low high : Bound K) : res (list (K * V)) :=
  '(at_, slot) ← range_back_start t high;
  range_back_walk (walk_fuel t) t low at_ slot.

Fixpoint first_walk (fuel : nat) (t : TBTreeMap) (at_ : Z) : res (option (K * V)) :=
  match fuel with
  | O => Panic
  | S fuel =>
      if at_ =? NONE then Ok None else
      leaf ← idx (tb_leaves t) (Z.to_nat at_);
      if (0 <? lf_len leaf)%nat then
        key ← idx (lf_keys leaf) 0; val ← idx (lf_vals leaf) 0; Ok (Some (key, val))
      else first_walk fuel t (lf_next leaf)
  end.

Definition TBTreeMap_first_key_value (t : TBTreeMap) : res (option (K * V)) := first_walk (walk_fuel t) t (tb_first t).

Definition TBTreeMap_iter (t : TBTreeMap) : res (list (K * V)) := range_walk (walk_fuel t) t Unbounded (tb_first t) 0.

Definition TBTreeMap_chunks (t : TBTreeMap) : res (list (list K * list V)) :=
  chain ← chain_from (S (length (tb_leaves t))) t (tb_first t);
  mapm (fun at_ => leaf ← idx (tb_leaves t) at_;
                   keys ← front (lf_keys leaf) (lf_len leaf);
                   vals ← front (lf_vals leaf) (lf_len leaf);
                   Ok (keys, vals)) chain.

(** ** Many keys at once *)

Definition LANES : nat := 16.

(** One lane in a pass over them: still above a leaf, it goes down a level. *)
Definition lane_step (t : TBTreeMap) (acc : list (K * Z) * bool) (lane : K * Z) : res (list (K * Z) * bool) :=
  let '(done, moving) := acc in
  let '(key, at_) := lane in
  if negb (is_inner at_) then Ok (done ++ [(key, at_)], moving) else
  inner ← idx (tb_inners t) (slot_of at_);
  down ← inner_seek inner key;
  at_ ← idx (in_kids inner) down;
  Ok (done ++ [(key, at_)], true).

Definition lanes_step (t : TBTreeMap) (lanes : list (K * Z)) : res (list (K * Z) * bool) := foldm (lane_step t) lanes ([], false).

Fixpoint lanes_descend (fuel : nat) (t : TBTreeMap) (lanes : list (K * Z)) : res (list (K * Z)) :=
  match fuel with
  | O => Panic
  | S fuel =>
      '(lanes, moving) ← lanes_step t lanes;
      if moving : bool then lanes_descend fuel t lanes else Ok lanes
  end.

(** What a leaf answers a probe. *)
Definition leaf_answer (t : TBTreeMap) (at_ : Z) (probe : K) : res (option V) :=
  leaf ← idx (tb_leaves t) (slot_of at_);
  found ← seek (lf_win leaf) (lf_lead leaf) (lf_keys leaf) (lf_len leaf) probe;
  match found with
  | Held slot => val ← idx (lf_vals leaf) slot; Ok (Some val)
  | Gap _ => Ok None
  end.

Definition lanes_answer (t : TBTreeMap) (run : list K) : res (list (option V)) :=
  lanes ← lanes_descend (S (S (length (tb_inners t)))) t (map (fun key => (key, tb_root t)) run);
  mapm (fun '(key, at_) => leaf_answer t at_ key) lanes.

Definition TBTreeMap_get_many (t : TBTreeMap) (keys : list K) : res (list (option V)) :=
  if tb_root t =? NONE then Ok (replicate (length keys) None) else
  answers ← mapm (lanes_answer t) (chunks_of (length keys) LANES keys);
  Ok (concat answers).

(** The [windows(2)] loop, with the lead of the key before. *)
Fixpoint ordered_from (before : K) (held : Z) (keys : list K) : bool :=
  match keys with
  | [] => true
  | key :: keys =>
      let next := head key in
      if (next <? held) || ((held =? next) && match key_cmp before key with Gt => true | _ => false end) then false
      else ordered_from key next keys
  end.

Definition ordered (keys : list K) : bool :=
  match keys with [] => true | first :: keys => ordered_from first (head first) keys end.

(** How many of the keys from the front stay left of a separator. *)
Fixpoint left_of (inner : Inner) (lead : Z) (held : option K) (keys : list K) : nat :=
  match keys with
  | [] => O
  | key :: keys =>
      let stays := match rank_cmp (rank (in_win inner) key) (1, lead) with
                   | Lt => true
                   | Eq => match held with Some full => key_ltb key full | None => false end
                   | Gt => false
                   end in
      if stays then S (left_of inner lead held keys) else O
  end.

(** The [for sep in 0..=inner.len] loop: the runs of keys each child takes, pushed on the stack. *)
Definition spread_step (inner : Inner) (keys : list K) (high : nat) (acc : list (Z * nat * nat) * nat) (sep : nat)
    : res (list (Z * nat * nat) * nat) :=
  let '(work, slot) := acc in
  if (high <=? slot)%nat then Ok (work, slot) else
  end_ ← (if (sep <? in_len inner)%nat then
            lead ← idx (in_lead inner) sep;
            Ok (slot + left_of inner lead (spill_of (in_spill inner) sep) (take (high - slot) (drop slot keys)))%nat
          else Ok high);
  if (slot <? end_)%nat then kid ← idx (in_kids inner) sep; Ok ((kid, slot, end_) :: work, end_)
  else Ok (work, end_).

Definition leaf_run (t : TBTreeMap) (at_ : Z) (keys : list K) (low high : nat) (out : list (option V)) : res (list (option V)) :=
  foldm (fun out slot => key ← idx keys slot; answer ← leaf_answer t at_ key; set_idx out slot answer)
    (seq low (high - low)) out.

(** The work stack, its top first: every entry taken is a node with a run of keys of its own. *)
Fixpoint sorted_work (fuel : nat) (t : TBTreeMap) (keys : list K) (work : list (Z * nat * nat)) (out : list (option V))
    : res (list (option V)) :=
  match fuel with
  | O => Panic
  | S fuel =>
      match work with
      | [] => Ok out
      | (at_, low, high) :: work =>
          if negb (is_inner at_) then
            out ← leaf_run t at_ keys low high out;
            sorted_work fuel t keys work out
          else
            inner ← idx (tb_inners t) (slot_of at_);
            '(work, _) ← foldm (spread_step inner keys high) (seq 0 (in_len inner + 1)) (work, low);
            sorted_work fuel t keys work out
      end
  end.

Definition TBTreeMap_get_many_sorted (t : TBTreeMap) (keys : list K) : res (list (option V)) :=
  if negb (ordered keys) then TBTreeMap_get_many t keys else
  let out := replicate (length keys) None in
  if match keys with [] => true | _ => false end || (tb_root t =? NONE) then Ok out else
  sorted_work (S (length (tb_inners t) + length (tb_leaves t) + 1)) t keys [(tb_root t, 0%nat, length keys)] out.

End tree.
