(* ===== verification/TBTreeRep.v ===== *)
(** * What a tree holds ([index/tbtreemap.rs])

    The invariant of [TBTreeMap]: the arenas hold a tree of one height whose separators bound every
    subtree, every node's leads agree with its window, and the leaves are chained in order. The node
    searches are shown to find the place the keys themselves give. *)
From S2P Require Import Prelude Error Arrays Bytes TreeKey TBTree.

Section order.
Context {K : Type} `{TKL : TreeKeyLaws K}.
Implicit Types (a b c k : K) (ks : list K).

Lemma key_lt_irrefl a : ~ key_lt a a.
Proof. unfold key_lt; by rewrite (proj2 (key_cmp_eq a a) eq_refl). Qed.

Lemma key_cmp_gt a b : key_cmp a b = Gt <-> key_lt b a.
Proof. unfold key_lt; rewrite (key_cmp_antisym a b); destruct (key_cmp a b); cbn; naive_solver. Qed.

Lemma key_le_lteq a b : key_le a b <-> key_lt a b \/ a = b.
Proof. unfold key_le, key_lt; rewrite <- key_cmp_eq; destruct (key_cmp a b); naive_solver. Qed.

Lemma key_nlt_le a b : ~ key_lt a b <-> key_le b a.
Proof. unfold key_le; rewrite key_cmp_gt; unfold key_lt; destruct (key_cmp a b) eqn:E; naive_solver. Qed.

Lemma key_lt_le a b : key_lt a b -> key_le a b.
Proof. rewrite key_le_lteq; auto. Qed.

Lemma key_le_refl a : key_le a a.
Proof. rewrite key_le_lteq; auto. Qed.

Lemma key_le_lt_trans a b c : key_le a b -> key_lt b c -> key_lt a c.
Proof. rewrite key_le_lteq; intros [?| ->]; eauto using key_lt_trans. Qed.

Lemma key_lt_le_trans a b c : key_lt a b -> key_le b c -> key_lt a c.
Proof. rewrite key_le_lteq; intros ? [?| ->]; eauto using key_lt_trans. Qed.

Lemma key_le_trans a b c : key_le a b -> key_le b c -> key_le a c.
Proof. rewrite !key_le_lteq; intros [?| ->] [?| ->]; eauto using key_lt_trans. Qed.

Lemma key_lt_not_eq a b : key_lt a b -> a <> b.
Proof. intros Hlt ->; by apply key_lt_irrefl in Hlt. Qed.

Lemma key_lt_asym a b : key_lt a b -> ~ key_lt b a.
Proof. intros H1 H2; apply (key_lt_irrefl a); eauto using key_lt_trans. Qed.

Lemma key_ltb_lt a b : key_ltb a b = true <-> key_lt a b.
Proof. unfold key_ltb, key_lt; destruct (key_cmp a b); naive_solver. Qed.

Lemma key_leb_le a b : key_leb a b = true <-> key_le a b.
Proof. unfold key_leb, key_le; destruct (key_cmp a b); naive_solver. Qed.

Lemma key_eqb_eq a b : key_eqb a b = true <-> a = b.
Proof. rewrite <- key_cmp_eq; unfold key_eqb; destruct (key_cmp a b); naive_solver. Qed.

Lemma lead_le w a b : inside w a -> inside w b -> key_lt a b -> window_lead w a <= window_lead w b.
Proof.
  intros Ha Hb Hlt; destruct (Z.le_gt_cases (window_lead w a) (window_lead w b)) as [?|Hgt]; [done|].
  apply (lead_mono w b a) in Hgt; [| done | done]; by apply key_lt_asym in Hlt.
Qed.

(** ** The leads of sorted keys *)

(** Sorted keys inside a window split where their leads reach a word. *)
Lemma count_split w ks want : StronglySorted key_lt ks -> Forall (inside w) ks ->
  exists l r, ks = l ++ r /\ length l = count_scalar (map (window_lead w) ks) want
    /\ Forall (fun k => window_lead w k < want) l /\ Forall (fun k => want <= window_lead w k) r.
Proof.
  induction 1 as [|k ks _ IH Hk]; intros Hin; [by exists [], []|].
  apply Forall_cons in Hin as [Hik Hin]; destruct (IH Hin) as (l & r & -> & Hl & Hfl & Hfr).
  unfold count_scalar in *; cbn [map List.filter]; destruct (Z.ltb_spec (window_lead w k) want).
  - exists (k :: l), r; split_and!; [done | cbn [length]; by rewrite Hl | by constructor | done].
  - exists [], (k :: l ++ r); assert (Forall (fun k => want <= window_lead w k) (l ++ r)) as Hall.
    { rewrite Forall_forall in Hin, Hk |- *; intros x Hx; cbv beta.
      pose proof (lead_le w k x Hik (Hin x Hx) (Hk x Hx)); lia. }
    assert (l = []) as ->.
    { destruct l as [|x l]; [done|]; apply Forall_cons in Hfl as [Hx _]; apply Forall_cons in Hall as [Hx' _]; lia. }
    split_and!; [done | cbn [length]; by rewrite <- Hl | constructor | by constructor].
Qed.

End order.

(** Keys numbered from a slot on, the run a node's spill is. *)
Fixpoint numbered {K} (slot : nat) (ks : list K) : list (nat * K) :=
  match ks with [] => [] | k :: ks => (slot, k) :: numbered (S slot) ks end.

Section numbered.
Context {K : Type}.
Implicit Types (ks : list K).

Lemma numbered_app c a b : numbered c (a ++ b : list K) = numbered c a ++ numbered (c + length a) b.
Proof.
  revert c; induction a as [|x a IH]; intros c; cbn [app numbered length]; [by rewrite Nat.add_0_r|].
  rewrite IH; by replace (c + S (length a))%nat with (S c + length a)%nat by lia.
Qed.

Lemma length_numbered c ks : length (numbered c ks) = length ks.
Proof. revert c; induction ks; intros; cbn; auto. Qed.

Lemma map_snd_numbered c ks : map snd (numbered c ks) = ks.
Proof. revert c; induction ks as [|k ks IH]; intros; cbn; [done|]; by rewrite IH. Qed.

Lemma lookup_numbered c ks i : numbered c ks !! i = (fun k => ((c + i)%nat, k)) <$> ks !! i.
Proof.
  revert c i; induction ks as [|k ks IH]; intros c [|i]; cbn; [done | done | by rewrite Nat.add_0_r |].
  rewrite IH; destruct (ks !! i); cbn; [do 2 f_equal; lia | done].
Qed.

Lemma drop_numbered c ks n : drop n (numbered c ks) = numbered (c + n) (drop n ks).
Proof.
  revert c n; induction ks as [|k ks IH]; intros c [|n]; cbn [numbered drop skipn]; try done; [by rewrite Nat.add_0_r|].
  rewrite IH; f_equal; lia.
Qed.

Lemma numbered_point c ks slot : (c <= slot)%nat ->
  partition_point (fun e => (e.1 <? slot)%nat) (numbered c ks) = Nat.min (slot - c) (length ks).
Proof.
  revert c; induction ks as [|k ks IH]; intros c Hc; cbn [numbered partition_point fst length]; [lia|].
  destruct (Nat.ltb_spec c slot); [rewrite IH by lia; lia | lia].
Qed.

Lemma spill_here_numbered ks slot : spill_here (numbered 0 ks) slot slot = ks !! slot.
Proof.
  unfold spill_here; rewrite lookup_numbered; cbn [Nat.add]; destruct (ks !! slot); cbn; [| done].
  by rewrite Nat.eqb_refl.
Qed.

Lemma spill_of_numbered ks slot : (slot < length ks)%nat -> spill_of (numbered 0 ks) slot = ks !! slot.
Proof.
  intros Hs; unfold spill_of, spill_from; rewrite numbered_point by lia.
  replace (Nat.min _ _) with slot by lia; apply spill_here_numbered.
Qed.

Lemma spill_at_numbered ks cursor slot : (cursor <= slot < length ks)%nat ->
  spill_at (numbered 0 ks) cursor slot = (ks !! slot, slot).
Proof.
  intros Hs; unfold spill_at; rewrite drop_numbered, numbered_point by lia; rewrite length_drop.
  replace (cursor + _)%nat with slot by lia; by rewrite spill_here_numbered.
Qed.

Lemma take_spill_numbered (a b : list K) k :
  take_spill (numbered 0 (a ++ k :: b)) (length a) = (Some k, numbered 0 a ++ numbered (S (length a)) b).
Proof.
  unfold take_spill, spill_from; rewrite numbered_point, length_app by lia; cbn [length].
  replace (Nat.min _ _) with (length a) by lia; rewrite lookup_numbered, list_lookup_middle by done; cbn.
  rewrite Nat.eqb_refl, numbered_app; cbn [numbered]; rewrite Nat.add_0_l; f_equal; f_equal.
  - by rewrite take_app_length' by (symmetry; apply length_numbered).
  - rewrite (drop_app_ge _ _ (S _)) by (rewrite length_numbered; lia); rewrite length_numbered.
    by replace (S (length a) - length a)%nat with 1%nat by lia.
Qed.

Lemma spill_slot_small slot : (slot < 256)%nat -> spill_slot slot = slot.
Proof. intros; unfold spill_slot; rewrite as_u8_small by (unfold is_u8, U8; lia); lia. Qed.

Lemma split_spill_numbered (a b : list K) half : (length a <= half < 256)%nat ->
  split_spill (numbered 0 a ++ numbered (S half) b) half = (numbered 0 a, numbered 0 b).
Proof.
  intros Hh; unfold split_spill; rewrite fold_left_app.
  assert (forall acc c, (c + length a <= half)%nat -> fold_left (fun '(kept, moved) '(slot, key) =>
    if (half <? slot)%nat then (kept, moved ++ [((slot - spill_slot half - 1)%nat, key)])
    else (kept ++ [(slot, key)], moved)) (numbered c a) (acc, []) = (acc ++ numbered c a, @nil (nat * K))) as Ha.
  { clear; induction a as [|x a IH]; intros acc c Hc; cbn [numbered fold_left length] in *; [by rewrite app_nil_r|].
    destruct (Nat.ltb_spec half c); [lia|]; rewrite IH by lia; by rewrite <- app_assoc. }
  rewrite Ha by lia; rewrite app_nil_l; clear Ha.
  assert (forall kept moved c, fold_left (fun '(kept, moved) '(slot, key) =>
    if (half <? slot)%nat then (kept, moved ++ [((slot - spill_slot half - 1)%nat, key)])
    else (kept ++ [(slot, key)], moved)) (numbered (S half + c) b) (kept, moved) = (kept : list (nat * K), moved ++ numbered c b)) as Hb.
  { assert (half < 256)%nat as Hh' by lia; clear a Hh; induction b as [|x b IH]; intros kept moved c; cbn [numbered fold_left]; [by rewrite app_nil_r|].
    destruct (Nat.ltb_spec half (S half + c)); [| lia].
    replace (S (S half + c))%nat with (S half + S c)%nat by lia; rewrite IH, <- app_assoc, (spill_slot_small half) by done; cbn [app].
    by replace (S half + c - half - 1)%nat with c by lia. }
  specialize (Hb (numbered 0 a) [] 0%nat); rewrite Nat.add_0_r in Hb; exact Hb.
Qed.

Lemma shift_numbered_lt c ks slot : (c + length ks <= slot)%nat -> shift_spill (numbered c ks) slot = numbered c ks.
Proof.
  revert c; induction ks as [|k ks IH]; intros c Hc; cbn [numbered shift_spill map length] in *; [done|].
  unfold shift_spill in IH; rewrite IH by lia; by destruct (Nat.leb_spec slot c); [lia|].
Qed.

Lemma shift_numbered_ge c ks slot : (slot <= c)%nat -> shift_spill (numbered c ks) slot = numbered (S c) ks.
Proof.
  revert c; induction ks as [|k ks IH]; intros c Hc; cbn [numbered shift_spill map] in *; [done|].
  unfold shift_spill in IH; rewrite IH by lia; destruct (Nat.leb_spec slot c); [| lia]; by rewrite Nat.add_1_r.
Qed.

Lemma partition_point_split {A} (test : A -> bool) a b : Forall (fun x => test x = true) a ->
  match b with [] => True | x :: _ => test x = false end -> partition_point test (a ++ b) = length a.
Proof.
  induction 1 as [|x a Hx _ IH]; intros Hb; cbn [app partition_point length].
  - destruct b as [|y b]; [done|]; cbn; by rewrite Hb.
  - by rewrite Hx, IH.
Qed.

Lemma numbered_range c ks : Forall (fun e => (c <= e.1 < c + length ks)%nat) (numbered c ks).
Proof.
  revert c; induction ks as [|k ks IH]; intros c; cbn [numbered length]; constructor; [cbn; lia|].
  eapply Forall_impl; [apply IH|]; cbv beta; lia.
Qed.

(** A separator hung between two runs. *)
Lemma put_spill_numbered (a b : list K) key : (length a < 256)%nat ->
  put_spill (shift_spill (numbered 0 (a ++ b)) (length a)) (length a) key = numbered 0 (a ++ key :: b).
Proof.
  intros Ha; rewrite !numbered_app, Nat.add_0_l; unfold shift_spill; rewrite map_app.
  fold (shift_spill (numbered 0 a) (length a)) (shift_spill (numbered (length a) b) (length a)).
  rewrite shift_numbered_lt, shift_numbered_ge by lia; unfold put_spill, spill_from.
  assert (partition_point (fun e => (e.1 <? length a)%nat) (numbered 0 a ++ numbered (S (length a)) b) = length a) as ->.
  { rewrite <- (length_numbered 0 a) at 2; apply partition_point_split; [| destruct b; [done | by apply Nat.ltb_ge; cbn; lia]].
    eapply Forall_impl; [apply numbered_range|]; intros [i k] Hi; apply Nat.ltb_lt; cbn [fst] in *; lia. }
  by rewrite take_app_length', drop_app_length', spill_slot_small by (done || symmetry; apply length_numbered).
Qed.

End numbered.

Section rep.
Context {K V : Type} `{TKL : TreeKeyLaws K} `{Inhabited V}.
Variable scan : Scan.
Variable B : nat.

(** ** Nodes *)

(** The keys a node searches, with the leads its window gives them. *)
Record searchable (w : Window) (leads : list Z) (ks : list K) : Prop := {
  sc_window : window_ok w;
  sc_wf : Forall key_wf ks;
  sc_inside : Forall (inside w) ks;
  sc_lead : take (length ks) leads = map (window_lead w) ks;
}.

Record leaf_rep (leaf : @Leaf K V _) (items : list (K * V)) : Prop := {
  lr_len : lf_len leaf = length items;
  lr_leads : length (lf_lead leaf) = B;
  lr_keys : length (lf_keys leaf) = B;
  lr_vals : length (lf_vals leaf) = B;
  lr_fits : (length items <= B)%nat;
  lr_key : take (length items) (lf_keys leaf) = map fst items;
  lr_val : take (length items) (lf_vals leaf) = map snd items;
  lr_search : searchable (lf_win leaf) (lf_lead leaf) (map fst items);
}.

Definition spill_run (seps : list K) : list (nat * K) := if whole then numbered 0 seps else [].

Record inner_rep (inner : @Inner K _) (seps : list K) (kids : list Z) : Prop := {
  ir_len : in_len inner = length seps;
  ir_leads : length (in_lead inner) = B;
  ir_kids : length (in_kids inner) = B;
  ir_fits : (length seps < B)%nat;
  ir_kid : take (S (length seps)) (in_kids inner) = kids;
  ir_search : searchable (in_win inner) (in_lead inner) seps;
  ir_spill : in_spill inner = spill_run seps;
}.

(** Where a probe is among sorted keys. *)
Definition seated (ks : list K) (probe : K) (s : Seat) : Prop :=
  match s with
  | Held i => exists l r, ks = l ++ probe :: r /\ length l = i
      /\ Forall (fun k => key_lt k probe) l /\ Forall (key_lt probe) r
  | Gap i => exists l r, ks = l ++ r /\ length l = i
      /\ Forall (fun k => key_lt k probe) l /\ Forall (key_lt probe) r
  end.

Lemma searchable_u64 w leads ks : searchable w leads ks -> Forall is_u64 (take (length ks) leads).
Proof.
  intros [_ Hwf _ ->]; apply Forall_map; eapply Forall_impl; [exact Hwf|]; intros; by apply lead_u64.
Qed.

Lemma lookup_of_take {A} (l : list A) n ks i x : take n l = ks -> ks !! i = Some x -> l !! i = Some x.
Proof. intros <- Hx; by apply lookup_take_Some in Hx as [? _]. Qed.

Lemma lead_at w leads ks l k r : searchable w leads ks -> ks = l ++ k :: r -> leads !! length l = Some (window_lead w k).
Proof.
  intros Hs ->; eapply lookup_of_take; [apply sc_lead; exact Hs|]; rewrite map_app; cbn [map].
  by rewrite list_lookup_middle by (by rewrite length_map).
Qed.

Lemma seek_ties_spec w leads keys ks probe : searchable w leads ks -> take (length ks) keys = ks ->
  inside w probe -> StronglySorted key_lt ks -> forall r l fuel, ks = l ++ r -> (length r < fuel)%nat ->
  Forall (fun k => key_lt k probe) l -> Forall (fun k => window_lead w probe <= window_lead w k) r ->
  exists s, seek_ties fuel leads keys (length ks) (window_lead w probe) probe (length l) = Ok s /\ seated ks probe s.
Proof.
  intros Hs Hk Hp Hsort r; induction r as [|k r IH]; intros l fuel E Hf Hl Hr; (destruct fuel as [|fuel]; [lia|]); cbn [seek_ties].
  { rewrite app_nil_r in E; subst l; rewrite Nat.ltb_irrefl; eexists; split; [done|].
    exists ks, []; by rewrite app_nil_r. }
  destruct (Nat.ltb_spec (length l) (length ks)); [| rewrite E, length_app in *; cbn [length] in *; lia].
  unfold idx; rewrite (lead_at w leads ks l k r Hs E); res_simpl.
  assert (Forall (key_lt k) r) as Hkr.
  { rewrite E in Hsort; apply StronglySorted_app in Hsort as (_ & _ & Hsort); by apply StronglySorted_inv in Hsort as [_ ?]. }
  assert (key_lt probe k -> seated ks probe (Gap (length l))) as Hgap.
  { intros Hlt; exists l, (k :: r); split_and!; [done | done | done |]; constructor; [done|].
    eapply Forall_impl; [exact Hkr|]; intros x; by apply key_lt_trans. }
  apply Forall_cons in Hr as [Hkw Hr]; destruct (Z.eqb_spec (window_lead w k) (window_lead w probe)) as [Ew|Ew].
  - assert (keys !! length l = Some k) as -> by (eapply lookup_of_take; [exact Hk|]; rewrite E; by apply list_lookup_middle).
    res_simpl; destruct (key_cmp k probe) eqn:Ec.
    + apply key_cmp_eq in Ec; subst k; eexists; split; [done|]; exists l, r; done.
    + destruct (IH (l ++ [k]) fuel) as (s & Es & Hseat); rewrite ?length_app in *; cbn [length] in *; [by rewrite <- app_assoc | lia | | done |].
      * apply Forall_app; split; [done | by constructor].
      * eexists; split; [exact Es | done].
    + eexists; split; [done|]; by apply Hgap, key_cmp_gt.
  - eexists; split; [done|]; apply Hgap, (lead_mono w); [done | | lia].
    pose proof (sc_inside _ _ _ Hs) as Hin; rewrite E in Hin; apply Forall_app in Hin as [_ Hin]; by apply Forall_cons in Hin as [? _].
Qed.

(** The search of a leaf finds the probe's place among its keys. *)
Lemma seek_spec w leads keys ks probe : searchable w leads ks -> (length ks <= length leads)%nat ->
  take (length ks) keys = ks -> StronglySorted key_lt ks -> key_wf probe ->
  exists s, seek scan w leads keys (length ks) probe = Ok s /\ seated ks probe s.
Proof.
  intros Hs Hl Hk Hsort Hp; unfold seek; pose proof (sc_window _ _ _ Hs) as Hw; pose proof (sc_inside _ _ _ Hs) as Hin.
  destruct (window_word w probe) as [want|[|]] eqn:Ew.
  - apply word_lead in Ew as [Hpi ->]; [| done]; rewrite front_Ok by done; res_simpl.
    rewrite count_below_scalar by (by eauto using searchable_u64, lead_u64); rewrite (sc_lead _ _ _ Hs).
    destruct (count_split w ks (window_lead w probe) Hsort Hin) as (l & r & E & <- & Hfl & Hfr).
    apply (seek_ties_spec w leads keys ks probe Hs Hk Hpi Hsort r l); [done | rewrite E, length_app; lia | | done].
    rewrite E in Hin; apply Forall_app in Hin as [Hin _].
    eapply Forall_impl; [exact (proj2 (Forall_and _ _) (conj Hfl Hin))|]; intros x [? ?]; by apply (lead_mono w).
  - eexists; split; [done|]; exists [], ks; split_and!; [done | done | constructor |].
    eapply Forall_impl; [exact Hin|]; intros k Hk'; by eapply word_below.
  - eexists; split; [done|]; exists ks, []; rewrite app_nil_r; split_and!; [done | done | | constructor].
    eapply Forall_impl; [exact Hin|]; intros k Hk'; by eapply word_above.
Qed.

(** Where a probe goes among separators: right of those at or under it. *)
Definition routed (seps : list K) (probe : K) (i : nat) : Prop :=
  exists l r, seps = l ++ r /\ length l = i /\ Forall (fun s => key_le s probe) l /\ Forall (key_lt probe) r.

Lemma inner_ties_spec inner seps kids probe : inner_rep inner seps kids ->
  inside (in_win inner) probe -> StronglySorted key_lt seps -> forall r l fuel cursor, seps = l ++ r -> (length r < fuel)%nat ->
  (cursor <= length l)%nat -> Forall (fun s => key_le s probe) l ->
  Forall (fun k => window_lead (in_win inner) probe <= window_lead (in_win inner) k) r ->
  exists i, inner_ties fuel inner (window_lead (in_win inner) probe) probe (length l) cursor = Ok i /\ routed seps probe i.
Proof.
  intros Hi Hp Hsort r; pose proof (ir_search _ _ _ Hi) as Hs; set (w := in_win inner) in *.
  induction r as [|k r IH]; intros l fuel cursor E Hf Hc Hl Hr; (destruct fuel as [|fuel]; [lia|]); cbn [inner_ties]; rewrite (ir_len _ _ _ Hi).
  { rewrite app_nil_r in E; subst l; rewrite Nat.ltb_irrefl; eexists; split; [done|].
    exists seps, []; by rewrite app_nil_r. }
  destruct (Nat.ltb_spec (length l) (length seps)); [| rewrite E, length_app in *; cbn [length] in *; lia].
  unfold idx; rewrite (lead_at w (in_lead inner) seps l k r Hs E); res_simpl.
  assert (key_lt probe k -> routed seps probe (length l)) as Hgap.
  { intros Hlt; exists l, (k :: r); split_and!; [done | done | done |]; constructor; [done|].
    rewrite E in Hsort; apply StronglySorted_app in Hsort as (_ & _ & Hsort); apply StronglySorted_inv in Hsort as [_ Hkr].
    eapply Forall_impl; [exact Hkr|]; intros x; by apply key_lt_trans. }
  apply Forall_cons in Hr as [Hkw Hr]; destruct (Z.eqb_spec (window_lead w k) (window_lead w probe)) as [Ew|Ew].
  - assert (forall cursor, (cursor <= length l + 1)%nat -> key_le k probe -> exists i,
      inner_ties fuel inner (window_lead w probe) probe (length l + 1) cursor = Ok i /\ routed seps probe i) as Hnext.
    { intros c Hc' Hle; destruct (IH (l ++ [k]) fuel c) as (i & Es & Hseat); rewrite ?length_app in *; cbn [length] in *;
        [by rewrite <- app_assoc | lia | lia | | done |].
      - apply Forall_app; split; [done | by constructor].
      - eexists; split; [exact Es | done]. }
    rewrite (ir_spill _ _ _ Hi); unfold spill_run; destruct whole eqn:Ewh.
    + rewrite spill_at_numbered by lia; rewrite E, list_lookup_middle by done; rewrite <- E.
      destruct (key_cmp k probe) eqn:Ec; [apply Hnext; [lia|] | apply Hnext; [lia|] | ].
      * unfold key_le; by rewrite Ec.
      * unfold key_le; by rewrite Ec.
      * eexists; split; [done|]; by apply Hgap, key_cmp_gt.
    + assert (spill_at (@nil (nat * K)) cursor (length l) = (None, cursor)) as ->.
      { unfold spill_at; by rewrite skipn_nil, Nat.add_0_r. }
      apply Hnext; [lia|]; apply (lead_exact w k probe) in Ewh as (_ & _ & Hinj); rewrite (Hinj Ew); apply key_le_refl.
  - eexists; split; [done|]; apply Hgap, (lead_mono w); [done | | lia].
    pose proof (sc_inside _ _ _ Hs) as Hin; rewrite E in Hin; apply Forall_app in Hin as [_ Hin]; by apply Forall_cons in Hin as [? _].
Qed.

(** The search of an inner node finds the child whose separators hold the probe. *)
Lemma inner_seek_spec inner seps kids probe : inner_rep inner seps kids -> StronglySorted key_lt seps -> key_wf probe ->
  exists i, inner_seek scan inner probe = Ok i /\ routed seps probe i.
Proof.
  intros Hi Hsort Hp; unfold inner_seek; pose proof (ir_search _ _ _ Hi) as Hs; rewrite (ir_len _ _ _ Hi).
  pose proof (sc_window _ _ _ Hs) as Hw; pose proof (sc_inside _ _ _ Hs) as Hin.
  destruct (Nat.eqb_spec (length seps) 0) as [E0|_].
  { apply nil_length_inv in E0 as ->; eexists; split; [done|]; exists [], []; by repeat split. }
  destruct (window_word (in_win inner) probe) as [want|[|]] eqn:Ew.
  - apply word_lead in Ew as [Hpi ->]; [| done]; rewrite front_Ok by (rewrite (ir_leads _ _ _ Hi); pose proof (ir_fits _ _ _ Hi); lia).
    res_simpl; rewrite count_below_scalar by (by eauto using searchable_u64, lead_u64); rewrite (sc_lead _ _ _ Hs).
    destruct (count_split (in_win inner) seps (window_lead (in_win inner) probe) Hsort Hin) as (l & r & E & <- & Hfl & Hfr).
    apply (inner_ties_spec inner seps kids probe Hi Hpi Hsort r l); [done | rewrite E, length_app; lia | lia | | done].
    rewrite E in Hin; apply Forall_app in Hin as [Hin _].
    eapply Forall_impl; [exact (proj2 (Forall_and _ _) (conj Hfl Hin))|]; intros x [? ?]; by apply key_lt_le, (lead_mono (in_win inner)).
  - eexists; split; [done|]; exists [], seps; split_and!; [done | done | constructor |].
    eapply Forall_impl; [exact Hin|]; intros k Hk'; by eapply word_below.
  - eexists; split; [done|]; exists seps, []; rewrite app_nil_r; split_and!; [done | done | | constructor].
    eapply Forall_impl; [exact Hin|]; intros k Hk'; by eapply key_lt_le, word_above.
Qed.

(** ** Retuning *)

Lemma fill_leads {A} (get : nat -> res A) (f : A -> Z) (ks : list A) lead :
  (forall i k, ks !! i = Some k -> get i = Ok k) -> (length ks <= length lead)%nat ->
  exists lead', foldm (fun lead slot => key ← get slot; set_idx lead slot (f key)) (seq 0 (length ks)) lead = Ok lead'
    /\ length lead' = length lead /\ take (length ks) lead' = map f ks.
Proof.
  induction ks as [|k ks IH] using rev_ind; intros Hg Hl; [by exists lead|].
  rewrite length_app in *; cbn [length] in *; destruct IH as (lead' & E & Hl' & Et); [| lia |].
  { intros i x Hx; apply Hg; by apply lookup_app_l_Some. }
  rewrite seq_app, foldm_app, E; cbn [seq foldm mbind res_bind]; rewrite Nat.add_0_l.
  rewrite (Hg (length ks) k) by (by apply list_lookup_middle); res_simpl; rewrite set_idx_Ok by lia; res_simpl.
  eexists; split; [done|]; rewrite length_insert; split; [done|]; rewrite map_app; cbn [map].
  rewrite Nat.add_1_r, (take_S_r _ _ (f k)) by (apply list_lookup_insert_eq; lia).
  by rewrite take_insert_ge, Et by lia.
Qed.

(** A retuned leaf searches what it holds, whatever its leads were where a key fell outside. *)
Lemma Leaf_retune_ok leaf (ks : list K) : window_ok (lf_win leaf) -> Forall key_wf ks ->
  lf_len leaf = length ks -> (length ks <= length (lf_lead leaf))%nat -> (length ks <= length (lf_keys leaf))%nat ->
  take (length ks) (lf_keys leaf) = ks ->
  (Forall (inside (lf_win leaf)) ks -> take (length ks) (lf_lead leaf) = map (window_lead (lf_win leaf)) ks) ->
  exists w lead, Leaf_retune leaf = Ok (@mkLeaf K V _ (lf_len leaf) w lead (lf_keys leaf) (lf_vals leaf) (lf_next leaf) (lf_prev leaf))
    /\ length lead = length (lf_lead leaf) /\ searchable w lead ks.
Proof.
  intros Hw Hwf Hn Hl Hk Ek Hlead; unfold Leaf_retune; rewrite Hn, front_Ok, Ek by lia; res_simpl.
  destruct (tune_ok (lf_win leaf) ks Hw) as [Hw' Hin]; pose proof (tune_same (lf_win leaf) ks) as Hsame.
  destruct (window_tune (lf_win leaf) ks) as [w moved]; cbn [fst snd] in *; destruct moved; cbn [negb].
  - destruct (fill_leads (idx (lf_keys leaf)) (window_lead w) ks (lf_lead leaf)) as (lead & E & Hll & Et); [| done |].
    { intros i k Hi; apply idx_Ok; by eapply lookup_of_take. }
    rewrite E; res_simpl; do 2 eexists; split; [done|]; split; [done|]; by constructor.
  - rewrite Hsame in * by done; do 2 eexists; split; [done|]; split; [done|]; constructor; auto.
Qed.

Lemma Inner_retune_ok inner (seps : list K) : window_ok (in_win inner) -> Forall key_wf seps ->
  in_len inner = length seps -> (length seps <= length (in_lead inner))%nat -> in_spill inner = spill_run seps ->
  (Forall (inside (in_win inner)) seps -> take (length seps) (in_lead inner) = map (window_lead (in_win inner)) seps) ->
  exists w lead, Inner_retune inner = Ok (mkInner (in_len inner) w lead (in_kids inner) (in_spill inner))
    /\ length lead = length (in_lead inner) /\ searchable w lead seps.
Proof.
  intros Hw Hwf Hn Hl Es Hlead; unfold Inner_retune; rewrite Es; unfold spill_run; destruct whole eqn:Ewh.
  - rewrite map_snd_numbered; destruct (tune_ok (in_win inner) seps Hw) as [Hw' Hin].
    pose proof (tune_same (in_win inner) seps) as Hsame.
    destruct (window_tune (in_win inner) seps) as [w moved]; cbn [fst snd] in *; destruct moved; cbn [negb].
    + destruct (fill_leads (fun i => must (spill_of (numbered 0 seps) i)) (window_lead w) seps (in_lead inner))
        as (lead & E & Hll & Et); [| done |].
      { intros i k Hi; rewrite spill_of_numbered by (by eapply lookup_lt_Some); by rewrite Hi. }
      rewrite Hn, E; res_simpl; do 2 eexists; split; [done|]; split; [done|]; by constructor.
    + rewrite Hsame in * by done; do 2 eexists; split; [done|]; split; [done|]; constructor; auto.
  - cbn [map]; rewrite tune_nil; cbn [negb]; do 2 eexists; split; [done|]; split; [done|].
    assert (Forall (inside (in_win inner)) seps) as Hin
      by (apply Forall_true; intros k; by destruct (lead_exact (in_win inner) k k Ewh) as (? & _ & _)).
    constructor; auto.
Qed.

(** ** The tree behind the arenas *)

Inductive gtree :=
| GLeaf (at_ : nat) (items : list (K * V))
| GNode (at_ : nat) (seps : list K) (kids : list gtree).

Definition g_at (g : gtree) : Z :=
  match g with GLeaf a _ => Z.of_nat a | GNode a _ _ => Z.lor INNER (Z.of_nat a) end.

(** The leaves in order, each with what it holds. *)
Fixpoint g_parts (g : gtree) : list (nat * list (K * V)) :=
  match g with GLeaf a items => [(a, items)] | GNode _ _ kids => concat (map g_parts kids) end.
Definition g_items (g : gtree) : list (K * V) := concat (map snd (g_parts g)).
Definition g_leaves (g : gtree) : list nat := map fst (g_parts g).
Fixpoint g_inners (g : gtree) : list nat :=
  match g with GLeaf _ _ => [] | GNode a _ kids => a :: concat (map g_inners kids) end.

(** Half-open bounds, open ended where there is none. *)
Definition within (lo hi : option K) (k : K) : Prop :=
  match lo with Some l => key_le l k | None => True end /\ match hi with Some h => key_lt k h | None => True end.
Definition bound_lt (lo hi : option K) : Prop :=
  match lo, hi with Some l, Some h => key_lt l h | _, _ => True end.

(** Children bounded by the separators between them. *)
Fixpoint kids_ok (P : option K -> option K -> gtree -> Prop) (lo hi : option K) (seps : list K) (kids : list gtree) : Prop :=
  match seps, kids with
  | [], [g] => P lo hi g
  | s :: seps, g :: kids => P lo (Some s) g /\ kids_ok P (Some s) hi seps kids
  | _, _ => False
  end.

Definition TBT := @TBTreeMap K V _.

Fixpoint node_ok (t : TBT) (h : nat) (lo hi : option K) (g : gtree) : Prop :=
  match h, g with
  | O, GLeaf a items =>
      bound_lt lo hi /\ Forall (within lo hi) (map fst items) /\ StronglySorted key_lt (map fst items)
      /\ Z.of_nat a < INNER /\ exists leaf, tb_leaves t !! a = Some leaf /\ leaf_rep leaf items
  | S h, GNode a seps kids =>
      Z.of_nat a < INNER - 1 /\ (exists inner, tb_inners t !! a = Some inner /\ inner_rep inner seps (map g_at kids))
      /\ kids_ok (node_ok t h) lo hi seps kids
  | _, _ => False
  end.

Definition link (o : option nat) : Z := match o with Some a => Z.of_nat a | None => NONE end.

(** The leaves chained both ways in the order given, behind a leaf or first of all. *)
Fixpoint linked_from (t : TBT) (before : option nat) (order : list nat) : Prop :=
  match order with
  | [] => True
  | a :: order =>
      (exists leaf, tb_leaves t !! a = Some leaf /\ lf_next leaf = link (order !! 0%nat) /\ lf_prev leaf = link before)
      /\ linked_from t (Some a) order
  end.
Definition linked (t : TBT) (order : list nat) : Prop := linked_from t None order.

Lemma linked_frame t t' before order :
  (forall a leaf, a ∈ order -> tb_leaves t !! a = Some leaf ->
    exists leaf', tb_leaves t' !! a = Some leaf' /\ lf_next leaf' = lf_next leaf /\ lf_prev leaf' = lf_prev leaf) ->
  linked_from t before order -> linked_from t' before order.
Proof.
  revert before; induction order as [|a order IH]; intros before Hf; cbn [linked_from]; [done|].
  intros [(leaf & Ha & ? & ?) Hl]; split.
  - destruct (Hf a leaf) as (leaf' & ? & ? & ?); [by left | done |]; exists leaf'; split_and!; congruence.
  - apply IH; [| done]; intros; apply Hf; [by right | done].
Qed.

Record tree_rep (t : TBT) (h : nat) (g : gtree) : Prop := {
  tr_node : node_ok t h None None g;
  tr_root : tb_root t = g_at g;
  tr_first : tb_first t = link (g_leaves g !! 0%nat);
  tr_len : tb_len t = length (g_items g);
  tr_leaves : NoDup (g_leaves g);
  tr_inners : NoDup (g_inners g);
  tr_linked : linked t (g_leaves g);
}.

(** The invariant: nothing at all, or a tree. *)
Definition holds (t : TBT) (items : list (K * V)) : Prop :=
  (t = TBTreeMap_new /\ items = []) \/ (exists h g, tree_rep t h g /\ g_items g = items).

End rep.
