(* ===== verification/TBTreeFind.v ===== *)
(** * Finding a key in the tree ([index/tbtreemap.rs])

    A descent ends at the one leaf that may hold its key, everything before that leaf under the key
    and everything after it over; and what is written in that leaf within its bounds keeps the tree
    a tree. *)
From S2P Require Import Prelude Error Arrays Bytes TreeKey TBTree TBTreeRep.

(** ** Tagged indices *)

Lemma is_inner_leaf a : Z.of_nat a < INNER -> is_inner (Z.of_nat a) = false.
Proof.
  intros Ha; unfold is_inner; rewrite Z.land_comm; change INNER with (1 * 2 ^ 31); rewrite land_shifted; [done | lia |].
  change INNER with (2 ^ 31) in Ha; lia.
Qed.

Lemma lor_inner a : Z.of_nat a < INNER -> Z.lor INNER (Z.of_nat a) = INNER + Z.of_nat a.
Proof. intros Ha; change INNER with (1 * 2 ^ 31) in *; apply lor_shifted; lia. Qed.

Lemma is_inner_node a : Z.of_nat a < INNER -> is_inner (Z.lor INNER (Z.of_nat a)) = true.
Proof.
  intros Ha; unfold is_inner; rewrite Z.land_lor_distr_l, Z.land_diag.
  assert (Z.land (Z.of_nat a) INNER = 0) as ->; [| done].
  rewrite Z.land_comm; change INNER with (1 * 2 ^ 31) in *; apply land_shifted; lia.
Qed.

Lemma slot_of_leaf a : Z.of_nat a < INNER -> slot_of (Z.of_nat a) = a.
Proof.
  intros Ha; unfold slot_of; change (Z.lxor INNER (U32 - 1)) with (Z.ones 31); rewrite Z.land_ones by lia.
  change INNER with (2 ^ 31) in Ha; rewrite Z.mod_small by lia; lia.
Qed.

Lemma slot_of_node a : Z.of_nat a < INNER -> slot_of (Z.lor INNER (Z.of_nat a)) = a.
Proof.
  intros Ha; rewrite lor_inner by done; unfold slot_of; change (Z.lxor INNER (U32 - 1)) with (Z.ones 31).
  rewrite Z.land_ones by lia; change INNER with (2 ^ 31) in *; replace (2 ^ 31 + Z.of_nat a) with (Z.of_nat a + 1 * 2 ^ 31) by lia.
  rewrite Z.mod_add, Z.mod_small by lia; lia.
Qed.

Lemma NoDup_bounded (l : list nat) n : NoDup l -> Forall (fun x => (x < n)%nat) l -> (length l <= n)%nat.
Proof.
  intros Hd Hf; rewrite <- (length_seq n 0); apply submseteq_length, NoDup_submseteq; [done|].
  intros x Hx; rewrite Forall_forall in Hf; specialize (Hf x Hx); apply elem_of_seq; lia.
Qed.

Lemma elem_of_concat {A} (x : A) ls : x ∈ concat ls <-> exists l, x ∈ l /\ l ∈ ls.
Proof.
  rewrite list_elem_of_In, in_concat; split; intros (l & ? & ?); exists l; rewrite !list_elem_of_In in *; auto.
Qed.

Section find.
Context {K V : Type} `{TKL : TreeKeyLaws K} `{Inhabited V}.
Variable scan : Scan.
Variable B : nat.
Implicit Types (t : @TBTreeMap K V _) (g : @gtree K V) (lo hi : option K).
Abbreviation node_ok := (node_ok B).

(** ** Children and their bounds *)

Definition lo_of lo (s1 : list K) : option K := match last s1 with Some s => Some s | None => lo end.
Definition hi_of hi (s2 : list K) : option K := match s2 with s :: _ => Some s | [] => hi end.

Section kids.
Variable P : option K -> option K -> @gtree K V -> Prop.

Fixpoint left_ok lo (s1 : list K) (k1 : list gtree) : Prop :=
  match s1, k1 with
  | [], [] => True
  | s :: s1, g :: k1 => P lo (Some s) g /\ left_ok (Some s) s1 k1
  | _, _ => False
  end.

Definition right_ok hi (s2 : list K) (k2 : list gtree) : Prop :=
  match s2 with [] => k2 = [] | s :: s2 => kids_ok P (Some s) hi s2 k2 end.

Lemma lo_of_cons lo s s1 : lo_of lo (s :: s1) = lo_of (Some s) s1.
Proof. unfold lo_of; rewrite last_cons; by destruct (last s1). Qed.

(** The children around one of them. *)
Lemma kids_ok_at lo hi s1 s2 k1 g k2 : length s1 = length k1 ->
  kids_ok P lo hi (s1 ++ s2) (k1 ++ g :: k2) <->
  left_ok lo s1 k1 /\ P (lo_of lo s1) (hi_of hi s2) g /\ right_ok hi s2 k2.
Proof.
  revert lo k1; induction s1 as [|s s1 IH]; intros lo [|g1 k1] Hl; try done.
  - cbn [app left_ok lo_of last]; destruct s2 as [|s s2]; cbn [kids_ok right_ok hi_of]; [| naive_solver].
    destruct k2; naive_solver.
  - cbn [app kids_ok left_ok]; rewrite IH, lo_of_cons by (by injection Hl); naive_solver.
Qed.

Lemma kids_ok_length lo hi seps kids : kids_ok P lo hi seps kids -> length kids = S (length seps).
Proof.
  revert lo kids; induction seps as [|s seps IH]; intros lo [|g kids]; cbn [kids_ok length]; try done.
  - by destruct kids.
  - intros [_ Hk]; by rewrite (IH _ _ Hk).
Qed.

Lemma left_ok_length lo s1 k1 : left_ok lo s1 k1 -> length s1 = length k1.
Proof. revert lo k1; induction s1 as [|s s1 IH]; intros lo [|g k1]; cbn; naive_solver. Qed.

Lemma left_ok_all lo s1 k1 g : left_ok lo s1 k1 -> g ∈ k1 -> exists lo' s, s ∈ s1 /\ P lo' (Some s) g.
Proof.
  revert lo k1; induction s1 as [|s s1 IH]; intros lo [|g' k1]; cbn [left_ok]; try done; [by intros _ ?%elem_of_nil|].
  intros [Hg Hk] [->|Hin]%elem_of_cons; [exists lo, s; split; [left | done]|].
  destruct (IH _ _ Hk Hin) as (lo' & s' & ? & ?); exists lo', s'; split; [by right | done].
Qed.

Lemma right_ok_all hi s2 k2 g : right_ok hi s2 k2 -> g ∈ k2 -> exists s hi', s ∈ s2 /\ P (Some s) hi' g.
Proof.
  destruct s2 as [|s s2]; cbn [right_ok]; [by intros -> ?%elem_of_nil|].
  revert s k2; induction s2 as [|s' s2 IH]; intros s [|g' k2]; cbn [kids_ok]; try done.
  - destruct k2; [| done]; intros Hg Hin%list_elem_of_singleton; subst; exists s, hi; split; [by left | done].
  - intros [Hg Hk] [->|Hin]%elem_of_cons; [exists s, (Some s'); split; [by left | done]|].
    destruct (IH _ _ Hk Hin) as (s'' & hi' & ? & ?); exists s'', hi'; split; [by right | done].
Qed.

Hypothesis P_lt : forall lo hi g, P lo hi g -> bound_lt lo hi.

Lemma bound_lt_trans lo s hi : bound_lt lo (Some s) -> bound_lt (Some s) hi -> bound_lt lo hi.
Proof. unfold bound_lt; destruct lo, hi; eauto using key_lt_trans. Qed.

Lemma kids_ok_sorted lo hi seps kids : kids_ok P lo hi seps kids ->
  bound_lt lo hi /\ StronglySorted key_lt seps /\ Forall (fun s => bound_lt lo (Some s) /\ bound_lt (Some s) hi) seps.
Proof.
  revert lo kids; induction seps as [|s seps IH]; intros lo [|g kids]; cbn [kids_ok]; try done.
  - destruct kids; [| done]; intros Hg; split_and!; [by eapply P_lt | constructor | constructor].
  - intros [Hg%P_lt Hk]; apply IH in Hk as (Hlt & Hs & Hf); split_and!; [by eapply bound_lt_trans | |].
    + constructor; [done|]; eapply Forall_impl; [exact Hf|]; intros x [? _]; done.
    + constructor; [done|]; eapply Forall_impl; [exact Hf|]; intros x [? ?]; split; [by eapply bound_lt_trans | done].
Qed.

End kids.

Lemma kids_ok_impl (P Q : option K -> option K -> gtree -> Prop) lo hi seps kids :
  (forall lo hi g, g ∈ kids -> P lo hi g -> Q lo hi g) -> kids_ok P lo hi seps kids -> kids_ok Q lo hi seps kids.
Proof.
  revert lo kids; induction seps as [|s seps IH]; intros lo [|g kids] Hi; cbn [kids_ok]; try done.
  - destruct kids; [| done]; apply Hi; by left.
  - intros [Hg Hk]; split; [apply Hi; [by left | done]|]; eapply IH; [| exact Hk]; intros; apply Hi; [by right | done].
Qed.

Lemma within_trans lo s hi k : bound_lt (Some s) hi -> within lo (Some s) k -> within lo hi k.
Proof. intros Hb [? Hs]; split; [done|]; destruct hi; [| done]; eauto using key_lt_trans. Qed.

Lemma within_trans_l lo s hi k : bound_lt lo (Some s) -> within (Some s) hi k -> within lo hi k.
Proof. intros Hb [Hs ?]; split; [| done]; destruct lo; [| done]; eapply key_le_trans; [by apply key_lt_le | done]. Qed.

Lemma node_ok_lt t h lo hi g : node_ok t h lo hi g -> bound_lt lo hi.
Proof.
  revert lo hi g; induction h as [|h IH]; intros lo hi [a its|a seps kids]; cbn [TBTreeRep.node_ok]; try done.
  - by intros (? & _).
  - intros (_ & _ & Hk); by eapply kids_ok_sorted in Hk as (? & _ & _).
Qed.

Lemma node_leaves_app a c qs : g_leaves (GNode a c qs) = concat (map (@g_leaves K V) qs).
Proof. unfold g_leaves; cbn [g_parts]; induction qs as [|q qs IH]; cbn [map concat]; [done|]; by rewrite map_app, IH. Qed.

Lemma node_items_app a c qs : g_items (GNode a c qs) = concat (map (@g_items K V) qs).
Proof.
  unfold g_items; cbn [g_parts]; induction qs as [|q qs IH]; cbn [map concat]; [done|]; by rewrite map_app, concat_app, IH.
Qed.

Lemma kids_ok_items (P : option K -> option K -> @gtree K V -> Prop) lo hi seps kids : (forall lo hi g, P lo hi g -> bound_lt lo hi) ->
  (forall lo hi g, P lo hi g -> Forall (within lo hi) (map fst (g_items g)) /\ StronglySorted key_lt (map fst (g_items g))) ->
  kids_ok P lo hi seps kids -> Forall (within lo hi) (map fst (concat (map g_items kids))) /\ StronglySorted key_lt (map fst (concat (map g_items kids))).
Proof.
  intros Hlt Hit; revert lo kids; induction seps as [|s seps IHs]; intros lo [|g kids] Hk; cbn [kids_ok] in Hk; try done.
  - destruct kids; [| done]; cbn [map concat]; rewrite app_nil_r; by apply Hit.
  - destruct Hk as [Hg Hk]; cbn [map concat]; rewrite map_app; pose proof (Hlt _ _ _ Hg) as Hl.
    apply kids_ok_sorted in Hk as Hb; [| done]; destruct Hb as (Hb & _ & _); apply Hit in Hg as [Hfg Hsg]; apply IHs in Hk as [Hfk Hsk]; split.
    + apply Forall_app; split; (eapply Forall_impl; [eassumption|]); intros k; [by apply within_trans | by apply within_trans_l].
    + apply StronglySorted_app; split_and!; [| done | done]; intros x y Hx Hy; rewrite Forall_forall in Hfg, Hfk.
      destruct (Hfg x Hx) as [_ ?], (Hfk y Hy) as [? _]; by eapply key_lt_le_trans.
Qed.

(** What a subtree holds is within its bounds and in order. *)
Lemma node_ok_items t h lo hi g : node_ok t h lo hi g ->
  Forall (within lo hi) (map fst (g_items g)) /\ StronglySorted key_lt (map fst (g_items g)).
Proof.
  revert lo hi g; induction h as [|h IH]; intros lo hi [a its|a seps kids]; cbn [TBTreeRep.node_ok]; try done.
  - unfold g_items; cbn; rewrite app_nil_r; by intros (_ & ? & ? & _).
  - intros (_ & _ & Hk); rewrite node_items_app; eapply kids_ok_items; [apply node_ok_lt | apply IH | exact Hk].
Qed.

Lemma node_seps_sorted t h lo hi seps kids : kids_ok (node_ok t h) lo hi seps kids -> StronglySorted key_lt seps.
Proof. intros Hk; apply kids_ok_sorted in Hk as (_ & ? & _); [done | apply node_ok_lt]. Qed.

Lemma routed_unique (seps : list K) key i j : routed seps key i -> routed seps key j -> i = j.
Proof.
  intros (l & r & -> & <- & Hl & Hr) (l' & r' & E & <- & Hl' & Hr').
  assert (forall a b a' b' : list K, a ++ b = a' ++ b' -> Forall (key_lt key) b -> Forall (fun s => key_le s key) a' -> (length a' <= length a)%nat) as Hle.
  { clear -TKL; induction a as [|x a IH]; intros b [|x' a'] b' E Hb Ha'; cbn [length]; try lia.
    - cbn [app] in E; subst b; apply Forall_cons in Hb as [Hlt _]; apply Forall_cons in Ha' as [Hge _].
      exfalso; apply (key_lt_irrefl key); by eapply key_lt_le_trans.
    - injection E as -> E; apply Forall_cons in Ha' as [_ Ha']; specialize (IH b a' b' E Hb Ha'); lia. }
  pose proof (Hle _ _ _ _ E Hr Hl'); pose proof (Hle _ _ _ _ (eq_sym E) Hr' Hl); lia.
Qed.

(** The place among separators gives the bounds of the child there. *)
Lemma routed_within lo hi (s1 s2 : list K) key : within lo hi key -> Forall (fun s => key_le s key) s1 -> Forall (key_lt key) s2 ->
  within (lo_of lo s1) (hi_of hi s2) key.
Proof.
  intros [Hlo Hhi] Hf1 Hf2; unfold within, lo_of, hi_of; split.
  - destruct (last s1) as [s|] eqn:E; [| done]; rewrite Forall_forall in Hf1; apply Hf1, last_Some_elem_of, E.
  - destruct s2 as [|s s2]; [done|]; by apply Forall_cons in Hf2 as [? _].
Qed.

(** A child around a probe's place, with its bounds. *)
Lemma routed_split P lo hi seps kids probe i : kids_ok P lo hi seps kids -> routed seps probe i -> within lo hi probe ->
  exists s1 s2 k1 g k2, seps = s1 ++ s2 /\ kids = k1 ++ g :: k2 /\ length s1 = i /\ length k1 = i
    /\ Forall (fun s => key_le s probe) s1 /\ Forall (key_lt probe) s2 /\ within (lo_of lo s1) (hi_of hi s2) probe
    /\ P (lo_of lo s1) (hi_of hi s2) g.
Proof.
  intros Hk (s1 & s2 & -> & <- & Hf1 & Hf2) Hin; pose proof (kids_ok_length _ _ _ _ _ Hk) as Hl.
  rewrite length_app in Hl; destruct (lookup_lt_is_Some_2 kids (length s1)) as [g Hg]; [lia|].
  pose proof (take_drop_middle kids (length s1) g Hg) as Ek; rewrite <- Ek in Hk.
  assert (length (take (length s1) kids) = length s1) as Hlt by (rewrite length_take; lia).
  apply kids_ok_at in Hk as (_ & HP & _); [| done].
  exists s1, s2, (take (length s1) kids), g, (drop (S (length s1)) kids); split_and!; try done.
  by apply routed_within.
Qed.

(** ** Framing *)

Definition same_body (leaf leaf' : @Leaf K V _) : Prop :=
  lf_len leaf' = lf_len leaf /\ lf_win leaf' = lf_win leaf /\ lf_lead leaf' = lf_lead leaf
  /\ lf_keys leaf' = lf_keys leaf /\ lf_vals leaf' = lf_vals leaf.

Lemma same_body_refl leaf : same_body leaf leaf.
Proof. by repeat split. Qed.

Lemma same_body_trans a b c : same_body a b -> same_body b c -> same_body a c.
Proof. unfold same_body; intuition congruence. Qed.

Lemma leaf_rep_body leaf leaf' its : same_body leaf leaf' -> leaf_rep B leaf its -> leaf_rep B leaf' its.
Proof. intros (E1 & E2 & E3 & E4 & E5) []; constructor; congruence. Qed.

(** The nodes named are the same but for the leaves' links. *)
Definition agrees t t' (ls ins : list nat) : Prop :=
  (forall a leaf, a ∈ ls -> tb_leaves t !! a = Some leaf -> exists leaf', tb_leaves t' !! a = Some leaf' /\ same_body leaf leaf')
  /\ (forall b inner, b ∈ ins -> tb_inners t !! b = Some inner -> tb_inners t' !! b = Some inner).

Lemma agrees_sub t t' ls ins ls' ins' : agrees t t' ls ins -> ls' ⊆ ls -> ins' ⊆ ins -> agrees t t' ls' ins'.
Proof. intros [H1 H2] Hl Hi; split; intros; [eapply H1 | eapply H2]; eauto. Qed.

Lemma agrees_refl t ls ins : agrees t t ls ins.
Proof. split; [| done]; intros a leaf _ Ha; exists leaf; split; [done | apply same_body_refl]. Qed.

Lemma elem_parts g kids x : g ∈ kids -> x ∈ g_parts g -> x ∈ concat (map g_parts kids).
Proof. intros Hg Hx; apply elem_of_concat; exists (g_parts g); split; [done|]; by apply list_elem_of_fmap_2. Qed.

Lemma kid_leaves a seps kids g : g ∈ kids -> g_leaves g ⊆ g_leaves (GNode a seps kids).
Proof.
  intros Hg x Hx; unfold g_leaves in *; apply list_elem_of_fmap in Hx as (y & -> & Hy).
  apply list_elem_of_fmap_2; cbn [g_parts]; by eapply elem_parts.
Qed.

Lemma kid_inners a seps kids g : g ∈ kids -> g_inners g ⊆ g_inners (GNode a seps kids).
Proof.
  intros Hg x Hx; cbn [g_inners]; right; apply elem_of_concat; exists (g_inners g); split; [done|].
  by apply list_elem_of_fmap_2.
Qed.

Lemma node_ok_frame t t' h lo hi g : node_ok t h lo hi g -> agrees t t' (g_leaves g) (g_inners g) -> node_ok t' h lo hi g.
Proof.
  revert lo hi g; induction h as [|h IH]; intros lo hi [a its|a seps kids]; cbn [TBTreeRep.node_ok]; try done.
  - intros (? & ? & ? & ? & leaf & Hl & Hr) [Ha _]; split_and!; try done.
    destruct (Ha a leaf) as (leaf' & ? & ?); [by left | done |]; exists leaf'; split; [done | by eapply leaf_rep_body].
  - intros (? & (inner & Hi & Hr) & Hk) Ha; split_and!; [done | |].
    + exists inner; split; [| done]; destruct Ha as [_ Ha]; apply Ha; [by left | done].
    + eapply kids_ok_impl; [| exact Hk]; intros lo' hi' g Hg Hok; apply IH; [done|].
      eapply agrees_sub; [exact Ha | by apply kid_leaves | by apply kid_inners].
Qed.

Lemma left_ok_impl (P Q : option K -> option K -> gtree -> Prop) lo s1 k1 :
  (forall lo hi g, g ∈ k1 -> P lo hi g -> Q lo hi g) -> left_ok P lo s1 k1 -> left_ok Q lo s1 k1.
Proof.
  revert lo k1; induction s1 as [|s s1 IH]; intros lo [|g k1] Hi; cbn [left_ok]; try done.
  intros [Hg Hk]; split; [apply Hi; [by left | done]|]; apply IH; [| done]; intros; apply Hi; [by right | done].
Qed.

(** A child replaced in place, the nodes beside it untouched. *)
Lemma node_ok_replace t t' h lo hi p s1 s2 k1 g g' k2 :
  node_ok t (S h) lo hi (GNode p (s1 ++ s2) (k1 ++ g :: k2)) -> length s1 = length k1 ->
  node_ok t' h (lo_of lo s1) (hi_of hi s2) g' -> g_at g' = g_at g ->
  (forall g1, g1 ∈ k1 \/ g1 ∈ k2 -> agrees t t' (g_leaves g1) (g_inners g1)) ->
  (forall inner, tb_inners t !! p = Some inner -> tb_inners t' !! p = Some inner) ->
  node_ok t' (S h) lo hi (GNode p (s1 ++ s2) (k1 ++ g' :: k2)).
Proof.
  intros (Hp & (inner & Hi & Hr) & Hk) Hl Hg' Ea Hother Hinner; apply kids_ok_at in Hk as (Hleft & Hg & Hright); [| done].
  cbn [TBTreeRep.node_ok]; split_and!; [done | |].
  - exists inner; split; [by apply Hinner|]; rewrite map_app in *; cbn [map] in *; by rewrite Ea.
  - apply kids_ok_at; [done|]; split_and!; [| done |].
    + eapply left_ok_impl; [| exact Hleft]; intros; eapply node_ok_frame; [eassumption|]; apply Hother; by left.
    + destruct s2 as [|s s2]; [done|]; cbn [right_ok] in *; eapply kids_ok_impl; [| exact Hright].
      intros; eapply node_ok_frame; [eassumption|]; apply Hother; by right.
Qed.

(** ** The leaf a key belongs to *)

Record focused t h lo hi g (key : K) (a : nat) (its : list (K * V)) (llo lhi : option K)
    (pre post : list (nat * list (K * V))) : Prop := {
  fc_parts : g_parts g = pre ++ (a, its) :: post;
  fc_leaf : node_ok t 0 llo lhi (GLeaf a its);
  fc_key : within llo lhi key;
  fc_pre : Forall (fun k => key_lt k key) (map fst (concat (map snd pre)));
  fc_post : Forall (key_lt key) (map fst (concat (map snd post)));
  fc_update : forall t' its', node_ok t' 0 llo lhi (GLeaf a its') ->
    agrees t t' (map fst (pre ++ post)) (g_inners g) ->
    exists g', node_ok t' h lo hi g' /\ g_parts g' = pre ++ (a, its') :: post
      /\ g_inners g' = g_inners g /\ g_at g' = g_at g;
}.

Lemma focused_leaf t lo hi key a its : node_ok t 0 lo hi (GLeaf a its) -> within lo hi key ->
  focused t 0 lo hi (GLeaf a its) key a its lo hi [] [].
Proof.
  intros Hok Hk; constructor; try done.
  intros t' its' Hok' _; by exists (GLeaf a its').
Qed.

Lemma node_parts_within t h lo hi g k : node_ok t h lo hi g -> k ∈ map fst (concat (map snd (g_parts g))) -> within lo hi k.
Proof. intros Hok Hk; apply node_ok_items in Hok as [Hf _]; rewrite Forall_forall in Hf; by apply Hf. Qed.

Lemma elem_concat_parts k (kids : list (@gtree K V)) : k ∈ map fst (concat (map snd (concat (map g_parts kids)))) ->
  exists g, g ∈ kids /\ k ∈ map fst (concat (map snd (g_parts g))).
Proof.
  induction kids as [|g kids IH]; cbn [map concat]; [by intros ?%elem_of_nil|].
  rewrite map_app, concat_app, map_app; intros [Hk|Hk]%elem_of_app; [exists g; split; [by left | done]|].
  destruct (IH Hk) as (g' & ? & ?); exists g'; split; [by right | done].
Qed.

Lemma focused_up t h lo hi p s1 s2 k1 g k2 key a its llo lhi pre post :
  node_ok t (S h) lo hi (GNode p (s1 ++ s2) (k1 ++ g :: k2)) -> length s1 = length k1 ->
  focused t h (lo_of lo s1) (hi_of hi s2) g key a its llo lhi pre post ->
  Forall (fun s => key_le s key) s1 -> Forall (key_lt key) s2 ->
  focused t (S h) lo hi (GNode p (s1 ++ s2) (k1 ++ g :: k2)) key a its llo lhi
    (concat (map g_parts k1) ++ pre) (post ++ concat (map g_parts k2)).
Proof.
  intros Hnode Hl Hfc Hf1 Hf2; pose proof Hnode as (_ & _ & Hk); apply kids_ok_at in Hk as (Hleft & Hg & Hright); [| done].
  constructor.
  - cbn [g_parts]; rewrite map_app, concat_app; cbn [map concat]; rewrite (fc_parts _ _ _ _ _ _ _ _ _ _ _ _ Hfc).
    by rewrite <- !app_assoc.
  - apply Hfc.
  - apply Hfc.
  - rewrite map_app, concat_app, map_app; apply Forall_app; split; [| apply Hfc].
    apply Forall_forall; intros k (g1 & Hg1 & Hin)%elem_concat_parts.
    destruct (left_ok_all _ _ _ _ _ Hleft Hg1) as (lo' & s & Hs & Hok).
    eapply node_parts_within in Hin as [_ Hlt]; [| exact Hok]; rewrite Forall_forall in Hf1.
    eapply key_lt_le_trans; [exact Hlt | by apply Hf1].
  - rewrite map_app, concat_app, map_app; apply Forall_app; split; [apply Hfc|].
    apply Forall_forall; intros k (g1 & Hg1 & Hin)%elem_concat_parts.
    destruct (right_ok_all _ _ _ _ _ Hright Hg1) as (s & hi' & Hs & Hok).
    eapply node_parts_within in Hin as [Hle _]; [| exact Hok]; rewrite Forall_forall in Hf2.
    eapply key_lt_le_trans; [by apply Hf2 | exact Hle].
  - intros t' its' Hok' Hag; destruct (fc_update _ _ _ _ _ _ _ _ _ _ _ _ Hfc t' its' Hok') as (g' & Hg' & Ep & Ei & Ea).
    { eapply agrees_sub; [exact Hag | |].
      - rewrite !map_app; set_solver.
      - apply kid_inners; set_solver. }
    exists (GNode p (s1 ++ s2) (k1 ++ g' :: k2)); split_and!.
    + apply (node_ok_replace t t' h lo hi p s1 s2 k1 g g' k2); [done | done | done | done | |].
      * intros g1 Hg1; eapply agrees_sub; [exact Hag | | apply kid_inners; set_solver].
        intros x (y & -> & Hy)%list_elem_of_fmap; apply list_elem_of_fmap_2; rewrite !elem_of_app.
        destruct Hg1; [left; left | right; right]; by eapply elem_parts.
      * intros inner' ?; destruct Hag as [_ Hag]; apply Hag; [by left | done].
    + cbn [g_parts]; rewrite map_app, concat_app; cbn [map concat]; rewrite Ep; by rewrite <- !app_assoc.
    + cbn [g_inners]; rewrite !map_app; cbn [map]; by rewrite Ei.
    + done.
Qed.

(** ** The descent *)

Lemma kid_lookup inner seps kids k1 g k2 : inner_rep B inner seps kids -> kids = map g_at (k1 ++ g :: k2) ->
  in_kids inner !! length k1 = Some (@g_at K V g).
Proof.
  intros Hr E; eapply lookup_of_take; [apply (ir_kid _ _ _ _ Hr)|]; rewrite E, map_app; cbn [map].
  by rewrite list_lookup_middle by (by rewrite length_map).
Qed.

Lemma g_at_leaf t h lo hi g : node_ok t h lo hi g ->
  match h with
  | O => exists a its, g = GLeaf a its /\ Z.of_nat a < INNER
  | S _ => exists a seps kids, g = GNode a seps kids /\ Z.of_nat a < INNER - 1
  end.
Proof. destruct h, g; cbn [TBTreeRep.node_ok]; try done; [intros (_ & _ & _ & ? & _) | intros (? & _)]; eauto 6. Qed.

(** A descent ends at the leaf its key belongs to. *)
Lemma descend_ok h : forall fuel t lo hi g key, (h < fuel)%nat -> node_ok t h lo hi g -> within lo hi key -> key_wf key ->
  exists a its llo lhi pre post, descend scan fuel t (g_at g) key = Ok (Z.of_nat a)
    /\ focused t h lo hi g key a its llo lhi pre post.
Proof.
  induction h as [|h IH]; intros fuel t lo hi g key Hf Hok Hin Hwf; (destruct fuel as [|fuel]; [lia|]);
    cbn [descend]; pose proof (g_at_leaf _ _ _ _ _ Hok) as Hg; cbn in Hg.
  - destruct Hg as (a & its & -> & Ha); cbn [g_at]; rewrite is_inner_leaf by done.
    exists a, its, lo, hi, [], []; split; [done | by apply focused_leaf].
  - destruct Hg as (p & seps & kids & -> & Hp); cbn [g_at]; rewrite is_inner_node, slot_of_node by lia.
    pose proof Hok as (_ & (inner & Hi & Hr) & Hk); unfold idx; rewrite Hi; res_simpl.
    destruct (inner_seek_spec scan B inner seps _ key Hr (node_seps_sorted _ _ _ _ _ _ Hk) Hwf) as (i & -> & Hrt); res_simpl.
    destruct (routed_split _ _ _ _ _ _ _ Hk Hrt Hin) as (s1 & s2 & k1 & g & k2 & -> & -> & <- & Hl & Hf1 & Hf2 & Hin' & Hg).
    rewrite <- Hl; rewrite (kid_lookup inner _ _ k1 g k2 Hr eq_refl); res_simpl.
    destruct (IH fuel t _ _ g key ltac:(lia) Hg Hin' Hwf) as (a & its & llo & lhi & pre & post & E & Hfc).
    exists a, its, llo, lhi, (concat (map g_parts k1) ++ pre), (post ++ concat (map g_parts k2)).
    split; [exact E | by apply focused_up].
Qed.

(** ** Heights *)

Lemma height_inners t h lo hi g : node_ok t h lo hi g -> (h <= length (g_inners g))%nat.
Proof.
  revert lo hi g; induction h as [|h IH]; intros lo hi [a its|a seps kids]; cbn [TBTreeRep.node_ok]; try done.
  intros (_ & _ & Hk); cbn [g_inners length]; destruct kids as [|g kids]; [by destruct seps|].
  assert (exists lo hi, node_ok t h lo hi g) as (lo' & hi' & Hg%IH).
  { destruct seps; cbn [kids_ok] in Hk; [destruct kids; [eauto | done] | destruct Hk; eauto]. }
  cbn [map concat]; rewrite length_app; lia.
Qed.

Lemma node_nodes t h lo hi g : node_ok t h lo hi g ->
  Forall (fun a => (a < length (tb_leaves t))%nat) (g_leaves g) /\ Forall (fun b => (b < length (tb_inners t))%nat) (g_inners g).
Proof.
  revert lo hi g; induction h as [|h IH]; intros lo hi [a its|a seps kids]; cbn [TBTreeRep.node_ok]; try done.
  - intros (_ & _ & _ & _ & leaf & Hl & _); split; [| constructor]; constructor; [by eapply lookup_lt_Some | constructor].
  - intros (_ & (inner & Hi & _) & Hk).
    assert (forall g, g ∈ kids -> exists lo hi, node_ok t h lo hi g) as Hall.
    { clear -Hk; revert lo kids Hk; induction seps as [|s seps IHs]; intros lo [|g kids] Hk; cbn [kids_ok] in Hk; try done.
      - destruct kids; [| done]; intros g' ->%list_elem_of_singleton; eauto.
      - destruct Hk as [Hg Hk]; intros g' [->|Hin]%elem_of_cons; [eauto | by eapply IHs]. }
    split.
    + apply Forall_forall; intros x Hx; unfold g_leaves in Hx; cbn [g_parts] in Hx; apply list_elem_of_fmap in Hx as (y & -> & Hy).
      apply elem_of_concat in Hy as (ps & Hy & (g & -> & Hg)%list_elem_of_fmap); destruct (Hall g Hg) as (lo' & hi' & Hok).
      apply IH in Hok as [Hf _]; rewrite Forall_forall in Hf; apply Hf; by apply list_elem_of_fmap_2.
    + cbn [g_inners]; constructor; [by eapply lookup_lt_Some|]; apply Forall_forall; intros x Hx.
      apply elem_of_concat in Hx as (ps & Hx & (g & -> & Hg)%list_elem_of_fmap); destruct (Hall g Hg) as (lo' & hi' & Hok).
      apply IH in Hok as [_ Hf]; rewrite Forall_forall in Hf; by apply Hf.
Qed.

Lemma height_fuel t h lo hi g : node_ok t h lo hi g -> NoDup (g_inners g) -> (h <= length (tb_inners t))%nat.
Proof.
  intros Hok Hd; pose proof (height_inners _ _ _ _ _ Hok); apply node_nodes in Hok as [_ Hf].
  pose proof (NoDup_bounded _ _ Hd Hf); lia.
Qed.

Lemma root_not_none t h g : tree_rep B t h g -> (tb_root t =? NONE) = false.
Proof.
  intros Ht; rewrite (tr_root _ _ _ _ Ht); pose proof (g_at_leaf _ _ _ _ _ (tr_node _ _ _ _ Ht)) as Hg.
  apply Z.eqb_neq; unfold NONE, U32; destruct h.
  - destruct Hg as (a & its & -> & Ha); cbn [g_at]; change INNER with 2147483648 in Ha; lia.
  - destruct Hg as (a & seps & kids & -> & Ha); cbn [g_at]; rewrite lor_inner by lia; change INNER with 2147483648 in *; lia.
Qed.

Lemma within_all (k : K) : within None None k.
Proof. done. Qed.

(** What the descent of a lookup ends on. *)
Lemma find_ok t h g key : tree_rep B t h g -> key_wf key ->
  exists a leaf its llo lhi pre post s, TBTreeMap_find scan t key = Ok (Some (a, leaf, s))
    /\ TBTreeMap_seat scan t key = Ok (Some (Z.of_nat a, match s with Held slot | Gap slot => slot end))
    /\ descent scan t key = Ok (Z.of_nat a) /\ Z.of_nat a < INNER
    /\ focused t h None None g key a its llo lhi pre post
    /\ tb_leaves t !! a = Some leaf /\ leaf_rep B leaf its /\ seated (map fst its) key s.
Proof.
  intros Ht Hwf; pose proof (tr_node _ _ _ _ Ht) as Hok; pose proof (height_fuel _ _ _ _ _ Hok (tr_inners _ _ _ _ Ht)) as Hh.
  destruct (descend_ok h (S (length (tb_inners t))) t None None g key ltac:(lia) Hok (within_all key) Hwf)
    as (a & its & llo & lhi & pre & post & E & Hfc).
  pose proof (fc_leaf _ _ _ _ _ _ _ _ _ _ _ _ Hfc) as (_ & _ & Hsort & Ha & leaf & Hl & Hr).
  destruct (seek_spec scan (lf_win leaf) (lf_lead leaf) (lf_keys leaf) (map fst its) key) as (s & Es & Hs);
    rewrite ?length_map; [apply Hr | rewrite (lr_leads _ _ _ Hr); apply Hr | apply Hr | done | done |].
  rewrite length_map in Es; exists a, leaf, its, llo, lhi, pre, post, s.
  unfold TBTreeMap_find, TBTreeMap_seat, descent; rewrite (root_not_none _ _ _ Ht), (tr_root _ _ _ _ Ht), E; res_simpl.
  rewrite slot_of_leaf by done; unfold idx; rewrite Hl; res_simpl; rewrite (lr_len _ _ _ Hr), Es; res_simpl; by split_and!.
Qed.

End find.
