(* ===== verification/TBTreeOps.v ===== *)
(** * Reading, changing and taking out ([index/tbtreemap.rs])

    The ordered map a tree stands for, as its pairs in key order, and the operations that touch one
    leaf in terms of it. *)
From S2P Require Import Prelude Error Arrays Bytes TreeKey TBTree TBTreeRep TBTreeFind.

(** ** Chunks *)

Lemma chunks_of_concat {A} n (l : list A) fuel : (0 < n)%nat -> (length l <= fuel)%nat -> concat (chunks_of fuel n l) = l.
Proof.
  intros Hn; revert l; induction fuel as [|fuel IH]; intros l Hl; [destruct l; [done | cbn [length] in Hl; lia]|].
  cbn [chunks_of]; destruct l as [|x l]; [done|]; cbn [concat]; rewrite IH, take_drop; [done|]; rewrite length_drop; cbn [length] in *; lia.
Qed.

Lemma chunks_of_fit {A} n (l : list A) fuel : (0 < n)%nat -> Forall (fun c => c <> [] /\ (length c <= n)%nat) (chunks_of fuel n l).
Proof.
  intros Hn; revert l; induction fuel as [|fuel IH]; intros l; [constructor|]; cbn [chunks_of]; destruct l as [|x l]; constructor; [| apply IH].
  split; [destruct n; [lia | done] | rewrite length_take; lia].
Qed.

(** All chunks but the last are full. *)
Lemma chunks_of_count {A} n (l : list A) fuel : (0 < n)%nat -> (length l <= fuel)%nat -> l <> [] ->
  (0 < length (chunks_of fuel n l))%nat /\ ((length (chunks_of fuel n l) - 1) * n < length l)%nat.
Proof.
  intros Hn; revert l; induction fuel as [|fuel IH]; intros l Hl Hne; [destruct l; [done | cbn [length] in Hl; lia]|].
  cbn [chunks_of]; destruct l as [|x l]; [done|]; cbn [length]; split; [lia|].
  destruct (decide (drop n (x :: l) = [])) as [->|Hd]; [destruct fuel; cbn; lia|].
  destruct (IH (drop n (x :: l))) as [Hpos Hlt]; [rewrite length_drop; cbn [length] in *; lia | done |].
  assert (n < length (x :: l))%nat as Hlen by (apply Nat.nle_gt; intros Hle; apply Hd, drop_ge; lia).
  rewrite length_drop in Hlt; cbn [length] in *; nia.
Qed.

(** ** The ordered map *)

Section items.
Context {K V : Type} `{TKL : TreeKeyLaws K}.
Implicit Types (items a b sorted : list (K * V)) (key : K) (val : V).

Fixpoint assoc items key : option V :=
  match items with
  | [] => None
  | (k, v) :: items => if key_eqb k key then Some v else assoc items key
  end.

(** The pair put in at its place, over what its key held. *)
Fixpoint with_item items key val : list (K * V) :=
  match items with
  | [] => [(key, val)]
  | (k, v) :: rest =>
      match key_cmp key k with
      | Lt => (key, val) :: (k, v) :: rest
      | Eq => (key, val) :: rest
      | Gt => (k, v) :: with_item rest key val
      end
  end.

Definition without items key : list (K * V) := List.filter (fun e => negb (key_eqb e.1 key)) items.

Definition under items key : Prop := Forall (fun k => key_lt k key) (map fst items).
Definition over items key : Prop := Forall (key_lt key) (map fst items).

Lemma key_eqb_false k key : key_lt k key \/ key_lt key k -> key_eqb k key = false.
Proof.
  intros Hk; destruct (key_eqb k key) eqn:E; [| done]; apply key_eqb_eq in E as ->.
  by destruct Hk as [Hk|Hk]; apply key_lt_irrefl in Hk.
Qed.

Lemma assoc_under a b key : under a key -> assoc (a ++ b) key = assoc b key.
Proof.
  unfold under; induction a as [|[k v] a IH]; cbn [map app assoc]; [done|]; intros [Hk Ha]%Forall_cons.
  rewrite key_eqb_false by auto; by apply IH.
Qed.

Lemma assoc_over b key : over b key -> assoc b key = None.
Proof.
  unfold over; induction b as [|[k v] b IH]; cbn [map assoc]; [done|]; intros [Hk Hb]%Forall_cons.
  rewrite key_eqb_false by auto; by apply IH.
Qed.

Lemma assoc_mid a b key val : under a key -> assoc (a ++ (key, val) :: b) key = Some val.
Proof. intros; rewrite assoc_under by done; cbn [assoc]; by rewrite (proj2 (key_eqb_eq key key)). Qed.

Lemma with_item_under a b key val : under a key -> with_item (a ++ b) key val = a ++ with_item b key val.
Proof.
  unfold under; induction a as [|[k v] a IH]; cbn [map app with_item]; [done|]; intros [Hk%key_cmp_gt Ha]%Forall_cons.
  cbn [fst] in Hk; rewrite Hk; by rewrite IH.
Qed.

Lemma with_item_over b key val : over b key -> with_item b key val = (key, val) :: b.
Proof.
  unfold over; destruct b as [|[k v] b]; cbn [map with_item]; [done|]; intros [Hk _]%Forall_cons; unfold key_lt in Hk.
  cbn [fst] in Hk; by rewrite Hk.
Qed.

Lemma with_item_gap a b key val : under a key -> over b key -> with_item (a ++ b) key val = a ++ (key, val) :: b.
Proof. intros; by rewrite with_item_under, with_item_over. Qed.

Lemma with_item_mid a b key old val : under a key -> with_item (a ++ (key, old) :: b) key val = a ++ (key, val) :: b.
Proof.
  intros; rewrite with_item_under by done; cbn [with_item]; by rewrite (proj2 (key_cmp_eq key key)).
Qed.

Lemma without_apart a key : Forall (fun k => key_lt k key \/ key_lt key k) (map fst a) -> without a key = a.
Proof.
  unfold without; induction a as [|[k v] a IH]; cbn [map List.filter fst]; [done|]; intros [Hk Ha]%Forall_cons.
  rewrite key_eqb_false by done; cbn [negb]; by rewrite IH.
Qed.

Lemma without_gap a b key : under a key -> over b key -> without (a ++ b) key = a ++ b.
Proof.
  intros Ha Hb; apply without_apart; rewrite map_app; apply Forall_app; split; (eapply Forall_impl; [eassumption|]); auto.
Qed.

Lemma without_mid a b key val : under a key -> over b key -> without (a ++ (key, val) :: b) key = a ++ b.
Proof.
  intros Ha Hb; unfold without; rewrite List.filter_app; cbn [List.filter fst].
  rewrite (proj2 (key_eqb_eq key key) eq_refl); cbn [negb]; f_equal; apply without_apart; (eapply Forall_impl; [eassumption|]); auto.
Qed.

(** What is put in is found, and nothing else changes. *)
Lemma assoc_with_item items key val k : assoc (with_item items key val) k = if key_eqb key k then Some val else assoc items k.
Proof.
  induction items as [|[k' v] items IH]; cbn [with_item assoc]; [done|].
  destruct (key_cmp key k') eqn:E; cbn [assoc]; [| done |].
  - apply key_cmp_eq in E as ->; by destruct (key_eqb k' k).
  - rewrite IH; destruct (key_eqb k' k) eqn:E1, (key_eqb key k) eqn:E2; try done.
    apply key_eqb_eq in E1 as ->; apply key_eqb_eq in E2 as ->; rewrite (proj2 (key_cmp_eq k k) eq_refl) in E; done.
Qed.

Lemma assoc_without items key k : assoc (without items key) k = if key_eqb key k then None else assoc items k.
Proof.
  unfold without; induction items as [|[k' v] items IH]; cbn [List.filter assoc fst]; [by destruct (key_eqb key k)|].
  destruct (key_eqb k' key) eqn:E; cbn [negb assoc]; rewrite IH; [apply key_eqb_eq in E as ->; by destruct (key_eqb key k)|].
  destruct (key_eqb k' k) eqn:E1, (key_eqb key k) eqn:E2; try done.
  apply key_eqb_eq in E1 as ->; apply key_eqb_eq in E2 as ->; rewrite (proj2 (key_eqb_eq k k) eq_refl) in E; done.
Qed.

Lemma assoc_elem items key val : assoc items key = Some val -> (key, val) ∈ items.
Proof.
  induction items as [|[k v] items IH]; cbn [assoc]; [done|]; destruct (key_eqb k key) eqn:E; rewrite elem_of_cons; [| auto].
  apply key_eqb_eq in E as ->; intros [= ->]; auto.
Qed.

Lemma elem_assoc items key val : StronglySorted key_lt (map fst items) -> (key, val) ∈ items -> assoc items key = Some val.
Proof.
  induction items as [|[k v] items IH]; cbn [map assoc fst]; [set_solver|]; intros [Hs Hk]%StronglySorted_inv [[= -> ->]|Hin]%elem_of_cons; [by rewrite (proj2 (key_eqb_eq k k))|].
  rewrite key_eqb_false; [by apply IH|]; left; rewrite Forall_forall in Hk; apply Hk; apply (list_elem_of_fmap_2 fst _ _ Hin).
Qed.

Lemma with_item_keys items key val k : k ∈ map fst (with_item items key val) -> k = key \/ k ∈ map fst items.
Proof.
  induction items as [|[k' v] items IH]; cbn [with_item map fst]; [set_solver|].
  destruct (key_cmp key k') eqn:E; cbn [map fst]; rewrite !elem_of_cons; [naive_solver | naive_solver |]; intros [->|Hin]; [auto|]; destruct (IH Hin); auto.
Qed.

Lemma with_item_sorted items key val : StronglySorted key_lt (map fst items) -> StronglySorted key_lt (map fst (with_item items key val)).
Proof.
  induction items as [|[k v] items IH]; cbn [with_item map fst]; intros Hs; [by repeat constructor|]; apply StronglySorted_inv in Hs as [Hs Hf].
  destruct (key_cmp key k) eqn:E; cbn [map fst]; [apply key_cmp_eq in E as ->; by constructor | |].
  - constructor; [by constructor|]; constructor; [done|]; eapply Forall_impl; [exact Hf|]; intros x; by apply key_lt_trans.
  - apply key_cmp_gt in E; constructor; [by apply IH|]; apply Forall_forall; intros x [->|Hx]%with_item_keys; [done|]; rewrite Forall_forall in Hf; by apply Hf.
Qed.

Lemma with_item_length items key val : (length (with_item items key val) <= S (length items))%nat.
Proof. induction items as [|[k v] items IH]; cbn [with_item length]; [lia|]; destruct (key_cmp key k); cbn [length]; lia. Qed.

(** The pairs of an input, of a key repeated the last. *)
Definition collected (sorted : list (K * V)) : list (K * V) := fold_left (fun m e => with_item m e.1 e.2) sorted [].

Lemma collected_snoc sorted key val : collected (sorted ++ [(key, val)]) = with_item (collected sorted) key val.
Proof. unfold collected; by rewrite fold_left_app. Qed.

Lemma collected_keys sorted k : k ∈ map fst (collected sorted) -> k ∈ map fst sorted.
Proof.
  induction sorted as [|[key val] sorted IH] using rev_ind; [done|]; rewrite collected_snoc, map_app, elem_of_app; cbn [map fst].
  intros [->|Hk]%with_item_keys; [right; by left | left; by apply IH].
Qed.

Lemma collected_sorted sorted : StronglySorted key_lt (map fst (collected sorted)).
Proof. induction sorted as [|[key val] sorted IH] using rev_ind; [constructor|]; rewrite collected_snoc; by apply with_item_sorted. Qed.

Lemma collected_length sorted : (length (collected sorted) <= length sorted)%nat.
Proof.
  induction sorted as [|[key val] sorted IH] using rev_ind; [done|]; rewrite collected_snoc, length_app; cbn [length].
  pose proof (with_item_length (collected sorted) key val); lia.
Qed.

Lemma under_app a b key : under (a ++ b) key <-> under a key /\ under b key.
Proof. unfold under; rewrite map_app; apply Forall_app. Qed.

Lemma over_app a b key : over (a ++ b) key <-> over a key /\ over b key.
Proof. unfold over; rewrite map_app; apply Forall_app. Qed.

(** A place among keys as a split of the pairs. *)
Lemma seated_items items key s : seated (map fst items) key s ->
  match s with
  | Held i => exists a val b, items = a ++ (key, val) :: b /\ length a = i /\ under a key /\ over b key
  | Gap i => exists a b, items = a ++ b /\ length a = i /\ under a key /\ over b key
  end.
Proof.
  destruct s as [i|i]; cbn [seated]; intros (l & r & E & <- & Hl & Hr).
  - apply map_eq_app in E as (a & b & -> & <- & E2); destruct b as [|[k val] b]; [done|]; injection E2 as -> <-.
    exists a, val, b; by rewrite length_map.
  - apply map_eq_app in E as (a & b & -> & <- & <-); exists a, b; by rewrite length_map.
Qed.

End items.

Section ops.
Context {K V : Type} `{TKL : TreeKeyLaws K} `{Inhabited V}.
Variable scan : Scan.
Variable B : nat.
Hypothesis HB : (3 <= B <= 256)%nat.
Implicit Types (t : @TBTreeMap K V _) (g : @gtree K V) (items : list (K * V)).

Definition parts_items (ps : list (nat * list (K * V))) : list (K * V) := concat (map snd ps).

Lemma focused_items t h lo hi g key a its llo lhi pre post : focused B t h lo hi g key a its llo lhi pre post ->
  g_items g = parts_items pre ++ its ++ parts_items post /\ under (parts_items pre) key /\ over (parts_items post) key.
Proof.
  intros Hfc; unfold g_items; rewrite (fc_parts _ _ _ _ _ _ _ _ _ _ _ _ _ Hfc), map_app, concat_app; cbn [map snd concat].
  split_and!; [done | apply Hfc | apply Hfc].
Qed.

(** ** One leaf rewritten *)

Lemma set_leaf_linked t order a leaf leaf' (root first : Z) n :
  linked t order -> tb_leaves t !! a = Some leaf -> lf_next leaf' = lf_next leaf -> lf_prev leaf' = lf_prev leaf ->
  linked (mkTBTreeMap (<[a := leaf']> (tb_leaves t)) (tb_inners t) root first n) order.
Proof.
  intros Hl Ha En Ep; eapply linked_frame; [| exact Hl]; intros b l _ Hb; cbn [tb_leaves]; destruct (decide (a = b)) as [->|Hne].
  - exists leaf'; rewrite list_lookup_insert_eq by (by eapply lookup_lt_Some); rewrite Ha in Hb; injection Hb as <-; done.
  - exists l; by rewrite list_lookup_insert_ne.
Qed.

Lemma set_leaf_rep t h g key a its llo lhi pre post leaf leaf' its' n :
  tree_rep B t h g -> focused B t h None None g key a its llo lhi pre post ->
  tb_leaves t !! a = Some leaf -> lf_next leaf' = lf_next leaf -> lf_prev leaf' = lf_prev leaf ->
  leaf_rep B leaf' its' -> Forall (within llo lhi) (map fst its') -> StronglySorted key_lt (map fst its') ->
  n = length (parts_items pre ++ its' ++ parts_items post) ->
  exists g', tree_rep B (mkTBTreeMap (<[a := leaf']> (tb_leaves t)) (tb_inners t) (tb_root t) (tb_first t) n) h g'
    /\ g_items g' = parts_items pre ++ its' ++ parts_items post.
Proof.
  intros Ht Hfc Ha En Ep Hr Hin Hs ->; set (t' := mkTBTreeMap _ _ _ _ _).
  pose proof (fc_leaf _ _ _ _ _ _ _ _ _ _ _ _ _ Hfc) as (Hlt & _ & _ & Hi & _).
  pose proof (tr_leaves _ _ _ _ Ht) as Hd; unfold g_leaves in Hd; rewrite (fc_parts _ _ _ _ _ _ _ _ _ _ _ _ _ Hfc), map_app in Hd.
  cbn [map fst] in Hd; apply NoDup_app in Hd as (Hd1 & Hd2 & Hd3); apply NoDup_cons in Hd3 as [Hd3 _].
  destruct (fc_update _ _ _ _ _ _ _ _ _ _ _ _ _ Hfc t' its') as (g' & Hg' & Epp & Ei & Ea).
  - cbn [node_ok]; split_and!; try done; exists leaf'; split; [| done]; apply list_lookup_insert_eq; by eapply lookup_lt_Some.
  - split; [| done]; intros b l Hb Hlb; exists l; split; [| apply same_body_refl]; cbn [tb_leaves t'].
    rewrite list_lookup_insert_ne; [done|]; intros ->; rewrite map_app in Hb; apply elem_of_app in Hb as [Hb|Hb]; [| done].
    by apply (Hd2 b Hb); left.
  - assert (g_leaves g' = g_leaves g) as El.
    { unfold g_leaves; rewrite Epp, (fc_parts _ _ _ _ _ _ _ _ _ _ _ _ _ Hfc), !map_app; done. }
    assert (g_items g' = parts_items pre ++ its' ++ parts_items post) as Eit.
    { unfold g_items; rewrite Epp, map_app, concat_app; done. }
    exists g'; split; [| done]; constructor; rewrite ?El, ?Ei, ?Ea, ?Eit; try apply Ht; [done | done |].
    eapply set_leaf_linked; [apply Ht | done | done | done].
Qed.

Lemma holds_cases t items : holds B t items ->
  (t = TBTreeMap_new /\ items = []) \/ (exists h g, tree_rep B t h g /\ items = g_items g).
Proof. intros [?|(h & g & Ht & <-)]; [by left | right; eauto]. Qed.

(** A lookup answers what the ordered map holds. *)
Lemma get_ok t items key : holds B t items -> key_wf key -> TBTreeMap_get scan t key = Ok (assoc items key).
Proof.
  intros [[-> ->]|(h & g & Ht & ->)]%holds_cases Hwf; [done|].
  destruct (find_ok scan B t h g key Ht Hwf) as (a & leaf & its & llo & lhi & pre & post & s & E & _ & _ & _ & Hfc & Hl & Hr & Hs).
  destruct (focused_items _ _ _ _ _ _ _ _ _ _ _ _ Hfc) as (Eit & Hpre & Hpost).
  unfold TBTreeMap_get; rewrite E, Eit; res_simpl; rewrite assoc_under by done; apply seated_items in Hs; destruct s as [i|i].
  - destruct Hs as (l & val & r & -> & <- & Hul & Hor); rewrite <- app_assoc; cbn [app]; rewrite assoc_mid by done.
    assert (lf_vals leaf !! length l = Some val) as Hv.
    { eapply lookup_of_take; [apply Hr|]; rewrite map_app; cbn [map snd]; by rewrite list_lookup_middle by (by rewrite length_map). }
    unfold idx; by rewrite Hv.
  - destruct Hs as (l & r & -> & <- & Hul & Hor); rewrite <- app_assoc, assoc_under by done; f_equal; symmetry.
    apply assoc_over, over_app; done.
Qed.

(** A leaf with one value changed. *)
Lemma leaf_rep_set leaf a key (old val : V) b links1 links2 : leaf_rep B leaf (a ++ (key, old) :: b) ->
  leaf_rep B (mkLeaf (lf_len leaf) (lf_win leaf) (lf_lead leaf) (lf_keys leaf) (<[length a := val]> (lf_vals leaf)) links1 links2)
    (a ++ (key, val) :: b).
Proof.
  assert (map fst (a ++ (key, old) :: b) = map fst (a ++ (key, val) :: b)) as Ek by (by rewrite !map_app).
  assert (length (a ++ (key, old) :: b) = length (a ++ (key, val) :: b)) as El by (by rewrite !length_app).
  intros [H1 H2 H3 H4 H5 H6 H7 H8]; constructor; cbn; rewrite <- ?El, <- ?Ek; try done.
  - by rewrite length_insert.
  - rewrite take_insert_lt by (rewrite length_app; cbn [length]; lia); rewrite H7, !map_app; cbn [map snd].
    rewrite insert_app_r_alt by (by rewrite length_map); by rewrite length_map, Nat.sub_diag.
Qed.

(** A value changed in the leaf its key belongs to. *)
Lemma set_value_ok t h g key a leaf l (old val : V) r llo lhi pre post : tree_rep B t h g ->
  focused B t h None None g key a (l ++ (key, old) :: r) llo lhi pre post -> tb_leaves t !! a = Some leaf ->
  leaf_rep B leaf (l ++ (key, old) :: r) -> under l key ->
  idx (lf_vals leaf) (length l) = Ok old /\ assoc (g_items g) key = Some old
  /\ holds B (set_leaf t a (mkLeaf (lf_len leaf) (lf_win leaf) (lf_lead leaf) (lf_keys leaf) (<[length l := val]> (lf_vals leaf)) (lf_next leaf) (lf_prev leaf)))
       (with_item (g_items g) key val).
Proof.
  intros Ht Hfc Hl Hr Hul; destruct (focused_items _ _ _ _ _ _ _ _ _ _ _ _ Hfc) as (Eit & Hpre & Hpost).
  pose proof (fc_leaf _ _ _ _ _ _ _ _ _ _ _ _ _ Hfc) as (_ & Hin & Hsort & _); split_and!.
  - apply idx_Ok; eapply lookup_of_take; [apply Hr|]; rewrite map_app; cbn [map snd]; by rewrite list_lookup_middle by (by rewrite length_map).
  - rewrite Eit, assoc_under, <- app_assoc by done; cbn [app]; by rewrite assoc_mid.
  - destruct (set_leaf_rep t h g key a _ llo lhi pre post leaf
      (mkLeaf (lf_len leaf) (lf_win leaf) (lf_lead leaf) (lf_keys leaf) (<[length l := val]> (lf_vals leaf)) (lf_next leaf) (lf_prev leaf))
      (l ++ (key, val) :: r) (tb_len t) Ht Hfc Hl eq_refl eq_refl) as (g' & Ht' & Eg').
    + by apply leaf_rep_set with (old := old).
    + by rewrite map_app in *.
    + by rewrite map_app in *.
    + rewrite (tr_len _ _ _ _ Ht), Eit, !length_app; cbn [length]; done.
    + right; exists h, g'; split; [done|]; rewrite Eg', Eit, with_item_under by done; rewrite <- !app_assoc; cbn [app].
      by rewrite with_item_mid.
Qed.

Lemma get_mut_ok t items key write : holds B t items -> key_wf key ->
  match assoc items key with
  | Some val => exists t', TBTreeMap_get_mut scan t key write = Ok (Some t') /\ holds B t' (with_item items key (write val))
      /\ length (tb_leaves t') = length (tb_leaves t) /\ length (tb_inners t') = length (tb_inners t)
  | None => TBTreeMap_get_mut scan t key write = Ok None
  end.
Proof.
  intros [[-> ->]|(h & g & Ht & ->)]%holds_cases Hwf; [done|].
  destruct (find_ok scan B t h g key Ht Hwf) as (a & leaf & its & llo & lhi & pre & post & s & E & _ & _ & _ & Hfc & Hl & Hr & Hs).
  unfold TBTreeMap_get_mut; rewrite E; res_simpl; apply seated_items in Hs; destruct s as [i|i].
  - destruct Hs as (l & val & r & -> & <- & Hul & Hor).
    destruct (set_value_ok t h g key a leaf l val (write val) r llo lhi pre post Ht Hfc Hl Hr Hul) as (-> & -> & Hh); res_simpl.
    eexists; split; [done|]; split; [exact Hh | cbn; by rewrite length_insert].
  - destruct Hs as (l & r & -> & <- & Hul & Hor); destruct (focused_items _ _ _ _ _ _ _ _ _ _ _ _ Hfc) as (Eit & Hpre & Hpost).
    rewrite Eit, assoc_under, <- app_assoc, assoc_under by done; by rewrite (assoc_over (r ++ _)) by (by apply over_app).
Qed.

(** ** Taking out *)

Lemma closed_map {A C} (f : C -> A) arr arr' (l : list C) x r :
  take (length (l ++ x :: r)) arr = map f (l ++ x :: r) -> closed arr (length l) (length (l ++ x :: r)) arr' ->
  take (length (l ++ r)) arr' = map f (l ++ r).
Proof.
  intros E [_ Ec]; rewrite !length_app in *; cbn [length] in *.
  replace (length l + S (length r) - 1)%nat with (length l + length r)%nat in Ec by lia; rewrite Ec, E.
  rewrite <- (Nat.min_l (length l) (length l + S (length r))) at 1 by lia; rewrite <- take_take, E, !map_app.
  rewrite take_app_length' by (by rewrite length_map); f_equal; cbn [map].
  rewrite drop_app_ge by (rewrite length_map; lia); rewrite length_map.
  by replace (S (length l) - length l)%nat with 1%nat by lia.
Qed.

Lemma leaf_remove_ok leaf a key (val : V) b : leaf_rep B leaf (a ++ (key, val) :: b) ->
  exists leaf', leaf_remove leaf (length a) = Ok (leaf', val) /\ leaf_rep B leaf' (a ++ b)
    /\ lf_next leaf' = lf_next leaf /\ lf_prev leaf' = lf_prev leaf.
Proof.
  intros Hr; pose proof (lr_fits _ _ _ Hr) as Hfit; set (n := length (a ++ (key, val) :: b)) in *.
  assert (n = (length (a ++ b) + 1)%nat) as En by (subst n; rewrite !length_app; cbn [length]; lia).
  assert (length a < n)%nat as Han by (subst n; rewrite length_app; cbn [length]; lia).
  unfold leaf_remove; rewrite (lr_len _ _ _ Hr); fold n; rewrite Nat.add_1_r.
  destruct (copy_within_closes (lf_lead leaf) (length a) n) as (lead & -> & Hcl); [rewrite (lr_leads _ _ _ Hr); lia|]; res_simpl.
  destruct (close_ok (lf_keys leaf) (length a) n) as (keys & -> & Hck); [rewrite (lr_keys _ _ _ Hr); lia|]; res_simpl.
  unfold rotate_left; rewrite span_Ok by (rewrite (lr_vals _ _ _ Hr); lia); res_simpl; set (s := drop (length a) (take n (lf_vals leaf))).
  assert (s = val :: map snd b) as Es.
  { subst s n; rewrite (lr_val _ _ _ Hr), map_app, drop_app_length' by (by rewrite length_map); done. }
  assert (length (map snd b ++ [val]) = S (length b)) as Hlb by (rewrite length_app, length_map; cbn [length]; lia).
  assert (drop 1 s ++ take 1 s = map snd b ++ [val]) as -> by (by rewrite Es).
  assert ((length s <? 1)%nat = false) as -> by (by rewrite Es).
  rewrite copy_in_Ok by (rewrite Hlb, (lr_vals _ _ _ Hr); rewrite length_app in En; lia); res_simpl.
  set (vals := put _ _ _); assert (length vals = B) as Hlv.
  { subst vals; rewrite length_put; [apply Hr | rewrite Hlb, (lr_vals _ _ _ Hr), length_app in *; lia]. }
  assert (take (S (n - 1)) vals = map snd (a ++ b) ++ [val]) as Etv.
  { subst vals; replace (S (n - 1)) with (length a + length (map snd b ++ [val]))%nat by (rewrite Hlb, En, length_app; lia).
    rewrite take_put by (rewrite Hlb, (lr_vals _ _ _ Hr), length_app in *; lia).
    rewrite map_app, <- app_assoc; f_equal; rewrite <- (Nat.min_l (length a) n) by lia; rewrite <- take_take; subst n.
    rewrite (lr_val _ _ _ Hr), map_app; by rewrite take_app_length' by (by rewrite length_map). }
  assert (n - 1 = length (map snd (a ++ b)))%nat as En1 by (rewrite length_map; lia).
  rewrite (set_idx_Ok keys) by (destruct Hck as [-> _]; rewrite (lr_keys _ _ _ Hr); lia); res_simpl.
  assert (vals !! (n - 1)%nat = Some val) as Hvl.
  { eapply lookup_of_take; [exact Etv|]; rewrite En1; by apply list_lookup_middle. }
  unfold idx; rewrite Hvl; res_simpl; rewrite set_idx_Ok by lia; res_simpl.
  eexists; split; [done|]; split; [| done]; constructor; cbn.
  - lia.
  - destruct Hcl as [-> _]; apply Hr.
  - rewrite length_insert; destruct Hck as [-> _]; apply Hr.
  - by rewrite length_insert.
  - lia.
  - rewrite take_insert_ge by lia; by eapply (closed_map fst (lf_keys leaf) keys a (key, val) b); [apply Hr|].
  - rewrite take_insert_ge by lia; replace (length (a ++ b)) with (n - 1)%nat by lia.
    rewrite <- (Nat.min_l (n - 1) (S (n - 1))) by lia; rewrite <- take_take, Etv, take_app_length' by done; done.
  - pose proof (lr_search _ _ _ Hr) as [Hw Hwf Hin Hlead]; rewrite map_app in Hwf, Hin; cbn [map] in Hwf, Hin.
    apply Forall_app in Hwf as [Hwf1 [_ Hwf2]%Forall_cons]; apply Forall_app in Hin as [Hin1 [_ Hin2]%Forall_cons].
    constructor; [done | rewrite map_app; by apply Forall_app | rewrite map_app; by apply Forall_app |].
    rewrite length_map in *; rewrite map_map in *.
    by eapply (closed_map (fun e => window_lead (lf_win leaf) e.1) (lf_lead leaf) lead a (key, val) b).
Qed.

Lemma sorted_middle_remove a key b : StronglySorted key_lt (a ++ key :: b) -> StronglySorted key_lt (a ++ b : list K).
Proof.
  intros Hs; apply StronglySorted_app in Hs as (H1 & H2 & H3); apply StronglySorted_inv in H3 as [H3 _].
  apply StronglySorted_app; split_and!; [| done | done]; intros x y Hx Hy; apply H1; [done | by right].
Qed.

(** A removal hands back what the key held and leaves the rest. *)
Lemma remove_ok t items key : holds B t items -> key_wf key ->
  exists t', TBTreeMap_remove scan t key = Ok (t', assoc items key) /\ holds B t' (without items key)
    /\ length (tb_leaves t') = length (tb_leaves t) /\ length (tb_inners t') = length (tb_inners t).
Proof.
  intros [[-> ->]|(h & g & Ht & ->)]%holds_cases Hwf; [exists TBTreeMap_new; split; [done|]; split; [by left | done]|].
  destruct (find_ok scan B t h g key Ht Hwf) as (a & leaf & its & llo & lhi & pre & post & s & E & _ & _ & _ & Hfc & Hl & Hr & Hs).
  destruct (focused_items _ _ _ _ _ _ _ _ _ _ _ _ Hfc) as (Eit & Hpre & Hpost).
  pose proof (fc_leaf _ _ _ _ _ _ _ _ _ _ _ _ _ Hfc) as (_ & Hin & Hsort & _).
  unfold TBTreeMap_remove; rewrite E; res_simpl; apply seated_items in Hs; destruct s as [i|i].
  - destruct Hs as (l & val & r & -> & <- & Hul & Hor); destruct (leaf_remove_ok leaf l key val r Hr) as (leaf' & -> & Hr' & En & Ep).
    res_simpl; cbn [tb_leaves tb_inners set_leaf tb_root tb_first tb_len].
    destruct (set_leaf_rep t h g key a _ llo lhi pre post leaf leaf' (l ++ r) (tb_len t - 1)%nat Ht Hfc Hl En Ep Hr') as (g' & Ht' & Eg').
    + rewrite map_app in *; cbn [map] in Hin; apply Forall_app in Hin as [? [_ ?]%Forall_cons]; by apply Forall_app.
    + rewrite map_app in *; by eapply sorted_middle_remove.
    + rewrite (tr_len _ _ _ _ Ht), Eit, !length_app; cbn [length]; lia.
    + eexists; split; [rewrite Eit, assoc_under by done; rewrite <- app_assoc; cbn [app]; by rewrite assoc_mid|].
      cbn [tb_leaves tb_inners]; rewrite length_insert; split; [| done]; right; exists h, g'; split; [done|]; rewrite Eg', Eit.
      rewrite <- !app_assoc; cbn [app]; rewrite !(app_assoc (parts_items pre)); symmetry.
      apply without_mid; [by apply under_app | by apply over_app].
  - destruct Hs as (l & r & -> & <- & Hul & Hor); exists t; rewrite Eit, assoc_under by done.
    rewrite <- app_assoc, (assoc_under l), assoc_over by (done || by apply over_app); split; [done|]; split; [| done].
    right; exists h, g; split; [done|]; rewrite Eit, <- app_assoc, (app_assoc (parts_items pre)); symmetry.
    apply without_gap; [by apply under_app | by apply over_app].
Qed.

End ops.
