(* ===== verification/TBTreeSplit.v ===== *)
(** * Splitting nodes ([index/tbtreemap.rs])

    What a slot opened in a leaf, a separator hung in an inner node, and the two arms of
    [split_child] do to the nodes they touch. *)
From S2P Require Import Prelude Error Arrays Bytes TreeKey TBTree TBTreeRep TBTreeFind TBTreeOps.

Lemma arena_index_last n : Z.of_nat n < INNER -> arena_index (S n) = Z.of_nat n.
Proof.
  intros Hn; change INNER with 2147483648 in Hn; unfold arena_index, as_u32, U32.
  rewrite (Z.mod_small (Z.of_nat (S n))) by lia; rewrite Z.mod_small by lia; lia.
Qed.

(** Slots opened in an array that holds a mapped run. *)
Lemma opened_map {A C} (f : C -> A) arr arr' (l r : list C) x : take (length (l ++ r)) arr = map f (l ++ r) ->
  opened arr (length l) (length (l ++ r)) arr' ->
  take (S (length (l ++ r))) (<[length l := x]> arr') = map f l ++ x :: map f r.
Proof.
  intros E [_ Eo]; rewrite Eo, E; rewrite length_app, map_app in *.
  rewrite <- (Nat.min_l (length l) (length l + length r)) at 1 by lia; rewrite <- take_take, E.
  by rewrite take_app_length', drop_app_length' by (by rewrite length_map).
Qed.

(** A run copied to the front of a fresh array. *)
Lemma copy_in_front {A} (fresh run : list A) : (length run <= length fresh)%nat ->
  exists arr, copy_in fresh 0 run = Ok arr /\ length arr = length fresh /\ take (length run) arr = run.
Proof.
  intros Hl; rewrite copy_in_Ok by lia; eexists; split; [done|]; rewrite length_put by lia; split; [done|].
  pose proof (take_put fresh 0 run ltac:(lia)) as E; by rewrite Nat.add_0_l, take_0 in E.
Qed.

Lemma drop_take_map {A C} (f : C -> A) arr (l r : list C) : take (length (l ++ r)) arr = map f (l ++ r) ->
  drop (length l) (take (length (l ++ r)) arr) = map f r /\ take (length l) arr = map f l.
Proof.
  intros E; rewrite E; rewrite length_app, map_app in *; split; [by rewrite drop_app_length' by (by rewrite length_map)|].
  rewrite <- (Nat.min_l (length l) (length l + length r)) by lia; rewrite <- take_take, E.
  by rewrite take_app_length' by (by rewrite length_map).
Qed.

Section split.
Context {K V : Type} `{TKL : TreeKeyLaws K} `{Inhabited V}.
Variable B : nat.
Hypothesis HB : (3 <= B <= 256)%nat.
Implicit Types (t : @TBTreeMap K V _) (g : @gtree K V) (l r : list (K * V)) (leaf : @Leaf K V _) (inner : @Inner K _).

Lemma searchable_sub w leads leads' ks (ks' : list K) : searchable w leads ks -> ks' ⊆ ks ->
  take (length ks') leads' = map (window_lead w) ks' -> searchable w leads' ks'.
Proof.
  intros [Hw Hwf Hin _] Hsub E; constructor; [done | | | done]; apply Forall_forall; intros k Hk; apply Hsub in Hk;
    [rewrite Forall_forall in Hwf; by apply Hwf | rewrite Forall_forall in Hin; by apply Hin].
Qed.

(** ** A key put in a leaf *)

Lemma leaf_insert_ok leaf l r (key : K) (val : V) : leaf_rep B leaf (l ++ r) -> (length (l ++ r) < B)%nat -> key_wf key ->
  exists leaf', leaf_insert leaf (length l) key val = Ok leaf' /\ leaf_rep B leaf' (l ++ (key, val) :: r)
    /\ lf_next leaf' = lf_next leaf /\ lf_prev leaf' = lf_prev leaf.
Proof.
  intros Hr Hfit Hwf; set (n := length (l ++ r)) in *; unfold leaf_insert; rewrite (lr_len _ _ _ Hr); fold n.
  assert (length l <= n)%nat as Hln by (subst n; rewrite length_app; lia); rewrite !Nat.add_1_r.
  destruct (copy_within_opens (lf_lead leaf) (length l) n) as (lead & -> & Hol); [rewrite (lr_leads _ _ _ Hr); lia|]; res_simpl.
  destruct (open_ok (lf_keys leaf) (length l) n) as (keys & -> & Hok); [rewrite (lr_keys _ _ _ Hr); lia|]; res_simpl.
  destruct (rotate_right_opens (lf_vals leaf) (length l) n) as (vals & -> & Hov); [rewrite (lr_vals _ _ _ Hr); lia|]; res_simpl.
  pose proof Hol as [Hll _]; pose proof Hok as [Hlk _]; pose proof Hov as [Hlv _].
  rewrite (lr_leads _ _ _ Hr) in Hll; rewrite (lr_keys _ _ _ Hr) in Hlk; rewrite (lr_vals _ _ _ Hr) in Hlv.
  rewrite !set_idx_Ok by lia; res_simpl.
  set (word := match window_word (lf_win leaf) key with Word word => word | Edge _ => 0 end).
  assert (length (l ++ (key, val) :: r) = S n) as En by (subst n; rewrite !length_app; cbn [length]; lia).
  assert (take (S n) (<[length l := key]> keys) = map fst (l ++ (key, val) :: r)) as Ek
    by (rewrite map_app; apply opened_map with (arr := lf_keys leaf); [apply Hr | done]).
  assert (take (S n) (<[length l := val]> vals) = map snd (l ++ (key, val) :: r)) as Ev
    by (rewrite map_app; apply opened_map with (arr := lf_vals leaf); [apply Hr | done]).
  pose proof (lr_search _ _ _ Hr) as [Hw Hwfs Hin Hlead]; rewrite length_map, map_map in Hlead.
  pose proof (opened_map (fun e => window_lead (lf_win leaf) e.1) (lf_lead leaf) lead l r word Hlead Hol) as El; fold n in El.
  assert (Forall key_wf (map fst (l ++ (key, val) :: r))) as Hwfs'
    by (rewrite map_app in *; apply Forall_app in Hwfs as [? ?]; apply Forall_app; split; [done | by constructor]).
  destruct (window_word (lf_win leaf) key) as [want|place] eqn:Ew; subst word.
  - apply word_lead in Ew as [Hki ->]; [| done].
    eexists; split; [done|]; split; [| done]; constructor; cbn; rewrite ?En, ?length_insert; try done.
    constructor; [done | done | |].
    + rewrite map_app in *; apply Forall_app in Hin as [? ?]; apply Forall_app; split; [done | by constructor].
    + rewrite length_map, map_map, En, El, map_app; done.
  - destruct (Leaf_retune_ok (mkLeaf (S n) (lf_win leaf) (<[length l := 0]> lead) (<[length l := key]> keys)
      (<[length l := val]> vals) (lf_next leaf) (lf_prev leaf)) (map fst (l ++ (key, val) :: r)))
      as (w & lead' & -> & Hl' & Hs); cbn; rewrite ?length_map, ?En, ?length_insert in *; try done; try lia.
    { intros Hall; exfalso; rewrite map_app in Hall; cbn [map fst] in Hall; apply Forall_app in Hall as [_ [Hki _]%Forall_cons].
      assert (window_word (lf_win leaf) key = Word (window_lead (lf_win leaf) key)) by (by apply word_lead); congruence. }
    cbn [lf_lead] in Hl'; rewrite length_insert in Hl'.
    eexists; split; [done|]; split; [| done]; constructor; cbn; rewrite ?En, ?length_insert; try done; lia.
Qed.

(** ** A separator hung in an inner node *)

Definition lifted_spill (sep : K) : option K := if whole then Some sep else None.

Lemma spill_run_put s1 s2 sep : (length s1 < 256)%nat ->
  match lifted_spill sep with
  | Some full => put_spill (shift_spill (spill_run (s1 ++ s2)) (length s1)) (length s1) full
  | None => shift_spill (spill_run (s1 ++ s2)) (length s1)
  end = spill_run (s1 ++ sep :: s2).
Proof. intros; unfold lifted_spill, spill_run; destruct whole; [by apply put_spill_numbered | done]. Qed.

Lemma hang_ok inner s1 s2 k1 c k2 sep lift_lead fresh : inner_rep B inner (s1 ++ s2) (k1 ++ c :: k2) -> length s1 = length k1 ->
  (S (length (s1 ++ s2)) < B)%nat -> key_wf sep -> (whole = false -> lift_lead = head sep) ->
  exists inner', hang inner (length k1) lift_lead (lifted_spill sep) fresh = Ok inner'
    /\ inner_rep B inner' (s1 ++ sep :: s2) (k1 ++ c :: fresh :: k2).
Proof.
  intros Hr Hl Hfit Hwf Hlift; set (n := length (s1 ++ s2)) in *; unfold hang; rewrite (ir_len _ _ _ _ Hr); fold n; rewrite <- Hl.
  assert (length s1 <= n)%nat as Hsn by (subst n; rewrite length_app; lia); rewrite !Nat.add_1_r.
  replace (length s1 + 2)%nat with (S (S (length s1))) by lia.
  destruct (copy_within_opens (in_lead inner) (length s1) n) as (lead & -> & Hol); [rewrite (ir_leads _ _ _ _ Hr); lia|]; res_simpl.
  destruct (copy_within_opens (in_kids inner) (S (length s1)) (S n)) as (kids & -> & Hok); [rewrite (ir_kids _ _ _ _ Hr); lia|]; res_simpl.
  pose proof Hol as [Hll _]; pose proof Hok as [Hlk _]; rewrite (ir_leads _ _ _ _ Hr) in Hll; rewrite (ir_kids _ _ _ _ Hr) in Hlk.
  rewrite (set_idx_Ok lead) by lia; res_simpl; rewrite (set_idx_Ok kids) by lia; res_simpl.
  rewrite (ir_spill _ _ _ _ Hr), (spill_run_put s1 s2 sep) by lia.
  assert (length (s1 ++ sep :: s2) = S n) as En by (subst n; rewrite !length_app; cbn [length]; lia).
  assert (length (k1 ++ c :: k2) = S n) as Hkn by (rewrite <- (ir_kid _ _ _ _ Hr), length_take, (ir_kids _ _ _ _ Hr); fold n; lia).
  assert (take (S (S n)) (<[S (length s1) := fresh]> kids) = k1 ++ c :: fresh :: k2) as Ekids.
  { assert (length (k1 ++ [c]) = S (length s1)) as Hkc by (rewrite length_app; cbn [length]; lia).
    assert ((k1 ++ [c]) ++ k2 = k1 ++ c :: k2) as E by (by rewrite <- app_assoc).
    pose proof (opened_map id (in_kids inner) kids (k1 ++ [c]) k2 fresh) as Ho; rewrite Hkc, E, Hkn, !map_id in Ho.
    rewrite Ho; [by rewrite <- app_assoc | apply Hr | done]. }
  pose proof (ir_search _ _ _ _ Hr) as [Hw Hwfs Hin Hlead]; set (lead_at := match _ with Some (Word word) => word | _ => _ end).
  pose proof (opened_map (window_lead (in_win inner)) (in_lead inner) lead s1 s2 lead_at Hlead Hol) as El; fold n in El.
  assert (Forall key_wf (s1 ++ sep :: s2)) as Hwfs' by (apply Forall_app in Hwfs as [? ?]; apply Forall_app; split; [done | by constructor]).
  set (fresh_inner := mkInner (S n) (in_win inner) (<[length s1 := lead_at]> lead) (<[S (length s1) := fresh]> kids) (spill_run (s1 ++ sep :: s2))).
  assert (forall w lead', length lead' = B -> searchable w lead' (s1 ++ sep :: s2) ->
    inner_rep B (mkInner (S n) w lead' (<[S (length s1) := fresh]> kids) (spill_run (s1 ++ sep :: s2)))
      (s1 ++ sep :: s2) (k1 ++ c :: fresh :: k2)) as Hdone.
  { intros w lead' Hl' Hs; constructor; cbn; rewrite ?En, ?length_insert; try done; lia. }
  assert (inside (in_win inner) sep -> lead_at = window_lead (in_win inner) sep -> inner_rep B fresh_inner (s1 ++ sep :: s2) (k1 ++ c :: fresh :: k2)) as Hplain.
  { intros Hsi Hla; apply Hdone; [by rewrite length_insert|]; constructor; [done | done | |].
    - apply Forall_app in Hin as [? ?]; apply Forall_app; split; [done | by constructor].
    - rewrite En, El, map_app; cbn [map]; by rewrite Hla. }
  subst lead_at; unfold lifted_spill in *; destruct whole eqn:Ewh; cbn [fmap option_fmap option_map] in *.
  - destruct (window_word (in_win inner) sep) as [want|place] eqn:Ew.
    + apply word_lead in Ew as [Hsi ->]; [| done]; eexists; split; [done|]; by apply Hplain.
    + destruct (Inner_retune_ok fresh_inner (s1 ++ sep :: s2)) as (w & lead' & E & Hl' & Hs); cbn; rewrite ?En, ?length_insert in *; try done; try lia.
      { intros Hall; exfalso; apply Forall_app in Hall as [_ [Hsi _]%Forall_cons].
        assert (window_word (in_win inner) sep = Word (window_lead (in_win inner) sep)) by (by apply word_lead); congruence. }
      eexists; split; [exact E|]; cbn in Hl'; rewrite length_insert in Hl'; apply Hdone; [lia | done].
  - destruct (lead_exact (in_win inner) sep sep Ewh) as (Hsi & Hhead & _).
    eexists; split; [done|]; apply Hplain; [done|]; by rewrite Hhead, Hlift.
Qed.

(** ** The arms of [split_child] *)

(** Every leaf but one is as it was, but for the link back of the leaf behind it. *)
Definition relinked t t' (at_ : nat) (after : Z) (fresh : nat) : Prop :=
  forall b leaf, tb_leaves t !! b = Some leaf -> b <> at_ -> exists leaf', tb_leaves t' !! b = Some leaf'
    /\ same_body leaf leaf' /\ lf_next leaf' = lf_next leaf
    /\ lf_prev leaf' = (if Z.of_nat b =? after then Z.of_nat fresh else lf_prev leaf).

Lemma hand_vals_ok (from to : list V) at_ count : (at_ + count <= length from)%nat -> (count <= length to)%nat ->
  exists from' to', hand_vals from to at_ count = Ok (from', to')
    /\ length from' = length from /\ length to' = length to
    /\ take at_ from' = take at_ from /\ take count to' = take count (drop at_ from).
Proof.
  intros Hf Ht; destruct (hand_over_steps inhabitant from to at_ count Hf Ht) as (from' & to' & E & ? & ? & ? & _ & ?).
  exists from', to'; by split_and!.
Qed.

Lemma half_keys leaf l (r : list (K * V)) left_keys right_keys : leaf_rep B leaf (l ++ r) ->
  take (length l) left_keys = take (length l) (lf_keys leaf) -> take (length r) right_keys = take (length r) (drop (length l) (lf_keys leaf)) ->
  take (length l) left_keys = map fst l /\ take (length r) right_keys = map fst r.
Proof.
  intros Hr El Er; destruct (drop_take_map fst (lf_keys leaf) l r (lr_key _ _ _ Hr)) as [E1 E2]; split; [congruence|].
  rewrite Er, <- E1, length_app, skipn_firstn_comm; f_equal; lia.
Qed.

(** The separator cut between two halves. *)
Lemma cut_between l r : StronglySorted key_lt (map fst (l ++ r)) -> Forall key_wf (map fst (l ++ r)) -> l <> [] -> r <> [] ->
  exists l' low high r', l = l' ++ [low] /\ r = high :: r' /\ key_wf (separator low.1 high.1).1 /\ key_lt low.1 (separator low.1 high.1).1
    /\ key_le (separator low.1 high.1).1 high.1 /\ (separator low.1 high.1).2 = whole.
Proof.
  intros Hsort Hwf Hl Hr; destruct (last l) as [low|] eqn:Elow; [| by apply last_None in Elow].
  apply last_Some in Elow as [l' ->]; destruct r as [|high r']; [done|]; exists l', low, high, r'; split; [done|]; split; [done|].
  rewrite !map_app in *; cbn [map] in *; apply separator_between.
  - apply Forall_app in Hwf as [Hwf _]; by apply Forall_app in Hwf as [_ [? _]%Forall_cons].
  - by apply Forall_app in Hwf as [_ [? _]%Forall_cons].
  - apply StronglySorted_app in Hsort as (Ho & _ & _); apply Ho; set_solver.
Qed.

Lemma halve_leaf_ok leaf at_ l r (appending : bool) : leaf_rep B leaf (l ++ r) ->
  StronglySorted key_lt (map fst (l ++ r)) -> length (l ++ r) = B -> r <> [] -> l <> [] ->
  length l = (if appending then (B - 1)%nat else (B / 2)%nat) ->
  exists left right sep, halve_leaf B leaf at_ appending = Ok (left, right, head sep, lifted_spill sep)
    /\ key_wf sep /\ Forall (fun k => key_lt k sep) (map fst l) /\ Forall (key_le sep) (map fst r)
    /\ leaf_rep B left l /\ lf_prev left = lf_prev leaf
    /\ leaf_rep B right r /\ lf_next right = lf_next leaf /\ lf_prev right = Z.of_nat at_.
Proof.
  intros Hr Hsort Hfull Hrne Hlne Hhalf; unfold halve_leaf; rewrite (lr_len _ _ _ Hr), Hfull, <- Hhalf.
  assert (length l + length r = B)%nat as Hbs by (by rewrite <- length_app).
  replace (B - length l)%nat with (length r) by lia.
  pose proof (lr_search _ _ _ Hr) as Hs; pose proof (sc_wf _ _ _ Hs) as Hwf.
  destruct (drop_take_map (fun e : K * V => window_lead (lf_win leaf) e.1) (lf_lead leaf) l r) as [Elr Ell].
  { pose proof (sc_lead _ _ _ Hs) as E; by rewrite length_map, map_map in E. }
  rewrite span_Ok by (rewrite (lr_leads _ _ _ Hr); lia); res_simpl; rewrite Hfull in Elr; rewrite Elr.
  destruct (copy_in_front (replicate B 0) (map (fun e : K * V => window_lead (lf_win leaf) e.1) r)) as (lead & -> & Hll & Elead);
    [rewrite length_map, length_replicate; lia|]; res_simpl; rewrite length_replicate, length_map in *.
  destruct (hand_over_ok (lf_keys leaf) (replicate B filler) (length l) (length r)) as (lkeys & rkeys & -> & Hlk & Hrk & Elk & Erk);
    [rewrite (lr_keys _ _ _ Hr); lia | rewrite length_replicate; lia|]; res_simpl; rewrite length_replicate, (lr_keys _ _ _ Hr) in *.
  destruct (hand_vals_ok (lf_vals leaf) (replicate B inhabitant) (length l) (length r)) as (lvals & rvals & -> & Hlv & Hrv & Elv & Erv);
    [rewrite (lr_vals _ _ _ Hr); lia | rewrite length_replicate; lia|]; res_simpl; rewrite length_replicate, (lr_vals _ _ _ Hr) in *.
  destruct (half_keys leaf l r lkeys rkeys Hr Elk Erk) as [Elk' Erk'].
  destruct (drop_take_map snd (lf_vals leaf) l r (lr_val _ _ _ Hr)) as [Ev1 Ev2].
  assert (take (length r) rvals = map snd r) as Erv' by (rewrite Erv, <- Ev1, length_app, skipn_firstn_comm; f_equal; lia).
  destruct (cut_between l r Hsort Hwf Hlne Hrne) as (l' & low & high & r' & El' & Er' & Hwsep & Hslo & Hshi & Hwh).
  assert (idx_before lkeys (length l) = Ok low.1) as ->.
  { rewrite El', length_app in *; cbn [length] in *; rewrite Nat.add_1_r; apply idx_Ok; eapply lookup_of_take; [exact Elk'|].
    rewrite map_app; cbn [map]; by rewrite list_lookup_middle by (by rewrite length_map). }
  assert (idx rkeys 0 = Ok high.1) as -> by (apply idx_Ok; rewrite Er' in Erk'; by eapply lookup_of_take; [exact Erk'|]).
  res_simpl; destruct (separator low.1 high.1) as [sep wh]; cbn [fst snd] in *; subst wh.
  pose proof Hwf as Hwf'; rewrite map_app in Hwf'; apply Forall_app in Hwf' as [Hwl Hwr].
  destruct (Leaf_retune_ok (mkLeaf (length r) (lf_win leaf) lead rkeys rvals (lf_next leaf) (Z.of_nat at_)) (map fst r))
    as (rw & rlead & Eright & Hrl & Hrs); cbn [lf_win lf_len lf_lead lf_keys]; rewrite ?length_map; [apply Hs | done | done | lia | lia | done | by intros; rewrite map_map |].
  destruct (Leaf_retune_ok (mkLeaf (length l) (lf_win leaf) (lf_lead leaf) lkeys lvals (lf_next leaf) (lf_prev leaf)) (map fst l))
    as (lw & llead & Eleft & Hlll & Hls); cbn [lf_win lf_len lf_lead lf_keys]; rewrite ?length_map; [apply Hs | done | done | rewrite (lr_leads _ _ _ Hr); lia | lia | done | by intros; rewrite map_map |].
  rewrite Eright; res_simpl; rewrite Eleft; res_simpl; cbn [lf_next lf_prev lf_len lf_win lf_lead lf_keys lf_vals] in *.
  rewrite (lr_leads _ _ _ Hr) in *; do 3 eexists; split; [done|]; split; [done|].
  rewrite El', Er', !map_app in Hsort; cbn [map] in Hsort; apply StronglySorted_app in Hsort as (_ & Hs1 & Hs2).
  apply StronglySorted_app in Hs1 as (Ho1 & _ & _); apply StronglySorted_inv in Hs2 as [_ Ho2].
  split_and!; try done.
  - rewrite El', map_app; cbn [map]; apply Forall_app; split; [| by constructor]; apply Forall_forall; intros k Hk.
    eapply key_lt_trans; [| exact Hslo]; apply Ho1; [done | by left].
  - rewrite Er'; cbn [map]; constructor; [done|]; eapply Forall_impl; [exact Ho2|]; intros k Hk; eapply key_le_trans; [exact Hshi | by apply key_lt_le].
  - constructor; cbn; congruence || done || lia || (by rewrite Elv, Ev2).
  - constructor; cbn; congruence || done || lia.
Qed.

Lemma split_leaf_ok t at_ leaf l r (appending : bool) : tb_leaves t !! at_ = Some leaf -> leaf_rep B leaf (l ++ r) ->
  StronglySorted key_lt (map fst (l ++ r)) -> length (l ++ r) = B -> r <> [] -> l <> [] ->
  length l = (if appending then (B - 1)%nat else (B / 2)%nat) -> Z.of_nat (length (tb_leaves t)) < INNER ->
  (lf_next leaf <> NONE -> exists b next, lf_next leaf = Z.of_nat b /\ b <> at_ /\ tb_leaves t !! b = Some next) ->
  exists t' sep lleaf (rleaf : @Leaf K V _), let fresh := length (tb_leaves t) in
    split_leaf B t at_ appending = Ok (t', head sep, lifted_spill sep, Z.of_nat fresh)
    /\ key_wf sep /\ Forall (fun k => key_lt k sep) (map fst l) /\ Forall (key_le sep) (map fst r)
    /\ tb_leaves t' !! at_ = Some lleaf /\ leaf_rep B lleaf l /\ lf_next lleaf = Z.of_nat fresh /\ lf_prev lleaf = lf_prev leaf
    /\ tb_leaves t' !! fresh = Some rleaf /\ leaf_rep B rleaf r /\ lf_next rleaf = lf_next leaf /\ lf_prev rleaf = Z.of_nat at_
    /\ relinked t t' at_ (lf_next leaf) fresh /\ length (tb_leaves t') = S fresh /\ tb_inners t' = tb_inners t
    /\ tb_root t' = tb_root t /\ tb_first t' = tb_first t /\ tb_len t' = tb_len t.
Proof.
  intros Ha Hr Hsort Hfull Hrne Hlne Hhalf Hroom Hnext; unfold split_leaf, idx; rewrite Ha; res_simpl.
  destruct (halve_leaf_ok leaf at_ l r appending Hr Hsort Hfull Hrne Hlne Hhalf) as (left & rleaf & sep & -> & Hwsep & Hlo & Hhi & Hlrep & Elp & Hrrep & Ern & Erp).
  set (fresh := length (tb_leaves t)) in *; res_simpl; cbn [tb_leaves push_leaf set_leaf]; rewrite length_app, length_insert; cbn [length].
  rewrite Nat.add_1_r; fold fresh; rewrite (arena_index_last fresh), Ern by done.
  set (lleaf := mkLeaf (lf_len left) (lf_win left) (lf_lead left) (lf_keys left) (lf_vals left) (Z.of_nat fresh) (lf_prev left)).
  assert (leaf_rep B lleaf l) as Hlrep' by (by eapply leaf_rep_body; [| exact Hlrep]).
  assert (at_ < fresh)%nat as Hat by (by eapply lookup_lt_Some).
  set (leaves1 := <[at_ := lleaf]> (<[at_ := left]> (tb_leaves t) ++ [rleaf])).
  assert (leaves1 = <[at_ := lleaf]> (tb_leaves t) ++ [rleaf]) as Eleaves.
  { subst leaves1; rewrite insert_app_l by (by rewrite length_insert); by rewrite list_insert_insert_eq. }
  assert (leaves1 !! at_ = Some lleaf) as H1at by (rewrite Eleaves, lookup_app_l by (by rewrite length_insert); by apply list_lookup_insert_eq).
  assert (leaves1 !! fresh = Some rleaf) as H1fr by (rewrite Eleaves; apply list_lookup_middle; by rewrite length_insert).
  assert (forall b, b <> at_ -> (b < fresh)%nat -> leaves1 !! b = tb_leaves t !! b) as H1ot
    by (intros b Hb Hlt'; rewrite Eleaves, lookup_app_l by (by rewrite length_insert); by apply list_lookup_insert_ne).
  assert (length leaves1 = S fresh) as H1len by (rewrite Eleaves, length_app, length_insert; cbn [length]; lia).
  destruct (Z.eqb_spec (lf_next leaf) NONE) as [Enone|Enone]; res_simpl.
  - do 4 eexists; split; [done|]; cbn [tb_leaves tb_inners tb_root tb_first tb_len set_leaf push_leaf].
    split_and!; try done; intros b lb Hb Hne; assert (b < fresh)%nat by (by eapply lookup_lt_Some).
    exists lb; cbn [tb_leaves set_leaf push_leaf]; fold leaves1; rewrite (H1ot b) by done; split_and!; [done | apply same_body_refl | done |].
    destruct (Z.eqb_spec (Z.of_nat b) (lf_next leaf)); [| done]; exfalso; change INNER with 2147483648 in Hroom; unfold NONE, U32 in *; lia.
  - destruct (Hnext Enone) as (b & next & Enext & Hbat & Hb); rewrite Enext, Nat2Z.id.
    assert (b < fresh)%nat as Hbf by (by eapply lookup_lt_Some); fold leaves1; rewrite (H1ot b), Hb by done; res_simpl.
    do 4 eexists; split; [done|]; cbn [tb_leaves tb_inners tb_root tb_first tb_len set_leaf push_leaf]; fold leaves1.
    split_and!; try done; [by rewrite list_lookup_insert_ne | rewrite list_lookup_insert_ne by lia; exact H1fr | congruence | | by rewrite length_insert].
    intros c lc Hc Hne; cbn [tb_leaves set_leaf push_leaf]; fold leaves1; assert (c < fresh)%nat by (by eapply lookup_lt_Some).
    destruct (Z.eqb_spec (Z.of_nat c) (Z.of_nat b)) as [Ecb|Ecb].
    + assert (c = b) as -> by lia; rewrite list_lookup_insert_eq by lia; eexists; split; [done|]; rewrite Hb in Hc; injection Hc as <-; done.
    + rewrite list_lookup_insert_ne by (intros ->; done); exists lc; rewrite (H1ot c) by done; split_and!; [done | apply same_body_refl | done | done].
Qed.

Lemma spill_run_split s1 sep s2 : (length s1 < 256)%nat ->
  exists spill, take_spill (spill_run (s1 ++ sep :: s2)) (length s1) = (lifted_spill sep, spill)
    /\ split_spill spill (length s1) = (spill_run s1, spill_run s2).
Proof.
  intros Hl; unfold spill_run, lifted_spill; destruct whole.
  - rewrite take_spill_numbered; eexists; split; [done|]; apply split_spill_numbered; lia.
  - by exists [].
Qed.

Lemma halve_inner_ok inner s1 sep s2 k1 k2 : inner_rep B inner (s1 ++ sep :: s2) (k1 ++ k2) ->
  length s1 = (length (s1 ++ sep :: s2) / 2)%nat -> length k1 = S (length s1) ->
  exists left right lift_lead, halve_inner B inner = Ok (left, right, lift_lead, lifted_spill sep)
    /\ (whole = false -> lift_lead = head sep) /\ inner_rep B left s1 k1 /\ inner_rep B right s2 k2.
Proof.
  intros Hr Hhalf Hk1; unfold halve_inner; rewrite (ir_len _ _ _ _ Hr), <- Hhalf; pose proof (ir_fits _ _ _ _ Hr) as Hfit.
  pose proof (ir_search _ _ _ _ Hr) as Hs; set (n := length (s1 ++ sep :: s2)) in *; pose proof Hs as [Hw Hwf Hin Hlead]; fold n in Hlead.
  assert (n = length s1 + S (length s2))%nat as En by (subst n; rewrite length_app; done).
  unfold idx; rewrite (lead_at _ _ _ s1 sep s2 Hs eq_refl); res_simpl; rewrite (ir_spill _ _ _ _ Hr).
  destruct (spill_run_split s1 sep s2) as (spill & -> & Esplit); [lia|].
  pose proof (ir_kid _ _ _ _ Hr) as Ekids; fold n in Ekids.
  assert (length k2 = S (length s2)) as Hk2.
  { apply (f_equal length) in Ekids; rewrite length_take, length_app, (ir_kids _ _ _ _ Hr) in Ekids; lia. }
  assert (s1 ++ sep :: s2 = (s1 ++ [sep]) ++ s2) as Es by (by rewrite <- app_assoc).
  assert (length (s1 ++ [sep]) = (length s1 + 1)%nat) as Hs1 by (by rewrite length_app).
  destruct (drop_take_map (window_lead (in_win inner)) (in_lead inner) (s1 ++ [sep]) s2) as [El2 _]; [by rewrite <- Es|].
  destruct (drop_take_map (window_lead (in_win inner)) (in_lead inner) s1 (sep :: s2)) as [_ El1]; [done|].
  rewrite <- Es, Hs1 in El2; fold n in El2; rewrite !span_Ok by (rewrite ?(ir_leads _ _ _ _ Hr), ?(ir_kids _ _ _ _ Hr); lia); res_simpl.
  rewrite El2; replace (length s1 + 1)%nat with (length k1) by lia; rewrite Nat.add_1_r, Ekids, drop_app_length.
  destruct (copy_in_front (replicate B 0) (map (window_lead (in_win inner)) s2)) as (lead & -> & Hll & Elead);
    [rewrite length_map, length_replicate; lia|]; res_simpl.
  destruct (copy_in_front (replicate B NONE) k2) as (kids & -> & Hlk & Ekid); [rewrite length_replicate; lia|]; res_simpl.
  rewrite Esplit, length_replicate, length_map in *; replace (n - length s1 - 1)%nat with (length s2) by lia.
  apply Forall_app in Hwf as [Hwf1 [_ Hwf2]%Forall_cons].
  destruct (Inner_retune_ok (mkInner (length s2) (in_win inner) lead kids (spill_run s2)) s2) as (rw & rl & Er & Hrl & Hrs); cbn; [done | done | done | lia | done | done |].
  destruct (Inner_retune_ok (mkInner (length s1) (in_win inner) (in_lead inner) (in_kids inner) (spill_run s1)) s1) as (lw & ll & El & Hll' & Hls); cbn; [done | done | done | rewrite (ir_leads _ _ _ _ Hr); lia | done | done |].
  rewrite Er; res_simpl; rewrite El; res_simpl; cbn in *; do 3 eexists; split; [done|]; split_and!.
  - intros Ewh; by destruct (lead_exact (in_win inner) sep sep Ewh) as (_ & ? & _).
  - constructor; cbn; rewrite ?(ir_leads _ _ _ _ Hr), ?(ir_kids _ _ _ _ Hr) in *; try done; [lia|].
    rewrite <- (Nat.min_l (S (length s1)) (S n)) by lia; rewrite <- take_take, Ekids, <- Hk1; apply take_app_length.
  - constructor; cbn; try done; [congruence | lia | by rewrite <- Hk2].
Qed.

(** ** The chain *)

Lemma link_inj a b : Z.of_nat a < INNER -> link b = Z.of_nat a -> b = Some a.
Proof.
  destruct b as [b|]; cbn [link]; [intros _ ?; f_equal; lia|]; unfold NONE, U32; change INNER with 2147483648; lia.
Qed.

(** A fresh leaf chained in behind one of them. *)
Lemma linked_split t t' before pre post at_ leaf lleaf rleaf : let fresh := length (tb_leaves t) in
  linked_from t before (pre ++ at_ :: post) -> NoDup (pre ++ at_ :: post) -> Z.of_nat fresh < INNER ->
  tb_leaves t !! at_ = Some leaf -> tb_leaves t' !! at_ = Some lleaf -> lf_next lleaf = Z.of_nat fresh -> lf_prev lleaf = lf_prev leaf ->
  tb_leaves t' !! fresh = Some rleaf -> lf_next rleaf = lf_next leaf -> lf_prev rleaf = Z.of_nat at_ ->
  relinked t t' at_ (lf_next leaf) fresh -> linked_from t' before (pre ++ at_ :: fresh :: post).
Proof.
  intros fresh Hl Hd Hroom Ha Hal Enl Epl Hfr Enr Epr Hre; revert before Hl Hd.
  assert (forall b lb, tb_leaves t !! b = Some lb -> b <> at_ -> link (Some b) <> lf_next leaf -> exists lb', tb_leaves t' !! b = Some lb'
    /\ lf_next lb' = lf_next lb /\ lf_prev lb' = lf_prev lb) as Hsame.
  { intros b lb Hb Hne Hnx; destruct (Hre b lb Hb Hne) as (lb' & Hlb' & _ & En' & Ep'); exists lb'; split_and!; [done | done |].
    rewrite Ep'; by destruct (Z.eqb_spec (Z.of_nat b) (lf_next leaf)). }
  assert (forall b lb, tb_leaves t !! b = Some lb -> link (Some b) = lf_next leaf ->
    lf_next leaf = link (post !! 0%nat) -> post !! 0%nat = Some b) as Hfirst.
  { intros b lb Hlb Eb Ep; apply link_inj; [apply lookup_lt_Some in Hlb; fold fresh in Hlb; lia | cbn [link] in Eb; congruence]. }
  induction pre as [|x pre IH]; intros before; cbn [app linked_from]; intros [(lx & Hx & En & Ep) Hl] Hd.
  - rewrite Ha in Hx; injection Hx as <-; split; [exists lleaf; split_and!; [done | done | congruence]|].
    split; [exists rleaf; split_and!; [done | congruence | done]|]; destruct post as [|b post]; [done|]; cbn [linked_from] in *.
    destruct Hl as [(lb & Hlb & Enb & Epb) Hl]; apply NoDup_cons in Hd as [Hna [Hnb _]%NoDup_cons]; rewrite En in *; cbn [lookup list_lookup link] in *.
    split.
    + destruct (Hre b lb Hlb) as (lb' & Hlb' & _ & Enb' & Epb'); [intros ->; apply Hna; by left|].
      exists lb'; rewrite Z.eqb_refl in Epb'; split_and!; [done | congruence | done].
    + eapply linked_frame; [| exact Hl]; intros c lc Hc Hlc; apply Hsame; [done | intros ->; apply Hna; by right |].
      intros Ec; cbn [link] in Ec; assert (c = b) as -> by lia; done.
  - apply NoDup_cons in Hd as [Hnx Hd]; specialize (IH (Some x) Hl Hd); split; [| exact IH].
    assert (lf_next leaf = link (post !! 0%nat)) as Ena.
    { clear -Hl Ha; generalize dependent (Some x); induction pre as [|y pre IHp]; cbn [app linked_from]; intros o [(ly & Hy & Ey & _) Hl]; [congruence | by eapply IHp]. }
    destruct (Hsame x lx Hx) as (lx' & Hlx' & En' & Ep'); [set_solver | |].
    + intros Ex; apply (Hfirst x lx Hx) in Ex; [| done]; apply Hnx, list_elem_of_lookup_2 with (i := (length pre + 1)%nat).
      rewrite lookup_app_r by lia; by replace (length pre + 1 - length pre)%nat with 1%nat by lia.
    + exists lx'; split_and!; [done | | congruence]; rewrite En', En; f_equal; by destruct pre.
Qed.

End split.
