(* ===== verification/TBTreeInsert.v ===== *)
(** * Putting keys in the tree ([index/tbtreemap.rs])

    [insert] splits full nodes on its way down, so that it never has to come back up. A split only
    regroups what the tree holds; the key then lands in the one leaf it belongs to. *)
From S2P Require Import Prelude Error Arrays Bytes TreeKey TBTree TBTreeRep TBTreeFind TBTreeOps TBTreeSplit.

Section insert.
Context {K V : Type} `{TKL : TreeKeyLaws K} `{Inhabited V}.
Variable scan : Scan.
Variable B : nat.
Hypothesis HB : (3 <= B <= 256)%nat.
Implicit Types (t : @TBTreeMap K V _) (g : @gtree K V) (lo hi : option K).
Abbreviation node_ok := (node_ok B).

(** ** Growth *)

(** The arenas regroup one subtree as another: nodes outside it keep their bodies, nodes it gained
    are fresh, and the chain through it stays whole. *)
Record grown t t' g g' : Prop := {
  gw_leaf a leaf : a ∉ g_leaves g -> tb_leaves t !! a = Some leaf -> exists leaf', tb_leaves t' !! a = Some leaf' /\ same_body leaf leaf';
  gw_inner b inner : b ∉ g_inners g -> tb_inners t !! b = Some inner -> tb_inners t' !! b = Some inner;
  gw_leaves a : a ∈ g_leaves g' -> a ∈ g_leaves g \/ (length (tb_leaves t) <= a)%nat;
  gw_inners b : b ∈ g_inners g' -> b ∈ g_inners g \/ (length (tb_inners t) <= b)%nat;
  gw_nodup : NoDup (g_inners g');
  gw_chain pre post : NoDup (pre ++ g_leaves g ++ post) -> linked t (pre ++ g_leaves g ++ post) ->
    NoDup (pre ++ g_leaves g' ++ post) /\ linked t' (pre ++ g_leaves g' ++ post);
  gw_at : g_at g' = g_at g;
  gw_items : g_items g' = g_items g;
  gw_first : g_leaves g' !! 0%nat = g_leaves g !! 0%nat;
  gw_same : tb_root t' = tb_root t /\ tb_first t' = tb_first t /\ tb_len t' = tb_len t;
  gw_grows : (length (tb_leaves t) <= length (tb_leaves t'))%nat /\ (length (tb_inners t) <= length (tb_inners t'))%nat;
}.

Lemma grown_refl t g : NoDup (g_inners g) -> grown t t g g.
Proof.
  intros Hd; constructor; try done; [| by left | by left].
  intros a leaf _ Ha; exists leaf; split; [done | apply same_body_refl].
Qed.

Lemma grown_trans t1 t2 t3 g1 g2 g3 : grown t1 t2 g1 g2 -> grown t2 t3 g2 g3 -> grown t1 t3 g1 g3.
Proof.
  intros H12 H23; pose proof (gw_grows _ _ _ _ H12); pose proof (gw_grows _ _ _ _ H23); constructor.
  - intros a leaf Ha Hl; destruct (gw_leaf _ _ _ _ H12 a leaf Ha Hl) as (leaf2 & Hl2 & Hb2).
    destruct (gw_leaf _ _ _ _ H23 a leaf2) as (leaf3 & Hl3 & Hb3); [| done | exists leaf3; split; [done | by eapply same_body_trans]].
    intros [?|Hge]%(gw_leaves _ _ _ _ H12); [done|]; apply lookup_lt_Some in Hl; lia.
  - intros b inner Hb Hi; apply (gw_inner _ _ _ _ H23); [| by apply (gw_inner _ _ _ _ H12)].
    intros [?|Hge]%(gw_inners _ _ _ _ H12); [done|]; apply lookup_lt_Some in Hi; lia.
  - intros a [Ha|Ha]%(gw_leaves _ _ _ _ H23); [by apply (gw_leaves _ _ _ _ H12) in Ha | right; lia].
  - intros b [Hb|Hb]%(gw_inners _ _ _ _ H23); [by apply (gw_inners _ _ _ _ H12) in Hb | right; lia].
  - apply H23.
  - intros pre post Hd Hl; destruct (gw_chain _ _ _ _ H12 pre post Hd Hl) as [Hd2 Hl2]; by apply (gw_chain _ _ _ _ H23).
  - rewrite (gw_at _ _ _ _ H23); apply H12.
  - rewrite (gw_items _ _ _ _ H23); apply H12.
  - rewrite (gw_first _ _ _ _ H23); apply H12.
  - pose proof (gw_same _ _ _ _ H12) as (? & ? & ?); pose proof (gw_same _ _ _ _ H23) as (? & ? & ?); split_and!; congruence.
  - lia.
Qed.

(** A node's leaves, items and inners around one child. *)
Lemma node_leaves_at p seps k1 g k2 :
  g_leaves (GNode p seps (k1 ++ g :: k2)) = concat (map g_leaves k1) ++ g_leaves g ++ concat (map g_leaves k2).
Proof.
  unfold g_leaves; cbn [g_parts]; rewrite map_app, concat_app, map_app; cbn [map concat]; rewrite map_app.
  assert (forall ks : list (@gtree K V), map fst (concat (map g_parts ks)) = concat (map (fun g => map fst (g_parts g)) ks)) as E.
  { induction ks as [|k ks IH]; cbn [map concat]; [done|]; by rewrite map_app, IH. }
  by rewrite !E.
Qed.

Lemma node_items_at p seps k1 g k2 :
  g_items (GNode p seps (k1 ++ g :: k2)) = concat (map g_items k1) ++ g_items g ++ concat (map g_items k2).
Proof.
  unfold g_items; cbn [g_parts]; rewrite map_app, concat_app, map_app, concat_app; cbn [map concat]; rewrite map_app, concat_app.
  assert (forall ks : list (@gtree K V), concat (map snd (concat (map g_parts ks))) = concat (map (fun g => concat (map snd (g_parts g))) ks)) as E.
  { induction ks as [|k ks IH]; cbn [map concat]; [done|]; by rewrite map_app, concat_app, IH. }
  by rewrite !E.
Qed.

Lemma node_inners_at p seps k1 g k2 :
  g_inners (GNode p seps (k1 ++ g :: k2)) = p :: concat (map g_inners k1) ++ g_inners g ++ concat (map g_inners k2).
Proof. cbn [g_inners]; rewrite map_app, concat_app; done. Qed.

Lemma NoDup_mid {A} (l1 l2 l3 l2' : list A) (n : A -> Prop) : NoDup (l1 ++ l2 ++ l3) -> NoDup l2' ->
  (forall x, x ∈ l2' -> x ∈ l2 \/ n x) -> (forall x, x ∈ l1 ++ l3 -> ~ n x) -> NoDup (l1 ++ l2' ++ l3).
Proof.
  intros Hd Hd' Hsub Hn; rewrite !NoDup_app in *; destruct Hd as (? & Hx & ? & Hy & ?); split_and!; try done.
  - intros x Hx1 Hx2; apply (Hx x Hx1); apply elem_of_app; apply elem_of_app in Hx2 as [[?|Hnx]%Hsub|?]; [by left | | by right].
    exfalso; apply (Hn x); [set_solver | done].
  - intros x [Hx2|Hnx]%Hsub; [by apply Hy|]; intros Hx3; apply (Hn x); [set_solver | done].
Qed.

Lemma grown_up t t' h lo hi p seps k1 g g' k2 : node_ok t (S h) lo hi (GNode p seps (k1 ++ g :: k2)) ->
  NoDup (g_inners (GNode p seps (k1 ++ g :: k2))) -> grown t t' g g' ->
  grown t t' (GNode p seps (k1 ++ g :: k2)) (GNode p seps (k1 ++ g' :: k2)).
Proof.
  intros Hok Hd Hg; pose proof (node_nodes _ _ _ _ _ _ Hok) as [_ Hbound]; rewrite Forall_forall in Hbound.
  rewrite node_inners_at in Hd, Hbound; constructor; rewrite ?node_leaves_at, ?node_items_at, ?node_inners_at.
  - intros a leaf Ha; apply (gw_leaf _ _ _ _ Hg); set_solver.
  - intros b inner Hb; apply (gw_inner _ _ _ _ Hg); set_solver.
  - intros a; rewrite !elem_of_app; intros [?|[?|?]]; [auto | | auto]; destruct (gw_leaves _ _ _ _ Hg a); auto.
  - intros b; rewrite !elem_of_cons, !elem_of_app; intros [?|[?|[?|?]]]; [auto | auto | | auto]; destruct (gw_inners _ _ _ _ Hg b); auto.
  - apply (NoDup_mid (p :: concat (map g_inners k1)) (g_inners g) _ _ (fun x => (length (tb_inners t) <= x)%nat));
      [done | apply Hg | apply Hg |]; intros x Hx Hge; assert (x < length (tb_inners t))%nat; [apply Hbound | lia]; set_solver.
  - intros pre post; rewrite <- !app_assoc, !(app_assoc pre); apply (gw_chain _ _ _ _ Hg).
  - done.
  - by rewrite (gw_items _ _ _ _ Hg).
  - destruct (concat (map g_leaves k1)) as [|x l]; [| done]; cbn [app].
    pose proof (gw_first _ _ _ _ Hg) as Ef; destruct (g_leaves g), (g_leaves g'); cbn in *; congruence || done.
  - apply Hg.
  - apply Hg.
Qed.

Lemma NoDup_app_3 {A} (a b c : list A) x : NoDup (a ++ b ++ c) -> x ∈ a \/ x ∈ c -> x ∉ b.
Proof. rewrite !NoDup_app; intros (_ & Hab & _ & Hbc & _) [?|?] Hb; [apply (Hab x); set_solver | by apply (Hbc x)]. Qed.

Lemma elem_concat_map {A C} (f : A -> list C) x y l : x ∈ l -> y ∈ f x -> y ∈ concat (map f l).
Proof. intros Hx Hy; apply elem_of_concat; exists (f x); split; [done | by apply list_elem_of_fmap_2]. Qed.

(** Nodes beside a child are outside of it. *)
Lemma sibling_agrees t t' g g' k1 k2 g1 : NoDup (concat (map g_leaves k1) ++ g_leaves g ++ concat (map g_leaves k2)) ->
  NoDup (concat (map g_inners k1) ++ g_inners g ++ concat (map g_inners k2)) -> grown t t' g g' -> g1 ∈ k1 \/ g1 ∈ k2 ->
  agrees t t' (g_leaves g1) (g_inners g1).
Proof.
  intros Hdl Hdi Hg Hg1; split.
  - intros a leaf Ha Hl; apply (gw_leaf _ _ _ _ Hg); [| done]; eapply NoDup_app_3; [exact Hdl|].
    destruct Hg1; [left | right]; by eapply elem_concat_map.
  - intros b inner Hb Hi; apply (gw_inner _ _ _ _ Hg); [| done]; eapply NoDup_app_3; [exact Hdi|].
    destruct Hg1; [left | right]; by eapply elem_concat_map.
Qed.

Lemma grown_node t t' h lo hi p s1 s2 k1 g g' k2 : node_ok t (S h) lo hi (GNode p (s1 ++ s2) (k1 ++ g :: k2)) ->
  length s1 = length k1 -> NoDup (g_leaves (GNode p (s1 ++ s2) (k1 ++ g :: k2))) ->
  NoDup (g_inners (GNode p (s1 ++ s2) (k1 ++ g :: k2))) -> grown t t' g g' -> node_ok t' h (lo_of lo s1) (hi_of hi s2) g' ->
  node_ok t' (S h) lo hi (GNode p (s1 ++ s2) (k1 ++ g' :: k2)).
Proof.
  rewrite node_leaves_at, node_inners_at; intros Hok Hl Hdl Hdi Hg Hok'; apply NoDup_cons in Hdi as [Hp Hdi].
  eapply node_ok_replace; [exact Hok | done | done | apply Hg | |].
  - intros g1; by eapply sibling_agrees.
  - intros inner; apply (gw_inner _ _ _ _ Hg); set_solver.
Qed.

(** ** Splits *)

Definition g_full g : Prop := match g with GLeaf _ its => length its = B | GNode _ seps _ => length seps = (B - 1)%nat end.

(** The halves of a child hung in its parent. *)
Lemma hung_ok t t1 h lo hi p s1 s2 k1 g k2 sep gl gr lift_lead :
  node_ok t (S h) lo hi (GNode p (s1 ++ s2) (k1 ++ g :: k2)) -> length s1 = length k1 -> (S (length (s1 ++ s2)) < B)%nat ->
  p ∉ concat (map g_inners k1) ++ (g_inners gl ++ g_inners gr) ++ concat (map g_inners k2) ->
  g_at gl = g_at g -> key_wf sep -> (whole = false -> lift_lead = head sep) ->
  node_ok t1 h (lo_of lo s1) (Some sep) gl -> node_ok t1 h (Some sep) (hi_of hi s2) gr ->
  (forall g1, g1 ∈ k1 \/ g1 ∈ k2 -> agrees t t1 (g_leaves g1) (g_inners g1)) -> tb_inners t1 !! p = tb_inners t !! p ->
  exists inner inner', tb_inners t1 !! p = Some inner /\ hang inner (length k1) lift_lead (lifted_spill sep) (g_at gr) = Ok inner'
    /\ node_ok (set_inner t1 p inner') (S h) lo hi (GNode p (s1 ++ sep :: s2) (k1 ++ gl :: gr :: k2)).
Proof.
  intros (Hp & (inner & Hi & Hr) & Hk) Hl Hfit Hpn Eat Hwf Hlift Hgl Hgr Hside Einner.
  rewrite map_app in Hr; cbn [map] in Hr; rewrite <- Eat in Hr.
  destruct (hang_ok B HB inner s1 s2 (map g_at k1) (g_at gl) (map g_at k2) sep lift_lead (g_at gr) Hr) as (inner' & Eh & Hr');
    [by rewrite length_map | done | done | done |]; rewrite length_map in Eh.
  exists inner, inner'; split; [congruence|]; split; [done|].
  assert (p < length (tb_inners t1))%nat as Hpl by (eapply lookup_lt_Some; rewrite Einner; exact Hi).
  assert (forall g1, p ∉ g_inners g1 -> agrees t1 (set_inner t1 p inner') (g_leaves g1) (g_inners g1)) as Hset.
  { intros g1 Hg1; split; [intros a leaf _ Ha; exists leaf; split; [done | apply same_body_refl]|].
    intros b i Hb Hbi; cbn [tb_inners set_inner]; rewrite list_lookup_insert_ne; [done | intros <-; done]. }
  apply kids_ok_at in Hk as (Hleft & _ & Hright); [| done]; cbn [TBTreeRep.node_ok]; split_and!; [done | |].
  { exists inner'; split; [by apply list_lookup_insert_eq | by rewrite map_app]. }
  assert (forall g1 lo hi, g1 ∈ k1 \/ g1 ∈ k2 -> node_ok t h lo hi g1 -> node_ok (set_inner t1 p inner') h lo hi g1) as Hframe.
  { intros g1 lo' hi' Hg1 Hok; eapply node_ok_frame; [eapply node_ok_frame; [exact Hok | by apply Hside]|]; apply Hset.
    intros Hin; apply Hpn; rewrite !elem_of_app; destruct Hg1; [left | right; right]; by eapply elem_concat_map. }
  apply kids_ok_at; [done|]; split_and!.
  - eapply left_ok_impl; [| exact Hleft]; intros; apply Hframe; [by left | done].
  - eapply node_ok_frame; [exact Hgl|]; apply Hset; set_solver.
  - cbn [right_ok]; apply (kids_ok_at _ (Some sep) hi [] s2 [] gr k2); [done|]; split_and!; [done | |].
    + eapply node_ok_frame; [exact Hgr|]; apply Hset; set_solver.
    + destruct s2 as [|s s2]; [done|]; cbn [right_ok] in *; eapply kids_ok_impl; [| exact Hright]; intros; apply Hframe; [by right | done].
Qed.

Lemma linked_at t before pre (a : nat) post : linked_from t before (pre ++ a :: post) ->
  exists leaf, tb_leaves t !! a = Some leaf /\ lf_next leaf = link (post !! 0%nat)
    /\ (forall b, post !! 0%nat = Some b -> exists lb, tb_leaves t !! b = Some lb).
Proof.
  revert before; induction pre as [|x pre IH]; intros before; cbn [app linked_from]; [| intros [_ Hl]; by eapply IH].
  intros [(leaf & Ha & En & _) Hl]; exists leaf; split_and!; [done | done |]; intros b Hb; destruct post as [|b' post]; [done|].
  injection Hb as ->; cbn [linked_from] in Hl; destruct Hl as [(lb & ? & _) _]; eauto.
Qed.

Lemma within_halves lo hi sep (ks1 ks2 : list K) : Forall (within lo hi) (ks1 ++ ks2) ->
  Forall (fun k => key_lt k sep) ks1 -> Forall (key_le sep) ks2 -> ks1 <> [] -> ks2 <> [] ->
  bound_lt lo (Some sep) /\ bound_lt (Some sep) hi /\ Forall (within lo (Some sep)) ks1 /\ Forall (within (Some sep) hi) ks2.
Proof.
  intros Hin H1 H2 N1 N2; apply Forall_app in Hin as [Hin1 Hin2]; split_and!.
  - destruct ks1 as [|k ks1]; [done|]; apply Forall_cons in H1 as [? _]; apply Forall_cons in Hin1 as [[? _] _].
    destruct lo; [| done]; by eapply key_le_lt_trans.
  - destruct ks2 as [|k ks2]; [done|]; apply Forall_cons in H2 as [? _]; apply Forall_cons in Hin2 as [[_ ?] _].
    destruct hi; [| done]; by eapply key_le_lt_trans.
  - rewrite Forall_forall in *; intros k Hk; split; [by apply Hin1 | by apply H1].
  - rewrite Forall_forall in *; intros k Hk; split; [by apply H2 | by apply Hin2].
Qed.

Lemma split_halves {A} (l : list A) n : (0 < n < length l)%nat -> take n l <> [] /\ drop n l <> [].
Proof. intros Hn; split; intros E; apply (f_equal length) in E; rewrite ?length_take, ?length_drop in E; cbn in E; lia. Qed.

Lemma linked_bound t before order : linked_from t before order -> Forall (fun a => (a < length (tb_leaves t))%nat) order.
Proof.
  revert before; induction order as [|a order IH]; intros before; cbn [linked_from]; [constructor|].
  intros [(leaf & Ha & _) Hl]; constructor; [by eapply lookup_lt_Some | by eapply IH].
Qed.

Lemma g_leaves_leaf a (its : list (K * V)) : g_leaves (GLeaf a its) = [a].
Proof. done. Qed.

Lemma g_items_leaf a (its : list (K * V)) : g_items (GLeaf a its) = its.
Proof. apply app_nil_r. Qed.

(** A leaf regrouped as itself and a fresh one behind it. *)
Lemma grown_leaf t t1 p inner' s1 s2 sep k1 a l r k2 leaf lleaf rleaf : let fresh := length (tb_leaves t) in
  NoDup (g_inners (GNode p (s1 ++ s2) (k1 ++ GLeaf a (l ++ r) :: k2))) -> Z.of_nat fresh < INNER ->
  tb_leaves t !! a = Some leaf -> tb_leaves t1 !! a = Some lleaf -> lf_next lleaf = Z.of_nat fresh -> lf_prev lleaf = lf_prev leaf ->
  tb_leaves t1 !! fresh = Some rleaf -> lf_next rleaf = lf_next leaf -> lf_prev rleaf = Z.of_nat a ->
  relinked t t1 a (lf_next leaf) fresh -> length (tb_leaves t1) = S fresh -> tb_inners t1 = tb_inners t ->
  tb_root t1 = tb_root t /\ tb_first t1 = tb_first t /\ tb_len t1 = tb_len t ->
  grown t (set_inner t1 p inner') (GNode p (s1 ++ s2) (k1 ++ GLeaf a (l ++ r) :: k2))
    (GNode p (s1 ++ sep :: s2) (k1 ++ GLeaf a l :: GLeaf fresh r :: k2)).
Proof.
  intros fresh Hdi Hroom Hleaf Hal Enl Epl Har Enr Epr Hre Hlen Ein Hsame.
  constructor; rewrite ?node_leaves_at, ?node_items_at, ?node_inners_at; cbn [map concat]; rewrite ?g_leaves_leaf, ?g_items_leaf;
    cbn [tb_leaves tb_inners set_inner tb_root tb_first tb_len].
  - intros b lb Hb Hlb; destruct (Hre b lb Hlb) as (lb' & ? & ? & _); [set_solver | eauto].
  - intros b ib Hb; rewrite Ein, list_lookup_insert_ne by set_solver; done.
  - intros b; rewrite !elem_of_app, !list_elem_of_singleton; fold fresh; naive_solver.
  - auto.
  - rewrite node_inners_at in Hdi; exact Hdi.
  - intros pre post; rewrite <- !app_assoc; cbn [app]; rewrite !(app_assoc pre); set (L1 := pre ++ _); set (L2 := _ ++ post).
    intros Hd Hl; split.
    + pose proof (linked_bound _ _ _ Hl) as Hb; rewrite Forall_forall in Hb.
      apply (NoDup_mid L1 [a] L2 [a; fresh] (fun x => (fresh <= x)%nat)); [done | | |].
      * apply NoDup_cons; split; [| apply NoDup_singleton]; intros ->%list_elem_of_singleton; apply lookup_lt_Some in Hleaf; subst fresh; lia.
      * intros x; rewrite elem_of_cons, !list_elem_of_singleton; intros [->| ->]; [by left | by right].
      * intros x Hx Hge; assert (x < fresh)%nat; [apply Hb; set_solver | lia].
    + assert (linked t1 (L1 ++ a :: fresh :: L2)) as Hl1 by (by eapply linked_split).
      eapply linked_frame; [| exact Hl1]; intros c lc _ Hc; by exists lc.
  - done.
  - by rewrite <- !app_assoc.
  - by destruct (concat (map g_leaves k1)).
  - done.
  - rewrite length_insert, Ein; lia.
Qed.

(** A full leaf under a node with room. *)
Lemma split_leaf_child t lo hi p s1 s2 k1 a its k2 appending pre post :
  let G := GNode p (s1 ++ s2) (k1 ++ GLeaf a its :: k2) in
  node_ok t 1 lo hi G -> length s1 = length k1 -> (S (length (s1 ++ s2)) < B)%nat -> length its = B ->
  NoDup (pre ++ g_leaves G ++ post) -> NoDup (g_inners G) -> linked t (pre ++ g_leaves G ++ post) ->
  Z.of_nat (length (tb_leaves t)) < INNER ->
  exists t' sep l r, let G' := GNode p (s1 ++ sep :: s2) (k1 ++ GLeaf a l :: GLeaf (length (tb_leaves t)) r :: k2) in
    split_child B t p (length k1) appending = Ok t' /\ node_ok t' 1 lo hi G' /\ grown t t' G G'
    /\ (length l < B)%nat /\ (length r < B)%nat
    /\ length (tb_leaves t') = S (length (tb_leaves t)) /\ length (tb_inners t') = length (tb_inners t).
Proof.
  intros G Hok Hl Hfit Hfull Hdl Hdi Hlink Hroom; pose proof Hok as (Hp & (inner & Hi & Hr) & Hk).
  apply kids_ok_at in Hk as (_ & (Hlt & Hin & Hsort & Ha & leaf & Hleaf & Hrep) & _); [| done].
  set (half := if appending then (B - 1)%nat else (B / 2)%nat).
  assert (0 < half < B)%nat as Hhalf by (subst half; destruct appending; [lia|]; pose proof (Nat.div_str_pos B 2); pose proof (Nat.div_lt B 2); lia).
  destruct (split_halves its half) as [Nl Nr]; [lia|]; pose proof (take_drop half its) as Eits.
  assert (length (take half its) = half) as Hll by (rewrite length_take; lia).
  set (l := take half its) in *; set (r := drop half its) in *; clearbody l r; subst its.
  set (L1 := pre ++ concat (map g_leaves k1)); set (L2 := concat (map g_leaves k2) ++ post).
  assert (pre ++ g_leaves G ++ post = L1 ++ a :: L2) as Eorder by (subst G L1 L2; rewrite node_leaves_at, g_leaves_leaf; by rewrite <- !app_assoc).
  rewrite Eorder in Hdl, Hlink; destruct (linked_at t None L1 a L2 Hlink) as (leaf' & Hleaf' & En & Hnext); rewrite Hleaf in Hleaf'; injection Hleaf' as <-.
  destruct (split_leaf_ok B HB t a leaf l r appending Hleaf Hrep Hsort Hfull Nr Nl Hll Hroom) as
    (t1 & sep & lleaf & rleaf & E & Hwf & Hlo & Hhi & Hal & Hlrep & Enl & Epl & Har & Hrrep & Enr & Epr & Hre & Hlen & Ein & Hsame).
  { intros Hne; rewrite En in *; destruct (L2 !! 0%nat) as [b|] eqn:E2; [| done]; destruct (Hnext b eq_refl) as [lb Hlb].
    exists b, lb; split_and!; [done | intros -> | done]; apply NoDup_app in Hdl as (_ & _ & [Hn _]%NoDup_cons); apply Hn; by eapply list_elem_of_lookup_2. }
  rewrite map_app in Hin, Hsort; destruct (within_halves _ _ sep _ _ Hin Hlo Hhi) as (B1 & B2 & W1 & W2); [by destruct l | by destruct r |].
  apply StronglySorted_app in Hsort as (_ & Hs1 & Hs2); pose proof Hdi as Hdi'; subst G; rewrite node_inners_at in Hdi'; apply NoDup_cons in Hdi' as [Hpn _].
  destruct (hung_ok t t1 0 lo hi p s1 s2 k1 (GLeaf a (l ++ r)) k2 sep (GLeaf a l) (GLeaf (length (tb_leaves t)) r) (head sep) Hok Hl Hfit)
    as (inner1 & inner' & Hi1 & Eh & Hok'); try done.
  { cbn [TBTreeRep.node_ok]; split_and!; try done; by exists lleaf. }
  { cbn [TBTreeRep.node_ok]; split_and!; try done; by exists rleaf. }
  { intros g1 Hg1; split; [| by intros; rewrite Ein]; intros b lb Hb Hlb; destruct (Hre b lb Hlb) as (lb' & ? & ? & _); [| eauto]; intros ->.
    apply (NoDup_app_3 L1 [a] L2 a Hdl); [| by left]; subst L1 L2; rewrite !elem_of_app; destruct Hg1; [left; right | right; left]; by eapply elem_concat_map. }
  { by rewrite Ein. }
  exists (set_inner t1 p inner'), sep, l, r; split_and!; [| exact Hok' | | lia | rewrite length_app in Hfull; lia | done | by cbn; rewrite length_insert, Ein].
  - unfold split_child, idx; rewrite Hi; res_simpl; rewrite (kid_lookup B inner _ _ k1 (GLeaf a (l ++ r)) k2 Hr eq_refl); res_simpl.
    cbn [g_at]; rewrite is_inner_leaf, slot_of_leaf, E by done; res_simpl; rewrite Hi1; res_simpl; cbn [g_at] in Eh; by rewrite Eh.
  - by eapply grown_leaf.
Qed.

(** Children parted at a separator. *)
Lemma kids_ok_cut (P : option K -> option K -> @gtree K V -> Prop) lo hi s1 sep s2 k1 k2 : length k1 = S (length s1) ->
  kids_ok P lo hi (s1 ++ sep :: s2) (k1 ++ k2) <-> kids_ok P lo (Some sep) s1 k1 /\ kids_ok P (Some sep) hi s2 k2.
Proof.
  revert lo k1; induction s1 as [|s s1 IH]; intros lo [|g k1] Hl; try done; injection Hl as Hl.
  - apply nil_length_inv in Hl as ->; done.
  - cbn [app kids_ok]; rewrite IH by done; naive_solver.
Qed.

(** An inner node regrouped as itself and a fresh one behind it. *)
Lemma grown_inner t p inner' lower upper s1 s2 sep k1 a c1 c2 q1 q2 k2 : let fresh := length (tb_inners t) in
  let G := GNode p (s1 ++ s2) (k1 ++ GNode a (c1 ++ sep :: c2) (q1 ++ q2) :: k2) in
  NoDup (g_inners G) -> Forall (fun b => (b < fresh)%nat) (g_inners G) ->
  grown t (set_inner (push_inner (set_inner t a lower) upper) p inner') G
    (GNode p (s1 ++ sep :: s2) (k1 ++ GNode a c1 q1 :: GNode fresh c2 q2 :: k2)).
Proof.
  intros fresh G Hd Hb; subst G; assert (fresh ∉ g_inners (GNode p (s1 ++ s2) (k1 ++ GNode a (c1 ++ sep :: c2) (q1 ++ q2) :: k2))) as Hf.
  { intros Hin; rewrite Forall_forall in Hb; specialize (Hb _ Hin); cbv beta in Hb; lia. }
  constructor; rewrite ?node_leaves_at, ?node_items_at, ?node_inners_at; cbn [map concat]; rewrite ?node_leaves_app, ?node_items_app, ?map_app, ?concat_app, <- ?app_assoc;
    cbn [tb_leaves tb_inners set_inner push_inner tb_root tb_first tb_len]; try done.
  - intros b lb _ Hlb; exists lb; split; [done | apply same_body_refl].
  - intros b ib Hnb Hib; cbn [g_inners] in Hnb; rewrite list_lookup_insert_ne by set_solver.
    apply lookup_app_l_Some; rewrite list_lookup_insert_ne by set_solver; done.
  - intros b Hin; by left.
  - cbn [g_inners]; rewrite map_app, concat_app; intros b; rewrite !elem_of_cons, !elem_of_app, !elem_of_cons, !elem_of_app; fold fresh.
    intros Hin; destruct (decide (b = fresh)) as [->|]; [right; lia | left]; naive_solver.
  - rewrite node_inners_at in Hd, Hf; cbn [g_inners] in *; rewrite map_app, concat_app in Hd, Hf; fold fresh.
    eapply (NoDup_Permutation_proper _ (fresh :: _)); [| apply NoDup_cons; split; [exact Hf | exact Hd]].
    solve_Permutation.
  - intros pre post; rewrite <- !app_assoc; intros ? Hl; split; [done|]; eapply linked_frame; [| exact Hl]; intros x lx _ Hx; by exists lx.
  - rewrite length_insert, length_app, length_insert; lia.
Qed.

(** A full node's separators and children around its middle. *)
Lemma cut_middle (c : list K) (qs : list (@gtree K V)) : (0 < length c)%nat -> length qs = S (length c) ->
  exists c1 sep c2 q1 q2, c = c1 ++ sep :: c2 /\ qs = q1 ++ q2 /\ length c1 = (length c / 2)%nat /\ length q1 = S (length c1).
Proof.
  intros Hc Hq; set (half := (length c / 2)%nat); assert (half < length c)%nat as Hhalf by (subst half; apply Nat.div_lt; lia).
  destruct (lookup_lt_is_Some_2 c half Hhalf) as [sep Hsep].
  exists (take half c), sep, (drop (S half) c), (take (S half) qs), (drop (S half) qs).
  rewrite (take_drop_middle c half sep Hsep), take_drop, !length_take; split_and!; lia || done.
Qed.

(** A child's own index is nowhere else in its parent. *)
Lemma child_apart p seps k1 a c q1 q2 k2 : NoDup (g_inners (GNode p seps (k1 ++ GNode a c (q1 ++ q2) :: k2))) ->
  a <> p /\ (p ∉ concat (map g_inners k1) ++ (concat (map (@g_inners K V) q1) ++ concat (map g_inners q2)) ++ concat (map g_inners k2))
  /\ forall g, g ∈ k1 \/ g ∈ k2 \/ g ∈ q1 \/ g ∈ q2 -> a ∉ g_inners g.
Proof.
  rewrite node_inners_at; cbn [g_inners]; rewrite map_app, concat_app; intros [Hp Hd]%NoDup_cons; split_and!; [set_solver | set_solver |].
  intros g Hg Ha; cbn [app] in Hd; apply NoDup_app in Hd as (_ & Hx & [Hy _]%NoDup_cons).
  assert (forall ks, g ∈ ks -> a ∈ concat (map g_inners ks)) as He by (intros; by eapply elem_concat_map).
  destruct Hg as [Hg|[Hg|[Hg|Hg]]]; apply He in Hg; [by apply (Hx a Hg); left | ..]; apply Hy; rewrite !elem_of_app; auto.
Qed.

(** A full inner node under a node with room. *)
Lemma split_inner_child t h lo hi p s1 s2 k1 a c qs k2 appending :
  let G := GNode p (s1 ++ s2) (k1 ++ GNode a c qs :: k2) in
  node_ok t (S (S h)) lo hi G -> length s1 = length k1 -> (S (length (s1 ++ s2)) < B)%nat -> length c = (B - 1)%nat ->
  NoDup (g_inners G) -> Z.of_nat (length (tb_inners t)) < INNER - 1 ->
  exists t' sep c1 c2 q1 q2,
    let G' := GNode p (s1 ++ sep :: s2) (k1 ++ GNode a c1 q1 :: GNode (length (tb_inners t)) c2 q2 :: k2) in
    split_child B t p (length k1) appending = Ok t' /\ node_ok t' (S (S h)) lo hi G' /\ grown t t' G G'
    /\ (length c1 < B - 1)%nat /\ (length c2 < B - 1)%nat
    /\ length (tb_leaves t') = length (tb_leaves t) /\ length (tb_inners t') = S (length (tb_inners t)).
Proof.
  intros G Hok Hl Hfit Hfull Hd Hroom; pose proof Hok as (Hp & (inner & Hi & Hr) & Hk); set (fresh := length (tb_inners t)) in *.
  apply kids_ok_at in Hk as (_ & (Ha & (child & Hchild & Hrep) & Hqs) & _); [| done]; pose proof (node_nodes _ _ _ _ _ _ Hok) as [_ Hb].
  destruct (cut_middle c qs) as (c1 & sep & c2 & q1 & q2 & -> & -> & Hc1 & Hq1); [lia | by apply kids_ok_length in Hqs |].
  rewrite map_app in Hrep; destruct (halve_inner_ok B HB child c1 sep c2 (map g_at q1) (map g_at q2) Hrep Hc1)
    as (lower & upper & lift & Eh & Hlift & Hrl & Hru); [by rewrite length_map|]; apply kids_ok_cut in Hqs as [Hk1 Hk2]; [| done].
  set (t1 := push_inner (set_inner t a lower) upper); destruct (child_apart _ _ _ _ _ _ _ _ Hd) as (Hap & Hpn & Hout).
  assert (forall b ib, b <> a -> tb_inners t !! b = Some ib -> tb_inners t1 !! b = Some ib) as Hkeep.
  { intros b ib Hne Hib; cbn; apply lookup_app_l_Some; by rewrite list_lookup_insert_ne. }
  assert (forall g1, a ∉ g_inners g1 -> agrees t t1 (g_leaves g1) (g_inners g1)) as Hag.
  { intros g1 Hg1; split; [intros b lb _ Hlb; exists lb; split; [done | apply same_body_refl]|]; intros b ib Hbg Hib; apply Hkeep; [by intros -> | done]. }
  assert (p < fresh)%nat as Hpf by (by eapply lookup_lt_Some).
  destruct (hung_ok t t1 (S h) lo hi p s1 s2 k1 (GNode a (c1 ++ sep :: c2) (q1 ++ q2)) k2 sep (GNode a c1 q1) (GNode fresh c2 q2) lift Hok Hl Hfit)
    as (inner1 & inner' & Hi1 & Ehang & Hok'); try done.
  { cbn [g_inners]; rewrite !elem_of_app, !elem_of_cons in *; intros Hin; assert (p <> fresh) by lia; naive_solver. }
  { pose proof (ir_search _ _ _ _ Hrep) as [_ Hwf _ _]; by apply Forall_app in Hwf as [_ [? _]%Forall_cons]. }
  { cbn [TBTreeRep.node_ok]; split_and!; [done | exists lower; split; [| done] |].
    - cbn; apply lookup_app_l_Some, list_lookup_insert_eq; by eapply lookup_lt_Some.
    - eapply kids_ok_impl; [| exact Hk1]; intros; eapply node_ok_frame; [eassumption|]; apply Hag, Hout; auto. }
  { cbn [TBTreeRep.node_ok]; split_and!; [done | exists upper; split; [| done] |].
    - cbn; rewrite lookup_app_r; rewrite length_insert; [by rewrite Nat.sub_diag | done].
    - eapply kids_ok_impl; [| exact Hk2]; intros; eapply node_ok_frame; [eassumption|]; apply Hag, Hout; auto. }
  { intros g1 Hg1; apply Hag, Hout; naive_solver. }
  { rewrite Hi; by apply Hkeep. }
  exists (set_inner t1 p inner'), sep, c1, c2, q1, q2; rewrite length_app in *; cbn [length] in *; split_and!; [| exact Hok' | | lia | lia | done |].
  - unfold split_child, idx; rewrite Hi; res_simpl; rewrite (kid_lookup B inner _ _ k1 (GNode a (c1 ++ sep :: c2) (q1 ++ q2)) k2 Hr eq_refl); res_simpl.
    cbn [g_at]; rewrite is_inner_node, slot_of_node by lia; unfold split_inner, idx; rewrite Hchild; res_simpl; rewrite Eh; res_simpl.
    fold t1; assert (length (tb_inners t1) = S fresh) as -> by (cbn; rewrite length_app, length_insert; cbn; lia).
    rewrite arena_index_last by (fold fresh in Hroom; lia); rewrite Hi1; res_simpl; cbn [g_at] in Ehang; by rewrite Ehang.
  - by apply grown_inner.
  - cbn; rewrite length_insert, length_app, length_insert; cbn; lia.
Qed.

Lemma full_ok t h lo hi g : node_ok t h lo hi g -> exists b : bool, TBTreeMap_full B t (g_at g) = Ok b /\ (b = true <-> g_full g).
Proof.
  intros Hok; unfold TBTreeMap_full; destruct h, g as [a its|a seps kids]; try done; cbn [g_at g_full TBTreeRep.node_ok] in *.
  - destruct Hok as (_ & _ & _ & Ha & leaf & Hl & Hr); rewrite is_inner_leaf, slot_of_leaf by done; unfold idx; rewrite Hl; res_simpl.
    rewrite (lr_len _ _ _ Hr); eexists; split; [done|]; apply Nat.eqb_eq.
  - destruct Hok as (Ha & (inner & Hi & Hr) & _); rewrite is_inner_node, slot_of_node by lia; unfold idx; rewrite Hi; res_simpl.
    rewrite (ir_len _ _ _ _ Hr); eexists; split; [done|]; apply Nat.eqb_eq.
Qed.

Lemma appending_ok t h lo hi g key : node_ok t h lo hi g -> exists b, is_appending t (g_at g) key = Ok b.
Proof.
  intros Hok; unfold is_appending; destruct h, g as [a its|a seps kids]; try done; cbn [g_at TBTreeRep.node_ok] in *.
  - destruct Hok as (_ & _ & _ & Ha & leaf & Hl & Hr); rewrite is_inner_leaf, slot_of_leaf by done; unfold idx; rewrite Hl; res_simpl.
    destruct (negb _) eqn:E; [eauto|]; apply negb_false_iff, andb_true_iff in E as [_ Hn%Nat.ltb_lt].
    unfold idx_before, idx; destruct (lf_len leaf) as [|n] eqn:En; [lia|].
    destruct (lookup_lt_is_Some_2 (lf_keys leaf) n) as [k ->]; [| res_simpl; eauto].
    rewrite (lr_keys _ _ _ Hr); pose proof (lr_fits _ _ _ Hr); rewrite <- (lr_len _ _ _ Hr), En in *; lia.
  - destruct Hok as (Ha & _); rewrite is_inner_node by lia; eauto.
Qed.

(** A full child under a node with room, whatever it is. *)
Lemma split_child_ok t h lo hi p s1 s2 k1 g k2 appending pre post : let G := GNode p (s1 ++ s2) (k1 ++ g :: k2) in
  node_ok t (S h) lo hi G -> length s1 = length k1 -> (S (length (s1 ++ s2)) < B)%nat -> g_full g ->
  NoDup (pre ++ g_leaves G ++ post) -> NoDup (g_inners G) -> linked t (pre ++ g_leaves G ++ post) ->
  Z.of_nat (length (tb_leaves t)) < INNER -> Z.of_nat (length (tb_inners t)) < INNER - 1 ->
  exists t' sep gl gr, let G' := GNode p (s1 ++ sep :: s2) (k1 ++ gl :: gr :: k2) in
    split_child B t p (length k1) appending = Ok t' /\ node_ok t' (S h) lo hi G' /\ grown t t' G G' /\ ~ g_full gl /\ ~ g_full gr
    /\ (length (tb_leaves t') <= S (length (tb_leaves t)))%nat /\ (length (tb_inners t') <= S (length (tb_inners t)))%nat.
Proof.
  intros G Hok Hl Hfit Hfull Hdl Hdi Hlink Hrl Hri; pose proof Hok as (_ & _ & Hk); apply kids_ok_at in Hk as (_ & Hg & _); [| done].
  destruct h as [|h], g as [a its|a c qs]; try done; cbn [g_full] in Hfull.
  - destruct (split_leaf_child t lo hi p s1 s2 k1 a its k2 appending pre post Hok Hl Hfit Hfull Hdl Hdi Hlink Hrl)
      as (t' & sep & l & r & E & Hok' & Hgr & ? & ? & ? & ?).
    exists t', sep, (GLeaf a l), (GLeaf (length (tb_leaves t)) r); cbn [g_full]; split_and!; done || lia.
  - destruct (split_inner_child t h lo hi p s1 s2 k1 a c qs k2 appending Hok Hl Hfit Hfull Hdi Hri)
      as (t' & sep & c1 & c2 & q1 & q2 & E & Hok' & Hgr & ? & ? & ? & ?).
    exists t', sep, (GNode a c1 q1), (GNode (length (tb_inners t)) c2 q2); cbn [g_full]; split_and!; done || lia.
Qed.

(** ** The descent of an insert *)

(** A run that ends at the leaf a key belongs to, with room in it, the tree regrouped on the way. *)
Definition lands (run : res (@TBTreeMap K V _ * Z)) t h lo hi g key (more : nat) : Prop :=
  exists t' g' a its llo lhi pre post, run = Ok (t', Z.of_nat a) /\ node_ok t' h lo hi g' /\ grown t t' g g'
    /\ focused B t' h lo hi g' key a its llo lhi pre post /\ (length its < B)%nat
    /\ (length (tb_leaves t') <= length (tb_leaves t) + more)%nat /\ (length (tb_inners t') <= length (tb_inners t) + more)%nat.

Lemma lands_up run t h lo hi p s1 s2 k1 g k2 key more : let G := GNode p (s1 ++ s2) (k1 ++ g :: k2) in
  node_ok t (S h) lo hi G -> length s1 = length k1 -> NoDup (g_leaves G) -> NoDup (g_inners G) ->
  Forall (fun s => key_le s key) s1 -> Forall (key_lt key) s2 ->
  lands run t h (lo_of lo s1) (hi_of hi s2) g key more -> lands run t (S h) lo hi G key more.
Proof.
  intros G Hok Hl Hdl Hdi Hf1 Hf2 (t' & g' & a & its & llo & lhi & pre & post & E & Hok' & Hg & Hfc & Hlen & Hmore).
  assert (node_ok t' (S h) lo hi (GNode p (s1 ++ s2) (k1 ++ g' :: k2))) as Hup by (by eapply grown_node).
  exists t', (GNode p (s1 ++ s2) (k1 ++ g' :: k2)), a, its, llo, lhi, (concat (map g_parts k1) ++ pre), (post ++ concat (map g_parts k2)).
  split_and!; [done | done | by eapply grown_up | by apply focused_up | done | lia | lia].
Qed.

Lemma lands_trans run t t1 h lo hi g g1 key n m : grown t t1 g g1 -> lands run t1 h lo hi g1 key m ->
  (length (tb_leaves t1) <= length (tb_leaves t) + n)%nat -> (length (tb_inners t1) <= length (tb_inners t) + n)%nat ->
  lands run t h lo hi g key (n + m).
Proof.
  intros Hg (t' & g' & a & its & llo & lhi & pre & post & E & Hok' & Hg' & Hfc & Hlen & Hmore) Hn1 Hn2.
  exists t', g', a, its, llo, lhi, pre, post; split_and!; [done | done | by eapply grown_trans | done | done | lia | lia].
Qed.

Section into.
Variable h fuel : nat.
Hypothesis IH : forall t lo hi g key pre post, node_ok t h lo hi g -> within lo hi key -> key_wf key -> ~ g_full g ->
  NoDup (pre ++ g_leaves g ++ post) -> NoDup (g_inners g) -> linked t (pre ++ g_leaves g ++ post) ->
  Z.of_nat (length (tb_leaves t) + h) < INNER -> Z.of_nat (length (tb_inners t) + h) < INNER - 1 ->
  lands (insert_descend scan B fuel t (g_at g) key) t h lo hi g key h.

(** On into a child with room. *)
Lemma into_child t lo hi p s1 s2 k1 g k2 key pre post : let G := GNode p (s1 ++ s2) (k1 ++ g :: k2) in
  node_ok t (S h) lo hi G -> length s1 = length k1 -> within lo hi key -> key_wf key -> ~ g_full g ->
  Forall (fun s => key_le s key) s1 -> Forall (key_lt key) s2 ->
  NoDup (pre ++ g_leaves G ++ post) -> NoDup (g_inners G) -> linked t (pre ++ g_leaves G ++ post) ->
  Z.of_nat (length (tb_leaves t) + h) < INNER -> Z.of_nat (length (tb_inners t) + h) < INNER - 1 ->
  lands (insert_descend scan B fuel t (g_at g) key) t (S h) lo hi G key h.
Proof.
  intros G Hok Hl Hin Hwf Hnf Hf1 Hf2 Hdl Hdi Hlink Hrl Hri; pose proof Hok as (_ & _ & Hk); apply kids_ok_at in Hk as (_ & Hg & _); [| done].
  eapply lands_up; [done | done | | done | done | done |]; [by apply NoDup_app in Hdl as (_ & _ & [? _]%NoDup_app)|].
  subst G; rewrite node_leaves_at in Hdl, Hlink; rewrite <- !app_assoc, !(app_assoc pre) in Hdl, Hlink.
  eapply IH; [done | by apply routed_within | done | done | exact Hdl | | exact Hlink | done | done].
  rewrite node_inners_at in Hdi; apply NoDup_cons in Hdi as [_ Hdi]; by apply NoDup_app in Hdi as (_ & _ & [? _]%NoDup_app).
Qed.

(** On into one half of a child split. *)
Lemma into_half t lo hi p s1 s2 sep k1 gl gr k2 key pre post : let G := GNode p (s1 ++ sep :: s2) (k1 ++ gl :: gr :: k2) in
  node_ok t (S h) lo hi G -> length s1 = length k1 -> within lo hi key -> key_wf key -> ~ g_full gl -> ~ g_full gr ->
  Forall (fun s => key_le s key) s1 -> Forall (key_lt key) s2 ->
  NoDup (pre ++ g_leaves G ++ post) -> NoDup (g_inners G) -> linked t (pre ++ g_leaves G ++ post) ->
  Z.of_nat (length (tb_leaves t) + h) < INNER -> Z.of_nat (length (tb_inners t) + h) < INNER - 1 ->
  lands (inner ← idx (tb_inners t) p; down ← inner_seek scan inner key; at_ ← idx (in_kids inner) down; insert_descend scan B fuel t at_ key)
    t (S h) lo hi G key h.
Proof.
  intros G Hok Hl Hin Hwf Hnl Hnr Hf1 Hf2 Hdl Hdi Hlink Hrl Hri; pose proof Hok as (_ & (inner & Hi & Hr) & Hk).
  unfold idx; rewrite Hi; res_simpl.
  destruct (inner_seek_spec scan B inner _ _ key Hr (node_seps_sorted _ _ _ _ _ _ _ Hk) Hwf) as (i & -> & Hrt); res_simpl.
  destruct (key_ltb key sep) eqn:Ec; [apply key_ltb_lt in Ec|].
  - assert (i = length k1) as ->.
    { eapply routed_unique; [exact Hrt|]; exists s1, (sep :: s2); split_and!; try done; by constructor. }
    rewrite (kid_lookup B inner _ _ k1 gl (gr :: k2) Hr eq_refl); res_simpl.
    eapply into_child; try done; by constructor.
  - assert (key_le sep key) as Hle by (apply key_nlt_le; intros E%key_ltb_lt; congruence).
    assert (Forall (fun s => key_le s key) (s1 ++ [sep])) as Hf1' by (apply Forall_app; split; [done | by constructor]).
    assert (length (s1 ++ [sep]) = length (k1 ++ [gl])) as Hl' by (rewrite !length_app; cbn; lia).
    subst G; rewrite (app_assoc s1 [sep] s2 : s1 ++ sep :: s2 = _), (app_assoc k1 [gl] (gr :: k2) : k1 ++ gl :: gr :: k2 = _) in *.
    assert (i = length (k1 ++ [gl])) as -> by (eapply routed_unique; [exact Hrt|]; by exists (s1 ++ [sep]), s2).
    rewrite (kid_lookup B inner _ _ (k1 ++ [gl]) gr k2 Hr eq_refl); res_simpl; by eapply into_child.
Qed.

End into.

Lemma insert_descend_ok h : forall fuel t lo hi g key pre post, (h < fuel)%nat -> node_ok t h lo hi g -> within lo hi key -> key_wf key ->
  ~ g_full g -> NoDup (pre ++ g_leaves g ++ post) -> NoDup (g_inners g) -> linked t (pre ++ g_leaves g ++ post) ->
  Z.of_nat (length (tb_leaves t) + h) < INNER -> Z.of_nat (length (tb_inners t) + h) < INNER - 1 ->
  lands (insert_descend scan B fuel t (g_at g) key) t h lo hi g key h.
Proof.
  induction h as [|h IH]; intros fuel t lo hi g key pre post Hfuel Hok Hin Hwf Hnf Hdl Hdi Hlink Hrl Hri;
    (destruct fuel as [|fuel]; [lia|]); cbn [insert_descend]; destruct g as [a its|p seps kids]; try done; cbn [g_at g_full] in *.
  - pose proof Hok as (_ & _ & _ & Ha & leaf & _ & Hr); rewrite is_inner_leaf by done.
    exists t, (GLeaf a its), a, its, lo, hi, [], []; pose proof (lr_fits _ _ _ Hr).
    split_and!; [done | done | by apply grown_refl | by apply focused_leaf | lia | lia | lia].
  - pose proof Hok as (Hp & (inner & Hi & Hr) & Hk); rewrite is_inner_node, slot_of_node by lia; rewrite (proj2 (idx_Ok _ _ _) Hi); res_simpl.
    destruct (inner_seek_spec scan B inner seps _ key Hr (node_seps_sorted _ _ _ _ _ _ _ Hk) Hwf) as (i & -> & Hrt); res_simpl.
    destruct (routed_split _ _ _ _ _ _ _ Hk Hrt Hin) as (s1 & s2 & k1 & g & k2 & -> & -> & <- & Hl & Hf1 & Hf2 & Hin' & Hg).
    rewrite <- Hl; rewrite (proj2 (idx_Ok _ _ _) (kid_lookup B inner _ _ k1 g k2 Hr eq_refl)); res_simpl.
    assert (forall t lo hi g key pre post, node_ok t h lo hi g -> within lo hi key -> key_wf key -> ~ g_full g ->
      NoDup (pre ++ g_leaves g ++ post) -> NoDup (g_inners g) -> linked t (pre ++ g_leaves g ++ post) ->
      Z.of_nat (length (tb_leaves t) + h) < INNER -> Z.of_nat (length (tb_inners t) + h) < INNER - 1 ->
      lands (insert_descend scan B fuel t (g_at g) key) t h lo hi g key h) as IH' by (intros; eapply IH; eauto; lia).
    destruct (full_ok t h _ _ g Hg) as (b & -> & Hb); res_simpl; destruct b.
    + destruct (appending_ok t h _ _ g key Hg) as (appending & ->); res_simpl.
      destruct (split_child_ok t h lo hi p s1 s2 k1 g k2 appending pre post) as (t1 & sep & gl & gr & -> & Hok1 & Hg1 & Hnl & Hnr & Hll & Hli);
        try done; [pose proof (ir_fits _ _ _ _ Hr); lia | by apply Hb | lia | lia |]; res_simpl.
      destruct (gw_chain _ _ _ _ Hg1 pre post Hdl Hlink) as [Hdl1 Hlink1]; pose proof (gw_nodup _ _ _ _ Hg1) as Hdi1.
      apply (lands_trans _ t t1 (S h) lo hi _ _ key 1 h Hg1); [| lia | lia]; eapply into_half; try done; lia.
    + apply (lands_trans _ t t (S h) lo hi _ _ key 1 h (grown_refl _ _ Hdi)); [| lia | lia].
      eapply into_child; try done; [naive_solver | lia | lia].
Qed.

(** ** The root *)

Lemma tree_grown t t' h g g' : tree_rep B t h g -> grown t t' g g' -> node_ok t' h None None g' -> tree_rep B t' h g'.
Proof.
  intros Ht Hg Hok; destruct (gw_same _ _ _ _ Hg) as (Er & Ef & En).
  destruct (gw_chain _ _ _ _ Hg [] []) as [Hd Hl]; rewrite ?app_nil_r; [apply Ht | apply Ht|]; cbn [app] in *; rewrite app_nil_r in *.
  constructor; rewrite ?Er, ?Ef, ?En, ?(gw_at _ _ _ _ Hg), ?(gw_items _ _ _ _ Hg), ?(gw_first _ _ _ _ Hg);
    [done | apply Ht | apply Ht | apply Ht | done | apply Hg | done].
Qed.

Lemma empty_leaf_rep links1 links2 :
  leaf_rep B (mkLeaf 0 window_default (replicate B 0) (replicate B filler) (replicate B (inhabitant : V)) links1 links2) [].
Proof. constructor; cbn; rewrite ?length_replicate; try done; [lia|]; constructor; cbn; [apply default_ok | done | done | done]. Qed.

Lemma first_leaf_rep : tree_rep B (mkTBTreeMap [@empty_leaf K V _ _ B] [] 0 0 0) 0 (GLeaf 0 []).
Proof.
  constructor; try done; [| apply NoDup_singleton | constructor |].
  - cbn [TBTreeRep.node_ok]; split_and!; try done; [constructor|]; eexists; split; [done | apply empty_leaf_rep].
  - cbn [linked linked_from g_leaves g_parts map fst]; split; [| done]; by eexists.
Qed.

(** A root of one child above a tree. *)
Lemma root_above t h g kids : tree_rep B t h g -> set_idx (replicate B NONE) 0 (tb_root t) = Ok kids ->
  Z.of_nat (length (tb_inners t)) < INNER - 1 ->
  tree_rep B (mkTBTreeMap (tb_leaves t) (tb_inners t ++ [mkInner 0 window_default (replicate B 0) kids []])
    (Z.lor INNER (Z.of_nat (length (tb_inners t)))) (tb_first t) (tb_len t)) (S h) (GNode (length (tb_inners t)) [] [g]).
Proof.
  intros Ht Ek Hroom; rewrite set_idx_Ok in Ek by (rewrite length_replicate; lia); injection Ek as <-; set (t' := mkTBTreeMap _ _ _ _ _).
  pose proof (tr_node _ _ _ _ Ht) as Hok; pose proof (node_nodes _ _ _ _ _ _ Hok) as [_ Hb].
  assert (g_leaves (GNode (length (tb_inners t)) [] [g]) = g_leaves g) as El by (rewrite node_leaves_app; apply app_nil_r).
  assert (g_items (GNode (length (tb_inners t)) [] [g]) = g_items g) as Ei by (rewrite node_items_app; apply app_nil_r).
  constructor; rewrite ?El, ?Ei; try apply Ht; [| done | |].
  - cbn [TBTreeRep.node_ok kids_ok map]; split_and!; [done | |].
    + eexists; split; [cbn; rewrite lookup_app_r, Nat.sub_diag by done; reflexivity|].
      constructor; cbn [in_len in_lead in_kids in_spill in_win length]; rewrite ?length_insert, ?length_replicate; try done; [lia | | |].
      * rewrite (take_S_r _ _ (g_at g)) by (rewrite (tr_root _ _ _ _ Ht); apply list_lookup_insert_eq; rewrite length_replicate; lia); done.
      * constructor; cbn; [apply default_ok | done | done | done].
      * unfold spill_run; by destruct whole.
    + eapply node_ok_frame; [exact Hok|]; split; [intros a leaf _ Ha; exists leaf; split; [done | apply same_body_refl]|].
      intros b inner _ Hbi; cbn; by apply lookup_app_l_Some.
  - cbn [g_inners map concat]; rewrite app_nil_r; apply NoDup_cons; split; [| apply Ht]; intros Hin.
    rewrite Forall_forall in Hb; specialize (Hb _ Hin); cbv beta in Hb; lia.
  - eapply linked_frame; [| apply Ht]; intros a leaf _ Ha; by exists leaf.
Qed.

Lemma insert_root_ok t items : holds B t items -> Z.of_nat (length (tb_leaves t)) < INNER -> Z.of_nat (length (tb_inners t)) + 1 < INNER - 1 ->
  exists t' h g, insert_root B t = Ok t' /\ tree_rep B t' h g /\ g_items g = items /\ ~ g_full g
    /\ (length (tb_leaves t') <= S (length (tb_leaves t)))%nat /\ (length (tb_inners t') <= 2 + length (tb_inners t))%nat.
Proof.
  intros [[-> ->]|(h & g & Ht & ->)]%holds_cases Hrl Hri; unfold insert_root.
  - exists (mkTBTreeMap [@empty_leaf K V _ _ B] [] 0 0 0), 0%nat, (GLeaf 0 []); split_and!; [| apply first_leaf_rep | done | cbn; lia | cbn; lia | cbn; lia].
    cbn; destruct B; [lia | done].
  - rewrite (root_not_none _ _ _ _ Ht); cbv zeta; pose proof (tr_node _ _ _ _ Ht) as Hok.
    destruct (full_ok _ _ _ _ _ Hok) as (b & Eb & Hb); rewrite (tr_root _ _ _ _ Ht), Eb; res_simpl; destruct b.
    + rewrite <- (tr_root _ _ _ _ Ht); cbn [in_kids in_lead empty_inner]; rewrite set_idx_Ok by (rewrite length_replicate; lia); res_simpl.
      cbn [tb_leaves tb_inners push_inner tb_root tb_first tb_len]; rewrite length_app; cbn [length]; rewrite Nat.add_1_r, arena_index_last, Nat2Z.id by lia.
      pose proof (root_above t h g _ Ht (set_idx_Ok (replicate B NONE) 0 (tb_root t) ltac:(rewrite length_replicate; lia)) ltac:(lia)) as Ht1; set (t1 := mkTBTreeMap _ _ _ _ _) in *.
      assert (length (tb_inners t1) = S (length (tb_inners t))) as Eli by (cbn; rewrite length_app; cbn; lia).
      destruct (split_child_ok t1 h None None (length (tb_inners t)) [] [] [] g [] false [] []) as (t' & sep & gl & gr & E & Hok' & Hg & _ & _ & Hll & Hli);
        rewrite ?app_nil_r; try apply Ht1; cbn [app length]; try lia; [by apply Hb | done |].
      exists t', (S h), (GNode (length (tb_inners t)) [sep] [gl; gr]); split_and!; [exact E | by eapply tree_grown | | | done | lia].
      * transitivity (g_items (GNode (length (tb_inners t)) [] [g])); [apply Hg | rewrite node_items_app; apply app_nil_r].
      * cbn [g_full length]; lia.
    + exists t, h, g; split_and!; [done | done | done | naive_solver | lia | lia].
Qed.

(** ** The whole insert *)

Lemma sorted_middle_insert (a b : list K) key : StronglySorted key_lt (a ++ b) -> Forall (fun k => key_lt k key) a -> Forall (key_lt key) b ->
  StronglySorted key_lt (a ++ key :: b).
Proof.
  rewrite !StronglySorted_app; intros (Hab & Ha & Hb) Hf1 Hf2; split_and!; [| done | by constructor].
  intros x y Hx [->|Hy]%elem_of_cons; [rewrite Forall_forall in Hf1; by apply Hf1 | by apply Hab].
Qed.

Lemma insert_at_ok t h g key (val : V) a its llo lhi pre post : tree_rep B t h g ->
  focused B t h None None g key a its llo lhi pre post -> (length its < B)%nat -> key_wf key ->
  exists t', insert_at scan t a key val = Ok (t', assoc (g_items g) key) /\ holds B t' (with_item (g_items g) key val)
    /\ length (tb_leaves t') = length (tb_leaves t) /\ length (tb_inners t') = length (tb_inners t).
Proof.
  intros Ht Hfc Hfit Hwf; pose proof (fc_leaf _ _ _ _ _ _ _ _ _ _ _ _ _ Hfc) as (_ & Hin & Hsort & Ha & leaf & Hl & Hr).
  destruct (seek_spec scan (lf_win leaf) (lf_lead leaf) (lf_keys leaf) (map fst its) key) as (s & Es & Hs);
    rewrite ?length_map; [apply Hr | rewrite (lr_leads _ _ _ Hr); apply Hr | apply Hr | done | done |]; rewrite length_map in Es.
  unfold insert_at; rewrite (proj2 (idx_Ok _ _ _) Hl); res_simpl; rewrite (lr_len _ _ _ Hr), Es; res_simpl; apply seated_items in Hs; destruct s as [i|i].
  - destruct Hs as (l & old & r & -> & <- & Hul & Hor).
    destruct (set_value_ok B HB t h g key a leaf l old val r llo lhi pre post Ht Hfc Hl Hr Hul) as (-> & -> & Hh); res_simpl.
    rewrite (lr_len _ _ _ Hr) in Hh; eexists; split; [done|]; split; [exact Hh | cbn; by rewrite length_insert].
  - destruct Hs as (l & r & -> & <- & Hul & Hor); destruct (focused_items _ _ _ _ _ _ _ _ _ _ _ _ _ Hfc) as (Eit & Hpre & Hpost).
    destruct (leaf_insert_ok B HB leaf l r key val Hr Hfit Hwf) as (leaf' & -> & Hr' & En & Ep); res_simpl.
    destruct (set_leaf_rep B t h g key a _ llo lhi pre post leaf leaf' (l ++ (key, val) :: r) (tb_len t + 1)%nat Ht Hfc Hl En Ep Hr') as (g' & Ht' & Eg').
    + rewrite map_app in *; cbn [map]; apply Forall_app in Hin as [? ?]; apply Forall_app; split; [done|]; constructor; [apply Hfc | done].
    + rewrite map_app in *; by apply sorted_middle_insert.
    + rewrite (tr_len _ _ _ _ Ht), Eit, !length_app; cbn [length]; lia.
    + eexists; split; [rewrite Eit, assoc_under, <- app_assoc, (assoc_under l), assoc_over by (done || by apply over_app); reflexivity|].
      cbn [tb_leaves tb_inners set_leaf tb_root tb_first tb_len]; rewrite length_insert; split; [| done].
      right; exists h, g'; split; [exact Ht'|]; rewrite Eg', Eit, with_item_under, <- !app_assoc by done; cbn [app]; f_equal; symmetry.
      apply with_item_gap; [done | by apply over_app].
Qed.

(** Room for the nodes an insert may make, and room for two. *)
Definition spare t : Prop := Z.of_nat (length (tb_leaves t)) < 2 ^ 30 /\ Z.of_nat (length (tb_inners t)) < 2 ^ 30 - 4.
Definition roomy t : Prop := Z.of_nat (length (tb_leaves t)) < 2 ^ 28 /\ Z.of_nat (length (tb_inners t)) < 2 ^ 28.

(** An insert puts its pair in the ordered map and answers what the key held. *)
Lemma insert_spare t items key val : holds B t items -> key_wf key -> spare t ->
  exists t', TBTreeMap_insert scan B t key val = Ok (t', assoc items key) /\ holds B t' (with_item items key val) /\ (roomy t -> spare t').
Proof.
  intros Hh Hwf [Hrl Hri]; assert (INNER = 2 ^ 31) as EI by done.
  destruct (insert_root_ok t items Hh) as (t1 & h & g & Er & Ht & <- & Hnf & Hll & Hli); [lia | lia |].
  pose proof (height_fuel B _ _ _ _ _ (tr_node _ _ _ _ Ht) (tr_inners _ _ _ _ Ht)) as Hfuel.
  destruct (insert_descend_ok h (S (length (tb_inners t1))) t1 None None g key [] []) as
    (t2 & g2 & a & its & llo & lhi & pre & post & Ed & Hok2 & Hg2 & Hfc & Hlen & Hl2 & Hi2);
    rewrite ?app_nil_r; try apply Ht; try done; try lia.
  pose proof (tree_grown _ _ _ _ _ Ht Hg2 Hok2) as Ht2; pose proof (fc_leaf _ _ _ _ _ _ _ _ _ _ _ _ _ Hfc) as (_ & _ & _ & Ha & _).
  destruct (insert_at_ok t2 h g2 key val a its llo lhi pre post Ht2 Hfc Hlen Hwf) as (t' & Ei & Hh' & Hl' & Hi').
  exists t'; rewrite (gw_items _ _ _ _ Hg2) in *; split; [| split; [done|]].
  - unfold TBTreeMap_insert; rewrite Er; res_simpl; rewrite (tr_root _ _ _ _ Ht), Ed; res_simpl; by rewrite slot_of_leaf.
  - intros [??]; split; rewrite ?Hl', ?Hi'; lia.
Qed.

Lemma roomy_spare t : roomy t -> spare t.
Proof. unfold roomy, spare; lia. Qed.

Lemma insert_ok t items key val : holds B t items -> key_wf key -> roomy t ->
  exists t', TBTreeMap_insert scan B t key val = Ok (t', assoc items key) /\ holds B t' (with_item items key val).
Proof. intros Hh Hwf Hr; destruct (insert_spare t items key val Hh Hwf (roomy_spare t Hr)) as (t' & E & Hh' & _); eauto. Qed.

Lemma with_item_twice items key (val val' : V) : with_item (with_item items key val) key val' = with_item items key val'.
Proof.
  assert (key_cmp key key = Eq) as Er by (by apply key_cmp_eq).
  induction items as [|[k v] items IH]; cbn [with_item]; [by rewrite Er|]; destruct (key_cmp key k) eqn:E; cbn [with_item]; rewrite ?Er; [done | done |]; by rewrite E, IH.
Qed.

(** A second insert of the same key has room where the first had. *)
Lemma insert_again t items key val : holds B t items -> key_wf key -> roomy t ->
  exists t', TBTreeMap_insert scan B t key val = Ok (t', assoc items key) /\ holds B t' (with_item items key val)
    /\ forall val', exists t'', TBTreeMap_insert scan B t' key val' = Ok (t'', Some val) /\ holds B t'' (with_item items key val').
Proof.
  intros Hh Hwf Hr; destruct (insert_spare t items key val Hh Hwf (roomy_spare t Hr)) as (t' & E & Hh' & Hs); exists t'; split_and!; [done | done |]; intros val'.
  destruct (insert_spare t' _ key val' Hh' Hwf (Hs Hr)) as (t'' & E'' & Hh'' & _); exists t''; rewrite E'', assoc_with_item, (proj2 (key_eqb_eq key key) eq_refl), <- (with_item_twice items key val val'); done.
Qed.

Lemma get_or_insert_ok t items key val : holds B t items -> key_wf key -> roomy t ->
  exists t', TBTreeMap_get_or_insert scan B t key val = Ok (t', default val (assoc items key))
    /\ holds B t' (if assoc items key is Some _ then items else with_item items key val).
Proof.
  intros Hh Hwf Hroom; unfold TBTreeMap_get_or_insert; rewrite (get_ok scan B t items key Hh Hwf); res_simpl.
  destruct (assoc items key) as [held|] eqn:Ea; cbn [default].
  - res_simpl; rewrite (get_ok scan B t items key Hh Hwf), Ea; res_simpl; eauto.
  - destruct (insert_ok t items key val Hh Hwf Hroom) as (t' & -> & Hh'); res_simpl.
    rewrite (get_ok scan B t' _ key Hh' Hwf); res_simpl.
    rewrite assoc_with_item, (proj2 (key_eqb_eq key key) eq_refl); res_simpl; eauto.
Qed.

End insert.
