(* ===== verification/TBTreeWalk.v ===== *)
(** * Walking the tree ([index/tbtreemap.rs])

    The walks along the chain of leaves: a range either way, its runs, the whole tree, its first
    pair. Each is the part of the ordered map its bounds name, in order. *)
From S2P Require Import Prelude Error Arrays Bytes TreeKey TBTree TBTreeRep TBTreeFind TBTreeOps TBTreeSplit TBTreeInsert.

(** ** Prefixes of a sorted run *)

Section prefixes.
Context {A : Type}.
Implicit Types (test : A -> bool) (l : list A).

Fixpoint take_while test l : list A := match l with [] => [] | x :: l => if test x then x :: take_while test l else [] end.

Lemma filter_all test l : Forall (fun x => test x = true) l -> List.filter test l = l.
Proof. induction 1 as [|x l Hx _ IH]; cbn [List.filter]; [done|]; by rewrite Hx, IH. Qed.

Lemma filter_none test l : Forall (fun x => test x = false) l -> List.filter test l = [].
Proof. induction 1 as [|x l Hx _ IH]; cbn [List.filter]; [done|]; by rewrite Hx, IH. Qed.

(** A test that holds up to some point is a filter. *)
Lemma take_while_filter test l : StronglySorted (fun x y => test y = true -> test x = true) l -> take_while test l = List.filter test l.
Proof.
  induction 1 as [|x l _ IH Hx]; cbn [take_while List.filter]; [done|]; destruct (test x) eqn:E; [by rewrite IH|].
  symmetry; apply filter_none; eapply Forall_impl; [exact Hx|]; intros y Hy; cbv beta in *.
  destruct (test y); [| done]; discriminate (Hy eq_refl).
Qed.

Lemma StronglySorted_impl {R S : A -> A -> Prop} l : (forall x y, R x y -> S x y) -> StronglySorted R l -> StronglySorted S l.
Proof. intros Hi; induction 1 as [|x l _ IH Hx]; constructor; [done|]; eapply Forall_impl; [exact Hx|]; auto. Qed.

Lemma StronglySorted_rev {R : A -> A -> Prop} l : StronglySorted R l -> StronglySorted (fun x y => R y x) (rev l).
Proof.
  induction 1 as [|x l _ IH Hx]; cbn [rev]; [constructor|]; apply StronglySorted_app; split_and!; [| done | repeat constructor].
  intros y z Hy ->%list_elem_of_singleton.
  rewrite list_elem_of_In, <- in_rev, <- list_elem_of_In in Hy; rewrite Forall_forall in Hx; by apply Hx.
Qed.

Lemma StronglySorted_filter {R : A -> A -> Prop} test l : StronglySorted R l -> StronglySorted R (List.filter test l).
Proof.
  induction 1 as [|x l _ IH Hx]; cbn [List.filter]; [constructor|]; destruct (test x); [| done]; constructor; [done|].
  rewrite Forall_forall in *; intros y Hy; apply Hx; rewrite list_elem_of_In, filter_In in Hy; rewrite list_elem_of_In; by destruct Hy.
Qed.

Lemma filter_filter test test' l : List.filter test (List.filter test' l) = List.filter (fun x => test' x && test x) l.
Proof. induction l as [|x l IH]; cbn [List.filter]; [done|]; destruct (test' x); cbn [List.filter andb]; by rewrite IH. Qed.

End prefixes.

Section walk.
Context {K V : Type} `{TKL : TreeKeyLaws K} `{Inhabited V}.
Variable scan : Scan.
Variable B : nat.
Hypothesis HB : (3 <= B <= 256)%nat.
Implicit Types (t : @TBTreeMap K V _) (g : @gtree K V) (items : list (K * V)) (parts pre post : list (nat * list (K * V))).

(** ** The chain of leaves *)

Record chained t parts : Prop := {
  ch_leaf a its : (a, its) ∈ parts -> Z.of_nat a < INNER /\ exists leaf, tb_leaves t !! a = Some leaf /\ leaf_rep B leaf its;
  ch_linked : linked t (map fst parts);
}.

Lemma node_leaf_rep t h lo hi g a its : node_ok B t h lo hi g -> (a, its) ∈ g_parts g ->
  Z.of_nat a < INNER /\ exists leaf, tb_leaves t !! a = Some leaf /\ leaf_rep B leaf its.
Proof.
  revert lo hi g; induction h as [|h IH]; intros lo hi [b its'|b seps kids]; cbn [node_ok g_parts]; try done.
  - intros (_ & _ & _ & ? & ?) E%list_elem_of_singleton; by simplify_eq.
  - intros (_ & _ & Hk) (ps & Hin & (g & -> & Hg)%list_elem_of_fmap)%elem_of_concat; revert lo kids Hk Hg.
    induction seps as [|s seps IHs]; intros lo [|g' kids] Hk Hg; cbn [kids_ok] in Hk; try done.
    + destruct kids; [| done]; apply list_elem_of_singleton in Hg as ->; by eapply IH.
    + destruct Hk as [Hg' Hk]; apply elem_of_cons in Hg as [->|Hg]; [by eapply IH | by eapply IHs].
Qed.

Lemma tree_chained t h g : tree_rep B t h g -> chained t (g_parts g).
Proof. intros Ht; constructor; [intros; eapply node_leaf_rep; [apply Ht | done] | apply Ht]. Qed.

Lemma linked_mid t before (pre post : list nat) a : linked_from t before (pre ++ a :: post) ->
  exists leaf, tb_leaves t !! a = Some leaf /\ lf_next leaf = link (post !! 0%nat)
    /\ lf_prev leaf = link (match last pre with Some b => Some b | None => before end).
Proof.
  revert before; induction pre as [|x pre IH]; intros before; cbn [app linked_from]; [by intros [? _]|].
  intros [_ Hl]; destruct (IH _ Hl) as (leaf & ? & ? & Ep); exists leaf; split_and!; [done | done |].
  rewrite Ep, last_cons; by destruct (last pre).
Qed.

(** One leaf of the chain. *)
Lemma chained_at t pre a (its : list (K * V)) post : chained t (pre ++ (a, its) :: post) -> Z.of_nat a < INNER /\ (Z.of_nat a =? NONE) = false
  /\ exists leaf, tb_leaves t !! a = Some leaf /\ leaf_rep B leaf its
    /\ lf_next leaf = link (fst <$> post !! 0%nat) /\ lf_prev leaf = link (fst <$> last pre).
Proof.
  intros [Hleaf Hl]; destruct (Hleaf a its) as (Ha & leaf & Hlf & Hr); [set_solver|].
  rewrite map_app in Hl; cbn [map fst] in Hl; apply linked_mid in Hl as (leaf' & Hlf' & En & Ep); rewrite Hlf in Hlf'; injection Hlf' as <-.
  split_and!; [done | unfold NONE, U32; change INNER with 2147483648 in Ha; apply Z.eqb_neq; lia |].
  exists leaf; split_and!; [done | done | by rewrite En, list_lookup_fmap |].
  rewrite Ep, fmap_last; by destruct (last pre).
Qed.

Lemma leaf_pair leaf (its : list (K * V)) slot key val : leaf_rep B leaf its -> its !! slot = Some (key, val) ->
  idx (lf_keys leaf) slot = Ok key /\ idx (lf_vals leaf) slot = Ok val.
Proof.
  intros Hr Hs; split; apply idx_Ok; (eapply lookup_of_take; [apply Hr|]); change map with (@fmap list _) at 1;
    rewrite list_lookup_fmap, Hs; done.
Qed.

(** A place in the chain, and what lies before and behind it. *)
Definition placed t (at_ : Z) (slot : nat) (front back : list (K * V)) : Prop :=
  (at_ = NONE /\ front = [] /\ back = []) \/
  exists pre a its post, at_ = Z.of_nat a /\ chained t (pre ++ (a, its) :: post) /\ (slot <= length its)%nat
    /\ front = parts_items pre ++ take slot its /\ back = drop slot its ++ parts_items post
    /\ (length (parts_items (pre ++ (a, its) :: post)) + length (pre ++ (a, its) :: post) <= tb_len t + length (tb_leaves t))%nat.

Lemma range_walk_ok t high fuel : forall pre a its post slot, chained t (pre ++ (a, its) :: post) -> (slot <= length its)%nat ->
  (length its - slot + length (parts_items post) + length post + 2 <= fuel)%nat ->
  range_walk fuel t high (Z.of_nat a) slot = Ok (take_while (fun e => below_high high e.1) (drop slot its ++ parts_items post)).
Proof.
  induction fuel as [|fuel IH]; intros pre a its post slot Hc Hs Hf; [lia|]; cbn [range_walk].
  destruct (chained_at _ _ _ _ _ Hc) as (Ha & -> & leaf & Hl & Hr & En & _).
  rewrite slot_of_leaf, (proj2 (idx_Ok _ _ _) Hl) by done; res_simpl; rewrite (lr_len _ _ _ Hr).
  destruct (Nat.leb_spec (length its) slot) as [Hge|Hlt].
  - rewrite drop_ge, app_nil_l, En by done; destruct post as [|[b its'] post]; cbn [lookup list_lookup fmap option_fmap option_map link fst].
    + destruct fuel; [lia | done].
    + rewrite (IH (pre ++ [(a, its)]) b its' post 0%nat); [done | by rewrite <- app_assoc | lia |].
      unfold parts_items in *; cbn [map snd concat length] in Hf; rewrite length_app in Hf; lia.
  - destruct (lookup_lt_is_Some_2 its slot Hlt) as [[key val] Hkv]; destruct (leaf_pair leaf its slot key val Hr Hkv) as [-> ->]; res_simpl.
    rewrite (drop_S _ _ _ Hkv); cbn [app take_while fst]; destruct (below_high high key); cbn [negb]; [| done].
    rewrite Nat.add_1_r, (IH pre a its post (S slot)) by (done || lia); done.
Qed.

Lemma range_back_walk_ok t low fuel : forall pre a its post slot, chained t (pre ++ (a, its) :: post) -> (slot <= length its)%nat ->
  (slot + length (parts_items pre) + length pre + 2 <= fuel)%nat ->
  range_back_walk fuel t low (Z.of_nat a) slot = Ok (take_while (fun e => above_low low e.1) (rev (parts_items pre ++ take slot its))).
Proof.
  induction fuel as [|fuel IH]; intros pre a its post slot Hc Hs Hf; [lia|]; cbn [range_back_walk].
  destruct (chained_at _ _ _ _ _ Hc) as (Ha & -> & leaf & Hl & Hr & _ & Ep).
  rewrite slot_of_leaf, (proj2 (idx_Ok _ _ _) Hl) by done; res_simpl; destruct slot as [|slot].
  - rewrite take_0, app_nil_r, Ep; destruct pre as [|[b its'] pre _] using rev_ind; [destruct fuel; [lia | done]|].
    rewrite last_snoc; cbn [fmap option_fmap option_map link fst]; rewrite <- app_assoc in Hc; cbn [app] in Hc.
    destruct (chained_at _ _ _ _ _ Hc) as (Hb & -> & leaf' & Hl' & Hr' & _ & _).
    rewrite slot_of_leaf, (proj2 (idx_Ok _ _ _) Hl') by done; res_simpl; rewrite (lr_len _ _ _ Hr').
    unfold parts_items in *; rewrite map_app, concat_app, !length_app in *; cbn [map snd concat length] in *; rewrite app_nil_r in *.
    rewrite (IH pre b its' ((a, its) :: post) (length its')) by (done || lia); by rewrite take_ge.
  - destruct (lookup_lt_is_Some_2 its slot) as [[key val] Hkv]; [lia|]; destruct (leaf_pair leaf its slot key val Hr Hkv) as [-> ->]; res_simpl.
    rewrite (take_S_r _ _ _ Hkv), app_assoc, rev_app_distr; cbn [rev app take_while fst]; destruct (above_low low key); cbn [negb]; [| done].
    rewrite (IH pre a its post slot) by (done || lia); done.
Qed.

(** The runs of a walk, each a leaf's keys beside their values. *)
Definition run_pairs (runs : list (list K * list V)) : list (K * V) := concat (map (fun run => zip run.1 run.2) runs).

Lemma runs_walk_ok t fuel : forall pre a its post slot, chained t (pre ++ (a, its) :: post) -> (slot <= length its)%nat ->
  (length post + 2 <= fuel)%nat ->
  exists runs, runs_walk fuel t (Z.of_nat a) slot = Ok runs /\ run_pairs runs = drop slot its ++ parts_items post
    /\ Forall (fun run => run.1 <> [] /\ length run.1 = length run.2) runs.
Proof.
  induction fuel as [|fuel IH]; intros pre a its post slot Hc Hs Hf; [lia|]; cbn [runs_walk].
  destruct (chained_at _ _ _ _ _ Hc) as (Ha & -> & leaf & Hl & Hr & En & _).
  rewrite slot_of_leaf, (proj2 (idx_Ok _ _ _) Hl) by done; res_simpl; rewrite En, (lr_len _ _ _ Hr).
  assert (exists runs, runs_walk fuel t (link (fst <$> post !! 0%nat)) 0 = Ok runs /\ run_pairs runs = parts_items post
    /\ Forall (fun run => run.1 <> [] /\ length run.1 = length run.2) runs) as (runs & -> & Ep & Hf'); [| res_simpl].
  { destruct post as [|[b its'] post]; cbn [lookup list_lookup fmap option_fmap option_map link fst length] in *.
    - destruct fuel; [lia | by exists []].
    - destruct (IH (pre ++ [(a, its)]) b its' post 0%nat) as (runs & ? & ? & ?); [by rewrite <- app_assoc | lia | lia | eauto]. }
  destruct (Nat.ltb_spec slot (length its)) as [Hlt|Hge]; [| exists runs; by rewrite drop_ge].
  rewrite !span_Ok by (rewrite ?(lr_keys _ _ _ Hr), ?(lr_vals _ _ _ Hr); pose proof (lr_fits _ _ _ Hr); lia); res_simpl.
  rewrite (lr_key _ _ _ Hr), (lr_val _ _ _ Hr); eexists; split; [done|]; split.
  - unfold run_pairs in *; cbn [map concat fst snd]; rewrite Ep; f_equal.
    rewrite <- zip_with_drop; f_equal; apply zip_fst_snd.
  - constructor; [| done]; cbn [fst snd]; rewrite !length_drop, !length_map; split; [| done].
    intros E; apply (f_equal length) in E; rewrite length_drop, length_map in E; cbn in E; lia.
Qed.

(** ** Where walks start *)

Lemma tree_placed t h g pre a its post slot : tree_rep B t h g -> g_parts g = pre ++ (a, its) :: post -> (slot <= length its)%nat ->
  placed t (Z.of_nat a) slot (parts_items pre ++ take slot its) (drop slot its ++ parts_items post).
Proof.
  intros Ht Ep Hs; right; exists pre, a, its, post; rewrite <- Ep; split_and!; [done | by eapply tree_chained | done | done | done |].
  pose proof (tr_leaves _ _ _ _ Ht) as Hd; pose proof (proj1 (node_nodes _ _ _ _ _ _ (tr_node _ _ _ _ Ht))) as Hb.
  pose proof (NoDup_bounded _ _ Hd Hb) as Hn; unfold g_leaves in Hn; rewrite length_map in Hn.
  rewrite (tr_len _ _ _ _ Ht); unfold g_items; fold (parts_items (g_parts g)); lia.
Qed.

Lemma node_parts_ends t h lo hi g : node_ok B t h lo hi g ->
  (exists a its post, g_parts g = (a, its) :: post)
  /\ (forall fuel, (h < fuel)%nat -> exists pre a its, g_parts g = pre ++ [(a, its)] /\ last_descend fuel t (g_at g) = Ok (Z.of_nat a)).
Proof.
  revert lo hi g; induction h as [|h IH]; intros lo hi [a its|a seps kids]; cbn [node_ok]; try done.
  { intros (_ & _ & _ & Ha & _); split; [eauto|]; intros [|fuel] Hf; [lia|]; exists [], a, its; split; [done|].
    cbn [last_descend g_at]; by rewrite is_inner_leaf. }
  intros (Ha & (inner & Hi & Hr) & Hk); pose proof (kids_ok_length _ _ _ _ _ Hk) as Hlen; split.
  - destruct kids as [|g kids]; [done|]; apply (kids_ok_at _ lo hi [] seps [] g kids eq_refl) in Hk as (_ & Hg & _).
    apply IH in Hg as [(a' & its & post & E) _]; cbn [g_parts map concat]; rewrite E; cbn [app]; eauto.
  - intros [|fuel] Hf; [lia|]; destruct kids as [|g kids _] using rev_ind; [done|]; rewrite length_app in Hlen; cbn [length] in Hlen.
    rewrite <- (app_nil_r seps) in Hk; apply kids_ok_at in Hk as (_ & Hg & _); [| lia]; apply IH in Hg as [_ Hg].
    destruct (Hg fuel ltac:(lia)) as (pre & a' & its & E & Ed); exists (concat (map g_parts kids) ++ pre), a', its.
    cbn [g_parts last_descend g_at]; rewrite map_app, concat_app; cbn [map concat]; rewrite E, app_nil_r, <- app_assoc; split; [done|].
    rewrite is_inner_node, slot_of_node, (proj2 (idx_Ok _ _ _) Hi) by lia; res_simpl; rewrite (ir_len _ _ _ _ Hr).
    replace (length seps) with (length kids) by lia; by rewrite (proj2 (idx_Ok _ _ _) (kid_lookup B inner _ _ kids g [] Hr eq_refl)).
Qed.

Lemma first_placed t items : holds B t items -> placed t (tb_first t) 0 [] items.
Proof.
  intros [[-> ->]|(h & g & Ht & ->)]%holds_cases; [by left|].
  destruct (node_parts_ends _ _ _ _ _ (tr_node _ _ _ _ Ht)) as [(a & its & post & E) _].
  pose proof (tree_placed t h g [] a its post 0 Ht E ltac:(lia)) as Hp; rewrite (tr_first _ _ _ _ Ht); unfold g_leaves, g_items; rewrite E.
  exact Hp.
Qed.

Lemma last_placed t items : holds B t items ->
  exists at_ slot, range_back_start scan t Unbounded = Ok (at_, slot) /\ placed t at_ slot items [].
Proof.
  intros [[-> ->]|(h & g & Ht & ->)]%holds_cases; [exists NONE, 0%nat; split; [done | by left]|].
  destruct (node_parts_ends _ _ _ _ _ (tr_node _ _ _ _ Ht)) as [_ Hlast].
  destruct (Hlast (S (length (tb_inners t)))) as (pre & a & its & E & Ed); [pose proof (height_fuel B _ _ _ _ _ (tr_node _ _ _ _ Ht) (tr_inners _ _ _ _ Ht)); lia|].
  pose proof (tree_placed t h g pre a its [] (length its) Ht E ltac:(lia)) as Hp; rewrite firstn_all, drop_all in Hp.
  destruct (node_leaf_rep t h _ _ g a its (tr_node _ _ _ _ Ht)) as (Ha & leaf & Hl & Hr); [rewrite E; set_solver|].
  exists (Z.of_nat a), (length its); unfold range_back_start, TBTreeMap_last_leaf; rewrite (root_not_none _ _ _ _ Ht), (tr_root _ _ _ _ Ht), Ed; res_simpl.
  rewrite slot_of_leaf, (proj2 (idx_Ok _ _ _) Hl) by done; res_simpl; rewrite (lr_len _ _ _ Hr); split; [done|].
  unfold g_items; rewrite E, map_app, concat_app; cbn [map concat snd]; by rewrite app_nil_r.
Qed.

(** The pairs around a key, as filters of them all. *)
Lemma cut_filters (a mid c : list (K * V)) key : under a key -> over c key -> Forall (fun e => e.1 = key) mid ->
  let items := a ++ mid ++ c in
  List.filter (fun e => key_ltb e.1 key) items = a /\ List.filter (fun e => key_leb key e.1) items = mid ++ c
  /\ List.filter (fun e => key_leb e.1 key) items = a ++ mid /\ List.filter (fun e => key_ltb key e.1) items = c.
Proof.
  unfold under, over; rewrite !Forall_map, !Forall_forall; intros Ha Hc Hm; rewrite !List.filter_app.
  assert (forall k, key_ltb k k = false /\ key_leb k k = true) as Hself by (intros k; unfold key_ltb, key_leb; by rewrite (proj2 (key_cmp_eq k k) eq_refl)).
  assert (forall k k', key_lt k k' -> key_ltb k k' = true /\ key_leb k k' = true /\ key_ltb k' k = false /\ key_leb k' k = false) as Hlt.
  { intros k k' Hk; unfold key_ltb, key_leb; rewrite (key_cmp_antisym k k'); unfold key_lt in Hk; by rewrite Hk. }
  assert (forall test l b, (forall e : K * V, e ∈ l -> test e = b) -> List.filter test l = if b : bool then l else []) as Hfilter.
  { intros test l [|] Ht; [apply filter_all | apply filter_none]; by apply Forall_forall. }
  split_and!.
  - rewrite (Hfilter _ a true), (Hfilter _ mid false), (Hfilter _ c false); [by rewrite !app_nil_r | | |]; intros e He; [by apply Hlt, Hc | | by apply Hlt, Ha].
    rewrite (Hm e He); apply Hself.
  - rewrite (Hfilter _ a false), (Hfilter _ mid true), (Hfilter _ c true); [done | | |]; intros e He; [by apply Hlt, Hc | | by apply Hlt, Ha].
    rewrite (Hm e He); apply Hself.
  - rewrite (Hfilter _ a true), (Hfilter _ mid true), (Hfilter _ c false); [by rewrite app_nil_r | | |]; intros e He; [by apply Hlt, Hc | | by apply Hlt, Ha].
    rewrite (Hm e He); apply Hself.
  - rewrite (Hfilter _ a false), (Hfilter _ mid false), (Hfilter _ c true); [done | | |]; intros e He; [by apply Hlt, Hc | | by apply Hlt, Ha].
    rewrite (Hm e He); apply Hself.
Qed.

Lemma key_order_eqb key k : key_lt key k -> key_eqb k key = false.
Proof. intros; apply key_eqb_false; auto. Qed.

(** A seat splits the pairs at its key, and the seat past it behind the key. *)
Lemma seat_placed t items key : holds B t items -> key_wf key ->
  (exists at_ slot, seat_at scan t key = Ok (at_, slot) /\ placed t at_ slot
    (List.filter (fun e => key_ltb e.1 key) items) (List.filter (fun e => key_leb key e.1) items))
  /\ (exists at_ slot, seat_past scan t key = Ok (at_, slot) /\ placed t at_ slot
    (List.filter (fun e => key_leb e.1 key) items) (List.filter (fun e => key_ltb key e.1) items)).
Proof.
  intros [[-> ->]|(h & g & Ht & ->)]%holds_cases Hwf; [split; exists NONE, 0%nat; (split; [done | by left])|].
  destruct (find_ok scan B t h g key Ht Hwf) as (a & leaf & its & llo & lhi & pre & post & s & _ & E & _ & Ha & Hfc & Hl & Hr & Hs).
  destruct (focused_items _ _ _ _ _ _ _ _ _ _ _ _ _ Hfc) as (Eit & Hpre & Hpost); pose proof (fc_parts _ _ _ _ _ _ _ _ _ _ _ _ _ Hfc) as Ep.
  unfold seat_at, seat_past; rewrite E; res_simpl; cbn [default]; rewrite slot_of_leaf, (proj2 (idx_Ok _ _ _) Hl) by done; res_simpl.
  rewrite (lr_len _ _ _ Hr), Eit; apply seated_items in Hs; destruct s as [i|i].
  - destruct Hs as (l & val & r & -> & <- & Hul & Hor).
    destruct (cut_filters (parts_items pre ++ l) [(key, val)] (r ++ parts_items post) key) as (E1 & E2 & E3 & E4);
      [by apply under_app | by apply over_app | by constructor |]; cbn [app] in *; rewrite <- !app_assoc in *; cbn [app] in *.
    rewrite E1, E2, E3, E4; split.
    + do 2 eexists; split; [done|]; pose proof (tree_placed t h g pre a _ post (length l) Ht Ep ltac:(rewrite length_app; lia)) as Hp.
      by rewrite take_app_length, drop_app_length in Hp.
    + destruct (Nat.ltb_spec (length l) (length (l ++ (key, val) :: r))); [| rewrite length_app in *; cbn in *; lia].
      destruct (leaf_pair leaf _ (length l) key val Hr) as [-> _]; [by apply list_lookup_middle|]; res_simpl; rewrite (proj2 (key_eqb_eq key key) eq_refl).
      do 2 eexists; split; [done|]; rewrite (app_assoc l [(key, val)] r : l ++ (key, val) :: r = _) in *.
      replace (length l + 1)%nat with (length (l ++ [(key, val)])) by (by rewrite length_app).
      pose proof (tree_placed t h g pre a _ post (length (l ++ [(key, val)])) Ht Ep ltac:(rewrite (length_app (l ++ _)); lia)) as Hp.
      by rewrite take_app_length, drop_app_length in Hp.
  - destruct Hs as (l & r & -> & <- & Hul & Hor).
    destruct (cut_filters (parts_items pre ++ l) [] (r ++ parts_items post) key) as (E1 & E2 & E3 & E4);
      [by apply under_app | by apply over_app | by constructor |]; cbn [app] in *; rewrite <- !app_assoc, ?app_nil_r in *.
    rewrite E1, E2, E3, E4; pose proof (tree_placed t h g pre a _ post (length l) Ht Ep ltac:(rewrite length_app; lia)) as Hp.
    rewrite take_app_length, drop_app_length in Hp; split; do 2 eexists; (split; [| exact Hp]); [done|].
    destruct (Nat.ltb_spec (length l) (length (l ++ r))); [| done]; destruct r as [|[k v] r]; [rewrite app_nil_r in *; lia|].
    destruct (leaf_pair leaf _ (length l) k v Hr) as [-> _]; [by apply list_lookup_middle|]; res_simpl; unfold over in Hor; cbn [map fst] in Hor.
    apply Forall_cons in Hor as [Hk _]; by rewrite key_order_eqb.
Qed.

(** ** The walks *)

Definition in_range (low high : Bound K) (e : K * V) : bool := above_low low e.1 && below_high high e.1.
Definition bound_wf (b : Bound K) : Prop := match b with Unbounded => True | Included k | Excluded k => key_wf k end.

Lemma holds_sorted t items : holds B t items -> StronglySorted (fun a b : K * V => key_lt a.1 b.1) items.
Proof.
  intros [[-> ->]|(h & g & Ht & ->)]%holds_cases; [constructor|].
  pose proof (node_ok_items _ _ _ _ _ _ (tr_node _ _ _ _ Ht)) as [_ Hs]; revert Hs; generalize (g_items g) as l.
  induction l as [|e l IH]; cbn [map]; [intros _; apply SSorted_nil|]; intros [Hs Hf]%StronglySorted_inv; apply SSorted_cons; [auto | rewrite Forall_map in Hf; exact Hf].
Qed.

Lemma below_high_down high (a b : K) : key_lt a b -> below_high high b = true -> below_high high a = true.
Proof.
  destruct high; cbn [below_high]; [done | rewrite !key_leb_le | rewrite !key_ltb_lt]; eauto using key_lt_trans, key_lt_le, key_lt_le_trans.
Qed.

Lemma above_low_up low (a b : K) : key_lt a b -> above_low low a = true -> above_low low b = true.
Proof.
  destruct low; cbn [above_low]; [done | rewrite !key_leb_le | rewrite !key_ltb_lt]; eauto using key_lt_trans, key_lt_le, key_le_lt_trans.
Qed.

Lemma range_start_placed t items low : holds B t items -> bound_wf low -> exists at_ slot front,
  range_start scan t low = Ok (at_, slot) /\ placed t at_ slot front (List.filter (fun e => above_low low e.1) items).
Proof.
  intros Hh Hwf; destruct low as [|key|key]; cbn [range_start above_low bound_wf] in *.
  - do 3 eexists; split; [done|]; rewrite filter_all by (by apply Forall_true); by apply first_placed.
  - destruct (seat_placed t items key Hh Hwf) as [(at_ & slot & E & Hp) _]; eauto.
  - destruct (seat_placed t items key Hh Hwf) as [_ (at_ & slot & E & Hp)]; eauto.
Qed.

Lemma range_back_start_placed t items high : holds B t items -> bound_wf high -> exists at_ slot back,
  range_back_start scan t high = Ok (at_, slot) /\ placed t at_ slot (List.filter (fun e => below_high high e.1) items) back.
Proof.
  intros Hh Hwf; destruct high as [|key|key]; cbn [below_high bound_wf] in *.
  - destruct (last_placed t items Hh) as (at_ & slot & E & Hp); rewrite filter_all by (by apply Forall_true); eauto.
  - destruct (seat_placed t items key Hh Hwf) as [_ (at_ & slot & E & Hp)]; eauto.
  - destruct (seat_placed t items key Hh Hwf) as [(at_ & slot & E & Hp) _]; eauto.
Qed.

Lemma walk_placed t at_ slot front back low high : placed t at_ slot front back ->
  range_walk (walk_fuel t) t high at_ slot = Ok (take_while (fun e => below_high high e.1) back)
  /\ range_back_walk (walk_fuel t) t low at_ slot = Ok (take_while (fun e => above_low low e.1) (rev front))
  /\ exists runs, runs_walk (walk_fuel t) t at_ slot = Ok runs /\ run_pairs runs = back
       /\ Forall (fun run => run.1 <> [] /\ length run.1 = length run.2) runs.
Proof.
  intros [(-> & -> & ->)|(pre & a & its & post & -> & Hc & Hs & -> & -> & Hf)]; [split_and!; [done | done | by exists []]|].
  unfold walk_fuel, parts_items in *; rewrite !length_app, map_app, concat_app, length_app in Hf; cbn [map snd concat length] in Hf; rewrite length_app in Hf.
  split_and!; [eapply range_walk_ok; eauto; unfold parts_items; lia | eapply range_back_walk_ok; eauto; unfold parts_items; lia |].
  eapply runs_walk_ok; eauto; lia.
Qed.

(** A range is what of the ordered map its bounds hold. *)
Lemma range_ok t items low high : holds B t items -> bound_wf low ->
  TBTreeMap_range scan t low high = Ok (List.filter (in_range low high) items).
Proof.
  intros Hh Hwf; destruct (range_start_placed t items low Hh Hwf) as (at_ & slot & front & E & Hp).
  unfold TBTreeMap_range; rewrite E; res_simpl; destruct (walk_placed t at_ slot _ _ low high Hp) as (-> & _ & _); f_equal.
  rewrite take_while_filter, filter_filter; [done|]; apply StronglySorted_filter.
  eapply StronglySorted_impl; [| by eapply holds_sorted]; intros x y Hxy; by apply below_high_down.
Qed.

Lemma range_back_ok t items low high : holds B t items -> bound_wf high ->
  TBTreeMap_range_back scan t low high = Ok (rev (List.filter (in_range low high) items)).
Proof.
  intros Hh Hwf; destruct (range_back_start_placed t items high Hh Hwf) as (at_ & slot & back & E & Hp).
  unfold TBTreeMap_range_back; rewrite E; res_simpl; destruct (walk_placed t at_ slot _ _ low high Hp) as (_ & -> & _); f_equal.
  rewrite take_while_filter.
  - rewrite filter_rev, filter_filter; f_equal; apply filter_ext; intros e; apply andb_comm.
  - eapply StronglySorted_impl; [| apply (StronglySorted_rev (R := fun a b : K * V => key_lt a.1 b.1)), StronglySorted_filter, (holds_sorted t items Hh)].
    intros x y Hxy; by apply above_low_up.
Qed.

Lemma range_runs_ok t items low : holds B t items -> bound_wf low ->
  exists runs, TBTreeMap_range_runs scan t low = Ok runs /\ run_pairs runs = List.filter (fun e => above_low low e.1) items
    /\ Forall (fun run => run.1 <> [] /\ length run.1 = length run.2) runs.
Proof.
  intros Hh Hwf; destruct (range_start_placed t items low Hh Hwf) as (at_ & slot & front & E & Hp).
  unfold TBTreeMap_range_runs; rewrite E; res_simpl; by destruct (walk_placed t at_ slot _ _ low low Hp) as (_ & _ & ?).
Qed.

Lemma iter_ok t items : holds B t items -> TBTreeMap_iter t = Ok items.
Proof.
  intros Hh; unfold TBTreeMap_iter; destruct (walk_placed t _ _ _ _ Unbounded Unbounded (first_placed t items Hh)) as (-> & _ & _).
  f_equal; rewrite take_while_filter, filter_all; [done | by apply Forall_true |].
  eapply StronglySorted_impl; [| by eapply holds_sorted]; done.
Qed.

(** ** The first pair, and the leaves whole *)

Lemma first_walk_ok t fuel : forall pre a its post, chained t (pre ++ (a, its) :: post) -> (length post + 2 <= fuel)%nat ->
  first_walk fuel t (Z.of_nat a) = Ok (list.head (its ++ parts_items post)).
Proof.
  induction fuel as [|fuel IH]; intros pre a its post Hc Hf; [lia|]; cbn [first_walk].
  destruct (chained_at _ _ _ _ _ Hc) as (Ha & -> & leaf & Hl & Hr & En & _).
  rewrite Nat2Z.id, (proj2 (idx_Ok _ _ _) Hl) by done; res_simpl; rewrite (lr_len _ _ _ Hr), En.
  destruct its as [|[k v] its]; cbn [length Nat.ltb Nat.leb].
  - destruct post as [|[b its'] post]; cbn [lookup list_lookup fmap option_fmap option_map link fst length] in *; [destruct fuel; [lia | done]|].
    rewrite (IH (pre ++ [(a, [])]) b its' post); [done | by rewrite <- app_assoc | lia].
  - by destruct (leaf_pair leaf _ 0%nat k v Hr eq_refl) as [-> ->].
Qed.

Lemma first_key_value_ok t items : holds B t items -> TBTreeMap_first_key_value t = Ok (list.head items).
Proof.
  intros Hh; unfold TBTreeMap_first_key_value; destruct (first_placed t items Hh) as [(-> & _ & ->)|(pre & a & its & post & -> & Hc & _ & E & -> & Hf)].
  - done.
  - rewrite (first_walk_ok t _ pre a its post); [done | done |]; unfold walk_fuel; rewrite (length_app pre) in Hf; cbn [length] in Hf; lia.
Qed.

Lemma chain_from_ok t fuel : forall pre a its post, chained t (pre ++ (a, its) :: post) -> (length post + 2 <= fuel)%nat ->
  chain_from fuel t (Z.of_nat a) = Ok (a :: map fst post).
Proof.
  induction fuel as [|fuel IH]; intros pre a its post Hc Hf; [lia|]; cbn [chain_from].
  destruct (chained_at _ _ _ _ _ Hc) as (Ha & -> & leaf & Hl & Hr & En & _).
  rewrite Nat2Z.id, (proj2 (idx_Ok _ _ _) Hl) by done; res_simpl; rewrite En.
  destruct post as [|[b its'] post]; cbn [lookup list_lookup fmap option_fmap option_map link fst length] in *; [destruct fuel; [lia | done]|].
  rewrite (IH (pre ++ [(a, its)]) b its' post); [done | by rewrite <- app_assoc | lia].
Qed.

(** Every leaf of the chain read whole. *)
Lemma chain_read {C} t parts (read : @Leaf K V _ -> res C) (f : list (K * V) -> C) : chained t parts ->
  (forall leaf its, leaf_rep B leaf its -> read leaf = Ok (f its)) ->
  mapm (fun at_ => leaf ← idx (tb_leaves t) at_; read leaf) (map fst parts) = Ok (map (fun p => f p.2) parts).
Proof.
  intros [Hleaf _] Hread; induction parts as [|[a its] parts IH]; cbn [map mapm fst snd]; [done|].
  destruct (Hleaf a its) as (_ & leaf & Hl & Hr); [by left|]; rewrite (proj2 (idx_Ok _ _ _) Hl); res_simpl; rewrite (Hread _ _ Hr); res_simpl.
  rewrite IH; [done|]; intros; apply Hleaf; by right.
Qed.

Lemma leaf_fronts leaf its : leaf_rep B leaf its -> front (lf_keys leaf) (lf_len leaf) = Ok (map fst its)
  /\ front (lf_vals leaf) (lf_len leaf) = Ok (map (@snd K V) its).
Proof.
  intros Hr; rewrite (lr_len _ _ _ Hr), !front_Ok by (rewrite ?(lr_keys _ _ _ Hr), ?(lr_vals _ _ _ Hr); apply Hr).
  by rewrite (lr_key _ _ _ Hr), (lr_val _ _ _ Hr).
Qed.

Lemma tree_chain t h g : tree_rep B t h g -> chain_from (S (length (tb_leaves t))) t (tb_first t) = Ok (map fst (g_parts g)).
Proof.
  intros Ht; destruct (node_parts_ends _ _ _ _ _ (tr_node _ _ _ _ Ht)) as [(a & its & post & E) _].
  pose proof (tree_chained _ _ _ Ht) as Hc; pose proof (NoDup_bounded _ _ (tr_leaves _ _ _ _ Ht) (proj1 (node_nodes _ _ _ _ _ _ (tr_node _ _ _ _ Ht)))) as Hn.
  rewrite (tr_first _ _ _ _ Ht); unfold g_leaves in *; rewrite E in *; cbn [map fst length lookup list_lookup link] in *; rewrite length_map in Hn.
  rewrite (chain_from_ok t _ [] a its post); [done | done | lia].
Qed.

Lemma chunks_ok t items : holds B t items ->
  exists runs, TBTreeMap_chunks t = Ok runs /\ run_pairs runs = items /\ Forall (fun run => length run.1 = length run.2) runs.
Proof.
  intros [[-> ->]|(h & g & Ht & ->)]%holds_cases; [by exists []|]; unfold TBTreeMap_chunks; rewrite (tree_chain _ _ _ Ht); res_simpl.
  rewrite (chain_read t _ _ (fun its => (map fst its, map snd its)) (tree_chained _ _ _ Ht)).
  - eexists; split; [done|]; unfold run_pairs, g_items; rewrite map_map; cbn [fst snd]; split.
    + f_equal; apply map_ext; intros [a its]; apply zip_fst_snd.
    + apply Forall_map, Forall_true; intros [a its]; cbn; by rewrite !length_map.
  - intros leaf its Hr; destruct (leaf_fronts _ _ Hr) as [-> ->]; done.
Qed.

End walk.
