(* ===== verification/TBTreeMany.v ===== *)
(** * Many keys at once ([index/tbtreemap.rs])

    [get_many] takes its keys down the tree side by side and [get_many_sorted] takes them down in
    runs. Both answer every key as [get] would. *)
From S2P Require Import Prelude Error Arrays Bytes TreeKey TBTree TBTreeRep TBTreeFind TBTreeOps TBTreeSplit TBTreeInsert.

Lemma mapm_Forall2 {A C} (f : A -> res C) l ys : Forall2 (fun x y => f x = Ok y) l ys -> mapm f l = Ok ys.
Proof. induction 1 as [|x y l ys Hxy _ IH]; cbn [mapm]; [done|]; rewrite Hxy; res_simpl; by rewrite IH. Qed.

Section many.
Context {K V : Type} `{TKL : TreeKeyLaws K} `{Inhabited V}.
Variable scan : Scan.
Variable B : nat.
Implicit Types (t : @TBTreeMap K V _) (g : @gtree K V) (items : list (K * V)).

(** ** Lanes *)

(** A key over a node on its way down to the leaf its own descent ends at. *)
Definition lane t (h : nat) (key : K) (at_ target : Z) : Prop :=
  exists g lo hi, at_ = g_at g /\ node_ok B t h lo hi g /\ within lo hi key /\ key_wf key /\ descend scan (S h) t at_ key = Ok target.

Lemma lane_leaf t key at_ target : lane t 0 key at_ target -> is_inner at_ = false /\ target = at_.
Proof.
  intros (g & lo & hi & -> & Hok & _ & _ & E); destruct g as [a its|]; [| done]; cbn [g_at descend] in *; pose proof Hok as (_ & _ & _ & Ha & _).
  rewrite is_inner_leaf in * by done; by injection E as <-.
Qed.

(** One level down. *)
Lemma lane_down t h key at_ target : lane t (S h) key at_ target -> is_inner at_ = true
  /\ exists p inner seps kids down at_', slot_of at_ = p /\ idx (tb_inners t) p = Ok inner /\ inner_rep B inner seps kids
    /\ StronglySorted key_lt seps /\ inner_seek scan inner key = Ok down /\ routed seps key down /\ idx (in_kids inner) down = Ok at_'
    /\ lane t h key at_' target.
Proof.
  intros (g & lo & hi & -> & Hok & Hin & Hwf & E); destruct g as [|p seps kids]; [done|]; cbn [g_at] in *; pose proof Hok as (Hp & (inner & Hi & Hr) & Hk).
  rewrite is_inner_node, slot_of_node by lia; split; [done|]; pose proof (node_seps_sorted _ _ _ _ _ _ _ Hk) as Hsort.
  destruct (inner_seek_spec scan B inner seps _ key Hr Hsort Hwf) as (down & Es & Hrt).
  destruct (routed_split _ _ _ _ _ _ _ Hk Hrt Hin) as (s1 & s2 & k1 & g & k2 & -> & -> & Hl1 & Hl2 & Hf1 & Hf2 & Hin' & Hg).
  pose proof (proj2 (idx_Ok _ _ _) (kid_lookup B inner _ _ k1 g k2 Hr eq_refl)) as Ek; rewrite Hl2 in Ek.
  exists p, inner, (s1 ++ s2), (map g_at (k1 ++ g :: k2)), down, (g_at g); split_and!; try done; [by apply idx_Ok|].
  exists g, (lo_of lo s1), (hi_of hi s2); split_and!; try done; cbn [descend] in E.
  rewrite is_inner_node, slot_of_node, (proj2 (idx_Ok _ _ _) Hi) in E by lia; cbn [mbind res_bind] in E; rewrite Es in E; cbn [mbind res_bind] in E.
  rewrite Ek in E; exact E.
Qed.

(** Every key starts over the root. *)
Lemma lane_root t h g key : tree_rep B t h g -> key_wf key -> exists target, descent scan t key = Ok target /\ lane t h key (tb_root t) target.
Proof.
  intros Ht Hwf; pose proof (tr_node _ _ _ _ Ht) as Hok; pose proof (height_fuel _ _ _ _ _ _ Hok (tr_inners _ _ _ _ Ht)) as Hh.
  assert (forall fuel, (h < fuel)%nat -> exists target, descend scan fuel t (tb_root t) key = Ok target) as Hd.
  { intros fuel Hf; rewrite (tr_root _ _ _ _ Ht).
    destruct (descend_ok scan B h fuel t None None g key Hf Hok (within_all key) Hwf) as (a & its & llo & lhi & pre & post & E & _); eauto. }
  destruct (Hd (S h)) as [target E]; [lia|]; destruct (Hd (S (length (tb_inners t)))) as [target' E']; [lia|].
  exists target; split; [| exists g, None, None; rewrite <- (tr_root _ _ _ _ Ht); by split_and!].
  unfold descent; enough (forall m n at_ x, (m <= n)%nat -> descend scan m t at_ key = Ok x -> descend scan n t at_ key = Ok x) as Hmore by (by apply (Hmore (S h)); [lia|]).
  clear; induction m as [|m IH]; intros [|n] at_ x Hle E; try done; [lia|]; cbn [descend] in *; destruct (is_inner at_); [| done].
  destruct (idx (tb_inners t) _); cbn in *; try done; destruct (inner_seek _ _ _); cbn in *; try done; destruct (idx (in_kids _) _); cbn in *; try done.
  apply IH; [lia | done].
Qed.

(** The leaf a descent ends at answers as a lookup does. *)
Lemma answer_get t key target : (tb_root t =? NONE) = false -> descent scan t key = Ok target ->
  leaf_answer scan t target key = TBTreeMap_get scan t key.
Proof.
  intros Hroot Hd; unfold leaf_answer, TBTreeMap_get, TBTreeMap_find; rewrite Hroot, Hd; res_simpl.
  destruct (idx (tb_leaves t) (slot_of target)); cbn [mbind res_bind]; try done; by destruct (seek _ _ _ _ _ _).
Qed.

(** ** Keys side by side *)

Definition lanes_at t h (lanes : list (K * Z)) (targets : list Z) : Prop := Forall2 (fun lane_ target => lane t h lane_.1 lane_.2 target) lanes targets.

Lemma lanes_step_ok t h lanes targets : lanes_at t (S h) lanes targets -> forall done moving,
  exists lanes' moving', foldm (lane_step scan t) lanes (done, moving) = Ok (done ++ lanes', moving')
    /\ map fst lanes' = map fst lanes /\ lanes_at t h lanes' targets /\ (lanes <> [] -> moving' = true).
Proof.
  induction 1 as [|[key at_] target lanes targets Hl _ IH]; intros done moving; [exists [], moving; rewrite app_nil_r; by repeat constructor|].
  cbn [fst snd] in Hl; apply lane_down in Hl as (Hi & p & inner & seps & kids & down & at_' & <- & Ei & _ & _ & Es & _ & Ek & Hl).
  cbn [foldm lane_step]; rewrite Hi; cbn [negb]; rewrite Ei; res_simpl; rewrite Es; res_simpl; rewrite Ek; res_simpl.
  destruct (IH (done ++ [(key, at_')]) true) as (lanes' & moving' & E & Em & Hls & Hm); rewrite E; exists ((key, at_') :: lanes'), moving'.
  rewrite <- app_assoc; cbn [app map fst]; rewrite Em; split_and!; [done | done | by constructor |]; intros _.
  destruct lanes; [by injection E | by apply Hm].
Qed.

Lemma lanes_descend_ok t h : forall fuel lanes targets, (h < fuel)%nat -> lanes_at t h lanes targets ->
  exists lanes', lanes_descend scan fuel t lanes = Ok lanes' /\ lanes' = zip (map fst lanes) targets.
Proof.
  induction h as [|h IH]; intros [|fuel] lanes targets Hf Hl; [lia | | lia |]; cbn [lanes_descend].
  - assert (lanes_step scan t lanes = Ok (lanes, false) /\ lanes = zip (map fst lanes) targets) as [-> E]; [| res_simpl; eauto].
    unfold lanes_step; clear Hf; assert (forall done, foldm (lane_step scan t) lanes (done, false) = Ok (done ++ lanes, false) /\ lanes = zip (map fst lanes) targets) as Hfold; [| apply (Hfold [])].
    induction Hl as [|[key at_] target lanes targets [Hi ->]%lane_leaf _ IH]; intros done; [by rewrite app_nil_r|]; cbn [fst snd] in *.
    cbn [foldm lane_step]; rewrite Hi; cbn [negb mbind res_bind]; destruct (IH (done ++ [(key, at_)])) as [-> E]; rewrite <- app_assoc; cbn [app map zip zip_with fst]; split; [done | by f_equal].
  - unfold lanes_step; destruct (lanes_step_ok t h lanes targets Hl [] false) as (lanes' & moving & -> & Em & Hl' & Hm); res_simpl; rewrite <- Em.
    destruct moving; [apply IH; [lia | done]|]; destruct lanes as [|l lanes]; [| discriminate Hm; done].
    destruct lanes'; [| done]; inversion Hl'; cbn; eauto.
Qed.

(** The answers of a run of lanes. *)
Lemma lanes_answer_ok t items keys : holds B t items -> (tb_root t =? NONE) = false -> Forall key_wf keys ->
  lanes_answer scan t keys = Ok (map (assoc items) keys).
Proof.
  intros Hh Hroot Hwf; pose proof Hh as [[-> ->]|(h & g & Ht & ->)]%holds_cases; [done|].
  assert (exists targets, lanes_at t h (map (fun key => (key, tb_root t)) keys) targets
    /\ Forall2 (fun key target => descent scan t key = Ok target) keys targets) as (targets & Hl & Ht2).
  { clear -Ht Hwf TKL; induction Hwf as [|key keys Hk _ (targets & IH1 & IH2)]; [exists []; by repeat constructor|].
    destruct (lane_root t h g key Ht Hk) as (target & E & Hlane); exists (target :: targets); split; constructor; done. }
  pose proof (height_fuel _ _ _ _ _ _ (tr_node _ _ _ _ Ht) (tr_inners _ _ _ _ Ht)) as Hf.
  unfold lanes_answer; destruct (lanes_descend_ok t h (S (S (length (tb_inners t)))) _ targets ltac:(lia) Hl) as (lanes & -> & ->); res_simpl.
  rewrite map_map; cbn [fst]; rewrite map_id; apply mapm_Forall2; clear Hl.
  induction Ht2 as [|key target keys targets Hd _ IH]; cbn [zip zip_with map]; [constructor|].
  apply Forall_cons in Hwf as [Hk Hwf]; constructor; [| by apply IH]; rewrite (answer_get t key target Hroot Hd); by apply (get_ok scan B).
Qed.

Lemma get_many_ok t items keys : holds B t items -> Forall key_wf keys -> TBTreeMap_get_many scan t keys = Ok (map (assoc items) keys).
Proof.
  intros Hh Hwf; unfold TBTreeMap_get_many; destruct (tb_root t =? NONE) eqn:Hroot.
  - apply holds_cases in Hh as [[-> ->]|(h & g & Ht & _)]; [| by rewrite (root_not_none _ _ _ _ Ht) in Hroot].
    f_equal; clear; induction keys as [|k keys IH]; cbn; [done | by f_equal].
  - assert (forall cs, concat cs = keys -> mapm (lanes_answer scan t) cs = Ok (map (map (assoc items)) cs)) as Hc.
    { intros cs <-; apply mapm_Forall2; induction cs as [|c cs IH]; cbn [map concat] in *; [constructor|].
      apply Forall_app in Hwf as [? ?]; constructor; [by apply lanes_answer_ok | by apply IH]. }
    pose proof (chunks_of_concat LANES keys (length keys) ltac:(unfold LANES; lia) ltac:(done)) as Ec.
    rewrite (Hc _ Ec); res_simpl; by rewrite <- concat_map, Ec.
Qed.

(** ** Keys in runs *)

(** The test that keeps a key left of a separator is the order of the two. *)
Lemma left_of_split inner seps kids s sep keys : inner_rep B inner seps kids -> seps !! s = Some sep -> Forall key_wf keys ->
  StronglySorted key_le keys -> exists lead l r, idx (in_lead inner) s = Ok lead /\ keys = l ++ r
    /\ left_of inner lead (spill_of (in_spill inner) s) keys = length l
    /\ Forall (fun k => key_lt k sep) l /\ Forall (key_le sep) r.
Proof.
  intros Hr Hs Hwf Hsort; pose proof (ir_search _ _ _ _ Hr) as Hsc; pose proof (take_drop_middle _ _ _ Hs) as Eseps.
  assert (length (take s seps) = s) as Hls by (rewrite length_take; apply lookup_lt_Some in Hs; lia).
  pose proof (lead_at _ _ _ _ _ _ Hsc (eq_sym Eseps)) as Hlead; rewrite Hls in Hlead; exists (window_lead (in_win inner) sep).
  assert (inside (in_win inner) sep) as Hin by (eapply Forall_lookup_1; [apply Hsc | exact Hs]).
  pose proof (sc_window _ _ _ Hsc) as Hw; set (w := in_win inner) in *.
  assert (forall k, key_wf k -> match rank_cmp (rank w k) (1, window_lead w sep) with
    | Lt => true | Eq => match spill_of (in_spill inner) s with Some full => key_ltb k full | None => false end | Gt => false end = key_ltb k sep) as Htest.
  { intros k Hk; unfold rank; destruct (window_word w k) as [word|[|]] eqn:Ew; unfold rank_cmp; cbn [fst snd].
    - apply word_lead in Ew as [Hki ->]; [| done]; rewrite Z.compare_refl; destruct (Z.compare_spec (window_lead w k) (window_lead w sep)) as [E|E|E].
      + rewrite (ir_spill _ _ _ _ Hr); unfold spill_run; destruct whole eqn:Ewh; [rewrite spill_of_numbered, Hs by (by eapply lookup_lt_Some); done|].
        destruct (lead_exact w k sep Ewh) as (_ & _ & Heq); rewrite (Heq E); unfold spill_of, spill_here; cbn.
        symmetry; apply not_true_iff_false; rewrite key_ltb_lt; apply key_lt_irrefl.
      + symmetry; apply key_ltb_lt; by apply (lead_mono w).
      + symmetry; apply not_true_iff_false; rewrite key_ltb_lt; apply key_lt_asym; by apply (lead_mono w).
    - symmetry; apply key_ltb_lt; by eapply word_below.
    - symmetry; apply not_true_iff_false; rewrite key_ltb_lt; apply key_lt_asym; by eapply word_above. }
  rewrite (proj2 (idx_Ok _ _ _) Hlead).
  induction Hsort as [|k keys _ IH Hk]; [by exists [], []|]; apply Forall_cons in Hwf as [Hkw Hwf]; cbn [left_of]; fold w; rewrite (Htest k Hkw).
  destruct (key_ltb k sep) eqn:Ek.
  - destruct (IH Hwf) as (l & r & _ & -> & -> & Hl & Hr'); exists (k :: l), r; split_and!; try done; constructor; [by apply key_ltb_lt | done].
  - exists [], (k :: keys); split_and!; try done; assert (key_le sep k) as Hge by (apply key_nlt_le; rewrite <- key_ltb_lt; by rewrite Ek).
    constructor; [done|]; eapply Forall_impl; [exact Hk|]; intros x; by apply key_le_trans.
Qed.

Section runs.
Variable t : @TBTreeMap K V _.
Variable keys : list K.
Variable items : list (K * V).
Hypothesis Hroot : (tb_root t =? NONE) = false.
Hypothesis Hholds : holds B t items.
Hypothesis Hwf : Forall key_wf keys.
Hypothesis Hsort : StronglySorted key_le keys.

(** A node and a run of keys that all descend through it. *)
Definition tasked (h : nat) g (task : Z * nat * nat) : Prop :=
  let '(at_, low, high) := task in at_ = g_at g /\ (low < high <= length keys)%nat
  /\ forall i key, (low <= i < high)%nat -> keys !! i = Some key -> exists lo hi, node_ok B t h lo hi g /\ within lo hi key
       /\ descend scan (S h) t (g_at g) key = descent scan t key.

Definition g_size g : nat := length (g_leaves g) + length (g_inners g).
Definition sizes (gs : list gtree) : nat := sum_list_with g_size gs.

Lemma g_size_node p seps kids : g_size (GNode p seps kids) = S (sizes kids).
Proof.
  unfold g_size; rewrite node_leaves_app; cbn [g_inners length]; rewrite Nat.add_succ_r; f_equal.
  induction kids as [|g kids IH]; cbn [map concat sizes sum_list_with]; [done|]; rewrite !length_app; unfold g_size at 1; fold (sizes kids); lia.
Qed.

Definition covers (i : nat) (task : Z * nat * nat) : Prop := (task.1.2 <= i < task.2)%nat.

(** A key of a node's run at the child its place names. *)
Lemma task_down h p s1 s2 k1 g k2 inner low high i key : tasked (S h) (GNode p (s1 ++ s2) (k1 ++ g :: k2)) (Z.lor INNER (Z.of_nat p), low, high) ->
  length s1 = length k1 -> tb_inners t !! p = Some inner -> inner_rep B inner (s1 ++ s2) (map g_at (k1 ++ g :: k2)) -> (low <= i < high)%nat -> keys !! i = Some key ->
  Forall (fun s => key_le s key) s1 -> Forall (key_lt key) s2 ->
  exists lo hi, node_ok B t h lo hi g /\ within lo hi key /\ descend scan (S h) t (g_at g) key = descent scan t key.
Proof.
  intros (_ & _ & Hrun) Hl Hi Hr Hlh Hkey Hf1 Hf2; destruct (Hrun i key Hlh Hkey) as (lo & hi & Hok & Hin & Hd); pose proof Hok as (Hp & _ & Hk).
  pose proof (Forall_lookup_1 _ _ _ _ Hwf Hkey) as Hkw; cbv beta in Hkw; cbn [g_at descend] in Hd.
  rewrite is_inner_node, slot_of_node, (proj2 (idx_Ok _ _ _) Hi) in Hd by lia; cbn [mbind res_bind] in Hd.
  destruct (inner_seek_spec scan B inner _ _ key Hr (node_seps_sorted _ _ _ _ _ _ _ Hk) Hkw) as (down & Es & Hrt).
  assert (down = length k1) as -> by (eapply routed_unique; [exact Hrt|]; by exists s1, s2).
  rewrite Es in Hd; cbn [mbind res_bind] in Hd; rewrite (proj2 (idx_Ok _ _ _) (kid_lookup B inner _ _ k1 g k2 Hr eq_refl)) in Hd; cbn [mbind res_bind] in Hd.
  apply kids_ok_at in Hk as (_ & Hg & _); [| done]; exists (lo_of lo s1), (hi_of hi s2); split_and!; [done | by apply routed_within | exact Hd].
Qed.

Lemma keys_cut slot high : (slot <= high <= length keys)%nat -> let run := take (high - slot) (drop slot keys) in
  Forall key_wf run /\ StronglySorted key_le run /\ length run = (high - slot)%nat
  /\ forall i, (slot <= i < high)%nat -> keys !! i = run !! (i - slot)%nat.
Proof.
  intros Hs run; split_and!.
  - by apply Forall_take, Forall_drop.
  - rewrite <- (take_drop slot keys) in Hsort; apply StronglySorted_app in Hsort as (_ & _ & Hd).
    rewrite <- (take_drop (high - slot) (drop slot keys)) in Hd; by apply StronglySorted_app in Hd as (_ & ? & _).
  - subst run; rewrite length_take, length_drop; lia.
  - intros i Hi; subst run; rewrite lookup_take_lt by lia; rewrite lookup_drop; f_equal; lia.
Qed.

(** One child's run, pushed when it has any key. *)
Lemma task_push h p inner low high s1 s2 k1 g k2 slot end_ : 
  tasked (S h) (GNode p (s1 ++ s2) (k1 ++ g :: k2)) (Z.lor INNER (Z.of_nat p), low, high) ->
  tb_inners t !! p = Some inner -> inner_rep B inner (s1 ++ s2) (map g_at (k1 ++ g :: k2)) ->
  length s1 = length k1 -> (low <= slot)%nat -> (slot < end_ <= high)%nat ->
  (forall i key, (slot <= i < end_)%nat -> keys !! i = Some key -> Forall (fun s => key_le s key) s1 /\ Forall (key_lt key) s2) ->
  tasked h g (g_at g, slot, end_).
Proof.
  intros Htask Hi Hr Hl Hlow Hend Hroute; pose proof Htask as (_ & Hhigh & _); split_and!; [done | lia | lia |].
  intros i key Hin Hkey; destruct (Hroute i key Hin Hkey); eapply task_down; eauto; lia.
Qed.

(** What a child is pushed with: nothing, or one run. *)
Definition pushed h g (slot end_ : nat) (new : list (Z * nat * nat)) (gs : list gtree) : Prop :=
  Forall2 (tasked h) gs new /\ (sizes gs <= g_size g)%nat /\ forall i, (slot <= i < end_)%nat -> Exists (covers i) new.

Lemma pushed_none h g slot end_ : (end_ <= slot)%nat -> pushed h g slot end_ [] [].
Proof. intros; split_and!; [constructor | cbn; lia | lia]. Qed.

Lemma pushed_one h g slot end_ : tasked h g (g_at g, slot, end_) -> pushed h g slot end_ [(g_at g, slot, end_)] [g].
Proof. intros; split_and!; [constructor; [done | constructor] | cbn; lia |]; intros i Hi; by constructor. Qed.

(** The keys left of one separator. *)
Lemma spread_sep h p inner low high s1 sep s2 k1 g k2 slot work :
  tasked (S h) (GNode p (s1 ++ sep :: s2) (k1 ++ g :: k2)) (Z.lor INNER (Z.of_nat p), low, high) -> StronglySorted key_lt (s1 ++ sep :: s2) ->
  tb_inners t !! p = Some inner -> inner_rep B inner (s1 ++ sep :: s2) (map g_at (k1 ++ g :: k2)) -> length s1 = length k1 -> (low <= slot <= high)%nat ->
  (forall i key, (slot <= i < high)%nat -> keys !! i = Some key -> Forall (fun s => key_le s key) s1) ->
  exists end_ new gs, spread_step inner keys high (work, slot) (length k1) = Ok (new ++ work, end_) /\ (slot <= end_ <= high)%nat
    /\ pushed h g slot end_ new gs /\ forall i key, (end_ <= i < high)%nat -> keys !! i = Some key -> key_le sep key.
Proof.
  intros Htask Hss Hi Hr Hl Hslot Hle; pose proof Htask as (_ & Hhigh & _); unfold spread_step; rewrite (ir_len _ _ _ _ Hr), length_app, Hl; cbn [length].
  destruct (Nat.leb_spec high slot); [exists slot, [], []; split_and!; [done | lia | lia | by apply pushed_none | lia]|].
  destruct (Nat.ltb_spec (length k1) (length k1 + S (length s2))); [| lia]; destruct (keys_cut slot high) as (Hrw & Hrs & Hrl & Hrk); [lia|].
  assert ((s1 ++ sep :: s2) !! length k1 = Some sep) as Hsep by (rewrite <- Hl; by apply list_lookup_middle).
  destruct (left_of_split inner _ _ (length k1) sep _ Hr Hsep Hrw Hrs) as (lead & l & r & Elead & Erun & Eleft & Hfl & Hfr).
  rewrite Elead; res_simpl; rewrite Eleft; rewrite Erun in Hrk; rewrite Erun, length_app in Hrl.
  assert (forall i key, (slot + length l <= i < high)%nat -> keys !! i = Some key -> key_le sep key) as Hover.
  { intros i key Hin Hkey; rewrite Hrk in Hkey by lia; rewrite lookup_app_r in Hkey by lia; exact (Forall_lookup_1 _ _ _ _ Hfr Hkey). }
  destruct (Nat.ltb_spec slot (slot + length l)).
  - rewrite (proj2 (idx_Ok _ _ _) (kid_lookup B inner _ _ k1 g k2 Hr eq_refl)); res_simpl.
    exists (slot + length l)%nat, [(g_at g, slot, slot + length l)%nat], [g]; split_and!; [done | lia | lia | apply pushed_one | exact Hover].
    apply (task_push h p inner low high s1 (sep :: s2) k1 g k2 slot _ Htask Hi Hr Hl); [lia | lia |]; intros i key Hin Hkey; split; [eapply Hle; [| done]; lia|].
    rewrite Hrk in Hkey by lia; rewrite lookup_app_l in Hkey by lia; pose proof (Forall_lookup_1 _ _ _ _ Hfl Hkey) as Hlt; cbv beta in Hlt.
    apply StronglySorted_app in Hss as (_ & _ & [_ Hss]%StronglySorted_inv); constructor; [done|].
    eapply Forall_impl; [exact Hss|]; intros x; by apply key_lt_trans.
  - exists (slot + length l)%nat, [], []; split_and!; [done | lia | lia | apply pushed_none; lia | exact Hover].
Qed.

(** The runs a node's keys part into, a run for each child that gets any. *)
Lemma spread_ok h p inner low high s2 : forall s1 k1 k2 slot work,
  tasked (S h) (GNode p (s1 ++ s2) (k1 ++ k2)) (Z.lor INNER (Z.of_nat p), low, high) -> StronglySorted key_lt (s1 ++ s2) ->
  tb_inners t !! p = Some inner -> inner_rep B inner (s1 ++ s2) (map g_at (k1 ++ k2)) ->
  length s1 = length k1 -> length k2 = S (length s2) -> (low <= slot <= high)%nat ->
  (forall i key, (slot <= i < high)%nat -> keys !! i = Some key -> Forall (fun s => key_le s key) s1) ->
  exists new gs, foldm (spread_step inner keys high) (seq (length k1) (length k2)) (work, slot) = Ok (new ++ work, high)
    /\ Forall2 (tasked h) gs new /\ (sizes gs <= sizes k2)%nat
    /\ forall i, (slot <= i < high)%nat -> Exists (covers i) new.
Proof.
  induction s2 as [|sep s2 IH]; intros s1 k1 [|g k2] slot work Htask Hss Hi Hr Hl Hl2 Hslot Hle; try done; injection Hl2 as Hl2;
    cbn [length seq foldm].
  - apply nil_length_inv in Hl2 as ->; cbn [length seq foldm]; unfold spread_step; rewrite (ir_len _ _ _ _ Hr), length_app, Hl; cbn [length].
    destruct (Nat.leb_spec high slot); [assert (slot = high) as -> by lia; exists [], []; split_and!; [done | constructor | cbn; lia | lia]|].
    destruct (Nat.ltb_spec (length k1) (length k1 + 0)); [lia|]; res_simpl; destruct (Nat.ltb_spec slot high); [| lia].
    rewrite (proj2 (idx_Ok _ _ _) (kid_lookup B inner _ _ k1 g [] Hr eq_refl)); res_simpl.
    exists [(g_at g, slot, high)], [g]; split_and!; [done | | lia | intros i Hi'; by constructor].
    constructor; [| constructor]; apply (task_push h p inner low high s1 [] k1 g [] slot high Htask Hi Hr Hl); [lia | lia |].
    intros i key Hin Hkey; split; [by eapply Hle | apply Forall_nil_2].
  - destruct (spread_sep h p inner low high s1 sep s2 k1 g k2 slot work Htask Hss Hi Hr Hl Hslot Hle) as (end_ & new1 & gs1 & -> & Hend & (Hn1 & Hs1 & Hc1) & Hover).
    res_simpl; specialize (IH (s1 ++ [sep]) (k1 ++ [g]) k2 end_ (new1 ++ work)); rewrite !length_app, <- !app_assoc in IH; cbn [app length] in IH; rewrite !Nat.add_1_r in IH.
    destruct IH as (new2 & gs2 & E & Hn2 & Hs2 & Hc2); try done; [lia | lia | |].
    { intros i key Hin Hkey; apply Forall_app; split; [eapply Hle; [| exact Hkey]; lia|]; constructor; [by eapply Hover | constructor]. }
    rewrite E; exists (new2 ++ new1), (gs2 ++ gs1); rewrite <- app_assoc; split_and!; [done | by apply Forall2_app | |].
    + unfold sizes in *; rewrite sum_list_with_app; cbn [sum_list_with]; lia.
    + intros i Hin; apply Exists_app; destruct (Nat.le_gt_cases end_ i); [left; apply Hc2; lia | right; apply Hc1; lia].
Qed.

(** ** The work stack *)

Definition answered (out : list (option V)) (i : nat) : Prop := out !! i = assoc items <$> keys !! i.

Lemma leaf_run_ok g at_ low high out : tasked 0 g (at_, low, high) -> length out = length keys ->
  exists out', leaf_run scan t at_ keys low high out = Ok out' /\ length out' = length keys
    /\ forall i, answered out i \/ (low <= i < high)%nat -> answered out' i.
Proof.
  intros (-> & Hlh & Hrun) Hlen; unfold leaf_run; remember (high - low)%nat as n eqn:En; revert low out Hlh Hrun Hlen En.
  induction n as [|n IH]; intros low out Hlh Hrun Hlen En; [lia|]; cbn [seq foldm].
  destruct (lookup_lt_is_Some_2 keys low) as [key Hkey]; [lia|]; rewrite (proj2 (idx_Ok _ _ _) Hkey); res_simpl.
  destruct (Hrun low key) as (lo & hi & Hok & Hin & Hd); [lia | done|]; destruct g as [a its|]; [| done]; pose proof Hok as (_ & _ & _ & Ha & _).
  cbn [g_at descend] in *; rewrite is_inner_leaf in Hd by done; rewrite (answer_get t key (Z.of_nat a) Hroot (eq_sym Hd)).
  rewrite (get_ok scan B t items key Hholds) by (exact (Forall_lookup_1 _ _ _ _ Hwf Hkey)); res_simpl; rewrite set_idx_Ok by lia; res_simpl.
  assert (forall i, answered out i \/ i = low -> answered (<[low := assoc items key]> out) i) as Hset.
  { intros i Hi; unfold answered; destruct (decide (i = low)) as [->|Hne]; [rewrite list_lookup_insert_eq, Hkey by lia; done|].
    rewrite list_lookup_insert_ne by done; destruct Hi; [done | lia]. }
  destruct (decide (S low = high)) as [E|E]; [assert (n = 0%nat) as -> by lia; eexists; split; [done|]; rewrite length_insert; split; [done|]; intros i Hi; apply Hset; naive_solver lia|].
  destruct (IH (S low) (<[low := assoc items key]> out)) as (out' & -> & Hl' & Hout); [lia | intros i' k' ? ?; apply (Hrun i' k'); [lia | done] | by rewrite length_insert | lia |].
  exists out'; split_and!; [done | done |]; intros i Hi; apply Hout; destruct (decide (S low <= i < high)%nat); [by right | left; apply Hset; naive_solver lia].
Qed.

Lemma sorted_work_ok fuel : forall work gs out, Forall2 (fun g task => exists h, tasked h g task) gs work -> (sizes gs < fuel)%nat ->
  length out = length keys -> exists out', sorted_work scan fuel t keys work out = Ok out' /\ length out' = length keys
    /\ forall i, answered out i \/ Exists (covers i) work -> answered out' i.
Proof.
  induction fuel as [|fuel IH]; intros work gs out Hw Hsz Hlen; [lia|]; cbn [sorted_work].
  destruct Hw as [|g [[at_ low] high] gs work [h Htask] Hw]; [exists out; split_and!; [done | done |]; intros i [?|?%Exists_nil]; done|].
  cbn [sizes sum_list_with] in Hsz; fold (sizes gs) in Hsz; pose proof Htask as (-> & Hlh & Hrun); destruct (lookup_lt_is_Some_2 keys low) as [key Hkey]; [lia|].
  destruct (Hrun low key) as (lo & hi & Hok & _ & _); [lia | done |]; destruct h as [|h], g as [a its|p seps kids]; try done; cbn [g_at].
  - pose proof Hok as (_ & _ & _ & Ha & _); rewrite is_inner_leaf by done; cbn [negb].
    destruct (leaf_run_ok _ _ low high out Htask Hlen) as (out1 & E & Hl1 & Hout1); cbn [g_at] in E; rewrite E; res_simpl.
    destruct (IH work gs out1 Hw) as (out' & -> & Hl' & Hout'); [unfold g_size in Hsz; cbn in Hsz; lia | done |].
    exists out'; split_and!; [done | done |]; intros i Hi; apply Hout'; rewrite Exists_cons in Hi; unfold covers at 1 in Hi; cbn in Hi; naive_solver.
  - pose proof Hok as (Hp & (inner & Hi & Hr) & Hk); rewrite is_inner_node, slot_of_node, (proj2 (idx_Ok _ _ _) Hi) by lia; cbn [negb]; res_simpl.
    pose proof (kids_ok_length _ _ _ _ _ Hk) as Hlk; rewrite (ir_len _ _ _ _ Hr), Nat.add_1_r, <- Hlk.
    destruct (spread_ok h p inner low high seps [] [] kids low work Htask (node_seps_sorted _ _ _ _ _ _ _ Hk) Hi Hr) as (new & gs' & E & Hnew & Hsz' & Hcov);
      [done | done | lia | constructor |]; cbn [length] in E; rewrite E; res_simpl; rewrite g_size_node in Hsz.
    destruct (IH (new ++ work) (gs' ++ gs) out) as (out' & -> & Hl' & Hout').
    + apply Forall2_app; [| done]; eapply Forall2_impl; [exact Hnew|]; eauto.
    + unfold sizes in *; rewrite sum_list_with_app; lia.
    + done.
    + exists out'; split_and!; [done | done |]; intros i Hi'; apply Hout'; rewrite Exists_cons in Hi'; rewrite Exists_app.
      unfold covers at 1 in Hi'; cbn in Hi'; naive_solver.
Qed.

End runs.

(** A run of keys found in order is. *)
Lemma ordered_sorted keys : Forall key_wf keys -> ordered keys = true -> StronglySorted key_le (keys : list K).
Proof.
  intros Hwf Ho; apply Sorted_StronglySorted; [intros a b c; apply key_le_trans|].
  destruct Hwf as [|first keys Hf Hwf]; [constructor|]; cbn [ordered] in Ho; revert first Hf Ho; induction Hwf as [|key keys Hk _ IH]; intros first Hf Ho; [by repeat constructor|].
  cbn [ordered_from] in Ho; destruct ((head key <? head first) || _) eqn:E; [done|]; apply orb_false_iff in E as [E1%Z.ltb_ge E2].
  constructor; [by apply IH|]; constructor; destruct (Z.eqb_spec (head first) (head key)) as [Eh|Eh]; cbn [andb] in E2.
  - unfold key_le; by destruct (key_cmp first key).
  - apply key_lt_le, (lead_mono window_default); [apply default_inside | apply default_inside |]; rewrite !default_lead by done; lia.
Qed.

Lemma get_many_sorted_ok t items keys : holds B t items -> Forall key_wf keys ->
  TBTreeMap_get_many_sorted scan t keys = Ok (map (assoc items) keys).
Proof.
  intros Hh Hwf; unfold TBTreeMap_get_many_sorted; destruct (ordered keys) eqn:Ho; cbn [negb]; [| by apply get_many_ok].
  destruct (tb_root t =? NONE) eqn:Hroot; [rewrite orb_true_r | rewrite orb_false_r].
  { apply holds_cases in Hh as [[-> ->]|(h & g & Ht & _)]; [| by rewrite (root_not_none _ _ _ _ Ht) in Hroot].
    f_equal; clear; induction keys as [|k keys IH]; cbn; [done | by f_equal]. }
  destruct keys as [|k0 keys0] eqn:Ek; [done|]; rewrite <- Ek in *; assert (0 < length keys)%nat as Hpos by (subst; cbn; lia); clear Ek k0 keys0.
  pose proof Hh as [[-> ->]|(h & g & Ht & Eit)]%holds_cases; [done|]; pose proof (tr_node _ _ _ _ Ht) as Hok.
  destruct (sorted_work_ok t keys items Hroot Hh Hwf (ordered_sorted keys Hwf Ho) (S (length (tb_inners t) + length (tb_leaves t) + 1))
    [(tb_root t, 0%nat, length keys)] [g] (replicate (length keys) None)) as (out & -> & Hl & Hout).
  - constructor; [| constructor]; exists h; split_and!; [apply Ht | lia | lia |]; intros i key _ Hkey; exists None, None; split_and!; try done.
    destruct (lane_root t h g key Ht) as (target & -> & (g' & lo & hi & E & _ & _ & _ & Hd)); [exact (Forall_lookup_1 _ _ _ _ Hwf Hkey)|].
    by rewrite (tr_root _ _ _ _ Ht) in Hd.
  - pose proof (node_nodes _ _ _ _ _ _ Hok) as [Hn1 Hn2]; pose proof (NoDup_bounded _ _ (tr_leaves _ _ _ _ Ht) Hn1); pose proof (NoDup_bounded _ _ (tr_inners _ _ _ _ Ht) Hn2).
    cbn [sizes sum_list_with]; unfold g_size; lia.
  - apply length_replicate.
  - f_equal; apply list_eq; intros i; destruct (decide (i < length keys)%nat) as [Hi|Hi].
    + rewrite (Hout i); [by rewrite <- list_lookup_fmap|]; right; constructor; unfold covers; cbn; lia.
    + rewrite !lookup_ge_None_2; [done | rewrite length_map; lia | lia].
Qed.

End many.
