(* ===== verification/TBTreeBuild.v ===== *)
(** * Building the tree from sorted input ([index/tbtreemap.rs])

    [from_sorted] fills leaves one behind the other and raises levels of inner nodes over them, and
    [repack] runs a tree's own pairs through it. *)
From S2P Require Import Prelude Error Arrays Bytes TreeKey TBTree TBTreeRep TBTreeFind TBTreeOps TBTreeSplit TBTreeInsert TBTreeWalk.

Section build.
Context {K V : Type} `{TKL : TreeKeyLaws K} `{Inhabited V}.
Variable scan : Scan.
Variable B : nat.
Hypothesis HB : (3 <= B <= 256)%nat.
Implicit Types (t : @TBTreeMap K V _) (g : @gtree K V) (run : list (K * V)) (runs : list (list (K * V))).

(** ** Filling the leaves *)

Definition next_link (i n : nat) : Z := if (S i <? n)%nat then Z.of_nat (S i) else NONE.
Definition prev_link (i : nat) : Z := match i with O => NONE | S j => Z.of_nat j end.

(** The leaves filled so far, the last of them still under the window it was made with. *)
Record filling t runs : Prop := {
  fl_reps : Forall2 (leaf_rep B) (tb_leaves t) runs;
  fl_links i leaf : tb_leaves t !! i = Some leaf -> lf_next leaf = next_link i (length runs) /\ lf_prev leaf = prev_link i;
  fl_default leaf : last (tb_leaves t) = Some leaf -> lf_win leaf = window_default;
  fl_same : tb_inners t = [] /\ tb_root t = NONE /\ tb_first t = NONE;
  fl_len : tb_len t = length (concat runs);
}.

Lemma filling_snoc t runs run : filling t (runs ++ [run]) -> exists ls leaf, tb_leaves t = ls ++ [leaf] /\ length ls = length runs
  /\ Forall2 (leaf_rep B) ls runs /\ leaf_rep B leaf run /\ lf_win leaf = window_default
  /\ lf_next leaf = NONE /\ lf_prev leaf = prev_link (length runs).
Proof.
  intros [Hr Hl Hd _ _]; apply Forall2_app_inv_r in Hr as (ls & l2 & Hr & Hr2 & E); inversion Hr2 as [|leaf ? l3 ? Hlr Hn]; inversion Hn; subst.
  pose proof (Forall2_length _ _ _ Hr) as Hlen; exists ls, leaf; rewrite E in *; split_and!; try done; [apply Hd; by rewrite last_snoc | |];
    (destruct (Hl (length ls) leaf) as [En Ep]; [by apply list_lookup_middle|]); rewrite <- ?Hlen; [| done].
  rewrite En; unfold next_link; rewrite length_app, <- Hlen; cbn [length]; by destruct (Nat.ltb_spec (S (length ls)) (length ls + 1)); [lia|].
Qed.

Lemma insert_snoc {A} (l : list A) x y : <[length l := y]> (l ++ [x]) = l ++ [y].
Proof. by rewrite insert_app_r_alt, Nat.sub_diag by done. Qed.

(** The last leaf changed, its links kept. *)
Lemma filling_last t runs run run' ls leaf leaf' n : filling t (runs ++ [run]) -> tb_leaves t = ls ++ [leaf] -> length ls = length runs ->
  leaf_rep B leaf' run' -> lf_win leaf' = window_default -> lf_next leaf' = lf_next leaf -> lf_prev leaf' = lf_prev leaf ->
  n = length (concat (runs ++ [run'])) ->
  filling (mkTBTreeMap (ls ++ [leaf']) (tb_inners t) (tb_root t) (tb_first t) n) (runs ++ [run']).
Proof.
  intros [Hr Hl Hd Hs _] E Hlen Hr' Hw En Ep ->; rewrite E in *; constructor; cbn [tb_leaves tb_inners tb_root tb_first tb_len]; try done.
  - apply Forall2_app_inv in Hr as [? _]; [| done]; apply Forall2_app; [done | by constructor].
  - rewrite length_app in *; cbn [length] in *; intros i l Hi; destruct (decide (i = length ls)) as [->|Hne].
    + rewrite list_lookup_middle in Hi by done; injection Hi as <-; rewrite En, Ep; apply Hl; by apply list_lookup_middle.
    + apply Hl; pose proof (lookup_lt_Some _ _ _ Hi) as Hlt; rewrite length_app in Hlt; cbn [length] in Hlt; rewrite lookup_app_l in Hi |- * by lia; done.
  - rewrite last_snoc; by intros l [= <-].
Qed.

Lemma leaf_rep_push leaf run key (val : V) : leaf_rep B leaf run -> (length run < B)%nat -> key_wf key -> lf_win leaf = window_default ->
  leaf_rep B (mkLeaf (lf_len leaf + 1) (lf_win leaf) (<[length run := window_lead (lf_win leaf) key]> (lf_lead leaf)) (<[length run := key]> (lf_keys leaf))
    (<[length run := val]> (lf_vals leaf)) (lf_next leaf) (lf_prev leaf)) (run ++ [(key, val)]).
Proof.
  intros [H1 H2 H3 H4 H5 H6 H7 [Hw Hwf Hin Hlead]] Hfit Hk Ew; rewrite length_map in Hlead.
  assert (forall A (l : list A) x rest, length l = B -> take (length run) l = rest -> take (S (length run)) (<[length run := x]> l) = rest ++ [x]) as Htake.
  { intros A l x rest Hl <-; rewrite (take_S_r _ _ x) by (apply list_lookup_insert_eq; lia); by rewrite take_insert_ge. }
  constructor; cbn [lf_len lf_lead lf_keys lf_vals lf_win]; rewrite ?length_app, ?length_insert, ?Nat.add_1_r, ?map_app; cbn [length]; rewrite ?Nat.add_1_r; try done; try lia;
    [by apply Htake | by apply Htake |]; constructor; try done.
  - apply Forall_app; by repeat constructor.
  - apply Forall_app; split; [done|]; constructor; [| constructor]; rewrite Ew; apply default_inside.
  - rewrite length_app, length_map, map_app; cbn [map length]; rewrite Nat.add_1_r; by apply Htake.
Qed.

Lemma append_pair_ok t runs run key (val : V) : filling t (runs ++ [run]) -> (length run < B)%nat -> key_wf key ->
  exists t', append_pair t key val = Ok t' /\ filling t' (runs ++ [run ++ [(key, val)]]).
Proof.
  intros Hf Hfit Hk; destruct (filling_snoc _ _ _ Hf) as (ls & leaf & E & Hlen & _ & Hr & Hw & _).
  unfold append_pair; rewrite E, length_app; cbn [length]; replace (length ls + 1 - 1)%nat with (length ls) by lia.
  rewrite (proj2 (idx_Ok _ _ leaf)) by (by apply list_lookup_middle); res_simpl; rewrite (lr_len _ _ _ Hr).
  rewrite !set_idx_Ok by (rewrite ?(lr_leads _ _ _ Hr), ?(lr_keys _ _ _ Hr), ?(lr_vals _ _ _ Hr); lia); res_simpl; eexists; split; [done|].
  cbn [set_leaf tb_leaves tb_inners tb_root tb_first tb_len]; rewrite E, insert_snoc.
  apply (filling_last t runs run _ ls leaf _ _ Hf E Hlen); try done.
  - rewrite <- (lr_len _ _ _ Hr) at 1; by apply leaf_rep_push.
  - rewrite (fl_len _ _ Hf), !concat_app, !length_app; cbn [concat length]; rewrite !app_nil_r, length_app; cbn [length]; lia.
Qed.

Lemma retune_rep leaf run : leaf_rep B leaf run ->
  exists leaf', Leaf_retune leaf = Ok leaf' /\ leaf_rep B leaf' run /\ lf_next leaf' = lf_next leaf /\ lf_prev leaf' = lf_prev leaf.
Proof.
  intros [H1 H2 H3 H4 H5 H6 H7 [Hw Hwf Hin Hlead]].
  destruct (Leaf_retune_ok leaf (map fst run)) as (w & lead & -> & Hl & Hs); rewrite ?length_map in *; try done; try lia.
  eexists; split; [done|]; cbn; split_and!; [| done | done]; constructor; cbn; congruence || done.
Qed.

Lemma fresh_leaf_ok t runs : filling t runs -> Z.of_nat (length runs) < INNER ->
  exists t', fresh_leaf B t = Ok t' /\ filling t' (runs ++ [[]]).
Proof.
  intros Hf Hroom; unfold fresh_leaf; destruct runs as [|run runs _] using rev_ind.
  - pose proof (fl_reps _ _ Hf) as Hr; inversion Hr as [E|]; cbn [last length app Nat.sub Nat.ltb Nat.leb mbind res_bind]; eexists; split; [done|].
    constructor; cbn; [constructor; [apply empty_leaf_rep; exact HB | constructor] | | | apply Hf |].
    + intros [|i] leaf; cbn; [by intros [= <-] | done].
    + by intros leaf [= <-].
    + by rewrite (fl_len _ _ Hf).
  - destruct (filling_snoc _ _ _ Hf) as (ls & leaf & E & Hlen & Hls & Hr & Hw & En & Ep); rewrite E, last_snoc; rewrite length_app in *; cbn [length] in *.
    replace (length ls + 1 - 1)%nat with (length ls) by lia; destruct (retune_rep leaf run Hr) as (leaf' & -> & Hr' & En' & Ep'); res_simpl.
    rewrite insert_snoc, !length_app; cbn [length]; replace (length ls + 1 + 1 - 1)%nat with (S (length ls)) by lia; cbn [Nat.ltb Nat.leb Nat.sub].
    rewrite Nat.sub_0_r, <- app_assoc; cbn [app]; rewrite (proj2 (idx_Ok _ _ leaf')) by (by apply list_lookup_middle); res_simpl.
    rewrite insert_app_r_alt, Nat.sub_diag by done; cbn [insert list_insert].
    rewrite (proj2 (idx_Ok _ _ (empty_leaf B))) by (rewrite lookup_app_r by lia; by replace (S (length ls) - length ls)%nat with 1%nat by lia); res_simpl.
    rewrite insert_app_r_alt by lia; replace (S (length ls) - length ls)%nat with 1%nat by lia; cbn [insert list_insert].
    eexists; split; [done|]; change INNER with 2147483648 in Hroom; rewrite !as_u32_small by (unfold is_u32, U32; lia).
    constructor; cbn [put_leaves tb_leaves tb_inners tb_root tb_first tb_len].
    + rewrite <- app_assoc; apply Forall2_app; [done|]; constructor; [| constructor; [apply empty_leaf_rep; exact HB | constructor]].
      eapply leaf_rep_body; [| exact Hr']; by repeat split.
    + rewrite !length_app; cbn [length]; intros i l Hi; unfold next_link.
      destruct (decide (i = length ls)) as [->|N1]; [rewrite list_lookup_middle in Hi by done; injection Hi as <-; cbn [lf_next lf_prev]|].
      { destruct (Nat.ltb_spec (S (length ls)) (length runs + 1 + 1)); [| lia]; by rewrite Ep', Ep, Hlen. }
      destruct (decide (i = S (length ls))) as [->|N2].
      { rewrite lookup_app_r in Hi by lia; replace (S (length ls) - length ls)%nat with 1%nat in Hi by lia; injection Hi as <-; cbn [lf_next lf_prev empty_leaf].
        destruct (Nat.ltb_spec (S (S (length ls))) (length runs + 1 + 1)); [lia | done]. }
      pose proof (lookup_lt_Some _ _ _ Hi) as Hlt; rewrite length_app in Hlt; cbn [length] in Hlt; rewrite lookup_app_l in Hi by lia.
      destruct (fl_links _ _ Hf i l) as [E1 E2]; [rewrite E, lookup_app_l by lia; done|]; rewrite E1, E2, length_app; cbn [length]; unfold next_link.
      destruct (Nat.ltb_spec (S i) (length runs + 1)), (Nat.ltb_spec (S i) (length runs + 1 + 1)); try lia; done.
    + rewrite last_app; cbn; by intros l [= <-].
    + apply Hf.
    + rewrite (fl_len _ _ Hf), !concat_app; cbn [concat]; by rewrite !app_nil_r.
Qed.

(** Runs all full but the last, which holds something. *)
Definition shaped (fill : nat) runs : Prop :=
  runs = [] \/ exists full r, runs = full ++ [r] /\ Forall (fun run => length run = fill) full /\ (0 < length r <= fill)%nat.

Section fill.
Variable fill : nat.
Hypothesis Hfill : (1 <= fill <= B)%nat.

(** What the last leaf says of a key at or past every key so far. *)
Lemma last_repeats_ok t full r key : filling t (full ++ [r]) -> (0 < length r)%nat ->
  exists r' k v, r = r' ++ [(k, v)] /\ last_repeats t key = if key_eqb key k then (fun leaf => (leaf, length r')) <$> last (tb_leaves t) else None.
Proof.
  intros Hf Hr0; destruct (filling_snoc _ _ _ Hf) as (ls & leaf & E & _ & _ & Hr & _); unfold last_repeats; rewrite E, last_snoc, (lr_len _ _ _ Hr).
  destruct r as [|[k v] r' _] using rev_ind; [cbn in *; lia|]; exists r', k, v; split; [done|]; rewrite length_app, Nat.add_1_r; cbn [length].
  assert (lf_keys leaf !! length r' = Some k) as ->.
  { eapply lookup_of_take; [apply Hr|]; rewrite map_app; cbn [map fst]; by rewrite list_lookup_middle by (by rewrite length_map). }
  cbn; unfold key_eqb; destruct (key_cmp key k); by case_bool_decide.
Qed.

Lemma over_nil (key : K) : over ([] : list (K * V)) key.
Proof. constructor. Qed.

(** The value of a key repeated. *)
Lemma overwrite_ok t full r key (old val : V) : filling t (full ++ [r ++ [(key, old)]]) ->
  exists leaf t', last (tb_leaves t) = Some leaf /\ (vals ← set_idx (lf_vals leaf) (length r) val;
      Ok (set_leaf t (length (tb_leaves t) - 1) (mkLeaf (lf_len leaf) (lf_win leaf) (lf_lead leaf) (lf_keys leaf) vals (lf_next leaf) (lf_prev leaf)))) = Ok t'
    /\ filling t' (full ++ [r ++ [(key, val)]]).
Proof.
  intros Hf; destruct (filling_snoc _ _ _ Hf) as (ls & leaf & E & Hlen & _ & Hr & Hw & _); exists leaf; rewrite E, last_snoc.
  pose proof (lr_fits _ _ _ Hr) as Hfit; rewrite length_app in Hfit; cbn [length] in Hfit.
  rewrite set_idx_Ok by (rewrite (lr_vals _ _ _ Hr); lia); res_simpl; eexists; split_and!; [done | done |].
  rewrite length_app; cbn [length]; replace (length ls + 1 - 1)%nat with (length ls) by lia; unfold set_leaf; rewrite E, insert_snoc.
  apply (filling_last t full _ _ ls leaf _ _ Hf E Hlen); try done; [by apply (leaf_rep_set B) with (old := old)|].
  rewrite (fl_len _ _ Hf), !concat_app, !length_app; cbn [concat length]; by rewrite !app_nil_r, !length_app.
Qed.

Lemma sorted_step_ok t runs key (val : V) : filling t runs -> shaped fill runs -> StronglySorted key_lt (map fst (concat runs)) ->
  Forall (fun k => key_le k key) (map fst (concat runs)) -> key_wf key -> Z.of_nat (length runs) < INNER ->
  exists t' runs', sorted_step B fill t (key, val) = Ok t' /\ filling t' runs' /\ shaped fill runs' /\ concat runs' = with_item (concat runs) key val.
Proof.
  intros Hf Hsh Hsort Hle Hk Hroom; unfold sorted_step; destruct Hsh as [->|(full & r & -> & Hfull & Hr0)].
  - pose proof (fl_reps _ _ Hf) as Hreps; inversion Hreps as [E|]; unfold last_repeats; rewrite <- E; cbn [last].
    destruct (fresh_leaf_ok t [] Hf Hroom) as (t1 & -> & Hf1); res_simpl; destruct (append_pair_ok t1 [] [] key val Hf1) as (t2 & -> & Hf2); [cbn; lia | done|].
    exists t2, [[(key, val)]]; split_and!; [done | done | right; exists [], [(key, val)]; split_and!; [done | constructor | cbn; lia | cbn; lia] | done].
  - destruct (last_repeats_ok t full r key Hf ltac:(lia)) as (r' & k & v & -> & ->); rewrite concat_app in *; cbn [concat] in *; rewrite app_nil_r, app_assoc in *.
    rewrite map_app in Hsort, Hle; cbn [map fst] in *; apply StronglySorted_app in Hsort as (Hbelow & _ & _).
    apply Forall_app in Hle as [_ [Hle _]%Forall_cons]; cbn [fst] in *.
    assert (under (concat full ++ r') k) as Hu by (apply Forall_forall; intros x Hx; apply Hbelow; [done | by left]).
    destruct (key_eqb key k) eqn:Ek; [apply key_eqb_eq in Ek as <-|].
    + destruct (overwrite_ok t full r' key v val Hf) as (leaf & t' & -> & E & Hf'); cbn; rewrite E; exists t', (full ++ [r' ++ [(key, val)]]).
      split_and!; [done | done | right; exists full, (r' ++ [(key, val)]); rewrite length_app in *; by cbn in * |].
      rewrite concat_app; cbn [concat]; rewrite app_nil_r, app_assoc, with_item_mid; done.
    + assert (under ((concat full ++ r') ++ [(k, v)]) key) as Hu'.
      { assert (key_lt k key) as Hlt by (apply key_le_lteq in Hle as [?| ->]; [done|]; by rewrite (proj2 (key_eqb_eq key key) eq_refl) in Ek).
        apply under_app; split; [eapply Forall_impl; [exact Hu|]; intros x Hx; exact (key_lt_trans x k key Hx Hlt) | constructor; [done | constructor]]. }
      rewrite <- (app_nil_r ((concat full ++ r') ++ [(k, v)])), (with_item_gap _ [] key val Hu' (over_nil key)).
      destruct (filling_snoc _ _ _ Hf) as (ls & leaf & E & _ & _ & Hr & _); rewrite E, last_snoc, (lr_len _ _ _ Hr).
      destruct (Nat.eqb_spec (length (r' ++ [(k, v)])) fill) as [Ef|Ef].
      * destruct (fresh_leaf_ok t _ Hf Hroom) as (t1 & -> & Hf1); res_simpl; destruct (append_pair_ok t1 _ [] key val Hf1) as (t2 & -> & Hf2); [cbn; lia | done|].
        exists t2, ((full ++ [r' ++ [(k, v)]]) ++ [[(key, val)]]); split_and!; [done | done | |].
        -- right; exists (full ++ [r' ++ [(k, v)]]), [(key, val)]; split_and!; [done | apply Forall_app; split; [done | by repeat constructor] | cbn; lia | cbn; lia].
        -- rewrite !concat_app; cbn [concat]; by rewrite !app_nil_r, <- !app_assoc.
      * res_simpl; destruct (append_pair_ok t _ _ key val Hf) as (t2 & -> & Hf2); [lia | done|].
        exists t2, (full ++ [(r' ++ [(k, v)]) ++ [(key, val)]]); split_and!; [done | done | |].
        -- right; eexists full, _; split_and!; [done | done | rewrite length_app; cbn; lia | rewrite length_app; cbn; lia].
        -- rewrite !concat_app; cbn [concat]; by rewrite !app_nil_r, <- !app_assoc.
Qed.

Lemma shaped_length runs : shaped fill runs -> (length runs <= length (concat runs))%nat.
Proof.
  intros [->|(full & r & -> & Hf & Hr)]; [done|]; rewrite concat_app, !length_app; cbn [concat length]; rewrite app_nil_r.
  enough (length full <= length (concat full))%nat by lia; clear -Hfill Hf; induction Hf as [|x full Hx _ IH]; cbn [concat length]; [lia|]; rewrite length_app; lia.
Qed.

Lemma sorted_fold_ok (sorted : list (K * V)) : Forall key_wf (map fst sorted) -> StronglySorted key_le (map fst sorted) -> Z.of_nat (length sorted) < INNER ->
  exists t runs, foldm (sorted_step B fill) sorted TBTreeMap_new = Ok t /\ filling t runs /\ shaped fill runs /\ concat runs = collected sorted.
Proof.
  induction sorted as [|[key val] sorted IH] using rev_ind; intros Hwf Hsort Hroom.
  { exists TBTreeMap_new, []; split_and!; [done | | by left | done]; by constructor. }
  rewrite length_app in Hroom; cbn [length] in Hroom; rewrite map_app in Hwf, Hsort; apply Forall_app in Hwf as [Hwf [Hk _]%Forall_cons].
  apply StronglySorted_app in Hsort as (Hle & Hsort & _); cbn [map fst] in *; destruct IH as (t & runs & E & Hf & Hsh & Ec); [done | done | lia |].
  rewrite foldm_app, E; cbn [foldm mbind res_bind]; rewrite collected_snoc, <- Ec.
  destruct (sorted_step_ok t runs key val Hf Hsh) as (t' & runs' & E' & ? & ? & ?).
  - rewrite Ec; apply collected_sorted.
  - apply Forall_forall; intros k Hin; rewrite Ec in Hin; apply Hle; [by apply collected_keys | by left].
  - done.
  - pose proof (shaped_length _ Hsh); rewrite Ec in *; pose proof (collected_length sorted); lia.
  - exists t', runs'; rewrite E'; by split_and!.
Qed.

End fill.

(** ** Raising levels *)

(** No leaf of a subtree is empty. *)
Definition stocked g : Prop := Forall (fun part => part.2 <> []) (g_parts g).

Lemma stocked_kids p seps kids : stocked (GNode p seps kids) <-> Forall stocked kids.
Proof. unfold stocked at 1; cbn [g_parts]; rewrite Forall_concat, Forall_map; done. Qed.

Lemma stocked_some t h lo hi g : node_ok B t h lo hi g -> stocked g -> exists e, e ∈ g_items g.
Proof.
  intros Hok Hs; destruct (node_parts_ends B HB t h lo hi g Hok) as [(a & its & post & E) _]; unfold stocked, g_items in *; rewrite E in *.
  apply Forall_cons in Hs as [Hs _]; destruct its as [|e its]; [done|]; exists e; cbn; by left.
Qed.

(** Bounds change to any that hold what stocked subtrees hold. *)
Definition rebounds t h : Prop := forall lo hi lo' hi' g, node_ok B t h lo hi g -> stocked g -> Forall (within lo' hi') (map fst (g_items g)) -> node_ok B t h lo' hi' g.

Lemma kids_rebound t h lo hi lo' hi' seps kids : rebounds t h -> kids_ok (node_ok B t h) lo hi seps kids -> Forall stocked kids ->
  Forall (within lo' hi') (map fst (concat (map g_items kids))) -> kids_ok (node_ok B t h) lo' hi' seps kids.
Proof.
  intros IH; revert lo lo' kids; induction seps as [|s seps IHs]; intros lo lo' [|g kids] Hk Hs Hin; cbn [kids_ok] in *; try done; apply Forall_cons in Hs as [Hsg Hs].
  - destruct kids; [| done]; cbn [map concat] in Hin; rewrite app_nil_r in Hin; by eapply IH.
  - destruct Hk as [Hg Hk]; cbn [map concat] in Hin; rewrite map_app in Hin; apply Forall_app in Hin as [Hin1 Hin2]; split.
    + eapply IH; [exact Hg | done|]; apply node_ok_items in Hg as [Hg _]; rewrite Forall_forall in *; intros x Hx; split; [by apply Hin1 | by apply Hg].
    + eapply IHs; [exact Hk | done|]; apply (kids_ok_items _ _ _ _ _ (node_ok_lt B t h) (node_ok_items B t h)) in Hk as [Hk _].
      rewrite Forall_forall in *; intros x Hx; split; [by apply Hk | by apply Hin2].
Qed.

Lemma node_rebound t h : rebounds t h.
Proof.
  induction h as [|h IH]; intros lo hi lo' hi' g Hok Hs Hin; pose proof (stocked_some _ _ _ _ _ Hok Hs) as [[k v] He]; destruct g as [a its|a seps kids]; try done; cbn [node_ok] in *.
  - destruct Hok as (_ & _ & ? & ? & ?); rewrite g_items_leaf in *; split_and!; try done.
    assert (within lo' hi' k) as [Hl Hh] by (rewrite Forall_forall in Hin; apply Hin; by apply (list_elem_of_fmap_2 fst _ (k, v))).
    unfold bound_lt; destruct lo', hi'; try done; by eapply key_le_lt_trans.
  - destruct Hok as (Ha & Hi & Hk); split_and!; [done | done|]; rewrite node_items_app in Hin; apply stocked_kids in Hs; by eapply kids_rebound.
Qed.

(** A subtree of a level: its node and the leaves at its ends. *)
Record sub_of t (h : nat) (sub : Sub) g : Prop := {
  so_node : node_ok B t h None None g;
  so_at : sb_at sub = g_at g;
  so_low : sb_low sub = link (g_leaves g !! 0%nat);
  so_high : sb_high sub = link (last (g_leaves g));
  so_some : stocked g;
}.

(** The keys at a subtree's ends. *)
Lemma sub_ends t h sub g : sub_of t h sub g -> exists l r low high, idx (tb_leaves t) (Z.to_nat (sb_low sub)) = Ok l
  /\ idx (tb_leaves t) (Z.to_nat (sb_high sub)) = Ok r /\ idx (lf_keys l) 0 = Ok low /\ idx_before (lf_keys r) (lf_len r) = Ok high
  /\ map fst (g_items g) !! 0%nat = Some low /\ last (map fst (g_items g)) = Some high /\ key_wf low /\ key_wf high.
Proof.
  intros [Hok _ -> -> Hs]; destruct (node_parts_ends B HB t h None None g Hok) as [(a & its & post & E) Hlast].
  destruct (Hlast (S h) ltac:(lia)) as (pre & b & its' & E' & _).
  destruct (node_leaf_rep B t h None None g a its Hok) as (_ & l & Hl & Hrl); [rewrite E; set_solver|].
  destruct (node_leaf_rep B t h None None g b its' Hok) as (_ & r & Hr & Hrr); [rewrite E'; set_solver|].
  assert (its <> [] /\ its' <> []) as [N1 N2] by (unfold stocked in Hs; rewrite Forall_forall in Hs; split; [apply (Hs (a, its)); rewrite E | apply (Hs (b, its')); rewrite E']; set_solver).
  destruct its as [|[low v] its]; [done|]; destruct its' as [|[high v'] its' _] using rev_ind; [done|].
  exists l, r, low, high; unfold g_leaves, g_items; split_and!.
  - rewrite E; cbn [map fst lookup list_lookup link]; rewrite Nat2Z.id; by apply idx_Ok.
  - rewrite E', map_app; cbn [map fst]; rewrite last_snoc; cbn [link]; rewrite Nat2Z.id; by apply idx_Ok.
  - by destruct (leaf_pair B l _ 0%nat low v Hrl eq_refl).
  - rewrite (lr_len _ _ _ Hrr), length_app, Nat.add_1_r; cbn [length idx_before].
    by destruct (leaf_pair B r _ (length its') high v' Hrr (list_lookup_middle _ _ _ _ eq_refl)).
  - by rewrite E.
  - rewrite E', !map_app, concat_app, map_app; cbn [map snd concat]; rewrite app_nil_r, !map_app; cbn [map fst]; by rewrite app_assoc, last_snoc.
  - pose proof (sc_wf _ _ _ (lr_search _ _ _ Hrl)) as Hw; by apply Forall_cons in Hw as [? _].
  - pose proof (sc_wf _ _ _ (lr_search _ _ _ Hrr)) as Hw; rewrite map_app in Hw; by apply Forall_app in Hw as [_ [? _]%Forall_cons].
Qed.

Lemma sorted_last (l : list K) y : StronglySorted key_lt l -> last l = Some y -> Forall (fun x => key_le x y) l.
Proof.
  intros Hs (l' & ->)%last_Some; apply StronglySorted_app in Hs as (Hx & _ & _); apply Forall_app; split; [| constructor; [apply key_le_refl | constructor]].
  apply Forall_forall; intros x Hin; apply key_lt_le, Hx; [done | by left].
Qed.

Lemma sorted_first (l : list K) y : StronglySorted key_lt l -> l !! 0%nat = Some y -> Forall (key_le y) l.
Proof.
  destruct 1 as [|x l _ Hx]; cbn; [done|]; intros [= ->]; constructor; [apply key_le_refl|]; eapply Forall_impl; [exact Hx|]; intros z; apply key_lt_le.
Qed.

(** A run's node as it is put together. *)
Record rising t (h n : nat) (inner : @Inner K _) (seps : list K) (gs : list gtree) : Prop := {
  rg_len : in_len inner = n;
  rg_win : in_win inner = window_default;
  rg_leads : length (in_lead inner) = B;
  rg_lead : take (length seps) (in_lead inner) = map head seps;
  rg_kids : length (in_kids inner) = B;
  rg_kid : take (length gs) (in_kids inner) = map g_at gs;
  rg_spill : in_spill inner = spill_run seps;
  rg_wf : Forall key_wf seps;
  rg_ok : kids_ok (node_ok B t h) None None seps gs;
}.

Lemma take_set {A C} (f : C -> A) l (xs : list C) x : (length xs < length l)%nat -> take (length xs) l = map f xs ->
  take (length (xs ++ [x])) (<[length xs := f x]> l) = map f (xs ++ [x]).
Proof.
  intros Hl E; rewrite length_app, Nat.add_1_r, (take_S_r _ _ (f x)) by (by apply list_lookup_insert_eq); by rewrite take_insert_ge, E, map_app.
Qed.

(** The separator cut before a subtree. *)
Lemma run_sep t h sub1 sub2 gs g1 g2 seps : sub_of t h sub1 g1 -> sub_of t h sub2 g2 -> Forall stocked gs ->
  kids_ok (node_ok B t h) None None seps (gs ++ [g1]) -> StronglySorted key_lt (map fst (concat (map g_items ((gs ++ [g1]) ++ [g2])))) ->
  exists l r low high, idx (tb_leaves t) (Z.to_nat (sb_high sub1)) = Ok l /\ idx (tb_leaves t) (Z.to_nat (sb_low sub2)) = Ok r
    /\ idx_before (lf_keys l) (lf_len l) = Ok low /\ idx (lf_keys r) 0 = Ok high /\ let sep := (separator low high).1 in
      (separator low high).2 = whole /\ key_wf sep /\ kids_ok (node_ok B t h) None None (seps ++ [sep]) ((gs ++ [g1]) ++ [g2]).
Proof.
  intros Hs1 Hs2 Hst Hk Hsort; destruct (sub_ends _ _ _ _ Hs1) as (_ & l & _ & low & _ & El & _ & Elow & _ & Hlast & _ & Hwl).
  destruct (sub_ends _ _ _ _ Hs2) as (r & _ & high & _ & Er & _ & Ehigh & _ & Hfirst & _ & Hwh & _).
  exists l, r, low, high; split_and!; try done; rewrite map_app, concat_app, map_app in Hsort; apply StronglySorted_app in Hsort as (Hx & Ha & Hb).
  cbn [map concat] in Hx, Hb; rewrite app_nil_r in Hx, Hb.
  assert (last (map fst (concat (map g_items (gs ++ [g1])))) = Some low) as Hlast' by (rewrite map_app, concat_app; cbn [map concat]; rewrite app_nil_r, map_app, last_app, Hlast; done).
  assert (key_lt low high) as Hlt by (apply Hx; [by apply last_Some_elem_of | by eapply list_elem_of_lookup_2]).
  destruct (separator_between low high Hwl Hwh Hlt) as (Hw & Hlo & Hhi & Hwhole); cbv zeta; split_and!; [done | done |].
  apply (kids_ok_cut B HB _ None None seps _ [] (gs ++ [g1]) [g2]); [by apply kids_ok_length in Hk|]; split.
  - eapply kids_rebound; [apply node_rebound | exact Hk | apply Forall_app; split; [done | by constructor; [apply Hs1 | constructor]]|].
    eapply Forall_impl; [exact (sorted_last _ _ Ha Hlast')|]; intros x Hxl; split; [done | exact (key_le_lt_trans x low _ Hxl Hlo)].
  - eapply node_rebound; [apply Hs2 | apply Hs2 |]; eapply Forall_impl; [exact (sorted_first _ _ Hb Hfirst)|]; intros x Hxl; split; [exact (key_le_trans _ high x Hhi Hxl) | done].
Qed.

Lemma spill_run_snoc (seps : list K) sep n : length seps = n -> (n < 255)%nat ->
  (if whole then spill_run seps ++ [(Z.to_nat (as_u8 (as_u8 (Z.of_nat (S n)) - 1)), sep)] else spill_run seps) = spill_run (seps ++ [sep]).
Proof.
  intros <- Hn; unfold spill_run; destruct whole; [| done]; rewrite numbered_app; cbn [numbered]; do 2 f_equal; rewrite Nat.add_0_l; f_equal.
  rewrite !as_u8_small by (rewrite ?as_u8_small by (unfold is_u8, U8; lia); unfold is_u8, U8; lia); lia.
Qed.

Lemma run_slot_ok t h n (run : list Sub) inner seps gs g1 g2 sub1 sub2 : rising t h n inner seps (gs ++ [g1]) -> run !! length gs = Some sub1 ->
  sub_of t h sub1 g1 -> sub_of t h sub2 g2 -> Forall stocked gs -> (S (length gs) < B)%nat ->
  StronglySorted key_lt (map fst (concat (map g_items ((gs ++ [g1]) ++ [g2])))) ->
  exists inner' sep, run_slot t run inner (S (length gs), sub2) = Ok inner' /\ rising t h n inner' (seps ++ [sep]) ((gs ++ [g1]) ++ [g2]).
Proof.
  intros [H1 H2 H3 H4 H5 H6 H7 H8 H9] Hrun Hs1 Hs2 Hst Hfit Hsort; pose proof (kids_ok_length _ _ _ _ _ H9) as Hl; rewrite length_app, Nat.add_1_r in Hl; injection Hl as Hl.
  destruct (run_sep t h sub1 sub2 gs g1 g2 seps Hs1 Hs2 Hst H9 Hsort) as (l & r & low & high & El & Er & Elow & Ehigh & Hwhole & Hw & Hk).
  unfold run_slot; rewrite set_idx_Ok by lia; res_simpl; rewrite (proj2 (idx_Ok _ _ _) Hrun); res_simpl; rewrite El; res_simpl; rewrite Er; res_simpl.
  rewrite Elow; res_simpl; rewrite Ehigh; res_simpl; destruct (separator low high) as [sep b]; cbn [fst snd] in *; subst b.
  rewrite (set_idx_Ok (in_lead inner)) by lia; res_simpl; eexists _, sep; split; [done|].
  constructor; cbn [in_len in_win in_lead in_kids in_spill]; rewrite ?length_insert; try done.
  - rewrite Hl; apply take_set; [lia | done].
  - rewrite (so_at _ _ _ _ Hs2); replace (S (length gs)) with (length (gs ++ [g1])) by (rewrite length_app; cbn; lia); apply take_set; [rewrite length_app; cbn; lia | done].
  - rewrite H7; apply spill_run_snoc; lia.
  - apply Forall_app; by repeat constructor.
Qed.

(** The rest of a run behind a first subtree. *)
Lemma run_rest_ok t h n (run run2 : list Sub) : forall (run1 : list Sub) gs1 g1 gs2 inner seps, run = run1 ++ run2 -> Forall2 (sub_of t h) run1 (gs1 ++ [g1]) ->
  Forall2 (sub_of t h) run2 gs2 -> (length run <= B)%nat -> StronglySorted key_lt (map fst (concat (map g_items ((gs1 ++ [g1]) ++ gs2)))) ->
  rising t h n inner seps (gs1 ++ [g1]) ->
  exists inner' seps', foldm (run_slot t run) (imap (fun i sub => ((length run1 + i)%nat, sub)) run2) inner = Ok inner'
    /\ rising t h n inner' seps' ((gs1 ++ [g1]) ++ gs2).
Proof.
  induction run2 as [|sub2 run2 IH]; intros run1 gs1 g1 gs2 inner seps Erun Hf1 Hf2 Hlen Hsort Hr.
  { inversion Hf2; subst; rewrite (app_nil_r (gs1 ++ [g1])); by exists inner, seps. }
  inversion Hf2 as [|? g2 ? gs2' Hg2 Hf2']; subst gs2; pose proof (Forall2_length _ _ _ Hf1) as Hl1; rewrite length_app, Nat.add_1_r in Hl1.
  pose proof Hf1 as Hf1'; apply Forall2_app_inv_r in Hf1' as (run0 & rest & Hf0 & Hfr & ->); inversion Hfr as [|sub1 ? ? ? Hg1 Hn]; inversion Hn; subst.
  pose proof (Forall2_length _ _ _ Hf0) as Hl0; rewrite !length_app in Hlen; cbn [length] in Hlen, Hl1.
  rewrite (app_assoc (gs1 ++ [g1]) [g2] gs2' : (gs1 ++ [g1]) ++ g2 :: gs2' = _) in *; destruct (run_slot_ok t h n ((run0 ++ [sub1]) ++ sub2 :: run2) inner seps gs1 g1 g2 sub1 sub2 Hr)
    as (inner' & sep & E & Hr'); [rewrite <- app_assoc, <- Hl0; by apply list_lookup_middle | done | done | | lia | |].
  - clear -Hf0; induction Hf0 as [|? ? ? ? Hs _ IH]; constructor; [apply Hs | done].
  - rewrite map_app, concat_app, map_app in Hsort; by apply StronglySorted_app in Hsort as (_ & ? & _).
  - rewrite imap_cons; cbn [foldm]; rewrite Nat.add_0_r, Hl1, E; res_simpl.
    destruct (IH ((run0 ++ [sub1]) ++ [sub2]) (gs1 ++ [g1]) g2 gs2' inner' (seps ++ [sep])) as (inner'' & seps'' & E'' & Hr'').
    + by rewrite <- !app_assoc.
    + apply Forall2_app; [done | by constructor].
    + done.
    + rewrite !length_app; cbn [length]; lia.
    + done.
    + done.
    + exists inner'', seps''; split; [| done]; rewrite <- E''; f_equal; apply imap_ext; intros i x _; cbn; f_equal; rewrite !length_app; cbn [length]; lia.
Qed.

Lemma run_inner_ok t h (run : list Sub) gs : Forall2 (sub_of t h) run gs -> run <> [] -> (length run <= B)%nat ->
  StronglySorted key_lt (map fst (concat (map g_items gs))) ->
  exists inner seps, run_inner B t run = Ok inner /\ inner_rep B inner seps (map g_at gs) /\ kids_ok (node_ok B t h) None None seps gs.
Proof.
  intros Hf Hne Hlen Hsort; destruct Hf as [|sub g run gs Hg Hf]; [done|]; cbn [length] in Hlen; unfold run_inner; rewrite imap_cons; cbn [foldm run_slot].
  rewrite set_idx_Ok by (cbn; rewrite length_replicate; lia); res_simpl; set (inner0 := mkInner _ _ _ _ _).
  assert (rising t h (length (sub :: run) - 1) inner0 [] ([] ++ [g])) as Hr0.
  { constructor; cbn [in_len in_win in_lead in_kids in_spill empty_inner inner0 length app map]; rewrite ?length_insert, ?length_replicate; try done.
    - rewrite (take_S_r _ _ (g_at g)); [done|]; rewrite (so_at _ _ _ _ Hg); apply list_lookup_insert_eq; rewrite length_replicate; lia.
    - unfold spill_run; by destruct whole.
    - apply Hg. }
  destruct (run_rest_ok t h (length (sub :: run) - 1) (sub :: run) run [sub] [] g gs inner0 []) as (inner & seps & E & [H1 H2 H3 H4 H5 H6 H7 H8 H9]); try done; [by constructor|].
  cbn [app length] in *; rewrite (imap_ext _ (fun i s => ((1 + i)%nat, s))) by done; rewrite E; res_simpl; pose proof (kids_ok_length _ _ _ _ _ H9) as Hl; cbn [length] in Hl.
  pose proof (Forall2_length _ _ _ Hf) as Hlf; destruct (Inner_retune_ok inner seps) as (w & lead & -> & Hll & Hs); try done.
  - rewrite H2; apply default_ok.
  - lia.
  - lia.
  - intros _; rewrite H4, H2; apply map_ext_in; intros k Hk%list_elem_of_In; symmetry; apply default_lead; rewrite Forall_forall in H8; by apply H8.
  - eexists _, seps; split; [done|]; split; [| done]; constructor; cbn [in_len in_win in_lead in_kids in_spill]; try done; [lia | lia | lia | by rewrite <- Hl].
Qed.

(** ** One level *)

Lemma sub_frame t t' h sub g : tb_leaves t' = tb_leaves t -> (forall b inner, tb_inners t !! b = Some inner -> tb_inners t' !! b = Some inner) ->
  sub_of t h sub g -> sub_of t' h sub g.
Proof.
  intros El Ei [Hok ? ? ? ?]; constructor; try done; eapply node_ok_frame; [exact Hok|]; split; [| auto].
  intros a leaf _ Ha; exists leaf; rewrite El; split; [done | apply same_body_refl].
Qed.

Lemma concat_head {A C} (f : A -> list C) x l : f x <> [] -> concat (map f (x :: l)) !! 0%nat = f x !! 0%nat.
Proof. intros Hx; cbn [map concat]; rewrite lookup_app_l; [done|]; destruct (f x); [done | cbn; lia]. Qed.

Lemma concat_last {A C} (f : A -> list C) l x : f x <> [] -> last (concat (map f (l ++ [x]))) = last (f x).
Proof.
  intros Hx; rewrite map_app, concat_app; cbn [map concat]; rewrite app_nil_r, last_app; destruct (last (f x)) eqn:E; [done|]; by apply last_None in E.
Qed.

Lemma sub_leaves t h sub g : sub_of t h sub g -> g_leaves g <> [].
Proof. intros [Hok _ _ _ _]; destruct (node_parts_ends B HB t h None None g Hok) as [(a & its & post & E) _]; unfold g_leaves; by rewrite E. Qed.

(** A run raised under a node of its own. *)
Lemma raise_run_ok t h up (run : list Sub) gs : Forall2 (sub_of t h) run gs -> run <> [] -> (length run <= B)%nat ->
  StronglySorted key_lt (map fst (concat (map g_items gs))) -> Z.of_nat (length (tb_inners t)) < INNER - 1 ->
  exists inner seps sub, raise_run B (t, up) run = Ok (push_inner t inner, up ++ [sub])
    /\ sub_of (push_inner t inner) (S h) sub (GNode (length (tb_inners t)) seps gs).
Proof.
  intros Hf Hne Hlen Hsort Hroom; destruct (run_inner_ok t h run gs Hf Hne Hlen Hsort) as (inner & seps & E & Hr & Hk).
  unfold raise_run; rewrite E; res_simpl; destruct run as [|first run']; [done|]; inversion Hf as [|? g ? gs' Hg Hf']; subst; cbn [idx]; res_simpl.
  destruct (@exists_last _ (first :: run')) as (init & final & Ef); [done|].
  assert (idx_before (first :: run') (length (first :: run')) = Ok final) as ->.
  { rewrite Ef, length_app, Nat.add_1_r; cbn [length idx_before]; apply idx_Ok; by apply list_lookup_middle. }
  res_simpl; exists inner, seps; eexists; split; [done|]; cbn [push_inner tb_inners]; rewrite length_app, Nat.add_1_r; cbn [length]; rewrite arena_index_last by lia.
  constructor; cbn [sb_at sb_low sb_high]; [| done | | |].
  - cbn [node_ok]; split_and!; [done | exists inner; split; [cbn; by rewrite lookup_app_r, Nat.sub_diag by done | done] |].
    eapply kids_ok_impl; [| exact Hk]; intros lo hi g1 _ Hok; eapply node_ok_frame; [exact Hok|]; split; [intros a leaf _ Ha; exists leaf; split; [done | apply same_body_refl]|].
    intros b i _ Hb; cbn; by apply lookup_app_l_Some.
  - rewrite node_leaves_app, concat_head by (by eapply sub_leaves); apply Hg.
  - rewrite Ef in Hf; apply Forall2_app_inv_l in Hf as (gi & gl & _ & Hfl & Eg); inversion Hfl as [|? g2 ? ? Hg2 Hn]; inversion Hn; subst.
    rewrite node_leaves_app, Eg, concat_last by (by eapply sub_leaves); apply Hg2.
  - apply stocked_kids; clear -Hf; induction Hf as [|? ? ? ? Hs _ IH]; constructor; [apply Hs | done].
Qed.

(** Nothing but inner nodes was added. *)
Definition leaves_only t t' : Prop :=
  tb_leaves t' = tb_leaves t /\ tb_root t' = tb_root t /\ tb_first t' = tb_first t /\ tb_len t' = tb_len t
  /\ forall b inner, tb_inners t !! b = Some inner -> tb_inners t' !! b = Some inner.

Lemma leaves_only_push t inner : leaves_only t (push_inner t inner).
Proof. split_and!; try done; intros b i Hb; cbn; by apply lookup_app_l_Some. Qed.

Lemma leaves_only_trans t1 t2 t3 : leaves_only t1 t2 -> leaves_only t2 t3 -> leaves_only t1 t3.
Proof. intros (? & ? & ? & ? & Hi12) (? & ? & ? & ? & Hi23); split_and!; try congruence; auto. Qed.

Lemma subs_frame t t' h level gs : leaves_only t t' -> Forall2 (sub_of t h) level gs -> Forall2 (sub_of t' h) level gs.
Proof. intros (El & _ & _ & _ & Ei) Hf; eapply Forall2_impl; [exact Hf|]; intros; by eapply sub_frame. Qed.

Lemma subs_bound t h level gs : Forall2 (sub_of t h) level gs -> Forall (fun b => (b < length (tb_inners t))%nat) (concat (map g_inners gs)).
Proof.
  induction 1 as [|sub g level gs Hs _ IH]; cbn [map concat]; [constructor|]; apply Forall_app; split; [| done].
  by destruct (node_nodes _ _ _ _ _ _ (so_node _ _ _ _ Hs)).
Qed.

Lemma raise_runs_ok h (runs : list (list Sub)) : forall t up ups gs, Forall2 (sub_of t (S h)) up ups -> Forall2 (sub_of t h) (concat runs) gs ->
  Forall (fun c => c <> [] /\ (length c <= B)%nat) runs -> StronglySorted key_lt (map fst (concat (map g_items gs))) ->
  NoDup (concat (map g_inners (ups ++ gs))) -> Z.of_nat (length (tb_inners t) + length runs) < INNER ->
  exists t' up' ups', foldm (raise_run B) runs (t, up) = Ok (t', up') /\ Forall2 (sub_of t' (S h)) up' ups' /\ leaves_only t t'
    /\ concat (map g_parts ups') = concat (map g_parts (ups ++ gs)) /\ NoDup (concat (map g_inners ups'))
    /\ length up' = (length up + length runs)%nat /\ length (tb_inners t') = (length (tb_inners t) + length runs)%nat.
Proof.
  induction runs as [|run runs IH]; intros t up ups gs Hup Hf Hfit Hsort Hd Hroom; cbn [concat foldm length] in *.
  { inversion Hf; subst; rewrite app_nil_r in *; exists t, up, ups; split_and!; try done; lia. }
  apply Forall2_app_inv_l in Hf as (gs1 & gs2 & Hf1 & Hf2 & ->); apply Forall_cons in Hfit as [[Hne Hlen] Hfit].
  rewrite map_app, concat_app, map_app in Hsort; apply StronglySorted_app in Hsort as (_ & Hs1 & Hs2).
  destruct (raise_run_ok t h up run gs1 Hf1 Hne Hlen Hs1) as (inner & seps & sub & -> & Hsub); [lia|]; res_simpl.
  pose proof (leaves_only_push t inner) as Hlo; set (t1 := push_inner t inner) in *; set (G := GNode (length (tb_inners t)) seps gs1) in *.
  assert (length (tb_inners t1) = S (length (tb_inners t))) as Hlen1 by (cbn; rewrite length_app; cbn; lia).
  destruct (IH t1 (up ++ [sub]) (ups ++ [G]) gs2) as (t' & up' & ups' & E & Hup' & Hlo' & Ep & Hd' & Hl1 & Hl2).
  - apply Forall2_app; [by eapply subs_frame | constructor; [done | constructor]].
  - by eapply subs_frame.
  - done.
  - done.
  - pose proof (subs_bound _ _ _ _ Hup) as Hb1; pose proof (subs_bound _ _ _ _ Hf1) as Hb2; pose proof (subs_bound _ _ _ _ Hf2) as Hb3.
    eapply (NoDup_Permutation_proper _ (length (tb_inners t) :: concat (map g_inners (ups ++ gs1 ++ gs2)))).
    + subst G; rewrite !map_app, !concat_app; cbn [map concat g_inners]; rewrite app_nil_r; solve_Permutation.
    + apply NoDup_cons; split; [| done]; rewrite !map_app, !concat_app, !elem_of_app; rewrite Forall_forall in Hb1, Hb2, Hb3.
      intros [Hin|[Hin|Hin]]; [apply Hb1 in Hin | apply Hb2 in Hin | apply Hb3 in Hin]; cbv beta in Hin; lia.
  - rewrite Hlen1; lia.
  - exists t', up', ups'; rewrite length_app in Hl1; cbn [length] in Hl1; split_and!; [done | done | by eapply leaves_only_trans | | done | lia | lia].
    rewrite Ep; subst G; rewrite !map_app, !concat_app; cbn [map concat g_parts]; by rewrite app_nil_r, <- app_assoc.
Qed.

Lemma parts_items_eq (gs gs' : list gtree) : concat (map g_parts gs) = concat (map g_parts gs') -> concat (map g_items gs) = concat (map (@g_items K V) gs').
Proof.
  assert (forall ks : list (@gtree K V), concat (map g_items ks) = concat (map snd (concat (map g_parts ks)))) as E.
  { induction ks as [|k ks IH]; cbn [map concat]; [done|]; by rewrite map_app, concat_app, IH. }
  intros Ep; by rewrite !E, Ep.
Qed.

(** The levels raised to one node. *)
Lemma raise_levels_ok fuel : forall t h level gs, Forall2 (sub_of t h) level gs -> (0 < length level <= fuel)%nat ->
  StronglySorted key_lt (map fst (concat (map g_items gs))) -> NoDup (concat (map g_inners gs)) ->
  Z.of_nat (length (tb_inners t) + length level) < INNER ->
  exists t' h' sub g, raise_levels B fuel t level = Ok (t', [sub]) /\ sub_of t' h' sub g /\ leaves_only t t'
    /\ g_parts g = concat (map g_parts gs) /\ NoDup (g_inners g)
    /\ (length (tb_inners t') < length (tb_inners t) + length level)%nat.
Proof.
  induction fuel as [|fuel IH]; intros t h level gs Hf Hlen Hsort Hd Hroom; [lia|]; cbn [raise_levels]; destruct (Nat.ltb_spec 1 (length level)) as [Hlt|Hge].
  - pose proof (chunks_of_concat B level (length level) ltac:(lia) ltac:(lia)) as Ec; pose proof (chunks_of_fit B level (length level) ltac:(lia)) as Hfit.
    destruct (chunks_of_count B level (length level)) as [Hpos Hcount]; [lia | lia | by destruct level; [cbn in Hlt; lia|]|].
    set (runs := chunks_of (length level) B level) in *; assert (2 * length runs <= length level)%nat as Hhalf by nia.
    destruct (raise_runs_ok h runs t [] [] gs) as (t1 & up & ups & -> & Hup & Hlo & Ep & Hd1 & Hl1 & Hl2); try done; [by rewrite Ec | lia |]; res_simpl.
    cbn [app length] in *; destruct (IH t1 (S h) up ups Hup) as (t' & h' & sub & g & -> & Hs & Hlo' & Ep' & Hd' & Hl'); [lia | | done | lia |].
    + by rewrite (parts_items_eq _ _ Ep).
    + exists t', h', sub, g; split_and!; [done | done | by eapply leaves_only_trans | congruence | done | lia].
  - destruct level as [|sub [|]]; cbn [length] in *; try lia; inversion Hf as [|? g ? gs' Hs Hn]; inversion Hn; subst; cbn [map concat] in *; rewrite app_nil_r in *.
    exists t, h, sub, g; split_and!; try done; lia.
Qed.

(** ** From the leaves to the tree *)

Lemma linked_seq t n : length (tb_leaves t) = n ->
  (forall i leaf, tb_leaves t !! i = Some leaf -> lf_next leaf = next_link i n /\ lf_prev leaf = prev_link i) -> linked t (seq 0 n).
Proof.
  intros Hn Hl; enough (forall k i, (i + k = n)%nat -> linked_from t (match i with O => None | S j => Some j end) (seq i k)) as Hall by (by apply (Hall n 0%nat)).
  induction k as [|k IH]; intros i Hi; cbn [seq linked_from]; [done|]; split; [| apply (IH (S i)); lia].
  destruct (lookup_lt_is_Some_2 (tb_leaves t) i) as [leaf Hleaf]; [lia|]; exists leaf; destruct (Hl i leaf Hleaf) as [-> ->]; split_and!; [done | |].
  - unfold next_link; destruct k as [|k]; cbn [seq lookup list_lookup link]; [destruct (Nat.ltb_spec (S i) n); [lia | done]|].
    by destruct (Nat.ltb_spec (S i) n); [| lia].
  - by destruct i.
Qed.

(** A level of leaves. *)
Fixpoint leaf_level (i : nat) runs : list gtree := match runs with [] => [] | run :: runs => GLeaf i run :: leaf_level (S i) runs end.

Lemma leaf_level_spec i runs : concat (map g_items (leaf_level i runs)) = concat runs /\ concat (map (@g_inners K V) (leaf_level i runs)) = []
  /\ map fst (concat (map g_parts (leaf_level i runs))) = seq i (length runs).
Proof.
  revert i; induction runs as [|run runs IH]; intros i; cbn [leaf_level map concat length seq]; [done|].
  destruct (IH (S i)) as (E1 & E2 & E3); rewrite E1, E2, map_app, E3, g_items_leaf; done.
Qed.

Lemma leaf_level_ok t runs : Forall2 (leaf_rep B) (tb_leaves t) runs -> Forall (fun run => run <> []) runs ->
  StronglySorted key_lt (map fst (concat runs)) -> Z.of_nat (length runs) < INNER ->
  Forall2 (sub_of t 0) (map (fun at_ => mkSub (as_u32 (Z.of_nat at_)) (as_u32 (Z.of_nat at_)) (as_u32 (Z.of_nat at_))) (seq 0 (length runs))) (leaf_level 0 runs).
Proof.
  intros Hr Hne Hs Hroom; enough (forall ls i, Forall2 (leaf_rep B) ls runs -> (forall j, ls !! j = tb_leaves t !! (i + j)%nat) -> Z.of_nat (i + length runs) < INNER ->
    Forall2 (sub_of t 0) (map (fun at_ => mkSub (as_u32 (Z.of_nat at_)) (as_u32 (Z.of_nat at_)) (as_u32 (Z.of_nat at_))) (seq i (length runs))) (leaf_level i runs)) as Hall by (by apply (Hall (tb_leaves t) 0%nat)).
  clear Hr Hroom; induction runs as [|run runs IH]; intros ls i Hr Hls Hroom; cbn [leaf_level length seq map]; [constructor|].
  inversion Hr as [|leaf ? ls' ? Hlr Hr']; subst; apply Forall_cons in Hne as [Hne1 Hne]; cbn [concat length] in *; rewrite map_app in Hs; apply StronglySorted_app in Hs as (_ & Hs1 & Hs2).
  change INNER with 2147483648 in *; constructor; [| apply (IH Hne Hs2 ls'); [done | | change INNER with 2147483648; lia]].
  - rewrite as_u32_small by (unfold is_u32, U32; lia); constructor; cbn [sb_at sb_low sb_high]; [| done | done | done | by repeat constructor].
    cbn [node_ok]; change INNER with 2147483648; split_and!; try done; [by apply Forall_true | lia |]; exists leaf; split; [| done]; rewrite <- (Nat.add_0_r i), <- Hls; done.
  - intros j; specialize (Hls (S j)); cbn [lookup list_lookup] in Hls; replace (S i + j)%nat with (i + S j)%nat by lia; exact Hls.
Qed.

Lemma div_up_shaped fill full r : (1 <= fill)%nat -> Forall (fun run => length run = fill) full -> (0 < length r <= fill)%nat ->
  length (full ++ [r]) = div_up (length (concat (full ++ [r : list (K * V)]))) fill.
Proof.
  intros Hfill Hfull Hr; assert (length (concat full) = fill * length full)%nat as Ec.
  { induction Hfull as [|x full Hx _ IH]; cbn [concat length]; [lia|]; rewrite length_app, IH, Hx; lia. }
  rewrite concat_app, !length_app; cbn [concat length]; rewrite app_nil_r, Ec; unfold div_up.
  replace (fill * length full + length r + fill - 1)%nat with ((length full + 1) * fill + (length r - 1))%nat by nia.
  rewrite Nat.div_add_l, Nat.div_small by lia; lia.
Qed.

(** The last leaf closed too. *)
Lemma close_last t runs run : filling t (runs ++ [run]) -> exists leaf leaf', last (tb_leaves t) = Some leaf /\ Leaf_retune leaf = Ok leaf'
  /\ let leaves := <[(length (tb_leaves t) - 1)%nat := leaf']> (tb_leaves t) in Forall2 (leaf_rep B) leaves (runs ++ [run])
  /\ forall i leaf, leaves !! i = Some leaf -> lf_next leaf = next_link i (length (runs ++ [run])) /\ lf_prev leaf = prev_link i.
Proof.
  intros Hf; destruct (filling_snoc _ _ _ Hf) as (ls & leaf & E & Hlen & Hls & Hr & _); destruct (retune_rep leaf run Hr) as (leaf' & Er & Hr' & En & Ep).
  exists leaf, leaf'; rewrite E, last_snoc, length_app; cbn [length]; replace (length ls + 1 - 1)%nat with (length ls) by lia; rewrite insert_snoc; split_and!; [done | done | |].
  - apply Forall2_app; [done | by constructor].
  - intros i l Hi; destruct (decide (i = length ls)) as [->|Hne].
    + rewrite list_lookup_middle in Hi by done; injection Hi as <-; rewrite En, Ep; apply Hf; rewrite E; by apply list_lookup_middle.
    + pose proof (lookup_lt_Some _ _ _ Hi) as Hlt; rewrite length_app in Hlt; cbn [length] in Hlt; apply Hf; rewrite E, lookup_app_l in * by lia; done.
Qed.

Lemma shaped_stocked fill runs : (1 <= fill)%nat -> shaped fill runs -> Forall (fun run => run <> []) runs.
Proof.
  intros Hfill [->|(full & r & -> & Hf & Hr)]; [constructor|]; apply Forall_app; split; [| constructor; [by destruct r; [cbn in Hr; lia|] | constructor]].
  eapply Forall_impl; [exact Hf|]; intros run Hrun ->; cbn in Hrun; lia.
Qed.

(** Leaves filled and chained, raised to a tree. *)
Lemma raise_tree t runs : (0 < length runs)%nat -> Forall2 (leaf_rep B) (tb_leaves t) runs ->
  (forall i leaf, tb_leaves t !! i = Some leaf -> lf_next leaf = next_link i (length runs) /\ lf_prev leaf = prev_link i) ->
  Forall (fun run => run <> []) runs -> StronglySorted key_lt (map fst (concat runs)) -> Z.of_nat (length runs) < 2 ^ 30 ->
  tb_inners t = [] -> tb_first t = 0 -> tb_len t = length (concat runs) ->
  exists t' sub, raise_levels B (length runs) t
      (map (fun at_ => mkSub (as_u32 (Z.of_nat at_)) (as_u32 (Z.of_nat at_)) (as_u32 (Z.of_nat at_))) (seq 0 (length runs))) = Ok (t', [sub])
    /\ tb_leaves t' = tb_leaves t
    /\ holds B (mkTBTreeMap (tb_leaves t') (tb_inners t') (sb_at sub) (tb_first t') (tb_len t')) (concat runs).
Proof.
  intros Hpos Hr Hl Hne Hs Hroom Ei Ef En; assert (INNER = 2 ^ 31) as EI by done; pose proof (leaf_level_ok t runs Hr Hne Hs ltac:(lia)) as Hlv; set (level := map (fun at_ => mkSub _ _ _) _) in *.
  destruct (leaf_level_spec 0 runs) as (E1 & E2 & E3); assert (length level = length runs) as Hll by (subst level; by rewrite length_map, length_seq).
  destruct (raise_levels_ok (length runs) t 0 level (leaf_level 0 runs) Hlv) as (t' & h & sub & g & E & Hsub & (El & _ & Ef' & En' & _) & Ep & Hd & _);
    rewrite ?E1, ?E2, ?Ei, ?Hll; cbn [length]; try done; [constructor | lia |].
  assert (g_leaves g = seq 0 (length runs)) as Hleaves by (unfold g_leaves; by rewrite Ep).
  assert (g_items g = concat runs) as Hitems by (rewrite <- E1, <- (app_nil_r (g_items g)); apply (parts_items_eq [g]); cbn [map concat]; by rewrite app_nil_r).
  exists t', sub; split_and!; [done | done|]; right; exists h, g; split; [| done]; constructor; cbn [tb_root tb_first tb_len].
  - eapply node_ok_frame; [apply Hsub|]; split; [| done]; intros a leaf _ Ha; exists leaf; split; [done | apply same_body_refl].
  - apply Hsub.
  - rewrite Ef', Ef, Hleaves; by destruct (length runs); [lia|].
  - by rewrite En', En, Hitems.
  - rewrite Hleaves; apply NoDup_seq.
  - done.
  - rewrite Hleaves; pose proof (Forall2_length _ _ _ Hr) as Hlen; apply linked_seq; cbn [tb_leaves]; rewrite El; [done | exact Hl].
Qed.

(** Sorted input becomes a tree of what it holds, its leaves filled to the mark. *)
Lemma from_sorted_ok (sorted : list (K * V)) fill : Forall key_wf (map fst sorted) -> StronglySorted key_le (map fst sorted) -> Z.of_nat (length sorted) < 2 ^ 30 ->
  exists t, TBTreeMap_from_sorted B sorted fill = Ok t /\ holds B t (collected sorted)
    /\ length (tb_leaves t) = div_up (length (collected sorted)) (Nat.max 1 (Nat.min fill B)).
Proof.
  intros Hwf Hsort Hroom; unfold TBTreeMap_from_sorted; set (mark := Nat.max 1 (Nat.min fill B)); assert (1 <= mark <= B)%nat as Hmark by lia; clearbody mark.
  assert (INNER = 2 ^ 31) as EI by done; destruct (sorted_fold_ok mark Hmark sorted Hwf Hsort) as (t0 & runs & -> & Hf & Hsh & Ec); [lia|]; res_simpl.
  pose proof (shaped_length mark Hmark runs Hsh) as Hlr; rewrite Ec in Hlr; pose proof (collected_length sorted) as Hlc.
  pose proof (shaped_stocked mark runs ltac:(lia) Hsh) as Hst; rewrite <- Ec; pose proof (collected_sorted sorted) as Hcs; rewrite <- Ec in Hcs.
  pose proof (fl_same _ _ Hf) as (Ei & Er & Ef); pose proof (fl_len _ _ Hf) as En; destruct Hsh as [->|(full & r & -> & Hfull & Hr)].
  - pose proof (fl_reps _ _ Hf) as Hreps; inversion Hreps as [E|]; cbn [last]; exists t0; rewrite <- E; split; [done|].
    split; [| unfold div_up; cbn; symmetry; apply Nat.div_small; lia]; left; split; [| done]; destruct t0; cbn in *; unfold TBTreeMap_new; by subst.
  - destruct (close_last t0 full r Hf) as (leaf & leaf' & -> & -> & Hreps & Hlinks); res_simpl; set (t1 := mkTBTreeMap _ _ _ _ _).
    pose proof (Forall2_length _ _ _ Hreps) as Hlen; cbv zeta in Hreps, Hlinks, Hlen.
    destruct (raise_tree t1 (full ++ [r])) as (t' & sub & E & El & Hh); cbn [t1 tb_leaves tb_inners tb_first tb_len]; try done; [rewrite length_app; cbn; lia | lia |].
    rewrite length_map, length_seq, !Hlen, E; res_simpl; eexists; split; [done|]; split; [exact Hh|].
    cbn [tb_leaves]; rewrite El; cbn [t1 tb_leaves]; rewrite Hlen; by apply div_up_shaped; [lia|..].
Qed.

Lemma collected_distinct (sorted : list (K * V)) : StronglySorted key_lt (map fst sorted) -> collected sorted = sorted.
Proof.
  induction sorted as [|[key val] sorted IH] using rev_ind; intros Hs; [done|]; rewrite map_app in Hs; apply StronglySorted_app in Hs as (Hx & Hs & _).
  rewrite collected_snoc, IH by done; rewrite <- (app_nil_r sorted) at 1; apply with_item_gap; [| apply over_nil].
  apply Forall_forall; intros x Hin; apply Hx; [done | by left].
Qed.

Lemma holds_wf t items : holds B t items -> Forall key_wf (map fst items).
Proof.
  intros [[-> ->]|(h & g & Ht & ->)]%holds_cases; [constructor|]; apply Forall_forall; intros k (e & -> & He)%list_elem_of_fmap; unfold g_items in He.
  apply elem_of_concat in He as (its & He & (p & -> & Hp)%list_elem_of_fmap); destruct p as [a its].
  destruct (node_leaf_rep B t h None None g a its (tr_node _ _ _ _ Ht) Hp) as (_ & leaf & _ & Hr); pose proof (sc_wf _ _ _ (lr_search _ _ _ Hr)) as Hw.
  rewrite Forall_forall in Hw; apply Hw; by apply list_elem_of_fmap_2.
Qed.

(** A tree packed again holds what it held, in as few leaves as the mark allows. *)
Lemma repack_ok t items fill : holds B t items -> Z.of_nat (length items) < 2 ^ 30 ->
  exists t', TBTreeMap_repack B t fill = Ok t' /\ holds B t' items
    /\ (tb_root t <> NONE -> length (tb_leaves t') = div_up (length items) (Nat.max 1 (Nat.min fill B))).
Proof.
  intros Hh Hroom; unfold TBTreeMap_repack; pose proof Hh as [[-> ->]|(h & g & Ht & ->)]%holds_cases; [exists TBTreeMap_new; split_and!; [done | by left | done]|].
  rewrite (root_not_none _ _ _ _ Ht), (tree_chain B HB _ _ _ Ht); res_simpl; rewrite (chain_read B t _ leaf_pairs (fun its => its) (tree_chained B _ _ _ Ht)); res_simpl.
  - change (concat _) with (g_items g); pose proof (node_ok_items _ _ _ _ _ _ (tr_node _ _ _ _ Ht)) as [_ Hs].
    destruct (from_sorted_ok (g_items g) fill) as (t' & -> & Hh' & Hl); [by eapply holds_wf | | done |].
    + eapply StronglySorted_impl; [| exact Hs]; intros; by apply key_lt_le.
    + rewrite collected_distinct in * by done; eauto.
  - intros leaf its Hr; unfold leaf_pairs; destruct (leaf_fronts B _ _ Hr) as [-> ->]; res_simpl; f_equal; apply zip_fst_snd.
Qed.

End build.
