(* ===== verification/TBTreeMap.v ===== *)
(** * The tree as an ordered map ([index/tbtreemap.rs])

    The theorems of [TBTreeMap]: over any history of changes the tree answers as the ordered map
    those changes spell, whichever scan the processor has and whatever the width of a node. *)
From S2P Require Import Prelude Error Arrays Bytes TreeKey TBTree TBTreeRep TBTreeFind TBTreeOps TBTreeSplit TBTreeInsert TBTreeWalk TBTreeMany TBTreeBuild.

(** ** Changes *)

(** The operations that change a tree. *)
Inductive Change (K V : Type) :=
| Insert (key : K) (val : V)
| Remove (key : K)
| RemovePacked (key : K)
| Write (key : K) (write : V -> V)
| Repack (fill : nat)
| Clear.
Arguments Insert {K V}.
Arguments Remove {K V}.
Arguments RemovePacked {K V}.
Arguments Write {K V}.
Arguments Repack {K V}.
Arguments Clear {K V}.

Section map.
Context {K V : Type} `{TKL : TreeKeyLaws K} `{Inhabited V}.
Variable scan : Scan.
Variable B : nat.
Hypothesis HB : (3 <= B <= 256)%nat.
Implicit Types (t : @TBTreeMap K V _) (items : list (K * V)).

(** What the tree makes of a change, with what the change answers. *)
Definition change_tree t (c : Change K V) : res (TBTreeMap * option V) :=
  match c with
  | Insert key val => TBTreeMap_insert scan B t key val
  | Remove key => TBTreeMap_remove scan t key
  | RemovePacked key => TBTreeMap_remove_packed scan B t key
  | Write key write => changed ← TBTreeMap_get_mut scan t key write; Ok (default t changed, None)
  | Repack fill => t ← TBTreeMap_repack B t fill; Ok (t, None)
  | Clear => Ok (TBTreeMap_clear t, None)
  end.

(** What the ordered map makes of it. *)
Definition change_items items (c : Change K V) : list (K * V) * option V :=
  match c with
  | Insert key val => (with_item items key val, assoc items key)
  | Remove key | RemovePacked key => (without items key, assoc items key)
  | Write key write => (match assoc items key with Some val => with_item items key (write val) | None => items end, None)
  | Repack _ => (items, None)
  | Clear => ([], None)
  end.

Definition change_wf (c : Change K V) : Prop :=
  match c with Insert key _ | Remove key | RemovePacked key | Write key _ => key_wf key | Repack _ | Clear => True end.

(** Room in the arenas for the nodes an insert may make, and no more pairs than a rebuild can index. *)
Definition has_room t items (c : Change K V) : Prop :=
  match c with
  | Insert _ _ => roomy t
  | RemovePacked _ | Repack _ => Z.of_nat (length items) < 2 ^ 30
  | Remove _ | Write _ _ | Clear => True
  end.

(** ** Packing *)

Lemma without_length items key : (length (without items key) <= length items)%nat.
Proof. apply filter_length_le. Qed.

(** A tree packed full owes no packing. *)
Lemma packed_not_owed t items : holds B t items -> length (tb_leaves t) = div_up (length items) B -> TBTreeMap_repack_owed B t = false.
Proof.
  intros Hh El; assert (tb_len t = length items) as En by (apply holds_cases in Hh as [[-> ->]|(h & g & Ht & ->)]; [done | apply Ht]).
  unfold TBTreeMap_repack_owed; rewrite El, En; destruct (Nat.ltb_spec 1 (div_up (length items) B)); [| done]; cbn [andb]; apply Nat.leb_gt; lia.
Qed.

Lemma remove_packed_ok t items key : holds B t items -> key_wf key -> Z.of_nat (length items) < 2 ^ 30 ->
  exists t', TBTreeMap_remove_packed scan B t key = Ok (t', assoc items key) /\ holds B t' (without items key)
    /\ (assoc items key <> None -> TBTreeMap_repack_owed B t' = false).
Proof.
  intros Hh Hwf Hroom; unfold TBTreeMap_remove_packed; destruct (remove_ok scan B HB t items key Hh Hwf) as (t1 & -> & Hh1 & _); res_simpl.
  destruct (assoc items key) as [held|]; [| by exists t1]; destruct (TBTreeMap_repack_owed B t1) eqn:Eo; [| exists t1; by split_and!].
  pose proof (without_length items key) as Hl; destruct (repack_ok B HB t1 _ B Hh1) as (t' & -> & Hh' & Hleaves); [lia|]; res_simpl.
  exists t'; split_and!; [done | done |]; intros _; apply (packed_not_owed t' _ Hh'); rewrite Nat.min_id, Nat.max_r in Hleaves by lia; apply Hleaves.
  intros Eroot; apply holds_cases in Hh1 as [[-> _]|(h & g & Ht & _)]; [done|]; pose proof (root_not_none _ _ _ _ Ht) as En; by apply Z.eqb_neq in En.
Qed.

(** Every change does to the tree what it does to the map. *)
Lemma change_ok t items c : holds B t items -> change_wf c -> has_room t items c ->
  exists t', change_tree t c = Ok (t', (change_items items c).2) /\ holds B t' (change_items items c).1.
Proof.
  intros Hh Hwf Hroom; destruct c as [key val|key|key|key write|fill|]; cbn [change_tree change_items change_wf has_room fst snd] in *.
  - by apply insert_ok.
  - destruct (remove_ok scan B HB t items key Hh Hwf) as (t' & E & Hh' & _); eauto.
  - destruct (remove_packed_ok t items key Hh Hwf Hroom) as (t' & E & Hh' & _); eauto.
  - pose proof (get_mut_ok scan B HB t items key write Hh Hwf) as Hg; destruct (assoc items key) as [val|]; [destruct Hg as (t' & -> & Hh' & _); res_simpl; eauto|].
    rewrite Hg; res_simpl; eauto.
  - destruct (repack_ok B HB t items fill Hh Hroom) as (t' & -> & Hh' & _); res_simpl; eauto.
  - eexists; split; [done | by left].
Qed.

(** ** Histories *)

(** The trees a history of changes reaches, each beside the map the history spells. *)
Inductive reached : @TBTreeMap K V _ -> list (K * V) -> Prop :=
| reached_new : reached TBTreeMap_new []
| reached_built sorted fill t : Forall key_wf (map fst sorted) -> StronglySorted key_le (map fst sorted) -> Z.of_nat (length sorted) < 2 ^ 30 ->
    TBTreeMap_from_sorted B sorted fill = Ok t -> reached t (collected sorted)
| reached_change t items c t' out : reached t items -> change_wf c -> has_room t items c -> change_tree t c = Ok (t', out) ->
    reached t' (change_items items c).1.

Lemma reached_holds t items : reached t items -> holds B t items.
Proof.
  induction 1 as [|sorted fill t Hwf Hs Hn E|t items c t' out _ IH Hwf Hroom E]; [by left | |].
  - destruct (from_sorted_ok B HB sorted fill Hwf Hs Hn) as (t' & E' & Hh & _); rewrite E in E'; by injection E' as <-.
  - destruct (change_ok t items c IH Hwf Hroom) as (t1 & E' & Hh); rewrite E in E'; by injection E' as -> _.
Qed.

(** C15: Over any history of inserts, removes, writes, packings, clears and builds from sorted input,
    the tree stays well-formed, every read of it gives what the ordered map the history spells
    gives, and every further change with room in the arenas returns, answers as the map does and
    leaves a tree of the changed map. *)
Theorem tree_refines_map t items : reached t items ->
  (forall key, key_wf key -> TBTreeMap_get scan t key = Ok (assoc items key)
    /\ TBTreeMap_contains_key scan t key = Ok (match assoc items key with Some _ => true | None => false end))
  /\ TBTreeMap_len t = length items /\ TBTreeMap_iter t = Ok items /\ TBTreeMap_first_key_value t = Ok (list.head items)
  /\ StronglySorted (fun a b => key_lt a.1 b.1) items
  /\ (forall c, change_wf c -> has_room t items c ->
       exists t', change_tree t c = Ok (t', (change_items items c).2) /\ reached t' (change_items items c).1).
Proof.
  intros Hr; pose proof (reached_holds t items Hr) as Hh; split_and!.
  - intros key Hk; unfold TBTreeMap_contains_key; rewrite (get_ok scan B t items key Hh Hk); by destruct (assoc items key).
  - apply holds_cases in Hh as [[-> ->]|(h & g & Ht & ->)]; [done | apply Ht].
  - by apply (iter_ok B HB).
  - by apply (first_key_value_ok B HB).
  - by eapply holds_sorted.
  - intros c Hc Hroom; destruct (change_ok t items c Hh Hc Hroom) as (t' & E & _); exists t'; split; [done | by eapply reached_change].
Qed.

(** C16: A range walked forward, walked backward or read as runs of leaves gives exactly the pairs
    whose keys its bounds hold, in key order or its reverse, with every bound open, included or
    excluded on either side. *)
Theorem tree_range_exact t items low high : reached t items -> bound_wf low -> bound_wf high ->
  TBTreeMap_range scan t low high = Ok (List.filter (in_range low high) items)
  /\ TBTreeMap_range_back scan t low high = Ok (rev (List.filter (in_range low high) items))
  /\ exists runs, TBTreeMap_range_runs scan t low = Ok runs /\ run_pairs runs = List.filter (in_range low Unbounded) items
       /\ Forall (fun run => run.1 <> [] /\ length run.1 = length run.2) runs.
Proof.
  intros Hh%reached_holds Hl Hu; split_and!; [by apply (range_ok scan B) | by apply (range_back_ok scan B) |].
  destruct (range_runs_ok scan B HB t items low Hh Hl) as (runs & E & Ep & Hf); exists runs; split_and!; [done | | done].
  rewrite Ep; apply filter_ext; intros e; unfold in_range; cbn [below_high]; by rewrite andb_true_r.
Qed.

(** C17: Looking up many keys at once, side by side or sorted and cut into runs at every node,
    answers each of them as a lookup of its own would, whatever order they come in. *)
Theorem tree_get_many_exact t items keys : reached t items -> Forall key_wf keys ->
  TBTreeMap_get_many scan t keys = Ok (map (assoc items) keys)
  /\ TBTreeMap_get_many_sorted scan t keys = Ok (map (assoc items) keys).
Proof. intros Hh%reached_holds Hk; split; [by apply (get_many_ok scan B) | by apply (get_many_sorted_ok scan B)]. Qed.

(** A build from input in key order returns a tree of the input's pairs, the last of a key
    repeated, its leaves filled to the mark but the last. *)
Lemma tree_build_packs sorted fill : Forall key_wf (map fst sorted) -> StronglySorted key_le (map fst sorted) -> Z.of_nat (length sorted) < 2 ^ 30 ->
  exists t, TBTreeMap_from_sorted B sorted fill = Ok t /\ reached t (collected sorted)
    /\ TBTreeMap_leaf_count t = div_up (length (collected sorted)) (Nat.max 1 (Nat.min fill B)).
Proof.
  intros Hwf Hs Hn; destruct (from_sorted_ok B HB sorted fill Hwf Hs Hn) as (t & E & _ & El); exists t; split_and!; [done | by eapply reached_built | done].
Qed.

(** Packing a tree keeps its pairs and leaves it as few leaves as the mark allows, and taking a
    key out of a tree kept packed never leaves twice the leaves its pairs need. *)
Lemma tree_stays_packed t items fill key : reached t items -> Z.of_nat (length items) < 2 ^ 30 -> key_wf key ->
  (exists t', TBTreeMap_repack B t fill = Ok t' /\ reached t' items
    /\ (0 < TBTreeMap_leaf_count t -> TBTreeMap_leaf_count t' = div_up (length items) (Nat.max 1 (Nat.min fill B)))%nat)
  /\ (exists t', TBTreeMap_remove_packed scan B t key = Ok (t', assoc items key) /\ reached t' (without items key)
    /\ (assoc items key <> None -> TBTreeMap_repack_owed B t' = false)).
Proof.
  intros Hr Hn Hk; pose proof (reached_holds t items Hr) as Hh; split.
  - destruct (repack_ok B HB t items fill Hh Hn) as (t' & E & _ & El); exists t'; split_and!; [done | |].
    + eapply (reached_change t items (Repack fill)); [done | done | done |]; cbn [change_tree]; by rewrite E.
    + unfold TBTreeMap_leaf_count; intros Hpos; apply El; apply holds_cases in Hh as [[-> _]|(h & g & Ht & _)]; [cbn in Hpos; lia|].
      apply Z.eqb_neq; by eapply root_not_none.
  - destruct (remove_packed_ok t items key Hh Hk Hn) as (t' & E & _ & Eo); exists t'; split_and!; [done | | done].
    by eapply (reached_change t items (RemovePacked key)).
Qed.

(** The vector scans over a node's leads, eight or four lanes at a time with their sign flips
    and tails, count the leads below a word exactly as the scalar loop does. *)
Lemma scans_agree leads want : Forall is_u64 leads -> is_u64 want -> count_below scan leads want = count_scalar leads want.
Proof. apply count_below_scalar. Qed.

End map.

(** ** At a concrete tree *)

(** Seven numbers, one of them given twice, in leaves of two under nodes of three. *)
Definition demo_pairs : list (Z * Z) := [(2, 1); (3, 5); (3, 2); (5, 3); (8, 4); (13, 5); (21, 6); (34, 7)].
#[local] Existing Instances number_key number_key_laws.

Lemma three : (3 <= 3 <= 256)%nat.
Proof. lia. Qed.

Definition demo : @TBTreeMap Z Z _ := match TBTreeMap_from_sorted 3 demo_pairs 2 with Ok t => t | _ => TBTreeMap_new end.

Lemma demo_sorted : Forall key_wf (map fst demo_pairs) /\ StronglySorted key_le (map fst demo_pairs).
Proof. split; [repeat constructor; cbn; unfold is_u64, U64; lia | repeat constructor; done]. Qed.

Lemma demo_reached : reached Scalar 3 demo (collected demo_pairs).
Proof. apply (reached_built Scalar 3 demo_pairs 2); [apply demo_sorted | apply demo_sorted | done | vm_compute; reflexivity]. Qed.

Lemma tree_refines_map_witness :
  collected demo_pairs = [(2, 1); (3, 2); (5, 3); (8, 4); (13, 5); (21, 6); (34, 7)]
  /\ TBTreeMap_get Scalar demo 13 = Ok (Some 5)
  /\ exists t', change_tree Scalar 3 demo (Insert 4 9) = Ok (t', None)
       /\ reached Scalar 3 t' [(2, 1); (3, 2); (4, 9); (5, 3); (8, 4); (13, 5); (21, 6); (34, 7)].
Proof.
  destruct (tree_refines_map Scalar 3 three demo _ demo_reached) as (Hget & _ & _ & _ & _ & Hchange); split_and!; [reflexivity | |].
  - destruct (Hget 13) as [-> _]; [cbn; unfold is_u64, U64; lia | reflexivity].
  - destruct (Hchange (Insert 4 9)) as (t' & E & Hr); [cbn; unfold is_u64, U64; lia | vm_compute; split; reflexivity | exists t'; split; [exact E | exact Hr]].
Defined.

Lemma tree_range_exact_witness :
  TBTreeMap_range Scalar demo (Excluded 3) (Included 13) = Ok [(5, 3); (8, 4); (13, 5)]
  /\ TBTreeMap_range_back Scalar demo (Included 3) (Excluded 9) = Ok [(8, 4); (5, 3); (3, 2)].
Proof.
  destruct (tree_range_exact Scalar 3 three demo _ (Excluded 3) (Included 13) demo_reached) as (-> & _ & _); [cbn; unfold is_u64, U64; lia..|].
  destruct (tree_range_exact Scalar 3 three demo _ (Included 3) (Excluded 9) demo_reached) as (_ & -> & _); [cbn; unfold is_u64, U64; lia..|].
  split; reflexivity.
Defined.

Lemma tree_get_many_exact_witness :
  TBTreeMap_get_many_sorted Scalar demo [2; 4; 8; 8; 40] = Ok [Some 1; None; Some 4; Some 4; None]
  /\ TBTreeMap_get_many_sorted Scalar demo [21; 3] = Ok [Some 6; Some 2].
Proof.
  destruct (tree_get_many_exact Scalar 3 three demo _ [2; 4; 8; 8; 40] demo_reached) as [_ ->]; [repeat constructor; cbn; unfold is_u64, U64; lia|].
  destruct (tree_get_many_exact Scalar 3 three demo _ [21; 3] demo_reached) as [_ ->]; [repeat constructor; cbn; unfold is_u64, U64; lia|].
  split; reflexivity.
Defined.

Lemma tree_build_packs_witness : exists t, TBTreeMap_from_sorted 3 demo_pairs 2 = Ok t /\ TBTreeMap_leaf_count t = 4%nat.
Proof.
  destruct (tree_build_packs Scalar 3 three demo_pairs 2) as (t & E & _ & El); [apply demo_sorted | apply demo_sorted | done |].
  exists t; split; [exact E | exact El].
Defined.

Lemma tree_stays_packed_witness : exists t', TBTreeMap_remove_packed Scalar 3 demo 8 = Ok (t', Some 4) /\ TBTreeMap_repack_owed 3 t' = false.
Proof.
  destruct (tree_stays_packed Scalar 3 three demo _ 3 8 demo_reached) as [_ (t' & E & _ & Eo)]; [done | cbn; unfold is_u64, U64; lia|].
  exists t'; split; [exact E | by apply Eo].
Defined.

Lemma scans_agree_witness : count_below Avx2 [1; 5; 2 ^ 63; 2 ^ 64 - 1; 7] (2 ^ 63) = 3%nat.
Proof. rewrite (scans_agree Avx2); [reflexivity | repeat constructor; unfold U64; lia | unfold is_u64, U64; lia]. Defined.
