(* ===== verification/IndexEntry.v ===== *)
(** * What the index resolves a key to ([index/entry.rs])

    The entry of a key, a grave being an entry of segment zero, and the range a range tombstone
    covers. *)
From S2P Require Import Prelude Bytes Lsn Column Record.

Definition NO_SEGMENT : SegmentId := 0.

Record Entry := mkEntry { en_loc : Loc; en_lsn : Lsn; en_incarnation : SegmentIncarnation }.

Definition Entry_new (loc : Loc) (lsn : Lsn) : Entry := mkEntry loc lsn SegmentIncarnation_NONE.
Definition Entry_default : Entry := Entry_new (Loc_new 0 0 0) Lsn_NONE.
#[export] Instance Entry_inhabited : Inhabited Entry := populate Entry_default.

Definition Entry_stamped (e : Entry) (incarnation : SegmentIncarnation) : Entry := mkEntry (en_loc e) (en_lsn e) incarnation.

Definition Entry_moved_to (e : Entry) (loc : Loc) (incarnation : SegmentIncarnation) : Entry := mkEntry loc (en_lsn e) incarnation.

Definition Entry_grave_from (lsn : Lsn) (tombstone : SegmentId) : Entry := Entry_new (Loc_new NO_SEGMENT tombstone 0) lsn.
Definition Entry_grave (lsn : Lsn) : Entry := Entry_grave_from lsn NO_SEGMENT.
Definition Entry_is_grave (e : Entry) : bool := loc_segment (en_loc e) =? NO_SEGMENT.

Definition Entry_grave_origin (e : Entry) : option SegmentId :=
  if Entry_is_grave e && negb (loc_offset (en_loc e) =? NO_SEGMENT) then Some (loc_offset (en_loc e)) else None.

(** The footprint of a record on disk, keyless when small. *)
Definition span_of (key_width length : Z) : Z := RecordLayout_prefix_len RecordLayout_KEYLESS key_width length + length.
Definition Entry_span (e : Entry) (key_width : Z) : Z := span_of key_width (loc_len (en_loc e)).

Record RangeCover := mkRangeCover { rc_start : RecordKey; rc_end : option KeyBytes; rc_lsn : Lsn }.

Definition RangeCover_covers (c : RangeCover) (key : RecordKey) (lsn : Lsn) : bool :=
  if negb (rk_column key =? rk_column (rc_start c)) || (rc_lsn c <=? lsn) then false
  else match KeyBytes_cmp (rk_key key) (rk_key (rc_start c)) with
  | Lt => false
  | _ => match rc_end c with
         | Some end_ => match KeyBytes_cmp (rk_key key) end_ with Lt => true | _ => false end
         | None => true
         end
  end.

(** ** Graves *)

Lemma grave_from_is_grave lsn tombstone : Entry_is_grave (Entry_grave_from lsn tombstone) = true.
Proof. done. Qed.

Lemma grave_origin_from lsn tombstone : Entry_grave_origin (Entry_grave_from lsn tombstone) = if tombstone =? NO_SEGMENT then None else Some tombstone.
Proof. unfold Entry_grave_origin; cbn; by destruct (tombstone =? NO_SEGMENT). Qed.

Lemma is_grave_moved e loc incarnation : Entry_is_grave (Entry_moved_to e loc incarnation) = (loc_segment loc =? NO_SEGMENT).
Proof. done. Qed.
