(* ===== verification/Counters.v ===== *)
(** * Segment counters ([index/counters.rs])

    The bytes each segment holds live and dead, in a window of rows over the segment numbers a volume
    has issued: blocks of rows grow at both ends as numbers are booked and are freed from the front
    as segments retire. A row's atomics are integers, and each operation runs whole: what two
    operations on one row do under the read lock is made of adds, minima and maxima that commute.
    A row is written back to its place, where the source writes through the shared reference. *)
From S2P Require Import Prelude Bytes Lsn.

Record SegmentBytes := mkSegmentBytes { sb_live : Z; sb_dead : Z; sb_held : Z; sb_held_lsn : option Lsn }.
Definition SegmentBytes_default : SegmentBytes := mkSegmentBytes 0 0 0 None.
#[export] Instance SegmentBytes_eq_dec : EqDecision SegmentBytes.
Proof. solve_decision. Defined.

Definition SegmentBytes_shadow (b : SegmentBytes) (span : Z) : SegmentBytes :=
  mkSegmentBytes (saturating_sub (sb_live b) span) (u64_saturating_add (sb_dead b) span) (sb_held b) (sb_held_lsn b).

Definition SegmentBytes_total (b : SegmentBytes) : Z := as_u64 (sb_live b + sb_dead b).

Definition SegmentBytes_droppable (b : SegmentBytes) (floor : option Lsn) : Z :=
  match sb_held_lsn b, floor with
  | None, _ => 0
  | Some _, None => sb_held b
  | Some newest, Some floor => if newest <? floor then sb_held b else 0
  end.

Definition SegmentBytes_reclaimable (b : SegmentBytes) (floor : option Lsn) : Z := as_u64 (sb_dead b + SegmentBytes_droppable b floor).

(** ** Floors *)

Record Floors := mkFloors { fl_oldest : option (SegmentId * Lsn); fl_runner_up : option Lsn }.
Definition Floors_default : Floors := mkFloors None None.

Definition Floors_see (f : Floors) (segment : SegmentId) (lsn : Lsn) : Floors :=
  match fl_oldest f with
  | Some (_, oldest) =>
      if oldest <=? lsn
      then mkFloors (fl_oldest f) (Some (match fl_runner_up f with Some current => if current <=? lsn then current else lsn | None => lsn end))
      else mkFloors (Some (segment, lsn)) (Some (match fl_runner_up f with Some current => if current <=? oldest then current else oldest | None => oldest end))
  | None => mkFloors (Some (segment, lsn)) (fl_runner_up f)
  end.

Definition Floors_excluding (f : Floors) (segment : SegmentId) : option Lsn :=
  match fl_oldest f with
  | Some (holder, oldest) => if holder =? segment then fl_runner_up f else Some oldest
  | None => None
  end.

(** ** Rows *)

Definition CHUNK : nat := 256.
Definition CHUNKZ : Z := Z.of_nat CHUNK.
Definition MAX_WINDOW : Z := Z.shiftl 1 20.
Definition PRESENT : Z := 1.
Definition RETIRED : Z := 2.

Record SegmentRow := mkSegmentRow {
  sr_live : Z;
  sr_dead : Z;
  sr_held : Z;
  sr_min_lsn : Z;
  sr_max_lsn : Z;
  sr_sealed_at : Z;
  sr_held_lsn : Z;
  sr_incarnation : Z;
  sr_flags : Z;
}.

Definition SegmentRow_new : SegmentRow := mkSegmentRow 0 0 0 (U64 - 1) Lsn_NONE Lsn_NONE Lsn_NONE 0 0.

Definition is_present (r : SegmentRow) : bool := negb (Z.land (sr_flags r) PRESENT =? 0).
Definition is_retired (r : SegmentRow) : bool := negb (Z.land (sr_flags r) RETIRED =? 0).
Definition is_known (r : SegmentRow) : bool := negb (sr_flags r =? 0) || negb (sr_incarnation r =? 0).

Definition raise (bits : Z) (r : SegmentRow) : SegmentRow :=
  mkSegmentRow (sr_live r) (sr_dead r) (sr_held r) (sr_min_lsn r) (sr_max_lsn r) (sr_sealed_at r) (sr_held_lsn r) (sr_incarnation r) (Z.lor (sr_flags r) bits).
Definition add_live (span : Z) (r : SegmentRow) : SegmentRow :=
  mkSegmentRow (as_u64 (sr_live r + span)) (sr_dead r) (sr_held r) (sr_min_lsn r) (sr_max_lsn r) (sr_sealed_at r) (sr_held_lsn r) (sr_incarnation r) (sr_flags r).
Definition drop_live (span : Z) (r : SegmentRow) : SegmentRow :=
  mkSegmentRow (saturating_sub (sr_live r) span) (sr_dead r) (sr_held r) (sr_min_lsn r) (sr_max_lsn r) (sr_sealed_at r) (sr_held_lsn r) (sr_incarnation r) (sr_flags r).
Definition add_dead (span : Z) (r : SegmentRow) : SegmentRow :=
  mkSegmentRow (sr_live r) (as_u64 (sr_dead r + span)) (sr_held r) (sr_min_lsn r) (sr_max_lsn r) (sr_sealed_at r) (sr_held_lsn r) (sr_incarnation r) (sr_flags r).
Definition add_held (span : Z) (r : SegmentRow) : SegmentRow :=
  mkSegmentRow (sr_live r) (sr_dead r) (as_u64 (sr_held r + span)) (sr_min_lsn r) (sr_max_lsn r) (sr_sealed_at r) (sr_held_lsn r) (sr_incarnation r) (sr_flags r).
Definition raise_held_lsn (lsn : Lsn) (r : SegmentRow) : SegmentRow :=
  mkSegmentRow (sr_live r) (sr_dead r) (sr_held r) (sr_min_lsn r) (sr_max_lsn r) (sr_sealed_at r) (Z.max (sr_held_lsn r) lsn) (sr_incarnation r) (sr_flags r).
Definition raise_max_lsn (lsn : Lsn) (r : SegmentRow) : SegmentRow :=
  mkSegmentRow (sr_live r) (sr_dead r) (sr_held r) (sr_min_lsn r) (Z.max (sr_max_lsn r) lsn) (sr_sealed_at r) (sr_held_lsn r) (sr_incarnation r) (sr_flags r).
Definition raise_sealed_at (lsn : Lsn) (r : SegmentRow) : SegmentRow :=
  mkSegmentRow (sr_live r) (sr_dead r) (sr_held r) (sr_min_lsn r) (sr_max_lsn r) (Z.max (sr_sealed_at r) lsn) (sr_held_lsn r) (sr_incarnation r) (sr_flags r).
Definition wear (incarnation : SegmentIncarnation) (r : SegmentRow) : SegmentRow :=
  mkSegmentRow (sr_live r) (sr_dead r) (sr_held r) (sr_min_lsn r) (sr_max_lsn r) (sr_sealed_at r) (sr_held_lsn r) incarnation (sr_flags r).

Definition row_shadow (span : Z) (r : SegmentRow) : SegmentRow := add_dead span (drop_live span r).

Definition note_min_row (lsn : Lsn) (r : SegmentRow) : SegmentRow :=
  if lsn <? sr_min_lsn r
  then mkSegmentRow (sr_live r) (sr_dead r) (sr_held r) (Z.min (sr_min_lsn r) lsn) (sr_max_lsn r) (sr_sealed_at r) (sr_held_lsn r) (sr_incarnation r) (sr_flags r)
  else r.

Definition row_bytes (r : SegmentRow) : SegmentBytes :=
  mkSegmentBytes (sr_live r) (sr_dead r) (sr_held r) (if sr_held_lsn r =? 0 then None else Some (sr_held_lsn r)).

Definition row_min_lsn (r : SegmentRow) : option Lsn := if sr_min_lsn r =? U64 - 1 then None else Some (sr_min_lsn r).

(** [blank] stores every field afresh. *)
Definition blank (r : SegmentRow) : SegmentRow := SegmentRow_new.

(** ** The window *)

Definition Chunk_new : list SegmentRow := replicate CHUNK SegmentRow_new.

Record Window := mkWindow {
  w_base : Z;
  w_gone : Z;
  w_reach : Z;
  w_chunks : list (list SegmentRow);
  w_present : Z;
}.
Definition Window_default : Window := mkWindow 0 0 0 [] 0.

Definition slot_row (w : Window) (at_ : Z) : option SegmentRow :=
  chunk ← w_chunks w !! Z.to_nat (at_ / CHUNKZ); chunk !! Z.to_nat (at_ mod CHUNKZ).

Definition Window_row (w : Window) (segment : SegmentId) : option SegmentRow :=
  if (segment <? w_gone w) || (segment <? w_base w) then None else slot_row w (segment - w_base w).

(** The row of a number written back. *)
Definition set_row (w : Window) (segment : SegmentId) (r : SegmentRow) : Window :=
  let at_ := segment - w_base w in
  mkWindow (w_base w) (w_gone w) (w_reach w)
    (alter (fun chunk => <[Z.to_nat (at_ mod CHUNKZ) := r]> chunk) (Z.to_nat (at_ / CHUNKZ)) (w_chunks w)) (w_present w).

Definition Window_counted (w : Window) (segment : SegmentId) : option SegmentRow :=
  r ← Window_row w segment; if is_present r then Some r else None.

Definition Window_is_retired (w : Window) (segment : SegmentId) : bool :=
  if segment <? w_gone w then true
  else match Window_row w segment with Some r => is_retired r | None => false end.

Fixpoint grow (fuel : nat) (at_ : Z) (chunks : list (list SegmentRow)) : list (list SegmentRow) :=
  match fuel with
  | O => chunks
  | S fuel => if len chunks * CHUNKZ <=? at_ then grow fuel at_ (chunks ++ [Chunk_new]) else chunks
  end.

(** The row for a number, growing the window to reach it, with the window as it then stands. *)
Definition Window_open (w : Window) (segment : SegmentId) : Window * option SegmentRow :=
  let id := segment in
  if id <? w_gone w then (w, None)
  else
    let base := match w_chunks w with [] => id - id mod CHUNKZ | _ => w_base w end in
    let reach := base - (id - id mod CHUNKZ) in
    if (id <? base) && (MAX_WINDOW <? reach) then (mkWindow base (w_gone w) (w_reach w) (w_chunks w) (w_present w), None)
    else
      let '(base, chunks) :=
        if id <? base then (base - reach, replicate (Z.to_nat (reach / CHUNKZ)) Chunk_new ++ w_chunks w) else (base, w_chunks w) in
      let at_ := id - base in
      if MAX_WINDOW <=? at_ then (mkWindow base (w_gone w) (w_reach w) chunks (w_present w), None)
      else
        let w := mkWindow base (w_gone w) (w_reach w) (grow (S (Z.to_nat (at_ / CHUNKZ))) at_ chunks) (w_present w) in
        (w, r ← slot_row w at_; if is_retired r then None else Some r).

Definition Window_open_counted (w : Window) (segment : SegmentId) : Window * option SegmentRow :=
  match Window_open w segment with
  | (w, None) => (w, None)
  | (w, Some r) =>
      let fresh := negb (is_present r) in
      let w := set_row w segment (raise PRESENT r) in
      let w := mkWindow (w_base w) (w_gone w) (Z.max (w_reach w) (segment + 1)) (w_chunks w) (if fresh then w_present w + 1 else w_present w) in
      (w, Window_row w segment)
  end.

(** How far the run of retired rows from a number goes. *)
Fixpoint retired_run (fuel : nat) (w : Window) (at_ : Z) : Z :=
  match fuel with
  | O => at_
  | S fuel =>
      match Window_row w (as_u32 at_) with
      | Some r => if is_retired r then retired_run fuel w (at_ + 1) else at_
      | None => at_
      end
  end.

Fixpoint free_blocks (base gone at_ : Z) (chunks : list (list SegmentRow)) : Z * Z * list (list SegmentRow) :=
  match chunks with
  | [] => (base, gone, [])
  | _ :: rest => if base + CHUNKZ <=? at_ then free_blocks (base + CHUNKZ) (base + CHUNKZ) at_ rest else (base, gone, chunks)
  end.

Definition Window_slide (w : Window) : Window :=
  let at_ := retired_run (S (CHUNK * length (w_chunks w))) w (Z.max (w_base w) (w_gone w)) in
  let reach := Z.max (w_reach w) at_ in
  let '(base, gone, chunks) := free_blocks (w_base w) (w_gone w) at_ (w_chunks w) in
  mkWindow base gone reach chunks (w_present w).

Definition Window_retire (w : Window) (segment : SegmentId) : Window :=
  let w :=
    match Window_row w segment with
    | Some r =>
        if is_known r then
          let w := set_row w segment (raise RETIRED (blank r)) in
          mkWindow (w_base w) (w_gone w) (w_reach w) (w_chunks w) (w_present w - (if is_present r then 1 else 0))
        else w
    | None => w
    end in
  let w := mkWindow (w_base w) (w_gone w) (if w_present w =? 0 then w_base w else w_reach w) (w_chunks w) (w_present w) in
  Window_slide w.

Definition chunk_rows (w : Window) (from to : Z) (entry : nat * list SegmentRow) : list (SegmentId * SegmentRow) :=
  let '(at_, chunk) := entry in
  let start := Z.of_nat at_ * CHUNKZ in
  let low := Z.min (saturating_sub from start) CHUNKZ in
  let high := Z.min (saturating_sub to start) CHUNKZ in
  omap (fun slot => r ← chunk !! Z.to_nat slot; if is_present r then Some (as_u32 (w_base w + (start + slot)), r) else None)
    (seqZ low (high - low)).

Definition Window_counted_rows (w : Window) : list (SegmentId * SegmentRow) :=
  let from := Z.max (w_gone w) (w_base w) - w_base w in
  let to := Z.max (w_reach w) (w_base w) - w_base w in
  concat (map (chunk_rows w from to) (imap pair (w_chunks w))).

Definition Window_clear (w : Window) : Window := Window_default.

(** ** The table *)

Record SegmentTable := mkSegmentTable { st_window : Window; st_next_incarnation : Z; st_dropped : Z }.
Definition SegmentTable_new : SegmentTable := mkSegmentTable Window_default 0 0.

Definition note_dropped (t : SegmentTable) (w : Window) : SegmentTable := mkSegmentTable w (st_next_incarnation t) (as_u64 (st_dropped t + 1)).
Definition with_window (t : SegmentTable) (w : Window) : SegmentTable := mkSegmentTable w (st_next_incarnation t) (st_dropped t).

Definition opened (t : SegmentTable) (segment : SegmentId) (act : SegmentRow -> SegmentRow) : SegmentTable :=
  let w := st_window t in
  match Window_counted w segment with
  | Some r => with_window t (set_row w segment (act r))
  | None =>
      if Window_is_retired w segment then note_dropped t w
      else match Window_open_counted w segment with
           | (w, Some r) => with_window t (set_row w segment (act r))
           | (w, None) => note_dropped t w
           end
  end.

Definition booked (t : SegmentTable) (segment : SegmentId) (act : SegmentRow -> SegmentRow) : SegmentTable :=
  match Window_counted (st_window t) segment with
  | Some r => with_window t (set_row (st_window t) segment (act r))
  | None => note_dropped t (st_window t)
  end.

Definition SegmentTable_mark_live (t : SegmentTable) (segment : SegmentId) (lsn : Lsn) (span : Z) : SegmentTable :=
  opened t segment (fun r => add_live span (note_min_row lsn r)).
Definition SegmentTable_mark_dead (t : SegmentTable) (segment : SegmentId) (lsn : Lsn) (span : Z) : SegmentTable :=
  opened t segment (fun r => add_dead span (note_min_row lsn r)).
Definition SegmentTable_mark_held (t : SegmentTable) (segment : SegmentId) (lsn : Lsn) (span : Z) : SegmentTable :=
  opened t segment (fun r => raise_held_lsn lsn (add_held span (add_live span r))).
Definition SegmentTable_adopt (t : SegmentTable) (segment : SegmentId) (b : SegmentBytes) : SegmentTable :=
  opened t segment (fun r =>
    let r := add_held (sb_held b) (add_dead (sb_dead b) (add_live (sb_live b) r)) in
    match sb_held_lsn b with Some lsn => raise_held_lsn lsn r | None => r end).
Definition SegmentTable_shadow (t : SegmentTable) (segment : SegmentId) (span : Z) : SegmentTable :=
  booked t segment (row_shadow span).
Definition SegmentTable_settle_dead (t : SegmentTable) (segment : SegmentId) (counted : Z) : SegmentTable :=
  booked t segment (fun r => if sr_dead r <? counted then row_shadow (counted - sr_dead r) r else r).
Definition SegmentTable_release_live (t : SegmentTable) (segment : SegmentId) (span : Z) : SegmentTable :=
  booked t segment (drop_live span).
Definition SegmentTable_note_min (t : SegmentTable) (segment : SegmentId) (lsn : Lsn) : SegmentTable :=
  opened t segment (note_min_row lsn).
Definition SegmentTable_note_max (t : SegmentTable) (segment : SegmentId) (lsn : Lsn) : SegmentTable :=
  if lsn =? Lsn_NONE then t else opened t segment (raise_max_lsn lsn).
Definition SegmentTable_note_sealed_at (t : SegmentTable) (segment : SegmentId) (lsn : Lsn) : SegmentTable :=
  if lsn =? Lsn_NONE then t else opened t segment (raise_sealed_at lsn).

Definition SegmentTable_sealed_at_of (t : SegmentTable) (segment : SegmentId) : option Lsn :=
  r ← Window_counted (st_window t) segment; if sr_sealed_at r =? 0 then None else Some (sr_sealed_at r).
Definition SegmentTable_max_lsn_of (t : SegmentTable) (segment : SegmentId) : option Lsn :=
  r ← Window_counted (st_window t) segment; if sr_max_lsn r =? 0 then None else Some (sr_max_lsn r).
Definition SegmentTable_bytes_of (t : SegmentTable) (segment : SegmentId) : SegmentBytes :=
  match Window_counted (st_window t) segment with Some r => row_bytes r | None => SegmentBytes_default end.
Definition SegmentTable_min_lsn_of (t : SegmentTable) (segment : SegmentId) : option Lsn :=
  r ← Window_counted (st_window t) segment; row_min_lsn r.

Definition SegmentTable_snapshot (t : SegmentTable) : list (SegmentId * SegmentBytes) :=
  map (fun '(segment, r) => (segment, row_bytes r)) (Window_counted_rows (st_window t)).

Definition see_row (f : Floors) (entry : SegmentId * SegmentRow) : Floors :=
  match row_min_lsn entry.2 with Some min => Floors_see f entry.1 min | None => f end.

Definition SegmentTable_floors (t : SegmentTable) : Floors := fold_left see_row (Window_counted_rows (st_window t)) Floors_default.
Definition SegmentTable_ranking (t : SegmentTable) : list (SegmentId * SegmentBytes) * Floors :=
  fold_left (fun acc entry => (acc.1 ++ [(entry.1, row_bytes entry.2)], see_row acc.2 entry)) (Window_counted_rows (st_window t)) ([], Floors_default).
Definition SegmentTable_min_lsn_excluding (t : SegmentTable) (segment : SegmentId) : option Lsn :=
  Floors_excluding (SegmentTable_floors t) segment.
Definition SegmentTable_dead_bytes (t : SegmentTable) : Z :=
  fold_left (fun total entry => as_u64 (total + sr_dead entry.2)) (Window_counted_rows (st_window t)) 0.

Definition SegmentTable_issue_incarnation (t : SegmentTable) : SegmentTable * SegmentIncarnation :=
  (mkSegmentTable (st_window t) (as_u32 (st_next_incarnation t + 1)) (st_dropped t), as_u32 (st_next_incarnation t + 1)).

(** Open a row and give it an incarnation if it wears none, or drop the ask. *)
Definition open_worn (t : SegmentTable) (segment : SegmentId) : SegmentTable * SegmentIncarnation :=
  match Window_open (st_window t) segment with
  | (w, None) => (note_dropped t w, SegmentIncarnation_NONE)
  | (w, Some r) =>
      let t := with_window t w in
      if sr_incarnation r =? 0 then
        let '(t, issued) := SegmentTable_issue_incarnation t in
        (with_window t (set_row w segment (wear issued r)), issued)
      else (t, sr_incarnation r)
  end.

Definition SegmentTable_live_incarnation (t : SegmentTable) (segment : SegmentId) : SegmentTable * SegmentIncarnation :=
  match Window_row (st_window t) segment with
  | Some r => if sr_incarnation r =? 0 then open_worn t segment else (t, sr_incarnation r)
  | None => open_worn t segment
  end.

Definition SegmentTable_incarnation_of (t : SegmentTable) (segment : SegmentId) : SegmentIncarnation :=
  match Window_row (st_window t) segment with Some r => sr_incarnation r | None => SegmentIncarnation_NONE end.

Definition SegmentTable_forget (t : SegmentTable) (segment : SegmentId) : SegmentTable := with_window t (Window_retire (st_window t) segment).

Definition SegmentTable_issue_incarnations (t : SegmentTable) (segments : list SegmentId) : SegmentTable :=
  fold_left (fun t segment => (open_worn t segment).1) segments t.

Definition SegmentTable_len (t : SegmentTable) : Z := w_present (st_window t).
Definition SegmentTable_is_empty (t : SegmentTable) : bool := SegmentTable_len t =? 0.
Definition SegmentTable_clear (t : SegmentTable) : SegmentTable := with_window t (Window_clear (st_window t)).

Definition SegmentTable_issue_past (t live : SegmentTable) : SegmentTable :=
  mkSegmentTable (st_window t) (Z.max (st_next_incarnation t) (st_next_incarnation live)) (st_dropped t).

(** The live table and the rebuilt one after the swap. *)
Definition SegmentTable_install (t fresh : SegmentTable) : SegmentTable * SegmentTable :=
  (mkSegmentTable (st_window fresh) (Z.max (st_next_incarnation t) (st_next_incarnation fresh)) (as_u64 (st_dropped t + st_dropped fresh)),
   mkSegmentTable (st_window t) (st_next_incarnation fresh) (st_dropped fresh)).
