(* ===== verification/CounterCells.v ===== *)
(** * The segment table as a cell per segment ([index/counters.rs])

    A window is an array of rows that grows at both ends and is freed from the front. Read through
    [cell] it is one row for every segment number there could be: a blank one where nothing was
    booked, a spent one where the segment retired, wherever the window stands. Every operation of the
    table is an update of one cell. *)
From S2P Require Import Prelude Bytes Lsn Counters.

(** ** Rows end to end *)

Definition full (chunks : list (list SegmentRow)) : Prop := Forall (fun chunk => length chunk = CHUNK) chunks.

Lemma CHUNKZ_pos : 0 < CHUNKZ.
Proof. done. Qed.

Lemma chunk_place at_ : 0 <= at_ -> Z.to_nat at_ = (Z.to_nat (at_ / CHUNKZ) * CHUNK + Z.to_nat (at_ mod CHUNKZ))%nat /\ (Z.to_nat (at_ mod CHUNKZ) < CHUNK)%nat.
Proof.
  intros H; pose proof (Z.mod_pos_bound at_ CHUNKZ CHUNKZ_pos) as Hm; pose proof (Z.div_mod at_ CHUNKZ ltac:(done)) as Hd.
  pose proof (Z.div_pos at_ CHUNKZ H CHUNKZ_pos) as Hq; split; [| unfold CHUNKZ in *; lia].
  rewrite Hd at 1; rewrite Z2Nat.inj_add, Z2Nat.inj_mul by (done || lia || nia); unfold CHUNKZ at 1; rewrite Nat2Z.id; lia.
Qed.

Lemma concat_lookup (chunks : list (list SegmentRow)) i j : full chunks -> (j < CHUNK)%nat ->
  concat chunks !! (i * CHUNK + j)%nat = (chunk ← chunks !! i; chunk !! j).
Proof.
  intros Hf Hj; revert i; induction Hf as [|c cs Hc Hf IH]; intros [|i]; cbn [concat lookup list_lookup mbind option_bind]; [done | done | |].
  - rewrite lookup_app_l by lia; done.
  - rewrite lookup_app_r by lia; replace (S i * CHUNK + j - length c)%nat with (i * CHUNK + j)%nat by lia; apply IH.
Qed.

Lemma concat_alter (chunks : list (list SegmentRow)) i j r : full chunks -> (j < CHUNK)%nat ->
  concat (alter (fun chunk => <[j := r]> chunk) i chunks) = <[(i * CHUNK + j)%nat := r]> (concat chunks).
Proof.
  intros Hf Hj; revert i; induction Hf as [|c cs Hc Hf IH]; intros [|i]; cbn [concat]; [done | done | |].
  - change (concat (<[j := r]> c :: cs) = <[j := r]> (c ++ concat cs)); cbn [concat]; by rewrite insert_app_l by lia.
  - change (concat (c :: alter (fun chunk => <[j := r]> chunk) i cs) = <[(S i * CHUNK + j)%nat := r]> (c ++ concat cs)); cbn [concat].
    rewrite IH; replace (S i * CHUNK + j)%nat with (length c + (i * CHUNK + j))%nat by lia; by rewrite insert_app_r.
Qed.

Lemma concat_length (chunks : list (list SegmentRow)) : full chunks -> length (concat chunks) = (CHUNK * length chunks)%nat.
Proof. induction 1 as [|c cs Hc Hf IH]; cbn [concat length]; [lia | rewrite length_app, IH, Hc; lia]. Qed.

Lemma full_alter chunks i j r : full chunks -> full (alter (fun chunk => <[j := r]> chunk) i chunks).
Proof.
  intros Hf; apply Forall_lookup; intros k c Hk; destruct (decide (i = k)) as [->|Hne].
  - rewrite list_lookup_alter_eq in Hk; destruct (chunks !! k) eqn:E; simplify_eq/=; rewrite length_insert; by apply (Forall_lookup_1 _ _ _ _ Hf E).
  - rewrite list_lookup_alter_ne in Hk by done; by apply (Forall_lookup_1 _ _ _ _ Hf Hk).
Qed.

Lemma full_new n : full (replicate n Chunk_new).
Proof. apply Forall_replicate; apply length_replicate. Qed.

Lemma concat_new n : concat (replicate n Chunk_new) = replicate (CHUNK * n) SegmentRow_new.
Proof.
  induction n as [|n IH]; [by rewrite Nat.mul_0_r|].
  rewrite replicate_S; cbn [concat]; rewrite IH; unfold Chunk_new; rewrite <- replicate_add; f_equal; lia.
Qed.

(** ** Cells *)

Definition flat (w : Window) : list SegmentRow := concat (w_chunks w).
Definition w_end (w : Window) : Z := w_base w + CHUNKZ * len (w_chunks w).
Definition spent : SegmentRow := raise RETIRED SegmentRow_new.

(** The row a segment has, wherever the window stands. *)
Definition cell (w : Window) (segment : SegmentId) : SegmentRow :=
  if segment <? w_gone w then spent else default SegmentRow_new (Window_row w segment).

Definition row_ok (r : SegmentRow) : Prop := r = spent \/ sr_flags r = 0 \/ sr_flags r = PRESENT.

Definition counts (r : SegmentRow) : Z := if is_present r then 1 else 0.
Fixpoint count_rows (rows : list SegmentRow) : Z := match rows with [] => 0 | r :: rows => counts r + count_rows rows end.

(** A number with room for its block below the top of [u32]. *)
Definition segment_ok (segment : SegmentId) : Prop := 0 <= segment < U32 - CHUNKZ.

Record window_ok (w : Window) : Prop := {
  wk_full : full (w_chunks w);
  wk_gone : 0 <= w_gone w <= w_base w;
  wk_gone_aligned : w_gone w mod CHUNKZ = 0;
  wk_base_aligned : w_base w mod CHUNKZ = 0;
  wk_end : w_end w < U32;
  wk_rows : Forall row_ok (flat w);
  wk_present : w_present w = count_rows (flat w);
  wk_reach : forall i r, flat w !! i = Some r -> is_present r = true -> w_base w + Z.of_nat i < w_reach w;
}.

Lemma window_default_ok : window_ok Window_default.
Proof. split; try done; try (by constructor); cbn; lia. Qed.

Lemma slot_row_flat w at_ : full (w_chunks w) -> 0 <= at_ -> slot_row w at_ = flat w !! Z.to_nat at_.
Proof. intros Hf H; destruct (chunk_place at_ H) as [E Hj]; rewrite E; unfold flat, slot_row; by rewrite concat_lookup. Qed.

Lemma row_flat w segment : window_ok w -> w_base w <= segment -> Window_row w segment = flat w !! Z.to_nat (segment - w_base w).
Proof.
  intros Hw H; pose proof (wk_gone _ Hw); unfold Window_row.
  destruct (Z.ltb_spec segment (w_gone w)), (Z.ltb_spec segment (w_base w)); try lia; cbn [orb].
  apply slot_row_flat; [apply Hw | lia].
Qed.

Lemma row_below w segment : segment < w_base w -> Window_row w segment = None.
Proof. intros; unfold Window_row; destruct (Z.ltb_spec segment (w_base w)); [by rewrite orb_true_r | lia]. Qed.

Lemma len_flat w : full (w_chunks w) -> Z.of_nat (length (flat w)) = CHUNKZ * len (w_chunks w).
Proof. intros; unfold flat; rewrite concat_length by done; unfold CHUNKZ, len; lia. Qed.

Lemma row_Some w segment r : window_ok w -> Window_row w segment = Some r ->
  flat w !! Z.to_nat (segment - w_base w) = Some r /\ w_base w <= segment < w_end w.
Proof.
  intros Hw E; destruct (Z.lt_ge_cases segment (w_base w)); [by rewrite row_below in E|].
  rewrite row_flat in E by done; split; [done|]; apply lookup_lt_Some in E; pose proof (len_flat w (wk_full _ Hw)); unfold w_end; lia.
Qed.

Lemma row_row_ok w segment r : window_ok w -> Window_row w segment = Some r -> row_ok r.
Proof. intros Hw E; apply (row_Some w segment r Hw) in E as [E _]; apply (Forall_lookup_1 _ _ _ _ (wk_rows _ Hw) E). Qed.

Lemma row_ok_new : row_ok SegmentRow_new.
Proof. right; left; done. Qed.

Lemma cell_ok w segment : window_ok w -> row_ok (cell w segment).
Proof.
  intros Hw; unfold cell; destruct (_ <? _); [by left|]; destruct (Window_row w segment) as [r|] eqn:E; [by eapply row_row_ok | apply row_ok_new].
Qed.

Lemma row_ok_cases r : row_ok r ->
  r = spent \/ (sr_flags r = 0 /\ is_present r = false /\ is_retired r = false) \/ (sr_flags r = PRESENT /\ is_present r = true /\ is_retired r = false).
Proof. intros [->|[E|E]]; [by left | right; left | right; right]; unfold is_present, is_retired; rewrite E; done. Qed.

Lemma retired_spent r : row_ok r -> is_retired r = true -> r = spent.
Proof. intros [->|[(_ & _ & E)|(_ & _ & E)]]%row_ok_cases; congruence. Qed.

(** What the table reads of a segment it reads of the segment's cell. *)
Lemma counted_cell w segment : window_ok w -> Window_counted w segment = if is_present (cell w segment) then Some (cell w segment) else None.
Proof.
  intros Hw; unfold Window_counted, cell; destruct (Z.ltb_spec segment (w_gone w)) as [Hg|Hg].
  - rewrite row_below; [done | pose proof (wk_gone _ Hw); lia].
  - by destruct (Window_row w segment).
Qed.

Lemma is_retired_cell w segment : Window_is_retired w segment = is_retired (cell w segment).
Proof. unfold Window_is_retired, cell; destruct (_ <? _); [done|]; by destruct (Window_row w segment). Qed.

Lemma incarnation_cell t segment : window_ok (st_window t) -> SegmentTable_incarnation_of t segment = sr_incarnation (cell (st_window t) segment).
Proof.
  intros Hw; unfold SegmentTable_incarnation_of, cell; destruct (Z.ltb_spec segment (w_gone (st_window t))).
  - rewrite row_below; [done | pose proof (wk_gone _ Hw); lia].
  - by destruct (Window_row _ segment).
Qed.

(** ** Writing a row *)

Lemma count_rows_insert rows i r0 r : rows !! i = Some r0 -> count_rows (<[i := r]> rows) = count_rows rows - counts r0 + counts r.
Proof.
  revert i; induction rows as [|x rows IH]; intros [|i] E; simplify_eq/=; [lia|]; rewrite (IH i E); lia.
Qed.

Lemma counts_range r : 0 <= counts r <= 1.
Proof. unfold counts; by destruct (is_present r). Qed.

Lemma count_rows_nonneg rows : 0 <= count_rows rows.
Proof. induction rows as [|r rows IH]; cbn [count_rows]; [lia | pose proof (counts_range r); lia]. Qed.

Lemma count_rows_app l1 l2 : count_rows (l1 ++ l2) = count_rows l1 + count_rows l2.
Proof. induction l1 as [|r l1 IH]; cbn [count_rows app]; [done | rewrite IH; lia]. Qed.

Lemma count_rows_new n : count_rows (replicate n SegmentRow_new) = 0.
Proof. induction n; [done|]; rewrite replicate_S; cbn [count_rows]; change (counts SegmentRow_new) with 0; lia. Qed.

Lemma count_rows_0 rows i r : count_rows rows = 0 -> rows !! i = Some r -> is_present r = false.
Proof.
  revert i; induction rows as [|x rows IH]; intros [|i] E H; simplify_eq/=; pose proof (count_rows_nonneg rows).
  - unfold counts in E; destruct (is_present r); [lia | done].
  - pose proof (counts_range x); apply (IH i); [lia | done].
Qed.

(** A window with one row written and its two tallies moved. *)
Definition patched (w : Window) (segment : SegmentId) (r : SegmentRow) (reach present : Z) : Window :=
  mkWindow (w_base w) (w_gone w) reach (w_chunks (set_row w segment r)) present.

Lemma patched_flat w segment r reach present : full (w_chunks w) -> w_base w <= segment ->
  flat (patched w segment r reach present) = <[Z.to_nat (segment - w_base w) := r]> (flat w).
Proof.
  intros Hf H; destruct (chunk_place (segment - w_base w)) as [E Hj]; [lia|]; rewrite E.
  unfold flat, patched, set_row; cbn [w_chunks]; by apply concat_alter.
Qed.

Lemma patched_ok w segment r0 r reach present : window_ok w -> Window_row w segment = Some r0 -> row_ok r ->
  present = w_present w - counts r0 + counts r -> w_reach w <= reach -> (is_present r = true -> segment < reach) ->
  window_ok (patched w segment r reach present).
Proof.
  intros Hw E Hr Hp Hreach Hpr; destruct (row_Some w segment r0 Hw E) as [Ef Hb].
  pose proof (patched_flat w segment r reach present (wk_full _ Hw) (proj1 Hb)) as Efl; split; rewrite ?Efl; try apply Hw.
  - unfold patched, set_row; cbn [w_chunks]; apply full_alter, Hw.
  - unfold w_end, patched, set_row, len; cbn [w_base w_chunks]; rewrite length_alter; apply Hw.
  - apply Forall_insert; [apply Hw | done].
  - cbn [patched w_present]; rewrite (count_rows_insert _ _ r0) by done; rewrite Hp, (wk_present _ Hw); done.
  - cbn [patched w_base w_reach]; intros i r' Hi Hpres; destruct (decide (i = Z.to_nat (segment - w_base w))) as [->|Hne].
    + rewrite list_lookup_insert_eq in Hi by (by eapply lookup_lt_Some); injection Hi as <-; specialize (Hpr Hpres); lia.
    + rewrite list_lookup_insert_ne in Hi by done; pose proof (wk_reach _ Hw i r' Hi Hpres); lia.
Qed.

Lemma patched_row w segment r reach present s : full (w_chunks w) -> w_gone w <= w_base w -> is_Some (Window_row w segment) ->
  Window_row (patched w segment r reach present) s = if s =? segment then Some r else Window_row w s.
Proof.
  intros Hf Hg [r0 E]; destruct (Z.lt_ge_cases segment (w_base w)) as [Hlt|Hge]; [by rewrite row_below in E|].
  assert (forall w s, w_gone w <= w_base w -> full (w_chunks w) -> w_base w <= s -> Window_row w s = flat w !! Z.to_nat (s - w_base w)) as Hrow.
  { intros w1 s1 Hg1 Hf1 Hs; unfold Window_row; destruct (Z.ltb_spec s1 (w_gone w1)), (Z.ltb_spec s1 (w_base w1)); try lia; apply slot_row_flat; [done | lia]. }
  rewrite Hrow in E by done; destruct (Z.lt_ge_cases s (w_base w)) as [Hs|Hs].
  { rewrite !row_below by (done || cbn; done); destruct (Z.eqb_spec s segment); [lia | done]. }
  rewrite (Hrow (patched _ _ _ _ _)), patched_flat, (Hrow w) by (first [done | unfold patched, set_row; cbn [w_chunks]; by apply full_alter]).
  cbn [patched w_base]; destruct (Z.eqb_spec s segment) as [->|Hne].
  - apply list_lookup_insert_eq; by eapply lookup_lt_Some.
  - apply list_lookup_insert_ne; lia.
Qed.

Lemma patched_cell w segment r reach present s : window_ok w -> is_Some (Window_row w segment) ->
  cell (patched w segment r reach present) s = if s =? segment then r else cell w s.
Proof.
  intros Hw Hs; unfold cell; rewrite patched_row by (try apply Hw; done); cbn [patched w_gone]; destruct Hs as [r0 E].
  destruct (row_Some w segment r0 Hw E) as [_ Hb]; pose proof (wk_gone _ Hw).
  destruct (Z.ltb_spec s (w_gone w)), (Z.eqb_spec s segment); try done; lia.
Qed.

Lemma set_row_patched w segment r : set_row w segment r = patched w segment r (w_reach w) (w_present w).
Proof. done. Qed.

(** ** Opening a row *)

(** The window can stretch to a number. *)
Definition in_reach (w : Window) (segment : SegmentId) : bool :=
  match w_chunks w with
  | [] => true
  | _ => if segment <? w_base w then w_base w - (segment - segment mod CHUNKZ) <=? MAX_WINDOW else segment - w_base w <? MAX_WINDOW
  end.

Lemma grow_new fuel at_ chunks : 0 <= at_ -> at_ / CHUNKZ < Z.of_nat fuel + len chunks ->
  exists n, grow fuel at_ chunks = chunks ++ replicate n Chunk_new /\ at_ < CHUNKZ * len (grow fuel at_ chunks)
    /\ (n = 0%nat \/ CHUNKZ * len (grow fuel at_ chunks) <= at_ + CHUNKZ).
Proof.
  intros Ha; revert chunks; induction fuel as [|fuel IH]; intros chunks Hf; cbn [grow].
  - exists 0%nat; rewrite app_nil_r; split_and!; [done | | by left]; pose proof (Z.mul_succ_div_gt at_ CHUNKZ CHUNKZ_pos); pose proof CHUNKZ_pos; nia.
  - destruct (Z.leb_spec (len chunks * CHUNKZ) at_) as [Hle|Hgt].
    + destruct (IH (chunks ++ [Chunk_new])) as (n & E & Hlt & Hn); [len_lia|]; exists (S n); rewrite E in *; split_and!.
      * by rewrite <- app_assoc.
      * done.
      * right; destruct Hn as [->|Hn]; [| done]; rewrite app_nil_r in *; len_simpl; lia.
    + exists 0%nat; rewrite app_nil_r; split_and!; [done | lia | by left].
Qed.

Lemma aligned_down id : 0 <= id -> (id - id mod CHUNKZ) mod CHUNKZ = 0 /\ 0 <= id - id mod CHUNKZ <= id /\ id < id - id mod CHUNKZ + CHUNKZ.
Proof.
  intros; pose proof (Z.mod_pos_bound id CHUNKZ CHUNKZ_pos); pose proof (Z.mod_le id CHUNKZ); split; [| unfold CHUNKZ in *; lia].
  replace (id - id mod CHUNKZ) with (id / CHUNKZ * CHUNKZ) by (pose proof (Z.div_mod id CHUNKZ ltac:(done)); lia); by apply Z.mod_mul.
Qed.

Lemma aligned_above a b : 0 <= a -> a mod CHUNKZ = 0 -> a <= b -> a <= b - b mod CHUNKZ.
Proof.
  intros; pose proof (Z.div_mod a CHUNKZ ltac:(done)); pose proof (Z.div_mod b CHUNKZ ltac:(done)).
  pose proof (Z.div_le_mono a b CHUNKZ CHUNKZ_pos ltac:(done)); change CHUNKZ with 256 in *; lia.
Qed.

(** A window with blank rows put in at both ends. *)
Lemma widened_ok w lo hi : window_ok w -> w_base w - CHUNKZ * Z.of_nat lo >= w_gone w ->
  w_end w + CHUNKZ * Z.of_nat hi < U32 ->
  let w' := mkWindow (w_base w - CHUNKZ * Z.of_nat lo) (w_gone w) (w_reach w) (replicate lo Chunk_new ++ w_chunks w ++ replicate hi Chunk_new) (w_present w) in
  window_ok w' /\ forall s, cell w' s = cell w s.
Proof.
  intros Hw Hlo Hhi w'; pose proof (wk_gone _ Hw) as Hgone.
  assert (full (w_chunks w')) as Hf by (cbn; repeat apply Forall_app_2; try apply full_new; apply Hw).
  assert (flat w' = replicate (CHUNK * lo) SegmentRow_new ++ flat w ++ replicate (CHUNK * hi) SegmentRow_new) as Efl.
  { unfold flat; cbn; rewrite !concat_app, !concat_new; done. }
  assert (window_ok w') as Hw'.
  { split; rewrite ?Efl; [done | cbn; lia | apply Hw | | | | |].
    - cbn; rewrite <- (wk_base_aligned _ Hw); replace (w_base w - CHUNKZ * Z.of_nat lo) with (w_base w + - Z.of_nat lo * CHUNKZ) by lia; by apply Z.mod_add.
    - unfold w_end in *; cbn; rewrite !len_app, !len_replicate; lia.
    - repeat apply Forall_app_2; try (apply Forall_replicate, row_ok_new); apply Hw.
    - rewrite !count_rows_app, !count_rows_new; cbn; rewrite (wk_present _ Hw); lia.
    - intros i r Hi Hp; cbn [w' w_base w_reach]; apply lookup_app_Some in Hi as [Hi|[Hl Hi]].
      + apply lookup_replicate in Hi as [-> _]; done.
      + apply lookup_app_Some in Hi as [Hi|[_ Hi]]; [| apply lookup_replicate in Hi as [-> _]; done].
        pose proof (wk_reach _ Hw _ r Hi Hp); rewrite length_replicate in *; unfold CHUNKZ; lia. }
  split; [done|]; intros s; unfold cell; cbn [w' w_gone]; destruct (s <? w_gone w) eqn:Eg; [done|]; b2p.
  destruct (Z.lt_ge_cases s (w_base w')) as [Hs|Hs].
  { rewrite !row_below; [done | cbn in Hs; unfold CHUNKZ in *; lia | done]. }
  rewrite (row_flat w') by done; rewrite Efl; cbn [w' w_base] in *; destruct (Z.lt_ge_cases s (w_base w)) as [Hs'|Hs'].
  - rewrite row_below by done; rewrite lookup_app_l, lookup_replicate_2; [done | |rewrite length_replicate]; unfold CHUNKZ in *; lia.
  - rewrite row_flat by done; rewrite lookup_app_r, length_replicate by (rewrite length_replicate; unfold CHUNKZ in *; lia).
    replace (Z.to_nat _ - _)%nat with (Z.to_nat (s - w_base w)) by (unfold CHUNKZ in *; lia).
    destruct (flat w !! Z.to_nat (s - w_base w)) as [r|] eqn:E; [by rewrite (lookup_app_l_Some _ _ _ _ E)|].
    rewrite lookup_app_r by (by apply lookup_ge_None); destruct (replicate _ _ !! _) eqn:Er; [by apply lookup_replicate in Er as [-> _] | done].
Qed.

Lemma block_in_window id : id mod CHUNKZ < MAX_WINDOW.
Proof. pose proof (Z.mod_pos_bound id CHUNKZ CHUNKZ_pos); change CHUNKZ with 256 in *; change MAX_WINDOW with 1048576; lia. Qed.

(** A window of no rows stands anywhere. *)
Lemma rebased_ok w base : window_ok w -> w_chunks w = [] -> w_gone w <= base < U32 -> base mod CHUNKZ = 0 ->
  window_ok (mkWindow base (w_gone w) (w_reach w) [] (w_present w)) /\ forall s, cell (mkWindow base (w_gone w) (w_reach w) [] (w_present w)) s = cell w s.
Proof.
  intros Hw Ec Hb Ha; pose proof (wk_gone _ Hw); pose proof (wk_present _ Hw) as Hp; unfold flat in Hp; rewrite Ec in Hp; split.
  - split; try done; cbn [w_chunks w_base w_gone w_reach w_present]; [apply Forall_nil; done | lia | apply Hw | unfold w_end; cbn [w_base w_chunks]; change (len []) with 0; lia].
  - intros s; unfold cell, Window_row, slot_row; cbn; rewrite Ec; by repeat case_match.
Qed.

(** The window as [open] has stretched it before it looks at the row. *)
Lemma stretched_ok w base id : window_ok w -> segment_ok id -> w_base w = base -> w_gone w <= id -> base <= id -> base + CHUNKZ * len (w_chunks w) < U32 ->
  let at_ := id - base in
  let w' := mkWindow base (w_gone w) (w_reach w) (grow (S (Z.to_nat (at_ / CHUNKZ))) at_ (w_chunks w)) (w_present w) in
  window_ok w' /\ (forall s, cell w' s = cell w s) /\ slot_row w' at_ = Some (cell w id) /\ Window_row w' id = Some (cell w id).
Proof.
  intros Hw Hid Eb Hg Hb He at_ w'; destruct (grow_new (S (Z.to_nat (at_ / CHUNKZ))) at_ (w_chunks w)) as (n & E & Hlt & Hn).
  { subst at_; lia. } { pose proof (Z.div_pos at_ CHUNKZ); len_lia. }
  destruct (widened_ok w 0 n Hw) as [Hw' Hc]; [pose proof (wk_gone _ Hw); lia | |].
  { unfold w_end; rewrite E, len_app, len_replicate in *; destruct Hn as [->|Hn]; [lia|].
    destruct Hid; change CHUNKZ with 256 in *; subst at_; lia. }
  assert (w' = mkWindow (w_base w - CHUNKZ * Z.of_nat 0) (w_gone w) (w_reach w) (replicate 0 Chunk_new ++ w_chunks w ++ replicate n Chunk_new) (w_present w)) as Ew.
  { subst w'; rewrite E; f_equal; lia. }
  rewrite <- Ew in Hw', Hc; split_and!; [done | done | |].
  all: assert (is_Some (flat w' !! Z.to_nat at_)) as [r Hr]
    by (apply lookup_lt_is_Some; apply Nat2Z.inj_lt; rewrite len_flat by apply Hw'; subst at_ w'; cbn [w_chunks]; lia).
  all: assert (Window_row w' id = Some r) as Erow by (rewrite row_flat by done; exact Hr).
  all: assert (cell w id = r) as -> by (rewrite <- Hc; unfold cell; cbn [w' w_gone]; destruct (Z.ltb_spec id (w_gone w)); [lia|]; by rewrite Erow).
  - rewrite slot_row_flat by (apply Hw' || lia); exact Hr.
  - exact Erow.
Qed.

Lemma open_ok w id : window_ok w -> segment_ok id ->
  let '(w', o) := Window_open w id in
  window_ok w' /\ (forall s, cell w' s = cell w s) /\ (o <> None -> Window_row w' id = Some (cell w id))
  /\ o = if is_retired (cell w id) || negb (in_reach w id) then None else Some (cell w id).
Proof.
  intros Hw Hid; unfold Window_open; destruct (Z.ltb_spec id (w_gone w)) as [Hg|Hg].
  { split_and!; [done | done | done |]; unfold cell; by destruct (Z.ltb_spec id (w_gone w)); [| lia]. }
  assert (0 <= w_gone w) as Hg0 by apply Hw; destruct (aligned_down id) as (Ha & Hdown & Hup); [lia|].
  pose proof (aligned_above (w_gone w) id Hg0 (wk_gone_aligned _ Hw) Hg) as Hga.
  assert (forall w0, window_ok w0 -> (forall s, cell w0 s = cell w s) -> w_gone w0 = w_gone w -> w_base w0 <= id -> id - w_base w0 < MAX_WINDOW ->
    let w' := mkWindow (w_base w0) (w_gone w0) (w_reach w0) (grow (S (Z.to_nat ((id - w_base w0) / CHUNKZ))) (id - w_base w0) (w_chunks w0)) (w_present w0) in
    let o := r ← slot_row w' (id - w_base w0); if is_retired r then None else Some r in
    window_ok w' /\ (forall s, cell w' s = cell w s) /\ (o <> None -> Window_row w' id = Some (cell w id))
    /\ o = if is_retired (cell w id) then None else Some (cell w id)) as Hstretch.
  { intros w0 Hw0 Hc0 Hg0' Hb0 _ w' o; destruct (stretched_ok w0 (w_base w0) id Hw0 Hid) as (Hw' & Hc' & Es & Er); [done | lia | lia | apply Hw0 |].
    fold w' in Hw', Hc', Es, Er; rewrite Hc0 in *; subst o; rewrite Es; cbn [mbind option_bind]; split_and!; [done | | | done].
    - intros s; by rewrite Hc', Hc0.
    - intros _; exact Er. }
  destruct (w_chunks w) as [|c cs] eqn:Ec.
  - destruct (rebased_ok w (id - id mod CHUNKZ) Hw Ec) as [Hw0 Hc0]; [destruct Hid; change CHUNKZ with 256 in *; lia | done |].
    destruct (Z.ltb_spec id (id - id mod CHUNKZ)); [lia|]; cbn [andb].
    specialize (Hstretch _ Hw0 Hc0 eq_refl); cbn [w_base w_gone w_reach w_chunks w_present] in Hstretch.
    unfold in_reach; rewrite Ec; cbn [negb orb]; destruct (Z.leb_spec MAX_WINDOW (id - (id - id mod CHUNKZ))) as [Hm|Hm].
    + pose proof (block_in_window id); lia.
    + rewrite orb_false_r; apply Hstretch; lia.
  - rewrite <- Ec; unfold in_reach; rewrite Ec; rewrite <- Ec; destruct (Z.ltb_spec id (w_base w)) as [Hlt|Hge]; cbn [andb].
    + destruct (Z.ltb_spec MAX_WINDOW (w_base w - (id - id mod CHUNKZ))) as [Hm|Hm].
      { split_and!; [by destruct w | by destruct w | done |]. destruct (Z.leb_spec (w_base w - (id - id mod CHUNKZ)) MAX_WINDOW); [lia|]; by rewrite orb_true_r. }
      destruct (Z.leb_spec (w_base w - (id - id mod CHUNKZ)) MAX_WINDOW); [| lia]; cbn [negb]; rewrite orb_false_r.
      set (lo := Z.to_nat ((w_base w - (id - id mod CHUNKZ)) / CHUNKZ)).
      assert (CHUNKZ * Z.of_nat lo = w_base w - (id - id mod CHUNKZ)) as Elo.
      { pose proof (wk_base_aligned _ Hw) as Hba; subst lo; rewrite Z2Nat.id by (apply Z.div_pos; [lia | done]); symmetry; apply Z.div_exact; [done|].
        rewrite Zminus_mod, Hba, Ha; done. }
      destruct (widened_ok w lo 0 Hw) as [Hw0 Hc0]; [lia | pose proof (wk_end _ Hw); lia |]; rewrite app_nil_r, Elo in *.
      specialize (Hstretch _ Hw0 Hc0 eq_refl); cbn [w_base w_gone w_reach w_chunks w_present] in Hstretch.
      destruct (Z.leb_spec MAX_WINDOW (id - (w_base w - (w_base w - (id - id mod CHUNKZ))))) as [Hm'|Hm'].
      * pose proof (block_in_window id); lia.
      * apply Hstretch; lia.
    + destruct (Z.leb_spec MAX_WINDOW (id - w_base w)) as [Hm|Hm].
      { split_and!; [by destruct w | by destruct w | done |]. destruct (Z.ltb_spec (id - w_base w) MAX_WINDOW); [lia|]; by rewrite orb_true_r. }
      destruct (Z.ltb_spec (id - w_base w) MAX_WINDOW); [| lia]; cbn [negb]; rewrite orb_false_r; by apply Hstretch.
Qed.

(** ** Bookings *)

Definition keeps_flags (act : SegmentRow -> SegmentRow) : Prop := forall r, sr_flags (act r) = sr_flags r.

(** The cell of one segment changed and no other. *)
Definition changed (w w' : Window) (segment : SegmentId) (r : SegmentRow) : Prop :=
  forall s, cell w' s = if s =? segment then r else cell w s.

Lemma keeps_row_ok r r' : row_ok r -> is_retired r = false -> sr_flags r' = sr_flags r -> row_ok r' /\ counts r' = counts r.
Proof. intros [->|H] Hr E; [done|]; split; [right; by rewrite E | unfold counts, is_present; by rewrite E]. Qed.

Lemma raised_ok r : row_ok r -> is_retired r = false -> row_ok (raise PRESENT r) /\ is_present (raise PRESENT r) = true /\ sr_flags (raise PRESENT r) = PRESENT.
Proof.
  intros Hr Hn; assert (sr_flags (raise PRESENT r) = PRESENT) as E by (destruct Hr as [->|[E|E]]; [done | |]; cbn; by rewrite E).
  split_and!; [by right; right | unfold is_present; by rewrite E | done].
Qed.

Lemma raised_present r : row_ok r -> is_present r = true -> raise PRESENT r = r.
Proof. intros [->|[E|E]] H; [done | unfold is_present in H; by rewrite E in H |]; destruct r; cbn in *; subst; done. Qed.

Lemma present_not_retired r : row_ok r -> is_present r = true -> is_retired r = false.
Proof. intros [->|[(_ & E & _)|(_ & _ & E)]]%row_ok_cases H; [done | congruence | done]. Qed.

Lemma retired_not_present r : row_ok r -> is_retired r = true -> is_present r = false.
Proof. intros Hr H; by rewrite (retired_spent r Hr H). Qed.

Lemma open_counted_ok w id : window_ok w -> segment_ok id ->
  let '(w', o) := Window_open_counted w id in
  window_ok w' /\ if is_retired (cell w id) || negb (in_reach w id) then o = None /\ forall s, cell w' s = cell w s
  else o = Some (raise PRESENT (cell w id)) /\ Window_row w' id = o /\ changed w w' id (raise PRESENT (cell w id)).
Proof.
  intros Hw Hid; pose proof (open_ok w id Hw Hid) as Ho; unfold Window_open_counted; destruct (Window_open w id) as [w1 o]; destruct Ho as (Hw1 & Hc1 & Hrow & Ho).
  destruct (is_retired (cell w id) || negb (in_reach w id)) eqn:E; rewrite Ho; [done|]; rewrite Ho in Hrow; specialize (Hrow ltac:(done)).
  apply orb_false_iff in E as [Er _]; destruct (raised_ok (cell w id) (cell_ok w id Hw) Er) as (Hr & Hp & _).
  set (reach := Z.max (w_reach w1) (id + 1)); set (present := if negb (is_present (cell w id)) then w_present w1 + 1 else w_present w1).
  change (mkWindow _ _ _ _ _) with (patched w1 id (raise PRESENT (cell w id)) reach present).
  assert (window_ok (patched w1 id (raise PRESENT (cell w id)) reach present)) as Hw2.
  { apply (patched_ok w1 id (cell w id)); [done.. | | subst reach; lia | subst reach; lia].
    subst present; unfold counts; rewrite Hp; destruct (is_present (cell w id)); cbn [negb]; lia. }
  assert (Window_row (patched w1 id (raise PRESENT (cell w id)) reach present) id = Some (raise PRESENT (cell w id))) as ->
    by (rewrite patched_row; [by rewrite Z.eqb_refl | apply Hw1 | apply Hw1 | by eexists]).
  split_and!; [done | done | done |]; intros s; rewrite patched_cell by (done || by eexists); by rewrite Hc1.
Qed.

(** Writing an acted-on row back where it was found. *)
Lemma acted_ok w id r act : window_ok w -> Window_row w id = Some r -> is_retired r = false -> keeps_flags act ->
  window_ok (set_row w id (act r)) /\ changed w (set_row w id (act r)) id (act r).
Proof.
  intros Hw E Hr Ha; pose proof (row_row_ok w id r Hw E) as Hok; destruct (keeps_row_ok r (act r) Hok Hr (Ha r)) as [Hok' Hc]; rewrite set_row_patched; split.
  - apply (patched_ok w id r); [done.. | lia | lia |]; intros Hp; destruct (row_Some w id r Hw E) as [Ef Hb].
    pose proof (wk_reach _ Hw _ r Ef) as Hreach; unfold is_present in Hp, Hreach; rewrite Ha in Hp; specialize (Hreach Hp); lia.
  - intros s; apply patched_cell; [done | by eexists].
Qed.

(** A booking the table turns away: one for a retired segment, or out of the window's reach. *)
Definition refuses (w : Window) (id : SegmentId) : bool := negb (is_present (cell w id)) && (is_retired (cell w id) || negb (in_reach w id)).

Lemma counted_row w id r : window_ok w -> Window_counted w id = Some r -> Window_row w id = Some r /\ r = cell w id /\ is_present r = true.
Proof.
  intros Hw E; pose proof E as E'; rewrite counted_cell in E' by done; destruct (is_present (cell w id)) eqn:Ep; [injection E' as <- | done].
  unfold Window_counted in E; destruct (Window_row w id) as [r|]; cbn in E; [| done]; destruct (is_present r); [by simplify_eq | done].
Qed.

Lemma opened_ok t id act : window_ok (st_window t) -> segment_ok id -> keeps_flags act ->
  window_ok (st_window (opened t id act)) /\ st_next_incarnation (opened t id act) = st_next_incarnation t
  /\ if refuses (st_window t) id
     then (forall s, cell (st_window (opened t id act)) s = cell (st_window t) s) /\ st_dropped (opened t id act) = as_u64 (st_dropped t + 1)
     else changed (st_window t) (st_window (opened t id act)) id (act (raise PRESENT (cell (st_window t) id))) /\ st_dropped (opened t id act) = st_dropped t.
Proof.
  intros Hw Hid Ha; unfold opened, refuses; set (w := st_window t) in *; pose proof (cell_ok w id Hw) as Hok.
  destruct (Window_counted w id) as [r|] eqn:Ec.
  - destruct (counted_row w id r Hw Ec) as (Er & -> & Hp); rewrite Hp; cbn [negb andb]; rewrite (raised_present _ Hok Hp).
    destruct (acted_ok w id (cell w id) act Hw Er (present_not_retired _ Hok Hp) Ha) as [Hw' Hc]; done.
  - rewrite counted_cell in Ec by done; destruct (is_present (cell w id)) eqn:Hp; [done|]; cbn [negb andb]; rewrite is_retired_cell.
    destruct (is_retired (cell w id)) eqn:Hr; cbn [orb]; [done|].
    pose proof (open_counted_ok w id Hw Hid) as Ho; rewrite Hr in Ho; cbn [orb] in Ho; destruct (Window_open_counted w id) as [w1 o]; destruct Ho as [Hw1 Ho].
    destruct (in_reach w id); cbn [negb] in *; [destruct Ho as (-> & Hrow & Hc) | by destruct Ho as [-> Hc]].
    destruct (raised_ok _ Hok Hr) as (Hok' & Hp' & _); destruct (acted_ok w1 id _ act Hw1 Hrow (present_not_retired _ Hok' Hp') Ha) as [Hw' Hc'].
    split_and!; [done | done | | done]; intros s; cbn [with_window st_window]; rewrite Hc', Hc; by destruct (s =? id).
Qed.

Lemma booked_ok t id act : window_ok (st_window t) -> keeps_flags act ->
  window_ok (st_window (booked t id act)) /\ st_next_incarnation (booked t id act) = st_next_incarnation t
  /\ if is_present (cell (st_window t) id)
     then changed (st_window t) (st_window (booked t id act)) id (act (cell (st_window t) id)) /\ st_dropped (booked t id act) = st_dropped t
     else (forall s, cell (st_window (booked t id act)) s = cell (st_window t) s) /\ st_dropped (booked t id act) = as_u64 (st_dropped t + 1).
Proof.
  intros Hw Ha; unfold booked; pose proof (cell_ok _ id Hw) as Hok; destruct (Window_counted (st_window t) id) as [r|] eqn:Ec.
  - destruct (counted_row _ id r Hw Ec) as (Er & -> & Hp); rewrite Hp.
    destruct (acted_ok _ id _ act Hw Er (present_not_retired _ Hok Hp) Ha) as [Hw' Hc]; done.
  - rewrite counted_cell in Ec by done; by destruct (is_present _).
Qed.

(** ** Retiring a segment *)

Lemma retired_run_ok w : window_ok w -> forall fuel at_, w_base w <= at_ <= w_end w -> w_end w - at_ < Z.of_nat fuel ->
  let a := retired_run fuel w at_ in
  at_ <= a <= w_end w /\ (forall s, at_ <= s < a -> Window_row w s = Some spent)
  /\ match Window_row w a with Some r => is_retired r = false | None => True end.
Proof.
  intros Hw; pose proof (wk_gone _ Hw); pose proof (wk_end _ Hw); induction fuel as [|fuel IH]; intros at_ Ha Hf; [lia|]; cbn [retired_run].
  assert (as_u32 at_ = at_) as -> by (apply Z.mod_small; lia); destruct (Window_row w at_) as [r|] eqn:E; [| split_and!; [lia | lia | lia | by rewrite E]].
  destruct (row_Some w at_ r Hw E) as [_ Hb]; destruct (is_retired r) eqn:Er; [| split_and!; [lia | lia | lia | by rewrite E]].
  apply (retired_spent r (row_row_ok w at_ r Hw E)) in Er as ->; destruct (IH (at_ + 1)) as (Hle & Hs & Hstop); [lia | lia |]; split_and!; [lia | lia | | done].
  intros s Hs'; destruct (Z.eq_dec s at_) as [->|]; [done | apply Hs; lia].
Qed.

Lemma free_blocks_ok chunks : forall base gone at_, base <= at_ -> exists k, free_blocks base gone at_ chunks
    = (base + CHUNKZ * Z.of_nat k, if (k =? 0)%nat then gone else base + CHUNKZ * Z.of_nat k, drop k chunks)
  /\ base + CHUNKZ * Z.of_nat k <= at_ /\ (k <= length chunks)%nat.
Proof.
  induction chunks as [|c chunks IH]; intros base gone at_ Hb; cbn [free_blocks].
  - exists 0%nat; cbn [drop length Nat.eqb]; rewrite Z.mul_0_r, Z.add_0_r; done.
  - destruct (Z.leb_spec (base + CHUNKZ) at_) as [Hle|Hgt].
    + destruct (IH (base + CHUNKZ) (base + CHUNKZ) at_ Hle) as (k & -> & Hk & Hl); exists (S k); cbn [drop length Nat.eqb]; split_and!; [| lia | lia].
      destruct (Nat.eqb_spec k 0) as [->|]; do 2 f_equal; lia.
    + exists 0%nat; cbn [drop length Nat.eqb]; rewrite Z.mul_0_r, Z.add_0_r; split_and!; [done | lia | lia].
Qed.

Lemma count_rows_spent rows : (forall i r, rows !! i = Some r -> r = spent) -> count_rows rows = 0.
Proof.
  induction rows as [|r rows IH]; intros H; [done|]; cbn [count_rows]; rewrite (H 0%nat r eq_refl).
  rewrite IH; [done|]; intros i r' Hi; by apply (H (S i)).
Qed.

Lemma concat_drop (chunks : list (list SegmentRow)) k : full chunks -> concat (drop k chunks) = drop (CHUNK * k) (concat chunks).
Proof.
  intros Hf; revert k; induction Hf as [|c cs Hc Hf IH]; intros k; [by rewrite drop_nil; cbn; rewrite drop_nil|].
  destruct k as [|k]; [by rewrite Nat.mul_0_r|]; cbn [drop concat]; rewrite IH.
  replace (CHUNK * S k)%nat with (length c + CHUNK * k)%nat by lia; by rewrite drop_app_add.
Qed.

Lemma slide_ok w : window_ok w ->
  window_ok (Window_slide w)
  /\ forall s, cell (Window_slide w) s = cell w s \/ (s < w_base w /\ cell w s = SegmentRow_new /\ cell (Window_slide w) s = spent).
Proof.
  intros Hw; unfold Window_slide; pose proof (wk_gone _ Hw) as Hg; rewrite Z.max_l by lia.
  pose proof (len_nonneg (w_chunks w)) as Hl0; destruct (retired_run_ok w Hw (S (CHUNK * length (w_chunks w))) (w_base w)) as (Hle & Hs & _).
  { unfold w_end; change CHUNKZ with 256; lia. } { unfold w_end, len, CHUNKZ; lia. }
  set (a := retired_run _ _ _) in *; destruct (free_blocks_ok (w_chunks w) (w_base w) (w_gone w) a (proj1 Hle)) as (k & -> & Hk & Hkl).
  destruct (Nat.eqb_spec k 0) as [->|Hk0].
  { rewrite Z.mul_0_r, Z.add_0_r; cbn [drop]; split; [| by left]; split; try apply Hw; intros i r Hi Hp; pose proof (wk_reach _ Hw i r Hi Hp); cbn; lia. }
  set (w' := mkWindow _ _ _ _ _); assert (forall i r, take (CHUNK * k) (flat w) !! i = Some r -> r = spent) as Hfreed.
  { intros i r [Hi Hik]%lookup_take_Some; specialize (Hs (w_base w + Z.of_nat i)); rewrite row_flat in Hs by (done || lia).
    replace (Z.to_nat (w_base w + Z.of_nat i - w_base w)) with i in Hs by lia; rewrite Hi in Hs; assert (Some r = Some spent) as [= ->] by (apply Hs; unfold CHUNKZ in Hk; lia); done. }
  assert (flat w' = drop (CHUNK * k) (flat w)) as Efl by (unfold flat; cbn [w' w_chunks]; apply concat_drop, Hw).
  assert (window_ok w') as Hw'.
  { split; rewrite ?Efl; cbn [w' w_chunks w_base w_gone w_reach w_present].
    - apply Forall_drop, Hw.
    - change CHUNKZ with 256; lia.
    - rewrite Z.mul_comm, Z.mod_add by done; apply Hw.
    - rewrite Z.mul_comm, Z.mod_add by done; apply Hw.
    - unfold w_end; cbn [w' w_base w_chunks]; pose proof (wk_end _ Hw) as He; unfold w_end in He; rewrite len_drop; unfold len in *; change CHUNKZ with 256 in *; lia.
    - apply Forall_drop, Hw.
    - rewrite (wk_present _ Hw), <- (take_drop (CHUNK * k) (flat w)), count_rows_app, (count_rows_spent _ Hfreed), take_drop; done.
    - intros i r Hi Hp; rewrite lookup_drop in Hi; pose proof (wk_reach _ Hw _ r Hi Hp); unfold CHUNKZ; lia. }
  split; [done|]; intros s; unfold cell; cbn [w' w_gone].
  destruct (Z.ltb_spec s (w_gone w)), (Z.ltb_spec s (w_base w + CHUNKZ * Z.of_nat k)) as [Hsk|Hsk]; [by left | change CHUNKZ with 256 in *; lia | |].
  - destruct (Z.lt_ge_cases s (w_base w)); [right; by rewrite row_below|]; left; rewrite Hs by lia; done.
  - left; rewrite !row_flat by (done || (cbn [w' w_base]; change CHUNKZ with 256 in *; lia)); rewrite Efl, lookup_drop; cbn [w' w_base].
    do 2 f_equal; unfold CHUNKZ in *; lia.
Qed.

Lemma retire_ok w id : window_ok w ->
  window_ok (Window_retire w id)
  /\ forall s, let r := if (s =? id) && is_known (cell w id) then spent else cell w s in
       cell (Window_retire w id) s = r \/ (r = SegmentRow_new /\ cell (Window_retire w id) s = spent).
Proof.
  intros Hw; unfold Window_retire; set (w1 := match Window_row w id with Some r => _ | None => w end).
  assert (window_ok w1 /\ forall s, cell w1 s = if (s =? id) && is_known (cell w id) then spent else cell w s) as [Hw1 Hc1].
  { subst w1; destruct (Window_row w id) as [r|] eqn:E.
    - destruct (row_Some w id r Hw E) as [_ Hb]; pose proof (wk_gone _ Hw); assert (cell w id = r) as -> by (unfold cell; rewrite E; destruct (Z.ltb_spec id (w_gone w)); [lia | done]).
      destruct (is_known r); [| split; [done|]; intros s; by rewrite andb_false_r]; split.
      + change (mkWindow _ _ _ _ _) with (patched w id spent (w_reach w) (w_present w - counts r)); apply (patched_ok w id r); [done | done | by left | change (counts spent) with 0; lia | lia | done].
      + intros s; change (mkWindow _ _ _ _ _) with (patched w id spent (w_reach w) (w_present w - counts r)); rewrite andb_true_r; apply patched_cell; [done | by eexists].
    - split; [done|]; intros s; assert (is_known (cell w id) = (id <? w_gone w)) as -> by (unfold cell; rewrite E; by destruct (id <? w_gone w)).
      destruct (id <? w_gone w) eqn:Eg; [rewrite andb_true_r | by rewrite andb_false_r].
      destruct (Z.eqb_spec s id) as [->|]; [| done]; unfold cell; by rewrite Eg. }
  assert (window_ok (mkWindow (w_base w1) (w_gone w1) (if w_present w1 =? 0 then w_base w1 else w_reach w1) (w_chunks w1) (w_present w1))) as Hw2.
  { split; try apply Hw1; intros i r Hi Hp; cbn [w_base w_reach]; destruct (Z.eqb_spec (w_present w1) 0) as [E0|]; [| by apply (wk_reach _ Hw1 i r)].
    rewrite (wk_present _ Hw1) in E0; change (flat w1 !! i = Some r) in Hi; rewrite (count_rows_0 _ i r E0 Hi) in Hp; done. }
  destruct (slide_ok _ Hw2) as [Hw3 Hc3]; split; [done|]; intros s; cbv zeta; rewrite <- Hc1; destruct (Hc3 s) as [E|(_ & E1 & E2)]; [left; exact E | right; split; [exact E1 | exact E2]].
Qed.
