(* ===== verification/SegmentTable.v ===== *)
(** * What the segment table answers ([index/counters.rs])

    Over any history of the table's operations: what each segment holds is what the history booked
    against it, the walk over the window is the list of counted segments in number order, the floors
    are true minima, and a retired segment takes no more. *)
From S2P Require Import Prelude Bytes Lsn Counters CounterCells.

(** ** The walk over the window *)

Fixpoint present_rows (base : Z) (rows : list SegmentRow) : list (SegmentId * SegmentRow) :=
  match rows with
  | [] => []
  | r :: rows => if is_present r then (base, r) :: present_rows (base + 1) rows else present_rows (base + 1) rows
  end.

Lemma present_rows_app l1 l2 base : present_rows base (l1 ++ l2) = present_rows base l1 ++ present_rows (base + len l1) l2.
Proof.
  revert base; induction l1 as [|r l1 IH]; intros base; cbn [present_rows app]; [by rewrite len_nil, Z.add_0_r|].
  rewrite IH, len_cons, Z.add_assoc; by destruct (is_present r).
Qed.

Lemma present_rows_none rows base : (forall r, r ∈ rows -> is_present r = false) -> present_rows base rows = [].
Proof.
  revert base; induction rows as [|r rows IH]; intros base H; [done|]; cbn [present_rows]; rewrite H by left.
  apply IH; intros r' Hr; apply H; by right.
Qed.

Lemma present_rows_elem rows base s r : (s, r) ∈ present_rows base rows <-> exists i, s = base + Z.of_nat i /\ rows !! i = Some r /\ is_present r = true.
Proof.
  revert base; induction rows as [|x rows IH]; intros base; cbn [present_rows].
  { split; [by intros ?%not_elem_of_nil | intros (i & _ & E & _); done]. }
  assert ((s, r) ∈ present_rows (base + 1) rows <-> exists i, s = base + Z.of_nat (S i) /\ (x :: rows) !! S i = Some r /\ is_present r = true) as Htl.
  { rewrite IH; split; intros (i & -> & Hi); exists i; split; [lia | done | lia | done]. }
  destruct (is_present x) eqn:Ex; [rewrite elem_of_cons|]; rewrite Htl; split.
  - intros [[= -> ->]|(i & Hi)]; [exists 0%nat; split; [lia | done] | by exists (S i)].
  - intros ([|i] & -> & E & Hp); [left; cbn in E; injection E as ->; f_equal; lia | right; by exists i].
  - intros (i & Hi); by exists (S i).
  - intros ([|i] & -> & E & Hp); [cbn in E; simplify_eq; congruence | by exists i].
Qed.

Lemma present_rows_sorted rows base : StronglySorted (fun a b => a.1 < b.1) (present_rows base rows) /\ length (present_rows base rows) = Z.to_nat (count_rows rows).
Proof.
  revert base; induction rows as [|x rows IH]; intros base; [split; [constructor | done]|]; cbn [present_rows count_rows]; pose proof (count_rows_nonneg rows).
  unfold counts; destruct (IH (base + 1)) as [Hs Hl]; destruct (is_present x); [| split; [done | by rewrite Hl]]; split; [constructor; [done|] | cbn [length]; lia].
  apply Forall_forall; intros [s r] (i & -> & _)%present_rows_elem; cbn; lia.
Qed.

Lemma omap_rows chunk base n : omap (fun slot => r ← chunk !! Z.to_nat slot; if is_present r then Some (base + slot, r) else None) (seqZ 0 (Z.of_nat n))
  = present_rows base (take n chunk).
Proof.
  rewrite seqZ_seq; induction n as [|n IH]; [done|]; rewrite seq_S, map_app, omap_app, IH; cbn [Nat.add map omap list_omap]; rewrite Nat2Z.id.
  destruct (chunk !! n) as [r|] eqn:E; cbn [mbind option_bind].
  - rewrite (take_S_r _ _ _ E), present_rows_app, len_take; f_equal; apply lookup_lt_Some in E; cbn [present_rows].
    rewrite Z.min_l by (unfold len; lia); by destruct (is_present r).
  - rewrite app_nil_r, !take_ge; [done | apply lookup_ge_None in E; lia | by apply lookup_ge_None].
Qed.

Lemma chunk_rows_ok w to i chunk : length chunk = CHUNK -> 0 <= w_base w + (Z.of_nat i + 1) * CHUNKZ <= U32 -> 0 <= w_base w ->
  (forall j r, chunk !! j = Some r -> is_present r = true -> Z.of_nat i * CHUNKZ + Z.of_nat j < to) ->
  chunk_rows w 0 to (i, chunk) = present_rows (w_base w + Z.of_nat i * CHUNKZ) chunk.
Proof.
  intros Hc Hu Hb Hto; unfold chunk_rows; set (high := Z.min (saturating_sub to (Z.of_nat i * CHUNKZ)) CHUNKZ); assert (0 <= high <= CHUNKZ) as Hh.
  { subst high; unfold saturating_sub; change CHUNKZ with 256; lia. }
  replace (Z.min (saturating_sub 0 (Z.of_nat i * CHUNKZ)) CHUNKZ) with 0 by (unfold saturating_sub; change CHUNKZ with 256; lia); rewrite Z.sub_0_r.
  rewrite (list_omap_ext _ (fun slot => r ← chunk !! Z.to_nat slot; if is_present r then Some (w_base w + Z.of_nat i * CHUNKZ + slot, r) else None)
             _ (seqZ 0 (Z.of_nat (Z.to_nat high)))).
  - rewrite omap_rows; rewrite <- (take_drop (Z.to_nat high) chunk) at 2; rewrite present_rows_app, (present_rows_none (drop _ _)), app_nil_r; [done|].
    intros r [j Hj]%list_elem_of_lookup; rewrite lookup_drop in Hj; destruct (is_present r) eqn:Ep; [| done].
    specialize (Hto _ r Hj Ep); apply lookup_lt_Some in Hj; exfalso; subst high; unfold saturating_sub in *; unfold CHUNKZ in *; lia.
  - rewrite Z2Nat.id by lia; apply Forall_Forall2_diag, Forall_forall; intros slot Hs%elem_of_seqZ; destruct (chunk !! Z.to_nat slot) as [r|]; [| done]; cbn [mbind option_bind].
    destruct (is_present r); [| done]; do 2 f_equal; unfold as_u32; rewrite Z.mod_small; [lia|]; change CHUNKZ with 256 in *; lia.
Qed.

Lemma chunks_rows_ok w to chunks k : full chunks -> 0 <= w_base w -> w_base w + (Z.of_nat k + len chunks) * CHUNKZ <= U32 ->
  (forall j r, concat chunks !! j = Some r -> is_present r = true -> Z.of_nat k * CHUNKZ + Z.of_nat j < to) ->
  concat (map (chunk_rows w 0 to) (imap (fun i c => ((k + i)%nat, c)) chunks)) = present_rows (w_base w + Z.of_nat k * CHUNKZ) (concat chunks).
Proof.
  intros Hf; revert k; induction Hf as [|c cs Hc Hf IH]; intros k Hb Hu Hto; [done|]; rewrite imap_cons; cbn [map concat]; rewrite present_rows_app, Nat.add_0_r.
  rewrite len_cons in Hu; pose proof (len_nonneg cs); rewrite chunk_rows_ok; [f_equal | done | change CHUNKZ with 256 in *; lia | done |].
  - rewrite (imap_ext (_ ∘ S) (fun i c => ((S k + i)%nat, c))) by (intros; cbn; f_equal; lia); rewrite IH; [f_equal; unfold len, CHUNKZ in *; lia | done | lia |].
    intros j r Hj Hp; specialize (Hto (length c + j)%nat r); cbn [concat] in Hto; rewrite lookup_app_r in Hto by lia.
    replace (length c + j - length c)%nat with j in Hto by lia; specialize (Hto Hj Hp); unfold CHUNKZ in *; lia.
  - intros j r Hj Hp; apply (Hto j r); [| done]; cbn [concat]; by apply lookup_app_l_Some.
Qed.

Lemma counted_rows_ok w : window_ok w -> Window_counted_rows w = present_rows (w_base w) (flat w).
Proof.
  intros Hw; unfold Window_counted_rows; pose proof (wk_gone _ Hw); rewrite Z.max_r, Z.sub_diag by lia.
  rewrite (imap_ext pair (fun i c => ((0 + i)%nat, c))) by done; rewrite chunks_rows_ok; [f_equal; lia | apply Hw | lia | |].
  - pose proof (wk_end _ Hw); unfold w_end in *; lia.
  - intros j r Hj Hp; pose proof (wk_reach _ Hw j r Hj Hp); lia.
Qed.

(** The walk gives the counted segments, each once, in number order, as many as the tally says. *)
Lemma counted_rows_exact w : window_ok w ->
  (forall s r, (s, r) ∈ Window_counted_rows w <-> Window_counted w s = Some r)
  /\ StronglySorted (fun a b => a.1 < b.1) (Window_counted_rows w) /\ len (Window_counted_rows w) = w_present w.
Proof.
  intros Hw; rewrite counted_rows_ok by done; destruct (present_rows_sorted (flat w) (w_base w)) as [Hs Hl]; split_and!; [| done |].
  - intros s r; rewrite present_rows_elem; split.
    + intros (i & -> & Hi & Hp); unfold Window_counted; rewrite row_flat by (done || lia).
      replace (Z.to_nat _) with i by lia; rewrite Hi; cbn; by rewrite Hp.
    + intros (E & _ & Hp)%counted_row; [| done]; destruct (row_Some w s r Hw E) as [Ef Hb]; exists (Z.to_nat (s - w_base w)); split_and!; [lia | done | done].
  - unfold len; rewrite Hl, (wk_present _ Hw); pose proof (count_rows_nonneg (flat w)); lia.
Qed.

(** ** Floors *)

(** The least of the numbers with a property, if there are any. *)
Definition is_least (P : Lsn -> Prop) (o : option Lsn) : Prop :=
  match o with Some m => P m /\ forall m', P m' -> m <= m' | None => forall m, ~ P m end.

Lemma is_least_Proper P Q o : (forall m, P m <-> Q m) -> is_least P o -> is_least Q o.
Proof. intros H; destruct o as [m|]; cbn; [intros [Hm Hle] | intros Hn m]; [split; [by apply H|]; intros m' Hm'; by apply Hle, H |]; rewrite <- H; apply Hn. Qed.

Definition others (marks : list (SegmentId * Lsn)) (segment : SegmentId) (m : Lsn) : Prop := exists s, s <> segment /\ (s, m) ∈ marks.

(** What the two oldest marks know of all the marks seen. *)
Definition floors_of (marks : list (SegmentId * Lsn)) (f : Floors) : Prop :=
  match fl_oldest f with
  | None => marks = [] /\ fl_runner_up f = None
  | Some (holder, oldest) => (holder, oldest) ∈ marks /\ Forall (fun mark => oldest <= mark.2) marks /\ is_least (others marks holder) (fl_runner_up f)
  end.

Lemma see_ok marks f segment lsn : floors_of marks f -> ~ segment ∈ map fst marks -> NoDup (map fst marks) -> floors_of ((segment, lsn) :: marks) (Floors_see f segment lsn).
Proof.
  intros Hf Hnew Hnd; unfold floors_of, Floors_see in *; destruct (fl_oldest f) as [[holder oldest]|].
  - destruct Hf as (Hin & Hle & Hrun); destruct (Z.leb_spec oldest lsn) as [Hol|Hlo]; cbn [fl_oldest fl_runner_up].
    + assert (segment <> holder) as Hne by (intros ->; apply Hnew; apply (list_elem_of_fmap_2 fst) in Hin; exact Hin).
      split_and!; [by right | by constructor |]; destruct (fl_runner_up f) as [current|]; cbn in *.
      * destruct Hrun as [(s & Hs & Hcur) Hmin]; destruct (Z.leb_spec current lsn); (split; [| intros m' (s' & Hs' & [[= -> ->]|Hm']%elem_of_cons); [lia|]; assert (current <= m') by (apply Hmin; by exists s'); lia]).
        -- exists s; split; [done | by right].
        -- exists segment; split; [done | by left].
      * split; [exists segment; split; [done | by left]|]; intros m' (s' & Hs' & [[= -> ->]|Hm']%elem_of_cons); [lia|]; exfalso; apply (Hrun m'); by exists s'.
    + split_and!; [by left | constructor; [done|]; eapply Forall_impl; [exact Hle|]; cbn; intros; lia |].
      assert (others ((segment, lsn) :: marks) segment oldest) as Ho by (exists holder; split; [intros ->; apply Hnew; apply (list_elem_of_fmap_2 fst) in Hin; exact Hin | by right]).
      assert (forall m', others ((segment, lsn) :: marks) segment m' -> oldest <= m') as Hmin.
      { intros m' (s' & Hs' & [[= -> ->]|Hm']%elem_of_cons); [done|]; rewrite Forall_forall in Hle; apply (Hle (s', m') Hm'). }
      destruct (fl_runner_up f) as [current|]; [| by split]; destruct Hrun as [(s & Hs & Hcur) _]; rewrite Forall_forall in Hle; pose proof (Hle (s, current) Hcur) as Hc; cbn in Hc.
      destruct (Z.leb_spec current oldest); [assert (current = oldest) as -> by lia|]; by split.
  - destruct Hf as [-> ->]; cbn; split_and!; [by left | by constructor |]; intros m (s & Hs & [[= -> ->]|Hm]%elem_of_cons); [done | by apply not_elem_of_nil in Hm].
Qed.

Definition marks_of (rows : list (SegmentId * SegmentRow)) : list (SegmentId * Lsn) :=
  omap (fun entry => min ← row_min_lsn entry.2; Some (entry.1, min)) rows.

Lemma marks_elem rows s m : (s, m) ∈ marks_of rows <-> exists r, (s, r) ∈ rows /\ row_min_lsn r = Some m.
Proof.
  unfold marks_of; rewrite list_elem_of_omap; split.
  - intros ([s' r] & Hin & E); cbn in E; destruct (row_min_lsn r) eqn:Em; cbn in E; simplify_eq; eauto.
  - intros (r & Hin & E); exists (s, r); split; [done|]; cbn; by rewrite E.
Qed.

Lemma floors_fold rows marks f : floors_of marks f -> NoDup (map fst rows ++ map fst marks) ->
  exists marks', floors_of marks' (fold_left see_row rows f) /\ forall s m, (s, m) ∈ marks' <-> (s, m) ∈ marks \/ (s, m) ∈ marks_of rows.
Proof.
  revert marks f; induction rows as [|[s r] rows IH]; intros marks f Hf Hnd; cbn [fold_left].
  { exists marks; split; [done|]; intros; split; [by left | intros [?|?%not_elem_of_nil]; done]. }
  cbn [map app fst] in Hnd; apply NoDup_cons in Hnd as [Hs Hnd]; unfold see_row at 2; cbn [fst snd]; destruct (row_min_lsn r) as [min|] eqn:Em.
  - destruct (IH ((s, min) :: marks) (Floors_see f s min)) as (marks' & Hf' & Hm).
    + apply see_ok; [done | intros H; apply Hs, elem_of_app; by right | by apply NoDup_app in Hnd as (_ & _ & ?)].
    + cbn [map fst]; rewrite <- Permutation_middle; by apply NoDup_cons.
    + exists marks'; split; [done|]; intros s' m'; rewrite Hm; unfold marks_of; cbn [omap list_omap fst snd]; rewrite Em; cbn [mbind option_bind]; rewrite !elem_of_cons; tauto.
  - destruct (IH marks f Hf Hnd) as (marks' & Hf' & Hm); exists marks'; split; [done|]; intros s' m'; rewrite Hm; unfold marks_of; cbn [omap list_omap fst snd]; by rewrite Em.
Qed.

Lemma excluding_ok marks f segment : floors_of marks f -> is_least (others marks segment) (Floors_excluding f segment).
Proof.
  unfold floors_of, Floors_excluding; destruct (fl_oldest f) as [[holder oldest]|].
  - intros (Hin & Hle & Hrun); destruct (Z.eqb_spec holder segment) as [->|Hne]; [done|]; split; [by exists holder|].
    intros m' (s & _ & Hm); rewrite Forall_forall in Hle; apply (Hle (s, m') Hm).
  - intros [-> _] m (s & _ & Hm); by apply not_elem_of_nil in Hm.
Qed.

Lemma sorted_NoDup (rows : list (SegmentId * SegmentRow)) : StronglySorted (fun a b => a.1 < b.1) rows -> NoDup (map fst rows).
Proof.
  induction 1 as [|[s r] rows Hs IH Hle]; cbn [map]; constructor; [| done]; intros ([s' r'] & E & Hin)%list_elem_of_fmap; cbn in E; subst s'.
  rewrite Forall_forall in Hle; specialize (Hle _ Hin); cbn in Hle; lia.
Qed.

Lemma floors_ok t segment : window_ok (st_window t) ->
  is_least (fun m => exists s, s <> segment /\ SegmentTable_min_lsn_of t s = Some m) (SegmentTable_min_lsn_excluding t segment).
Proof.
  intros Hw; destruct (counted_rows_exact _ Hw) as (He & Hs & _); unfold SegmentTable_min_lsn_excluding, SegmentTable_floors.
  destruct (floors_fold (Window_counted_rows (st_window t)) [] Floors_default) as (marks & Hf & Hm); [done | rewrite app_nil_r; by apply sorted_NoDup |].
  eapply is_least_Proper; [| by apply excluding_ok]; intros m; unfold others, SegmentTable_min_lsn_of; split; intros (s & Hne & H); exists s; (split; [done|]).
  - apply Hm in H as [H%not_elem_of_nil|(r & Hr & E)%marks_elem]; [done|]; apply He in Hr; rewrite Hr; exact E.
  - apply bind_Some in H as (r & Hr & E); apply Hm; right; apply marks_elem; exists r; split; [by apply He | done].
Qed.

Lemma ranking_ok t : SegmentTable_ranking t = (SegmentTable_snapshot t, SegmentTable_floors t).
Proof.
  unfold SegmentTable_ranking, SegmentTable_snapshot, SegmentTable_floors; generalize (Window_counted_rows (st_window t)); intros rows.
  assert (forall acc f, fold_left (fun acc entry => (acc.1 ++ [(entry.1, row_bytes entry.2)], see_row acc.2 entry)) rows (acc, f)
    = (acc ++ map (fun '(segment, r) => (segment, row_bytes r)) rows, fold_left see_row rows f)) as H; [| by rewrite H].
  induction rows as [|[s r] rows IH]; intros acc f; cbn [fold_left map]; [by rewrite app_nil_r | cbn [fst snd]; rewrite IH, <- app_assoc; done].
Qed.

(** ** Incarnations *)

Lemma open_worn_ok t id : window_ok (st_window t) -> segment_ok id -> 0 <= st_next_incarnation t < U32 - 1 ->
  let '(t', worn) := open_worn t id in
  let c := cell (st_window t) id in
  window_ok (st_window t') /\
  if is_retired c || negb (in_reach (st_window t) id)
  then worn = SegmentIncarnation_NONE /\ (forall s, cell (st_window t') s = cell (st_window t) s)
       /\ st_next_incarnation t' = st_next_incarnation t /\ st_dropped t' = as_u64 (st_dropped t + 1)
  else st_dropped t' = st_dropped t /\
    if sr_incarnation c =? 0
    then worn = st_next_incarnation t + 1 /\ changed (st_window t) (st_window t') id (wear worn c) /\ st_next_incarnation t' = worn
    else worn = sr_incarnation c /\ (forall s, cell (st_window t') s = cell (st_window t) s) /\ st_next_incarnation t' = st_next_incarnation t.
Proof.
  intros Hw Hid Hn; unfold open_worn; pose proof (open_ok (st_window t) id Hw Hid) as Ho; destruct (Window_open (st_window t) id) as [w o]; destruct Ho as (Hw' & Hc & Hrow & ->).
  destruct (is_retired (cell (st_window t) id) || negb (in_reach (st_window t) id)) eqn:E; [by split_and!|]; cbv beta zeta iota; specialize (Hrow ltac:(done)).
  apply orb_false_iff in E as [Er _]; destruct (sr_incarnation (cell (st_window t) id) =? 0) eqn:Ei; [| by split_and!].
  assert (as_u32 (st_next_incarnation t + 1) = st_next_incarnation t + 1) as En by (apply Z.mod_small; lia); unfold SegmentTable_issue_incarnation; cbn [st_next_incarnation with_window]; rewrite En.
  destruct (acted_ok w id _ (wear (st_next_incarnation t + 1)) Hw' Hrow Er) as [Hw2 Hc2]; [done|]; split_and!; [done | done | done | | done].
  intros s; cbn [st_window with_window]; rewrite Hc2; by destruct (s =? id).
Qed.

Lemma live_incarnation_worn t id : window_ok (st_window t) -> sr_incarnation (cell (st_window t) id) <> 0 ->
  SegmentTable_live_incarnation t id = (t, sr_incarnation (cell (st_window t) id)).
Proof.
  intros Hw Hne; unfold SegmentTable_live_incarnation, cell in *; destruct (_ <? _); [done|]; destruct (Window_row _ id) as [r|]; cbn in *; [| done].
  by destruct (Z.eqb_spec (sr_incarnation r) 0).
Qed.

Lemma live_incarnation_open t id : window_ok (st_window t) -> sr_incarnation (cell (st_window t) id) = 0 -> SegmentTable_live_incarnation t id = open_worn t id.
Proof.
  intros Hw E; rewrite <- incarnation_cell in E by done; unfold SegmentTable_live_incarnation, SegmentTable_incarnation_of in *.
  destruct (Window_row _ id) as [r|]; [by rewrite E | done].
Qed.

(** ** Histories *)

Inductive Booking :=
| MarkLive (segment : SegmentId) (lsn : Lsn) (span : Z)
| MarkDead (segment : SegmentId) (lsn : Lsn) (span : Z)
| MarkHeld (segment : SegmentId) (lsn : Lsn) (span : Z)
| Adopt (segment : SegmentId) (bytes : SegmentBytes)
| Shadow (segment : SegmentId) (span : Z)
| SettleDead (segment : SegmentId) (counted : Z)
| ReleaseLive (segment : SegmentId) (span : Z)
| NoteMin (segment : SegmentId) (lsn : Lsn)
| NoteMax (segment : SegmentId) (lsn : Lsn)
| NoteSealedAt (segment : SegmentId) (lsn : Lsn)
| LiveIncarnation (segment : SegmentId)
| Forget (segment : SegmentId).

Definition book (t : SegmentTable) (b : Booking) : SegmentTable :=
  match b with
  | MarkLive segment lsn span => SegmentTable_mark_live t segment lsn span
  | MarkDead segment lsn span => SegmentTable_mark_dead t segment lsn span
  | MarkHeld segment lsn span => SegmentTable_mark_held t segment lsn span
  | Adopt segment bytes => SegmentTable_adopt t segment bytes
  | Shadow segment span => SegmentTable_shadow t segment span
  | SettleDead segment counted => SegmentTable_settle_dead t segment counted
  | ReleaseLive segment span => SegmentTable_release_live t segment span
  | NoteMin segment lsn => SegmentTable_note_min t segment lsn
  | NoteMax segment lsn => SegmentTable_note_max t segment lsn
  | NoteSealedAt segment lsn => SegmentTable_note_sealed_at t segment lsn
  | LiveIncarnation segment => (SegmentTable_live_incarnation t segment).1
  | Forget segment => SegmentTable_forget t segment
  end.

Definition booking_segment (b : Booking) : SegmentId :=
  match b with
  | MarkLive segment _ _ | MarkDead segment _ _ | MarkHeld segment _ _ | Adopt segment _ | Shadow segment _ | SettleDead segment _
  | ReleaseLive segment _ | NoteMin segment _ | NoteMax segment _ | NoteSealedAt segment _ | LiveIncarnation segment | Forget segment => segment
  end.

(** What a booking does to the cell of its segment, and whether it opens the cell first. *)
Definition booking_act (b : Booking) (r : SegmentRow) : SegmentRow :=
  match b with
  | MarkLive _ lsn span => add_live span (note_min_row lsn r)
  | MarkDead _ lsn span => add_dead span (note_min_row lsn r)
  | MarkHeld _ lsn span => raise_held_lsn lsn (add_held span (add_live span r))
  | Adopt _ b =>
      let r := add_held (sb_held b) (add_dead (sb_dead b) (add_live (sb_live b) r)) in
      match sb_held_lsn b with Some lsn => raise_held_lsn lsn r | None => r end
  | Shadow _ span => row_shadow span r
  | SettleDead _ counted => if sr_dead r <? counted then row_shadow (counted - sr_dead r) r else r
  | ReleaseLive _ span => drop_live span r
  | NoteMin _ lsn => note_min_row lsn r
  | NoteMax _ lsn => raise_max_lsn lsn r
  | NoteSealedAt _ lsn => raise_sealed_at lsn r
  | LiveIncarnation _ | Forget _ => r
  end.

Inductive Shape := Opens | Books | Skips | Stamps | Retires.
Definition booking_shape (b : Booking) : Shape :=
  match b with
  | MarkLive _ _ _ | MarkDead _ _ _ | MarkHeld _ _ _ | Adopt _ _ | NoteMin _ _ => Opens
  | NoteMax _ lsn | NoteSealedAt _ lsn => if lsn =? Lsn_NONE then Skips else Opens
  | Shadow _ _ | SettleDead _ _ | ReleaseLive _ _ => Books
  | LiveIncarnation _ => Stamps
  | Forget _ => Retires
  end.

Lemma booking_keeps_flags b : keeps_flags (booking_act b).
Proof. intros r; destruct b; cbn; unfold note_min_row; repeat case_match; done. Qed.

Lemma booking_keeps_incarnation b r : sr_incarnation (booking_act b r) = sr_incarnation r.
Proof. destruct b; cbn; unfold note_min_row; repeat case_match; done. Qed.

Lemma book_shape t b : book t b =
  match booking_shape b with
  | Opens => opened t (booking_segment b) (booking_act b)
  | Books => booked t (booking_segment b) (booking_act b)
  | Skips => t
  | Stamps => (SegmentTable_live_incarnation t (booking_segment b)).1
  | Retires => SegmentTable_forget t (booking_segment b)
  end.
Proof. destruct b; try done; cbn; unfold SegmentTable_note_max, SegmentTable_note_sealed_at; by destruct (lsn =? Lsn_NONE). Qed.

(** A table between operations: a window that stands, and no incarnation worn twice or not yet issued. *)
Record table_ok (t : SegmentTable) : Prop := {
  tk_window : window_ok (st_window t);
  tk_next : 0 <= st_next_incarnation t < U32;
  tk_issued : forall s, 0 <= sr_incarnation (cell (st_window t) s) <= st_next_incarnation t;
  tk_distinct : forall s s', s <> s' -> sr_incarnation (cell (st_window t) s) <> 0 -> sr_incarnation (cell (st_window t) s) <> sr_incarnation (cell (st_window t) s');
}.

Lemma table_new_ok : table_ok SegmentTable_new.
Proof. split; [apply window_default_ok | done | |]; intros s; intros; unfold cell, Window_row in *; cbn in *; repeat case_match; done. Qed.

(** Operations that leave each cell its stamp, or take it away, keep the stamps apart. *)
Lemma stamps_kept t t' : table_ok t -> window_ok (st_window t') -> st_next_incarnation t' = st_next_incarnation t ->
  (forall s, sr_incarnation (cell (st_window t') s) = sr_incarnation (cell (st_window t) s) \/ sr_incarnation (cell (st_window t') s) = 0) -> table_ok t'.
Proof.
  intros Ht Hw En Hs; split; [done | rewrite En; apply Ht | |].
  - intros s; rewrite En; pose proof (tk_issued _ Ht s); destruct (Hs s); lia.
  - intros s s' Hne Hz; pose proof (tk_distinct _ Ht s s' Hne) as Hd; destruct (Hs s) as [E|E], (Hs s') as [E'|E']; rewrite E in *; try done; rewrite E'; [by apply Hd | done].
Qed.

Definition booking_ok (b : Booking) : Prop := segment_ok (booking_segment b).

Lemma cell_update_stamp w w' id r s : changed w w' id r -> sr_incarnation r = sr_incarnation (cell w id) ->
  sr_incarnation (cell w' s) = sr_incarnation (cell w s).
Proof. intros Hc E; rewrite Hc; destruct (Z.eqb_spec s id) as [->|]; done. Qed.

(** What every operation keeps: the table stands, a spent cell stays spent, the issue only moves
    forward, and a stamp a segment wears afterwards is the one it wore or is newly issued. *)
Record kept (t t' : SegmentTable) : Prop := {
  kp_ok : table_ok t';
  kp_spent : forall s, cell (st_window t) s = spent -> cell (st_window t') s = spent;
  kp_next : st_next_incarnation t <= st_next_incarnation t';
  kp_stamps : forall s, let worn := sr_incarnation (cell (st_window t') s) in
    worn = 0 \/ worn = sr_incarnation (cell (st_window t) s) \/ st_next_incarnation t < worn;
}.

Lemma kept_refl t : table_ok t -> kept t t.
Proof. intros Ht; split; [done | done | lia | by right; left]. Qed.

Lemma kept_trans t1 t2 t3 : kept t1 t2 -> kept t2 t3 -> kept t1 t3.
Proof.
  intros [H1 S1 N1 W1] [H2 S2 N2 W2]; split; [done | by auto | lia |]; intros s; specialize (W1 s); specialize (W2 s); cbn zeta in *; lia.
Qed.

(** Asking for a stamp through an open row keeps the table, and issues at most one. *)
Lemma open_worn_kept t id : table_ok t -> segment_ok id -> st_next_incarnation t < U32 - 1 ->
  kept t (open_worn t id).1 /\ st_next_incarnation (open_worn t id).1 <= st_next_incarnation t + 1.
Proof.
  intros Ht Hid Hn; pose proof (tk_window _ Ht) as Hw; pose proof (tk_next _ Ht).
  pose proof (open_worn_ok t id Hw Hid ltac:(lia)) as Ho; destruct (open_worn t id) as [t' worn]; cbn [fst]; destruct Ho as [Hw' Ho].
  assert (forall s, cell (st_window t') s = cell (st_window t) s -> let w := sr_incarnation (cell (st_window t') s) in
    w = 0 \/ w = sr_incarnation (cell (st_window t) s) \/ st_next_incarnation t < w) as Hsame by (intros s ->; by right; left).
  destruct (_ || _) eqn:Er; [destruct Ho as (_ & Hc & En & _); split; [split; [apply (stamps_kept t); [done.. |]; intros s; left; by rewrite Hc | intros s; by rewrite Hc | lia | intros s; apply Hsame, Hc] | lia]|].
  destruct Ho as [_ Ho]; destruct (Z.eqb_spec (sr_incarnation (cell (st_window t) id)) 0) as [E|E];
    [| destruct Ho as (_ & Hc & En); split; [split; [apply (stamps_kept t); [done.. |]; intros s; left; by rewrite Hc | intros s; by rewrite Hc | lia | intros s; apply Hsame, Hc] | lia]].
  destruct Ho as (-> & Hc & En); split; [| lia]; split; [split; [done | lia | |] | | lia |].
  - intros s; rewrite Hc, En; pose proof (tk_issued _ Ht s); destruct (s =? id); cbn [wear sr_incarnation]; lia.
  - intros s s' Hne; rewrite !Hc; pose proof (tk_issued _ Ht s); pose proof (tk_issued _ Ht s'); destruct (Z.eqb_spec s id) as [->|], (Z.eqb_spec s' id) as [->|]; cbn [wear sr_incarnation]; try lia.
    by apply Ht.
  - intros s Es; rewrite Hc; destruct (Z.eqb_spec s id) as [->|]; [by rewrite Es in Er | done].
  - intros s; rewrite Hc; destruct (s =? id); [right; right; cbn; lia | by right; left].
Qed.

Lemma live_incarnation_kept t id : table_ok t -> segment_ok id -> st_next_incarnation t < U32 - 1 ->
  kept t (SegmentTable_live_incarnation t id).1 /\ st_next_incarnation (SegmentTable_live_incarnation t id).1 <= st_next_incarnation t + 1.
Proof.
  intros Ht Hid Hn; pose proof (tk_window _ Ht) as Hw; destruct (Z.eq_dec (sr_incarnation (cell (st_window t) id)) 0) as [E|E].
  - rewrite live_incarnation_open by done; by apply open_worn_kept.
  - rewrite live_incarnation_worn by done; split; [by apply kept_refl | cbn; lia].
Qed.

(** Issuing over a whole list is asking once for each. *)
Lemma issue_incarnations_kept t segments : table_ok t -> Forall segment_ok segments -> st_next_incarnation t + len segments < U32 ->
  kept t (SegmentTable_issue_incarnations t segments).
Proof.
  unfold SegmentTable_issue_incarnations; intros Ht Hs; revert t Ht; induction Hs as [|id segments Hid Hs IH]; intros t Ht Hn; [by apply kept_refl|].
  rewrite len_cons in Hn; pose proof (len_nonneg segments); cbn [fold_left]; destruct (open_worn_kept t id Ht Hid ltac:(lia)) as [Hk Hn'].
  eapply kept_trans; [exact Hk|]; apply IH; [apply Hk | lia].
Qed.

Lemma book_kept t b : table_ok t -> booking_ok b -> st_next_incarnation t < U32 - 1 ->
  kept t (book t b) /\ st_next_incarnation (book t b) <= st_next_incarnation t + 1.
Proof.
  intros Ht Hb Hn; pose proof (tk_window _ Ht) as Hw; set (id := booking_segment b).
  assert (forall t' c, window_ok (st_window t') -> st_next_incarnation t' = st_next_incarnation t -> changed (st_window t) (st_window t') id c ->
    sr_incarnation c = sr_incarnation (cell (st_window t) id) -> cell (st_window t) id <> spent -> kept t t') as Hchange.
  { intros t' c Hw' En Hc Ec Hns; assert (forall s, sr_incarnation (cell (st_window t') s) = sr_incarnation (cell (st_window t) s)) as Hst by (intros s; by eapply cell_update_stamp).
    split; [apply (stamps_kept t); [done.. |]; by left | | lia | by right; left].
    intros s Es; rewrite Hc; destruct (Z.eqb_spec s id) as [->|]; done. }
  assert (forall t', window_ok (st_window t') -> st_next_incarnation t' = st_next_incarnation t -> (forall s, cell (st_window t') s = cell (st_window t) s) -> kept t t') as Hsame.
  { intros t' Hw' En Hc; split; [apply (stamps_kept t); [done.. |]; intros s; left; by rewrite Hc | intros s; by rewrite Hc | lia | intros s; rewrite Hc; by right; left]. }
  rewrite book_shape; destruct (booking_shape b).
  - destruct (opened_ok t id (booking_act b) Hw Hb (booking_keeps_flags b)) as (Hw' & En & Hc); fold id; split; [| lia]; unfold refuses in Hc.
    destruct (_ && _) eqn:E; destruct Hc as [Hc _]; [by apply Hsame|].
    eapply Hchange; [done | done | exact Hc | by rewrite booking_keeps_incarnation | intros Es; by rewrite Es in E].
  - destruct (booked_ok t id (booking_act b) Hw (booking_keeps_flags b)) as (Hw' & En & Hc); fold id; split; [| lia].
    destruct (is_present _) eqn:E; destruct Hc as [Hc _]; [| by apply Hsame].
    eapply Hchange; [done | done | exact Hc | by rewrite booking_keeps_incarnation | intros Es; by rewrite Es in E].
  - split; [by apply kept_refl | lia].
  - by apply live_incarnation_kept.
  - destruct (retire_ok (st_window t) id Hw) as [Hw' Hc]; fold id; split; [| cbn; lia]; split; [| | cbn; lia |]; cbn [SegmentTable_forget with_window st_window].
    + apply (stamps_kept t); [done | done | done |]; intros s; cbn [SegmentTable_forget with_window st_window].
      destruct (Hc s) as [->|[_ ->]]; [destruct (_ && _); [by right | by left] | by right].
    + intros s Es; destruct (Hc s) as [->|[_ ->]]; [| done]; by destruct (_ && _).
    + intros s; destruct (Hc s) as [->|[_ ->]]; [destruct (_ && _); [by left | by right; left] | by left].
Qed.

Lemma book_ok t b : table_ok t -> booking_ok b -> st_next_incarnation t < U32 - 1 -> table_ok (book t b).
Proof. intros Ht Hb Hn; apply (book_kept t b Ht Hb Hn). Qed.

(** One operation of the table, a booking or an issue over a list of segments, with the
    incarnations it may issue left to issue. *)
Definition table_step (t t' : SegmentTable) : Prop :=
  (exists b, booking_ok b /\ st_next_incarnation t < U32 - 1 /\ t' = book t b)
  \/ (exists segments, Forall segment_ok segments /\ st_next_incarnation t + len segments < U32 /\ t' = SegmentTable_issue_incarnations t segments).

Lemma steps_kept t t' : table_ok t -> rtc table_step t t' -> kept t t'.
Proof.
  intros Ht Hsteps; induction Hsteps as [t|t t1 t' Hstep Hsteps IH]; [by apply kept_refl|].
  assert (kept t t1) as Hk by (destruct Hstep as [(b & Hb & Hn & ->)|(segments & Hs & Hn & ->)]; [by apply book_kept | by apply issue_incarnations_kept]).
  eapply kept_trans; [exact Hk | apply IH, Hk].
Qed.

Lemma steps_ok t t' : table_ok t -> rtc table_step t t' -> table_ok t'.
Proof. intros Ht Hsteps; apply (steps_kept t t' Ht Hsteps). Qed.

Lemma reached_ok t : rtc table_step SegmentTable_new t -> table_ok t.
Proof. apply steps_ok, table_new_ok. Qed.

Lemma stamp_dropped t id : table_ok t -> segment_ok id -> st_next_incarnation t < U32 - 1 -> is_retired (cell (st_window t) id) = true ->
  (forall s, cell (st_window (SegmentTable_live_incarnation t id).1) s = cell (st_window t) s)
  /\ (SegmentTable_live_incarnation t id).2 = SegmentIncarnation_NONE /\ st_dropped (SegmentTable_live_incarnation t id).1 = as_u64 (st_dropped t + 1).
Proof.
  intros Ht Hid Hn Hr; pose proof (tk_window _ Ht) as Hw; pose proof (tk_next _ Ht).
  rewrite live_incarnation_open by (done || by rewrite (retired_spent _ (cell_ok _ id Hw) Hr)).
  pose proof (open_worn_ok t id Hw Hid ltac:(lia)) as Ho; destruct (open_worn t id) as [t' worn]; destruct Ho as [_ Ho]; rewrite Hr in Ho; by destruct Ho as (-> & Hc & _ & Hd).
Qed.

Lemma steps_stamps t t' s : table_ok t -> rtc table_step t t' ->
  let worn := sr_incarnation (cell (st_window t') s) in worn <> 0 -> worn = sr_incarnation (cell (st_window t) s) \/ st_next_incarnation t < worn.
Proof. intros Ht Hsteps worn Hne; destruct (kp_stamps _ _ (steps_kept t t' Ht Hsteps) s) as [?|?]; done. Qed.

Lemma forget_spends t s : table_ok t -> is_known (cell (st_window t) s) = true -> cell (st_window (SegmentTable_forget t s)) s = spent.
Proof.
  intros Ht Hk; destruct (retire_ok (st_window t) s (tk_window _ Ht)) as [_ Hc]; cbn [SegmentTable_forget with_window st_window]; specialize (Hc s); rewrite Z.eqb_refl, Hk in Hc.
  by destruct Hc as [->|[_ ->]].
Qed.

Lemma live_incarnation_answers t s : table_ok t -> segment_ok s -> st_next_incarnation t < U32 - 1 ->
  SegmentTable_incarnation_of (SegmentTable_live_incarnation t s).1 s = (SegmentTable_live_incarnation t s).2.
Proof.
  intros Ht Hs Hn; pose proof (tk_window _ Ht) as Hw; pose proof (tk_next _ Ht).
  destruct (Z.eq_dec (sr_incarnation (cell (st_window t) s)) 0) as [E|E]; [| rewrite live_incarnation_worn by done; cbn [fst snd]; by apply incarnation_cell].
  rewrite live_incarnation_open by done; pose proof (open_worn_ok t s Hw Hs ltac:(lia)) as Ho; destruct (open_worn t s) as [t' worn]; cbn [fst snd]; destruct Ho as [Hw' Ho].
  rewrite incarnation_cell by done; destruct (_ || _); [destruct Ho as (-> & Hc & _); rewrite Hc; exact E|].
  destruct Ho as [_ Ho]; rewrite E in Ho; destruct Ho as (-> & Hc & _); rewrite Hc, Z.eqb_refl; done.
Qed.

(** Who wears a stamp when an ask comes keeps it; who wears none is issued the next one or is turned away. *)
Lemma open_worn_keeps t id s : table_ok t -> segment_ok id -> st_next_incarnation t < U32 - 1 ->
  SegmentTable_incarnation_of t s <> SegmentIncarnation_NONE -> SegmentTable_incarnation_of (open_worn t id).1 s = SegmentTable_incarnation_of t s.
Proof.
  intros Ht Hid Hn; pose proof (tk_window _ Ht) as Hw; pose proof (tk_next _ Ht).
  pose proof (open_worn_ok t id Hw Hid ltac:(lia)) as Ho; destruct (open_worn t id) as [t' worn]; cbn [fst]; destruct Ho as [Hw' Ho].
  rewrite !incarnation_cell by done; intros Hne; destruct (_ || _); [destruct Ho as (_ & Hc & _); by rewrite Hc|]; destruct Ho as [_ Ho].
  destruct (Z.eqb_spec (sr_incarnation (cell (st_window t) id)) 0) as [E|E]; [| destruct Ho as (_ & Hc & _); by rewrite Hc].
  destruct Ho as (_ & Hc & _); rewrite Hc; destruct (Z.eqb_spec s id) as [->|]; done.
Qed.

Lemma issue_incarnations_keeps t segments s : table_ok t -> Forall segment_ok segments -> st_next_incarnation t + len segments < U32 ->
  SegmentTable_incarnation_of t s <> SegmentIncarnation_NONE -> SegmentTable_incarnation_of (SegmentTable_issue_incarnations t segments) s = SegmentTable_incarnation_of t s.
Proof.
  unfold SegmentTable_issue_incarnations; intros Ht Hs; revert t Ht; induction Hs as [|id segments Hid Hs IH]; intros t Ht Hn Hne; [done|].
  rewrite len_cons in Hn; pose proof (len_nonneg segments); cbn [fold_left]; destruct (open_worn_kept t id Ht Hid ltac:(lia)) as [Hk Hn'].
  assert (SegmentTable_incarnation_of (open_worn t id).1 s = SegmentTable_incarnation_of t s) as E by (apply open_worn_keeps; [done | done | lia | done]).
  rewrite IH; [done | apply Hk | lia | by rewrite E].
Qed.

Lemma open_worn_answers t s : table_ok t -> segment_ok s -> st_next_incarnation t < U32 - 1 ->
  SegmentTable_incarnation_of (open_worn t s).1 s = (SegmentTable_live_incarnation t s).2.
Proof.
  intros Ht Hs Hn; pose proof (tk_window _ Ht) as Hw; destruct (Z.eq_dec (sr_incarnation (cell (st_window t) s)) 0) as [E|E].
  - rewrite <- live_incarnation_answers by done; by rewrite live_incarnation_open.
  - rewrite live_incarnation_worn by done; cbn [snd]; rewrite open_worn_keeps; [by apply incarnation_cell | done | done | done | by rewrite incarnation_cell].
Qed.

Lemma issue_incarnations_answers t pre s rest : table_ok t -> Forall segment_ok (pre ++ s :: rest) -> st_next_incarnation t + len (pre ++ s :: rest) < U32 ->
  let asked := (SegmentTable_live_incarnation (SegmentTable_issue_incarnations t pre) s).2 in
  asked <> SegmentIncarnation_NONE -> SegmentTable_incarnation_of (SegmentTable_issue_incarnations t (pre ++ s :: rest)) s = asked.
Proof.
  unfold SegmentTable_issue_incarnations; intros Ht; revert t Ht; induction pre as [|id pre IH]; intros t Ht Hs Hn; cbn [app fold_left] in *; apply Forall_cons in Hs as [Hid Hs];
    rewrite len_cons in Hn; destruct (open_worn_kept t _ Ht Hid ltac:(unfold len in *; lia)) as [Hk Hn'].
  - intros Hne; pose proof (len_nonneg rest); rewrite <- open_worn_answers in Hne |- * by (done || lia).
    apply (issue_incarnations_keeps (open_worn t s).1 rest s); [apply Hk | done | lia | done].
  - apply IH; [apply Hk | done | lia].
Qed.

Lemma live_incarnation_fresh t s : table_ok t -> segment_ok s -> st_next_incarnation t < U32 - 1 -> SegmentTable_incarnation_of t s = SegmentIncarnation_NONE ->
  (SegmentTable_live_incarnation t s).2 = if is_retired (cell (st_window t) s) || negb (in_reach (st_window t) s) then SegmentIncarnation_NONE else st_next_incarnation t + 1.
Proof.
  intros Ht Hs Hn; pose proof (tk_window _ Ht) as Hw; pose proof (tk_next _ Ht); rewrite incarnation_cell by done; intros E; rewrite live_incarnation_open by done.
  pose proof (open_worn_ok t s Hw Hs ltac:(lia)) as Ho; destruct (open_worn t s) as [t' worn]; cbn [snd]; destruct Ho as [_ Ho].
  destruct (_ || _); [by destruct Ho as [-> _]|]; destruct Ho as [_ Ho]; rewrite E in Ho; by destruct Ho as [-> _].
Qed.

(** ** Theorems *)

(** What a segment's cell answers: its bytes, its oldest and newest version, the frontier its
    tally was sealed at, the stamp it wears and whether it is retired. *)
Definition answers (t : SegmentTable) (s : SegmentId) (r : SegmentRow) : Prop :=
  SegmentTable_bytes_of t s = (if is_present r then row_bytes r else SegmentBytes_default)
  /\ SegmentTable_min_lsn_of t s = (if is_present r then row_min_lsn r else None)
  /\ SegmentTable_max_lsn_of t s = (if is_present r then (if sr_max_lsn r =? 0 then None else Some (sr_max_lsn r)) else None)
  /\ SegmentTable_sealed_at_of t s = (if is_present r then (if sr_sealed_at r =? 0 then None else Some (sr_sealed_at r)) else None)
  /\ SegmentTable_incarnation_of t s = sr_incarnation r
  /\ Window_is_retired (st_window t) s = is_retired r.

Lemma answers_cell t s : window_ok (st_window t) -> answers t s (cell (st_window t) s).
Proof.
  intros Hw; unfold answers, SegmentTable_bytes_of, SegmentTable_min_lsn_of, SegmentTable_max_lsn_of, SegmentTable_sealed_at_of; rewrite counted_cell, incarnation_cell, is_retired_cell by done.
  by destruct (is_present _).
Qed.

(** C26: Wherever the window of rows stands, a booking changes what the table answers for its own
    segment (its bytes, oldest and newest version, tally frontier, stamp and retirement) exactly as
    the booking says and nothing else: one that opens its row books on it, a
    shadow or a release needs the row to be counted, and one for a retired segment or out of the
    window's reach changes no answer and is counted as dropped. *)
Theorem booking_books_one_segment t b : rtc table_step SegmentTable_new t -> booking_ok b -> st_next_incarnation t < U32 - 1 ->
  booking_shape b = Opens \/ booking_shape b = Books ->
  let id := booking_segment b in
  let old := cell (st_window t) id in
  let taken := match booking_shape b with Opens => negb (refuses (st_window t) id) | _ => is_present old end in
  let fresh := match booking_shape b with Opens => raise PRESENT old | _ => old end in
  (forall s, answers t s (cell (st_window t) s))
  /\ (forall s, answers (book t b) s (if (s =? id) && taken then booking_act b fresh else cell (st_window t) s))
  /\ st_dropped (book t b) = if taken then st_dropped t else as_u64 (st_dropped t + 1).
Proof.
  intros Ht%reached_ok Hb Hn Hsh id old taken fresh; pose proof (tk_window _ Ht) as Hw; pose proof (tk_window _ (book_ok t b Ht Hb Hn)) as Hw'.
  split; [intros s; by apply answers_cell|].
  assert ((forall s, cell (st_window (book t b)) s = if (s =? id) && taken then booking_act b fresh else cell (st_window t) s)
    /\ st_dropped (book t b) = if taken then st_dropped t else as_u64 (st_dropped t + 1)) as [Hc Hd].
  { rewrite book_shape; subst taken fresh; destruct Hsh as [-> | ->].
    - destruct (opened_ok t id (booking_act b) Hw Hb (booking_keeps_flags b)) as (_ & _ & Hc); fold id.
      destruct (refuses _ _), Hc as [Hc Hd]; cbn [negb]; (split; [intros s; rewrite Hc | done]); [by rewrite andb_false_r | by rewrite andb_true_r].
    - destruct (booked_ok t id (booking_act b) Hw (booking_keeps_flags b)) as (_ & _ & Hc); fold id; subst old.
      destruct (is_present _), Hc as [Hc Hd]; (split; [intros s; rewrite Hc | done]); [by rewrite andb_true_r | by rewrite andb_false_r]. }
  split; [intros s; rewrite <- Hc; by apply answers_cell | done].
Qed.

(** C27: Once a segment the table knows is forgotten it stays forgotten: after any further history it
    holds no bytes and wears no stamp, and every booking and ask for a stamp against it is turned
    away and counted as dropped. *)
Theorem retired_is_final t t' s : rtc table_step SegmentTable_new t -> is_known (cell (st_window t) s) = true -> segment_ok s ->
  rtc table_step (SegmentTable_forget t s) t' -> st_next_incarnation t' < U32 - 1 ->
  answers t' s spent
  /\ SegmentTable_bytes_of t' s = SegmentBytes_default /\ SegmentTable_incarnation_of t' s = SegmentIncarnation_NONE
  /\ (SegmentTable_live_incarnation t' s).2 = SegmentIncarnation_NONE
  /\ (forall b, booking_segment b = s -> booking_shape b <> Skips -> booking_shape b <> Retires ->
        (forall s', cell (st_window (book t' b)) s' = cell (st_window t') s') /\ st_dropped (book t' b) = as_u64 (st_dropped t' + 1)).
Proof.
  intros Ht%reached_ok Hk Hs Hsteps Hn; assert (table_ok (SegmentTable_forget t s)) as Hf.
  { pose proof (retire_ok (st_window t) s (tk_window _ Ht)) as [Hw' Hc]; apply (stamps_kept t); [done | done | done |]; intros s'; cbn [SegmentTable_forget with_window st_window].
    destruct (Hc s') as [->|[_ ->]]; [destruct (_ && _); [by right | by left] | by right]. }
  pose proof (steps_ok _ _ Hf Hsteps) as Ht'; pose proof (kp_spent _ _ (steps_kept _ _ Hf Hsteps) s (forget_spends t s Ht Hk)) as Es.
  pose proof (tk_window _ Ht') as Hw'; pose proof (answers_cell t' s Hw') as Ha; rewrite Es in Ha; destruct Ha as (E1 & E2 & E3 & E4 & E6 & E7).
  assert (is_retired (cell (st_window t') s) = true) as Hr by (by rewrite Es); destruct (stamp_dropped t' s Ht' Hs Hn Hr) as (Hc & E5 & Hd); split_and!; [done.. |].
  intros b Eb H1 H2; rewrite book_shape, Eb; destruct (booking_shape b); try done.
  - destruct (opened_ok t' s (booking_act b) Hw' Hs (booking_keeps_flags b)) as (_ & _ & H); unfold refuses in H; by rewrite Es in H.
  - destruct (booked_ok t' s (booking_act b) Hw' (booking_keeps_flags b)) as (_ & _ & H); by rewrite Es in H.
Qed.

(** C40: The walk a compaction ranks by lists each counted segment once, in number order, with its
    bytes, as many as the table says it counts; and the floor of any segment, kept from the two
    oldest marks alone, is the oldest version any other segment can still surface. *)
Theorem ranking_and_floors_exact t segment : rtc table_step SegmentTable_new t ->
  let '(ranked, floors) := SegmentTable_ranking t in
  (forall s b, (s, b) ∈ ranked <-> is_Some (Window_counted (st_window t) s) /\ b = SegmentTable_bytes_of t s)
  /\ StronglySorted (fun a b => a.1 < b.1) ranked /\ len ranked = SegmentTable_len t
  /\ is_least (fun m => exists s, s <> segment /\ SegmentTable_min_lsn_of t s = Some m) (Floors_excluding floors segment).
Proof.
  intros Ht%reached_ok; pose proof (tk_window _ Ht) as Hw; rewrite ranking_ok; destruct (counted_rows_exact _ Hw) as (He & Hs & Hl); unfold SegmentTable_snapshot; split_and!.
  - intros s b; rewrite list_elem_of_fmap; split.
    + intros ([s' r] & E & Hr%He); simplify_eq; unfold SegmentTable_bytes_of; by rewrite Hr.
    + intros [[r Hr] ->]; exists (s, r); split; [unfold SegmentTable_bytes_of; by rewrite Hr | by apply He].
  - generalize dependent (Window_counted_rows (st_window t)); intros rows _ Hs _; induction Hs as [|[s r] rows Hs IH Hle]; cbn [map]; constructor; [done|].
    apply Forall_forall; intros e ([s' r'] & -> & Hin)%list_elem_of_fmap; rewrite Forall_forall in Hle; apply (Hle _ Hin).
  - unfold len; rewrite length_map; exact Hl.
  - by apply floors_ok.
Qed.

(** C28: A segment that wears a stamp and asks again is given that one and nothing changes; one that
    wears none is issued the stamp past every one issued before, or none when it is retired or out
    of reach, and wears what it was given. An issue over a list answers each segment as an ask in
    its turn would and leaves every stamp worn as it is. Over any history a stamp a segment comes to
    wear is the one it wore or past every one issued before, and no two segments wear one stamp. *)
Theorem stamps_never_reissued t t' : rtc table_step SegmentTable_new t -> rtc table_step t t' ->
  (forall s, SegmentTable_incarnation_of t' s <> SegmentIncarnation_NONE ->
     SegmentTable_incarnation_of t' s = SegmentTable_incarnation_of t s \/ st_next_incarnation t < SegmentTable_incarnation_of t' s)
  /\ (forall s s', s <> s' -> SegmentTable_incarnation_of t' s <> SegmentIncarnation_NONE -> SegmentTable_incarnation_of t' s <> SegmentTable_incarnation_of t' s')
  /\ (forall s, SegmentTable_incarnation_of t' s <> SegmentIncarnation_NONE ->
        SegmentTable_live_incarnation t' s = (t', SegmentTable_incarnation_of t' s))
  /\ (forall s, segment_ok s -> st_next_incarnation t' < U32 - 1 ->
        SegmentTable_incarnation_of (SegmentTable_live_incarnation t' s).1 s = (SegmentTable_live_incarnation t' s).2
        /\ (SegmentTable_incarnation_of t' s = SegmentIncarnation_NONE -> (SegmentTable_live_incarnation t' s).2 =
             if is_retired (cell (st_window t') s) || negb (in_reach (st_window t') s) then SegmentIncarnation_NONE else st_next_incarnation t' + 1))
  /\ (forall pre s rest, Forall segment_ok (pre ++ s :: rest) -> st_next_incarnation t' + len (pre ++ s :: rest) < U32 ->
        let asked := (SegmentTable_live_incarnation (SegmentTable_issue_incarnations t' pre) s).2 in
        let issued := SegmentTable_issue_incarnations t' (pre ++ s :: rest) in
        (asked <> SegmentIncarnation_NONE -> SegmentTable_incarnation_of issued s = asked)
        /\ (forall s', SegmentTable_incarnation_of t' s' <> SegmentIncarnation_NONE -> SegmentTable_incarnation_of issued s' = SegmentTable_incarnation_of t' s')).
Proof.
  intros Ht%reached_ok Hsteps; pose proof (steps_ok t t' Ht Hsteps) as Ht'; split_and!.
  - intros s; rewrite !incarnation_cell by (apply Ht || apply Ht'); by apply steps_stamps.
  - intros s s' Hne; rewrite !incarnation_cell by apply Ht'; by apply Ht'.
  - intros s; rewrite incarnation_cell by apply Ht'; intros Hne; apply live_incarnation_worn; [apply Ht' | done].
  - intros s Hs Hn; split; [by apply live_incarnation_answers | intros E; by apply live_incarnation_fresh].
  - intros pre s rest Hs Hn; split; [by apply issue_incarnations_answers | intros s' Hne; by apply issue_incarnations_keeps].
Qed.

(** ** At a concrete table *)

(** Two segments booked and stamped, then the first forgotten. *)
Definition demo_bookings : list Booking := [MarkLive 3 10 100; LiveIncarnation 3; MarkLive 5 7 50; MarkHeld 5 12 20; LiveIncarnation 5; Shadow 3 40].
Definition demo_table : SegmentTable := fold_left book demo_bookings SegmentTable_new.

Lemma book_steps bs t : Forall booking_ok bs -> st_next_incarnation t + len bs < U32 - 1 -> table_ok t -> rtc table_step t (fold_left book bs t).
Proof.
  intros Hb; revert t; induction Hb as [|b bs Hb Hbs IH]; intros t Hn Ht; [done|]; rewrite len_cons in Hn; pose proof (len_nonneg bs); cbn [fold_left].
  apply rtc_l with (book t b); [left; exists b; split_and!; [done | lia | done]|]; destruct (book_kept t b Ht Hb ltac:(lia)) as [Hk Hle]; apply IH; [lia | apply Hk].
Qed.

Lemma demo_bookings_ok : Forall booking_ok demo_bookings.
Proof. unfold demo_bookings, booking_ok, segment_ok; repeat (apply Forall_cons; split; [done|]); by apply Forall_nil. Qed.

Lemma demo_issue_ok : Forall segment_ok ([9; 5] ++ 11 :: []).
Proof. unfold segment_ok; cbn [app]; repeat (apply Forall_cons; split; [done|]); by apply Forall_nil. Qed.

Lemma demo_table_reached : rtc table_step SegmentTable_new demo_table.
Proof. apply book_steps; [apply demo_bookings_ok | done | apply table_new_ok]. Qed.

Lemma booking_books_one_segment_witness : answers (book demo_table (MarkDead 5 3 9)) 5 (mkSegmentRow 70 9 20 3 0 0 12 2 1)
  /\ SegmentTable_bytes_of demo_table 3 = mkSegmentBytes 60 40 0 None.
Proof.
  destruct (booking_books_one_segment demo_table (MarkDead 5 3 9) demo_table_reached) as (_ & H & _); [done | vm_compute; done | by left|].
  split; [exact (H 5) | vm_compute; reflexivity].
Defined.

Lemma retired_is_final_witness : SegmentTable_bytes_of (SegmentTable_forget demo_table 3) 3 = SegmentBytes_default
  /\ (SegmentTable_live_incarnation (SegmentTable_forget demo_table 3) 3).2 = SegmentIncarnation_NONE.
Proof.
  destruct (retired_is_final demo_table (SegmentTable_forget demo_table 3) 3 demo_table_reached) as (_ & Hb & _ & Hs & _);
    [vm_compute; reflexivity | done | apply rtc_refl | vm_compute; reflexivity |].
  split; [exact Hb | exact Hs].
Defined.

Lemma ranking_and_floors_exact_witness : SegmentTable_ranking demo_table = ([(3, mkSegmentBytes 60 40 0 None); (5, mkSegmentBytes 70 0 20 (Some 12))], mkFloors (Some (5, 7)) (Some 10))
  /\ is_least (fun m => exists s, s <> 5 /\ SegmentTable_min_lsn_of demo_table s = Some m) (Some 10).
Proof.
  assert (SegmentTable_ranking demo_table = ([(3, mkSegmentBytes 60 40 0 None); (5, mkSegmentBytes 70 0 20 (Some 12))], mkFloors (Some (5, 7)) (Some 10))) as E by (vm_compute; reflexivity).
  pose proof (ranking_and_floors_exact demo_table 5 demo_table_reached) as H; rewrite E in H; destruct H as (_ & _ & _ & H); split; [exact E | exact H].
Defined.

Lemma stamps_never_reissued_witness : SegmentTable_incarnation_of demo_table 5 = 2
  /\ SegmentTable_incarnation_of demo_table 5 <> SegmentTable_incarnation_of demo_table 3
  /\ SegmentTable_live_incarnation demo_table 5 = (demo_table, 2)
  /\ (SegmentTable_live_incarnation demo_table 9).2 = 3
  /\ SegmentTable_incarnation_of (SegmentTable_issue_incarnations demo_table [9; 5; 11]) 11 = 4
  /\ SegmentTable_incarnation_of (SegmentTable_issue_incarnations demo_table [9; 5; 11]) 5 = 2.
Proof.
  destruct (stamps_never_reissued demo_table demo_table demo_table_reached (rtc_refl _ _)) as (_ & Hd & Hw & Hf & Hi).
  assert (SegmentTable_incarnation_of demo_table 5 = 2) as E by (vm_compute; reflexivity).
  assert (Forall segment_ok ([9; 5] ++ 11 :: [])) as Hok by (apply demo_issue_ok).
  destruct (Hi [9; 5] 11 [] Hok ltac:(done)) as [Ha Hk]; split_and!.
  - exact E.
  - apply Hd; [done | vm_compute; discriminate].
  - rewrite <- E; apply Hw; vm_compute; discriminate.
  - vm_compute; reflexivity.
  - etransitivity; [apply Ha; vm_compute; discriminate | vm_compute; reflexivity].
  - etransitivity; [apply Hk; vm_compute; discriminate | exact E].
Defined.

(** The window can come to span more numbers than its bound: it grows down by the bound at a time. *)
Lemma window_outgrows_its_bound : let w := st_window (fold_left book [MarkLive (2 * MAX_WINDOW) 1 1; MarkLive MAX_WINDOW 1 1; MarkLive 0 1 1] SegmentTable_new) in
  w_base w = 0 /\ 2 * MAX_WINDOW < CHUNKZ * len (w_chunks w) /\ w_present w = 3.
Proof. vm_compute; split_and!; reflexivity. Qed.
