(* ===== verification/Tally.v ===== *)
(** * Where an index write books ([index/counters.rs])

    The [Bookings] interface an index write is made against, the table itself and one rebuild
    thread's tally, which sums its bookings per segment and hands them over at the end. *)
From S2P Require Import Prelude Bytes Lsn Counters CounterCells SegmentTable.

(** ** The interface *)

Class Bookings (Book : Type) := {
  live_incarnation : Book -> SegmentId -> Book * SegmentIncarnation;
  mark_live : Book -> SegmentId -> Lsn -> Z -> Book;
  mark_dead : Book -> SegmentId -> Lsn -> Z -> Book;
  shadow : Book -> SegmentId -> Z -> Book;
  mark_held : Book -> SegmentId -> Lsn -> Z -> Book;
}.

#[export] Instance SegmentTable_Bookings : Bookings SegmentTable := {|
  live_incarnation := SegmentTable_live_incarnation;
  mark_live := SegmentTable_mark_live;
  mark_dead := SegmentTable_mark_dead;
  shadow := SegmentTable_shadow;
  mark_held := SegmentTable_mark_held;
|}.

(** ** The tally *)

Record TallyRow := mkTallyRow {
  tr_segment : SegmentId;
  tr_incarnation : option SegmentIncarnation;
  tr_bytes : SegmentBytes;
  tr_shadowed : Z;
  tr_oldest : option Lsn;
}.

Record Tally := mkTally { ty_table : SegmentTable; ty_rows : list TallyRow; ty_last : nat }.
Definition Tally_new (table : SegmentTable) : Tally := mkTally table [] 0.

Fixpoint rposition (segment : SegmentId) (rows : list TallyRow) : option nat :=
  match rows with
  | [] => None
  | row :: rows =>
      match rposition segment rows with
      | Some at_ => Some (S at_)
      | None => if tr_segment row =? segment then Some 0%nat else None
      end
  end.

Definition Tally_find (y : Tally) (segment : SegmentId) : option nat :=
  match ty_rows y !! ty_last y with
  | Some row => if tr_segment row =? segment then Some (ty_last y) else rposition segment (ty_rows y)
  | None => rposition segment (ty_rows y)
  end.

(** The tally with a row for a segment, and where that row is. *)
Definition Tally_row (y : Tally) (segment : SegmentId) : Tally * nat :=
  match Tally_find y segment with
  | Some at_ => (mkTally (ty_table y) (ty_rows y) at_, at_)
  | None => (mkTally (ty_table y) (ty_rows y ++ [mkTallyRow segment None SegmentBytes_default 0 None]) (length (ty_rows y)), length (ty_rows y))
  end.

Definition Tally_with (y : Tally) (segment : SegmentId) (change : TallyRow -> TallyRow) : Tally :=
  let '(y, at_) := Tally_row y segment in mkTally (ty_table y) (alter change at_ (ty_rows y)) (ty_last y).

Definition tally_note_min (lsn : Lsn) (row : TallyRow) : TallyRow :=
  mkTallyRow (tr_segment row) (tr_incarnation row) (tr_bytes row) (tr_shadowed row)
    (Some (match tr_oldest row with Some oldest => Z.min oldest lsn | None => lsn end)).
Definition tally_stamp (worn : SegmentIncarnation) (row : TallyRow) : TallyRow :=
  mkTallyRow (tr_segment row) (Some worn) (tr_bytes row) (tr_shadowed row) (tr_oldest row).
Definition tally_bytes (change : SegmentBytes -> SegmentBytes) (row : TallyRow) : TallyRow :=
  mkTallyRow (tr_segment row) (tr_incarnation row) (change (tr_bytes row)) (tr_shadowed row) (tr_oldest row).
Definition tally_shadowed (span : Z) (row : TallyRow) : TallyRow :=
  mkTallyRow (tr_segment row) (tr_incarnation row) (tr_bytes row) (as_u64 (tr_shadowed row + span)) (tr_oldest row).

Definition tally_live (span : Z) (b : SegmentBytes) : SegmentBytes := mkSegmentBytes (as_u64 (sb_live b + span)) (sb_dead b) (sb_held b) (sb_held_lsn b).
Definition tally_dead (span : Z) (b : SegmentBytes) : SegmentBytes := mkSegmentBytes (sb_live b) (as_u64 (sb_dead b + span)) (sb_held b) (sb_held_lsn b).
Definition tally_held (lsn : Lsn) (span : Z) (b : SegmentBytes) : SegmentBytes :=
  mkSegmentBytes (as_u64 (sb_live b + span)) (sb_dead b) (as_u64 (sb_held b + span))
    (Some (match sb_held_lsn b with Some held => Z.max held lsn | None => lsn end)).

Definition Tally_live_incarnation (y : Tally) (segment : SegmentId) : Tally * SegmentIncarnation :=
  let '(y, at_) := Tally_row y segment in
  match row ← ty_rows y !! at_; tr_incarnation row with
  | Some known => (y, known)
  | None =>
      let '(table, issued) := SegmentTable_live_incarnation (ty_table y) segment in
      (Tally_with (mkTally table (ty_rows y) (ty_last y)) segment (tally_stamp issued), issued)
  end.

Definition Tally_mark_live (y : Tally) (segment : SegmentId) (lsn : Lsn) (span : Z) : Tally :=
  Tally_with y segment (fun row => tally_bytes (tally_live span) (tally_note_min lsn row)).
Definition Tally_mark_dead (y : Tally) (segment : SegmentId) (lsn : Lsn) (span : Z) : Tally :=
  Tally_with y segment (fun row => tally_bytes (tally_dead span) (tally_note_min lsn row)).
Definition Tally_shadow (y : Tally) (segment : SegmentId) (span : Z) : Tally := Tally_with y segment (tally_shadowed span).
Definition Tally_mark_held (y : Tally) (segment : SegmentId) (lsn : Lsn) (span : Z) : Tally :=
  Tally_with y segment (tally_bytes (tally_held lsn span)).

#[export] Instance Tally_Bookings : Bookings Tally := {|
  live_incarnation := Tally_live_incarnation;
  mark_live := Tally_mark_live;
  mark_dead := Tally_mark_dead;
  shadow := Tally_shadow;
  mark_held := Tally_mark_held;
|}.

Definition settle_row (t : SegmentTable) (row : TallyRow) : SegmentTable :=
  let t := if bool_decide (tr_bytes row = SegmentBytes_default) then t else SegmentTable_adopt t (tr_segment row) (tr_bytes row) in
  match tr_oldest row with Some oldest => SegmentTable_note_min t (tr_segment row) oldest | None => t end.

Definition settle_shadow (t : SegmentTable) (row : TallyRow) : SegmentTable :=
  if 0 <? tr_shadowed row then SegmentTable_shadow t (tr_segment row) (tr_shadowed row) else t.

Definition Tally_settle (y : Tally) : SegmentTable :=
  fold_left settle_shadow (ty_rows y) (fold_left settle_row (ty_rows y) (ty_table y)).

(** ** Postings *)

Inductive Posting :=
| PostStamp (segment : SegmentId)
| PostLive (segment : SegmentId) (lsn : Lsn) (span : Z)
| PostDead (segment : SegmentId) (lsn : Lsn) (span : Z)
| PostShadow (segment : SegmentId) (span : Z)
| PostHeld (segment : SegmentId) (lsn : Lsn) (span : Z).

(** A posting made against any book, with the stamp it answers. *)
Definition post {Book} `{Bookings Book} (acc : Book * list SegmentIncarnation) (p : Posting) : Book * list SegmentIncarnation :=
  let '(book, stamps) := acc in
  match p with
  | PostStamp segment => let '(book, worn) := live_incarnation book segment in (book, stamps ++ [worn])
  | PostLive segment lsn span => (mark_live book segment lsn span, stamps)
  | PostDead segment lsn span => (mark_dead book segment lsn span, stamps)
  | PostShadow segment span => (shadow book segment span, stamps)
  | PostHeld segment lsn span => (mark_held book segment lsn span, stamps)
  end.

Definition post_segment (p : Posting) : SegmentId :=
  match p with PostStamp segment | PostLive segment _ _ | PostDead segment _ _ | PostShadow segment _ | PostHeld segment _ _ => segment end.
Definition post_span (p : Posting) : Z :=
  match p with PostStamp _ => 0 | PostLive _ _ span | PostDead _ _ span | PostShadow _ span | PostHeld _ _ span => span end.
Fixpoint post_total (ps : list Posting) : Z := match ps with [] => 0 | p :: ps => post_span p + post_total ps end.

(** ** Segments within one window *)

Section settling.
Variable lo : Z.
Hypothesis lo_ok : 0 <= lo /\ lo mod CHUNKZ = 0.

(** A window that stands within the numbers from [lo] on that one window can span. *)
Definition fits (w : Window) : Prop := w_chunks w = [] \/ (lo <= w_base w /\ w_end w <= lo + MAX_WINDOW).
Definition spanned (s : SegmentId) : Prop := segment_ok s /\ lo <= s < lo + MAX_WINDOW.

Lemma aligned_le a b : a mod CHUNKZ = 0 -> b mod CHUNKZ = 0 -> a < b + CHUNKZ -> a <= b.
Proof. intros Ha Hb Hlt; apply Z.mod_divide in Ha as [x ->]; [| done]; apply Z.mod_divide in Hb as [y ->]; [| done]; change CHUNKZ with 256 in *; lia. Qed.

Lemma top_aligned : (lo + MAX_WINDOW) mod CHUNKZ = 0.
Proof. replace (lo + MAX_WINDOW) with (lo + 4096 * CHUNKZ) by (change CHUNKZ with 256; change MAX_WINDOW with 1048576; lia); rewrite Z.mod_add by done; apply lo_ok. Qed.

Lemma fits_reach w s : fits w -> spanned s -> in_reach w s = true.
Proof.
  intros Hf [Hs Hsp]; unfold in_reach; destruct Hf as [->|[Hb He]]; [done|]; destruct (w_chunks w); [done|].
  pose proof (aligned_above lo s (proj1 lo_ok) (proj2 lo_ok) ltac:(lia)); pose proof (len_nonneg (w_chunks w)); unfold w_end in He; change CHUNKZ with 256 in *.
  destruct (Z.ltb_spec s (w_base w)); [apply Z.leb_le | apply Z.ltb_lt]; lia.
Qed.

Lemma grown_fits base at_ gone reach present chunks : 0 <= at_ -> base mod CHUNKZ = 0 -> lo <= base -> base + at_ < lo + MAX_WINDOW -> base + CHUNKZ * len chunks <= lo + MAX_WINDOW ->
  fits (mkWindow base gone reach (grow (S (Z.to_nat (at_ / CHUNKZ))) at_ chunks) present).
Proof.
  intros Ha Hal Hlo Htop He; right; unfold w_end; cbn [w_base w_chunks]; split; [done|].
  destruct (grow_new (S (Z.to_nat (at_ / CHUNKZ))) at_ chunks) as (n & E & _ & Hn); [done | pose proof (Z.div_pos at_ CHUNKZ); len_lia|].
  destruct Hn as [->|Hn]; [by rewrite E, app_nil_r|]; apply aligned_le; [| apply top_aligned | lia].
  by rewrite Z.mul_comm, Z.mod_add.
Qed.

Lemma open_fits w s : window_ok w -> fits w -> spanned s -> fits (Window_open w s).1.
Proof.
  intros Hw Hf [Hs Hsp]; unfold Window_open; destruct (s <? w_gone w); [done|].
  destruct (aligned_down s) as (Ha & Hdown & Hup); [lia|]; pose proof (aligned_above lo s (proj1 lo_ok) (proj2 lo_ok) ltac:(lia)) as Hal.
  destruct (w_chunks w) as [|c cs] eqn:Ec.
  - destruct (_ && _); [by left|]; destruct (Z.ltb_spec s (s - s mod CHUNKZ)); [lia|]; cbv beta zeta iota.
    destruct (_ <=? _); [by left|]; apply grown_fits; [lia | done | lia | lia |]; change (len []) with 0; pose proof top_aligned; apply aligned_le; [| done |]; [by rewrite Z.mul_0_r, Z.add_0_r | lia].
  - rewrite <- Ec; destruct Hf as [Hf|[Hb He]]; [congruence|]; unfold w_end in He; destruct (_ && _); [right; unfold w_end; cbn [fst w_base w_chunks]; done|].
    destruct (Z.ltb_spec s (w_base w)) as [Hlt|Hge]; cbv beta zeta iota.
    + set (reach := w_base w - (s - s mod CHUNKZ)).
      assert (CHUNKZ * (reach / CHUNKZ) = reach) as Er by (symmetry; apply Z.div_exact; [done|]; subst reach; rewrite Zminus_mod, (wk_base_aligned _ Hw), Ha; done).
      assert (0 <= reach / CHUNKZ) by (apply Z.div_pos; [subst reach; lia | done]).
      assert (w_base w - reach + CHUNKZ * len (replicate (Z.to_nat (reach / CHUNKZ)) Chunk_new ++ w_chunks w) <= lo + MAX_WINDOW) as Hend.
      { rewrite len_app, len_replicate, Z2Nat.id by done; lia. }
      destruct (_ <=? _); [right; unfold w_end; cbn [fst w_base w_chunks]; split; [subst reach; lia | exact Hend]|].
      apply grown_fits; [subst reach; lia | | subst reach; lia | subst reach; lia | exact Hend]; subst reach; replace (w_base w - _) with (s - s mod CHUNKZ) by lia; done.
    + destruct (_ <=? _); [by right|]; apply grown_fits; [lia | apply Hw | done | lia | done].
Qed.

Lemma set_row_fits w s r : fits w -> fits (set_row w s r).
Proof.
  intros [E|[Hb He]]; [left; unfold set_row; cbn [w_chunks]; by rewrite E|]; right; unfold w_end, set_row, len in *; cbn [w_base w_chunks]; rewrite length_alter; done.
Qed.

Lemma opened_fits t s act : window_ok (st_window t) -> fits (st_window t) -> spanned s -> fits (st_window (opened t s act)).
Proof.
  intros Hw Hf Hs; unfold opened; destruct (Window_counted _ _); [by apply set_row_fits|]; destruct (Window_is_retired _ _); [done|].
  pose proof (open_fits _ s Hw Hf Hs) as Ho; unfold Window_open_counted; destruct (Window_open _ _) as [w [r|]]; [| exact Ho]; cbn [fst] in Ho.
  pose proof (set_row_fits w s (raise PRESENT r) Ho) as Ho'; destruct (Window_row _ _); [apply set_row_fits|]; exact Ho'.
Qed.

Lemma booked_fits t s act : fits (st_window t) -> fits (st_window (booked t s act)).
Proof. intros Hf; unfold booked; destruct (Window_counted _ _); [by apply set_row_fits | done]. Qed.

Lemma stamp_fits t s : window_ok (st_window t) -> fits (st_window t) -> spanned s -> fits (st_window (SegmentTable_live_incarnation t s).1).
Proof.
  intros Hw Hf Hs; assert (fits (st_window (open_worn t s).1)) as Ho.
  { pose proof (open_fits _ s Hw Hf Hs) as Ho; unfold open_worn; destruct (Window_open _ _) as [w [r|]]; [| exact Ho]; cbn [fst] in Ho.
    destruct (_ =? _); [by apply set_row_fits | exact Ho]. }
  unfold SegmentTable_live_incarnation; destruct (Window_row _ _); [destruct (_ =? _); [exact Ho | exact Hf] | exact Ho].
Qed.

(** A booking against a segment within the window that has not retired goes through. *)
Lemma opened_spanned t s act : window_ok (st_window t) -> fits (st_window t) -> spanned s -> is_retired (cell (st_window t) s) = false -> keeps_flags act ->
  window_ok (st_window (opened t s act)) /\ fits (st_window (opened t s act)) /\ st_next_incarnation (opened t s act) = st_next_incarnation t
  /\ changed (st_window t) (st_window (opened t s act)) s (act (raise PRESENT (cell (st_window t) s))).
Proof.
  intros Hw Hf Hs Hr Ha; destruct (opened_ok t s act Hw (proj1 Hs) Ha) as (Hw' & En & Hc); unfold refuses in Hc; rewrite Hr, fits_reach in Hc by done.
  cbn [orb negb] in Hc; rewrite andb_false_r in Hc; split_and!; [done | by apply opened_fits | done | apply Hc].
Qed.

(** ** Rows of a tally *)

Definition no_row (s : SegmentId) : TallyRow := mkTallyRow s None SegmentBytes_default 0 None.

Fixpoint row_of (rows : list TallyRow) (s : SegmentId) : TallyRow :=
  match rows with [] => no_row s | row :: rows => if tr_segment row =? s then row else row_of rows s end.

Definition one_each (rows : list TallyRow) : Prop := NoDup (map tr_segment rows).

Lemma row_of_lookup rows i row : one_each rows -> rows !! i = Some row -> row_of rows (tr_segment row) = row.
Proof.
  revert i; induction rows as [|x rows IH]; intros [|i] Hn E; simplify_eq/=; [by rewrite Z.eqb_refl|]; apply NoDup_cons in Hn as [Hx Hn].
  destruct (Z.eqb_spec (tr_segment x) (tr_segment row)) as [Ex|]; [| by eapply IH]; exfalso; apply Hx; rewrite Ex; apply list_elem_of_fmap_2; by eapply list_elem_of_lookup_2.
Qed.

Lemma row_of_none rows s : ~ s ∈ map tr_segment rows -> row_of rows s = no_row s.
Proof.
  induction rows as [|x rows IH]; intros Hn; [done|]; cbn [row_of map] in *; rewrite not_elem_of_cons in Hn; destruct Hn as [Hx Hn].
  destruct (Z.eqb_spec (tr_segment x) s); [by subst | by apply IH].
Qed.

Lemma row_of_segment rows s : tr_segment (row_of rows s) = s.
Proof. induction rows as [|x rows IH]; [done|]; cbn [row_of]; by destruct (Z.eqb_spec (tr_segment x) s). Qed.

Lemma rposition_ok s rows : match rposition s rows with Some i => exists row, rows !! i = Some row /\ tr_segment row = s | None => ~ s ∈ map tr_segment rows end.
Proof.
  induction rows as [|x rows IH]; cbn [rposition map]; [apply not_elem_of_nil|]; destruct (rposition s rows) as [i|]; [exact IH|].
  destruct (Z.eqb_spec (tr_segment x) s); [by exists x|]; rewrite not_elem_of_cons; split; [congruence | done].
Qed.

Lemma tally_find_ok y s : match Tally_find y s with Some i => exists row, ty_rows y !! i = Some row /\ tr_segment row = s | None => ~ s ∈ map tr_segment (ty_rows y) end.
Proof.
  unfold Tally_find; pose proof (rposition_ok s (ty_rows y)) as Hr; destruct (ty_rows y !! ty_last y) as [row|] eqn:E; [| exact Hr].
  destruct (Z.eqb_spec (tr_segment row) s); [by exists row | exact Hr].
Qed.

Lemma tally_row_ok y s : one_each (ty_rows y) ->
  let '(y', at_) := Tally_row y s in
  ty_table y' = ty_table y /\ one_each (ty_rows y') /\ ty_rows y' !! at_ = Some (row_of (ty_rows y) s) /\ (forall s', row_of (ty_rows y') s' = row_of (ty_rows y) s')
  /\ (forall row, row ∈ ty_rows y' -> row ∈ ty_rows y \/ tr_segment row = s).
Proof.
  intros Hn; unfold Tally_row; pose proof (tally_find_ok y s) as Hf; destruct (Tally_find y s) as [i|].
  - destruct Hf as (row & E & <-); cbn [ty_table ty_rows]; rewrite (row_of_lookup _ i row) by done; split_and!; [done | done | done | done | auto].
  - cbn [ty_table ty_rows]; rewrite row_of_none by done; split_and!; [done | | | |].
    + unfold one_each; rewrite map_app; apply NoDup_app; split_and!; [done | | apply NoDup_singleton]; intros x Hx ->%list_elem_of_singleton; done.
    + by apply list_lookup_middle.
    + intros s'; induction (ty_rows y) as [|x rows IH]; cbn [app row_of tr_segment]; [by destruct (Z.eqb_spec s s') as [->|]|].
      destruct (tr_segment x =? s') eqn:Ex; [done|]; apply IH; [by apply NoDup_cons in Hn as [_ Hn] |]; cbn [map] in Hf; rewrite not_elem_of_cons in Hf; tauto.
    + intros row [Hr| ->%list_elem_of_singleton]%elem_of_app; [by left | by right].
Qed.

Lemma row_of_alter rows i row s change : one_each rows -> rows !! i = Some row -> (forall r, tr_segment (change r) = tr_segment r) ->
  one_each (alter change i rows) /\ row_of (alter change i rows) s = if s =? tr_segment row then change row else row_of rows s.
Proof.
  intros Hn E Hch; assert (map tr_segment (alter change i rows) = map tr_segment rows) as Em.
  { clear Hn; revert i E; induction rows as [|x rows IH]; intros [|i] E; simplify_eq/=; [by rewrite Hch | by f_equal; apply IH]. }
  split; [unfold one_each; by rewrite Em|]; clear Em; revert i E; induction rows as [|x rows IH]; intros [|i] E; simplify_eq/=.
  - rewrite Hch; destruct (Z.eqb_spec (tr_segment row) s) as [->|]; [by rewrite Z.eqb_refl|]; by destruct (Z.eqb_spec s (tr_segment row)); [congruence|].
  - pose proof Hn as [Hx Hn']%NoDup_cons; rewrite (IH Hn' i E); destruct (Z.eqb_spec (tr_segment x) s) as [Ex|]; [| done].
    destruct (Z.eqb_spec s (tr_segment row)) as [Es|]; [| done]; exfalso; apply Hx; rewrite Ex, Es; apply list_elem_of_fmap_2; by eapply list_elem_of_lookup_2.
Qed.

Definition rows_all (P : SegmentId -> Prop) (rows : list TallyRow) : Prop := Forall (fun row => P (tr_segment row)) rows.

Lemma with_ok P y s change : one_each (ty_rows y) -> rows_all P (ty_rows y) -> P s -> (forall r, tr_segment (change r) = tr_segment r) ->
  let y' := Tally_with y s change in
  ty_table y' = ty_table y /\ one_each (ty_rows y') /\ rows_all P (ty_rows y')
  /\ forall s', row_of (ty_rows y') s' = if s' =? s then change (row_of (ty_rows y) s) else row_of (ty_rows y) s'.
Proof.
  intros Hn Hsp Hs Hch; unfold Tally_with; pose proof (tally_row_ok y s Hn) as Hr; destruct (Tally_row y s) as [y1 i]; destruct Hr as (Et & Hn1 & El & Hrow & Hin).
  cbn [ty_table ty_rows]; split_and!; [done | | |].
  - by eapply (row_of_alter _ i _ 0).
  - apply Forall_lookup; intros j row Hj; assert (forall j row, ty_rows y1 !! j = Some row -> P (tr_segment row)) as Hsp1.
    { intros j' row' Hj'; destruct (Hin row') as [H| ->]; [by eapply list_elem_of_lookup_2 | | done]; unfold rows_all in Hsp; rewrite Forall_forall in Hsp; by apply Hsp. }
    destruct (decide (i = j)) as [->|Hne]; [rewrite list_lookup_alter_eq, El in Hj; simplify_eq/=; rewrite Hch; by eapply Hsp1 | rewrite list_lookup_alter_ne in Hj by done; by eapply Hsp1].
  - intros s'; destruct (row_of_alter _ i _ s' change Hn1 El Hch) as [_ ->]; rewrite row_of_segment; by destruct (s' =? s).
Qed.

(** ** What settling a row does to its cell *)

Definition first_phase (row : TallyRow) (c : SegmentRow) : SegmentRow :=
  let c := if bool_decide (tr_bytes row = SegmentBytes_default) then c else booking_act (Adopt 0 (tr_bytes row)) (raise PRESENT c) in
  match tr_oldest row with Some oldest => note_min_row oldest (raise PRESENT c) | None => c end.
Definition second_phase (row : TallyRow) (c : SegmentRow) : SegmentRow := if 0 <? tr_shadowed row then row_shadow (tr_shadowed row) c else c.

Lemma acted_not_retired b c : row_ok c -> is_retired c = false -> is_retired (booking_act b (raise PRESENT c)) = false /\ row_ok (booking_act b (raise PRESENT c)).
Proof.
  intros Hc Hr; destruct (raised_ok c Hc Hr) as (Hok & Hp & Ef); pose proof (booking_keeps_flags b (raise PRESENT c)) as E; rewrite Ef in E.
  split; [unfold is_retired; by rewrite E | by right; right].
Qed.

Lemma settle_row_ok t row : window_ok (st_window t) -> fits (st_window t) -> spanned (tr_segment row) -> is_retired (cell (st_window t) (tr_segment row)) = false ->
  window_ok (st_window (settle_row t row)) /\ fits (st_window (settle_row t row)) /\ st_next_incarnation (settle_row t row) = st_next_incarnation t
  /\ changed (st_window t) (st_window (settle_row t row)) (tr_segment row) (first_phase row (cell (st_window t) (tr_segment row))).
Proof.
  intros Hw Hf Hs Hr; set (s := tr_segment row) in *; unfold settle_row, first_phase; fold s.
  set (t1 := if bool_decide _ then t else _); set (c1 := if bool_decide _ then cell _ s else _).
  assert (window_ok (st_window t1) /\ fits (st_window t1) /\ st_next_incarnation t1 = st_next_incarnation t /\ changed (st_window t) (st_window t1) s c1 /\ is_retired c1 = false)
    as (Hw1 & Hf1 & En1 & Hc1 & Hr1).
  { subst t1 c1; destruct (bool_decide _); [split_and!; [done.. | | done]; intros s'; destruct (Z.eqb_spec s' s) as [->|]; done|].
    destruct (opened_spanned t s (booking_act (Adopt 0 (tr_bytes row))) Hw Hf Hs Hr (booking_keeps_flags _)) as (? & ? & ? & ?); split_and!; [done.. |].
    apply acted_not_retired; [by apply cell_ok | done]. }
  destruct (tr_oldest row) as [o|]; [| done]; assert (cell (st_window t1) s = c1) as Ec by (by rewrite Hc1, Z.eqb_refl).
  destruct (opened_spanned t1 s (booking_act (NoteMin 0 o)) Hw1 Hf1 Hs) as (Hw2 & Hf2 & En2 & Hc2); [by rewrite Ec | apply booking_keeps_flags |].
  change (SegmentTable_note_min t1 s o) with (opened t1 s (booking_act (NoteMin 0 o))).
  split_and!; [done | done | by rewrite <- En1 |]; intros s'; rewrite Ec in Hc2; rewrite (Hc2 s'), Hc1; by destruct (s' =? s).
Qed.

Lemma settle_rows_ok rows t : one_each rows -> rows_all spanned rows -> window_ok (st_window t) -> fits (st_window t) ->
  (forall row, row ∈ rows -> is_retired (cell (st_window t) (tr_segment row)) = false) ->
  let t' := fold_left settle_row rows t in
  window_ok (st_window t') /\ fits (st_window t') /\ st_next_incarnation t' = st_next_incarnation t
  /\ forall s, cell (st_window t') s = first_phase (row_of rows s) (cell (st_window t) s).
Proof.
  intros Hn Hsp; revert t; induction Hsp as [|x rows Hx Hsp IH]; intros t Hw Hf Hr; [by split_and!|]; cbn [fold_left].
  apply NoDup_cons in Hn as [Hx' Hn]; destruct (settle_row_ok t x Hw Hf Hx) as (Hw1 & Hf1 & En1 & Hc1); [apply Hr; by left|].
  destruct (IH Hn (settle_row t x)) as (Hw2 & Hf2 & En2 & Hc2); [done | done | |split_and!; [done | done | by rewrite <- En1 |]].
  - intros row Hin; rewrite Hc1; destruct (Z.eqb_spec (tr_segment row) (tr_segment x)) as [E|]; [| apply Hr; by right].
    exfalso; apply Hx'; rewrite <- E; by apply list_elem_of_fmap_2.
  - intros s; rewrite Hc2, Hc1; cbn [row_of]; rewrite (Z.eqb_sym s); destruct (Z.eqb_spec (tr_segment x) s) as [<-|]; [by rewrite (row_of_none rows) | done].
Qed.

Lemma settle_shadow_ok t row : window_ok (st_window t) -> (0 < tr_shadowed row -> is_present (cell (st_window t) (tr_segment row)) = true) ->
  window_ok (st_window (settle_shadow t row)) /\ st_next_incarnation (settle_shadow t row) = st_next_incarnation t
  /\ changed (st_window t) (st_window (settle_shadow t row)) (tr_segment row) (second_phase row (cell (st_window t) (tr_segment row))).
Proof.
  intros Hw Hp; unfold settle_shadow, second_phase; destruct (Z.ltb_spec 0 (tr_shadowed row)) as [Hs|Hs].
  - destruct (booked_ok t (tr_segment row) (booking_act (Shadow 0 (tr_shadowed row))) Hw (booking_keeps_flags _)) as (Hw' & En & Hc); rewrite Hp in Hc by done.
    destruct Hc as [Hc _]; by split_and!.
  - split_and!; [done | done |]; intros s; by destruct (Z.eqb_spec s (tr_segment row)) as [->|].
Qed.

Lemma settle_shadows_ok rows t : one_each rows -> window_ok (st_window t) ->
  (forall row, row ∈ rows -> 0 < tr_shadowed row -> is_present (cell (st_window t) (tr_segment row)) = true) ->
  let t' := fold_left settle_shadow rows t in
  window_ok (st_window t') /\ st_next_incarnation t' = st_next_incarnation t /\ forall s, cell (st_window t') s = second_phase (row_of rows s) (cell (st_window t) s).
Proof.
  revert t; induction rows as [|x rows IH]; intros t Hn Hw Hp; [by split_and!|]; cbn [fold_left].
  apply NoDup_cons in Hn as [Hx' Hn]; destruct (settle_shadow_ok t x Hw) as (Hw1 & En1 & Hc1); [apply Hp; by left|].
  destruct (IH (settle_shadow t x) Hn Hw1) as (Hw2 & En2 & Hc2); [| split_and!; [done | by rewrite <- En1 |]].
  - intros row Hin Hs; rewrite Hc1; destruct (Z.eqb_spec (tr_segment row) (tr_segment x)) as [E|]; [| apply Hp; [by right | done]].
    exfalso; apply Hx'; rewrite <- E; by apply list_elem_of_fmap_2.
  - intros s; rewrite Hc2, Hc1; cbn [row_of]; rewrite (Z.eqb_sym s); destruct (Z.eqb_spec (tr_segment x) s) as [<-|]; [by rewrite (row_of_none rows) | done].
Qed.

(** ** The cell a tally's row comes to *)

Definition touched (row : TallyRow) : bool := negb (bool_decide (tr_bytes row = SegmentBytes_default)) || bool_decide (is_Some (tr_oldest row)).

Definition settled (row : TallyRow) (c : SegmentRow) : SegmentRow :=
  let b := tr_bytes row in
  mkSegmentRow (sr_live c + sb_live b - tr_shadowed row) (sr_dead c + sb_dead b + tr_shadowed row) (sr_held c + sb_held b)
    (match tr_oldest row with Some oldest => Z.min (sr_min_lsn c) oldest | None => sr_min_lsn c end) (sr_max_lsn c) (sr_sealed_at c)
    (match sb_held_lsn b with Some lsn => Z.max (sr_held_lsn c) lsn | None => sr_held_lsn c end) (sr_incarnation c)
    (if touched row then Z.lor (sr_flags c) PRESENT else sr_flags c).

(** Sums that stay within their width, and shadow nothing that was not live. *)
Record sums_ok (row : TallyRow) (c : SegmentRow) : Prop := {
  su_live : 0 <= sr_live c /\ 0 <= sb_live (tr_bytes row) /\ sr_live c + sb_live (tr_bytes row) < U64;
  su_dead : 0 <= sr_dead c /\ 0 <= sb_dead (tr_bytes row) /\ sr_dead c + sb_dead (tr_bytes row) + tr_shadowed row < U64;
  su_held : 0 <= sr_held c /\ 0 <= sb_held (tr_bytes row) /\ sr_held c + sb_held (tr_bytes row) < U64;
  su_shadowed : 0 <= tr_shadowed row <= sr_live c + sb_live (tr_bytes row);
  su_present : 0 < tr_shadowed row -> touched row || is_present c = true;
}.

Lemma note_min_row_eq lsn r : note_min_row lsn r =
  mkSegmentRow (sr_live r) (sr_dead r) (sr_held r) (Z.min (sr_min_lsn r) lsn) (sr_max_lsn r) (sr_sealed_at r) (sr_held_lsn r) (sr_incarnation r) (sr_flags r).
Proof. unfold note_min_row; destruct (Z.ltb_spec lsn (sr_min_lsn r)); [done|]; destruct r; cbn in *; f_equal; lia. Qed.

Lemma lor_present_twice f : Z.lor (Z.lor f PRESENT) PRESENT = Z.lor f PRESENT.
Proof. by rewrite <- Z.lor_assoc. Qed.

Lemma u64_small z : 0 <= z < U64 -> as_u64 z = z.
Proof. apply Z.mod_small. Qed.

Lemma adopt_eq b r : booking_act (Adopt 0 b) r =
  mkSegmentRow (as_u64 (sr_live r + sb_live b)) (as_u64 (sr_dead r + sb_dead b)) (as_u64 (sr_held r + sb_held b)) (sr_min_lsn r) (sr_max_lsn r) (sr_sealed_at r)
    (match sb_held_lsn b with Some lsn => Z.max (sr_held_lsn r) lsn | None => sr_held_lsn r end) (sr_incarnation r) (sr_flags r).
Proof. cbn; by destruct (sb_held_lsn b). Qed.

Lemma phases_settle row c : sums_ok row c -> second_phase row (first_phase row c) = settled row c.
Proof.
  intros [Hl Hd Hh Hs _]; unfold first_phase, second_phase, settled, touched, row_shadow, add_dead, drop_live, saturating_sub; destruct row as [s i b sh o]; cbn [tr_bytes tr_oldest tr_shadowed tr_incarnation] in *.
  destruct (bool_decide_reflect (b = SegmentBytes_default)) as [->|Hb]; cbn [negb orb sb_live sb_dead sb_held sb_held_lsn SegmentBytes_default] in *.
  - destruct o as [o|]; [rewrite bool_decide_eq_true_2 by done; rewrite note_min_row_eq | rewrite bool_decide_eq_false_2 by (by intros [? ?])];
      (destruct (Z.ltb_spec 0 sh); cbn; destruct c; cbn in *; f_equal; try lia; rewrite u64_small; lia).
  - rewrite adopt_eq; cbn; rewrite !u64_small by lia; destruct o as [o|]; [rewrite note_min_row_eq|]; cbn;
      (destruct (Z.ltb_spec 0 sh); cbn; rewrite ?lor_present_twice; f_equal; try lia; rewrite u64_small; lia).
Qed.

(** ** In step *)

(** The segments the postings are against: within the window, and standing in the table. *)
Variable standing : SegmentId -> Prop.
Hypothesis standing_spanned : forall s, standing s -> spanned s.
Variable total : Z.

(** A table booked directly and a tally, after postings that came to [spent] bytes. *)
Record in_step (spent : Z) (t : SegmentTable) (y : Tally) : Prop := {
  is_direct : window_ok (st_window t) /\ fits (st_window t);
  is_behind : window_ok (st_window (ty_table y)) /\ fits (st_window (ty_table y));
  is_rows : one_each (ty_rows y) /\ rows_all standing (ty_rows y);
  is_next : st_next_incarnation t = st_next_incarnation (ty_table y);
  is_cell : forall s, cell (st_window t) s = settled (row_of (ty_rows y) s) (cell (st_window (ty_table y)) s);
  is_sums : forall s, sums_ok (row_of (ty_rows y) s) (cell (st_window (ty_table y)) s);
  is_spent : forall s, let row := row_of (ty_rows y) s in sb_live (tr_bytes row) + sb_dead (tr_bytes row) + tr_shadowed row <= spent /\ sb_held (tr_bytes row) <= spent;
  is_room : forall s, let c := cell (st_window (ty_table y)) s in sr_live c + total < U64 /\ sr_dead c + total < U64 /\ sr_held c + total < U64;
  is_stamps : forall s worn, tr_incarnation (row_of (ty_rows y) s) = Some worn -> worn = sr_incarnation (cell (st_window (ty_table y)) s) /\ worn <> 0;
  is_standing : forall s, standing s -> is_retired (cell (st_window (ty_table y)) s) = false;
}.

(** A posting that touches one cell of the table and one row of the tally. *)
Lemma in_step_update spent spent' t y t' s change : in_step spent t y -> standing s ->
  let row := row_of (ty_rows y) s in let c := cell (st_window (ty_table y)) s in
  (forall r, tr_segment (change r) = tr_segment r) -> (forall r, tr_incarnation (change r) = tr_incarnation r) ->
  window_ok (st_window t') /\ fits (st_window t') -> st_next_incarnation t' = st_next_incarnation t ->
  changed (st_window t) (st_window t') s (settled (change row) c) ->
  spent <= spent' -> sb_live (tr_bytes (change row)) + sb_dead (tr_bytes (change row)) + tr_shadowed (change row) <= spent' -> sb_held (tr_bytes (change row)) <= spent' ->
  sums_ok (change row) c -> in_step spent' t' (Tally_with y s change).
Proof.
  intros Hj Hs row c Hseg Hinc Hw' En Hc Hsp H1 H2 Hsum; destruct Hj as [_ Hb [Hone Hall] Enext Hcell Hsums Hspent Hroom Hst Hstand].
  destruct (with_ok standing y s change Hone Hall Hs Hseg) as (Et & Hone' & Hall' & Hrow); split; rewrite ?Et; try done.
  - by rewrite En.
  - intros s'; rewrite Hc, Hrow, Hcell; by destruct (Z.eqb_spec s' s) as [->|].
  - intros s'; rewrite Hrow; destruct (Z.eqb_spec s' s) as [->|]; [done | apply Hsums].
  - intros s'; rewrite Hrow; destruct (Z.eqb_spec s' s) as [->|]; [done|]; pose proof (Hspent s') as Hs'; cbv zeta in *; lia.
  - intros s' worn; rewrite Hrow; destruct (Z.eqb_spec s' s) as [->|]; [rewrite Hinc|]; apply Hst.
Qed.

Lemma is_retired_settled row c : row_ok c -> is_retired c = false -> is_retired (settled row c) = false.
Proof.
  intros Hc Hr; unfold is_retired in *; cbn [settled sr_flags]; destruct (touched row); [| done].
  destruct Hc as [->|[E|E]]; [done | |]; rewrite E; done.
Qed.

Lemma is_present_settled row c : row_ok c -> is_retired c = false -> is_present (settled row c) = touched row || is_present c.
Proof.
  intros Hc Hr; unfold is_present in *; cbn [settled sr_flags]; destruct (touched row); [| done].
  destruct Hc as [->|[E|E]]; [done | |]; rewrite E; done.
Qed.

(** The three bookings that open a row, on the cell a tally's row comes to. *)
Lemma settled_live row c lsn span : sums_ok row c -> 0 <= span -> sr_live c + sb_live (tr_bytes row) + span < U64 ->
  booking_act (MarkLive 0 lsn span) (raise PRESENT (settled row c)) = settled (tally_bytes (tally_live span) (tally_note_min lsn row)) c
  /\ sums_ok (tally_bytes (tally_live span) (tally_note_min lsn row)) c.
Proof.
  intros [Hl Hd Hh Hs _] Hsp Hov; destruct row as [s i [bl bd bh bhl] sh o]; cbn in *; split.
  - rewrite note_min_row_eq; unfold settled, add_live, touched; cbn; rewrite orb_true_r, !u64_small by lia; f_equal; [lia | destruct o; lia |].
    destruct (_ || _); [apply lor_present_twice | done].
  - split; cbn; rewrite ?u64_small by lia; try lia; intros _; unfold touched; cbn; by rewrite orb_true_r.
Qed.

Lemma settled_dead row c lsn span : sums_ok row c -> 0 <= span -> sr_dead c + sb_dead (tr_bytes row) + tr_shadowed row + span < U64 ->
  booking_act (MarkDead 0 lsn span) (raise PRESENT (settled row c)) = settled (tally_bytes (tally_dead span) (tally_note_min lsn row)) c
  /\ sums_ok (tally_bytes (tally_dead span) (tally_note_min lsn row)) c.
Proof.
  intros [Hl Hd Hh Hs _] Hsp Hov; destruct row as [s i [bl bd bh bhl] sh o]; cbn in *; split.
  - rewrite note_min_row_eq; unfold settled, add_dead, touched; cbn; rewrite orb_true_r, !u64_small by lia; f_equal; [lia | destruct o; lia |].
    destruct (_ || _); [apply lor_present_twice | done].
  - split; cbn; rewrite ?u64_small by lia; try lia; intros _; unfold touched; cbn; by rewrite orb_true_r.
Qed.

Lemma settled_held row c lsn span : sums_ok row c -> 0 <= span -> sr_live c + sb_live (tr_bytes row) + span < U64 -> sr_held c + sb_held (tr_bytes row) + span < U64 ->
  booking_act (MarkHeld 0 lsn span) (raise PRESENT (settled row c)) = settled (tally_bytes (tally_held lsn span) row) c
  /\ sums_ok (tally_bytes (tally_held lsn span) row) c.
Proof.
  intros [Hl Hd Hh Hs _] Hsp Hov Hov'; destruct row as [s i [bl bd bh bhl] sh o]; cbn in *.
  assert (touched (tally_bytes (tally_held lsn span) (mkTallyRow s i (mkSegmentBytes bl bd bh bhl) sh o)) = true) as Ht.
  { unfold touched; cbn; rewrite bool_decide_eq_false_2; [done|]; by destruct bhl. }
  split; [| split; cbn; rewrite ?u64_small by lia; try lia; intros _; by rewrite Ht].
  unfold settled, raise_held_lsn, add_held, add_live; rewrite Ht; cbn; rewrite !u64_small by lia; f_equal; try lia.
  - destruct bhl; lia.
  - destruct (touched (mkTallyRow s i (mkSegmentBytes bl bd bh bhl) sh o)); [apply lor_present_twice | done].
Qed.

Lemma settled_shadow row c span : sums_ok row c -> 0 <= span <= sr_live (settled row c) -> touched row || is_present c = true ->
  sr_dead c + sb_dead (tr_bytes row) + tr_shadowed row + span < U64 ->
  booking_act (Shadow 0 span) (settled row c) = settled (tally_shadowed span row) c /\ sums_ok (tally_shadowed span row) c.
Proof.
  intros [Hl Hd Hh Hs Hp] Hsp Hpr Hov; destruct row as [s i [bl bd bh bhl] sh o]; cbn in *; split.
  - unfold settled, row_shadow, drop_live, add_dead, saturating_sub, touched; cbn; rewrite !u64_small by lia; f_equal; lia.
  - split; cbn; rewrite ?u64_small by lia; try lia; by intros _.
Qed.

(** A posting that can be made: against a standing segment, and a shadow of bytes booked live. *)
Definition postable (t : SegmentTable) (p : Posting) : Prop :=
  standing (post_segment p) /\ 0 <= post_span p
  /\ match p with
     | PostShadow s span => is_present (cell (st_window t) s) = true /\ span <= sr_live (cell (st_window t) s)
     | PostStamp _ => 0 <= st_next_incarnation t < U32 - 1
     | _ => True
     end.

Lemma opened_in_step spent t y s span b change : in_step spent t y -> standing s -> 0 <= span -> spent + span <= total ->
  let row := row_of (ty_rows y) s in let c := cell (st_window (ty_table y)) s in
  (forall r, tr_segment (change r) = tr_segment r) -> (forall r, tr_incarnation (change r) = tr_incarnation r) ->
  sb_live (tr_bytes (change row)) + sb_dead (tr_bytes (change row)) + tr_shadowed (change row) <= spent + span -> sb_held (tr_bytes (change row)) <= spent + span ->
  booking_act b (raise PRESENT (settled row c)) = settled (change row) c /\ sums_ok (change row) c ->
  in_step (spent + span) (opened t s (booking_act b)) (Tally_with y s change).
Proof.
  intros Hj Hs Hsp Htot row c Hseg Hinc H1 H2 [Heq Hsum]; pose proof Hj as [[Hw Hf] [Hwb _] _ _ Hcell _ _ _ _ Hstand].
  assert (is_retired (cell (st_window t) s) = false) as Hr by (rewrite Hcell; apply is_retired_settled; [by apply cell_ok | by apply Hstand]).
  destruct (opened_spanned t s (booking_act b) Hw Hf (standing_spanned s Hs) Hr (booking_keeps_flags b)) as (Hw' & Hf' & En & Hc).
  eapply (in_step_update spent); [done.. | | lia | done | done | done]; intros s'; rewrite Hc, Hcell; fold row c; by rewrite Heq.
Qed.

Lemma wear_worn r : wear (sr_incarnation r) r = r.
Proof. by destruct r. Qed.

Lemma stamp_in_step spent t y s : in_step spent t y -> standing s -> 0 <= st_next_incarnation t < U32 - 1 ->
  in_step spent (SegmentTable_live_incarnation t s).1 (Tally_live_incarnation y s).1
  /\ (SegmentTable_live_incarnation t s).2 = (Tally_live_incarnation y s).2.
Proof.
  intros Hj Hs Hn; pose proof Hj as [[Hw Hf] [Hwb Hfb] [Hone Hall] En Hcell Hsums Hspent Hroom Hst Hstand].
  unfold Tally_live_incarnation; pose proof (tally_row_ok y s Hone) as Hr; destruct (Tally_row y s) as [y1 i] eqn:Ey; destruct Hr as (Et & Hone1 & El & Hrow & Hin).
  assert (rows_all standing (ty_rows y1)) as Hall1.
  { apply Forall_forall; intros row Hr; destruct (Hin row Hr) as [H| ->]; [| done]; unfold rows_all in Hall; rewrite Forall_forall in Hall; by apply Hall. }
  assert (in_step spent t y1) as Hj1 by (split; rewrite ?Et; try done; intros s'; rewrite ?Hrow; first [apply Hcell | apply Hsums | apply Hspent | apply Hst]).
  rewrite El; cbn [mbind option_bind]; assert (sr_incarnation (cell (st_window t) s) = sr_incarnation (cell (st_window (ty_table y)) s)) as Einc by (by rewrite Hcell).
  destruct (tr_incarnation (row_of (ty_rows y) s)) as [known|] eqn:Ek.
  { destruct (Hst s known Ek) as [-> Hne]; rewrite <- Einc in *; by rewrite live_incarnation_worn. }
  rewrite Et; set (row := row_of (ty_rows y) s) in *.
  assert (forall t2 tb worn, window_ok (st_window t2) /\ fits (st_window t2) -> window_ok (st_window tb) /\ fits (st_window tb) -> st_next_incarnation t2 = st_next_incarnation tb -> worn <> 0 ->
    changed (st_window t) (st_window t2) s (wear worn (cell (st_window t) s)) -> changed (st_window (ty_table y)) (st_window tb) s (wear worn (cell (st_window (ty_table y)) s)) ->
    in_step spent t2 (Tally_with (mkTally tb (ty_rows y1) (ty_last y1)) s (tally_stamp worn))) as Hstamp.
  { intros t2 tb worn Hd Hb En' Hne Hc Hcb; destruct (with_ok standing (mkTally tb (ty_rows y1) (ty_last y1)) s (tally_stamp worn) Hone1 Hall1 Hs) as (Et2 & Hone2 & Hall2 & Hrow2); [done|].
    cbn [ty_rows ty_table] in *; split; rewrite ?Et2; try done; [intros s'; rewrite ?Hrow2, ?Hcb, ?Hrow..].
    - rewrite Hc, Hcell; by destruct (Z.eqb_spec s' s) as [->|].
    - destruct (Z.eqb_spec s' s) as [->|]; [| apply Hsums]; destruct (Hsums s) as [? ? ? ? ?]; by split.
    - destruct (Z.eqb_spec s' s) as [->|]; [exact (Hspent s) | apply Hspent].
    - destruct (Z.eqb_spec s' s) as [->|]; [exact (Hroom s) | apply Hroom].
    - intros w; destruct (Z.eqb_spec s' s) as [->|]; [intros [= <-]; done | apply Hst].
    - intros Hs'; destruct (Z.eqb_spec s' s) as [->|]; [exact (Hstand s Hs) | by apply Hstand]. }
  destruct (Z.eq_dec (sr_incarnation (cell (st_window t) s)) 0) as [E|E].
  - assert (sr_incarnation (cell (st_window (ty_table y)) s) = 0) as Eb by congruence; rewrite !live_incarnation_open by done.
    pose proof (standing_spanned s Hs) as Hsp; assert (is_retired (cell (st_window t) s) = false) as Hr by (rewrite Hcell; apply is_retired_settled; [by apply cell_ok | by apply Hstand]).
    pose proof (open_worn_ok t s Hw (proj1 Hsp) Hn) as Ho; pose proof (open_worn_ok (ty_table y) s Hwb (proj1 Hsp) ltac:(lia)) as Hob.
    pose proof (stamp_fits t s Hw Hf Hsp) as Hft; pose proof (stamp_fits (ty_table y) s Hwb Hfb Hsp) as Hftb; rewrite !live_incarnation_open in Hft, Hftb by done.
    destruct (open_worn t s) as [t2 worn], (open_worn (ty_table y) s) as [tb wornb]; cbv zeta in Ho, Hob.
    rewrite Hr, (fits_reach _ s Hf Hsp) in Ho; rewrite (Hstand s Hs), (fits_reach _ s Hfb Hsp) in Hob; cbn [orb negb fst snd] in *.
    rewrite E in Ho; rewrite Eb in Hob; cbn [Z.eqb] in *; destruct Ho as (Hw2 & _ & -> & Hc & En2), Hob as (Hwb2 & _ & -> & Hcb & Enb2); rewrite En in *.
    split; [| done]; apply Hstamp; [done | done | congruence | lia | done | done].
  - rewrite live_incarnation_worn by done; rewrite live_incarnation_worn by (done || congruence); cbn [fst snd]; split; [| congruence].
    apply Hstamp; [done | done | done | congruence | rewrite <- Einc |]; intros s'; rewrite wear_worn; by destruct (Z.eqb_spec s' s) as [->|].
Qed.

Lemma post_in_step spent t y stamps p : in_step spent t y -> postable t p -> spent + post_span p <= total ->
  let '(t', stamps') := post (t, stamps) p in let '(y', stamps2) := post (y, stamps) p in
  in_step (spent + post_span p) t' y' /\ stamps' = stamps2.
Proof.
  intros Hj (Hs & Hsp & Hp) Htot; destruct p as [s|s lsn span|s lsn span|s span|s lsn span]; cbn [post post_segment post_span] in *.
  - destruct (stamp_in_step spent t y s Hj Hs Hp) as [Hj' E]; cbn [live_incarnation SegmentTable_Bookings Tally_Bookings].
    destruct (SegmentTable_live_incarnation t s) as [t' worn], (Tally_live_incarnation y s) as [y' worn']; cbn [fst snd] in *; rewrite Z.add_0_r; split; [done | congruence].
  - split; [| done]; pose proof (is_sums _ _ _ Hj s) as Hsum; pose proof (is_spent _ _ _ Hj s) as [H1 H2]; pose proof (is_room _ _ _ Hj s) as (R1 & R2 & R3); pose proof Hsum as [Hl Hd Hh Hsh _].
    eapply (opened_in_step spent t y s span (MarkLive 0 lsn span)); try done; cbn; rewrite ?u64_small; try lia.
    apply settled_live; [done | done | lia].
  - split; [| done]; pose proof (is_sums _ _ _ Hj s) as Hsum; pose proof (is_spent _ _ _ Hj s) as [H1 H2]; pose proof (is_room _ _ _ Hj s) as (R1 & R2 & R3); pose proof Hsum as [Hl Hd Hh Hsh _].
    eapply (opened_in_step spent t y s span (MarkDead 0 lsn span)); try done; cbn; rewrite ?u64_small; try lia.
    apply settled_dead; [done | done | lia].
  - split; [| done]; pose proof (is_sums _ _ _ Hj s) as Hsum; pose proof (is_spent _ _ _ Hj s) as [H1 H2]; pose proof (is_room _ _ _ Hj s) as (R1 & R2 & R3); pose proof Hsum as [Hl Hd Hh Hsh _].
    pose proof Hj as [[Hw Hf] [Hwb _] _ _ Hcell _ _ _ _ Hstand]; destruct Hp as [Hpr Hlv].
    destruct (booked_ok t s (booking_act (Shadow 0 span)) Hw (booking_keeps_flags _)) as (Hw' & En & Hc); rewrite Hpr in Hc; destruct Hc as [Hc _].
    rewrite Hcell in Hlv, Hpr; rewrite is_present_settled in Hpr by (by apply cell_ok || by apply Hstand).
    destruct (settled_shadow _ _ span Hsum) as [Heq Hsum']; [lia | done | lia |].
    eapply (in_step_update spent); try done; cbn; rewrite ?u64_small; try lia; [split; [done | by apply booked_fits]|].
    rewrite Hcell, Heq in Hc; exact Hc.
  - split; [| done]; pose proof (is_sums _ _ _ Hj s) as Hsum; pose proof (is_spent _ _ _ Hj s) as [H1 H2]; pose proof (is_room _ _ _ Hj s) as (R1 & R2 & R3); pose proof Hsum as [Hl Hd Hh Hsh _].
    eapply (opened_in_step spent t y s span (MarkHeld 0 lsn span)); try done; cbn; rewrite ?u64_small; try lia.
    apply settled_held; [done | done | lia | lia].
Qed.

Fixpoint postable_run (t : SegmentTable) (ps : list Posting) : Prop :=
  match ps with [] => True | p :: ps => postable t p /\ postable_run (post (t, []) p).1 ps end.

Lemma post_table {Book} `{Bookings Book} (bk : Book) stamps p : (post (bk, stamps) p).1 = (post (bk, []) p).1.
Proof. destruct p; try done; cbn; by destruct (live_incarnation bk segment). Qed.

Lemma posts_in_step ps spent t y stamps : in_step spent t y -> postable_run t ps -> spent + post_total ps <= total -> Forall (fun p => 0 <= post_span p) ps ->
  let '(t', stamps') := fold_left post ps (t, stamps) in let '(y', stamps2) := fold_left post ps (y, stamps) in
  in_step (spent + post_total ps) t' y' /\ stamps' = stamps2.
Proof.
  revert spent t y stamps; induction ps as [|p ps IH]; intros spent t y stamps Hj Hr Htot Hall; cbn [fold_left post_total] in *; [by rewrite Z.add_0_r|].
  destruct Hr as [Hp Hr]; apply Forall_cons in Hall as [Hp0 Hall]; assert (0 <= post_total ps) as H0 by (clear -Hall; induction Hall; cbn [post_total]; lia).
  pose proof (post_in_step spent t y stamps p Hj Hp ltac:(lia)) as Hstep; pose proof (post_table t stamps p) as Etab.
  destruct (post (t, stamps) p) as [t1 s1], (post (y, stamps) p) as [y1 s2]; destruct Hstep as [Hj1 ->]; cbn [fst] in Etab; rewrite <- Etab in Hr.
  specialize (IH (spent + post_span p) t1 y1 s2 Hj1 Hr ltac:(lia) Hall); rewrite Z.add_assoc; exact IH.
Qed.

Lemma second_phase_flags row c : sr_flags (second_phase row c) = sr_flags c.
Proof. unfold second_phase; by destruct (_ <? _). Qed.

Lemma settle_in_step spent t y : in_step spent t y ->
  window_ok (st_window (Tally_settle y)) /\ st_next_incarnation (Tally_settle y) = st_next_incarnation t
  /\ forall s, cell (st_window (Tally_settle y)) s = cell (st_window t) s.
Proof.
  intros [_ [Hwb Hfb] [Hone Hall] En Hcell Hsums _ _ _ Hstand]; unfold Tally_settle.
  destruct (settle_rows_ok (ty_rows y) (ty_table y) Hone) as (Hw1 & _ & En1 & Hc1); [| done | done | |].
  { eapply Forall_impl; [exact Hall|]; intros row Hr; by apply standing_spanned. }
  { intros row Hin; apply Hstand; unfold rows_all in Hall; rewrite Forall_forall in Hall; by apply Hall. }
  destruct (settle_shadows_ok (ty_rows y) (fold_left settle_row (ty_rows y) (ty_table y)) Hone Hw1) as (Hw2 & En2 & Hc2).
  - intros row Hin Hsh; rewrite Hc1; apply list_elem_of_lookup in Hin as [i Hi]; rewrite (row_of_lookup _ i row) by done; set (s := tr_segment row).
    assert (standing s) as Hs by (unfold rows_all in Hall; rewrite Forall_forall in Hall; apply Hall; by eapply list_elem_of_lookup_2).
    pose proof (Hsums s) as Hsum; subst s; rewrite (row_of_lookup _ i row) in Hsum by done.
    assert (is_present (settled row (cell (st_window (ty_table y)) (tr_segment row))) = true) as Hp by (rewrite is_present_settled; [by apply Hsum | by apply cell_ok | by apply Hstand]).
    rewrite <- phases_settle in Hp by done; unfold is_present in *; by rewrite second_phase_flags in Hp.
  - split_and!; [done | congruence |]; intros s; rewrite Hc2, Hc1, Hcell; by apply phases_settle.
Qed.

End settling.

(** ** The theorem *)

(** Room in every cell for what the postings come to. *)
Definition roomy_cells (t : SegmentTable) (total : Z) : Prop :=
  forall s, let c := cell (st_window t) s in
  (0 <= sr_live c /\ sr_live c + total < U64) /\ (0 <= sr_dead c /\ sr_dead c + total < U64) /\ (0 <= sr_held c /\ sr_held c + total < U64).

(** Segments within one window, none of them retired. *)
Definition still_standing (lo : Z) (t : SegmentTable) (s : SegmentId) : Prop := spanned lo s /\ is_retired (cell (st_window t) s) = false.

Lemma tally_new_in_step lo t total : window_ok (st_window t) -> fits lo (st_window t) -> 0 <= total -> roomy_cells t total ->
  in_step lo (still_standing lo t) total 0 t (Tally_new t).
Proof.
  intros Hw Hf Htot Hroom; split; cbn [ty_table ty_rows Tally_new row_of]; try done.
  - split; [apply NoDup_nil_2 | by apply Forall_nil].
  - intros s; pose proof (Hroom s) as H; destruct (cell _ s); unfold settled; cbn in *; f_equal; lia.
  - intros s; pose proof (Hroom s) as (H1 & H2 & H3); cbv zeta in *; split; cbn; lia.
  - intros s; pose proof (Hroom s); cbv zeta in *; tauto.
  - by intros s [_ H].
Qed.

(** C29: A rebuild thread that sums its bookings in a tally and settles them at the end leaves the
    table as if it had booked each one as it came: the same bytes live and dead, the same oldest
    version and the same stamp for every segment, each stamp answered on the way being the same too.
    The bookings are against standing segments within one window, shadow only bytes booked live, and
    overflow no counter. *)
Theorem tally_settles_as_booked lo t ps : rtc table_step SegmentTable_new t -> 0 <= lo /\ lo mod CHUNKZ = 0 -> fits lo (st_window t) ->
  roomy_cells t (post_total ps) -> Forall (fun p => 0 <= post_span p) ps -> postable_run (still_standing lo t) t ps ->
  let '(booked, stamps) := fold_left post ps (t, []) in
  let '(tally, stamps') := fold_left post ps (Tally_new t, []) in
  stamps' = stamps /\ st_next_incarnation (Tally_settle tally) = st_next_incarnation booked
  /\ forall s, SegmentTable_bytes_of (Tally_settle tally) s = SegmentTable_bytes_of booked s
       /\ SegmentTable_min_lsn_of (Tally_settle tally) s = SegmentTable_min_lsn_of booked s
       /\ SegmentTable_incarnation_of (Tally_settle tally) s = SegmentTable_incarnation_of booked s.
Proof.
  intros Ht%reached_ok Hlo Hf Hroom Hspan Hrun; pose proof (tk_window _ Ht) as Hw.
  assert (0 <= post_total ps) as H0 by (clear -Hspan; induction Hspan; cbn [post_total]; lia).
  pose proof (posts_in_step lo Hlo (still_standing lo t) (fun s H => proj1 H) (post_total ps) ps 0 t (Tally_new t) [] (tally_new_in_step lo t _ Hw Hf H0 Hroom) Hrun ltac:(lia) Hspan) as Hj.
  destruct (fold_left post ps (t, [])) as [booked stamps], (fold_left post ps (Tally_new t, [])) as [tally stamps']; destruct Hj as [Hj ->]; split; [done|].
  destruct (settle_in_step lo Hlo (still_standing lo t) (fun s H => proj1 H) _ _ _ _ Hj) as (Hw' & En & Hc); split; [done|]; pose proof (proj1 (is_direct _ _ _ _ _ _ Hj)) as Hwb.
  intros s; unfold SegmentTable_bytes_of, SegmentTable_min_lsn_of; rewrite !counted_cell, !incarnation_cell, Hc by done; done.
Qed.

(** ** At a concrete tally *)

Definition demo_postings : list Posting := [PostStamp 5; PostLive 5 9 30; PostStamp 6; PostHeld 6 4 10; PostShadow 5 12; PostDead 3 2 8; PostStamp 5].

Lemma demo_cells s : let c := cell (st_window demo_table) s in 0 <= sr_live c < 2 ^ 32 /\ 0 <= sr_dead c < 2 ^ 32 /\ 0 <= sr_held c < 2 ^ 32.
Proof.
  assert (Forall (fun r => 0 <= sr_live r < 2 ^ 32 /\ 0 <= sr_dead r < 2 ^ 32 /\ 0 <= sr_held r < 2 ^ 32) (flat (st_window demo_table))) as Hall.
  { apply Forall_forall; intros r Hr; assert (forallb (fun r => (0 <=? sr_live r) && (sr_live r <? 2 ^ 32) && (0 <=? sr_dead r) && (sr_dead r <? 2 ^ 32) && (0 <=? sr_held r) && (sr_held r <? 2 ^ 32))
      (flat (st_window demo_table)) = true) as Hb by (vm_compute; reflexivity); rewrite forallb_forall in Hb; apply list_elem_of_In, Hb in Hr; lia. }
  pose proof (tk_window _ (reached_ok _ demo_table_reached)) as Hw; cbv zeta; unfold cell; destruct (_ <? _); [cbn; lia|]; destruct (Window_row _ s) as [r|] eqn:E; [| cbn; lia].
  apply row_Some in E as [E _]; [| done]; apply (Forall_lookup_1 _ _ _ _ Hall E).
Qed.

Lemma demo_fits : fits 0 (st_window demo_table).
Proof. right; vm_compute; split; discriminate. Qed.

Lemma demo_roomy : roomy_cells demo_table (post_total demo_postings).
Proof. intros s; pose proof (demo_cells s) as (H1 & H2 & H3); change (post_total demo_postings) with 60; unfold U64; cbv zeta; lia. Qed.

Lemma demo_spans : Forall (fun p => 0 <= post_span p) demo_postings.
Proof. repeat (apply Forall_cons; split; [cbn; lia|]); by apply Forall_nil. Qed.

Lemma demo_postable : postable_run (still_standing 0 demo_table) demo_table demo_postings.
Proof. vm_compute; repeat split; discriminate. Qed.

Lemma tally_settles_as_booked_witness :
  SegmentTable_bytes_of (Tally_settle (fold_left post demo_postings (Tally_new demo_table, [])).1) 5 = mkSegmentBytes 88 12 20 (Some 12)
  /\ (fold_left post demo_postings (Tally_new demo_table, [])).2 = [2; 3; 2].
Proof.
  pose proof (tally_settles_as_booked 0 demo_table demo_postings demo_table_reached (conj (Z.le_refl 0) eq_refl) demo_fits demo_roomy demo_spans demo_postable) as H.
  assert ((fold_left post demo_postings (demo_table, [])).2 = [2; 3; 2]) as Es by (vm_compute; reflexivity).
  assert (SegmentTable_bytes_of (fold_left post demo_postings (demo_table, [])).1 5 = mkSegmentBytes 88 12 20 (Some 12)) as Eb by (vm_compute; reflexivity).
  destruct (fold_left post demo_postings (demo_table, [])) as [booked stamps], (fold_left post demo_postings (Tally_new demo_table, [])) as [tally stamps'].
  cbn [fst snd] in *; destruct H as (E & _ & H); destruct (H 5) as (E5 & _); split; congruence.
Defined.
