(* ===== verification/KeyPage.v ===== *)
(** * Pages of keys ([index/page.rs])

    One page of keys taken off the index: the keys packed end to end at one stride while they share a
    width, or with an end each once they do not, beside the entry of each when the page keeps them. *)
From S2P Require Import Prelude Bytes Lsn IndexEntry.

Record KeyPage := mkKeyPage {
  kp_keys : bytes;
  kp_found : list Entry;
  kp_width : Z;
  kp_ends : list Z;
  kp_count : Z;
  kp_keeps_found : bool;
  kp_keeps_graves : bool;
}.

Definition KeyPage_default : KeyPage := mkKeyPage [] [] 0 [] 0 false false.
Definition KeyPage_with_lens : KeyPage := mkKeyPage [] [] 0 [] 0 true false.
Definition KeyPage_merging : KeyPage := mkKeyPage [] [] 0 [] 0 true true.

Definition KeyPage_clear (p : KeyPage) : KeyPage := mkKeyPage [] [] 0 [] 0 (kp_keeps_found p) (kp_keeps_graves p).

Definition KeyPage_push (p : KeyPage) (key : bytes) (found : Entry) : KeyPage :=
  let ends :=
    if (len (kp_ends p) =? 0) && (0 <? kp_count p) && negb (len key =? kp_width p)
    then kp_ends p ++ map (fun at_ => as_u32 (at_ * kp_width p)) (seqZ 1 (kp_count p)) else kp_ends p in
  let width := if kp_count p =? 0 then len key else kp_width p in
  let keys := kp_keys p ++ key in
  let ends := if len ends =? 0 then ends else ends ++ [as_u32 (len keys)] in
  let found := if kp_keeps_found p then kp_found p ++ [found] else kp_found p in
  mkKeyPage keys found width ends (kp_count p + 1) (kp_keeps_found p) (kp_keeps_graves p).

Definition KeyPage_push_packed (p : KeyPage) (keys : bytes) (width : Z) (found : list Entry) : KeyPage * bool :=
  if len found =? 0 then (p, true)
  else if negb (len (kp_ends p) =? 0) || ((0 <? kp_count p) && negb (width =? kp_width p)) || (width =? 0) then (p, false)
  else
    let width := if kp_count p =? 0 then width else kp_width p in
    (mkKeyPage (kp_keys p ++ keys) (if kp_keeps_found p then kp_found p ++ found else kp_found p) width (kp_ends p) (kp_count p + len found)
       (kp_keeps_found p) (kp_keeps_graves p), true).

Definition KeyPage_len (p : KeyPage) : Z := kp_count p.
Definition KeyPage_is_empty (p : KeyPage) : bool := kp_count p =? 0.

Definition KeyPage_key_ref (p : KeyPage) (at_ : Z) : option bytes :=
  if kp_count p <=? at_ then None
  else if len (kp_ends p) =? 0 then slice (kp_keys p) (at_ * kp_width p) ((at_ + 1) * kp_width p)
  else
    start ← (if at_ =? 0 then Some 0 else get (kp_ends p) (at_ - 1));
    end_ ← get (kp_ends p) at_;
    slice (kp_keys p) start end_.

Definition KeyPage_key_at (p : KeyPage) (at_ : Z) : bytes := default [] (KeyPage_key_ref p at_).
Definition KeyPage_found_at (p : KeyPage) (at_ : Z) : option Entry := get (kp_found p) at_.
Definition KeyPage_len_at (p : KeyPage) (at_ : Z) : Z := match KeyPage_found_at p at_ with Some found => loc_len (en_loc found) | None => 0 end.

(** ** What a page holds *)

(** Where each of a run of keys ends when they lie end to end. *)
Fixpoint ends_from (start : Z) (keys : list bytes) : list Z :=
  match keys with [] => [] | key :: keys => (start + len key) :: ends_from (start + len key) keys end.

Record page_holds (p : KeyPage) (rows : list (bytes * Entry)) : Prop := {
  ph_keys : kp_keys p = concat (map fst rows);
  ph_count : kp_count p = len rows;
  ph_found : kp_found p = if kp_keeps_found p then map snd rows else [];
  ph_places : (kp_ends p = [] /\ Forall (fun row => len row.1 = kp_width p) rows) \/ (rows <> [] /\ kp_ends p = ends_from 0 (map fst rows));
  ph_room : len (kp_keys p) < U32;
}.

Lemma clear_holds p : page_holds (KeyPage_clear p) [].
Proof. split; [done | done | by destruct p as [? ? ? ? ? [|] ?] | by left | done]. Qed.

Lemma ends_from_app start k1 k2 : ends_from start (k1 ++ k2) = ends_from start k1 ++ ends_from (start + len (concat k1)) k2.
Proof.
  revert start; induction k1 as [|k k1 IH]; intros start; cbn [app ends_from concat]; [by rewrite len_nil, Z.add_0_r|].
  by rewrite IH, len_app, Z.add_assoc.
Qed.

Lemma len_ends start keys : len (ends_from start keys) = len keys.
Proof. revert start; induction keys as [|k keys IH]; intros start; [done|]; cbn [ends_from]; by rewrite !len_cons, IH. Qed.

Lemma get_ends keys i key rest start : len keys = i -> get (ends_from start (keys ++ key :: rest)) i = Some (start + len (concat keys) + len key).
Proof. intros <-; rewrite ends_from_app; cbn [ends_from]; apply get_mid; apply len_ends. Qed.

Lemma concat_width (rows : list bytes) w : Forall (fun key => len key = w) rows -> len (concat rows) = len rows * w.
Proof. induction 1 as [|k rows Hk _ IH]; [done|]; cbn [concat]; rewrite len_app, len_cons, IH, Hk; lia. Qed.

Lemma ends_stride keys w start : Forall (fun key => len key = w) keys ->
  ends_from start keys = map (fun at_ => start + at_ * w) (seqZ 1 (len keys)).
Proof.
  intros H; revert start; induction H as [|k keys Hk _ IH]; intros start; [done|]; cbn [ends_from]; pose proof (len_nonneg keys); rewrite len_cons, seqZ_cons, IH, Hk by lia.
  cbn [map]; f_equal; [lia|]; replace (Z.pred (1 + len keys)) with (len keys) by lia; replace (Z.succ 1) with (1 + 1) by lia.
  rewrite <- (fmap_add_seqZ 1 1 (len keys)); unfold fmap; rewrite map_map; apply map_ext; intros; lia.
Qed.

Lemma page_push_holds p rows key found : page_holds p rows -> len (kp_keys p) + len key < U32 -> page_holds (KeyPage_push p key found) (rows ++ [(key, found)]).
Proof.
  intros [Hk Hc Hf Hp Hr] Hroom; unfold KeyPage_push; pose proof (len_nonneg rows); pose proof (len_nonneg key) as Hk0; split; cbn [kp_keys kp_count kp_found kp_keeps_found kp_width kp_ends].
  - rewrite map_app, concat_app, Hk; cbn; by rewrite app_nil_r.
  - rewrite len_app, Hc; done.
  - rewrite Hf; destruct (kp_keeps_found p); [by rewrite map_app | done].
  - destruct Hp as [[-> Hw]|[Hne He]].
    + change (len [] =? 0) with true; cbn [andb]; destruct (Z.ltb_spec 0 (kp_count p)) as [H0|H0]; cbn [andb].
      * destruct (Z.eqb_spec (kp_count p) 0); [lia|]; destruct (Z.eqb_spec (len key) (kp_width p)) as [E|E]; cbn [negb].
        { left; split; [done|]; apply Forall_app; split; [done | by apply Forall_singleton]. }
        right; split; [by destruct rows|]; rewrite app_nil_l; rewrite map_app, ends_from_app; cbn [map fst ends_from]; rewrite <- Hk, Z.add_0_l, len_app.
        assert (Forall (fun key => len key = kp_width p) (map fst rows)) as Hw' by (by apply Forall_map).
        assert (map (fun at_ => as_u32 (at_ * kp_width p)) (seqZ 1 (kp_count p)) = ends_from 0 (map fst rows)) as ->.
        { rewrite (ends_stride _ _ 0 Hw'); unfold len; rewrite length_map; change (Z.of_nat (length rows)) with (len rows); rewrite Hc; apply map_ext_in; intros i [? ?]%list_elem_of_In%elem_of_seqZ.
          rewrite Z.add_0_l; apply Z.mod_small; pose proof (concat_width _ _ Hw') as Hcw; rewrite <- Hk in Hcw; unfold len in Hcw at 2; rewrite length_map in Hcw; fold (len rows) in Hcw.
          assert (0 <= kp_width p) by (destruct rows as [|[k e] rows]; [done|]; apply Forall_cons in Hw as [<- _]; apply len_nonneg); unfold U32 in *; nia. }
        rewrite len_ends; destruct (Z.eqb_spec (len (map fst rows)) 0) as [E0|]; [unfold len in E0; rewrite length_map in E0; fold (len rows) in E0; lia|].
        do 2 f_equal; apply Z.mod_small; pose proof (len_nonneg (kp_keys p)); lia.
      * assert (rows = []) as -> by (apply len_0_inv; lia); destruct (Z.eqb_spec (kp_count p) 0); [| lia]; left; split; [done | by apply Forall_singleton].
    + assert (len (kp_ends p) <> 0) as Hn by (rewrite He, len_ends; unfold len; rewrite length_map; destruct rows; [done | cbn; lia]).
      destruct (Z.eqb_spec (len (kp_ends p)) 0) as [|_]; [done|]; cbn [andb]; destruct (Z.eqb_spec (len (kp_ends p)) 0) as [|_]; [done|].
      right; split; [by destruct rows|]; rewrite map_app, ends_from_app, He, <- Hk; cbn [map fst ends_from]; rewrite len_app, Z.add_0_l; do 2 f_equal.
      apply Z.mod_small; pose proof (len_nonneg (kp_keys p)); lia.
  - rewrite len_app; lia.
Qed.

(** A run of keys of one width, as the tree lays them out. *)
Lemma push_packed_holds p rows run width : page_holds p rows -> Forall (fun row => len row.1 = width) run ->
  len (kp_keys p) + len (concat (map fst run)) < U32 ->
  let '(p', taken) := KeyPage_push_packed p (concat (map fst run)) width (map snd run) in
  if taken then page_holds p' (rows ++ run) else p' = p.
Proof.
  intros [Hk Hc Hf Hp Hr] Hw Hroom; unfold KeyPage_push_packed; pose proof (len_nonneg rows); assert (len (map snd run) = len run) as Hl by (unfold len; by rewrite length_map); rewrite Hl.
  destruct (Z.eqb_spec (len run) 0) as [E|E]; [assert (run = []) as -> by (by apply len_0_inv); rewrite app_nil_r; by split|].
  destruct (negb _ || _ || _) eqn:Eg; [done|]; apply orb_false_iff in Eg as [Eg Ez]; apply orb_false_iff in Eg as [Ee Ew]; b2p; apply len_0_inv in Ee.
  split; cbn [kp_keys kp_count kp_found kp_keeps_found kp_width kp_ends].
  - by rewrite map_app, concat_app, Hk.
  - by rewrite len_app, Hc.
  - rewrite Hf; destruct (kp_keeps_found p); [by rewrite map_app | done].
  - left; split; [done|]; destruct Hp as [[_ Hp]|[Hne He]]; [| destruct rows; [done | by rewrite Ee in He]].
    destruct (Z.eqb_spec (kp_count p) 0) as [E0|E0]; [assert (rows = []) as -> by (apply len_0_inv; lia); done|].
    destruct (Z.ltb_spec 0 (kp_count p)); [| lia]; cbn [andb] in Ew; b2p; subst; apply Forall_app; split; [done | exact Hw].
  - rewrite len_app; lia.
Qed.

(** A page gives back each of its rows where it was put. *)
Lemma page_reads p rows i key found : page_holds p rows -> get rows i = Some (key, found) ->
  KeyPage_key_ref p i = Some key /\ KeyPage_found_at p i = if kp_keeps_found p then Some found else None.
Proof.
  intros [Hk Hc Hf Hp _] (before & rest & -> & Hi)%get_Some; split.
  - unfold KeyPage_key_ref; rewrite Hc, len_app, len_cons; pose proof (len_nonneg rest); pose proof (len_nonneg before); destruct (Z.leb_spec (len before + (1 + len rest)) i); [lia|].
    assert (slice (kp_keys p) (len (concat (map fst before))) (len (concat (map fst before)) + len key) = Some key) as Hs.
    { rewrite Hk, map_app, concat_app; cbn [map fst concat]; by apply slice_mid. }
    destruct Hp as [[-> Hw]|[_ He]].
    + change (len [] =? 0) with true; cbv iota; apply Forall_app in Hw as [Hw1 [Hw2 _]%Forall_cons]; cbn in Hw2.
      assert (len (concat (map fst before)) = i * kp_width p) as E by (rewrite (concat_width _ (kp_width p)) by (by apply Forall_map); unfold len; rewrite length_map; fold (len before); lia).
      rewrite <- Hs; f_equal; lia.
    + assert (len (kp_ends p) <> 0) as Hn by (rewrite He, len_ends; unfold len; rewrite length_map, length_app; cbn; lia).
      destruct (Z.eqb_spec (len (kp_ends p)) 0); [done|]; rewrite He, map_app; cbn [map fst]; assert (len (map fst before) = i) as Hl by (unfold len; rewrite length_map; exact Hi).
      rewrite (get_ends _ i) by done; rewrite Z.add_0_l; assert ((if i =? 0 then Some 0 else get (ends_from 0 (map fst before ++ key :: map fst rest)) (i - 1)) = Some (len (concat (map fst before)))) as ->; [| exact Hs].
      destruct (Z.eqb_spec i 0) as [->|Hne]; [assert (before = []) as -> by (by apply len_0_inv); done|].
      destruct before as [|[k e] before _] using rev_ind; [by rewrite <- Hi in Hne|]; rewrite map_app, <- app_assoc; cbn [map fst app]; rewrite (get_ends _ (i - 1)).
      * by rewrite concat_app, len_app, Z.add_0_l; cbn [concat]; rewrite app_nil_r.
      * rewrite map_app, len_app in Hl; cbn in Hl; unfold len in *; cbn in Hl; lia.
  - unfold KeyPage_found_at; rewrite Hf; destruct (kp_keeps_found p); [| by destruct i].
    rewrite map_app; cbn [map snd]; apply get_mid; unfold len; rewrite length_map; exact Hi.
Qed.

Lemma page_past p rows i : page_holds p rows -> len rows <= i -> KeyPage_key_ref p i = None.
Proof. intros [_ Hc _ _ _] Hi; unfold KeyPage_key_ref; rewrite Hc; destruct (Z.leb_spec (len rows) i); [done | lia]. Qed.
