(* ===== verification/ShardFilter.v ===== *)
(** * Filters in front of the shards ([index/column.rs])

    Two bits a key in the words of its shard, set before the key lands and cleared once the shard's
    map holds nothing, so that a key the filter does not pass is in no map. And the bit each shard has
    while its map holds an entry, which a page walks instead of the shards. Words are atomics in the
    source; a load, an or or a store of one is a step of its own there and one write here. *)
From S2P Require Import Prelude Bytes.

Definition FILTER_WORDS : Z := 2048.
Definition COLUMN_FILTER_WORDS : Z := Z.shiftl 1 17.

Record ShardFilters := mkShardFilters { sf_shared : list Z; sf_per_shard : Z }.

Definition ShardFilters_new (shards : Z) : ShardFilters :=
  let shards := Z.max shards 1 in
  let even := Z.min (Z.max (COLUMN_FILTER_WORDS / shards) 1) FILTER_WORDS in
  let per_shard := Z.shiftl 1 (Z.log2 even) in
  mkShardFilters (replicate (Z.to_nat (per_shard * shards)) 0) per_shard.

(** Two bit positions from one key hash. *)
Definition probe_pair (hash words : Z) : Z * Z :=
  let mask := words * 64 - 1 in
  let other := Z.lxor (as_u64 (hash * 0xD6E8FEB86659FD93)) (Z.shiftr hash 32) in
  (Z.land hash mask, Z.land other mask).

Fixpoint hash_chunks (fuel : nat) (hash : Z) (key : bytes) : Z :=
  match fuel, key with
  | S fuel, _ :: _ =>
      let chunk := take 8 key in
      let word := chunk ++ zeros (8 - length chunk) in
      let hash := as_u64 (Z.lxor hash (le_val word) * 0x9e3779b97f4a7c15) in
      hash_chunks fuel (Z.lxor hash (Z.shiftr hash 29)) (drop 8 key)
  | _, _ => hash
  end.

Definition filter_hash (key : bytes) : Z := hash_chunks (length key) 0xcbf29ce484222325 key.

(** A shard's words are [shared[shard * per_shard .. (shard + 1) * per_shard]]: the word at a place of
    them. The source indexes, which panics out of range: [words_in_place] gives that the filters of a
    column have every word asked of them. *)
Definition word_at (f : ShardFilters) (shard at_ : Z) : Z := default 0 (get (sf_shared f) (shard * sf_per_shard f + at_)).
Definition write_word (f : ShardFilters) (shard at_ : Z) (word : Z) : ShardFilters :=
  mkShardFilters (<[Z.to_nat (shard * sf_per_shard f + at_) := word]> (sf_shared f)) (sf_per_shard f).

Definition or_word (f : ShardFilters) (shard at_ bits : Z) : ShardFilters := write_word f shard at_ (Z.lor (word_at f shard at_) bits).

Definition ShardFilters_note (f : ShardFilters) (shard hash : Z) : ShardFilters :=
  let '(first, second) := probe_pair hash (sf_per_shard f) in
  let f := or_word f shard (first / 64) (Z.shiftl 1 (first mod 64)) in
  or_word f shard (second / 64) (Z.shiftl 1 (second mod 64)).

Definition ShardFilters_may_hold (f : ShardFilters) (shard hash : Z) : bool :=
  let '(first, second) := probe_pair hash (sf_per_shard f) in
  negb (Z.land (word_at f shard (first / 64)) (Z.shiftl 1 (first mod 64)) =? 0)
  && negb (Z.land (word_at f shard (second / 64)) (Z.shiftl 1 (second mod 64)) =? 0).

Definition ShardFilters_clear (f : ShardFilters) (shard : Z) : ShardFilters :=
  fold_left (fun f at_ => write_word f shard at_ 0) (seqZ 0 (sf_per_shard f)) f.

Definition ShardFilters_widen (f : ShardFilters) (shard : Z) (other : ShardFilters) : ShardFilters :=
  fold_left (fun f at_ => or_word f shard at_ (word_at other shard at_)) (seqZ 0 (Z.min (sf_per_shard f) (sf_per_shard other))) f.

Definition ShardFilters_copy (f : ShardFilters) (shard : Z) (other : ShardFilters) : ShardFilters :=
  fold_left (fun f at_ => write_word f shard at_ (word_at other shard at_)) (seqZ 0 (Z.min (sf_per_shard f) (sf_per_shard other))) f.

(** ** Words and bits *)

(** Filters over this many shards: every shard its own power of two of words. *)
Record filters_ok (shards : Z) (f : ShardFilters) : Prop := {
  fk_len : len (sf_shared f) = sf_per_shard f * shards;
  fk_pow : exists k, 0 <= k /\ sf_per_shard f = 2 ^ k;
}.

Lemma per_shard_pos shards f : filters_ok shards f -> 0 < sf_per_shard f.
Proof. intros [_ (k & Hk & ->)]; by apply Z.pow_pos_nonneg. Qed.

Lemma new_ok shards : 0 < shards -> filters_ok shards (ShardFilters_new shards).
Proof.
  intros H; unfold ShardFilters_new; rewrite (Z.max_l shards 1) by lia; set (even := Z.min _ _); pose proof (Z.log2_nonneg even).
  assert (0 < Z.shiftl 1 (Z.log2 even)) by (rewrite Z.shiftl_1_l; by apply Z.pow_pos_nonneg).
  split; cbn [sf_shared sf_per_shard]; [rewrite len_replicate, Z2Nat.id by nia; done | exists (Z.log2 even); by rewrite Z.shiftl_1_l].
Qed.

Lemma place_apart per s s' a a' : 0 < per -> 0 <= a < per -> 0 <= a' < per -> s * per + a = s' * per + a' -> s = s' /\ a = a'.
Proof.
  intros Hp Ha Ha' E; assert (s = s') as ->; [| lia].
  pose proof (Z.div_add_l s per a ltac:(lia)) as E1; pose proof (Z.div_add_l s' per a' ltac:(lia)) as E2; rewrite (Z.div_small a), Z.add_0_r in E1 by lia; rewrite (Z.div_small a'), Z.add_0_r in E2 by lia; congruence.
Qed.

(** Every word of every shard stands, and the places a probe asks for are among them. *)
Lemma words_in_place shards f shard at_ : filters_ok shards f -> 0 <= shard < shards -> 0 <= at_ < sf_per_shard f ->
  exists word, get (sf_shared f) (shard * sf_per_shard f + at_) = Some word.
Proof. intros Hf Hs Ha; apply get_is_Some; rewrite (fk_len _ _ Hf); pose proof (per_shard_pos _ _ Hf); nia. Qed.

Lemma word_at_write shards f s a w s' a' : filters_ok shards f -> 0 <= s < shards -> 0 <= a < sf_per_shard f -> 0 <= s' -> 0 <= a' < sf_per_shard f ->
  word_at (write_word f s a w) s' a' = if (s' =? s) && (a' =? a) then w else word_at f s' a'.
Proof.
  intros Hf Hs Ha Hs' Ha'; pose proof (per_shard_pos _ _ Hf) as Hp; pose proof (fk_len _ _ Hf) as Hl; unfold word_at, write_word; cbn [sf_shared sf_per_shard].
  assert (0 <= s * sf_per_shard f + a < len (sf_shared f)) as Hin by (rewrite Hl; nia); assert (0 <= s' * sf_per_shard f + a') as Hpos by nia.
  rewrite <- (Z2Nat.id (s' * sf_per_shard f + a')) by done; rewrite !get_lookup.
  destruct (Z.eqb_spec s' s) as [->|Hne]; [destruct (Z.eqb_spec a' a) as [->|Hne']|]; cbn [andb].
  - rewrite list_lookup_insert_eq; [done|]; unfold len in Hin; lia.
  - rewrite list_lookup_insert_ne; [done | lia].
  - rewrite list_lookup_insert_ne; [done|]; intros E; apply Hne; apply (place_apart (sf_per_shard f) s' s a' a); [done.. | lia].
Qed.

Lemma write_word_ok shards f s a w : filters_ok shards f -> filters_ok shards (write_word f s a w).
Proof. intros [Hl Hp]; split; [unfold len in *; cbn [write_word sf_shared sf_per_shard]; by rewrite length_insert | done]. Qed.

Lemma testbit_mask z k : 0 <= k -> negb (Z.land z (Z.shiftl 1 k) =? 0) = Z.testbit z k.
Proof.
  intros Hk; rewrite Z.shiftl_1_l; destruct (Z.testbit z k) eqn:E.
  - apply negb_true_iff, Z.eqb_neq; intros H; apply (f_equal (fun x => Z.testbit x k)) in H; rewrite Z.land_spec, E, Z.pow2_bits_true, Z.bits_0 in H; done.
  - apply negb_false_iff, Z.eqb_eq, Z.bits_inj_0; intros i; rewrite Z.land_spec, Z.pow2_bits_eqb by done; destruct (Z.eqb_spec k i) as [<-|]; [by rewrite E | apply andb_false_r].
Qed.

(** The two places a hash names are bits of its shard's words. *)
Lemma probe_place hash per : (exists k, 0 <= k /\ per = 2 ^ k) -> let '(first, second) := probe_pair hash per in
  (0 <= first / 64 < per /\ 0 <= first mod 64) /\ (0 <= second / 64 < per /\ 0 <= second mod 64).
Proof.
  intros (k & Hk & ->); unfold probe_pair; assert (2 ^ k * 64 = 2 ^ (k + 6)) as E by (rewrite Z.pow_add_r by lia; done); rewrite E.
  assert (forall z, 0 <= Z.land z (2 ^ (k + 6) - 1) < 2 ^ k * 64) as Hb.
  { intros z; rewrite E; replace (2 ^ (k + 6) - 1) with (Z.ones (k + 6)) by (rewrite Z.ones_equiv; lia); rewrite Z.land_ones by lia; apply Z.mod_pos_bound, Z.pow_pos_nonneg; lia. }
  split; (split; [| by apply Z.mod_pos_bound]); (split; [apply Z.div_pos; [apply Hb | done] | apply Z.div_lt_upper_bound; [done|]; rewrite (Z.mul_comm 64); apply Hb]).
Qed.

Definition bit (f : ShardFilters) (shard at_ : Z) : bool := Z.testbit (word_at f shard (at_ / 64)) (at_ mod 64).

Lemma may_hold_bits f shard hash : ShardFilters_may_hold f shard hash = bit f shard (probe_pair hash (sf_per_shard f)).1 && bit f shard (probe_pair hash (sf_per_shard f)).2.
Proof.
  unfold ShardFilters_may_hold, bit; destruct (probe_pair hash (sf_per_shard f)) as [first second]; cbn [fst snd]; rewrite !testbit_mask; [done | by apply Z.mod_pos_bound..].
Qed.

Lemma or_word_ok shards f s a bits : filters_ok shards f -> filters_ok shards (or_word f s a bits).
Proof. apply write_word_ok. Qed.

Lemma or_bit shards f s a k s' at_ : filters_ok shards f -> 0 <= s < shards -> 0 <= a < sf_per_shard f -> 0 <= k -> 0 <= s' -> 0 <= at_ / 64 < sf_per_shard f ->
  bit (or_word f s a (Z.shiftl 1 k)) s' at_ = bit f s' at_ || ((s' =? s) && (at_ / 64 =? a) && (at_ mod 64 =? k)).
Proof.
  intros Hf Hs Ha Hk Hs' Hat; unfold bit, or_word; rewrite (word_at_write shards) by done; destruct (Z.eqb_spec s' s) as [->|]; [| by rewrite orb_false_r].
  destruct (Z.eqb_spec (at_ / 64) a) as [->|]; cbn [andb]; [| by rewrite orb_false_r].
  rewrite Z.lor_spec, Z.shiftl_1_l, Z.pow2_bits_eqb, (Z.eqb_sym k) by done; done.
Qed.

(** Words of one shard written over, one after another. *)
Lemma over_words shards (upd : ShardFilters -> Z -> Z) f s n : filters_ok shards f -> 0 <= s < shards -> 0 <= n <= sf_per_shard f ->
  (forall f f' a, (forall a', a <= a' < n -> word_at f s a' = word_at f' s a') -> 0 <= a < n -> upd f a = upd f' a) ->
  let f' := fold_left (fun f a => write_word f s a (upd f a)) (seqZ 0 n) f in
  filters_ok shards f' /\ sf_per_shard f' = sf_per_shard f
  /\ forall s' a', 0 <= s' -> 0 <= a' < sf_per_shard f -> word_at f' s' a' = if (s' =? s) && (a' <? n) then upd f a' else word_at f s' a'.
Proof.
  intros Hf Hs Hn Hupd; destruct (Z_of_nat_complete n) as [m ->]; [lia|]; rewrite seqZ_seq.
  assert (forall k, (k <= m)%nat -> let f' := fold_left (fun f a => write_word f s a (upd f a)) (map Z.of_nat (seq 0 k)) f in
    filters_ok shards f' /\ sf_per_shard f' = sf_per_shard f
    /\ forall s' a', 0 <= s' -> 0 <= a' < sf_per_shard f -> word_at f' s' a' = if (s' =? s) && (a' <? Z.of_nat k) then upd f a' else word_at f s' a') as H; [| by apply H].
  induction k as [|k IH]; intros Hk; [split_and!; [done | done|]; intros s' a' _ Ha; destruct (Z.ltb_spec a' (Z.of_nat 0)); [lia | by rewrite andb_false_r]|].
  destruct IH as (Hf1 & Ep & Hw); [lia|]; cbv zeta; rewrite seq_S, map_app, fold_left_app; cbn [Nat.add map fold_left]; set (f1 := fold_left _ _ f) in *.
  split_and!; [by apply write_word_ok | done |]; intros s' a' Hs' Ha'.
  rewrite (word_at_write shards) by (done || lia); rewrite Hw by done; destruct (Z.eqb_spec s' s) as [->|]; cbn [andb]; [| done].
  destruct (Z.eqb_spec a' (Z.of_nat k)) as [->|Hne].
  - destruct (Z.ltb_spec (Z.of_nat k) (Z.of_nat (S k))); [| lia]; apply Hupd; [| lia]; intros a2 Ha2; rewrite Hw by lia; rewrite Z.eqb_refl; cbn [andb].
    destruct (Z.ltb_spec a2 (Z.of_nat k)); [lia | done].
  - destruct (Z.ltb_spec a' (Z.of_nat k)), (Z.ltb_spec a' (Z.of_nat (S k))); try lia; done.
Qed.

(** ** What the filters pass *)

Section filters.
Variable shards : Z.
Implicit Types (f g : ShardFilters) (s h : Z).

Lemma note_ok f s h : filters_ok shards f -> filters_ok shards (ShardFilters_note f s h) /\ sf_per_shard (ShardFilters_note f s h) = sf_per_shard f.
Proof. intros Hf; unfold ShardFilters_note; destruct (probe_pair _ _); split; [by repeat apply or_word_ok | done]. Qed.

(** A noted key passes, and noting it keeps every other key that passed. *)
Lemma note_holds f s h : filters_ok shards f -> 0 <= s < shards -> ShardFilters_may_hold (ShardFilters_note f s h) s h = true.
Proof.
  intros Hf Hs; rewrite may_hold_bits; destruct (note_ok f s h Hf) as [_ ->]; unfold ShardFilters_note; pose proof (probe_place h (sf_per_shard f) (fk_pow _ _ Hf)) as Hp.
  destruct (probe_pair h (sf_per_shard f)) as [first second]; cbn [fst snd]; destruct Hp as [[Hq1 Hr1] [Hq2 Hr2]].
  rewrite !(or_bit shards), !Z.eqb_refl by (done || lia || by apply or_word_ok); cbn [andb orb]; by rewrite !orb_true_r.
Qed.

Lemma note_keeps f s h s' h' : filters_ok shards f -> 0 <= s < shards -> 0 <= s' -> ShardFilters_may_hold f s' h' = true -> ShardFilters_may_hold (ShardFilters_note f s h) s' h' = true.
Proof.
  intros Hf Hs Hs'; rewrite !may_hold_bits; destruct (note_ok f s h Hf) as [_ ->]; unfold ShardFilters_note; pose proof (probe_place h (sf_per_shard f) (fk_pow _ _ Hf)) as Hp.
  pose proof (probe_place h' (sf_per_shard f) (fk_pow _ _ Hf)) as Hp'; destruct (probe_pair h (sf_per_shard f)) as [first second], (probe_pair h' (sf_per_shard f)) as [first' second'].
  cbn [fst snd]; destruct Hp as [[Hq1 Hr1] [Hq2 Hr2]], Hp' as [[Hq1' _] [Hq2' _]].
  rewrite !(or_bit shards) by (done || lia || by apply or_word_ok); intros [-> ->]%andb_true_iff; done.
Qed.

Lemma passes_ext f f' s h : filters_ok shards f -> sf_per_shard f' = sf_per_shard f -> (forall a, 0 <= a < sf_per_shard f -> word_at f' s a = word_at f s a) ->
  ShardFilters_may_hold f' s h = ShardFilters_may_hold f s h.
Proof.
  intros Hf Ep Hw; rewrite !may_hold_bits, Ep; pose proof (probe_place h (sf_per_shard f) (fk_pow _ _ Hf)) as Hp; destruct (probe_pair h _) as [first second]; cbn [fst snd].
  destruct Hp as [[Hq1 _] [Hq2 _]]; unfold bit; by rewrite !Hw.
Qed.

Lemma clear_ok f s : filters_ok shards f -> 0 <= s < shards -> filters_ok shards (ShardFilters_clear f s) /\ sf_per_shard (ShardFilters_clear f s) = sf_per_shard f
  /\ forall s' h, 0 <= s' -> s' <> s -> ShardFilters_may_hold (ShardFilters_clear f s) s' h = ShardFilters_may_hold f s' h.
Proof.
  intros Hf Hs; pose proof (per_shard_pos _ _ Hf); destruct (over_words shards (fun _ _ => 0) f s (sf_per_shard f) Hf Hs) as (Hok & Ep & Hw); [lia | done |]; split_and!; [done | done |].
  intros s' h Hs' Hne; apply passes_ext; [done | done |]; intros a Ha; unfold ShardFilters_clear; rewrite Hw by done; by destruct (Z.eqb_spec s' s).
Qed.

Lemma widen_ok f g s : filters_ok shards f -> filters_ok shards g -> sf_per_shard g = sf_per_shard f -> 0 <= s < shards ->
  filters_ok shards (ShardFilters_widen f s g) /\ sf_per_shard (ShardFilters_widen f s g) = sf_per_shard f
  /\ (forall s' h, 0 <= s' -> s' <> s -> ShardFilters_may_hold (ShardFilters_widen f s g) s' h = ShardFilters_may_hold f s' h)
  /\ (forall h, ShardFilters_may_hold f s h = true \/ ShardFilters_may_hold g s h = true -> ShardFilters_may_hold (ShardFilters_widen f s g) s h = true).
Proof.
  intros Hf Hg Epg Hs; pose proof (per_shard_pos _ _ Hf); unfold ShardFilters_widen; rewrite Epg, Z.min_id.
  destruct (over_words shards (fun f a => Z.lor (word_at f s a) (word_at g s a)) f s (sf_per_shard f) Hf Hs) as (Hok & Ep & Hw); [lia | |].
  { intros f1 f2 a Hsame Ha; rewrite (Hsame a) by lia; done. }
  change (fold_left _ _ f) with (fold_left (fun f0 a => or_word f0 s a (word_at g s a)) (seqZ 0 (sf_per_shard f)) f) in *; set (w := fold_left _ _ _) in *; split_and!; [done | done | |].
  - intros s' h Hs' Hne; apply passes_ext; [done | done |]; intros a Ha; rewrite Hw by done; by destruct (Z.eqb_spec s' s).
  - intros h Hor; pose proof (probe_place h (sf_per_shard f) (fk_pow _ _ Hf)) as Hp; rewrite !may_hold_bits, Ep in *; rewrite Epg in Hor; destruct (probe_pair h (sf_per_shard f)) as [first second]; cbn [fst snd] in *.
    destruct Hp as [[Hq1 _] [Hq2 _]]; assert (forall x, 0 <= x / 64 < sf_per_shard f -> bit w s x = bit f s x || bit g s x) as Hb.
    { intros x Hx; unfold bit; rewrite Hw by (done || lia); rewrite Z.eqb_refl; destruct (Z.ltb_spec (x / 64) (sf_per_shard f)); [| lia]; cbn [andb]; apply Z.lor_spec. }
    rewrite !Hb by done; destruct Hor as [[-> ->]%andb_true_iff|[-> ->]%andb_true_iff]; [done | by rewrite !orb_true_r].
Qed.

Lemma copy_ok f g s : filters_ok shards f -> filters_ok shards g -> sf_per_shard g = sf_per_shard f -> 0 <= s < shards ->
  filters_ok shards (ShardFilters_copy f s g) /\ sf_per_shard (ShardFilters_copy f s g) = sf_per_shard f
  /\ (forall s' h, 0 <= s' -> s' <> s -> ShardFilters_may_hold (ShardFilters_copy f s g) s' h = ShardFilters_may_hold f s' h)
  /\ (forall h, ShardFilters_may_hold (ShardFilters_copy f s g) s h = ShardFilters_may_hold g s h).
Proof.
  intros Hf Hg Epg Hs; pose proof (per_shard_pos _ _ Hf); unfold ShardFilters_copy; rewrite Epg, Z.min_id.
  destruct (over_words shards (fun _ a => word_at g s a) f s (sf_per_shard f) Hf Hs) as (Hok & Ep & Hw); [lia | done |]; split_and!; [done | done | |].
  - intros s' h Hs' Hne; apply passes_ext; [done | done |]; intros a Ha; rewrite Hw by done; by destruct (Z.eqb_spec s' s).
  - intros h; apply passes_ext; [done | by rewrite Ep |]; intros a Ha; rewrite Hw by (rewrite ?Epg in *; lia); rewrite Z.eqb_refl.
    destruct (Z.ltb_spec a (sf_per_shard f)); [done | lia].
Qed.

End filters.
