(* ===== verification/FilledBits.v ===== *)
(** * The shards that hold an entry ([index/column.rs])

    A bit for each shard whose map holds an entry, and the two walks over the bits that a page makes,
    a word of sixty-four shards at a time. *)
From S2P Require Import Prelude Bytes ShardFilter.

(** The source indexes the words, which panics out of range; the words of a column reach to its last
    shard ([shard_word_stands] of the index's invariant). *)
Definition note_held (filled : list Z) (at_ : Z) (is_vacant : bool) : list Z :=
  match get filled (at_ / 64) with
  | Some word =>
      let bit := Z.shiftl 1 (at_ mod 64) in
      let is_set := negb (Z.land word bit =? 0) in
      match is_vacant, is_set with
      | false, false => <[Z.to_nat (at_ / 64) := Z.lor word bit]> filled
      | true, true => <[Z.to_nat (at_ / 64) := Z.ldiff word bit]> filled
      | _, _ => filled
      end
  | None => filled
  end.

Fixpoint pos_trailing_zeros (p : positive) : Z := match p with xO p => 1 + pos_trailing_zeros p | _ => 0 end.
Definition trailing_zeros (z : Z) : Z := match z with Zpos p => pos_trailing_zeros p | _ => 64 end.
Definition leading_zeros (z : Z) : Z := 63 - Z.log2 z.

Fixpoint filled_walk (fuel : nat) (filled : list Z) (at_ last : Z) : list Z :=
  match fuel with
  | O => []
  | S fuel =>
      if at_ <=? last then
        match get filled (at_ / 64) with
        | None => []
        | Some word =>
            let bits := Z.shiftr word (at_ mod 64) in
            if bits =? 0 then filled_walk fuel filled ((at_ / 64 + 1) * 64) last
            else
              let found := at_ + trailing_zeros bits in
              if last <? found then [] else found :: filled_walk fuel filled (found + 1) last
        end
      else []
  end.

Definition filled_range (filled : list Z) (first last : Z) : list Z := filled_walk (S (Z.to_nat (last + 1 - first))) filled first last.

Fixpoint filled_back_walk (fuel : nat) (filled : list Z) (high : option Z) : list Z :=
  match fuel, high with
  | S fuel, Some at_ =>
      match get filled (at_ / 64) with
      | None => []
      | Some word =>
          let below := 63 - at_ mod 64 in
          let bits := as_u64 (Z.shiftl word below) in
          if bits =? 0 then filled_back_walk fuel filled (if at_ / 64 =? 0 then None else Some ((at_ / 64 - 1) * 64 + 63))
          else
            let found := at_ - leading_zeros bits in
            found :: filled_back_walk fuel filled (if found =? 0 then None else Some (found - 1))
      end
  | _, _ => []
  end.

Definition filled_back (filled : list Z) (last : Z) : list Z := filled_back_walk (S (Z.to_nat (last + 1))) filled (Some last).

(** ** Bits *)

Definition is_filled (filled : list Z) (at_ : Z) : bool := match get filled (at_ / 64) with Some word => Z.testbit word (at_ mod 64) | None => false end.

Lemma place_eq a b : a / 64 = b / 64 -> a mod 64 = b mod 64 -> a = b.
Proof. pose proof (Z.div_mod a 64 ltac:(done)); pose proof (Z.div_mod b 64 ltac:(done)); lia. Qed.

(** Noting a shard sets its bit to whether its map holds an entry, and no other shard's. *)
Lemma note_held_bit filled at_ vacant s : 0 <= at_ / 64 < len filled -> 0 <= s ->
  is_filled (note_held filled at_ vacant) s = if s =? at_ then negb vacant else is_filled filled s.
Proof.
  intros Hat Hs; unfold note_held, is_filled; destruct (get_is_Some filled (at_ / 64) Hat) as [word E]; rewrite E.
  pose proof (Z.mod_pos_bound at_ 64 ltac:(done)); pose proof (Z.mod_pos_bound s 64 ltac:(done)); pose proof (Z.div_pos s 64 Hs ltac:(done)); rewrite testbit_mask by lia.
  assert (forall w, Z.testbit w (at_ mod 64) = negb vacant -> (forall k, 0 <= k -> k <> at_ mod 64 -> Z.testbit w k = Z.testbit word k) ->
    match get (<[Z.to_nat (at_ / 64) := w]> filled) (s / 64) with Some word => Z.testbit word (s mod 64) | None => false end
    = if s =? at_ then negb vacant else match get filled (s / 64) with Some word => Z.testbit word (s mod 64) | None => false end) as Hput.
  { intros w Hon Hoff; rewrite <- (Z2Nat.id (s / 64)) by done; rewrite !get_lookup; destruct (Z.eqb_spec s at_) as [->|Hne].
    - rewrite list_lookup_insert_eq; [done | unfold len in Hat; lia].
    - destruct (Z.eq_dec (s / 64) (at_ / 64)) as [Eq|Nq]; [| by rewrite list_lookup_insert_ne by lia].
      rewrite Eq; rewrite <- (Z2Nat.id (at_ / 64)) in E by lia; rewrite get_lookup in E; rewrite list_lookup_insert_eq, E by (unfold len in Hat; lia).
      apply Hoff; [lia|]; intros Em; apply Hne; by apply place_eq. }
  destruct vacant, (Z.testbit word (at_ mod 64)) eqn:Eb; cbn [negb] in *.
  - apply Hput; [rewrite Z.ldiff_spec, Z.shiftl_1_l, Z.pow2_bits_true by lia; apply andb_false_r|].
    intros k Hk Hne; rewrite Z.ldiff_spec, Z.shiftl_1_l, Z.pow2_bits_false by done; apply andb_true_r.
  - destruct (Z.eqb_spec s at_) as [->|]; [by rewrite E | done].
  - destruct (Z.eqb_spec s at_) as [->|]; [by rewrite E | done].
  - apply Hput; [rewrite Z.lor_spec, Z.shiftl_1_l, Z.pow2_bits_true by lia; apply orb_true_r|].
    intros k Hk Hne; rewrite Z.lor_spec, Z.shiftl_1_l, Z.pow2_bits_false by done; apply orb_false_r.
Qed.

Lemma note_held_len filled at_ vacant : len (note_held filled at_ vacant) = len filled.
Proof. unfold note_held, len; destruct (get _ _); [| done]; destruct vacant, (negb _); rewrite ?length_insert; done. Qed.

Lemma note_held_u64 filled at_ vacant : Forall is_u64 filled -> Forall is_u64 (note_held filled at_ vacant).
Proof.
  intros Hu; unfold note_held; destruct (get filled (at_ / 64)) as [word|] eqn:E; [| done].
  apply get_Some in E as (p & q & -> & _); assert (is_u64 word) as Hw by (by apply Forall_app in Hu as [_ [? _]%Forall_cons]).
  pose proof (Z.mod_pos_bound at_ 64 ltac:(done)) as Hm; assert (is_u64 (Z.shiftl 1 (at_ mod 64))) as Hb.
  { rewrite Z.shiftl_1_l; split; [apply Z.pow_nonneg; lia | change U64 with (2 ^ 64); apply Z.pow_lt_mono_r; lia]. }
  assert (forall w, (forall k, 64 <= k -> Z.testbit w k = false) -> 0 <= w -> is_u64 w) as Hfit.
  { intros w Hbits Hpos; split; [done|]; change U64 with (2 ^ 64); destruct (Z.eq_dec w 0) as [->|]; [done|]; apply Z.log2_lt_pow2; [lia|].
    destruct (Z.lt_ge_cases (Z.log2 w) 64); [done|]; pose proof (Z.bit_log2 w ltac:(lia)); rewrite Hbits in *; done. }
  assert (forall w k, is_u64 w -> 64 <= k -> Z.testbit w k = false) as Hhigh.
  { intros w k [Hw0 Hw1] Hk; destruct (Z.eq_dec w 0) as [->|]; [apply Z.bits_0|]; apply Z.bits_above_log2; [done|]; change U64 with (2 ^ 64) in Hw1; apply Z.log2_lt_pow2 in Hw1; lia. }
  destruct vacant, (negb _); try done; apply Forall_insert; try done; apply Hfit.
  - intros k Hk; rewrite Z.ldiff_spec, (Hhigh word k) by done; done.
  - apply Z.ldiff_nonneg; left; apply Hw.
  - intros k Hk; rewrite Z.lor_spec, (Hhigh word k), (Hhigh _ k Hb) by done; done.
  - apply Z.lor_nonneg; split; [apply Hw | apply Hb].
Qed.

(** ** The walks *)

Lemma trailing_zeros_ok z : 0 < z -> 0 <= trailing_zeros z /\ Z.testbit z (trailing_zeros z) = true /\ forall k, 0 <= k < trailing_zeros z -> Z.testbit z k = false.
Proof.
  destruct z as [|p|]; [done | intros _ | done]; cbn [trailing_zeros]; induction p as [p _|p [H0 [Ht Hf]]|]; cbn [pos_trailing_zeros]; [split_and!; [done | done | lia] | | split_and!; [done | done | lia]].
  rewrite Pos2Z.inj_xO; split_and!; [lia | replace (1 + pos_trailing_zeros p) with (Z.succ (pos_trailing_zeros p)) by lia; by rewrite Z.testbit_even_succ |].
  intros k Hk; destruct (Z.eq_dec k 0) as [->|]; [apply Z.testbit_even_0|]; replace k with (Z.succ (Z.pred k)) by lia; rewrite Z.testbit_even_succ by lia; apply Hf; lia.
Qed.

(** A walk skips a stretch with nothing in it. *)
Lemma filter_skip (test : Z -> bool) a b n : a <= b -> (forall s, a <= s < b -> s < a + n -> test s = false) -> List.filter test (seqZ a n) = List.filter test (seqZ b (a + n - b)).
Proof.
  intros Hab Hf; destruct (Z.lt_ge_cases (a + n) b) as [Hlt|Hge].
  - rewrite (seqZ_nil b) by lia; apply filter_false; intros s Hs%elem_of_seqZ; apply Hf; lia.
  - replace n with ((b - a) + (a + n - b)) at 1 by lia; rewrite seqZ_app by lia; rewrite List.filter_app; replace (a + (b - a)) with b by lia.
    rewrite (filter_false test (seqZ a (b - a))); [done|]; intros s Hs%elem_of_seqZ; apply Hf; lia.
Qed.

Lemma is_filled_past filled at_ s : get filled (at_ / 64) = None -> 0 <= at_ <= s -> is_filled filled s = false.
Proof.
  intros E Hs; unfold is_filled; rewrite get_None; [done|]; intros [_ H]; pose proof (Z.div_le_mono at_ s 64 ltac:(done) ltac:(lia)); pose proof (Z.div_pos at_ 64 ltac:(lia) ltac:(done)).
  destruct (get_is_Some filled (at_ / 64)); [lia | congruence].
Qed.

Lemma word_bits filled at_ word s : get filled (at_ / 64) = Some word -> 0 <= at_ -> at_ <= s < (at_ / 64 + 1) * 64 ->
  is_filled filled s = Z.testbit (Z.shiftr word (at_ mod 64)) (s - at_).
Proof.
  intros E H0 Hs; pose proof (Z.div_mod at_ 64 ltac:(done)) as Hd; pose proof (Z.mod_pos_bound at_ 64 ltac:(done)) as Hm.
  assert (s / 64 = at_ / 64 /\ s mod 64 = at_ mod 64 + (s - at_)) as [Eq Em].
  { split; symmetry; [apply (Z.div_unique s 64 _ (at_ mod 64 + (s - at_))); lia | apply (Z.mod_unique s 64 (at_ / 64)); lia]. }
  unfold is_filled; rewrite Eq, E, Em, Z.shiftr_spec by lia; f_equal; lia.
Qed.

Lemma filled_walk_ok filled last fuel : Forall is_u64 filled -> forall at_, 0 <= at_ -> (Z.to_nat (last + 1 - at_) < fuel)%nat ->
  filled_walk fuel filled at_ last = List.filter (is_filled filled) (seqZ at_ (last + 1 - at_)).
Proof.
  intros Hu; induction fuel as [|fuel IH]; intros at_ H0 Hf; [lia|]; cbn [filled_walk]; destruct (Z.leb_spec at_ last) as [Hle|Hgt]; [| by rewrite seqZ_nil by lia].
  destruct (get filled (at_ / 64)) as [word|] eqn:E.
  - assert (is_u64 word) as [Hw0 Hw1] by (apply get_Some in E as (p & q & -> & _); by apply Forall_app in Hu as [_ [? _]%Forall_cons]).
    pose proof (Z.div_mod at_ 64 ltac:(done)) as Hd; pose proof (Z.mod_pos_bound at_ 64 ltac:(done)) as Hm.
    destruct (Z.eqb_spec (Z.shiftr word (at_ mod 64)) 0) as [Ez|Ez].
    + rewrite IH by lia; rewrite (filter_skip _ at_ ((at_ / 64 + 1) * 64)) by (lia || (intros s Hs _; rewrite (word_bits _ at_ word) by (done || lia); by rewrite Ez, Z.bits_0)).
      do 2 f_equal; lia.
    + set (bits := Z.shiftr word (at_ mod 64)) in *; assert (0 < bits) as Hb by (assert (0 <= bits) by (by apply Z.shiftr_nonneg); lia).
      destruct (trailing_zeros_ok bits Hb) as (Ht0 & Ht & Hbelow); set (tz := trailing_zeros bits) in *.
      assert (at_ mod 64 + tz < 64) as Hin.
      { destruct (Z.lt_ge_cases (at_ mod 64 + tz) 64); [done|]; exfalso; subst bits; rewrite Z.shiftr_spec in Ht by done; rewrite Z.bits_above_log2 in Ht; [done | done |].
        destruct (Z.eq_dec word 0) as [->|]; [cbn; lia|]; change U64 with (2 ^ 64) in Hw1; apply Z.log2_lt_pow2 in Hw1; lia. }
      assert (forall s, at_ <= s < at_ + tz -> is_filled filled s = false) as Hskip by (intros s Hs; rewrite (word_bits _ at_ word) by (done || lia); apply Hbelow; lia).
      destruct (Z.ltb_spec last (at_ + tz)) as [Hp|Hp].
      * rewrite (filter_skip _ at_ (at_ + tz)) by (lia || (intros; by apply Hskip)); by rewrite seqZ_nil by lia.
      * rewrite (filter_skip _ at_ (at_ + tz)) by (lia || (intros; by apply Hskip)); rewrite seqZ_cons by lia; cbn [List.filter].
        rewrite (word_bits _ at_ word) by (done || lia); replace (at_ + tz - at_) with tz by lia; fold bits; rewrite Ht; f_equal; rewrite IH by lia; f_equal; f_equal; lia.
  - rewrite filter_false; [done|]; intros s Hs%elem_of_seqZ; apply (is_filled_past _ at_); [done | lia].
Qed.

(** The shards from one to another that hold an entry, in order. *)
Lemma filled_range_ok filled first last : Forall is_u64 filled -> 0 <= first ->
  filled_range filled first last = List.filter (is_filled filled) (seqZ first (last + 1 - first)).
Proof. intros Hu Hf; apply filled_walk_ok; [done | done | lia]. Qed.

Lemma filter_skip_back (test : Z -> bool) a b : 0 <= b <= a -> (forall s, b <= s < a -> test s = false) -> List.filter test (seqZ 0 a) = List.filter test (seqZ 0 b).
Proof.
  intros Hab Hf; replace a with (b + (a - b)) by lia; rewrite seqZ_app by lia; rewrite List.filter_app, Z.add_0_l.
  rewrite (filter_false test (seqZ b (a - b))), app_nil_r; [done|]; intros s Hs%elem_of_seqZ; apply Hf; lia.
Qed.

(** The bits of a word at or below a place, from the top. *)
Lemma word_bits_below filled at_ word s : get filled (at_ / 64) = Some word -> is_u64 word -> 0 <= at_ -> at_ / 64 * 64 <= s <= at_ ->
  is_filled filled s = Z.testbit (as_u64 (Z.shiftl word (63 - at_ mod 64))) (63 - (at_ - s)).
Proof.
  intros E Hw H0 Hs; pose proof (Z.div_mod at_ 64 ltac:(done)) as Hd; pose proof (Z.mod_pos_bound at_ 64 ltac:(done)) as Hm.
  assert (s / 64 = at_ / 64 /\ s mod 64 = at_ mod 64 - (at_ - s)) as [Eq Em] by (split; symmetry; [apply (Z.div_unique s 64 _ (at_ mod 64 - (at_ - s))); lia | apply (Z.mod_unique s 64 (at_ / 64)); lia]).
  unfold is_filled; rewrite Eq, E, Em; unfold as_u64; change U64 with (2 ^ 64); rewrite Z.mod_pow2_bits_low, Z.shiftl_spec by lia; f_equal; lia.
Qed.

Lemma filled_back_ok' filled fuel : Forall is_u64 filled -> forall at_, 0 <= at_ < 64 * len filled -> (Z.to_nat at_ < fuel)%nat ->
  filled_back_walk fuel filled (Some at_) = rev (List.filter (is_filled filled) (seqZ 0 (at_ + 1))).
Proof.
  intros Hu; induction fuel as [|fuel IH]; intros at_ H0 Hf; [lia|]; cbn [filled_back_walk].
  pose proof (Z.div_mod at_ 64 ltac:(done)) as Hd; pose proof (Z.mod_pos_bound at_ 64 ltac:(done)) as Hm; pose proof (Z.div_pos at_ 64 ltac:(lia) ltac:(done)) as Hq.
  destruct (get_is_Some filled (at_ / 64)) as [word E]; [lia|]; rewrite E.
  assert (is_u64 word) as Hw by (apply get_Some in E as (p & q & -> & _); by apply Forall_app in Hu as [_ [? _]%Forall_cons]).
  set (bits := as_u64 (Z.shiftl word (63 - at_ mod 64))); assert (is_u64 bits) as Hbits by (apply Z.mod_pos_bound; done).
  pose proof (fun s => word_bits_below filled at_ word s E Hw (proj1 H0)) as Hbit; fold bits in Hbit.
  destruct (Z.eqb_spec bits 0) as [Ez|Ez].
  - rewrite (filter_skip_back _ (at_ + 1) (at_ / 64 * 64)) by (lia || (intros s Hs; rewrite Hbit by lia; by rewrite Ez, Z.bits_0)).
    destruct (Z.eqb_spec (at_ / 64) 0) as [E0|E0]; [rewrite E0; by destruct fuel|].
    rewrite IH by lia; do 3 f_equal; lia.
  - assert (0 < bits) as Hpos by (destruct Hbits; lia); assert (Z.log2 bits < 64) as Hlog by (apply Z.log2_lt_pow2; [done | apply Hbits]); pose proof (Z.log2_nonneg bits).
    unfold leading_zeros; set (found := at_ - (63 - Z.log2 bits)).
    assert (at_ / 64 * 64 <= found) as Hfd.
    { destruct (Z.lt_ge_cases found (at_ / 64 * 64)); [| done]; exfalso; pose proof (Z.bit_log2 bits Hpos) as Ht; subst bits; unfold as_u64 in *; change U64 with (2 ^ 64) in *.
      rewrite Z.mod_pow2_bits_low, Z.shiftl_spec_low in Ht by (subst found; lia); done. }
    assert (is_filled filled found = true) as Hset by (rewrite Hbit by (subst found; lia); replace (63 - (at_ - found)) with (Z.log2 bits) by (subst found; lia); by apply Z.bit_log2).
    rewrite (filter_skip_back _ (at_ + 1) (found + 1)); [| subst found; lia |].
    + rewrite seqZ_app by lia; rewrite List.filter_app, rev_app_distr, Z.add_0_l; assert (seqZ found 1 = [found]) as -> by (rewrite seqZ_cons, seqZ_nil by lia; done); cbn [List.filter]; rewrite Hset; cbn [rev app]; f_equal.
      destruct (Z.eqb_spec found 0) as [->|E0]; [by destruct fuel|]; rewrite IH by (subst found; lia); do 3 f_equal; lia.
    + intros s Hs; rewrite Hbit by (subst found; lia); apply Z.bits_above_log2; [lia | subst found; lia].
Qed.

(** The shards at or below one that hold an entry, from the top. *)
Lemma filled_back_ok filled last : Forall is_u64 filled -> 0 <= last < 64 * len filled ->
  filled_back filled last = rev (List.filter (is_filled filled) (seqZ 0 (last + 1))).
Proof. intros Hu Hl; apply filled_back_ok'; [done | done | lia]. Qed.
