(* ===== verification/SealedRanges.v ===== *)
(** * Sealed ranges ([index/paged.rs])

    The sealed segments that hold one column, by number in an index tree and by the low end of their
    key ranges in a list, where each run knows which run at or before it reaches furthest. A key's
    candidates are found from the list without looking at every range below the key. *)
From S2P Require Import Prelude Error Arrays Bytes Lsn Column TreeKey TBTree TBTreeRep TBTreeOps TBTreeInsert TBTreeWalk TBTreeBuild TBTreeMap.

#[local] Existing Instances number_key number_key_laws.

Definition NODE_WIDTH : nat := node_width 8.

Record Span := mkSpan { sn_lowest : KeyBytes; sn_highest : KeyBytes }.
Record Run := mkRun { run_span : Span; run_reach : Z; run_segment : SegmentId }.

Definition lowest (r : Run) : bytes := KeyBytes_as_slice (sn_lowest (run_span r)).
Definition highest (r : Run) : bytes := KeyBytes_as_slice (sn_highest (run_span r)).

Definition SegmentTree := @TBTreeMap Z (option Span) number_key.

Record Sealed := mkSealed { se_by_segment : SegmentTree; se_by_key : list Run }.
Record SealedRanges := mkSealedRanges { sl_ranges : Sealed; sl_generation : Z }.
Definition SealedRanges_new : SealedRanges := mkSealedRanges (mkSealed TBTreeMap_new []) 0.

(** [sort_by], which keeps equal elements in the order they came. *)
Fixpoint insert_by {A} (before : A -> A -> bool) (x : A) (l : list A) : list A :=
  match l with [] => [x] | y :: l => if before y x then y :: insert_by before x l else x :: y :: l end.
Definition sort_by {A} (before : A -> A -> bool) (l : list A) : list A := fold_left (fun l x => insert_by before x l) l [].

(** The furthest reach at or before each run, as the index of the run that has it. *)
Fixpoint reach_runs (all : list Run) (at_ furthest : nat) (rest : list Run) : res (list Run) :=
  match rest with
  | [] => Ok []
  | mine :: rest =>
      held ← idx all furthest;
      let furthest := if (at_ =? 0)%nat || bytes_ltb (highest held) (highest mine) then at_ else furthest in
      reached ← reach_runs all (S at_) furthest rest;
      Ok (mkRun (run_span mine) (as_u32 (Z.of_nat furthest)) (run_segment mine) :: reached)
  end.

Definition run_of (pair : SegmentId * option Span) : option Run := span ← pair.2; Some (mkRun span 0 pair.1).

Definition Sealed_reindex (by_segment : SegmentTree) : res Sealed :=
  pairs ← TBTreeMap_iter by_segment;
  let runs := sort_by (fun left right => bytes_leb (lowest left) (lowest right)) (omap run_of pairs) in
  by_key ← reach_runs runs 0 0 runs;
  Ok (mkSealed by_segment by_key).

(** The runs at or below a key from the last back, until none before one reaches the key. *)
Fixpoint covering_back (by_key : list Run) (key : bytes) (runs : list Run) : res (list SegmentId) :=
  match runs with
  | [] => Ok []
  | run :: runs =>
      furthest ← idx by_key (Z.to_nat (run_reach run));
      if bytes_ltb (highest furthest) key then Ok []
      else
        found ← covering_back by_key key runs;
        Ok (if bytes_leb key (highest run) then run_segment run :: found else found)
  end.

Definition Sealed_covering (s : Sealed) (key : bytes) : res (list SegmentId) :=
  let past := partition_point (fun run => bytes_leb (lowest run) key) (se_by_key s) in
  covering_back (se_by_key s) key (rev (take past (se_by_key s))).

(** ** Candidates *)

Definition CANDIDATES_INLINE : nat := 4.

(** The slots in use of the array held in the answer, and the rest. *)
Record Candidates := mkCandidates { cd_inline : list SegmentId; cd_spilled : list SegmentId }.
Definition Candidates_default : Candidates := mkCandidates [] [].

Definition Candidates_push (c : Candidates) (segment : SegmentId) : Candidates :=
  if (length (cd_inline c) <? CANDIDATES_INLINE)%nat then mkCandidates (cd_inline c ++ [segment]) (cd_spilled c)
  else mkCandidates (cd_inline c) (cd_spilled c ++ [segment]).

Definition Candidates_iter (c : Candidates) : list SegmentId := cd_inline c ++ cd_spilled c.
Definition Candidates_is_empty (c : Candidates) : bool := (length (cd_inline c) =? 0)%nat.
Definition Candidates_len (c : Candidates) : nat := (length (cd_inline c) + length (cd_spilled c))%nat.

Definition sort_newest (l : list SegmentId) : list SegmentId := sort_by (fun a b => b <=? a) l.

Definition Candidates_newest_first (c : Candidates) : Candidates :=
  let inline := sort_newest (cd_inline c) in
  let spilled := sort_newest (cd_spilled c) in
  if (length spilled =? 0)%nat then mkCandidates inline spilled
  else fold_left Candidates_push (sort_newest (inline ++ spilled)) (mkCandidates [] []).

(** ** The set *)

Section ranges.
Variable scan : Scan.

Definition SealedRanges_note (r : SealedRanges) (segment : SegmentId) (low high : KeyBytes) : res SealedRanges :=
  '(tree, _) ← TBTreeMap_insert scan NODE_WIDTH (se_by_segment (sl_ranges r)) segment (Some (mkSpan low high));
  sealed ← Sealed_reindex tree;
  Ok (mkSealedRanges sealed (as_u64 (sl_generation r + 1))).

Definition SealedRanges_replace (r : SealedRanges) (spans : list (SegmentId * KeyBytes * KeyBytes)) : res SealedRanges :=
  tree ← foldm (fun tree '(segment, low, high) => '(tree, _) ← TBTreeMap_insert scan NODE_WIDTH tree segment (Some (mkSpan low high)); Ok tree)
    spans (TBTreeMap_clear (se_by_segment (sl_ranges r)));
  sealed ← Sealed_reindex tree;
  Ok (mkSealedRanges sealed (as_u64 (sl_generation r + 1))).

(** The live set and the rebuilt one after the swap. *)
Definition SealedRanges_install (r fresh : SealedRanges) : SealedRanges * SealedRanges :=
  (mkSealedRanges (sl_ranges fresh) (as_u64 (sl_generation r + 1)), mkSealedRanges (sl_ranges r) (sl_generation fresh)).

Definition SealedRanges_forget (r : SealedRanges) (segment : SegmentId) : res SealedRanges :=
  '(tree, held) ← TBTreeMap_remove_packed scan NODE_WIDTH (se_by_segment (sl_ranges r)) segment;
  match held with
  | None => Ok (mkSealedRanges (mkSealed tree (se_by_key (sl_ranges r))) (sl_generation r))
  | Some _ => sealed ← Sealed_reindex tree; Ok (mkSealedRanges sealed (as_u64 (sl_generation r + 1)))
  end.

Definition SealedRanges_candidates (r : SealedRanges) (key : bytes) : res Candidates :=
  found ← Sealed_covering (sl_ranges r) key;
  Ok (Candidates_newest_first (fold_left Candidates_push found Candidates_default)).

Definition SealedRanges_segments (r : SealedRanges) : res (list SegmentId) :=
  pairs ← TBTreeMap_iter (se_by_segment (sl_ranges r)); Ok (map fst pairs).

Definition SealedRanges_overlaps (r : SealedRanges) (low : bytes) (high : option bytes) : res bool :=
  pairs ← TBTreeMap_iter (se_by_segment (sl_ranges r));
  Ok (existsb (fun span => bytes_leb low (KeyBytes_as_slice (sn_highest span))
                           && match high with Some high => bytes_ltb (KeyBytes_as_slice (sn_lowest span)) high | None => true end)
        (omap snd pairs)).

Definition reaches (span : Span) (low high : option bytes) : bool :=
  match low with Some low => bytes_leb low (KeyBytes_as_slice (sn_highest span)) | None => true end
  && match high with Some high => bytes_leb (KeyBytes_as_slice (sn_lowest span)) high | None => true end.

Definition SealedRanges_spanning (r : SealedRanges) (low high : option bytes) : res (list SegmentId) :=
  pairs ← TBTreeMap_iter (se_by_segment (sl_ranges r));
  Ok (map fst (List.filter (fun pair => match pair.2 with Some span => reaches span low high | None => false end) pairs)).

Definition SealedRanges_holds (r : SealedRanges) (segment : SegmentId) : res bool := TBTreeMap_contains_key scan (se_by_segment (sl_ranges r)) segment.
Definition SealedRanges_is_empty (r : SealedRanges) : bool := TBTreeMap_is_empty (se_by_segment (sl_ranges r)).
Definition SealedRanges_len (r : SealedRanges) : nat := TBTreeMap_len (se_by_segment (sl_ranges r)).

End ranges.

(** ** Sorting *)



Lemma bytes_ltb_leb a b : bytes_ltb a b = negb (bytes_leb b a).
Proof. unfold bytes_ltb, bytes_leb; rewrite (bytes_cmp_antisym a b); by destruct (bytes_cmp a b). Qed.

Section sorting.
Context {A : Type} (before : A -> A -> bool) (R : relation A).
Hypothesis before_R : forall a b, before a b = true -> R a b.
Hypothesis not_before_R : forall a b, before a b = false -> R b a.
Hypothesis R_trans : forall a b c, R a b -> R b c -> R a c.

Lemma insert_by_perm x l : insert_by before x l ≡ₚ x :: l.
Proof. induction l as [|y l IH]; cbn; [done|]; destruct (before y x); [rewrite IH; apply Permutation_swap | done]. Qed.

Lemma insert_by_sorted x l : StronglySorted R l -> StronglySorted R (insert_by before x l).
Proof.
  induction 1 as [|y l Hs IH Hy]; cbn; [by repeat constructor|]; destruct (before y x) eqn:E.
  - constructor; [done|]; apply Forall_forall; intros z Hz; rewrite insert_by_perm in Hz; apply elem_of_cons in Hz as [->|Hz]; [by apply before_R|].
    rewrite Forall_forall in Hy; by apply Hy.
  - apply not_before_R in E; constructor; [by constructor|]; constructor; [done|]; eapply Forall_impl; [exact Hy|]; cbn; eauto.
Qed.

Lemma sort_by_ok l : sort_by before l ≡ₚ l /\ StronglySorted R (sort_by before l).
Proof.
  unfold sort_by; assert (forall acc, StronglySorted R acc -> fold_left (fun l x => insert_by before x l) l acc ≡ₚ acc ++ l
    /\ StronglySorted R (fold_left (fun l x => insert_by before x l) l acc)) as H; [| destruct (H []); [constructor | done]].
  induction l as [|x l IH]; intros acc Hacc; cbn [fold_left]; [by rewrite app_nil_r|].
  destruct (IH (insert_by before x acc)) as [Hp Hs]; [by apply insert_by_sorted|]; split; [| done].
  rewrite Hp, insert_by_perm; cbn; by rewrite Permutation_middle.
Qed.

End sorting.

Definition lowest_le (a b : Run) : Prop := bytes_le (lowest a) (lowest b).

Lemma sort_lowest_ok runs : let sorted := sort_by (fun left right => bytes_leb (lowest left) (lowest right)) runs in sorted ≡ₚ runs /\ StronglySorted lowest_le sorted.
Proof.
  apply sort_by_ok; unfold lowest_le.
  - by intros a b ?%bytes_leb_le.
  - intros a b E; apply bytes_leb_le; unfold bytes_leb in *; rewrite (bytes_cmp_antisym (lowest a)); by destruct (bytes_cmp (lowest a) (lowest b)).
  - intros a b c; apply bytes_le_trans.
Qed.

Lemma sort_newest_ok l : sort_newest l ≡ₚ l /\ StronglySorted Z.ge (sort_newest l).
Proof. apply sort_by_ok; intros; b2p; lia. Qed.

#[local] Instance Z_ge_antisymm : AntiSymm (=) Z.ge.
Proof. intros a b; lia. Qed.

Lemma sort_newest_eq l l' : l ≡ₚ l' -> StronglySorted Z.ge l' -> sort_newest l = l'.
Proof.
  intros Hp Hs; destruct (sort_newest_ok l) as [Hp' Hs']; apply (StronglySorted_unique Z.ge); [done | done | by rewrite Hp'].
Qed.

(** ** Reach *)

(** A run whose reach is the furthest of the runs up to it. *)
Definition reach_ok (all : list Run) (at_ : nat) (run : Run) : Prop :=
  exists furthest, all !! Z.to_nat (run_reach run) = Some furthest /\ (Z.to_nat (run_reach run) <= at_)%nat
    /\ forall i earlier, (i <= at_)%nat -> all !! i = Some earlier -> bytes_le (highest earlier) (highest furthest).

Definition same_run (a b : Run) : Prop := run_span a = run_span b /\ run_segment a = run_segment b.

Lemma reach_runs_ok all rest at_ furthest held : len all < U32 -> drop at_ all = rest -> all !! furthest = Some held ->
  (at_ = 0%nat /\ furthest = 0%nat) \/ ((furthest < at_)%nat /\ forall i earlier, (i < at_)%nat -> all !! i = Some earlier -> bytes_le (highest earlier) (highest held)) ->
  exists reached, reach_runs all at_ furthest rest = Ok reached /\ Forall2 same_run reached rest
    /\ forall i run, reached !! i = Some run -> reach_ok all (at_ + i) run.
Proof.
  intros Hlen; revert at_ furthest held; induction rest as [|mine rest IH]; intros at_ furthest held Hd Hheld Hf; cbn [reach_runs]; [by exists []|].
  rewrite (proj2 (idx_Ok _ _ _) Hheld); res_simpl; assert (all !! at_ = Some mine) as Hmine by (rewrite <- (Nat.add_0_r at_), <- lookup_drop, Hd; done).
  set (furthest' := if _ || _ then at_ else furthest).
  assert (exists held', all !! furthest' = Some held' /\ (furthest' <= at_)%nat /\ forall i earlier, (i < S at_)%nat -> all !! i = Some earlier -> bytes_le (highest earlier) (highest held')) as (held' & Hheld' & Hle & Hmax).
  { subst furthest'; destruct Hf as [[-> ->]|[Hlt Hmax]].
    - cbn [Nat.eqb orb]; exists mine; split_and!; [done | lia |]; intros i earlier Hi E; assert (i = 0)%nat as -> by lia; rewrite E in Hmine; simplify_eq; apply bytes_le_refl.
    - destruct (Nat.eqb_spec at_ 0); [lia|]; cbn [orb]; destruct (bytes_ltb (highest held) (highest mine)) eqn:Eb.
      + apply bytes_ltb_lt in Eb; exists mine; split_and!; [done | lia |]; intros i earlier Hi E; destruct (decide (i = at_)) as [->|]; [rewrite E in Hmine; simplify_eq; apply bytes_le_refl|].
        apply (bytes_le_trans _ (highest held)); [apply (Hmax i); [lia | done] | by apply bytes_lt_le].
      + rewrite bytes_ltb_leb in Eb; apply negb_false_iff, bytes_leb_le in Eb; exists held; split_and!; [done | lia |]; intros i earlier Hi E.
        destruct (decide (i = at_)) as [->|]; [rewrite E in Hmine; by simplify_eq | apply (Hmax i); [lia | done]]. }
  destruct (IH (S at_) furthest' held') as (reached & -> & Hsame & Hok).
  { rewrite <- (Nat.add_1_r at_), <- drop_drop, Hd; done. } { done. } { right; split; [lia | done]. }
  res_simpl; exists (mkRun (run_span mine) (as_u32 (Z.of_nat furthest')) (run_segment mine) :: reached); split_and!; [done | by constructor |].
  assert (as_u32 (Z.of_nat furthest') = Z.of_nat furthest') as -> by (apply Z.mod_small; apply lookup_lt_Some in Hheld'; unfold len in Hlen; lia).
  intros [|i] run E; cbn in E; [simplify_eq; exists held'; cbn [run_reach]; rewrite Nat2Z.id, Nat.add_0_r; split_and!; [done | done |]; intros i earlier Hi; apply Hmax; lia|].
  replace (at_ + S i)%nat with (S at_ + i)%nat by lia; by apply Hok.
Qed.

(** ** Covering *)

Definition contains (key : bytes) (run : Run) : bool := bytes_leb (lowest run) key && bytes_leb key (highest run).

Lemma covering_back_ok by_key key n : (n <= length by_key)%nat -> (forall i run, by_key !! i = Some run -> reach_ok by_key i run) ->
  covering_back by_key key (rev (take n by_key)) = Ok (map run_segment (List.filter (fun run => bytes_leb key (highest run)) (rev (take n by_key)))).
Proof.
  intros Hn Hreach; induction n as [|n IH]; [by rewrite take_0|]; destruct (lookup_lt_is_Some_2 by_key n) as [run Hrun]; [lia|].
  rewrite (take_S_r _ _ _ Hrun), rev_app_distr; cbn [rev app covering_back List.filter]; destruct (Hreach n run Hrun) as (furthest & Hf & _ & Hmax).
  rewrite (proj2 (idx_Ok _ _ _) Hf); res_simpl; destruct (bytes_ltb (highest furthest) key) eqn:E.
  - apply bytes_ltb_lt in E; assert (forall i earlier, (i <= n)%nat -> by_key !! i = Some earlier -> bytes_leb key (highest earlier) = false) as Hnone.
    { intros i earlier Hi He; destruct (bytes_leb key (highest earlier)) eqn:El; [| done]; apply bytes_leb_le in El; exfalso; apply (bytes_lt_irrefl key).
      eapply bytes_le_lt_trans; [| exact E]; eapply bytes_le_trans; [exact El | by eapply Hmax]. }
    rewrite (Hnone n run) by done.
    rewrite filter_false; [done|]; intros x Hx; rewrite list_elem_of_In, <- in_rev, <- list_elem_of_In in Hx.
    apply list_elem_of_lookup in Hx as [i [Hi Hin]%lookup_take_Some]; apply (Hnone i); [lia | done].
  - rewrite IH by lia; res_simpl; by destruct (bytes_leb key (highest run)).
Qed.

Lemma partition_sorted key runs : StronglySorted lowest_le runs ->
  List.filter (contains key) runs = List.filter (fun run => bytes_leb key (highest run)) (take (partition_point (fun run => bytes_leb (lowest run) key) runs) runs).
Proof.
  induction 1 as [|x runs Hs IH Hx]; [done|]; cbn [partition_point List.filter]; unfold contains at 1; destruct (bytes_leb (lowest x) key) eqn:E.
  - cbn [take firstn List.filter andb]; by rewrite IH.
  - rewrite take_0; cbn [List.filter andb]; rewrite filter_false; [done|].
    intros r Hr; rewrite Forall_forall in Hx; specialize (Hx r Hr); unfold contains; destruct (bytes_leb (lowest r) key) eqn:Er; [| done]; exfalso.
      apply bytes_leb_le in Er; assert (bytes_leb (lowest x) key = true) by (apply bytes_leb_le; by eapply bytes_le_trans); congruence.
Qed.

Lemma partition_point_le {A} (test : A -> bool) l : (partition_point test l <= length l)%nat.
Proof. induction l as [|x l IH]; cbn; [lia|]; destruct (test x); lia. Qed.

Lemma filter_rev' {A} (test : A -> bool) l : List.filter test (rev l) = rev (List.filter test l).
Proof. induction l as [|x l IH]; [done|]; cbn [rev List.filter]; rewrite List.filter_app, IH; cbn [List.filter]; destruct (test x); [done | by rewrite app_nil_r]. Qed.

Lemma filter_perm {A} (test : A -> bool) l l' : l ≡ₚ l' -> List.filter test l ≡ₚ List.filter test l'.
Proof.
  induction 1 as [|x l l' _ IH|x y l|l1 l2 l3 _ IH1 _ IH2]; cbn [List.filter]; [done | destruct (test x); [by apply Permutation_skip | done] | | by rewrite IH1].
  destruct (test x), (test y); [apply Permutation_swap | done..].
Qed.

Lemma same_runs_filter key runs runs' : Forall2 same_run runs runs' ->
  map run_segment (List.filter (contains key) runs) = map run_segment (List.filter (contains key) runs').
Proof.
  induction 1 as [|a b runs runs' [Es Eg] _ IH]; [done|]; cbn [List.filter]; assert (contains key a = contains key b) as -> by (unfold contains, lowest, highest; by rewrite Es).
  destruct (contains key b); [| done]; cbn [map]; by rewrite IH, Eg.
Qed.

Lemma same_runs_sorted runs runs' : Forall2 same_run runs runs' -> StronglySorted lowest_le runs' -> StronglySorted lowest_le runs.
Proof.
  induction 1 as [|a b runs runs' [Es _] Hsame IH]; intros Hs; [constructor|]; apply StronglySorted_inv in Hs as [Hs Hb]; constructor; [by apply IH|].
  clear -Es Hsame Hb; induction Hsame as [|c d runs runs' [Ec _] _ IH]; [constructor|]; apply Forall_cons in Hb as [Hd Hb]; constructor; [| by apply IH].
  unfold lowest_le, lowest in *; by rewrite Es, Ec.
Qed.

(** What reindexing builds: the runs of the tree's spans by their low ends, each with its reach. *)
Record indexed (spans : list (SegmentId * Span)) (by_key : list Run) : Prop := {
  ix_sorted : StronglySorted lowest_le by_key;
  ix_reach : forall i run, by_key !! i = Some run -> reach_ok by_key i run;
  ix_spans : forall key, map run_segment (List.filter (contains key) by_key)
    ≡ₚ map fst (List.filter (fun pair => bytes_leb (KeyBytes_as_slice (sn_lowest pair.2)) key && bytes_leb key (KeyBytes_as_slice (sn_highest pair.2))) spans);
}.

Definition as_held (spans : list (SegmentId * Span)) : list (SegmentId * option Span) := map (fun pair => (pair.1, Some pair.2)) spans.

Lemma omap_run_of spans : omap run_of (as_held spans) = map (fun pair => mkRun pair.2 0 pair.1) spans.
Proof. unfold as_held; induction spans as [|[s sp] spans IH]; [done|]; cbn; by rewrite IH. Qed.

Lemma reach_ok_same all all' i run : Forall2 same_run all all' -> reach_ok all' i run -> reach_ok all i run.
Proof.
  intros Hs (furthest & Hf & Hle & Hmax); destruct (Forall2_lookup_r _ _ _ _ _ Hs Hf) as (f & Ef & Hsf & _); exists f; split_and!; [done | done |].
  intros j earlier Hj He; destruct (Forall2_lookup_l _ _ _ _ _ Hs He) as (e & Ee & Hse & _); specialize (Hmax j e Hj Ee); unfold highest in *; by rewrite Hsf, Hse.
Qed.

Lemma reindex_ok tree spans : holds NODE_WIDTH tree (as_held spans) -> len spans < U32 ->
  exists by_key, Sealed_reindex tree = Ok (mkSealed tree by_key) /\ indexed spans by_key.
Proof.
  intros Hh Hlen; unfold Sealed_reindex; rewrite (iter_ok NODE_WIDTH ltac:(vm_compute; lia) tree _ Hh); res_simpl; rewrite omap_run_of.
  set (raw := map _ spans); destruct (sort_lowest_ok raw) as [Hperm Hsort]; set (sorted := sort_by _ raw) in *.
  assert (len sorted < U32) as Hls by (unfold len; rewrite Hperm; subst raw; rewrite length_map; exact Hlen).
  assert (exists reached, reach_runs sorted 0 0 sorted = Ok reached /\ Forall2 same_run reached sorted /\ forall i run, reached !! i = Some run -> reach_ok sorted (0 + i) run) as (reached & E & Hsame & Hok).
  { destruct sorted as [|x l] eqn:Es; [by exists []|]; rewrite <- Es in *; apply (reach_runs_ok sorted sorted 0 0 x); [done | done | by rewrite Es | by left]. }
  rewrite E; res_simpl; exists reached; split; [done|]; split.
  - by eapply same_runs_sorted.
  - intros i run Hi; eapply reach_ok_same; [exact Hsame | by apply (Hok i)].
  - intros key; rewrite (same_runs_filter key _ _ Hsame), (filter_perm (contains key) _ _ Hperm); subst raw; clear; induction spans as [|[s sp] spans IH]; [done|]; cbn [map List.filter].
    unfold contains at 1, lowest, highest; cbn [run_span snd]; destruct (_ && _); [cbn [map]; by rewrite IH | done].
Qed.

(** ** Candidates, newest first *)

Definition cand_ok (c : Candidates) : Prop := (length (cd_inline c) <= CANDIDATES_INLINE)%nat /\ (cd_spilled c <> [] -> length (cd_inline c) = CANDIDATES_INLINE).

Lemma push_iter c s : cand_ok c -> cand_ok (Candidates_push c s) /\ Candidates_iter (Candidates_push c s) = Candidates_iter c ++ [s].
Proof.
  intros [Hl Hs]; unfold Candidates_push, Candidates_iter; destruct (Nat.ltb_spec (length (cd_inline c)) CANDIDATES_INLINE) as [Hlt|Hge]; cbn [cd_inline cd_spilled].
  - assert (cd_spilled c = []) as -> by (destruct (cd_spilled c); [done|]; specialize (Hs ltac:(done)); lia); rewrite !app_nil_r; split; [| done].
    split; cbn [cd_inline cd_spilled]; [rewrite length_app; cbn; lia | done].
  - split; [| by rewrite app_assoc]; split; cbn [cd_inline cd_spilled]; [done | intros _; lia].
Qed.

Lemma pushes_iter l c : cand_ok c -> cand_ok (fold_left Candidates_push l c) /\ Candidates_iter (fold_left Candidates_push l c) = Candidates_iter c ++ l.
Proof.
  revert c; induction l as [|s l IH]; intros c Hc; cbn [fold_left]; [by rewrite app_nil_r|]; destruct (push_iter c s Hc) as [Hc' E]; destruct (IH _ Hc') as [Hc'' ->].
  split; [done|]; by rewrite E, <- app_assoc.
Qed.

Lemma default_cand_ok : cand_ok Candidates_default.
Proof. split; [cbn; unfold CANDIDATES_INLINE; lia | done]. Qed.

Lemma newest_first_iter c : cand_ok c -> Candidates_iter (Candidates_newest_first c) = sort_newest (Candidates_iter c).
Proof.
  intros Hc; unfold Candidates_newest_first; destruct (sort_newest_ok (cd_spilled c)) as [Hps _]; destruct (sort_newest_ok (cd_inline c)) as [Hpi _].
  destruct (Nat.eqb_spec (length (sort_newest (cd_spilled c))) 0) as [E|E].
  - rewrite Hps in E; apply nil_length_inv in E; unfold Candidates_iter; cbn [cd_inline cd_spilled]; by rewrite E, !app_nil_r.
  - change (mkCandidates [] []) with Candidates_default; destruct (pushes_iter (sort_newest (sort_newest (cd_inline c) ++ sort_newest (cd_spilled c))) _ default_cand_ok) as [_ ->]; cbn [Candidates_iter Candidates_default app cd_inline cd_spilled].
    destruct (sort_newest_ok (Candidates_iter c)) as [Hp Hs]; apply sort_newest_eq; [| done]; rewrite Hps, Hpi, Hp; done.
Qed.

(** ** Histories *)

Definition span_has (key : bytes) (pair : SegmentId * Span) : bool :=
  bytes_leb (KeyBytes_as_slice (sn_lowest pair.2)) key && bytes_leb key (KeyBytes_as_slice (sn_highest pair.2)).

(** A set that holds these spans, by number and by key. *)
Record ranges_hold (r : SealedRanges) (spans : list (SegmentId * Span)) : Prop := {
  rh_tree : holds NODE_WIDTH (se_by_segment (sl_ranges r)) (as_held spans);
  rh_index : indexed spans (se_by_key (sl_ranges r));
}.

Lemma new_holds : ranges_hold SealedRanges_new [].
Proof. split; [by left | split; [constructor | done | done]]. Qed.

Lemma as_held_with spans s sp : with_item (as_held spans) s (Some sp) = as_held (with_item spans s sp).
Proof. unfold as_held; induction spans as [|[k v] spans IH]; [done|]; cbn [map with_item fst snd]; destruct (key_cmp s k); cbn [map fst snd]; [done | done | by rewrite IH]. Qed.

Lemma as_held_without spans s : without (as_held spans) s = as_held (without spans s).
Proof. unfold as_held, without; induction spans as [|[k v] spans IH]; [done|]; cbn [map List.filter fst snd]; destruct (negb _); cbn [map]; by rewrite IH. Qed.

Lemma as_held_assoc spans s : assoc (as_held spans) s = Some <$> assoc spans s.
Proof. unfold as_held; induction spans as [|[k v] spans IH]; [done|]; cbn [map assoc fst snd]; by destruct (key_eqb k s). Qed.

Lemma as_held_length spans : length (as_held spans) = length spans.
Proof. apply length_map. Qed.

Lemma as_held_sorted spans : StronglySorted (fun a b => key_lt a.1 b.1) (as_held spans) -> StronglySorted (fun a b => a < b) (map fst spans).
Proof.
  unfold as_held; induction spans as [|[k v] spans IH]; cbn [map]; intros Hs; [constructor|]; apply StronglySorted_inv in Hs as [Hs Hk]; constructor; [by apply IH|].
  clear -Hk; induction spans as [|[k' v'] spans IH]; [constructor|]; cbn [map] in *; apply Forall_cons in Hk as [Hk' Hk]; constructor; [exact Hk' | by apply IH].
Qed.

Lemma node_width_ok : (3 <= NODE_WIDTH <= 256)%nat.
Proof. vm_compute; lia. Qed.

Section history.
Variable scan : Scan.

Lemma ranges_note_ok r spans s low high : ranges_hold r spans -> is_u64 s -> roomy (se_by_segment (sl_ranges r)) -> len spans + 1 < U32 ->
  exists r', SealedRanges_note scan r s low high = Ok r' /\ ranges_hold r' (with_item spans s (mkSpan low high)).
Proof.
  intros [Ht _] Hs Hroom Hlen; unfold SealedRanges_note; destruct (insert_ok scan NODE_WIDTH node_width_ok _ _ s (Some (mkSpan low high)) Ht Hs Hroom) as (t' & -> & Ht'); res_simpl.
  rewrite as_held_with in Ht'; destruct (reindex_ok t' _ Ht') as (by_key & -> & Hi); [pose proof (with_item_length spans s (mkSpan low high)); unfold len in *; lia|]; res_simpl.
  eexists; split; [done | by split].
Qed.

Lemma forget_ok r spans s : ranges_hold r spans -> is_u64 s -> len spans < 2 ^ 30 ->
  exists r', SealedRanges_forget scan r s = Ok r' /\ ranges_hold r' (without spans s).
Proof.
  intros [Ht Hi] Hs Hlen; unfold SealedRanges_forget.
  destruct (remove_packed_ok scan NODE_WIDTH node_width_ok _ _ s Ht Hs) as (t' & -> & Ht' & _); [rewrite as_held_length; exact Hlen|]; res_simpl.
  rewrite as_held_without in Ht'; rewrite as_held_assoc; destruct (assoc spans s) as [sp|] eqn:Ea; cbn [fmap option_fmap option_map].
  - destruct (reindex_ok t' _ Ht') as (by_key & -> & Hi'); [pose proof (without_length spans s); unfold len, U32 in *; lia|]; res_simpl; eexists; split; [done | by split].
  - assert (without spans s = spans) as Ew.
    { clear -Ea; unfold without; induction spans as [|[k v] spans IH]; [done|]; cbn [List.filter assoc fst] in *; destruct (key_eqb k s); [done|]; cbn [negb]; by rewrite IH. }
    eexists; split; [done|]; rewrite Ew in *; by split.
Qed.

(** The sets a history of seals and retirements reaches, each beside the spans it spells. *)
Inductive sealed_reached : SealedRanges -> list (SegmentId * Span) -> Prop :=
| sealed_new : sealed_reached SealedRanges_new []
| sealed_note r spans s low high r' : sealed_reached r spans -> is_u32 s -> roomy (se_by_segment (sl_ranges r)) -> len spans < 2 ^ 30 ->
    SealedRanges_note scan r s low high = Ok r' -> sealed_reached r' (with_item spans s (mkSpan low high))
| sealed_forget r spans s r' : sealed_reached r spans -> is_u32 s -> len spans < 2 ^ 30 ->
    SealedRanges_forget scan r s = Ok r' -> sealed_reached r' (without spans s).

Lemma sealed_holds r spans : sealed_reached r spans -> ranges_hold r spans.
Proof.
  induction 1 as [|r spans s low high r' _ IH Hs Hroom Hlen E|r spans s r' _ IH Hs Hlen E]; [apply new_holds | |].
  - destruct (ranges_note_ok r spans s low high IH) as (r1 & E' & Hr); [unfold is_u32, U32, is_u64, U64 in *; lia | done | unfold U32; lia | congruence].
  - destruct (forget_ok r spans s IH) as (r1 & E' & Hr); [unfold is_u32, U32, is_u64, U64 in *; lia | done | congruence].
Qed.

(** C30: After any history of seals and retirements, the segments a key could be in are found exactly,
    newest first: every sealed segment whose key range holds the key, and no other, although the
    search stops at the first run before which nothing reaches the key. *)
Theorem candidates_exact r spans key : sealed_reached r spans ->
  exists c, SealedRanges_candidates r key = Ok c /\ Candidates_iter c = rev (map fst (List.filter (span_has key) spans))
    /\ StronglySorted Z.gt (Candidates_iter c).
Proof.
  intros Hr%sealed_holds; destruct Hr as [Ht [Hsort Hreach Hspans]]; unfold SealedRanges_candidates, Sealed_covering; set (by_key := se_by_key (sl_ranges r)) in *.
  set (past := partition_point _ by_key); rewrite covering_back_ok; [| apply partition_point_le | done]; res_simpl; eexists; split; [done|].
  destruct (pushes_iter (map run_segment (List.filter (fun run => bytes_leb key (highest run)) (rev (take past by_key)))) _ default_cand_ok) as [Hok E].
  assert (StronglySorted Z.lt (map fst (List.filter (span_has key) spans))) as Hlt.
  { pose proof (as_held_sorted _ (holds_sorted NODE_WIDTH _ _ Ht)) as Hs; clear -Hs; induction spans as [|[k v] spans IH]; [constructor|]; cbn [map] in Hs; apply StronglySorted_inv in Hs as [Hs Hk].
    cbn [List.filter]; destruct (span_has key (k, v)); [| by apply IH]; cbn [map]; constructor; [by apply IH|]; apply Forall_forall; intros x ([k' v'] & -> & Hin)%list_elem_of_fmap.
    rewrite Forall_forall in Hk; apply Hk; apply list_elem_of_fmap_2; apply list_elem_of_In, filter_In in Hin as [Hin _]; by apply list_elem_of_In. }
  assert (StronglySorted Z.gt (rev (map fst (List.filter (span_has key) spans)))) as Hgt.
  { clear -Hlt; induction Hlt as [|x l _ IH Hx]; cbn [rev]; [constructor|]; apply StronglySorted_app; split_and!; [| done | by repeat constructor].
    intros a b Ha ->%list_elem_of_singleton; rewrite list_elem_of_In, <- in_rev, <- list_elem_of_In in Ha; rewrite Forall_forall in Hx; specialize (Hx a Ha); lia. }
  enough (Candidates_iter (Candidates_newest_first (fold_left Candidates_push (map run_segment (List.filter (fun run => bytes_leb key (highest run)) (rev (take past by_key)))) Candidates_default))
    = rev (map fst (List.filter (span_has key) spans))) as -> by done.
  rewrite newest_first_iter, E by done; cbn [Candidates_iter Candidates_default app cd_inline cd_spilled]; apply sort_newest_eq.
  - rewrite filter_rev', map_rev, <- (Permutation_rev (map run_segment _)), <- Permutation_rev; subst past; rewrite <- partition_sorted by done; apply Hspans.
  - clear -Hgt; induction Hgt as [|x l _ IH Hx]; constructor; [done|]; eapply Forall_impl; [exact Hx|]; intros; lia.
Qed.

Lemma segments_ok r spans : ranges_hold r spans -> SealedRanges_segments r = Ok (map fst spans).
Proof. intros [Ht _]; unfold SealedRanges_segments; rewrite (iter_ok NODE_WIDTH node_width_ok _ _ Ht); res_simpl; unfold as_held; by rewrite map_map. Qed.

Lemma overlaps_ok r spans low high : ranges_hold r spans ->
  SealedRanges_overlaps r low high = Ok (existsb (fun pair => bytes_leb low (KeyBytes_as_slice (sn_highest pair.2))
    && match high with Some high => bytes_ltb (KeyBytes_as_slice (sn_lowest pair.2)) high | None => true end) spans).
Proof.
  intros [Ht _]; unfold SealedRanges_overlaps; rewrite (iter_ok NODE_WIDTH node_width_ok _ _ Ht); res_simpl; f_equal; unfold as_held.
  clear; induction spans as [|[k v] spans IH]; [done|]; cbn; by rewrite IH.
Qed.

End history.

(** ** At a concrete set *)

Definition demo_key (n : Z) : KeyBytes := match KeyBytes_new [byte_of n] with Ok k => k | _ => KeyBytes_empty end.
Definition demo_spans : list (SegmentId * Z * Z) := [(4, 10, 90); (7, 20, 25); (9, 15, 40); (2, 60, 80); (11, 30, 35); (5, 1, 30)].
Definition demo_note (r : SealedRanges) (e : SegmentId * Z * Z) : SealedRanges :=
  match SealedRanges_note Scalar r e.1.1 (demo_key e.1.2) (demo_key e.2) with Ok r => r | _ => r end.
Definition demo_with (held : list (SegmentId * Span)) (e : SegmentId * Z * Z) : list (SegmentId * Span) := with_item held e.1.1 (mkSpan (demo_key e.1.2) (demo_key e.2)).

Lemma demo_step r held e : sealed_reached Scalar r held -> is_u32 e.1.1 -> roomy (se_by_segment (sl_ranges r)) -> len held < 2 ^ 30 ->
  (match SealedRanges_note Scalar r e.1.1 (demo_key e.1.2) (demo_key e.2) with Ok _ => true | _ => false end) = true -> sealed_reached Scalar (demo_note r e) (demo_with held e).
Proof.
  intros Hr Hs Hroom Hlen Hok; unfold demo_note; destruct (SealedRanges_note _ _ _ _ _) as [r'| |] eqn:E; [| done | done]; by eapply sealed_note.
Qed.

Lemma demo_sealed_reached : sealed_reached Scalar (fold_left demo_note demo_spans SealedRanges_new) (fold_left demo_with demo_spans []).
Proof.
  unfold demo_spans; cbn [fold_left].
  do 6 (apply demo_step; [| vm_compute; split; [discriminate | reflexivity] | vm_compute; split; reflexivity | vm_compute; reflexivity | vm_compute; reflexivity]).
  apply sealed_new.
Qed.

Lemma candidates_exact_witness : exists c, SealedRanges_candidates (fold_left demo_note demo_spans SealedRanges_new) [byte_of 30] = Ok c /\ Candidates_iter c = [11; 9; 5; 4].
Proof.
  destruct (candidates_exact Scalar _ _ [byte_of 30] demo_sealed_reached) as (c & E & Hi & _); exists c; split; [exact E | rewrite Hi; vm_compute; reflexivity].
Defined.
