(* ===== verification/ShardMap.v ===== *)
(** * Keys and maps of a shard ([index/column.rs])

    [IndexKey]: a key as the resident map holds it, an array of the column's width or bytes on the
    heap. [ShardMap]: the map that holds one shard's keys, as the index uses it, with the laws the
    index's theorems are proved from; the index tree over either kind of key meets them. Keys are their
    bytes, and a map's pairs are listed in the order of their keys. *)
From S2P Require Import Prelude Error Arrays Bytes Column TreeKey TBTree TBTreeRep TBTreeOps TBTreeInsert TBTreeWalk TBTreeMany TBTreeBuild TBTreeMap.

#[export] Existing Instance boxed_key.
#[export] Existing Instance boxed_key_laws.

(** ** Keys *)

Class IndexKey := {
  from_slice : bytes -> option bytes;
  accepts : bytes -> bool;
  low_bound : bytes -> bytes;
  high_bound : bytes -> bytes;
  packed : list bytes -> option bytes;
  width : bytes -> Z;
}.

Section array_index.
Variable N : nat.

Definition array_from_slice (bs : bytes) : option bytes := if (length bs =? N)%nat then Some (put (zeros N) 0 bs) else None.
Definition array_accepts (bs : bytes) : bool := (length bs =? N)%nat.
Definition array_low_bound (bs : bytes) : bytes := let n := Nat.min (length bs) N in put (zeros N) 0 (take n bs).
Definition array_high_bound (bs : bytes) : bytes := let n := Nat.min (length bs) N in put (replicate N (byte_of 255)) 0 (take n bs).
Definition array_packed (keys : list bytes) : option bytes := Some (concat keys).
Definition array_width (_ : bytes) : Z := as_u16 (Z.of_nat N).

Definition array_index : IndexKey := {|
  from_slice := array_from_slice;
  accepts := array_accepts;
  low_bound := array_low_bound;
  high_bound := array_high_bound;
  packed := array_packed;
  width := array_width;
|}.
End array_index.

Definition boxed_high_bound (bs : bytes) : bytes :=
  let n := Z.to_nat MAX_KEY_LEN in take n bs ++ replicate (n - length bs) (byte_of 255).

Definition boxed_index : IndexKey := {|
  from_slice := fun bs => Some bs;
  accepts := fun _ => true;
  low_bound := fun bs => bs;
  high_bound := boxed_high_bound;
  packed := fun _ => None;
  width := fun key => as_u16 (len key);
|}.

(** Whether a key begins with these bytes. *)
Definition has_prefix (prefix key : bytes) : bool := bytes_eqb (take (length prefix) key) prefix.

(** What the index relies on of its keys: a key is built from exactly the bytes it accepts and is
    those bytes, a bound is a key, a bound extended low cuts the keys where its bytes do, and one
    extended high cuts them past every key that begins with its bytes. [widest] is the width of the
    widest key a record of the column carries. *)
Class IndexKeyLaws `{IndexKey} := {
  widest : Z;
  from_slice_accepts bs : from_slice bs = if accepts bs then Some bs else None;
  low_bound_accepted bs : accepts (low_bound bs) = true;
  high_bound_accepted bs : accepts (high_bound bs) = true;
  low_bound_key bs : accepts bs = true -> low_bound bs = bs;
  low_bound_cuts bs key : len bs <= widest -> accepts key = true -> bytes_leb (low_bound bs) key = bytes_leb bs key;
  high_bound_cuts bs key : len bs <= widest -> accepts key = true -> len key <= widest -> bytes_leb key (high_bound bs) = bytes_leb key bs || has_prefix bs key;
  packed_concat keys bs : packed keys = Some bs -> bs = concat keys;
  packed_even keys bs a b : packed keys = Some bs -> accepts a = true -> accepts b = true -> length a = length b;
}.

Lemma put_over {A} (l s : list A) : length s = length l -> put l 0 s = s.
Proof. intros E; unfold put; rewrite take_0, app_nil_l, drop_ge, app_nil_r by lia; done. Qed.

Lemma put_front {A} (l s : list A) : put l 0 s = s ++ drop (length s) l.
Proof. unfold put; by rewrite take_0, app_nil_l, Nat.add_0_l. Qed.

(** Zeros behind a bound move no key of the padded width across it, and 0xFF moves past it the keys
    that begin with it. *)
Lemma leb_cons x y a b : bytes_leb (x :: a) (y :: b) = match u8 x ?= u8 y with Eq => bytes_leb a b | Lt => true | Gt => false end.
Proof. unfold bytes_leb; cbn [bytes_cmp]; by destruct (u8 x ?= u8 y). Qed.

Lemma pad_low bs : forall key k, length key = (length bs + k)%nat -> bytes_leb (bs ++ zeros k) key = bytes_leb bs key.
Proof.
  induction bs as [|x bs IH]; intros key k E; cbn [app length] in *.
  - assert (bytes_leb [] key = true) as -> by (by destruct key); unfold zeros; rewrite Nat.add_0_l in E; revert key E; induction k as [|k IHk]; intros [|y key] E; cbn [length] in E; try done.
    cbn [replicate]; rewrite leb_cons; destruct (Z.compare_spec (u8 Byte.x00) (u8 y)) as [| |Hgt]; [apply IHk; lia | done |]; pose proof (u8_range y); change (u8 Byte.x00) with 0 in Hgt; lia.
  - destruct key as [|y key]; [done|]; rewrite !leb_cons; destruct (u8 x ?= u8 y); [apply IH; cbn in E; lia | done | done].
Qed.

Lemma pad_high bs : forall key k, (length key <= length bs + k)%nat -> bytes_leb key (bs ++ replicate k (byte_of 255)) = bytes_leb key bs || has_prefix bs key.
Proof.
  induction bs as [|x bs IH]; intros key k E; cbn [app length] in *.
  - transitivity true; [| unfold has_prefix; cbn; by rewrite orb_true_r]; rewrite Nat.add_0_l in E; revert key E; induction k as [|k IHk]; intros [|y key] E; cbn [length] in E; try done; [lia|].
    cbn [replicate]; rewrite leb_cons; destruct (Z.compare_spec (u8 y) (u8 (byte_of 255))) as [| |Hgt]; [apply IHk; lia | done |]; pose proof (u8_range y); change (u8 (byte_of 255)) with 255 in Hgt; lia.
  - destruct key as [|y key]; [done|]; rewrite !leb_cons; unfold has_prefix; cbn [length take].
    assert (bytes_eqb (y :: take (length bs) key) (x :: bs) = (u8 y =? u8 x) && has_prefix bs key) as ->.
    { apply eq_true_iff_eq; unfold has_prefix; rewrite andb_true_iff, !bytes_eqb_eq, Z.eqb_eq; split; [intros [= -> ->]; done | intros [->%u8_inj ->]; done]. }
    destruct (Z.compare_spec (u8 y) (u8 x)) as [->|Hlt|Hgt]; [rewrite Z.eqb_refl; apply IH; cbn in E; lia | done |].
    by rewrite (proj2 (Z.eqb_neq _ _)) by lia.
Qed.

Lemma array_low_padded N bs : (length bs <= N)%nat -> array_low_bound N bs = bs ++ zeros (N - length bs).
Proof.
  intros Hl; unfold array_low_bound; rewrite put_front, length_take, Nat.min_l, take_ge, Nat.min_l by lia; f_equal; unfold zeros; by rewrite drop_replicate.
Qed.

Lemma array_high_padded N bs : (length bs <= N)%nat -> array_high_bound N bs = bs ++ replicate (N - length bs) (byte_of 255).
Proof.
  intros Hl; unfold array_high_bound; rewrite put_front, length_take, Nat.min_l, take_ge, Nat.min_l by lia; f_equal; by rewrite drop_replicate.
Qed.

#[export] Instance array_index_laws N : @IndexKeyLaws (array_index N).
Proof.
  refine (@Build_IndexKeyLaws (array_index N) (Z.of_nat N) _ _ _ _ _ _ _ _); cbn [from_slice accepts low_bound high_bound packed array_index].
  - intros bs; unfold array_from_slice, array_accepts; destruct (Nat.eqb_spec (length bs) N) as [E|]; [| done].
    f_equal; apply put_over; unfold zeros; by rewrite length_replicate.
  - intros bs; unfold array_accepts, array_low_bound, put, zeros; apply Nat.eqb_eq; rewrite !length_app, length_take, length_drop, length_replicate, length_take; lia.
  - intros bs; unfold array_accepts, array_high_bound, put; apply Nat.eqb_eq; rewrite !length_app, length_take, length_drop, length_replicate, length_take; lia.
  - intros bs E%Nat.eqb_eq; rewrite array_low_padded by lia; rewrite E, Nat.sub_diag; apply app_nil_r.
  - intros bs key Hb E%Nat.eqb_eq; unfold len in Hb; rewrite array_low_padded by lia; apply pad_low; lia.
  - intros bs key Hb E%Nat.eqb_eq _; unfold len in Hb; rewrite array_high_padded by lia; apply pad_high; lia.
  - intros keys bs [= <-]; done.
  - intros keys bs a b _ Ha%Nat.eqb_eq Hb%Nat.eqb_eq; congruence.
Defined.

#[export] Instance boxed_index_laws : @IndexKeyLaws boxed_index.
Proof.
  refine (@Build_IndexKeyLaws boxed_index MAX_KEY_LEN _ _ _ _ _ _ _ _); try done.
  intros bs key Hb _ Hk; cbn [high_bound boxed_index]; unfold boxed_high_bound, len in *; rewrite take_ge by lia; apply pad_high; lia.
Defined.

(** ** Maps *)

Class ShardMap (M V : Type) := {
  map_default : M;
  map_put : M -> bytes -> V -> res (M * option V);
  map_at : M -> bytes -> res (option V);
  map_at_mut : M -> bytes -> (V -> V) -> res (option M);
  map_holds : M -> bytes -> res bool;
  map_take : M -> bytes -> res (M * option V);
  map_count : M -> nat;
  map_vacant : M -> bool;
  map_empty : M -> M;
  map_walk : M -> res (list (bytes * V));
  map_span : M -> Bound bytes -> Bound bytes -> res (list (bytes * V));
  map_span_back : M -> Bound bytes -> Bound bytes -> res (list (bytes * V));
  map_span_runs : M -> Bound bytes -> res (list (list bytes * list V));
  map_at_many : M -> list bytes -> res (list (option V));
  map_fit : M -> res M;
  map_pack_owed : M -> res M;
  map_release : M -> M;
}.

Section trees.
Context {V : Type} `{Inhabited V}.
Variable scan : Scan.
Variable B : nat.

Definition tree_fit {TK : TreeKey bytes} (t : @TBTreeMap bytes V TK) : res TBTreeMap :=
  if negb (TBTreeMap_is_packed B t) then TBTreeMap_repack B t B else Ok t.
Definition tree_pack_owed {TK : TreeKey bytes} (t : @TBTreeMap bytes V TK) : res TBTreeMap :=
  if TBTreeMap_repack_owed B t then TBTreeMap_repack B t B else Ok t.

(** The default runs of a map: one pair each. *)
Definition single_runs (pairs : list (bytes * V)) : list (list bytes * list V) := map (fun pair => ([pair.1], [pair.2])) pairs.

Definition boxed_map : ShardMap (@TBTreeMap bytes V boxed_key) V := {|
  map_default := TBTreeMap_new;
  map_put := TBTreeMap_insert scan B;
  map_at := TBTreeMap_get scan;
  map_at_mut := TBTreeMap_get_mut scan;
  map_holds := TBTreeMap_contains_key scan;
  map_take := TBTreeMap_remove scan;
  map_count := TBTreeMap_len;
  map_vacant := TBTreeMap_is_empty;
  map_empty := TBTreeMap_clear;
  map_walk := TBTreeMap_iter;
  map_span := TBTreeMap_range scan;
  map_span_back := TBTreeMap_range_back scan;
  map_span_runs := fun t low => pairs ← TBTreeMap_range scan t low Unbounded; Ok (single_runs pairs);
  map_at_many := TBTreeMap_get_many_sorted scan;
  map_fit := tree_fit;
  map_pack_owed := tree_pack_owed;
  map_release := fun _ => TBTreeMap_new;
|}.

Variable N : nat.

(** [key.try_into().ok()?]: a probe of another width is a key this column cannot hold. *)
Definition sized {A} (key : bytes) (other : res A) (act : res A) : res A := if (length key =? N)%nat then act else other.

Definition array_map : ShardMap (@TBTreeMap bytes V (array_key N)) V := {|
  map_default := @TBTreeMap_new bytes V (array_key N);
  map_put := @TBTreeMap_insert bytes V (array_key N) _ scan B;
  map_at := fun t key => sized key (Ok None) (TBTreeMap_get scan t key);
  map_at_mut := fun t key write => sized key (Ok None) (TBTreeMap_get_mut scan t key write);
  map_holds := fun t key => found ← sized key (Ok None) (TBTreeMap_get scan t key); Ok (match found with Some _ => true | None => false end);
  map_take := fun t key => sized key (Ok (t, None)) (TBTreeMap_remove scan t key);
  map_count := TBTreeMap_len;
  map_vacant := TBTreeMap_is_empty;
  map_empty := TBTreeMap_clear;
  map_walk := TBTreeMap_iter;
  map_span := TBTreeMap_range scan;
  map_span_back := TBTreeMap_range_back scan;
  map_span_runs := TBTreeMap_range_runs scan;
  map_at_many := TBTreeMap_get_many_sorted scan;
  map_fit := tree_fit;
  map_pack_owed := tree_pack_owed;
  map_release := fun _ => @TBTreeMap_new bytes V (array_key N);
|}.
End trees.

(** ** Laws *)

(** What the index relies on of a shard's map: over the keys the column accepts it is the ordered map
    of its pairs. [map_room] is the room a put needs in the arenas. *)
Class ShardMapLaws (M V : Type) `{IndexKey} `{ShardMap M V} := {
  map_rep : M -> list (bytes * V) -> Prop;
  map_room : M -> Prop;
  rep_default : map_rep map_default [];
  rep_keys m items : map_rep m items -> Forall (fun key => accepts key = true) (map fst items);
  rep_sorted m items : map_rep m items -> StronglySorted bytes_lt (map fst items);
  rep_put m items key val : map_rep m items -> accepts key = true -> map_room m ->
    exists m', map_put m key val = Ok (m', assoc items key) /\ map_rep m' (with_item items key val)
      /\ forall val', exists m'', map_put m' key val' = Ok (m'', Some val) /\ map_rep m'' (with_item items key val');
  rep_at m items key : map_rep m items -> accepts key = true -> map_at m key = Ok (assoc items key);
  rep_at_mut m items key write : map_rep m items -> accepts key = true ->
    match assoc items key with
    | Some val => exists m', map_at_mut m key write = Ok (Some m') /\ map_rep m' (with_item items key (write val))
    | None => map_at_mut m key write = Ok None
    end;
  rep_holds m items key : map_rep m items -> accepts key = true -> map_holds m key = Ok (match assoc items key with Some _ => true | None => false end);
  rep_take m items key : map_rep m items -> accepts key = true ->
    exists m', map_take m key = Ok (m', assoc items key) /\ map_rep m' (without items key) /\ (map_room m -> map_room m');
  rep_count m items : map_rep m items -> map_count m = length items;
  rep_vacant m items : map_rep m items -> map_vacant m = match items with [] => true | _ => false end;
  rep_empty m : map_rep (map_empty m) [];
  rep_walk m items : map_rep m items -> map_walk m = Ok items;
  rep_span m items low high : map_rep m items -> match low with Unbounded => True | Included key | Excluded key => accepts key = true end ->
    map_span m low high = Ok (List.filter (in_range low high) items);
  rep_span_back m items low high : map_rep m items -> match high with Unbounded => True | Included key | Excluded key => accepts key = true end ->
    map_span_back m low high = Ok (rev (List.filter (in_range low high) items));
  rep_span_runs m items low : map_rep m items -> match low with Unbounded => True | Included key | Excluded key => accepts key = true end ->
    exists runs, map_span_runs m low = Ok runs /\ run_pairs runs = List.filter (in_range low Unbounded) items
      /\ Forall (fun run => run.1 <> [] /\ length run.1 = length run.2) runs;
  rep_at_many m items keys : map_rep m items -> Forall (fun key => accepts key = true) keys -> map_at_many m keys = Ok (map (assoc items) keys);
  rep_fit m items : map_rep m items -> Z.of_nat (length items) < 2 ^ 30 -> exists m', map_fit m = Ok m' /\ map_rep m' items;
  rep_pack_owed m items : map_rep m items -> Z.of_nat (length items) < 2 ^ 30 -> exists m', map_pack_owed m = Ok m' /\ map_rep m' items;
  rep_release m : map_rep (map_release m) [];
}.

Section tree_laws.
Context {V : Type} `{Inhabited V}.
Variable scan : Scan.
Variable B : nat.
Hypothesis HB : (3 <= B <= 256)%nat.

Lemma single_runs_pairs (pairs : list (bytes * V)) : run_pairs (single_runs pairs) = pairs.
Proof. unfold run_pairs, single_runs; induction pairs as [|[k v] pairs IH]; [done|]; cbn; by rewrite IH. Qed.

Lemma len_items {TK : TreeKey bytes} {TKL : TreeKeyLaws bytes} (t : @TBTreeMap bytes V TK) items : holds B t items -> tb_len t = length items.
Proof. intros [[-> ->]|(h & g & Ht & ->)]%holds_cases; [done | apply Ht]. Qed.

Lemma vacant_items {TK : TreeKey bytes} {TKL : TreeKeyLaws bytes} (t : @TBTreeMap bytes V TK) items :
  holds B t items -> TBTreeMap_is_empty t = match items with [] => true | _ => false end.
Proof. intros Hh; unfold TBTreeMap_is_empty; rewrite (len_items t items Hh); by destruct items. Qed.

Lemma fit_items {TK : TreeKey bytes} {TKL : TreeKeyLaws bytes} (t : @TBTreeMap bytes V TK) items :
  holds B t items -> Z.of_nat (length items) < 2 ^ 30 -> exists t', tree_fit B t = Ok t' /\ holds B t' items.
Proof. intros Hh Hn; unfold tree_fit; destruct (negb _); [destruct (repack_ok B HB t items B Hh Hn) as (t' & -> & Hh' & _); eauto | eauto]. Qed.

Lemma pack_owed_items {TK : TreeKey bytes} {TKL : TreeKeyLaws bytes} (t : @TBTreeMap bytes V TK) items :
  holds B t items -> Z.of_nat (length items) < 2 ^ 30 -> exists t', tree_pack_owed B t = Ok t' /\ holds B t' items.
Proof. intros Hh Hn; unfold tree_pack_owed; destruct (TBTreeMap_repack_owed _ _); [destruct (repack_ok B HB t items B Hh Hn) as (t' & -> & Hh' & _); eauto | eauto]. Qed.

Lemma roomy_kept {TK : TreeKey bytes} (t t' : @TBTreeMap bytes V TK) : length (tb_leaves t') = length (tb_leaves t) -> length (tb_inners t') = length (tb_inners t) -> roomy t -> roomy t'.
Proof. unfold roomy; intros -> ->; done. Qed.

Lemma sorted_keys (items : list (bytes * V)) : StronglySorted (fun a b : bytes * V => bytes_lt a.1 b.1) items -> StronglySorted bytes_lt (map fst items).
Proof. induction 1 as [|x items _ IH Hx]; cbn [map]; constructor; [done | by apply Forall_map]. Qed.

Definition boxed_map_laws : @ShardMapLaws (@TBTreeMap bytes V boxed_key) V boxed_index (boxed_map scan B).
Proof.
  refine (@Build_ShardMapLaws _ _ _ (boxed_map scan B) (holds B) roomy _ _ _ _ _ _ _ _ _ _ _ _ _ _ _ _ _ _ _); cbn [map_default map_put map_at map_at_mut map_holds map_take map_count map_vacant
    map_empty map_walk map_span map_span_back map_span_runs map_at_many map_fit map_pack_owed map_release boxed_map accepts boxed_index].
  - by left.
  - intros; by apply Forall_true.
  - intros m items Hh; by apply sorted_keys, (holds_sorted B m items).
  - intros m items key val Hh _ Hr; by apply (insert_again scan B HB).
  - intros m items key Hh _; by apply (get_ok scan B).
  - intros m items key write Hh _; pose proof (get_mut_ok scan B HB m items key write Hh I) as Hg; destruct (assoc items key); [destruct Hg as (m' & E & Hh' & _); eauto | done].
  - intros m items key Hh _; unfold TBTreeMap_contains_key; rewrite (get_ok scan B m items key Hh I); by destruct (assoc items key).
  - intros m items key Hh _; destruct (remove_ok scan B HB m items key Hh I) as (m' & E & Hh' & El & Ei); exists m'; split_and!; [done | done | by apply roomy_kept].
  - intros m items Hh; by apply len_items.
  - intros m items Hh; by apply vacant_items.
  - intros m; by left.
  - intros m items Hh; by apply (iter_ok B HB).
  - intros m items low high Hh _; apply (range_ok scan B HB m items low high Hh); by destruct low.
  - intros m items low high Hh _; apply (range_back_ok scan B HB m items low high Hh); by destruct high.
  - intros m items low Hh _; rewrite (range_ok scan B HB m items low Unbounded Hh) by (by destruct low); res_simpl.
    exists (single_runs (List.filter (in_range low Unbounded) items)); split; [done|]; split; [apply single_runs_pairs|].
    unfold single_runs; apply Forall_map, Forall_true; done.
  - intros m items keys Hh _; apply (get_many_sorted_ok scan B m items keys Hh); by apply Forall_true.
  - intros m items Hh Hn; by apply fit_items.
  - intros m items Hh Hn; by apply pack_owed_items.
  - intros m; by left.
Defined.

Variable N : nat.
Hypothesis HN : Z.of_nat N < U16.
#[local] Instance laws_of_N : @TreeKeyLaws bytes (array_key N) := array_key_laws N HN.

Lemma sized_ok {A} key (other act : res A) : array_accepts N key = true -> sized N key other act = act.
Proof. unfold sized, array_accepts; by intros ->. Qed.

Lemma accepted_wf key : array_accepts N key = true -> @key_wf bytes _ laws_of_N key.
Proof. intros E; by apply Nat.eqb_eq in E. Qed.

Lemma bound_accepted_wf b : match b with Unbounded => True | Included key | Excluded key => array_accepts N key = true end -> @bound_wf bytes _ laws_of_N b.
Proof. destruct b; [done | apply accepted_wf | apply accepted_wf]. Qed.

Definition array_map_laws : @ShardMapLaws (@TBTreeMap bytes V (array_key N)) V (array_index N) (array_map scan B N).
Proof.
  refine (@Build_ShardMapLaws _ _ _ (array_map scan B N) (holds B) roomy _ _ _ _ _ _ _ _ _ _ _ _ _ _ _ _ _ _ _); cbn [map_default map_put map_at map_at_mut map_holds map_take map_count map_vacant
    map_empty map_walk map_span map_span_back map_span_runs map_at_many map_fit map_pack_owed map_release array_map accepts array_index].
  - by left.
  - intros m items Hh; eapply Forall_impl; [exact (holds_wf B m items Hh)|]; intros key Hk; by apply Nat.eqb_eq.
  - intros m items Hh; apply sorted_keys; exact (holds_sorted B m items Hh).
  - intros m items key val Hh Hk%accepted_wf Hr; exact (insert_again scan B HB m items key val Hh Hk Hr).
  - intros m items key Hh Hk; rewrite sized_ok by done; exact (get_ok scan B m items key Hh (accepted_wf key Hk)).
  - intros m items key write Hh Hk; rewrite sized_ok by done; pose proof (get_mut_ok scan B HB m items key write Hh (accepted_wf key Hk)) as Hg.
    change (@assoc bytes V boxed_key items key) with (@assoc bytes V (array_key N) items key); destruct (assoc items key) as [val|]; [| exact Hg].
    destruct Hg as (m' & E & Hh' & _); exists m'; split; [exact E | exact Hh'].
  - intros m items key Hh Hk; rewrite sized_ok by done; rewrite (get_ok scan B m items key Hh (accepted_wf key Hk)); done.
  - intros m items key Hh Hk; rewrite sized_ok by done; destruct (remove_ok scan B HB m items key Hh (accepted_wf key Hk)) as (m' & E & Hh' & El & Ei); exists m'; split; [exact E|].
    split; [exact Hh' | by apply roomy_kept].
  - intros m items Hh; exact (len_items m items Hh).
  - intros m items Hh; exact (vacant_items m items Hh).
  - intros m; by left.
  - intros m items Hh; exact (iter_ok B HB m items Hh).
  - intros m items low high Hh Hl%bound_accepted_wf; exact (range_ok scan B HB m items low high Hh Hl).
  - intros m items low high Hh Hl%bound_accepted_wf; exact (range_back_ok scan B HB m items low high Hh Hl).
  - intros m items low Hh Hl%bound_accepted_wf; destruct (range_runs_ok scan B HB m items low Hh Hl) as (runs & E & Ep & Hf); exists runs; split; [exact E|]; split; [| exact Hf].
    rewrite Ep; apply filter_ext; intros e; unfold in_range; cbn [below_high]; by rewrite andb_true_r.
  - intros m items keys Hh Hk; refine (get_many_sorted_ok scan B m items keys Hh _); eapply Forall_impl; [exact Hk|]; intros key; apply accepted_wf.
  - intros m items Hh Hn; exact (fit_items m items Hh Hn).
  - intros m items Hh Hn; exact (pack_owed_items m items Hh Hn).
  - intros m; by left.
Defined.
End tree_laws.
