(* ===== verification/ColumnIndex.v ===== *)
(** * One column's resident index ([index/column.rs])

    A column's keys in shards by their leading bytes, with the range tombstones that stand over it and
    the filters in front of it. [WidthIndex] is generic over the kind of key and the map of a shard, as
    in the source. Each operation is what one caller does under the locks it takes, run whole; a
    closure the source is handed ([is_shadowed], [take]) is the answer it gives, and the segment
    table it books against is any [Bookings]. *)
From S2P Require Import Prelude Error Arrays Bytes Lsn Column IndexEntry Counters Tally KeyPage ShardFilter FilledBits TreeKey TBTree SealedRanges ShardMap.

Inductive Landed := LandedNothing | LandedRecord | LandedGrave | LandedNewer.

Definition Landed_dropped_record (l : Landed) : bool := match l with LandedRecord => true | _ => false end.
Definition Landed_took_place (l : Landed) : bool := match l with LandedNewer => false | _ => true end.
Definition Landed_may_be_paged (l : Landed) : bool := match l with LandedNothing => true | _ => false end.

Definition never_shadowed (key : bytes) (lsn : Lsn) : bool := false.

Record KeyMove := mkKeyMove { km_column : ColumnId; km_key : bytes; km_loc : Loc; km_lsn : Lsn; km_is_delete : bool }.

(** ** Shards *)

Record ShardState (M : Type) := mkShardState {
  ss_map : M;
  ss_bytes : Z;
  ss_graves : Z;
  ss_oldest_grave : Lsn;
  ss_paged : Z;
}.
Arguments mkShardState {M}.
Arguments ss_map {M}.
Arguments ss_bytes {M}.
Arguments ss_graves {M}.
Arguments ss_oldest_grave {M}.
Arguments ss_paged {M}.

Inductive SweepPhase := Release (from : bytes) | Sweep (from : bytes) | Done.

Record Covered := mkCovered { cv_low : bytes; cv_high : option bytes; cv_lsn : Lsn; cv_phase : SweepPhase }.

Record PendingCover := mkPendingCover { pc_lsn : Lsn; pc_end : option bytes; pc_release_from : option bytes }.

Definition Covered_covers (c : Covered) (key : bytes) (lsn : Lsn) : bool :=
  if (cv_lsn c <=? lsn) || bytes_ltb key (cv_low c) then false
  else match cv_high c with Some high => bytes_ltb key high | None => true end.

Definition Covered_reaches_sealed (c : Covered) (sealed : SealedRanges) : res bool := SealedRanges_overlaps sealed (cv_low c) (cv_high c).

Definition is_done (p : SweepPhase) : bool := match p with Done => true | _ => false end.

Definition OccupiedTree := @TBTreeMap Z unit number_key.

Record WidthIndex (M : Type) := mkWidthIndex {
  wi_shards : list (ShardState M);
  wi_filters : ShardFilters;
  wi_covers : list Covered;
  wi_has_covers : bool;
  wi_lifted : Lsn;
  wi_occupied : OccupiedTree;
  wi_filled : list Z;
  wi_declared_width : Z;
  wi_shard_bytes : Z;
}.
Arguments mkWidthIndex {M}.
Arguments wi_shards {M}.
Arguments wi_filters {M}.
Arguments wi_covers {M}.
Arguments wi_has_covers {M}.
Arguments wi_lifted {M}.
Arguments wi_occupied {M}.
Arguments wi_filled {M}.
Arguments wi_declared_width {M}.
Arguments wi_shard_bytes {M}.

Definition resize (current old_len new_len : Z) : Z :=
  if old_len <=? new_len then as_u64 (current + (new_len - old_len)) else saturating_sub current (old_len - new_len).

Definition map_bound (f : bytes -> bytes) (b : Bound bytes) : Bound bytes :=
  match b with Unbounded => Unbounded | Included key => Included (f key) | Excluded key => Excluded (f key) end.

Definition shard_of_bytes (shard_bytes : Z) (key : bytes) : Z := fold_left (shard_step key) (seq 0 (Z.to_nat shard_bytes)) 0.

Section index.
Context {M Book : Type} `{IndexKey} `{ShardMap M Entry} `{Bookings Book}.
Variable scan : Scan.
Implicit Types (w : WidthIndex M) (state : ShardState M) (book : Book) (key : bytes).

Definition ShardState_empty : ShardState M := mkShardState map_default 0 0 (U64 - 1) 0.

Definition note_grave state (lsn : Lsn) : ShardState M :=
  mkShardState (ss_map state) (ss_bytes state) (ss_graves state + 1) (if lsn <? ss_oldest_grave state then lsn else ss_oldest_grave state) (ss_paged state).

Definition live_count state : Z := Z.of_nat (map_count (ss_map state)) - ss_graves state + ss_paged state.

Definition WidthIndex_new (spec : ColumnSpec) : WidthIndex M :=
  let count := ColumnSpec_shard_count spec in
  mkWidthIndex (replicate (Z.to_nat count) ShardState_empty) (ShardFilters_new count) [] false 0 TBTreeMap_new (replicate (Z.to_nat ((count + 63) / 64)) 0)
    (match KeyWidth_fixed (cs_key_width spec) with Some n => n | None => 0 end) (cs_shard_bytes spec).

(** ** Parts of the index *)

Definition with_shard w (at_ : Z) state : WidthIndex M :=
  mkWidthIndex (<[Z.to_nat at_ := state]> (wi_shards w)) (wi_filters w) (wi_covers w) (wi_has_covers w) (wi_lifted w) (wi_occupied w) (wi_filled w) (wi_declared_width w) (wi_shard_bytes w).
Definition with_filters w (filters : ShardFilters) : WidthIndex M :=
  mkWidthIndex (wi_shards w) filters (wi_covers w) (wi_has_covers w) (wi_lifted w) (wi_occupied w) (wi_filled w) (wi_declared_width w) (wi_shard_bytes w).
Definition with_covers w (covers : list Covered) (has_covers : bool) : WidthIndex M :=
  mkWidthIndex (wi_shards w) (wi_filters w) covers has_covers (wi_lifted w) (wi_occupied w) (wi_filled w) (wi_declared_width w) (wi_shard_bytes w).
Definition with_lifted w (lifted : Lsn) : WidthIndex M :=
  mkWidthIndex (wi_shards w) (wi_filters w) (wi_covers w) (wi_has_covers w) lifted (wi_occupied w) (wi_filled w) (wi_declared_width w) (wi_shard_bytes w).
Definition with_occupied w (occupied : OccupiedTree) : WidthIndex M :=
  mkWidthIndex (wi_shards w) (wi_filters w) (wi_covers w) (wi_has_covers w) (wi_lifted w) occupied (wi_filled w) (wi_declared_width w) (wi_shard_bytes w).
Definition with_filled w (filled : list Z) : WidthIndex M :=
  mkWidthIndex (wi_shards w) (wi_filters w) (wi_covers w) (wi_has_covers w) (wi_lifted w) (wi_occupied w) filled (wi_declared_width w) (wi_shard_bytes w).
Definition with_map state (m : M) : ShardState M := mkShardState m (ss_bytes state) (ss_graves state) (ss_oldest_grave state) (ss_paged state).
Definition with_counts state (bytes_ graves paged : Z) : ShardState M := mkShardState (ss_map state) bytes_ graves (ss_oldest_grave state) paged.

Definition shard_at w (at_ : Z) : res (ShardState M) := must (get (wi_shards w) at_).
Definition shard_of w key : Z := shard_of_bytes (wi_shard_bytes w) key.

Definition is_covered w key (lsn : Lsn) : bool :=
  if negb (wi_has_covers w) then false else existsb (fun cover => Covered_covers cover key lsn) (wi_covers w).

Definition note_key w (at_ : Z) key : WidthIndex M := with_filters w (ShardFilters_note (wi_filters w) at_ (filter_hash key)).

Definition note_filled w (at_ : Z) (was_empty : bool) : res (WidthIndex M) :=
  if was_empty then '(occupied, _) ← @TBTreeMap_insert Z unit number_key _ scan NODE_WIDTH (wi_occupied w) at_ tt; Ok (with_occupied w occupied) else Ok w.

Definition note_held_at w (at_ : Z) (is_vacant : bool) : WidthIndex M := with_filled w (note_held (wi_filled w) at_ is_vacant).

(** Write a shard back once a key has landed in its map. *)
Definition landed_in w (at_ : Z) state (was_empty : bool) : res (WidthIndex M) :=
  w ← note_filled (with_shard w at_ state) at_ was_empty;
  Ok (note_held_at w at_ (map_vacant (ss_map state))).

(** Write a shard back once keys have left its map. *)
Definition note_emptied w (at_ : Z) state : res (WidthIndex M) :=
  let w := if map_vacant (ss_map state) then note_held_at (with_filters w (ShardFilters_clear (wi_filters w) at_)) at_ true else w in
  if map_vacant (ss_map state) && (ss_paged state =? 0) then
    '(occupied, _) ← @TBTreeMap_remove Z unit number_key _ scan (wi_occupied w) at_;
    Ok (with_occupied (with_shard w at_ (with_map state (map_release (ss_map state)))) occupied)
  else Ok (with_shard w at_ state).

(** ** Writes *)

Definition drop_entry state key (existing : Entry) book : res (ShardState M * Book) :=
  let book := shadow book (loc_segment (en_loc existing)) (Entry_span existing (width key)) in
  let state := with_counts state (saturating_sub (ss_bytes state) (loc_len (en_loc existing))) (ss_graves state) (ss_paged state) in
  '(m, _) ← map_take (ss_map state) key;
  Ok (with_map state m, book).

Definition insert_held w (at_ : Z) key (entry : Entry) book (is_shadowed : bytes -> Lsn -> bool) : res (WidthIndex M * Book * Landed) :=
  state ← shard_at w at_;
  let '(book, stamp) := live_incarnation book (loc_segment (en_loc entry)) in
  let entry := Entry_stamped entry stamp in
  let loc := en_loc entry in
  let lsn := en_lsn entry in
  let was_empty := map_vacant (ss_map state) in
  let dead := mark_dead book (loc_segment loc) lsn (span_of (width key) (loc_len loc)) in
  if is_covered w key lsn then Ok (w, dead, LandedNewer)
  else
    let w := note_key w at_ key in
    '(m, displaced) ← map_put (ss_map state) key entry;
    let landed state book landed :=
      let book := mark_live book (loc_segment loc) lsn (span_of (width key) (loc_len loc)) in
      w ← landed_in w at_ state was_empty;
      Ok (w, book, landed) in
    match displaced with
    | Some existing =>
        if lsn <=? en_lsn existing then
          '(m, _) ← map_put m key existing;
          Ok (with_shard w at_ (with_map state m), dead, LandedNewer)
        else if Entry_is_grave existing then
          landed (with_map (with_counts state (as_u64 (ss_bytes state + loc_len loc)) (ss_graves state - 1) (ss_paged state)) m) book LandedGrave
        else
          landed (with_map (with_counts state (resize (ss_bytes state) (loc_len (en_loc existing)) (loc_len loc)) (ss_graves state) (ss_paged state)) m)
            (shadow book (loc_segment (en_loc existing)) (Entry_span existing (width key))) LandedRecord
    | None =>
        if is_shadowed key lsn then
          '(m, _) ← map_take m key;
          Ok (with_shard w at_ (with_map state m), dead, LandedNewer)
        else landed (with_map (with_counts state (as_u64 (ss_bytes state + loc_len loc)) (ss_graves state) (ss_paged state)) m) book LandedNothing
    end.

Definition insert_unless w key (entry : Entry) book (is_shadowed : bytes -> Lsn -> bool) : res (WidthIndex M * Book * Landed) :=
  match from_slice key with
  | None => Ok (w, book, LandedNewer)
  | Some key => insert_held w (shard_of w key) key entry book is_shadowed
  end.

Definition WidthIndex_insert w key (entry : Entry) book : res (WidthIndex M * Book * Landed) := insert_unless w key entry book never_shadowed.

Definition remove_held w (at_ : Z) key (lsn : Lsn) (tombstone : Loc) book (is_shadowed : bytes -> Lsn -> bool) : res (WidthIndex M * Book * Landed) :=
  state ← shard_at w at_;
  let was_empty := map_vacant (ss_map state) in
  existing ← map_at (ss_map state) key;
  let stand state book landed :=
    let w := note_key w at_ key in
    '(m, _) ← map_put (ss_map state) key (Entry_grave_from lsn (loc_segment tombstone));
    w ← landed_in w at_ (note_grave (with_map state m) lsn) was_empty;
    Ok (w, book, landed) in
  match existing with
  | Some existing =>
      if lsn <=? en_lsn existing then
        if Entry_is_grave existing && (en_lsn existing =? lsn) then
          '(m, _) ← map_put (ss_map state) key (Entry_grave_from lsn (loc_segment tombstone));
          Ok (with_shard w at_ (with_map state m), book, LandedNewer)
        else Ok (w, book, LandedNewer)
      else if negb (Entry_is_grave existing) then
        '(state, book) ← drop_entry state key existing book;
        stand state book LandedRecord
      else stand (with_counts state (ss_bytes state) (ss_graves state - 1) (ss_paged state)) book LandedGrave
  | None => if is_shadowed key lsn then Ok (w, book, LandedNewer) else stand state book LandedNothing
  end.

Definition remove_unless w key (lsn : Lsn) (tombstone : Loc) book (is_shadowed : bytes -> Lsn -> bool) : res (WidthIndex M * Book * Landed) :=
  match from_slice key with
  | None => Ok (w, book, LandedNewer)
  | Some key =>
      let book := mark_held book (loc_segment tombstone) lsn (span_of (width key) (loc_len tombstone)) in
      remove_held w (shard_of w key) key lsn tombstone book is_shadowed
  end.

Definition WidthIndex_remove w key (lsn : Lsn) (tombstone : Loc) book : res (WidthIndex M * Book * Landed) := remove_unless w key lsn tombstone book never_shadowed.

Definition apply_held w (shard : Z) key (moving : KeyMove) book (is_shadowed : bytes -> Lsn -> bool) : res (WidthIndex M * Book * Landed) :=
  if km_is_delete moving then
    let book := mark_held book (loc_segment (km_loc moving)) (km_lsn moving) (span_of (width key) (loc_len (km_loc moving))) in
    remove_held w shard key (km_lsn moving) (km_loc moving) book is_shadowed
  else insert_held w shard key (Entry_new (km_loc moving) (km_lsn moving)) book is_shadowed.

(** The moves from one on whose keys fall in the shard held, and the moves left. *)
Fixpoint apply_run w (shard : Z) (moves : list KeyMove) book (is_shadowed : bytes -> Lsn -> bool) (landed : list Landed)
    : res (WidthIndex M * Book * list Landed * list KeyMove) :=
  match moves with
  | [] => Ok (w, book, landed, [])
  | moving :: rest =>
      match from_slice (km_key moving) with
      | None => Ok (w, book, landed, moves)
      | Some next =>
          if shard_of w next =? shard then
            '(w, book, one) ← apply_held w shard next moving book is_shadowed;
            apply_run w shard rest book is_shadowed (landed ++ [one])
          else Ok (w, book, landed, moves)
      end
  end.

Fixpoint apply_rounds (fuel : nat) w (moves : list KeyMove) book (is_shadowed : bytes -> Lsn -> bool) (landed : list Landed) : res (WidthIndex M * Book * list Landed) :=
  match fuel, moves with
  | S fuel, moving :: rest =>
      match from_slice (km_key moving) with
      | None => apply_rounds fuel w rest book is_shadowed (landed ++ [LandedNewer])
      | Some key =>
          let shard := shard_of w key in
          '(w, book, one) ← apply_held w shard key moving book is_shadowed;
          '(w, book, landed, rest) ← apply_run w shard rest book is_shadowed (landed ++ [one]);
          apply_rounds fuel w rest book is_shadowed landed
      end
  | _, _ => Ok (w, book, landed)
  end.

Definition apply_moves w (moves : list KeyMove) book (is_shadowed : bytes -> Lsn -> bool) (landed : list Landed) : res (WidthIndex M * Book * list Landed) :=
  apply_rounds (length moves) w moves book is_shadowed landed.

Definition WidthIndex_hold_grave w key (lsn : Lsn) (segment : SegmentId) (is_shadowed : bool) : res (WidthIndex M) :=
  match from_slice key with
  | None => Ok w
  | Some key =>
      let at_ := shard_of w key in
      state ← shard_at w at_;
      let was_empty := map_vacant (ss_map state) in
      existing ← map_at (ss_map state) key;
      if match existing with Some existing => negb (Entry_is_grave existing) || (lsn <? en_lsn existing) | None => false end || is_shadowed then Ok w
      else
        let state := match existing with Some _ => with_counts state (ss_bytes state) (ss_graves state - 1) (ss_paged state) | None => state end in
        let w := note_key w at_ key in
        '(m, _) ← map_put (ss_map state) key (Entry_grave_from lsn segment);
        landed_in w at_ (note_grave (with_map state m) lsn) was_empty
  end.

Definition WidthIndex_drop_grave w key (lsn : Lsn) : res (WidthIndex M * bool) :=
  match from_slice key with
  | None => Ok (w, false)
  | Some key =>
      let at_ := shard_of w key in
      state ← shard_at w at_;
      held ← map_at (ss_map state) key;
      if negb (match held with Some entry => Entry_is_grave entry && (en_lsn entry =? lsn) | None => false end) then Ok (w, false)
      else
        '(m, _) ← map_take (ss_map state) key;
        w ← note_emptied w at_ (with_map (with_counts state (ss_bytes state) (ss_graves state - 1) (ss_paged state)) m);
        Ok (w, true)
  end.

(** ** Keys the footers hold *)

Definition settle state (loc : Loc) book (key_width : Z) (counted : bool) : ShardState M * Book :=
  let state := if counted then with_counts state (saturating_sub (ss_bytes state) (loc_len loc)) (ss_graves state) (saturating_sub (ss_paged state) 1) else state in
  (state, shadow book (loc_segment loc) (span_of key_width (loc_len loc))).

Definition WidthIndex_settle_paged w key (loc : Loc) book : res (WidthIndex M * Book * bool) :=
  match from_slice key with
  | None => Ok (w, book, false)
  | Some key =>
      let at_ := shard_of w key in
      state ← shard_at w at_;
      let '(state, book) := settle state loc book (width key) true in
      Ok (with_shard w at_ state, book, true)
  end.

Definition WidthIndex_settle_paged_least w key (loc : Loc) (least : Z) book : res (WidthIndex M * Book * bool) :=
  match from_slice key with
  | None => Ok (w, book, false)
  | Some key =>
      let at_ := shard_of w key in
      state ← shard_at w at_;
      let state := with_counts state (saturating_sub (ss_bytes state) least) (ss_graves state) (saturating_sub (ss_paged state) 1) in
      Ok (with_shard w at_ state, shadow book (loc_segment loc) (span_of (width key) (loc_len loc)), true)
  end.

Definition book_shard w (at_ keys bytes_ : Z) (gone : option Z) : res (WidthIndex M) :=
  state ← shard_at w at_;
  let was_empty := map_vacant (ss_map state) && (ss_paged state =? 0) in
  let state := with_counts state (as_u64 (ss_bytes state + bytes_)) (ss_graves state) (ss_paged state + keys) in
  let state :=
    match gone with
    | Some n => with_counts state (saturating_sub (ss_bytes state) n) (ss_graves state) (saturating_sub (ss_paged state) 1)
    | None => state
    end in
  note_filled (with_shard w at_ state) at_ (was_empty && (0 <? keys)).

(** Each run of rows in one shard is booked at once. *)
Fixpoint book_runs w (rows : list (bytes * Z)) (run : option (Z * Z * Z)) : res (WidthIndex M) :=
  match rows with
  | [] => match run with Some (shard, keys, bytes_) => book_shard w shard keys bytes_ None | None => Ok w end
  | (key, n) :: rows =>
      let at_ := shard_of w key in
      let fresh := w ← match run with Some (shard, keys, bytes_) => book_shard w shard keys bytes_ None | None => Ok w end; book_runs w rows (Some (at_, 1, n)) in
      match run with
      | Some (shard, keys, bytes_) => if shard =? at_ then book_runs w rows (Some (shard, keys + 1, as_u64 (bytes_ + n))) else fresh
      | None => fresh
      end
  end.

Definition WidthIndex_book_sealed w (rows : list (bytes * Z)) : res (WidthIndex M) := book_runs w rows None.

(** A [Booking] of the spot index: the length that went and the length that came. *)
Definition WidthIndex_book_paged w key (gone came : option Z) : res (WidthIndex M) :=
  let '(keys, bytes_) := match came with Some n => (1, n) | None => (0, 0) end in
  book_shard w (shard_of w key) keys bytes_ gone.

Definition WidthIndex_rebook_paged w key (booked actual : Z) : res (WidthIndex M) :=
  match from_slice key with
  | None => Ok w
  | Some key =>
      let at_ := shard_of w key in
      state ← shard_at w at_;
      Ok (with_shard w at_ (with_counts state (saturating_sub (u64_saturating_add (ss_bytes state) booked) actual) (ss_graves state) (ss_paged state)))
  end.

Definition WidthIndex_evict_paged w key (loc : Loc) (lsn : Lsn) book (taken : bool) : res (WidthIndex M * Book * bool) :=
  match from_slice key with
  | None => Ok (w, book, false)
  | Some key =>
      let at_ := shard_of w key in
      state ← shard_at w at_;
      let was_empty := map_vacant (ss_map state) in
      held ← map_holds (V := Entry) (ss_map state) key;
      if (held : bool) then Ok (w, book, false)
      else
        let '(state, book) := settle state loc book (width key) taken in
        let w := note_key w at_ key in
        '(m, _) ← map_put (ss_map state) key (Entry_grave lsn);
        w ← landed_in w at_ (note_grave (with_map state m) lsn) was_empty;
        Ok (w, book, true)
  end.

Definition WidthIndex_repoint_paged w key (to : Loc) (lsn : Lsn) (stamp : SegmentIncarnation) (taken : bool) : res (WidthIndex M * bool) :=
  match from_slice key with
  | None => Ok (w, false)
  | Some key =>
      let at_ := shard_of w key in
      state ← shard_at w at_;
      let was_empty := map_vacant (ss_map state) in
      held ← map_holds (V := Entry) (ss_map state) key;
      if (held : bool) then Ok (w, false)
      else
        let w := note_key w at_ key in
        '(m, _) ← map_put (ss_map state) key (Entry_stamped (Entry_new to lsn) stamp);
        let state := with_map state m in
        let state :=
          if taken then with_counts state (ss_bytes state) (ss_graves state) (saturating_sub (ss_paged state) 1)
          else with_counts state (as_u64 (ss_bytes state + loc_len to)) (ss_graves state) (ss_paged state) in
        w ← landed_in w at_ state was_empty;
        Ok (w, true)
  end.

(** ** Range deletes *)

Definition push_cover w (start : bytes) (high : option bytes) (lsn : Lsn) : WidthIndex M :=
  let low := low_bound start in
  if existsb (fun cover => cv_lsn cover =? lsn) (wi_covers w) then w
  else with_covers w (wi_covers w ++ [mkCovered low high lsn (Release low)]) true.

Definition WidthIndex_remove_range w (start : bytes) (end_ : option bytes) (lsn : Lsn) : WidthIndex M := push_cover w start (low_bound <$> end_) lsn.

(** [min_by_key]: the first of the least. *)
Fixpoint oldest_cover (covers : list Covered) : option Covered :=
  match covers with
  | [] => None
  | c :: covers => match oldest_cover covers with Some c' => if cv_lsn c' <? cv_lsn c then Some c' else Some c | None => Some c end
  end.

Definition WidthIndex_next_pending_cover w : option PendingCover :=
  cover ← oldest_cover (List.filter (fun cover => negb (is_done (cv_phase cover))) (wi_covers w));
  Some (mkPendingCover (cv_lsn cover) (cv_high cover) (match cv_phase cover with Release from => Some from | _ => None end)).

Definition find_cover w (lsn : Lsn) : option Covered := List.find (fun cover => cv_lsn cover =? lsn) (wi_covers w).

(** [iter_mut().find(..)], with the phase of the one found set. *)
Fixpoint set_phase (covers : list Covered) (lsn : Lsn) (phase : SweepPhase) : list Covered :=
  match covers with
  | [] => []
  | c :: covers => if cv_lsn c =? lsn then mkCovered (cv_low c) (cv_high c) (cv_lsn c) phase :: covers else c :: set_phase covers lsn phase
  end.

Definition WidthIndex_advance_release w (lsn : Lsn) (resume : option bytes) : WidthIndex M :=
  match find_cover w lsn with
  | None => w
  | Some cover =>
      with_covers w (set_phase (wi_covers w) lsn (match resume with Some resume => Release (low_bound resume) | None => Sweep (cv_low cover) end)) (wi_has_covers w)
  end.

Definition upper_bound (end_ : option bytes) : Bound bytes := match end_ with Some key => Excluded key | None => Unbounded end.

(** The walk over one shard's span: what it dooms, how many it examined, and where it stopped. *)
Fixpoint sweep_span (lsn : Lsn) (budget examined : Z) (pairs : list (bytes * Entry)) : list (bytes * Entry) * Z * option bytes :=
  match pairs with
  | [] => ([], examined, None)
  | (key, entry) :: pairs =>
      if budget <=? examined then ([], examined, Some key)
      else
        let '(doomed, examined, stopped) := sweep_span lsn budget (examined + 1) pairs in
        if (lsn <=? en_lsn entry) || Entry_is_grave entry then (doomed, examined, stopped) else ((key, entry) :: doomed, examined, stopped)
  end.

(** What the doomed come to per segment, in segment order, as the tree that sums them gives it. *)
Fixpoint add_span (sums : list (SegmentId * Z)) (segment : SegmentId) (span : Z) : list (SegmentId * Z) :=
  match sums with
  | [] => [(segment, span)]
  | (s, n) :: rest =>
      if segment =? s then (s, as_u64 (n + span)) :: rest
      else if segment <? s then (segment, span) :: sums else (s, n) :: add_span rest segment span
  end.

Definition doom_one (acc : M * list (SegmentId * Z) * Z) (pair : bytes * Entry) : res (M * list (SegmentId * Z) * Z) :=
  let '(m, per_segment, freed) := acc in
  let '(key, entry) := pair in
  let per_segment := add_span per_segment (loc_segment (en_loc entry)) (Entry_span entry (width key)) in
  '(m, _) ← map_take m key;
  Ok (m, per_segment, as_u64 (freed + loc_len (en_loc entry))).

Definition drop_doomed w (at_ : Z) state book (doomed : list (bytes * Entry)) : res (WidthIndex M * Book) :=
  '(m, per_segment, freed) ← foldm doom_one doomed (ss_map state, [], 0);
  let book := fold_left (fun book sum => shadow book sum.1 sum.2) per_segment book in
  let state := with_counts state (saturating_sub (ss_bytes state) freed) (ss_graves state) (ss_paged state) in
  m ← map_pack_owed m;
  w ← note_emptied w at_ (with_map state m);
  Ok (w, book).

(** Occupied shards in an inclusive range, looked up as the walk reaches each. *)
Definition next_occupied w (low high : Z) : res (option Z) :=
  pairs ← TBTreeMap_range scan (wi_occupied w) (Included low) (Included high);
  Ok (fst <$> hd_error pairs).

Record Swept := mkSwept { sw_dropped : Z; sw_examined : Z; sw_stopped : option bytes }.

Definition sweep_shard w (at_ : Z) (lsn : Lsn) (budget : Z) (resume : bytes) (high : option bytes) book (swept : Swept) : res (WidthIndex M * Book * Swept) :=
  state ← shard_at w at_;
  pairs ← map_span (ss_map state) (Included resume) (upper_bound high);
  let '(doomed, examined, stopped) := sweep_span lsn budget (sw_examined swept) pairs in
  '(w, book) ← (if (length doomed =? 0)%nat then Ok (w, book) else drop_doomed w at_ state book doomed);
  Ok (w, book, mkSwept (sw_dropped swept + len doomed) examined stopped).

Fixpoint sweep_shards (fuel : nat) w (low last : Z) (lsn : Lsn) (budget : Z) (resume : bytes) (high : option bytes) book (swept : Swept) : res (WidthIndex M * Book * Swept) :=
  match fuel with
  | O => Ok (w, book, swept)
  | S fuel =>
      next ← next_occupied w low last;
      match next with
      | None => Ok (w, book, swept)
      | Some at_ =>
          '(w, book, swept) ← sweep_shard w at_ lsn budget resume high book swept;
          match sw_stopped swept with
          | Some _ => Ok (w, book, swept)
          | None => sweep_shards fuel w (at_ + 1) last lsn budget resume high book swept
          end
      end
  end.

(** What was dropped, what was examined, and whether the cover is done. *)
Definition WidthIndex_sweep_run w (lsn : Lsn) (budget : Z) book : res (WidthIndex M * Book * (Z * Z * bool)) :=
  match find_cover w lsn with
  | Some (mkCovered _ high _ (Sweep resume)) =>
      let last := match high with Some key => shard_of w key | None => len (wi_shards w) - 1 end in
      '(w, book, swept) ← sweep_shards (S (length (wi_shards w))) w (shard_of w resume) last lsn budget resume high book (mkSwept 0 0 None);
      match sw_stopped swept with
      | Some resume => Ok (with_covers w (set_phase (wi_covers w) lsn (Sweep resume)) (wi_has_covers w), book, (sw_dropped swept, sw_examined swept, false))
      | None => Ok (with_covers w (set_phase (wi_covers w) lsn Done) (wi_has_covers w), book, (sw_dropped swept, sw_examined swept, true))
      end
  | _ => Ok (w, book, (0, 0, true))
  end.

Definition WidthIndex_release_covered w key (loc : Loc) book (taken : bool) : res (WidthIndex M * Book * bool) :=
  match from_slice key with
  | None => Ok (w, book, false)
  | Some key =>
      let at_ := shard_of w key in
      state ← shard_at w at_;
      held ← map_holds (V := Entry) (ss_map state) key;
      if (held : bool) || negb taken then Ok (w, book, false)
      else
        let '(state, book) := settle state loc book (width key) true in
        w ← note_emptied w at_ state;
        Ok (w, book, true)
  end.

Definition WidthIndex_pending_overlaps w (low high : bytes) : bool :=
  if negb (wi_has_covers w) then false
  else
    let low := low_bound low in
    let high := high_bound high in
    existsb (fun cover => negb (is_done (cv_phase cover)) && bytes_leb (cv_low cover) high
                          && match cv_high cover with Some end_ => bytes_ltb low end_ | None => true end) (wi_covers w).

Definition WidthIndex_has_pending_covers w : bool :=
  if negb (wi_has_covers w) then false else existsb (fun cover => negb (is_done (cv_phase cover))) (wi_covers w).

Definition WidthIndex_cover_count w : Z := len (wi_covers w).

(** ** Pruning *)

Definition keeps_cover (before : Lsn) (sealed : SealedRanges) (cover : Covered) : res bool :=
  if negb (is_done (cv_phase cover)) then Ok true
  else if before <? cv_lsn cover then Ok true else Covered_reaches_sealed cover sealed.

Definition retain_cover (before : Lsn) (sealed : SealedRanges) (acc : list Covered * Lsn) (cover : Covered) : res (list Covered * Lsn) :=
  keep ← keeps_cover before sealed cover;
  Ok (if (keep : bool) then (acc.1 ++ [cover], acc.2) else (acc.1, Z.max acc.2 (cv_lsn cover))).

Definition prune_covers w (before : Lsn) (sealed : SealedRanges) : res (WidthIndex M * Z) :=
  if negb (wi_has_covers w) then Ok (w, 0)
  else
    '(covers, lifted) ← foldm (retain_cover before sealed) (wi_covers w) ([], Lsn_NONE);
    let w' := with_lifted w (Z.max (wi_lifted w) lifted) in
    Ok (with_covers w' covers (if (length covers =? 0)%nat then false else wi_has_covers w), len (wi_covers w) - len covers).

(** One grave's fate in a pass: doomed, or left with its number under the floor. *)
Definition prunable (before : Lsn) (standing : list SegmentId) (entry : Entry) : bool :=
  (en_lsn entry <=? before) && match Entry_grave_origin entry with Some from => existsb (fun s => s =? from) standing | None => false end.

Definition judge_grave (before : Lsn) (standing : list SegmentId) (acc : list bytes * Lsn * Lsn) (pair : bytes * Entry) : list bytes * Lsn * Lsn :=
  let '(doomed, oldest_left, lifted) := acc in
  let '(key, entry) := pair in
  if negb (Entry_is_grave entry) then acc
  else if prunable before standing entry then (doomed ++ [key], oldest_left, Z.max lifted (en_lsn entry))
  else if en_lsn entry <? oldest_left then (doomed, en_lsn entry, lifted)
  else acc.

Definition prune_shard (before : Lsn) (sealed : SealedRanges) (acc : WidthIndex M * Z * Lsn) (at_ : Z) : res (WidthIndex M * Z * Lsn) :=
  let '(w, pruned, lifted) := acc in
  state ← shard_at w at_;
  if (ss_graves state =? 0) || (before <? ss_oldest_grave state) then Ok acc
  else
    standing ← SealedRanges_segments sealed;
    pairs ← map_walk (ss_map state);
    let '(doomed, oldest_left, lifted) := fold_left (judge_grave before standing) pairs ([], U64 - 1, lifted) in
    let state := mkShardState (ss_map state) (ss_bytes state) (ss_graves state) oldest_left (ss_paged state) in
    if (length doomed =? 0)%nat then Ok (with_shard w at_ state, pruned, lifted)
    else
      m ← foldm (fun m key => '(m, _) ← map_take m key; Ok m) doomed (ss_map state);
      m ← map_pack_owed m;
      w ← note_emptied w at_ (with_map (with_counts state (ss_bytes state) (ss_graves state - len doomed) (ss_paged state)) m);
      Ok (w, pruned + len doomed, lifted).

Definition occupied_shards w : res (list Z) := pairs ← @TBTreeMap_iter Z unit number_key (wi_occupied w); Ok (map fst pairs).

Definition prune_graves w (before : Lsn) (sealed : SealedRanges) : res (WidthIndex M * Z) :=
  occupied ← occupied_shards w;
  '(w, pruned, lifted) ← foldm (prune_shard before sealed) occupied (w, 0, Lsn_NONE);
  Ok (with_lifted w (Z.max (wi_lifted w) lifted), pruned).

Definition WidthIndex_prune_tombstones w (before : Lsn) (sealed : SealedRanges) : res (WidthIndex M * Z) :=
  '(w, covers) ← prune_covers w before sealed;
  '(w, graves) ← prune_graves w before sealed;
  Ok (w, covers + graves).


(** ** Reads *)

Definition WidthIndex_is_covered_key w key (lsn : Lsn) : bool := if accepts key then is_covered w key lsn else false.

Definition WidthIndex_is_covered_key_at w key (lsn snapshot : Lsn) : bool :=
  if negb (wi_has_covers w) then false
  else if negb (accepts key) then false
  else existsb (fun cover => (cv_lsn cover <=? snapshot) && Covered_covers cover key lsn) (wi_covers w).

Definition WidthIndex_entry_or_grave w key : res (option Entry) :=
  if negb (accepts key) then Ok None
  else
    let at_ := shard_of w key in
    if negb (ShardFilters_may_hold (wi_filters w) at_ (filter_hash key)) then Ok None
    else
      state ← shard_at w at_;
      map_at (ss_map state) key.

Definition WidthIndex_get w key : res (option Entry) :=
  if negb (accepts key) then Ok None
  else
    let at_ := shard_of w key in
    if negb (ShardFilters_may_hold (wi_filters w) at_ (filter_hash key)) then Ok None
    else
      state ← shard_at w at_;
      found ← map_at (ss_map state) key;
      match found with
      | None => Ok None
      | Some entry => if Entry_is_grave entry || is_covered w key (en_lsn entry) then Ok None else Ok (Some entry)
      end.

Definition WidthIndex_contains w key : res bool := found ← WidthIndex_get w key; Ok (match found with Some _ => true | None => false end).
Definition WidthIndex_size_of w key : res (option Z) := found ← WidthIndex_get w key; Ok (match found with Some entry => Some (loc_len (en_loc entry)) | None => None end).

(** [sort_unstable_by_key]: keys that fall in one shard keep the order they were asked in. *)
Definition BATCH_RUN : nat := 4.

Definition want w (keys : list RecordKey) (acc : list (Z * Z)) (asked : Z * Z) : res (list (Z * Z)) :=
  key ← must (get keys asked.2);
  let key := RecordKey_as_slice key in
  let shard := shard_of w key in
  if negb (ShardFilters_may_hold (wi_filters w) shard (filter_hash key)) then Ok acc
  else if negb (accepts key) then Ok acc
  else Ok (acc ++ [(as_u32 shard, as_u32 asked.1)]).

(** The run of keys in the first one's shard, and the rest. *)
Fixpoint take_run (shard : Z) (wanted : list (Z * Z)) : list Z * list (Z * Z) :=
  match wanted with
  | (s, slot) :: rest => if s =? shard then let '(run, rest) := take_run shard rest in (slot :: run, rest) else ([], wanted)
  | [] => ([], [])
  end.

Definition asked_key (keys : list RecordKey) (run : list Z) (slot : Z) : res bytes :=
  index ← must (get run slot);
  key ← must (get keys index);
  Ok (RecordKey_as_slice key).

Definition answer_slot {A} (out : list A) (slot : Z) (entry : A) : res (list A) := if (0 <=? slot) && (slot <? len out) then Ok (<[Z.to_nat slot := entry]> out) else Panic.

Definition answer_run w (keys : list RecordKey) (run : list Z) (shard : Z) (slots : list Z) (out : list (option Entry)) : res (list (option Entry)) :=
  if (length slots <? BATCH_RUN)%nat then
    state ← shard_at w shard;
    foldm (fun out slot => key ← asked_key keys run slot; found ← map_at (ss_map state) key; answer_slot out slot found) slots out
  else
    staged ← mapm (asked_key keys run) slots;
    state ← shard_at w shard;
    found ← map_at_many (ss_map state) (omap from_slice staged);
    foldm (fun out pair => answer_slot out pair.1 pair.2) (zip slots found) out.

Fixpoint answer_runs (fuel : nat) w (keys : list RecordKey) (run : list Z) (wanted : list (Z * Z)) (out : list (option Entry)) : res (list (option Entry)) :=
  match fuel, wanted with
  | S fuel, (shard, slot) :: rest =>
      let '(slots, rest) := take_run shard rest in
      out ← answer_run w keys run shard (slot :: slots) out;
      answer_runs fuel w keys run rest out
  | _, _ => Ok out
  end.

Definition WidthIndex_entry_many w (keys : list RecordKey) (run : list Z) : res (list (option Entry)) :=
  wanted ← foldm (want w keys) (zip (seqZ 0 (len run)) run) [];
  let wanted := sort_by (fun left right => left.1 <=? right.1) wanted in
  answer_runs (length wanted) w keys run wanted (replicate (length run) None).

(** ** Keys in place *)

Definition WidthIndex_repoint w key (new_loc : Loc) (expected_lsn : Lsn) (stamp : SegmentIncarnation) : res (WidthIndex M * option Loc) :=
  match from_slice key with
  | None => Ok (w, None)
  | Some key =>
      let at_ := shard_of w key in
      state ← shard_at w at_;
      existing ← map_at (ss_map state) key;
      match existing with
      | Some existing =>
          if (en_lsn existing =? expected_lsn) && negb (Entry_is_grave existing) then
            let w := note_key w at_ key in
            moved ← map_at_mut (ss_map state) key (fun existing => Entry_moved_to existing new_loc stamp);
            m ← must moved;
            Ok (with_shard w at_ (with_map state m), Some (en_loc existing))
          else Ok (w, None)
      | None => Ok (w, None)
      end
  end.

Definition loc_eqb (a b : Loc) : bool := bool_decide (a = b).

Definition WidthIndex_evict_at w key (loc : Loc) book : res (WidthIndex M * Book * bool) :=
  match from_slice key with
  | None => Ok (w, book, false)
  | Some key =>
      let at_ := shard_of w key in
      state ← shard_at w at_;
      existing ← map_at (ss_map state) key;
      match existing with
      | None => Ok (w, book, false)
      | Some existing =>
          if negb (loc_eqb (en_loc existing) loc) then Ok (w, book, false)
          else
            '(state, book) ← drop_entry state key existing book;
            m ← map_pack_owed (ss_map state);
            w ← note_emptied w at_ (with_map state m);
            Ok (w, book, true)
      end
  end.

Definition WidthIndex_drop_shadowed w key book : res (WidthIndex M * Book) :=
  match from_slice key with
  | None => Ok (w, book)
  | Some key =>
      let at_ := shard_of w key in
      state ← shard_at w at_;
      existing ← map_at (ss_map state) key;
      match existing with
      | None => Ok (w, book)
      | Some existing =>
          if Entry_is_grave existing then
            '(m, _) ← map_take (ss_map state) key;
            w ← note_emptied w at_ (with_map (with_counts state (ss_bytes state) (ss_graves state - 1) (ss_paged state)) m);
            Ok (w, book)
          else
            '(state, book) ← drop_entry state key existing book;
            w ← note_emptied w at_ state;
            Ok (w, book)
      end
  end.

(** ** Handing keys over to a footer *)

Definition LOCK_CHUNK : nat := 64.

Definition holds_at w state key (loc : Loc) : res bool :=
  existing ← map_at (ss_map state) key;
  Ok (match existing with
      | Some existing => loc_eqb (en_loc existing) loc && negb (Entry_is_grave existing) && negb (is_covered w key (en_lsn existing))
      | None => false
      end).

Definition WidthIndex_holds w key (loc : Loc) : res bool :=
  match from_slice key with
  | None => Ok false
  | Some key =>
      state ← shard_at w (shard_of w key);
      holds_at w state key loc
  end.

Definition lane_of w (lane lanes : Z) (by_shard : list (list nat)) (row : nat * (bytes * Loc)) : list (list nat) :=
  match from_slice row.2.1 with
  | None => by_shard
  | Some key =>
      let shard := shard_of w key in
      if shard mod lanes =? lane then alter (fun ats => ats ++ [row.1]) (Z.to_nat shard) by_shard else by_shard
  end.

Definition lane_shards w (rows : list (bytes * Loc)) (lane lanes : Z) : list (Z * list nat) :=
  let by_shard := fold_left (lane_of w lane lanes) (zip (seq 0 (length rows)) rows) (replicate (length (wi_shards w)) []) in
  List.filter (fun group => negb (length group.2 =? 0)%nat) (zip (seqZ 0 (len (wi_shards w))) by_shard).

(** A round hands out at most one slice of each group. *)
Definition in_turns (groups : list (Z * list nat)) (chunk : nat) : list (Z * list nat) :=
  let rounds := foldr Nat.max 0%nat (map (fun group => Nat.div (length group.2 + (chunk - 1)) chunk) groups) in
  concat (map (fun round =>
    omap (fun group : Z * list nat =>
      let start := (round * chunk)%nat in
      if (start <? length group.2)%nat then Some (group.1, take (Nat.min (start + chunk) (length group.2) - start) (drop start group.2)) else None) groups)
    (seq 0 rounds)).

(** One row of a chunk: given up when the map still points its key at that place. *)
Definition hand_over_row w (rows : list (bytes * Loc)) (acc : ShardState M * list bool * list (bytes * Loc)) (at_ : nat)
    : res (ShardState M * list bool * list (bytes * Loc)) :=
  let '(state, handed, firsts) := acc in
  '(key, loc) ← must (rows !! at_);
  match from_slice key with
  | None => Ok acc
  | Some key =>
      held ← holds_at w state key loc;
      if negb held then Ok acc
      else
        '(m, _) ← map_take (ss_map state) key;
        let state := with_map (with_counts state (ss_bytes state) (ss_graves state) (ss_paged state + 1)) m in
        Ok (state, <[at_ := true]> handed, firsts ++ [(key, loc)])
  end.

Definition page_out_chunk (rows : list (bytes * Loc)) (acc : WidthIndex M * list bool * list (bytes * Loc)) (turn : Z * list nat)
    : res (WidthIndex M * list bool * list (bytes * Loc)) :=
  let '(w, handed, firsts) := acc in
  state ← shard_at w turn.1;
  '(state, handed, firsts) ← foldm (hand_over_row w rows) turn.2 (state, handed, firsts);
  m ← map_pack_owed (ss_map state);
  w ← note_emptied w turn.1 (with_map state m);
  Ok (w, handed, firsts).

(** Which rows went, and the calls of [first] in the order they were made. *)
Definition WidthIndex_page_out_lane w (rows : list (bytes * Loc)) (lane lanes : Z) : res (WidthIndex M * list bool * list (bytes * Loc)) :=
  foldm (page_out_chunk rows) (in_turns (lane_shards w rows lane lanes) LOCK_CHUNK) (w, replicate (length rows) false, []).

Definition WidthIndex_page_out w key (loc : Loc) : res (WidthIndex M * bool) :=
  '(w, handed, _) ← WidthIndex_page_out_lane w [(key, loc)] 0 1;
  went ← must (hd_error handed);
  Ok (w, went).

(** ** Whole-column walks *)

(** Occupied shards in an inclusive range, each looked up as the walk reaches it. *)
Fixpoint occupied_walk (fuel : nat) w (low high : Z) : res (list Z) :=
  match fuel with
  | O => Ok []
  | S fuel =>
      next ← next_occupied w low high;
      match next with
      | None => Ok []
      | Some at_ => rest ← occupied_walk fuel w (at_ + 1) high; Ok (at_ :: rest)
      end
  end.

Definition occupied_range w (first last : Z) : res (list Z) := occupied_walk (S (length (wi_shards w))) w first last.

Definition hold_pair (acc : list (KeyBytes * Entry)) (pair : bytes * Entry) : list (KeyBytes * Entry) :=
  match KeyBytes_new pair.1 with Ok key => acc ++ [(key, pair.2)] | _ => acc end.

Definition WidthIndex_held w : res (list (KeyBytes * Entry)) :=
  shards ← occupied_range w 0 (len (wi_shards w) - 1);
  foldm (fun out at_ => state ← shard_at w at_; pairs ← map_walk (ss_map state); Ok (fold_left hold_pair pairs out)) shards [].

Definition WidthIndex_fit w : res (WidthIndex M) :=
  shards ← occupied_range w 0 (len (wi_shards w) - 1);
  foldm (fun w at_ => state ← shard_at w at_; m ← map_fit (ss_map state); Ok (with_shard w at_ (with_map state m))) shards w.

Definition clear_shard w (at_ : Z) : res (WidthIndex M) :=
  state ← shard_at w at_;
  let w := note_held_at w at_ true in
  let w := with_filters w (ShardFilters_clear (wi_filters w) at_) in
  Ok (with_shard w at_ (mkShardState (map_empty (ss_map state)) 0 0 (ss_oldest_grave state) 0)).

Definition WidthIndex_clear w : res (WidthIndex M) :=
  occupied ← occupied_shards w;
  w ← foldm clear_shard occupied w;
  Ok (with_covers (with_occupied w (TBTreeMap_clear (wi_occupied w))) [] false).

(** Swap in a rebuilt column, one shard at a time; the rebuilt one takes what stood. *)
Definition install_shard (acc : WidthIndex M * WidthIndex M) (at_ : Z) : res (WidthIndex M * WidthIndex M) :=
  let '(w, fresh) := acc in
  mine ← shard_at w at_;
  theirs ← shard_at fresh at_;
  let w := with_filters w (ShardFilters_widen (wi_filters w) at_ (wi_filters fresh)) in
  let w := with_shard w at_ theirs in
  let fresh := with_shard fresh at_ mine in
  let w := with_filters w (ShardFilters_copy (wi_filters w) at_ (wi_filters fresh)) in
  Ok (note_held_at w at_ (map_vacant (ss_map theirs)), fresh).

Definition WidthIndex_install w (fresh : WidthIndex M) : res (WidthIndex M * WidthIndex M) :=
  '(w, fresh) ← foldm install_shard (seqZ 0 (len (wi_shards w))) (w, fresh);
  let '(mine, theirs) := (wi_occupied w, wi_occupied fresh) in
  let '(stood, came) := (wi_covers w, wi_covers fresh) in
  let w := with_covers (with_occupied w theirs) came (negb (length came =? 0)%nat) in
  let fresh := with_covers (with_occupied fresh mine) stood (wi_has_covers fresh) in
  Ok (with_lifted w (Z.max (wi_lifted w) (wi_lifted fresh)), fresh).

(** ** Totals *)

Definition sum_shards w (amount : ShardState M -> Z) : res Z :=
  occupied ← occupied_shards w;
  foldm (fun sum at_ => state ← shard_at w at_; Ok (as_u64 (sum + amount state))) occupied 0.

Definition WidthIndex_grave_count w : res Z := sum_shards w ss_graves.
Definition WidthIndex_resident_keys w : res Z := sum_shards w (fun state => Z.of_nat (map_count (ss_map state))).

Record Totals := mkTotals { to_count : Z; to_bytes : Z }.

Definition WidthIndex_totals w : res Totals :=
  occupied ← occupied_shards w;
  foldm (fun t at_ => state ← shard_at w at_; Ok (mkTotals (as_u64 (to_count t + live_count state)) (as_u64 (to_bytes t + ss_bytes state)))) occupied (mkTotals 0 0).

Definition WidthIndex_prefix_totals w (prefix : bytes) : res (option Totals) :=
  if negb (len prefix =? wi_shard_bytes w) || (wi_shard_bytes w =? 0) then Ok None
  else if wi_declared_width w <? wi_shard_bytes w then Ok None
  else if WidthIndex_pending_overlaps w prefix prefix then Ok None
  else
    state ← shard_at w (shard_of w prefix);
    Ok (Some (mkTotals (live_count state) (ss_bytes state))).

(** ** Pages *)

Definition low_of (b : Bound bytes) : Bound bytes := map_bound low_bound b.

Definition high_of (b : Bound bytes) : Bound bytes :=
  match b with Unbounded => Unbounded | Included key => Included (high_bound key) | Excluded key => Excluded (low_bound key) end.

Definition shows w (judged : bool) (pair : bytes * Entry) : bool := judged || (negb (Entry_is_grave pair.2) && negb (is_covered w pair.1 (en_lsn pair.2))).

(** Push the keys that show until the page is full: the page, and whether it filled. *)
Fixpoint push_shown (show : bytes * Entry -> bool) (limit : Z) (pairs : list (bytes * Entry)) (out : KeyPage) : KeyPage * bool :=
  match pairs with
  | [] => (out, false)
  | item :: pairs =>
      if show item then
        let out := KeyPage_push out item.1 item.2 in
        if limit <=? KeyPage_len out then (out, true) else push_shown show limit pairs out
      else push_shown show limit pairs out
  end.

Definition page_run w (limit : Z) (run : list bytes * list Entry) (out : KeyPage) : KeyPage * bool :=
  let '(keys, entries) := run in
  let judged := kp_keeps_graves out in
  let covers := wi_has_covers w in
  let taken := Z.to_nat (Z.min (len keys) (limit - KeyPage_len out)) in
  let clean := judged || (negb covers && negb (existsb Entry_is_grave (take taken entries))) in
  let wide := match keys with key :: _ => len key | [] => 0 end in
  let '(out, was_packed) :=
    if clean then match packed (take taken keys) with Some bs => KeyPage_push_packed out bs wide (take taken entries) | None => (out, false) end
    else (out, false) in
  let '(out, full) := if was_packed then (out, false) else push_shown (shows w judged) limit (zip keys entries) out in
  (out, full || (limit <=? KeyPage_len out)).

Fixpoint page_runs w (limit : Z) (runs : list (list bytes * list Entry)) (out : KeyPage) : KeyPage * bool :=
  match runs with
  | [] => (out, false)
  | run :: runs => let '(out, full) := page_run w limit run out in if full then (out, true) else page_runs w limit runs out
  end.

Fixpoint page_shards w (first : Z) (start : Bound bytes) (limit : Z) (shards : list Z) (out : KeyPage) : res KeyPage :=
  match shards with
  | [] => Ok out
  | at_ :: shards =>
      let low := if at_ =? first then low_of start else Unbounded in
      state ← shard_at w at_;
      runs ← map_span_runs (ss_map state) low;
      let '(out, full) := page_runs w limit runs out in
      if full then Ok out else page_shards w first start limit shards out
  end.

Definition bound_shard w (b : Bound bytes) (open_end : Z) : Z := match b with Unbounded => open_end | Included key | Excluded key => shard_of w key end.

Definition WidthIndex_page w (start : Bound bytes) (limit : Z) (out : KeyPage) : res KeyPage :=
  let out := KeyPage_clear out in
  if limit =? 0 then Ok out
  else
    let first := bound_shard w start 0 in
    page_shards w first start limit (filled_range (wi_filled w) first (len (wi_shards w) - 1)) out.

Fixpoint page_back_shards w (last : Z) (end_ : Bound bytes) (limit : Z) (shards : list Z) (out : KeyPage) : res KeyPage :=
  match shards with
  | [] => Ok out
  | at_ :: shards =>
      let high := if at_ =? last then high_of end_ else Unbounded in
      state ← shard_at w at_;
      pairs ← map_span_back (ss_map state) Unbounded high;
      let '(out, full) := push_shown (shows w (kp_keeps_graves out)) limit pairs out in
      if full then Ok out else page_back_shards w last end_ limit shards out
  end.

Definition WidthIndex_page_back w (end_ : Bound bytes) (limit : Z) (out : KeyPage) : res KeyPage :=
  let out := KeyPage_clear out in
  if limit =? 0 then Ok out
  else
    let last := bound_shard w end_ (len (wi_shards w) - 1) in
    page_back_shards w last end_ limit (filled_back (wi_filled w) last) out.

End index.

(** ** Marks of a sweep *)

Definition NONCE_LEN : Z := 8.

Record ColumnMark := mkColumnMark { cm_nonce : Z; cm_after : bytes }.

Definition ColumnMark_pack (m : ColumnMark) : bytes := u64_le (cm_nonce m) ++ cm_after m.

Definition ColumnMark_unpack (packed : bytes) : option ColumnMark :=
  if len packed <? NONCE_LEN then None else Some (mkColumnMark (le_val (take 8 packed)) (drop 8 packed)).

(** The bytes of a mark read back as the mark, and bytes too short for one as none. *)
Lemma column_mark_roundtrip m : is_u64 (cm_nonce m) -> ColumnMark_unpack (ColumnMark_pack m) = Some m.
Proof.
  intros Hn; unfold ColumnMark_unpack, ColumnMark_pack, NONCE_LEN; assert (length (u64_le (cm_nonce m)) = 8%nat) as El by done.
  destruct (Z.ltb_spec (len (u64_le (cm_nonce m) ++ cm_after m)) 8) as [H|_]; [unfold len in H; rewrite length_app, El in H; lia|].
  rewrite <- El, take_app_length, drop_app_length, le_val_u64 by done; by destruct m.
Qed.
