(* ===== verification/ColumnRep.v ===== *)
(** * What a column's index holds ([index/column.rs])

    The invariant of a [WidthIndex]: each shard's map holds the keys of that shard, its counters count
    them, its filter passes them, its bit is set and it is on the walk. The lemmas say that the three
    ways an operation writes a shard back keep it, over any map and any key kind that keep their laws. *)
From S2P Require Import Prelude Error Arrays Bytes Lsn Column IndexEntry Counters Tally ShardFilter FilledBits TreeKey TBTree TBTreeRep TBTreeOps TBTreeInsert TBTreeWalk TBTreeMap SealedRanges ShardMap ColumnIndex.
#[local] Existing Instances number_key number_key_laws.

(** ** Weights of entries *)

Fixpoint weigh (f : Entry -> Z) (items : list (bytes * Entry)) : Z := match items with [] => 0 | (_, e) :: items => f e + weigh f items end.

Definition grave_weight (e : Entry) : Z := if Entry_is_grave e then 1 else 0.
Definition byte_weight (e : Entry) : Z := if Entry_is_grave e then 0 else loc_len (en_loc e).
Definition weight_at (f : Entry -> Z) (found : option Entry) : Z := match found with Some e => f e | None => 0 end.

Lemma held_assoc (items : list (bytes * Entry)) key e : StronglySorted bytes_lt (map fst items) -> (key, e) ∈ items -> assoc items key = Some e.
Proof. exact (@elem_assoc bytes Entry boxed_key boxed_key_laws items key e). Qed.

Lemma weigh_with f items key e : StronglySorted bytes_lt (map fst items) -> weigh f (with_item items key e) = weigh f items - weight_at f (assoc items key) + f e.
Proof.
  induction items as [|[k v] items IH]; cbn [map with_item weigh assoc weight_at fst]; [lia|]; intros [Hs Hk]%StronglySorted_inv.
  destruct (key_cmp key k) eqn:E; cbn [weigh].
  - apply key_cmp_eq in E as ->; rewrite (proj2 (key_eqb_eq k k)) by done; cbn [weight_at]; lia.
  - rewrite key_eqb_false by auto; rewrite assoc_over; [cbn [weight_at]; lia|].
    eapply Forall_impl; [exact Hk|]; intros k' Hk'; by eapply bytes_lt_trans.
  - apply key_cmp_gt in E; rewrite key_eqb_false by auto; rewrite IH by done; lia.
Qed.

Lemma weigh_without f items key : StronglySorted bytes_lt (map fst items) -> weigh f (without items key) = weigh f items - weight_at f (assoc items key).
Proof.
  unfold without; induction items as [|[k v] items IH]; cbn [map List.filter weigh assoc weight_at fst]; [lia|]; intros [Hs Hk]%StronglySorted_inv; specialize (IH Hs).
  destruct (key_eqb k key) eqn:E; cbn [negb weigh weight_at]; [| lia]; apply key_eqb_eq in E as ->; rewrite assoc_over in IH by done; cbn [weight_at] in IH; lia.
Qed.

Lemma weigh_nonneg f items : (forall e, 0 <= f e) -> 0 <= weigh f items.
Proof. intros Hf; induction items as [|[k e] items IH]; cbn [weigh]; [lia|]; specialize (Hf e); lia. Qed.

Lemma without_sub (items : list (bytes * Entry)) key x : x ∈ without items key -> x ∈ items.
Proof. unfold without; rewrite !list_elem_of_In, filter_In; tauto. Qed.

Lemma with_item_elem (items : list (bytes * Entry)) key e x : x ∈ with_item items key e -> x = (key, e) \/ x ∈ items.
Proof.
  induction items as [|[k v] items IH]; cbn [with_item]; [set_solver|]; destruct (key_cmp key k); rewrite !elem_of_cons; naive_solver.
Qed.

Lemma with_item_nonempty (items : list (bytes * Entry)) key e : with_item items key e <> [].
Proof. destruct items as [|[k v] items]; cbn [with_item]; [done|]; by destruct (key_cmp key k). Qed.

(** ** Shards *)

Definition shard_spec (shard_bytes : Z) : ColumnSpec := mkColumnSpec 0 EmptyString Variable_ shard_bytes None Lz4.

Lemma shard_of_bytes_range sb key : 0 <= sb <= 2 -> 0 <= shard_of_bytes sb key < 2 ^ (8 * sb).
Proof.
  intros Hsb; destruct (shard_of_ordered (shard_spec sb) key key) as [H1 H2]; [cbn; lia | unfold bytes_le; by rewrite bytes_cmp_refl |].
  unfold ColumnSpec_shard_count in H2; cbn [shard_spec cs_shard_bytes] in H2; rewrite Z.shiftl_1_l in H2; split; [apply H1 | exact H2].
Qed.

Lemma shard_of_bytes_mono sb a b : 0 <= sb <= 2 -> bytes_le a b -> shard_of_bytes sb a <= shard_of_bytes sb b.
Proof. intros Hsb Hle; destruct (shard_of_ordered (shard_spec sb) a b) as [H1 H2]; [cbn; lia | done | apply H1]. Qed.

Lemma shard_of_bytes_lt sb a b : 0 <= sb <= 2 -> shard_of_bytes sb a < shard_of_bytes sb b -> bytes_lt a b.
Proof.
  intros Hsb Hlt; destruct (bytes_ltb a b) eqn:E; [by apply bytes_ltb_lt|]; apply bytes_ltb_ge in E; pose proof (shard_of_bytes_mono sb b a Hsb E); lia.
Qed.

(** A shard's keys and the bytes of its keys that are in a footer. *)
Abbreviation Kept := (list (bytes * Entry) * Z)%type.

Definition entry_of (sb : Z) (gs : list Kept) (key : bytes) : option Entry := assoc (default ([], 0) (gs !! Z.to_nat (shard_of_bytes sb key))).1 key.

Section rep.
Context {M : Type} {IK : IndexKey} {IKL : IndexKeyLaws} {SM : ShardMap M Entry} {SML : ShardMapLaws M Entry}.
Implicit Types (w : WidthIndex M) (state : ShardState M) (gs : list Kept) (g : Kept) (occ : list (Z * unit)).

(** What the shard itself says. *)
Record body_ok (sb at_ : Z) state g : Prop := {
  bo_map : map_rep (ss_map state) g.1;
  bo_here : Forall (fun pair => shard_of_bytes sb pair.1 = at_) g.1;
  bo_graves : ss_graves state = weigh grave_weight g.1;
  bo_oldest : Forall (fun pair => Entry_is_grave pair.2 = true -> ss_oldest_grave state <= en_lsn pair.2) g.1;
  bo_bytes : ss_bytes state = weigh byte_weight g.1 + g.2;
  bo_over : 0 <= g.2;
  bo_lens : Forall (fun pair => 0 <= loc_len (en_loc pair.2)) g.1;
  bo_u64 : ss_bytes state < U64;
  bo_paged : 0 <= ss_paged state;
}.

(** What the column keeps about it. *)
Record kept_ok (filters : ShardFilters) (filled : list Z) occ (at_ : Z) state g : Prop := {
  ko_pass : Forall (fun pair => ShardFilters_may_hold filters at_ (filter_hash pair.1) = true) g.1;
  ko_filled : g.1 <> [] -> is_filled filled at_ = true;
  ko_walked : g.1 <> [] \/ ss_paged state <> 0 -> assoc occ at_ = Some tt;
}.

Record index_ok w gs occ : Prop := {
  io_bytes : 0 <= wi_shard_bytes w <= 2;
  io_count : len (wi_shards w) = 2 ^ (8 * wi_shard_bytes w);
  io_kept : length gs = length (wi_shards w);
  io_filters : filters_ok (len (wi_shards w)) (wi_filters w);
  io_words : len (wi_shards w) <= 64 * len (wi_filled w);
  io_filled : Forall is_u64 (wi_filled w);
  io_walk : holds NODE_WIDTH (wi_occupied w) occ;
  io_within : Forall (fun pair => 0 <= pair.1 < len (wi_shards w)) occ;
  io_covers : wi_has_covers w = negb (length (wi_covers w) =? 0)%nat;
  io_shard at_ state g : 0 <= at_ -> wi_shards w !! Z.to_nat at_ = Some state -> gs !! Z.to_nat at_ = Some g ->
    body_ok (wi_shard_bytes w) at_ state g /\ kept_ok (wi_filters w) (wi_filled w) occ at_ state g;
}.

(** Nothing but the shards and what is kept about them changed. *)
Record same_frame w w' : Prop := {
  sf_covers : wi_covers w' = wi_covers w;
  sf_has_covers : wi_has_covers w' = wi_has_covers w;
  sf_lifted : wi_lifted w' = wi_lifted w;
  sf_declared : wi_declared_width w' = wi_declared_width w;
  sf_bytes : wi_shard_bytes w' = wi_shard_bytes w;
  sf_count : length (wi_shards w') = length (wi_shards w);
}.

#[export] Instance same_frame_refl : Reflexive same_frame.
Proof. by constructor. Qed.

#[export] Instance same_frame_trans : Transitive same_frame.
Proof. intros w1 w2 w3 [] []; constructor; congruence. Qed.

Ltac same_parts := constructor; cbn [note_held_at note_key with_filled with_filters with_occupied with_shard wi_covers wi_has_covers wi_lifted wi_declared_width wi_shard_bytes wi_shards]; rewrite ?length_insert; done.

Definition in_column w (at_ : Z) : Prop := 0 <= at_ < len (wi_shards w).

Lemma key_in_column w gs occ key : index_ok w gs occ -> in_column w (shard_of w key).
Proof. intros Hw; unfold in_column; rewrite (io_count _ _ _ Hw); apply shard_of_bytes_range, Hw. Qed.

Lemma shard_ok w gs occ at_ : index_ok w gs occ -> in_column w at_ -> exists state g,
  shard_at w at_ = Ok state /\ wi_shards w !! Z.to_nat at_ = Some state /\ gs !! Z.to_nat at_ = Some g
  /\ body_ok (wi_shard_bytes w) at_ state g /\ kept_ok (wi_filters w) (wi_filled w) occ at_ state g.
Proof.
  intros Hw [H0 Hlt]; destruct (lookup_lt_is_Some_2 (wi_shards w) (Z.to_nat at_)) as [state Es]; [unfold len in *; lia|].
  destruct (lookup_lt_is_Some_2 gs (Z.to_nat at_)) as [g Eg]; [rewrite (io_kept _ _ _ Hw); unfold len in *; lia|].
  destruct (io_shard _ _ _ Hw at_ state g H0 Es Eg) as [Hb Hk]; exists state, g; split_and!; [| done | done | done | done].
  unfold shard_at, get; rewrite (proj2 (Z.leb_le 0 at_) H0), (proj2 (Z.ltb_lt _ _) Hlt); cbn [andb]; by rewrite Es.
Qed.

(** ** Writing a shard back *)

Lemma replaced_ok w w' gs occ occ' at_ state' g' : index_ok w gs occ -> in_column w at_ -> same_frame w w' ->
  wi_shards w' = <[Z.to_nat at_ := state']> (wi_shards w) ->
  filters_ok (len (wi_shards w)) (wi_filters w') ->
  (forall s h, 0 <= s -> s <> at_ -> ShardFilters_may_hold (wi_filters w) s h = true -> ShardFilters_may_hold (wi_filters w') s h = true) ->
  len (wi_filled w') = len (wi_filled w) -> Forall is_u64 (wi_filled w') -> (forall s, 0 <= s -> s <> at_ -> is_filled (wi_filled w') s = is_filled (wi_filled w) s) ->
  holds NODE_WIDTH (wi_occupied w') occ' -> Forall (fun pair => 0 <= pair.1 < len (wi_shards w)) occ' -> (forall s, s <> at_ -> assoc occ' s = assoc occ s) ->
  body_ok (wi_shard_bytes w) at_ state' g' -> kept_ok (wi_filters w') (wi_filled w') occ' at_ state' g' ->
  index_ok w' (<[Z.to_nat at_ := g']> gs) occ'.
Proof.
  intros [Hsb Hc Hk Hf Hwd Hfi Hwk Hwi Hco Hsh] [H0 Hlt] Hsf Es Hf' Hpass El Hu Hbit Hwk' Hwi' Hocc Hbody Hkept.
  assert (len (wi_shards w') = len (wi_shards w)) as Ec by (unfold len; by rewrite (sf_count _ _ Hsf)).
  split; rewrite ?Ec, ?(sf_bytes _ _ Hsf), ?El, ?(sf_covers _ _ Hsf), ?(sf_has_covers _ _ Hsf); try done; [rewrite length_insert, (sf_count _ _ Hsf); done|].
  intros s state g Hs; rewrite Es; destruct (decide (s = at_)) as [->|Hne].
  - rewrite !list_lookup_insert_eq by (rewrite ?Hk; unfold len in *; lia); intros [= <-] [= <-]; done.
  - rewrite !list_lookup_insert_ne by lia; intros E1 E2; destruct (Hsh s state g Hs E1 E2) as [Hb' [Hp Hfl Hw']]; split; [done|]; split.
    + eapply Forall_impl; [exact Hp|]; intros pair; by apply Hpass.
    + intros Hn; rewrite Hbit by done; auto.
    + intros Hn; rewrite Hocc by done; auto.
Qed.

Lemma with_shard_frame w at_ state : same_frame w (with_shard w at_ state).
Proof. same_parts. Qed.

(** A shard written back with no key it did not have. *)
Lemma stay_ok w gs occ at_ state g state' g' : index_ok w gs occ -> in_column w at_ -> wi_shards w !! Z.to_nat at_ = Some state -> gs !! Z.to_nat at_ = Some g ->
  body_ok (wi_shard_bytes w) at_ state' g' -> Forall (fun pair => ShardFilters_may_hold (wi_filters w) at_ (filter_hash pair.1) = true) g'.1 ->
  (g'.1 <> [] -> g.1 <> []) -> (ss_paged state' <> 0 -> g.1 <> [] \/ ss_paged state <> 0) ->
  index_ok (with_shard w at_ state') (<[Z.to_nat at_ := g']> gs) occ.
Proof.
  intros Hw Hat Es Eg Hb Hp Hn Hpg; destruct (io_shard _ _ _ Hw at_ state g (proj1 Hat) Es Eg) as [_ [_ Hf Hwk]].
  apply (replaced_ok w _ gs occ occ at_ state' g'); try done; [apply with_shard_frame | apply Hw | apply Hw | apply Hw | apply Hw |].
  split; [done | auto |]; intros [?|?]; auto.
Qed.

Lemma note_key_ok w gs occ at_ key : index_ok w gs occ -> in_column w at_ ->
  index_ok (note_key w at_ key) gs occ /\ ShardFilters_may_hold (wi_filters (note_key w at_ key)) at_ (filter_hash key) = true.
Proof.
  intros Hw Hat; pose proof (io_filters _ _ _ Hw) as Hf; split; [| by apply (note_holds (len (wi_shards w)))].
  destruct Hw as [H1 H2 H3 H4 H5 H6 H7 H8 H9 H10]; split; try done; [by apply note_ok|].
  intros s state g Hs Es Eg; destruct (H10 s state g Hs Es Eg) as [Hb [Hp Hfl Hwk]]; split; [done|]; split; [| done | done].
  eapply Forall_impl; [exact Hp|]; intros pair Hpass; by apply (note_keeps (len (wi_shards w))).
Qed.

Lemma note_key_frame w at_ key : same_frame w (note_key w at_ key).
Proof. same_parts. Qed.

Lemma shard_u64 w gs occ at_ : index_ok w gs occ -> in_column w at_ -> is_u64 at_ /\ 0 <= at_ / 64 < len (wi_filled w).
Proof.
  intros Hw [H0 Hlt]; pose proof (io_words _ _ _ Hw); pose proof (io_bytes _ _ _ Hw); assert (len (wi_shards w) <= 2 ^ 16).
  { rewrite (io_count _ _ _ Hw); apply Z.pow_le_mono_r; lia. }
  split; [unfold is_u64, U64; lia|]; split; [apply Z.div_pos; lia | apply Z.div_lt_upper_bound; lia].
Qed.

Lemma shard_word_stands w gs occ at_ : index_ok w gs occ -> in_column w at_ -> exists word, get (wi_filled w) (at_ / 64) = Some word.
Proof. intros Hw Hat; apply get_is_Some; apply (shard_u64 _ _ _ _ Hw Hat). Qed.

Lemma held_bit w gs occ at_ vacant : index_ok w gs occ -> in_column w at_ ->
  len (wi_filled (note_held_at w at_ vacant)) = len (wi_filled w) /\ Forall is_u64 (wi_filled (note_held_at w at_ vacant))
  /\ forall s, 0 <= s -> is_filled (wi_filled (note_held_at w at_ vacant)) s = if s =? at_ then negb vacant else is_filled (wi_filled w) s.
Proof.
  intros Hw Hat; destruct (shard_u64 _ _ _ _ Hw Hat) as [_ H64]; cbn [note_held_at with_filled wi_filled].
  split_and!; [apply note_held_len | apply note_held_u64, Hw | intros; by apply note_held_bit].
Qed.

(** A shard written back once a key has landed in it. *)
Lemma landed_ok scan w gs occ at_ state g state' g' : index_ok w gs occ -> in_column w at_ -> wi_shards w !! Z.to_nat at_ = Some state -> gs !! Z.to_nat at_ = Some g ->
  roomy (wi_occupied w) -> body_ok (wi_shard_bytes w) at_ state' g' -> Forall (fun pair => ShardFilters_may_hold (wi_filters w) at_ (filter_hash pair.1) = true) g'.1 ->
  g'.1 <> [] ->
  exists w' occ', landed_in scan w at_ state' (map_vacant (ss_map state)) = Ok w' /\ index_ok w' (<[Z.to_nat at_ := g']> gs) occ' /\ same_frame w w'.
Proof.
  intros Hw Hat Es Eg Hroom Hb Hp Hn; destruct (io_shard _ _ _ Hw at_ state g (proj1 Hat) Es Eg) as [Hbody [_ _ Hwk]].
  destruct (held_bit w gs occ at_ (map_vacant (ss_map state')) Hw Hat) as (El & Hu & Hbit); destruct (shard_u64 _ _ _ _ Hw Hat) as [H64 _].
  assert (map_vacant (ss_map state') = false) as Ev by (rewrite (rep_vacant _ _ (bo_map _ _ _ _ Hb)); by destruct g'.1).
  unfold landed_in, note_filled; rewrite (rep_vacant _ _ (bo_map _ _ _ _ Hbody)); destruct g.1 as [|x rest] eqn:Eitems.
  - destruct (insert_ok scan NODE_WIDTH node_width_ok (wi_occupied w) occ at_ tt (io_walk _ _ _ Hw) H64 Hroom) as (t' & E & Ht').
    cbn [with_shard wi_occupied]; rewrite E; res_simpl; eexists _, (with_item occ at_ tt); split; [done|]; split; [| same_parts].
    apply (replaced_ok w _ gs occ _ at_ state' g'); try done.
    + same_parts.
    + apply Hw.
    + intros s Hs Hne; etrans; [by apply Hbit|]; by destruct (Z.eqb_spec s at_).
    + apply Forall_forall; intros [k []] Hin; assert (k ∈ map fst (with_item occ at_ tt)) as Hk by (apply (list_elem_of_fmap_2 fst _ _ Hin)).
      apply with_item_keys in Hk as [->|Hk]; [exact Hat|]; apply list_elem_of_fmap in Hk as (p & -> & Hk); pose proof (io_within _ _ _ Hw) as Hi; rewrite Forall_forall in Hi; exact (Hi _ Hk).
    + intros s Hne; rewrite assoc_with_item; destruct (key_eqb at_ s) eqn:Ek; [apply key_eqb_eq in Ek; congruence | done].
    + split; [exact Hp | intros _; etrans; [apply Hbit, Hat|]; by rewrite Z.eqb_refl, Ev | intros _; rewrite assoc_with_item; by rewrite (proj2 (key_eqb_eq at_ at_))].
  - res_simpl; eexists _, occ; split; [done|]; split; [| same_parts].
    apply (replaced_ok w _ gs occ _ at_ state' g'); try done.
    + same_parts.
    + apply Hw.
    + intros s Hs Hne; etrans; [by apply Hbit|]; by destruct (Z.eqb_spec s at_).
    + apply Hw.
    + apply Hw.
    + split; [exact Hp | intros _; etrans; [apply Hbit, Hat|]; by rewrite Z.eqb_refl, Ev | intros _; apply Hwk; by left].
Qed.

Lemma emptied_body sb at_ state g m : body_ok sb at_ state g -> g.1 = [] -> map_rep m [] -> body_ok sb at_ (with_map state m) g.
Proof. intros [Hm Hh Hg Ho Hb Hov Hl Hu Hpg] E Hr; split; try done; cbn [with_map ss_map]; by rewrite E. Qed.

(** A shard written back once keys have left it. *)
Lemma emptied_ok scan w gs occ at_ state g state' g' : index_ok w gs occ -> in_column w at_ -> wi_shards w !! Z.to_nat at_ = Some state -> gs !! Z.to_nat at_ = Some g ->
  body_ok (wi_shard_bytes w) at_ state' g' -> Forall (fun pair => ShardFilters_may_hold (wi_filters w) at_ (filter_hash pair.1) = true) g'.1 ->
  (g'.1 <> [] -> g.1 <> []) -> (ss_paged state' <> 0 -> g.1 <> [] \/ ss_paged state <> 0) ->
  exists w' occ', note_emptied scan w at_ state' = Ok w' /\ index_ok w' (<[Z.to_nat at_ := g']> gs) occ' /\ same_frame w w'.
Proof.
  intros Hw Hat Es Eg Hb Hp Hn Hpg; unfold note_emptied; rewrite (rep_vacant _ _ (bo_map _ _ _ _ Hb)); destruct g'.1 as [|x rest] eqn:Eitems; cbn [andb].
  2:{ eexists _, occ; split; [done|]; split; [| apply with_shard_frame]; eapply stay_ok; try done; rewrite ?Eitems; done. }
  destruct (io_shard _ _ _ Hw at_ state g (proj1 Hat) Es Eg) as [_ [_ _ Hwk]].
  set (cleared := with_filters w (ShardFilters_clear (wi_filters w) at_)).
  destruct (held_bit w gs occ at_ true Hw Hat) as (El & Hu & Hbit); destruct (shard_u64 _ _ _ _ Hw Hat) as [H64 _].
  destruct (clear_ok (len (wi_shards w)) (wi_filters w) at_ (io_filters _ _ _ Hw) Hat) as (Hf' & _ & Hpass).
  destruct (Z.eqb_spec (ss_paged state') 0) as [E0|Hne].
  - destruct (remove_ok scan NODE_WIDTH node_width_ok (wi_occupied w) occ at_ (io_walk _ _ _ Hw) H64) as (t' & E & Ht' & _).
    unfold cleared; cbn [note_held_at with_filters with_filled wi_occupied]; rewrite E; res_simpl; eexists _, (without occ at_); split; [done|]; split; [| same_parts].
    apply (replaced_ok w _ gs occ _ at_ (with_map state' (map_release (ss_map state'))) g'); try done.
    + same_parts.
    + intros s h Hs Hne E'; etrans; [by apply Hpass | done].
    + intros s Hs Hne; etrans; [by apply Hbit|]; by destruct (Z.eqb_spec s at_).
    + apply Forall_forall; intros p Hin; unfold without in Hin; apply list_elem_of_In, filter_In in Hin as [Hin%list_elem_of_In _]; pose proof (io_within _ _ _ Hw) as Hi; rewrite Forall_forall in Hi; exact (Hi _ Hin).
    + intros s Hne; rewrite assoc_without; destruct (key_eqb at_ s) eqn:Ek; [apply key_eqb_eq in Ek; congruence | done].
    + apply emptied_body; [done | done | apply rep_release].
    + split; rewrite ?Eitems; [done | done |]; intros [?|?]; done.
  - eexists _, occ; split; [done|]; split; [| same_parts]; apply (replaced_ok w _ gs occ _ at_ state' g'); try done.
    + same_parts.
    + intros s h Hs Hne' E'; etrans; [by apply Hpass | done].
    + intros s Hs Hne'; etrans; [by apply Hbit|]; by destruct (Z.eqb_spec s at_).
    + apply Hw.
    + apply Hw.
    + split; rewrite ?Eitems; [done | done | intros _; apply Hwk; auto].
Qed.

(** ** The entry of a key *)

Lemma entry_of_here w gs occ key g : index_ok w gs occ -> gs !! Z.to_nat (shard_of w key) = Some g -> entry_of (wi_shard_bytes w) gs key = assoc g.1 key.
Proof. intros _ E; unfold entry_of; unfold shard_of in E; by rewrite E. Qed.

Lemma entry_of_update sb gs at_ g g' key : 0 <= sb <= 2 -> 0 <= at_ -> gs !! Z.to_nat at_ = Some g ->
  entry_of sb (<[Z.to_nat at_ := g']> gs) key = if shard_of_bytes sb key =? at_ then assoc g'.1 key else entry_of sb gs key.
Proof.
  intros Hsb Hat Eg; unfold entry_of; pose proof (shard_of_bytes_range sb key Hsb); destruct (Z.eqb_spec (shard_of_bytes sb key) at_) as [->|Hne].
  - by rewrite list_lookup_insert_eq by (by eapply lookup_lt_Some).
  - by rewrite list_lookup_insert_ne by lia.
Qed.

Lemma entry_of_put sb gs at_ items pb pb' key0 e key : 0 <= sb <= 2 -> at_ = shard_of_bytes sb key0 -> gs !! Z.to_nat at_ = Some (items, pb) ->
  entry_of sb (<[Z.to_nat at_ := (with_item items key0 e, pb')]> gs) key = if key_eqb key0 key then Some e else entry_of sb gs key.
Proof.
  intros Hsb -> Eg; pose proof (shard_of_bytes_range sb key0 Hsb) as H; rewrite (entry_of_update sb gs (shard_of_bytes sb key0) _ _ key Hsb (proj1 H) Eg); cbn [fst].
  rewrite assoc_with_item; destruct (key_eqb key0 key) eqn:Ek; [apply key_eqb_eq in Ek as ->; by rewrite Z.eqb_refl|].
  destruct (Z.eqb_spec (shard_of_bytes sb key) (shard_of_bytes sb key0)) as [E|]; [| done]; unfold entry_of; by rewrite E, Eg.
Qed.

Lemma entry_of_drop sb gs at_ items pb pb' key0 key : 0 <= sb <= 2 -> at_ = shard_of_bytes sb key0 -> gs !! Z.to_nat at_ = Some (items, pb) ->
  entry_of sb (<[Z.to_nat at_ := (without items key0, pb')]> gs) key = if key_eqb key0 key then None else entry_of sb gs key.
Proof.
  intros Hsb -> Eg; pose proof (shard_of_bytes_range sb key0 Hsb) as H; rewrite (entry_of_update sb gs (shard_of_bytes sb key0) _ _ key Hsb (proj1 H) Eg); cbn [fst].
  rewrite assoc_without; destruct (key_eqb key0 key) eqn:Ek; [apply key_eqb_eq in Ek as ->; by rewrite Z.eqb_refl|].
  destruct (Z.eqb_spec (shard_of_bytes sb key) (shard_of_bytes sb key0)) as [E|]; [| done]; unfold entry_of; by rewrite E, Eg.
Qed.

Lemma entry_of_same sb gs at_ g g' key : 0 <= sb <= 2 -> 0 <= at_ -> gs !! Z.to_nat at_ = Some g -> g'.1 = g.1 -> entry_of sb (<[Z.to_nat at_ := g']> gs) key = entry_of sb gs key.
Proof.
  intros Hsb Hat Eg E; rewrite (entry_of_update _ _ _ _ _ _ Hsb Hat Eg), E; destruct (Z.eqb_spec (shard_of_bytes sb key) at_) as [<-|]; [| done].
  unfold entry_of; by rewrite Eg.
Qed.

Lemma entry_accepted w gs occ key e : index_ok w gs occ -> entry_of (wi_shard_bytes w) gs key = Some e -> accepts key = true.
Proof.
  intros Hw; destruct (shard_ok w gs occ _ Hw (key_in_column _ _ _ key Hw)) as (state & g & _ & _ & Eg & Hb & _); rewrite (entry_of_here _ _ _ _ _ Hw Eg).
  intros Hin%assoc_elem; pose proof (rep_keys _ _ (bo_map _ _ _ _ Hb)) as Hk; rewrite Forall_forall in Hk; apply Hk, (list_elem_of_fmap_2 fst _ _ Hin).
Qed.

(** ** Reads *)

(** The entry a read shows: no grave, and nothing a range delete took. *)
Definition shown (covers : list Covered) (key : bytes) (found : option Entry) : option Entry :=
  match found with
  | Some e => if Entry_is_grave e || existsb (fun cover => Covered_covers cover key (en_lsn e)) covers then None else Some e
  | None => None
  end.

Lemma is_covered_ok w gs occ key lsn : index_ok w gs occ -> is_covered w key lsn = existsb (fun cover => Covered_covers cover key lsn) (wi_covers w).
Proof. intros Hw; unfold is_covered; rewrite (io_covers _ _ _ Hw); by destruct (wi_covers w). Qed.

Lemma entry_or_grave_ok w gs occ key : index_ok w gs occ -> WidthIndex_entry_or_grave w key = Ok (entry_of (wi_shard_bytes w) gs key).
Proof.
  intros Hw; unfold WidthIndex_entry_or_grave; destruct (shard_ok w gs occ _ Hw (key_in_column _ _ _ key Hw)) as (state & g & Est & _ & Eg & Hb & [Hp _ _]).
  pose proof (entry_of_here _ _ _ _ _ Hw Eg) as Ee; destruct (accepts key) eqn:Ea; cbn [negb].
  2:{ destruct (entry_of _ gs key) eqn:E; [| done]; apply (entry_accepted _ _ _ _ _ Hw) in E; congruence. }
  destruct (ShardFilters_may_hold _ _ _) eqn:Ef; cbn [negb]; [rewrite Est; res_simpl; rewrite (rep_at _ _ key (bo_map _ _ _ _ Hb) Ea); by rewrite Ee|].
  rewrite Ee; destruct (assoc g.1 key) eqn:E; [| done]; apply assoc_elem in E; rewrite Forall_forall in Hp; specialize (Hp _ E); cbn [fst] in Hp; congruence.
Qed.

Lemma get_eq w key : WidthIndex_get w key = (found ← WidthIndex_entry_or_grave w key; Ok (match found with Some e => if Entry_is_grave e || is_covered w key (en_lsn e) then None else Some e | None => None end)).
Proof.
  unfold WidthIndex_get, WidthIndex_entry_or_grave; destruct (negb (accepts key)); [done|]; destruct (negb _); [done|]; destruct (shard_at w _) as [state| |]; [| done | done]; res_simpl.
  destruct (map_at _ key) as [[e|]| |]; [| done | done | done]; res_simpl; by destruct (_ || _).
Qed.

Lemma index_get_ok w gs occ key : index_ok w gs occ -> WidthIndex_get w key = Ok (shown (wi_covers w) key (entry_of (wi_shard_bytes w) gs key)).
Proof.
  intros Hw; rewrite get_eq, (entry_or_grave_ok _ _ _ _ Hw); res_simpl; unfold shown; destruct (entry_of _ gs key); [| done]; by rewrite (is_covered_ok _ _ _ _ _ Hw).
Qed.
End rep.
