(* ===== verification/ColumnWrites.v ===== *)
(** * Puts and deletes of a column ([index/column.rs])

    What an insert and a remove do to the keys a column holds: the newest version of a key stays, a
    write a range delete already took is refused, and every counter follows. *)
From S2P Require Import Prelude Error Arrays Bytes Lsn Column IndexEntry Counters Tally ShardFilter FilledBits TreeKey TBTree TBTreeRep TBTreeOps TBTreeInsert SealedRanges ShardMap ColumnIndex ColumnRep.

Section writes.
Context {M Book : Type} {IK : IndexKey} {IKL : IndexKeyLaws} {SM : ShardMap M Entry} {SML : ShardMapLaws M Entry} {BK : Bookings Book}.
Variable scan : Scan.
Implicit Types (w : WidthIndex M) (state : ShardState M) (gs : list Kept) (g : Kept) (occ : list (Z * unit)) (book : Book) (key : bytes) (entry : Entry).

(** Room for what one write may add. *)
Record room w : Prop := {
  ro_walk : roomy (wi_occupied w);
  ro_map : Forall (fun state => map_room (ss_map state)) (wi_shards w);
  ro_bytes : Forall (fun state => ss_bytes state + U32 <= U64) (wi_shards w);
  ro_count : Forall (fun state => Z.of_nat (map_count (ss_map state)) < 2 ^ 30) (wi_shards w);
}.

Lemma room_at w at_ state : room w -> wi_shards w !! at_ = Some state -> map_room (ss_map state) /\ ss_bytes state + U32 <= U64.
Proof. intros [_ Hm Hb _] E; rewrite !Forall_lookup in *; eauto. Qed.

Lemma byte_weight_range e : 0 <= loc_len (en_loc e) -> 0 <= byte_weight e.
Proof. unfold byte_weight; destruct (Entry_is_grave e); lia. Qed.

Lemma body_bytes sb at_ state g : body_ok sb at_ state g -> 0 <= ss_bytes state < U64 /\ forall key e, assoc g.1 key = Some e -> byte_weight e <= ss_bytes state - g.2 /\ 0 <= byte_weight e.
Proof.
  intros [_ _ _ _ Hb Ho Hl Hu _]; assert (0 <= weigh byte_weight g.1) as H0.
  { clear -Hl; induction Hl as [|[k e] l He _ IH]; cbn [weigh]; [lia|]; pose proof (byte_weight_range e He); lia. }
  split; [lia|]; intros key e He; assert (byte_weight e <= weigh byte_weight g.1 /\ 0 <= byte_weight e); [| lia].
  clear Hb Ho Hu; revert He; induction Hl as [|[k e'] l He' Hl IH]; cbn [assoc weigh]; [done|]; pose proof (byte_weight_range e' He').
  assert (0 <= weigh byte_weight l) by (clear -Hl; induction Hl as [|[k e] l He _ IH]; cbn [weigh]; [lia|]; pose proof (byte_weight_range e He); lia).
  destruct (key_eqb k key); [intros [= ->]; lia|]; intros E; cbn [weigh] in *; specialize (IH ltac:(lia) E); lia.
Qed.

Lemma body_sorted sb at_ state g : body_ok sb at_ state g -> StronglySorted bytes_lt (map fst g.1).
Proof. intros Hb; by eapply rep_sorted, Hb. Qed.

(** A shard with one key put. *)
Lemma put_body sb at_ state g key e m' bytes_ graves oldest : body_ok sb at_ state g -> shard_of_bytes sb key = at_ -> 0 <= loc_len (en_loc e) ->
  map_rep m' (with_item g.1 key e) ->
  bytes_ = ss_bytes state - weight_at byte_weight (assoc g.1 key) + byte_weight e -> bytes_ < U64 ->
  graves = ss_graves state - weight_at grave_weight (assoc g.1 key) + grave_weight e ->
  oldest <= ss_oldest_grave state -> (Entry_is_grave e = true -> oldest <= en_lsn e) ->
  body_ok sb at_ (mkShardState m' bytes_ graves oldest (ss_paged state)) (with_item g.1 key e, g.2).
Proof.
  intros Hb Hk Hl Hm -> Hu -> Ho Hog; pose proof (body_sorted _ _ _ _ Hb) as Hs; destruct Hb as [_ Hh Hg Hold Hby Hov Hln _ Hpg].
  split; cbn [fst snd ss_map ss_bytes ss_graves ss_oldest_grave ss_paged]; try done.
  - apply Forall_forall; intros x [->|Hin]%with_item_elem; [done|]; rewrite Forall_forall in Hh; by apply Hh.
  - rewrite weigh_with by done; lia.
  - apply Forall_forall; intros x [->|Hin]%with_item_elem; [done|]; rewrite Forall_forall in Hold; intros Hgr; specialize (Hold x Hin Hgr); lia.
  - rewrite weigh_with by done; lia.
  - apply Forall_forall; intros x [->|Hin]%with_item_elem; [done|]; rewrite Forall_forall in Hln; by apply Hln.
Qed.

(** A shard with one key taken. *)
Lemma take_body sb at_ state g key m' bytes_ graves : body_ok sb at_ state g -> map_rep m' (without g.1 key) ->
  bytes_ = ss_bytes state - weight_at byte_weight (assoc g.1 key) -> graves = ss_graves state - weight_at grave_weight (assoc g.1 key) ->
  body_ok sb at_ (mkShardState m' bytes_ graves (ss_oldest_grave state) (ss_paged state)) (without g.1 key, g.2).
Proof.
  intros Hb Hm -> ->; pose proof (body_sorted _ _ _ _ Hb) as Hs; pose proof (proj2 (body_bytes _ _ _ _ Hb) key) as Hw; destruct Hb as [_ Hh Hg Hold Hby Hov Hln Hu Hpg].
  assert (forall P : bytes * Entry -> Prop, Forall P g.1 -> Forall P (without g.1 key)) as Hsub.
  { intros P HP; apply Forall_forall; intros x Hx%without_sub; rewrite Forall_forall in HP; auto. }
  split; cbn [fst snd ss_map ss_bytes ss_graves ss_oldest_grave ss_paged]; auto.
  - rewrite weigh_without by done; lia.
  - rewrite weigh_without by done; lia.
  - destruct (assoc g.1 key) as [e|]; cbn [weight_at]; [specialize (Hw e eq_refl); lia | lia].
Qed.

(** The answers of a column about its keys. *)
Definition updates sb gs gs' key (e : Entry) : Prop := (forall key', entry_of sb gs' key' = if key_eqb key key' then Some e else entry_of sb gs key') /\ map snd gs' = map snd gs.
Definition same_keys sb gs gs' : Prop := (forall key', entry_of sb gs' key' = entry_of sb gs key') /\ map snd gs' = map snd gs.

Lemma map_snd_insert gs (n : nat) items pb items' : gs !! n = Some (items, pb) -> map snd (<[n := (items', pb)]> gs) = map snd gs.
Proof. revert n; induction gs as [|g gs IH]; intros [|n]; try done; cbn; [by intros [= ->] | intros E; by rewrite IH]. Qed.

Lemma with_item_same (items : list (bytes * Entry)) key e : StronglySorted bytes_lt (map fst items) -> assoc items key = Some e -> with_item items key e = items.
Proof.
  induction items as [|[k v] items IH]; cbn [map with_item assoc fst]; [done|]; intros [Hs Hk]%StronglySorted_inv; destruct (key_eqb k key) eqn:Ek.
  - apply key_eqb_eq in Ek as ->; intros [= ->]; by rewrite (proj2 (key_cmp_eq key key)).
  - intros E; pose proof (assoc_elem _ _ _ E) as Hin; destruct (key_cmp key k) eqn:Ec; [apply key_cmp_eq in Ec; subst; by rewrite (proj2 (key_eqb_eq k k)) in Ek | | by rewrite IH].
    rewrite Forall_forall in Hk; specialize (Hk key (list_elem_of_fmap_2 fst _ _ Hin)); exfalso; apply (bytes_lt_irrefl k); by eapply bytes_lt_trans.
Qed.

Lemma without_with (items : list (bytes * Entry)) key e : assoc items key = None -> without (with_item items key e) key = items.
Proof.
  intros Ea; assert (without items key = items) as Ew.
  { unfold without; induction items as [|[k v] items IH]; [done|]; cbn [List.filter assoc fst] in *; destruct (key_eqb k key); [done|]; cbn [negb]; by rewrite IH. }
  unfold without in *; assert (key_eqb key key = true) as Er by (by apply key_eqb_eq); induction items as [|[k v] items IH]; cbn [with_item List.filter fst]; [by rewrite Er|].
  cbn [List.filter assoc fst] in *; destruct (key_eqb k key) eqn:Ek; [done|]; cbn [negb] in *; destruct (key_cmp key k) eqn:Ec; cbn [List.filter fst]; rewrite ?Er, ?Ek; cbn [negb].
  - apply key_cmp_eq in Ec; subst; congruence.
  - done.
  - injection Ew as Ew; by rewrite IH.
Qed.

Lemma same_body sb at_ state g m : body_ok sb at_ state g -> map_rep m g.1 -> body_ok sb at_ (with_map state m) g.
Proof. intros []; by split. Qed.

Lemma resize_sum current old new : 0 <= old <= current -> 0 <= new -> current - old + new < U64 -> resize current old new = current - old + new.
Proof.
  intros Ho Hn Hu; unfold resize, saturating_sub; destruct (Z.leb_spec old new); [rewrite as_u64_small by (unfold is_u64; lia)|]; lia.
Qed.

Lemma same_keys_refl sb gs : same_keys sb gs gs.
Proof. by split. Qed.

Lemma pass_with w at_ (items : list (bytes * Entry)) key e : Forall (fun pair => ShardFilters_may_hold (wi_filters w) at_ (filter_hash pair.1) = true) items ->
  ShardFilters_may_hold (wi_filters w) at_ (filter_hash key) = true ->
  Forall (fun pair => ShardFilters_may_hold (wi_filters w) at_ (filter_hash pair.1) = true) (with_item items key e).
Proof. intros Hp Hk; apply Forall_forall; intros x [->|Hin]%with_item_elem; [done|]; rewrite Forall_forall in Hp; by apply Hp. Qed.

Definition put_wins w gs key (lsn : Lsn) (is_shadowed : bytes -> Lsn -> bool) : bool :=
  negb (existsb (fun cover => Covered_covers cover key lsn) (wi_covers w))
  && match entry_of (wi_shard_bytes w) gs key with Some e => en_lsn e <? lsn | None => negb (is_shadowed key lsn) end.

(** A key landing in its shard, however its counters came to be. *)
Lemma land_put w gs occ key e book landed state items pb m' bytes_ graves oldest : index_ok w gs occ -> room w ->
  wi_shards w !! Z.to_nat (shard_of w key) = Some state -> gs !! Z.to_nat (shard_of w key) = Some (items, pb) ->
  0 <= loc_len (en_loc e) -> map_rep m' (with_item items key e) ->
  bytes_ = ss_bytes state - weight_at byte_weight (assoc items key) + byte_weight e -> bytes_ < U64 ->
  graves = ss_graves state - weight_at grave_weight (assoc items key) + grave_weight e ->
  oldest <= ss_oldest_grave state -> (Entry_is_grave e = true -> oldest <= en_lsn e) ->
  exists w' gs' occ', (w' ← landed_in scan (note_key w (shard_of w key) key) (shard_of w key) (mkShardState m' bytes_ graves oldest (ss_paged state)) (map_vacant (ss_map state));
      Ok (w', book, landed)) = Ok (w', book : Book, landed : Landed)
    /\ index_ok w' gs' occ' /\ same_frame w w' /\ updates (wi_shard_bytes w) gs gs' key e.
Proof.
  intros Hw Hroom Es Eg Hl Hm Hby Hu Hgr Ho Hog; pose proof (key_in_column _ _ _ key Hw) as Hat; set (at_ := shard_of w key) in *.
  destruct (note_key_ok w gs occ at_ key Hw Hat) as [Hw' Hk]; destruct (io_shard _ _ _ Hw' at_ state (items, pb) (proj1 Hat) Es Eg) as [Hb [Hp _ _]].
  destruct (landed_ok scan (note_key w at_ key) gs occ at_ state (items, pb) (mkShardState m' bytes_ graves oldest (ss_paged state)) (with_item items key e, pb)) as (w' & occ' & E & Hok & Hf); try done.
  - apply Hroom.
  - by apply (put_body _ _ _ (items, pb)).
  - by apply pass_with.
  - apply with_item_nonempty.
  - exists w', (<[Z.to_nat at_ := (with_item items key e, pb)]> gs), occ'; rewrite E; res_simpl; split_and!; [done | done | etrans; [apply note_key_frame | done] |].
    split; [intros key'; by apply (entry_of_put _ _ at_ _ pb); [apply Hw | |] | by apply (map_snd_insert gs _ items)].
Qed.

Lemma insert_held_ok w gs occ key entry book is_shadowed : index_ok w gs occ -> room w -> accepts key = true -> is_u32 (loc_len (en_loc entry)) -> Entry_is_grave entry = false ->
  exists w' gs' occ' book' landed, insert_held scan w (shard_of w key) key entry book is_shadowed = Ok (w', book', landed)
    /\ index_ok w' gs' occ' /\ same_frame w w' /\ Landed_took_place landed = put_wins w gs key (en_lsn entry) is_shadowed
    /\ if put_wins w gs key (en_lsn entry) is_shadowed
       then updates (wi_shard_bytes w) gs gs' key (Entry_stamped entry (live_incarnation book (loc_segment (en_loc entry))).2)
       else same_keys (wi_shard_bytes w) gs gs'.
Proof.
  intros Hw Hroom Ha Hlen Hng; pose proof (key_in_column _ _ _ key Hw) as Hat; unfold insert_held, put_wins.
  destruct (shard_ok w gs occ _ Hw Hat) as (state & [items pb] & -> & Es & Eg & Hb & [Hp Hfl Hwk]); res_simpl; rewrite (entry_of_here _ _ _ _ _ Hw Eg); cbn [fst].
  destruct (live_incarnation book _) as [book1 stamp]; cbn [Entry_stamped en_loc en_lsn fst snd]; rewrite (is_covered_ok _ _ _ _ _ Hw); destruct (existsb _ _); cbn [negb andb].
  { eexists _, gs, occ, _, _; split_and!; [done | done | done | done | apply same_keys_refl]. }
  destruct (room_at _ _ _ Hroom Es) as [Hmr Hbr]; destruct (body_bytes _ _ _ _ Hb) as [Hb0 Hbw]; set (stamped := Entry_stamped entry stamp) in *.
  assert (byte_weight stamped = loc_len (en_loc entry)) as Ewt by (unfold byte_weight, stamped, Entry_is_grave in *; cbn [en_loc Entry_stamped]; by rewrite Hng).
  assert (grave_weight stamped = 0) as Egt by (unfold grave_weight, stamped, Entry_is_grave in *; cbn [en_loc Entry_stamped]; by rewrite Hng).
  assert (Entry_is_grave stamped = false) as Eg0 by exact Hng; assert (U32 < U64) as Hlt by done; unfold is_u32 in Hlen.
  destruct (rep_put _ items key stamped (bo_map _ _ _ _ Hb) Ha Hmr) as (m1 & -> & Hm1 & Hback); res_simpl.
  destruct (assoc items key) as [existing|] eqn:Ea; [destruct (Z.leb_spec (en_lsn entry) (en_lsn existing)) as [Hle|Hgt]|].
  - destruct (Hback existing) as (m2 & -> & Hm2); res_simpl; rewrite (with_item_same items key existing (body_sorted _ _ _ _ Hb) Ea) in Hm2.
    destruct (note_key_ok w gs occ _ key Hw Hat) as [Hw' _]; rewrite (proj2 (Z.ltb_ge _ _) Hle).
    destruct (io_shard _ _ _ Hw' _ state (items, pb) (proj1 Hat) Es Eg) as [_ [Hp' _ _]].
    eexists _, (<[Z.to_nat (shard_of w key) := (items, pb)]> gs), occ, _, _; split_and!; [done | | etrans; [apply note_key_frame | apply with_shard_frame] | done |].
    + eapply stay_ok; try done; [by apply same_body | auto].
    + rewrite list_insert_id by done; apply same_keys_refl.
  - destruct (Hbw key existing Ea) as [Hx1 Hx2]; cbn [snd] in Hx1; pose proof (bo_over _ _ _ _ Hb) as Hov; cbn [snd] in Hov.
    rewrite (proj2 (Z.ltb_lt _ _) Hgt); destruct (Entry_is_grave existing) eqn:Egr; cbn [negb].
    + destruct (land_put w gs occ key stamped (mark_live book1 (loc_segment (en_loc entry)) (en_lsn entry) (span_of (width key) (loc_len (en_loc entry)))) LandedGrave state items pb m1
        (as_u64 (ss_bytes state + loc_len (en_loc entry))) (ss_graves state - 1) (ss_oldest_grave state)) as (w' & gs' & occ' & E & Hok & Hf & Hup); try done; [cbn; lia | | | | congruence |].
      * rewrite Ea; cbn [weight_at]; unfold byte_weight at 1; rewrite Egr, Ewt, as_u64_small by (unfold is_u64; lia); lia.
      * rewrite as_u64_small by (unfold is_u64; lia); lia.
      * rewrite Ea; cbn [weight_at]; unfold grave_weight at 1; rewrite Egr, Egt; lia.
      * by eexists w', gs', occ', _, _.
    + destruct (land_put w gs occ key stamped (mark_live (shadow book1 (loc_segment (en_loc existing)) (Entry_span existing (width key))) (loc_segment (en_loc entry)) (en_lsn entry) (span_of (width key) (loc_len (en_loc entry))))
        LandedRecord state items pb m1 (resize (ss_bytes state) (loc_len (en_loc existing)) (loc_len (en_loc entry))) (ss_graves state) (ss_oldest_grave state)) as (w' & gs' & occ' & E & Hok & Hf & Hup); try done;
        [cbn; lia | | | | congruence |]; unfold byte_weight in Hx1, Hx2; rewrite Egr in Hx1, Hx2.
      * rewrite Ea; cbn [weight_at]; unfold byte_weight at 1; rewrite Egr, Ewt; apply resize_sum; lia.
      * rewrite resize_sum; lia.
      * rewrite Ea; cbn [weight_at]; unfold grave_weight at 1; rewrite Egr, Egt; lia.
      * by eexists w', gs', occ', _, _.
  - destruct (is_shadowed key (en_lsn entry)) eqn:Esh; cbn [negb].
    + destruct (rep_take _ _ key Hm1 Ha) as (m2 & -> & Hm2 & _); res_simpl; destruct (note_key_ok w gs occ _ key Hw Hat) as [Hw' _].
      destruct (io_shard _ _ _ Hw' _ state (items, pb) (proj1 Hat) Es Eg) as [_ [Hp' _ _]].
      assert (without (with_item items key stamped) key = items) as Ew by (by apply without_with).
      eexists _, (<[Z.to_nat (shard_of w key) := (items, pb)]> gs), occ, _, _; split_and!; [done | | etrans; [apply note_key_frame | apply with_shard_frame] | done |].
      * eapply stay_ok; try done; [apply same_body; [done | by rewrite Ew in Hm2] | auto].
      * rewrite list_insert_id by done; apply same_keys_refl.
    + destruct (land_put w gs occ key stamped (mark_live book1 (loc_segment (en_loc entry)) (en_lsn entry) (span_of (width key) (loc_len (en_loc entry)))) LandedNothing state items pb m1
        (as_u64 (ss_bytes state + loc_len (en_loc entry))) (ss_graves state) (ss_oldest_grave state)) as (w' & gs' & occ' & E & Hok & Hf & Hup); try done; [cbn; lia | | | | congruence |].
      * rewrite Ea; cbn [weight_at]; rewrite Ewt, as_u64_small by (unfold is_u64; lia); lia.
      * rewrite as_u64_small by (unfold is_u64; lia); lia.
      * rewrite Ea; cbn [weight_at]; lia.
      * by eexists w', gs', occ', _, _.
Qed.

Lemma with_without (items : list (bytes * Entry)) key e : StronglySorted bytes_lt (map fst items) -> with_item (without items key) key e = with_item items key e.
Proof.
  unfold without; induction items as [|[k v] items IH]; cbn [map with_item List.filter fst]; [done|]; intros [Hs Hk]%StronglySorted_inv; specialize (IH Hs); pose proof (without_apart items key) as Hap; unfold without in Hap.
  destruct (key_eqb k key) eqn:Ek; cbn [negb with_item].
  - apply key_eqb_eq in Ek as ->; rewrite (proj2 (key_cmp_eq key key)) by done; rewrite Hap; [by apply with_item_over|].
    eapply Forall_impl; [exact Hk|]; intros k' H; by right.
  - destruct (key_cmp key k) eqn:Ec; [apply key_cmp_eq in Ec; subst; by rewrite (proj2 (key_eqb_eq k k)) in Ek | | by rewrite IH].
    rewrite Hap; [done|]; eapply Forall_impl; [exact Hk|]; intros k' H; right; by eapply bytes_lt_trans.
Qed.

Definition delete_wins w gs key (lsn : Lsn) (is_shadowed : bytes -> Lsn -> bool) : bool :=
  match entry_of (wi_shard_bytes w) gs key with Some e => en_lsn e <? lsn | None => negb (is_shadowed key lsn) end.

(** A delete seen again moves its grave to the segment that holds the copy. *)
Definition grave_again w gs key (lsn : Lsn) : bool :=
  match entry_of (wi_shard_bytes w) gs key with Some e => Entry_is_grave e && (en_lsn e =? lsn) | None => false end.

Lemma byte_weight_grave lsn from : byte_weight (Entry_grave_from lsn from) = 0.
Proof. done. Qed.

Lemma grave_weight_grave lsn from : grave_weight (Entry_grave_from lsn from) = 1.
Proof. done. Qed.

Lemma remove_held_ok w gs occ key lsn tombstone book is_shadowed : index_ok w gs occ -> room w -> accepts key = true ->
  exists w' gs' occ' book' landed, remove_held scan w (shard_of w key) key lsn tombstone book is_shadowed = Ok (w', book', landed)
    /\ index_ok w' gs' occ' /\ same_frame w w' /\ Landed_took_place landed = delete_wins w gs key lsn is_shadowed
    /\ if delete_wins w gs key lsn is_shadowed || grave_again w gs key lsn
       then updates (wi_shard_bytes w) gs gs' key (Entry_grave_from lsn (loc_segment tombstone)) else same_keys (wi_shard_bytes w) gs gs'.
Proof.
  intros Hw Hroom Ha; pose proof (key_in_column _ _ _ key Hw) as Hat; unfold remove_held, delete_wins, grave_again; set (grave := Entry_grave_from lsn (loc_segment tombstone)).
  destruct (shard_ok w gs occ _ Hw Hat) as (state & [items pb] & -> & Es & Eg & Hb & [Hp Hfl Hwk]); res_simpl; rewrite (entry_of_here _ _ _ _ _ Hw Eg); cbn [fst].
  destruct (room_at _ _ _ Hroom Es) as [Hmr Hbr]; destruct (body_bytes _ _ _ _ Hb) as [Hb0 Hbw]; pose proof (body_sorted _ _ _ _ Hb) as Hs; cbn [fst snd] in *.
  assert (byte_weight grave = 0 /\ grave_weight grave = 1 /\ Entry_is_grave grave = true /\ en_lsn grave = lsn /\ loc_len (en_loc grave) = 0) as (Ewt & Egt & Egr' & Egl & Egn) by done.
  rewrite (rep_at _ items key (bo_map _ _ _ _ Hb) Ha); res_simpl; assert (forall a b : Z, (if a <? b then a else b) <= b) as Hmin by (intros a b; destruct (Z.ltb_spec a b); lia).
  assert (forall a b : Z, (if a <? b then a else b) <= a) as Hmin' by (intros a b; destruct (Z.ltb_spec a b); lia).
  destruct (assoc items key) as [existing|] eqn:Ea.
  - destruct (Hbw key existing Ea) as [Hx1 Hx2]; pose proof (bo_over _ _ _ _ Hb) as Hov; cbn [snd] in Hov; destruct (Z.leb_spec lsn (en_lsn existing)) as [Hle|Hgt].
    + rewrite (proj2 (Z.ltb_ge _ _) Hle); cbn [orb]; destruct (Entry_is_grave existing && (en_lsn existing =? lsn)) eqn:Eag; [| by eexists _, gs, occ, _, _; split_and!; [done | done | done | done | apply same_keys_refl]].
      apply andb_true_iff in Eag as [Egr Elsn%Z.eqb_eq]; destruct (rep_put _ items key grave (bo_map _ _ _ _ Hb) Ha Hmr) as (m1 & -> & Hm1 & _); res_simpl.
      eexists _, (<[Z.to_nat (shard_of w key) := (with_item items key grave, pb)]> gs), occ, _, _; split_and!; [done | | apply with_shard_frame | done |].
      * assert (items <> []) as Hne by (by destruct items).
        eapply stay_ok; try done; cbn [fst]; [| apply pass_with; [done|]; rewrite Forall_forall in Hp; apply (Hp (key, existing)), assoc_elem, Ea | auto].
        refine (put_body _ _ state (items, pb) key grave m1 (ss_bytes state) (ss_graves state) (ss_oldest_grave state) Hb eq_refl _ Hm1 _ _ _ _ _); cbn [fst]; rewrite ?Ea; cbn [weight_at]; try lia.
        -- unfold byte_weight at 1; rewrite Egr; lia.
        -- unfold grave_weight at 1; rewrite Egr; lia.
        -- intros _; pose proof (bo_oldest _ _ _ _ Hb) as Ho; rewrite Forall_forall in Ho; specialize (Ho _ (assoc_elem _ _ _ Ea) Egr); cbn [snd] in Ho; lia.
      * split; [intros key'; by apply (entry_of_put _ _ (shard_of w key) _ pb); [apply Hw | |] | by apply (map_snd_insert gs _ items)].
    + rewrite (proj2 (Z.ltb_lt _ _) Hgt); cbn [orb]; destruct (Entry_is_grave existing) eqn:Egr; cbn [negb].
      * destruct (rep_put _ items key grave (bo_map _ _ _ _ Hb) Ha Hmr) as (m1 & E1 & Hm1 & _); cbn [with_counts ss_map]; rewrite E1; res_simpl.
        edestruct (land_put w gs occ key grave book LandedGrave state items pb m1 (ss_bytes state) (ss_graves state - 1 + 1)
          (if lsn <? ss_oldest_grave state then lsn else ss_oldest_grave state)) as (w' & gs' & occ' & E & Hok & Hf & Hup); try done; [| lia | |]; rewrite ?Ea; cbn [weight_at].
        -- unfold byte_weight at 1; rewrite Egr; lia.
        -- unfold grave_weight at 1; rewrite Egr; lia.
        -- by eexists w', gs', occ', _, _.
      * unfold drop_entry; cbn [with_counts ss_map]; destruct (rep_take _ items key (bo_map _ _ _ _ Hb) Ha) as (m0 & -> & Hm0 & Hr0); res_simpl; cbn [with_map ss_map].
        destruct (rep_put _ _ key grave Hm0 Ha (Hr0 Hmr)) as (m1 & -> & Hm1 & _); res_simpl; rewrite with_without in Hm1 by done.
        unfold byte_weight in Hx1, Hx2; rewrite Egr in Hx1, Hx2.
        edestruct (land_put w gs occ key grave (shadow book (loc_segment (en_loc existing)) (Entry_span existing (width key))) LandedRecord state items pb m1
          (saturating_sub (ss_bytes state) (loc_len (en_loc existing))) (ss_graves state + 1)
          (if lsn <? ss_oldest_grave state then lsn else ss_oldest_grave state)) as (w' & gs' & occ' & E & Hok & Hf & Hup); try done; rewrite ?Ea; cbn [weight_at].
        -- unfold byte_weight at 1, saturating_sub; rewrite Egr; lia.
        -- unfold saturating_sub; lia.
        -- unfold grave_weight at 1; rewrite Egr; lia.
        -- by eexists w', gs', occ', _, _.
  - rewrite orb_false_r; destruct (is_shadowed key lsn); cbn [negb]; [by eexists _, gs, occ, _, _; split_and!; [done | done | done | done | apply same_keys_refl]|].
    destruct (rep_put _ items key grave (bo_map _ _ _ _ Hb) Ha Hmr) as (m1 & E1 & Hm1 & _); rewrite E1; res_simpl.
    edestruct (land_put w gs occ key grave book LandedNothing state items pb m1 (ss_bytes state) (ss_graves state + 1)
      (if lsn <? ss_oldest_grave state then lsn else ss_oldest_grave state)) as (w' & gs' & occ' & E & Hok & Hf & Hup); try done; rewrite ?Ea; cbn [weight_at]; [lia | lia | lia |].
    by eexists w', gs', occ', _, _.
Qed.
End writes.
