(* ===== verification/ColumnSweep.v ===== *)
(** * The sweep behind a range delete ([index/column.rs])

    A range delete only raises a cover; the sweep that follows takes out what it covers, a budget of
    keys at a time. Each run drops exactly the covered records of the stretch it walked, says where to
    resume, and a column left alone is swept in finitely many runs. *)
From S2P Require Import Prelude Error Arrays Bytes Lsn Column IndexEntry Counters Tally ShardFilter FilledBits TreeKey TBTree TBTreeRep TBTreeOps TBTreeInsert TBTreeWalk SealedRanges ShardMap ColumnIndex ColumnRep ColumnWrites.
#[local] Existing Instances number_key number_key_laws.

(** ** Dropping many keys *)

Definition drop_keys (items : list (bytes * Entry)) (keys : list bytes) : list (bytes * Entry) := fold_left (fun items key => without items key) keys items.

Lemma drop_keys_sublist items keys : drop_keys items keys `sublist_of` items.
Proof.
  revert items; induction keys as [|key keys IH]; intros items; cbn [drop_keys fold_left]; [done|]; etrans; [apply IH|].
  unfold without; clear IH; induction items as [|x items IH]; cbn [List.filter]; [constructor|]; destruct (negb _); by constructor.
Qed.

Lemma drop_keys_assoc items keys key : assoc (drop_keys items keys) key = if bool_decide (key ∈ keys) then None else assoc items key.
Proof.
  revert items; induction keys as [|k keys IH]; intros items; cbn [drop_keys fold_left]; [by rewrite bool_decide_false by set_solver|].
  etrans; [apply IH|]; rewrite assoc_without; destruct (key_eqb k key) eqn:Ek.
  - apply key_eqb_eq in Ek as ->; rewrite (bool_decide_true (key ∈ key :: keys)) by set_solver; by destruct (bool_decide _).
  - assert (k <> key) by (intros ->; by rewrite (proj2 (key_eqb_eq key key)) in Ek).
    destruct (bool_decide_reflect (key ∈ keys)); [by rewrite bool_decide_true by set_solver | by rewrite bool_decide_false by set_solver].
Qed.

(** ** The walk over one shard's span *)

Definition dooms (lsn : Lsn) (e : Entry) : bool := negb ((lsn <=? en_lsn e) || Entry_is_grave e).

Lemma sweep_span_ok lsn budget pairs examined : exists n, sweep_span lsn budget examined pairs
    = (List.filter (fun pair => dooms lsn pair.2) (take n pairs), examined + Z.of_nat n, fst <$> (pairs !! n))
  /\ (n <= length pairs)%nat /\ ((n < length pairs)%nat -> budget <= examined + Z.of_nat n).
Proof.
  revert examined; induction pairs as [|[key e] pairs IH]; intros examined; cbn [sweep_span]; [exists 0%nat; cbn; split_and!; [by rewrite Z.add_0_r | lia | lia]|].
  destruct (Z.leb_spec budget examined); [exists 0%nat; cbn; split_and!; [by rewrite Z.add_0_r | lia | lia]|].
  destruct (IH (examined + 1)) as (n & -> & Hn & Hb); exists (S n); cbn [take lookup list_lookup List.filter snd length dooms]; split_and!; [| lia | lia].
  unfold dooms; destruct (_ || _); cbn [negb]; f_equal; f_equal; lia.
Qed.

Section sweep.
Context {M Book : Type} {IK : IndexKey} {IKL : IndexKeyLaws} {SM : ShardMap M Entry} {SML : ShardMapLaws M Entry} {BK : Bookings Book}.
Variable scan : Scan.
Implicit Types (w : WidthIndex M) (state : ShardState M) (gs : list Kept) (g : Kept) (occ : list (Z * unit)) (book : Book) (key : bytes).

Lemma doom_fold sb at_ doomed : forall state items pb per freed, body_ok sb at_ state (items, pb) ->
  Forall (fun pair => assoc items pair.1 = Some pair.2 /\ Entry_is_grave pair.2 = false) doomed -> NoDup (map fst doomed) -> 0 <= freed -> freed + ss_bytes state < U64 ->
  exists m' per', foldm doom_one doomed (ss_map state, per, freed) = Ok (m', per', freed + weigh byte_weight doomed)
    /\ body_ok sb at_ (mkShardState m' (ss_bytes state - weigh byte_weight doomed) (ss_graves state) (ss_oldest_grave state) (ss_paged state)) (drop_keys items (map fst doomed), pb).
Proof.
  induction doomed as [|[key e] doomed IH]; intros state items pb per freed Hb Hf Hnd H0 Hu; cbn [foldm map weigh drop_keys fold_left fst].
  { exists (ss_map state), per; rewrite Z.add_0_r, Z.sub_0_r; split; [done | by destruct state]. }
  apply Forall_cons in Hf as [[Ea Hng] Hf]; cbn [fst snd] in *; apply NoDup_cons in Hnd as [Hni Hnd]; unfold doom_one at 2.
  assert (accepts key = true) as Hk.
  { pose proof (rep_keys _ _ (bo_map _ _ _ _ Hb)) as Hks; rewrite Forall_forall in Hks; apply Hks; cbn [fst]; apply (list_elem_of_fmap_2 fst _ _ (assoc_elem _ _ _ Ea)). }
  destruct (rep_take _ _ key (bo_map _ _ _ _ Hb) Hk) as (m1 & -> & Hm1 & _); res_simpl; destruct (body_bytes _ _ _ _ Hb) as [Hb0 Hbw]; specialize (Hbw key e Ea) as [Hw1 Hw2].
  assert (byte_weight e = loc_len (en_loc e)) as Ew by (unfold byte_weight; by rewrite Hng); pose proof (bo_over _ _ _ _ Hb) as Hov; cbn [snd] in *.
  rewrite as_u64_small by (unfold is_u64; lia); rewrite <- Ew.
  pose proof (take_body sb at_ state (items, pb) key m1 (ss_bytes state - byte_weight e) (ss_graves state) Hb Hm1) as Hb1; cbn [fst snd] in Hb1; rewrite Ea in Hb1; cbn [weight_at] in Hb1.
  specialize (Hb1 eq_refl ltac:(unfold grave_weight; rewrite Hng; lia)).
  destruct (IH _ _ _ (add_span per (loc_segment (en_loc e)) (Entry_span e (width key))) (freed + byte_weight e) Hb1) as (m' & per' & E & Hb').
  - apply Forall_forall; intros [k e'] Hin; rewrite Forall_forall in Hf; specialize (Hf _ Hin) as [Hf1 Hf2]; cbn [fst snd] in *; split; [| done].
    rewrite assoc_without, key_eqb_false; [done|]; assert (key <> k) by (intros <-; apply Hni, (list_elem_of_fmap_2 fst _ _ Hin)).
    destruct (key_cmp key k) eqn:Ec; [by apply key_cmp_eq in Ec | by left | right; by apply key_cmp_gt].
  - done.
  - lia.
  - cbn [ss_bytes]; lia.
  - exists m', per'; cbn [ss_map ss_bytes ss_graves ss_oldest_grave ss_paged] in *; rewrite E; split; [f_equal; f_equal; lia|].
    by rewrite Z.sub_add_distr.
Qed.

Definition sub_kept (g' g : Kept) : Prop := g'.1 `sublist_of` g.1 /\ g'.2 = g.2.

Lemma sub_kept_insert gs gs' (n : nat) g g' : Forall2 sub_kept gs' gs -> gs' !! n = Some g -> sub_kept g' g -> Forall2 sub_kept (<[n := g']> gs') gs.
Proof.
  intros HF E Hs; destruct (Forall2_lookup_l _ _ _ _ _ HF E) as (g0 & E0 & Hg0).
  rewrite <- (list_insert_id gs n g0 E0); apply Forall2_insert; [done|]; destruct Hs as [Hs1 Hs2], Hg0 as [Hg1 Hg2]; split; [by etrans | congruence].
Qed.

Lemma sub_kept_refl gs : Forall2 sub_kept gs gs.
Proof. induction gs; by constructor. Qed.

Lemma sub_kept_trans gs gs1 gs' : Forall2 sub_kept gs1 gs -> Forall2 sub_kept gs' gs1 -> Forall2 sub_kept gs' gs.
Proof.
  intros Hsub Hsub'; revert gs Hsub; induction Hsub' as [|g' g1 gs' gs1 [H1 H2] _ IH]; intros gs Hf; inversion Hf as [|? g ? gs0 [H3 H4] Hf']; subst; constructor; [split; [by etrans | congruence] | auto].
Qed.

Lemma pass_drop (P : bytes * Entry -> Prop) items keys : Forall P items -> Forall P (drop_keys items keys).
Proof.
  intros HP; apply Forall_forall; intros x Hx; rewrite Forall_forall in HP; apply HP; eapply elem_of_sublist; [exact Hx | apply drop_keys_sublist].
Qed.

Lemma drop_doomed_ok w gs occ at_ state items pb book doomed : index_ok w gs occ -> in_column w at_ -> wi_shards w !! Z.to_nat at_ = Some state -> gs !! Z.to_nat at_ = Some (items, pb) ->
  Z.of_nat (length items) < 2 ^ 30 -> Forall (fun pair => assoc items pair.1 = Some pair.2 /\ Entry_is_grave pair.2 = false) doomed -> NoDup (map fst doomed) ->
  exists w' occ' book', drop_doomed scan w at_ state book doomed = Ok (w', book') /\ same_frame w w'
    /\ index_ok w' (<[Z.to_nat at_ := (drop_keys items (map fst doomed), pb)]> gs) occ'.
Proof.
  intros Hw Hat Es Eg Hlen Hf Hnd; destruct (io_shard _ _ _ Hw at_ state _ (proj1 Hat) Es Eg) as [Hb [Hp Hfl Hwk]]; destruct (body_bytes _ _ _ _ Hb) as [Hb0 _].
  destruct (doom_fold _ at_ doomed state items pb [] 0 Hb Hf Hnd) as (m' & per & E & Hb'); [lia | lia |]; unfold drop_doomed; rewrite E; res_simpl.
  pose proof (sublist_length _ _ (drop_keys_sublist items (map fst doomed))) as Hl.
  destruct (rep_pack_owed _ _ (bo_map _ _ _ _ Hb')) as (m2 & E2 & Hm2); [cbn [fst]; lia|]; cbn [ss_map] in E2; rewrite E2; res_simpl.
  pose proof (body_bytes _ _ _ _ Hb') as [Hb1 _]; cbn [ss_bytes] in Hb1.
  destruct (emptied_ok scan w gs occ at_ state (items, pb) (mkShardState m2 (ss_bytes state - weigh byte_weight doomed) (ss_graves state) (ss_oldest_grave state) (ss_paged state))
    (drop_keys items (map fst doomed), pb)) as (w' & occ' & E' & Hok & Hsf); try done; cbn [fst ss_paged].
  - exact (same_body _ _ _ _ m2 Hb' Hm2).
  - by apply pass_drop.
  - intros Hne ->; by apply Hne, sublist_nil_r, drop_keys_sublist.
  - auto.
  - unfold with_counts, with_map; cbn [ss_map ss_bytes ss_graves ss_oldest_grave ss_paged]; unfold saturating_sub; rewrite Z.add_0_l, Z.max_r by lia.
    rewrite E'; res_simpl; by exists w', occ', (fold_left (fun book sum => shadow book sum.1 sum.2) per book).
Qed.

Definition stop_ok (stopped : option bytes) key : bool := match stopped with Some r => bytes_ltb key r | None => true end.

Lemma take_sorted (pairs : list (bytes * Entry)) n x : StronglySorted bytes_lt (map fst pairs) -> x ∈ pairs -> x ∈ take n pairs <-> stop_ok (fst <$> pairs !! n) x.1 = true.
Proof.
  revert n; induction pairs as [|p pairs IH]; intros n Hs Hx; [by apply elem_of_nil in Hx|]; cbn [map] in Hs; apply StronglySorted_inv in Hs as [Hs Hp]; rewrite Forall_forall in Hp.
  apply elem_of_cons in Hx; destruct n as [|n]; cbn [take lookup list_lookup fmap option_fmap option_map stop_ok].
  - split; [by intros ?%elem_of_nil|]; intros Hlt%bytes_ltb_lt; exfalso; destruct Hx as [->|Hx]; [by apply bytes_lt_irrefl in Hlt|].
    apply (bytes_lt_irrefl p.1); eapply bytes_lt_trans; [apply Hp, (list_elem_of_fmap_2 fst _ _ Hx) | done].
  - rewrite elem_of_cons; destruct Hx as [->|Hx]; [split; [intros _ | by left]|].
    + destruct (pairs !! n) as [q|] eqn:E; [| done]; cbn; apply bytes_ltb_lt, Hp, (list_elem_of_fmap_2 fst), list_elem_of_lookup; eauto.
    + rewrite <- (IH n Hs Hx); split; [intros [->|?]; [| done] | by right].
      exfalso; apply (bytes_lt_irrefl p.1), Hp, (list_elem_of_fmap_2 fst _ _ Hx).
Qed.

Lemma sorted_sub (pairs items : list (bytes * Entry)) : pairs `sublist_of` items -> StronglySorted bytes_lt (map fst items) -> StronglySorted bytes_lt (map fst pairs).
Proof.
  induction 1 as [|x l1 l2 Hsub IH|x l1 l2 Hsub IH]; cbn [map]; [done | |]; intros [Hs Hx]%StronglySorted_inv; [constructor; [auto|] | auto].
  apply Forall_forall; intros k (p & -> & Hp)%list_elem_of_fmap; rewrite Forall_forall in Hx; apply Hx, (list_elem_of_fmap_2 fst); by eapply elem_of_sublist.
Qed.

Lemma filter_sublist (f : bytes * Entry -> bool) items : List.filter f items `sublist_of` items.
Proof. induction items as [|x items IH]; cbn [List.filter]; [constructor|]; destruct (f x); by constructor. Qed.

Lemma sorted_keys_NoDup (items : list (bytes * Entry)) : StronglySorted bytes_lt (map fst items) -> NoDup (map fst items).
Proof.
  induction items as [|x items IH]; cbn [map]; [constructor|]; intros [Hs Hx]%StronglySorted_inv; constructor; [| auto].
  intros Hin; rewrite Forall_forall in Hx; by apply (bytes_lt_irrefl x.1), Hx.
Qed.

Definition next_spec occ (low high : Z) (next : option Z) : Prop :=
  match next with
  | Some at_ => low <= at_ <= high /\ (exists u, assoc occ at_ = Some u) /\ forall s, low <= s < at_ -> assoc occ s = None
  | None => forall s, low <= s <= high -> assoc occ s = None
  end.

Lemma next_occupied_ok w gs occ low high : index_ok w gs occ -> is_u64 low -> exists next, next_occupied scan w low high = Ok next /\ next_spec occ low high next.
Proof.
  intros Hw Hlow; unfold next_occupied; rewrite (range_ok scan NODE_WIDTH node_width_ok (wi_occupied w) occ (Included low) (Included high) (io_walk _ _ _ Hw) Hlow); res_simpl.
  eexists; split; [done|]; pose proof (holds_sorted NODE_WIDTH _ _ (io_walk _ _ _ Hw)) as Hs; clear Hw.
  assert (forall s u, assoc occ s = Some u -> low <= s <= high -> (s, u) ∈ List.filter (in_range (Included low) (Included high)) occ) as Hin.
  { intros s u Hu%assoc_elem Hr; apply list_elem_of_In, filter_In; split; [by apply list_elem_of_In|]; unfold in_range, above_low, below_high, key_leb; cbn [fst key_cmp number_key]; destruct (Z.compare_spec low s), (Z.compare_spec s high); done || lia. }
  assert (forall s u, (s, u) ∈ List.filter (in_range (Included low) (Included high)) occ -> (s, u) ∈ occ /\ low <= s <= high) as Hout.
  { intros s u [Hu Hr]%list_elem_of_In%filter_In; apply list_elem_of_In in Hu; split; [done|]; unfold in_range, above_low, below_high, key_leb in Hr; cbn [fst key_cmp number_key] in Hr; destruct (Z.compare_spec low s), (Z.compare_spec s high); done || lia. }
  pose proof (StronglySorted_filter (in_range (Included low) (Included high)) occ Hs) as Hsf.
  destruct (List.filter _ occ) as [|[a u] rest]; cbn [hd_error fmap option_fmap option_map next_spec fst].
  - intros s Hr; destruct (assoc occ s) as [u|] eqn:E; [| done]; specialize (Hin s u E Hr); set_solver.
  - destruct (Hout a u) as [Ha Hr]; [set_solver|]; split_and!; [lia | lia | exists u; apply elem_assoc; [| done] |].
    + clear -Hs; induction Hs as [|x l _ IH Hx]; cbn [map]; constructor; [done|]; by apply Forall_map.
    + intros s Hlt; destruct (assoc occ s) as [v|] eqn:E; [| done]; specialize (Hin s v E ltac:(lia)); apply StronglySorted_inv in Hsf as [_ Hf]; apply elem_of_cons in Hin as [[= -> ->]|Hin]; [exfalso; lia|].
      rewrite Forall_forall in Hf; specialize (Hf _ Hin); unfold key_lt in Hf; cbn in Hf; change (a < s) in Hf; exfalso; lia.
Qed.

(** What a walk from [resume] takes from the keys of some shards: the doomed records before it stopped. *)
Definition swept_at sb (lsn : Lsn) (resume : bytes) (high : option bytes) (here : Z -> bool) (stopped : option bytes) key (e : Entry) : bool :=
  here (shard_of_bytes sb key) && in_range (Included resume) (upper_bound high) (key, e) && dooms lsn e && stop_ok stopped key.

Definition drops sb gs gs' (gone : bytes -> Entry -> bool) : Prop :=
  forall key, entry_of sb gs' key = match entry_of sb gs key with Some e => if gone key e then None else Some e | None => None end.

Definition counted gs : Prop := Forall (fun g => Z.of_nat (length g.1) < 2 ^ 30) gs.

Lemma counted_sub gs gs' : counted gs -> Forall2 sub_kept gs' gs -> counted gs'.
Proof.
  unfold counted; intros Hc HF; induction HF as [|g' g gs' gs [Hs _] _ IH]; [constructor|]; apply Forall_cons in Hc as [Hg Hc]; constructor; [| auto].
  pose proof (sublist_length _ _ Hs); lia.
Qed.

Lemma sweep_shard_ok w gs occ at_ lsn budget resume high book swept : index_ok w gs occ -> in_column w at_ -> counted gs -> accepts resume = true ->
  exists w' gs' occ' book' dropped examined stopped, sweep_shard scan w at_ lsn budget resume high book swept = Ok (w', book', mkSwept dropped examined stopped)
    /\ index_ok w' gs' occ' /\ same_frame w w' /\ Forall2 sub_kept gs' gs
    /\ drops (wi_shard_bytes w) gs gs' (swept_at (wi_shard_bytes w) lsn resume high (Z.eqb at_) stopped)
    /\ (examined = sw_examined swept \/ sw_examined swept < examined /\ exists x, (exists e, entry_of (wi_shard_bytes w) gs x = Some e) /\ shard_of w x = at_ /\ bytes_le resume x /\ stop_ok stopped x = true)
    /\ match stopped with
       | Some r => accepts r = true /\ shard_of w r = at_ /\ budget <= examined /\ bytes_le resume r
       | None => True
       end.
Proof.
  intros Hw Hat Hc Hr; unfold sweep_shard; destruct (shard_ok w gs occ _ Hw Hat) as (state & [items pb] & -> & Es & Eg & Hb & Hk); res_simpl.
  rewrite (rep_span _ items (Included resume) (upper_bound high) (bo_map _ _ _ _ Hb) Hr); res_simpl; set (pairs := List.filter _ items).
  pose proof (body_sorted _ _ _ _ Hb) as Hs; cbn [fst] in Hs; pose proof (filter_sublist (in_range (Included resume) (upper_bound high)) items) as Hsub; pose proof (sorted_sub _ _ Hsub Hs) as Hps.
  destruct (sweep_span_ok lsn budget pairs (sw_examined swept)) as (n & -> & Hn & Hbud); set (doomed := List.filter _ (take n pairs)).
  assert (forall x, x ∈ pairs -> assoc items x.1 = Some x.2 /\ bytes_le resume x.1 /\ shard_of w x.1 = at_ /\ accepts x.1 = true) as Hpair.
  { intros [k e] Hx; pose proof Hx as [Hx1 Hx2]%list_elem_of_In%filter_In; apply list_elem_of_In in Hx1; cbn [fst snd]; split_and!.
    - by apply (elem_assoc items k e).
    - unfold in_range in Hx2; apply andb_true_iff in Hx2 as [Hx2 _]; by apply bytes_leb_le.
    - pose proof (bo_here _ _ _ _ Hb) as Hh; rewrite Forall_forall in Hh; exact (Hh _ Hx1).
    - pose proof (rep_keys _ _ (bo_map _ _ _ _ Hb)) as Hks; rewrite Forall_forall in Hks; apply Hks, (list_elem_of_fmap_2 fst _ _ Hx1). }
  assert (forall k e, (k, e) ∈ doomed <-> (k, e) ∈ items /\ swept_at (wi_shard_bytes w) lsn resume high (Z.eqb at_) (fst <$> pairs !! n) k e = true) as Hdoom.
  { intros k e; unfold doomed, swept_at; rewrite list_elem_of_In, filter_In, <- list_elem_of_In, !andb_true_iff, Z.eqb_eq; cbn [snd]; split.
    - intros [Ht Hd]; assert ((k, e) ∈ pairs) as Hin by (rewrite <- (take_drop n pairs); set_solver); destruct (Hpair _ Hin) as (_ & _ & Hsh & _); pose proof Hin as [Hi1 Hi2]%list_elem_of_In%filter_In.
      split_and!; [by apply list_elem_of_In | done | done | done | by apply (take_sorted pairs n (k, e))].
    - intros [Hi [[[Hsh Hrg] Hd] Hst]]; split; [| done]; apply (take_sorted pairs n (k, e)); [done | | done]; by apply list_elem_of_In, filter_In; split; [apply list_elem_of_In|]. }
  assert (Forall (fun pair => assoc items pair.1 = Some pair.2 /\ Entry_is_grave pair.2 = false) doomed) as Hf.
  { apply Forall_forall; intros [k e] Hin; apply Hdoom in Hin as [Hin Hg]; cbn [fst snd]; split; [by apply elem_assoc|].
    unfold swept_at, dooms in Hg; rewrite !andb_true_iff, negb_true_iff, orb_false_iff in Hg; tauto. }
  assert (NoDup (map fst doomed)) as Hnd.
  { apply sorted_keys_NoDup; eapply sorted_sub; [| exact Hps]; etrans; [apply filter_sublist|]; apply sublist_take. }
  assert (exists w' occ' book', (if (length doomed =? 0)%nat then Ok (w, book) else drop_doomed scan w at_ state book doomed) = Ok (w', book') /\ same_frame w w'
     /\ index_ok w' (<[Z.to_nat at_ := (drop_keys items (map fst doomed), pb)]> gs) occ') as (w' & occ' & book' & E & Hsf & Hok).
  { destruct (Nat.eqb_spec (length doomed) 0) as [E0|_].
    - apply nil_length_inv in E0; exists w, occ, book; split_and!; [done | done | rewrite E0; cbn [map drop_keys fold_left]; by rewrite list_insert_id].
    - apply (drop_doomed_ok w gs occ); try done; unfold counted in Hc; rewrite Forall_lookup in Hc; exact (Hc _ _ Eg). }
  rewrite E; res_simpl; eexists w', _, occ', book', _, _, _; split; [done|]; split_and!; [done | done | | | |].
  - apply (sub_kept_insert gs gs _ (items, pb)); [by apply sub_kept_refl | done |]; split; [apply drop_keys_sublist | done].
  - intros key; rewrite (entry_of_update _ _ at_ _ _ _ (io_bytes _ _ _ Hw) (proj1 Hat) Eg); cbn [fst]; rewrite drop_keys_assoc.
    destruct (Z.eqb_spec (shard_of_bytes (wi_shard_bytes w) key) at_) as [Esh|Hne].
    + assert (entry_of (wi_shard_bytes w) gs key = assoc items key) as Ee by (unfold entry_of; by rewrite Esh, Eg).
      rewrite Ee; destruct (assoc items key) as [e|] eqn:Ea; [| by destruct (bool_decide _)].
      destruct (bool_decide_reflect (key ∈ map fst doomed)) as [(p & -> & Hp)%list_elem_of_fmap|Hni].
      * destruct p as [k e']; pose proof (proj1 (Hdoom k e') Hp) as [Hi Hg]; cbn [fst] in *; rewrite (held_assoc items k e' Hs Hi) in Ea; injection Ea as <-; by rewrite Hg.
      * destruct (swept_at _ _ _ _ _ _ key e) eqn:Eg'; [| done]; exfalso; apply Hni, (list_elem_of_fmap_2 fst _ (key, e)), Hdoom; split; [by apply assoc_elem | done].
    + destruct (entry_of _ gs key) as [e|]; [| done]; unfold swept_at; destruct (Z.eqb_spec at_ (shard_of_bytes (wi_shard_bytes w) key)); [congruence | done].
  - destruct n as [|n]; [left; lia|]; right; split; [lia|]; destruct (lookup_lt_is_Some_2 pairs 0%nat) as [[k e] E0]; [lia|]; exists k.
    pose proof (list_elem_of_lookup_2 _ _ _ E0) as Hin; destruct (Hpair _ Hin) as (Hx1 & Hx2 & Hx3 & _); cbn [fst snd] in *; split_and!; [| done | done |].
    + exists e; unfold entry_of; unfold shard_of in Hx3; by rewrite Hx3, Eg.
    + apply (take_sorted pairs (S n) (k, e)); [done | done |]; apply list_elem_of_lookup; exists 0%nat; by rewrite lookup_take_lt by lia.
  - destruct (pairs !! n) as [[r e]|] eqn:Er; [| done]; cbn [fmap option_fmap option_map fst]; destruct (Hpair _ (list_elem_of_lookup_2 _ _ _ Er)) as (_ & H1 & H2 & H3).
    split_and!; [done | done | apply Hbud; by eapply lookup_lt_Some | done].
Qed.

Lemma unwalked_empty w gs occ key : index_ok w gs occ -> assoc occ (shard_of w key) = None -> entry_of (wi_shard_bytes w) gs key = None.
Proof.
  intros Hw Hn; destruct (shard_ok w gs occ _ Hw (key_in_column _ _ _ key Hw)) as (state & [items pb] & _ & _ & Eg & _ & [_ _ Hwk]); rewrite (entry_of_here _ _ _ _ _ Hw Eg); cbn [fst] in *.
  destruct items as [|x items]; [done|]; rewrite Hwk in Hn; [done | by left].
Qed.

Lemma stop_shards sb r key : 0 <= sb <= 2 -> shard_of_bytes sb key <> shard_of_bytes sb r -> stop_ok (Some r) key = (shard_of_bytes sb key <? shard_of_bytes sb r).
Proof.
  intros Hsb Hne; cbn [stop_ok]; destruct (Z.ltb_spec (shard_of_bytes sb key) (shard_of_bytes sb r)) as [Hlt|Hge]; [by apply bytes_ltb_lt, (shard_of_bytes_lt sb)|].
  apply bytes_ltb_ge; apply bytes_lt_le, (shard_of_bytes_lt sb); [done | lia].
Qed.

Definition between (low last s : Z) : bool := (low <=? s) && (s <=? last).

Lemma drops_ext sb gs gs' gone gone' : (forall key e, entry_of sb gs key = Some e -> gone key e = gone' key e) -> drops sb gs gs' gone -> drops sb gs gs' gone'.
Proof. intros Hg Hd key; rewrite (Hd key); destruct (entry_of sb gs key) eqn:E; [| done]; by rewrite (Hg _ _ E). Qed.

Lemma drops_trans sb gs gs1 gs2 gone gone' : drops sb gs gs1 gone -> drops sb gs1 gs2 gone' -> drops sb gs gs2 (fun key e => gone key e || gone' key e).
Proof. intros H1 H2 key; rewrite (H2 key), (H1 key); destruct (entry_of sb gs key) as [e|]; [| done]; by destruct (gone key e). Qed.

Lemma sweep_shards_ok last lsn budget resume high fuel : forall w gs occ low book swept, index_ok w gs occ -> counted gs -> accepts resume = true -> 0 <= low < U64 -> last < len (wi_shards w) ->
  (Z.to_nat (last + 1 - low) < fuel)%nat -> sw_stopped swept = None ->
  exists w' gs' occ' book' dropped examined stopped, sweep_shards scan fuel w low last lsn budget resume high book swept = Ok (w', book', mkSwept dropped examined stopped)
    /\ index_ok w' gs' occ' /\ same_frame w w' /\ Forall2 sub_kept gs' gs
    /\ drops (wi_shard_bytes w) gs gs' (swept_at (wi_shard_bytes w) lsn resume high (between low last) stopped)
    /\ (examined = sw_examined swept \/ sw_examined swept < examined /\ exists x, (exists e, entry_of (wi_shard_bytes w) gs x = Some e) /\ low <= shard_of w x /\ bytes_le resume x /\ stop_ok stopped x = true)
    /\ match stopped with
       | Some r => accepts r = true /\ low <= shard_of w r /\ budget <= examined /\ bytes_le resume r
       | None => True
       end.
Proof.
  induction fuel as [|fuel IH]; intros w gs occ low book swept Hw Hc Hr Hlow Hlast Hfuel Hst; [lia|]; cbn [sweep_shards]; pose proof (io_bytes _ _ _ Hw) as Hsb.
  destruct (next_occupied_ok w gs occ low last Hw Hlow) as (next & -> & Hnext); res_simpl; destruct next as [at_|]; cbn [next_spec] in Hnext.
  2:{ exists w, gs, occ, book, (sw_dropped swept), (sw_examined swept), None; split_and!; [destruct swept; cbn in Hst; by subst | done | done | apply sub_kept_refl | | by left | done].
      intros key; destruct (entry_of _ gs key) as [e|] eqn:Ee; [| done]; destruct (swept_at _ _ _ _ _ _ key e) eqn:Es; [| done]; exfalso.
      unfold swept_at, between in Es; rewrite !andb_true_iff, !Z.leb_le in Es; rewrite (unwalked_empty _ _ _ _ Hw) in Ee; [done|]; apply Hnext; unfold shard_of; lia. }
  destruct Hnext as (Hat & [u Hu] & Hskip); assert (in_column w at_) as Hin by (unfold in_column; lia).
  destruct (sweep_shard_ok w gs occ at_ lsn budget resume high book swept Hw Hin Hc Hr) as (w1 & gs1 & occ1 & book1 & dropped1 & examined1 & stopped1 & -> & Hw1 & Hsf1 & Hsub1 & Hd1 & Hx1 & Hs1).
  res_simpl; cbn [sw_stopped]; assert (wi_shard_bytes w1 = wi_shard_bytes w) as Eb by apply Hsf1.
  assert (forall key e, entry_of (wi_shard_bytes w) gs key = Some e -> low <= shard_of_bytes (wi_shard_bytes w) key < at_ -> False) as Hnone.
  { intros key e He Hs; rewrite (unwalked_empty _ _ _ _ Hw) in He; [done|]; apply Hskip; unfold shard_of; lia. }
  destruct stopped1 as [r|].
  - destruct Hs1 as (Ha & Hsr & Hb & Hle); exists w1, gs1, occ1, book1, dropped1, examined1, (Some r); split_and!; [done | done | done | done | | | done | unfold shard_of in *; lia | done | done].
    + eapply drops_ext; [| exact Hd1]; intros key e He; unfold swept_at; unfold shard_of in Hsr.
      destruct (Z.eqb_spec at_ (shard_of_bytes (wi_shard_bytes w) key)) as [E|Hne]; [unfold between; rewrite <- E, !(proj2 (Z.leb_le _ _)) by lia; done|]; cbn [andb].
      rewrite (stop_shards _ r key Hsb) by congruence; unfold between.
      destruct (Z.leb_spec low (shard_of_bytes (wi_shard_bytes w) key)), (Z.leb_spec (shard_of_bytes (wi_shard_bytes w) key) last), (Z.ltb_spec (shard_of_bytes (wi_shard_bytes w) key) (shard_of_bytes (wi_shard_bytes w) r)); cbn [andb]; rewrite ?andb_false_r; try done.
      exfalso; apply (Hnone key e He); lia.
    + destruct Hx1 as [?|[? (x & He & Hsx & Hx)]]; [by left | right; split; [done|]; exists x; split_and!; [done | lia | apply Hx | apply Hx]].
  - destruct (IH w1 gs1 occ1 (at_ + 1) book1 (mkSwept dropped1 examined1 None) Hw1) as (w' & gs' & occ' & book' & dropped & examined & stopped & E & Hw' & Hsf' & Hsub' & Hd' & Hx' & Hs'); try done.
    + by eapply counted_sub.
    + assert (len (wi_shards w) <= 2 ^ 16) by (rewrite (io_count _ _ _ Hw); apply Z.pow_le_mono_r; lia); unfold U64; lia.
    + unfold len; rewrite (sf_count _ _ Hsf1); exact Hlast.
    + lia.
    + rewrite Eb in *; exists w', gs', occ', book', dropped, examined, stopped; split_and!; [done | done | by etrans | | | |].
      * by eapply sub_kept_trans.
      * eapply drops_ext; [| exact (drops_trans _ _ _ _ _ _ Hd1 Hd')]; intros key e He; unfold swept_at, between; cbn [stop_ok]; rewrite andb_true_r.
        set (s := shard_of_bytes (wi_shard_bytes w) key); destruct (Z.eqb_spec at_ s) as [Es|Hne].
        -- rewrite (proj2 (Z.leb_gt (at_ + 1) s)) by lia; cbn [andb]; rewrite orb_false_r, !(proj2 (Z.leb_le _ _)) by lia; cbn [andb].
           destruct stopped as [r|]; [| by rewrite andb_true_r]; destruct Hs' as (_ & Hsr & _); rewrite (stop_shards (wi_shard_bytes w) r key Hsb); fold s; unfold shard_of in Hsr; rewrite ?Eb in Hsr; [| lia].
           rewrite (proj2 (Z.ltb_lt _ _)) by lia; by rewrite andb_true_r.
        -- cbn [andb orb]; destruct (Z.leb_spec (at_ + 1) s), (Z.leb_spec low s); try done; [lia|]; exfalso; apply (Hnone key e He); fold s; lia.
      * destruct Hx' as [Ex|[Hlt (x & [e He] & Hsx & Hx)]]; cbn [sw_examined] in *.
        -- subst examined; destruct Hx1 as [?|[? (x & He & Hsx & Hxr & _)]]; [by left | right; split; [done|]; exists x; split_and!; [done | lia | done |]].
           destruct stopped as [r|]; [| done]; destruct Hs' as (_ & Hsr & _); unfold shard_of in *; rewrite Eb in Hsr; rewrite (stop_shards (wi_shard_bytes w) r x Hsb) by lia; apply Z.ltb_lt; lia.
        -- right; split; [destruct Hx1 as [?|[? _]]; lia|]; exists x; unfold shard_of in *; rewrite Eb in Hsx; split_and!; [| lia | apply Hx | apply Hx].
           specialize (Hd1 x); rewrite He in Hd1; destruct (entry_of _ gs x) as [e'|]; [eauto | done].
      * destruct stopped as [r|]; [| done]; destruct Hs' as (Ha & Hsr & Hb & Hle); unfold shard_of in *; rewrite Eb in Hsr; split_and!; [done | lia | done | done].
Qed.

(** ** One run of the sweep *)

Definition same_cover (c c' : Covered) : Prop := cv_low c' = cv_low c /\ cv_high c' = cv_high c /\ cv_lsn c' = cv_lsn c.

Lemma set_phase_same covers lsn phase : Forall2 same_cover covers (set_phase covers lsn phase).
Proof.
  induction covers as [|c covers IH]; cbn [set_phase]; [constructor|]; destruct (cv_lsn c =? lsn); [constructor; [done|]; clear IH; induction covers; constructor; by rewrite ?IHcovers | by constructor].
Qed.

Lemma same_cover_covers c c' key lsn : same_cover c c' -> Covered_covers c' key lsn = Covered_covers c key lsn.
Proof. intros (E1 & E2 & E3); unfold Covered_covers; by rewrite E1, E2, E3. Qed.

Lemma same_covers_any covers covers' key lsn : Forall2 same_cover covers covers' ->
  existsb (fun cover => Covered_covers cover key lsn) covers' = existsb (fun cover => Covered_covers cover key lsn) covers.
Proof. induction 1 as [|c c' covers covers' Hc _ IH]; cbn [existsb]; [done|]; by rewrite (same_cover_covers c c' key lsn Hc), IH. Qed.

Lemma with_covers_ok w gs occ covers : index_ok w gs occ -> index_ok (with_covers w covers (negb (length covers =? 0)%nat)) gs occ.
Proof. intros []; by split. Qed.

Lemma find_cover_elem w lsn cover : find_cover w lsn = Some cover -> cover ∈ wi_covers w /\ cv_lsn cover = lsn.
Proof. intros [Hin E]%find_some; split; [by apply list_elem_of_In | by apply Z.eqb_eq]. Qed.

(** The keys of one cover's range from a key on. *)
Definition swept_from (lsn : Lsn) (resume : bytes) (high : option bytes) (stopped : option bytes) key (e : Entry) : bool :=
  in_range (Included resume) (upper_bound high) (key, e) && dooms lsn e && stop_ok stopped key.

Record swept_on w w' (lsn : Lsn) (phase : SweepPhase) : Prop := {
  so_covers : wi_covers w' = set_phase (wi_covers w) lsn phase;
  so_has : wi_has_covers w' = wi_has_covers w;
  so_lifted : wi_lifted w' = wi_lifted w;
  so_declared : wi_declared_width w' = wi_declared_width w;
  so_bytes : wi_shard_bytes w' = wi_shard_bytes w;
  so_count : length (wi_shards w') = length (wi_shards w);
}.

Lemma sweep_run_ok w gs occ low high lsn resume budget book : index_ok w gs occ -> counted gs -> find_cover w lsn = Some (mkCovered low high lsn (Sweep resume)) -> accepts resume = true ->
  exists w' gs' occ' book' dropped examined stopped,
    WidthIndex_sweep_run scan w lsn budget book = Ok (w', book', (dropped, examined, match stopped with Some _ => false | None => true end))
    /\ index_ok w' gs' occ' /\ swept_on w w' lsn (match stopped with Some r => Sweep r | None => Done end) /\ Forall2 sub_kept gs' gs
    /\ drops (wi_shard_bytes w) gs gs' (swept_from lsn resume high stopped)
    /\ match stopped with
       | Some r => accepts r = true /\ bytes_le resume r /\ (0 < budget -> exists x, (exists e, entry_of (wi_shard_bytes w) gs x = Some e) /\ bytes_le resume x /\ bytes_lt x r)
       | None => True
       end.
Proof.
  intros Hw Hc Ef Hr; unfold WidthIndex_sweep_run; rewrite Ef; set (last := match high with Some key => shard_of w key | None => len (wi_shards w) - 1 end).
  pose proof (key_in_column _ _ _ resume Hw) as [Hr0 Hr1]; assert (last < len (wi_shards w)) as Hlast.
  { subst last; destruct high as [key|]; [apply (key_in_column _ _ _ key Hw) | lia]. }
  destruct (shard_u64 _ _ _ _ Hw (conj Hr0 Hr1)) as [Hu _].
  destruct (sweep_shards_ok last lsn budget resume high (S (length (wi_shards w))) w gs occ (shard_of w resume) book (mkSwept 0 0 None) Hw Hc Hr)
    as (w' & gs' & occ' & book' & dropped & examined & stopped & -> & Hw' & Hsf & Hsub & Hd & Hx & Hs); [exact Hu | done | unfold len in *; lia | done |].
  res_simpl; cbn [sw_stopped sw_dropped sw_examined]; pose proof (io_bytes _ _ _ Hw) as Hsb.
  assert (drops (wi_shard_bytes w) gs gs' (swept_from lsn resume high stopped)) as Hd'.
  { eapply drops_ext; [| exact Hd]; intros key e He; unfold swept_at, swept_from; destruct (in_range _ _ _) eqn:Er; [| by rewrite andb_false_r]; rewrite andb_true_r.
    assert (between (shard_of w resume) last (shard_of_bytes (wi_shard_bytes w) key) = true) as ->; [| done].
    unfold in_range, above_low, below_high in Er; apply andb_true_iff in Er as [Er1 Er2]; unfold between, shard_of; cbn [fst] in *.
    rewrite (proj2 (Z.leb_le _ _)) by (apply shard_of_bytes_mono; [done | by apply bytes_leb_le]); cbn [andb]; apply Z.leb_le; subst last; destruct high as [h|]; cbn [upper_bound] in Er2.
    - apply shard_of_bytes_mono; [done|]; apply bytes_lt_le; by apply bytes_ltb_lt.
    - pose proof (key_in_column _ _ _ key Hw) as [_ Hk]; unfold shard_of in Hk; lia. }
  assert (forall phase, index_ok (with_covers w' (set_phase (wi_covers w') lsn phase) (wi_has_covers w')) gs' occ' /\ swept_on w (with_covers w' (set_phase (wi_covers w') lsn phase) (wi_has_covers w')) lsn phase) as Hfin.
  { intros phase; split; [| destruct Hsf; constructor; cbn; congruence]; pose proof (Forall2_length _ _ _ (set_phase_same (wi_covers w') lsn phase)) as El.
    rewrite (io_covers _ _ _ Hw'), El; by apply with_covers_ok. }
  destruct stopped as [r|].
  - destruct Hs as (Ha & Hsr & Hb & Hle); destruct (Hfin (Sweep r)) as [H1 H2]; eexists _, gs', occ', book', dropped, examined, (Some r); split_and!; [done | done | done | done | done | done | done |].
    intros Hbud; destruct Hx as [->|[_ (x & He & _ & Hrx & Hst)]]; [cbn [sw_examined] in Hb; lia|]; exists x; split_and!; [done | done | by apply bytes_ltb_lt].
  - destruct (Hfin Done) as [H1 H2]; eexists _, gs', occ', book', dropped, examined, None; by split_and!.
Qed.

(** ** Ending *)

Definition keys_from gs (resume : bytes) : nat := length (List.filter (fun pair => bytes_leb resume pair.1) (concat (map fst gs))).

Lemma concat_sub gs gs' : Forall2 sub_kept gs' gs -> concat (map fst gs') `sublist_of` concat (map fst gs).
Proof. induction 1 as [|g' g gs' gs [Hs _] _ IH]; cbn [map concat]; [constructor | by apply sublist_app]. Qed.

Lemma filter_sub_length (f : bytes * Entry -> bool) l l' : l' `sublist_of` l -> (length (List.filter f l') <= length (List.filter f l))%nat.
Proof. induction 1 as [|x l1 l2 _ IH|x l1 l2 _ IH]; cbn [List.filter]; [done | |]; destruct (f x); cbn [length]; lia. Qed.

Lemma filter_strict (f f' : bytes * Entry -> bool) l x : (forall y, f' y = true -> f y = true) -> x ∈ l -> f x = true -> f' x = false -> (length (List.filter f' l) < length (List.filter f l))%nat.
Proof.
  intros Hff Hx Hf Hf'; induction l as [|y l IH]; [by apply elem_of_nil in Hx|].
  assert (length (List.filter f' l) <= length (List.filter f l))%nat as Hle.
  { clear -Hff; induction l as [|y l IH]; cbn [List.filter]; [done|]; destruct (f' y) eqn:E; [rewrite (Hff y E); cbn [length]; lia|]; destruct (f y); cbn [length]; lia. }
  apply elem_of_cons in Hx as [<-|Hx]; cbn [List.filter]; [rewrite Hf, Hf'; cbn [length]; lia|]; specialize (IH Hx).
  destruct (f' y) eqn:E; [rewrite (Hff y E); cbn [length]; lia|]; destruct (f y); cbn [length]; lia.
Qed.

Lemma entry_in_column w gs occ key e : index_ok w gs occ -> entry_of (wi_shard_bytes w) gs key = Some e -> (key, e) ∈ concat (map fst gs).
Proof.
  intros Hw; destruct (shard_ok w gs occ _ Hw (key_in_column _ _ _ key Hw)) as (state & g & _ & _ & Eg & _ & _); rewrite (entry_of_here _ _ _ _ _ Hw Eg); intros Ha%assoc_elem.
  apply list_elem_of_In, in_concat; exists g.1; split; [apply in_map, list_elem_of_In, list_elem_of_lookup; eauto | by apply list_elem_of_In].
Qed.

Lemma keys_from_falls w gs gs' occ resume r : index_ok w gs occ -> Forall2 sub_kept gs' gs -> bytes_le resume r ->
  (exists x, (exists e, entry_of (wi_shard_bytes w) gs x = Some e) /\ bytes_le resume x /\ bytes_lt x r) -> (keys_from gs' r < keys_from gs resume)%nat.
Proof.
  intros Hw Hsub Hle (x & [e He] & Hx & Hxr); unfold keys_from; eapply Nat.le_lt_trans; [apply filter_sub_length, concat_sub, Hsub|].
  apply (filter_strict _ _ _ (x, e)); [| by eapply entry_in_column | by apply bytes_leb_le | by apply bytes_leb_gt].
  intros y Hy%bytes_leb_le; apply bytes_leb_le; by apply (bytes_le_trans _ r).
Qed.

(** Run after run until one says the cover is done. *)
Fixpoint sweep_until (runs : nat) w (lsn : Lsn) (budget : Z) book : res (WidthIndex M * Book * bool) :=
  match runs with
  | O => Ok (w, book, false)
  | S runs =>
      '(w, book, (_, _, is_done)) ← WidthIndex_sweep_run scan w lsn budget book;
      if is_done : bool then Ok (w, book, true) else sweep_until runs w lsn budget book
  end.

Lemma set_phase_twice covers lsn phase phase' : set_phase (set_phase covers lsn phase) lsn phase' = set_phase covers lsn phase'.
Proof. induction covers as [|c covers IH]; cbn [set_phase]; [done|]; destruct (cv_lsn c =? lsn) eqn:E; cbn [set_phase cv_lsn]; rewrite E; [done | by rewrite IH]. Qed.

Lemma find_set_phase covers lsn phase low high old : List.find (fun cover => cv_lsn cover =? lsn) covers = Some (mkCovered low high lsn old) ->
  List.find (fun cover => cv_lsn cover =? lsn) (set_phase covers lsn phase) = Some (mkCovered low high lsn phase).
Proof.
  induction covers as [|c covers IH]; cbn [set_phase List.find]; [done|]; destruct (cv_lsn c =? lsn) eqn:E; cbn [List.find cv_lsn]; rewrite E; [by intros [= ->] | done].
Qed.

Lemma sweep_until_ok n : forall w gs occ low high lsn resume budget book, index_ok w gs occ -> counted gs -> find_cover w lsn = Some (mkCovered low high lsn (Sweep resume)) -> accepts resume = true ->
  0 < budget -> (keys_from gs resume < n)%nat ->
  exists w' gs' occ' book', sweep_until n w lsn budget book = Ok (w', book', true) /\ index_ok w' gs' occ' /\ swept_on w w' lsn Done /\ Forall2 sub_kept gs' gs
    /\ drops (wi_shard_bytes w) gs gs' (swept_from lsn resume high None).
Proof.
  induction n as [|n IH]; intros w gs occ low high lsn resume budget book Hw Hc Ef Hr Hb Hn; [lia|]; cbn [sweep_until].
  destruct (sweep_run_ok w gs occ low high lsn resume budget book Hw Hc Ef Hr) as (w1 & gs1 & occ1 & book1 & dropped & examined & stopped & -> & Hw1 & Hon & Hsub & Hd & Hs); res_simpl.
  destruct stopped as [r|]; [| by exists w1, gs1, occ1, book1].
  destruct Hs as (Ha & Hle & Hx); pose proof (keys_from_falls w gs gs1 occ resume r Hw Hsub Hle (Hx Hb)) as Hlt.
  assert (find_cover w1 lsn = Some (mkCovered low high lsn (Sweep r))) as Ef1 by (unfold find_cover in *; rewrite (so_covers _ _ _ _ Hon); by eapply find_set_phase).
  destruct (IH w1 gs1 occ1 low high lsn r budget book1 Hw1) as (w' & gs' & occ' & book' & E & Hw' & Hon' & Hsub' & Hd'); [by eapply counted_sub | done | done | done | lia |].
  pose proof (so_bytes _ _ _ _ Hon) as Eb; rewrite Eb in Hd'; exists w', gs', occ', book'; split_and!; [done | done | | |].
  - destruct Hon as [H1 H2 H3 H4 H5 H6], Hon' as [G1 G2 G3 G4 G5 G6]; constructor; try congruence; by rewrite G1, H1, set_phase_twice.
  - by eapply sub_kept_trans.
  - eapply drops_ext; [| exact (drops_trans _ _ _ _ _ _ Hd Hd')]; intros key e _; unfold swept_from, in_range, above_low; cbn [fst stop_ok]; rewrite !andb_true_r.
    change (key_leb resume key) with (bytes_leb resume key); change (key_leb r key) with (bytes_leb r key).
    destruct (bytes_leb resume key) eqn:E1, (bytes_leb r key) eqn:E2; cbn [andb orb].
    + rewrite (proj2 (bytes_ltb_ge key r)) by (by apply bytes_leb_le); by rewrite andb_false_r.
    + apply bytes_leb_gt, bytes_ltb_lt in E2; rewrite E2; by rewrite andb_true_r, orb_false_r.
    + apply bytes_leb_le in E2; apply bytes_leb_gt in E1; exfalso; apply (bytes_lt_irrefl key); eapply bytes_lt_le_trans; [exact E1|]; by apply (bytes_le_trans _ r).
    + done.
Qed.
End sweep.
