(* ===== verification/ColumnHistory.v ===== *)
(** * A column over any history of writes ([index/column.rs])

    Puts, deletes and range deletes reach a column in whatever order its writers and a rebuild bring
    them, with sweeps in between. The column answers every key by its newest write, and nothing a
    sweep does changes an answer. *)
From S2P Require Import Prelude Error Arrays Bytes Lsn Column IndexEntry Counters Tally ShardFilter FilledBits TreeKey TBTree TBTreeRep TBTreeOps TBTreeInsert TBTreeWalk SealedRanges ShardMap ColumnIndex ColumnRep ColumnWrites ColumnSweep.

(** ** What the writes spell *)

Inductive Op := OpPut (key : bytes) (loc : Loc) (lsn : Lsn) | OpDelete (key : bytes) (tombstone : Loc) (lsn : Lsn) | OpRange (start : bytes) (end_ : option bytes) (lsn : Lsn).

Definition op_lsn (op : Op) : Lsn := match op with OpPut _ _ lsn | OpDelete _ _ lsn | OpRange _ _ lsn => lsn end.

Definition op_on (key : bytes) (op : Op) : bool := match op with OpPut k _ _ | OpDelete k _ _ => bytes_eqb k key | OpRange _ _ _ => false end.

(** A range delete takes the keys from its start up to its end, of versions older than itself. *)
Definition op_covers (key : bytes) (lsn : Lsn) (op : Op) : bool :=
  match op with
  | OpRange start end_ l => (lsn <? l) && bytes_leb start key && match end_ with Some e => bytes_ltb key e | None => true end
  | _ => false
  end.

Fixpoint newest (key : bytes) (ops : list Op) : option Op :=
  match ops with
  | [] => None
  | op :: ops =>
      if op_on key op then match newest key ops with Some o => if op_lsn o <? op_lsn op then Some op else Some o | None => Some op end
      else newest key ops
  end.

(** The newest write of a key decides it, unless a newer range delete took it. *)
Definition column_get (ops : list Op) (key : bytes) : option (Loc * Lsn) :=
  match newest key ops with
  | Some (OpPut _ loc lsn) => if existsb (op_covers key lsn) ops then None else Some (loc, lsn)
  | _ => None
  end.

Lemma newest_none key ops op : newest key ops = None -> op ∈ ops -> op_on key op = true -> False.
Proof.
  induction ops as [|x ops IH]; intros En Ho Hk; [by apply elem_of_nil in Ho|]; cbn [newest] in En; apply elem_of_cons in Ho as [->|Ho].
  - rewrite Hk in En; destruct (newest key ops); [by destruct (_ <? _) | done].
  - destruct (op_on key x); [destruct (newest key ops); [by destruct (_ <? _) | done] | auto].
Qed.

Lemma newest_in key ops op : newest key ops = Some op -> op ∈ ops /\ op_on key op = true /\ forall o, o ∈ ops -> op_on key o = true -> op_lsn o <= op_lsn op.
Proof.
  revert op; induction ops as [|o ops IH]; intros op; cbn [newest]; [done|]; destruct (op_on key o) eqn:Eo.
  - destruct (newest key ops) as [n|] eqn:En.
    + destruct (IH n eq_refl) as (Hn & Hon & Hmax); destruct (Z.ltb_spec (op_lsn n) (op_lsn o)); intros [= <-]; split_and!; [set_solver | done | | set_solver | done |];
        intros o' [->|Ho']%elem_of_cons Hk; try lia; specialize (Hmax o' Ho' Hk); lia.
    + intros [= <-]; split_and!; [set_solver | done |]; intros o' [->|Ho']%elem_of_cons Hk; [lia|]; exfalso; exact (newest_none key ops o' En Ho' Hk).
  - intros En; destruct (IH op En) as (Hn & Hon & Hmax); split_and!; [set_solver | done |]; intros o' [->|Ho']%elem_of_cons Hk; [congruence | auto].
Qed.

Lemma same_lsn_op (ops : list Op) op op' : NoDup (map op_lsn ops) -> op ∈ ops -> op' ∈ ops -> op_lsn op' = op_lsn op -> op' = op.
Proof.
  intros Hnd Hop Hop' Elsn; induction ops as [|x ops IH]; [by apply elem_of_nil in Hop|]; cbn [map] in Hnd; apply NoDup_cons in Hnd as [Hni Hnd]; apply elem_of_cons in Hop as [->|Hop], Hop' as [->|Hop']; auto;
    exfalso; apply Hni; [rewrite <- Elsn | rewrite Elsn]; by apply (list_elem_of_fmap_2 op_lsn).
Qed.

Section history.
Context {M Book : Type} {IK : IndexKey} {IKL : IndexKeyLaws} {SM : ShardMap M Entry} {SML : ShardMapLaws M Entry} {BK : Bookings Book}.
Variable scan : Scan.
Implicit Types (w : WidthIndex M) (gs : list Kept) (occ : list (Z * unit)) (book : Book) (key : bytes) (ops : list Op).

(** A bound the column takes: a key of it, or bytes no wider than its widest key. *)
Definition bound_fits (bound : bytes) : Prop := accepts bound = true \/ len bound <= widest.

(** Such a bound cuts the column's keys where its padded form does. *)
Lemma bound_cuts bound key : bound_fits bound -> accepts key = true -> bytes_leb (low_bound bound) key = bytes_leb bound key.
Proof. intros [Hb|Hb] Ha; [by rewrite low_bound_key | by apply low_bound_cuts]. Qed.

Definition fresh (lsn : Lsn) ops : Prop := Forall (fun op => op_lsn op <> lsn) ops.

(** The columns a history reaches, beside its writes. *)
Inductive column_reached : WidthIndex M -> list Op -> Prop :=
| reached_new spec : 0 <= cs_shard_bytes spec <= 2 -> column_reached (WidthIndex_new spec) []
| reached_put w ops key loc lsn book w' book' landed : column_reached w ops -> room w -> fresh lsn ops -> accepts key = true -> is_u32 (loc_len loc) -> loc_segment loc <> NO_SEGMENT ->
    WidthIndex_insert scan w key (Entry_new loc lsn) book = Ok (w', book', landed) -> column_reached w' (ops ++ [OpPut key loc lsn])
| reached_delete w ops key tombstone lsn book w' book' landed : column_reached w ops -> room w -> fresh lsn ops -> accepts key = true ->
    WidthIndex_remove scan w key lsn tombstone book = Ok (w', book', landed) -> column_reached w' (ops ++ [OpDelete key tombstone lsn])
| reached_range w ops start end_ lsn : column_reached w ops -> fresh lsn ops -> bound_fits start -> match end_ with Some e => bound_fits e | None => True end ->
    column_reached (WidthIndex_remove_range w start end_ lsn) (ops ++ [OpRange start end_ lsn])
| reached_release w ops lsn : column_reached w ops -> column_reached (WidthIndex_advance_release w lsn None) ops
| reached_sweep w ops lsn budget book w' book' answer : column_reached w ops -> room w ->
    WidthIndex_sweep_run scan w lsn budget book = Ok (w', book', answer) -> column_reached w' ops.

(** ** The invariant *)

Definition covers_at w key (lsn : Lsn) : bool := existsb (fun cover => Covered_covers cover key lsn) (wi_covers w).

Definition phase_ok (c : Covered) : Prop := accepts (cv_low c) = true /\ match cv_phase c with Sweep r => accepts r = true /\ bytes_le (cv_low c) r | _ => True end.

Definition matches (e : Entry) (op : Op) : Prop :=
  op_lsn op = en_lsn e /\ match op with OpPut _ loc _ => en_loc e = loc /\ Entry_is_grave e = false | _ => Entry_is_grave e = true end.

(** What a cover's sweep has passed holds no record it covers. *)
Definition swept_clean sb gs (c : Covered) : Prop := forall key e, entry_of sb gs key = Some e -> Covered_covers c key (en_lsn e) = true ->
  match cv_phase c with Release _ => False | Sweep r => bytes_lt key r | Done => True end -> Entry_is_grave e = true.

Record history_ok w ops gs occ : Prop := {
  ho_index : index_ok w gs occ;
  ho_phases : Forall phase_ok (wi_covers w);
  ho_covers key lsn : accepts key = true -> covers_at w key lsn = existsb (op_covers key lsn) ops;
  ho_held key e : entry_of (wi_shard_bytes w) gs key = Some e -> exists op, op ∈ ops /\ op_on key op = true /\ matches e op;
  ho_lost key op : op ∈ ops -> op_on key op = true -> (exists e, entry_of (wi_shard_bytes w) gs key = Some e /\ op_lsn op <= en_lsn e) \/ covers_at w key (op_lsn op) = true;
  ho_accepted key op : op ∈ ops -> op_on key op = true -> accepts key = true;
  ho_fresh : NoDup (map op_lsn ops);
  ho_raised : Forall (fun cover => cv_lsn cover ∈ map op_lsn ops) (wi_covers w);
  ho_clean : Forall (swept_clean (wi_shard_bytes w) gs) (wi_covers w);
}.

Lemma covers_at_down w key lsn lsn' : lsn' <= lsn -> covers_at w key lsn = true -> covers_at w key lsn' = true.
Proof.
  unfold covers_at; intros Hle (c & Hc & Hcov)%existsb_exists; apply existsb_exists; exists c; split; [done|]; unfold Covered_covers in *.
  destruct (Z.leb_spec (cv_lsn c) lsn) as [H1|H1]; cbn [orb] in Hcov; [done|]; destruct (Z.leb_spec (cv_lsn c) lsn'); [lia|]; done.
Qed.

(** The answer of a column is its newest write's. *)
Lemma history_get w ops gs occ key : history_ok w ops gs occ -> exists found, WidthIndex_get w key = Ok found /\ (fun e => (en_loc e, en_lsn e)) <$> found = column_get ops key.
Proof.
  intros [Hw Hph Hcov Hheld Hlost Hacc Hnd _ _]; rewrite (index_get_ok w gs occ key Hw); eexists; split; [done|]; unfold column_get, shown; fold (covers_at w key).
  destruct (newest key ops) as [op|] eqn:En.
  - destruct (newest_in _ _ _ En) as (Hop & Hon & Hmax); pose proof (Hacc key op Hop Hon) as Ha; destruct (entry_of _ gs key) as [e|] eqn:Ee.
    + destruct (Hheld key e Ee) as (op' & Hop' & Hon' & Hlsn & Hm); pose proof (Hmax op' Hop' Hon') as Hle; rewrite Hlsn in Hle.
      fold (covers_at w key (en_lsn e)); destruct (covers_at w key (op_lsn op)) eqn:Ec.
      * rewrite (covers_at_down _ _ _ _ Hle Ec), orb_true_r; destruct op as [k loc lsn| |]; [| done | done]; cbn [op_lsn] in Ec; by rewrite <- (Hcov key lsn Ha), Ec.
      * destruct (Hlost key op Hop Hon) as [(e' & Ee' & Hge)|]; [| congruence]; rewrite Ee in Ee'; injection Ee' as <-; assert (op_lsn op' = op_lsn op) as Elsn by lia.
        pose proof (same_lsn_op ops op op' Hnd Hop Hop' Elsn) as ->.
        replace (en_lsn e) with (op_lsn op) by lia; rewrite Ec, orb_false_r; destruct op as [k loc lsn| |]; cbn [op_lsn] in *; [| by rewrite Hm | by rewrite Hm].
        destruct Hm as [El ->]; cbn; rewrite <- (Hcov key lsn Ha), Ec; by rewrite El, Hlsn.
    + destruct (Hlost key op Hop Hon) as [(e' & Ee' & _)|Hc]; [congruence|]; destruct op as [k loc lsn| |]; [| done | done]; cbn [op_lsn] in Hc; by rewrite <- (Hcov key lsn Ha), Hc.
  - destruct (entry_of _ gs key) as [e|] eqn:Ee; [| done]; destruct (Hheld key e Ee) as (op & Hop & Hon & _); by destruct (newest_none _ _ _ En Hop Hon).
Qed.

Lemma new_index_ok spec : 0 <= cs_shard_bytes spec <= 2 -> index_ok (WidthIndex_new (M := M) spec) (replicate (Z.to_nat (ColumnSpec_shard_count spec)) ([], 0)) [].
Proof.
  intros Hsb; assert (ColumnSpec_shard_count spec = 2 ^ (8 * cs_shard_bytes spec)) as Ec by (unfold ColumnSpec_shard_count; by rewrite Z.shiftl_1_l).
  assert (0 < ColumnSpec_shard_count spec) as Hpos by (rewrite Ec; apply Z.pow_pos_nonneg; lia).
  split; cbn [WidthIndex_new wi_shards wi_shard_bytes wi_filters wi_filled wi_occupied wi_covers wi_has_covers]; rewrite ?len_replicate, ?Z2Nat.id by lia; try done.
  - by rewrite !length_replicate.
  - by apply new_ok.
  - rewrite Z2Nat.id by (apply Z.div_pos; lia); pose proof (Z.div_mod (ColumnSpec_shard_count spec + 63) 64 ltac:(done)); pose proof (Z.mod_pos_bound (ColumnSpec_shard_count spec + 63) 64 ltac:(done)); lia.
  - apply Forall_replicate; unfold is_u64, U64; lia.
  - by left.
  - intros at_ state g Hat [-> _]%lookup_replicate [-> _]%lookup_replicate; split; split; cbn [fst snd ShardState_empty ss_map ss_bytes ss_graves ss_oldest_grave ss_paged weigh]; try done.
    + apply rep_default.
    + by intros [?|?].
Qed.

Lemma NoDup_fresh ops op : NoDup (map op_lsn ops) -> fresh (op_lsn op) ops -> NoDup (map op_lsn (ops ++ [op])).
Proof.
  intros Hnd Hf; rewrite map_app; apply NoDup_app; split_and!; [done | | apply NoDup_singleton]; intros l Hl Hl'; cbn [map] in Hl'; apply list_elem_of_singleton in Hl' as ->.
  apply list_elem_of_fmap in Hl as (o & El & Ho); unfold fresh in Hf; rewrite Forall_forall in Hf; by apply (Hf o Ho).
Qed.

Lemma fresh_ne lsn ops op : fresh lsn ops -> op ∈ ops -> op_lsn op <> lsn.
Proof. unfold fresh; rewrite Forall_forall; auto. Qed.

Lemma not_range_covers key lsn ops op : match op with OpRange _ _ _ => False | _ => True end -> existsb (op_covers key lsn) (ops ++ [op]) = existsb (op_covers key lsn) ops.
Proof. intros Hop; rewrite existsb_app; cbn [existsb]; destruct op; [| | done]; cbn [op_covers]; by rewrite orb_false_r. Qed.

Lemma held_lsn w ops gs occ key e lsn : history_ok w ops gs occ -> fresh lsn ops -> entry_of (wi_shard_bytes w) gs key = Some e -> en_lsn e <> lsn.
Proof. intros Hh Hf He; destruct (ho_held _ _ _ _ Hh key e He) as (op & Hop & _ & <- & _); by eapply fresh_ne. Qed.

Lemma covers_at_frame w w' key lsn : same_frame w w' -> covers_at w' key lsn = covers_at w key lsn.
Proof. intros Hsf; unfold covers_at; by rewrite (sf_covers _ _ Hsf). Qed.

(** A write of one key that left the column with it, or with what it had. *)
Lemma history_write w w' ops gs gs' occ occ' key op e (won : bool) : history_ok w ops gs occ -> index_ok w' gs' occ' -> same_frame w w' -> fresh (op_lsn op) ops -> accepts key = true ->
  op_on key op = true -> (forall k, op_on k op = true -> k = key) -> match op with OpRange _ _ _ => False | _ => True end ->
  (if won then updates (wi_shard_bytes w) gs gs' key e /\ matches e op else same_keys (wi_shard_bytes w) gs gs') ->
  (won = true -> forall e', entry_of (wi_shard_bytes w) gs key = Some e' -> en_lsn e' <= op_lsn op) ->
  (won = true -> Entry_is_grave e = true \/ covers_at w key (en_lsn e) = false) ->
  (won = false -> (exists e', entry_of (wi_shard_bytes w) gs key = Some e' /\ op_lsn op <= en_lsn e') \/ covers_at w key (op_lsn op) = true) ->
  history_ok w' (ops ++ [op]) gs' occ'.
Proof.
  intros Hh Hw' Hsf Hf Ha Hon Hone Hop Hup Hwon Hunc Hlost; pose proof Hh as [Hw Hph Hcov Hheld Hlo Hacc Hnd Hra Hcl].
  split; rewrite ?(sf_covers _ _ Hsf), ?(sf_bytes _ _ Hsf); try done.
  - intros k lsn Hk; rewrite (covers_at_frame _ _ _ _ Hsf), not_range_covers by done; by apply Hcov.
  - intros k e' He'; destruct won; [destruct Hup as [[Hent _] Hm]; rewrite Hent in He'; destruct (key_eqb key k) eqn:Ek | destruct Hup as [Hent _]; rewrite Hent in He'].
    + apply key_eqb_eq in Ek as <-; injection He' as <-; exists op; split_and!; [set_solver | done | done].
    + destruct (Hheld k e' He') as (o & Ho & ?); exists o; split; [set_solver | done].
    + destruct (Hheld k e' He') as (o & Ho & ?); exists o; split; [set_solver | done].
  - intros k o [Ho|Ho%list_elem_of_singleton]%elem_of_app Hk; rewrite (covers_at_frame _ _ _ _ Hsf).
    + destruct (Hlo k o Ho Hk) as [(e' & He' & Hle)|?]; [| by right]; left; destruct won; [destruct Hup as [[Hent _] Hm] | destruct Hup as [Hent _]; rewrite Hent; eauto].
      rewrite Hent; destruct (key_eqb key k) eqn:Ek; [| eauto]; apply key_eqb_eq in Ek as <-; exists e; split; [done|]; specialize (Hwon eq_refl e' He'); destruct Hm as [<- _]; lia.
    + subst o; apply Hone in Hk as ->; destruct won; [left; exists e; destruct Hup as [[Hent _] [<- _]]; rewrite Hent, (proj2 (key_eqb_eq key key)) by done; split; [done | lia]|].
      destruct Hup as [Hent _]; rewrite Hent; auto.
  - intros k o [Ho|Ho%list_elem_of_singleton]%elem_of_app Hk; [by eapply Hacc | subst o; by apply Hone in Hk as ->].
  - by apply NoDup_fresh.
  - eapply Forall_impl; [exact Hra|]; intros c Hc; rewrite map_app, elem_of_app; by left.
  - apply Forall_forall; intros c Hc k e' He' Hcv Hph'; rewrite Forall_forall in Hcl.
    destruct won; [destruct Hup as [[Hent _] Hm]; rewrite Hent in He'; destruct (key_eqb key k) eqn:Ek | destruct Hup as [Hent _]; rewrite Hent in He'; by eapply Hcl]; [| by eapply Hcl].
    apply key_eqb_eq in Ek as <-; injection He' as <-; destruct (Hunc eq_refl) as [?|Hno]; [done|]; exfalso; unfold covers_at in Hno; apply not_true_iff_false in Hno; apply Hno, existsb_exists; exists c; split; [by apply list_elem_of_In | done].
Qed.

Lemma put_history w ops gs occ key loc lsn book : history_ok w ops gs occ -> room w -> fresh lsn ops -> accepts key = true -> is_u32 (loc_len loc) -> loc_segment loc <> NO_SEGMENT ->
  exists w' book' landed gs' occ', WidthIndex_insert scan w key (Entry_new loc lsn) book = Ok (w', book', landed) /\ history_ok w' (ops ++ [OpPut key loc lsn]) gs' occ'.
Proof.
  intros Hh Hroom Hf Ha Hl Hs; pose proof (ho_index _ _ _ _ Hh) as Hw; unfold WidthIndex_insert, insert_unless; rewrite from_slice_accepts, Ha.
  assert (Entry_is_grave (Entry_new loc lsn) = false) as Hng by (by apply Z.eqb_neq).
  destruct (insert_held_ok scan w gs occ key (Entry_new loc lsn) book never_shadowed Hw Hroom Ha Hl Hng) as (w' & gs' & occ' & book' & landed & E & Hw' & Hsf & _ & Hup).
  exists w', book', landed, gs', occ'; split; [done|]; cbn [en_lsn Entry_new] in Hup.
  eapply (history_write w w' ops gs gs' occ occ' key (OpPut key loc lsn) _ (put_wins w gs key lsn never_shadowed)); try done.
  - cbn; by apply bool_decide_eq_true_2.
  - intros k; cbn; intros ?%bool_decide_eq_true_1; done.
  - destruct (put_wins _ _ _ _ _); [split; [exact Hup | done] | done].
  - intros Hwin e' He'; unfold put_wins in Hwin; rewrite He' in Hwin; apply andb_true_iff in Hwin as [_ Hlt%Z.ltb_lt]; cbn [op_lsn]; lia.
  - intros Hwin; right; unfold put_wins in Hwin; apply andb_true_iff in Hwin as [Hno%negb_true_iff _]; exact Hno.
  - intros Hlose; unfold put_wins in Hlose; cbn [op_lsn]; fold (covers_at w key lsn) in Hlose; destruct (covers_at w key lsn); [by right|]; left; cbn [negb andb] in Hlose.
    destruct (entry_of _ gs key) as [e'|]; [| done]; exists e'; split; [done | by apply Z.ltb_ge].
Qed.

Lemma delete_history w ops gs occ key tombstone lsn book : history_ok w ops gs occ -> room w -> fresh lsn ops -> accepts key = true ->
  exists w' book' landed gs' occ', WidthIndex_remove scan w key lsn tombstone book = Ok (w', book', landed) /\ history_ok w' (ops ++ [OpDelete key tombstone lsn]) gs' occ'.
Proof.
  intros Hh Hroom Hf Ha; pose proof (ho_index _ _ _ _ Hh) as Hw; unfold WidthIndex_remove, remove_unless; rewrite from_slice_accepts, Ha.
  edestruct (remove_held_ok scan w gs occ key lsn tombstone) as (w' & gs' & occ' & book' & landed & E & Hw' & Hsf & _ & Hup); [exact Hw | done | done |].
  rewrite E; exists w', book', landed, gs', occ'; split; [done|].
  assert (grave_again w gs key lsn = false) as Eag.
  { unfold grave_again; destruct (entry_of _ gs key) as [e'|] eqn:Ee; [| done]; apply andb_false_iff; right; apply Z.eqb_neq; by eapply held_lsn. }
  rewrite Eag, orb_false_r in Hup.
  eapply (history_write w w' ops gs gs' occ occ' key (OpDelete key tombstone lsn) _ (delete_wins w gs key lsn never_shadowed)); try done.
  - cbn; by apply bool_decide_eq_true_2.
  - intros k; cbn; intros ?%bool_decide_eq_true_1; done.
  - destruct (delete_wins _ _ _ _ _); [split; [exact Hup | done] | done].
  - intros Hwin e' He'; unfold delete_wins in Hwin; rewrite He' in Hwin; apply Z.ltb_lt in Hwin; cbn [op_lsn]; lia.
  - by left.
  - intros Hlose; unfold delete_wins in Hlose; destruct (entry_of _ gs key) as [e'|]; [| done]; left; exists e'; split; [done | by apply Z.ltb_ge].
Qed.

(** A change of the covers and of nothing else. *)
Lemma history_covers w ops ops' gs occ covers : history_ok w ops gs occ -> Forall phase_ok covers ->
  (forall key lsn, accepts key = true -> existsb (fun cover => Covered_covers cover key lsn) covers = existsb (op_covers key lsn) ops') ->
  (forall key lsn, covers_at w key lsn = true -> existsb (fun cover => Covered_covers cover key lsn) covers = true) ->
  (forall key op, op_on key op = true -> op ∈ ops' <-> op ∈ ops) -> NoDup (map op_lsn ops') -> Forall (fun cover => cv_lsn cover ∈ map op_lsn ops') covers -> Forall (swept_clean (wi_shard_bytes w) gs) covers ->
  history_ok (with_covers w covers (negb (length covers =? 0)%nat)) ops' gs occ.
Proof.
  intros [Hw Hph Hcov Hheld Hlo Hacc Hnd _ _] Hph' Hcov' Hkeep Hops Hnd' Hra Hcl; split; cbn [with_covers wi_covers wi_shard_bytes]; try done; [by apply with_covers_ok | | |].
  - intros key e He; destruct (Hheld key e He) as (op & Hop & Hon & Hm); exists op; split_and!; [by apply (Hops key) | done | done].
  - intros key op Hop Hon; apply (Hops key op Hon) in Hop; destruct (Hlo key op Hop Hon) as [?|Hc]; [by left | right; by apply Hkeep].
  - intros key op Hop Hon; apply (Hops key op Hon) in Hop; by eapply Hacc.
Qed.

Lemma cover_of_range start end_ lsn key l : bound_fits start -> match end_ with Some e => bound_fits e | None => True end -> accepts key = true ->
  Covered_covers (mkCovered (low_bound start) (low_bound <$> end_) lsn (Release (low_bound start))) key l = op_covers key l (OpRange start end_ lsn).
Proof.
  intros Hs He Ha; unfold Covered_covers; cbn [cv_low cv_high cv_lsn op_covers]; rewrite bytes_ltb_leb, (bound_cuts start key Hs Ha).
  destruct (Z.leb_spec lsn l), (Z.ltb_spec l lsn); try lia; cbn [orb andb]; [done|]; destruct (bytes_leb start key); cbn [negb andb]; [| done].
  destruct end_ as [e|]; cbn; [| done]; by rewrite !bytes_ltb_leb, (bound_cuts e key He Ha).
Qed.

Lemma set_phase_lsns covers lsn phase : map cv_lsn (set_phase covers lsn phase) = map cv_lsn covers.
Proof. induction covers as [|c covers IH]; cbn [set_phase map]; [done|]; destruct (cv_lsn c =? lsn); cbn [map cv_lsn]; [done | by rewrite IH]. Qed.

Lemma set_phase_raised covers lsn phase (lsns : list Lsn) : Forall (fun cover => cv_lsn cover ∈ lsns) covers -> Forall (fun cover => cv_lsn cover ∈ lsns) (set_phase covers lsn phase).
Proof. intros Hf; apply (Forall_map cv_lsn (fun l => l ∈ lsns)); rewrite set_phase_lsns; by apply Forall_map. Qed.

Lemma range_history w ops gs occ start end_ lsn : history_ok w ops gs occ -> fresh lsn ops -> bound_fits start -> match end_ with Some e => bound_fits e | None => True end ->
  history_ok (WidthIndex_remove_range w start end_ lsn) (ops ++ [OpRange start end_ lsn]) gs occ.
Proof.
  intros Hh Hf Hs He; unfold WidthIndex_remove_range, push_cover.
  destruct (existsb (fun cover => cv_lsn cover =? lsn) (wi_covers w)) eqn:Eex.
  { exfalso; apply existsb_exists in Eex as (c & Hc%list_elem_of_In & E%Z.eqb_eq); pose proof (ho_raised _ _ _ _ Hh) as Hra; rewrite Forall_forall in Hra; specialize (Hra c Hc).
    rewrite E in Hra; apply list_elem_of_fmap in Hra as (op & Eo & Hop); by apply (fresh_ne lsn ops op Hf Hop). }
  set (c := mkCovered _ _ _ _); replace true with (negb (length (wi_covers w ++ [c]) =? 0)%nat) by (rewrite length_app; cbn [length]; by destruct (length (wi_covers w))).
  eapply history_covers; [exact Hh | | | | | | |].
  - apply Forall_app; split; [apply Hh|]; apply Forall_singleton; split; [apply low_bound_accepted | done].
  - intros key l Ha; rewrite !existsb_app; cbn [existsb]; unfold c; rewrite (cover_of_range start end_ lsn key l Hs He Ha); f_equal; exact (ho_covers _ _ _ _ Hh key l Ha).
  - intros key l Hc; rewrite existsb_app; unfold covers_at in Hc; by rewrite Hc.
  - intros key op Hon; rewrite elem_of_app; split; [intros [?|E%list_elem_of_singleton]; [done | by subst op] | auto].
  - apply NoDup_fresh; [apply Hh | done].
  - rewrite map_app; apply Forall_app; split; [eapply Forall_impl; [exact (ho_raised _ _ _ _ Hh)|]; intros c' Hc'; rewrite elem_of_app; by left | apply Forall_singleton; rewrite elem_of_app; right; cbn; set_solver].
  - apply Forall_app; split; [apply Hh | apply Forall_singleton; by intros key e _ _].
Qed.

Lemma rephased_history w ops gs occ lsn phase : history_ok w ops gs occ ->
  (forall c, find_cover w lsn = Some c -> phase_ok (mkCovered (cv_low c) (cv_high c) (cv_lsn c) phase) /\ swept_clean (wi_shard_bytes w) gs (mkCovered (cv_low c) (cv_high c) (cv_lsn c) phase)) ->
  history_ok (with_covers w (set_phase (wi_covers w) lsn phase) (wi_has_covers w)) ops gs occ.
Proof.
  intros Hh Hp; pose proof (set_phase_same (wi_covers w) lsn phase) as Hsame; rewrite (io_covers _ _ _ (ho_index _ _ _ _ Hh)), (Forall2_length _ _ _ Hsame).
  eapply history_covers; [exact Hh | | | | done | apply Hh | apply set_phase_raised, Hh |].
  - pose proof (ho_phases _ _ _ _ Hh) as Hph; unfold find_cover in Hp; clear -Hph Hp; induction Hph as [|c covers Hc Hph IH]; cbn [set_phase List.find] in *; [constructor|].
    destruct (cv_lsn c =? lsn); constructor; [by apply Hp | done | done | by apply IH].
  - intros key l Ha; rewrite (same_covers_any _ _ key l Hsame); by apply (ho_covers _ _ _ _ Hh).
  - intros key l Hc; by rewrite (same_covers_any _ _ key l Hsame).
  - pose proof (ho_clean _ _ _ _ Hh) as Hcl; unfold find_cover in Hp; clear -Hcl Hp; induction Hcl as [|c covers Hc Hcl IH]; cbn [set_phase List.find] in *; [constructor|].
    destruct (cv_lsn c =? lsn); constructor; [by apply Hp | done | done | by apply IH].
Qed.

Lemma release_history w ops gs occ lsn : history_ok w ops gs occ -> history_ok (WidthIndex_advance_release w lsn None) ops gs occ.
Proof.
  intros Hh; unfold WidthIndex_advance_release; destruct (find_cover w lsn) as [c|] eqn:Ef; [| done]; apply rephased_history; [done|]; intros c' Ec'; rewrite Ef in Ec'; injection Ec' as <-.
  destruct (find_cover_elem _ _ _ Ef) as [Hin _]; pose proof (ho_phases _ _ _ _ Hh) as Hph; rewrite Forall_forall in Hph; destruct (Hph c Hin) as [Ha _].
  split; [split; [done|]; cbn [cv_phase cv_low]; split; [done | unfold bytes_le; by rewrite bytes_cmp_refl]|].
  intros key e _ Hcv Hlt; cbn [cv_phase] in Hlt; exfalso; unfold Covered_covers in Hcv; cbn [cv_low cv_lsn] in Hcv; by rewrite (proj2 (bytes_ltb_lt _ _) Hlt), orb_true_r in Hcv.
Qed.

Lemma swept_covered w lsn low high resume stopped key e : find_cover w lsn = Some (mkCovered low high lsn (Sweep resume)) -> bytes_le low resume ->
  swept_from lsn resume high stopped key e = true -> covers_at w key (en_lsn e) = true /\ Entry_is_grave e = false.
Proof.
  intros Ef Hle; unfold swept_from, in_range, dooms; rewrite !andb_true_iff, negb_true_iff, orb_false_iff; intros [[[Hlo Hhi] [Hl Hg]] _]; split; [| done].
  destruct (find_cover_elem _ _ _ Ef) as [Hin _]; apply existsb_exists; exists (mkCovered low high lsn (Sweep resume)); split; [by apply list_elem_of_In|].
  unfold Covered_covers; cbn [cv_low cv_high cv_lsn above_low below_high fst] in *; rewrite Hl; cbn [orb].
  rewrite (proj2 (bytes_ltb_ge key low)) by (apply (bytes_le_trans _ resume); [done | by apply bytes_leb_le]); by destruct high.
Qed.

(** A sweep takes only what a cover already hides. *)
Lemma history_drop w w' ops gs gs' occ occ' lsn low high resume stopped : history_ok w ops gs occ -> find_cover w lsn = Some (mkCovered low high lsn (Sweep resume)) ->
  index_ok w' gs' occ' -> swept_on w w' lsn (match stopped with Some r => Sweep r | None => Done end) -> match stopped with Some r => accepts r = true /\ bytes_le resume r | None => True end ->
  drops (wi_shard_bytes w) gs gs' (swept_from lsn resume high stopped) -> history_ok w' ops gs' occ'.
Proof.
  intros Hh Ef Hw' Hon Hst Hd; pose proof Hh as [Hw Hphs Hcov Hheld Hlo Hacc Hnd Hra Hcl].
  destruct (find_cover_elem _ _ _ Ef) as [Hin _]; pose proof Hphs as Hphs'; rewrite Forall_forall in Hphs'; destruct (Hphs' _ Hin) as [Hal [_ Hle]]; cbn [cv_low] in Hle, Hal.
  assert (forall key l, covers_at w' key l = covers_at w key l) as Ecov by (intros key l; unfold covers_at; rewrite (so_covers _ _ _ _ Hon); apply same_covers_any, set_phase_same).
  assert (forall key e, entry_of (wi_shard_bytes w) gs' key = Some e -> entry_of (wi_shard_bytes w) gs key = Some e /\ swept_from lsn resume high stopped key e = false) as Hkept.
  { intros key e He; rewrite (Hd key) in He; destruct (entry_of _ gs key) as [e'|]; [| done]; destruct (swept_from _ _ _ _ key e') eqn:Es; [done | by injection He as <-]. }
  split; rewrite ?(so_bytes _ _ _ _ Hon), ?(so_covers _ _ _ _ Hon); try done.
  - clear -Hphs Hst Hal Hle Ef; unfold find_cover in Ef; induction Hphs as [|c covers Hc Hphs IH]; cbn [set_phase List.find] in *; [constructor|].
    destruct (cv_lsn c =? lsn); constructor; [| done | done | by apply IH]; injection Ef as ->; split; cbn [cv_low cv_phase]; [done|]; destruct stopped as [r|]; [| done]; destruct Hst; split; [done | by apply (bytes_le_trans _ resume)].
  - intros key l Ha; rewrite Ecov; by apply Hcov.
  - intros key e [He _]%Hkept; by apply Hheld.
  - intros key op Hop Hk; rewrite Ecov; destruct (Hlo key op Hop Hk) as [(e & He & Hle')|?]; [| by right]; rewrite (Hd key), He.
    destruct (swept_from _ _ _ _ key e) eqn:Es; [right | left; eauto]; destruct (swept_covered w lsn low high resume stopped key e Ef Hle Es) as [Hc _]; by eapply covers_at_down.
  - by apply set_phase_raised.
  - assert (forall c, swept_clean (wi_shard_bytes w) gs c -> swept_clean (wi_shard_bytes w) gs' c) as Hmono by (intros c Hc key e [He _]%Hkept; by apply Hc).
    unfold find_cover in Ef; clear -Hcl Ef Hmono Hkept; induction Hcl as [|c covers Hc Hcl IH]; cbn [set_phase List.find] in *; [constructor|].
    destruct (cv_lsn c =? lsn); constructor; [| by eapply Forall_impl | by apply Hmono | by apply IH]; injection Ef as ->; intros key e He Hcv Hpast; cbn [cv_low cv_high cv_lsn cv_phase] in *.
    destruct (Hkept key e He) as [He0 Hns]; destruct (bytes_ltb key resume) eqn:Elt; [apply (Hc key e He0 Hcv); by apply bytes_ltb_lt|].
    destruct (Entry_is_grave e) eqn:Eg; [done|]; exfalso; apply not_true_iff_false in Hns; apply Hns; unfold Covered_covers in Hcv; cbn [cv_low cv_high cv_lsn] in Hcv.
    destruct (lsn <=? en_lsn e) eqn:El; cbn [orb] in Hcv; [done|]; destruct (bytes_ltb key low); [done|]; unfold swept_from, in_range, dooms; rewrite El, Eg; cbn [orb negb fst above_low].
    assert (key_leb resume key = true) as -> by (apply bytes_leb_le; by apply bytes_ltb_ge); cbn [andb]; rewrite andb_true_r.
    destruct high as [h|]; cbn [upper_bound below_high]; [change (key_ltb key h) with (bytes_ltb key h); rewrite Hcv|]; cbn [andb]; destruct stopped as [r|]; [by apply bytes_ltb_lt | done | by apply bytes_ltb_lt | done].
Qed.

Lemma room_counted w gs occ : index_ok w gs occ -> room w -> counted gs.
Proof.
  intros Hw Hr; apply Forall_lookup; intros n g Eg; destruct (lookup_lt_is_Some_2 (wi_shards w) n) as [state Es]; [rewrite <- (io_kept _ _ _ Hw); by eapply lookup_lt_Some|].
  destruct (io_shard _ _ _ Hw (Z.of_nat n) state g) as [Hb _]; rewrite ?Nat2Z.id; [lia | done | done |]; pose proof (ro_count _ Hr) as Hc; rewrite Forall_lookup in Hc; specialize (Hc n state Es).
  by rewrite (rep_count _ _ (bo_map _ _ _ _ Hb)) in Hc.
Qed.

Lemma sweep_history w ops gs occ lsn budget book : history_ok w ops gs occ -> room w ->
  exists w' book' answer gs' occ', WidthIndex_sweep_run scan w lsn budget book = Ok (w', book', answer) /\ history_ok w' ops gs' occ'.
Proof.
  intros Hh Hr; pose proof (ho_index _ _ _ _ Hh) as Hw; destruct (find_cover w lsn) as [[low high lsn' phase]|] eqn:Ef.
  2:{ exists w, book, (0, 0, true), gs, occ; split; [unfold WidthIndex_sweep_run; by rewrite Ef | done]. }
  destruct (find_cover_elem _ _ _ Ef) as [Hin El]; cbn [cv_lsn] in El; subst lsn'; pose proof (ho_phases _ _ _ _ Hh) as Hph; rewrite Forall_forall in Hph; specialize (Hph _ Hin) as [Ha Hp].
  destruct phase as [r|r|]; [exists w, book, (0, 0, true), gs, occ; split; [unfold WidthIndex_sweep_run; by rewrite Ef | done] | | exists w, book, (0, 0, true), gs, occ; split; [unfold WidthIndex_sweep_run; by rewrite Ef | done]].
  cbn [cv_low cv_phase] in *; destruct Hp as [Hra Hrl].
  destruct (sweep_run_ok scan w gs occ low high lsn r budget book Hw (room_counted _ _ _ Hw Hr) Ef Hra) as (w' & gs' & occ' & book' & d & x & stopped & E & Hw' & Hon & _ & Hd & Hs).
  eexists w', book', _, gs', occ'; split; [exact E|]; eapply history_drop; try done.
  destruct stopped as [r'|]; [| done]; by destruct Hs as (? & ? & _).
Qed.

Lemma new_history spec : 0 <= cs_shard_bytes spec <= 2 -> exists gs occ, history_ok (WidthIndex_new spec) [] gs occ.
Proof.
  intros Hsb; eexists _, _; split; [by apply new_index_ok | cbn; constructor | done | | by intros ?? ?%elem_of_nil | by intros ?? ?%elem_of_nil | constructor | constructor | constructor].
  intros key e He; exfalso; unfold entry_of in He; destruct (replicate _ _ !! _) as [g|] eqn:E; [apply lookup_replicate in E as [-> _]|]; done.
Qed.

Lemma reached_history w ops : column_reached w ops -> exists gs occ, history_ok w ops gs occ.
Proof.
  induction 1 as [spec Hsb|w ops key loc lsn book w' book' landed _ (gs & occ & Hh) Hr Hf Ha Hl Hs E|w ops key tombstone lsn book w' book' landed _ (gs & occ & Hh) Hr Hf Ha E
    |w ops start end_ lsn _ (gs & occ & Hh) Hf Hs He|w ops lsn _ (gs & occ & Hh)|w ops lsn budget book w' book' answer _ (gs & occ & Hh) Hr E].
  - by apply new_history.
  - destruct (put_history w ops gs occ key loc lsn book Hh Hr Hf Ha Hl Hs) as (w1 & ? & ? & gs' & occ' & E' & Hh'); rewrite E in E'; injection E' as <- _ _; eauto.
  - destruct (delete_history w ops gs occ key tombstone lsn book Hh Hr Hf Ha) as (w1 & ? & ? & gs' & occ' & E' & Hh'); rewrite E in E'; injection E' as <- _ _; eauto.
  - exists gs, occ; by apply range_history.
  - exists gs, occ; by apply release_history.
  - destruct (sweep_history w ops gs occ lsn budget book Hh Hr) as (w1 & ? & ? & gs' & occ' & E' & Hh'); rewrite E in E'; injection E' as <- _ _; eauto.
Qed.

(** C18: After any history of puts, deletes, range deletes and sweeps a column answers every key with
    the place and version of its newest put, and with nothing when its newest write is a delete or a
    newer range delete took it; and every further write and sweep returns. *)
Theorem newest_write_wins w ops : column_reached w ops ->
  (forall key, exists found, WidthIndex_get w key = Ok found /\ (fun e => (en_loc e, en_lsn e)) <$> found = column_get ops key)
  /\ (room w -> forall key lsn (book : Book), fresh lsn ops -> accepts key = true ->
      (forall loc, is_u32 (loc_len loc) -> loc_segment loc <> NO_SEGMENT ->
         exists w' book' landed, WidthIndex_insert scan w key (Entry_new loc lsn) book = Ok (w', book', landed) /\ column_reached w' (ops ++ [OpPut key loc lsn]))
      /\ (forall tombstone, exists w' book' landed, WidthIndex_remove scan w key lsn tombstone book = Ok (w', book', landed) /\ column_reached w' (ops ++ [OpDelete key tombstone lsn]))
      /\ (forall cover budget, exists w' book' answer, WidthIndex_sweep_run scan w cover budget book = Ok (w', book', answer) /\ column_reached w' ops)).
Proof.
  intros Hreach; destruct (reached_history w ops Hreach) as (gs & occ & Hh); split; [intros key; by apply (history_get w ops gs occ)|]; intros Hr key lsn book Hf Ha; split_and!.
  - intros loc Hl Hs; destruct (put_history w ops gs occ key loc lsn book Hh Hr Hf Ha Hl Hs) as (w1 & b1 & l1 & _ & _ & E & _); exists w1, b1, l1; split; [done | by eapply reached_put].
  - intros tombstone; destruct (delete_history w ops gs occ key tombstone lsn book Hh Hr Hf Ha) as (w1 & b1 & l1 & _ & _ & E & _); exists w1, b1, l1; split; [done | by eapply reached_delete].
  - intros cover budget; destruct (sweep_history w ops gs occ cover budget book Hh Hr) as (w1 & b1 & a1 & _ & _ & E & _); exists w1, b1, a1; split; [done | by eapply reached_sweep].
Qed.

Lemma column_get_perm ops ops' key : NoDup (map op_lsn ops) -> Permutation ops ops' -> column_get ops' key = column_get ops key.
Proof.
  intros Hnd Hp; assert (newest key ops' = newest key ops) as En.
  { destruct (newest key ops) as [op|] eqn:E, (newest key ops') as [op'|] eqn:E'; [| | | done].
    - destruct (newest_in _ _ _ E) as (H1 & H2 & H3), (newest_in _ _ _ E') as (G1 & G2 & G3); rewrite <- Hp in G1; f_equal; apply (same_lsn_op ops); [done | done | done |].
      specialize (H3 op' G1 G2); rewrite Hp in H1; specialize (G3 op H1 H2); lia.
    - destruct (newest_in _ _ _ E) as (H1 & H2 & _); rewrite Hp in H1; by destruct (newest_none _ _ _ E' H1 H2).
    - destruct (newest_in _ _ _ E') as (H1 & H2 & _); rewrite <- Hp in H1; by destruct (newest_none _ _ _ E H1 H2). }
  unfold column_get; rewrite En; destruct (newest key ops) as [[k loc lsn| |]|]; try done.
  replace (existsb (op_covers key lsn) ops') with (existsb (op_covers key lsn) ops); [done|]; apply eq_true_iff_eq; rewrite !existsb_exists; by setoid_rewrite <- list_elem_of_In; setoid_rewrite Hp.
Qed.

(** C19: The order in which writes arrive does not matter: two columns that took the same writes in
    different orders, each with sweeps of its own in between, answer every key alike. *)
Theorem arrival_order_irrelevant w w' ops ops' key : column_reached w ops -> column_reached w' ops' -> Permutation ops ops' ->
  exists found found', WidthIndex_get w key = Ok found /\ WidthIndex_get w' key = Ok found'
    /\ (fun e => (en_loc e, en_lsn e)) <$> found = (fun e => (en_loc e, en_lsn e)) <$> found'.
Proof.
  intros (gs & occ & Hh)%reached_history (gs' & occ' & Hh')%reached_history Hp.
  destruct (history_get w ops gs occ key Hh) as (found & E & Ef), (history_get w' ops' gs' occ' key Hh') as (found' & E' & Ef').
  exists found, found'; split_and!; [done | done |]; rewrite Ef, Ef'; symmetry; by apply column_get_perm; [apply (ho_fresh _ _ _ _ Hh)|].
Qed.

Lemma until_history w ops gs occ lsn low high resume budget book : history_ok w ops gs occ -> room w -> find_cover w lsn = Some (mkCovered low high lsn (Sweep resume)) -> 0 < budget ->
  exists runs w' book' gs' occ', sweep_until scan runs w lsn budget book = Ok (w', book', true) /\ history_ok w' ops gs' occ' /\ find_cover w' lsn = Some (mkCovered low high lsn Done).
Proof.
  intros Hh Hr Ef Hb; pose proof (ho_index _ _ _ _ Hh) as Hw; destruct (find_cover_elem _ _ _ Ef) as [Hin _]; pose proof (ho_phases _ _ _ _ Hh) as Hph; rewrite Forall_forall in Hph; destruct (Hph _ Hin) as [_ [Hra _]].
  destruct (sweep_until_ok scan (S (keys_from gs resume)) w gs occ low high lsn resume budget book Hw (room_counted _ _ _ Hw Hr) Ef Hra Hb) as (w' & gs' & occ' & book' & E & Hw' & Hon & _ & Hd); [lia|].
  exists (S (keys_from gs resume)), w', book', gs', occ'; split_and!; [done | by eapply (history_drop _ _ _ _ _ _ _ _ _ _ _ None) |].
  unfold find_cover in *; rewrite (so_covers _ _ _ _ Hon); by eapply find_set_phase.
Qed.

(** C20: A column left alone is swept in finitely many runs, whatever the budget of keys a run may
    examine: the cover ends done, no record it covers is held, and every key answers as before. *)
Theorem sweep_ends w ops lsn low high resume budget (book : Book) : column_reached w ops -> room w -> find_cover w lsn = Some (mkCovered low high lsn (Sweep resume)) -> 0 < budget ->
  exists runs w' book', sweep_until scan runs w lsn budget book = Ok (w', book', true)
    /\ find_cover w' lsn = Some (mkCovered low high lsn Done)
    /\ (forall key e, WidthIndex_entry_or_grave w' key = Ok (Some e) -> Covered_covers (mkCovered low high lsn Done) key (en_lsn e) = true -> Entry_is_grave e = true)
    /\ forall key, exists found found', WidthIndex_get w key = Ok found /\ WidthIndex_get w' key = Ok found' /\ (fun e => (en_loc e, en_lsn e)) <$> found' = (fun e => (en_loc e, en_lsn e)) <$> found.
Proof.
  intros (gs & occ & Hh)%reached_history Hr Ef Hb; destruct (until_history w ops gs occ lsn low high resume budget book Hh Hr Ef Hb) as (runs & w' & book' & gs' & occ' & E & Hh' & Ef').
  exists runs, w', book'; split_and!; [done | done | |].
  - intros key e He Hcv; pose proof (ho_index _ _ _ _ Hh') as Hw'; rewrite (entry_or_grave_ok _ _ _ _ Hw') in He; injection He as He; destruct (find_cover_elem _ _ _ Ef') as [Hin _].
    pose proof (ho_clean _ _ _ _ Hh') as Hcl; rewrite Forall_forall in Hcl; by apply (Hcl _ Hin key e).
  - intros key; destruct (history_get w ops gs occ key Hh) as (found & E1 & Ef1), (history_get w' ops gs' occ' key Hh') as (found' & E2 & Ef2); exists found, found'; split_and!; [done | done | congruence].
Qed.
End history.

(** ** At a concrete column *)

Section demo.
#[local] Existing Instance boxed_index.

Definition demo_tree : Type := @TBTreeMap bytes Entry boxed_key.
#[local] Instance demo_map : ShardMap demo_tree Entry := boxed_map Scalar 32.
#[local] Instance demo_map_laws : ShardMapLaws demo_tree Entry := @boxed_map_laws Entry _ Scalar 32 ltac:(lia).

Definition fits_roomy {K V TK} (t : @TBTreeMap K V TK) : bool := (Z.of_nat (length (tb_leaves t)) <? 2 ^ 28) && (Z.of_nat (length (tb_inners t)) <? 2 ^ 28).

Definition demo_room (w : WidthIndex demo_tree) : bool :=
  fits_roomy (wi_occupied w) && forallb (fun state => fits_roomy (ss_map state) && (ss_bytes state + U32 <=? U64) && (Z.of_nat (map_count (ss_map state)) <? 2 ^ 30)) (wi_shards w).

Lemma fits_roomy_ok {K V TK} (t : @TBTreeMap K V TK) : fits_roomy t = true -> roomy t.
Proof. unfold fits_roomy, roomy; rewrite andb_true_iff, !Z.ltb_lt; done. Qed.

Lemma demo_room_ok w : demo_room w = true -> room w.
Proof.
  unfold demo_room; rewrite andb_true_iff; intros [H1 H2]; assert (forall state, In state (wi_shards w) -> roomy (ss_map state) /\ ss_bytes state + U32 <= U64 /\ Z.of_nat (map_count (ss_map state)) < 2 ^ 30) as H.
  { intros state Hs; pose proof (proj1 (forallb_forall _ _) H2 state Hs) as H; rewrite !andb_true_iff, Z.leb_le, Z.ltb_lt in H; destruct H as [[H3 H4] H5]; split_and!; [by apply fits_roomy_ok | done | done]. }
  split; [by apply fits_roomy_ok | | |]; apply Forall_forall; intros state Hs%list_elem_of_In; by apply H.
Qed.

Definition demo_apply (w : WidthIndex demo_tree) (op : Op) : WidthIndex demo_tree :=
  match op with
  | OpPut key loc lsn => match WidthIndex_insert Scalar w key (Entry_new loc lsn) SegmentTable_new with Ok (w, _, _) => w | _ => w end
  | OpDelete key tombstone lsn => match WidthIndex_remove Scalar w key lsn tombstone SegmentTable_new with Ok (w, _, _) => w | _ => w end
  | OpRange start end_ lsn => WidthIndex_remove_range w start end_ lsn
  end.

Definition demo_op_ok (ops : list Op) (op : Op) : bool :=
  forallb (fun o => negb (op_lsn o =? op_lsn op)) ops
  && match op with OpPut _ loc _ => (0 <=? loc_len loc) && (loc_len loc <? U32) && negb (loc_segment loc =? NO_SEGMENT) | _ => true end.

Lemma applied_reached w ops op : column_reached (Book := SegmentTable) Scalar w ops -> demo_room w = true -> demo_op_ok ops op = true -> column_reached (Book := SegmentTable) Scalar (demo_apply w op) (ops ++ [op]).
Proof.
  intros Hr Hroom%demo_room_ok; unfold demo_op_ok; rewrite andb_true_iff, forallb_forall; intros [Hf Hop].
  assert (fresh (op_lsn op) ops) as Hfr by (apply Forall_forall; intros o Ho%list_elem_of_In; specialize (Hf o Ho); apply negb_true_iff, Z.eqb_neq in Hf; done).
  destruct (reached_history (Book := SegmentTable) Scalar w ops Hr) as (gs & occ & Hh); destruct op as [key loc lsn|key tombstone lsn|start end_ lsn]; cbn [demo_apply op_lsn] in *.
  - rewrite !andb_true_iff, Z.leb_le, Z.ltb_lt, negb_true_iff, Z.eqb_neq in Hop; destruct Hop as [Hl Hs].
    destruct (put_history Scalar w ops gs occ key loc lsn SegmentTable_new Hh Hroom Hfr eq_refl Hl Hs) as (w' & b & l & _ & _ & E & _); rewrite E; by eapply reached_put.
  - destruct (delete_history Scalar w ops gs occ key tombstone lsn SegmentTable_new Hh Hroom Hfr eq_refl) as (w' & b & l & _ & _ & E & _); rewrite E; by eapply reached_delete.
  - apply reached_range; [done | done | by left | destruct end_; [by left | done]].
Qed.

Definition demo_col : WidthIndex demo_tree := WidthIndex_new (mkColumnSpec 1 "slices" Variable_ 0 None Lz4).
Definition demo_bytes (n : Z) : bytes := [byte_of n].
Definition demo_ops : list Op :=
  [OpPut (demo_bytes 10) (mkLoc 3 100 40) 5; OpPut (demo_bytes 20) (mkLoc 3 200 50) 6; OpRange (demo_bytes 5) (Some (demo_bytes 15)) 9;
   OpPut (demo_bytes 10) (mkLoc 4 0 7) 8; OpPut (demo_bytes 30) (mkLoc 4 60 70) 11; OpDelete (demo_bytes 20) (mkLoc 4 300 0) 10].

Ltac reach_demo :=
  match goal with |- column_reached _ _ ?ops => change ops with (removelast ops ++ [List.last ops (OpRange [] None 0)]); cbn [removelast List.last] end;
  apply applied_reached; [| vm_compute; reflexivity | vm_compute; reflexivity].

Lemma demo_ops_reached : column_reached (Book := SegmentTable) Scalar (fold_left demo_apply demo_ops demo_col) demo_ops.
Proof. unfold demo_ops; cbn [fold_left]; do 6 reach_demo; apply reached_new; cbn; lia. Qed.

Lemma newest_write_wins_witness : exists found gone, WidthIndex_get (fold_left demo_apply demo_ops demo_col) (demo_bytes 30) = Ok found
  /\ (fun e => (en_loc e, en_lsn e)) <$> found = Some (mkLoc 4 60 70, 11) /\ WidthIndex_get (fold_left demo_apply demo_ops demo_col) (demo_bytes 10) = Ok gone
  /\ (fun e => (en_loc e, en_lsn e)) <$> gone = None.
Proof.
  destruct (newest_write_wins Scalar _ _ demo_ops_reached) as [H _]; destruct (H (demo_bytes 30)) as (found & E & Ef), (H (demo_bytes 10)) as (gone & E' & Ef').
  exists found, gone; split_and!; [exact E | rewrite Ef; vm_compute; reflexivity | exact E' | rewrite Ef'; vm_compute; reflexivity].
Defined.

Definition demo_late : list Op :=
  [OpDelete (demo_bytes 20) (mkLoc 4 300 0) 10; OpPut (demo_bytes 10) (mkLoc 4 0 7) 8; OpPut (demo_bytes 30) (mkLoc 4 60 70) 11;
   OpPut (demo_bytes 10) (mkLoc 3 100 40) 5; OpRange (demo_bytes 5) (Some (demo_bytes 15)) 9; OpPut (demo_bytes 20) (mkLoc 3 200 50) 6].

Lemma demo_late_reached : column_reached (Book := SegmentTable) Scalar (fold_left demo_apply demo_late demo_col) demo_late.
Proof. unfold demo_late; cbn [fold_left]; do 6 reach_demo; apply reached_new; cbn; lia. Qed.

Lemma demo_late_perm : Permutation demo_ops demo_late.
Proof. unfold demo_ops, demo_late; solve_Permutation. Qed.

Lemma arrival_order_irrelevant_witness : exists found found', WidthIndex_get (fold_left demo_apply demo_ops demo_col) (demo_bytes 10) = Ok found
  /\ WidthIndex_get (fold_left demo_apply demo_late demo_col) (demo_bytes 10) = Ok found' /\ (fun e => (en_loc e, en_lsn e)) <$> found = (fun e => (en_loc e, en_lsn e)) <$> found'.
Proof. exact (arrival_order_irrelevant (Book := SegmentTable) Scalar _ _ _ _ (demo_bytes 10) demo_ops_reached demo_late_reached demo_late_perm). Defined.

Definition demo_released : WidthIndex demo_tree := WidthIndex_advance_release (fold_left demo_apply demo_ops demo_col) 9 None.

Lemma demo_released_reached : column_reached (Book := SegmentTable) Scalar demo_released demo_ops.
Proof. apply reached_release, demo_ops_reached. Qed.

Lemma sweep_ends_witness : exists runs w' book', sweep_until Scalar runs demo_released 9 1 SegmentTable_new = Ok (w', book', true)
  /\ find_cover w' 9 = Some (mkCovered (demo_bytes 5) (Some (demo_bytes 15)) 9 Done).
Proof.
  destruct (sweep_ends (Book := SegmentTable) Scalar demo_released demo_ops 9 (demo_bytes 5) (Some (demo_bytes 15)) (demo_bytes 5) 1 SegmentTable_new demo_released_reached) as (runs & w' & book' & E & Ef & _).
  - apply demo_room_ok; vm_compute; reflexivity.
  - vm_compute; reflexivity.
  - reflexivity.
  - exists runs, w', book'; split; [exact E | exact Ef].
Defined.
End demo.
