(* ===== verification/ColumnPages.v ===== *)
(** * Pages of a column's keys ([index/column.rs])

    A page filled from a bound, ascending or descending, holds exactly the first live keys past it, in
    order, however they lie in the shards and however many at a time they are copied. *)
From S2P Require Import Prelude Error Arrays Bytes Lsn Column IndexEntry Counters Tally KeyPage ShardFilter FilledBits TreeKey TBTree TBTreeRep TBTreeOps TBTreeInsert TBTreeWalk SealedRanges ShardMap ColumnIndex ColumnRep ColumnWrites ColumnSweep ColumnHistory.

Section fill.
Implicit Types (rows pairs : list (bytes * Entry)) (show : bytes * Entry -> bool).

Lemma push_keeps p key e : kp_keeps_graves (KeyPage_push p key e) = kp_keeps_graves p.
Proof. done. Qed.

Lemma push_packed_keeps p keys width found : kp_keeps_graves (KeyPage_push_packed p keys width found).1 = kp_keeps_graves p.
Proof. unfold KeyPage_push_packed; destruct (_ =? 0); [done|]; by destruct (_ || _ || _). Qed.

Lemma page_len p rows : page_holds p rows -> KeyPage_len p = len rows.
Proof. intros Hp; apply Hp. Qed.

(** What filling a page with some pairs, the ones that show, comes to. *)
Definition filled_with (limit : Z) out rows shown_pairs (answer : KeyPage * bool) : Prop :=
  page_holds answer.1 (rows ++ take (Z.to_nat (limit - len rows)) shown_pairs) /\ answer.2 = (limit <=? len rows + len shown_pairs) /\ kp_keeps_graves answer.1 = kp_keeps_graves out.

Definition keys_fit rows : Prop := len (concat (map fst rows)) < U32.

Lemma keys_fit_app rows rows' : keys_fit (rows ++ rows') -> keys_fit rows.
Proof. unfold keys_fit; rewrite map_app, concat_app, len_app; pose proof (len_nonneg (concat (map fst rows'))); lia. Qed.

Lemma take_pos {A} (x : A) l n : 0 < n -> take (Z.to_nat n) (x :: l) = x :: take (Z.to_nat (n - 1)) l.
Proof. intros Hn; replace (Z.to_nat n) with (S (Z.to_nat (n - 1))) by lia; done. Qed.

Lemma push_shown_ok show limit pairs : forall out rows, page_holds out rows -> len rows < limit -> keys_fit (rows ++ take (Z.to_nat (limit - len rows)) (List.filter show pairs)) ->
  filled_with limit out rows (List.filter show pairs) (push_shown show limit pairs out).
Proof.
  induction pairs as [|[key e] pairs IH]; intros out rows Hp Hl Hfit; cbn [push_shown List.filter].
  - split_and!; [by rewrite take_nil, app_nil_r | cbn [snd]; rewrite len_nil; symmetry; apply Z.leb_gt; lia | done].
  - cbn [List.filter] in Hfit; destruct (show (key, e)); [| by apply IH]; cbn [fst snd]; rewrite take_pos in Hfit by lia.
    assert (page_holds (KeyPage_push out key e) (rows ++ [(key, e)])) as Hp'.
    { apply page_push_holds; [done|]; rewrite (ph_keys _ _ Hp); unfold keys_fit in Hfit; rewrite map_app, concat_app in Hfit; cbn [map concat fst] in Hfit; rewrite !len_app in Hfit.
      pose proof (len_nonneg (concat (map fst (take (Z.to_nat (limit - len rows - 1)) (List.filter show pairs))))); lia. }
    rewrite (page_len _ _ Hp'), len_app; change (len [(key, e)]) with 1; destruct (Z.leb_spec limit (len rows + 1)) as [Hfull|Hmore]; cbn [fst snd].
    + unfold filled_with; cbn [fst snd]; replace (limit - len rows) with 1 by lia; split_and!; [exact Hp' | rewrite len_cons; symmetry; apply Z.leb_le; pose proof (len_nonneg (List.filter show pairs)); lia | done].
    + destruct (IH (KeyPage_push out key e) (rows ++ [(key, e)]) Hp') as (H1 & H2 & H3).
      * rewrite len_app; change (len [(key, e)]) with 1; lia.
      * rewrite len_app, <- app_assoc; change (len [(key, e)]) with 1; cbn [app]; replace (limit - (len rows + 1)) with (limit - len rows - 1) by lia; done.
      * rewrite len_app in *; change (len [(key, e)]) with 1 in *; rewrite <- app_assoc in H1; cbn [app] in H1; split_and!.
        -- rewrite take_pos by lia; by replace (limit - len rows - 1) with (limit - (len rows + 1)) by lia.
        -- rewrite H2, len_cons; f_equal; lia.
        -- by rewrite H3.
Qed.
End fill.

Section pages.
Context {M : Type} {IK : IndexKey} {IKL : IndexKeyLaws} {SM : ShardMap M Entry} {SML : ShardMapLaws M Entry}.
Variable scan : Scan.
Implicit Types (w : WidthIndex M) (gs : list Kept) (occ : list (Z * unit)) (key : bytes) (rows pairs : list (bytes * Entry)).

Lemma filled_app limit out rows first second answer answer' : len rows < limit -> filled_with limit out rows first answer -> answer.2 = false ->
  filled_with limit answer.1 (rows ++ first) second answer' -> filled_with limit out rows (first ++ second) answer'.
Proof.
  intros Hl (H1 & H2 & H3) Hn (G1 & G2 & G3); rewrite H2 in Hn; apply Z.leb_gt in Hn; split_and!; [| rewrite G2, !len_app; f_equal; lia | congruence].
  rewrite len_app in G1; rewrite take_app, (take_ge first) by (unfold len in *; lia).
  replace (Z.to_nat (limit - len rows) - length first)%nat with (Z.to_nat (limit - (len rows + len first))) by (unfold len in *; lia); by rewrite app_assoc.
Qed.

Lemma filled_full limit out rows first second answer : len rows < limit -> filled_with limit out rows first answer -> answer.2 = true -> filled_with limit out rows (first ++ second) answer.
Proof.
  intros Hl (H1 & H2 & H3) Hn; rewrite H2 in Hn; apply Z.leb_le in Hn; pose proof (len_nonneg second); split_and!; [| rewrite H2, len_app; apply eq_true_iff_eq; rewrite !Z.leb_le; lia | done].
  by rewrite take_app_le by (unfold len in *; lia).
Qed.

Lemma fit_first rows first second n : keys_fit (rows ++ take n (first ++ second)) -> keys_fit (rows ++ take n first).
Proof. rewrite take_app, app_assoc; apply keys_fit_app. Qed.

Lemma zip_take {A B} n (l : list A) (k : list B) : zip (take n l) (take n k) = take n (zip l k).
Proof. revert l k; induction n as [|n IH]; intros [|a l] [|b k]; cbn; [done..|]; by rewrite IH. Qed.

Lemma map_fst_zip {A B} (l : list A) (k : list B) : length l = length k -> map fst (zip l k) = l.
Proof. revert k; induction l as [|a l IH]; intros [|b k]; cbn; try done; intros [= E]; by rewrite IH. Qed.

Lemma map_snd_zip {A B} (l : list A) (k : list B) : length l = length k -> map snd (zip l k) = k.
Proof. revert k; induction l as [|a l IH]; intros [|b k]; cbn; try done; intros [= E]; by rewrite IH. Qed.

Lemma filter_take_all (show : bytes * Entry -> bool) n pairs : Forall (fun x => show x = true) (take n pairs) -> take n (List.filter show pairs) = take n pairs.
Proof.
  revert pairs; induction n as [|n IH]; intros [|x pairs]; cbn [take List.filter]; try done; intros [Hx Hf]%Forall_cons; rewrite Hx; cbn [take]; by rewrite IH.
Qed.

Lemma page_run_ok w gs occ limit keys entries out rows : index_ok w gs occ -> keys <> [] -> length keys = length entries -> Forall (fun key => accepts key = true) keys ->
  page_holds out rows -> len rows < limit -> let show := shows w (kp_keeps_graves out) in
  keys_fit (rows ++ take (Z.to_nat (limit - len rows)) (List.filter show (zip keys entries))) ->
  filled_with limit out rows (List.filter show (zip keys entries)) (page_run w limit (keys, entries) out).
Proof.
  intros Hw Hne El Ha Hp Hl show Hfit; unfold page_run; rewrite (page_len _ _ Hp); set (taken := Z.to_nat (Z.min (len keys) (limit - len rows))).
  assert (filled_with limit out rows (List.filter show (zip keys entries)) (let '(out', full) := push_shown show limit (zip keys entries) out in (out', full || (limit <=? KeyPage_len out')))) as Hloop.
  { pose proof (push_shown_ok show limit (zip keys entries) out rows Hp Hl Hfit) as Hps; destruct (push_shown _ _ _ _) as [out' full]; destruct Hps as (H1 & H2 & H3); cbn [fst snd] in *; split_and!; [done | | done].
    cbn [fst snd]; rewrite (page_len _ _ H1), len_app, H2; unfold len; rewrite length_take; destruct (Z.leb_spec limit (Z.of_nat (length rows) + Z.of_nat (length (List.filter show (zip keys entries))))); [done|].
    cbn [orb]; apply Z.leb_gt; lia. }
  destruct (kp_keeps_graves out || _) eqn:Eclean; [| exact Hloop]; destruct (packed (take taken keys)) as [bs|] eqn:Epk; [| exact Hloop].
  assert (Forall (fun x => show x = true) (take taken (zip keys entries))) as Hall.
  { rewrite <- zip_take; apply Forall_forall; intros [k e] Hin; unfold show, shows; destruct (kp_keeps_graves out); [done|]; cbn [orb] in *; apply andb_true_iff in Eclean as [Ec Eg].
    unfold is_covered; rewrite Ec; cbn [snd]; rewrite andb_true_r; apply negb_true_iff in Eg; apply negb_true_iff; apply not_true_iff_false; intros Hg; apply not_true_iff_false in Eg; apply Eg, existsb_exists; exists e; split; [| done].
    apply list_elem_of_In; apply elem_of_zip_r in Hin; done. }
  pose proof (filter_take_all show taken _ Hall) as Hft.
  assert (Z.to_nat (limit - len rows) = taken \/ taken = length keys) as Hcase by (unfold taken, len in *; lia).
  assert (take (Z.to_nat (limit - len rows)) (List.filter show (zip keys entries)) = take taken (zip keys entries)) as Htk.
  { destruct Hcase as [->|E]; [exact Hft|]; rewrite <- Hft; rewrite E; rewrite !take_ge; [done | |]; pose proof (filter_length_le show (zip keys entries)) as Hle; rewrite length_zip_with in Hle; unfold taken, len in *; lia. }
  assert (length (take taken keys) = length (take taken entries)) as Elt by (rewrite !length_take; lia).
  assert (map fst (take taken (zip keys entries)) = take taken keys /\ map snd (take taken (zip keys entries)) = take taken entries) as [Ef Es] by (rewrite <- zip_take; split; [by apply map_fst_zip | by apply map_snd_zip]).
  set (wide := match keys with key :: _ => len key | [] => 0 end).
  pose proof (push_packed_holds out rows (take taken (zip keys entries)) wide Hp) as Hpp; rewrite Ef, Es in Hpp; rewrite (packed_concat _ _ Epk).
  pose proof (push_packed_keeps out (concat (take taken keys)) wide (take taken entries)) as Hk.
  destruct (KeyPage_push_packed out (concat (take taken keys)) wide (take taken entries)) as [out' was]; cbn [fst] in Hk.
  assert (if was then page_holds out' (rows ++ take taken (zip keys entries)) else out' = out) as Hpush.
  { apply Hpp.
    - apply Forall_forall; intros [k e] Hin; cbn [fst]; assert (k ∈ keys) as Hk' by (rewrite <- (take_drop taken keys), elem_of_app; left; rewrite <- Ef; apply (list_elem_of_fmap_2 fst _ _ Hin)).
      subst wide; destruct keys as [|k0 keys]; [done|]; unfold len; f_equal; rewrite Forall_forall in Ha; apply (packed_even _ _ _ _ Epk); apply Ha; [done | set_solver].
    - rewrite Htk in Hfit; unfold keys_fit in Hfit; rewrite map_app, concat_app, len_app, Ef in Hfit; rewrite (ph_keys _ _ Hp); done. }
  destruct was; [| subst out'; exact Hloop]; split_and!; cbn [fst snd orb]; [by rewrite Htk | | done]; rewrite (page_len _ _ Hpush), len_app; unfold len at 2; rewrite <- Htk, length_take.
  unfold len in *; apply eq_true_iff_eq; rewrite !Z.leb_le; lia.
Qed.

Lemma page_runs_ok w gs occ limit runs : forall out rows, index_ok w gs occ -> Forall (fun run => run.1 <> [] /\ length run.1 = length run.2) runs -> Forall (fun pair => accepts pair.1 = true) (run_pairs runs) ->
  page_holds out rows -> len rows < limit -> let show := shows w (kp_keeps_graves out) in
  keys_fit (rows ++ take (Z.to_nat (limit - len rows)) (List.filter show (run_pairs runs))) ->
  filled_with limit out rows (List.filter show (run_pairs runs)) (page_runs w limit runs out).
Proof.
  induction runs as [|[keys entries] runs IH]; intros out rows Hw Hr Ha Hp Hl show Hfit; cbn [page_runs].
  { change (List.filter show (run_pairs [])) with (@nil (bytes * Entry)); split_and!; [by rewrite take_nil, app_nil_r | cbn [snd]; rewrite len_nil; symmetry; apply Z.leb_gt; lia | done]. }
  apply Forall_cons in Hr as [[Hne El] Hr]; unfold run_pairs in Ha, Hfit |- *; cbn [map concat fst snd] in *; apply Forall_app in Ha as [Ha1 Ha2]; rewrite List.filter_app in Hfit |- *.
  pose proof (page_run_ok w gs occ limit keys entries out rows Hw Hne El) as Hrun.
  assert (Forall (fun key => accepts key = true) keys) as Hk by (rewrite <- (map_fst_zip keys entries El); by apply Forall_map).
  specialize (Hrun Hk Hp Hl (fit_first _ _ _ _ Hfit)); destruct (page_run w limit (keys, entries) out) as [out' full] eqn:E; destruct full.
  - by apply (filled_full limit out rows _ _ (out', true)).
  - pose proof Hrun as (H1 & H2 & H3); cbn [fst snd] in *; symmetry in H2; apply Z.leb_gt in H2; rewrite take_ge in H1 by (unfold len in *; lia).
    apply (filled_app limit out rows _ _ (out', false)); [done | exact Hrun | done |]; cbn [fst]; fold show in H1, H2.
    specialize (IH out' _ Hw Hr Ha2 H1); cbv zeta in IH; rewrite H3 in IH; apply IH; [rewrite len_app; lia|]; fold show; rewrite <- app_assoc; unfold keys_fit in *; rewrite len_app.
    rewrite take_app, (take_ge (List.filter show (zip keys entries))) in Hfit by (unfold len in *; lia).
    by replace (Z.to_nat (limit - len rows) - length (List.filter show (zip keys entries)))%nat with (Z.to_nat (limit - (len rows + len (List.filter show (zip keys entries))))) in Hfit by (unfold len in *; lia).
Qed.

Definition items_at gs (s : Z) : list (bytes * Entry) := (default ([], 0) (gs !! Z.to_nat s)).1.

Lemma items_at_ok w gs occ s : index_ok w gs occ -> in_column w s -> exists state, shard_at w s = Ok state /\ map_rep (ss_map state) (items_at gs s)
  /\ Forall (fun pair => accepts pair.1 = true) (items_at gs s) /\ StronglySorted bytes_lt (map fst (items_at gs s)) /\ Forall (fun pair => shard_of_bytes (wi_shard_bytes w) pair.1 = s) (items_at gs s).
Proof.
  intros Hw Hs; destruct (shard_ok w gs occ s Hw Hs) as (state & g & E & _ & Eg & Hb & _); exists state; unfold items_at; rewrite Eg; cbn [default]; split_and!; [done | apply Hb | | by eapply body_sorted | apply Hb].
  pose proof (rep_keys _ _ (bo_map _ _ _ _ Hb)) as Hk; cbn [id]; by apply (Forall_map fst (fun key => accepts key = true)).
Qed.

Lemma low_of_accepted b : match low_of b with Unbounded => True | Included key | Excluded key => accepts key = true end.
Proof. destruct b; cbn; [done | apply low_bound_accepted | apply low_bound_accepted]. Qed.

Definition shard_rows gs (show : bytes * Entry -> bool) (low high : Bound bytes) (s : Z) : list (bytes * Entry) := List.filter show (List.filter (in_range low high) (items_at gs s)).

Lemma page_shards_ok w gs occ first start limit shards : forall out rows, index_ok w gs occ -> Forall (in_column w) shards -> page_holds out rows -> len rows < limit ->
  let all := concat (map (fun s => shard_rows gs (shows w (kp_keeps_graves out)) (if s =? first then low_of start else Unbounded) Unbounded s) shards) in
  keys_fit (rows ++ take (Z.to_nat (limit - len rows)) all) ->
  exists out', page_shards w first start limit shards out = Ok out' /\ page_holds out' (rows ++ take (Z.to_nat (limit - len rows)) all).
Proof.
  induction shards as [|s shards IH]; intros out rows Hw Hin Hp Hl all Hfit; cbn [page_shards].
  { exists out; split; [done|]; subst all; cbn [map concat]; by rewrite take_nil, app_nil_r. }
  apply Forall_cons in Hin as [Hs Hin]; destruct (items_at_ok w gs occ s Hw Hs) as (state & -> & Hm & Ha & _ & _); res_simpl.
  set (low := if s =? first then low_of start else Unbounded) in *; assert (match low with Unbounded => True | Included key | Excluded key => accepts key = true end) as Hlow.
  { subst low; destruct (s =? first); [apply low_of_accepted | done]. }
  destruct (rep_span_runs _ _ low Hm Hlow) as (runs & -> & Ep & Hf); res_simpl; subst all; cbn [map concat] in *; fold low in Hfit |- *; unfold shard_rows at 1 in Hfit; unfold shard_rows at 1; rewrite <- Ep in Hfit |- *.
  pose proof (page_runs_ok w gs occ limit runs out rows Hw Hf) as Hruns.
  assert (Forall (fun pair => accepts pair.1 = true) (run_pairs runs)) as Hk.
  { rewrite Ep; apply Forall_forall; intros x Hx%list_elem_of_In%filter_In; rewrite Forall_forall in Ha; apply Ha, list_elem_of_In, Hx. }
  specialize (Hruns Hk Hp Hl (fit_first _ _ _ _ Hfit)); destruct (page_runs w limit runs out) as [out' full]; destruct full.
  - pose proof (filled_full limit out rows _ (concat (map (fun s => shard_rows gs (shows w (kp_keeps_graves out)) (if s =? first then low_of start else Unbounded) Unbounded s) shards)) (out', true) Hl Hruns eq_refl) as (H1 & _ & _).
    eauto.
  - pose proof Hruns as (H1 & H2 & H3); cbn [fst snd] in *; symmetry in H2; apply Z.leb_gt in H2; rewrite take_ge in H1 by (unfold len in *; lia).
    set (here := List.filter (shows w (kp_keeps_graves out)) (run_pairs runs)) in *.
    assert (forall rest, take (Z.to_nat (limit - len rows)) (here ++ rest) = here ++ take (Z.to_nat (limit - len (rows ++ here))) rest) as Htk.
    { intros rest; rewrite take_app, take_ge by (unfold len in *; lia); f_equal; f_equal; rewrite len_app; unfold len in *; lia. }
    destruct (IH out' (rows ++ here) Hw Hin H1) as (out2 & E2 & H4); rewrite ?H3; [rewrite len_app; lia | rewrite <- app_assoc, <- Htk; exact Hfit |].
    exists out2; split; [done|]; rewrite H3, <- app_assoc, <- Htk in H4; exact H4.
Qed.

Lemma page_back_shards_ok w gs occ last end_ limit shards : forall out rows, index_ok w gs occ -> Forall (in_column w) shards -> page_holds out rows -> len rows < limit ->
  let all := concat (map (fun s => rev (shard_rows gs (shows w (kp_keeps_graves out)) Unbounded (if s =? last then high_of end_ else Unbounded) s)) shards) in
  keys_fit (rows ++ take (Z.to_nat (limit - len rows)) all) ->
  exists out', page_back_shards w last end_ limit shards out = Ok out' /\ page_holds out' (rows ++ take (Z.to_nat (limit - len rows)) all).
Proof.
  induction shards as [|s shards IH]; intros out rows Hw Hin Hp Hl all Hfit; cbn [page_back_shards].
  { exists out; split; [done|]; subst all; cbn [map concat]; by rewrite take_nil, app_nil_r. }
  apply Forall_cons in Hin as [Hs Hin]; destruct (items_at_ok w gs occ s Hw Hs) as (state & -> & Hm & Ha & _ & _); res_simpl.
  set (high := if s =? last then high_of end_ else Unbounded) in *; assert (match high with Unbounded => True | Included key | Excluded key => accepts key = true end) as Hhigh.
  { subst high; destruct (s =? last); [| done]; destruct end_; cbn; [done | apply high_bound_accepted | apply low_bound_accepted]. }
  rewrite (rep_span_back _ _ Unbounded high Hm Hhigh); res_simpl; subst all; cbn [map concat] in *; fold high in Hfit |- *; unfold shard_rows at 1 in Hfit; unfold shard_rows at 1; rewrite <- (filter_rev' (shows w (kp_keeps_graves out)) (List.filter _ (items_at gs s))) in Hfit |- *.
  set (pairs := rev (List.filter _ (items_at gs s))) in *; pose proof (push_shown_ok (shows w (kp_keeps_graves out)) limit pairs out rows Hp Hl (fit_first _ _ _ _ Hfit)) as Hpush.
  destruct (push_shown _ limit pairs out) as [out' full]; destruct full.
  - destruct (filled_full limit out rows _ (concat (map (fun s => rev (shard_rows gs (shows w (kp_keeps_graves out)) Unbounded (if s =? last then high_of end_ else Unbounded) s)) shards)) (out', true) Hl Hpush eq_refl) as (H1 & _ & _).
    eauto.
  - pose proof Hpush as (H1 & H2 & H3); cbn [fst snd] in *; symmetry in H2; apply Z.leb_gt in H2; rewrite take_ge in H1 by (unfold len in *; lia).
    set (here := List.filter (shows w (kp_keeps_graves out)) pairs) in *.
    assert (forall rest, take (Z.to_nat (limit - len rows)) (here ++ rest) = here ++ take (Z.to_nat (limit - len (rows ++ here))) rest) as Htk.
    { intros rest; rewrite take_app, take_ge by (unfold len in *; lia); f_equal; f_equal; rewrite len_app; unfold len in *; lia. }
    destruct (IH out' (rows ++ here) Hw Hin H1) as (out2 & E2 & H4); rewrite ?H3; [rewrite len_app; lia | rewrite <- app_assoc, <- Htk; exact Hfit |].
    exists out2; split; [done|]; rewrite H3, <- app_assoc, <- Htk in H4; exact H4.
Qed.

(** ** The keys of some shards in order *)

Lemma shard_rows_elem w gs occ show low high s x : index_ok w gs occ -> in_column w s ->
  x ∈ shard_rows gs show low high s <-> entry_of (wi_shard_bytes w) gs x.1 = Some x.2 /\ shard_of w x.1 = s /\ show x = true /\ in_range low high x = true.
Proof.
  intros Hw Hs; destruct (items_at_ok w gs occ s Hw Hs) as (_ & _ & _ & _ & Hsort & Hhere); unfold shard_rows; rewrite list_elem_of_In, !filter_In, <- list_elem_of_In.
  assert (x ∈ items_at gs s <-> entry_of (wi_shard_bytes w) gs x.1 = Some x.2 /\ shard_of w x.1 = s) as ->; [| tauto].
  unfold entry_of, items_at, shard_of in *; split.
  - intros Hx; rewrite Forall_forall in Hhere; pose proof (Hhere x Hx) as Hsx; rewrite Hsx; split; [| done]; destruct x; by apply held_assoc.
  - intros [He Hsx]; rewrite Hsx in He; destruct x; by apply assoc_elem.
Qed.

Lemma shards_sorted w gs occ show (low high : Z -> Bound bytes) shards : index_ok w gs occ -> Forall (in_column w) shards -> StronglySorted Z.lt shards ->
  StronglySorted bytes_lt (map fst (concat (map (fun s => shard_rows gs show (low s) (high s) s) shards))).
Proof.
  intros Hw Hin Hs; induction Hs as [|s shards Hs IH Hlt]; cbn [map concat]; [constructor|]; apply Forall_cons in Hin as [Hs0 Hin]; rewrite map_app; apply StronglySorted_app; split_and!.
  - intros a b (x & -> & Hx)%list_elem_of_fmap (y & -> & Hy)%list_elem_of_fmap; apply (shard_rows_elem w gs occ) in Hx as (_ & Ex & _); [| done | done].
    apply list_elem_of_In, in_concat in Hy as (l & Hl & Hy); apply in_map_iff in Hl as (s' & <- & Hs'%list_elem_of_In); rewrite Forall_forall in Hin, Hlt.
    apply list_elem_of_In, (shard_rows_elem w gs occ) in Hy as (_ & Ey & _); [| done | by apply Hin]; apply (shard_of_bytes_lt (wi_shard_bytes w)); [apply Hw|].
    specialize (Hlt s' Hs'); unfold shard_of in *; lia.
  - destruct (items_at_ok w gs occ s Hw Hs0) as (_ & _ & _ & _ & Hsort & _); eapply sorted_sub; [| exact Hsort]; unfold shard_rows; etrans; apply filter_sublist.
  - by apply IH.
Qed.

Lemma shards_elem w gs occ show (low high : Z -> Bound bytes) shards x : index_ok w gs occ -> Forall (in_column w) shards ->
  x ∈ concat (map (fun s => shard_rows gs show (low s) (high s) s) shards) <->
  entry_of (wi_shard_bytes w) gs x.1 = Some x.2 /\ show x = true /\ shard_of w x.1 ∈ shards /\ in_range (low (shard_of w x.1)) (high (shard_of w x.1)) x = true.
Proof.
  intros Hw Hin; rewrite list_elem_of_In, in_concat; rewrite Forall_forall in Hin; split.
  - intros (l & (s & <- & Hs%list_elem_of_In)%in_map_iff & Hx%list_elem_of_In); apply (shard_rows_elem w gs occ) in Hx as (H1 & <- & H2 & H3); [| done | by apply Hin]; done.
  - intros (H1 & H2 & H3 & H4); eexists; split; [apply in_map_iff; exists (shard_of w x.1); split; [done | by apply list_elem_of_In]|]; apply list_elem_of_In, (shard_rows_elem w gs occ); [done | by apply Hin | done].
Qed.

(** ** The shards a page visits *)

Lemma seq_sorted first n : StronglySorted Z.lt (seqZ first n).
Proof.
  unfold seqZ; generalize (Z.to_nat n) as k; intros k; generalize 0%nat as from; induction k as [|k IH]; intros from; cbn [seq fmap list_fmap]; constructor; [apply IH|].
  apply Forall_forall; intros x (y & -> & [Hy _]%elem_of_seq)%list_elem_of_fmap; lia.
Qed.

Lemma filled_shards w gs occ a b : index_ok w gs occ -> 0 <= a -> b < len (wi_shards w) ->
  Forall (in_column w) (List.filter (is_filled (wi_filled w)) (seqZ a (b + 1 - a))) /\ StronglySorted Z.lt (List.filter (is_filled (wi_filled w)) (seqZ a (b + 1 - a)))
  /\ forall key e, entry_of (wi_shard_bytes w) gs key = Some e -> shard_of w key ∈ List.filter (is_filled (wi_filled w)) (seqZ a (b + 1 - a)) <-> a <= shard_of w key <= b.
Proof.
  intros Hw Ha Hb; split_and!.
  - apply Forall_forall; intros s [Hs%list_elem_of_In%elem_of_seqZ _]%list_elem_of_In%filter_In; unfold in_column; lia.
  - apply StronglySorted_filter, seq_sorted.
  - intros key e He; rewrite list_elem_of_In, filter_In, <- list_elem_of_In, elem_of_seqZ; split; [intros []; lia|]; intros Hr; split; [lia|].
    destruct (shard_ok w gs occ _ Hw (key_in_column _ _ _ key Hw)) as (state & g & _ & _ & Eg & _ & Hk); apply (ko_filled _ _ _ _ _ _ Hk); intros E.
    rewrite (entry_of_here _ _ _ _ _ Hw Eg), E in He; done.
Qed.

(** The bounds a page starts past: a key of the column, or, where the bound itself is taken, any
    bytes no wider than the column's keys. *)
Definition low_fits (start : Bound bytes) : Prop :=
  match start with Unbounded => True | Included b => bound_fits b | Excluded b => accepts b = true end.

Lemma low_cuts start key : low_fits start -> accepts key = true -> above_low (low_of start) key = above_low start key.
Proof.
  intros Hf Ha; destruct start as [|b|b]; cbn [low_of map_bound above_low]; [done | by apply bound_cuts | by rewrite low_bound_key].
Qed.

Lemma low_shards w start key : 0 <= wi_shard_bytes w <= 2 -> accepts key = true -> low_fits start -> let first := bound_shard w start 0 in
  (first <= shard_of w key /\ above_low (if shard_of w key =? first then low_of start else Unbounded) key = true) <-> above_low start key = true.
Proof.
  intros Hsb Ha Hc first; pose proof (low_cuts start key Hc Ha) as Hcut; clear Hc; rename Hcut into Hc; pose proof (shard_of_bytes_range (wi_shard_bytes w) key Hsb) as Hr; subst first; unfold shard_of in *; destruct start as [|k|k]; cbn [bound_shard].
  - cbn [low_of map_bound above_low]; destruct (_ =? 0); cbn [above_low]; intuition lia.
  - pose proof (shard_of_bytes_mono (wi_shard_bytes w) k key Hsb) as Hm; unfold shard_of; destruct (Z.eqb_spec (shard_of_bytes (wi_shard_bytes w) key) (shard_of_bytes (wi_shard_bytes w) k)) as [E|Ene].
    + rewrite Hc; intuition lia.
    + cbn [above_low]; change (key_leb k key) with (bytes_leb k key); rewrite bytes_leb_le; split; [intros [Hle _]; apply bytes_lt_le, (shard_of_bytes_lt (wi_shard_bytes w)); [done | lia] | auto].
  - pose proof (shard_of_bytes_mono (wi_shard_bytes w) k key Hsb) as Hm; unfold shard_of; destruct (Z.eqb_spec (shard_of_bytes (wi_shard_bytes w) key) (shard_of_bytes (wi_shard_bytes w) k)) as [E|Ene].
    + rewrite Hc; intuition lia.
    + cbn [above_low]; change (key_ltb k key) with (bytes_ltb k key); rewrite bytes_ltb_lt; split; [intros [Hle _]; apply (shard_of_bytes_lt (wi_shard_bytes w)); [done | lia]|]; intros Hlt; split; [apply Hm; by apply bytes_lt_le | done].
Qed.

(** Where a page taken back ends: past the bound's bytes, and an included bound takes in every key
    that begins with it. *)
Definition below_end (end_ : Bound bytes) (key : bytes) : bool :=
  match end_ with Unbounded => true | Included e => bytes_leb key e || has_prefix e key | Excluded e => bytes_ltb key e end.

(** The bounds a page is taken back from: bytes no wider than the column's keys, and where the bound
    is taken itself, wide enough to name a shard and with no live key wider than the column's. *)
Definition high_fits (shard_bytes wide : Z) (end_ : Bound bytes) : Prop :=
  match end_ with Unbounded => True | Included e => shard_bytes <= len e <= widest /\ wide <= widest | Excluded e => bound_fits e end.

Lemma high_cuts sb wide end_ key : high_fits sb wide end_ -> accepts key = true -> len key <= wide -> below_high (high_of end_) key = below_end end_ key.
Proof.
  intros Hf Ha Hk; destruct end_ as [|e|e]; cbn [high_of below_high below_end high_fits] in *; [done | apply high_bound_cuts; [lia | done | lia] |].
  change (key_ltb key (low_bound e)) with (bytes_ltb key (low_bound e)); by rewrite !bytes_ltb_leb, (bound_cuts e key Hf Ha).
Qed.

Lemma shard_of_prefix sb e key : 0 <= sb <= len e -> has_prefix e key = true -> shard_of_bytes sb key = shard_of_bytes sb e.
Proof.
  unfold has_prefix; rewrite bytes_eqb_eq; intros Hsb E; unfold shard_of_bytes, len in *.
  assert (forall l acc, (forall at_, at_ ∈ l -> (at_ < length e)%nat) -> fold_left (shard_step key) l acc = fold_left (shard_step e) l acc) as Hfold.
  { induction l as [|at_ l IH]; intros acc Hl; cbn [fold_left]; [done|]; assert (shard_step key acc at_ = shard_step e acc at_) as ->.
    { unfold shard_step; rewrite !get_lookup; assert (key !! at_ = e !! at_) as -> by (rewrite <- E; rewrite lookup_take_lt; [done | apply Hl; set_solver]); done. }
    apply IH; intros; apply Hl; set_solver. }
  apply Hfold; intros at_ [_ Hlt]%elem_of_seq; lia.
Qed.

Lemma high_shards w gs occ wide end_ key : index_ok w gs occ -> accepts key = true -> len key <= wide -> high_fits (wi_shard_bytes w) wide end_ -> let last := bound_shard w end_ (len (wi_shards w) - 1) in
  (shard_of w key <= last /\ below_high (if shard_of w key =? last then high_of end_ else Unbounded) key = true) <-> below_end end_ key = true.
Proof.
  intros Hw Ha Hk Hf last; pose proof (high_cuts _ _ _ _ Hf Ha Hk) as Hc; pose proof (key_in_column w gs occ key Hw) as Hr; pose proof (io_bytes _ _ _ Hw) as Hsb; subst last; unfold in_column, shard_of in *; destruct end_ as [|k|k]; cbn [bound_shard].
  - cbn [high_of below_high below_end]; destruct (_ =? _); cbn [below_high]; intuition lia.
  - pose proof (shard_of_bytes_mono (wi_shard_bytes w) key k Hsb) as Hm; unfold shard_of; cbn [high_fits] in Hf.
    assert (below_end (Included k) key = true -> shard_of_bytes (wi_shard_bytes w) key <= shard_of_bytes (wi_shard_bytes w) k) as Hle.
    { cbn [below_end]; rewrite orb_true_iff, bytes_leb_le; intros [?|Hp]; [by apply Hm|]; rewrite (shard_of_prefix _ k key) by (done || lia); lia. }
    destruct (Z.eqb_spec (shard_of_bytes (wi_shard_bytes w) key) (shard_of_bytes (wi_shard_bytes w) k)) as [E|Ene].
    + rewrite Hc; intuition lia.
    + cbn [below_high]; split; [intros [Hle' _]|intuition lia]; cbn [below_end]; apply orb_true_iff; left; apply bytes_leb_le, bytes_lt_le, (shard_of_bytes_lt (wi_shard_bytes w)); [done | lia].
  - pose proof (shard_of_bytes_mono (wi_shard_bytes w) key k Hsb) as Hm; unfold shard_of; destruct (Z.eqb_spec (shard_of_bytes (wi_shard_bytes w) key) (shard_of_bytes (wi_shard_bytes w) k)) as [E|Ene].
    + rewrite Hc; cbn [below_end]; rewrite bytes_ltb_lt; split; [tauto|]; intros Hlt; split; [lia | done].
    + cbn [below_high below_end]; rewrite bytes_ltb_lt; split; [intros [Hle _]; apply (shard_of_bytes_lt (wi_shard_bytes w)); [done | lia]|]; intros Hlt; split; [apply Hm; by apply bytes_lt_le | done].
Qed.
End pages.

(** ** A page is the next live keys *)
Section exact.
Context {M Book : Type} {IK : IndexKey} {IKL : IndexKeyLaws} {SM : ShardMap M Entry} {SML : ShardMapLaws M Entry} {BK : Bookings Book}.
Variable scan : Scan.
Implicit Types (w : WidthIndex M) (gs : list Kept) (occ : list (Z * unit)) (key : bytes) (ops : list Op) (rows all : list (bytes * Entry)) (inside : bytes -> bool) (before : bytes -> bytes -> Prop).

(** The page reads as the first [limit] live keys of the history inside the bound, in order. *)
Definition page_of ops inside before (limit : Z) (out : KeyPage) : Prop := exists rows,
  KeyPage_len out = len rows /\ len rows <= limit /\ StronglySorted before (map fst rows)
  /\ (forall i key e, get rows i = Some (key, e) -> KeyPage_key_ref out i = Some key /\ KeyPage_found_at out i = (if kp_keeps_found out then Some e else None)
       /\ inside key = true /\ column_get ops key = Some (en_loc e, en_lsn e))
  /\ (forall key, inside key = true -> column_get ops key <> None -> key ∈ map fst rows \/ (len rows = limit /\ Forall (fun k => before k key) (map fst rows))).

Lemma live_shown w ops gs occ key e : history_ok w ops gs occ ->
  entry_of (wi_shard_bytes w) gs key = Some e /\ shows w false (key, e) = true <-> exists found, WidthIndex_get w key = Ok found /\ found = Some e.
Proof.
  intros Hh; pose proof (ho_index _ _ _ _ Hh) as Hw; rewrite (index_get_ok w gs occ key Hw); unfold shown, shows; cbn [fst snd orb]; split.
  - intros [-> Hs]; eexists; split; [done|]; rewrite (is_covered_ok _ _ _ _ _ Hw) in Hs; apply andb_true_iff in Hs as [->%negb_true_iff ->%negb_true_iff]; done.
  - intros (found & [= <-] & E); destruct (entry_of _ gs key) as [e'|]; [| done]; rewrite (is_covered_ok _ _ _ _ _ Hw); destruct (_ || _) eqn:Eo; [done|]; injection E as ->; apply orb_false_iff in Eo as [-> ->]; done.
Qed.

Lemma live_column w ops gs occ key e : history_ok w ops gs occ -> entry_of (wi_shard_bytes w) gs key = Some e -> shows w false (key, e) = true -> column_get ops key = Some (en_loc e, en_lsn e).
Proof.
  intros Hh He Hs; destruct (proj1 (live_shown w ops gs occ key e Hh) (conj He Hs)) as (found & E & ->); destruct (history_get w ops gs occ key Hh) as (found & E' & <-); rewrite E in E'; by injection E' as <-.
Qed.

Lemma column_live w ops gs occ key : history_ok w ops gs occ -> column_get ops key <> None -> accepts key = true /\ exists e, entry_of (wi_shard_bytes w) gs key = Some e /\ shows w false (key, e) = true.
Proof.
  intros Hh Hn; destruct (history_get w ops gs occ key Hh) as (found & E & Ef); split.
  - unfold column_get in Hn; destruct (newest key ops) as [op|] eqn:En; [| done]; destruct (newest_in _ _ _ En) as (Hop & Hon & _); by apply (ho_accepted _ _ _ _ Hh key op).
  - destruct found as [e|]; [| by rewrite <- Ef in Hn]; exists e; apply (live_shown w ops gs occ key e Hh); eauto.
Qed.

Lemma held_accepted w ops gs occ key e : history_ok w ops gs occ -> entry_of (wi_shard_bytes w) gs key = Some e -> accepts key = true.
Proof. intros Hh He; destruct (ho_held _ _ _ _ Hh key e He) as (op & Hop & Hon & _); by apply (ho_accepted _ _ _ _ Hh key op). Qed.

(** What is listed of a column, in full. *)
Definition lists w gs inside before all : Prop := StronglySorted before (map fst all)
  /\ forall x, x ∈ all <-> entry_of (wi_shard_bytes w) gs x.1 = Some x.2 /\ shows w false x = true /\ inside x.1 = true.

Lemma page_of_take w ops gs occ inside before limit out all : history_ok w ops gs occ -> 0 <= limit -> lists w gs inside before all -> page_holds out (take (Z.to_nat limit) all) -> page_of ops inside before limit out.
Proof.
  intros Hh Hl [Hsort Hall] Hp; exists (take (Z.to_nat limit) all); rewrite <- (take_drop (Z.to_nat limit) all), map_app in Hsort; apply StronglySorted_app in Hsort as (Hcross & Hsort & _); split_and!.
  - apply Hp.
  - unfold len; rewrite length_take; lia.
  - done.
  - intros i key e Hi; destruct (page_reads _ _ _ _ _ Hp Hi) as [-> ->]; assert ((key, e) ∈ all) as Hx.
    { apply get_Some in Hi as (l & l' & E & _); rewrite <- (take_drop (Z.to_nat limit) all), E; set_solver. }
    apply Hall in Hx as (He & Hs & Hin); split_and!; [done | done | done | by apply (live_column w ops gs occ)].
  - intros key Hin Hn; destruct (column_live w ops gs occ key Hh Hn) as (_ & e & He & Hs); assert ((key, e) ∈ all) as Hx by (by apply Hall).
    rewrite <- (take_drop (Z.to_nat limit) all) in Hx; apply elem_of_app in Hx as [Hx|Hx]; [left; by apply (list_elem_of_fmap_2 fst) in Hx|right].
    split; [unfold len; rewrite length_take; apply list_elem_of_lookup in Hx as (n & Hx%lookup_lt_Some); rewrite length_drop in Hx; lia|].
    apply Forall_forall; intros k Hk; apply Hcross; [done|]; by apply (list_elem_of_fmap_2 fst) in Hx.
Qed.

Lemma live_fit w ops gs occ inside before limit wide all : history_ok w ops gs occ -> lists w gs inside before all -> 0 <= limit -> (forall key, column_get ops key <> None -> len key <= wide) -> limit * wide < U32 -> 0 <= wide ->
  keys_fit (take (Z.to_nat limit) all).
Proof.
  intros Hh [_ Hall] Hl Hlen Hu Hwide; unfold keys_fit; apply Z.le_lt_trans with (limit * wide); [| done].
  assert (forall rows, Forall (fun x => len x.1 <= wide) rows -> len (concat (map fst rows)) <= len rows * wide) as Hsum.
  { intros rows; induction rows as [|x rows IH]; intros Hf; cbn [map concat]; [done|]; apply Forall_cons in Hf as [Hx Hf]; rewrite len_app, len_cons; specialize (IH Hf); nia. }
  etrans; [apply Hsum | unfold len; rewrite length_take; nia]; apply Forall_take, Forall_forall; intros [key e] (He & Hs & _)%Hall; cbn [fst snd] in *.
  apply Hlen; by rewrite (live_column w ops gs occ key e Hh He Hs).
Qed.

(** C21: A page taken from a bound of a column holds exactly the first [limit] keys past the bound
    that its history left alive, in ascending order and each with its entry where the page keeps
    entries, and where it is not full every live key past the bound is on it. A bound that is taken
    itself is any bytes no wider than the column's keys, one that is passed is a key of the column. *)
Theorem page_exact w ops start limit out wide : column_reached (Book := Book) scan w ops -> kp_keeps_graves out = false -> low_fits start ->
  0 < limit -> 0 <= wide -> (forall key, column_get ops key <> None -> len key <= wide) -> limit * wide < U32 ->
  exists out', WidthIndex_page w start limit out = Ok out' /\ page_of ops (above_low start) bytes_lt limit out'.
Proof.
  intros (gs & occ & Hh)%reached_history Hg Hc Hl Hwide Hlen Hu; pose proof (ho_index _ _ _ _ Hh) as Hw; pose proof (io_bytes _ _ _ Hw) as Hsb; unfold WidthIndex_page; rewrite (proj2 (Z.eqb_neq limit 0)) by lia.
  set (first := bound_shard w start 0); assert (0 <= first) as Hf by (subst first; destruct start; cbn [bound_shard]; [lia | apply (key_in_column w gs occ _ Hw) | apply (key_in_column w gs occ _ Hw)]).
  rewrite filled_range_ok by (done || apply Hw); destruct (filled_shards w gs occ first (len (wi_shards w) - 1) Hw Hf) as (Hin & Hsh & Hel); [lia|]; set (shards := List.filter _ _) in *.
  pose proof (page_shards_ok w gs occ first start limit shards (KeyPage_clear out) [] Hw Hin (clear_holds out)) as Hpage.
  change (kp_keeps_graves (KeyPage_clear out)) with (kp_keeps_graves out) in Hpage; rewrite Hg in Hpage; cbv zeta in Hpage; rewrite len_nil, Z.sub_0_r in Hpage; cbn [app] in Hpage; set (all := concat _) in Hpage.
  assert (lists w gs (above_low start) bytes_lt all) as Hall.
  { split; [apply (shards_sorted w gs occ _ (fun s => if s =? first then low_of start else Unbounded) (fun _ => Unbounded)); done|].
    intros x; subst all; rewrite (shards_elem w gs occ _ (fun s => if s =? first then low_of start else Unbounded) (fun _ => Unbounded) shards x Hw Hin); cbv beta; unfold in_range; cbn [below_high]; rewrite andb_true_r.
    split; intros (He & Hs & H); (split; [done|]; split; [done|]); pose proof (low_shards w start x.1 Hsb (held_accepted _ _ _ _ _ _ Hh He) Hc) as Hlow; cbv zeta in Hlow; fold first in Hlow; rewrite (Hel x.1 x.2 He) in *.
    - apply Hlow; tauto.
    - apply Hlow in H; pose proof (key_in_column w gs occ x.1 Hw) as Hk; unfold in_column in Hk; intuition lia. }
  destruct Hpage as (out' & E & Hp); [lia | by apply (live_fit w ops gs occ (above_low start) bytes_lt limit wide); try lia|]; exists out'; split; [exact E | by apply (page_of_take w ops gs occ _ _ _ _ all); try lia].
Qed.

Lemma rev_sorted (R : bytes -> bytes -> Prop) l : StronglySorted R l -> StronglySorted (fun a b => R b a) (rev l).
Proof.
  induction 1 as [|x l Hs IH Hx]; cbn [rev]; [constructor|]; apply StronglySorted_app; split_and!; [| done | repeat constructor].
  intros a b Ha ->%list_elem_of_singleton; rewrite Forall_forall in Hx; apply Hx; apply list_elem_of_In, in_rev, list_elem_of_In, Ha.
Qed.

Lemma concat_rev {A} (f : Z -> list A) shards : concat (map (fun s => rev (f s)) (rev shards)) = rev (concat (map f shards)).
Proof. induction shards as [|s shards IH]; cbn [rev map concat]; [done|]; rewrite map_app, concat_app, IH, rev_app_distr; cbn [map concat]; by rewrite app_nil_r. Qed.

(** C22: A page taken back from a bound holds exactly the last [limit] live keys before the bound, in
    descending order and each with its entry where the page keeps entries, and where it is not full
    every live key before the bound is on it. A bound that is taken itself takes in every key that
    begins with it, and is wide enough to name a shard and no wider than the column's keys. *)
Theorem page_back_exact w ops end_ limit out wide : column_reached (Book := Book) scan w ops -> kp_keeps_graves out = false -> high_fits (wi_shard_bytes w) wide end_ ->
  0 < limit -> 0 <= wide -> (forall key, column_get ops key <> None -> len key <= wide) -> limit * wide < U32 ->
  exists out', WidthIndex_page_back w end_ limit out = Ok out' /\ page_of ops (below_end end_) (fun a b => bytes_lt b a) limit out'.
Proof.
  intros (gs & occ & Hh)%reached_history Hg Hc Hl Hwide Hlen Hu; pose proof (ho_index _ _ _ _ Hh) as Hw; unfold WidthIndex_page_back; rewrite (proj2 (Z.eqb_neq limit 0)) by lia.
  set (last := bound_shard w end_ (len (wi_shards w) - 1)); assert (0 <= last < len (wi_shards w)) as Hf.
  { subst last; destruct end_; cbn [bound_shard]; [pose proof (key_in_column w gs occ [] Hw) as Hk; unfold in_column in Hk; lia | apply (key_in_column w gs occ _ Hw) | apply (key_in_column w gs occ _ Hw)]. }
  pose proof (io_words _ _ _ Hw) as Hwords; rewrite filled_back_ok by (apply Hw || lia); destruct (filled_shards w gs occ 0 last Hw ltac:(done)) as (Hin & Hsh & Hel); [lia|]; rewrite Z.sub_0_r in *; set (shards := List.filter _ _) in *.
  assert (Forall (in_column w) (rev shards)) as Hinr by (by apply Forall_rev).
  pose proof (page_back_shards_ok w gs occ last end_ limit (rev shards) (KeyPage_clear out) [] Hw Hinr (clear_holds out)) as Hpage.
  change (kp_keeps_graves (KeyPage_clear out)) with (kp_keeps_graves out) in Hpage; rewrite Hg in Hpage; cbv zeta in Hpage; rewrite len_nil, Z.sub_0_r, concat_rev in Hpage; cbn [app] in Hpage; set (all := concat _) in Hpage.
  assert (lists w gs (below_end end_) (fun a b => bytes_lt b a) (rev all)) as Hall.
  { split; [rewrite map_rev; apply rev_sorted, (shards_sorted w gs occ _ (fun _ => Unbounded) (fun s => if s =? last then high_of end_ else Unbounded)); done|].
    intros x; rewrite list_elem_of_In, <- in_rev, <- list_elem_of_In; subst all; rewrite (shards_elem w gs occ _ (fun _ => Unbounded) (fun s => if s =? last then high_of end_ else Unbounded) shards x Hw Hin); cbv beta; unfold in_range; cbn [above_low andb].
    split; intros (He & Hs & H); (split; [done|]; split; [done|]); assert (len x.1 <= wide) as Hx by (apply Hlen; destruct x as [key e]; cbn [fst snd] in *; by rewrite (live_column w ops gs occ key e Hh He Hs));
    pose proof (high_shards w gs occ wide end_ x.1 Hw (held_accepted _ _ _ _ _ _ Hh He) Hx Hc) as Hhigh; cbv zeta in Hhigh; fold last in Hhigh; rewrite (Hel x.1 x.2 He) in *.
    - apply Hhigh; tauto.
    - apply Hhigh in H; pose proof (key_in_column w gs occ x.1 Hw) as Hk; unfold in_column in Hk; intuition lia. }
  destruct Hpage as (out' & E & Hp); [lia | by apply (live_fit w ops gs occ (below_end end_) (fun a b => bytes_lt b a) limit wide); try lia|]; exists out'; split; [exact E | by apply (page_of_take w ops gs occ _ _ _ _ (rev all)); try lia].
Qed.
End exact.

Section demo.
#[local] Existing Instances boxed_index demo_map demo_map_laws.

Lemma live_written ops key : column_get ops key <> None -> existsb (fun op => match op with OpPut k _ _ => bytes_eqb k key | _ => false end) ops = true.
Proof.
  unfold column_get; destruct (newest key ops) as [op|] eqn:En; [| done]; destruct (newest_in _ _ _ En) as (Hop & Hon & _); destruct op as [k loc lsn| |]; [| done | done].
  intros _; apply existsb_exists; exists (OpPut k loc lsn); split; [by apply list_elem_of_In | done].
Qed.

(** The history of the earlier demo and a wider key behind it. *)
Definition demo_page_ops : list Op := demo_ops ++ [OpPut (demo_bytes 40 ++ demo_bytes 7) (mkLoc 5 8 9) 12].
Definition demo_page_col : WidthIndex demo_tree := fold_left demo_apply demo_page_ops demo_col.

Lemma demo_page_reached : column_reached (Book := SegmentTable) Scalar demo_page_col demo_page_ops.
Proof. unfold demo_page_col, demo_page_ops; rewrite fold_left_app; cbn [fold_left]; apply applied_reached; [exact demo_ops_reached | vm_compute; reflexivity | vm_compute; reflexivity]. Qed.

Lemma demo_wide key : column_get demo_page_ops key <> None -> len key <= 2.
Proof.
  intros Hn%live_written; unfold demo_page_ops, demo_ops in Hn; cbn [app existsb] in Hn; rewrite !orb_true_iff in Hn; repeat destruct Hn as [Hn|Hn]; try done; apply bytes_eqb_eq in Hn as <-; done.
Qed.

Lemma page_exact_witness : exists out', WidthIndex_page demo_page_col (Included (demo_bytes 30)) 2 KeyPage_with_lens = Ok out'
  /\ page_of demo_page_ops (above_low (Included (demo_bytes 30))) bytes_lt 2 out'
  /\ KeyPage_len out' = 2 /\ en_loc <$> KeyPage_found_at out' 0 = Some (mkLoc 4 60 70).
Proof.
  destruct (page_exact (Book := SegmentTable) Scalar demo_page_col demo_page_ops (Included (demo_bytes 30)) 2 KeyPage_with_lens 2 demo_page_reached eq_refl (or_introl eq_refl) ltac:(lia) ltac:(lia) demo_wide ltac:(vm_compute; reflexivity)) as (out' & E & Hp).
  exists out'; split; [exact E|]; split; [exact Hp|]; vm_compute in E; injection E as <-; split; reflexivity.
Defined.

Lemma page_back_exact_witness : exists out', WidthIndex_page_back demo_page_col (Included (demo_bytes 40)) 2 KeyPage_with_lens = Ok out'
  /\ page_of demo_page_ops (below_end (Included (demo_bytes 40))) (fun a b => bytes_lt b a) 2 out'
  /\ KeyPage_len out' = 2 /\ KeyPage_key_ref out' 0 = Some (demo_bytes 40 ++ demo_bytes 7).
Proof.
  assert (high_fits (wi_shard_bytes demo_page_col) 2 (Included (demo_bytes 40))) as Hf by (split; [split; vm_compute; discriminate | vm_compute; discriminate]).
  destruct (page_back_exact (Book := SegmentTable) Scalar demo_page_col demo_page_ops (Included (demo_bytes 40)) 2 KeyPage_with_lens 2 demo_page_reached eq_refl Hf ltac:(lia) ltac:(lia) demo_wide ltac:(vm_compute; reflexivity)) as (out' & E & Hp).
  exists out'; split; [exact E|]; split; [exact Hp|]; vm_compute in E; injection E as <-; split; reflexivity.
Defined.
End demo.
