(* ===== verification/Publish.v ===== *)
(** * The barrier between batches and whole-set reads ([append/publish.rs])

    A batch's index moves land together for a read of several keys: batches hold the barrier alone,
    reads share it, and everyone waits in one queue in arrival order. Batches that arrive while one
    leads gather in its group and move beside it. A read of keys it cannot list first tries a fill
    outside the queue and keeps it when no batch started meanwhile.

    Each turn of a thread at a lock or an atomic is one step, so a run is any interleaving of the
    turns of any number of threads. A parked thread wakes by the token an unpark leaves or for no
    reason; a thread asleep on a group's condition is woken by a notice to that group or for no
    reason, and checks the condition again. A run where nobody is noticed sleeps for good. *)
From S2P Require Import Prelude Bytes.

Inductive Want := Shared | Exclusive.

Record Waiter := mkWaiter { wt_place : Z; wt_want : Want; wt_thread : nat }.

Record Queue := mkQueue { q_readers : Z; q_is_publishing : bool; q_waiting : list Waiter; q_next_place : Z }.

Definition Queue_default : Queue := mkQueue 0 false [] 0.

Definition may_enter (q : Queue) (place : Z) : bool :=
  match q_waiting q with
  | front :: _ =>
      if wt_place front =? place then match wt_want front with Shared => negb (q_is_publishing q) | Exclusive => negb (q_is_publishing q) && (q_readers q =? 0) end
      else false
  | [] => false
  end.

(** The tokens of the threads, each left by an unpark and taken by a park. *)
Definition unpark (tokens : list bool) (w : Waiter) : list bool := <[wt_thread w := true]> tokens.

Fixpoint unpark_readers (waiting : list Waiter) (tokens : list bool) : list bool :=
  match waiting with
  | w :: waiting => match wt_want w with Shared => unpark_readers waiting (unpark tokens w) | Exclusive => tokens end
  | [] => tokens
  end.

Definition wake_front (q : Queue) (tokens : list bool) : list bool :=
  match q_waiting q with
  | [] => tokens
  | front :: _ =>
      if negb (may_enter q (wt_place front)) then tokens
      else match wt_want front with Exclusive => unpark tokens front | Shared => unpark_readers (q_waiting q) tokens end
  end.

Definition OPTIMISTIC_FILLS : nat := 1.

Record Publishes := mkPublishes { pb_started : Z; pb_finished : Z }.

(** Whether the group's leader holds the barrier, and how many batches beside it are to move. *)
Record Group := mkGroup { gr_open : bool; gr_members : Z }.

(** Who asks for the barrier: a read, one batch, or the leader of a group. *)
Inductive Role := Reads | Publishes_alone | Leads (g : nat).

Definition want_of (r : Role) : Want := match r with Reads => Shared | _ => Exclusive end.

(** Where a thread is in the calls of the barrier. [Joined] and [Draining] are about to check their
    condition under the group's lock, [Asleep] and [Dozing] are the same waits gone to sleep on the
    group's condition variable, and [Opening] has set the group open and not yet noticed it. *)
Inductive Caller :=
| Away
| Trying (tries : nat) | Loaded (tries : nat) (started : Z) | Filling (tries : nat) (quiet : Z) (seen : list Z) | Fallback
| Gathered (g : nat) | Joined (g : nat) | Following (g : nat)
| Parking (place : Z) (role : Role) | Woken (place : Z) (role : Role)
| Reading (seen : list Z)
| Entered (lead : option nat) | Counted (g : nat) | Leading (g : nat) | Draining (g : nat) | Moving | Moved | Leaving
| Opening (g : nat) | Asleep (g : nat) | Dozing (g : nat).

(** The barrier, the threads at it, and beside them the index as the number of moves made, the
    numbers it stood at when a batch or a group of them was whole, what each served read saw of it,
    who leads each group, and the places in the order they were let in. *)
Record PublishBarrier := mkPublishBarrier {
  b_queue : Queue;
  b_publishes : Publishes;
  b_groups : list Group;
  b_gathering : option nat;
  b_callers : list Caller;
  b_tokens : list bool;
  b_index : Z;
  b_whole : list Z;
  b_served : list (list Z);
  b_leaders : list nat;
  b_let_in : list Z;
}.

Definition PublishBarrier_new (threads : nat) : PublishBarrier :=
  mkPublishBarrier Queue_default (mkPublishes 0 0) [] None (replicate threads Away) (replicate threads false) 0 [0] [] [] [].

Implicit Types (b : PublishBarrier) (q : Queue).

Definition set_caller b (i : nat) (c : Caller) : PublishBarrier :=
  mkPublishBarrier (b_queue b) (b_publishes b) (b_groups b) (b_gathering b) (<[i := c]> (b_callers b)) (b_tokens b) (b_index b) (b_whole b) (b_served b) (b_leaders b) (b_let_in b).

Definition set_queue b q (tokens : list bool) (let_in : list Z) : PublishBarrier :=
  mkPublishBarrier q (b_publishes b) (b_groups b) (b_gathering b) (b_callers b) tokens (b_index b) (b_whole b) (b_served b) (b_leaders b) let_in.

Definition set_publishes b (p : Publishes) : PublishBarrier :=
  mkPublishBarrier (b_queue b) p (b_groups b) (b_gathering b) (b_callers b) (b_tokens b) (b_index b) (b_whole b) (b_served b) (b_leaders b) (b_let_in b).

Definition set_groups b (groups : list Group) (gathering : option nat) (leaders : list nat) : PublishBarrier :=
  mkPublishBarrier (b_queue b) (b_publishes b) groups gathering (b_callers b) (b_tokens b) (b_index b) (b_whole b) (b_served b) leaders (b_let_in b).

Definition set_index b (index : Z) (whole : list Z) (served : list (list Z)) : PublishBarrier :=
  mkPublishBarrier (b_queue b) (b_publishes b) (b_groups b) (b_gathering b) (b_callers b) (b_tokens b) index whole served (b_leaders b) (b_let_in b).

Definition set_callers b (callers : list Caller) : PublishBarrier :=
  mkPublishBarrier (b_queue b) (b_publishes b) (b_groups b) (b_gathering b) callers (b_tokens b) (b_index b) (b_whole b) (b_served b) (b_leaders b) (b_let_in b).

(** [notify_all] on a group's condition variable: everyone asleep on it checks again. *)
Definition noticed (g : nat) (c : Caller) : Caller :=
  match c with
  | Asleep g' => if (g' =? g)%nat then Joined g' else c
  | Dozing g' => if (g' =? g)%nat then Draining g' else c
  | _ => c
  end.
Definition notify_all b (g : nat) : PublishBarrier := set_callers b (map (noticed g) (b_callers b)).

(** What [enter] does once its place may enter. *)
Definition pass_in q (want : Want) (tokens : list bool) : Queue * list bool :=
  let waiting := tl (q_waiting q) in
  match want with
  | Shared => let q := mkQueue (as_u64 (q_readers q + 1)) (q_is_publishing q) waiting (q_next_place q) in (q, wake_front q tokens)
  | Exclusive => (mkQueue (q_readers q) true waiting (q_next_place q), tokens)
  end.

Definition inside (role : Role) : Caller := match role with Reads => Reading [] | Publishes_alone => Entered None | Leads g => Entered (Some g) end.

(** One round of [enter]'s loop, under the lock. *)
Definition enter_round b (i : nat) (place : Z) (role : Role) : PublishBarrier :=
  if may_enter (b_queue b) place then
    let '(q, tokens) := pass_in (b_queue b) (want_of role) (b_tokens b) in
    set_caller (set_queue b q tokens (b_let_in b ++ [place])) i (inside role)
  else set_caller b i (Parking place role).

(** The first hold of the lock in [enter]: the place is taken, the waiter queued, the turn checked. *)
Definition enter b (i : nat) (role : Role) : PublishBarrier :=
  let q := b_queue b in
  let place := q_next_place q in
  let q := mkQueue (q_readers q) (q_is_publishing q) (q_waiting q ++ [mkWaiter place (want_of role) i]) (as_u64 (place + 1)) in
  enter_round (set_queue b q (b_tokens b) (b_let_in b)) i place role.

Definition leave b (want : Want) : PublishBarrier :=
  let q := b_queue b in
  let q := match want with
           | Shared => mkQueue (as_u64 (q_readers q - 1)) (q_is_publishing q) (q_waiting q) (q_next_place q)
           | Exclusive => mkQueue (q_readers q) false (q_waiting q) (q_next_place q)
           end in
  set_queue b q (wake_front q (b_tokens b)) (b_let_in b).

(** How [publish_grouped] opens: a batch joins the group that is gathering, or starts one to lead. *)
Definition gather b (i : nat) : option PublishBarrier :=
  match b_gathering b with
  | Some g =>
      group ← b_groups b !! g;
      Some (set_caller (set_groups b (<[g := mkGroup (gr_open group) (as_u64 (gr_members group + 1))]> (b_groups b)) (b_gathering b) (b_leaders b)) i (Joined g))
  | None => let g := length (b_groups b) in Some (set_caller (set_groups b (b_groups b ++ [mkGroup false 0]) (Some g) (b_leaders b ++ [i])) i (Gathered g))
  end.

Inductive Call := CallReading | CallPublishing | CallPublishGrouped | CallReadingAll.

Inductive Turn := Arrive (call : Call) | Work | Go | Spurious.

Definition arrive b (i : nat) (call : Call) : option PublishBarrier :=
  match call with
  | CallReading => Some (enter b i Reads)
  | CallPublishing => Some (enter b i Publishes_alone)
  | CallPublishGrouped => gather b i
  | CallReadingAll => Some (set_caller b i (Trying OPTIMISTIC_FILLS))
  end.

(** One index move of a batch, or one look of a read at the index. *)
Definition work b (i : nat) (c : Caller) : option PublishBarrier :=
  match c with
  | Moving | Leading _ | Following _ => Some (set_index b (b_index b + 1) (b_whole b) (b_served b))
  | Reading seen => Some (set_caller b i (Reading (b_index b :: seen)))
  | Filling tries quiet seen => Some (set_caller b i (Filling tries quiet (b_index b :: seen)))
  | _ => None
  end.

Definition count_started b : PublishBarrier := set_publishes b (mkPublishes (as_u64 (pb_started (b_publishes b) + 1)) (pb_finished (b_publishes b))).

Definition count_finished b : PublishBarrier :=
  set_index (set_publishes b (mkPublishes (pb_started (b_publishes b)) (as_u64 (pb_finished (b_publishes b) + 1)))) (b_index b) (b_index b :: b_whole b) (b_served b).

Definition serve b (seen : list Z) : PublishBarrier := set_index b (b_index b) (b_whole b) (b_served b ++ [seen]).

Definition set_group b (g : nat) (group : Group) : PublishBarrier := set_groups b (<[g := group]> (b_groups b)) (b_gathering b) (b_leaders b).

(** A thread's next turn where it has no choice to make. *)
Definition go b (i : nat) (c : Caller) : option PublishBarrier :=
  match c with
  | Away => None
  | Trying O => Some (set_caller b i Fallback)
  | Trying (S tries) => Some (set_caller b i (Loaded tries (pb_started (b_publishes b))))
  | Loaded tries started => Some (set_caller b i (if started =? pb_finished (b_publishes b) then Filling tries started [] else Fallback))
  | Filling tries quiet seen => if pb_started (b_publishes b) =? quiet then Some (set_caller (serve b seen) i Away) else Some (set_caller b i (Trying tries))
  | Fallback => Some (enter b i Reads)
  | Gathered g => Some (enter b i (Leads g))
  | Joined g => group ← b_groups b !! g; Some (set_caller b i (if gr_open group then Following g else Asleep g))
  | Following g =>
      group ← b_groups b !! g;
      let members := as_u64 (gr_members group - 1) in
      let b := set_group b g (mkGroup (gr_open group) members) in
      Some (set_caller (if members =? 0 then notify_all b g else b) i Away)
  | Parking place role =>
      if default false (b_tokens b !! i) then Some (set_caller (set_queue b (b_queue b) (<[i := false]> (b_tokens b)) (b_let_in b)) i (Woken place role)) else None
  | Woken place role => Some (enter_round b i place role)
  | Reading seen => Some (set_caller (leave (serve b seen) Shared) i Away)
  | Entered None => Some (set_caller (count_started b) i Moving)
  | Entered (Some g) => Some (set_caller (count_started b) i (Counted g))
  | Counted g => group ← b_groups b !! g; Some (set_caller (set_group b g (mkGroup true (gr_members group))) i (Opening g))
  | Opening g => Some (set_caller (notify_all b g) i (Leading g))
  | Leading g => Some (set_caller (set_groups b (b_groups b) None (b_leaders b)) i (Draining g))
  | Draining g => group ← b_groups b !! g; Some (set_caller b i (if gr_members group =? 0 then Moved else Dozing g))
  | Moving | Moved => Some (set_caller (count_finished b) i Leaving)
  | Leaving => Some (set_caller (leave b Exclusive) i Away)
  | Asleep _ | Dozing _ => None
  end.

Definition turn (i : nat) (t : Turn) b : option PublishBarrier :=
  c ← b_callers b !! i;
  match t, c with
  | Arrive call, Away => arrive b i call
  | Work, c => work b i c
  | Go, c => go b i c
  | Spurious, Parking place role => Some (set_caller b i (Woken place role))
  | Spurious, Asleep g => Some (set_caller b i (Joined g))
  | Spurious, Dozing g => Some (set_caller b i (Draining g))
  | _, _ => None
  end.

(** The barriers that [threads] threads reach in some number of turns. *)
Inductive barrier_reached (threads : nat) : nat -> PublishBarrier -> Prop :=
| reached_start : barrier_reached threads 0 (PublishBarrier_new threads)
| reached_turn n b i t b' : barrier_reached threads n b -> turn i t b = Some b' -> barrier_reached threads (S n) b'.

(** ** Counting threads *)

Definition count {A} (f : A -> bool) (l : list A) : Z := len (List.filter f l).

Lemma count_nonneg {A} (f : A -> bool) l : 0 <= count f l.
Proof. apply len_nonneg. Qed.

Lemma count_insert {A} (f : A -> bool) l i x y : l !! i = Some x -> count f (<[i := y]> l) = count f l - Z.b2z (f x) + Z.b2z (f y).
Proof.
  unfold count; revert i; induction l as [|a l IH]; intros [|i] Hi; try done.
  - injection Hi as ->; change (<[0%nat := y]> (x :: l)) with (y :: l); cbn [List.filter]; destruct (f x), (f y); cbn [Z.b2z]; rewrite ?len_cons; lia.
  - change (<[S i := y]> (a :: l)) with (a :: <[i := y]> l); cbn [List.filter]; specialize (IH i Hi); destruct (f a); rewrite ?len_cons; lia.
Qed.

Lemma count_pos {A} (f : A -> bool) l i x : l !! i = Some x -> f x = true -> 1 <= count f l.
Proof.
  intros Hi Hx; unfold count, len; assert (In x (List.filter f l)) as Hin by (apply filter_In; split; [by apply list_elem_of_In, (list_elem_of_lookup_2 _ i) | done]); destruct (List.filter f l); [done | cbn; lia].
Qed.

Lemma count_ex {A} (f : A -> bool) l : 0 < count f l -> exists i x, l !! i = Some x /\ f x = true.
Proof.
  unfold count; destruct (List.filter f l) as [|x r] eqn:E; [done|]; intros _; assert (In x (List.filter f l)) as [Hin Hx]%filter_In by (rewrite E; by left).
  apply list_elem_of_In, list_elem_of_lookup in Hin as [i Hi]; eauto.
Qed.

Lemma count_le {A} (f g : A -> bool) l : (forall x, f x = true -> g x = true) -> count f l <= count g l.
Proof. intros H; unfold count; induction l as [|x l IH]; cbn [List.filter]; [lia|]; specialize (H x); destruct (f x), (g x); rewrite ?len_cons; try lia; by specialize (H eq_refl). Qed.

Lemma count_map {A B} (h : A -> B) (f : B -> bool) l : count f (map h l) = count (fun x => f (h x)) l.
Proof. unfold count; induction l as [|x l IH]; cbn [map List.filter]; [done|]; destruct (f (h x)); rewrite ?len_cons, ?IH; done. Qed.

(** ** The queue *)

Inductive QFace := QOut | QWaits (place : Z) (want : Want) (woken : bool) | QReads | QHolds.

Definition queue_face (c : Caller) : QFace :=
  match c with
  | Parking place role => QWaits place (want_of role) false
  | Woken place role => QWaits place (want_of role) true
  | Reading _ => QReads
  | Entered _ | Counted _ | Opening _ | Leading _ | Draining _ | Dozing _ | Moving | Moved | Leaving => QHolds
  | _ => QOut
  end.

Definition q_reads (f : QFace) : bool := match f with QReads => true | _ => false end.
Definition q_holds (f : QFace) : bool := match f with QHolds => true | _ => false end.

(** A front waiter whose turn has come is awake or will be woken. *)
Definition front_called q (tokens : list bool) (faces : list QFace) : Prop :=
  match q_waiting q with
  | front :: _ => may_enter q (wt_place front) = true -> faces !! wt_thread front = Some (QWaits (wt_place front) (wt_want front) true) \/ tokens !! wt_thread front = Some true
  | [] => True
  end.

Record queue_ok (n : Z) q (tokens : list bool) (let_in : list Z) (faces : list QFace) : Prop := {
  qo_readers : q_readers q = count q_reads faces;
  qo_holds : count q_holds faces = Z.b2z (q_is_publishing q);
  qo_apart : q_is_publishing q = true -> q_readers q = 0;
  qo_places : map wt_place (q_waiting q) = seqZ (len let_in) (len (q_waiting q));
  qo_next : q_next_place q = len let_in + len (q_waiting q);
  qo_let_in : let_in = seqZ 0 (len let_in);
  qo_waiter w : w ∈ q_waiting q -> exists woken, faces !! wt_thread w = Some (QWaits (wt_place w) (wt_want w) woken);
  qo_waits i place want woken : faces !! i = Some (QWaits place want woken) -> mkWaiter place want i ∈ q_waiting q;
  qo_called : front_called q tokens faces;
  qo_tokens : length tokens = length faces;
  qo_bound : q_next_place q <= n;
  qo_fewer : q_readers q <= len let_in;
}.

Lemma unpark_readers_length waiting : forall tokens, length (unpark_readers waiting tokens) = length tokens.
Proof. induction waiting as [|w waiting IH]; intros tokens; cbn [unpark_readers]; [done|]; destruct (wt_want w); [| done]; rewrite IH; unfold unpark; by rewrite length_insert. Qed.

Lemma wake_front_length q tokens : length (wake_front q tokens) = length tokens.
Proof.
  unfold wake_front; destruct (q_waiting q) as [|front rest]; [done|]; destruct (negb _); [done|]; destruct (wt_want front); [apply unpark_readers_length | unfold unpark; by rewrite length_insert].
Qed.

Lemma unpark_readers_keeps waiting i : forall tokens, tokens !! i = Some true -> unpark_readers waiting tokens !! i = Some true.
Proof.
  induction waiting as [|w waiting IH]; intros tokens Hi; cbn [unpark_readers]; [done|]; destruct (wt_want w); [| done]; apply IH; unfold unpark.
  destruct (decide (wt_thread w = i)) as [->|]; [apply list_lookup_insert_eq; by eapply lookup_lt_Some | by rewrite list_lookup_insert_ne].
Qed.

Lemma wake_front_called q tokens faces : length tokens = length faces -> (forall w, w ∈ q_waiting q -> exists woken, faces !! wt_thread w = Some (QWaits (wt_place w) (wt_want w) woken)) ->
  front_called q (wake_front q tokens) faces.
Proof.
  intros Hl Hw; unfold front_called, wake_front; destruct (q_waiting q) as [|front rest] eqn:E; [done|]; intros ->; cbn [negb]; right.
  destruct (Hw front ltac:(set_solver)) as (woken & Hf); assert (wt_thread front < length tokens)%nat as Hlt by (rewrite Hl; by eapply lookup_lt_Some).
  assert (unpark tokens front !! wt_thread front = Some true) as Hu by (by apply list_lookup_insert_eq); destruct (wt_want front) eqn:Ew; [| done]; cbn [unpark_readers]; rewrite Ew; by apply unpark_readers_keeps.
Qed.

(** The waiter whose place may enter is the one in front. *)
Lemma enters_front n q tokens let_in faces i place want woken : queue_ok n q tokens let_in faces -> faces !! i = Some (QWaits place want woken) -> may_enter q place = true ->
  exists rest, q_waiting q = mkWaiter place want i :: rest /\ place = len let_in /\ q_is_publishing q = false /\ (want = Exclusive -> q_readers q = 0).
Proof.
  intros Hq Hf Hm; pose proof (qo_waits _ _ _ _ _ Hq i place want woken Hf) as Hin; pose proof (qo_places _ _ _ _ _ Hq) as Hp; unfold may_enter in Hm; destruct (q_waiting q) as [|front rest]; [done|].
  destruct (Z.eqb_spec (wt_place front) place) as [Ep|]; [| done]; exists rest; rewrite len_cons in Hp; pose proof (len_nonneg rest) as Hr; rewrite seqZ_cons in Hp by lia; cbn [map] in Hp; injection Hp as Hp0 Hp.
  apply elem_of_cons in Hin as [<-|Hin].
  - cbn [wt_want wt_place] in *; split_and!; [done | lia | by destruct want, (q_is_publishing q) |]; intros ->; apply andb_true_iff in Hm as [_ Hm]; lia.
  - exfalso; apply (list_elem_of_fmap_2 wt_place) in Hin; cbn [wt_place] in Hin; change (wt_place <$> rest) with (map wt_place rest) in Hin; rewrite Hp in Hin; apply elem_of_seqZ in Hin; lia.
Qed.

(** Joining the queue: the thread stands at its back, about to check its turn. *)
Lemma push_ok n q tokens let_in faces i want : queue_ok n q tokens let_in faces -> faces !! i = Some QOut -> n + 1 < U64 ->
  queue_ok (n + 1) (mkQueue (q_readers q) (q_is_publishing q) (q_waiting q ++ [mkWaiter (q_next_place q) want i]) (as_u64 (q_next_place q + 1))) tokens let_in (<[i := QWaits (q_next_place q) want true]> faces).
Proof.
  intros Hq Hi Hn; pose proof Hq as [Hr Hh Ha Hp Hx Hli Hw Hws Hc Ht Hb Hfew]; pose proof (len_nonneg let_in); pose proof (len_nonneg (q_waiting q)); rewrite as_u64_small by (unfold is_u64; lia).
  split; cbn [q_readers q_is_publishing q_waiting q_next_place]; rewrite ?(count_insert _ _ _ _ _ Hi), ?length_insert; cbn [q_reads q_holds Z.b2z]; try done; try lia.
  - rewrite map_app, Hp, len_app; change (len [mkWaiter (q_next_place q) want i]) with 1; cbn [map wt_place]; rewrite seqZ_app by lia; f_equal; rewrite Hx; done.
  - rewrite len_app; change (len [mkWaiter (q_next_place q) want i]) with 1; lia.
  - intros w [Hin|Ew%list_elem_of_singleton]%elem_of_app; [| subst w]; cbn [wt_thread wt_place wt_want].
    + destruct (Hw w Hin) as (woken & Hf); exists woken; rewrite list_lookup_insert_ne; [done|]; intros E; by rewrite <- E, Hi in Hf.
    + exists true; apply list_lookup_insert_eq; by eapply lookup_lt_Some.
  - intros j place w' woken Hj; apply elem_of_app; destruct (decide (j = i)) as [->|Hne].
    + rewrite list_lookup_insert_eq in Hj by (by eapply lookup_lt_Some); injection Hj as <- <- <-; right; set_solver.
    + rewrite list_lookup_insert_ne in Hj by done; left; by eapply Hws.
  - unfold front_called, may_enter in *; cbn [q_waiting q_is_publishing q_readers]; destruct (q_waiting q) as [|front rest] eqn:Ewt; cbn [app].
    + intros _; left; cbn [wt_thread]; apply list_lookup_insert_eq; by eapply lookup_lt_Some.
    + intros Hm; destruct (Hw front ltac:(set_solver)) as (woken & Hf); rewrite list_lookup_insert_ne; [by apply Hc|]; intros E; by rewrite <- E, Hi in Hf.
Qed.

(** A thread in the queue comes awake, its token taken or not. *)
Lemma awake_ok n q tokens tokens' let_in faces i place want woken : queue_ok n q tokens let_in faces -> faces !! i = Some (QWaits place want woken) ->
  length tokens' = length tokens -> (forall j, j <> i -> tokens' !! j = tokens !! j) -> queue_ok n q tokens' let_in (<[i := QWaits place want true]> faces).
Proof.
  intros Hq Hi Hl Ht'; pose proof Hq as [Hr Hh Ha Hp Hx Hli Hw Hws Hc Ht Hb Hfew]; split; rewrite ?(count_insert _ _ _ _ _ Hi), ?length_insert; cbn [q_reads q_holds Z.b2z]; try done; try lia.
  - intros w Hin; destruct (Hw w Hin) as (wk & Hf); destruct (decide (wt_thread w = i)) as [E|Hne]; [| exists wk; by rewrite list_lookup_insert_ne].
    exists true; rewrite E in *; rewrite list_lookup_insert_eq by (by eapply lookup_lt_Some); rewrite Hi in Hf; by injection Hf as -> -> ->.
  - intros j p w' wk Hj; destruct (decide (j = i)) as [->|Hne]; [rewrite list_lookup_insert_eq in Hj by (by eapply lookup_lt_Some); injection Hj as <- <- <-; by eapply Hws | rewrite list_lookup_insert_ne in Hj by done; by eapply Hws].
  - unfold front_called in *; destruct (q_waiting q) as [|front rest]; [done|]; intros Hm; destruct (Hw front ltac:(set_solver)) as (wk & Hf); destruct (decide (wt_thread front = i)) as [E|Hne].
    + left; rewrite E in *; rewrite list_lookup_insert_eq by (by eapply lookup_lt_Some); rewrite Hi in Hf; by injection Hf as -> -> ->.
    + rewrite list_lookup_insert_ne, Ht' by done; by apply Hc.
Qed.

(** A thread awake whose turn has not come parks again. *)
Lemma park_ok n q tokens let_in faces i place want : queue_ok n q tokens let_in faces -> faces !! i = Some (QWaits place want true) -> may_enter q place = false ->
  queue_ok n q tokens let_in (<[i := QWaits place want false]> faces).
Proof.
  intros Hq Hi Hm; pose proof Hq as [Hr Hh Ha Hp Hx Hli Hw Hws Hc Ht Hb Hfew]; split; rewrite ?(count_insert _ _ _ _ _ Hi), ?length_insert; cbn [q_reads q_holds Z.b2z]; try done; try lia.
  - intros w Hin; destruct (Hw w Hin) as (wk & Hf); destruct (decide (wt_thread w = i)) as [E|Hne]; [| exists wk; by rewrite list_lookup_insert_ne].
    exists false; rewrite E in *; rewrite list_lookup_insert_eq by (by eapply lookup_lt_Some); rewrite Hi in Hf; by injection Hf as -> -> _.
  - intros j p w' wk Hj; destruct (decide (j = i)) as [->|Hne]; [rewrite list_lookup_insert_eq in Hj by (by eapply lookup_lt_Some); injection Hj as <- <- <-; by eapply Hws | rewrite list_lookup_insert_ne in Hj by done; by eapply Hws].
  - unfold front_called in *; destruct (q_waiting q) as [|front rest] eqn:E; [done|]; intros Hm'; destruct (Hw front ltac:(set_solver)) as (wk & Hf); destruct (decide (wt_thread front = i)) as [Ei|Hne].
    + exfalso; rewrite Ei, Hi in Hf; injection Hf as Hf1 _ _; congruence.
    + rewrite list_lookup_insert_ne by done; by apply Hc.
Qed.

(** The front waiter is let in. *)
Lemma pass_in_ok n q tokens let_in faces i place want : queue_ok n q tokens let_in faces -> faces !! i = Some (QWaits place want true) -> may_enter q place = true -> n < U64 ->
  let '(q', tokens') := pass_in q want tokens in queue_ok n q' tokens' (let_in ++ [place]) (<[i := match want with Shared => QReads | Exclusive => QHolds end]> faces).
Proof.
  intros Hq Hi Hm Hn; destruct (enters_front _ _ _ _ _ _ _ _ _ Hq Hi Hm) as (rest & Ew & Ep & Epub & Hex); pose proof Hq as [Hr Hh Ha Hp Hx Hli Hw Hws Hc Ht Hb Hfew].
  unfold pass_in; rewrite Ew; cbn [tl]; rewrite Ew in Hp, Hx, Hw, Hws; rewrite len_cons in Hp, Hx; pose proof (len_nonneg rest); pose proof (len_nonneg let_in); pose proof (count_nonneg q_reads faces); rewrite seqZ_cons in Hp by lia; cbn [map] in Hp; injection Hp as _ Hp.
  assert (forall face w, match face with QWaits _ _ _ => False | _ => True end -> w ∈ rest -> exists woken, <[i := face]> faces !! wt_thread w = Some (QWaits (wt_place w) (wt_want w) woken)) as Hw'.
  { intros face w _ Hin; destruct (Hw w ltac:(set_solver)) as (wk & Hf); exists wk; rewrite list_lookup_insert_ne; [done|]; intros E; rewrite <- E, Hi in Hf; injection Hf as Hf _ _.
    apply (list_elem_of_fmap_2 wt_place) in Hin; change (wt_place <$> rest) with (map wt_place rest) in Hin; rewrite Hp in Hin; apply elem_of_seqZ in Hin; lia. }
  assert (forall face j p w wk, match face with QWaits _ _ _ => False | _ => True end -> <[i := face]> faces !! j = Some (QWaits p w wk) -> mkWaiter p w j ∈ rest) as Hws'.
  { intros face j p w wk Hface Hj; destruct (decide (j = i)) as [->|Hne]; [rewrite list_lookup_insert_eq in Hj by (by eapply lookup_lt_Some); by injection Hj as ->|].
    rewrite list_lookup_insert_ne in Hj by done; apply Hws in Hj; apply elem_of_cons in Hj as [[=]|]; [by subst j | done]. }
  assert (len (let_in ++ [place]) = len let_in + 1) as El by (rewrite len_app; done).
  assert (let_in ++ [place] = seqZ 0 (len let_in + 1)) as Es by (rewrite seqZ_app by lia; rewrite <- Hli; f_equal; rewrite Ep; done).
  assert (q_readers q < len let_in + 1) as Hfew' by lia.
  destruct want; (split; cbn [q_readers q_is_publishing q_waiting q_next_place]; rewrite ?El, ?wake_front_length, ?(count_insert _ _ _ _ _ Hi), ?length_insert; cbn [q_reads q_holds Z.b2z]; try done; try lia).
  - rewrite as_u64_small by (unfold is_u64; lia); lia.
  - by rewrite Epub.
  - rewrite Hp; f_equal; lia.
  - intros w Hin; by apply Hw'.
  - intros j p w wk; by apply Hws'.
  - apply wake_front_called; [by rewrite length_insert | intros w Hin; by apply Hw'].
  - rewrite as_u64_small by (unfold is_u64; lia); lia.
  - rewrite Hh, Epub; done.
  - intros _; by apply Hex.
  - rewrite Hp; f_equal; lia.
  - intros w Hin; by apply Hw'.
  - intros j p w wk; by apply Hws'.
  - unfold front_called, may_enter; cbn [q_waiting q_is_publishing q_readers]; destruct rest as [|front rest]; [done|]; rewrite Z.eqb_refl; by destruct (wt_want front).
Qed.

(** Giving the barrier up. *)
Lemma leave_ok n q tokens let_in faces i want : queue_ok n q tokens let_in faces -> faces !! i = Some (match want with Shared => QReads | Exclusive => QHolds end) -> n < U64 ->
  let q' := match want with Shared => mkQueue (as_u64 (q_readers q - 1)) (q_is_publishing q) (q_waiting q) (q_next_place q) | Exclusive => mkQueue (q_readers q) false (q_waiting q) (q_next_place q) end in
  queue_ok n q' (wake_front q' tokens) let_in (<[i := QOut]> faces).
Proof.
  intros Hq Hi Hn q'; pose proof Hq as [Hr Hh Ha Hp Hx Hli Hw Hws Hc Ht Hb Hfew]; pose proof (len_nonneg (q_waiting q)).
  assert (q_waiting q' = q_waiting q /\ q_next_place q' = q_next_place q) as [Ew En] by (by destruct want).
  assert (forall w, w ∈ q_waiting q -> exists woken, <[i := QOut]> faces !! wt_thread w = Some (QWaits (wt_place w) (wt_want w) woken)) as Hw'.
  { intros w Hin; destruct (Hw w Hin) as (wk & Hf); exists wk; rewrite list_lookup_insert_ne; [done|]; intros E; rewrite <- E, Hi in Hf; by destruct want. }
  assert (q_readers q' = count q_reads (<[i := QOut]> faces) /\ q_readers q' <= q_readers q) as [Er Hle].
  { subst q'; destruct want; cbn [q_readers]; rewrite (count_insert _ _ _ _ _ Hi); cbn [q_reads Z.b2z]; [| lia]; pose proof (count_pos q_reads faces i QReads Hi eq_refl); rewrite as_u64_small by (unfold is_u64; lia); lia. }
  split; rewrite ?Ew, ?En, ?wake_front_length, ?length_insert; try done; try lia.
  - subst q'; destruct want; cbn [q_is_publishing]; rewrite (count_insert _ _ _ _ _ Hi); cbn [q_holds Z.b2z]; [lia|]; rewrite Hh; pose proof (count_pos q_holds faces i QHolds Hi eq_refl); destruct (q_is_publishing q); cbn [Z.b2z] in *; lia.
  - subst q'; destruct want; cbn [q_is_publishing q_readers]; [| done]; intros Hpub; specialize (Ha Hpub); pose proof (count_pos q_reads faces i QReads Hi eq_refl); lia.
  - intros j p w wk Hj; destruct (decide (j = i)) as [->|Hne]; [rewrite list_lookup_insert_eq in Hj by (by eapply lookup_lt_Some); done | rewrite list_lookup_insert_ne in Hj by done; by eapply Hws].
  - apply wake_front_called; [by rewrite length_insert | rewrite Ew; exact Hw'].
Qed.

(** ** The groups *)

Inductive GPhase := Closed | Opened | Drains.
Inductive GFace := GOut | GLead (g : nat) (phase : GPhase) | GIn (g : nat) (follows : bool).

Definition group_face (c : Caller) : GFace :=
  match c with
  | Gathered g | Parking _ (Leads g) | Woken _ (Leads g) | Entered (Some g) | Counted g => GLead g Closed
  | Opening g | Leading g => GLead g Opened
  | Draining g | Dozing g => GLead g Drains
  | Joined g | Asleep g => GIn g false
  | Following g => GIn g true
  | _ => GOut
  end.

Definition in_group (g : nat) (f : GFace) : bool := match f with GIn g' _ => (g' =? g)%nat | _ => false end.

Definition phase_open (phase : GPhase) : bool := match phase with Closed => false | _ => true end.

Record group_ok (n : Z) (groups : list Group) (gathering : option nat) (leaders : list nat) (faces : list GFace) : Prop := {
  go_leaders : length leaders = length groups;
  go_members g group : groups !! g = Some group -> gr_members group = count (in_group g) faces;
  go_bound g group : groups !! g = Some group -> gr_members group <= n;
  go_lead i g phase : faces !! i = Some (GLead g phase) -> leaders !! g = Some i /\ (exists group, groups !! g = Some group /\ gr_open group = phase_open phase) /\ (gathering = Some g <-> phase <> Drains);
  go_led g group : groups !! g = Some group -> 0 < gr_members group \/ gathering = Some g -> exists i phase, faces !! i = Some (GLead g phase);
  go_in i g follows : faces !! i = Some (GIn g follows) -> exists group, groups !! g = Some group /\ (follows = true -> gr_open group = true);
  go_gathering g : gathering = Some g -> (g < length groups)%nat;
}.

Lemma group_later n n' groups gathering leaders faces : n <= n' -> group_ok n groups gathering leaders faces -> group_ok n' groups gathering leaders faces.
Proof. intros Hn []; split; try done; intros g group Hg; specialize (go_bound0 g group Hg); lia. Qed.

Lemma lookup_face {A} (l : list A) i x j y : l !! i = Some x -> <[i := y]> l !! j = if decide (j = i) then Some y else l !! j.
Proof. intros Hi; destruct (decide (j = i)) as [->|]; [apply list_lookup_insert_eq; by eapply lookup_lt_Some | by apply list_lookup_insert_ne]. Qed.

(** A batch that finds no group gathering starts one. *)
Lemma found_ok n groups leaders faces i : group_ok n groups None leaders faces -> faces !! i = Some GOut -> 0 <= n ->
  group_ok n (groups ++ [mkGroup false 0]) (Some (length groups)) (leaders ++ [i]) (<[i := GLead (length groups) Closed]> faces).
Proof.
  intros [Hl Hm Hb Hd Hled Hin Hg] Hi Hn; split.
  - rewrite !length_app, Hl; done.
  - intros g group Eg; rewrite (count_insert _ _ _ _ _ Hi); cbn [in_group Z.b2z]; apply lookup_app_Some in Eg as [Eg|[Hge Eg]]; [specialize (Hm g group Eg); lia|].
    apply list_lookup_singleton_Some in Eg as [E0 <-]; cbn [gr_members]; assert (g = length groups) as -> by lia; enough (count (in_group (length groups)) faces = 0) by lia.
    destruct (Z.lt_ge_cases 0 (count (in_group (length groups)) faces)) as [Hpos|]; [| pose proof (count_nonneg (in_group (length groups)) faces); lia].
    apply count_ex in Hpos as (j & f & Ej & Ef); destruct f as [| |g follows]; [done | done |]; cbn in Ef; apply Nat.eqb_eq in Ef as ->; destruct (Hin _ _ _ Ej) as (group & Eg & _); apply lookup_lt_Some in Eg; lia.
  - intros g group Eg; apply lookup_app_Some in Eg as [Eg|[_ Eg]]; [by eapply Hb|]; apply list_lookup_singleton_Some in Eg as [_ <-]; done.
  - intros j g phase; rewrite (lookup_face _ _ _ _ _ Hi); destruct (decide (j = i)) as [->|]; intros Ej.
    + injection Ej as <- <-; rewrite <- Hl at 1; rewrite !list_lookup_middle by done; split_and!; [done | eauto | done].
    + destruct (Hd _ _ _ Ej) as (E1 & (group & E2 & E3) & E4); split_and!; [by apply lookup_app_l_Some | exists group; split; [by apply lookup_app_l_Some | done] |].
      apply lookup_lt_Some in E2; split; [intros [= E]; lia | intros Hp; apply E4 in Hp; done].
  - intros g group Eg Hor; apply lookup_app_Some in Eg as [Eg|[Hge Eg]].
    + destruct Hor as [Hpos|[= E]]; [| apply lookup_lt_Some in Eg; lia]; destruct (Hled g group Eg (or_introl Hpos)) as (j & phase & Ej); exists j, phase; rewrite (lookup_face _ _ _ _ _ Hi); destruct (decide (j = i)) as [->|]; [congruence | done].
    + apply list_lookup_singleton_Some in Eg as [E0 _]; assert (g = length groups) as -> by lia; exists i, Closed; rewrite (lookup_face _ _ _ _ _ Hi); by rewrite decide_True.
  - intros j g follows; rewrite (lookup_face _ _ _ _ _ Hi); destruct (decide (j = i)) as [->|]; [done|]; intros Ej; destruct (Hin _ _ _ Ej) as (group & E & Ho); exists group; split; [by apply lookup_app_l_Some | done].
  - intros g [= <-]; rewrite length_app; cbn; lia.
Qed.

(** A group's flag, its count and the faces of its threads change together. *)
Lemma group_change n groups gathering leaders faces i f f' g group group' : group_ok n groups gathering leaders faces -> faces !! i = Some f -> groups !! g = Some group ->
  gr_members group' = gr_members group - Z.b2z (in_group g f) + Z.b2z (in_group g f') -> gr_members group' <= n ->
  (forall g', g' <> g -> in_group g' f = in_group g' f') ->
  (gr_open group = true -> gr_open group' = true) ->
  (forall g0 phase, f = GLead g0 phase -> exists phase', f' = GLead g0 phase' /\ g0 = g /\ (phase = Drains <-> phase' = Drains)) ->
  (forall g0 phase, f' = GLead g0 phase -> g0 = g /\ gr_open group' = phase_open phase /\ exists phase0, f = GLead g phase0) ->
  (gr_open group' = gr_open group \/ exists phase, f = GLead g phase) ->
  (forall g0 follows, f' = GIn g0 follows -> g0 = g /\ (follows = true -> gr_open group' = true)) -> (0 < gr_members group' -> 0 < gr_members group \/ gathering = Some g) ->
  group_ok n (<[g := group']> groups) gathering leaders (<[i := f']> faces).
Proof.
  intros [Hl Hm Hb Hd Hled Hin Hg] Hi Eg Hmem Hbn Hother Hopen Hlead Hlead' Hsame Hin' Hpos; split.
  - by rewrite length_insert.
  - intros g1 gr1; rewrite (count_insert _ _ _ _ _ Hi), (lookup_face _ _ _ _ _ Eg); destruct (decide (g1 = g)) as [->|Hne]; intros E1; [injection E1 as <-; rewrite Hmem, (Hm g group Eg); lia|].
    specialize (Hm g1 gr1 E1); rewrite (Hother g1 Hne); lia.
  - intros g1 gr1; rewrite (lookup_face _ _ _ _ _ Eg); destruct (decide (g1 = g)) as [->|Hne]; intros E1; [by injection E1 as <- | by eapply Hb].
  - intros j g1 phase; rewrite (lookup_face _ _ _ _ _ Hi); destruct (decide (j = i)) as [->|Hne]; intros Ej.
    + injection Ej as ->; destruct (Hlead' _ _ eq_refl) as (-> & Ho & phase0 & ->); destruct (Hd _ _ _ Hi) as (E1 & _ & E4); split_and!; [done | exists group'; split; [rewrite (lookup_face _ _ _ _ _ Eg); by rewrite decide_True | done]|].
      rewrite E4; destruct (Hlead _ _ eq_refl) as (phase' & [= <-] & _ & Hdr); by rewrite Hdr.
    + destruct (Hd _ _ _ Ej) as (E1 & (gr1 & E2 & E3) & E4); split_and!; [done | | done]; rewrite (lookup_face _ _ _ _ _ Eg); destruct (decide (g1 = g)) as [->|]; [| eauto].
      exists group'; split; [done|]; rewrite Eg in E2; injection E2 as <-; destruct Hsame as [->|(phase0 & ->)]; [done|]; destruct (Hd _ _ _ Hi) as (E1' & _); congruence.
  - intros g1 gr1; rewrite (lookup_face _ _ _ _ _ Eg); intros E1 Hor; assert (exists j phase, faces !! j = Some (GLead g1 phase)) as (j & phase & Ej).
    { destruct (decide (g1 = g)) as [->|]; [injection E1 as <-; apply (Hled g group Eg); tauto | by eapply Hled]. }
    destruct (decide (j = i)) as [->|Hne]; [| exists j, phase; by rewrite (lookup_face _ _ _ _ _ Hi), decide_False].
    rewrite Hi in Ej; injection Ej as ->; destruct (Hlead _ _ eq_refl) as (phase' & -> & _); exists i, phase'; by rewrite (lookup_face _ _ _ _ _ Hi), decide_True.
  - intros j g1 follows; rewrite (lookup_face _ _ _ _ _ Hi); destruct (decide (j = i)) as [->|Hne]; intros Ej.
    + injection Ej as ->; destruct (Hin' _ _ eq_refl) as (-> & Ho); exists group'; split; [by rewrite (lookup_face _ _ _ _ _ Eg), decide_True | done].
    + destruct (Hin _ _ _ Ej) as (gr1 & E2 & Ho); rewrite (lookup_face _ _ _ _ _ Eg); destruct (decide (g1 = g)) as [->|]; [| eauto]; exists group'; split; [done|]; rewrite Eg in E2; injection E2 as <-; auto.
  - intros g1 E1; rewrite length_insert; by apply Hg.
Qed.

(** The leader of the gathering group closes it to new batches. *)
Lemma close_ok n groups gathering leaders faces i g : group_ok n groups gathering leaders faces -> faces !! i = Some (GLead g Opened) -> group_ok n groups None leaders (<[i := GLead g Drains]> faces).
Proof.
  intros [Hl Hm Hb Hd Hled Hin Hg] Hi; destruct (Hd _ _ _ Hi) as (El & (group & Eg & Eo) & Egath); pose proof (proj2 Egath ltac:(done)) as ->; split; try done.
  - intros g1 gr1 E1; rewrite (count_insert _ _ _ _ _ Hi); cbn [in_group Z.b2z]; specialize (Hm g1 gr1 E1); lia.
  - intros j g1 phase; rewrite (lookup_face _ _ _ _ _ Hi); destruct (decide (j = i)) as [->|Hne]; intros Ej; [injection Ej as <- <-; split_and!; eauto; intuition done|].
    destruct (Hd _ _ _ Ej) as (E1 & E2 & E3); split_and!; [done | done |]; split; [done|]; intros [= ->]%E3; congruence.
  - intros g1 gr1 E1 [Hpos|]; [| done]; destruct (Hled g1 gr1 E1 (or_introl Hpos)) as (j & phase & Ej); destruct (decide (j = i)) as [->|Hne]; [| exists j, phase; by rewrite (lookup_face _ _ _ _ _ Hi), decide_False].
    rewrite Hi in Ej; injection Ej as <- <-; exists i, Drains; by rewrite (lookup_face _ _ _ _ _ Hi), decide_True.
  - intros j g1 follows; rewrite (lookup_face _ _ _ _ _ Hi); destruct (decide (j = i)) as [->|Hne]; [done | apply Hin].
Qed.

(** A leader whose group has drained goes on to leave. *)
Lemma drained_ok n groups gathering leaders faces i g group : group_ok n groups gathering leaders faces -> faces !! i = Some (GLead g Drains) -> groups !! g = Some group -> gr_members group = 0 ->
  group_ok n groups gathering leaders (<[i := GOut]> faces).
Proof.
  intros [Hl Hm Hb Hd Hled Hin Hg] Hi Eg E0; destruct (Hd _ _ _ Hi) as (El & _ & Egath); split; try done.
  - intros g1 gr1 E1; rewrite (count_insert _ _ _ _ _ Hi); cbn [in_group Z.b2z]; specialize (Hm g1 gr1 E1); lia.
  - intros j g1 phase; rewrite (lookup_face _ _ _ _ _ Hi); destruct (decide (j = i)) as [->|Hne]; [done | apply Hd].
  - intros g1 gr1 E1 Hor; destruct (Hled g1 gr1 E1 Hor) as (j & phase & Ej); destruct (decide (j = i)) as [->|Hne]; [| exists j, phase; by rewrite (lookup_face _ _ _ _ _ Hi), decide_False].
    rewrite Hi in Ej; injection Ej as <- <-; exfalso; rewrite Eg in E1; injection E1 as <-; destruct Hor as [|Hor]; [lia|]; by apply Egath in Hor.
  - intros j g1 follows; rewrite (lookup_face _ _ _ _ _ Hi); destruct (decide (j = i)) as [->|Hne]; [done | apply Hin].
Qed.

(** ** What reads see *)

Inductive VFace := VOut | VStarted | VReads (seen : list Z) | VLoaded (started : Z) | VFills (quiet : Z) (seen : list Z).

Definition view_face (c : Caller) : VFace :=
  match c with
  | Counted _ | Opening _ | Leading _ | Draining _ | Dozing _ | Moving | Moved => VStarted
  | Reading seen => VReads seen
  | Loaded _ started => VLoaded started
  | Filling _ quiet seen => VFills quiet seen
  | _ => VOut
  end.

Definition v_started (f : VFace) : bool := match f with VStarted => true | _ => false end.
Definition v_reads (f : VFace) : bool := match f with VReads _ => true | _ => false end.

Definition sees (index : Z) (seen : list Z) : Prop := Forall (fun v => v = index) seen.

(** What a thread has seen or loaded is true of the index and the counts as they stand. *)
Definition view_holds (p : Publishes) (index : Z) (f : VFace) : Prop :=
  match f with
  | VReads seen => sees index seen
  | VLoaded started => started <= pb_started p
  | VFills quiet seen => quiet <= pb_started p /\ (pb_started p = quiet -> pb_finished p = quiet /\ sees index seen)
  | _ => True
  end.

Definition whole_read (whole : list Z) (seen : list Z) : Prop := exists v, v ∈ whole /\ sees v seen.

Record view_ok (n : Z) (p : Publishes) (index : Z) (whole : list Z) (served : list (list Z)) (faces : list VFace) : Prop := {
  vo_started : pb_started p = pb_finished p + count v_started faces;
  vo_finished : 0 <= pb_finished p;
  vo_bound : pb_started p <= n;
  vo_whole : count v_started faces = 0 -> index ∈ whole;
  vo_holds i f : faces !! i = Some f -> view_holds p index f;
  vo_served : Forall (whole_read whole) served;
}.

Lemma view_later n n' p index whole served faces : n <= n' -> view_ok n p index whole served faces -> view_ok n' p index whole served faces.
Proof. intros Hn []; split; try done; lia. Qed.

(** A thread that has not started a batch turns to another that has not. *)
Lemma view_step n p index whole served faces i f f' : view_ok n p index whole served faces -> faces !! i = Some f -> v_started f = v_started f' -> view_holds p index f' -> view_ok n p index whole served (<[i := f']> faces).
Proof.
  intros [Hs Hf Hb Hw Hh Hsv] Hi Ef Hv; assert (count v_started (<[i := f']> faces) = count v_started faces) as Ec by (rewrite (count_insert _ _ _ _ _ Hi), Ef; lia); split; rewrite ?Ec; try done.
  intros j f0; rewrite (lookup_face _ _ _ _ _ Hi); destruct (decide (j = i)); [by intros [= <-] | apply Hh].
Qed.

Lemma view_serve n p index whole served faces i f seen : view_ok n p index whole served faces -> faces !! i = Some f -> v_started f = false -> whole_read whole seen -> view_ok n p index whole (served ++ [seen]) (<[i := VOut]> faces).
Proof.
  intros Hv Hi Ef Hr; pose proof (view_step _ _ _ _ _ _ _ _ VOut Hv Hi Ef I) as [Hs Hf Hb Hw Hh Hsv]; split; try done; apply Forall_app; split; [done | by apply Forall_singleton].
Qed.

Lemma view_start n p index whole served faces i : view_ok n p index whole served faces -> faces !! i = Some VOut -> n + 1 < U64 ->
  view_ok (n + 1) (mkPublishes (as_u64 (pb_started p + 1)) (pb_finished p)) index whole served (<[i := VStarted]> faces).
Proof.
  intros [Hs Hf Hb Hw Hh Hsv] Hi Hn; pose proof (count_nonneg v_started faces); rewrite as_u64_small by (unfold is_u64; lia).
  assert (count v_started (<[i := VStarted]> faces) = count v_started faces + 1) as Ec by (rewrite (count_insert _ _ _ _ _ Hi); cbn; lia); split; cbn [pb_started pb_finished]; rewrite ?Ec; try done; try lia.
  intros j f; rewrite (lookup_face _ _ _ _ _ Hi); destruct (decide (j = i)); [by intros [= <-] |]; intros Hj; specialize (Hh j f Hj); destruct f; cbn [view_holds pb_started pb_finished] in *; try done; [lia|]; split; [lia|]; intros; lia.
Qed.

Lemma view_finish n p index whole served faces i : view_ok n p index whole served faces -> faces !! i = Some VStarted -> n < U64 ->
  view_ok n (mkPublishes (pb_started p) (as_u64 (pb_finished p + 1))) index (index :: whole) served (<[i := VOut]> faces).
Proof.
  intros [Hs Hf Hb Hw Hh Hsv] Hi Hn; pose proof (count_pos v_started faces i VStarted Hi eq_refl); rewrite as_u64_small by (unfold is_u64; lia).
  assert (count v_started (<[i := VOut]> faces) = count v_started faces - 1) as Ec by (rewrite (count_insert _ _ _ _ _ Hi); cbn; lia); split; cbn [pb_started pb_finished]; rewrite ?Ec; try done; try lia.
  - intros _; set_solver.
  - intros j f; rewrite (lookup_face _ _ _ _ _ Hi); destruct (decide (j = i)); [by intros [= <-] |]; intros Hj; specialize (Hh j f Hj); destruct f; cbn [view_holds pb_started pb_finished] in *; try done.
    destruct Hh as [Hle Hh]; split; [done|]; intros E; specialize (Hh E); lia.
  - eapply Forall_impl; [exact Hsv|]; intros seen (v & Hin & Hv); exists v; split; [set_solver | done].
Qed.

(** An index move, while a batch has started and no read is inside. *)
Lemma view_move n p index whole served faces : view_ok n p index whole served faces -> 0 < count v_started faces -> count v_reads faces = 0 -> view_ok n p (index + 1) whole served faces.
Proof.
  intros [Hs Hf Hb Hw Hh Hsv] Hpos Hno; split; try done; [lia|]; intros j f Hj; specialize (Hh j f Hj); destruct f; cbn [view_holds] in *; try done.
  - exfalso; pose proof (count_pos v_reads faces j _ Hj eq_refl); lia.
  - destruct Hh as [Hle Hh]; split; [done|]; intros E; specialize (Hh E); lia.
Qed.

(** ** The invariant of the barrier *)

Record barrier_ok (n : Z) b : Prop := {
  bo_queue : queue_ok n (b_queue b) (b_tokens b) (b_let_in b) (map queue_face (b_callers b));
  bo_group : group_ok n (b_groups b) (b_gathering b) (b_leaders b) (map group_face (b_callers b));
  bo_view : view_ok n (b_publishes b) (b_index b) (b_whole b) (b_served b) (map view_face (b_callers b));
}.

Lemma queue_later n n' q tokens let_in faces : n <= n' -> queue_ok n q tokens let_in faces -> queue_ok n' q tokens let_in faces.
Proof. intros Hn []; split; try done; lia. Qed.

Lemma barrier_later n n' b : n <= n' -> barrier_ok n b -> barrier_ok n' b.
Proof. intros Hn []; split; [by eapply queue_later | by eapply group_later | by eapply view_later]. Qed.

Section faces.
Context {F : Type} (face : Caller -> F).

Lemma face_insert (l : list Caller) i c : map face (<[i := c]> l) = <[i := face c]> (map face l).
Proof. apply (list_fmap_insert face). Qed.

Lemma face_at (l : list Caller) i c : l !! i = Some c -> map face l !! i = Some (face c).
Proof. intros Hi; change (map face l) with (face <$> l); by rewrite list_lookup_fmap, Hi. Qed.

Lemma face_same (l : list Caller) i c c' : l !! i = Some c -> face c' = face c -> map face (<[i := c']> l) = map face l.
Proof. intros Hi E; rewrite face_insert, E; by apply list_insert_id, face_at. Qed.
End faces.

(** A thread's turn that touches nothing else. *)
Lemma caller_ok n b i c c' : barrier_ok n b -> b_callers b !! i = Some c -> queue_face c' = queue_face c -> group_face c' = group_face c -> v_started (view_face c) = v_started (view_face c') ->
  view_holds (b_publishes b) (b_index b) (view_face c') -> barrier_ok n (set_caller b i c').
Proof.
  intros [Hq Hg Hv] Hi E1 E2 E3 H4; split; cbn [set_caller b_queue b_tokens b_let_in b_callers b_groups b_gathering b_leaders b_publishes b_index b_whole b_served]; rewrite ?(face_same queue_face _ _ _ _ Hi E1), ?(face_same group_face _ _ _ _ Hi E2); try done.
  rewrite face_insert; by eapply view_step; [done | by apply face_at | |].
Qed.

Definition role_face (role : Role) : GFace := match role with Leads g => GLead g Closed | _ => GOut end.

Lemma enter_round_ok n b i c place role : b_callers b !! i = Some c -> queue_ok n (b_queue b) (b_tokens b) (b_let_in b) (<[i := QWaits place (want_of role) true]> (map queue_face (b_callers b))) ->
  group_ok n (b_groups b) (b_gathering b) (b_leaders b) (map group_face (b_callers b)) -> view_ok n (b_publishes b) (b_index b) (b_whole b) (b_served b) (map view_face (b_callers b)) ->
  group_face c = role_face role -> view_face c = VOut -> n < U64 -> barrier_ok n (enter_round b i place role).
Proof.
  intros Hi Hq Hg Hv Egf Evf Hn; assert (forall f, <[i := f]> (map queue_face (b_callers b)) !! i = Some f) as Hat by (intros f; apply list_lookup_insert_eq; rewrite length_map; by eapply lookup_lt_Some).
  assert (forall c', group_face c' = role_face role -> v_started (view_face c') = false -> view_holds (b_publishes b) (b_index b) (view_face c') ->
    group_ok n (b_groups b) (b_gathering b) (b_leaders b) (map group_face (<[i := c']> (b_callers b))) /\ view_ok n (b_publishes b) (b_index b) (b_whole b) (b_served b) (map view_face (<[i := c']> (b_callers b)))) as Hrest.
  { intros c' E1 E2 E3; split; [rewrite (face_same group_face _ _ _ _ Hi) by congruence; done | rewrite face_insert; eapply view_step; [done | by apply face_at | by rewrite Evf, E2 | done]]. }
  unfold enter_round; destruct (may_enter (b_queue b) place) eqn:Em.
  - pose proof (pass_in_ok n _ _ _ _ i place (want_of role) Hq (Hat _) Em Hn) as Hp; destruct (pass_in _ _ _) as [q tokens]; destruct (Hrest (inside role)) as [Hg' Hv']; [by destruct role | by destruct role | by destruct role; constructor |].
    split; cbn [set_caller set_queue b_queue b_tokens b_let_in b_callers b_groups b_gathering b_leaders b_publishes b_index b_whole b_served]; [| done | done].
    rewrite list_insert_insert_eq in Hp; rewrite face_insert; by destruct role.
  - pose proof (park_ok n _ _ _ _ i place (want_of role) Hq (Hat _) Em) as Hp; destruct (Hrest (Parking place role)) as [Hg' Hv']; [by destruct role | done | done |].
    split; cbn [set_caller b_queue b_tokens b_let_in b_callers b_groups b_gathering b_leaders b_publishes b_index b_whole b_served]; [| done | done].
    rewrite list_insert_insert_eq in Hp; by rewrite face_insert.
Qed.

Lemma enter_ok n b i c role : barrier_ok n b -> b_callers b !! i = Some c -> queue_face c = QOut -> group_face c = role_face role -> view_face c = VOut -> n + 1 < U64 -> barrier_ok (n + 1) (enter b i role).
Proof.
  intros [Hq Hg Hv] Hi E1 E2 E3 Hn; unfold enter; eapply enter_round_ok; cbn [set_queue b_queue b_tokens b_let_in b_callers b_groups b_gathering b_leaders b_publishes b_index b_whole b_served]; [exact Hi | | | | done | done | lia].
  - apply push_ok; [done | by rewrite (face_at queue_face _ _ _ Hi), E1 | done].
  - by eapply group_later; [| exact Hg]; lia.
  - by eapply view_later; [| exact Hv]; lia.
Qed.

Lemma gather_ok n b i b' : barrier_ok n b -> b_callers b !! i = Some Away -> gather b i = Some b' -> 0 <= n -> n + 1 < U64 -> barrier_ok (n + 1) b'.
Proof.
  intros [Hq Hg Hv] Hi E H0 Hn; pose proof (queue_later n (n + 1) _ _ _ _ ltac:(lia) Hq) as Hq'; pose proof (group_later n (n + 1) _ _ _ _ ltac:(lia) Hg) as Hg'; pose proof (view_later n (n + 1) _ _ _ _ _ ltac:(lia) Hv) as Hv'.
  unfold gather in E; destruct (b_gathering b) as [g|] eqn:Eg; [destruct (b_groups b !! g) as [group|] eqn:Egr; [| done]; cbn in E |]; injection E as <-;
    (split; cbn [set_caller set_groups b_queue b_tokens b_let_in b_callers b_groups b_gathering b_leaders b_publishes b_index b_whole b_served];
     [by rewrite (face_same queue_face _ _ _ _ Hi) | rewrite face_insert | by rewrite (face_same view_face _ _ _ _ Hi)]).
  - pose proof (go_bound _ _ _ _ _ Hg g group Egr) as Hb; pose proof (go_members _ _ _ _ _ Hg g group Egr) as Hm; pose proof (count_nonneg (in_group g) (map group_face (b_callers b))); rewrite as_u64_small by (unfold is_u64; lia).
    eapply group_change; [exact Hg' | by apply face_at | exact Egr | | | | | | | | | ]; cbn [gr_members gr_open group_face in_group Z.b2z]; try done.
    + rewrite Nat.eqb_refl; cbn [Z.b2z]; lia.
    + lia.
    + intros g' Hne; symmetry; by apply Nat.eqb_neq.
    + by left.
    + by intros g0 follows [= <- <-].
    + intros _; by right.
  - apply found_ok; [done | by rewrite (face_at group_face _ _ _ Hi) | lia].
Qed.

(** Batches and reads keep apart: while one has started no read is inside. *)
Lemma started_apart n b : barrier_ok n b -> 0 < count v_started (map view_face (b_callers b)) -> q_is_publishing (b_queue b) = true /\ count v_reads (map view_face (b_callers b)) = 0.
Proof.
  intros [Hq _ _] Hpos; pose proof (qo_holds _ _ _ _ _ Hq) as Hh; pose proof (qo_apart _ _ _ _ _ Hq) as Ha; rewrite (qo_readers _ _ _ _ _ Hq) in Ha; rewrite !count_map in *.
  pose proof (count_le (fun c => v_started (view_face c)) (fun c => q_holds (queue_face c)) (b_callers b)) as Hle; specialize (Hle ltac:(by intros [])).
  pose proof (count_le (fun c => v_reads (view_face c)) (fun c => q_reads (queue_face c)) (b_callers b)) as Hle'; specialize (Hle' ltac:(by intros [])); pose proof (count_nonneg (fun c => v_reads (view_face c)) (b_callers b)).
  destruct (q_is_publishing (b_queue b)); cbn [Z.b2z] in *; [specialize (Ha eq_refl); lia | lia].
Qed.

Lemma read_whole n b i seen : barrier_ok n b -> b_callers b !! i = Some (Reading seen) -> whole_read (b_whole b) seen.
Proof.
  intros Hb Hi; pose proof (bo_view _ _ Hb) as Hv; exists (b_index b); split; [| apply (vo_holds _ _ _ _ _ _ Hv i (VReads seen)), (face_at view_face _ _ _ Hi)]; apply (vo_whole _ _ _ _ _ _ Hv).
  destruct (Z.lt_ge_cases 0 (count v_started (map view_face (b_callers b)))) as [Hpos|]; [| pose proof (count_nonneg v_started (map view_face (b_callers b))); lia].
  destruct (started_apart n b Hb Hpos) as [_ E]; pose proof (count_pos v_reads _ i _ (face_at view_face _ _ _ Hi) eq_refl); lia.
Qed.

Lemma fill_whole n b i tries quiet seen : barrier_ok n b -> b_callers b !! i = Some (Filling tries quiet seen) -> pb_started (b_publishes b) = quiet -> whole_read (b_whole b) seen.
Proof.
  intros Hb Hi E; pose proof (bo_view _ _ Hb) as Hv; destruct (vo_holds _ _ _ _ _ _ Hv i (VFills quiet seen) (face_at view_face _ _ _ Hi)) as [_ H]; destruct (H E) as [Ef Hs].
  exists (b_index b); split; [| done]; apply (vo_whole _ _ _ _ _ _ Hv); pose proof (vo_started _ _ _ _ _ _ Hv); lia.
Qed.

Lemma follower_led n b i g : barrier_ok n b -> b_callers b !! i = Some (Following g) -> 0 < count v_started (map view_face (b_callers b)).
Proof.
  intros [_ Hg _] Hi; destruct (go_in _ _ _ _ _ Hg i g true (face_at group_face _ _ _ Hi)) as (group & Eg & Ho); specialize (Ho eq_refl).
  assert (0 < gr_members group) as Hm by (rewrite (go_members _ _ _ _ _ Hg g group Eg); pose proof (count_pos (in_group g) _ i _ (face_at group_face _ _ _ Hi)) as Hp; cbn [group_face in_group] in Hp; rewrite Nat.eqb_refl in Hp; specialize (Hp eq_refl); lia).
  destruct (go_led _ _ _ _ _ Hg g group Eg (or_introl Hm)) as (j & phase & Ej); destruct (go_lead _ _ _ _ _ Hg j g phase Ej) as (_ & (group' & Eg' & Eo) & _); rewrite Eg in Eg'; injection Eg' as <-; rewrite Ho in Eo.
  change (map group_face (b_callers b)) with (group_face <$> b_callers b) in Ej; rewrite list_lookup_fmap in Ej; destruct (b_callers b !! j) as [c|] eqn:Ec; [| done]; injection Ej as Ej.
  pose proof (count_pos v_started _ j _ (face_at view_face _ _ _ Ec)) as Hp; enough (v_started (view_face c) = true) by (specialize (Hp H); lia).
  destruct c as [| | | | | | | |? role|? role| |lead| | | | | | | | |]; try destruct role; try destruct lead; cbn [group_face] in Ej; try done; injection Ej as _ <-; done.
Qed.

Lemma serve_ok n b seen : barrier_ok n b -> whole_read (b_whole b) seen -> barrier_ok n (serve b seen).
Proof. intros [Hq Hg [Hs Hf Hb Hw Hh Hsv]] Hr; split; [done | done |]; split; try done; apply Forall_app; split; [done | by apply Forall_singleton]. Qed.

(** A batch's start and finish are counted. *)
Lemma count_started_ok n b i c c' : barrier_ok n b -> b_callers b !! i = Some c -> queue_face c' = queue_face c -> group_face c' = group_face c -> view_face c = VOut -> view_face c' = VStarted -> n + 1 < U64 ->
  barrier_ok (n + 1) (set_caller (count_started b) i c').
Proof.
  intros [Hq Hg Hv] Hi E1 E2 E3 E4 Hn; split; cbn [set_caller count_started set_publishes b_queue b_tokens b_let_in b_callers b_groups b_gathering b_leaders b_publishes b_index b_whole b_served];
    rewrite ?(face_same queue_face _ _ _ _ Hi E1), ?(face_same group_face _ _ _ _ Hi E2); [by eapply queue_later; [| exact Hq]; lia | by eapply group_later; [| exact Hg]; lia |].
  rewrite face_insert, E4; apply view_start; [done | by rewrite (face_at view_face _ _ _ Hi), E3 | done].
Qed.

Lemma count_finished_ok n b i c : barrier_ok n b -> b_callers b !! i = Some c -> queue_face c = QHolds -> group_face c = GOut -> view_face c = VStarted -> n < U64 -> barrier_ok n (set_caller (count_finished b) i Leaving).
Proof.
  intros [Hq Hg Hv] Hi E1 E2 E3 Hn; split; cbn [set_caller count_finished set_publishes set_index b_queue b_tokens b_let_in b_callers b_groups b_gathering b_leaders b_publishes b_index b_whole b_served];
    [by rewrite (face_same queue_face _ _ _ _ Hi) | by rewrite (face_same group_face _ _ _ _ Hi) |]; rewrite face_insert; apply view_finish; [done | by rewrite (face_at view_face _ _ _ Hi), E3 | done].
Qed.

Lemma leave_barrier_ok n b i c want : barrier_ok n b -> b_callers b !! i = Some c -> queue_face c = match want with Shared => QReads | Exclusive => QHolds end -> group_face c = GOut -> v_started (view_face c) = false -> n < U64 ->
  barrier_ok n (set_caller (leave b want) i Away).
Proof.
  intros [Hq Hg Hv] Hi E1 E2 E3 Hn; split; cbn [set_caller leave set_queue b_queue b_tokens b_let_in b_callers b_groups b_gathering b_leaders b_publishes b_index b_whole b_served].
  - rewrite face_insert; apply (leave_ok n _ _ _ _ i want); [done | by rewrite (face_at queue_face _ _ _ Hi), E1 | done].
  - by rewrite (face_same group_face _ _ _ _ Hi).
  - rewrite face_insert; by eapply view_step; [done | by apply face_at | rewrite E3 |].
Qed.

Lemma set_group_ok n b i c c' g group group' : barrier_ok n b -> b_callers b !! i = Some c -> queue_face c' = queue_face c -> v_started (view_face c) = v_started (view_face c') -> view_holds (b_publishes b) (b_index b) (view_face c') ->
  group_ok n (<[g := group']> (b_groups b)) (b_gathering b) (b_leaders b) (<[i := group_face c']> (map group_face (b_callers b))) -> b_groups b !! g = Some group -> barrier_ok n (set_caller (set_group b g group') i c').
Proof.
  intros [Hq Hg Hv] Hi E1 E2 H3 Hg' Egr; split; cbn [set_caller set_group set_groups b_queue b_tokens b_let_in b_callers b_groups b_gathering b_leaders b_publishes b_index b_whole b_served]; rewrite ?(face_same queue_face _ _ _ _ Hi E1); [done | by rewrite face_insert |].
  rewrite face_insert; by eapply view_step; [done | by apply face_at | |].
Qed.

Lemma turns_open_ok n b i g group : barrier_ok n b -> b_callers b !! i = Some (Counted g) -> b_groups b !! g = Some group -> barrier_ok n (set_caller (set_group b g (mkGroup true (gr_members group))) i (Opening g)).
Proof.
  intros Hb Hi Eg; pose proof (bo_group _ _ Hb) as Hg; pose proof (go_bound _ _ _ _ _ Hg g group Eg); eapply set_group_ok; [done | exact Hi | done | done | done | | exact Eg].
  eapply group_change; [exact Hg | exact (face_at group_face _ _ _ Hi) | exact Eg | | | | | | | | |]; cbn [gr_members gr_open group_face in_group Z.b2z]; try done; try lia.
  - intros g0 phase [= <- <-]; by exists Opened.
  - intros g0 phase [= <- <-]; split_and!; eauto.
  - eauto.
Qed.

Lemma quit_ok n b i g group : barrier_ok n b -> b_callers b !! i = Some (Following g) -> b_groups b !! g = Some group -> n < U64 -> barrier_ok n (set_caller (set_group b g (mkGroup (gr_open group) (as_u64 (gr_members group - 1)))) i Away).
Proof.
  intros Hb Hi Eg Hn; pose proof (bo_group _ _ Hb) as Hg; pose proof (go_bound _ _ _ _ _ Hg g group Eg); pose proof (go_members _ _ _ _ _ Hg g group Eg) as Hm.
  pose proof (count_pos (in_group g) _ i _ (face_at group_face _ _ _ Hi)) as Hp; cbn [group_face in_group] in Hp; rewrite Nat.eqb_refl in Hp; specialize (Hp eq_refl); rewrite as_u64_small by (unfold is_u64; lia).
  eapply set_group_ok; [done | exact Hi | done | done | done | | exact Eg]; eapply group_change; [exact Hg | exact (face_at group_face _ _ _ Hi) | exact Eg | | | | | | | | |]; cbn [gr_members gr_open group_face in_group Z.b2z]; try done; try lia.
  - rewrite Nat.eqb_refl; cbn [Z.b2z]; lia.
  - intros g' Hne; by apply Nat.eqb_neq.
  - by left.
Qed.

Lemma follow_ok n b i g group : barrier_ok n b -> b_callers b !! i = Some (Joined g) -> b_groups b !! g = Some group -> gr_open group = true -> barrier_ok n (set_caller b i (Following g)).
Proof.
  intros Hb Hi Eg Ho; pose proof Hb as [Hq Hg Hv]; pose proof (go_bound _ _ _ _ _ Hg g group Eg).
  split; cbn [set_caller b_queue b_tokens b_let_in b_callers b_groups b_gathering b_leaders b_publishes b_index b_whole b_served]; [by rewrite (face_same queue_face _ _ _ _ Hi) | | by rewrite (face_same view_face _ _ _ _ Hi)].
  rewrite face_insert, <- (list_insert_id (b_groups b) g group Eg); eapply group_change; [exact Hg | exact (face_at group_face _ _ _ Hi) | exact Eg | | | | | | | | |]; cbn [group_face in_group]; try done; try lia.
  - by left.
  - by intros g0 follows [= <- <-].
Qed.

Lemma close_barrier_ok n b i g : barrier_ok n b -> b_callers b !! i = Some (Leading g) -> barrier_ok n (set_caller (set_groups b (b_groups b) None (b_leaders b)) i (Draining g)).
Proof.
  intros [Hq Hg Hv] Hi; split; cbn [set_caller set_groups b_queue b_tokens b_let_in b_callers b_groups b_gathering b_leaders b_publishes b_index b_whole b_served]; [by rewrite (face_same queue_face _ _ _ _ Hi) | | by rewrite (face_same view_face _ _ _ _ Hi)].
  rewrite face_insert; eapply close_ok; [exact Hg | exact (face_at group_face _ _ _ Hi)].
Qed.

Lemma drained_barrier_ok n b i g group : barrier_ok n b -> b_callers b !! i = Some (Draining g) -> b_groups b !! g = Some group -> gr_members group = 0 -> barrier_ok n (set_caller b i Moved).
Proof.
  intros [Hq Hg Hv] Hi Eg E0; split; cbn [set_caller b_queue b_tokens b_let_in b_callers b_groups b_gathering b_leaders b_publishes b_index b_whole b_served]; [by rewrite (face_same queue_face _ _ _ _ Hi) | | by rewrite (face_same view_face _ _ _ _ Hi)].
  rewrite face_insert; eapply drained_ok; [exact Hg | exact (face_at group_face _ _ _ Hi) | exact Eg | done].
Qed.

Lemma awake_barrier_ok n b i place role tokens : barrier_ok n b -> b_callers b !! i = Some (Parking place role) -> length tokens = length (b_tokens b) -> (forall j, j <> i -> tokens !! j = b_tokens b !! j) ->
  barrier_ok n (set_caller (set_queue b (b_queue b) tokens (b_let_in b)) i (Woken place role)).
Proof.
  intros [Hq Hg Hv] Hi Hl Ht; split; cbn [set_caller set_queue b_queue b_tokens b_let_in b_callers b_groups b_gathering b_leaders b_publishes b_index b_whole b_served];
    [| by rewrite (face_same group_face _ _ _ _ Hi) by (by destruct role) | by rewrite (face_same view_face _ _ _ _ Hi)]; rewrite face_insert; by eapply awake_ok; [exact Hq | exact (face_at queue_face _ _ _ Hi) | |].
Qed.

(** A notice changes who is awake and nothing else. *)
Lemma noticed_faces {F} (face : Caller -> F) g l : (forall g', face (Joined g') = face (Asleep g')) -> (forall g', face (Draining g') = face (Dozing g')) -> map face (map (noticed g) l) = map face l.
Proof. intros H1 H2; rewrite map_map; apply map_ext; intros c; destruct c; cbn [noticed]; try done; by destruct (_ =? _)%nat; auto. Qed.

Lemma notify_all_ok n b g : barrier_ok n b -> barrier_ok n (notify_all b g).
Proof. intros [Hq Hg Hv]; split; cbn [notify_all set_callers b_queue b_tokens b_let_in b_callers b_groups b_gathering b_leaders b_publishes b_index b_whole b_served]; by rewrite noticed_faces. Qed.

Lemma notify_set_caller b g i : notify_all (set_caller b i Away) g = set_caller (notify_all b g) i Away.
Proof. unfold notify_all, set_callers, set_caller; cbn; f_equal; apply (list_fmap_insert (noticed g)). Qed.

Lemma go_ok n b i c b' : barrier_ok n b -> b_callers b !! i = Some c -> go b i c = Some b' -> 0 <= n -> n + 1 < U64 -> barrier_ok (n + 1) b'.
Proof.
  intros Hb Hi E H0 Hn; pose proof (barrier_later n (n + 1) b ltac:(lia) Hb) as Hb'; destruct c as [|[|tries]|tries started|tries quiet seen| |g|g|g|place role|place role|seen|[g|]|g|g|g| | | |g|g|g]; cbn [go] in E;
    try (destruct (b_groups b !! g) as [group|] eqn:Eg; [cbn in E | done]).
  - done.
  - injection E as <-; by eapply caller_ok.
  - injection E as <-; eapply caller_ok; [done | exact Hi | done | done | done |]; cbn; lia.
  - injection E as <-; pose proof (vo_holds _ _ _ _ _ _ (bo_view _ _ Hb) i _ (face_at view_face _ _ _ Hi)) as Hv; destruct (Z.eqb_spec started (pb_finished (b_publishes b))); (eapply caller_ok; [done | exact Hi | done | done | done | try done]).
    cbn [view_face view_holds] in *; split; [done|]; intros Es; split; [lia | constructor].
  - destruct (Z.eqb_spec (pb_started (b_publishes b)) quiet) as [Eq|]; injection E as <-; [| by eapply caller_ok].
    pose proof (serve_ok _ _ seen Hb' (fill_whole _ _ _ _ _ _ Hb' Hi Eq)) as Hs; by eapply (caller_ok _ (serve b seen)).
  - injection E as <-; by eapply enter_ok.
  - injection E as <-; by eapply enter_ok.
  - injection E as <-; destruct (gr_open group) eqn:Eo; [by eapply follow_ok | by eapply caller_ok].
  - injection E as <-; pose proof (quit_ok _ b i g group Hb' Hi Eg ltac:(lia)) as Hq; destruct (_ =? 0); [| done]; by apply (notify_all_ok _ _ g) in Hq; rewrite notify_set_caller in Hq.
  - destruct (default false _) eqn:Et; [injection E as <- | done]; apply awake_barrier_ok; [done | done | by rewrite length_insert | intros j Hj; by rewrite list_lookup_insert_ne].
  - injection E as <-; pose proof Hb' as [Hq Hg Hv]; eapply enter_round_ok; [exact Hi | | done | done | by destruct role | done | lia].
    rewrite list_insert_id; [done | exact (face_at queue_face _ _ _ Hi)].
  - injection E as <-; eapply (leave_barrier_ok _ (serve b seen) i (Reading seen) Shared); [apply serve_ok; [done | by eapply read_whole] | done | done | done | done | lia].
  - injection E as <-; by eapply count_started_ok.
  - injection E as <-; by eapply count_started_ok.
  - injection E as <-; by eapply turns_open_ok.
  - injection E as <-; by eapply close_barrier_ok.
  - injection E as <-; destruct (Z.eqb_spec (gr_members group) 0); [by eapply drained_barrier_ok | by eapply caller_ok].
  - injection E as <-; by eapply count_finished_ok; [done | exact Hi | | | |].
  - injection E as <-; by eapply count_finished_ok; [done | exact Hi | | | |].
  - injection E as <-; by eapply (leave_barrier_ok _ b i Leaving Exclusive); [done | exact Hi | | | |].
  - injection E as <-; pose proof (notify_all_ok _ _ g Hb') as Hq; eapply caller_ok; [exact Hq | cbn [notify_all set_callers b_callers]; by rewrite list_lookup_fmap, Hi | done..].
  - done.
  - done.
Qed.

Lemma move_ok n b : barrier_ok n b -> 0 < count v_started (map view_face (b_callers b)) -> barrier_ok n (set_index b (b_index b + 1) (b_whole b) (b_served b)).
Proof. intros Hb Hpos; destruct (started_apart n b Hb Hpos) as [_ Hno]; destruct Hb as [Hq Hg Hv]; split; [done | done | by apply view_move]. Qed.

Lemma turn_ok n b i t b' : barrier_ok n b -> turn i t b = Some b' -> 0 <= n -> n + 1 < U64 -> barrier_ok (n + 1) b'.
Proof.
  intros Hb E H0 Hn; unfold turn in E; destruct (b_callers b !! i) as [c|] eqn:Hi; [cbn in E | done]; pose proof (barrier_later n (n + 1) b ltac:(lia) Hb) as Hb'; destruct t as [call| | |]; cbn in E.
  - destruct c; try done; destruct call; cbn in E; [injection E as <-; by eapply enter_ok | injection E as <-; by eapply enter_ok | by eapply gather_ok | injection E as <-; by eapply caller_ok].
  - destruct c as [| |tries started|tries quiet seen| |g|g|g|place role|place role|seen|lead|g|g|g| | | | | |]; cbn in E; try done; injection E as <-.
    + pose proof (vo_holds _ _ _ _ _ _ (bo_view _ _ Hb) i _ (face_at view_face _ _ _ Hi)) as [Hle Hv]; eapply caller_ok; [done | exact Hi | done | done | done |]; split; [done|]; intros Es; specialize (Hv Es) as [? ?]; split; [done | by constructor].
    + apply move_ok; [done | by eapply follower_led].
    + pose proof (vo_holds _ _ _ _ _ _ (bo_view _ _ Hb) i _ (face_at view_face _ _ _ Hi)) as Hv; eapply caller_ok; [done | exact Hi | done | done | done |]; by constructor.
    + apply move_ok; [done|]; pose proof (count_pos v_started _ i _ (face_at view_face _ _ _ Hi) eq_refl); lia.
    + apply move_ok; [done|]; pose proof (count_pos v_started _ i _ (face_at view_face _ _ _ Hi) eq_refl); lia.
  - by eapply go_ok.
  - destruct c as [| | | | | | | |place role| | | | | | | | | | |g|g]; try done; injection E as <-; [by apply (awake_barrier_ok (n + 1) b i place role (b_tokens b)) | by eapply caller_ok | by eapply caller_ok].
Qed.

Lemma start_ok threads : barrier_ok 0 (PublishBarrier_new threads).
Proof.
  unfold PublishBarrier_new; assert (forall {F} (face : Caller -> F) (f : F -> bool), f (face Away) = false -> count f (map face (replicate threads Away)) = 0) as Hc.
  { intros F face f Hf; rewrite count_map; unfold count; induction threads; [done|]; cbn [replicate List.filter]; by rewrite Hf. }
  assert (forall {F} (face : Caller -> F) i x, map face (replicate threads Away) !! i = Some x -> x = face Away) as Hl.
  { intros F face i x; change (map face (replicate threads Away)) with (face <$> replicate threads Away); rewrite list_lookup_fmap; destruct (replicate threads Away !! i) as [c|] eqn:E; [| done]; apply lookup_replicate in E as [-> _]; by intros [= <-]. }
  split; split; cbn [b_queue b_tokens b_let_in b_callers b_groups b_gathering b_leaders b_publishes b_index b_whole b_served Queue_default q_readers q_is_publishing q_waiting q_next_place pb_started pb_finished]; rewrite ?Hc by done; try done.
  - by intros w ?%elem_of_nil.
  - by intros i place want woken ?%Hl.
  - by rewrite length_map, !length_replicate.
  - by intros i g phase ?%Hl.
  - by intros i g follows ?%Hl.
  - set_solver.
  - by intros i f ->%Hl.
Qed.

Lemma barrier_reached_ok threads n b : barrier_reached threads n b -> Z.of_nat n < U64 -> barrier_ok (Z.of_nat n) b.
Proof.
  induction 1 as [|n b i t b' _ IH E]; intros Hn; [apply start_ok|]; rewrite Nat2Z.inj_succ in *; apply (turn_ok (Z.of_nat n) b i t); [apply IH | done | |]; lia.
Qed.

(** ** Nobody sleeps past its wake *)

(** A batch sleeps only while its group is not open or the leader is about to notice the group, and a
    leader sleeps only while batches of its group are still to move. *)
Record sleep_ok (groups : list Group) (callers : list Caller) : Prop := {
  so_asleep i g : callers !! i = Some (Asleep g) -> (exists group, groups !! g = Some group /\ gr_open group = false) \/ exists k, callers !! k = Some (Opening g);
  so_dozing i g : callers !! i = Some (Dozing g) -> exists group, groups !! g = Some group /\ gr_members group <> 0;
}.

Definition is_opening (c : Caller) : bool := match c with Opening _ => true | _ => false end.
Definition sleeps (c : Caller) : bool := match c with Asleep _ | Dozing _ => true | _ => false end.

(** A turn of a thread that leaves the groups as they are and goes on awake. *)
Lemma sleep_frame groups callers i c c' : sleep_ok groups callers -> callers !! i = Some c -> is_opening c = false -> sleeps c' = false -> sleep_ok groups (<[i := c']> callers).
Proof.
  intros [Ha Hd] Hi Ho Hs; split; intros j g; rewrite (lookup_face _ _ _ _ _ Hi); destruct (decide (j = i)) as [->|Hne]; [intros [= ->]; done | | intros [= ->]; done | apply Hd].
  intros Hj; destruct (Ha j g Hj) as [?|(k & Hk)]; [by left|]; right; exists k; rewrite (lookup_face _ _ _ _ _ Hi), decide_False; [done|]; intros ->; rewrite Hi in Hk; by injection Hk as ->.
Qed.

(** A change of one group that neither opens it nor takes its last member, beside a thread's turn. *)
Lemma sleep_group groups callers g group group' : sleep_ok groups callers -> groups !! g = Some group -> (gr_open group = false -> gr_open group' = false) -> (gr_members group <> 0 -> gr_members group' <> 0) ->
  sleep_ok (<[g := group']> groups) callers.
Proof.
  intros [Ha Hd] Eg Ho Hm; split; intros j g1 Hj.
  - destruct (Ha j g1 Hj) as [(gr & E & E')|]; [left | by right]; rewrite (lookup_face _ _ _ _ _ Eg); destruct (decide (g1 = g)) as [->|]; [| eauto]; rewrite Eg in E; injection E as <-; eauto.
  - destruct (Hd j g1 Hj) as (gr & E & E'); rewrite (lookup_face _ _ _ _ _ Eg); destruct (decide (g1 = g)) as [->|]; [| eauto]; rewrite Eg in E; injection E as <-; eauto.
Qed.

(** After a notice nobody sleeps on the group, so whatever has become of it wakes nobody late. *)
Lemma noticed_awake g callers i : map (noticed g) callers !! i <> Some (Asleep g) /\ map (noticed g) callers !! i <> Some (Dozing g).
Proof.
  change (map (noticed g) callers) with (noticed g <$> callers); rewrite list_lookup_fmap; destruct (callers !! i) as [c|]; [| done]; cbn [fmap option_fmap option_map].
  destruct c as [| | | | | | | | | | | | | | | | | | |g'|g']; cbn [noticed]; try done; destruct (Nat.eqb_spec g' g); split; congruence.
Qed.

Lemma noticed_other g callers i c : map (noticed g) callers !! i = Some c -> sleeps c = true \/ is_opening c = true -> callers !! i = Some c.
Proof.
  change (map (noticed g) callers) with (noticed g <$> callers); rewrite list_lookup_fmap; destruct (callers !! i) as [c0|]; [| done]; cbn [fmap option_fmap option_map]; intros [= <-].
  destruct c0 as [| | | | | | | | | | | | | | | | | | |g'|g']; cbn [noticed]; try done; destruct (Nat.eqb_spec g' g); cbn; intros []; done.
Qed.

Lemma opening_noticed g callers k g' : callers !! k = Some (Opening g') -> map (noticed g) callers !! k = Some (Opening g').
Proof. intros Hk; change (map (noticed g) callers) with (noticed g <$> callers); by rewrite list_lookup_fmap, Hk. Qed.

Lemma sleep_notified groups groups' callers g : sleep_ok groups callers -> (forall g', g' <> g -> groups' !! g' = groups !! g') -> sleep_ok groups' (map (noticed g) callers).
Proof.
  intros [Ha Hd] Hg; split; intros j g1 Hj; destruct (noticed_awake g callers j) as [N1 N2]; (destruct (decide (g1 = g)) as [->|Hne]; [done|]).
  - destruct (Ha j g1 (noticed_other _ _ _ _ Hj (or_introl eq_refl))) as [?|(k & Hk)]; [left; by rewrite Hg | right; exists k; by apply opening_noticed].
  - rewrite Hg by done; by apply (Hd j), (noticed_other _ _ _ _ Hj (or_introl eq_refl)).
Qed.

(** The leader's notice to its own group stands in for its being about to notice it. *)
Lemma sleep_opened groups callers i g : sleep_ok groups callers -> callers !! i = Some (Opening g) -> sleep_ok groups (<[i := Leading g]> (map (noticed g) callers)).
Proof.
  intros Hs Hi; pose proof (sleep_notified groups groups callers g Hs ltac:(done)) as [Ha Hd]; pose proof (opening_noticed g _ _ _ Hi) as Hi'.
  split; intros j g1; rewrite (lookup_face _ _ _ _ _ Hi'); destruct (decide (j = i)) as [->|]; try done; [| apply Hd]; intros Hj; destruct (noticed_awake g callers j) as [N _].
  destruct (Ha j g1 Hj) as [?|(k & Hk)]; [by left|]; right; exists k; rewrite (lookup_face _ _ _ _ _ Hi'), decide_False; [done|]; intros ->; rewrite Hi' in Hk; congruence.
Qed.

(** A thread goes to sleep on a group, or the leader opens its own. *)
Lemma sleep_falls groups callers i c c' : sleep_ok groups callers -> callers !! i = Some c -> is_opening c = false ->
  match c' with Asleep g => exists group, groups !! g = Some group /\ gr_open group = false | Dozing g => exists group, groups !! g = Some group /\ gr_members group <> 0 | _ => True end -> sleep_ok groups (<[i := c']> callers).
Proof.
  intros Hs Hi Ho Hc; destruct (sleeps c') eqn:Es; [| by eapply sleep_frame]; destruct Hs as [Ha Hd]; split; intros j g; rewrite (lookup_face _ _ _ _ _ Hi); destruct (decide (j = i)) as [->|Hne]; [intros [= ->]; by left | | intros [= ->]; done | apply Hd].
  intros Hj; destruct (Ha j g Hj) as [?|(k & Hk)]; [by left|]; right; exists k; rewrite (lookup_face _ _ _ _ _ Hi), decide_False; [done|]; intros ->; rewrite Hi in Hk; by injection Hk as ->.
Qed.

Lemma sleep_opens groups callers i g group group' : sleep_ok groups callers -> callers !! i = Some (Counted g) -> groups !! g = Some group -> gr_members group' = gr_members group ->
  sleep_ok (<[g := group']> groups) (<[i := Opening g]> callers).
Proof.
  intros [Ha Hd] Hi Eg Em; split; intros j g1; rewrite (lookup_face _ _ _ _ _ Hi), (lookup_face _ _ _ _ _ Eg); destruct (decide (j = i)) as [->|]; try done; intros Hj; (destruct (decide (g1 = g)) as [->|Hne]).
  - right; exists i; by rewrite (lookup_face _ _ _ _ _ Hi), decide_True.
  - destruct (Ha j g1 Hj) as [?|(k & Hk)]; [by left|]; right; exists k; rewrite (lookup_face _ _ _ _ _ Hi), decide_False; [done|]; intros ->; by rewrite Hi in Hk.
  - destruct (Hd j g Hj) as (gr & E & E'); rewrite Eg in E; injection E as <-; exists group'; by rewrite Em.
  - by apply (Hd j).
Qed.

Lemma enter_round_callers b i place role : exists c', sleeps c' = false /\ b_callers (enter_round b i place role) = <[i := c']> (b_callers b) /\ b_groups (enter_round b i place role) = b_groups b.
Proof. unfold enter_round; destruct (may_enter _ _); [destruct (pass_in _ _ _); exists (inside role); by destruct role | by exists (Parking place role)]. Qed.

Lemma sleep_enter b i c role : sleep_ok (b_groups b) (b_callers b) -> b_callers b !! i = Some c -> is_opening c = false -> sleep_ok (b_groups (enter b i role)) (b_callers (enter b i role)).
Proof.
  intros Hs Hi Ho; unfold enter; match goal with |- context [enter_round ?b0 ?i ?p ?r] => destruct (enter_round_callers b0 i p r) as (c' & Ec & -> & ->) end; by eapply sleep_frame.
Qed.

Lemma gather_sleep n b i b' : barrier_ok n b -> sleep_ok (b_groups b) (b_callers b) -> b_callers b !! i = Some Away -> gather b i = Some b' -> n + 1 < U64 -> sleep_ok (b_groups b') (b_callers b').
Proof.
  intros Hb Hs Hi E Hn; unfold gather in E; destruct (b_gathering b) as [g|] eqn:Eg; [destruct (b_groups b !! g) as [group|] eqn:Egr; [| done]; cbn in E |]; injection E as <-; cbn [set_caller set_groups b_groups b_callers].
  - pose proof (go_bound _ _ _ _ _ (bo_group _ _ Hb) g group Egr); pose proof (go_members _ _ _ _ _ (bo_group _ _ Hb) g group Egr); pose proof (count_nonneg (in_group g) (map group_face (b_callers b))).
    eapply sleep_frame; [eapply sleep_group; [exact Hs | exact Egr | done |] | exact Hi | done | done]; cbn [gr_members]; rewrite as_u64_small by (unfold is_u64; lia); lia.
  - eapply sleep_frame; [| exact Hi | done | done]; destruct Hs as [Ha Hd]; split; intros j g Hj.
    + destruct (Ha j g Hj) as [(group & E & Eo)|]; [left | by right]; exists group; split; [by apply lookup_app_l_Some | done].
    + destruct (Hd j g Hj) as (group & E & Eo); exists group; split; [by apply lookup_app_l_Some | done].
Qed.

Lemma go_sleep b i c b' : sleep_ok (b_groups b) (b_callers b) -> b_callers b !! i = Some c -> go b i c = Some b' -> sleep_ok (b_groups b') (b_callers b').
Proof.
  intros Hs Hi E; destruct c as [|[|tries]|tries started|tries quiet seen| |g|g|g|place role|place role|seen|[g|]|g|g|g| | | |g|g|g]; cbn [go] in E;
    try (destruct (b_groups b !! g) as [group|] eqn:Eg; [cbn in E | done]); try done;
    try (injection E as <-; cbn [set_caller set_queue set_groups set_index set_publishes count_started count_finished leave serve b_groups b_callers]; by eapply sleep_frame; [exact Hs | exact Hi | ..]).
  - injection E as <-; eapply sleep_frame; [exact Hs | exact Hi | done | by destruct (_ =? _)].
  - destruct (_ =? _); injection E as <-; by eapply sleep_frame; [exact Hs | exact Hi | ..].
  - injection E as <-; by eapply sleep_enter.
  - injection E as <-; by eapply sleep_enter.
  - injection E as <-; eapply sleep_falls; [exact Hs | exact Hi | done|]; destruct (gr_open group) eqn:Eo; eauto.
  - injection E as <-; cbn zeta; destruct (Z.eqb_spec (as_u64 (gr_members group - 1)) 0) as [E0|Hne]; cbn [set_caller notify_all set_callers set_group set_groups b_groups b_callers].
    + eapply sleep_frame; [eapply sleep_notified; [exact Hs | intros g' Hne; by rewrite list_lookup_insert_ne] | | | done]; [change (map (noticed g) (b_callers b)) with (noticed g <$> b_callers b); by rewrite list_lookup_fmap, Hi | done].
    + eapply sleep_frame; [by eapply sleep_group | exact Hi | done | done].
  - destruct (default false _); [injection E as <- | done]; by eapply sleep_frame; [exact Hs | exact Hi | ..].
  - injection E as <-; destruct (enter_round_callers b i place role) as (c' & Ec & -> & ->); by eapply sleep_frame.
  - injection E as <-; by eapply sleep_opens.
  - injection E as <-; eapply sleep_falls; [exact Hs | exact Hi | done|]; destruct (Z.eqb_spec (gr_members group) 0); eauto.
  - injection E as <-; by apply sleep_opened.
Qed.

Lemma turn_sleep n b i t b' : barrier_ok n b -> sleep_ok (b_groups b) (b_callers b) -> turn i t b = Some b' -> n + 1 < U64 -> sleep_ok (b_groups b') (b_callers b').
Proof.
  intros Hb Hs E Hn; unfold turn in E; destruct (b_callers b !! i) as [c|] eqn:Hi; [cbn in E | done]; destruct t as [call| | |]; cbn in E.
  - destruct c; try done; destruct call; cbn in E; [injection E as <-; by eapply sleep_enter | injection E as <-; by eapply sleep_enter | by eapply gather_sleep | injection E as <-; by eapply sleep_frame; [exact Hs | exact Hi | ..]].
  - destruct c as [| |tries started|tries quiet seen| |g|g|g|place role|place role|seen|lead|g|g|g| | | | | |]; cbn in E; try done; injection E as <-; cbn [set_index set_caller b_groups b_callers]; try done; by eapply sleep_frame; [exact Hs | exact Hi | ..].
  - by eapply go_sleep.
  - destruct c as [| | | | | | | |place role| | | | | | | | | | |g|g]; try done; injection E as <-; by eapply sleep_frame; [exact Hs | exact Hi | ..].
Qed.

Lemma barrier_reached_sleep threads n b : barrier_reached threads n b -> Z.of_nat n < U64 -> sleep_ok (b_groups b) (b_callers b).
Proof.
  induction 1 as [|n b i t b' Hr IH E]; intros Hn.
  - split; intros i g Hi; cbn [PublishBarrier_new b_callers] in Hi; by apply lookup_replicate in Hi as [? _].
  - rewrite Nat2Z.inj_succ in Hn; eapply (turn_sleep (Z.of_nat n) b i t); [apply (barrier_reached_ok threads); [done | lia] | apply IH; lia | done | lia].
Qed.

(** ** What the barrier promises *)

Definition moves (c : Caller) : bool := match c with Moving | Leading _ | Following _ => true | _ => false end.

(** C23: Over every interleaving of its turns, a read the barrier serves, inside it or by an
    optimistic fill, saw one index throughout, and one at which every batch that had started was
    whole; and while a batch moves the index, alone or in a group, no read is inside. *)
Theorem served_reads_are_whole threads n b : barrier_reached threads n b -> Z.of_nat n < U64 ->
  (forall seen, seen ∈ b_served b -> exists v, v ∈ b_whole b /\ forall look, look ∈ seen -> look = v)
  /\ (forall i c j seen, b_callers b !! i = Some c -> moves c = true -> b_callers b !! j <> Some (Reading seen)).
Proof.
  intros Hr Hn; pose proof (barrier_reached_ok _ _ _ Hr Hn) as Hb; split.
  - intros seen Hs; pose proof (vo_served _ _ _ _ _ _ (bo_view _ _ Hb)) as Hv; rewrite Forall_forall in Hv; destruct (Hv seen Hs) as (v & Hin & Hall); exists v; split; [done|]; by rewrite <- Forall_forall.
  - intros i c j seen Hi Hm Hj; assert (0 < count v_started (map view_face (b_callers b))) as Hpos.
    { destruct c; try done; [by eapply follower_led | |]; pose proof (count_pos v_started _ i _ (face_at view_face _ _ _ Hi) eq_refl); lia. }
    destruct (started_apart _ b Hb Hpos) as [_ E]; pose proof (count_pos v_reads _ j _ (face_at view_face _ _ _ Hj) eq_refl); lia.
Qed.

(** C25: Reads and batches are let in strictly in the order they took their places, none twice and
    none passed over, and everyone in the queue stands behind all who were let in. *)
Theorem let_in_by_arrival threads n b : barrier_reached threads n b -> Z.of_nat n < U64 ->
  b_let_in b = seqZ 0 (len (b_let_in b)) /\ map wt_place (q_waiting (b_queue b)) = seqZ (len (b_let_in b)) (len (q_waiting (b_queue b)))
  /\ (forall i place role, b_callers b !! i = Some (Parking place role) \/ b_callers b !! i = Some (Woken place role) -> mkWaiter place (want_of role) i ∈ q_waiting (b_queue b)).
Proof.
  intros Hr Hn; pose proof (barrier_reached_ok _ _ _ Hr Hn) as Hb; pose proof (bo_queue _ _ Hb) as Hq; split_and!; [apply Hq | apply Hq |].
  intros i place role [Hi|Hi]; apply (face_at queue_face) in Hi; by apply (qo_waits _ _ _ _ _ Hq) in Hi.
Qed.

Section progress.
Variables (n : Z) (b : PublishBarrier).
Hypothesis Hb : barrier_ok n b.
Hypothesis Hs : sleep_ok (b_groups b) (b_callers b).

Definition someone_goes : Prop := exists i b', turn i Go b = Some b'.

Lemma goes i c b' : b_callers b !! i = Some c -> go b i c = Some b' -> someone_goes.
Proof. intros Hi E; exists i, b'; unfold turn; rewrite Hi; by destruct c. Qed.

Lemma face_inv {F} (face : Caller -> F) i f : map face (b_callers b) !! i = Some f -> exists c, b_callers b !! i = Some c /\ face c = f.
Proof. change (map face (b_callers b)) with (face <$> b_callers b); rewrite list_lookup_fmap; destruct (b_callers b !! i) as [c|]; [| done]; intros [= E]; eauto. Qed.

Lemma group_of i c g : b_callers b !! i = Some c -> match group_face c with GLead g' _ | GIn g' _ => g' = g | GOut => False end -> exists group, b_groups b !! g = Some group.
Proof.
  intros Hi Hf; pose proof (face_at group_face _ _ _ Hi) as Hg; destruct (group_face c) as [|g' phase|g' follows]; [done | |]; subst g'.
  - destruct (go_lead _ _ _ _ _ (bo_group _ _ Hb) i g phase Hg) as (_ & (group & E & _) & _); eauto.
  - destruct (go_in _ _ _ _ _ (bo_group _ _ Hb) i g follows Hg) as (group & E & _); eauto.
Qed.

(** Only a thread parked without a token or asleep on its group has no turn of its own. *)
Lemma free_goes i c : b_callers b !! i = Some c -> match c with Away | Asleep _ | Dozing _ | Parking _ _ => False | _ => True end -> someone_goes.
Proof.
  intros Hi Hc; destruct c as [|[|tries]|tries started|tries quiet seen| |g|g|g|place role|place role|seen|[g|]|g|g|g| | | |g|g|g]; try done; try (eapply goes; [exact Hi | done]).
  - destruct (pb_started (b_publishes b) =? quiet) eqn:E; (eapply goes; [exact Hi|]); cbn [go]; by rewrite E.
  - destruct (group_of i _ g Hi eq_refl) as [group E]; eapply goes; [exact Hi|]; cbn [go]; by rewrite E.
  - destruct (group_of i _ g Hi eq_refl) as [group E]; eapply goes; [exact Hi|]; cbn [go]; by rewrite E.
  - destruct (group_of i _ g Hi eq_refl) as [group E]; eapply goes; [exact Hi|]; cbn [go]; by rewrite E.
  - destruct (group_of i _ g Hi eq_refl) as [group E]; eapply goes; [exact Hi|]; cbn [go]; by rewrite E.
Qed.

Lemma doze_goes i g : b_callers b !! i = Some (Dozing g) -> someone_goes.
Proof.
  intros Hi; destruct (so_dozing _ _ Hs i g Hi) as (group & Eg & Hne).
  pose proof (go_members _ _ _ _ _ (bo_group _ _ Hb) g group Eg) as Hm; pose proof (count_nonneg (in_group g) (map group_face (b_callers b))); destruct (count_ex (in_group g) (map group_face (b_callers b))) as (j & f & Ej & Ef); [lia|].
  destruct f as [| |g' follows]; [done | done |]; cbn in Ef; apply Nat.eqb_eq in Ef as ->; destruct (face_inv group_face j _ Ej) as (c & Hj & Ec).
  destruct c as [| | | | | | | |? role|? role| |lead| | | | | | | |g'|]; try destruct role; try destruct lead; cbn [group_face] in Ec; try done; try (by eapply free_goes); injection Ec as ->.
  destruct (so_asleep _ _ Hs j g Hj) as [(group' & Eg' & Eo)|(k & Hk)]; [| by eapply free_goes].
  destruct (go_lead _ _ _ _ _ (bo_group _ _ Hb) i g Drains (face_at group_face _ _ _ Hi)) as (_ & (group2 & Eg2 & Eo2) & _); rewrite Eg' in Eg2; injection Eg2 as <-; by rewrite Eo in Eo2.
Qed.

Lemma queue_goes : q_waiting (b_queue b) <> [] -> someone_goes.
Proof.
  intros Hne; pose proof (bo_queue _ _ Hb) as Hq; pose proof (qo_called _ _ _ _ _ Hq) as Hc; unfold front_called in Hc; destruct (q_waiting (b_queue b)) as [|front rest] eqn:Ew; [done|].
  destruct (qo_waiter _ _ _ _ _ Hq front ltac:(rewrite Ew; set_solver)) as (woken & Ef); destruct (face_inv queue_face _ _ Ef) as (c & Hi & Efc); destruct (may_enter (b_queue b) (wt_place front)) eqn:Em.
  - destruct (Hc eq_refl) as [Hwk|Ht].
    + rewrite Ef in Hwk; injection Hwk as ->; apply (free_goes _ c Hi); by destruct c.
    + destruct c; try done; [eapply goes; [exact Hi|]; cbn [go]; by rewrite Ht | by eapply free_goes].
  - unfold may_enter in Em; rewrite Ew, Z.eqb_refl in Em; destruct (q_is_publishing (b_queue b)) eqn:Ep.
    + pose proof (qo_holds _ _ _ _ _ Hq) as Hh; rewrite Ep in Hh; cbn [Z.b2z] in Hh; destruct (count_ex q_holds (map queue_face (b_callers b))) as (j & f & Ej & Ej'); [lia|].
      destruct (face_inv queue_face j _ Ej) as (c' & Hj & <-); destruct c' as [| | | | | | | | | | | | | |g| | | | | |]; try done; try (by eapply free_goes); by eapply doze_goes.
    + cbn [negb andb] in Em; destruct (wt_want front); [done|]; apply Z.eqb_neq in Em; rewrite (qo_readers _ _ _ _ _ Hq) in Em; pose proof (count_nonneg q_reads (map queue_face (b_callers b))).
      destruct (count_ex q_reads (map queue_face (b_callers b))) as (j & f & Ej & Ej'); [lia|]; destruct (face_inv queue_face j _ Ej) as (c' & Hj & <-); destruct c'; try done; by eapply free_goes.
Qed.

Lemma parked_goes i place role : b_callers b !! i = Some (Parking place role) -> someone_goes.
Proof.
  intros Hi; apply queue_goes; intros Ew; pose proof (qo_waits _ _ _ _ _ (bo_queue _ _ Hb) i _ _ _ (face_at queue_face _ _ _ Hi)) as Hin; rewrite Ew in Hin; by apply elem_of_nil in Hin.
Qed.

Lemma asleep_goes i g : b_callers b !! i = Some (Asleep g) -> someone_goes.
Proof.
  intros Hi; destruct (so_asleep _ _ Hs i g Hi) as [(group & Eg & Eo)|(k & Hk)]; [| by eapply free_goes].
  pose proof (go_members _ _ _ _ _ (bo_group _ _ Hb) g group Eg) as Hm; pose proof (count_pos (in_group g) _ i _ (face_at group_face _ _ _ Hi)) as Hp; cbn [group_face in_group] in Hp; rewrite Nat.eqb_refl in Hp; specialize (Hp eq_refl).
  destruct (go_led _ _ _ _ _ (bo_group _ _ Hb) g group Eg) as (j & phase & Ej); [left; lia|]; destruct (face_inv group_face j _ Ej) as (c & Hj & Ec).
  destruct (go_lead _ _ _ _ _ (bo_group _ _ Hb) j g phase Ej) as (_ & (group' & Eg' & Eo') & _); rewrite Eg in Eg'; injection Eg' as <-; rewrite Eo in Eo'.
  destruct c as [| | | | | | | |place role|place role| |lead| | | | | | | | |]; try done; try (by eapply free_goes); [by eapply parked_goes | by injection Ec as _ <-].
Qed.

(** A parked thread whose turn has come has been left a token. *)
Lemma parked_called i place role : b_callers b !! i = Some (Parking place role) -> may_enter (b_queue b) place = true -> b_tokens b !! i = Some true.
Proof.
  intros Hi Hm; pose proof (face_at queue_face _ _ _ Hi) as Hf; destruct (enters_front _ _ _ _ _ _ _ _ _ (bo_queue _ _ Hb) Hf Hm) as (rest & Ew & _).
  pose proof (qo_called _ _ _ _ _ (bo_queue _ _ Hb)) as Hc; unfold front_called in Hc; rewrite Ew in Hc; destruct (Hc Hm) as [E|]; [| done]; cbn [wt_thread] in E; rewrite Hf in E; done.
Qed.
End progress.

(** C24: The barrier never deadlocks: while any thread is inside one of its calls, some thread has a
    turn to take that no arrival and no spurious wake is needed for. And it loses no wake: a parked
    thread whose turn has come has its token, a batch sleeps on its group only while the group is
    not open or its leader is about to notice it, and a leader only while batches of its group are
    still to move. *)
Theorem barrier_never_stuck threads n b : barrier_reached threads n b -> Z.of_nat n < U64 ->
  (forall i c, b_callers b !! i = Some c -> c <> Away -> exists j b', turn j Go b = Some b')
  /\ (forall i place role, b_callers b !! i = Some (Parking place role) -> may_enter (b_queue b) place = true -> b_tokens b !! i = Some true)
  /\ (forall i g, b_callers b !! i = Some (Asleep g) -> (exists group, b_groups b !! g = Some group /\ gr_open group = false) \/ exists k, b_callers b !! k = Some (Opening g))
  /\ (forall i g, b_callers b !! i = Some (Dozing g) -> exists group, b_groups b !! g = Some group /\ gr_members group <> 0).
Proof.
  intros Hr Hn; pose proof (barrier_reached_ok _ _ _ Hr Hn) as Hb; pose proof (barrier_reached_sleep _ _ _ Hr Hn) as Hs; split_and!; [| by eapply parked_called | apply Hs | apply Hs].
  intros i c Hi Hc; destruct c as [| | | | | | | |place role| | | | | | | | | | |g|g]; try done; try (by eapply free_goes); [by eapply parked_goes | by eapply asleep_goes | by eapply doze_goes].
Qed.

(** ** At a concrete run *)

Fixpoint run (turns : list (nat * Turn)) b : option PublishBarrier :=
  match turns with [] => Some b | (i, t) :: turns => b ← turn i t b; run turns b end.

Lemma run_reached threads turns : forall n b b', barrier_reached threads n b -> run turns b = Some b' -> barrier_reached threads (n + length turns) b'.
Proof.
  induction turns as [|[i t] turns IH]; intros n b b' Hb E; cbn [run length] in *; [injection E as <-; by rewrite Nat.add_0_r|].
  destruct (turn i t b) as [b1|] eqn:E1; [cbn in E | done]; rewrite Nat.add_succ_r; apply (IH (S n) b1); [by eapply reached_turn | done].
Qed.

(** A batch leads, another joins it and sleeps until the leader has opened the group, a read queues
    behind them, the leader sleeps until the other batch has moved, and a fourth thread's fill is
    undone by the batch and served inside the barrier. *)
Definition demo_sleeping : list (nat * Turn) :=
  [(0, Arrive CallPublishGrouped); (3, Arrive CallReadingAll); (3, Go); (3, Go); (3, Work); (0, Go); (0, Go); (1, Arrive CallPublishGrouped); (1, Go); (2, Arrive CallReading);
   (0, Go); (0, Go); (1, Go); (0, Work); (1, Work); (0, Go); (0, Go)]%nat.
Definition demo_turns : list (nat * Turn) :=
  demo_sleeping ++ [(1, Work); (3, Work); (3, Go); (1, Go); (0, Go); (0, Go); (0, Go); (2, Go); (2, Go); (2, Work); (3, Go); (3, Go); (3, Work); (2, Work); (2, Go)]%nat.

Definition demo_barrier : PublishBarrier := default (PublishBarrier_new 4) (run demo_turns (PublishBarrier_new 4)).

Definition demo_dozing : PublishBarrier := default (PublishBarrier_new 4) (run demo_sleeping (PublishBarrier_new 4)).

Lemma demo_dozing_reached : barrier_reached 4 17 demo_dozing.
Proof. apply (run_reached 4 demo_sleeping 0 (PublishBarrier_new 4)); [apply reached_start | vm_compute; reflexivity]. Qed.

Lemma demo_barrier_reached : barrier_reached 4 32 demo_barrier.
Proof. apply (run_reached 4 demo_turns 0 (PublishBarrier_new 4)); [apply reached_start | vm_compute; reflexivity]. Qed.

Lemma served_reads_are_whole_witness : b_served demo_barrier = [[3; 3]] /\ exists v, v ∈ b_whole demo_barrier /\ forall look, look ∈ [3; 3] -> look = v.
Proof.
  assert (b_served demo_barrier = [[3; 3]]) as E by (vm_compute; reflexivity); split; [exact E|].
  destruct (served_reads_are_whole 4 32 demo_barrier demo_barrier_reached ltac:(vm_compute; reflexivity)) as [H _]; apply H; rewrite E; by constructor.
Defined.

Lemma let_in_by_arrival_witness : b_let_in demo_barrier = [0; 1; 2].
Proof. rewrite (proj1 (let_in_by_arrival 4 32 demo_barrier demo_barrier_reached ltac:(vm_compute; reflexivity))); vm_compute; reflexivity. Defined.

Lemma barrier_never_stuck_witness : b_callers demo_dozing !! 0%nat = Some (Dozing 0) /\ (exists j b', turn j Go demo_dozing = Some b')
  /\ (exists group, b_groups demo_dozing !! 0%nat = Some group /\ gr_members group <> 0).
Proof.
  assert (b_callers demo_dozing !! 0%nat = Some (Dozing 0)) as E by (vm_compute; reflexivity).
  destruct (barrier_never_stuck 4 17 demo_dozing demo_dozing_reached ltac:(vm_compute; reflexivity)) as (Hg & _ & _ & Hd).
  split_and!; [exact E | apply (Hg 0%nat (Dozing 0) E); discriminate | exact (Hd 0%nat 0%nat E)].
Defined.
