(* ===== verification/KeyRun.v ===== *)
(** * Key runs ([index/keyrun.rs])

    A key run lists, per column and in key order, where each key's newest footer row lies: which of
    the segments the run covers, and the row's place in that segment's partition. The rows go down
    first, then each column's fences (the first key of every block of rows, and the last key), the
    directory, the covered segments and the trailer. A reader finds a block by its fences and reads
    the keys themselves through the footers. *)
From S2P Require Import Prelude Error Bytes Lsn Column Record FooterRow.

Definition ROW_LEN : Z := 4 + 4.
Definition RUN_BLOCK_ROWS : Z := 8.
Definition WRITE_BYTES : Z := Z.shiftl 1 20.
Definition RUN_DIRECTORY_ROW : Z := 1 + 4 + 8 + 8 + 8.
Definition RUN_TRAILER : Z := 8 + 4 + 4 + 4.
Definition RUN_MAGIC : Z := le_val (map byte_of [75; 82; 78; 50]).

(** ** File names *)

Definition KEY_RUN_SUFFIX : bytes := map byte_of [46; 107; 101; 121; 115].

(** [{n}]: the decimal digits of a number. *)
Fixpoint digits_of (fuel : nat) (n : Z) : bytes :=
  match fuel with
  | O => []
  | S fuel => (if n / 10 =? 0 then [] else digits_of fuel (n / 10)) ++ [byte_of (48 + n mod 10)]
  end.

Definition decimal (n : Z) : bytes := digits_of 20 n.

(** [{id:012}] *)
Definition key_run_name (id : Z) : bytes := replicate (12 - length (decimal id)) (byte_of 48) ++ decimal id ++ KEY_RUN_SUFFIX.

Fixpoint parse_digits (s : bytes) (n : Z) : option Z :=
  match s with
  | [] => Some n
  | c :: s =>
      if (48 <=? u8 c) && (u8 c <=? 57) then let n := n * 10 + (u8 c - 48) in if n <? U64 then parse_digits s n else None
      else None
  end.

(** [str::parse::<u64>]: digits, behind one plus sign or none. *)
Definition parse_u64 (s : bytes) : option Z :=
  match s with
  | [] => None
  | [c] => if u8 c =? 43 then None else parse_digits s 0
  | c :: rest => if u8 c =? 43 then parse_digits rest 0 else parse_digits s 0
  end.

Definition strip_suffix (s suffix : bytes) : option bytes :=
  let keep := (length s - length suffix)%nat in
  if (length suffix <=? length s)%nat && bytes_eqb (drop keep s) suffix then Some (take keep s) else None.

Definition key_run_id (name : bytes) : option Z := stem ← strip_suffix name KEY_RUN_SUFFIX; parse_u64 stem.

(** ** Rows *)

Record RunRow := mkRunRow { rr_lsn : Lsn; rr_loc : Loc; rr_flags : Flags }.

Definition RunRow_of (segment : SegmentId) (found : FooterRow) : RunRow :=
  mkRunRow (fr_lsn found) (Loc_new segment (fr_offset found) (fr_len found)) (fr_flags found).

Record RunPointer := mkRunPointer { rp_covered : Z; rp_row : Z }.

Definition vanished : ReelError := Io NotFound.

Definition is_vanished (e : ReelError) : bool := match e with Io NotFound => true | _ => false end.

(** ** A column of a run *)

Record RunColumn := mkRunColumn {
  rc_column : ColumnId;
  rc_block_rows : Z;
  rc_rows : Z;
  rc_rows_at : Z;
  rc_fences : bytes;
  rc_fence_at : list Z;
  rc_last : bytes;
}.

Definition RunColumn_blocks (c : RunColumn) : Z := as_u32 (div_ceil (rc_rows c) (rc_block_rows c)).

Definition RunColumn_lead (c : RunColumn) (block : Z) : res bytes :=
  start ← must (get (rc_fence_at c) block);
  end_ ← must (get (rc_fence_at c) (block + 1));
  must (slice (rc_fences c) start end_).

Definition RunColumn_key_range (c : RunColumn) : res (option (bytes * bytes)) :=
  if rc_rows c =? 0 then Ok None else first ← RunColumn_lead c 0; Ok (Some (first, rc_last c)).

Fixpoint block_loop (fuel : nat) (c : RunColumn) (key : bytes) (low high : Z) : res Z :=
  match fuel with
  | O => Panic
  | S fuel =>
      if low <? high then
        let mid := (low + high) / 2 in
        lead ← RunColumn_lead c mid;
        if bytes_leb lead key then block_loop fuel c key (mid + 1) high else block_loop fuel c key low mid
      else Ok low
  end.

Definition RunColumn_block_for (c : RunColumn) (key : bytes) : res Z :=
  low ← block_loop (S (Z.to_nat (RunColumn_blocks c))) c key 0 (RunColumn_blocks c);
  Ok (saturating_sub low 1).

Definition RunColumn_block_span (c : RunColumn) (block : Z) : Z * Z :=
  let first := block * rc_block_rows c in
  (first, as_u32 (Z.min (rc_rows c - first) (rc_block_rows c))).

(** ** Opening a run *)

Record KeyRun := mkKeyRun {
  kr_id : Z;
  kr_file : bytes;
  kr_columns : list RunColumn;
  kr_covered : list SegmentId;
  kr_bytes : Z;
}.

Definition run_corrupt : ReelError := Corruption "key run {id}: {what}".

(** A region of the file, refused where it runs past it. *)
Definition run_span (file : bytes) (at_ length_ : Z) : res bytes :=
  if (at_ + length_ <? U64) && (at_ + length_ <=? len file) then must (slice file at_ (at_ + length_)) else Err run_corrupt.

Fixpoint read_fences (blocks : nat) (file : bytes) (at_ : Z) (fences : bytes) (fence_at : list Z) : res (bytes * list Z * Z) :=
  match blocks with
  | O => Ok (fences, fence_at, at_)
  | S blocks =>
      width ← run_span file at_ 2;
      let length_ := le_val width in
      fence ← run_span file (at_ + 2) length_;
      read_fences blocks file (at_ + (2 + length_)) (fences ++ fence) (fence_at ++ [as_u32 (len fences)])
  end.

Definition read_run_column (file directory : bytes) (at_ : Z) : res RunColumn :=
  row ← must (slice directory (at_ * RUN_DIRECTORY_ROW) ((at_ + 1) * RUN_DIRECTORY_ROW));
  block_rows ← must (slice row 1 5);
  let block_rows := le_val block_rows in
  rows ← must (slice row 5 13);
  let rows := le_val rows in
  rows_at ← must (slice row 13 21);
  let rows_at := le_val rows_at in
  fences_at ← must (slice row 21 29);
  let fences_at := le_val fences_at in
  if block_rows =? 0 then Err run_corrupt
  else if U64 <=? rows * ROW_LEN then Err run_corrupt
  else
    _ ← run_span file rows_at (rows * ROW_LEN);
    '(fences, fence_at, at_) ← read_fences (Z.to_nat (div_ceil rows block_rows)) file fences_at [] [];
    let fence_at := fence_at ++ [as_u32 (len fences)] in
    width ← run_span file at_ 2;
    last ← run_span file (at_ + 2) (le_val width);
    column ← must (get row 0);
    Ok (mkRunColumn (u8 column) block_rows rows rows_at fences fence_at last).

Definition KeyRun_open (file : bytes) (id : Z) : res KeyRun :=
  let bytes_ := len file in
  if bytes_ <? RUN_TRAILER then Err run_corrupt
  else
    trailer ← run_span file (bytes_ - RUN_TRAILER) RUN_TRAILER;
    magic ← must (slice trailer 16 20);
    if negb (le_val magic =? RUN_MAGIC) then Err run_corrupt
    else
      directory_at ← must (slice trailer 0 8);
      let directory_at := le_val directory_at in
      column_count ← must (slice trailer 8 12);
      let column_count := le_val column_count in
      covered_count ← must (slice trailer 12 16);
      let covered_count := le_val covered_count in
      let directory_len := column_count * RUN_DIRECTORY_ROW + covered_count * 4 in
      if negb (as_u64 (directory_at + directory_len + RUN_TRAILER) =? bytes_) then Err run_corrupt
      else
        directory ← run_span file directory_at directory_len;
        columns ← mapm (read_run_column file directory) (seqZ 0 column_count);
        let covered_at := column_count * RUN_DIRECTORY_ROW in
        covered ← mapm (fun at_ => entry ← must (slice directory (covered_at + at_ * 4) (covered_at + at_ * 4 + 4)); Ok (le_val entry)) (seqZ 0 covered_count);
        Ok (mkKeyRun id file columns covered bytes_).

Definition KeyRun_column (r : KeyRun) (column : ColumnId) : option RunColumn := List.find (fun held => rc_column held =? column) (kr_columns r).

Definition KeyRun_pointer (r : KeyRun) (c : RunColumn) (at_ : Z) : res RunPointer :=
  let start := rc_rows_at c + at_ * ROW_LEN in
  row ← must (slice (kr_file r) start (start + ROW_LEN));
  covered ← must (slice row 0 4);
  place ← must (slice row 4 8);
  Ok (mkRunPointer (le_val covered) (le_val place)).

Definition KeyRun_segment_of (r : KeyRun) (pointer : RunPointer) : option SegmentId := get (kr_covered r) (rp_covered pointer).

(** ** Seeking *)

(** The reader of footer rows: the key and row a pointer leads to, nothing for a segment it skips. *)
Definition RowReader : Type := RunPointer -> res (option (bytes * RunRow)).

(** Rows read through the footers: [rows_at] is what a segment's partition holds at a place. *)
Definition FooterRows_read (covered : list SegmentId) (stands : SegmentId -> bool) (rows_at : SegmentId -> Z -> res (bytes * FooterRow)) : RowReader := fun pointer =>
  match get covered (rp_covered pointer) with
  | None => Err (Corruption "a key run row names covered segment {at} of {}")
  | Some segment =>
      if negb (stands segment) then Ok None
      else '(key, found) ← rows_at segment (rp_row pointer); Ok (Some (key, RunRow_of segment found))
  end.

Section seek.
Variable read : RowReader.

(** The first readable row from a place on, and whether it lies before the bound sought. *)
Fixpoint probe_loop (fuel : nat) (r : KeyRun) (c : RunColumn) (key : bytes) (is_past : bool) (probe high : Z) : res (Z * option bool) :=
  match fuel with
  | O => Panic
  | S fuel =>
      if probe <? high then
        pointer ← KeyRun_pointer r c probe;
        found ← read pointer;
        match found with
        | Some (held, _) => Ok (probe, Some (if is_past then bytes_leb held key else bytes_ltb held key))
        | None => probe_loop fuel r c key is_past (probe + 1) high
        end
      else Ok (probe, None)
  end.

Fixpoint seek_loop (fuel : nat) (r : KeyRun) (c : RunColumn) (key : bytes) (is_past : bool) (low high : Z) : res Z :=
  match fuel with
  | O => Panic
  | S fuel =>
      if low <? high then
        let mid := (low + high) / 2 in
        '(probe, found) ← probe_loop (S (Z.to_nat (high - mid))) r c key is_past mid high;
        match found with
        | Some true => seek_loop fuel r c key is_past (probe + 1) high
        | Some false | None => seek_loop fuel r c key is_past low mid
        end
      else Ok low
  end.

Definition KeyRun_seek (r : KeyRun) (c : RunColumn) (key : bytes) (is_past : bool) : res Z :=
  if rc_rows c =? 0 then Ok 0
  else
    block ← RunColumn_block_for c key;
    let '(first, count) := RunColumn_block_span c block in
    seek_loop (S (Z.to_nat count)) r c key is_past first (first + count).
End seek.

(** ** Writing a run *)

Record Building := mkBuilding { bg_column : ColumnId; bg_rows : Z; bg_rows_at : Z; bg_fences : bytes; bg_last : bytes }.

Record RunWriter := mkRunWriter { rw_file : bytes; rw_at : Z; rw_pending : bytes; rw_columns : list Building }.

Definition RunWriter_create : RunWriter := mkRunWriter [] 0 [] [].

Definition RunWriter_begin_column (w : RunWriter) (column : ColumnId) : res RunWriter :=
  if match last (rw_columns w) with Some held => column <=? bg_column held | None => false end then Err (Rejected "a key run's columns arrived out of order")
  else Ok (mkRunWriter (rw_file w) (rw_at w) (rw_pending w) (rw_columns w ++ [mkBuilding column 0 (as_u64 (rw_at w + len (rw_pending w))) [] []])).

Section write.
(** Whether the device refuses the write at an offset, and with what. *)
Variable fails : Z -> option io_kind.

(** [IoDriver::writev_all]: the bytes laid over the file at an offset. *)
Definition writev_all (file : bytes) (at_ : Z) (bs : bytes) : res bytes :=
  match fails at_ with
  | Some kind => Err (Io kind)
  | None => Ok (take (Z.to_nat at_) (file ++ zeros (Z.to_nat (at_ - len file))) ++ bs ++ drop (Z.to_nat (at_ + len bs)) file)
  end.

Definition RunWriter_write_pending (w : RunWriter) : res RunWriter :=
  if len (rw_pending w) =? 0 then Ok w
  else
    file ← writev_all (rw_file w) (rw_at w) (rw_pending w);
    Ok (mkRunWriter file (as_u64 (rw_at w + len (rw_pending w))) [] (rw_columns w)).

Definition RunWriter_push (w : RunWriter) (key : bytes) (pointer : RunPointer) : res RunWriter :=
  match last (rw_columns w) with
  | None => Err (Rejected "a key run row came before any column")
  | Some b =>
      if negb (len key <? U16) then Err (Rejected "a key run row's key is too wide")
      else if (0 <? bg_rows b) && bytes_leb key (bg_last b) then Err (Rejected "a key run's rows arrived out of order")
      else
        let fences := if bg_rows b mod RUN_BLOCK_ROWS =? 0 then bg_fences b ++ u16_le (len key) ++ key else bg_fences b in
        let b := mkBuilding (bg_column b) (as_u64 (bg_rows b + 1)) (bg_rows_at b) fences key in
        let pending := rw_pending w ++ u32_le (rp_covered pointer) ++ u32_le (rp_row pointer) in
        let w := mkRunWriter (rw_file w) (rw_at w) pending (removelast (rw_columns w) ++ [b]) in
        if WRITE_BYTES <=? len pending then RunWriter_write_pending w else Ok w
  end.

Definition RunWriter_rows (w : RunWriter) : Z := fold_left (fun n b => n + bg_rows b) (rw_columns w) 0.

(** The fences of every column with where each column's begin, laid out from an offset. *)
Definition tail_fences (at_ : Z) (acc : bytes * list Z) (b : Building) : bytes * list Z :=
  let '(tail, fences_at) := acc in
  (tail ++ bg_fences b ++ u16_le (as_u16 (len (bg_last b))) ++ bg_last b, fences_at ++ [as_u64 (at_ + len tail)]).

Definition directory_entry (b : Building) (fences_at : Z) : bytes :=
  byte_of (bg_column b) :: u32_le RUN_BLOCK_ROWS ++ u64_le (bg_rows b) ++ u64_le (bg_rows_at b) ++ u64_le fences_at.

Definition RunWriter_write_tail (w : RunWriter) (covered : list SegmentId) : res RunWriter :=
  w ← RunWriter_write_pending w;
  let '(tail, fences_at) := fold_left (tail_fences (rw_at w)) (rw_columns w) ([], []) in
  let directory_at := as_u64 (rw_at w + len tail) in
  let tail := tail ++ concat (map (fun '(b, at_) => directory_entry b at_) (zip (rw_columns w) fences_at)) ++ concat (map u32_le covered)
    ++ u64_le directory_at ++ u32_le (as_u32 (len (rw_columns w))) ++ u32_le (as_u32 (len covered)) ++ u32_le RUN_MAGIC in
  file ← writev_all (rw_file w) (rw_at w) tail;
  Ok (mkRunWriter file (rw_at w) (rw_pending w) (rw_columns w)).

(** What is left of a run on disk: whether its temporary file stands, and the file under its name. *)
Record RunFiles := mkRunFiles { rf_temp : bool; rf_named : option bytes }.

(** The driver's calls that end a run, an unlink of one of its files among them. *)
Inductive FinishCall := CallSync | CallClose | CallRename | CallSyncDir | CallUnlink.

Section finish.
(** Whether a call fails, and with what; nobody looks at what an unlink or a close on the way out answers. *)
Variable breaks : FinishCall -> option io_kind.

Definition unlink_fails : bool := match breaks CallUnlink with Some _ => true | None => false end.

(** The temporary file unlinked, where the driver can. *)
Definition RunWriter_abandon : RunFiles := mkRunFiles unlink_fails None.

(** [write_tail]'s sync and the rest of [finish], each call of the driver failing or not. *)
Definition RunWriter_finish (w : RunWriter) (covered : list SegmentId) : RunFiles * res unit :=
  match RunWriter_write_tail w covered with
  | Err e => (RunWriter_abandon, Err e)
  | Panic => (mkRunFiles true None, Panic)
  | Ok w =>
      match breaks CallSync with
      | Some kind => (RunWriter_abandon, Err (Io kind))
      | None =>
          match breaks CallClose with
          | Some kind => (mkRunFiles unlink_fails None, Err (Io kind))
          | None =>
              match breaks CallRename with
              | Some kind => (mkRunFiles unlink_fails None, Err (Io kind))
              | None =>
                  match breaks CallSyncDir with
                  | Some kind => (mkRunFiles false (if unlink_fails then Some (rw_file w) else None), Err (Io kind))
                  | None => (mkRunFiles false (Some (rw_file w)), Ok tt)
                  end
              end
          end
      end
  end.
End finish.
End write.
