(* ===== verification/KeyRunFile.v ===== *)
(** * What a key run's file holds ([index/keyrun.rs])

    The bytes a writer leaves for some columns of rows, and that opening them gives the columns back:
    every pointer, every fence, and the covered segments. *)
From S2P Require Import Prelude Error Bytes Lsn Column Record FooterRow KeyRun.

(** ** The layout *)

Abbreviation RunRows := (list (bytes * RunPointer)).

Implicit Types (rows : RunRows) (cols : list (ColumnId * RunRows)) (p : RunPointer).

Definition enc_pointer p : bytes := u32_le (rp_covered p) ++ u32_le (rp_row p).
Definition rows_bytes rows : bytes := concat (map (fun x => enc_pointer x.2) rows).

(** The first key of each block of rows, counting rows from [n]. *)
Fixpoint leads_from (n : Z) rows : list bytes :=
  match rows with [] => [] | x :: rows => (if n mod RUN_BLOCK_ROWS =? 0 then [x.1] else []) ++ leads_from (n + 1) rows end.

Definition enc_fence (key : bytes) : bytes := u16_le (len key) ++ key.
Definition fences rows : bytes := concat (map enc_fence (leads_from 0 rows)).
Definition last_key rows : bytes := match last rows with Some x => x.1 | None => [] end.
Definition fence_block rows : bytes := fences rows ++ enc_fence (last_key rows).

Definition building (at_ : Z) (col : ColumnId * RunRows) : Building := mkBuilding col.1 (len col.2) at_ (fences col.2) (last_key col.2).

Fixpoint buildings (at_ : Z) cols : list Building := match cols with [] => [] | col :: cols => building at_ col :: buildings (at_ + len (rows_bytes col.2)) cols end.

Definition all_rows cols : bytes := concat (map (fun col => rows_bytes col.2) cols).
Definition all_fences cols : bytes := concat (map (fun col => fence_block col.2) cols).

Fixpoint fence_ats (at_ : Z) cols : list Z := match cols with [] => [] | col :: cols => at_ :: fence_ats (at_ + len (fence_block col.2)) cols end.

Definition directory_rows cols : list bytes := map (fun '(b, at_) => directory_entry b at_) (zip (buildings 0 cols) (fence_ats (len (all_rows cols)) cols)).

Definition run_trailer cols (covered : list SegmentId) : bytes :=
  u64_le (len (all_rows cols ++ all_fences cols)) ++ u32_le (len cols) ++ u32_le (len covered) ++ u32_le RUN_MAGIC.

Definition run_bytes cols (covered : list SegmentId) : bytes :=
  all_rows cols ++ all_fences cols ++ concat (directory_rows cols) ++ concat (map u32_le covered) ++ run_trailer cols covered.

Record col_ok (col : ColumnId * RunRows) : Prop := {
  co_column : is_u8 col.1;
  co_sorted : StronglySorted bytes_lt (map fst col.2);
  co_keys : Forall (fun x => len x.1 < U16) col.2;
  co_pointers : Forall (fun x => is_u32 (rp_covered x.2) /\ is_u32 (rp_row x.2)) col.2;
  co_leads : len (concat (leads_from 0 col.2)) < U32;
  co_rows : len col.2 < U32;
}.

Record run_fits cols (covered : list SegmentId) : Prop := {
  rf_cols : Forall col_ok cols;
  rf_order : StronglySorted Z.lt (map fst cols);
  rf_count : len cols < U32;
  rf_covered : Forall is_u32 covered;
  rf_covered_count : len covered < U32;
  rf_size : len (run_bytes cols covered) < U64;
}.

(** ** Lemmas of the layout *)

Lemma len_enc_pointer p : len (enc_pointer p) = 8.
Proof. unfold enc_pointer; rewrite len_app, !len_u32_le; done. Qed.

Lemma rows_bytes_app rows rows' : rows_bytes (rows ++ rows') = rows_bytes rows ++ rows_bytes rows'.
Proof. unfold rows_bytes; by rewrite map_app, concat_app. Qed.

Lemma len_rows_bytes rows : len (rows_bytes rows) = 8 * len rows.
Proof. unfold rows_bytes; induction rows as [|x rows IH]; cbn [map concat]; [done|]; rewrite len_app, len_enc_pointer, IH, len_cons; lia. Qed.

Lemma leads_app rows rows' n : leads_from n (rows ++ rows') = leads_from n rows ++ leads_from (n + len rows) rows'.
Proof.
  revert n; induction rows as [|x rows IH]; intros n; cbn [app leads_from]; [by rewrite len_nil, Z.add_0_r|]; rewrite IH, len_cons, app_assoc; do 2 f_equal; lia.
Qed.

Lemma fences_snoc rows x : fences (rows ++ [x]) = if len rows mod RUN_BLOCK_ROWS =? 0 then fences rows ++ enc_fence x.1 else fences rows.
Proof. unfold fences; rewrite leads_app, map_app, concat_app, Z.add_0_l; cbn [leads_from]; destruct (_ =? 0); cbn [map concat app]; by rewrite ?app_nil_r. Qed.

Lemma run_last_key_snoc rows x : last_key (rows ++ [x]) = x.1.
Proof. unfold last_key; by rewrite last_snoc. Qed.

Lemma all_rows_snoc cols c rows : all_rows (cols ++ [(c, rows)]) = all_rows cols ++ rows_bytes rows.
Proof. unfold all_rows; rewrite map_app, concat_app; cbn; by rewrite app_nil_r. Qed.

Lemma buildings_snoc cols at_ col : buildings at_ (cols ++ [col]) = buildings at_ cols ++ [building (at_ + len (all_rows cols)) col].
Proof.
  revert at_; induction cols as [|c cols IH]; intros at_; cbn [app buildings]; unfold all_rows; cbn [map concat]; [by rewrite len_nil, Z.add_0_r|]; rewrite IH; unfold all_rows; cbn [app]; do 4 f_equal; rewrite len_app; lia.
Qed.

Lemma length_buildings cols at_ : length (buildings at_ cols) = length cols.
Proof. revert at_; induction cols as [|c cols IH]; intros at_; cbn [buildings length]; [done | by rewrite IH]. Qed.

Lemma length_fence_ats cols at_ : length (fence_ats at_ cols) = length cols.
Proof. revert at_; induction cols as [|c cols IH]; intros at_; cbn [fence_ats length]; [done | by rewrite IH]. Qed.

Lemma last_key_short rows : Forall (fun x => len x.1 < U16) rows -> len (last_key rows) < U16.
Proof. intros Hf; unfold last_key; destruct (last rows) as [x|] eqn:E; [| done]; rewrite Forall_forall in Hf; apply Hf; by apply last_Some_elem_of. Qed.

(** ** The writer *)

Record writer_ok (w : RunWriter) cols : Prop := {
  wo_bytes : rw_file w ++ rw_pending w = all_rows cols;
  wo_at : rw_at w = len (rw_file w);
  wo_columns : rw_columns w = buildings 0 cols;
}.

Lemma writev_all_end file bs : take (Z.to_nat (len file)) (file ++ zeros (Z.to_nat (len file - len file))) ++ bs ++ drop (Z.to_nat (len file + len bs)) file = file ++ bs.
Proof. rewrite Z.sub_diag; unfold zeros; cbn [replicate Z.to_nat]; rewrite app_nil_r, take_ge, drop_ge, app_nil_r by (unfold len; lia); done. Qed.

Section writer.
Variable fails : Z -> option io_kind.

(** A write that ends in the device's own error, or does its work. *)
Definition or_fails {A} (P : A -> Prop) (r : res A) : Prop :=
  match r with Ok a => P a | Err e => exists at_ kind, fails at_ = Some kind /\ e = Io kind | Panic => False end.

Lemma or_fails_bind {A B} (P : A -> Prop) (Q : B -> Prop) (m : res A) (f : A -> res B) : or_fails P m -> (forall a, P a -> or_fails Q (f a)) -> or_fails Q (a ← m; f a).
Proof. destruct m as [a|e|]; cbn; auto. Qed.

Lemma or_fails_mono {A} (P Q : A -> Prop) (r : res A) : (forall a, P a -> Q a) -> or_fails P r -> or_fails Q r.
Proof. destruct r; cbn; auto. Qed.

Lemma write_pending_ok w cols : writer_ok w cols -> len (all_rows cols) < U64 -> or_fails (fun w' => writer_ok w' cols /\ rw_pending w' = []) (RunWriter_write_pending fails w).
Proof.
  intros [Hb Ha Hc] Hl; unfold RunWriter_write_pending; destruct (Z.eqb_spec (len (rw_pending w)) 0) as [E|]; [split; [by split | by apply len_0_inv]|].
  unfold writev_all; destruct (fails (rw_at w)) as [kind|] eqn:Ef; [cbn; eauto|]; cbn; rewrite Ha, writev_all_end; split; [| done]; split; cbn [rw_file rw_at rw_pending rw_columns]; [by rewrite app_nil_r | | done].
  rewrite <- Hb, len_app in Hl; pose proof (len_nonneg (rw_file w)); pose proof (len_nonneg (rw_pending w)); rewrite len_app; apply as_u64_small; unfold is_u64; lia.
Qed.

Lemma begin_column_ok w cols c : writer_ok w cols -> len (all_rows cols) < U64 -> StronglySorted Z.lt (map fst (cols ++ [(c, [])])) ->
  exists w', RunWriter_begin_column w c = Ok w' /\ writer_ok w' (cols ++ [(c, [])]).
Proof.
  intros [Hb Ha Hc] Hl Hs; unfold RunWriter_begin_column; rewrite Hc.
  assert ((match last (buildings 0 cols) with Some held => c <=? bg_column held | None => false end) = false) as ->.
  { destruct cols as [|col cols _] using rev_ind; [done|]; rewrite buildings_snoc, last_snoc; cbn [building bg_column]; apply Z.leb_gt; rewrite map_app, map_app in Hs; cbn [map fst] in Hs.
    apply StronglySorted_app in Hs as (Hx & _); apply Hx; [rewrite elem_of_app; right; by constructor | by constructor]. }
  eexists; split; [done|]; split; cbn [rw_file rw_at rw_pending rw_columns]; [by rewrite all_rows_snoc, app_nil_r | done |]; rewrite buildings_snoc, Z.add_0_l; do 2 f_equal; unfold building; cbn [fst snd]; f_equal.
  rewrite <- Hb in Hl |- *; rewrite len_app in *; rewrite Ha; apply as_u64_small; pose proof (len_nonneg (rw_file w)); pose proof (len_nonneg (rw_pending w)); unfold is_u64; lia.
Qed.

Lemma push_row_ok w cols c rows x : writer_ok w (cols ++ [(c, rows)]) -> len (all_rows (cols ++ [(c, rows ++ [x])])) < U64 -> StronglySorted bytes_lt (map fst (rows ++ [x])) -> len x.1 < U16 ->
  or_fails (fun w' => writer_ok w' (cols ++ [(c, rows ++ [x])])) (RunWriter_push fails w x.1 x.2).
Proof.
  intros [Hb Ha Hc] Hl Hs Hk; unfold RunWriter_push; rewrite Hc, buildings_snoc, last_snoc, removelast_last; cbn [building bg_column bg_rows bg_rows_at bg_fences bg_last fst snd].
  rewrite (proj2 (Z.ltb_lt _ _) Hk); cbn [negb].
  assert ((0 <? len rows) && bytes_leb x.1 (last_key rows) = false) as ->.
  { destruct rows as [|y rows _] using rev_ind; [done|]; rewrite run_last_key_snoc; apply andb_false_iff; right; apply bytes_leb_gt; rewrite map_app, map_app in Hs; cbn [map] in Hs; apply StronglySorted_app in Hs as (Hx & _); apply Hx; [rewrite elem_of_app; right; by constructor | by constructor]. }
  rewrite all_rows_snoc, len_app, len_rows_bytes, len_app in Hl; change (len [x]) with 1 in Hl; pose proof (len_nonneg (all_rows cols)); pose proof (len_nonneg rows).
  set (w' := mkRunWriter _ _ _ _); assert (writer_ok w' (cols ++ [(c, rows ++ [x])])) as Hw'.
  { split; cbn [w' rw_file rw_at rw_pending rw_columns]; [| done |].
    - rewrite all_rows_snoc, rows_bytes_app; rewrite all_rows_snoc in Hb; rewrite (app_assoc (all_rows cols)), <- Hb, <- (app_assoc (rw_file w)); f_equal; f_equal; unfold rows_bytes, enc_pointer; cbn; by rewrite app_nil_r.
    - rewrite buildings_snoc; do 2 f_equal; unfold building; cbn [fst snd]; rewrite fences_snoc, run_last_key_snoc, len_app, as_u64_small by (unfold is_u64; lia); done. }
  destruct (WRITE_BYTES <=? _); [| exact Hw']; pose proof (write_pending_ok w' _ Hw') as Hp; destruct (RunWriter_write_pending fails w') as [w2|e|]; cbn in *; [apply Hp | apply Hp | apply Hp]; rewrite all_rows_snoc, len_app, len_rows_bytes, len_app; change (len [x]) with 1; lia.
Qed.

(** A whole column, and every column in turn. *)
Definition write_column (w : RunWriter) (col : ColumnId * RunRows) : res RunWriter := w ← RunWriter_begin_column w col.1; foldm (fun w x => RunWriter_push fails w x.1 x.2) col.2 w.

Definition write_columns cols : res RunWriter := foldm write_column cols RunWriter_create.

Lemma write_rows_ok cols c rest : forall w rows, writer_ok w (cols ++ [(c, rows)]) -> len (all_rows (cols ++ [(c, rows ++ rest)])) < U64 -> StronglySorted bytes_lt (map fst (rows ++ rest)) -> Forall (fun x => len x.1 < U16) rest ->
  or_fails (fun w' => writer_ok w' (cols ++ [(c, rows ++ rest)])) (foldm (fun w x => RunWriter_push fails w x.1 x.2) rest w).
Proof.
  induction rest as [|x rest IH]; intros w rows Hw Hl Hs Hk; cbn [foldm]; [by rewrite app_nil_r|]; apply Forall_cons in Hk as [Hx Hk]; rewrite (cons_middle x rows rest), app_assoc in Hl, Hs |- *.
  eapply or_fails_bind; [apply (push_row_ok w cols c rows x Hw); [| | done] | intros w' Hw'; by apply IH].
  - rewrite all_rows_snoc, rows_bytes_app, !len_app in Hl; rewrite all_rows_snoc, len_app; pose proof (len_nonneg (rows_bytes rest)); lia.
  - rewrite map_app in Hs; by apply StronglySorted_app in Hs as (_ & Hs & _).
Qed.

Lemma write_columns_from rest : forall w cols, writer_ok w cols -> len (all_rows (cols ++ rest)) < U64 -> StronglySorted Z.lt (map fst (cols ++ rest)) -> Forall col_ok rest ->
  or_fails (fun w' => writer_ok w' (cols ++ rest)) (foldm write_column rest w).
Proof.
  induction rest as [|[c rows] rest IH]; intros w cols Hw Hl Hs Hk; cbn [foldm]; [by rewrite app_nil_r|]; apply Forall_cons in Hk as [[Hc Hsort Hkeys Hp _ _] Hk]; cbn [fst snd] in *.
  rewrite (cons_middle (c, rows) cols rest), app_assoc in Hl, Hs |- *; assert (len (all_rows (cols ++ [(c, rows)])) < U64) as Hl1 by (unfold all_rows in *; rewrite map_app, concat_app, len_app in Hl; pose proof (len_nonneg (concat (map (fun col => rows_bytes col.2) rest))); lia).
  eapply (or_fails_bind (fun w' => writer_ok w' (cols ++ [(c, rows)]))); [| intros w' Hw'; by apply IH]; unfold write_column; cbn [fst snd].
  destruct (begin_column_ok w cols c Hw) as (w' & -> & Hw'); [rewrite all_rows_snoc, len_app in Hl1; pose proof (len_nonneg (rows_bytes rows)); lia | |].
  - rewrite map_app in Hs |- *; apply StronglySorted_app in Hs as (_ & Hs & _); rewrite map_app in Hs; done.
  - res_simpl; by apply (write_rows_ok cols c rows w' []).
Qed.

Lemma write_columns_ok cols covered : run_fits cols covered -> or_fails (fun w => writer_ok w cols) (write_columns cols).
Proof.
  intros [Hc Ho _ _ _ Hs]; apply (write_columns_from cols RunWriter_create []); [by split | | done | done].
  unfold run_bytes in Hs; rewrite len_app in Hs; rewrite app_nil_l; match type of Hs with _ + len ?l < _ => pose proof (len_nonneg l) end; lia.
Qed.
End writer.

Lemma lens_concat (l : list bytes) w : Forall (fun c => len c = w) l -> len (concat l) = len l * w.
Proof. induction 1 as [|c l Hc _ IH]; cbn [concat]; [done|]; rewrite len_app, len_cons; lia. Qed.

Lemma slice_chunk (l : list bytes) (post : bytes) w (i : nat) c : Forall (fun c => len c = w) l -> l !! i = Some c -> slice (concat l ++ post) (Z.of_nat i * w) ((Z.of_nat i + 1) * w) = Some c.
Proof.
  intros Hf Hi; apply list_elem_of_split_length in Hi as (l1 & l2 & -> & ->); apply Forall_app in Hf as [Hf1 [Hc Hf2]%Forall_cons]; rewrite concat_app; cbn [concat]; rewrite <- !app_assoc.
  apply slice_mid; [rewrite (lens_concat _ _ Hf1); unfold len; lia | lia].
Qed.

Lemma fence_block_len col : col_ok col -> u16_le (as_u16 (len (last_key col.2))) = u16_le (len (last_key col.2)).
Proof. intros [_ _ Hk _ _ _]; pose proof (last_key_short _ Hk); pose proof (len_nonneg (last_key col.2)); by rewrite as_u16_small by (unfold is_u16; lia). Qed.

Lemma tail_fences_ok at_ cols : forall a tail ats, Forall col_ok cols -> 0 <= at_ -> at_ + len tail + len (all_fences cols) < U64 ->
  fold_left (tail_fences at_) (buildings a cols) (tail, ats) = (tail ++ all_fences cols, ats ++ fence_ats (at_ + len tail) cols).
Proof.
  unfold all_fences; induction cols as [|col cols IH]; intros a tail ats Hc Ha Hl; cbn [buildings fold_left map concat fence_ats]; [by rewrite !app_nil_r|]; apply Forall_cons in Hc as [Hcol Hc]; cbn [map concat] in Hl; rewrite len_app in Hl.
  unfold tail_fences at 2; cbn [building bg_fences bg_last]; rewrite (fence_block_len col Hcol); change (fences col.2 ++ u16_le (len (last_key col.2)) ++ last_key col.2) with (fence_block col.2).
  pose proof (len_nonneg tail); pose proof (len_nonneg (fence_block col.2)); pose proof (len_nonneg (concat (map (fun col => fence_block col.2) cols))); rewrite IH, as_u64_small; [| unfold is_u64; lia | done | done | rewrite len_app; lia].
  rewrite <- !app_assoc, len_app; cbn [app]; by rewrite Z.add_assoc.
Qed.

Lemma run_bytes_len cols covered : run_fits cols covered -> len (all_rows cols) + len (all_fences cols) + len (concat (directory_rows cols)) + len (concat (map u32_le covered)) + 20 = len (run_bytes cols covered).
Proof. intros _; unfold run_bytes, run_trailer; rewrite !len_app, len_u64_le, !len_u32_le; lia. Qed.

Lemma write_tail_ok fails w cols covered : run_fits cols covered -> writer_ok w cols -> or_fails fails (fun w' => rw_file w' = run_bytes cols covered) (RunWriter_write_tail fails w covered).
Proof.
  intros Hr Hw; pose proof (run_bytes_len cols covered Hr) as Hlen; pose proof Hr as [Hc Ho Hn Hcv Hcn Hs].
  pose proof (len_nonneg (all_rows cols)); pose proof (len_nonneg (all_fences cols)); pose proof (len_nonneg (concat (directory_rows cols))); pose proof (len_nonneg (concat (map u32_le covered))); pose proof (len_nonneg cols); pose proof (len_nonneg covered).
  unfold RunWriter_write_tail; eapply or_fails_bind; [apply (write_pending_ok fails w cols Hw); lia|]; intros w' [[Hb Ha Hcols] Hp]; rewrite Hp, app_nil_r in Hb; rewrite Hcols.
  rewrite tail_fences_ok; [| done | rewrite Ha; apply len_nonneg | rewrite Ha, Hb, len_nil; lia]; cbn [app]; change (len (@nil byte)) with 0; rewrite Z.add_0_r, Ha, Hb.
  unfold writev_all; destruct (fails _) as [kind|] eqn:Ef; [cbn; eauto|]; cbn [mbind res_bind or_fails rw_file]; rewrite writev_all_end; unfold run_bytes, run_trailer, directory_rows; rewrite len_app, as_u64_small by (unfold is_u64; lia).
  assert (len (buildings 0 cols) = len cols) as -> by (unfold len; by rewrite length_buildings); rewrite !as_u32_small by (unfold is_u32; lia); done.
Qed.

(** ** The fences of a column *)

Fixpoint lead_ats (n : Z) (keys : list bytes) : list Z := match keys with [] => [] | key :: keys => n :: lead_ats (n + len key) keys end.

Lemma run_span_mid (pre s post : bytes) at_ n : len (pre ++ s ++ post) < U64 -> at_ = len pre -> n = len s -> run_span (pre ++ s ++ post) at_ n = Ok s.
Proof.
  intros Hl -> ->; rewrite !len_app in Hl; pose proof (len_nonneg pre); pose proof (len_nonneg s); pose proof (len_nonneg post); unfold run_span; rewrite (proj2 (Z.ltb_lt _ _)), (proj2 (Z.leb_le _ _)) by (rewrite ?len_app; lia); cbn [andb].
  rewrite (slice_mid pre s post) by done; done.
Qed.

Lemma read_fences_ok (keys : list bytes) (post : bytes) : forall (pre fs : bytes) fat, len (pre ++ concat (map enc_fence keys) ++ post) < U64 -> Forall (fun key => len key < U16) keys -> len (fs ++ concat keys) < U32 ->
  read_fences (length keys) (pre ++ concat (map enc_fence keys) ++ post) (len pre) fs fat = Ok (fs ++ concat keys, fat ++ lead_ats (len fs) keys, len pre + len (concat (map enc_fence keys))).
Proof.
  induction keys as [|key keys IH]; intros pre fs fat Hl Hk Hf; cbn [length read_fences map concat lead_ats]; [by rewrite !app_nil_r, len_nil, Z.add_0_r|]; apply Forall_cons in Hk as [Hkey Hk]; cbn [map concat] in *.
  change (enc_fence key) with (u16_le (len key) ++ key) in *; rewrite <- !app_assoc in Hl |- *; pose proof (len_nonneg key); pose proof (len_nonneg fs); pose proof (len_nonneg (concat keys)).
  rewrite (run_span_mid pre (u16_le (len key)) (key ++ concat (map enc_fence keys) ++ post)) by (done || by rewrite len_u16_le); res_simpl; rewrite le_val_u16 by (unfold is_u16; lia).
  rewrite (app_assoc pre), (run_span_mid (pre ++ u16_le (len key)) key (concat (map enc_fence keys) ++ post)); [| by rewrite <- app_assoc | by rewrite len_app, len_u16_le | done]; res_simpl.
  rewrite (app_assoc (pre ++ u16_le (len key))); replace (len pre + (2 + len key)) with (len ((pre ++ u16_le (len key)) ++ key)) by (rewrite !len_app, len_u16_le; lia).
  rewrite !len_app in Hf; rewrite IH; [| by rewrite <- !app_assoc | done | rewrite !len_app; lia]; rewrite as_u32_small by (unfold is_u32; lia); rewrite <- !app_assoc; cbn [app]; rewrite len_app.
  do 2 f_equal; rewrite !len_app, len_u16_le; lia.
Qed.

Lemma len_leads rows : forall n, 0 <= n -> len (leads_from n rows) = div_ceil (n + len rows) RUN_BLOCK_ROWS - div_ceil n RUN_BLOCK_ROWS.
Proof.
  unfold div_ceil, RUN_BLOCK_ROWS; induction rows as [|x rows IH]; intros n Hn; cbn [leads_from]; [rewrite (len_nil (A := bytes)), (len_nil (A := bytes * RunPointer)), Z.add_0_r; lia|].
  unfold RUN_BLOCK_ROWS; rewrite len_app, IH, len_cons by lia; pose proof (len_nonneg rows); destruct (Z.eqb_spec (n mod 8) 0); rewrite ?len_cons, ?len_nil; Z.to_euclidean_division_equations; lia.
Qed.

Lemma get_leads rows : forall n (k : nat) x, 0 <= n -> rows !! k = Some x -> (n + Z.of_nat k) mod RUN_BLOCK_ROWS = 0 ->
  get (leads_from n rows) ((n + Z.of_nat k) / RUN_BLOCK_ROWS - div_ceil n RUN_BLOCK_ROWS) = Some x.1.
Proof.
  unfold div_ceil, RUN_BLOCK_ROWS; induction rows as [|y rows IH]; intros n k x Hn Hk Hm; [done|]; cbn [leads_from]; unfold RUN_BLOCK_ROWS; destruct k as [|k].
  - injection Hk as ->; rewrite Z.add_0_r in *; rewrite (proj2 (Z.eqb_eq _ _) Hm); cbn [app]; apply get_hit; Z.to_euclidean_division_equations; lia.
  - replace (n + Z.of_nat (S k)) with (n + 1 + Z.of_nat k) in * by lia; specialize (IH (n + 1) k x ltac:(lia) Hk Hm); destruct (Z.eqb_spec (n mod 8) 0) as [E|Hne].
    + assert (0 <= (n + 1 + Z.of_nat k) / 8 - (n + 1 + 8 - 1) / 8) by (Z.to_euclidean_division_equations; lia); rewrite get_skip by (change (len [y.1]) with 1; Z.to_euclidean_division_equations; lia).
      change (len [y.1]) with 1; rewrite <- IH; f_equal; Z.to_euclidean_division_equations; lia.
    + rewrite app_nil_l, <- IH; f_equal; Z.to_euclidean_division_equations; lia.
Qed.

Lemma leads_keys rows (P : bytes -> Prop) : Forall (fun x => P x.1) rows -> forall n, Forall P (leads_from n rows).
Proof. induction 1 as [|x rows Hx _ IH]; intros n; cbn [leads_from]; [constructor|]; apply Forall_app; split; [destruct (_ =? 0); [by apply Forall_singleton | constructor] | apply IH]. Qed.

Lemma get_tail {A} (x : A) l i : 1 <= i -> get (x :: l) i = get l (i - 1).
Proof. intros Hi; apply (get_skip [x] l i); done. Qed.

(** A lead is the slice of the fences between its place and the next. *)
Lemma lead_slice (keys : list bytes) (i : nat) key : forall n, keys !! i = Some key ->
  get (lead_ats n keys ++ [n + len (concat keys)]) (Z.of_nat i) = Some (n + len (concat (take i keys))) /\ get (lead_ats n keys ++ [n + len (concat keys)]) (Z.of_nat i + 1) = Some (n + len (concat (take i keys)) + len key).
Proof.
  revert i; induction keys as [|k keys IH]; intros i n Hi; [done|]; cbn [lead_ats app concat]; rewrite len_app, Z.add_assoc; destruct i as [|i].
  - injection Hi as ->; cbn [take concat]; rewrite (len_nil (A := byte)), Z.add_0_r; split; [by apply get_hit|]; change (Z.of_nat 0 + 1) with 1; rewrite get_tail, Z.sub_diag by lia.
    destruct keys as [|k2 keys]; cbn [lead_ats app concat]; [rewrite (len_nil (A := byte)), Z.add_0_r; by apply get_hit | by apply get_hit].
  - cbn [take concat]; rewrite len_app; destruct (IH i (n + len k) Hi) as [H1 H2]; split.
    + rewrite get_tail by lia; replace (Z.of_nat (S i) - 1) with (Z.of_nat i) by lia; rewrite H1; f_equal; lia.
    + rewrite get_tail by lia; replace (Z.of_nat (S i) + 1 - 1) with (Z.of_nat i + 1) by lia; rewrite H2; f_equal; lia.
Qed.

(** ** Opening what was written *)

Definition column_of (at_ : Z) (col : ColumnId * RunRows) : RunColumn :=
  let leads := leads_from 0 col.2 in mkRunColumn col.1 RUN_BLOCK_ROWS (len col.2) at_ (concat leads) (lead_ats 0 leads ++ [len (concat leads)]) (last_key col.2).

Fixpoint columns_of (at_ : Z) cols : list RunColumn := match cols with [] => [] | col :: cols => column_of at_ col :: columns_of (at_ + len (rows_bytes col.2)) cols end.

Lemma columns_lookup c1 col c2 at_ : columns_of at_ (c1 ++ col :: c2) !! length c1 = Some (column_of (at_ + len (all_rows c1)) col).
Proof.
  revert at_; induction c1 as [|c c1 IH]; intros at_; cbn [app columns_of length]; [change (len (all_rows [])) with 0; by rewrite Z.add_0_r|]; cbn [lookup list_lookup]; rewrite IH; unfold all_rows; cbn [map concat]; rewrite len_app; do 2 f_equal; lia.
Qed.

Lemma length_columns cols at_ : length (columns_of at_ cols) = length cols.
Proof. revert at_; induction cols as [|c cols IH]; intros at_; cbn [columns_of length]; [done | by rewrite IH]. Qed.

Lemma buildings_lookup c1 col c2 at_ : buildings at_ (c1 ++ col :: c2) !! length c1 = Some (building (at_ + len (all_rows c1)) col).
Proof.
  revert at_; induction c1 as [|c c1 IH]; intros at_; cbn [app buildings length]; [change (len (all_rows [])) with 0; by rewrite Z.add_0_r|]; cbn [lookup list_lookup]; rewrite IH; unfold all_rows; cbn [map concat]; rewrite len_app; do 2 f_equal; lia.
Qed.

Lemma fence_ats_lookup c1 col c2 at_ : fence_ats at_ (c1 ++ col :: c2) !! length c1 = Some (at_ + len (all_fences c1)).
Proof.
  revert at_; induction c1 as [|c c1 IH]; intros at_; cbn [app fence_ats length]; [change (len (all_fences [])) with 0; by rewrite Z.add_0_r|]; cbn [lookup list_lookup]; rewrite IH; unfold all_fences; cbn [map concat]; rewrite len_app; f_equal; lia.
Qed.

Lemma directory_lookup c1 col c2 : let cols := c1 ++ col :: c2 in
  directory_rows cols !! length c1 = Some (directory_entry (building (len (all_rows c1)) col) (len (all_rows cols) + len (all_fences c1))).
Proof.
  intros cols; unfold directory_rows; change (map ?f ?l) with (f <$> l); rewrite list_lookup_fmap, lookup_zip_with; subst cols; rewrite buildings_lookup; cbn [mbind option_bind]; by rewrite fence_ats_lookup.
Qed.

Lemma len_directory_entry b at_ : len (directory_entry b at_) = RUN_DIRECTORY_ROW.
Proof. unfold directory_entry; rewrite len_cons, !len_app, len_u32_le, !len_u64_le; done. Qed.

Lemma directory_even cols : Forall (fun c => len c = RUN_DIRECTORY_ROW) (directory_rows cols).
Proof. unfold directory_rows; apply Forall_forall; intros c ([b at_] & -> & _)%list_elem_of_fmap; apply len_directory_entry. Qed.

Lemma len_run_directory cols : len (concat (directory_rows cols)) = len cols * RUN_DIRECTORY_ROW.
Proof.
  rewrite (lens_concat _ _ (directory_even cols)); f_equal; unfold directory_rows, len; rewrite length_map, length_zip_with, length_buildings, length_fence_ats; lia.
Qed.

Lemma mapm_lookup {A B} (f : A -> res B) l ys : length ys = length l -> (forall i x y, l !! i = Some x -> ys !! i = Some y -> f x = Ok y) -> mapm f l = Ok ys.
Proof.
  revert ys; induction l as [|x l IH]; intros [|y ys] Hl Hf; try done; cbn [mapm]; rewrite (Hf 0%nat x y) by done; res_simpl; rewrite (IH ys); [done | by injection Hl | intros i; by apply (Hf (S i))].
Qed.

Lemma run_span_in (file : bytes) at_ n : len file < U64 -> 0 <= at_ -> 0 <= n -> at_ + n <= len file -> exists s, run_span file at_ n = Ok s.
Proof.
  intros Hl Ha Hn He; destruct (slice_is_Some file at_ (at_ + n)) as [s E]; [lia | lia |]; exists s; unfold run_span; rewrite (proj2 (Z.ltb_lt _ _)), (proj2 (Z.leb_le _ _)) by lia; cbn [andb]; by rewrite E.
Qed.

Lemma all_rows_split c1 col c2 : all_rows (c1 ++ col :: c2) = all_rows c1 ++ rows_bytes col.2 ++ all_rows c2.
Proof. unfold all_rows; rewrite map_app, concat_app; done. Qed.

Lemma all_fences_split c1 col c2 : all_fences (c1 ++ col :: c2) = all_fences c1 ++ fence_block col.2 ++ all_fences c2.
Proof. unfold all_fences; rewrite map_app, concat_app; done. Qed.

Lemma directory_entry_fields b at_ : let row := directory_entry b at_ in
  slice row 1 5 = Some (u32_le RUN_BLOCK_ROWS) /\ slice row 5 13 = Some (u64_le (bg_rows b)) /\ slice row 13 21 = Some (u64_le (bg_rows_at b)) /\ slice row 21 29 = Some (u64_le at_) /\ get row 0 = Some (byte_of (bg_column b)).
Proof.
  intros row; subst row; unfold directory_entry; pose proof (len_u32_le RUN_BLOCK_ROWS); pose proof (len_u64_le (bg_rows b)); pose proof (len_u64_le (bg_rows_at b)); pose proof (len_u64_le at_).
  split_and!; [slice_solve; done | slice_solve; done | slice_solve; done | slice_solve; done | by apply get_hit].
Qed.

Lemma read_column_ok c1 col c2 covered post : let cols := c1 ++ col :: c2 in run_fits cols covered ->
  read_run_column (run_bytes cols covered) (concat (directory_rows cols) ++ post) (Z.of_nat (length c1)) = Ok (column_of (len (all_rows c1)) col).
Proof.
  intros cols Hr; pose proof (run_bytes_len cols covered Hr) as Hlen; pose proof Hr as [Hc _ _ _ _ Hs]; assert (col_ok col) as [Hcol Hsort Hkeys _ Hleads Hrows] by (rewrite Forall_forall in Hc; apply Hc; subst cols; set_solver).
  assert (len (all_rows cols) = len (all_rows c1) + 8 * len col.2 + len (all_rows c2)) as El by (subst cols; rewrite all_rows_split, !len_app, len_rows_bytes; lia).
  assert (len (all_fences cols) = len (all_fences c1) + len (fence_block col.2) + len (all_fences c2)) as Ef by (subst cols; rewrite all_fences_split, !len_app; lia).
  pose proof (len_nonneg (all_rows c1)); pose proof (len_nonneg (all_rows c2)); pose proof (len_nonneg (all_fences c1)); pose proof (len_nonneg (all_fences c2)); pose proof (len_nonneg (fence_block col.2)); pose proof (len_nonneg col.2);
    pose proof (len_nonneg (concat (directory_rows cols))); pose proof (len_nonneg (concat (map u32_le covered))).
  unfold read_run_column; rewrite (slice_chunk _ post _ _ _ (directory_even cols) (directory_lookup c1 col c2)); fold cols; res_simpl.
  destruct (directory_entry_fields (building (len (all_rows c1)) col) (len (all_rows cols) + len (all_fences c1))) as (-> & -> & -> & -> & ->); res_simpl; cbn [building bg_column bg_rows bg_rows_at].
  rewrite le_val_u32 by (unfold is_u32, RUN_BLOCK_ROWS, U32; lia); rewrite !le_val_u64 by (unfold is_u64; lia); change (RUN_BLOCK_ROWS =? 0) with false; cbv iota; rewrite (proj2 (Z.leb_gt _ _)) by (unfold ROW_LEN, U64, U32 in *; lia).
  destruct (run_span_in (run_bytes cols covered) (len (all_rows c1)) (len col.2 * ROW_LEN)) as [s ->]; [lia | lia | unfold ROW_LEN; lia | unfold ROW_LEN; lia |]; res_simpl.
  pose proof (leads_keys col.2 (fun key => len key < U16) Hkeys 0) as Hlk; pose proof (last_key_short _ Hkeys) as Hlast; pose proof (len_nonneg (last_key col.2)).
  assert (Z.to_nat (div_ceil (len col.2) RUN_BLOCK_ROWS) = length (leads_from 0 col.2)) as -> by (pose proof (len_leads col.2 0 ltac:(done)) as E; rewrite Z.add_0_l in E; change (div_ceil 0 RUN_BLOCK_ROWS) with 0 in E; unfold len at 1 in E; lia).
  set (rest := all_fences c2 ++ concat (directory_rows cols) ++ concat (map u32_le covered) ++ run_trailer cols covered).
  assert (run_bytes cols covered = (all_rows cols ++ all_fences c1) ++ concat (map enc_fence (leads_from 0 col.2)) ++ u16_le (len (last_key col.2)) ++ last_key col.2 ++ rest) as Efile.
  { unfold run_bytes; subst rest cols; rewrite all_fences_split; unfold fence_block, fences, enc_fence at 2; by rewrite <- !app_assoc. }
  rewrite Efile in Hs |- *; rewrite <- len_app, read_fences_ok; [| done | done | by rewrite app_nil_l]; res_simpl; cbn [app]; rewrite (len_nil (A := byte)).
  rewrite (app_assoc (all_rows cols ++ all_fences c1)) in Hs |- *; rewrite <- (len_app (all_rows cols ++ all_fences c1)), (run_span_mid _ (u16_le (len (last_key col.2)))) by (done || by rewrite len_u16_le); res_simpl.
  rewrite le_val_u16 by (unfold is_u16; lia); rewrite (app_assoc (_ ++ concat (map enc_fence _))) in Hs |- *; rewrite (run_span_mid _ (last_key col.2) rest); [| done | by rewrite (len_app _ (u16_le _)), len_u16_le | done]; res_simpl.
  unfold column_of; rewrite u8_byte_of, Z.mod_small by (unfold is_u8, U8 in Hcol; lia); rewrite as_u32_small by (unfold is_u32; pose proof (len_nonneg (concat (leads_from 0 col.2))); lia); done.
Qed.

Lemma trailer_fields (a b c d : bytes) : len a = 8 -> len b = 4 -> len c = 4 -> len d = 4 -> let t := a ++ b ++ c ++ d in
  slice t 16 20 = Some d /\ slice t 0 8 = Some a /\ slice t 8 12 = Some b /\ slice t 12 16 = Some c.
Proof. intros Ha Hb Hc Hd t; subst t; split_and!; by slice_solve. Qed.

Lemma run_open_ok cols covered id : run_fits cols covered -> KeyRun_open (run_bytes cols covered) id = Ok (mkKeyRun id (run_bytes cols covered) (columns_of 0 cols) covered (len (run_bytes cols covered))).
Proof.
  intros Hr; pose proof (run_bytes_len cols covered Hr) as Hlen; pose proof Hr as [Hc _ Hn Hcv Hcn Hs]; set (file := run_bytes cols covered) in *; set (bytes_ := len file) in *.
  assert (len (concat (map u32_le covered)) = len covered * 4) as Elc by (rewrite (lens_concat _ 4); [by unfold len; rewrite length_map | apply Forall_forall; intros c (x & -> & _)%list_elem_of_fmap; apply len_u32_le]).
  pose proof (len_run_directory cols) as Eld; pose proof (len_nonneg (concat (directory_rows cols))); pose proof (len_nonneg (all_rows cols)); pose proof (len_nonneg (all_fences cols)); pose proof (len_nonneg cols); pose proof (len_nonneg covered).
  assert (bytes_ = len file) as Eb by done; clearbody bytes_; unfold KeyRun_open; rewrite <- Eb, (proj2 (Z.ltb_ge _ _)) by (unfold RUN_TRAILER, RUN_DIRECTORY_ROW in *; lia).
  assert (len (run_trailer cols covered) = 20) as Etl by (unfold run_trailer; rewrite !len_app, len_u64_le, !len_u32_le; done).
  set (before := all_rows cols ++ all_fences cols); set (directory := concat (directory_rows cols) ++ concat (map u32_le covered)).
  assert (file = before ++ directory ++ run_trailer cols covered) as Ef by (subst file before directory; unfold run_bytes; by rewrite <- !app_assoc).
  assert (len before = len (all_rows cols) + len (all_fences cols)) as Ebf by apply len_app; assert (len directory = len cols * RUN_DIRECTORY_ROW + len covered * 4) as Edl by (subst directory; rewrite len_app; lia).
  assert (run_span file (bytes_ - RUN_TRAILER) RUN_TRAILER = Ok (run_trailer cols covered)) as ->.
  { rewrite Ef, app_assoc; rewrite <- (app_nil_r (run_trailer cols covered)) at 1; apply run_span_mid; [rewrite app_nil_r, <- app_assoc, <- Ef; lia | rewrite len_app; unfold RUN_TRAILER; lia | by rewrite Etl]. }
  destruct (trailer_fields (u64_le (len before)) (u32_le (len cols)) (u32_le (len covered)) (u32_le RUN_MAGIC) (len_u64_le _) (len_u32_le _) (len_u32_le _) (len_u32_le _)) as (T1 & T2 & T3 & T4).
  change (run_trailer cols covered) with (u64_le (len before) ++ u32_le (len cols) ++ u32_le (len covered) ++ u32_le RUN_MAGIC); res_simpl; rewrite T1; res_simpl; rewrite le_val_u32 by (vm_compute; done); change (RUN_MAGIC =? RUN_MAGIC) with true; cbn [negb]; rewrite T2, T3, T4; res_simpl.
  rewrite le_val_u64 by (unfold is_u64; lia); rewrite !le_val_u32 by (unfold is_u32; lia); rewrite as_u64_small by (unfold is_u64, RUN_TRAILER; lia).
  rewrite (proj2 (Z.eqb_eq _ _)) by (unfold RUN_TRAILER; lia); cbn [negb]; rewrite Ef at 1; rewrite (run_span_mid before directory) by (rewrite <- ?Ef; lia); res_simpl.
  rewrite (mapm_lookup _ (seqZ 0 (len cols)) (columns_of 0 cols)); [res_simpl | rewrite length_columns, length_seqZ; unfold len; lia |].
  - rewrite (mapm_lookup _ (seqZ 0 (len covered)) covered); [done | rewrite length_seqZ; unfold len; lia |]; intros i x y [-> _]%lookup_seqZ Hy; rewrite Z.add_0_l; subst directory; rewrite <- (app_nil_r (concat (map u32_le covered))).
    rewrite slice_skip by lia; replace (len cols * RUN_DIRECTORY_ROW + Z.of_nat i * 4 - len (concat (directory_rows cols))) with (Z.of_nat i * 4) by lia.
    replace (len cols * RUN_DIRECTORY_ROW + Z.of_nat i * 4 + 4 - len (concat (directory_rows cols))) with ((Z.of_nat i + 1) * 4) by lia.
    rewrite (slice_chunk _ [] 4 i (u32_le y)); [res_simpl; rewrite Forall_forall in Hcv; rewrite le_val_u32; [done | apply Hcv; by eapply list_elem_of_lookup_2] | apply Forall_forall; intros c (x & -> & _)%list_elem_of_fmap; apply len_u32_le |].
    change (map u32_le covered) with (u32_le <$> covered); by rewrite list_lookup_fmap, Hy.
  - intros i x y [-> _]%lookup_seqZ Hy; rewrite Z.add_0_l; assert (i < length cols)%nat as Hi by (rewrite <- (length_columns cols 0); by eapply lookup_lt_Some).
    destruct (lookup_lt_is_Some_2 cols i Hi) as [col Ecol]; apply list_elem_of_split_length in Ecol as (c1 & c2 & Ecols & Ei); subst i; rewrite Ecols, columns_lookup in Hy; injection Hy as <-; subst file directory; rewrite Ecols in Hr |- *; by apply read_column_ok.
Qed.

(** ** Reading an open run *)

Record column_holds (r : KeyRun) (rc : RunColumn) (col : ColumnId * RunRows) : Prop := {
  ch_column : rc_column rc = col.1;
  ch_rows : rc_rows rc = len col.2;
  ch_block_rows : rc_block_rows rc = RUN_BLOCK_ROWS;
  ch_fewer : len col.2 < U32;
  ch_pointer (i : nat) key p : col.2 !! i = Some (key, p) -> KeyRun_pointer r rc (Z.of_nat i) = Ok p;
  ch_lead (i : nat) key p : col.2 !! i = Some (key, p) -> Z.of_nat i mod RUN_BLOCK_ROWS = 0 -> RunColumn_lead rc (Z.of_nat i / RUN_BLOCK_ROWS) = Ok key;
  ch_last : rc_last rc = last_key col.2;
  ch_sorted : StronglySorted bytes_lt (map fst col.2);
}.

Definition run_holds (r : KeyRun) cols (covered : list SegmentId) : Prop := Forall2 (column_holds r) (kr_columns r) cols /\ kr_covered r = covered.

Lemma written_column_holds c1 col c2 covered id : let cols := c1 ++ col :: c2 in run_fits cols covered ->
  column_holds (mkKeyRun id (run_bytes cols covered) (columns_of 0 cols) covered (len (run_bytes cols covered))) (column_of (len (all_rows c1)) col) col.
Proof.
  intros cols [Hc _ _ _ _ Hs]; assert (col_ok col) as [Hcol Hsort Hkeys Hpt Hleads Hrows] by (rewrite Forall_forall in Hc; apply Hc; subst cols; set_solver); split; try done.
  - intros i key p Hi; unfold KeyRun_pointer; cbn [column_of rc_rows_at kr_file]; rewrite Forall_forall in Hpt; destruct (Hpt (key, p)) as [H1 H2]; [by eapply list_elem_of_lookup_2|]; cbn [snd] in *.
    assert (slice (run_bytes cols covered) (len (all_rows c1) + Z.of_nat i * ROW_LEN) (len (all_rows c1) + Z.of_nat i * ROW_LEN + ROW_LEN) = Some (enc_pointer p)) as ->.
    { unfold run_bytes; subst cols; rewrite all_rows_split, <- !app_assoc; replace (len (all_rows c1) + Z.of_nat i * ROW_LEN + ROW_LEN) with (len (all_rows c1) + (Z.of_nat i + 1) * ROW_LEN) by (unfold ROW_LEN; lia).
      rewrite slice_app_r by (unfold ROW_LEN; lia); apply slice_chunk; [apply Forall_forall; intros c (x & -> & _)%list_elem_of_fmap; apply len_enc_pointer |].
      change (map (fun x => enc_pointer x.2) col.2) with ((fun x => enc_pointer x.2) <$> col.2); by rewrite list_lookup_fmap, Hi. }
    res_simpl; unfold enc_pointer; pose proof (len_u32_le (rp_covered p)); pose proof (len_u32_le (rp_row p)); slice_solve; res_simpl; slice_solve; res_simpl; rewrite !le_val_u32 by done; by destruct p.
  - intros i key p Hi Hm; unfold RunColumn_lead; cbn [column_of rc_fence_at rc_fences]; set (leads := leads_from 0 col.2).
    pose proof (get_leads col.2 0 i (key, p) ltac:(done) Hi) as Hg; rewrite Z.add_0_l in Hg; specialize (Hg Hm); change (div_ceil 0 RUN_BLOCK_ROWS) with 0 in Hg; rewrite Z.sub_0_r in Hg; cbn [fst] in Hg; fold leads in Hg.
    assert (0 <= Z.of_nat i / RUN_BLOCK_ROWS) as Hq by (apply Z.div_pos; [lia | done]); rewrite <- (Z2Nat.id (Z.of_nat i / RUN_BLOCK_ROWS)) in Hg |- * by done; rewrite get_lookup in Hg.
    pose proof (lead_slice leads _ _ 0 Hg) as [E1 E2]; rewrite !Z.add_0_l in E1, E2; rewrite E1, E2; res_simpl.
    apply list_elem_of_split_length in Hg as (l1 & l2 & -> & ->); rewrite take_app_length, concat_app; cbn [concat]; by rewrite slice_mid.
Qed.

Lemma written_run_holds cols covered id : run_fits cols covered -> run_holds (mkKeyRun id (run_bytes cols covered) (columns_of 0 cols) covered (len (run_bytes cols covered))) cols covered.
Proof.
  intros Hr; split; [| done]; cbn [kr_columns]; apply Forall2_same_length_lookup_2; [apply length_columns|]; intros i rc col Hrc Hcol; apply list_elem_of_split_length in Hcol as (c1 & c2 & -> & ->).
  rewrite columns_lookup in Hrc; injection Hrc as <-; by apply written_column_holds.
Qed.
