(* ===== verification/KeyRunSeek.v ===== *)
(** * Seeking in a key run ([index/keyrun.rs])

    A seek finds a block by its fences and searches it through the footers, stepping over rows whose
    segments are gone. It lands where the readable rows before the sought key end.
    And a whole run written, finished or abandoned: what is left on disk whichever call fails. *)
From S2P Require Import Prelude Error Bytes Lsn Column Record FooterRow KeyRun KeyRunFile.

Section seek.
Variables (read : RowReader) (r : KeyRun) (rc : RunColumn) (col : ColumnId * RunRows) (key : bytes) (is_past : bool).

Abbreviation rows := (col.2).

Hypothesis Hcol : column_holds r rc col.

(** The reader answers a row's own key, or skips it. *)
Hypothesis reads : forall k p, (k, p) ∈ rows -> read p = Ok None \/ exists row, read p = Ok (Some (k, row)).

(** Whether a key lies before the bound sought. *)
Definition before (k : bytes) : bool := if is_past then bytes_leb k key else bytes_ltb k key.

Lemma before_down j k : bytes_lt j k -> before k = true -> before j = true.
Proof.
  intros Hlt; unfold before; destruct is_past; rewrite ?bytes_leb_le, ?bytes_ltb_lt; intros H; [by apply bytes_lt_le, (bytes_lt_le_trans _ k) | by apply (bytes_lt_trans _ k)].
Qed.

Lemma before_lt k : bytes_lt k key -> before k = true.
Proof. intros H; unfold before; destruct is_past; [by apply bytes_leb_le, bytes_lt_le | by apply bytes_ltb_lt]. Qed.

Lemma before_gt k : bytes_lt key k -> before k = false.
Proof. intros H; unfold before; destruct is_past; [by apply bytes_leb_gt | by apply bytes_ltb_ge, bytes_lt_le]. Qed.

Lemma row_in i : 0 <= i < len rows -> exists k p, get rows i = Some (k, p) /\ KeyRun_pointer r rc i = Ok p /\ (k, p) ∈ rows.
Proof.
  intros Hi; destruct (get_is_Some rows i Hi) as [[k p] E]; exists k, p; rewrite <- (Z2Nat.id i) in E |- * by lia; rewrite get_lookup in E; split_and!; [by rewrite get_lookup | by eapply ch_pointer | by eapply list_elem_of_lookup_2].
Qed.

Lemma rows_lt i j k p k' p' : get rows i = Some (k, p) -> get rows j = Some (k', p') -> i < j -> bytes_lt k k'.
Proof.
  intros Ei Ej Hlt; pose proof (get_bounds _ _ _ Ei); pose proof (get_bounds _ _ _ Ej); rewrite <- (Z2Nat.id i) in Ei by lia; rewrite <- (Z2Nat.id j) in Ej by lia; rewrite get_lookup in Ei, Ej.
  eapply (StronglySorted_lookup bytes_lt (map fst rows) (Z.to_nat i) (Z.to_nat j)); [apply Hcol | lia | |]; change (map fst rows) with (fst <$> rows); rewrite list_lookup_fmap, ?Ei, ?Ej; done.
Qed.

(** ** Blocks *)

Lemma blocks_eq : RunColumn_blocks rc = div_ceil (len rows) RUN_BLOCK_ROWS.
Proof.
  unfold RunColumn_blocks; rewrite (ch_rows _ _ _ Hcol), (ch_block_rows _ _ _ Hcol); pose proof (ch_fewer _ _ _ Hcol); pose proof (len_nonneg rows); apply as_u32_small; unfold is_u32, div_ceil, RUN_BLOCK_ROWS in *; Z.to_euclidean_division_equations; lia.
Qed.

Lemma block_first b : 0 <= b < RunColumn_blocks rc -> 0 <= b * RUN_BLOCK_ROWS < len rows.
Proof. rewrite blocks_eq; unfold div_ceil, RUN_BLOCK_ROWS; intros Hb; Z.to_euclidean_division_equations; lia. Qed.

Lemma lead_in b : 0 <= b < RunColumn_blocks rc -> exists k p, get rows (b * RUN_BLOCK_ROWS) = Some (k, p) /\ RunColumn_lead rc b = Ok k.
Proof.
  intros Hb; pose proof (block_first b Hb) as Hf; destruct (row_in _ Hf) as (k & p & E & _ & _); exists k, p; split; [done|]; rewrite <- (Z2Nat.id (b * RUN_BLOCK_ROWS)) in E by lia; rewrite get_lookup in E.
  pose proof (ch_lead _ _ _ Hcol _ _ _ E) as Hl; rewrite Z2Nat.id in Hl by lia; rewrite Z.div_mul in Hl by done; apply Hl, Z.mod_mul; done.
Qed.

(** Where the leads at or before the key end. *)
Definition leads_split (low : Z) : Prop :=
  (forall b k p, 0 <= b < low -> get rows (b * RUN_BLOCK_ROWS) = Some (k, p) -> bytes_le k key) /\ (forall b k p, low <= b -> get rows (b * RUN_BLOCK_ROWS) = Some (k, p) -> bytes_lt key k).

Lemma block_loop_ok fuel : forall low high, 0 <= low <= high -> high <= RunColumn_blocks rc -> (Z.to_nat (high - low) < fuel)%nat ->
  (forall b k p, 0 <= b < low -> get rows (b * RUN_BLOCK_ROWS) = Some (k, p) -> bytes_le k key) -> (forall b k p, high <= b -> get rows (b * RUN_BLOCK_ROWS) = Some (k, p) -> bytes_lt key k) ->
  exists at_, block_loop fuel rc key low high = Ok at_ /\ 0 <= at_ <= RunColumn_blocks rc /\ leads_split at_.
Proof.
  induction fuel as [|fuel IH]; intros low high Hl Hh Hf Hb Ha; [lia|]; cbn [block_loop]; destruct (Z.ltb_spec low high) as [Hlt|]; [| exists low; split_and!; [done | lia | lia | split; [done | intros b k p ?; apply Ha; lia]]].
  set (mid := (low + high) / 2); assert (low <= mid < high) as Hm by (subst mid; Z.to_euclidean_division_equations; lia); destruct (lead_in mid ltac:(lia)) as (k & p & Ek & ->); res_simpl; destruct (bytes_leb k key) eqn:Ec.
  - apply IH; [lia | lia | lia | | done]; intros b k' p' Hb' E'; destruct (Z.eq_dec b mid) as [->|]; [rewrite Ek in E'; injection E' as <- <-; by apply bytes_leb_le|]; apply bytes_leb_le in Ec.
    apply bytes_lt_le, (bytes_lt_le_trans _ k); [apply (rows_lt _ _ _ _ _ _ E' Ek); unfold RUN_BLOCK_ROWS; lia | done].
  - apply IH; [lia | lia | lia | done |]; intros b k' p' Hb' E'; apply bytes_leb_gt in Ec; destruct (Z.eq_dec b mid) as [->|]; [by rewrite Ek in E'; injection E' as <- <-|].
    apply (bytes_lt_trans _ k); [done | apply (rows_lt _ _ _ _ _ _ Ek E'); unfold RUN_BLOCK_ROWS; lia].
Qed.

(** ** The search of a block *)

Definition readable (i : Z) (k : bytes) : Prop := exists p row, get rows i = Some (k, p) /\ read p = Ok (Some (k, row)).

Lemma probe_loop_ok fuel high : forall probe, 0 <= probe -> high <= len rows -> (Z.to_nat (high - probe) < fuel)%nat ->
  exists at_ found, probe_loop read fuel r rc key is_past probe high = Ok (at_, found) /\ probe <= at_
    /\ (forall i k, probe <= i < at_ -> ~ readable i k)
    /\ match found with Some side => at_ < high /\ exists k, readable at_ k /\ before k = side | None => high <= at_ end.
Proof.
  induction fuel as [|fuel IH]; intros probe Hp Hh Hf; [lia|]; cbn [probe_loop]; destruct (Z.ltb_spec probe high) as [Hlt|]; [| exists probe, None; split_and!; [done | lia | intros; lia | lia]].
  destruct (row_in probe ltac:(lia)) as (k & p & E & -> & Hin); res_simpl; destruct (reads k p Hin) as [Er0|(row & Er0)]; rewrite Er0; res_simpl.
  - destruct (IH (probe + 1) ltac:(lia) Hh ltac:(lia)) as (at_ & found & E' & Hge & Hno & Hfound); exists at_, found; split_and!; [done | lia | | done].
    intros i k' Hi (p' & row & Ei & Er); destruct (Z.eq_dec i probe) as [->|]; [| apply (Hno i k' ltac:(lia)); by exists p', row]; rewrite E in Ei; injection Ei as <- <-; congruence.
  - exists probe, (Some (before k)); split_and!; [done | lia | intros; lia | done |]; exists k; split; [by exists p, row | done].
Qed.

Definition split_at (at_ : Z) : Prop := forall i k, readable i k -> (i < at_ -> before k = true) /\ (at_ <= i -> before k = false).

Lemma readable_lt i j k k' : readable i k -> readable j k' -> i < j -> bytes_lt k k'.
Proof. intros (p & ? & Ei & _) (p' & ? & Ej & _); by eapply rows_lt. Qed.

Lemma seek_loop_ok fuel : forall low high, 0 <= low <= high -> high <= len rows -> (Z.to_nat (high - low) < fuel)%nat ->
  (forall i k, readable i k -> i < low -> before k = true) -> (forall i k, readable i k -> high <= i -> before k = false) ->
  exists at_, seek_loop read fuel r rc key is_past low high = Ok at_ /\ low <= at_ <= high /\ split_at at_.
Proof.
  induction fuel as [|fuel IH]; intros low high Hl Hh Hf Hb Ha; [lia|]; cbn [seek_loop]; destruct (Z.ltb_spec low high) as [Hlt|]; [| exists low; split_and!; [done | lia | lia | intros i k Hi; split; [by apply Hb | intros; apply (Ha i); [done | lia]]]].
  set (mid := (low + high) / 2); assert (low <= mid < high) as Hm by (subst mid; Z.to_euclidean_division_equations; lia).
  destruct (probe_loop_ok (S (Z.to_nat (high - mid))) high mid ltac:(lia) Hh ltac:(lia)) as (probe & found & -> & Hge & Hno & Hfound); res_simpl.
  assert (forall high', high' = mid -> (forall i k, readable i k -> mid <= i -> before k = false) -> exists at_, seek_loop read fuel r rc key is_past low high' = Ok at_ /\ low <= at_ <= high /\ split_at at_) as Hdown.
  { intros high' -> Hm'; destruct (IH low mid ltac:(lia) ltac:(lia) ltac:(lia) Hb Hm') as (at_ & E & Hr & Hs); exists at_; split_and!; [done | lia | lia | done]. }
  destruct found as [[|]|].
  - destruct Hfound as (Hph & k & Hk & Ek); destruct (IH (probe + 1) high ltac:(lia) Hh ltac:(lia)) as (at_ & E & Hr & Hs); [| done | exists at_; split_and!; [done | lia | lia | done]].
    intros i k' Hi Hlt'; destruct (Z.eq_dec i probe) as [->|]; [destruct Hi as (? & ? & E1 & _), Hk as (? & ? & E2 & _); rewrite E1 in E2; injection E2 as -> _; done|]; eapply before_down; [| exact Ek]; apply (readable_lt i probe); [done | done | lia].
  - apply Hdown; [done|]; destruct Hfound as (Hph & k & Hk & Ek); intros i k' Hi Hmi; destruct (Z.lt_trichotomy i probe) as [Hlo|[->|Hhi]].
    + exfalso; by apply (Hno i k' ltac:(lia)).
    + destruct Hi as (? & ? & E1 & _), Hk as (? & ? & E2 & _); rewrite E1 in E2; by injection E2 as -> _.
    + destruct (before k') eqn:E'; [| done]; rewrite (before_down k k' (readable_lt _ _ _ _ Hk Hi Hhi) E') in Ek; done.
  - apply Hdown; [done|]; intros i k' Hi Hmi; destruct (Z.lt_ge_cases i probe); [exfalso; by apply (Hno i k' ltac:(lia)) | apply (Ha i); [done | lia]].
Qed.

Lemma seek_ok : exists at_, KeyRun_seek read r rc key is_past = Ok at_ /\ 0 <= at_ <= len rows /\ split_at at_.
Proof.
  unfold KeyRun_seek; rewrite (ch_rows _ _ _ Hcol); pose proof (len_nonneg rows) as Hn; destruct (Z.eqb_spec (len rows) 0) as [E0|Hne].
  { exists 0; split_and!; [done | lia | lia |]; intros i k (p & row & Ei & _); apply get_bounds in Ei; lia. }
  unfold RunColumn_block_for; pose proof blocks_eq as Eb; assert (0 < RunColumn_blocks rc) as Hpos by (rewrite Eb; unfold div_ceil, RUN_BLOCK_ROWS; Z.to_euclidean_division_equations; lia).
  destruct (block_loop_ok (S (Z.to_nat (RunColumn_blocks rc))) 0 (RunColumn_blocks rc) ltac:(lia) ltac:(lia) ltac:(lia)) as (low & -> & Hlow & Hle & Hgt); [intros; lia | |].
  { intros b k p Hb E; apply get_bounds in E; rewrite Eb in Hb; unfold div_ceil, RUN_BLOCK_ROWS in *; Z.to_euclidean_division_equations; lia. }
  res_simpl; set (block := saturating_sub low 1); assert (block = Z.max 0 (low - 1)) as Ebl by done; assert (0 <= block < RunColumn_blocks rc) as Hbl by lia; pose proof (block_first block Hbl) as Hf.
  unfold RunColumn_block_span; rewrite (ch_rows _ _ _ Hcol), (ch_block_rows _ _ _ Hcol); set (first := block * RUN_BLOCK_ROWS) in *; set (count := as_u32 (Z.min (len rows - first) RUN_BLOCK_ROWS)).
  assert (count = Z.min (len rows - first) RUN_BLOCK_ROWS) as Ec by (apply as_u32_small; unfold is_u32, U32, RUN_BLOCK_ROWS in *; lia).
  destruct (lead_in block Hbl) as (lead & lp & Elead & _); fold first in Elead.
  destruct (seek_loop_ok (S (Z.to_nat count)) first (first + count)) as (at_ & E & Hr & Hs); [unfold RUN_BLOCK_ROWS in *; lia | lia | lia | | | exists at_; split_and!; [done | lia | lia | done]].
  - intros i k (p & row & Ei & _) Hi; apply before_lt; pose proof (get_bounds _ _ _ Ei); assert (0 < low) as Hl0 by (unfold RUN_BLOCK_ROWS in *; lia).
    apply (bytes_lt_le_trans _ lead); [by apply (rows_lt _ _ _ _ _ _ Ei Elead) | apply (Hle block lead lp); [lia | done]].
  - intros i k (p & row & Ei & _) Hi; apply before_gt; pose proof (get_bounds _ _ _ Ei) as Hib.
    assert (exists b k' p', low <= b /\ get rows (b * RUN_BLOCK_ROWS) = Some (k', p') /\ b * RUN_BLOCK_ROWS <= i) as (b & k' & p' & Hb & Eb' & Hbi).
    { destruct (Z.eq_dec low 0) as [->|Hl0]; [exists 0 | exists low]; [destruct (row_in 0 ltac:(lia)) as (k' & p' & E' & _) | destruct (row_in (low * RUN_BLOCK_ROWS)) as (k' & p' & E' & _); [unfold RUN_BLOCK_ROWS in *; lia|]]; exists k', p'; split_and!; try done; unfold RUN_BLOCK_ROWS in *; lia. }
    pose proof (Hgt b k' p' Hb Eb') as Hk; destruct (Z.eq_dec (b * RUN_BLOCK_ROWS) i) as [E|]; [rewrite E, Ei in Eb'; by injection Eb' as <- _ | apply (bytes_lt_trans _ k'); [done | apply (rows_lt _ _ _ _ _ _ Eb' Ei); lia]].
Qed.
End seek.

(** ** Opening any bytes at all *)

Lemma run_span_refuses (file : bytes) at_ n : 0 <= at_ -> 0 <= n -> refuses_or (fun s => slice file at_ (at_ + n) = Some s /\ at_ + n <= len file) (run_span file at_ n).
Proof.
  intros Ha Hn; unfold run_span; destruct (_ && _) eqn:E; [| done]; apply andb_true_iff in E as [_ E%Z.leb_le]; destruct (slice_is_Some file at_ (at_ + n)) as [s Es]; [lia | lia |]; rewrite Es; by cbn.
Qed.

Lemma read_fences_refuses (file : bytes) blocks : forall at_ (fs : bytes) fat, 0 <= at_ ->
  refuses_or (fun '(fs', fat', at_') => exists keys, length keys = blocks /\ fs' = fs ++ concat keys /\ at_ + len (concat keys) <= at_' /\ (len fs' < U32 -> fat' = fat ++ lead_ats (len fs) keys))
    (read_fences blocks file at_ fs fat).
Proof.
  induction blocks as [|blocks IH]; intros at_ fs fat Ha; cbn [read_fences].
  { exists []; cbn [concat lead_ats]; rewrite !app_nil_r, (len_nil (A := byte)); split_and!; [done | done | lia | done]. }
  eapply refuses_or_bind; [apply (run_span_refuses file at_ 2); lia|]; intros width _ [Hw _]; pose proof (le_val_range width) as Hr.
  eapply refuses_or_bind; [apply (run_span_refuses file (at_ + 2) (le_val width)); lia|]; intros fence _ [Hf He]; pose proof (slice_bounds _ _ _ _ Hf) as Hfb.
  eapply refuses_or_mono; [apply (IH (at_ + (2 + le_val width)) (fs ++ fence) (fat ++ [as_u32 (len fs)])); lia|]; intros [[fs' fat'] at_'] (keys & El & -> & Hat & Hfat); exists (fence :: keys); cbn [length concat lead_ats]; rewrite app_assoc, len_app.
  pose proof (len_nonneg (concat keys)); pose proof (len_nonneg fs); pose proof (len_nonneg fence); split_and!; [by rewrite El | done | lia |].
  intros Hl; rewrite (Hfat Hl), <- app_assoc, len_app; cbn [app]; rewrite !len_app in Hl; by rewrite as_u32_small by (unfold is_u32; lia).
Qed.

(** A column of an open run: its rows lie in the file, and its fences name their keys. *)
Definition column_reads (file : bytes) (rc : RunColumn) : Prop :=
  0 <= rc_rows rc /\ (forall r, kr_file r = file -> forall i, 0 <= i < rc_rows rc -> exists p, KeyRun_pointer r rc i = Ok p)
  /\ (len file < U32 -> forall b, 0 <= b < RunColumn_blocks rc -> exists key, RunColumn_lead rc b = Ok key).

Lemma pointer_reads (file : bytes) rc : 0 <= rc_rows_at rc -> rc_rows_at rc + rc_rows rc * ROW_LEN <= len file -> forall r, kr_file r = file -> forall i, 0 <= i < rc_rows rc -> exists p, KeyRun_pointer r rc i = Ok p.
Proof.
  intros Ha He r <- i Hi; unfold KeyRun_pointer, ROW_LEN in *; destruct (slice_is_Some (kr_file r) (rc_rows_at rc + i * (4 + 4)) (rc_rows_at rc + i * (4 + 4) + (4 + 4))) as [row E]; [lia | lia |]; rewrite E; res_simpl; apply slice_bounds in E as (_ & El & _).
  destruct (slice_is_Some row 0 4) as [a ->]; [lia | lia |]; destruct (slice_is_Some row 4 8) as [b ->]; [lia | lia |]; res_simpl; eauto.
Qed.

Lemma lead_reads rc (keys : list bytes) : rc_fences rc = concat keys -> rc_fence_at rc = lead_ats 0 keys ++ [len (concat keys)] -> RunColumn_blocks rc <= len keys -> forall b, 0 <= b < RunColumn_blocks rc -> exists key, RunColumn_lead rc b = Ok key.
Proof.
  intros Ef Ea Hb b Hb'; destruct (lookup_lt_is_Some_2 keys (Z.to_nat b)) as [key Ek]; [unfold len in Hb; lia|]; destruct (lead_slice keys _ _ 0 Ek) as [E1 E2]; rewrite Z2Nat.id, !Z.add_0_l in E1, E2 by lia; exists key.
  unfold RunColumn_lead; rewrite Ef, Ea, E1, E2; res_simpl; apply list_elem_of_split_length in Ek as (l1 & l2 & -> & El); rewrite El, take_app_length, concat_app; cbn [concat]; by rewrite slice_mid.
Qed.

Lemma must_slice_refuses (l : bytes) a b (P : bytes -> Prop) : 0 <= a <= b -> b <= len l -> (forall s, len s = b - a -> P s) -> refuses_or P (must (slice l a b)).
Proof. intros Ha Hb HP; destruct (slice_is_Some l a b) as [s E]; [lia | lia |]; rewrite E; apply HP; apply slice_bounds in E; lia. Qed.

Lemma read_column_refuses (file directory : bytes) i : 0 <= i -> (i + 1) * RUN_DIRECTORY_ROW <= len directory -> refuses_or (column_reads file) (read_run_column file directory i).
Proof.
  intros Hi Hd; unfold read_run_column; eapply refuses_or_bind; [apply (must_slice_refuses _ _ _ (fun s => len s = RUN_DIRECTORY_ROW)); unfold RUN_DIRECTORY_ROW in *; lia|]; intros row _ Hrow; cbv beta in Hrow; change RUN_DIRECTORY_ROW with 29 in Hrow.
  eapply refuses_or_bind; [apply (must_slice_refuses _ _ _ (fun s => len s = 4)); lia|]; intros br _ Hbr; eapply refuses_or_bind; [apply (must_slice_refuses _ _ _ (fun s => len s = 8)); lia|]; intros rows _ Hrows.
  eapply refuses_or_bind; [apply (must_slice_refuses _ _ _ (fun s => len s = 8)); lia|]; intros rat _ Hrat; eapply refuses_or_bind; [apply (must_slice_refuses _ _ _ (fun s => len s = 8)); lia|]; intros fat _ Hfat.
  pose proof (le_val_range br); pose proof (le_val_range rows); pose proof (le_val_range rat); pose proof (le_val_range fat); destruct (Z.eqb_spec (le_val br) 0); [done|]; destruct (Z.leb_spec U64 (le_val rows * ROW_LEN)); [done|].
  eapply refuses_or_bind; [apply (run_span_refuses file (le_val rat) (le_val rows * ROW_LEN)); unfold ROW_LEN; lia|]; intros _ _ [_ Hin].
  eapply refuses_or_bind; [apply (read_fences_refuses file (Z.to_nat (div_ceil (le_val rows) (le_val br))) (le_val fat) [] []); lia|]; intros [[fs' fat'] at_'] _ (keys & El & -> & Hat & Hkeys); pose proof (len_nonneg (concat keys)).
  eapply refuses_or_bind; [apply (run_span_refuses file at_' 2); lia|]; intros width _ [Hw Hin']; pose proof (le_val_range width); eapply refuses_or_bind; [apply (run_span_refuses file (at_' + 2) (le_val width)); lia|]; intros last _ _.
  destruct (get_is_Some row 0 ltac:(lia)) as [c ->]; res_simpl; split; [cbn [rc_rows]; lia|]; split; [apply pointer_reads; cbn [rc_rows_at rc_rows]; lia|].
  intros Hf; rewrite app_nil_l in *; specialize (Hkeys ltac:(lia)); rewrite (len_nil (A := byte)) in Hkeys; apply (lead_reads _ keys); cbn [rc_fences rc_fence_at]; [done | rewrite Hkeys; cbn [app]; by rewrite as_u32_small by (unfold is_u32; lia)|].
  unfold RunColumn_blocks; cbn [rc_rows rc_block_rows]; assert (0 <= div_ceil (le_val rows) (le_val br)) by (unfold div_ceil; apply Z.div_pos; lia); unfold len; rewrite El, Z2Nat.id by done; unfold as_u32; apply Z.mod_le; [done | done].
Qed.

Lemma refuses_or_mapm {A B} (f : A -> res B) (P : B -> Prop) l : (forall x, x ∈ l -> refuses_or P (f x)) -> refuses_or (Forall P) (mapm f l).
Proof.
  induction l as [|x l IH]; intros Hf; cbn [mapm]; [constructor|]; eapply refuses_or_bind; [apply Hf; set_solver|]; intros y _ Hy; eapply refuses_or_bind; [apply IH; intros; apply Hf; set_solver|]; intros ys _ Hys; by constructor.
Qed.

Lemma open_refuses (file : bytes) id : refuses_or (fun r => kr_file r = file /\ Forall (column_reads file) (kr_columns r)) (KeyRun_open file id).
Proof.
  unfold KeyRun_open; destruct (Z.ltb_spec (len file) RUN_TRAILER) as [|Hl]; [done|]; change RUN_TRAILER with 20 in *; eapply refuses_or_bind; [apply (run_span_refuses file (len file - 20) 20); lia|]; intros trailer _ [Ht _]; apply slice_bounds in Ht as (_ & Ht & _).
  eapply refuses_or_bind; [apply (must_slice_refuses _ _ _ (fun s => len s = 4)); lia|]; intros magic _ _; destruct (negb _); [done|]; eapply refuses_or_bind; [apply (must_slice_refuses _ _ _ (fun s => len s = 8)); lia|]; intros dat _ Hdat.
  eapply refuses_or_bind; [apply (must_slice_refuses _ _ _ (fun s => len s = 4)); lia|]; intros cc _ _; eapply refuses_or_bind; [apply (must_slice_refuses _ _ _ (fun s => len s = 4)); lia|]; intros vc _ _; destruct (negb _); [done|].
  pose proof (le_val_range dat); pose proof (le_val_range cc); pose proof (le_val_range vc); eapply refuses_or_bind; [apply (run_span_refuses file (le_val dat)); unfold RUN_DIRECTORY_ROW; lia|]; intros directory _ [Hd _]; apply slice_bounds in Hd as (_ & Hd & _).
  eapply refuses_or_bind; [apply (refuses_or_mapm _ (column_reads file)); intros x Hx%elem_of_seqZ; apply read_column_refuses; [lia | unfold RUN_DIRECTORY_ROW in *; lia]|]; intros columns _ Hc.
  eapply refuses_or_bind; [apply (refuses_or_mapm _ (fun _ => True)); intros x Hx%elem_of_seqZ|intros covered _ _; done].
  eapply refuses_or_bind; [apply (must_slice_refuses _ _ _ (fun _ => True)); [unfold RUN_DIRECTORY_ROW in *; lia | unfold RUN_DIRECTORY_ROW in *; lia | done] | done].
Qed.

(** ** Names *)

Lemma parse_digits_app (s s' : bytes) : forall n m, parse_digits s n = Some m -> parse_digits (s ++ s') n = parse_digits s' m.
Proof. induction s as [|c s IH]; intros n m; cbn [parse_digits app]; [by intros [= ->]|]; destruct (_ && _); [| done]; destruct (_ <? U64); [apply IH | done]. Qed.

Lemma digits_parse fuel : forall n, 0 <= n < U64 -> n < 10 ^ Z.of_nat fuel -> (0 < fuel)%nat -> parse_digits (digits_of fuel n) 0 = Some n.
Proof.
  induction fuel as [|fuel IH]; intros n Hn Hp Hf; [lia|]; cbn [digits_of]; rewrite Nat2Z.inj_succ, Z.pow_succ_r in Hp by lia; pose proof (Z.mod_pos_bound n 10 ltac:(done)) as Hm; pose proof (Z.div_mod n 10 ltac:(done)) as Hd.
  assert (forall m, m * 10 + n mod 10 = n -> parse_digits [byte_of (48 + n mod 10)] m = Some n) as Hlast.
  { intros m Em; cbn [parse_digits]; rewrite u8_byte_of, Z.mod_small by lia; rewrite (proj2 (Z.leb_le _ _)), (proj2 (Z.leb_le _ _)) by lia; cbn [andb]; replace (m * 10 + (48 + n mod 10 - 48)) with n by lia; by rewrite (proj2 (Z.ltb_lt _ _)) by lia. }
  destruct (Z.eqb_spec (n / 10) 0) as [E|Hne]; [apply Hlast; lia|]; rewrite (parse_digits_app _ _ 0 (n / 10)); [apply Hlast; lia|].
  apply IH; [Z.to_euclidean_division_equations; lia | apply Z.div_lt_upper_bound; lia |]; destruct fuel; [| lia]; exfalso; apply Hne; apply Z.div_small; lia.
Qed.

Lemma zeros_parse k (s : bytes) : parse_digits (replicate k (byte_of 48) ++ s) 0 = parse_digits s 0.
Proof. induction k as [|k IH]; [done|]; cbn [replicate app parse_digits]; exact IH. Qed.

(** The name of a run gives its id back. *)
Lemma key_run_name_id id : is_u64 id -> key_run_id (key_run_name id) = Some id.
Proof.
  intros Hid; unfold key_run_name, key_run_id, strip_suffix; rewrite app_assoc; set (stem := replicate _ _ ++ decimal id).
  assert (parse_digits stem 0 = Some id) as Hp by (subst stem; rewrite zeros_parse; apply digits_parse; [done | unfold is_u64, U64 in Hid; lia | lia]).
  rewrite length_app; replace (length stem + length KEY_RUN_SUFFIX - length KEY_RUN_SUFFIX)%nat with (length stem) by lia; rewrite drop_app_length, take_app_length, (proj2 (Nat.leb_le _ _)), (proj2 (bytes_eqb_eq _ _)) by (done || lia); cbn [andb mbind option_bind].
  assert (0 < length (decimal id))%nat as Hlen by (unfold decimal; cbn [digits_of]; rewrite length_app; cbn; lia).
  destruct stem as [|c rest] eqn:Es; [exfalso; apply (f_equal length) in Es; unfold stem in Es; rewrite length_app in Es; change (length (@nil byte)) with 0%nat in Es; lia|].
  assert ((u8 c =? 43) = false) as Hc by (cbn [parse_digits] in Hp; destruct ((48 <=? u8 c) && (u8 c <=? 57)) eqn:E; [| done]; apply andb_true_iff in E as [E%Z.leb_le _]; apply Z.eqb_neq; lia).
  unfold parse_u64; destruct rest; by rewrite Hc.
Qed.

(** ** What a run promises *)

(** What a run that failed leaves behind: nothing while the driver can unlink, and where it cannot, a
    temporary file or the whole run. *)
Definition failed_files (breaks : FinishCall -> option io_kind) cols covered id (files : RunFiles) : Prop :=
  (breaks CallUnlink = None -> files = mkRunFiles false None)
  /\ (forall file, rf_named files = Some file -> rf_temp files = false /\ exists r, KeyRun_open file id = Ok r /\ run_holds r cols covered).

Lemma unlinked_files breaks cols covered id : failed_files breaks cols covered id (mkRunFiles (unlink_fails breaks) None).
Proof. split; [unfold unlink_fails; by intros -> | done]. Qed.

(** Whether the device failed a write or a call with this error. *)
Definition device_failed (fails : Z -> option io_kind) (breaks : FinishCall -> option io_kind) (kind : io_kind) : Prop :=
  (exists at_, fails at_ = Some kind) \/ exists call, call <> CallUnlink /\ breaks call = Some kind.

(** A finish ends in the device's own error, its files unlinked, or in a file that opens as what was
    written. *)
Lemma finish_ok fails breaks w cols covered id : run_fits cols covered -> writer_ok w cols ->
  (exists files kind, RunWriter_finish fails breaks w covered = (files, Err (Io kind)) /\ device_failed fails breaks kind /\ failed_files breaks cols covered id files)
  \/ exists file r, RunWriter_finish fails breaks w covered = (mkRunFiles false (Some file), Ok tt) /\ KeyRun_open file id = Ok r /\ run_holds r cols covered.
Proof.
  intros Hr Hw; pose proof (write_tail_ok fails w cols covered Hr Hw) as Ht; unfold RunWriter_finish; destruct (RunWriter_write_tail fails w covered) as [w'|e|]; [| destruct Ht as (at_ & kind & Hf & ->) | done].
  2:{ left; eexists _, kind; split_and!; [done | left; by exists at_ | apply unlinked_files]. }
  destruct (breaks CallSync) as [kind|] eqn:E1; [left; eexists _, kind; split_and!; [done | right; by exists CallSync | apply unlinked_files]|].
  destruct (breaks CallClose) as [kind|] eqn:E2; [left; eexists _, kind; split_and!; [done | right; by exists CallClose | apply unlinked_files]|].
  destruct (breaks CallRename) as [kind|] eqn:E3; [left; eexists _, kind; split_and!; [done | right; by exists CallRename | apply unlinked_files]|]; cbn in Ht; rewrite Ht.
  destruct (breaks CallSyncDir) as [kind|] eqn:E4; [left | right; eexists _, _; split_and!; [done | by apply run_open_ok | by apply written_run_holds]].
  eexists _, kind; split_and!; [done | right; by exists CallSyncDir |]; split; [unfold unlink_fails; by intros -> |]; cbn [rf_named rf_temp]; destruct (unlink_fails breaks); [| done]; intros file [= <-].
  split; [done|]; eexists; split; [by apply run_open_ok | by apply written_run_holds].
Qed.

(** A whole run: its columns written in order and finished, or abandoned at the first error. *)
Definition write_run (fails : Z -> option io_kind) (breaks : FinishCall -> option io_kind) cols covered : RunFiles * res unit :=
  match write_columns fails cols with
  | Ok w => RunWriter_finish fails breaks w covered
  | Err e => (RunWriter_abandon breaks, Err e)
  | Panic => (mkRunFiles true None, Panic)
  end.

(** C5: The rows of every column written in order and finished with the segments they point into,
    abandoned at the first error: the run ends with a file under its name that opens as exactly those
    columns, every pointer and fence, every column's last key, and the covered segments, and no
    temporary file; or it ends with the device's own error, and then no file of it is left unless the
    device also refuses to unlink one, and a file left under its name is the whole run. *)
Theorem key_run_reads_back fails breaks cols covered id : run_fits cols covered ->
  exists files result, write_run fails breaks cols covered = (files, result)
  /\ ((result = Ok tt /\ exists file r, files = mkRunFiles false (Some file) /\ KeyRun_open file id = Ok r /\ run_holds r cols covered)
      \/ (exists kind, result = Err (Io kind) /\ device_failed fails breaks kind
          /\ (breaks CallUnlink = None -> files = mkRunFiles false None)
          /\ (forall file, rf_named files = Some file -> rf_temp files = false /\ exists r, KeyRun_open file id = Ok r /\ run_holds r cols covered))).
Proof.
  intros Hr; pose proof (write_columns_ok fails cols covered Hr) as Hw; unfold write_run; destruct (write_columns fails cols) as [w|e|]; [| destruct Hw as (at_ & kind & Hf & ->) | done].
  - destruct (finish_ok fails breaks w cols covered id Hr Hw) as [(files & kind & -> & Hd & Hf)|(file & r & -> & Eo & Hh)]; eexists _, _; (split; [done|]); [right; exists kind; split_and!; [done | done | apply Hf | apply Hf] | left; split; [done|]; eauto].
  - eexists _, _; split; [done|]; right; exists kind; split_and!; [done | left; by exists at_ | apply (unlinked_files breaks cols covered id) | done].
Qed.

(** C6: A seek in a column of a run, through a reader that gives each row's own key or skips it,
    lands where the rows it can read split: those before the place lie before the key sought, the
    others at or past it, with [is_past] past it. *)
Theorem key_run_seek_exact read cols covered id c rows key is_past : run_fits cols covered -> (c, rows) ∈ cols ->
  (forall k p, (k, p) ∈ rows -> read p = Ok None \/ exists row, read p = Ok (Some (k, row))) ->
  exists w file r rc at_, write_columns (fun _ => None) cols = Ok w /\ RunWriter_finish (fun _ => None) (fun _ => None) w covered = (mkRunFiles false (Some file), Ok tt)
    /\ KeyRun_open file id = Ok r /\ KeyRun_column r c = Some rc /\ KeyRun_seek read r rc key is_past = Ok at_ /\ 0 <= at_ <= len rows
    /\ forall i k p row, get rows i = Some (k, p) -> read p = Ok (Some (k, row)) -> (i < at_ <-> if is_past then bytes_le k key else bytes_lt k key).
Proof.
  intros Hr Hin Hread; pose proof (write_columns_ok (fun _ => None) cols covered Hr) as Hw; destruct (write_columns (fun _ => None) cols) as [w|e|]; [| by destruct Hw as (? & ? & ? & _) | done].
  assert (RunWriter_finish (fun _ => None) (fun _ => None) w covered = (mkRunFiles false (Some (run_bytes cols covered)), Ok tt)) as Efin.
  { pose proof (write_tail_ok (fun _ => None) w cols covered Hr Hw) as Ht; unfold RunWriter_finish; destruct (RunWriter_write_tail _ w covered) as [w'|e|]; [cbn in Ht; by rewrite Ht | by destruct Ht as (? & ? & ? & _) | done]. }
  apply list_elem_of_split in Hin as (c1 & c2 & Ecols); pose proof (run_open_ok cols covered id Hr) as Eo; set (r := mkKeyRun id _ _ _ _) in Eo; set (rc := column_of (len (all_rows c1)) (c, rows)).
  assert (column_holds r rc (c, rows)) as Hch by (subst r rc cols; by apply written_column_holds); destruct (seek_ok read r rc (c, rows) key is_past Hch Hread) as (at_ & Es & Hat & Hsplit).
  exists w, (run_bytes cols covered), r, rc, at_; split_and!; [done | done | done | | done | lia | cbn [snd] in Hat; lia |].
  - unfold KeyRun_column; subst r; cbn [kr_columns]; pose proof (rf_order _ _ Hr) as Ho; rewrite Ecols in Ho |- *; subst rc; clear -Ho; rewrite <- (Z.add_0_l (len (all_rows c1))).
    generalize 0; induction c1 as [|[c0 rows0] c1 IH]; intros n; cbn [app columns_of List.find column_of rc_column fst snd].
    + unfold all_rows; cbn [map concat]; rewrite Z.eqb_refl, (len_nil (A := byte)), Z.add_0_r; done.
    + cbn [app map fst] in Ho; apply StronglySorted_inv in Ho as [Ho Hf]; rewrite Forall_forall in Hf; rewrite (proj2 (Z.eqb_neq c0 c)) by (specialize (Hf c ltac:(rewrite map_app; cbn; set_solver)); lia).
      rewrite (IH Ho); do 2 f_equal; unfold all_rows; cbn [map concat snd]; rewrite len_app; lia.
  - intros i k p row Hi Hp; destruct (Hsplit i k) as [H1 H2]; [by exists p, row|]; unfold before in H1, H2; split.
    + intros Hlt; specialize (H1 Hlt); destruct is_past; [by apply bytes_leb_le | by apply bytes_ltb_lt].
    + intros Hb; destruct (Z.lt_ge_cases i at_) as [|Hge]; [done|]; specialize (H2 Hge); destruct is_past; [apply bytes_leb_le in Hb | apply bytes_ltb_lt in Hb]; congruence.
Qed.

(** C7: Opening any bytes gives a run or a corruption and never panics; every row of a run it gives has
    its pointer, and in a file of less than 2^32 bytes every block has its first key. *)
Theorem key_run_open_total file id : match KeyRun_open file id with
  | Ok r => forall rc, rc ∈ kr_columns r -> (forall i, 0 <= i < rc_rows rc -> exists p, KeyRun_pointer r rc i = Ok p) /\ (len file < U32 -> forall b, 0 <= b < RunColumn_blocks rc -> exists key, RunColumn_lead rc b = Ok key)
  | Err e => exists what, e = Corruption what
  | Panic => False
  end.
Proof.
  pose proof (open_refuses file id) as H; destruct (KeyRun_open file id) as [r|[]|]; cbn in H; try done; [| eauto].
  destruct H as [Ef Hc]; intros rc Hrc; rewrite Forall_forall in Hc; destruct (Hc rc Hrc) as (_ & Hp & Hl); split; [by apply Hp | done].
Qed.

(** ** At a concrete run *)

Definition demo_rows : RunRows := map (fun n => ([byte_of n], mkRunPointer (n mod 2) n)) (seqZ 10 10).
Definition demo_cols : list (ColumnId * RunRows) := [(1, demo_rows); (3, [])].

Lemma checked {A} (P : A -> Prop) (f : A -> bool) l : (forall x, f x = true -> P x) -> forallb f l = true -> Forall P l.
Proof. intros HP Hf; apply Forall_forall; intros x Hx%list_elem_of_In; apply HP; by apply (proj1 (forallb_forall f l) Hf). Qed.

Lemma run_demo_fits : run_fits demo_cols [5; 9].
Proof.
  assert (col_ok (1, demo_rows)) as H1.
  { split; cbn [fst snd]; [done | vm_compute; repeat constructor | | | vm_compute; reflexivity | vm_compute; reflexivity].
    - apply (checked _ (fun x => len x.1 <? U16)); [intros x; apply Z.ltb_lt | vm_compute; reflexivity].
    - apply (checked _ (fun x => (0 <=? rp_covered x.2) && (rp_covered x.2 <? U32) && (0 <=? rp_row x.2) && (rp_row x.2 <? U32))); [intros x; unfold is_u32; rewrite !andb_true_iff, !Z.leb_le, !Z.ltb_lt; tauto | vm_compute; reflexivity]. }
  split; [| repeat constructor | vm_compute; reflexivity | by repeat constructor | vm_compute; reflexivity | vm_compute; reflexivity].
  constructor; [exact H1|]; constructor; [| constructor]; split; cbn [fst snd]; try done; constructor.
Qed.

(** Rows into segment 5 read, and the others are skipped. *)
Definition demo_reader : RowReader := FooterRows_read [5; 9] (fun segment => segment =? 5) (fun segment row => Ok ([byte_of row], mkFooterRow 7 (row * 100) 40 Flags_DATA)).

Lemma demo_reader_reads k p : (k, p) ∈ demo_rows -> demo_reader p = Ok None \/ exists row, demo_reader p = Ok (Some (k, row)).
Proof.
  intros Hin; assert (forallb (fun x => match demo_reader x.2 with Ok None => true | Ok (Some (k, _)) => bytes_eqb k x.1 | _ => false end) demo_rows = true) as Hall by (vm_compute; reflexivity).
  rewrite forallb_forall in Hall; specialize (Hall (k, p) ltac:(by apply list_elem_of_In)); cbn [fst snd] in Hall; destruct (demo_reader p) as [[[k' row]|]| |]; try done; [right; apply bytes_eqb_eq in Hall as ->; eauto | by left].
Qed.

(** A device that takes every write and cannot sync the directory. *)
Definition demo_breaks (call : FinishCall) : option io_kind := match call with CallSyncDir => Some OtherKind | _ => None end.

Lemma key_run_reads_back_witness : (exists file r, write_run (fun _ => None) (fun _ => None) demo_cols [5; 9] = (mkRunFiles false (Some file), Ok tt) /\ KeyRun_open file 4 = Ok r /\ run_holds r demo_cols [5; 9])
  /\ exists kind, write_run (fun _ => None) demo_breaks demo_cols [5; 9] = (mkRunFiles false None, Err (Io kind)).
Proof.
  split.
  - destruct (key_run_reads_back (fun _ => None) (fun _ => None) demo_cols [5; 9] 4 run_demo_fits) as (files & result & E & [(-> & file & r & -> & Eo & Hh)|(kind & _ & [[? ?]|(? & _ & ?)] & _)]); [| discriminate | discriminate].
    exists file, r; split; [exact E | split; [exact Eo | exact Hh]].
  - destruct (key_run_reads_back (fun _ => None) demo_breaks demo_cols [5; 9] 4 run_demo_fits) as (files & result & E & [(-> & _)|(kind & -> & _ & Hf & _)]).
    + exfalso; vm_compute in E; discriminate E.
    + exists kind; rewrite <- (Hf eq_refl); exact E.
Defined.

Lemma key_run_seek_exact_witness : exists w file r rc at_, write_columns (fun _ => None) demo_cols = Ok w /\ RunWriter_finish (fun _ => None) (fun _ => None) w [5; 9] = (mkRunFiles false (Some file), Ok tt)
  /\ KeyRun_open file 4 = Ok r /\ KeyRun_column r 1 = Some rc /\ KeyRun_seek demo_reader r rc [byte_of 16] false = Ok at_ /\ 0 <= at_ <= len demo_rows
  /\ forall i k p row, get demo_rows i = Some (k, p) -> demo_reader p = Ok (Some (k, row)) -> (i < at_ <-> bytes_lt k [byte_of 16]).
Proof. apply (key_run_seek_exact demo_reader demo_cols [5; 9] 4 1 demo_rows [byte_of 16] false); [exact run_demo_fits | left | exact demo_reader_reads]. Defined.
