(* ===== verification/KeyRunSet.v ===== *)
(** * The key runs of a volume ([index/keyrun.rs])

    The runs held, oldest first, with the segments they answer for: a merged run takes the place of
    the runs it merged, and a restart reads back what is on disk, dropping a run a newer one covers
    whole. *)
From S2P Require Import Prelude Error Bytes Lsn Column Record FooterRow KeyRun KeyRunFile KeyRunSeek.

Record KeyRunSet := mkKeyRunSet { ks_runs : list KeyRun; ks_covered : gset Z; ks_generation : Z; ks_next_id : Z }.

Definition KeyRunSet_default : KeyRunSet := mkKeyRunSet [] ∅ 0 0.

Implicit Types (s : KeyRunSet) (run : KeyRun).

Definition KeyRunSet_covers s (segment : SegmentId) : bool := bool_decide (segment ∈ ks_covered s).

Definition KeyRunSet_install_set s (fresh : KeyRunSet) : KeyRunSet * KeyRunSet :=
  (mkKeyRunSet (ks_runs fresh) (ks_covered fresh) (as_u64 (ks_generation s + 1)) (Z.max (ks_next_id s) (ks_next_id fresh)),
   mkKeyRunSet (ks_runs s) (ks_covered s) (ks_generation fresh) (ks_next_id fresh)).

Definition KeyRunSet_draw_id s : KeyRunSet * Z :=
  (mkKeyRunSet (ks_runs s) (ks_covered s) (ks_generation s) (as_u64 (ks_next_id s + 1)), as_u64 (ks_next_id s + 1)).

Definition run_le (a b : KeyRun) : Prop := kr_id a <= kr_id b.

#[export] Instance run_le_dec a b : Decision (run_le a b).
Proof. unfold run_le; apply _. Defined.

Definition is_merged (merged : list Z) run : bool := existsb (Z.eqb (kr_id run)) merged.

Definition covered_by (runs : list KeyRun) : gset Z := list_to_set (concat (map kr_covered runs)).

(** The set with the run in, and the runs it merged. *)
Definition KeyRunSet_install s run (merged : list Z) : KeyRunSet * list KeyRun :=
  let retired := List.filter (is_merged merged) (ks_runs s) in
  let runs := merge_sort run_le (List.filter (fun kept => negb (is_merged merged kept)) (ks_runs s) ++ [run]) in
  (mkKeyRunSet runs (covered_by runs) (as_u64 (ks_generation s + 1)) (Z.max (ks_next_id s) (kr_id run)), retired).

(** ** Loading *)

Definition PART_SUFFIX : bytes := map byte_of [46; 112; 97; 114; 116].

Definition ends_with (s suffix : bytes) : bool := match strip_suffix s suffix with Some _ => true | None => false end.

Fixpoint contains_bytes (s pattern : bytes) : bool :=
  bytes_eqb (take (length pattern) s) pattern || match s with [] => false | _ :: s => contains_bytes s pattern end.

(** A directory as its files by name. *)
Definition Directory : Type := list (bytes * bytes).

Definition unlink (dir : Directory) (name : bytes) : Directory := List.filter (fun file => negb (bytes_eqb file.1 name)) dir.

Definition load_entry (acc : list (bytes * KeyRun) * Directory) (entry : bytes * bytes) : list (bytes * KeyRun) * Directory :=
  let '(runs, dir) := acc in
  let '(name, contents) := entry in
  if ends_with name PART_SUFFIX && contains_bytes name KEY_RUN_SUFFIX then (runs, unlink dir name)
  else
    match key_run_id name with
    | None => (runs, dir)
    | Some id => match KeyRun_open contents id with Ok run => (runs ++ [(name, run)], dir) | _ => (runs, unlink dir name) end
    end.

Definition is_within (newer run : KeyRun) : bool := forallb (fun segment => existsb (Z.eqb segment) (kr_covered newer)) (kr_covered run).

(** The newest run first, each kept unless a kept one covers it whole. *)
Fixpoint keep_runs (runs : list (bytes * KeyRun)) (kept : list KeyRun) (dir : Directory) : list KeyRun * Directory :=
  match runs with
  | [] => (kept, dir)
  | (name, run) :: runs =>
      if existsb (fun newer => is_within newer run) kept then keep_runs runs kept (unlink dir name) else keep_runs runs (kept ++ [run]) dir
  end.

Definition named_le (a b : bytes * KeyRun) : Prop := run_le a.2 b.2.

#[export] Instance named_le_dec a b : Decision (named_le a b).
Proof. unfold named_le; apply _. Defined.

Definition KeyRunSet_load s (dir : Directory) : KeyRunSet * Directory :=
  let '(runs, dir) := fold_left load_entry dir ([], dir) in
  let '(kept, dir) := keep_runs (rev (merge_sort named_le runs)) [] dir in
  (fold_left (fun s run => (KeyRunSet_install s run []).1) kept s, dir).

(** ** Looking for an older row *)

Section older.
(** Each run's rows read through the footers of the segments that stand. *)
Variable reader : KeyRun -> RowReader.

Fixpoint older_scan (fuel : nat) run (held : RunColumn) (key : bytes) (lsn : Lsn) (at_ : Z) : res bool :=
  match fuel with
  | O => Panic
  | S fuel =>
      if at_ <? rc_rows held then
        pointer ← KeyRun_pointer run held at_;
        match reader run pointer with
        | Ok (Some (found, row)) => Ok (bytes_eqb found key && (rr_lsn row <? lsn))
        | Ok None => older_scan fuel run held key lsn (at_ + 1)
        | Err e => if is_vanished e then older_scan fuel run held key lsn (at_ + 1) else Err e
        | Panic => Panic
        end
      else Ok false
  end.

Definition run_holds_older run (column : ColumnId) (key : bytes) (lsn : Lsn) : res bool :=
  match KeyRun_column run column with
  | None => Ok false
  | Some held =>
      match KeyRun_seek (reader run) run held key false with
      | Ok at_ => older_scan (S (Z.to_nat (rc_rows held - at_))) run held key lsn at_
      | Err e => if is_vanished e then Ok false else Err e
      | Panic => Panic
      end
  end.

Fixpoint runs_hold_older (runs : list KeyRun) (column : ColumnId) (key : bytes) (lsn : Lsn) : res bool :=
  match runs with
  | [] => Ok false
  | run :: runs => older ← run_holds_older run column key lsn; if (older : bool) then Ok true else runs_hold_older runs column key lsn
  end.

Definition KeyRunSet_holds_older s (column : ColumnId) (key : bytes) (lsn : Lsn) : res bool := runs_hold_older (ks_runs s) column key lsn.
End older.

(** ** The set's invariant *)

Record set_ok s : Prop := {
  so_covered : ks_covered s = covered_by (ks_runs s);
  so_order : StronglySorted run_le (ks_runs s);
  so_ids : Forall (fun run => kr_id run <= ks_next_id s) (ks_runs s);
}.

Lemma elem_covered_by runs segment : segment ∈ covered_by runs <-> exists run, run ∈ runs /\ segment ∈ kr_covered run.
Proof.
  unfold covered_by; rewrite elem_of_list_to_set, list_elem_of_In, in_concat; split.
  - intros (l & Hl & Hs); apply in_map_iff in Hl as (run & <- & Hr); exists run; split; by apply list_elem_of_In.
  - intros (run & Hr & Hs); exists (kr_covered run); split; [by apply in_map, list_elem_of_In | by apply list_elem_of_In].
Qed.

Lemma run_le_sorted runs : StronglySorted run_le (merge_sort run_le runs).
Proof. apply StronglySorted_merge_sort; [intros a b c | intros a b]; unfold run_le; lia. Qed.

Lemma install_ok s run merged : set_ok s -> set_ok (KeyRunSet_install s run merged).1.
Proof.
  intros [Hc Ho Hi]; split; cbn [KeyRunSet_install fst ks_runs ks_covered ks_next_id]; [done | apply run_le_sorted |].
  rewrite merge_sort_Permutation; apply Forall_app; split; [| apply Forall_singleton; lia].
  apply Forall_forall; intros kept [Hk _]%list_elem_of_In%filter_In; rewrite Forall_forall in Hi; specialize (Hi kept ltac:(by apply list_elem_of_In)); cbn in *; lia.
Qed.

Lemma install_runs s run merged kept : kept ∈ ks_runs (KeyRunSet_install s run merged).1 <-> kept = run \/ (kept ∈ ks_runs s /\ is_merged merged kept = false).
Proof.
  cbn [KeyRunSet_install fst ks_runs]; rewrite merge_sort_Permutation, elem_of_app, list_elem_of_singleton, !list_elem_of_In, filter_In, negb_true_iff; tauto.
Qed.

(** The sets a history of merges, reloads and id draws reaches. *)
Inductive set_reached : KeyRunSet -> Prop :=
| set_new : set_reached KeyRunSet_default
| set_install s run merged : set_reached s -> set_reached (KeyRunSet_install s run merged).1
| set_swap s fresh : set_reached s -> set_reached fresh -> set_reached (KeyRunSet_install_set s fresh).1
| set_draw s : set_reached s -> ks_next_id s + 1 < U64 -> 0 <= ks_next_id s -> set_reached (KeyRunSet_draw_id s).1
| set_load s dir : set_reached s -> set_reached (KeyRunSet_load s dir).1.

Lemma install_all_ok kept : forall s, set_ok s -> set_ok (fold_left (fun s run => (KeyRunSet_install s run []).1) kept s).
Proof. induction kept as [|run kept IH]; intros s Hs; cbn [fold_left]; [done|]; by apply IH, install_ok. Qed.

Lemma reached_set_ok s : set_reached s -> set_ok s.
Proof.
  induction 1 as [|s run merged _ IH|s fresh _ [Hc Ho Hi] _ [Hc' Ho' Hi']|s _ [Hc Ho Hi] Hn H0|s dir _ IH].
  - split; [done | constructor | constructor].
  - by apply install_ok.
  - split; cbn [KeyRunSet_install_set fst ks_runs ks_covered ks_next_id]; [done | done |]; eapply Forall_impl; [exact Hi'|]; cbn; lia.
  - split; cbn [KeyRunSet_draw_id fst ks_runs ks_covered ks_next_id]; [done | done |]; eapply Forall_impl; [exact Hi|]; cbn; intros run Hr; rewrite as_u64_small by (unfold is_u64; lia); lia.
  - unfold KeyRunSet_load; destruct (fold_left load_entry dir _) as [runs dir']; destruct (keep_runs _ _ _) as [kept dir2]; by apply install_all_ok.
Qed.

(** ** What a load keeps *)

(** The runs of a directory: the files named as runs that open. *)
Definition dir_run (dir : Directory) run : Prop := exists name contents id, (name, contents) ∈ dir /\ ends_with name PART_SUFFIX && contains_bytes name KEY_RUN_SUFFIX = false /\ key_run_id name = Some id /\ KeyRun_open contents id = Ok run.

Lemma load_entries_runs dir : forall runs dir0 run, (exists name, (name, run) ∈ (fold_left load_entry dir (runs, dir0)).1) <-> (exists name, (name, run) ∈ runs) \/ dir_run dir run.
Proof.
  induction dir as [|[name contents] dir IH]; intros runs dir0 run; cbn [fold_left].
  { split; [auto|]; intros [?|(? & ? & ? & Hin & _)]; [done|]; by apply elem_of_nil in Hin. }
  assert (dir_run ((name, contents) :: dir) run <-> (ends_with name PART_SUFFIX && contains_bytes name KEY_RUN_SUFFIX = false /\ exists id, key_run_id name = Some id /\ KeyRun_open contents id = Ok run) \/ dir_run dir run) as Hd.
  { unfold dir_run; split.
    - intros (n & c & id & Hin & H1 & H2 & H3); apply elem_of_cons in Hin as [[= -> ->]|Hin]; [left; eauto | right; eauto 8].
    - intros [(H1 & id & H2 & H3)|(n & c & id & Hin & H)]; [exists name, contents, id; split_and!; [set_solver | done | done | done] | exists n, c, id; split; [set_solver | done]]. }
  rewrite Hd; cbn [load_entry]; destruct (ends_with name PART_SUFFIX && contains_bytes name KEY_RUN_SUFFIX); [rewrite IH; intuition congruence|]; destruct (key_run_id name) as [id|]; [| rewrite IH; split; [tauto|]; intros [?|[(_ & ? & ? & _)|?]]; [tauto | done | tauto]].
  destruct (KeyRun_open contents id) as [opened|e|] eqn:Eo; rewrite IH; [| split; [tauto|]; intros [?|[(_ & id' & [= <-] & E)|?]]; [tauto | congruence | tauto] | split; [tauto|]; intros [?|[(_ & id' & [= <-] & E)|?]]; [tauto | congruence | tauto]].
  split.
  - intros [(n & Hn)|?]; [| tauto]; apply elem_of_app in Hn as [Hn|Hn%list_elem_of_singleton]; [left; eauto|]; injection Hn as -> ->; right; left; eauto.
  - intros [(n & Hn)|[(_ & id' & [= <-] & E)|?]]; [left; exists n; set_solver | left; exists name; rewrite Eo in E; injection E as <-; set_solver | tauto].
Qed.

Lemma is_within_ok newer run : is_within newer run = true <-> forall segment, segment ∈ kr_covered run -> segment ∈ kr_covered newer.
Proof.
  unfold is_within; rewrite forallb_forall; setoid_rewrite existsb_exists; split.
  - intros H segment Hs%list_elem_of_In; destruct (H segment Hs) as (x & Hx & ->%Z.eqb_eq); by apply list_elem_of_In.
  - intros H segment Hs%list_elem_of_In; exists segment; split; [by apply list_elem_of_In, H | apply Z.eqb_refl].
Qed.

(** Each run is kept, or lies within a kept one that stood before it. *)
Lemma keep_runs_ok runs : forall kept dir, let out := (keep_runs runs kept dir).1 in
  (exists more, out = kept ++ more /\ more `sublist_of` map snd runs /\ (forall run, run ∈ more -> exists name, (name, run) ∈ runs) /\ (forall pre run post, more = pre ++ run :: post -> forall newer, newer ∈ kept ++ pre -> is_within newer run = false))
  /\ (forall name run, (name, run) ∈ runs -> run ∈ out \/ exists newer, newer ∈ out /\ is_within newer run = true).
Proof.
  induction runs as [|[name run] runs IH]; intros kept dir; cbn [keep_runs].
  { split; [exists []; rewrite app_nil_r; split_and!; [done | done | by intros run ?%elem_of_nil | by intros [|? pre] run post] | by intros name run ?%elem_of_nil]. }
  destruct (existsb (fun newer => is_within newer run) kept) eqn:Ex.
  - destruct (IH kept (unlink dir name)) as [(more & Em & Hsub & Hin & Hno) Hall]; split.
    + exists more; split_and!; [done | by apply sublist_cons | intros r Hr; destruct (Hin r Hr) as (n & Hn); exists n; set_solver | done].
    + intros n r [[= -> ->]|Hr]%elem_of_cons; [right | by eapply Hall]; apply existsb_exists in Ex as (newer & Hn & Hw); exists newer; split; [rewrite Em, elem_of_app; left; by apply list_elem_of_In | done].
  - destruct (IH (kept ++ [run]) dir) as [(more & Em & Hsub & Hin & Hno) Hall]; split.
    + exists (run :: more); rewrite Em, <- app_assoc; split_and!; [done | by apply sublist_skip | intros r [->|Hr]%elem_of_cons; [exists name; set_solver|]; destruct (Hin r Hr) as (n & Hn); exists n; set_solver |].
      intros [|x pre] r post [= <- E] newer Hn; [rewrite app_nil_r in Hn; apply not_true_iff_false; intros Hw; apply not_true_iff_false in Ex; apply Ex, existsb_exists; exists newer; split; [by apply list_elem_of_In | done]|].
      apply (Hno pre r post E); rewrite <- app_assoc; done.
    + intros n r [[= -> ->]|Hr]%elem_of_cons; [left; rewrite Em; set_solver | by eapply Hall].
Qed.

Lemma install_all_runs kept : forall s run, run ∈ ks_runs (fold_left (fun s run => (KeyRunSet_install s run []).1) kept s) <-> run ∈ ks_runs s \/ run ∈ kept.
Proof.
  induction kept as [|k kept IH]; intros s run; cbn [fold_left]; [split; [auto | intros [?|?%elem_of_nil]; done]|]; rewrite IH, install_runs, elem_of_cons; cbn [is_merged existsb]; tauto.
Qed.

Lemma named_sorted (runs : list (bytes * KeyRun)) : StronglySorted named_le (merge_sort named_le runs).
Proof. apply StronglySorted_merge_sort; [intros a b c | intros a b]; unfold named_le, run_le; lia. Qed.

Lemma rev_descends (runs : list (bytes * KeyRun)) : StronglySorted named_le runs -> StronglySorted (fun a b => kr_id b <= kr_id a) (map snd (rev runs)).
Proof.
  induction 1 as [|x runs Hs IH Hx]; cbn [rev map]; [constructor|]; rewrite map_app; apply StronglySorted_app; split_and!; [| done | repeat constructor].
  intros a b (y & -> & Hy)%list_elem_of_fmap ->%list_elem_of_singleton; rewrite Forall_forall in Hx; apply Hx; apply list_elem_of_In, in_rev, list_elem_of_In, Hy.
Qed.

Lemma sorted_sublist {A} (R : relation A) l l' : l `sublist_of` l' -> StronglySorted R l' -> StronglySorted R l.
Proof.
  induction 1 as [|x l1 l2 Hsub IH|x l1 l2 Hsub IH]; [done | |]; intros [Hs Hx]%StronglySorted_inv; [constructor; [auto|] | auto].
  apply Forall_forall; intros y Hy; rewrite Forall_forall in Hx; apply Hx; by eapply elem_of_sublist.
Qed.

(** C8: A load reads back every run on disk but those a newer run covers whole: what it holds are runs
    of the directory, no run of the directory loses a segment it covered, and none it holds lies
    within a newer one. *)
Theorem loaded_runs_cover dir : let s := (KeyRunSet_load KeyRunSet_default dir).1 in
  (forall run, run ∈ ks_runs s -> dir_run dir run)
  /\ (forall run, dir_run dir run -> run ∈ ks_runs s \/ exists newer, newer ∈ ks_runs s /\ is_within newer run = true)
  /\ (forall segment, KeyRunSet_covers s segment = true <-> exists run, dir_run dir run /\ segment ∈ kr_covered run)
  /\ (forall a b, a ∈ ks_runs s -> b ∈ ks_runs s -> kr_id a < kr_id b -> is_within b a = false).
Proof.
  assert (set_ok (KeyRunSet_load KeyRunSet_default dir).1) as Hok by (apply reached_set_ok, set_load, set_new).
  revert Hok; unfold KeyRunSet_load; pose proof (load_entries_runs dir [] dir) as Hruns; destruct (fold_left load_entry dir ([], dir)) as [runs dir']; cbn [fst] in Hruns.
  destruct (keep_runs_ok (rev (merge_sort named_le runs)) [] dir') as [(more & Em & Hsub & Hin & Hno) Hall]; destruct (keep_runs _ [] dir') as [kept dir2]; cbn [fst app] in *; subst more; set (s := fold_left _ kept KeyRunSet_default); intros Hok.
  assert (forall name run, (name, run) ∈ rev (merge_sort named_le runs) <-> (name, run) ∈ runs) as Hrev by (intros name run; rewrite list_elem_of_In, <- in_rev, <- list_elem_of_In; by rewrite merge_sort_Permutation).
  assert (forall run, run ∈ ks_runs s <-> run ∈ kept) as Hs by (intros run; subst s; rewrite install_all_runs; cbn [KeyRunSet_default ks_runs]; split; [intros [?%elem_of_nil|?]; done | auto]).
  assert (forall run, run ∈ ks_runs s -> dir_run dir run) as H1.
  { intros run Hr%Hs; destruct (Hin run Hr) as (name & Hn%Hrev); destruct (proj1 (Hruns run) (ex_intro _ name Hn)) as [(? & ?%elem_of_nil)|]; done. }
  assert (forall run, dir_run dir run -> run ∈ ks_runs s \/ exists newer, newer ∈ ks_runs s /\ is_within newer run = true) as H2.
  { intros run Hr; destruct (proj2 (Hruns run) (or_intror Hr)) as (name & Hn%Hrev); destruct (Hall name run Hn) as [Hk|(newer & Hk & Hw)]; [left; by apply Hs | right; exists newer; split; [by apply Hs | done]]. }
  split_and!; [done | done | |].
  - intros segment; unfold KeyRunSet_covers; rewrite bool_decide_eq_true, (so_covered _ Hok), elem_covered_by; split; [intros (run & Hr & Hseg); eauto|]; intros (run & Hr & Hseg); destruct (H2 run Hr) as [|(newer & Hn & Hw)]; [eauto|].
    exists newer; split; [done | by apply (proj1 (is_within_ok newer run) Hw)].
  - intros a b Ha%Hs Hb%Hs Hlt; apply list_elem_of_split in Ha as (pre & post & E); apply (Hno pre a post E); rewrite E in Hb; apply elem_of_app in Hb as [|Hb]; [done | exfalso].
    pose proof (sorted_sublist _ _ _ Hsub (rev_descends _ (named_sorted runs))) as Hd; rewrite E in Hd; apply elem_of_cons in Hb as [->|Hb]; [lia|]; apply StronglySorted_app in Hd as (_ & _ & Hd); apply StronglySorted_inv in Hd as [_ Hd]; rewrite Forall_forall in Hd; specialize (Hd b Hb); cbn in Hd; lia.
Qed.

(** C9: Over any history of merges, reloads and rebuilds a segment is covered exactly when a run held
    covers it, the runs stand oldest first, and an id drawn is above the id of every run held. *)
Theorem key_runs_answer s segment : set_reached s ->
  (KeyRunSet_covers s segment = true <-> exists run, run ∈ ks_runs s /\ segment ∈ kr_covered run)
  /\ StronglySorted run_le (ks_runs s)
  /\ (0 <= ks_next_id s -> ks_next_id s + 1 < U64 -> forall run, run ∈ ks_runs s -> kr_id run < (KeyRunSet_draw_id s).2).
Proof.
  intros Hr; pose proof (reached_set_ok s Hr) as [Hc Ho Hi]; split_and!; [unfold KeyRunSet_covers; by rewrite bool_decide_eq_true, Hc, elem_covered_by | done |].
  intros H0 Hn run Hrun; cbn [KeyRunSet_draw_id snd]; rewrite as_u64_small by (unfold is_u64; lia); rewrite Forall_forall in Hi; specialize (Hi run Hrun); lia.
Qed.

(** ** An older row *)

Section found.
Variables (reader : KeyRun -> RowReader) (column : ColumnId) (key : bytes) (lsn : Lsn) (rows_of : KeyRun -> RunRows).

(** A run with its column's rows, each read as its own key or skipped. *)
Definition run_reads run : Prop := forall rc, KeyRun_column run column = Some rc -> column_holds run rc (column, rows_of run)
  /\ forall k p, (k, p) ∈ rows_of run -> reader run p = Ok None \/ exists row, reader run p = Ok (Some (k, row)).

(** A readable row of the key below the sequence number. *)
Definition run_has_older run : Prop := is_Some (KeyRun_column run column) /\ exists p row, (key, p) ∈ rows_of run /\ reader run p = Ok (Some (key, row)) /\ rr_lsn row < lsn.

Lemma older_scan_ok run rc fuel : column_holds run rc (column, rows_of run) -> (forall k p, (k, p) ∈ rows_of run -> reader run p = Ok None \/ exists row, reader run p = Ok (Some (k, row))) ->
  forall at_, 0 <= at_ -> (Z.to_nat (len (rows_of run) - at_) < fuel)%nat -> split_at (reader run) (column, rows_of run) key false at_ ->
  exists found, older_scan reader fuel run rc key lsn at_ = Ok found /\ (found = true <-> exists p row, (key, p) ∈ rows_of run /\ reader run p = Ok (Some (key, row)) /\ rr_lsn row < lsn).
Proof.
  intros Hc Hread; induction fuel as [|fuel IH]; intros at_ Ha Hf Hs; [lia|]; cbn [older_scan]; rewrite (ch_rows _ _ _ Hc); cbn [snd].
  assert (forall p row, (key, p) ∈ rows_of run -> reader run p = Ok (Some (key, row)) -> exists i, get (rows_of run) i = Some (key, p) /\ at_ <= i < len (rows_of run)) as Hkey.
  { intros p row Hin Hp; apply list_elem_of_lookup in Hin as [i Hi]; exists (Z.of_nat i); rewrite get_lookup; split; [done|]; apply lookup_lt_Some in Hi as Hlt; split; [| unfold len; lia].
    destruct (Z.lt_ge_cases (Z.of_nat i) at_) as [Hlo|]; [| done]; destruct (Hs (Z.of_nat i) key) as [H1 _]; [exists p, row; by rewrite get_lookup|]; specialize (H1 Hlo); unfold before in H1; apply bytes_ltb_lt, bytes_lt_irrefl in H1; done. }
  destruct (Z.ltb_spec at_ (len (rows_of run))) as [Hlt|Hge]; [| exists false; split; [done|]; split; [done|]; intros (p & row & Hin & Hp & _); destruct (Hkey p row Hin Hp) as (i & _ & Hi); lia].
  destruct (row_in run rc (column, rows_of run) Hc at_ ltac:(cbn [snd]; lia)) as (k & p & E & -> & Hin); cbn [snd] in *; res_simpl; destruct (Hread k p Hin) as [Er|(row & Er)]; rewrite Er.
  - apply IH; [lia | lia |]; intros i k' Hi; destruct (Hs i k' Hi) as [H1 H2]; assert (i <> at_) by (intros ->; destruct Hi as (p' & row & E' & Er'); cbn [snd] in E'; rewrite E in E'; injection E' as <- <-; congruence); split; intros; [apply H1 | apply H2]; lia.
  - exists (bytes_eqb k key && (rr_lsn row <? lsn)); split; [done|]; rewrite andb_true_iff, bytes_eqb_eq, Z.ltb_lt; split; [intros [-> Hl]; exists p, row; done|]; intros (p' & row' & Hin' & Er' & Hl).
    destruct (Hkey p' row' Hin' Er') as (i & Ei & Hi); destruct (Z.eq_dec i at_) as [->|Hne]; [rewrite E in Ei; injection Ei as -> <-; rewrite Er in Er'; injection Er' as <-; done | exfalso].
    pose proof (rows_lt run rc (column, rows_of run) Hc at_ i k p key p' E Ei ltac:(lia)) as Hlt'; destruct (Hs at_ k) as [_ H2]; [by exists p, row|]; specialize (H2 ltac:(lia)); unfold before in H2; apply bytes_ltb_lt in Hlt'; congruence.
Qed.

Lemma run_holds_older_ok run : run_reads run -> exists found, run_holds_older reader run column key lsn = Ok found /\ (found = true <-> run_has_older run).
Proof.
  intros Hr; unfold run_holds_older, run_has_older; destruct (KeyRun_column run column) as [rc|] eqn:Ec; [| exists false; split; [done|]; split; [done | intros [[? ?] _]; done]]; destruct (Hr rc Ec) as [Hc Hread].
  destruct (seek_ok (reader run) run rc (column, rows_of run) key false Hc Hread) as (at_ & -> & Hat & Hs); cbn [snd] in *.
  destruct (older_scan_ok run rc (S (Z.to_nat (rc_rows rc - at_))) Hc Hread at_ ltac:(lia)) as (found & E & Hf); [rewrite (ch_rows _ _ _ Hc); cbn [snd]; lia | done|]; exists found; split; [done|]; rewrite Hf; split; [intros H; split; [by eexists | done] | by intros [_ H]].
Qed.

Lemma runs_hold_older_ok runs : Forall run_reads runs -> exists found, runs_hold_older reader runs column key lsn = Ok found /\ (found = true <-> exists run, run ∈ runs /\ run_has_older run).
Proof.
  induction 1 as [|run runs Hr _ (found & E & Hf)]; cbn [runs_hold_older]; [exists false; split; [done|]; split; [done | by intros (? & ?%elem_of_nil & _)]|].
  destruct (run_holds_older_ok run Hr) as (here & -> & Hh); res_simpl; destruct here.
  - exists true; split; [done|]; split; [intros _; exists run; split; [set_solver | by apply Hh] | done].
  - exists found; split; [done|]; rewrite Hf; split; [intros (r & Hin & Ho); exists r; split; [set_solver | done]|]; intros (r & [->|Hin]%elem_of_cons & Ho); [apply Hh in Ho; done | eauto].
Qed.
End found.

(** C10: Asked whether an older row of a key stands in any run, the set answers yes exactly when some
    run of the column has a row of the key, in a segment that stands, below the sequence number. *)
Theorem holds_older_exact reader column key lsn rows_of s : Forall (run_reads reader column rows_of) (ks_runs s) ->
  exists found, KeyRunSet_holds_older reader s column key lsn = Ok found
    /\ (found = true <-> exists run, run ∈ ks_runs s /\ is_Some (KeyRun_column run column) /\ exists p row, (key, p) ∈ rows_of run /\ reader run p = Ok (Some (key, row)) /\ rr_lsn row < lsn).
Proof. apply runs_hold_older_ok. Qed.

(** ** At a concrete set *)

Definition demo_run : KeyRun := mkKeyRun 4 (run_bytes demo_cols [5; 9]) (columns_of 0 demo_cols) [5; 9] (len (run_bytes demo_cols [5; 9])).
Definition demo_set : KeyRunSet := (KeyRunSet_install KeyRunSet_default demo_run []).1.

Lemma demo_run_reads : run_reads (fun _ => demo_reader) 1 (fun _ => demo_rows) demo_run.
Proof.
  intros rc Hrc; cbn [KeyRun_column demo_run kr_columns demo_cols columns_of List.find column_of rc_column fst] in Hrc; injection Hrc as <-; split; [| exact demo_reader_reads].
  exact (written_column_holds [] (1, demo_rows) [(3, [])] [5; 9] 4 run_demo_fits).
Qed.

Lemma key_runs_answer_witness : KeyRunSet_covers demo_set 9 = true <-> exists run, run ∈ ks_runs demo_set /\ 9 ∈ kr_covered run.
Proof. apply (key_runs_answer demo_set 9); apply set_install, set_new. Defined.

Lemma holds_older_exact_witness : exists found, KeyRunSet_holds_older (fun _ => demo_reader) demo_set 1 [byte_of 14] 9 = Ok found
  /\ (found = true <-> exists run, run ∈ ks_runs demo_set /\ is_Some (KeyRun_column run 1) /\ exists p row, ([byte_of 14], p) ∈ demo_rows /\ demo_reader p = Ok (Some ([byte_of 14], row)) /\ rr_lsn row < 9).
Proof. apply (holds_older_exact (fun _ => demo_reader) 1 [byte_of 14] 9 (fun _ => demo_rows) demo_set); constructor; [exact demo_run_reads | constructor]. Defined.
