(* ===== verification/KeyMerge.v ===== *)
(** * The merge of key runs ([compaction/keymerge.rs])

    The rows of some data segments' footers and of some key runs, a column at a time, merged into one
    run: a heap keeps the cursor on the least key on top, every row of a key is seen before the next
    key, and the newest one in a segment that stands goes down. *)
From S2P Require Import Prelude Error Arrays Bytes Lsn Column Record Filter FooterRow Varint Prefix PackedCursor Partition Footer KeyRun KeyRunFile KeyRunSeek KeyRunSet.

(** ** Cursors *)

(** Where a merge stands in one source's rows. A key run's cursor reads through the footers of the
    segments that stand. *)
Inductive Cursor :=
| CursorFooter (segment : SegmentId) (rows : FooterPartition) (at_ : Z)
| CursorKeys (run : KeyRun) (column : RunColumn) (rows : RowReader) (at_ : Z) (current : option (bytes * RunRow * Z)).

(** From a place on, the first row that reads. *)
Fixpoint settle_loop (fuel : nat) (run : KeyRun) (column : RunColumn) (rows : RowReader) (at_ : Z) : res (Z * option (bytes * RunRow * Z)) :=
  match fuel with
  | O => Panic
  | S fuel =>
      if at_ <? rc_rows column then
        pointer ← KeyRun_pointer run column at_;
        found ← rows pointer;
        match found with
        | Some (key, row) => Ok (at_, Some (key, row, rp_row pointer))
        | None => settle_loop fuel run column rows (at_ + 1)
        end
      else Ok (at_, None)
  end.

Definition Cursor_settle (c : Cursor) : res Cursor :=
  match c with
  | CursorKeys run column rows at_ _ =>
      '(at_, current) ← settle_loop (S (Z.to_nat (rc_rows column - at_))) run column rows at_;
      Ok (CursorKeys run column rows at_ current)
  | CursorFooter _ _ _ => Ok c
  end.

Definition Cursor_keys (run : KeyRun) (column : RunColumn) (rows : RowReader) : res Cursor := Cursor_settle (CursorKeys run column rows 0 None).

Definition Cursor_key (c : Cursor) : option bytes :=
  match c with
  | CursorFooter _ rows at_ => FooterPartition_key_at rows at_
  | CursorKeys _ _ _ _ current => match current with Some (key, _, _) => Some key | None => None end
  end.

Definition Cursor_row (c : Cursor) : res (RunRow * Z) :=
  match c with
  | CursorFooter segment rows at_ => row ← FooterPartition_row_at rows at_; Ok (RunRow_of segment row, as_u32 at_)
  | CursorKeys _ _ _ _ current => match current with Some (_, row, place) => Ok (row, place) | None => Err (Corruption "a spent key run cursor was read") end
  end.

Definition Cursor_advance (c : Cursor) : res Cursor :=
  match c with
  | CursorFooter segment rows at_ => Ok (CursorFooter segment rows (at_ + 1))
  | CursorKeys run column rows at_ current => Cursor_settle (CursorKeys run column rows (at_ + 1) current)
  end.

(** ** The heap *)

Definition cursor_before (a b : nat) (ka kb : option bytes) : bool :=
  match ka, kb with
  | Some ka, Some kb => bytes_ltb ka kb || (bytes_eqb ka kb && (a <? b)%nat)
  | Some _, None => true
  | None, _ => false
  end.

Definition is_before (cursors : list Cursor) (a b : nat) : res bool :=
  ca ← idx cursors a;
  cb ← idx cursors b;
  Ok (cursor_before a b (Cursor_key ca) (Cursor_key cb)).

Definition swap (heap : list nat) (a b : nat) : res (list nat) :=
  x ← idx heap a;
  y ← idx heap b;
  heap ← set_idx heap a y;
  set_idx heap b x.

Fixpoint sift_down (fuel : nat) (heap : list nat) (cursors : list Cursor) (at_ : nat) : res (list nat) :=
  match fuel with
  | O => Panic
  | S fuel =>
      let lower := (2 * at_ + 1)%nat in
      if (length heap <=? lower)%nat then Ok heap
      else
        let upper := S lower in
        child ← (if (upper <? length heap)%nat then
                   r ← idx heap upper; l ← idx heap lower;
                   before ← is_before cursors r l;
                   Ok (if (before : bool) then upper else lower)
                 else Ok lower);
        c ← idx heap child; here ← idx heap at_;
        before ← is_before cursors c here;
        if negb before then Ok heap
        else heap ← swap heap at_ child; sift_down fuel heap cursors child
  end.

(** [Vec::swap_remove(0)] *)
Definition swap_remove_first (heap : list nat) : list nat :=
  match heap with
  | [] => []
  | _ :: rest => match last rest with Some x => x :: removelast rest | None => [] end
  end.

(** ** One column *)

Record MergeReport := mkMergeReport { mr_runs_merged : Z; mr_segments_covered : Z; mr_rows_written : Z; mr_rows_shadowed : Z }.

Definition MergeReport_default : MergeReport := mkMergeReport 0 0 0 0.

(** [slice::binary_search] of a sorted list that holds each value once. *)
Fixpoint binary_search (covered : list SegmentId) (segment : SegmentId) (at_ : Z) : option Z :=
  match covered with [] => None | x :: covered => if x =? segment then Some at_ else binary_search covered segment (at_ + 1) end.

Section merge.
Variable fails : Z -> option io_kind.
Variables (standing : SegmentId -> bool) (covered : list SegmentId).

(** The cursors on a key, each row of it seen and its cursor moved on. *)
Fixpoint same_key_loop (fuel : nat) (cursors : list Cursor) (heap : list nat) (key : bytes) (newest : option (RunRow * Z)) (seen : Z) : res (list Cursor * list nat * option (RunRow * Z) * Z) :=
  match fuel with
  | O => Panic
  | S fuel =>
      match heap with
      | [] => Ok (cursors, heap, newest, seen)
      | top :: _ =>
          c ← idx cursors top;
          if negb (bool_decide (Cursor_key c = Some key)) then Ok (cursors, heap, newest, seen)
          else
            '(row, place) ← Cursor_row c;
            let newest := if standing (loc_segment (rr_loc row)) && match newest with Some (held, _) => rr_lsn held <? rr_lsn row | None => true end then Some (row, place) else newest in
            c ← Cursor_advance c;
            cursors ← set_idx cursors top c;
            let heap := match Cursor_key c with None => swap_remove_first heap | Some _ => heap end in
            heap ← sift_down (S (length heap)) heap cursors 0;
            same_key_loop fuel cursors heap key newest (seen + 1)
      end
  end.

Fixpoint merge_loop (fuel : nat) (cursors : list Cursor) (heap : list nat) (w : RunWriter) (report : MergeReport) : res (RunWriter * MergeReport) :=
  match fuel with
  | O => Panic
  | S fuel =>
      match heap with
      | [] => Ok (w, report)
      | top :: _ =>
          c ← idx cursors top;
          let key := default [] (Cursor_key c) in
          '(cursors, heap, newest, seen) ← same_key_loop (S fuel) cursors heap key None 0;
          let report := mkMergeReport (mr_runs_merged report) (mr_segments_covered report) (mr_rows_written report) (mr_rows_shadowed report + saturating_sub seen 1) in
          w ← match newest with
              | Some (row, place) =>
                  at_ ← ok_or (binary_search covered (loc_segment (rr_loc row)) 0) (Corruption "a merged row points at segment {}, which the run does not cover");
                  RunWriter_push fails w key (mkRunPointer (as_u32 at_) place)
              | None => Ok w
              end;
          merge_loop fuel cursors heap w report
      end
  end.

(** The cursors that stand on a row, made a heap. *)
Definition standing_cursors (cursors : list Cursor) : list nat :=
  List.filter (fun at_ => match cursors !! at_ with Some c => match Cursor_key c with Some _ => true | None => false end | None => false end) (seq 0 (length cursors)).

Definition heapify (cursors : list Cursor) (heap : list nat) : res (list nat) :=
  foldm (fun heap at_ => sift_down (S (length heap)) heap cursors at_) (rev (seq 0 (length heap / 2))) heap.

(** The rows of a cursor's source, at least those it has yet to give. *)
Definition Cursor_rows (c : Cursor) : Z :=
  match c with CursorFooter _ rows _ => FooterPartition_len rows | CursorKeys _ column _ _ _ => rc_rows column end.

Definition merge_cursors (cursors : list Cursor) (w : RunWriter) (report : MergeReport) : res (RunWriter * MergeReport) :=
  heap ← heapify cursors (standing_cursors cursors);
  merge_loop (S (sum_list (map (fun c => Z.to_nat (Cursor_rows c)) cursors))) cursors heap w report.

(** ** The sources *)

Inductive Source := SourceFooter (segment : SegmentId) (footer : SegmentFooter) | SourceKeys (run : KeyRun).

(** What a segment's footer holds of a column at a place. *)
Variable rows_at : ColumnId -> SegmentId -> Z -> res (bytes * FooterRow).

(** A run's rows, read through the footers of the segments it covers that stand. *)
Definition run_reader (run : KeyRun) (column : ColumnId) : RowReader := FooterRows_read (kr_covered run) standing (rows_at column).

Definition source_cursor (column : ColumnId) (source : Source) : res (option Cursor) :=
  match source with
  | SourceFooter segment footer => Ok (match SegmentFooter_partition footer column with Some rows => Some (CursorFooter segment rows 0) | None => None end)
  | SourceKeys run => match KeyRun_column run column with Some held => c ← Cursor_keys run held (run_reader run column); Ok (Some c) | None => Ok None end
  end.

Definition merge_column (sources : list Source) (column : ColumnId) (w : RunWriter) (report : MergeReport) : res (RunWriter * MergeReport) :=
  cursors ← mapm (source_cursor column) sources;
  merge_cursors (omap id cursors) w report.

Definition merge_columns (sources : list Source) (columns : list ColumnId) (w : RunWriter) (report : MergeReport) : res (RunWriter * MergeReport) :=
  foldm (fun acc column => let '(w, report) := acc in w ← RunWriter_begin_column w column; merge_column sources column w report) columns (w, report).
End merge.

(** The columns of the sources, each once and ascending ([BTreeSet]). *)
Definition source_columns (source : Source) : list ColumnId :=
  match source with
  | SourceFooter _ footer => map fp_column (List.filter (fun rows => negb (FooterPartition_is_empty rows)) (sf_partitions footer))
  | SourceKeys run => map rc_column (kr_columns run)
  end.

Definition btree_set (l : list Z) : list Z := remove_dups (merge_sort Z.le l).

Definition merged_columns (sources : list Source) : list ColumnId := btree_set (concat (map source_columns sources)).

(** The segments the run will cover: every footer merged, and what stands of each run's. *)
Definition source_covered (standing : SegmentId -> bool) (source : Source) : list SegmentId :=
  match source with SourceFooter segment _ => [segment] | SourceKeys run => List.filter standing (kr_covered run) end.

Definition merged_covered (standing : SegmentId -> bool) (sources : list Source) : list SegmentId := btree_set (concat (map (source_covered standing) sources)).

(** ** Claims *)

(** The segments some pass holds ([Compactor::in_flight]). *)
Implicit Types (in_flight : gset Z) (claims : list SegmentId).

Definition Compactor_claim in_flight (segment : SegmentId) : option (gset Z) := if bool_decide (segment ∈ in_flight) then None else Some ({[ segment ]} ∪ in_flight).

(** [PassClaim::drop] *)
Definition drop_claim in_flight (segment : SegmentId) : gset Z := in_flight ∖ {[ segment ]}.

Definition drop_claims in_flight claims : gset Z := fold_left drop_claim claims in_flight.

Section gather.
Variables (holds_sealed : SegmentId -> bool) (footer_of : SegmentId -> res (option SegmentFooter)).

(** Each segment listed that is claimed, still sealed and has a footer; an error drops every claim. *)
Fixpoint claim_segments in_flight (segments : list SegmentId) claims (sources : list Source) : gset Z * res (list SegmentId * list Source) :=
  match segments with
  | [] => (in_flight, Ok (claims, sources))
  | segment :: segments =>
      match Compactor_claim in_flight segment with
      | None => claim_segments in_flight segments claims sources
      | Some in_flight =>
          if negb (holds_sealed segment) then claim_segments (drop_claim in_flight segment) segments claims sources
          else
            match footer_of segment with
            | Err e => (drop_claims (drop_claim in_flight segment) claims, Err e)
            | Panic => (drop_claims (drop_claim in_flight segment) claims, Panic)
            | Ok None => claim_segments (drop_claim in_flight segment) segments claims sources
            | Ok (Some footer) => claim_segments in_flight segments (claims ++ [segment]) (sources ++ [SourceFooter segment footer])
            end
      end
  end.

(** The runs' own segments that are sealed; a segment another pass holds stops the merge. *)
Fixpoint claim_covered in_flight (covered : list SegmentId) (claimed : gset Z) claims : gset Z * option (gset Z * list SegmentId) :=
  match covered with
  | [] => (in_flight, Some (claimed, claims))
  | segment :: covered =>
      if negb (holds_sealed segment) then claim_covered in_flight covered claimed claims
      else if bool_decide (segment ∈ claimed) then claim_covered in_flight covered claimed claims
      else
        match Compactor_claim in_flight segment with
        | None => (drop_claims in_flight claims, None)
        | Some in_flight => claim_covered in_flight covered ({[ segment ]} ∪ claimed) (claims ++ [segment])
        end
  end.
End gather.

(** ** The whole merge *)

(** The steps of a merge on the volume and the runs. *)
Inductive MergeAct := ActCreate | ActMerge | ActFinish | ActOpen | ActInstall.

(** What a merge changes: the claims, the runs held, and the volume's run files; and beside them the
    steps the merges took, each with the claims that stood at it. *)
Record MergeState := mkMergeState { ms_in_flight : gset Z; ms_runs : KeyRunSet; ms_dir : Directory; ms_log : list (MergeAct * gset Z) }.

(** [KeyRun::retire] *)
Definition KeyRun_retire (dir : Directory) (run : KeyRun) : Directory := unlink dir (key_run_name (kr_id run)).

(** A rename takes the name over. *)
Definition rename_over (dir : Directory) (name contents : bytes) : Directory := unlink dir name ++ [(name, contents)].

(** The name a run is written under. *)
Definition part_name (id : Z) : bytes := key_run_name id ++ PART_SUFFIX.

Section whole.
(** Whether the device refuses the new file, a write of it, a call that finishes it or the read of it
    when it is opened again; and what a failed write leaves in the temporary file. *)
Variables (refuses_file : option io_kind) (fails : Z -> option io_kind) (breaks : FinishCall -> option io_kind) (reopens : option io_kind) (partial : bytes).
Variables (holds_sealed standing : SegmentId -> bool) (footer_of : SegmentId -> res (option SegmentFooter)) (rows_at : ColumnId -> SegmentId -> Z -> res (bytes * FooterRow)).

(** Whether a finish that failed had taken the run's name. *)
Definition named_run (w : RunWriter) (covered : list SegmentId) : bool :=
  match RunWriter_write_tail fails w covered, breaks CallSync, breaks CallClose, breaks CallRename with Ok _, None, None, None => true | _, _, _, _ => false end.

(** The directory with what a run left in it: the file under its name, or that name unlinked where the
    run had taken it, and the temporary file. *)
Definition leave_files (dir : Directory) (id : Z) (files : RunFiles) (is_named : bool) : Directory :=
  let dir := match rf_named files with
             | Some contents => rename_over dir (key_run_name id) contents
             | None => if is_named then unlink dir (key_run_name id) else dir
             end in
  if rf_temp files then rename_over dir (part_name id) partial else dir.

(** [KeyRun::open_or_unlink] of the run just named, its unlink failing or not. *)
Definition open_or_unlink (dir : Directory) (id : Z) (contents : bytes) : Directory * res KeyRun :=
  match match reopens with Some kind => Err (Io kind) | None => KeyRun_open contents id end with
  | Ok run => (dir, Ok run)
  | Err e => (if unlink_fails breaks then dir else unlink dir (key_run_name id), Err e)
  | Panic => (dir, Panic)
  end.

(** The sources written as one run and the run installed, under the claims [held]; a run that fails
    on the way is unlinked. *)
Definition write_merged (held : gset Z) (s : KeyRunSet) (dir : Directory) (sources : list Source) (runs : list KeyRun) : KeyRunSet * Directory * list (MergeAct * gset Z) * res MergeReport :=
  let covered := merged_covered standing sources in
  let steps acts := map (fun act => (act, held)) acts in
  let '(s, id) := KeyRunSet_draw_id s in
  match refuses_file with
  | Some kind => (s, dir, steps [ActCreate], Err (Io kind))
  | None =>
      match merge_columns fails standing covered rows_at sources (merged_columns sources) RunWriter_create (mkMergeReport (len sources) 0 0 0) with
      | Err e => (s, leave_files dir id (RunWriter_abandon breaks) false, steps [ActCreate; ActMerge], Err e)
      | Panic => (s, dir, steps [ActCreate; ActMerge], Panic)
      | Ok (w, report) =>
          let segments_covered := len (List.filter (fun segment => negb (KeyRunSet_covers s segment)) covered) in
          let report := mkMergeReport (mr_runs_merged report) segments_covered (RunWriter_rows w) (mr_rows_shadowed report) in
          let '(files, finished) := RunWriter_finish fails breaks w covered in
          let dir := leave_files dir id files (named_run w covered) in
          match finished with
          | Err e => (s, dir, steps [ActCreate; ActMerge; ActFinish], Err e)
          | Panic => (s, dir, steps [ActCreate; ActMerge; ActFinish], Panic)
          | Ok _ =>
              match open_or_unlink dir id (default [] (rf_named files)) with
              | (dir, Ok run) =>
                  let '(s, retired) := KeyRunSet_install s run (map kr_id runs) in
                  (s, fold_left KeyRun_retire retired dir, steps [ActCreate; ActMerge; ActFinish; ActOpen; ActInstall], Ok report)
              | (dir, Err e) => (s, dir, steps [ActCreate; ActMerge; ActFinish; ActOpen], Err e)
              | (dir, Panic) => (s, dir, steps [ActCreate; ActMerge; ActFinish; ActOpen], Panic)
              end
          end
      end
  end.

Definition merge_into_key_run (st : MergeState) (segments : list SegmentId) (runs : list KeyRun) : MergeState * res MergeReport :=
  match claim_segments holds_sealed footer_of (ms_in_flight st) segments [] [] with
  | (in_flight, Ok (claims, sources)) =>
      match claim_covered holds_sealed in_flight (concat (map kr_covered runs)) (list_to_set claims) claims with
      | (in_flight, None) => (mkMergeState in_flight (ms_runs st) (ms_dir st) (ms_log st), Ok MergeReport_default)
      | (in_flight, Some (_, claims)) =>
          let sources := sources ++ map SourceKeys runs in
          if len sources <? 2 then (mkMergeState (drop_claims in_flight claims) (ms_runs st) (ms_dir st) (ms_log st), Ok MergeReport_default)
          else
            let '(s, dir, acts, report) := write_merged in_flight (ms_runs st) (ms_dir st) sources runs in
            (mkMergeState (drop_claims in_flight claims) s dir (ms_log st ++ acts), report)
      end
  | (in_flight, Err e) => (mkMergeState in_flight (ms_runs st) (ms_dir st) (ms_log st), Err e)
  | (in_flight, Panic) => (mkMergeState in_flight (ms_runs st) (ms_dir st) (ms_log st), Panic)
  end.
End whole.

(** ** Heaps *)

Section heap.
Variable lt : nat -> nat -> bool.
Hypothesis lt_asym : forall a b, lt a b = true -> lt b a = false.
Hypothesis lt_negtrans : forall a b c, lt a b = false -> lt b c = false -> lt a c = false.

Definition parent_ok (h : list nat) (i : nat) : Prop := forall c x y, c = (2 * i + 1)%nat \/ c = (2 * i + 2)%nat -> h !! c = Some x -> h !! i = Some y -> lt x y = false.

Definition heap_from (start : nat) (h : list nat) : Prop := forall i, (start <= i)%nat -> parent_ok h i.

(** The order holds from [start] on but below one place, whose children may not be below what stands
    over it. *)
Definition sinking (start at_ : nat) (h : list nat) : Prop := (start <= at_)%nat
  /\ (forall i, (start <= i)%nat -> i <> at_ -> parent_ok h i)
  /\ (forall p c x y, (start <= p)%nat -> (at_ = 2 * p + 1)%nat \/ (at_ = 2 * p + 2)%nat -> c = (2 * at_ + 1)%nat \/ c = (2 * at_ + 2)%nat -> h !! c = Some x -> h !! p = Some y -> lt x y = false).

Definition lesser_child (h : list nat) (at_ : nat) : option nat :=
  match h !! (2 * at_ + 1)%nat, h !! (2 * at_ + 2)%nat with
  | Some l, Some r => Some (if lt r l then (2 * at_ + 2)%nat else (2 * at_ + 1)%nat)
  | Some _, None => Some (2 * at_ + 1)%nat
  | None, _ => None
  end.

Fixpoint sift (fuel : nat) (h : list nat) (at_ : nat) : list nat :=
  match fuel with
  | O => h
  | S fuel =>
      match lesser_child h at_ with
      | None => h
      | Some child =>
          match h !! child, h !! at_ with
          | Some c, Some here => if lt c here then sift fuel (<[child := here]> (<[at_ := c]> h)) child else h
          | _, _ => h
          end
      end
  end.

Lemma lesser_child_spec h at_ child : lesser_child h at_ = Some child -> (child = (2 * at_ + 1)%nat \/ child = (2 * at_ + 2)%nat)
  /\ exists c, h !! child = Some c /\ forall c' x, c' = (2 * at_ + 1)%nat \/ c' = (2 * at_ + 2)%nat -> h !! c' = Some x -> lt x c = false.
Proof.
  assert (forall a, lt a a = false) as Hirr by (intros a; destruct (lt a a) eqn:E; [by apply lt_asym in E as E'; rewrite E in E' | done]).
  unfold lesser_child; destruct (h !! (2 * at_ + 1)%nat) as [l|] eqn:El; [| done]; destruct (h !! (2 * at_ + 2)%nat) as [r|] eqn:Er; intros [= <-].
  - destruct (lt r l) eqn:Elt; (split; [auto|]); [exists r | exists l]; (split; [done|]); intros c' x [->| ->] E; rewrite ?El, ?Er in E; injection E as <-; auto.
  - split; [auto|]; exists l; split; [done|]; intros c' x [->| ->] E; rewrite ?El, ?Er in E; [injection E as <-; auto | done].
Qed.

Lemma swap_lookup (h : list nat) a b x y i : h !! a = Some x -> h !! b = Some y -> a <> b -> <[b := x]> (<[a := y]> h) !! i = if decide (i = b) then Some x else if decide (i = a) then Some y else h !! i.
Proof.
  intros Ha Hb Hne; destruct (decide (i = b)) as [->|]; [apply list_lookup_insert_eq; rewrite length_insert; by eapply lookup_lt_Some|]; rewrite list_lookup_insert_ne by done.
  destruct (decide (i = a)) as [->|]; [apply list_lookup_insert_eq; by eapply lookup_lt_Some | by rewrite list_lookup_insert_ne].
Qed.

Lemma swap_perm (h : list nat) a b x y : h !! a = Some x -> h !! b = Some y -> a <> b -> Permutation (<[b := x]> (<[a := y]> h)) h.
Proof.
  intros Ha Hb Hne; apply Permutation_inj; split; [by rewrite !length_insert|]; exists (fun i => if decide (i = b) then a else if decide (i = a) then b else i); split.
  - intros i j; repeat case_decide; congruence.
  - intros i; rewrite (swap_lookup h a b x y i Ha Hb Hne); repeat case_decide; congruence.
Qed.

Lemma sift_ok fuel : forall start at_ h, sinking start at_ h -> (length h < fuel + at_)%nat -> heap_from start (sift fuel h at_) /\ Permutation (sift fuel h at_) h.
Proof.
  assert (forall a, lt a a = false) as Hirr by (intros a; destruct (lt a a) eqn:E; [by apply lt_asym in E as E'; rewrite E in E' | done]).
  induction fuel as [|fuel IH]; intros start at_ h (Hst & Hoth & Hover) Hf; cbn [sift].
  { split; [| done]; intros i Hi; destruct (decide (i = at_)) as [->|]; [| by apply Hoth]; intros c x y Hc E; apply lookup_lt_Some in E; lia. }
  destruct (lesser_child h at_) as [child|] eqn:Ech.
  2:{ split; [| done]; intros i Hi; destruct (decide (i = at_)) as [->|]; [| by apply Hoth]; intros c x y Hc E Ey; exfalso; unfold lesser_child in Ech; destruct (h !! (2 * at_ + 1)%nat) eqn:E1; [by destruct (h !! (2 * at_ + 2)%nat)|].
      apply lookup_ge_None in E1; apply lookup_lt_Some in E; lia. }
  destruct (lesser_child_spec h at_ child Ech) as (Hchild & c & Ec & Hmin); rewrite Ec; destruct (h !! at_) as [here|] eqn:Eh; [| exfalso; apply lookup_ge_None in Eh; apply lookup_lt_Some in Ec; lia].
  destruct (lt c here) eqn:Elt.
  2:{ split; [| done]; intros i Hi; destruct (decide (i = at_)) as [->|]; [| by apply Hoth]; intros c' x y Hc' E Ey; rewrite Eh in Ey; injection Ey as <-; apply (lt_negtrans x c); [by eapply Hmin | done]. }
  assert (at_ <> child) as Hne by lia; pose proof (swap_lookup h at_ child here c) as Hlk; set (h' := <[child := here]> (<[at_ := c]> h)) in *.
  assert (sinking start child h') as Hs.
  { split; [lia|]; split.
    - intros i Hi Hic; destruct (decide (i = at_)) as [->|Hia].
      + intros c' x y Hc' E Ey; rewrite (Hlk c' Eh Ec Hne) in E; rewrite (Hlk _ Eh Ec Hne) in Ey; rewrite decide_False, decide_True in Ey by done; injection Ey as <-; destruct (decide (c' = child)) as [->|]; [injection E as <-; by apply lt_asym|].
        rewrite decide_False in E by lia; by eapply Hmin.
      + intros c' x y Hc' E Ey; rewrite (Hlk c' Eh Ec Hne) in E; rewrite (Hlk _ Eh Ec Hne) in Ey; rewrite !decide_False in Ey by done; destruct (decide (c' = child)) as [->|]; [exfalso; lia|]; destruct (decide (c' = at_)) as [->|]; [| by eapply (Hoth i Hi Hia)].
        injection E as <-; eapply (Hover i child c y); [done | lia | lia | done | done].
    - intros p c' x y Hp Hpar Hc' E Ey; rewrite (Hlk c' Eh Ec Hne) in E; rewrite (Hlk _ Eh Ec Hne) in Ey; assert (p = at_) as -> by lia; rewrite decide_False, decide_True in Ey by done; injection Ey as <-; rewrite !decide_False in E by lia; apply (Hoth child ltac:(lia) ltac:(lia) c'); done. }
  destruct (IH start child h' Hs) as [H1 H2]; [subst h'; rewrite !length_insert; lia|]; split; [done|]; rewrite H2; by apply swap_perm.
Qed.

(** The top of a heap is before none of the others. *)
Lemma heap_top h top i x : heap_from 0 h -> h !! 0%nat = Some top -> h !! i = Some x -> lt x top = false.
Proof.
  assert (forall a, lt a a = false) as Hirr by (intros a; destruct (lt a a) eqn:E; [by apply lt_asym in E as E'; rewrite E in E' | done]).
  intros Hh Ht; revert x; induction i as [i IH] using lt_wf_ind; intros x Hx; destruct (decide (i = 0%nat)) as [->|Hne]; [rewrite Ht in Hx; by injection Hx as <-|].
  assert (exists p, (p < i)%nat /\ (i = 2 * p + 1 \/ i = 2 * p + 2)%nat) as (p & Hp & Hpar) by (exists ((i - 1) / 2)%nat; pose proof (Nat.div_mod_eq (i - 1) 2); pose proof (Nat.mod_upper_bound (i - 1) 2); lia).
  destruct (lookup_lt_is_Some_2 h p) as [y Hy]; [apply lookup_lt_Some in Hx; lia|]; apply (lt_negtrans x y); [by eapply (Hh p); [lia | | |] | by apply (IH p)].
Qed.
End heap.
