(* ===== verification/KeyMergeProofs.v ===== *)
(** * What a merge writes ([compaction/keymerge.rs])

    A merge of any cursors writes, in key order and each key once, the newest row of the key in a
    segment that stands; so the run it leaves answers every key as its sources did. *)
From S2P Require Import Prelude Error Arrays Bytes Lsn Column Record Filter FooterRow Varint Prefix PackedCursor Partition Footer KeyRun KeyRunFile KeyRunSeek KeyMerge.

(** ** What a cursor still holds *)

Record Item := mkItem { it_key : bytes; it_row : RunRow; it_place : Z }.

Implicit Types (items : list Item) (Ls : list (list Item)) (cursors : list Cursor) (heap : list nat).

Fixpoint cursor_rep items (c : Cursor) : Prop :=
  match items with
  | [] => Cursor_key c = None
  | x :: items => Cursor_key c = Some (it_key x) /\ Cursor_row c = Ok (it_row x, it_place x) /\ exists c', Cursor_advance c = Ok c' /\ cursor_rep items c'
  end.

Definition head_key (l : list Item) : option bytes := match l with x :: _ => Some (it_key x) | [] => None end.

Lemma rep_key items c : cursor_rep items c -> Cursor_key c = head_key items.
Proof. destruct items; [done | by intros [? _]]. Qed.

(** The cursors' order as what they hold gives it. *)
Definition order_of Ls (a b : nat) : bool := cursor_before a b (match Ls !! a with Some l => head_key l | None => None end) (match Ls !! b with Some l => head_key l | None => None end).

Lemma cursor_before_asym a b ka kb : cursor_before a b ka kb = true -> cursor_before b a kb ka = false.
Proof.
  destruct ka as [ka|], kb as [kb|]; cbn [cursor_before]; try done; intros [Hlt%bytes_ltb_lt|[->%bytes_eqb_eq Hlt%Nat.ltb_lt]%andb_true_iff]%orb_true_iff; apply orb_false_iff; split.
  - by apply bytes_ltb_ge, bytes_lt_le.
  - apply andb_false_iff; left; apply not_true_iff_false; rewrite bytes_eqb_eq; intros ->; by apply bytes_lt_irrefl in Hlt.
  - apply bytes_ltb_ge; unfold bytes_le; by rewrite bytes_cmp_refl.
  - apply andb_false_iff; right; apply Nat.ltb_ge; lia.
Qed.

Lemma cursor_before_negtrans a b c ka kb kc : cursor_before a b ka kb = false -> cursor_before b c kb kc = false -> cursor_before a c ka kc = false.
Proof.
  destruct ka as [ka|]; [| done]; destruct kb as [kb|]; [| done]; destruct kc as [kc|]; [| done]; cbn [cursor_before]; intros [H1%bytes_ltb_ge H2%andb_false_iff]%orb_false_iff [H3%bytes_ltb_ge H4%andb_false_iff]%orb_false_iff.
  apply orb_false_iff; split; [apply bytes_ltb_ge; by apply (bytes_le_trans _ kb)|]; apply andb_false_iff; destruct (bytes_eqb ka kc) eqn:E; [right | by left]; apply bytes_eqb_eq in E as ->.
  assert (kb = kc) as -> by (apply bytes_le_lteq in H1 as [H1| ->]; [| done]; apply bytes_le_lteq in H3 as [H3| ->]; [| done]; exfalso; apply (bytes_lt_irrefl kb); by apply (bytes_lt_trans _ kc)).
  rewrite (proj2 (bytes_eqb_eq kc kc)) in H2, H4 by done; destruct H2 as [|H2%Nat.ltb_ge]; [done|]; destruct H4 as [|H4%Nat.ltb_ge]; [done|]; apply Nat.ltb_ge; lia.
Qed.

Lemma order_asym Ls a b : order_of Ls a b = true -> order_of Ls b a = false.
Proof. apply cursor_before_asym. Qed.

Lemma order_negtrans Ls a b c : order_of Ls a b = false -> order_of Ls b c = false -> order_of Ls a c = false.
Proof. apply cursor_before_negtrans. Qed.

Definition reps Ls cursors : Prop := Forall2 cursor_rep Ls cursors.

Lemma is_before_ok Ls cursors a b : reps Ls cursors -> (a < length cursors)%nat -> (b < length cursors)%nat -> is_before cursors a b = Ok (order_of Ls a b).
Proof.
  intros Hr Ha Hb; unfold is_before, idx; destruct (lookup_lt_is_Some_2 cursors a Ha) as [ca Ea], (lookup_lt_is_Some_2 cursors b Hb) as [cb Eb]; rewrite Ea, Eb; res_simpl; unfold order_of.
  destruct (Forall2_lookup_r _ _ _ _ _ Hr Ea) as (la & -> & Hla), (Forall2_lookup_r _ _ _ _ _ Hr Eb) as (lb & -> & Hlb); by rewrite (rep_key _ _ Hla), (rep_key _ _ Hlb).
Qed.

Lemma sift_down_ok Ls cursors fuel : forall heap at_, reps Ls cursors -> Forall (fun x => (x < length cursors)%nat) heap -> (length heap < fuel + at_)%nat -> (0 < fuel)%nat ->
  sift_down fuel heap cursors at_ = Ok (sift (order_of Ls) fuel heap at_).
Proof.
  induction fuel as [|fuel IH]; intros heap at_ Hr Hin Hf H0; [lia|]; cbn [sift_down sift]; unfold lesser_child; destruct (Nat.leb_spec (length heap) (2 * at_ + 1)) as [Hle|Hgt].
  { by rewrite (lookup_ge_None_2 heap (2 * at_ + 1)) by lia. }
  assert (forall i, (i < length heap)%nat -> exists x, heap !! i = Some x /\ (x < length cursors)%nat) as Hat by (intros i Hi; destruct (lookup_lt_is_Some_2 heap i Hi) as [x Ex]; exists x; split; [done|]; rewrite Forall_lookup in Hin; by eapply Hin).
  destruct (Hat (2 * at_ + 1)%nat Hgt) as (l & El & Hl); rewrite El; destruct (Hat at_ ltac:(lia)) as (here & Eh & Hh).
  set (child := match heap !! (2 * at_ + 2)%nat with Some r => if order_of Ls r l then (2 * at_ + 2)%nat else (2 * at_ + 1)%nat | None => (2 * at_ + 1)%nat end).
  assert ((match heap !! (2 * at_ + 2)%nat with Some r => Some (if order_of Ls r l then (2 * at_ + 2)%nat else (2 * at_ + 1)%nat) | None => Some (2 * at_ + 1)%nat end) = Some child) as -> by (subst child; by destruct (heap !! (2 * at_ + 2)%nat)).
  assert ((if (S (2 * at_ + 1) <? length heap)%nat then r ← idx heap (S (2 * at_ + 1)); l0 ← idx heap (2 * at_ + 1)%nat; before ← is_before cursors r l0; Ok (if (before : bool) then S (2 * at_ + 1) else (2 * at_ + 1)%nat) else Ok (2 * at_ + 1)%nat) = Ok child) as ->.
  { replace (S (2 * at_ + 1)) with (2 * at_ + 2)%nat by lia; subst child; destruct (Nat.ltb_spec (2 * at_ + 2) (length heap)) as [Hr2|]; [| by rewrite (lookup_ge_None_2 heap (2 * at_ + 2)) by lia].
    destruct (Hat _ Hr2) as (r & Er & Hr'); unfold idx; rewrite Er, El; res_simpl; rewrite (is_before_ok Ls) by done; res_simpl; by destruct (order_of Ls r l). }
  assert ((child = 2 * at_ + 1 \/ child = 2 * at_ + 2) /\ child < length heap)%nat as [Hc Hcl] by (subst child; destruct (heap !! (2 * at_ + 2)%nat) eqn:E2; [apply lookup_lt_Some in E2; destruct (order_of Ls _ l); lia | lia]).
  destruct (Hat child Hcl) as (c & Ec & Hcc); res_simpl; unfold idx; rewrite Ec, Eh; res_simpl; rewrite (is_before_ok Ls) by done; res_simpl; destruct (order_of Ls c here); cbn [negb]; [| done].
  unfold swap, idx; rewrite Eh, Ec; res_simpl; rewrite set_idx_Ok by lia; res_simpl; rewrite set_idx_Ok by (rewrite length_insert; lia); res_simpl; apply IH; [done | | rewrite !length_insert; lia | lia].
  by apply Forall_insert; [apply Forall_insert|].
Qed.

(** ** The heap of the cursors that hold something *)

Record heap_ok Ls heap : Prop := {
  hp_order : heap_from (order_of Ls) 0 heap;
  hp_once : NoDup heap;
  hp_holds i : i ∈ heap <-> exists x l, Ls !! i = Some (x :: l);
}.

Definition sorted_lists Ls : Prop := Forall (fun l => StronglySorted bytes_le (map it_key l)) Ls.

Lemma heap_in Ls heap : heap_ok Ls heap -> Forall (fun x => (x < length Ls)%nat) heap.
Proof. intros [_ _ H]; apply Forall_forall; intros i (x & l & E)%H; by eapply lookup_lt_Some. Qed.

(** The top stands on the least key there is. *)
Lemma top_least Ls heap top rest x l y : heap_ok Ls heap -> sorted_lists Ls -> heap = top :: rest -> Ls !! top = Some (x :: l) -> y ∈ concat Ls -> bytes_le (it_key x) (it_key y).
Proof.
  intros [Ho _ Hh] Hs -> Et Hy; apply list_elem_of_In, in_concat in Hy as (ly & Hly & Hy); apply list_elem_of_In in Hly, Hy; apply list_elem_of_lookup in Hly as [i Ei]; destruct ly as [|z ly]; [by apply elem_of_nil in Hy|].
  assert (i ∈ top :: rest) as [j Ej]%list_elem_of_lookup by (apply Hh; eauto).
  pose proof (heap_top (order_of Ls) (order_asym Ls) (order_negtrans Ls) _ top j i Ho eq_refl Ej) as Hle; unfold order_of in Hle; rewrite Ei, Et in Hle; cbn in Hle; apply orb_false_iff in Hle as [Hle%bytes_ltb_ge _].
  apply (bytes_le_trans _ (it_key z)); [done|]; unfold sorted_lists in Hs; rewrite Forall_lookup in Hs; specialize (Hs i _ Ei); cbn [map] in Hs; apply StronglySorted_inv in Hs as [_ Hz]; apply elem_of_cons in Hy as [->|Hy]; [unfold bytes_le; by rewrite bytes_cmp_refl|].
  rewrite Forall_forall in Hz; apply Hz; by apply (list_elem_of_fmap_2 it_key).
Qed.

Lemma order_other Ls top l a b : a <> top -> b <> top -> order_of (<[top := l]> Ls) a b = order_of Ls a b.
Proof. intros Ha Hb; unfold order_of; by rewrite !list_lookup_insert_ne by done. Qed.

Lemma swap_remove_lookup (top : nat) rest i : (0 < i)%nat -> swap_remove_first (top :: rest) !! i = if (i <? length rest)%nat then (top :: rest) !! i else None.
Proof.
  intros Hi; cbn [swap_remove_first]; destruct rest as [|z rest _] using rev_ind; [by destruct i|]; rewrite last_snoc, removelast_last, length_app; cbn [length]; destruct i as [|i]; [lia|]; cbn [lookup list_lookup].
  destruct (Nat.ltb_spec (S i) (length rest + 1)); [symmetry; apply lookup_app_l; lia | apply lookup_ge_None; lia].
Qed.

Lemma swap_remove_perm (top : nat) rest : Permutation (swap_remove_first (top :: rest)) rest.
Proof. cbn [swap_remove_first]; destruct rest as [|z rest _] using rev_ind; [done|]; rewrite last_snoc, removelast_last; apply Permutation_cons_append. Qed.

(** The top's cursor moves on and the heap is put right. *)
Lemma advance_heap Ls top rest x l : heap_ok Ls (top :: rest) -> Ls !! top = Some (x :: l) ->
  let heap' := match l with [] => swap_remove_first (top :: rest) | _ => top :: rest end in
  Forall (fun i => (i < length Ls)%nat) heap' /\ heap_ok (<[top := l]> Ls) (sift (order_of (<[top := l]> Ls)) (S (length heap')) heap' 0).
Proof.
  intros Hk Et heap'; pose proof (heap_in _ _ Hk) as Hin; destruct Hk as [Ho Hnd Hh]; apply NoDup_cons in Hnd as [Hni Hnd]; assert (top < length Ls)%nat as Htl by (by eapply lookup_lt_Some).
  assert (forall i, <[top := l]> Ls !! i = if decide (i = top) then Some l else Ls !! i) as Hlk by (intros i; destruct (decide (i = top)) as [->|]; [by apply list_lookup_insert_eq | by apply list_lookup_insert_ne]).
  assert (sinking (order_of (<[top := l]> Ls)) 0 0 heap') as Hs.
  { split; [done|]; split; [| intros; lia]; intros i _ Hi c a b Hc Ea Eb.
    assert ((top :: rest) !! c = Some a /\ (top :: rest) !! i = Some b) as [Ea' Eb'].
    { subst heap'; destruct l; [| done]; rewrite !swap_remove_lookup in * by lia; destruct (c <? length rest)%nat, (i <? length rest)%nat; done. }
    assert (a <> top /\ b <> top) as [Hat Hbt].
    { destruct c as [|c]; [lia|]; destruct i as [|i]; [lia|]; cbn [lookup list_lookup] in Ea', Eb'; split; intros ->; apply Hni; [by apply (list_elem_of_lookup_2 _ c) | by apply (list_elem_of_lookup_2 _ i)]. }
    rewrite order_other by done; by eapply (Ho i ltac:(lia) c). }
  assert (Permutation heap' (match l with [] => rest | _ => top :: rest end)) as Hp by (subst heap'; destruct l; [apply swap_remove_perm | done]).
  split; [rewrite Hp; apply Forall_cons in Hin as [? ?]; destruct l; [done | by constructor]|].
  destruct (sift_ok (order_of (<[top := l]> Ls)) (order_asym _) (order_negtrans _) (S (length heap')) 0 0 heap' Hs ltac:(lia)) as [H1 H2]; split; [done | |].
  - rewrite H2, Hp; destruct l; [done | by apply NoDup_cons].
  - intros i; rewrite H2, Hp, Hlk; assert (i ∈ rest -> i <> top) by (by intros ? ->); destruct (decide (i = top)) as [->|Hne].
    + destruct l as [|y l]; [split; [done | by intros (? & ? & ?)] | split; [eauto | set_solver]].
    + rewrite <- (Hh i), elem_of_cons; destruct l; [split; [auto | by intros [|]] | by rewrite elem_of_cons].
Qed.

(** ** The loops *)

Section merge.
Variable fails : Z -> option io_kind.
Variables (standing : SegmentId -> bool) (covered : list SegmentId).

Definition it_segment (x : Item) : SegmentId := loc_segment (rr_loc (it_row x)).
Definition it_lsn (x : Item) : Lsn := rr_lsn (it_row x).
Definition stands (x : Item) : bool := standing (it_segment x).

(** The newest standing row of some. *)
Definition newest_ok (newest : option (RunRow * Z)) items : Prop :=
  match newest with
  | Some (row, place) => exists x, x ∈ items /\ it_row x = row /\ it_place x = place /\ stands x = true /\ forall y, y ∈ items -> stands y = true -> it_lsn y <= it_lsn x
  | None => forall y, y ∈ items -> stands y = false
  end.

Lemma newest_step newest items x : newest_ok newest items ->
  newest_ok (if standing (loc_segment (rr_loc (it_row x))) && match newest with Some (held, _) => rr_lsn held <? rr_lsn (it_row x) | None => true end then Some (it_row x, it_place x) else newest) (items ++ [x]).
Proof.
  intros Hn; fold (it_segment x) (it_lsn x); fold (stands x); destruct (stands x) eqn:Es; cbn [andb].
  - destruct newest as [[held place]|]; [destruct Hn as (z & Hz & <- & <- & Hsz & Hmax); fold (it_lsn z); destruct (Z.ltb_spec (it_lsn z) (it_lsn x))|].
    + exists x; split_and!; [set_solver | done | done | done |]; intros y [Hy|Ey%list_elem_of_singleton]%elem_of_app Hsy; [specialize (Hmax y Hy Hsy); lia | subst y; lia].
    + exists z; split_and!; [set_solver | done | done | done |]; intros y [Hy|Ey%list_elem_of_singleton]%elem_of_app Hsy; [by apply Hmax | subst y; lia].
    + exists x; split_and!; [set_solver | done | done | done |]; intros y [Hy|Ey%list_elem_of_singleton]%elem_of_app Hsy; [by rewrite (Hn y Hy) in Hsy | subst y; lia].
  - destruct newest as [[held place]|]; [destruct Hn as (z & Hz & H1 & H2 & Hsz & Hmax); exists z; split_and!; [set_solver | done | done | done |] |]; intros y [Hy|Ey%list_elem_of_singleton]%elem_of_app; [by apply Hmax | subst y; congruence | by apply Hn | subst y; done].
Qed.

Lemma concat_advance Ls top x l : Ls !! top = Some (x :: l) -> Permutation (concat Ls) (x :: concat (<[top := l]> Ls)).
Proof.
  intros E; apply list_elem_of_split_length in E as (l1 & l2 & -> & ->); rewrite insert_app_r_alt, Nat.sub_diag by done; cbn [insert list_insert]; rewrite !concat_app; cbn [concat]; by rewrite Permutation_middle.
Qed.

Lemma sorted_advance Ls top x l : sorted_lists Ls -> Ls !! top = Some (x :: l) -> sorted_lists (<[top := l]> Ls).
Proof. intros Hs E; unfold sorted_lists in *; apply Forall_insert; [done|]; rewrite Forall_lookup in Hs; specialize (Hs top _ E); cbn [map] in Hs; by apply StronglySorted_inv in Hs as [? _]. Qed.

Record merging Ls cursors heap : Prop := { mg_reps : reps Ls cursors; mg_heap : heap_ok Ls heap; mg_sorted : sorted_lists Ls }.

Lemma merging_top Ls cursors top rest : merging Ls cursors (top :: rest) -> exists x l c c', Ls !! top = Some (x :: l) /\ cursors !! top = Some c /\ Cursor_key c = Some (it_key x) /\ Cursor_row c = Ok (it_row x, it_place x)
  /\ Cursor_advance c = Ok c' /\ Cursor_key c' = head_key l /\ reps (<[top := l]> Ls) (<[top := c']> cursors) /\ (top < length cursors)%nat.
Proof.
  intros [Hr [_ _ Hh] _]; destruct (proj1 (Hh top) ltac:(set_solver)) as (x & l & E); destruct (Forall2_lookup_l _ _ _ _ _ Hr E) as (c & Ec & Hc); pose proof Hc as (H1 & H2 & c' & H3 & H4).
  exists x, l, c, c'; split_and!; try done; [by apply rep_key | by apply Forall2_insert | by eapply lookup_lt_Some].
Qed.

Lemma advance_ok Ls cursors top rest x l c' : merging Ls cursors (top :: rest) -> Ls !! top = Some (x :: l) -> reps (<[top := l]> Ls) (<[top := c']> cursors) -> Cursor_key c' = head_key l ->
  let heap := match Cursor_key c' with None => swap_remove_first (top :: rest) | Some _ => top :: rest end in
  exists heap', sift_down (S (length heap)) heap (<[top := c']> cursors) 0 = Ok heap' /\ merging (<[top := l]> Ls) (<[top := c']> cursors) heap'.
Proof.
  intros [Hr Hh Hs] E Hr' Ek heap; destruct (advance_heap Ls top rest x l Hh E) as [Hin Hok]; assert (heap = match l with [] => swap_remove_first (top :: rest) | _ => top :: rest end) as Eh by (subst heap; rewrite Ek; by destruct l).
  rewrite <- Eh in Hin, Hok; eexists; split; [apply (sift_down_ok (<[top := l]> Ls)); [done | | lia | lia] | split; [done | exact Hok | by eapply sorted_advance]].
  rewrite length_insert, <- (Forall2_length _ _ _ Hr); done.
Qed.

Lemma same_key_ok key fuel : forall Ls cursors heap newest seen seen_items, merging Ls cursors heap -> (forall y, y ∈ concat Ls -> bytes_le key (it_key y)) -> newest_ok newest seen_items -> (length (concat Ls) < fuel)%nat ->
  exists cursors' heap' newest' seen' Ls' more, same_key_loop standing fuel cursors heap key newest seen = Ok (cursors', heap', newest', seen') /\ merging Ls' cursors' heap'
    /\ Permutation (concat Ls) (more ++ concat Ls') /\ Forall (fun y => it_key y = key) more /\ newest_ok newest' (seen_items ++ more) /\ (forall y, y ∈ concat Ls' -> bytes_lt key (it_key y)).
Proof.
  induction fuel as [|fuel IH]; intros Ls cursors heap newest seen seen_items Hm Hge Hn Hf; [lia|]; cbn [same_key_loop]; destruct heap as [|top rest].
  { exists cursors, [], newest, seen, Ls, []; rewrite app_nil_r; split_and!; try done; intros y Hy; exfalso; apply list_elem_of_In, in_concat in Hy as (ly & Hly & Hy); apply list_elem_of_In in Hly, Hy; apply list_elem_of_lookup in Hly as [i Ei]; destruct ly as [|z ly]; [by apply elem_of_nil in Hy|].
    pose proof (proj2 (hp_holds _ _ (mg_heap _ _ _ Hm) i)) as Hi; specialize (Hi ltac:(eauto)); by apply elem_of_nil in Hi. }
  destruct (merging_top _ _ _ _ Hm) as (x & l & c & c' & El & Ec & Ek & Er & Ea & Ek' & Hr' & Hlt); unfold idx; rewrite Ec; res_simpl; rewrite Ek.
  pose proof (fun y Hy => top_least Ls (top :: rest) top rest x l y (mg_heap _ _ _ Hm) (mg_sorted _ _ _ Hm) eq_refl El Hy) as Hleast; destruct (bool_decide (Some (it_key x) = Some key)) eqn:Eb; cbn [negb].
  - apply bool_decide_eq_true in Eb as [= Exk]; rewrite Er, Ea; res_simpl; rewrite set_idx_Ok by done; res_simpl.
    destruct (advance_ok _ _ _ _ _ _ _ Hm El Hr' Ek') as (heap' & -> & Hm'); res_simpl; pose proof (concat_advance _ _ _ _ El) as Hp.
    destruct (IH _ _ _ (if standing (loc_segment (rr_loc (it_row x))) && match newest with Some (held, _) => rr_lsn held <? rr_lsn (it_row x) | None => true end then Some (it_row x, it_place x) else newest) (seen + 1) (seen_items ++ [x]) Hm')
      as (cursors' & heap2 & newest' & seen' & Ls' & more & E & Hm2 & Hp' & Hmore & Hn' & Hgt).
    + intros y Hy; apply Hge; rewrite Hp; set_solver.
    + by apply newest_step.
    + pose proof (Permutation_length Hp) as Hl; cbn [length] in Hl; lia.
    + exists cursors', heap2, newest', seen', Ls', (x :: more); split_and!; [exact E | done | rewrite Hp, Hp'; done | by constructor | by rewrite <- app_assoc in Hn' | done].
  - apply bool_decide_eq_false in Eb; exists cursors, (top :: rest), newest, seen, Ls, []; rewrite app_nil_r; split_and!; try done; intros y Hy.
    assert (bytes_lt key (it_key x)) as Hkx by (assert (x ∈ concat Ls) as Hx by (apply list_elem_of_In, in_concat; exists (x :: l); split; [apply list_elem_of_In; by eapply list_elem_of_lookup_2 | by left]); specialize (Hge x Hx); apply bytes_le_lteq in Hge as [|Hxe]; [done | congruence]).
    apply (bytes_lt_le_trans _ (it_key x)); [done | by apply Hleast].
Qed.

(** ** What is written *)

(** The rows of the column: each key of a standing row once, in order, with its newest. *)
Record merged_ok (out : RunRows) items : Prop := {
  mo_sorted : StronglySorted bytes_lt (map fst out);
  mo_newest k p : (k, p) ∈ out -> exists x, x ∈ items /\ it_key x = k /\ stands x = true /\ get covered (rp_covered p) = Some (it_segment x) /\ rp_row p = it_place x
    /\ forall y, y ∈ items -> it_key y = k -> stands y = true -> it_lsn y <= it_lsn x;
  mo_all y : y ∈ items -> stands y = true -> it_key y ∈ map fst out;
  mo_fewer : len out <= len items;
}.

Lemma binary_search_ok l segment : forall at_, 0 <= at_ -> segment ∈ l -> exists i, binary_search l segment at_ = Some (at_ + i) /\ 0 <= i < len l /\ get l i = Some segment.
Proof.
  induction l as [|x l IH]; intros at_ Ha Hin; [by apply elem_of_nil in Hin|]; cbn [binary_search]; rewrite len_cons; pose proof (len_nonneg l); destruct (Z.eqb_spec x segment) as [->|Hne].
  - exists 0; split_and!; [by rewrite Z.add_0_r | lia | lia | by apply get_hit].
  - apply elem_of_cons in Hin as [->|Hin]; [done|]; destruct (IH (at_ + 1) ltac:(lia) Hin) as (i & -> & Hi & Hg); exists (i + 1); split_and!; [f_equal; lia | lia | lia | rewrite get_tail by lia; by rewrite Z.add_simpl_r].
Qed.

Variables (cols : list (ColumnId * RunRows)) (column : ColumnId).
Hypothesis covered_few : len covered < U32.

Record items_ok items : Prop := {
  im_covered x : x ∈ items -> stands x = true -> it_segment x ∈ covered;
  im_keys x : x ∈ items -> len (it_key x) < U16;
  im_places x : x ∈ items -> is_u32 (it_place x);
}.

Lemma merged_perm out items items' : Permutation items items' -> merged_ok out items -> merged_ok out items'.
Proof.
  intros Hp [H1 H2 H3 H4]; split; [done | | |].
  - intros k p Hin; destruct (H2 k p Hin) as (x & Hx & ? & ? & ? & ? & Hmax); exists x; rewrite <- Hp; split_and!; try done; intros y Hy; apply Hmax; by rewrite Hp.
  - intros y Hy; apply H3; by rewrite Hp.
  - unfold len in *; by rewrite <- (Permutation_length Hp).
Qed.

Lemma items_perm items items' : Permutation items items' -> items_ok items -> items_ok items'.
Proof. intros Hp [H1 H2 H3]; split; intros x Hx; [apply H1 | apply H2 | apply H3]; by rewrite Hp. Qed.

Lemma merged_skip out items more key : merged_ok out items -> Forall (fun y => it_key y = key) more -> (forall k, k ∈ map it_key items -> bytes_lt k key) -> (forall y, y ∈ more -> stands y = false) -> merged_ok out (items ++ more).
Proof.
  intros [H1 H2 H3 H4] Hk Hlt Hn; split; [done | | |].
  - intros k p Hin; destruct (H2 k p Hin) as (x & Hx & ? & ? & ? & ? & Hmax); exists x; split_and!; try done; [set_solver|]; intros y [Hy|Hy]%elem_of_app Hyk Hys; [by apply Hmax | by rewrite (Hn y Hy) in Hys].
  - intros y [Hy|Hy]%elem_of_app Hys; [by apply H3 | by rewrite (Hn y Hy) in Hys].
  - rewrite len_app; pose proof (len_nonneg more); lia.
Qed.

Lemma out_before out items key : merged_ok out items -> (forall k, k ∈ map it_key items -> bytes_lt k key) -> forall k, k ∈ map fst out -> bytes_lt k key.
Proof.
  intros Ho Hlt k Hk; apply list_elem_of_fmap in Hk as ([k' p] & -> & Hin); destruct (mo_newest _ _ Ho k' p Hin) as (x & Hx & <- & _); apply Hlt; by apply (list_elem_of_fmap_2 it_key).
Qed.

Lemma merged_push out items more key z p : merged_ok out items -> Forall (fun y => it_key y = key) more -> (forall k, k ∈ map it_key items -> bytes_lt k key) ->
  z ∈ more -> stands z = true -> get covered (rp_covered p) = Some (it_segment z) -> rp_row p = it_place z -> (forall y, y ∈ more -> stands y = true -> it_lsn y <= it_lsn z) -> merged_ok (out ++ [(key, p)]) (items ++ more).
Proof.
  intros Ho Hk Hlt Hz Hs Hc Hp Hmax; pose proof (out_before _ _ _ Ho Hlt) as Hout; rewrite Forall_forall in Hk; destruct Ho as [H1 H2 H3 H4]; split.
  - rewrite map_app; apply StronglySorted_app; split_and!; [intros a b Ha ->%list_elem_of_singleton; by apply Hout | done | repeat constructor].
  - intros k q [Hin|E%list_elem_of_singleton]%elem_of_app.
    + destruct (H2 k q Hin) as (x & Hx & Ex & ? & ? & ? & Hmx); exists x; split_and!; try done; [set_solver|]; intros y [Hy|Hy]%elem_of_app Hyk Hys; [by apply Hmx|]; exfalso; rewrite (Hk y Hy) in Hyk; subst k.
      apply (bytes_lt_irrefl key), Hout; rewrite Hyk; exact (list_elem_of_fmap_2 fst out (it_key x, q) Hin).
    + injection E as -> ->; exists z; split_and!; [set_solver | by apply Hk | done | done | done |]; intros y [Hy|Hy]%elem_of_app Hyk Hys; [| by apply Hmax]; exfalso; apply (bytes_lt_irrefl key); rewrite <- Hyk at 1; apply Hlt; by apply (list_elem_of_fmap_2 it_key).
  - intros y [Hy|Hy]%elem_of_app Hys; rewrite map_app, elem_of_app; [left; by apply H3 | right; rewrite (Hk y Hy); cbn; set_solver].
  - rewrite !len_app; change (len [(key, p)]) with 1; destruct more as [|m more]; [by apply elem_of_nil in Hz|]; rewrite len_cons; pose proof (len_nonneg more); lia.
Qed.

Lemma no_items Ls cursors : merging Ls cursors [] -> concat Ls = [].
Proof.
  intros Hm; destruct (concat Ls) as [|y r] eqn:E; [done | exfalso]; assert (y ∈ concat Ls) as Hy by (rewrite E; by left).
  apply list_elem_of_In, in_concat in Hy as (ly & Hly & Hy); apply list_elem_of_In in Hly, Hy; apply list_elem_of_lookup in Hly as [i Ei]; destruct ly as [|z ly]; [by apply elem_of_nil in Hy|].
  pose proof (proj2 (hp_holds _ _ (mg_heap _ _ _ Hm) i)) as Hi'; specialize (Hi' ltac:(eauto)); by apply elem_of_nil in Hi'.
Qed.

(** A key's rows, taken from what is left, are all of one key and before the rest. *)
Lemma order_after (done_items more rest : list Item) key : (forall k, k ∈ map it_key done_items -> bytes_lt k key) -> Forall (fun y => it_key y = key) more -> (forall y, y ∈ rest -> bytes_lt key (it_key y)) ->
  forall k y, k ∈ map it_key (done_items ++ more) -> y ∈ rest -> bytes_lt k (it_key y).
Proof.
  intros Hbefore Hmore Hgt k y Hk Hy; rewrite map_app in Hk; apply elem_of_app in Hk as [Hk|Hk]; [apply (bytes_lt_trans _ key); [by apply Hbefore | by apply Hgt]|].
  apply list_elem_of_fmap in Hk as (z & -> & Hz); rewrite Forall_forall in Hmore; rewrite (Hmore z Hz); by apply Hgt.
Qed.

Lemma merge_loop_ok fuel : forall Ls cursors heap w report done_items out, merging Ls cursors heap -> writer_ok w (cols ++ [(column, out)]) -> merged_ok out done_items -> items_ok (done_items ++ concat Ls) ->
  (forall k y, k ∈ map it_key done_items -> y ∈ concat Ls -> bytes_lt k (it_key y)) -> (length (concat Ls) < fuel)%nat -> len (all_rows cols) + 8 * len (done_items ++ concat Ls) < U64 ->
  or_fails fails (fun '(w', _) => exists out', writer_ok w' (cols ++ [(column, out')]) /\ merged_ok out' (done_items ++ concat Ls)) (merge_loop fails standing covered fuel cursors heap w report).
Proof.
  induction fuel as [|fuel IH]; intros Ls cursors heap w report done_items out Hm Hw Ho Hi Hord Hf Hsize; [lia|]; cbn [merge_loop]; destruct heap as [|top rest].
  { rewrite (no_items _ _ Hm), app_nil_r; by exists out. }
  destruct (merging_top _ _ _ _ Hm) as (x & l & c & c' & El & Ec & Ek & _ & _ & _ & _ & Hlt); unfold idx; rewrite Ec; res_simpl; rewrite Ek; cbn [default id]; set (key := it_key x).
  destruct (same_key_ok key (S fuel) Ls cursors (top :: rest) None 0 [] Hm) as (cursors' & heap' & newest & seen & Ls' & more & -> & Hm' & Hp & Hmore & Hn & Hgt).
  { intros y Hy; by apply (top_least Ls (top :: rest) top rest x l y (mg_heap _ _ _ Hm) (mg_sorted _ _ _ Hm)). }
  { by intros y ?%elem_of_nil. }
  { done. }
  res_simpl; rewrite app_nil_l in Hn; assert (x ∈ concat Ls) as Hx by (apply list_elem_of_In, in_concat; exists (x :: l); split; [apply list_elem_of_In; by eapply list_elem_of_lookup_2 | by left]).
  assert (forall k, k ∈ map it_key done_items -> bytes_lt k key) as Hbefore by (intros k Hk; by apply Hord).
  assert (Permutation (done_items ++ concat Ls) ((done_items ++ more) ++ concat Ls')) as Hperm by (rewrite <- app_assoc; by apply Permutation_app_head).
  assert (0 < length more)%nat as Hpos.
  { destruct more; [| cbn; lia]; cbn [app] in Hp; rewrite Hp in Hx; specialize (Hgt x Hx); by apply bytes_lt_irrefl in Hgt. }
  assert (length (concat Ls') < fuel)%nat as Hf' by (pose proof (Permutation_length Hp) as El'; rewrite length_app in El'; lia).
  assert (forall w' out' report', writer_ok w' (cols ++ [(column, out')]) -> merged_ok out' (done_items ++ more) ->
    or_fails fails (fun '(w'', _) => exists out'', writer_ok w'' (cols ++ [(column, out'')]) /\ merged_ok out'' (done_items ++ concat Ls)) (merge_loop fails standing covered fuel cursors' heap' w' report')) as Hgo.
  { intros w' out' report' Hw' Ho'; eapply or_fails_mono; [| apply (IH Ls' cursors' heap' w' report' (done_items ++ more) out' Hm' Hw' Ho' (items_perm _ _ Hperm Hi)); [by eapply order_after | done | unfold len in *; by rewrite <- (Permutation_length Hperm)]].
    intros [w2 r2] (out'' & H1 & H2); exists out''; split; [done | by eapply merged_perm; [symmetry; exact Hperm|]]. }
  destruct newest as [[row place]|].
  2:{ res_simpl; apply (Hgo w out); [done | by eapply merged_skip]. }
  destruct Hn as (z & Hz & <- & <- & Hs & Hmax); assert (z ∈ done_items ++ concat Ls) as Hz' by (rewrite Hp; set_solver).
  destruct (binary_search_ok covered (it_segment z) 0 ltac:(lia) (im_covered _ Hi z Hz' Hs)) as (i & Eb & Hil & Hgi); unfold it_segment in Eb at 1; rewrite Eb; res_simpl; rewrite (as_u32_small (0 + i)) by (unfold is_u32, U32 in *; lia); cbn [Z.add].
  assert (merged_ok (out ++ [(key, mkRunPointer i (it_place z))]) (done_items ++ more)) as Ho' by (by apply (merged_push _ _ _ _ z)).
  eapply or_fails_bind; [apply (push_row_ok fails w cols column out (key, mkRunPointer i (it_place z)) Hw) | intros w' Hw'; by apply (Hgo w' _ _ Hw')].
  - pose proof (mo_fewer _ _ Ho') as Hfew; assert (len (done_items ++ more) <= len (done_items ++ concat Ls)) as Hmore' by (unfold len; rewrite (Permutation_length Hperm), !length_app; lia).
    rewrite all_rows_snoc, len_app, len_rows_bytes; cbn [snd]; lia.
  - apply Ho'.
  - apply (im_keys _ Hi z Hz') || (cbn [fst]; subst key; by apply (im_keys _ Hi x); set_solver).
Qed.
End merge.

(** ** The first heap *)

Lemma heapify_from Ls cursors k : forall heap, reps Ls cursors -> Forall (fun x => (x < length cursors)%nat) heap -> heap_from (order_of Ls) k heap ->
  exists heap', foldm (fun heap at_ => sift_down (S (length heap)) heap cursors at_) (rev (seq 0 k)) heap = Ok heap' /\ heap_from (order_of Ls) 0 heap' /\ Permutation heap' heap.
Proof.
  induction k as [|k IH]; intros heap Hr Hin Hh; [by exists heap|]; rewrite seq_S, rev_app_distr; cbn [rev app foldm Nat.add]; rewrite (sift_down_ok Ls) by (done || lia); res_simpl.
  assert (sinking (order_of Ls) k k heap) as Hs by (split_and!; [lia | intros i Hi Hne; apply Hh; lia | intros; lia]).
  destruct (sift_ok (order_of Ls) (order_asym _) (order_negtrans _) (S (length heap)) k k heap Hs ltac:(lia)) as [H1 H2].
  destruct (IH (sift (order_of Ls) (S (length heap)) heap k) Hr ltac:(by rewrite H2) H1) as (heap' & E & H3 & H4); exists heap'; split_and!; [done | done | by rewrite H4].
Qed.

Lemma standing_cursors_in Ls cursors i : reps Ls cursors -> i ∈ standing_cursors cursors <-> exists x l, Ls !! i = Some (x :: l).
Proof.
  intros Hr; unfold standing_cursors; rewrite list_elem_of_In, filter_In, in_seq; split.
  - intros [Hi Hk]; destruct (cursors !! i) as [c|] eqn:Ec; [| done]; destruct (Forall2_lookup_r _ _ _ _ _ Hr Ec) as (l & El & Hl); rewrite (rep_key _ _ Hl) in Hk; destruct l as [|x l]; [done | eauto].
  - intros (x & l & El); destruct (Forall2_lookup_l _ _ _ _ _ Hr El) as (c & Ec & Hc); rewrite Ec, (rep_key _ _ Hc); apply lookup_lt_Some in Ec; split; [lia | done].
Qed.

Lemma heapify_ok Ls cursors : reps Ls cursors -> sorted_lists Ls -> exists heap, heapify cursors (standing_cursors cursors) = Ok heap /\ merging Ls cursors heap.
Proof.
  intros Hr Hs; set (h := standing_cursors cursors); assert (Forall (fun x => (x < length cursors)%nat) h) as Hin.
  { apply Forall_forall; intros i (x & l & E)%(standing_cursors_in Ls); [| done]; rewrite <- (Forall2_length _ _ _ Hr); by eapply lookup_lt_Some. }
  destruct (heapify_from Ls cursors (length h / 2) h Hr Hin) as (heap & E & H1 & H2).
  { intros i Hi c x y Hc Ex; apply lookup_lt_Some in Ex; pose proof (Nat.div_mod_eq (length h) 2); pose proof (Nat.mod_upper_bound (length h) 2); lia. }
  exists heap; split; [done|]; split; [done | split; [done | | intros i; rewrite H2; by apply standing_cursors_in] | done].
  rewrite H2; apply NoDup_ListNoDup, List.NoDup_filter, seq_NoDup.
Qed.

(** ** What the sources' cursors hold *)

Fixpoint footer_items (segment : SegmentId) (at_ : Z) (es : list erow) : list Item :=
  match es with [] => [] | e :: es => mkItem e.1 (RunRow_of segment e.2) at_ :: footer_items segment (at_ + 1) es end.

Lemma footer_cursor_rep segment p es : part_rep p es -> len es < U32 -> forall n, (n <= length es)%nat -> cursor_rep (footer_items segment (Z.of_nat n) (drop n es)) (CursorFooter segment p (Z.of_nat n)).
Proof.
  intros Hp Hl n Hn; remember (length es - n)%nat as m eqn:Em; revert n Hn Em; induction m as [|m IH]; intros n Hn Em.
  - rewrite drop_ge by lia; cbn [footer_items cursor_rep Cursor_key]; rewrite (part_key_at p es n Hp), lookup_ge_None_2 by lia; done.
  - destruct (lookup_lt_is_Some_2 es n ltac:(lia)) as [e Ee]; rewrite (drop_S es e n Ee); cbn [footer_items cursor_rep Cursor_key Cursor_row Cursor_advance it_key it_row it_place].
    rewrite (part_key_at p es n Hp), Ee, (part_row_at p es n e Hp Ee); res_simpl; rewrite as_u32_small by (unfold len, is_u32 in *; lia); split_and!; [done | done|].
    eexists; split; [done|]; replace (Z.of_nat n + 1) with (Z.of_nat (S n)) by lia; apply IH; lia.
Qed.

Definition key_items (read : RowReader) (rows : RunRows) : list Item :=
  omap (fun '(_, p) => match read p with Ok (Some (key, row)) => Some (mkItem key row (rp_row p)) | _ => None end) rows.

(** A reader that answers each row's own key, or skips it. *)
Definition reads_own (read : RowReader) (rows : RunRows) : Prop := forall k p, (k, p) ∈ rows -> read p = Ok None \/ exists row, read p = Ok (Some (k, row)).

Section keys.
Variables (read : RowReader) (run : KeyRun) (rc : RunColumn) (col : ColumnId * RunRows).
Hypotheses (Hcol : column_holds run rc col) (Hread : reads_own read col.2).

Lemma settle_loop_ok fuel : forall n, (n <= length col.2)%nat -> (length col.2 - n < fuel)%nat ->
  exists (m : nat) current, settle_loop fuel run rc read (Z.of_nat n) = Ok (Z.of_nat m, current) /\ (n <= m)%nat
    /\ match current with
       | Some (key, row, place) => (m < length col.2)%nat /\ key_items read (drop n col.2) = mkItem key row place :: key_items read (drop (S m) col.2)
       | None => key_items read (drop n col.2) = []
       end.
Proof.
  induction fuel as [|fuel IH]; intros n Hn Hf; [lia|]; cbn [settle_loop]; rewrite (ch_rows _ _ _ Hcol); unfold len; destruct (Z.ltb_spec (Z.of_nat n) (Z.of_nat (length col.2))) as [Hlt|Hge].
  2:{ exists n, None; rewrite drop_ge by lia; done. }
  destruct (lookup_lt_is_Some_2 col.2 n ltac:(lia)) as [[k p] Ekp]; rewrite (ch_pointer _ _ _ Hcol n k p Ekp); res_simpl; rewrite (drop_S col.2 (k, p) n Ekp); unfold key_items; cbn [omap list_omap].
  destruct (Hread k p ltac:(by eapply list_elem_of_lookup_2)) as [E|[row E]]; rewrite E; res_simpl.
  - replace (Z.of_nat n + 1) with (Z.of_nat (S n)) by lia; destruct (IH (S n) ltac:(lia) ltac:(lia)) as (m & current & -> & Hm & Hcur); exists m, current; split_and!; [done | lia | done].
  - exists n, (Some (k, row, rp_row p)); split_and!; [done | lia | lia | done].
Qed.

Lemma settle_ok m : forall n current, (length col.2 - n <= m)%nat -> (n <= length col.2)%nat ->
  exists c, Cursor_settle (CursorKeys run rc read (Z.of_nat n) current) = Ok c /\ cursor_rep (key_items read (drop n col.2)) c.
Proof.
  induction m as [|m IH]; intros n current Hm Hn; cbn [Cursor_settle]; rewrite (ch_rows _ _ _ Hcol); (destruct (settle_loop_ok (S (Z.to_nat (len col.2 - Z.of_nat n))) n Hn ltac:(unfold len; lia)) as (i & [[[key row] place]|] & -> & Hi & Hcur); res_simpl; (eexists; split; [done|])).
  1,3: lia || (destruct Hcur as [Hlt ->]; cbn [cursor_rep Cursor_key Cursor_row Cursor_advance it_key it_row it_place]; split_and!; [done | done|]; replace (Z.of_nat i + 1) with (Z.of_nat (S i)) by lia; apply IH; lia).
  all: by rewrite Hcur.
Qed.

Lemma keys_cursor_rep : exists c, Cursor_keys run rc read = Ok c /\ cursor_rep (key_items read col.2) c.
Proof. apply (settle_ok (length col.2) 0 None); lia. Qed.
End keys.
