(* ===== verification/KeyMergeRun.v ===== *)
(** * The run a merge leaves ([compaction/keymerge.rs])

    The columns of the sources, merged one after another into one run: what each source holds of a
    column, one column's merge over all of them, and the finished run; what a failure leaves on the
    volume; and the claims that stand at every step. *)
From S2P Require Import Prelude Error Arrays Bytes Lsn Column Record Filter FooterRow Varint Prefix PackedCursor Partition Footer KeyRun KeyRunFile KeyRunSeek KeyRunSet KeyMerge KeyMergeProofs.

Implicit Types (items : list Item) (Ls : list (list Item)) (sources : list Source).

(** ** Runs that fit *)

Lemma StronglySorted_NoDup {A} (R : A -> A -> Prop) l : (forall x, ~ R x x) -> StronglySorted R l -> NoDup l.
Proof. intros Hirr; induction 1 as [|x l _ IH Hf]; constructor; [| done]; intros Hin; rewrite Forall_forall in Hf; by apply (Hirr x), Hf. Qed.

Lemma len_concat_perm {A} (l k : list (list A)) : Permutation l k -> len (concat l) = len (concat k).
Proof. induction 1; cbn [concat]; rewrite ?len_app; lia. Qed.

Lemma len_concat_within {A} (l k : list (list A)) : NoDup l -> (forall x, x ∈ l -> x ∈ k) -> len (concat l) <= len (concat k).
Proof.
  intros Hn Hin; destruct (submseteq_Permutation l k (NoDup_submseteq l k Hn Hin)) as [k' Hk]; rewrite (len_concat_perm _ _ Hk), concat_app, len_app; pose proof (len_nonneg (concat k')); lia.
Qed.

Lemma leads_within rows : forall n, len (concat (leads_from n rows)) <= len (concat (map fst rows)) /\ len (leads_from n rows) <= len rows.
Proof.
  induction rows as [|[k p] rows IH]; intros n; cbn [leads_from map concat fst]; [done|]; destruct (IH (n + 1)) as [H1 H2]; rewrite len_cons; destruct (_ =? 0); cbn [app concat]; rewrite ?len_app, ?len_cons; pose proof (len_nonneg k); lia.
Qed.

Lemma len_fences keys : len (concat (map enc_fence keys)) = 2 * len keys + len (concat keys).
Proof. induction keys as [|key keys IH]; [done|]; cbn [map concat]; unfold enc_fence at 1; rewrite !len_app, len_u16_le, len_cons, IH; lia. Qed.

Lemma column_size col : col_ok col -> len (rows_bytes col.2) <= 8 * U32 /\ len (fence_block col.2) <= 4 * U32.
Proof.
  intros [_ _ Hk _ Hl Hr]; rewrite len_rows_bytes; split; [lia|]; unfold fence_block, fences, enc_fence at 2; rewrite !len_app, len_fences, len_u16_le; destruct (leads_within col.2 0) as [_ Hn].
  assert (len (last_key col.2) < U16) as Hlast; [| unfold U16, U32 in *; lia].
  unfold last_key; destruct (last col.2) as [x|] eqn:E; [| done]; apply last_Some in E as [l' El]; rewrite El in Hk; apply Forall_app in Hk as [_ Hk]; exact (Forall_inv Hk).
Qed.

Lemma sum_of_columns {A} (f : A -> bytes) (l : list A) m : Forall (fun x => len (f x) <= m) l -> len (concat (map f l)) <= m * len l.
Proof. induction 1 as [|x l Hx _ IH]; cbn [map concat]; [rewrite (len_nil (A := A)); unfold len; cbn; lia|]; rewrite len_app, len_cons; lia. Qed.

Lemma small_run_fits outs covered : Forall col_ok outs -> StronglySorted Z.lt (map fst outs) -> len outs <= 256 -> Forall is_u32 covered -> len covered < U32 -> run_fits outs covered.
Proof.
  intros Hc Ho Hn Hcv Hcn; split; try done; [unfold U32; lia|]; unfold run_bytes, run_trailer; rewrite !len_app, len_u64_le, !len_u32_le, len_run_directory.
  assert (len (all_rows outs) <= 8 * U32 * len outs) as H1 by (apply sum_of_columns; eapply Forall_impl; [exact Hc | intros col Hcol; by apply column_size]).
  assert (len (all_fences outs) <= 4 * U32 * len outs) as H2 by (apply sum_of_columns; eapply Forall_impl; [exact Hc | intros col Hcol; by apply column_size]).
  assert (len (concat (map u32_le covered)) <= 4 * len covered) as H3 by (apply sum_of_columns, Forall_forall; intros x _; by rewrite len_u32_le).
  change RUN_DIRECTORY_ROW with 29; pose proof (len_nonneg outs); unfold U32, U64 in *; lia.
Qed.

Lemma few_columns columns : StronglySorted Z.lt columns -> Forall is_u8 columns -> len columns <= 256.
Proof.
  intros Hs Hu; assert (NoDup columns) as Hn by (apply (StronglySorted_NoDup Z.lt); [intros x; lia | done]).
  assert (columns ⊆+ seqZ 0 256) as H%submseteq_length; [| rewrite length_seqZ in H; unfold len; lia].
  apply NoDup_submseteq; [done|]; intros x Hx; rewrite Forall_forall in Hu; specialize (Hu x Hx); apply elem_of_seqZ; unfold is_u8, U8 in Hu; lia.
Qed.

Section sources.
Variables (standing : SegmentId -> bool) (covered : list SegmentId) (rows_at : ColumnId -> SegmentId -> Z -> res (bytes * FooterRow)).

(** What a source holds of a column: a footer its partition's rows, a run the rows its reader finds. *)
Definition source_holds (column : ColumnId) (source : Source) items : Prop :=
  match source with
  | SourceFooter segment footer =>
      match SegmentFooter_partition footer column with
      | Some p => exists es, part_rep p es /\ keys_sorted es /\ len es < U32 /\ Forall (fun e => len e.1 < U16) es /\ items = footer_items segment 0 es
      | None => items = []
      end
  | SourceKeys run =>
      match KeyRun_column run column with
      | Some rc => exists rows, column_holds run rc (column, rows) /\ reads_own (run_reader standing rows_at run column) rows /\ Forall (fun x => len x.1 < U16) rows /\ items = key_items (run_reader standing rows_at run column) rows
      | None => items = []
      end
  end.

Lemma footer_items_keys segment es : forall at_, map it_key (footer_items segment at_ es) = map fst es.
Proof. induction es as [|e es IH]; intros at_; cbn [footer_items map it_key]; [done | by rewrite IH]. Qed.

Lemma key_items_in read rows x : reads_own read rows -> x ∈ key_items read rows -> exists p, (it_key x, p) ∈ rows /\ read p = Ok (Some (it_key x, it_row x)) /\ it_place x = rp_row p.
Proof.
  intros Hread ([k p] & Hin & E)%list_elem_of_omap; destruct (Hread k p Hin) as [Er|[row Er]]; rewrite Er in E; [done|]; injection E as <-; by exists p.
Qed.

Lemma key_items_sorted read rows : reads_own read rows -> StronglySorted bytes_lt (map fst rows) -> StronglySorted bytes_le (map it_key (key_items read rows)).
Proof.
  intros Hread; induction rows as [|[k p] rows IH]; [constructor|]; cbn [map fst]; intros [Hs Hf]%StronglySorted_inv.
  assert (reads_own read rows) as Hr' by (intros k' p' H; apply Hread; by right); unfold key_items; cbn [omap list_omap]; fold (key_items read rows); destruct (Hread k p ltac:(by left)) as [E|[row E]]; rewrite E; [by apply IH|].
  cbn [map it_key]; constructor; [by apply IH|]; apply Forall_forall; intros j (x & -> & Hx)%list_elem_of_fmap; destruct (key_items_in _ _ _ Hr' Hx) as (q & Hq & _).
  rewrite Forall_forall in Hf; apply bytes_lt_le, Hf; exact (list_elem_of_fmap_2 fst rows (it_key x, q) Hq).
Qed.

Lemma footer_items_length segment es : forall at_, length (footer_items segment at_ es) = length es.
Proof. induction es as [|e es IH]; intros at_; cbn [footer_items length]; [done | by rewrite IH]. Qed.

Lemma omap_length_le {A B} (f : A -> option B) l : (length (omap f l) <= length l)%nat.
Proof. induction l as [|x l IH]; cbn; [done|]; destruct (f x); cbn; lia. Qed.

Lemma settled_rows run rc read at_ current c : Cursor_settle (CursorKeys run rc read at_ current) = Ok c -> Cursor_rows c = rc_rows rc.
Proof. cbn [Cursor_settle]; intros ([at' current'] & _ & [= <-])%bind_Ok; done. Qed.

Lemma source_cursor_ok column source items : source_holds column source items ->
  (source_cursor standing rows_at column source = Ok None /\ items = [])
  \/ exists c, source_cursor standing rows_at column source = Ok (Some c) /\ cursor_rep items c /\ StronglySorted bytes_le (map it_key items) /\ (length items <= Z.to_nat (Cursor_rows c))%nat.
Proof.
  destruct source as [segment footer|run]; cbn [source_holds source_cursor].
  - destruct (SegmentFooter_partition footer column) as [p|]; [| auto]; intros (es & Hp & Hs & Hl & _ & ->); right; eexists; split; [done|]; split_and!; [apply (footer_cursor_rep segment p es Hp Hl 0); lia | by rewrite footer_items_keys|].
    cbn [Cursor_rows]; rewrite footer_items_length, (part_len _ _ Hp); unfold len; lia.
  - destruct (KeyRun_column run column) as [rc|]; [| auto]; intros (rows & Hc & Hr & _ & ->); right; destruct (keys_cursor_rep (run_reader standing rows_at run column) run rc (column, rows) Hc Hr) as (c & E & Hrep); rewrite E; exists c; split_and!; [done | done | apply key_items_sorted; [done | apply Hc] |].
    rewrite (settled_rows run rc (run_reader standing rows_at run column) 0 None c E), (ch_rows _ _ _ Hc); cbn [snd]; unfold len; rewrite Nat2Z.id; apply omap_length_le.
Qed.

Lemma source_cursors_ok column sources Ls : Forall2 (source_holds column) sources Ls ->
  exists cs Ls', mapm (source_cursor standing rows_at column) sources = Ok cs /\ reps Ls' (omap id cs) /\ concat Ls' = concat Ls /\ sorted_lists Ls' /\ (length (concat Ls) <= sum_list (map (fun c => Z.to_nat (Cursor_rows c)) (omap id cs)))%nat.
Proof.
  induction 1 as [|source items sources Ls Hs _ (cs & Ls' & E & Hr & Hc & Hsort & Hlen)]; cbn [mapm].
  - exists [], []; split_and!; try done; constructor.
  - destruct (source_cursor_ok _ _ _ Hs) as [[-> ->]|(c & -> & Hrep & Hk & Hl)]; res_simpl; rewrite E; res_simpl; [by exists (None :: cs), Ls'|].
    exists (Some c :: cs), (items :: Ls'); split_and!; [done | by constructor | cbn [concat]; by rewrite Hc | by constructor |].
    cbn [concat]; rewrite length_app; change (omap id (Some c :: cs)) with (c :: omap id cs); cbn [map]; match goal with |- (_ <= sum_list (?x :: ?l))%nat => change (sum_list (x :: l)) with (x + sum_list l)%nat end; lia.
Qed.

(** ** One column *)

Lemma pointer_u32 run rc at_ p : KeyRun_pointer run rc at_ = Ok p -> is_u32 (rp_row p).
Proof.
  unfold KeyRun_pointer; intros (row & _ & (c & _ & (place & Hp & [= <-])%bind_Ok)%bind_Ok)%bind_Ok; cbn [rp_row].
  apply must_Ok in Hp; pose proof (le_val_range place) as Hr; destruct (slice_bounds _ _ _ _ Hp) as (_ & El & _); assert (len place = 4) as E4 by lia; rewrite E4 in Hr; exact Hr.
Qed.

Lemma no_items_ok : items_ok standing covered [].
Proof. split; by intros x ?%elem_of_nil. Qed.

Lemma footer_items_in segment es x : forall at_, x ∈ footer_items segment at_ es -> exists e (i : nat), es !! i = Some e /\ x = mkItem e.1 (RunRow_of segment e.2) (at_ + Z.of_nat i).
Proof.
  induction es as [|e es IH]; intros at_ Hx; cbn [footer_items] in Hx; [by apply elem_of_nil in Hx|]; apply elem_of_cons in Hx as [->|Hx]; [exists e, 0%nat; rewrite Z.add_0_r; done|].
  destruct (IH _ Hx) as (e' & i & He & ->); exists e', (S i); split; [done | f_equal; lia].
Qed.

(** Every row the cursors give lies in a segment the run will cover, once it stands. *)
Lemma source_items_ok column source items : source_holds column source items -> (forall segment, segment ∈ source_covered standing source -> segment ∈ covered) -> items_ok standing covered items.
Proof.
  intros Hh Hc; destruct source as [segment footer|run]; cbn [source_holds source_covered] in *.
  - destruct (SegmentFooter_partition footer column) as [p|]; [| subst items; apply no_items_ok]; destruct Hh as (es & _ & _ & Hl & Hk & ->); split.
    + intros x Hx _; destruct (footer_items_in _ _ _ _ Hx) as (e & i & _ & ->); apply Hc; by left.
    + intros x Hx; destruct (footer_items_in _ _ _ _ Hx) as (e & i & Hi & ->); cbn [it_key]; rewrite Forall_lookup in Hk; by eapply Hk.
    + intros x Hx; destruct (footer_items_in _ _ _ _ Hx) as (e & i & Hi & ->); cbn [it_place]; apply lookup_lt_Some in Hi; unfold is_u32, len in *; lia.
  - destruct (KeyRun_column run column) as [rc|]; [| subst items; apply no_items_ok]; destruct Hh as (rows & Hch & Hr & Hk & ->); split.
    + intros x Hx Hs; destruct (key_items_in _ _ _ Hr Hx) as (p & Hp & Er & _); apply Hc, list_elem_of_In, filter_In; split; [| exact Hs]; apply list_elem_of_In; unfold run_reader, FooterRows_read in Er.
      destruct (get (kr_covered run) (rp_covered p)) as [segment|] eqn:Eg; [| done]; destruct (negb (standing segment)); [done|]; apply bind_Ok in Er as ([k found] & _ & Er); injection Er as _ Er; unfold it_segment; rewrite <- Er; cbn; apply get_Some in Eg as (p1 & q1 & -> & _); set_solver.
    + intros x Hx; destruct (key_items_in _ _ _ Hr Hx) as (p & Hp & _); rewrite Forall_forall in Hk; exact (Hk _ Hp).
    + intros x Hx; destruct (key_items_in _ _ _ Hr Hx) as (p & Hp & _ & ->); apply list_elem_of_lookup in Hp as [i Hi]; eapply pointer_u32, (ch_pointer _ _ _ Hch); exact Hi.
Qed.

Variable fails : Z -> option io_kind.
Hypothesis covered_few : len covered < U32.

Lemma merged_nil : merged_ok standing covered [] [].
Proof. split; [constructor | by intros ? ? ?%elem_of_nil | by intros ? ?%elem_of_nil | done]. Qed.

Lemma merge_column_ok cols column sources Ls w report : Forall2 (source_holds column) sources Ls -> items_ok standing covered (concat Ls) -> writer_ok w (cols ++ [(column, [])]) -> len (all_rows cols) + 8 * len (concat Ls) < U64 ->
  or_fails fails (fun '(w', _) => exists out, writer_ok w' (cols ++ [(column, out)]) /\ merged_ok standing covered out (concat Ls)) (merge_column fails standing covered rows_at sources column w report).
Proof.
  intros Hs Hi Hw Hl; destruct (source_cursors_ok _ _ _ Hs) as (cs & Ls' & E & Hr & Hc & Hsort & Hlen); unfold merge_column; rewrite E; res_simpl; destruct (heapify_ok _ _ Hr Hsort) as (heap & Eh & Hm); unfold merge_cursors; rewrite Eh; res_simpl.
  rewrite <- Hc in *; apply (merge_loop_ok fails standing covered cols column covered_few _ Ls' (omap id cs) heap w report [] []); try done; [apply merged_nil | by intros ? ? ?%elem_of_nil | lia].
Qed.

(** ** All the columns *)

Variables (sources : list Source) (items_of : ColumnId -> list (list Item)).

(** What the sources hold of a column: rows the covered segments stand for, few enough of them. *)
Record column_ready (column : ColumnId) : Prop := {
  cr_column : is_u8 column;
  cr_holds : Forall2 (source_holds column) sources (items_of column);
  cr_items : items_ok standing covered (concat (items_of column));
  cr_few : len (concat (items_of column)) < U32;
  cr_keys : len (concat (map it_key (concat (items_of column)))) < U32;
}.

Definition column_out (column : ColumnId) (col : ColumnId * RunRows) : Prop := col.1 = column /\ merged_ok standing covered col.2 (concat (items_of column)).

Lemma merge_columns_ok columns : forall w report cols, writer_ok w cols -> StronglySorted Z.lt (map fst cols ++ columns) -> Forall column_ready columns -> len (all_rows cols) <= 8 * U32 * len cols -> len cols + len columns <= 256 ->
  or_fails fails (fun '(w', _) => exists outs, writer_ok w' (cols ++ outs) /\ Forall2 column_out columns outs)
    (merge_columns fails standing covered rows_at sources columns w report).
Proof.
  unfold merge_columns; induction columns as [|column columns IH]; intros w report cols Hw Ho Hr Hl Hn; cbn [foldm]; [exists []; by rewrite app_nil_r|]; apply Forall_cons in Hr as [[H1 H2 H3 H5 H6] Hr]; rewrite len_cons in Hn; pose proof (len_nonneg columns); pose proof (len_nonneg cols).
  assert (StronglySorted Z.lt (map fst cols ++ [column])) as Ho' by (rewrite cons_middle, app_assoc in Ho; by apply StronglySorted_app in Ho as (_ & ? & _)).
  destruct (begin_column_ok w cols column Hw) as (w' & -> & Hw'); [unfold U32, U64 in *; lia | by rewrite map_app |]; res_simpl.
  eapply or_fails_bind; [apply (merge_column_ok cols column sources (items_of column) w' report H2 H3 Hw'); unfold U32, U64 in *; lia|].
  intros [w2 report2] (out & Hw2 & Hout); cbv beta; eapply or_fails_mono; [| apply (IH w2 report2 (cols ++ [(column, out)]) Hw2); [| done | |]].
  - intros [w3 report3] (outs & Hw3 & Houts); exists ((column, out) :: outs); rewrite <- app_assoc in Hw3; split; [done | by constructor].
  - rewrite map_app, <- app_assoc; exact Ho.
  - pose proof (mo_fewer _ _ _ _ Hout); rewrite all_rows_snoc, !len_app, len_rows_bytes; cbn [snd]; change (len [(column, out)]) with 1; lia.
  - rewrite len_app; change (len [(column, out)]) with 1; lia.
Qed.

Lemma column_out_ok column col : column_ready column -> column_out column col -> col_ok col.
Proof.
  intros [H1 H2 [_ Hk Hp] H5 H6] [<- Ho]; pose proof (mo_sorted _ _ _ _ Ho) as Hs; pose proof (mo_fewer _ _ _ _ Ho) as Hf; split; [done | done | | | | lia].
  - apply Forall_forall; intros [k p] Hin; destruct (mo_newest _ _ _ _ Ho k p Hin) as (x & Hx & <- & _); by apply Hk.
  - apply Forall_forall; intros [k p] Hin; destruct (mo_newest _ _ _ _ Ho k p Hin) as (x & Hx & _ & _ & Hg & Hrow & _); cbn [fst snd]; apply get_bounds in Hg; split; [unfold is_u32; lia | rewrite Hrow; by apply Hp].
  - destruct (leads_within col.2 0) as [Hl _]; assert (len (concat (map fst col.2)) <= len (concat (map it_key (concat (items_of col.1))))) as Hw; [| lia].
    apply len_concat_within; [apply (StronglySorted_NoDup bytes_lt); [intros k; apply bytes_lt_irrefl | done]|]; intros k Hin; apply list_elem_of_fmap in Hin as ([k' p] & -> & Hin); destruct (mo_newest _ _ _ _ Ho k' p Hin) as (x & Hx & <- & _); by apply (list_elem_of_fmap_2 it_key).
Qed.

Lemma columns_out_fit columns outs : Forall column_ready columns -> StronglySorted Z.lt columns -> Forall2 column_out columns outs -> Forall is_u32 covered -> run_fits outs covered.
Proof.
  intros Hr Hs Ho Hcv; assert (map fst outs = columns) as Ec by (clear -Ho; induction Ho as [|column col columns outs [<- _] _ IH]; [done | cbn [map]; by rewrite IH]).
  apply small_run_fits; [| by rewrite Ec | | done | done].
  - clear Hs Ec; induction Ho as [|column col columns outs Hc _ IH]; [constructor|]; apply Forall_cons in Hr as [Hr1 Hr2]; constructor; [by eapply column_out_ok | by apply IH].
  - transitivity (len columns); [unfold len; rewrite <- Ec, length_map; done | apply few_columns; [done|]]; eapply Forall_impl; [exact Hr | by intros column [? _ _ _ _]].
Qed.
End sources.

(** ** The finished run *)

Lemma elem_btree_set l x : x ∈ btree_set l <-> x ∈ l.
Proof. unfold btree_set; by rewrite elem_of_remove_dups, merge_sort_Permutation. Qed.

Lemma remove_dups_sorted l : StronglySorted Z.le l -> StronglySorted Z.lt (remove_dups l).
Proof.
  induction 1 as [|x l _ IH Hf]; cbn [remove_dups]; [constructor|]; destruct (decide_rel _ x l) as [|Hx]; [done|]; constructor; [done|].
  apply Forall_forall; intros y Hy; apply (proj1 (elem_of_remove_dups l y)) in Hy; rewrite Forall_forall in Hf; specialize (Hf y Hy); assert (x <> y) by congruence; lia.
Qed.

Lemma btree_set_sorted l : StronglySorted Z.lt (btree_set l).
Proof. apply remove_dups_sorted, StronglySorted_merge_sort; [intros a b c | intros a b]; lia. Qed.

Lemma covered_of_source standing sources source segment : source ∈ sources -> segment ∈ source_covered standing source -> segment ∈ merged_covered standing sources.
Proof. intros Hs Hin; apply elem_btree_set, list_elem_of_In, in_concat; exists (source_covered standing source); split; [by apply in_map, list_elem_of_In | by apply list_elem_of_In]. Qed.

Lemma all_items_ok standing rows_at covered column sources Ls : Forall2 (source_holds standing rows_at column) sources Ls -> (forall source segment, source ∈ sources -> segment ∈ source_covered standing source -> segment ∈ covered) -> items_ok standing covered (concat Ls).
Proof.
  induction 1 as [|source items sources Ls Hs _ IH]; intros Hc; cbn [concat]; [apply no_items_ok|].
  destruct (source_items_ok standing covered rows_at column source items Hs) as [A1 A2 A3]; [intros segment; apply Hc; by left|]; destruct IH as [B1 B2 B3]; [intros source' segment Hin; apply Hc; by right|].
  split; intros x [Hx|Hx]%elem_of_app; eauto.
Qed.

(** The sources are in order: what each holds of each column they name, few enough rows of each
    column for the file's 32-bit counts, and identifiers of their widths. *)
Record sources_ready standing rows_at (sources : list Source) (items_of : ColumnId -> list (list Item)) : Prop := {
  sr_holds column : column ∈ merged_columns sources -> is_u8 column /\ Forall2 (source_holds standing rows_at column) sources (items_of column)
    /\ len (concat (items_of column)) < U32 /\ len (concat (map it_key (concat (items_of column)))) < U32;
  sr_covered : Forall is_u32 (merged_covered standing sources) /\ len (merged_covered standing sources) < U32;
}.

Lemma sources_columns_ready standing rows_at sources items_of : sources_ready standing rows_at sources items_of -> Forall (column_ready standing (merged_covered standing sources) rows_at sources items_of) (merged_columns sources).
Proof.
  intros [H _]; apply Forall_forall; intros column (H1 & H2 & H3 & H4)%H; split; [done | done | | done | done]; eapply all_items_ok; [exact H2 | intros source segment; apply covered_of_source].
Qed.

(** The files of a directory under one name. *)
Definition files_named (dir : Directory) (name : bytes) : Directory := List.filter (fun file => bytes_eqb file.1 name) dir.

Lemma bytes_eqb_neq a b : a <> b -> bytes_eqb a b = false.
Proof. intros Hne; destruct (bytes_eqb a b) eqn:E; [by apply bytes_eqb_eq in E | done]. Qed.

Lemma unlink_others dir name other : other <> name -> files_named (unlink dir name) other = files_named dir other.
Proof.
  intros Hne; unfold files_named, unlink; induction dir as [|[n c] dir IH]; [done|]; cbn [List.filter fst]; destruct (bytes_eqb n name) eqn:E; cbn [negb List.filter fst].
  - apply bytes_eqb_eq in E as ->; rewrite (bytes_eqb_neq name other) by congruence; exact IH.
  - by rewrite IH.
Qed.

Lemma rename_others dir name contents other : other <> name -> files_named (rename_over dir name contents) other = files_named dir other.
Proof.
  intros Hne; unfold rename_over; rewrite <- (unlink_others dir name other Hne); unfold files_named at 1; rewrite List.filter_app; cbn [List.filter fst]; rewrite (bytes_eqb_neq name other) by congruence; apply app_nil_r.
Qed.

Lemma filter_again {A} (f : A -> bool) l : List.filter f (List.filter f l) = List.filter f l.
Proof. induction l as [|x l IH]; [done|]; cbn [List.filter]; destruct (f x) eqn:E; cbn [List.filter]; rewrite ?E, IH; done. Qed.

(** What a failed run leaves touches only its own two names, and where the driver unlinks only leaves
    the directory as it was or without the run's name. *)
Definition only_own (breaks : FinishCall -> option io_kind) (dir dir' : Directory) (id : Z) : Prop :=
  (breaks CallUnlink = None -> dir' = dir \/ dir' = unlink dir (key_run_name id))
  /\ forall name, name <> key_run_name id -> name <> part_name id -> files_named dir' name = files_named dir name.

Lemma leave_others partial dir id files is_named name : name <> key_run_name id -> name <> part_name id -> files_named (leave_files partial dir id files is_named) name = files_named dir name.
Proof.
  intros H1 H2; unfold leave_files; destruct (rf_temp files); rewrite ?(rename_others _ (part_name id)) by done; destruct (rf_named files); rewrite ?rename_others by done; try done; destruct is_named; by rewrite ?unlink_others.
Qed.

Lemma leave_failed breaks partial dir id cols covered files is_named : failed_files breaks cols covered id files -> only_own breaks dir (leave_files partial dir id files is_named) id.
Proof. intros [Hf _]; split; [| intros; by apply leave_others]; intros E; rewrite (Hf E); unfold leave_files; cbn [rf_named rf_temp]; destruct is_named; auto. Qed.

(** C3: A merge of sources in order either stops at the device's own error, leaving the runs held and
    every other file as they were, and no file of its own unless the device also refuses to unlink
    one; or installs in place of the runs it merged one run that reopens from its file: for each
    column it has, in key order and once, every key with a row in a segment that stands, pointing at
    the newest such row. *)
Theorem merge_installs_newest refuses_file fails breaks reopens partial standing rows_at items_of held s dir sources runs : sources_ready standing rows_at sources items_of ->
  let covered := merged_covered standing sources in
  let s1 := (KeyRunSet_draw_id s).1 in let id := (KeyRunSet_draw_id s).2 in
  exists s' dir' acts result, write_merged refuses_file fails breaks reopens partial standing rows_at held s dir sources runs = (s', dir', acts, result)
    /\ ((exists kind, result = Err (Io kind) /\ (refuses_file = Some kind \/ reopens = Some kind \/ device_failed fails breaks kind) /\ s' = s1
          /\ (breaks CallUnlink = None -> dir' = dir \/ dir' = unlink dir (key_run_name id))
          /\ (forall name, name <> key_run_name id -> name <> part_name id -> files_named dir' name = files_named dir name))
        \/ exists report contents run outs, result = Ok report /\ KeyRun_open contents id = Ok run /\ run_holds run outs covered /\ Forall2 (column_out standing covered items_of) (merged_columns sources) outs
           /\ s' = (KeyRunSet_install s1 run (map kr_id runs)).1
           /\ dir' = fold_left KeyRun_retire (KeyRunSet_install s1 run (map kr_id runs)).2 (rename_over dir (key_run_name id) contents)).
Proof.
  intros Hr covered; unfold write_merged; destruct (KeyRunSet_draw_id s) as [s1 id]; cbn [fst snd]; destruct refuses_file as [kind|].
  { eexists _, _, _, _; split; [done|]; left; exists kind; split_and!; auto. }
  pose proof (sources_columns_ready _ _ _ _ Hr) as Hcols; destruct Hr as [_ [Hcv Hcn]]; fold covered in Hcv, Hcn, Hcols |- *; pose proof (btree_set_sorted (concat (map source_columns sources))) as Hs.
  assert (len (merged_columns sources) <= 256) as Hfew by (apply few_columns; [done|]; eapply Forall_impl; [exact Hcols | by intros column [? _ _ _ _]]).
  pose proof (merge_columns_ok standing covered rows_at fails Hcn sources items_of (merged_columns sources) RunWriter_create (mkMergeReport (len sources) 0 0 0) [] ltac:(by split) Hs Hcols ltac:(done) Hfew) as Hm.
  destruct (merge_columns _ _ _ _ _ _ _ _) as [[w report]|e|]; cbn [or_fails] in Hm; [| destruct Hm as (at_ & kind & Hf & ->) | done].
  2:{ destruct (leave_failed breaks partial dir id [] [] _ false (unlinked_files breaks [] [] id)) as [H1 H2]; eexists _, _, _, _; split; [done|]; left; exists kind; split_and!; [done | right; right; left; by exists at_ | done | exact H1 | exact H2]. }
  destruct Hm as (outs & Hw & Ho); assert (run_fits outs covered) as Hfit by (by eapply columns_out_fit).
  destruct (finish_ok fails breaks w outs covered id Hfit Hw) as [(files & kind & -> & Hdev & Hf)|(file & run & -> & Eo & Hrun)].
  - destruct (leave_failed breaks partial dir id outs covered files (named_run fails breaks w covered) Hf) as [H1 H2]; eexists _, _, _, _; split; [done|]; left; exists kind; split_and!; [done | tauto | done | exact H1 | exact H2].
  - unfold leave_files, open_or_unlink; cbn [rf_named rf_temp default from_option]; unfold Datatypes.id; destruct reopens as [kind|].
    + eexists _, _, _, _; split; [done|]; left; exists kind; split_and!; [done | auto | done | |].
      * unfold unlink_fails; intros ->; right; unfold rename_over, unlink; rewrite List.filter_app; cbn [List.filter fst]; rewrite (proj2 (bytes_eqb_eq _ _)) by done; cbn [negb]; rewrite app_nil_r; apply filter_again.
      * intros name N1 N2; destruct (unlink_fails breaks); rewrite ?unlink_others, ?rename_others by done; done.
    + rewrite Eo; destruct (KeyRunSet_install s1 run (map kr_id runs)) as [s2 retired] eqn:Ei; eexists _, _, _, _; split; [done|]; right; eexists _, file, run, outs; rewrite Ei; split_and!; done.
Qed.

(** ** Claims *)

Lemma drop_claims_eq claims : forall in_flight, drop_claims in_flight claims = in_flight ∖ list_to_set claims.
Proof.
  induction claims as [|segment claims IH]; intros in_flight; cbn [drop_claims fold_left list_to_set]; [set_solver|]; unfold drop_claims in IH; rewrite IH; unfold drop_claim; set_solver.
Qed.

(** Claims taken over what was held before: none of those held, and held now. *)
Definition claimed_over (base in_flight : gset Z) (claims : list SegmentId) : Prop := in_flight = base ∪ list_to_set claims /\ list_to_set claims ## base.

Lemma drop_claimed base in_flight claims : claimed_over base in_flight claims -> drop_claims in_flight claims = base.
Proof. intros [-> Hd]; rewrite drop_claims_eq; set_solver. Qed.

Lemma claim_over base in_flight claims segment in_flight' : claimed_over base in_flight claims -> Compactor_claim in_flight segment = Some in_flight' -> claimed_over base in_flight' (claims ++ [segment]) /\ drop_claim in_flight' segment = in_flight.
Proof.
  intros [-> Hd]; unfold Compactor_claim; case_bool_decide as Hin; [done|]; intros [= <-]; split; [split; rewrite list_to_set_app_L; cbn [list_to_set]; set_solver | unfold drop_claim; set_solver].
Qed.

Section claims.
Variables (holds_sealed : SegmentId -> bool) (footer_of : SegmentId -> res (option SegmentFooter)).

(** Every footer among the sources is of a claimed segment. *)
Definition sources_claimed (claims : list SegmentId) (sources : list Source) : Prop := Forall (fun source => exists segment footer, source = SourceFooter segment footer /\ segment ∈ claims /\ holds_sealed segment = true /\ footer_of segment = Ok (Some footer)) sources.

Lemma claim_segments_ok base segments : forall in_flight claims sources, claimed_over base in_flight claims -> sources_claimed claims sources ->
  match claim_segments holds_sealed footer_of in_flight segments claims sources with
  | (in_flight', Ok (claims', sources')) => claimed_over base in_flight' claims' /\ sources_claimed claims' sources'
  | (in_flight', Err e) => in_flight' = base /\ exists segment, segment ∈ segments /\ footer_of segment = Err e
  | (in_flight', Panic) => in_flight' = base /\ exists segment, segment ∈ segments /\ footer_of segment = Panic
  end.
Proof.
  induction segments as [|segment segments IH]; intros in_flight claims sources Hc Hs; cbn [claim_segments]; [done|].
  assert (forall in_flight claims sources, claimed_over base in_flight claims -> sources_claimed claims sources -> match claim_segments holds_sealed footer_of in_flight segments claims sources with
    | (in_flight', Ok (claims', sources')) => claimed_over base in_flight' claims' /\ sources_claimed claims' sources'
    | (in_flight', Err e) => in_flight' = base /\ exists s, s ∈ segment :: segments /\ footer_of s = Err e
    | (in_flight', Panic) => in_flight' = base /\ exists s, s ∈ segment :: segments /\ footer_of s = Panic end) as Hgo.
  { intros i c so Hc1 Hs1; specialize (IH i c so Hc1 Hs1); destruct (claim_segments _ _ _ _ _ _) as [i' [[? ?]|e|]]; [done | |]; destruct IH as (? & s & Hin & Hf); (split; [done|]; exists s; split; [by right | done]). }
  destruct (Compactor_claim in_flight segment) as [in_flight'|] eqn:E; [| by apply Hgo]; destruct (claim_over _ _ _ _ _ Hc E) as [Hc' Hd]; rewrite Hd.
  destruct (holds_sealed segment) eqn:Eh; cbn [negb]; [| by apply Hgo]; destruct (footer_of segment) as [[footer|]|e|] eqn:Ef; [| by apply Hgo | split; [by apply drop_claimed | exists segment; split; [by left | done]] | split; [by apply drop_claimed | exists segment; split; [by left | done]]].
  apply Hgo; [done|]; apply Forall_app; split; [eapply Forall_impl; [exact Hs|]; cbn; intros source (s & f & -> & H & ?); exists s, f; split_and!; [done | set_solver | tauto | tauto] | apply Forall_singleton; exists segment, footer; split_and!; [done | set_solver | done | done]].
Qed.

Lemma claim_covered_ok base covered : forall in_flight claimed claims, claimed_over base in_flight claims -> claimed = list_to_set claims ->
  match claim_covered holds_sealed in_flight covered claimed claims with
  | (in_flight', Some (_, claims')) => claimed_over base in_flight' claims' /\ (forall segment, segment ∈ claims -> segment ∈ claims') /\ (forall segment, segment ∈ covered -> holds_sealed segment = true -> segment ∈ claims')
  | (in_flight', None) => in_flight' = base
  end.
Proof.
  induction covered as [|segment covered IH]; intros in_flight claimed claims Hc ->; cbn [claim_covered]; [split_and!; [done | done | by intros segment ?%elem_of_nil]|].
  destruct (holds_sealed segment) eqn:Eh; cbn [negb].
  2:{ specialize (IH in_flight (list_to_set claims) claims Hc eq_refl); destruct (claim_covered _ _ _ _ _) as [in_flight' [[? claims']|]]; [| done]; destruct IH as (H1 & H2 & H3); split_and!; [done | done|]; intros s [->|Hs]%elem_of_cons Hh; [congruence | by apply H3]. }
  case_bool_decide as Hin.
  { specialize (IH in_flight (list_to_set claims) claims Hc eq_refl); destruct (claim_covered _ _ _ _ _) as [in_flight' [[? claims']|]]; [| done]; destruct IH as (H1 & H2 & H3); split_and!; [done | done|]; intros s [->|Hs]%elem_of_cons Hh; [apply H2; by apply elem_of_list_to_set in Hin | by apply H3]. }
  destruct (Compactor_claim in_flight segment) as [in_flight'|] eqn:E; [| by apply drop_claimed]; destruct (claim_over _ _ _ _ _ Hc E) as [Hc' _].
  specialize (IH in_flight' ({[ segment ]} ∪ list_to_set claims) (claims ++ [segment]) Hc' ltac:(rewrite list_to_set_app_L; cbn [list_to_set]; set_solver)); destruct (claim_covered _ _ _ _ _) as [in_flight2 [[? claims']|]]; [| done]; destruct IH as (H1 & H2 & H3).
  split_and!; [done | intros s Hs; apply H2; set_solver |]; intros s [->|Hs]%elem_of_cons Hh; [apply H2; set_solver | by apply H3].
Qed.
End claims.

Lemma write_merged_steps refuses_file fails breaks reopens partial standing rows_at held s dir sources runs s' dir' acts result :
  write_merged refuses_file fails breaks reopens partial standing rows_at held s dir sources runs = (s', dir', acts, result) -> acts <> [] /\ Forall (fun step => step.2 = held) acts.
Proof.
  unfold write_merged; intros E; assert (exists list, acts = map (fun act => (act, held)) list /\ list <> []) as (l & -> & Hne).
  { repeat case_match; simplify_eq; eexists; (split; [reflexivity | done]). }
  split; [by destruct l | apply Forall_map, Forall_forall; by intros act _].
Qed.

(** C4: However a merge ends, every claim it took is released. It takes no step on the volume or the
    runs, or it takes every step of it (the file's creation, the merge of its rows, the finish, the
    reopening and the install) while what is claimed is what was claimed before and its own claims,
    which no other pass held: on each sealed segment it read a footer of, and on each sealed segment
    the merged runs cover. So no other pass can claim one of those while a step is taken. *)
Theorem merge_under_claims refuses_file fails breaks reopens partial holds_sealed standing footer_of rows_at st segments runs :
  let '(st', result) := merge_into_key_run refuses_file fails breaks reopens partial holds_sealed standing footer_of rows_at st segments runs in
  ms_in_flight st' = ms_in_flight st
  /\ ((ms_runs st' = ms_runs st /\ ms_dir st' = ms_dir st /\ ms_log st' = ms_log st
       /\ (result = Ok MergeReport_default \/ exists segment, segment ∈ segments /\ match footer_of segment with Err e => result = Err e | Panic => result = Panic | Ok _ => False end))
      \/ exists claims footers held acts, let sources := footers ++ map SourceKeys runs in
         write_merged refuses_file fails breaks reopens partial standing rows_at held (ms_runs st) (ms_dir st) sources runs = (ms_runs st', ms_dir st', acts, result) /\ 2 <= len sources
         /\ ms_log st' = ms_log st ++ acts /\ acts <> []
         /\ (forall act during, (act, during) ∈ acts -> during = ms_in_flight st ∪ list_to_set claims /\ forall segment, segment ∈ claims -> Compactor_claim during segment = None)
         /\ list_to_set claims ## ms_in_flight st /\ sources_claimed holds_sealed footer_of claims footers /\ forall run segment, run ∈ runs -> segment ∈ kr_covered run -> holds_sealed segment = true -> segment ∈ claims).
Proof.
  unfold merge_into_key_run; pose proof (claim_segments_ok holds_sealed footer_of (ms_in_flight st) segments (ms_in_flight st) [] []) as Hseg; destruct (claim_segments _ _ _ _ _ _) as [in_flight [[claims footers]|e|]].
  2,3: destruct Hseg as [-> (segment & Hin & Ef)]; [split; set_solver | constructor|]; split; [done|]; left; split_and!; [done | done | done|]; right; exists segment; by rewrite Ef.
  destruct Hseg as [Hc Hs]; [split; set_solver | constructor|].
  pose proof (claim_covered_ok holds_sealed footer_of (ms_in_flight st) (concat (map kr_covered runs)) in_flight (list_to_set claims) claims Hc eq_refl) as Hcov; destruct (claim_covered _ _ _ _ _) as [in_flight' [[? claims']|]]; [| by subst; split; [| auto 10]].
  destruct Hcov as (H1 & H2 & H3); pose proof (drop_claimed _ _ _ H1) as Hd; destruct (Z.ltb_spec (len (footers ++ map SourceKeys runs)) 2); [split; [done | auto 10]|].
  destruct (write_merged _ _ _ _ _ _ _ _ _ _ _ _) as [[[s dir] acts] result] eqn:Ew; destruct (write_merged_steps _ _ _ _ _ _ _ _ _ _ _ _ _ _ _ _ Ew) as [Hne Hall]; split; [done|]; right; exists claims', footers, in_flight', acts; split_and!; [done | lia | done | done | | apply H1 | |].
  - intros act during Hin; rewrite Forall_forall in Hall; specialize (Hall _ Hin); cbn [snd] in Hall; subst during; destruct H1 as [-> _]; split; [done|]; intros segment Hs'; unfold Compactor_claim; rewrite bool_decide_true; [done | set_solver].
  - eapply Forall_impl; [exact Hs|]; cbn; intros source (segment & footer & -> & Hin & ? & ?); exists segment, footer; split_and!; auto.
  - intros run segment Hr Hin; apply H3, list_elem_of_In, in_concat; exists (kr_covered run); split; [by apply in_map, list_elem_of_In | by apply list_elem_of_In].
Qed.

(** ** At concrete sources *)

Definition demo_es : list erow := [([byte_of 14], mkFooterRow 9 4096 40 Flags_DATA); ([byte_of 40], mkFooterRow 3 8192 64 Flags_DATA)].
Definition demo_part : FooterPartition := mkFooterPartition 1 1 (flat_of demo_es) [] None false.
Definition demo_sources : list Source := [SourceFooter 12 (mkSegmentFooter [demo_part] 3 9 10 (mkFooterTally 0 0)); SourceKeys demo_run].
Definition demo_standing (segment : SegmentId) : bool := (segment =? 5) || (segment =? 12).
Definition demo_rows_at (column : ColumnId) (segment : SegmentId) (row : Z) : res (bytes * FooterRow) := Ok ([byte_of row], mkFooterRow 7 (row * 100) 40 Flags_DATA).
Definition demo_items (column : ColumnId) : list (list Item) := if column =? 1 then [footer_items 12 0 demo_es; key_items (run_reader demo_standing demo_rows_at demo_run 1) demo_rows] else [[]; []].

Lemma merge_demo_part_rep : part_rep demo_part demo_es.
Proof. split; [done | done | done | repeat constructor | repeat constructor; done | done]. Qed.

Lemma demo_run_reads_own : reads_own (run_reader demo_standing demo_rows_at demo_run 1) demo_rows.
Proof.
  intros k p Hin; assert (forallb (fun x => match run_reader demo_standing demo_rows_at demo_run 1 x.2 with Ok None => true | Ok (Some (k, _)) => bytes_eqb k x.1 | _ => false end) demo_rows = true) as Hall by (vm_compute; reflexivity).
  rewrite forallb_forall in Hall; specialize (Hall (k, p) ltac:(by apply list_elem_of_In)); cbn [fst snd] in Hall; destruct (run_reader _ _ _ _ p) as [[[k' row]|]| |]; try done; [right; apply bytes_eqb_eq in Hall as ->; eauto | by left].
Qed.

Lemma demo_sources_ready : sources_ready demo_standing demo_rows_at demo_sources demo_items.
Proof.
  assert (merged_columns demo_sources = [1; 3]) as Ec by (vm_compute; reflexivity).
  assert (merged_covered demo_standing demo_sources = [5; 12]) as Ecv by (vm_compute; reflexivity).
  split; [| rewrite Ecv; split; [repeat (constructor; [done|]); constructor | done]].
  intros column Hin; rewrite Ec in Hin; apply elem_of_cons in Hin as [->|Hin]; [| apply list_elem_of_singleton in Hin as ->].
  - split_and!; [done | | vm_compute; reflexivity | vm_compute; reflexivity]; constructor; [| constructor; [| constructor]]; cbn [source_holds].
    + exists demo_es; split_and!; [exact merge_demo_part_rep | repeat constructor; apply bytes_leb_le; vm_compute; reflexivity | done | repeat constructor | done].
    + exists demo_rows; split_and!; [exact (written_column_holds [] (1, demo_rows) [(3, [])] [5; 9] 4 run_demo_fits) | exact demo_run_reads_own | | done].
      apply (checked _ (fun x => len x.1 <? U16)); [intros x; apply Z.ltb_lt | vm_compute; reflexivity].
  - split_and!; [done | | vm_compute; reflexivity | vm_compute; reflexivity]; constructor; [done | constructor; [| constructor]]; cbn [source_holds].
    exists []; split_and!; [exact (written_column_holds [(1, demo_rows)] (3, []) [] [5; 9] 4 run_demo_fits) | by intros k p ?%elem_of_nil | constructor | done].
Qed.

Lemma merge_installs_newest_witness : exists s' dir' acts report, write_merged None (fun _ => None) (fun _ => None) None [] demo_standing demo_rows_at ∅ demo_set [] demo_sources [demo_run] = (s', dir', acts, Ok report).
Proof.
  destruct (merge_installs_newest None (fun _ => None) (fun _ => None) None [] demo_standing demo_rows_at demo_items ∅ demo_set [] demo_sources [demo_run] demo_sources_ready) as (s' & dir' & acts & result & E & [(kind & _ & [H|[H|[[? H]|(? & _ & H)]]] & _)|(report & ? & ? & ? & Er & _)]); [discriminate | discriminate | discriminate | discriminate|].
  exists s', dir', acts, report; rewrite E, Er; reflexivity.
Defined.
