(* ===== verification/SpotSlot.v ===== *)
(** * Slots of the spot index ([index/spot.rs])

    A sealed key costs sixteen bytes: where its record is, the hash bits that place it, and one word
    that packs a tag, the record's length class and three marks. *)
From S2P Require Import Prelude Error Arrays Bytes Lsn.

(** ** Length classes *)

Definition SMALL_STEP : Z := 64.
Definition SMALL_CLASSES : Z := 16.
Definition CLASSES : Z := 192.
Definition EIGHTHS : list Z := [65536; 71468; 77936; 84990; 92682; 101070; 110218; 120194].

Definition class_bound (class : Z) : Z :=
  let bound :=
    if class <? SMALL_CLASSES then (class + 1) * SMALL_STEP
    else
      let wide := class - SMALL_CLASSES + 1 in
      Z.shiftl (SMALL_CLASSES * SMALL_STEP) (wide / 8) * nth (Z.to_nat (wide mod 8)) EIGHTHS 0 / nth 0 EIGHTHS 0 in
  if U32 - 1 <? bound then U32 - 1 else as_u32 bound.

Definition BOUNDS : list Z := Eval vm_compute in map class_bound (seqZ 0 CLASSES).

(** [slice::partition_point] *)
Fixpoint partition_point {A} (p : A -> bool) (l : list A) : Z :=
  match l with [] => 0 | x :: l => if p x then 1 + partition_point p l else 0 end.

Definition class_of (len_ : Z) : Z := partition_point (fun bound => bound <? len_) BOUNDS.

Definition bound_of (class : Z) : Z := nth (Z.to_nat (Z.min class (CLASSES - 1))) BOUNDS 0.

(** ** Hash bits *)

Definition mix (value : Z) : Z :=
  let value := Z.lxor value (Z.shiftr value 33) in
  let value := as_u64 (value * 0xFF51AFD7ED558CCD) in
  let value := Z.lxor value (Z.shiftr value 33) in
  let value := as_u64 (value * 0xC4CEB9FE1A85EC53) in
  Z.lxor value (Z.shiftr value 33).

Definition spot_shard_of (hash : Z) : Z := Z.shiftr hash 56.
Definition mid_of (hash : Z) : Z := as_u32 (Z.shiftr hash 24).
Definition tag_of (hash : Z) : Z := Z.land hash 0xFFFF.

(** ** Slots *)

Definition TAG_SHIFT : Z := 16.
Definition CLASS_SHIFT : Z := 8.
Definition CLASS_MASK : Z := 0xFF.
Definition SECOND : Z := 1.
Definition GRAVE : Z := 2.
Definition DISPLACED : Z := 4.

Record Slot := mkSlot { sl_segment : Z; sl_offset : Z; sl_mid : Z; sl_meta : Z }.

#[export] Instance Slot_eq_dec : EqDecision Slot.
Proof. solve_decision. Defined.

Definition Slot_default : Slot := mkSlot 0 0 0 0.

Definition Slot_new (hash : Z) (loc : Loc) : Slot :=
  mkSlot (loc_segment loc) (loc_offset loc) (mid_of hash) (Z.lor (as_u32 (Z.shiftl (tag_of hash) TAG_SHIFT)) (as_u32 (Z.shiftl (class_of (loc_len loc)) CLASS_SHIFT))).

Definition Slot_is_empty (s : Slot) : bool := sl_segment s =? 0.
Definition Slot_tag (s : Slot) : Z := Z.shiftr (sl_meta s) TAG_SHIFT.
Definition Slot_class (s : Slot) : Z := Z.land (Z.shiftr (sl_meta s) CLASS_SHIFT) CLASS_MASK.
Definition Slot_bound (s : Slot) : Z := bound_of (Slot_class s).
Definition Slot_is_second (s : Slot) : bool := negb (Z.land (sl_meta s) SECOND =? 0).
Definition Slot_is_grave (s : Slot) : bool := negb (Z.land (sl_meta s) GRAVE =? 0).
Definition Slot_is_displaced (s : Slot) : bool := negb (Z.land (sl_meta s) DISPLACED =? 0).

Definition with_meta (s : Slot) (meta : Z) : Slot := mkSlot (sl_segment s) (sl_offset s) (sl_mid s) meta.

Definition Slot_as_grave (s : Slot) : Slot := with_meta s (Z.lor (sl_meta s) GRAVE).

(** [self.meta |= DISPLACED] *)
Definition as_displaced (s : Slot) : Slot := with_meta s (Z.lor (sl_meta s) DISPLACED).

Definition Slot_least (s : Slot) : Z := if Slot_class s =? 0 then 0 else bound_of (Slot_class s - 1) + 1.
Definition Slot_width (s : Slot) : Z := bound_of (Slot_class s) - Slot_least s.
Definition Slot_middle (s : Slot) : Z := Slot_least s + Slot_width s / 2.

Definition Slot_in_second (s : Slot) (is_second : bool) : Slot := with_meta s (if is_second then Z.lor (sl_meta s) SECOND else Z.ldiff (sl_meta s) SECOND).

Definition Slot_same_place (s other : Slot) : bool := (sl_segment s =? sl_segment other) && (sl_offset s =? sl_offset other) && (sl_mid s =? sl_mid other).
Definition Slot_holds (s : Slot) (hash : Z) : bool := negb (Slot_is_empty s) && (sl_mid s =? mid_of hash) && (Slot_tag s =? tag_of hash).
Definition Slot_at (s : Slot) (loc : Loc) : bool := (sl_segment s =? loc_segment loc) && (sl_offset s =? loc_offset loc).

(** ** Bits of the packed word *)

Record slot_wf (s : Slot) : Prop := { sw_segment : is_u32 (sl_segment s); sw_offset : is_u32 (sl_offset s); sw_mid : is_u32 (sl_mid s); sw_meta : is_u32 (sl_meta s) }.

Lemma testbit_u32 z n : is_u32 z -> 32 <= n -> Z.testbit z n = false.
Proof. intros [H0 H] Hn; destruct (Z.eq_dec z 0) as [->|]; [apply Z.bits_0|]; apply Z.bits_above_log2; [done|]; apply Z.log2_lt_pow2; [lia|]; apply (Z.lt_le_trans _ (2 ^ 32)); [exact H | apply Z.pow_le_mono_r; lia]. Qed.

Lemma mark_bit m k : 0 <= k -> negb (Z.land m (2 ^ k) =? 0) = Z.testbit m k.
Proof.
  intros Hk; assert (Z.land m (2 ^ k) = if Z.testbit m k then 2 ^ k else 0) as ->.
  { apply Z.bits_inj'; intros i Hi; rewrite Z.land_spec, Z.pow2_bits_eqb by lia; destruct (Z.eqb_spec k i) as [->|]; [destruct (Z.testbit m i); rewrite ?Z.pow2_bits_true, ?Z.bits_0 by lia; done|].
    rewrite andb_false_r; destruct (Z.testbit m k); [by rewrite Z.pow2_bits_false by lia | by rewrite Z.bits_0]. }
  destruct (Z.testbit m k); [| done]; destruct (Z.eqb_spec (2 ^ k) 0) as [E|]; [| done]; pose proof (Z.pow_pos_nonneg 2 k); lia.
Qed.

Lemma is_second_bit s : Slot_is_second s = Z.testbit (sl_meta s) 0.
Proof. apply (mark_bit _ 0); lia. Qed.

Lemma is_grave_bit s : Slot_is_grave s = Z.testbit (sl_meta s) 1.
Proof. apply (mark_bit _ 1); lia. Qed.

Lemma is_displaced_bit s : Slot_is_displaced s = Z.testbit (sl_meta s) 2.
Proof. apply (mark_bit _ 2); lia. Qed.

(** A word changed in its low three bits only. *)
Definition same_above (m m' : Z) : Prop := forall i, 3 <= i -> Z.testbit m' i = Z.testbit m i.

Lemma same_above_shift m m' k : 3 <= k -> same_above m m' -> Z.shiftr m' k = Z.shiftr m k.
Proof. intros Hk H; apply Z.bits_inj'; intros i Hi; rewrite !Z.shiftr_spec by done; apply H; lia. Qed.

Lemma same_above_u32 m m' : is_u32 m -> 0 <= m' -> same_above m m' -> is_u32 m'.
Proof.
  intros Hm H0 H; split; [done|]; destruct (Z.eq_dec m' 0) as [->|]; [done|]; change U32 with (2 ^ 32); apply Z.log2_lt_pow2; [lia|].
  destruct (Z.lt_ge_cases (Z.log2 m') 32) as [|Hge]; [done|]; pose proof (Z.bit_log2 m' ltac:(lia)) as Hb; rewrite H, (testbit_u32 m) in Hb by (done || lia); done.
Qed.

Lemma in_second_bits s b i : 0 <= i -> Z.testbit (sl_meta (Slot_in_second s b)) i = if i =? 0 then b else Z.testbit (sl_meta s) i.
Proof.
  intros Hi; unfold Slot_in_second, SECOND; cbn [with_meta sl_meta]; change 1 with (2 ^ 0); destruct b; [rewrite Z.lor_spec | rewrite Z.ldiff_spec]; rewrite Z.pow2_bits_eqb by lia; rewrite (Z.eqb_sym 0 i); destruct (i =? 0) eqn:E; rewrite ?orb_true_r, ?orb_false_r, ?andb_false_r, ?andb_true_r; done.
Qed.

Lemma in_second_above s b : same_above (sl_meta s) (sl_meta (Slot_in_second s b)).
Proof. intros i Hi; rewrite in_second_bits by lia; by destruct (Z.eqb_spec i 0); [lia|]. Qed.

Lemma is_second_in_second s b : Slot_is_second (Slot_in_second s b) = b.
Proof. by rewrite is_second_bit, in_second_bits. Qed.

Lemma slot_eq_bits s s' : sl_segment s = sl_segment s' -> sl_offset s = sl_offset s' -> sl_mid s = sl_mid s' -> (forall i, 0 <= i -> Z.testbit (sl_meta s) i = Z.testbit (sl_meta s') i) -> s = s'.
Proof. destruct s, s'; cbn; intros -> -> -> H; f_equal; apply Z.bits_inj'; apply H. Qed.

Lemma in_second_twice s a b : Slot_in_second (Slot_in_second s a) b = Slot_in_second s b.
Proof. apply slot_eq_bits; try done; intros i Hi; rewrite !in_second_bits by done; by destruct (i =? 0). Qed.

Lemma in_second_same s : Slot_in_second s (Slot_is_second s) = s.
Proof. apply slot_eq_bits; try done; intros i Hi; rewrite in_second_bits, is_second_bit by done; by destruct (Z.eqb_spec i 0) as [->|]. Qed.

Lemma in_second_tag s b : Slot_tag (Slot_in_second s b) = Slot_tag s.
Proof. apply same_above_shift; [done | apply in_second_above]. Qed.

Lemma in_second_displaced s b : Slot_is_displaced (Slot_in_second s b) = Slot_is_displaced s.
Proof. by rewrite !is_displaced_bit, in_second_bits. Qed.

Lemma in_second_grave s b : Slot_is_grave (Slot_in_second s b) = Slot_is_grave s.
Proof. by rewrite !is_grave_bit, in_second_bits. Qed.

Lemma in_second_wf s b : slot_wf s -> slot_wf (Slot_in_second s b).
Proof.
  intros [H1 H2 H3 H4]; split; try done; apply (same_above_u32 (sl_meta s)); [done | | apply in_second_above].
  cbn; destruct b; [apply Z.lor_nonneg; unfold SECOND, is_u32 in *; lia | apply Z.ldiff_nonneg; unfold is_u32 in *; lia].
Qed.

Lemma as_displaced_bits s i : 0 <= i -> Z.testbit (sl_meta (as_displaced s)) i = if i =? 2 then true else Z.testbit (sl_meta s) i.
Proof.
  intros Hi; unfold as_displaced, DISPLACED; cbn [with_meta sl_meta]; change 4 with (2 ^ 2); rewrite Z.lor_spec, Z.pow2_bits_eqb by lia; rewrite (Z.eqb_sym 2 i); destruct (i =? 2) eqn:E; [apply orb_true_r | apply orb_false_r].
Qed.

Lemma as_displaced_above s : same_above (sl_meta s) (sl_meta (as_displaced s)).
Proof. intros i Hi; rewrite as_displaced_bits by lia; by destruct (Z.eqb_spec i 2); [lia|]. Qed.

Lemma as_displaced_tag s : Slot_tag (as_displaced s) = Slot_tag s.
Proof. apply same_above_shift; [done | apply as_displaced_above]. Qed.

Lemma as_displaced_second s : Slot_is_second (as_displaced s) = Slot_is_second s.
Proof. by rewrite !is_second_bit, as_displaced_bits. Qed.

Lemma as_displaced_in_second s b : as_displaced (Slot_in_second s b) = Slot_in_second (as_displaced s) b.
Proof. apply slot_eq_bits; try done; intros i Hi; rewrite as_displaced_bits, !in_second_bits, as_displaced_bits by done; destruct (Z.eqb_spec i 2), (Z.eqb_spec i 0); done || lia. Qed.

Lemma as_displaced_wf s : slot_wf s -> slot_wf (as_displaced s).
Proof.
  intros [H1 H2 H3 H4]; split; try done; apply (same_above_u32 (sl_meta s)); [done | | apply as_displaced_above]; cbn; apply Z.lor_nonneg; unfold DISPLACED, is_u32 in *; lia.
Qed.

(** ** What a fresh slot holds *)

Lemma partition_point_spec {A} (p : A -> bool) l : 0 <= partition_point p l <= len l
  /\ (forall (i : nat) x, l !! i = Some x -> Z.of_nat i < partition_point p l -> p x = true) /\ (forall x, l !! Z.to_nat (partition_point p l) = Some x -> p x = false).
Proof.
  induction l as [|y l IH]; cbn [partition_point]; [split_and!; [done | done | by intros [|i] | done]|]; destruct IH as (Hb & Hlt & Hat); rewrite len_cons; destruct (p y) eqn:E.
  - split_and!; [lia | lia | |].
    + intros [|i] x Hx Hi; [by injection Hx as <- | apply (Hlt i x Hx); lia].
    + intros x; replace (Z.to_nat (1 + partition_point p l)) with (S (Z.to_nat (partition_point p l))) by lia; apply Hat.
  - split_and!; [lia | pose proof (len_nonneg l); lia | lia |]; intros x [= <-]; done.
Qed.

Lemma bound_of_lookup c : 0 <= c < CLASSES -> BOUNDS !! Z.to_nat c = Some (bound_of c).
Proof.
  intros Hc; unfold bound_of; rewrite Z.min_l by (unfold CLASSES in *; lia); rewrite nth_lookup; destruct (BOUNDS !! Z.to_nat c) eqn:E; [done|]; apply lookup_ge_None in E; change (length BOUNDS) with (Z.to_nat CLASSES) in E; lia.
Qed.

(** A length's class is in range, its bound covers the length and the class below's does not. *)
Lemma class_of_spec n : is_u32 n -> 0 <= class_of n < CLASSES /\ n <= bound_of (class_of n) /\ (0 < class_of n -> bound_of (class_of n - 1) < n).
Proof.
  intros Hn; unfold class_of; destruct (partition_point_spec (fun bound => bound <? n) BOUNDS) as (Hb & Hlt & Hat); change (len BOUNDS) with CLASSES in Hb; set (c := partition_point _ _) in *.
  assert (c < CLASSES) as Hc.
  { destruct (Z.lt_ge_cases c CLASSES) as [|Hge]; [done | exfalso]; assert (BOUNDS !! 191%nat = Some (U32 - 1)) as E by reflexivity; specialize (Hlt _ _ E ltac:(unfold CLASSES in Hge; lia)); cbv beta in Hlt; apply Z.ltb_lt in Hlt; unfold is_u32 in Hn; lia. }
  split_and!; [lia | done | |].
  - specialize (Hat _ (bound_of_lookup c ltac:(lia))); cbv beta in Hat; by apply Z.ltb_ge in Hat.
  - intros Hpos; assert (BOUNDS !! Z.to_nat (c - 1) = Some (bound_of (c - 1))) as E by (apply bound_of_lookup; lia); specialize (Hlt _ _ E ltac:(lia)); cbv beta in Hlt; by apply Z.ltb_lt in Hlt.
Qed.

Lemma tag_of_range hash : 0 <= tag_of hash < 2 ^ 16.
Proof. unfold tag_of; change 0xFFFF with (Z.ones 16); rewrite Z.land_ones by done; apply Z.mod_pos_bound; done. Qed.

Lemma new_meta hash loc : is_u32 (loc_len loc) -> sl_meta (Slot_new hash loc) = tag_of hash * 2 ^ 16 + class_of (loc_len loc) * 2 ^ 8.
Proof.
  intros Hl; destruct (class_of_spec _ Hl) as (Hc & _); pose proof (tag_of_range hash) as Ht; unfold Slot_new, TAG_SHIFT, CLASS_SHIFT; cbn [sl_meta]; rewrite !Z.shiftl_mul_pow2 by done; rewrite !as_u32_small by (unfold is_u32, U32, CLASSES in *; lia).
  rewrite <- Z.lxor_lor, <- Z.add_nocarry_lxor; [done | |]; apply (land_shifted (tag_of hash) (class_of (loc_len loc) * 2 ^ 8) 16); unfold CLASSES in *; lia.
Qed.

Lemma new_tag hash loc : is_u32 (loc_len loc) -> Slot_tag (Slot_new hash loc) = tag_of hash.
Proof. intros Hl; unfold Slot_tag, TAG_SHIFT; rewrite new_meta, Z.shiftr_div_pow2 by done; destruct (class_of_spec _ Hl) as (Hc & _); unfold CLASSES in Hc; Z.to_euclidean_division_equations; lia. Qed.

Lemma new_class hash loc : is_u32 (loc_len loc) -> Slot_class (Slot_new hash loc) = class_of (loc_len loc).
Proof.
  intros Hl; unfold Slot_class, CLASS_SHIFT, CLASS_MASK; rewrite new_meta, Z.shiftr_div_pow2 by done; change 0xFF with (Z.ones 8); rewrite Z.land_ones by done; destruct (class_of_spec _ Hl) as (Hc & _); unfold CLASSES in Hc; Z.to_euclidean_division_equations; lia.
Qed.

Lemma new_marks hash loc i : is_u32 (loc_len loc) -> 0 <= i < 8 -> Z.testbit (sl_meta (Slot_new hash loc)) i = false.
Proof.
  intros Hl Hi; rewrite new_meta by done; replace (tag_of hash * 2 ^ 16 + class_of (loc_len loc) * 2 ^ 8) with ((tag_of hash * 2 ^ 8 + class_of (loc_len loc)) * 2 ^ 8) by lia; apply Z.mul_pow2_bits_low; lia.
Qed.

Lemma new_wf hash loc : is_u32 (loc_segment loc) -> is_u32 (loc_offset loc) -> is_u32 (loc_len loc) -> slot_wf (Slot_new hash loc).
Proof.
  intros H1 H2 H3; split; [done | done | |].
  - cbn; unfold mid_of, as_u32, is_u32; apply Z.mod_pos_bound; done.
  - rewrite new_meta by done; destruct (class_of_spec _ H3) as (Hc & _); pose proof (tag_of_range hash); unfold is_u32, U32, CLASSES in *; lia.
Qed.

(** C13: A slot made for a record keeps its place and its key's hash bits, is no grave and not
    displaced, and brackets the record's length: at least the least of its class, at most its bound,
    with the middle that is booked unread between them. *)
Theorem slot_brackets_length hash loc : is_u32 (loc_segment loc) -> is_u32 (loc_offset loc) -> is_u32 (loc_len loc) -> loc_segment loc <> 0 ->
  let s := Slot_new hash loc in
  slot_wf s /\ Slot_at s loc = true /\ Slot_holds s hash = true /\ Slot_is_second s = false /\ Slot_is_grave s = false /\ Slot_is_displaced s = false
  /\ Slot_least s <= loc_len loc <= Slot_bound s /\ Slot_least s <= Slot_middle s <= Slot_bound s.
Proof.
  intros H1 H2 H3 H0 s; destruct (class_of_spec _ H3) as (Hc & Hle & Hlt); assert (Slot_class s = class_of (loc_len loc)) as Ec by (by apply new_class).
  assert (Slot_least s <= loc_len loc <= Slot_bound s) as Hb.
  { unfold Slot_least, Slot_bound; rewrite Ec; destruct (Z.eqb_spec (class_of (loc_len loc)) 0); [unfold is_u32 in H3; lia | specialize (Hlt ltac:(lia)); lia]. }
  split_and!; [by apply new_wf | | | | | | lia | lia | |].
  - unfold Slot_at, s; cbn; by rewrite !Z.eqb_refl.
  - unfold Slot_holds, Slot_is_empty; subst s; rewrite (new_tag hash loc H3); cbn; rewrite (proj2 (Z.eqb_neq _ _) H0), !Z.eqb_refl; done.
  - rewrite is_second_bit; by apply new_marks.
  - rewrite is_grave_bit; by apply new_marks.
  - rewrite is_displaced_bit; by apply new_marks.
  - unfold Slot_middle, Slot_width; fold (Slot_bound s); Z.to_euclidean_division_equations; lia.
  - unfold Slot_middle, Slot_width; fold (Slot_bound s); Z.to_euclidean_division_equations; lia.
Qed.

Lemma slot_brackets_length_witness : Slot_least (Slot_new 77 (mkLoc 3 4096 1500)) <= 1500 <= Slot_bound (Slot_new 77 (mkLoc 3 4096 1500)).
Proof. apply (slot_brackets_length 77 (mkLoc 3 4096 1500)); done. Defined.
