(* ===== verification/SpotTable.v ===== *)
(** * The tables of the spot index ([index/spot.rs])

    Each shard of a spot column is a table of four-slot buckets. A slot may stand in either of two
    buckets its hash bits name; when both are full others are kicked along, the table grows, and a
    slot that still finds no room is spilled to a list every look scans. *)
From S2P Require Import Prelude Error Arrays Bytes Lsn SpotSlot.
From Stdlib Require Import SpecFloat.

Definition WAYS : Z := 4.
Definition MAX_KICKS : nat := 256.
Definition MAX_CANDIDATES : Z := 2 * WAYS.
Definition SPILLED : Z := U64 - 1.

(** ** Places *)

Record Place := mkPlace { pl_bucket : Z; pl_way : Z; pl_slot : Slot }.

#[export] Instance Place_eq_dec : EqDecision Place.
Proof. solve_decision. Defined.

(** The first [count] of the fixed array, and every place once they outgrow it. *)
Record Places := mkPlaces { ps_held : list Place; ps_more : list Place }.

Definition Places_new : Places := mkPlaces [] [].

Definition Places_push (found : Places) (place : Place) : res Places :=
  if len (ps_held found) <? MAX_CANDIDATES then Ok (mkPlaces (ps_held found ++ [place]) (ps_more found)) else Panic.

Definition Places_push_spilled (found : Places) (place : Place) : res Places :=
  if len (ps_held found) <? MAX_CANDIDATES then Places_push found place
  else
    let more := if len (ps_more found) =? 0 then ps_held found else ps_more found in
    Ok (mkPlaces (ps_held found) (more ++ [place])).

(** [Deref]: the places as a slice. *)
Definition places (found : Places) : list Place := if len (ps_more found) =? 0 then ps_held found else ps_more found.

(** ** Tables *)

(** [tb_phase] is the shard's number, of which the source's phase is the 256th part. *)
Record Table := mkTable { tb_buckets : list (list Slot); tb_spilled : list Slot; tb_homes : Z; tb_held : Z; tb_seed : Z; tb_phase : Z }.

Definition with_buckets_of (t : Table) buckets : Table := mkTable buckets (tb_spilled t) (tb_homes t) (tb_held t) (tb_seed t) (tb_phase t).
Definition with_held (t : Table) held : Table := mkTable (tb_buckets t) (tb_spilled t) (tb_homes t) held (tb_seed t) (tb_phase t).

Definition Bucket_default : list Slot := replicate (Z.to_nat WAYS) Slot_default.

Definition Table_with_buckets (count phase : Z) : Table :=
  let homes := Z.max count 2 in
  mkTable (replicate (Z.to_nat homes) Bucket_default) [] homes 0 (as_u64 count) phase.

Implicit Types (t : Table) (slot : Slot) (hash bucket : Z).

Definition Table_home t (mid : Z) : Z := Z.shiftr (as_u64 (mid * tb_homes t)) 32.

Definition Table_step t (tag : Z) : Z := 1 + mix tag mod (len (tb_buckets t) - 1).

Definition Table_other t bucket slot : Z :=
  let count := len (tb_buckets t) in
  let step := Table_step t (Slot_tag slot) in
  if Slot_is_second slot then (bucket + count - step) mod count else (bucket + step) mod count.

Definition pair_of t (mid tag : Z) : Z * Z :=
  let home := Table_home t mid in
  (home, (home + Table_step t tag) mod len (tb_buckets t)).

Definition Table_pair t hash : Z * Z := pair_of t (mid_of hash) (tag_of hash).

Definition bucket_at t bucket : res (list Slot) := idx (tb_buckets t) (Z.to_nat bucket).

Definition set_slot t bucket (way : Z) slot : res Table :=
  slots ← bucket_at t bucket;
  slots ← set_idx slots (Z.to_nat way) slot;
  buckets ← set_idx (tb_buckets t) (Z.to_nat bucket) slots;
  Ok (with_buckets_of t buckets).

Definition Table_set_at t (at_ : Z) slot : res Table := set_slot t (at_ / WAYS) (at_ mod WAYS) slot.

(** ** Looking *)

(** The slots numbered from a place on. *)
Fixpoint enumerate {A} (n : Z) (l : list A) : list (Z * A) := match l with [] => [] | x :: l => (n, x) :: enumerate (n + 1) l end.

Definition bucket_matches t hash (found : Places) (look : Z * bool) : res Places :=
  let '(bucket, is_second) := look in
  slots ← bucket_at t bucket;
  foldm (fun found '(way, slot) => if Slot_holds slot hash && Bool.eqb (Slot_is_second slot) is_second then Places_push found (mkPlace bucket way slot) else Ok found) (enumerate 0 slots) found.

Definition Table_spilled_matches t hash (found : Places) : res Places :=
  foldm (fun found '(way, slot) => if Slot_holds slot hash then Places_push_spilled found (mkPlace SPILLED way slot) else Ok found) (enumerate 0 (tb_spilled t)) found.

Definition Table_matches t hash : res Places :=
  let '(home, second) := Table_pair t hash in
  found ← foldm (bucket_matches t hash) [(home, false); (second, true)] Places_new;
  if negb (len (tb_spilled t) =? 0) then Table_spilled_matches t hash found else Ok found.

(** ** Placing *)

Definition Table_pair_shared t slot : res bool :=
  let '(home, second) := pair_of t (sl_mid slot) (Slot_tag slot) in
  let shared bucket := slots ← bucket_at t bucket; Ok (forallb (fun held => negb (Slot_is_empty held) && (sl_mid held =? sl_mid slot) && (Slot_tag held =? Slot_tag slot)) slots) in
  a ← shared home;
  if negb a then Ok false else shared second.

Definition Table_spill t slot : Table := mkTable (tb_buckets t) (tb_spilled t ++ [slot]) (tb_homes t) (tb_held t + 1) (tb_seed t) (tb_phase t).

Fixpoint position {A} (p : A -> bool) (l : list A) : option Z :=
  match l with [] => None | x :: l => if p x then Some 0 else match position p l with Some i => Some (i + 1) | None => None end end.

Definition Table_free_way t bucket : res (option Z) := slots ← bucket_at t bucket; Ok (position Slot_is_empty slots).

(** A slot put in a free way of a bucket, and counted. *)
Definition take_way t bucket slot : res (option Table) :=
  free ← Table_free_way t bucket;
  match free with
  | Some way => t ← set_slot t bucket way slot; Ok (Some (with_held t (tb_held t + 1)))
  | None => Ok None
  end.

(** Kicks: the slot moving goes in a random way of its bucket, and what stood there moves on. *)
Fixpoint kick (kicks : nat) t bucket (moving : Slot) : res (Table * option Slot) :=
  match kicks with
  | O => Ok (t, Some moving)
  | S kicks =>
      let t := mkTable (tb_buckets t) (tb_spilled t) (tb_homes t) (tb_held t) (mix (tb_seed t)) (tb_phase t) in
      let way := tb_seed t mod WAYS in
      slots ← bucket_at t bucket;
      evicted ← idx slots (Z.to_nat way);
      t ← set_slot t bucket way moving;
      let bucket := Table_other t bucket evicted in
      let moving := Slot_in_second evicted (negb (Slot_is_second evicted)) in
      taken ← take_way t bucket moving;
      match taken with Some t => Ok (t, None) | None => kick kicks t bucket moving end
  end.

(** The table with the slot in, or with the slot left homeless. *)
Definition Table_place t slot : res (Table * option Slot) :=
  let '(home, second) := pair_of t (sl_mid slot) (Slot_tag slot) in
  first ← take_way t home (Slot_in_second slot false);
  match first with
  | Some t => Ok (t, None)
  | None =>
      other ← take_way t second (Slot_in_second slot true);
      match other with
      | Some t => Ok (t, None)
      | None =>
          shared ← Table_pair_shared t slot;
          if (shared : bool) then Ok (t, Some slot) else kick MAX_KICKS t home (Slot_in_second slot false)
      end
  end.

(** ** Growing *)

(** [value as f64] of a count, rounded to nearest, and [0.85_f64]. *)
Definition f64_of (z : Z) : spec_float := binary_normalize 53 1024 z 0 false.
Definition LOAD : spec_float := S754_finite false 7656119366529843 (-53).

Definition Table_is_full t : bool := SFleb (SFmul 53 1024 (f64_of (tb_homes t * WAYS)) LOAD) (f64_of (tb_held t)).

(** The ladder of sizes a shard grows along, which the source computes with [ln] and [powf]: what it
    rounds to for a shard's first table and above so many homes. *)
Class Ladder := { ladder_first : Z -> Z; ladder_above : Z -> Z -> Z }.

Section grow.
Context `{Ladder}.

Definition next_rung (homes phase : Z) : Z := Z.max (ladder_above phase homes) (homes + 1).

Definition first_rung (phase : Z) : Z := ladder_first phase.

(** A slot placed in the table being built, or spilled there. *)
Definition place_or_spill t slot : res Table :=
  '(t, homeless) ← Table_place t slot;
  Ok (match homeless with Some slot => Table_spill t slot | None => t end).

Definition Table_grown t : res Table :=
  foldm place_or_spill (List.filter (fun slot => negb (Slot_is_empty slot)) (concat (tb_buckets t) ++ tb_spilled t)) (Table_with_buckets (next_rung (tb_homes t) (tb_phase t)) (tb_phase t)).

Definition Table_insert t slot : res Table :=
  t ← (if Table_is_full t then Table_grown t else Ok t);
  '(t, homeless) ← Table_place t slot;
  match homeless with
  | None => Ok t
  | Some homeless =>
      shared ← Table_pair_shared t homeless;
      if (shared : bool) then Ok (Table_spill t homeless)
      else
        t ← Table_grown t;
        '(t, left_) ← Table_place t homeless;
        match left_ with None => Ok t | Some homeless => Ok (Table_spill t homeless) end
  end.
End grow.

(** ** Taking out *)

(** [Vec::swap_remove] *)
Definition swap_remove {A} (l : list A) (i : Z) : res (list A) :=
  x ← must (last l);
  if negb ((0 <=? i) && (i <? len l)) then Panic
  else Ok (if i =? len l - 1 then removelast l else <[Z.to_nat i := x]> (removelast l)).

Definition Table_take t hash slot : res (Table * option Slot) :=
  found ← Table_matches t hash;
  match List.find (fun place => Slot_same_place (pl_slot place) slot) (places found) with
  | None => Ok (t, None)
  | Some place =>
      t ← (if pl_bucket place =? SPILLED then
             spilled ← swap_remove (tb_spilled t) (pl_way place);
             Ok (mkTable (tb_buckets t) spilled (tb_homes t) (tb_held t) (tb_seed t) (tb_phase t))
           else Table_set_at t (pl_bucket place * WAYS + pl_way place) Slot_default);
      Ok (with_held t (tb_held t - 1), Some (pl_slot place))
  end.

Definition Table_mark_displaced t hash slot : res (Table * bool) :=
  found ← Table_matches t hash;
  match List.find (fun place => Slot_same_place (pl_slot place) slot && negb (Slot_is_displaced (pl_slot place))) (places found) with
  | None => Ok (t, false)
  | Some place =>
      if pl_bucket place =? SPILLED then
        held ← idx (tb_spilled t) (Z.to_nat (pl_way place));
        spilled ← set_idx (tb_spilled t) (Z.to_nat (pl_way place)) (as_displaced held);
        Ok (mkTable (tb_buckets t) spilled (tb_homes t) (tb_held t) (tb_seed t) (tb_phase t), true)
      else
        slots ← bucket_at t (pl_bucket place);
        held ← idx slots (Z.to_nat (pl_way place));
        t ← set_slot t (pl_bucket place) (pl_way place) (as_displaced held);
        Ok (t, true)
  end.

(** A sweep's slot: kept, or emptied and counted. *)
Definition drop_slot (keep : Slot -> bool) slot : Slot := if negb (Slot_is_empty slot) && negb (keep slot) then Slot_default else slot.
Definition dropped (keep : Slot -> bool) (l : list Slot) : list Slot := List.filter (fun slot => negb (Slot_is_empty slot) && negb (keep slot)) l.

Definition Table_retain t (keep : Slot -> bool) : Table * (Z * Z) :=
  let out := dropped keep (concat (tb_buckets t)) ++ List.filter (fun slot => negb (keep slot)) (tb_spilled t) in
  let held := tb_held t - len out in
  (mkTable (map (map (drop_slot keep)) (tb_buckets t)) (List.filter keep (tb_spilled t)) (tb_homes t) held (tb_seed t) (tb_phase t),
   (tb_held t - held, len (List.filter Slot_is_displaced out))).
