(* ===== verification/SpotTableRep.v ===== *)
(** * What a spot table holds ([index/spot.rs])

    A table stands for the slots it holds, wherever kicks and spills left them: a list up to its order,
    the mark of the second bucket aside. Placing, kicking, growing and spilling never lose or repeat
    one. *)
From S2P Require Import Prelude Error Arrays Bytes Lsn SpotSlot SpotTable.

Implicit Types (t : Table) (slot s : Slot) (hash bucket : Z).

Definition is_filled_slot s : bool := negb (Slot_is_empty s).
Definition norm s : Slot := Slot_in_second s false.

(** The slots held, as they stand and as what they stand for. *)
Definition filled t : list Slot := List.filter is_filled_slot (concat (tb_buckets t) ++ tb_spilled t).
Definition contents t : list Slot := map norm (filled t).

(** The bucket of the pair a slot's mark names. *)
Definition bucket_of t s : Z := (if Slot_is_second s then snd else fst) (pair_of t (sl_mid s) (Slot_tag s)).

Record table_shape t : Prop := {
  to_homes : len (tb_buckets t) = tb_homes t;
  to_two : 2 <= tb_homes t;
  to_ways : Forall (fun slots => length slots = 4%nat) (tb_buckets t);
  to_wf : Forall slot_wf (concat (tb_buckets t) ++ tb_spilled t);
  to_place (b w : nat) slots s : tb_buckets t !! b = Some slots -> slots !! w = Some s -> is_filled_slot s = true -> Z.of_nat b = bucket_of t s;
  to_spilled : Forall (fun s => is_filled_slot s = true) (tb_spilled t);
}.

Definition table_ok t : Prop := table_shape t /\ tb_held t = len (filled t).

(** ** Buckets *)

(** Two tables of one size agree on where a slot goes. *)
Definition same_size t t' : Prop := len (tb_buckets t') = len (tb_buckets t) /\ tb_homes t' = tb_homes t.

Lemma same_size_pair t t' mid tag : same_size t t' -> pair_of t' mid tag = pair_of t mid tag.
Proof. intros [E1 E2]; unfold pair_of, Table_home, Table_step; by rewrite E1, E2. Qed.

Lemma home_range t mid : 2 <= tb_homes t -> is_u32 mid -> 0 <= Table_home t mid < tb_homes t.
Proof.
  intros H2 Hm; unfold Table_home; rewrite Z.shiftr_div_pow2 by done; unfold as_u64; destruct (Z.le_gt_cases (tb_homes t) (2 ^ 32)) as [Hle|Hgt].
  - rewrite Z.mod_small by (unfold is_u32, U32, U64 in *; nia); split; [apply Z.div_pos; unfold is_u32 in *; nia | apply Z.div_lt_upper_bound; unfold is_u32, U32 in *; nia].
  - pose proof (Z.mod_pos_bound (mid * tb_homes t) U64 ltac:(done)) as Hb; split; [apply Z.div_pos; lia | apply (Z.lt_trans _ (2 ^ 32)); [apply Z.div_lt_upper_bound; unfold U64 in *; lia | lia]].
Qed.

Lemma step_range t tag : 2 <= len (tb_buckets t) -> 1 <= Table_step t tag < len (tb_buckets t).
Proof. intros H; unfold Table_step; pose proof (Z.mod_pos_bound (mix tag) (len (tb_buckets t) - 1) ltac:(lia)); lia. Qed.

Lemma pair_range t mid tag : len (tb_buckets t) = tb_homes t -> 2 <= tb_homes t -> is_u32 mid ->
  let '(home, second) := pair_of t mid tag in 0 <= home < len (tb_buckets t) /\ 0 <= second < len (tb_buckets t) /\ home <> second.
Proof.
  intros E H2 Hm; cbn [pair_of]; rewrite E in *; pose proof (home_range t mid H2 Hm) as Hh; pose proof (step_range t tag ltac:(lia)) as Hs; rewrite E in Hs; split_and!; try lia; try (apply Z.mod_pos_bound; lia).
  intros Heq; destruct (Z.lt_ge_cases (Table_home t mid + Table_step t tag) (tb_homes t)) as [|Hge]; [rewrite Z.mod_small in Heq by lia; lia|].
  rewrite <- (Z.mod_unique_pos (Table_home t mid + Table_step t tag) (tb_homes t) 1 (Table_home t mid + Table_step t tag - tb_homes t)) in Heq by lia; lia.
Qed.

(** What is evicted from one bucket of its pair goes to the other. *)
Lemma other_bucket t s : len (tb_buckets t) = tb_homes t -> 2 <= tb_homes t -> is_u32 (sl_mid s) -> Table_other t (bucket_of t s) s = bucket_of t (Slot_in_second s (negb (Slot_is_second s))).
Proof.
  intros E H2 Hm; unfold Table_other, bucket_of; rewrite is_second_in_second, in_second_tag; cbn [Slot_in_second with_meta sl_mid]; pose proof (home_range t (sl_mid s) H2 Hm) as Hh; pose proof (step_range t (Slot_tag s) ltac:(lia)) as Hs; rewrite E in *.
  destruct (Slot_is_second s); cbn [negb pair_of fst snd]; rewrite ?E; [| done]; set (h := Table_home t (sl_mid s)) in *; set (p := Table_step t (Slot_tag s)) in *; set (n := tb_homes t) in *.
  rewrite <- (Z.mod_small h n) at 2 by lia; rewrite <- Z.add_sub_assoc, Z.add_mod_idemp_l by lia; replace (h + p + (n - p)) with (h + 1 * n) by lia; by rewrite Z.mod_add by lia.
Qed.

Lemma bucket_range t s : len (tb_buckets t) = tb_homes t -> 2 <= tb_homes t -> is_u32 (sl_mid s) -> 0 <= bucket_of t s < len (tb_buckets t).
Proof. intros E H2 Hm; unfold bucket_of; pose proof (pair_range t (sl_mid s) (Slot_tag s) E H2 Hm) as Hp; destruct (pair_of _ _ _); destruct (Slot_is_second s); cbn; lia. Qed.

(** ** Writing one slot *)

Lemma concat_set (l : list (list Slot)) b w slots o s : l !! b = Some slots -> slots !! w = Some o -> Permutation (o :: concat (<[b := <[w := s]> slots]> l)) (s :: concat l).
Proof.
  intros Hb Hw; apply list_elem_of_split_length in Hb as (l1 & l2 & -> & ->); apply list_elem_of_split_length in Hw as (s1 & s2 & -> & ->); rewrite insert_app_r_alt, Nat.sub_diag by done; cbn [insert list_insert]; rewrite insert_app_r_alt, Nat.sub_diag by done; cbn [insert list_insert].
  rewrite !concat_app; cbn [concat]; rewrite <- !app_assoc; cbn [app]; rewrite !(app_assoc (concat l1) s1), <- !Permutation_middle; apply perm_swap.
Qed.

Lemma perm_filter {A} (f : A -> bool) l l' : Permutation l l' -> Permutation (List.filter f l) (List.filter f l').
Proof. induction 1 as [|x l l' _ IH|x y l|]; cbn [List.filter]; [done | destruct (f x); [by constructor | done] | destruct (f x), (f y); try done; apply perm_swap | by etransitivity]. Qed.

Lemma set_slot_eq t b (w : nat) slots o s : tb_buckets t !! Z.to_nat b = Some slots -> slots !! w = Some o -> set_slot t b (Z.of_nat w) s = Ok (with_buckets_of t (<[Z.to_nat b := <[w := s]> slots]> (tb_buckets t))).
Proof.
  intros Hb Hw; unfold set_slot, bucket_at, idx; rewrite Nat2Z.id, Hb; res_simpl; rewrite set_idx_Ok by (by eapply lookup_lt_Some); res_simpl; rewrite set_idx_Ok by (by eapply lookup_lt_Some); done.
Qed.

Lemma set_slot_filled t (b w : nat) slots o s : tb_buckets t !! b = Some slots -> slots !! w = Some o -> let t' := with_buckets_of t (<[b := <[w := s]> slots]> (tb_buckets t)) in
  Permutation (List.filter is_filled_slot [o] ++ filled t') (List.filter is_filled_slot [s] ++ filled t).
Proof.
  intros Hb Hw t'; unfold filled; rewrite <- !List.filter_app; apply perm_filter; cbn [app t' with_buckets_of tb_buckets tb_spilled]; rewrite !app_comm_cons; apply Permutation_app_tail; by apply concat_set.
Qed.

Lemma same_size_set t b (slots : list Slot) : same_size t (with_buckets_of t (<[b := slots]> (tb_buckets t))).
Proof. split; [unfold len; cbn; by rewrite length_insert | done]. Qed.

Lemma same_size_bucket t t' s : same_size t t' -> bucket_of t' s = bucket_of t s.
Proof. intros H; unfold bucket_of; by rewrite (same_size_pair t t'). Qed.

Lemma set_slot_shape t (b w : nat) slots o s : table_shape t -> tb_buckets t !! b = Some slots -> slots !! w = Some o -> slot_wf s -> (is_filled_slot s = true -> bucket_of t s = Z.of_nat b) ->
  table_shape (with_buckets_of t (<[b := <[w := s]> slots]> (tb_buckets t))).
Proof.
  intros [H1 H2 H3 H4 H5 H6] Hb Hw Hs Hp; pose proof (same_size_set t b (<[w := s]> slots)) as Hsz; set (t' := with_buckets_of _ _) in *; split.
  - destruct Hsz as [-> ->]; done.
  - done.
  - cbn; apply Forall_insert; [done|]; rewrite length_insert; rewrite Forall_lookup in H3; by eapply H3.
  - apply Forall_app in H4 as [H4 H4']; apply Forall_app; split; [| done]; pose proof (concat_set (tb_buckets t) b w slots o s Hb Hw) as Hperm.
    assert (Forall slot_wf (o :: concat (tb_buckets t'))) as Hall by (unfold t'; cbn [with_buckets_of tb_buckets]; rewrite Hperm; by constructor); by apply Forall_cons in Hall as [_ ?].
  - intros b' w' slots' s' Hb' Hw' Hf; rewrite (same_size_bucket t t') by done; cbn in Hb'; destruct (decide (b' = b)) as [->|Hne].
    + rewrite list_lookup_insert_eq in Hb' by (by eapply lookup_lt_Some); injection Hb' as <-; destruct (decide (w' = w)) as [->|Hnw]; [rewrite list_lookup_insert_eq in Hw' by (by eapply lookup_lt_Some); injection Hw' as <-; by rewrite Hp | rewrite list_lookup_insert_ne in Hw' by done; by eapply H5].
    + rewrite list_lookup_insert_ne in Hb' by done; by eapply H5.
  - done.
Qed.

Lemma default_wf : slot_wf Slot_default.
Proof. by repeat split. Qed.

(** ** Placing *)

Lemma position_spec {A} (p : A -> bool) l : match position p l with
  | Some i => exists (n : nat) x, i = Z.of_nat n /\ l !! n = Some x /\ p x = true
  | None => Forall (fun x => p x = false) l
  end.
Proof.
  induction l as [|x l IH]; cbn [position]; [constructor|]; destruct (p x) eqn:E; [by exists 0%nat, x|]; destruct (position p l) as [i|]; [| by constructor].
  destruct IH as (n & y & -> & Hy & Hp); exists (S n), y; split_and!; [lia | done | done].
Qed.

Lemma bucket_in t b : 0 <= b < len (tb_buckets t) -> exists slots, tb_buckets t !! Z.to_nat b = Some slots /\ bucket_at t b = Ok slots.
Proof. intros Hb; destruct (lookup_lt_is_Some_2 (tb_buckets t) (Z.to_nat b)) as [slots E]; [unfold len in Hb; lia|]; exists slots; split; [done|]; unfold bucket_at, idx; by rewrite E. Qed.

(** A table that gained a slot. *)
Definition gained t t' s : Prop := table_ok t' /\ same_size t t' /\ Permutation (contents t') (norm s :: contents t).

Definition is_full_bucket t b : Prop := exists slots, tb_buckets t !! Z.to_nat b = Some slots /\ Forall (fun s => is_filled_slot s = true) slots.

Lemma take_way_ok t s : table_ok t -> slot_wf s -> is_filled_slot s = true ->
  (exists t', take_way t (bucket_of t s) s = Ok (Some t') /\ gained t t' s) \/ (take_way t (bucket_of t s) s = Ok None /\ is_full_bucket t (bucket_of t s)).
Proof.
  intros [Hsh Hh] Hs Hf; pose proof (bucket_range t s (to_homes _ Hsh) (to_two _ Hsh) (sw_mid _ Hs)) as Hr; destruct (bucket_in t _ Hr) as (slots & El & Ea); unfold take_way, Table_free_way; rewrite Ea; res_simpl.
  pose proof (position_spec Slot_is_empty slots) as Hpos; destruct (position Slot_is_empty slots) as [way|].
  2:{ right; split; [done|]; exists slots; split; [done|]; eapply Forall_impl; [exact Hpos|]; intros x Hx; unfold is_filled_slot; by rewrite Hx. }
  left; destruct Hpos as (w & o & -> & Ew & Eo); rewrite (set_slot_eq t _ w slots o s El Ew); res_simpl; eexists; split; [done|].
  pose proof (set_slot_filled t _ w slots o s El Ew) as Hp; assert (is_filled_slot o = false) as Hof by (unfold is_filled_slot; by rewrite Eo); cbn [List.filter] in Hp; rewrite Hof, Hf in Hp; cbn [app] in Hp.
  pose proof (set_slot_shape t _ w slots o s Hsh El Ew Hs ltac:(intros _; lia)) as Hsh'; pose proof (same_size_set t (Z.to_nat (bucket_of t s)) (<[w := s]> slots)) as Hsz; set (t1 := with_buckets_of _ _) in *.
  split_and!; [split; [by destruct Hsh' | cbn [with_held tb_held]; change (filled (with_held t1 _)) with (filled t1); unfold len; rewrite (Permutation_length Hp); cbn [length tb_held t1 with_buckets_of]; rewrite Hh; unfold len; lia] | by destruct Hsz | unfold contents; change (filled (with_held t1 _)) with (filled t1); by rewrite Hp].
Qed.

Lemma norm_in_second s b : norm (Slot_in_second s b) = norm s.
Proof. apply in_second_twice. Qed.

Lemma filled_in_second s b : is_filled_slot (Slot_in_second s b) = is_filled_slot s.
Proof. done. Qed.

Lemma same_size_trans t t' t'' : same_size t t' -> same_size t' t'' -> same_size t t''.
Proof. intros [E1 E2] [E3 E4]; split; congruence. Qed.

(** What a placing leaves: the slot in, or some slot homeless in its stead. *)
Definition placed t s t' (homeless : option Slot) : Prop :=
  same_size t t' /\ table_ok t' /\ match homeless with
    | None => Permutation (contents t') (norm s :: contents t)
    | Some m => slot_wf m /\ is_filled_slot m = true /\ Permutation (norm m :: contents t') (norm s :: contents t)
    end.

Lemma evict_ok t s : table_ok t -> slot_wf s -> is_filled_slot s = true -> is_full_bucket t (bucket_of t s) -> forall way, 0 <= way < 4 ->
  exists slots evicted t', bucket_at t (bucket_of t s) = Ok slots /\ idx slots (Z.to_nat way) = Ok evicted /\ set_slot t (bucket_of t s) way s = Ok t' /\ table_ok t' /\ same_size t t'
    /\ slot_wf evicted /\ is_filled_slot evicted = true /\ bucket_of t' evicted = bucket_of t s /\ Permutation (norm evicted :: contents t') (norm s :: contents t).
Proof.
  intros [Hsh Hh] Hs Hf (slots & El & Hfull) way Hw; pose proof (bucket_range t s (to_homes _ Hsh) (to_two _ Hsh) (sw_mid _ Hs)) as Hr; pose proof (to_ways _ Hsh) as Hways; rewrite Forall_lookup in Hways; specialize (Hways _ _ El).
  destruct (lookup_lt_is_Some_2 slots (Z.to_nat way) ltac:(lia)) as [e Ee]; exists slots, e; rewrite Forall_lookup in Hfull; pose proof (Hfull _ _ Ee) as He; cbv beta in He.
  pose proof (set_slot_eq t _ _ slots e s El Ee) as Eset; rewrite Z2Nat.id in Eset by lia; eexists; split_and!; [unfold bucket_at, idx; by rewrite El | unfold idx; by rewrite Ee | exact Eset | | apply same_size_set | | done | |].
  - pose proof (set_slot_filled t _ _ slots e s El Ee) as Hp; cbn [List.filter] in Hp; rewrite He, Hf in Hp; cbn [app] in Hp; split; [eapply set_slot_shape; [done | done | exact Ee | done | intros _; lia]|].
    apply Permutation_length in Hp; cbn [length] in Hp; cbn [with_buckets_of tb_held] in *; rewrite Hh; unfold len; f_equal; lia.
  - pose proof (to_wf _ Hsh) as Hwf; apply Forall_app in Hwf as [Hwf _]; rewrite Forall_forall in Hwf; apply Hwf, list_elem_of_In, in_concat; exists slots; split; apply list_elem_of_In; by eapply list_elem_of_lookup_2.
  - rewrite (same_size_bucket t) by apply same_size_set; pose proof (to_place _ Hsh _ _ _ _ El Ee He) as Hp; lia.
  - pose proof (set_slot_filled t _ _ slots e s El Ee) as Hp; cbn [List.filter] in Hp; rewrite He, Hf in Hp; cbn [app] in Hp; unfold contents; exact (Permutation_map norm Hp).
Qed.

Lemma kick_ok kicks : forall t s, table_ok t -> slot_wf s -> is_filled_slot s = true -> is_full_bucket t (bucket_of t s) -> exists t' homeless, kick kicks t (bucket_of t s) s = Ok (t', homeless) /\ placed t s t' homeless.
Proof.
  induction kicks as [|kicks IH]; intros t s Hok Hs Hf Hfull; cbn [kick]; [exists t, (Some s); split_and!; done|].
  set (t1 := mkTable (tb_buckets t) (tb_spilled t) (tb_homes t) (tb_held t) (mix (tb_seed t)) (tb_phase t)); assert (table_ok t1) as Hok1 by (destruct Hok as [[] ?]; by split).
  destruct (evict_ok t1 s Hok1 Hs Hf Hfull (tb_seed t1 mod WAYS) ltac:(unfold WAYS; apply Z.mod_pos_bound; done)) as (slots & e & t2 & E1 & E2 & E3 & Hok2 & Hsz & Hwe & Hfe & Hbe & Hp).
  change (bucket_of t1 s) with (bucket_of t s) in *; rewrite E1; res_simpl; rewrite E2; res_simpl; rewrite E3; res_simpl; set (m := Slot_in_second e (negb (Slot_is_second e))).
  assert (slot_wf m /\ is_filled_slot m = true) as [Hwm Hfm] by (split; [by apply in_second_wf | done]); rewrite <- Hbe, (other_bucket t2 e (to_homes _ (proj1 Hok2)) (to_two _ (proj1 Hok2)) (sw_mid _ Hwe)); fold m.
  destruct (take_way_ok t2 m Hok2 Hwm Hfm) as [(t3 & -> & Hok3 & Hsz3 & Hp3)|[-> Hfull2]]; res_simpl.
  - exists t3, None; split; [done|]; split_and!; [exact (same_size_trans _ _ _ Hsz Hsz3) | done|]; rewrite Hp3; unfold m; rewrite norm_in_second; exact Hp.
  - destruct (IH t2 m Hok2 Hwm Hfm Hfull2) as (t3 & homeless & -> & Hsz3 & Hok3 & Hp3); exists t3, homeless; split; [done|]; unfold m in Hp3; rewrite norm_in_second in Hp3; split_and!; [exact (same_size_trans _ _ _ Hsz Hsz3) | done|].
    destruct homeless as [h|]; [destruct Hp3 as (? & ? & Hp3); split_and!; [done | done | by rewrite Hp3] | by rewrite Hp3].
Qed.

Lemma bucket_of_first t s : bucket_of t (Slot_in_second s false) = (pair_of t (sl_mid s) (Slot_tag s)).1.
Proof. unfold bucket_of; by rewrite is_second_in_second, in_second_tag. Qed.

Lemma bucket_of_second t s : bucket_of t (Slot_in_second s true) = (pair_of t (sl_mid s) (Slot_tag s)).2.
Proof. unfold bucket_of; by rewrite is_second_in_second, in_second_tag. Qed.

Lemma pair_shared_ok t s : table_ok t -> slot_wf s -> exists shared, Table_pair_shared t s = Ok shared.
Proof.
  intros [Hsh _] Hs; unfold Table_pair_shared; pose proof (pair_range t (sl_mid s) (Slot_tag s) (to_homes _ Hsh) (to_two _ Hsh) (sw_mid _ Hs)) as Hr; destruct (pair_of _ _ _) as [home second]; destruct Hr as (H1 & H2 & _).
  destruct (bucket_in t home H1) as (a & _ & ->), (bucket_in t second H2) as (b & _ & ->); res_simpl; destruct (negb _); eauto.
Qed.

Lemma place_ok t s : table_ok t -> slot_wf s -> is_filled_slot s = true -> exists t' homeless, Table_place t s = Ok (t', homeless) /\ placed t s t' homeless.
Proof.
  intros Hok Hs Hf; unfold Table_place; destruct (pair_of t (sl_mid s) (Slot_tag s)) as [home second] eqn:Ep; pose proof (bucket_of_first t s) as E1; pose proof (bucket_of_second t s) as E2; rewrite Ep in E1, E2; cbn [fst snd] in E1, E2; rewrite <- E1, <- E2.
  destruct (take_way_ok t (Slot_in_second s false) Hok (in_second_wf _ _ Hs) Hf) as [(t' & -> & H1 & H2 & H3)|[-> Hfull]]; res_simpl; [exists t', None; split; [done|]; rewrite norm_in_second in H3; by split_and!|].
  destruct (take_way_ok t (Slot_in_second s true) Hok (in_second_wf _ _ Hs) Hf) as [(t' & -> & H1 & H2 & H3)|[-> Hfull2]]; res_simpl; [exists t', None; split; [done|]; rewrite norm_in_second in H3; by split_and!|].
  destruct (pair_shared_ok t s Hok Hs) as [[] ->]; res_simpl; [exists t, (Some s); by split_and!|].
  destruct (kick_ok MAX_KICKS t (Slot_in_second s false) Hok (in_second_wf _ _ Hs) Hf Hfull) as (t' & homeless & E & H1 & H2 & H3); exists t', homeless; split; [exact E|]; rewrite norm_in_second in H3; by split_and!.
Qed.

(** ** Spilling and growing *)

Lemma spill_ok t s : table_ok t -> slot_wf s -> is_filled_slot s = true -> table_ok (Table_spill t s) /\ Permutation (contents (Table_spill t s)) (norm s :: contents t).
Proof.
  intros [[H1 H2 H3 H4 H5 H6] Hh] Hs Hf.
  assert (filled (Table_spill t s) = filled t ++ [s]) as Ef by (unfold filled; cbn [Table_spill tb_buckets tb_spilled]; rewrite app_assoc, (List.filter_app _ (_ ++ _)); cbn [List.filter]; by rewrite Hf).
  split; [split; [split; try done | cbn [Table_spill tb_held]; rewrite Ef, len_app; change (len [s]) with 1; lia] | unfold contents; rewrite Ef, map_app; symmetry; apply Permutation_cons_append].
  - cbn; rewrite app_assoc; apply Forall_app; split; [done | by constructor].
  - cbn; apply Forall_app; split; [done | by constructor].
Qed.

Lemma concat_all {A} (P : A -> Prop) (l : list (list A)) : Forall (Forall P) l -> Forall P (concat l).
Proof. induction 1 as [|x l Hx _ IH]; cbn [concat]; [constructor | by apply Forall_app]. Qed.

Lemma new_table_ok count phase : table_ok (Table_with_buckets count phase) /\ contents (Table_with_buckets count phase) = [].
Proof.
  assert (forall n, List.filter is_filled_slot (concat (replicate n Bucket_default)) = []) as Hn by (induction n as [|n IH]; cbn [replicate concat]; [done|]; rewrite List.filter_app, IH; done).
  assert (filled (Table_with_buckets count phase) = []) as Ef by (unfold filled; cbn [Table_with_buckets tb_buckets tb_spilled]; rewrite app_nil_r; apply Hn).
  split; [split; [split; cbn [Table_with_buckets tb_buckets tb_spilled tb_homes] | by rewrite Ef] | unfold contents; by rewrite Ef].
  - unfold len; rewrite length_replicate; lia.
  - lia.
  - by apply Forall_replicate.
  - rewrite app_nil_r; apply concat_all, Forall_replicate; repeat (constructor; [apply default_wf|]); constructor.
  - intros b w slots s Hb Hw Hf; apply lookup_replicate in Hb as [-> _]; apply lookup_replicate in Hw as [-> _]; done.
  - constructor.
Qed.

Section grow.
Context `{Ladder}.

Lemma place_or_spill_ok t s : table_ok t -> slot_wf s -> is_filled_slot s = true -> exists t', place_or_spill t s = Ok t' /\ table_ok t' /\ same_size t t' /\ Permutation (contents t') (norm s :: contents t).
Proof.
  intros Hok Hs Hf; unfold place_or_spill; destruct (place_ok t s Hok Hs Hf) as (t' & [m|] & -> & Hsz & Hok' & Hp); res_simpl; [| eauto]; destruct Hp as (Hm & Hfm & Hp).
  destruct (spill_ok t' m Hok' Hm Hfm) as [H1 H2]; eexists; split_and!; [done | done | exact Hsz | by rewrite H2].
Qed.

Lemma fill_ok l : forall t, table_ok t -> Forall (fun s => slot_wf s /\ is_filled_slot s = true) l -> exists t', foldm place_or_spill l t = Ok t' /\ table_ok t' /\ same_size t t' /\ Permutation (contents t') (map norm l ++ contents t).
Proof.
  induction l as [|s l IH]; intros t Hok Hl; cbn [foldm]; [by exists t|]; apply Forall_cons in Hl as [[Hs Hf] Hl]; destruct (place_or_spill_ok t s Hok Hs Hf) as (t1 & -> & Hok1 & Hs1 & Hp1); res_simpl.
  destruct (IH t1 Hok1 Hl) as (t2 & E & Hok2 & Hs2 & Hp2); exists t2; split_and!; [done | done | exact (same_size_trans _ _ _ Hs1 Hs2) |]; rewrite Hp2, Hp1; cbn [map app]; by rewrite <- Permutation_middle.
Qed.

Lemma filled_each t : table_ok t -> Forall (fun s => slot_wf s /\ is_filled_slot s = true) (filled t).
Proof.
  intros [Hsh _]; apply Forall_forall; intros s Hs; unfold filled in Hs; apply list_elem_of_In, filter_In in Hs as [Hin Hf]; split; [| done]; pose proof (to_wf _ Hsh) as Hwf; rewrite Forall_forall in Hwf; by apply Hwf, list_elem_of_In.
Qed.

(** No rung of the ladder is past a size a shard could have in memory. *)
Definition LADDER_TOP : Z := 2 ^ 60.
Definition ladder_fits : Prop := forall phase homes, ladder_first phase <= LADDER_TOP /\ ladder_above phase homes <= LADDER_TOP.

Definition grew t t' : Prop := tb_homes t' <= Z.max LADDER_TOP (tb_homes t) + 2.

(** A table grown holds what it held, one step up the ladder. *)
Lemma grown_ok t : table_ok t -> exists t', Table_grown t = Ok t' /\ table_ok t' /\ (ladder_fits -> tb_homes t' <= Z.max LADDER_TOP (tb_homes t + 1)) /\ Permutation (contents t') (contents t).
Proof.
  intros Hok; destruct (new_table_ok (next_rung (tb_homes t) (tb_phase t)) (tb_phase t)) as [Hn En]; destruct (fill_ok (filled t) _ Hn (filled_each t Hok)) as (t' & E & Hok' & [_ Hsz] & Hp); exists t'; split_and!; [exact E | done | | rewrite En, app_nil_r in Hp; exact Hp].
  intros Hl; rewrite Hsz; cbn [Table_with_buckets tb_homes]; unfold next_rung; destruct (Hl (tb_phase t) (tb_homes t)) as [_ Ha]; unfold LADDER_TOP in *; lia.
Qed.

Lemma table_insert_ok t s : table_ok t -> slot_wf s -> is_filled_slot s = true -> exists t', Table_insert t s = Ok t' /\ table_ok t' /\ (ladder_fits -> grew t t') /\ Permutation (contents t') (norm s :: contents t).
Proof.
  intros Hok Hs Hf; unfold Table_insert; assert (exists t1, (if Table_is_full t then Table_grown t else Ok t) = Ok t1 /\ table_ok t1 /\ (ladder_fits -> tb_homes t1 <= Z.max LADDER_TOP (tb_homes t + 1)) /\ Permutation (contents t1) (contents t)) as (t1 & -> & Hok1 & Hg1 & Hp1).
  { destruct (Table_is_full t); [by apply grown_ok | exists t; split_and!; [done | done | lia | done]]. }
  unfold grew; res_simpl; destruct (place_ok t1 s Hok1 Hs Hf) as (t2 & [m|] & -> & [_ Hz2] & Hok2 & Hp2); res_simpl; [| exists t2; split_and!; [done | done | intros Hl; rewrite Hz2; specialize (Hg1 Hl); lia | by rewrite Hp2, Hp1]]; destruct Hp2 as (Hm & Hfm & Hp2); rewrite Hp1 in Hp2.
  destruct (pair_shared_ok t2 m Hok2 Hm) as [[] ->]; res_simpl.
  { destruct (spill_ok t2 m Hok2 Hm Hfm) as [H1 H2]; eexists; split_and!; [done | done | intros Hl; cbn [Table_spill tb_homes]; rewrite Hz2; specialize (Hg1 Hl); lia | by rewrite H2]. }
  destruct (grown_ok t2 Hok2) as (t3 & -> & Hok3 & Hg3 & Hp3); res_simpl; destruct (place_ok t3 m Hok3 Hm Hfm) as (t4 & [m'|] & -> & [_ Hz4] & Hok4 & Hp4); res_simpl.
  - destruct Hp4 as (Hm' & Hfm' & Hp4); destruct (spill_ok t4 m' Hok4 Hm' Hfm') as [H1 H2]; eexists; split_and!; [done | done | intros Hl; cbn [Table_spill tb_homes]; rewrite Hz4; specialize (Hg1 Hl); specialize (Hg3 Hl); lia | by rewrite H2, Hp4, Hp3].
  - exists t4; split_and!; [done | done | intros Hl; rewrite Hz4; specialize (Hg1 Hl); specialize (Hg3 Hl); lia | by rewrite Hp4, Hp3].
Qed.
End grow.

(** ** Looking *)

(** The places of a list of slots that hold what is asked. *)
Definition places_in (bucket : Z) (p : Slot -> bool) (slots : list Slot) : list Place := map (fun '(way, s) => mkPlace bucket way s) (List.filter (fun x => p x.2) (enumerate 0 slots)).

Lemma enumerate_snds {A} (l : list A) : forall n, map snd (enumerate n l) = l.
Proof. induction l as [|x l IH]; intros n; cbn [enumerate map snd]; [done | by rewrite IH]. Qed.

Lemma filter_snd {A} (p : A -> bool) l : forall n, map snd (List.filter (fun x => p x.2) (enumerate n l)) = List.filter p l.
Proof. induction l as [|x l IH]; intros n; cbn [enumerate List.filter map snd]; [done|]; destruct (p x); cbn [map snd]; by rewrite IH. Qed.

Lemma places_in_slots bucket p slots : map pl_slot (places_in bucket p slots) = List.filter p slots.
Proof. unfold places_in; rewrite map_map; rewrite <- (filter_snd p slots 0); apply map_ext; by intros [? ?]. Qed.

Lemma in_enumerate {A} (l : list A) : forall n w x, (w, x) ∈ enumerate n l <-> exists i : nat, w = n + Z.of_nat i /\ l !! i = Some x.
Proof.
  induction l as [|y l IH]; intros n w x; cbn [enumerate]; [split; [by intros ?%elem_of_nil | by intros ([|i] & _ & ?)]|]; rewrite elem_of_cons, IH; split.
  - intros [[= -> ->]|(i & -> & Hi)]; [exists 0%nat; split; [lia | done] | exists (S i); split; [lia | done]].
  - intros ([|i] & -> & Hi); [left; injection Hi as ->; f_equal; lia | right; exists i; split; [lia | done]].
Qed.

Lemma in_places bucket p slots place : place ∈ places_in bucket p slots <-> exists w : nat, place = mkPlace bucket (Z.of_nat w) (pl_slot place) /\ slots !! w = Some (pl_slot place) /\ p (pl_slot place) = true.
Proof.
  unfold places_in; rewrite list_elem_of_In, in_map_iff; split.
  - intros ([way s] & <- & [Hin Hp]%filter_In); apply list_elem_of_In, in_enumerate in Hin as (w & -> & Hw); exists w; cbn [pl_slot]; rewrite Z.add_0_l; done.
  - intros (w & E & Hw & Hp); exists (Z.of_nat w, pl_slot place); split; [done|]; apply filter_In; split; [apply list_elem_of_In, in_enumerate; exists w; split; [lia | done] | done].
Qed.

Lemma places_push_all (p : Slot -> bool) bucket (l : list (Z * Slot)) : forall found, ps_more found = [] -> len (ps_held found) + len l <= MAX_CANDIDATES ->
  foldm (fun found '(way, slot) => if p slot then Places_push found (mkPlace bucket way slot) else Ok found) l found = Ok (mkPlaces (ps_held found ++ map (fun '(way, s) => mkPlace bucket way s) (List.filter (fun x => p x.2) l)) []).
Proof.
  induction l as [|[way s] l IH]; intros [held more] Hm Hl; cbn [ps_held ps_more] in *; subst more; cbn [foldm List.filter map snd]; [by rewrite app_nil_r|]; rewrite len_cons in Hl; pose proof (len_nonneg l); destruct (p s).
  - assert (Places_push (mkPlaces held []) (mkPlace bucket way s) = Ok (mkPlaces (held ++ [mkPlace bucket way s]) [])) as -> by (unfold Places_push; cbn [ps_held ps_more]; by rewrite (proj2 (Z.ltb_lt _ _)) by lia); res_simpl; rewrite IH; cbn [ps_held ps_more]; [| done | rewrite len_app; change (len [mkPlace bucket way s]) with 1; lia]; cbn [map]; by rewrite <- app_assoc.
  - res_simpl; rewrite IH; [done | done | cbn; lia].
Qed.

(** Places past the fixed array: every place, in the order they were met. *)
Definition places_ok (found : Places) (l : list Place) : Prop := places found = l /\ (ps_more found <> [] -> len (ps_held found) = MAX_CANDIDATES) /\ (ps_more found = [] -> ps_held found = l /\ len (ps_held found) <= MAX_CANDIDATES).

Lemma push_spilled_ok found l place : places_ok found l -> exists found', Places_push_spilled found place = Ok found' /\ places_ok found' (l ++ [place]).
Proof.
  intros (Hp & Hm & Hh); unfold Places_push_spilled, Places_push; destruct (Z.ltb_spec (len (ps_held found)) MAX_CANDIDATES) as [Hlt|Hge].
  - assert (ps_more found = []) as Em by (destruct (ps_more found); [done | specialize (Hm ltac:(done)); lia]); destruct (Hh Em) as [Eh Hl]; eexists; split; [done|]; rewrite Em, Eh; split_and!; cbn [ps_held ps_more places]; [done | done | intros _; split; [done|]].
    rewrite len_app, <- Eh; change (len [place]) with 1; lia.
  - eexists; split; [done|]; assert ((if len (ps_more found) =? 0 then ps_held found else ps_more found) = l) as El by exact Hp; rewrite El; split_and!; cbn [ps_held ps_more]; [| intros _ | intros E; by apply app_eq_nil in E as [_ ?]].
    + unfold places; cbn [ps_held ps_more]; rewrite len_app; change (len [place]) with 1; pose proof (len_nonneg l); rewrite (proj2 (Z.eqb_neq _ _)) by lia; done.
    + destruct (ps_more found) as [|x more] eqn:Em; [destruct (Hh eq_refl); lia | apply Hm; done].
Qed.

Lemma spilled_all (p : Slot -> bool) (l : list (Z * Slot)) : forall found known, places_ok found known ->
  exists found', foldm (fun found '(way, slot) => if p slot then Places_push_spilled found (mkPlace SPILLED way slot) else Ok found) l found = Ok found' /\ places_ok found' (known ++ map (fun '(way, s) => mkPlace SPILLED way s) (List.filter (fun x => p x.2) l)).
Proof.
  induction l as [|[way s] l IH]; intros found known Hk; cbn [foldm List.filter map snd]; [exists found; by rewrite app_nil_r|]; destruct (p s); [| by apply IH]; destruct (push_spilled_ok found known (mkPlace SPILLED way s) Hk) as (found1 & -> & H1); res_simpl.
  destruct (IH found1 _ H1) as (found2 & E & H2); exists found2; split; [done|]; cbn [map]; by rewrite <- app_assoc in H2.
Qed.

Definition holds_here hash (is_second : bool) s : bool := Slot_holds s hash && Bool.eqb (Slot_is_second s) is_second.

(** The places a look finds: in the home bucket, in the second, then in the spill. *)
Lemma matches_ok t hash : table_ok t -> exists found home_slots second_slots, let '(home, second) := Table_pair t hash in
  Table_matches t hash = Ok found /\ tb_buckets t !! Z.to_nat home = Some home_slots /\ tb_buckets t !! Z.to_nat second = Some second_slots /\ 0 <= home < len (tb_buckets t) /\ 0 <= second < len (tb_buckets t) /\ home <> second
  /\ places found = places_in home (holds_here hash false) home_slots ++ places_in second (holds_here hash true) second_slots ++ places_in SPILLED (fun s => Slot_holds s hash) (tb_spilled t).
Proof.
  intros [Hsh _]; unfold Table_matches, Table_pair; assert (is_u32 (mid_of hash)) as Hmid by (unfold mid_of, as_u32, is_u32; apply Z.mod_pos_bound; done).
  pose proof (pair_range t (mid_of hash) (tag_of hash) (to_homes _ Hsh) (to_two _ Hsh) Hmid) as Hr; destruct (pair_of _ _ _) as [home second]; destruct Hr as (H1 & H2 & H3); destruct (bucket_in t home H1) as (hs & Eh & Eah), (bucket_in t second H2) as (ss & Es & Eas).
  pose proof (to_ways _ Hsh) as Hw; rewrite Forall_lookup in Hw; pose proof (Hw _ _ Eh) as Lh; pose proof (Hw _ _ Es) as Ls; cbv beta in Lh, Ls.
  assert (forall (l : list Slot), length l = 4%nat -> len (enumerate 0 l) = 4) as Hlen by (intros l El; unfold len; rewrite <- (length_map snd), enumerate_snds, El; done).
  cbn [foldm bucket_matches]; rewrite Eah; res_simpl; fold (holds_here hash false); rewrite (places_push_all (holds_here hash false)); [| done | cbn [ps_held Places_new]; rewrite (Hlen hs Lh), (len_nil (A := Place)); unfold MAX_CANDIDATES, WAYS; lia]; res_simpl; rewrite Eas; res_simpl.
  fold (places_in home (holds_here hash false) hs); cbn [app ps_held Places_new].
  assert (len (places_in home (holds_here hash false) hs) <= 4) as Hl4 by (unfold len; rewrite <- (length_map pl_slot), places_in_slots; pose proof (filter_length_le (holds_here hash false) hs); lia).
  rewrite (places_push_all (holds_here hash true)); [| done | cbn [ps_held]; rewrite (Hlen ss Ls); unfold MAX_CANDIDATES, WAYS; lia]; res_simpl; cbn [ps_held]; fold (places_in second (holds_here hash true) ss).
  set (known := places_in home (holds_here hash false) hs ++ places_in second (holds_here hash true) ss).
  assert (len known <= MAX_CANDIDATES) as Hk by (subst known; rewrite len_app; assert (len (places_in second (holds_here hash true) ss) <= 4) by (unfold len; rewrite <- (length_map pl_slot), places_in_slots; pose proof (filter_length_le (holds_here hash true) ss); lia); unfold MAX_CANDIDATES, WAYS; lia).
  assert (places_ok (mkPlaces known []) known) as Hpk by (split_and!; done).
  destruct (Z.eqb_spec (len (tb_spilled t)) 0) as [E0|E0]; cbn [negb].
  - exists (mkPlaces known []), hs, ss; split_and!; try done; try lia; unfold places; cbn [ps_more ps_held]; apply len_0_inv in E0; rewrite E0; unfold places_in at 3; cbn; by rewrite app_nil_r.
  - destruct (spilled_all (fun s => Slot_holds s hash) (enumerate 0 (tb_spilled t)) (mkPlaces known []) known Hpk) as (found & E & Hp & _); exists found, hs, ss; split_and!; try done; try lia; rewrite Hp; unfold known; by rewrite <- app_assoc.
Qed.

Lemma filter_concat {A} (p : A -> bool) (l : list (list A)) : List.filter p (concat l) = concat (map (List.filter p) l).
Proof. induction l as [|x l IH]; cbn [concat map]; [done|]; by rewrite List.filter_app, IH. Qed.

Lemma filter_ext_in {A} (p q : A -> bool) l : (forall x, x ∈ l -> p x = q x) -> List.filter p l = List.filter q l.
Proof. induction l as [|x l IH]; intros Hpq; cbn [List.filter]; [done|]; rewrite (Hpq x) by (by left); rewrite IH; [done|]; intros y Hy; apply Hpq; by right. Qed.

Lemma concat_none {A B} (f : A -> list B) l : (forall i x, l !! i = Some x -> f x = []) -> concat (map f l) = [].
Proof. induction l as [|x l IH]; intros Hf; cbn [map concat]; [done|]; rewrite (Hf 0%nat x) by done; apply IH; intros i y Hy; by apply (Hf (S i)). Qed.

Lemma concat_one {A B} (f : A -> list B) l : forall a la, l !! a = Some la -> (forall i x, l !! i = Some x -> i <> a -> f x = []) -> concat (map f l) = f la.
Proof.
  induction l as [|x l IH]; intros a la Ha Hf; [done|]; cbn [map concat]; destruct a as [|a].
  - injection Ha as ->; rewrite concat_none; [apply app_nil_r|]; intros i y Hy; by apply (Hf (S i)).
  - rewrite (Hf 0%nat x) by done; apply (IH a la Ha); intros i y Hy Hne; apply (Hf (S i)); [done | lia].
Qed.

Lemma concat_two {A B} (f : A -> list B) l : forall a b la lb, a <> b -> l !! a = Some la -> l !! b = Some lb -> (forall i x, l !! i = Some x -> i <> a -> i <> b -> f x = []) -> Permutation (concat (map f l)) (f la ++ f lb).
Proof.
  induction l as [|x l IH]; intros a b la lb Hab Ha Hb Hf; [done|]; cbn [map concat]; destruct a as [|a], b as [|b]; [done | | |].
  - injection Ha as ->; rewrite (concat_one f l b lb); [done | done|]; intros i y Hy Hne; apply (Hf (S i)); [done | lia | lia].
  - injection Hb as ->; rewrite (concat_one f l a la); [apply Permutation_app_comm | done|]; intros i y Hy Hne; apply (Hf (S i)); [done | lia | lia].
  - rewrite (Hf 0%nat x) by done; apply (IH a b); [lia | done | done|]; intros i y Hy H1 H2; apply (Hf (S i)); [done | lia | lia].
Qed.

Lemma holds_bits s hash : Slot_holds s hash = true <-> is_filled_slot s = true /\ sl_mid s = mid_of hash /\ Slot_tag s = tag_of hash.
Proof. unfold Slot_holds, is_filled_slot; rewrite !andb_true_iff, !Z.eqb_eq; tauto. Qed.

Lemma filter_filter_implied {A} (p q : A -> bool) l : (forall x, p x = true -> q x = true) -> List.filter p (List.filter q l) = List.filter p l.
Proof. intros Hpq; induction l as [|x l IH]; cbn [List.filter]; [done|]; destruct (q x) eqn:Eq; cbn [List.filter]; [by rewrite IH|]; destruct (p x) eqn:Ep; [by rewrite (Hpq x Ep) in Eq | done]. Qed.

(** A look finds exactly the slots held that have the key's bits. *)
Lemma matches_exact t hash : table_ok t -> exists found, Table_matches t hash = Ok found /\ Permutation (map pl_slot (places found)) (List.filter (fun s => Slot_holds s hash) (filled t)).
Proof.
  intros Hok; pose proof Hok as [Hsh _]; destruct (matches_ok t hash Hok) as (found & hs & ss & Hm); destruct (Table_pair t hash) as [home second] eqn:Ep; destruct Hm as (E & Eh & Es & Rh & Rs & Hne & Hp); exists found; split; [done|]; rewrite Hp, !map_app, !places_in_slots.
  unfold filled; rewrite filter_filter_implied by (by intros s [? _]%holds_bits); rewrite List.filter_app, app_assoc; apply Permutation_app_tail.
  assert (forall (i : nat) slots s, tb_buckets t !! i = Some slots -> s ∈ slots -> Slot_holds s hash = true -> Z.of_nat i = if Slot_is_second s then second else home) as Hpos.
  { intros i slots s Hi Hs Hh; apply list_elem_of_lookup in Hs as [w Hw]; apply holds_bits in Hh as (Hf & Hmid & Htag); rewrite (to_place _ Hsh i w slots s Hi Hw Hf); unfold bucket_of; rewrite Hmid, Htag; fold (Table_pair t hash); rewrite Ep; by destruct (Slot_is_second s). }
  rewrite filter_concat; symmetry; rewrite (concat_two (List.filter (fun s => Slot_holds s hash)) (tb_buckets t) (Z.to_nat home) (Z.to_nat second) hs ss); [| lia | done | done|].
  - rewrite (filter_ext_in _ (holds_here hash false) hs), (filter_ext_in _ (holds_here hash true) ss); [done | |]; intros s Hs; unfold holds_here; destruct (Slot_holds s hash) eqn:Eh'; [| done | | done]; cbn [andb].
    + specialize (Hpos _ _ s Es Hs Eh'); destruct (Slot_is_second s); [done | lia].
    + specialize (Hpos _ _ s Eh Hs Eh'); destruct (Slot_is_second s); [lia | done].
  - intros i slots Hi H1 H2; rewrite <- (List.filter_false (A := Slot) slots); apply filter_ext_in; intros s Hs; destruct (Slot_holds s hash) eqn:Eh'; [| done]; specialize (Hpos i slots s Hi Hs Eh'); destruct (Slot_is_second s); lia.
Qed.

(** ** Taking out *)

Lemma swap_remove_ok {A} (l : list A) (i : nat) x : l !! i = Some x -> exists l', swap_remove l (Z.of_nat i) = Ok l' /\ Permutation (x :: l') l.
Proof.
  intros Hi; destruct l as [|z l _] using rev_ind; [done|]; unfold swap_remove; rewrite last_snoc; res_simpl; rewrite len_app; change (len [z]) with 1; pose proof (lookup_lt_Some _ _ _ Hi) as Hlt; rewrite length_app in Hlt; cbn [length] in Hlt.
  rewrite (proj2 (Z.leb_le 0 _)), (proj2 (Z.ltb_lt _ _)) by (unfold len; lia); cbn [andb negb]; rewrite removelast_last; destruct (Z.eqb_spec (Z.of_nat i) (len l + 1 - 1)) as [E|Hne]; eexists; (split; [done|]).
  - assert (i = length l) as -> by (unfold len in E; lia); rewrite lookup_app_r, Nat.sub_diag in Hi by done; injection Hi as ->; apply Permutation_cons_append.
  - rewrite lookup_app_l in Hi by (unfold len in Hne; lia); rewrite Nat2Z.id; apply list_elem_of_split_length in Hi as (l1 & l2 & -> & ->); rewrite insert_app_r_alt, Nat.sub_diag by done; cbn [insert list_insert]; rewrite <- app_assoc; cbn [app]; transitivity (x :: z :: l1 ++ l2); [constructor; symmetry; apply Permutation_middle | rewrite <- Permutation_middle; constructor; rewrite app_assoc; apply Permutation_cons_append].
Qed.

Lemma find_places {A} (p : A -> bool) l : match List.find p l with Some x => x ∈ l /\ p x = true | None => Forall (fun x => p x = false) l end.
Proof. destruct (List.find p l) as [x|] eqn:E; [apply find_some in E as [? ?]; split; [by apply list_elem_of_In | done]|]; apply Forall_forall; intros x Hx; eapply find_none; [exact E | by apply list_elem_of_In]. Qed.

(** Where a place found stands: in a bucket or in the spill. *)
Lemma place_stands t hash found place : table_ok t -> tb_homes t < U64 -> Table_matches t hash = Ok found -> place ∈ places found -> Slot_holds (pl_slot place) hash = true /\
  ((exists (w : nat) slots, (pl_bucket place =? SPILLED) = false /\ 0 <= pl_bucket place /\ pl_way place = Z.of_nat w /\ (w < 4)%nat /\ tb_buckets t !! Z.to_nat (pl_bucket place) = Some slots /\ slots !! w = Some (pl_slot place))
   \/ (exists w : nat, pl_bucket place = SPILLED /\ pl_way place = Z.of_nat w /\ tb_spilled t !! w = Some (pl_slot place))).
Proof.
  intros Hok Hsz Em Hin; pose proof Hok as [Hsh _]; destruct (matches_ok t hash Hok) as (found' & hs & ss & Hm); destruct (Table_pair t hash) as [home second]; destruct Hm as (E & Eh & Es & Rh & Rs & Hne & Hp); rewrite Em in E; injection E as <-; rewrite Hp in Hin; rewrite (to_homes _ Hsh) in Rh, Rs.
  pose proof (to_ways _ Hsh) as Hw; rewrite Forall_lookup in Hw.
  apply elem_of_app in Hin as [Hin|[Hin|Hin]%elem_of_app]; apply in_places in Hin as (w & -> & Hs & Hh); cbn [pl_slot pl_bucket pl_way] in *.
  - unfold holds_here in Hh; apply andb_true_iff in Hh as [Hh _]; split; [done|]; left; exists w, hs; split_and!; [apply Z.eqb_neq; unfold SPILLED; lia | lia | done | rewrite <- (Hw _ _ Eh); by eapply lookup_lt_Some | done | done].
  - unfold holds_here in Hh; apply andb_true_iff in Hh as [Hh _]; split; [done|]; left; exists w, ss; split_and!; [apply Z.eqb_neq; unfold SPILLED; lia | lia | done | rewrite <- (Hw _ _ Es); by eapply lookup_lt_Some | done | done].
  - split; [done|]; right; by exists w.
Qed.

Lemma holds_norm s hash : Slot_holds (norm s) hash = Slot_holds s hash.
Proof. unfold Slot_holds, norm; rewrite in_second_tag; done. Qed.

(** A spill with one slot changed or gone. *)
Lemma spill_change t spilled held seed : table_shape t -> Forall slot_wf spilled -> Forall (fun s => is_filled_slot s = true) spilled -> table_shape (mkTable (tb_buckets t) spilled (tb_homes t) held seed (tb_phase t)).
Proof. intros [H1 H2 H3 H4 H5 H6] Hw Hf; split; try done; cbn; apply Forall_app in H4 as [? _]; by apply Forall_app. Qed.

Lemma filled_split t : table_shape t -> filled t = List.filter is_filled_slot (concat (tb_buckets t)) ++ tb_spilled t.
Proof.
  intros Hsh; unfold filled; rewrite List.filter_app; f_equal; pose proof (to_spilled _ Hsh) as Hs; induction Hs as [|x l Hx _ IH]; cbn [List.filter]; [done | by rewrite Hx, IH].
Qed.

Lemma take_ok t hash slot : table_ok t -> tb_homes t < U64 -> exists t' out, Table_take t hash slot = Ok (t', out) /\ table_ok t' /\ same_size t t' /\
  match out with
  | Some s => s ∈ filled t /\ Slot_holds s hash = true /\ Slot_same_place s slot = true /\ Permutation (contents t) (norm s :: contents t')
  | None => t' = t /\ Forall (fun s => Slot_holds s hash = true -> Slot_same_place s slot = false) (filled t)
  end.
Proof.
  intros Hok Hsz; destruct (matches_exact t hash Hok) as (found & Em & Hp); unfold Table_take; rewrite Em; res_simpl; pose proof (find_places (fun place => Slot_same_place (pl_slot place) slot) (places found)) as Hf; destruct (List.find _ _) as [place|].
  2:{ exists t, None; split_and!; try done; apply Forall_forall; intros s Hs Hh; assert (s ∈ map pl_slot (places found)) as Hin by (rewrite Hp; apply list_elem_of_In, filter_In; split; [by apply list_elem_of_In | done]).
      apply list_elem_of_fmap in Hin as (place & -> & Hin); rewrite Forall_forall in Hf; by apply Hf. }
  destruct Hf as [Hin Hsame]; destruct (place_stands t hash found place Hok Hsz Em Hin) as [Hh Hst]; pose proof Hok as [Hsh Hheld].
  assert (is_filled_slot (pl_slot place) = true) as Hfs by (by apply holds_bits in Hh as [? _]); destruct Hst as [(w & slots & Eb & H0 & Ew & Hw4 & El & Ep)|(w & Eb & Ew & Ep)].
  - rewrite Eb, Ew; unfold Table_set_at; replace ((pl_bucket place * WAYS + Z.of_nat w) / WAYS) with (pl_bucket place) by (unfold WAYS; Z.to_euclidean_division_equations; lia); replace ((pl_bucket place * WAYS + Z.of_nat w) mod WAYS) with (Z.of_nat w) by (unfold WAYS; Z.to_euclidean_division_equations; lia).
    rewrite (set_slot_eq t (pl_bucket place) w slots (pl_slot place) Slot_default El Ep); res_simpl; pose proof (set_slot_filled t _ w slots _ Slot_default El Ep) as Hperm; pose proof (set_slot_shape t _ w slots _ Slot_default Hsh El Ep default_wf ltac:(done)) as Hsh'; pose proof (same_size_set t (Z.to_nat (pl_bucket place)) (<[w := Slot_default]> slots)) as Hss.
    cbn [List.filter] in Hperm; rewrite Hfs in Hperm; cbn [is_filled_slot Slot_is_empty Slot_default sl_segment Z.eqb negb app] in Hperm; set (t1 := with_buckets_of _ _) in *; eexists _, (Some (pl_slot place)); split; [done|]; split_and!.
    + split; [by destruct Hsh'|]; change (filled (with_held t1 _)) with (filled t1); apply Permutation_length in Hperm; cbn [length] in Hperm; cbn [with_held tb_held t1 with_buckets_of]; rewrite Hheld; unfold len; lia.
    + by destruct Hss.
    + rewrite <- Hperm; by left.
    + done.
    + done.
    + unfold contents; change (filled (with_held t1 _)) with (filled t1); symmetry; exact (Permutation_map norm Hperm).
  - rewrite Eb, Z.eqb_refl, Ew; destruct (swap_remove_ok (tb_spilled t) w (pl_slot place) Ep) as (spilled & -> & Hperm); res_simpl; eexists _, (Some (pl_slot place)); split; [done|].
    assert (Forall slot_wf spilled /\ Forall (fun s => is_filled_slot s = true) spilled) as [Hwf Hff].
    { pose proof (to_wf _ Hsh) as Hw; apply Forall_app in Hw as [_ Hw]; pose proof (to_spilled _ Hsh) as Hs; rewrite <- Hperm in Hw, Hs; apply Forall_cons in Hw as [_ ?], Hs as [_ ?]; done. }
    assert (Permutation (filled t) (pl_slot place :: List.filter is_filled_slot (concat (tb_buckets t)) ++ spilled)) as Hfl by (rewrite (filled_split t Hsh), <- Hperm; by rewrite <- Permutation_middle).
    set (t1 := with_held _ _); assert (table_shape t1) as Hsh1 by exact (spill_change t spilled _ (tb_seed t) Hsh Hwf Hff); assert (filled t1 = List.filter is_filled_slot (concat (tb_buckets t)) ++ spilled) as Ef1 by (by rewrite (filled_split t1 Hsh1)); split_and!.
    + split; [done|]; rewrite Ef1; apply Permutation_length in Hfl; cbn [length] in Hfl; cbn [t1 with_held tb_held]; rewrite Hheld; unfold len; lia.
    + done.
    + rewrite Hfl; by left.
    + done.
    + done.
    + unfold contents; rewrite Ef1; exact (Permutation_map norm Hfl).
Qed.
