(* ===== verification/SpotShard.v ===== *)
(** * Shards of the spot index ([index/spot.rs])

    A shard is a table under its lock, with the counts of the slots that left it and of those marked
    displaced. *)
From S2P Require Import Prelude Error Arrays Bytes Lsn SpotSlot SpotTable SpotTableRep.

Implicit Types (t : Table) (slot s : Slot) (hash : Z).

(** ** Marking and sweeping a table *)

Lemma bucket_of_displaced t s : bucket_of t (as_displaced s) = bucket_of t s.
Proof. unfold bucket_of; by rewrite as_displaced_second, as_displaced_tag. Qed.

Lemma filled_displaced s : is_filled_slot (as_displaced s) = is_filled_slot s.
Proof. done. Qed.

Lemma norm_displaced s : norm (as_displaced s) = as_displaced (norm s).
Proof. symmetry; apply as_displaced_in_second. Qed.

Lemma mark_ok t hash slot : table_ok t -> tb_homes t < U64 -> exists t' marked, Table_mark_displaced t hash slot = Ok (t', marked) /\ table_ok t' /\ same_size t t' /\
  if (marked : bool) then exists s, s ∈ filled t /\ Slot_holds s hash = true /\ Slot_same_place s slot = true /\ Slot_is_displaced s = false /\ Permutation (norm s :: contents t') (as_displaced (norm s) :: contents t)
  else t' = t /\ Forall (fun s => Slot_holds s hash = true -> Slot_same_place s slot = true -> Slot_is_displaced s = true) (filled t).
Proof.
  intros Hok Hsz; destruct (matches_exact t hash Hok) as (found & Em & Hp); unfold Table_mark_displaced; rewrite Em; res_simpl; pose proof (find_places (fun place => Slot_same_place (pl_slot place) slot && negb (Slot_is_displaced (pl_slot place))) (places found)) as Hf; destruct (List.find _ _) as [place|].
  2:{ exists t, false; split_and!; try done; apply Forall_forall; intros s Hs Hh Hsame; assert (s ∈ map pl_slot (places found)) as Hin by (rewrite Hp; apply list_elem_of_In, filter_In; split; [by apply list_elem_of_In | done]).
      apply list_elem_of_fmap in Hin as (place & -> & Hin); rewrite Forall_forall in Hf; specialize (Hf place Hin); cbv beta in Hf; rewrite Hsame in Hf; by apply negb_false_iff in Hf. }
  destruct Hf as [Hin [Hsame Hnd%negb_true_iff]%andb_true_iff]; destruct (place_stands t hash found place Hok Hsz Em Hin) as [Hh Hst]; pose proof Hok as [Hsh Hheld].
  set (s := pl_slot place) in *; assert (is_filled_slot s = true) as Hfs by (by apply holds_bits in Hh as [? _]).
  assert (s ∈ filled t /\ slot_wf s) as [Hsf Hswf].
  { assert (s ∈ filled t) as Hsf by (assert (s ∈ map pl_slot (places found)) as Hs by (by apply (list_elem_of_fmap_2 pl_slot)); rewrite Hp in Hs; apply list_elem_of_In, filter_In in Hs as [Hs _]; by apply list_elem_of_In); split; [done|]; pose proof (filled_each t Hok) as He; rewrite Forall_forall in He; by apply He. }
  destruct Hst as [(w & slots & Eb & H0 & Ew & Hw4 & El & Ep)|(w & Eb & Ew & Ep)].
  - rewrite Eb, Ew; unfold bucket_at, idx; rewrite El; res_simpl; rewrite Nat2Z.id, Ep; res_simpl; rewrite (set_slot_eq t (pl_bucket place) w slots s (as_displaced s) El Ep); res_simpl.
    pose proof (set_slot_filled t _ w slots s (as_displaced s) El Ep) as Hperm; cbn [List.filter] in Hperm; rewrite filled_displaced, Hfs in Hperm; cbn [app] in Hperm.
    eexists _, true; split; [done|]; split_and!; [split | apply same_size_set | exists s; split_and!; try done].
    + apply (set_slot_shape t _ w slots s); [done | done | done | by apply as_displaced_wf | intros _; rewrite bucket_of_displaced; symmetry; by eapply (to_place _ Hsh)].
    + apply Permutation_length in Hperm; cbn [length] in Hperm; cbn [with_buckets_of tb_held] in *; rewrite Hheld; unfold len; f_equal; lia.
    + rewrite <- norm_displaced; exact (Permutation_map norm Hperm).
  - rewrite Eb, Z.eqb_refl, Ew; unfold idx; rewrite Nat2Z.id, Ep; res_simpl; rewrite set_idx_Ok by (by eapply lookup_lt_Some); res_simpl; eexists _, true; split; [done|].
    apply list_elem_of_split_length in Ep as (l1 & l2 & El & ->); assert (<[length l1 := as_displaced s]> (tb_spilled t) = l1 ++ as_displaced s :: l2) as -> by (rewrite El, insert_app_r_alt, Nat.sub_diag by done; done).
    pose proof (to_wf _ Hsh) as Hwf; apply Forall_app in Hwf as [_ Hwf]; pose proof (to_spilled _ Hsh) as Hsp; rewrite El in Hwf, Hsp; apply Forall_app in Hwf as [Hwf1 [_ Hwf2]%Forall_cons], Hsp as [Hsp1 [_ Hsp2]%Forall_cons].
    assert (table_shape (mkTable (tb_buckets t) (l1 ++ as_displaced s :: l2) (tb_homes t) (tb_held t) (tb_seed t) (tb_phase t))) as Hsh1.
    { apply spill_change; [done | |]; apply Forall_app; (split; [done|]); constructor; try done; by apply as_displaced_wf. }
    set (t1 := mkTable _ _ _ _ _ _) in *; assert (Permutation (s :: filled t1) (as_displaced s :: filled t)) as Hperm.
    { rewrite (filled_split t1 Hsh1), (filled_split t Hsh), El; cbn [t1 tb_buckets tb_spilled]; rewrite !(app_assoc _ l1), <- !Permutation_middle; apply perm_swap. }
    split_and!; [split; [done|] | done | exists s; split_and!; try done].
    + apply Permutation_length in Hperm; cbn [length] in Hperm; cbn [t1 tb_held]; rewrite Hheld; unfold len; f_equal; lia.
    + rewrite <- norm_displaced; exact (Permutation_map norm Hperm).
Qed.

Lemma drop_slots keep (l : list Slot) : List.filter is_filled_slot (map (drop_slot keep) l) = List.filter keep (List.filter is_filled_slot l).
Proof.
  induction l as [|s l IH]; cbn [map List.filter]; [done|]; destruct (is_filled_slot s) eqn:Ef; pose proof Ef as Ef'; unfold is_filled_slot in Ef'.
  - destruct (keep s) eqn:Ek; [assert (drop_slot keep s = s) as -> by (unfold drop_slot; by rewrite Ef', Ek) | assert (drop_slot keep s = Slot_default) as -> by (unfold drop_slot; by rewrite Ef', Ek)]; cbn [List.filter]; rewrite Ek; [rewrite Ef; by rewrite IH | exact IH].
  - assert (drop_slot keep s = s) as -> by (unfold drop_slot; by rewrite Ef'); rewrite Ef; exact IH.
Qed.

Lemma filter_map_norm (p : Slot -> bool) l : (forall s b, p (Slot_in_second s b) = p s) -> List.filter p (map norm l) = map norm (List.filter p l).
Proof. intros Hp; induction l as [|s l IH]; cbn [map List.filter]; [done|]; unfold norm at 1; rewrite Hp; destruct (p s); cbn [map]; by rewrite IH. Qed.

Lemma len_filter_split {A} (p : A -> bool) l : len l = len (List.filter p l) + len (List.filter (fun x => negb (p x)) l).
Proof. induction l as [|x l IH]; [done|]; cbn [List.filter]; destruct (p x); cbn [negb]; rewrite !len_cons, IH; lia. Qed.

Lemma retain_ok t keep : table_ok t -> (forall s b, keep (Slot_in_second s b) = keep s) ->
  let '(t', (n, d)) := Table_retain t keep in table_ok t' /\ same_size t t' /\ contents t' = List.filter keep (contents t)
  /\ n = len (List.filter (fun s => negb (keep s)) (contents t)) /\ d = len (List.filter Slot_is_displaced (List.filter (fun s => negb (keep s)) (contents t))).
Proof.
  intros [Hsh Hheld] Hk; unfold Table_retain; set (t' := mkTable _ _ _ _ _ _).
  assert (filled t' = List.filter keep (filled t)) as Ef.
  { rewrite (filled_split t Hsh), List.filter_app; unfold filled; cbn [t' tb_buckets tb_spilled]; rewrite List.filter_app, <- concat_map, drop_slots; f_equal; pose proof (to_spilled _ Hsh) as Hsp;
    rewrite (filter_ext_in is_filled_slot (fun _ => true)); [apply List.filter_true|]; intros s Hs; apply list_elem_of_In, filter_In in Hs as [Hs _]; rewrite Forall_forall in Hsp; by apply Hsp, list_elem_of_In. }
  assert (dropped keep (concat (tb_buckets t)) ++ List.filter (fun slot => negb (keep slot)) (tb_spilled t) = List.filter (fun s => negb (keep s)) (filled t)) as Eo.
  { rewrite (filled_split t Hsh), List.filter_app; f_equal; unfold dropped; induction (concat (tb_buckets t)) as [|s l IH]; cbn [List.filter]; [done|]; change (negb (Slot_is_empty s)) with (is_filled_slot s); destruct (is_filled_slot s); cbn [andb List.filter]; destruct (keep s); cbn [negb]; by rewrite ?IH. }
  rewrite Eo; unfold contents; rewrite !(filter_map_norm (fun s => negb (keep s))), (filter_map_norm keep), (filter_map_norm Slot_is_displaced) by (intros; rewrite ?Hk, ?in_second_displaced; done).
  pose proof (len_filter_split keep (filled t)) as Hl; split_and!; [split | unfold same_size; cbn; unfold len; by rewrite length_map | by rewrite Ef | unfold len; rewrite length_map; unfold len in Hl; lia | unfold len; by rewrite !length_map].
  - destruct Hsh as [H1 H2 H3 H4 H5 H6]; split; cbn [t' tb_buckets tb_spilled tb_homes].
    + unfold len in *; by rewrite length_map.
    + done.
    + apply Forall_forall; intros slots (x & -> & Hx)%list_elem_of_fmap; rewrite length_map; rewrite Forall_forall in H3; by apply H3.
    + apply Forall_app in H4 as [Ha Hb]; apply Forall_app; split; [| apply Forall_forall; intros s Hs; apply list_elem_of_In, filter_In in Hs as [Hs _]; rewrite Forall_forall in Hb; by apply Hb, list_elem_of_In].
      rewrite <- concat_map; apply Forall_forall; intros s (x & -> & Hx)%list_elem_of_fmap; unfold drop_slot; destruct (_ && _); [apply default_wf | rewrite Forall_forall in Ha; by apply Ha].
    + intros b w slots s Hb Hw Hf; assert (same_size t t') as Hss by (unfold same_size; cbn; unfold len; by rewrite length_map); rewrite (same_size_bucket t t' s Hss); change (map (map (drop_slot keep)) (tb_buckets t)) with (map (drop_slot keep) <$> tb_buckets t) in Hb; rewrite list_lookup_fmap in Hb; destruct (tb_buckets t !! b) as [slots0|] eqn:E0; [| done]; injection Hb as <-.
      change (map (drop_slot keep) slots0) with (drop_slot keep <$> slots0) in Hw; rewrite list_lookup_fmap in Hw; destruct (slots0 !! w) as [s0|] eqn:E1; [| done]; injection Hw as <-; unfold drop_slot in *; destruct (_ && _); [done | by eapply H5].
    + apply Forall_forall; intros s Hs; apply list_elem_of_In, filter_In in Hs as [Hs _]; rewrite Forall_forall in H6; by apply H6, list_elem_of_In.
  - rewrite Ef; subst t'; cbn [tb_held]; rewrite Eo, Hheld; lia.
Qed.

(** ** Shards *)

Record Shard := mkShard { sh_table : Table; sh_taken : Z; sh_displaced : Z }.

Implicit Types (sh : Shard).

Section shard.
Context `{Ladder}.

Definition Shard_new (at_ : Z) : Shard := mkShard (Table_with_buckets (first_rung at_) at_) 0 0.

Definition Writing_take_slot sh hash slot : res (Shard * option Slot) :=
  '(t, took) ← Table_take (sh_table sh) hash slot;
  match took with
  | None => Ok (mkShard t (sh_taken sh) (sh_displaced sh), None)
  | Some s => Ok (mkShard t (as_u64 (sh_taken sh + 1)) (if Slot_is_displaced s then as_u64 (sh_displaced sh - 1) else sh_displaced sh), Some s)
  end.

Definition Writing_take sh hash slot : res (Shard * bool) :=
  '(sh, took) ← Writing_take_slot sh hash slot;
  Ok (sh, match took with Some _ => true | None => false end).

Definition Writing_take_unbooked sh hash slot : res (Shard * bool) :=
  found ← Table_matches (sh_table sh) hash;
  let is_booked := existsb (fun place => Slot_same_place (pl_slot place) slot && Slot_is_displaced (pl_slot place)) (places found) in
  if negb is_booked then Writing_take sh hash slot else Ok (sh, false).

Definition Writing_mark_displaced sh hash slot : res (Shard * bool) :=
  '(t, marked) ← Table_mark_displaced (sh_table sh) hash slot;
  Ok (mkShard t (sh_taken sh) (if (marked : bool) then as_u64 (sh_displaced sh + 1) else sh_displaced sh), marked).

Definition Writing_count_taken sh (slots displaced : Z) : Shard :=
  mkShard (sh_table sh) (if 0 <? slots then as_u64 (sh_taken sh + slots) else sh_taken sh) (if 0 <? displaced then as_u64 (sh_displaced sh - displaced) else sh_displaced sh).

(** [table.retain] with its counts booked. *)
Definition Writing_retain sh (keep : Slot -> bool) : Shard * (Z * Z) :=
  let '(t, (slots, displaced)) := Table_retain (sh_table sh) keep in
  (Writing_count_taken (mkShard t (sh_taken sh) (sh_displaced sh)) slots displaced, (slots, displaced)).

Definition Writing_insert sh slot : res Shard :=
  t ← Table_insert (sh_table sh) slot;
  Ok (mkShard t (sh_taken sh) (sh_displaced sh)).

Definition put_in sh hash (loc : Loc) : res (Shard * bool) :=
  let slot := Slot_new hash loc in
  found ← Table_matches (sh_table sh) hash;
  if existsb (fun place => Slot_same_place (pl_slot place) slot) (places found) then Ok (sh, false)
  else sh ← Writing_insert sh slot; Ok (sh, true).

(** ** What a shard promises *)

(** The slots a shard stands for, its count of displaced ones kept. *)
Record shard_ok sh (l : list Slot) : Prop := {
  ho_table : table_ok (sh_table sh);
  ho_slots : Permutation (contents (sh_table sh)) l;
  ho_displaced : sh_displaced sh = as_u64 (len (List.filter Slot_is_displaced l));
}.

Definition sought hash slot s : bool := Slot_holds s hash && Slot_same_place s slot.

Lemma sought_norm hash slot s : sought hash slot (norm s) = sought hash slot s.
Proof. unfold sought; by rewrite holds_norm. Qed.

Lemma filter_len_perm {A} (p : A -> bool) l l' : Permutation l l' -> len (List.filter p l) = len (List.filter p l').
Proof. intros Hp; unfold len; by rewrite (Permutation_length (perm_filter p l l' Hp)). Qed.

Lemma as_u64_shift a b : as_u64 (as_u64 a + b) = as_u64 (a + b).
Proof. unfold as_u64; by rewrite Z.add_mod_idemp_l. Qed.

Lemma shard_new_ok at_ : shard_ok (Shard_new at_) [].
Proof. destruct (new_table_ok (first_rung at_) at_) as [H1 H2]; split; [done | cbn [Shard_new sh_table]; by rewrite H2 | done]. Qed.

(** A look at a shard: the slots with the key's bits, in some order. *)
Lemma shard_matches sh l hash : shard_ok sh l -> exists found, Table_matches (sh_table sh) hash = Ok found /\ Permutation (map norm (map pl_slot (places found))) (List.filter (fun s => Slot_holds s hash) l).
Proof.
  intros [H1 H2 _]; destruct (matches_exact _ hash H1) as (found & E & Hp); exists found; split; [done|]; rewrite Hp, <- (filter_map_norm (fun s => Slot_holds s hash)) by (intros s b; unfold Slot_holds; by rewrite in_second_tag); apply perm_filter; exact H2.
Qed.

Lemma existsb_perm {A} (p : A -> bool) l l' : Permutation l l' -> existsb p l = existsb p l'.
Proof. induction 1 as [|x l l' _ IH|x y l|]; cbn [existsb]; [done | by rewrite IH | destruct (p x), (p y); done | congruence]. Qed.

Lemma existsb_filter {A} (p q : A -> bool) l : existsb p (List.filter q l) = existsb (fun x => q x && p x) l.
Proof. induction l as [|x l IH]; cbn [List.filter existsb]; [done|]; destruct (q x); cbn [existsb andb orb]; by rewrite IH. Qed.

Lemma existsb_map {A B} (f : A -> B) (p : B -> bool) l : existsb p (map f l) = existsb (fun x => p (f x)) l.
Proof. induction l as [|x l IH]; cbn [map existsb]; [done | by rewrite IH]. Qed.

Lemma existsb_same {A} (p q : A -> bool) l : (forall x, p x = q x) -> existsb p l = existsb q l.
Proof. intros Hpq; induction l as [|x l IH]; cbn [existsb]; [done | by rewrite Hpq, IH]. Qed.

(** Whether some slot of a key answers a question that its bucket does not change. *)
Lemma shard_any sh l hash (q : Slot -> bool) : shard_ok sh l -> (forall s b, q (Slot_in_second s b) = q s) -> exists found, Table_matches (sh_table sh) hash = Ok found /\ existsb (fun place => q (pl_slot place)) (places found) = existsb (fun s => Slot_holds s hash && q s) l.
Proof.
  intros Hok Hq; destruct (shard_matches sh l hash Hok) as (found & E & Hp); exists found; split; [done|]; rewrite <- (existsb_filter q (fun s => Slot_holds s hash)), <- (existsb_perm q _ _ Hp), !existsb_map; apply existsb_same; intros place; unfold norm; by rewrite Hq.
Qed.

Lemma take_slot_ok sh l hash slot : shard_ok sh l -> tb_homes (sh_table sh) < U64 -> exists sh' took, Writing_take_slot sh hash slot = Ok (sh', took) /\ same_size (sh_table sh) (sh_table sh') /\
  match took with
  | Some s => exists rest, Permutation l (norm s :: rest) /\ sought hash slot s = true /\ shard_ok sh' rest /\ sh_taken sh' = as_u64 (sh_taken sh + 1)
  | None => sh' = sh /\ existsb (sought hash slot) l = false
  end.
Proof.
  intros [H1 H2 H3] Hsz; unfold Writing_take_slot; destruct (take_ok _ hash slot H1 Hsz) as (t' & [s|] & -> & Hok' & Hss & Hout); res_simpl.
  - destruct Hout as (Hin & Hh & Hs & Hp); eexists _, (Some s); split; [done|]; split; [done|]; exists (contents t'); rewrite <- H2; split_and!; [done | unfold sought; by rewrite Hh, Hs | | done]; split; cbn [sh_table sh_displaced]; [done | done|].
    assert (len (List.filter Slot_is_displaced l) = (if Slot_is_displaced s then 1 else 0) + len (List.filter Slot_is_displaced (contents t'))) as Hc by (rewrite <- (filter_len_perm _ _ _ H2), (filter_len_perm _ _ _ Hp); cbn [List.filter]; unfold norm at 1; rewrite in_second_displaced; destruct (Slot_is_displaced s); rewrite ?len_cons; lia).
    rewrite H3, Hc; destruct (Slot_is_displaced s); [rewrite <- Z.add_opp_r, as_u64_shift; f_equal; lia | f_equal; lia].
  - destruct Hout as [-> Hno]; exists sh, None; split_and!; [by destruct sh | done | done |]; rewrite <- (existsb_perm _ _ _ H2); unfold contents; rewrite existsb_map; apply not_true_iff_false; rewrite existsb_exists; intros (s & Hs & Hso); rewrite sought_norm in Hso; unfold sought in Hso; apply andb_true_iff in Hso as [Hh Hsame].
    rewrite Forall_forall in Hno; specialize (Hno s ltac:(by apply list_elem_of_In) Hh); congruence.
Qed.

Lemma mark_slot_ok sh l hash slot : shard_ok sh l -> tb_homes (sh_table sh) < U64 -> exists sh' marked, Writing_mark_displaced sh hash slot = Ok (sh', marked) /\ same_size (sh_table sh) (sh_table sh') /\
  if (marked : bool) then exists s rest, Permutation l (s :: rest) /\ sought hash slot s = true /\ Slot_is_displaced s = false /\ shard_ok sh' (as_displaced s :: rest) /\ sh_taken sh' = sh_taken sh
  else sh' = sh /\ existsb (fun s => sought hash slot s && negb (Slot_is_displaced s)) l = false.
Proof.
  intros [H1 H2 H3] Hsz; unfold Writing_mark_displaced; destruct (mark_ok _ hash slot H1 Hsz) as (t' & [] & -> & Hok' & Hss & Hout); res_simpl.
  - destruct Hout as (s & Hin & Hh & Hs & Hd & Hp); eexists _, true; split; [done|]; split; [done|]; assert (norm s ∈ l) as Hin' by (rewrite <- H2; by apply (list_elem_of_fmap_2 norm)); apply elem_of_Permutation in Hin' as [rest Hrest].
    rewrite H2, Hrest, perm_swap in Hp; apply Permutation_cons_inv in Hp; exists (norm s), rest; split_and!; [done | rewrite sought_norm; unfold sought; by rewrite Hh, Hs | unfold norm; by rewrite in_second_displaced | | done]; split; cbn [sh_table sh_displaced]; [done | done|].
    assert (Slot_is_displaced (as_displaced (norm s)) = true) as Hd2 by (by rewrite is_displaced_bit, as_displaced_bits).
    rewrite H3, (filter_len_perm _ _ _ Hrest), as_u64_shift; cbn [List.filter]; rewrite Hd2; unfold norm at 1; rewrite in_second_displaced, Hd, len_cons; f_equal; lia.
  - destruct Hout as [-> Hno]; exists sh, false; split_and!; [by destruct sh | done | done |]; rewrite <- (existsb_perm _ _ _ H2); unfold contents; rewrite existsb_map; apply not_true_iff_false; rewrite existsb_exists; intros (s & Hs & Hso); apply andb_true_iff in Hso as [Hso Hnd%negb_true_iff]; unfold norm in Hnd; rewrite in_second_displaced in Hnd; rewrite sought_norm in Hso; unfold sought in Hso; apply andb_true_iff in Hso as [Hh Hsame].
    rewrite Forall_forall in Hno; specialize (Hno s ltac:(by apply list_elem_of_In) Hh Hsame); congruence.
Qed.

Lemma insert_slot_ok sh l slot : shard_ok sh l -> slot_wf slot -> is_filled_slot slot = true -> Slot_is_displaced slot = false ->
  exists sh', Writing_insert sh slot = Ok sh' /\ shard_ok sh' (norm slot :: l) /\ (ladder_fits -> grew (sh_table sh) (sh_table sh')) /\ sh_taken sh' = sh_taken sh.
Proof.
  intros [H1 H2 H3] Hw Hf Hd; unfold Writing_insert; destruct (table_insert_ok _ slot H1 Hw Hf) as (t' & -> & Hok' & Hg & Hp); res_simpl; eexists; split_and!; [done | split; cbn [sh_table sh_displaced]; [done | by rewrite Hp, H2 |] | done | done].
  rewrite H3; cbn [List.filter]; unfold norm at 1; by rewrite in_second_displaced, Hd.
Qed.

Lemma retain_slots_ok sh l keep : shard_ok sh l -> (forall s b, keep (Slot_in_second s b) = keep s) ->
  let '(sh', (n, d)) := Writing_retain sh keep in shard_ok sh' (List.filter keep l) /\ same_size (sh_table sh) (sh_table sh')
  /\ n = len (List.filter (fun s => negb (keep s)) l) /\ d = len (List.filter Slot_is_displaced (List.filter (fun s => negb (keep s)) l)) /\ sh_taken sh' = if 0 <? n then as_u64 (sh_taken sh + n) else sh_taken sh.
Proof.
  intros [H1 H2 H3] Hk; unfold Writing_retain; pose proof (retain_ok (sh_table sh) keep H1 Hk) as Hr; destruct (Table_retain (sh_table sh) keep) as [t' [n d]]; destruct Hr as (Hok' & Hss & Hc & Hn & Hd); rewrite Hn in *; rewrite (filter_len_perm _ _ _ H2) in *.
  rewrite (filter_len_perm _ _ _ (perm_filter (fun s => negb (keep s)) _ _ H2)) in Hd; split_and!; [split; cbn [Writing_count_taken sh_table sh_displaced]; [done | rewrite Hc; by apply perm_filter |] | done | done | done | done].
  assert (len (List.filter Slot_is_displaced l) = len (List.filter Slot_is_displaced (List.filter keep l)) + d) as Hs.
  { rewrite Hd; clear; induction l as [|s l IH]; [done|]; cbn [List.filter]; destruct (keep s); cbn [negb List.filter]; destruct (Slot_is_displaced s); rewrite ?len_cons; lia. }
  rewrite H3, Hs; destruct (Z.ltb_spec 0 d); [rewrite <- Z.add_opp_r, as_u64_shift; f_equal; lia | f_equal; pose proof (len_nonneg (List.filter Slot_is_displaced (List.filter (fun s => negb (keep s)) l))); lia].
Qed.

(** ** Histories *)

Inductive ShardOp := DoPut (hash : Z) (loc : Loc) | DoTake (hash : Z) (slot : Slot) | DoTakeUnbooked (hash : Z) (slot : Slot) | DoMark (hash : Z) (slot : Slot) | DoRetain (keep : Slot -> bool).
Inductive ShardAnswer := AnsBool (did : bool) | AnsCounts (slots displaced : Z).

Definition shard_do sh (op : ShardOp) : res (Shard * ShardAnswer) :=
  match op with
  | DoPut hash loc => '(sh, did) ← put_in sh hash loc; Ok (sh, AnsBool did)
  | DoTake hash slot => '(sh, did) ← Writing_take sh hash slot; Ok (sh, AnsBool did)
  | DoTakeUnbooked hash slot => '(sh, did) ← Writing_take_unbooked sh hash slot; Ok (sh, AnsBool did)
  | DoMark hash slot => '(sh, did) ← Writing_mark_displaced sh hash slot; Ok (sh, AnsBool did)
  | DoRetain keep => let '(sh, (slots, displaced)) := Writing_retain sh keep in Ok (sh, AnsCounts slots displaced)
  end.

Fixpoint shard_run sh (ops : list ShardOp) : res (Shard * list ShardAnswer) :=
  match ops with
  | [] => Ok (sh, [])
  | op :: ops => '(sh, answer) ← shard_do sh op; '(sh, answers) ← shard_run sh ops; Ok (sh, answer :: answers)
  end.

(** What each operation does to the slots a shard stands for, whatever the table did with them. *)
Inductive spec_do : list Slot -> ShardOp -> list Slot -> ShardAnswer -> Prop :=
| spec_put l hash loc : existsb (sought hash (Slot_new hash loc)) l = false -> spec_do l (DoPut hash loc) (Slot_new hash loc :: l) (AnsBool true)
| spec_put_again l hash loc : existsb (sought hash (Slot_new hash loc)) l = true -> spec_do l (DoPut hash loc) l (AnsBool false)
| spec_take l hash slot s rest : Permutation l (s :: rest) -> sought hash slot s = true -> spec_do l (DoTake hash slot) rest (AnsBool true)
| spec_take_none l hash slot : existsb (sought hash slot) l = false -> spec_do l (DoTake hash slot) l (AnsBool false)
| spec_unbooked l hash slot s rest : existsb (fun s => sought hash slot s && Slot_is_displaced s) l = false -> Permutation l (s :: rest) -> sought hash slot s = true -> spec_do l (DoTakeUnbooked hash slot) rest (AnsBool true)
| spec_booked l hash slot : existsb (fun s => sought hash slot s && Slot_is_displaced s) l = true -> spec_do l (DoTakeUnbooked hash slot) l (AnsBool false)
| spec_unbooked_none l hash slot : existsb (sought hash slot) l = false -> spec_do l (DoTakeUnbooked hash slot) l (AnsBool false)
| spec_mark l hash slot s rest : Permutation l (s :: rest) -> sought hash slot s = true -> Slot_is_displaced s = false -> spec_do l (DoMark hash slot) (as_displaced s :: rest) (AnsBool true)
| spec_mark_none l hash slot : existsb (fun s => sought hash slot s && negb (Slot_is_displaced s)) l = false -> spec_do l (DoMark hash slot) l (AnsBool false)
| spec_retain l keep : spec_do l (DoRetain keep) (List.filter keep l) (AnsCounts (len (List.filter (fun s => negb (keep s)) l)) (len (List.filter Slot_is_displaced (List.filter (fun s => negb (keep s)) l)))).

Inductive spec_run : list Slot -> list ShardOp -> list Slot -> list ShardAnswer -> Prop :=
| spec_run_nil l : spec_run l [] l []
| spec_run_cons l op l1 answer ops l2 answers : spec_do l op l1 answer -> spec_run l1 ops l2 answers -> spec_run l (op :: ops) l2 (answer :: answers).

(** Records have their widths and a segment of their own; a sweep asks nothing about the bucket. *)
Definition op_ok (op : ShardOp) : Prop :=
  match op with
  | DoPut _ loc => is_u32 (loc_segment loc) /\ is_u32 (loc_offset loc) /\ is_u32 (loc_len loc) /\ loc_segment loc <> 0
  | DoRetain keep => forall s b, keep (Slot_in_second s b) = keep s
  | DoTake _ _ | DoTakeUnbooked _ _ | DoMark _ _ => True
  end.

Lemma norm_new hash loc : is_u32 (loc_len loc) -> norm (Slot_new hash loc) = Slot_new hash loc.
Proof. intros Hl; assert (Slot_is_second (Slot_new hash loc) = false) as E by (rewrite is_second_bit; by apply new_marks); pose proof (in_second_same (Slot_new hash loc)) as Hs; rewrite E in Hs; exact Hs. Qed.

Lemma sought_in_second hash slot s b : sought hash slot (Slot_in_second s b) = sought hash slot s.
Proof. unfold sought, Slot_holds; by rewrite in_second_tag. Qed.

Definition grew_at_most sh sh' : Prop := tb_homes (sh_table sh') <= Z.max LADDER_TOP (tb_homes (sh_table sh)) + 2.

Lemma same_size_grew sh sh' : same_size (sh_table sh) (sh_table sh') -> grew_at_most sh sh'.
Proof. intros [_ E]; unfold grew_at_most; lia. Qed.

Lemma take_spec sh l hash slot : shard_ok sh l -> tb_homes (sh_table sh) < U64 -> exists sh' did, Writing_take sh hash slot = Ok (sh', did) /\ grew_at_most sh sh' /\ exists l', shard_ok sh' l' /\
  if (did : bool) then exists s, Permutation l (s :: l') /\ sought hash slot s = true else l' = l /\ existsb (sought hash slot) l = false.
Proof.
  intros Hok Hsz; unfold Writing_take; destruct (take_slot_ok sh l hash slot Hok Hsz) as (sh' & [s|] & -> & Hss & Hout); res_simpl.
  - destruct Hout as (rest & Hp & Hs & Hok' & _); eexists _, true; split; [done|]; split; [by apply same_size_grew|]; exists rest; split; [done|]; exists (norm s); split; [done | by rewrite sought_norm].
  - destruct Hout as [-> Hno]; eexists _, false; split; [done|]; split; [by apply same_size_grew | by exists l].
Qed.

(** Every operation returns, and does to the slots what its specification says. *)
Lemma shard_do_ok sh l op : ladder_fits -> shard_ok sh l -> op_ok op -> tb_homes (sh_table sh) < U64 -> exists sh' answer l', shard_do sh op = Ok (sh', answer) /\ spec_do l op l' answer /\ shard_ok sh' l' /\ grew_at_most sh sh'.
Proof.
  intros Hl Hok Hop Hsz; destruct op as [hash loc|hash slot|hash slot|hash slot|keep]; cbn [shard_do op_ok] in *.
  - destruct Hop as (H1 & H2 & H3 & H0); unfold put_in; destruct (shard_any sh l hash (fun s => Slot_same_place s (Slot_new hash loc)) Hok ltac:(done)) as (found & -> & E); res_simpl; rewrite E; destruct (existsb (fun s => Slot_holds s hash && Slot_same_place s (Slot_new hash loc)) l) eqn:Ex.
    + eexists _, _, l; split; [done|]; split_and!; [by apply spec_put_again | done | by apply same_size_grew].
    + destruct (insert_slot_ok sh l (Slot_new hash loc) Hok) as (sh' & -> & Hok' & Hg & _); [by apply new_wf | unfold is_filled_slot, Slot_is_empty; cbn; by rewrite (proj2 (Z.eqb_neq _ _) H0) | rewrite is_displaced_bit; by apply new_marks|]; res_simpl.
      rewrite norm_new in Hok' by done; eexists _, _, _; split; [done|]; split_and!; [by apply spec_put | done | by apply Hg].
  - destruct (take_spec sh l hash slot Hok Hsz) as (sh' & did & -> & Hg & l' & Hok' & Hd); res_simpl; eexists _, _, l'; split; [done|]; split_and!; [| done | done]; destruct did; [destruct Hd as (s & ? & ?); by eapply spec_take | destruct Hd as [-> ?]; by apply spec_take_none].
  - unfold Writing_take_unbooked; destruct (shard_any sh l hash (fun s => Slot_same_place s slot && Slot_is_displaced s) Hok ltac:(intros s b; cbv beta; by rewrite in_second_displaced)) as (found & -> & E); res_simpl; rewrite E.
    assert (existsb (fun s => Slot_holds s hash && (Slot_same_place s slot && Slot_is_displaced s)) l = existsb (fun s => sought hash slot s && Slot_is_displaced s) l) as -> by (apply existsb_same; intros s; unfold sought; by rewrite andb_assoc).
    destruct (existsb (fun s => sought hash slot s && Slot_is_displaced s) l) eqn:Ex; cbn [negb]; [res_simpl; eexists _, _, l; split; [done|]; split_and!; [by apply spec_booked | done | by apply same_size_grew]|].
    destruct (take_spec sh l hash slot Hok Hsz) as (sh' & did & -> & Hg & l' & Hok' & Hd); res_simpl; eexists _, _, l'; split; [done|]; split_and!; [| done | done]; destruct did; [destruct Hd as (s & ? & ?); by eapply spec_unbooked | destruct Hd as [-> ?]; by apply spec_unbooked_none].
  - destruct (mark_slot_ok sh l hash slot Hok Hsz) as (sh' & [] & -> & Hss & Hout); res_simpl.
    + destruct Hout as (s & rest & Hp & Hs & Hd & Hok' & _); eexists _, _, _; split; [done|]; split_and!; [by eapply spec_mark | done | by apply same_size_grew].
    + destruct Hout as [-> Hno]; eexists _, _, l; split; [done|]; split_and!; [by apply spec_mark_none | done | by apply same_size_grew].
  - pose proof (retain_slots_ok sh l keep Hok Hop) as Hr; destruct (Writing_retain sh keep) as [sh' [n d]]; destruct Hr as (Hok' & Hss & -> & -> & _); eexists _, _, _; split; [done|]; split_and!; [apply spec_retain | done | by apply same_size_grew].
Qed.

Lemma shard_run_ok ops : forall sh l, ladder_fits -> shard_ok sh l -> Forall op_ok ops -> Z.max LADDER_TOP (tb_homes (sh_table sh)) + 2 * len ops < U64 ->
  exists sh' answers l', shard_run sh ops = Ok (sh', answers) /\ spec_run l ops l' answers /\ shard_ok sh' l'.
Proof.
  induction ops as [|op ops IH]; intros sh l Hl Hok Hops Hsz; cbn [shard_run]; [exists sh, [], l; split_and!; [done | constructor | done]|]; apply Forall_cons in Hops as [Hop Hops]; rewrite len_cons in Hsz; pose proof (len_nonneg ops).
  destruct (shard_do_ok sh l op Hl Hok Hop ltac:(lia)) as (sh1 & answer & l1 & -> & Hs1 & Hok1 & Hg); res_simpl; destruct (IH sh1 l1 Hl Hok1 Hops) as (sh2 & answers & l2 & -> & Hs2 & Hok2); [unfold grew_at_most in Hg; lia|]; res_simpl.
  eexists _, _, l2; split_and!; [done | by econstructor | done].
Qed.

(** C12: Over any history of puts, takes, marks and sweeps a shard of the spot index returns and answers
    as the bag of slots the history spells: kicks, growth and spills lose none and repeat none, the
    counts of slots held and displaced are exact, and a look at a key finds exactly the slots with
    its bits. *)
Theorem spot_shard_refines at_ ops : ladder_fits -> Forall op_ok ops -> len ops < 2 ^ 60 ->
  exists sh answers l, shard_run (Shard_new at_) ops = Ok (sh, answers) /\ spec_run [] ops l answers
    /\ Permutation (contents (sh_table sh)) l /\ tb_held (sh_table sh) = len l /\ sh_displaced sh = as_u64 (len (List.filter Slot_is_displaced l))
    /\ forall hash, exists found, Table_matches (sh_table sh) hash = Ok found /\ Permutation (map norm (map pl_slot (places found))) (List.filter (fun s => Slot_holds s hash) l).
Proof.
  intros Hl Hops Hn; assert (tb_homes (sh_table (Shard_new at_)) <= LADDER_TOP) as Hh by (cbn [Shard_new sh_table Table_with_buckets tb_homes]; unfold first_rung; destruct (Hl at_ 0) as [Hf _]; unfold LADDER_TOP in *; lia).
  destruct (shard_run_ok ops (Shard_new at_) [] Hl (shard_new_ok at_) Hops ltac:(unfold LADDER_TOP, U64 in *; lia)) as (sh & answers & l & E & Hs & Hok); exists sh, answers, l; pose proof Hok as [H1 H2 H3]; split_and!; try done.
  - destruct H1 as [_ ->]; unfold contents in H2; apply Permutation_length in H2; rewrite length_map in H2; unfold len; by rewrite H2.
  - intros hash; by apply shard_matches.
Qed.
End shard.

(** ** At a concrete history *)

Definition demo_ladder : Ladder := {| ladder_first := fun _ => 8; ladder_above := fun _ homes => Z.min (homes * 3 / 2) LADDER_TOP |}.

Definition demo_shard_ops : list ShardOp := [DoPut 77 (mkLoc 3 4096 1500); DoPut 78 (mkLoc 4 64 10); DoPut 77 (mkLoc 5 128 9000); DoMark 77 (Slot_new 77 (mkLoc 3 4096 1500)); DoTake 78 (Slot_new 78 (mkLoc 4 64 10)); DoRetain (fun s => negb (sl_segment s =? 5))].

Lemma spot_shard_refines_witness : exists sh answers l, shard_run (H := demo_ladder) (Shard_new (H := demo_ladder) 0) demo_shard_ops = Ok (sh, answers) /\ spec_run [] demo_shard_ops l answers /\ tb_held (sh_table sh) = len l.
Proof.
  destruct (spot_shard_refines (H := demo_ladder) 0 demo_shard_ops) as (sh & answers & l & H1 & H2 & _ & H3 & _); [intros phase homes; cbn; unfold LADDER_TOP; lia | repeat constructor; done | done|].
  exists sh, answers, l; split; [exact H1 | split; [exact H2 | exact H3]].
Defined.
