(* ===== verification/SpotColumn.v ===== *)
(** * The spot index of a column ([index/spot.rs])

    A column's sealed keys as record locations. A slot names a record and some hash bits, not the key,
    so a lookup reads each candidate's record to know whether it is the key's and which version it
    is; an overwrite books the versions it beats, by their true length where a read gives it and from
    their length class where none does. *)
From S2P Require Import Prelude Error Arrays Bytes Lsn Column Record FooterRow Partition IndexEntry ColumnIndex SpotSlot SpotTable SpotShard.
From Stdlib Require Import SpecFloat.

Definition SPOT_SHARDS : Z := 256.
Definition SPOT_LOCK_CHUNK : nat := 64.
Definition LOOKUP_TRIES : nat := 9.
Definition MAX_STALE : Z := Z.shiftl 1 20.
Definition MAX_OWED : Z := Z.shiftl 1 20.
Definition SETTLE_AT : Z := 3.

(** ** What a read of a record says *)

Record Head := mkHead { hd_lsn : Lsn; hd_len : Z; hd_is_tombstone : bool }.

Inductive HeadRead := HeadSame (head : Head) | HeadOther | HeadMissing | HeadCold.

Inductive SpotRead :=
| ReadFound (head : Head) (value : bytes)
| ReadNewest (len_ : Z) (value : bytes)
| ReadTombstone (head : Head)
| ReadOther
| ReadGone
| ReadUnsure.

(** Where the index reads the records it points at. *)
Class RecordSource := {
  rs_head : KeyRef -> SegmentId -> Z -> res HeadRead;
  rs_cached_head : KeyRef -> SegmentId -> Z -> res HeadRead;
  rs_checked_len : RecordKey -> SegmentId -> Z -> Z -> res (option Z);
  rs_record : RecordKey -> SegmentId -> Z -> Z -> bool -> res SpotRead;
}.

(** ** The column *)

Record Stale := mkStale { st_key : RecordKey; st_hash : Z; st_slot : Slot; st_len : Z }.

Record SetAside := mkSetAside { sa_key : RecordKey; sa_loc : Loc; sa_lsn : Lsn; sa_is_tombstone : bool }.

Record Booking := mkBooking { bk_gone : option Z; bk_came : option Z }.
Definition Booking_default : Booking := mkBooking None None.

Record Displaced := mkDisplaced { dp_booked : list Loc; dp_classed : list (Loc * Z); dp_rebooked : list (Loc * Z) }.
Definition Displaced_default : Displaced := mkDisplaced [] [] [].

Record SpotColumn := mkSpotColumn {
  sc_shards : list Shard;
  sc_stale : list Stale;
  sc_beside : Z;
  sc_slack : Z;
  sc_owed : list (RecordKey * Lsn);
  sc_set_aside : list SetAside;
  sc_follows : bool;
  sc_behind : Z;
}.

Definition with_shards (c : SpotColumn) shards : SpotColumn := mkSpotColumn shards (sc_stale c) (sc_beside c) (sc_slack c) (sc_owed c) (sc_set_aside c) (sc_follows c) (sc_behind c).
Definition with_stale (c : SpotColumn) stale beside : SpotColumn := mkSpotColumn (sc_shards c) stale beside (sc_slack c) (sc_owed c) (sc_set_aside c) (sc_follows c) (sc_behind c).
Definition with_slack (c : SpotColumn) slack : SpotColumn := mkSpotColumn (sc_shards c) (sc_stale c) (sc_beside c) slack (sc_owed c) (sc_set_aside c) (sc_follows c) (sc_behind c).
Definition with_owed (c : SpotColumn) owed : SpotColumn := mkSpotColumn (sc_shards c) (sc_stale c) (sc_beside c) (sc_slack c) owed (sc_set_aside c) (sc_follows c) (sc_behind c).
Definition with_set_aside (c : SpotColumn) aside : SpotColumn := mkSpotColumn (sc_shards c) (sc_stale c) (sc_beside c) (sc_slack c) (sc_owed c) aside (sc_follows c) (sc_behind c).

Implicit Types (c : SpotColumn) (key : RecordKey) (hash : Z) (s slot : Slot).

Section column.
Context `{Ladder}.
(** The keyed hash, and the segments' ceilings and stamps. *)
Variables (hash_of : bytes -> Z) (max_lsn_of : SegmentId -> option Lsn) (incarnation_of : SegmentId -> SegmentIncarnation).

Definition SpotColumn_new : SpotColumn := mkSpotColumn (map Shard_new (seqZ 0 SPOT_SHARDS)) [] 0 0 [] [] false 0.

Definition shard_get c hash : res Shard := idx (sc_shards c) (Z.to_nat (spot_shard_of hash)).

Definition shard_set c hash (sh : Shard) : res SpotColumn :=
  shards ← set_idx (sc_shards c) (Z.to_nat (spot_shard_of hash)) sh;
  Ok (with_shards c shards).

(** The candidates of a hash, as its shard's lock shows them. *)
Definition look c hash : res (list Place) :=
  sh ← shard_get c hash;
  found ← Table_matches (sh_table sh) hash;
  Ok (places found).

(** A change of a hash's shard under its lock. *)
Definition on_shard {A} c hash (f : Shard -> res (Shard * A)) : res (SpotColumn * A) :=
  sh ← shard_get c hash;
  '(sh, a) ← f sh;
  c ← shard_set c hash sh;
  Ok (c, a).

Definition hash_key key : Z := hash_of (RecordKey_as_slice key).

Definition SpotColumn_follow c : SpotColumn := mkSpotColumn (sc_shards c) (sc_stale c) (sc_beside c) (sc_slack c) (sc_owed c) (sc_set_aside c) true (sc_behind c).

Definition SpotColumn_keeps_gone c slot : SpotColumn * bool :=
  let keeps := sc_follows c && negb (Slot_is_displaced slot) in
  (if keeps then mkSpotColumn (sc_shards c) (sc_stale c) (sc_beside c) (sc_slack c) (sc_owed c) (sc_set_aside c) (sc_follows c) (as_u64 (sc_behind c + 1)) else c, keeps).

Definition SpotColumn_displaced c : Z := fold_left (fun n sh => as_u64 (n + sh_displaced sh)) (sc_shards c) 0.
Definition SpotColumn_held c : Z := fold_left (fun n sh => as_u64 (n + tb_held (sh_table sh))) (sc_shards c) 0.

(** ** Sealed rows in and out *)

Definition SpotColumn_insert c (key : bytes) (loc : Loc) : res (SpotColumn * bool) :=
  let hash := hash_of key in on_shard c hash (fun sh => put_in sh hash loc).

(** The rows of one lane of shards, gathered by shard. *)
Definition SpotColumn_lane_groups (rows : list (bytes * Loc)) (lane lanes : Z) : list (Z * list nat) :=
  let by_shard := fold_left (fun by_shard '(at_, (key, _)) =>
    let shard := spot_shard_of (hash_of key) in
    if shard mod lanes =? lane then alter (fun ats => ats ++ [at_]) (Z.to_nat shard) by_shard else by_shard) (zip (seq 0 (length rows)) rows) (replicate (Z.to_nat SPOT_SHARDS) []) in
  List.filter (fun group => negb (length group.2 =? 0)%nat) (zip (seqZ 0 SPOT_SHARDS) by_shard).

(** A chunk of rows put in one shard under one hold of its lock. *)
Definition insert_chunk (rows : list (bytes * Loc)) (acc : SpotColumn * list bool) (turn : Z * list nat) : res (SpotColumn * list bool) :=
  let '(c, inserted) := acc in
  let '(shard, chunk) := turn in
  sh ← idx (sc_shards c) (Z.to_nat shard);
  '(sh, inserted) ← foldm (fun acc at_ =>
    let '(sh, inserted) := acc in
    '(key, loc) ← must (rows !! at_);
    '(sh, did) ← put_in sh (hash_of key) loc;
    inserted ← set_idx inserted at_ did;
    Ok (sh, inserted)) chunk (sh, inserted);
  shards ← set_idx (sc_shards c) (Z.to_nat shard) sh;
  Ok (with_shards c shards, inserted).

Definition SpotColumn_insert_lane c (rows : list (bytes * Loc)) (lane lanes : Z) : res (SpotColumn * list bool) :=
  foldm (insert_chunk rows) (in_turns (SpotColumn_lane_groups rows lane lanes) SPOT_LOCK_CHUNK) (c, replicate (length rows) false).

Definition remove_chunk (rows : list (bytes * Loc)) c (turn : Z * list nat) : res SpotColumn :=
  let '(shard, chunk) := turn in
  sh ← idx (sc_shards c) (Z.to_nat shard);
  sh ← foldm (fun sh at_ =>
    '(key, loc) ← must (rows !! at_);
    let hash := hash_of key in
    found ← Table_matches (sh_table sh) hash;
    match List.find (fun place => Slot_at (pl_slot place) loc) (places found) with
    | Some place => '(sh, _) ← Writing_take sh hash (pl_slot place); Ok sh
    | None => Ok sh
    end) chunk sh;
  shards ← set_idx (sc_shards c) (Z.to_nat shard) sh;
  Ok (with_shards c shards).

Definition SpotColumn_remove_lane c (rows : list (bytes * Loc)) (lane lanes : Z) : res SpotColumn :=
  foldm (remove_chunk rows) (in_turns (SpotColumn_lane_groups rows lane lanes) SPOT_LOCK_CHUNK) c.

(** [f64::ceil] of a finite number, as a count. *)
Definition f64_ceil (x : spec_float) : Z :=
  match x with
  | S754_finite false m e => if 0 <=? e then Z.pos m * 2 ^ e else div_ceil (Z.pos m) (2 ^ (- e))
  | _ => 0
  end.

Definition SpotColumn_reserve c (keys : Z) : SpotColumn :=
  let per_shard := f64_of (div_ceil keys SPOT_SHARDS) in
  let buckets := f64_ceil (SFdiv 53 1024 per_shard (SFmul 53 1024 (f64_of WAYS) LOAD)) in
  with_shards c (map (fun '(at_, sh) => if (tb_held (sh_table sh) =? 0) && (tb_homes (sh_table sh) <? buckets) then mkShard (Table_with_buckets buckets at_) (sh_taken sh) (sh_displaced sh) else sh) (zip (seqZ 0 SPOT_SHARDS) (sc_shards c))).

(** ** An open's rows *)

Record Taken := mkTaken { tk_key : bytes; tk_loc : Loc; tk_lsn : Lsn; tk_is_tombstone : bool }.

Definition slot_of hash (loc : Loc) (is_tombstone : bool) : Slot := if is_tombstone then Slot_as_grave (Slot_new hash loc) else Slot_new hash loc.

(** A row's slot goes in where no slot shares its key's bits, or the row is set aside. *)
Definition take_row (acc : Shard * list Z * list (Z * Z)) (row : Z * Slot * Z * Z) : res (Shard * list Z * list (Z * Z)) :=
  let '(sh, aside, fresh) := acc in
  let '(hash, slot, at_, len_) := row in
  found ← Table_matches (sh_table sh) hash;
  if len (places found) =? 0 then
    sh ← Writing_insert sh slot;
    Ok (sh, aside, if Slot_is_grave slot then fresh else fresh ++ [(at_, len_)])
  else Ok (sh, aside ++ [at_], fresh).

Definition take_shard (by_shard : list (list (Z * Slot * Z * Z))) (acc : SpotColumn * list Z * list (Z * Z)) (shard : Z) : res (SpotColumn * list Z * list (Z * Z)) :=
  let '(c, aside, fresh) := acc in
  rows ← idx by_shard (Z.to_nat shard);
  match rows with
  | [] => Ok acc
  | _ =>
      sh ← idx (sc_shards c) (Z.to_nat shard);
      '(sh, aside, fresh) ← foldm take_row rows (sh, aside, fresh);
      shards ← set_idx (sc_shards c) (Z.to_nat shard) sh;
      Ok (with_shards c shards, aside, fresh)
  end.

Definition fresh_le (a b : Z * Z) : Prop := a.1 < b.1 \/ (a.1 = b.1 /\ a.2 <= b.2).

#[export] Instance fresh_le_dec a b : Decision (fresh_le a b).
Proof. unfold fresh_le; apply _. Defined.

(** The rows by number, each read once to gather it and once more if it is set aside. *)
Definition SpotColumn_take_rows c (column : ColumnId) (spread count : Z) (row : Z -> res (option Taken)) : res (SpotColumn * list (Z * Z)) :=
  by_shard ← foldm (fun by_shard at_ =>
    found ← row at_;
    match found with
    | None => Ok by_shard
    | Some taken =>
        let hash := hash_of (tk_key taken) in
        Ok (alter (fun rows => rows ++ [(hash, slot_of hash (tk_loc taken) (tk_is_tombstone taken), as_u32 at_, loc_len (tk_loc taken))]) (Z.to_nat (spot_shard_of hash)) by_shard)
    end) (seqZ 0 count) (replicate (Z.to_nat SPOT_SHARDS) []);
  let first := spread mod SPOT_SHARDS in
  '(c, aside, fresh) ← foldm (take_shard by_shard) (seqZ first (SPOT_SHARDS - first) ++ seqZ 0 first) (c, [], []);
  let fresh := merge_sort fresh_le fresh in
  match aside with
  | [] => Ok (c, fresh)
  | _ =>
      set_aside ← foldm (fun set_aside at_ =>
        found ← row at_;
        match found with
        | None => Ok set_aside
        | Some taken => key ← RecordKey_from_bytes column (tk_key taken); Ok (set_aside ++ [mkSetAside key (tk_loc taken) (tk_lsn taken) (tk_is_tombstone taken)])
        end) aside [];
      Ok (with_set_aside c (sc_set_aside c ++ set_aside), fresh)
  end.

(** [(a, x) > (b, y)] of versions: the later number, ties to the newer segment. *)
Definition is_later (a : Lsn) (x : SegmentId) (b : Lsn) (y : SegmentId) : bool := (b <? a) || ((a =? b) && (y <? x)).

Section records.
(** Nothing until the column is attached. *)
Variable records : option RecordSource.

(** The last candidate whose header says it is the key's. *)
Definition standing_of (source : RecordSource) key (seen : list Place) : res (option (Slot * Head)) :=
  foldm (fun standing place =>
    read ← rs_head (RecordKey_as_ref key) (sl_segment (pl_slot place)) (sl_offset (pl_slot place));
    Ok (match read with HeadSame head => Some (pl_slot place, head) | _ => standing end)) seen None.

(** One load with no other thread in its shard, so that what it saw still stands when it writes. *)
Definition SpotColumn_load c key (loc : Loc) (lsn : Lsn) (is_tombstone : bool) : res (SpotColumn * Booking) :=
  match records with
  | None => Ok (c, Booking_default)
  | Some source =>
      let hash := hash_key key in
      let slot := slot_of hash loc is_tombstone in
      let came := if is_tombstone then None else Some (loc_len loc) in
      seen ← look c hash;
      if len seen =? 0 then '(c, _) ← on_shard c hash (fun sh => sh ← Writing_insert sh slot; Ok (sh, tt)); Ok (c, mkBooking None came)
      else
        standing ← standing_of source key seen;
        match standing with
        | Some (held, head) =>
            if is_later lsn (sl_segment slot) (hd_lsn head) (sl_segment held) then
              '(c, _) ← on_shard c hash (fun sh => '(sh, _) ← Writing_take sh hash held; sh ← Writing_insert sh slot; Ok (sh, tt));
              Ok (c, mkBooking (if hd_is_tombstone head then None else Some (hd_len head)) came)
            else Ok (c, Booking_default)
        | None => '(c, _) ← on_shard c hash (fun sh => sh ← Writing_insert sh slot; Ok (sh, tt)); Ok (c, mkBooking None came)
        end
  end.

Definition SpotColumn_finish_load c : SpotColumn := with_shards c (map (fun sh => (Writing_retain sh (fun slot => negb (Slot_is_grave slot))).1) (sc_shards c)).

(** ** Questions with no read *)

Definition live_of (seen : list Place) : list Slot := List.filter (fun s => negb (Slot_is_displaced s)) (map pl_slot seen).

Definition SpotColumn_only_at c (key : bytes) (loc : Loc) : res bool :=
  seen ← look c (hash_of key); Ok (match live_of seen with [s] => Slot_at s loc | _ => false end).

Definition SpotColumn_live_elsewhere c (key : bytes) (loc : Loc) : res bool :=
  seen ← look c (hash_of key); Ok (match live_of seen with [s] => negb (Slot_at s loc) | _ => false end).

Definition SpotColumn_only_live c (key : bytes) : res (option (SegmentId * Z)) :=
  seen ← look c (hash_of key); Ok (match live_of seen with [s] => if Slot_is_grave s then None else Some (sl_segment s, sl_offset s) | _ => None end).

Definition SpotColumn_take_live c (key : bytes) (loc : Loc) : res (SpotColumn * bool) :=
  let hash := hash_of key in
  on_shard c hash (fun sh =>
    found ← Table_matches (sh_table sh) hash;
    match List.find (fun place => Slot_at (pl_slot place) loc && negb (Slot_is_displaced (pl_slot place))) (places found) with
    | Some place => Writing_take sh hash (pl_slot place)
    | None => Ok (sh, false)
    end).

(** ** Overwrites *)

Definition SpotColumn_unslack c slot : SpotColumn := with_slack c (saturating_sub (sc_slack c) (Slot_width slot)).

(** What the reads of a key's candidates leave to do: slots left unread, older versions with their
    length, and displaced slots whose segment went. *)
Record Sorting := mkSorting { so_unread : list Slot; so_older : list (Slot * Z); so_gone : list Slot }.

Definition sort_candidate (source : RecordSource) key (newer : Lsn) (owed must_read : bool) (acc : Sorting) slot : res Sorting :=
  let '(mkSorting unread older gone) := acc in
  if owed && negb (Slot_is_displaced slot) then Ok acc
  else
    let is_older := match max_lsn_of (sl_segment slot) with Some ceiling => ceiling <? newer | None => false end in
    if negb must_read && Slot_is_displaced slot then Ok acc
    else if negb must_read && is_older then Ok (mkSorting (unread ++ [slot]) older gone)
    else
      cached ← rs_cached_head (RecordKey_as_ref key) (sl_segment slot) (sl_offset slot);
      let settle (answer : HeadRead) :=
        match answer with
        | HeadSame head => if hd_lsn head <? newer then mkSorting unread (older ++ [(slot, hd_len head)]) gone else acc
        | HeadOther | HeadCold => acc
        | HeadMissing => if negb (Slot_is_displaced slot) then mkSorting (unread ++ [slot]) older gone else mkSorting unread older (gone ++ [slot])
        end in
      match cached with
      | HeadCold =>
          checked ← (if is_older && negb (Slot_is_grave slot) then rs_checked_len key (sl_segment slot) (sl_offset slot) (Slot_bound slot) else Ok None);
          match checked with
          | Some len_ => Ok (mkSorting unread (older ++ [(slot, len_)]) gone)
          | None => answer ← rs_head (RecordKey_as_ref key) (sl_segment slot) (sl_offset slot); Ok (settle answer)
          end
      | answer => Ok (settle answer)
      end.

(** The older versions taken out, each at its length: booked now, or correcting a class booking. *)
Definition take_older hash (acc : Shard * Displaced * list Slot) (one : Slot * Z) : res (Shard * Displaced * list Slot) :=
  let '(sh, settled, unslacked) := acc in
  let '(slot, len_) := one in
  let loc := Loc_new (sl_segment slot) (sl_offset slot) len_ in
  '(sh, took) ← Writing_take_slot sh hash slot;
  match took with
  | Some s => if Slot_is_displaced s then Ok (sh, mkDisplaced (dp_booked settled) (dp_classed settled) (dp_rebooked settled ++ [(loc, Slot_least s)]), unslacked ++ [s])
              else Ok (sh, mkDisplaced (dp_booked settled ++ [loc]) (dp_classed settled) (dp_rebooked settled), unslacked)
  | None => Ok (sh, settled, unslacked)
  end.

(** The versions left unread, marked displaced and booked from their class. *)
Definition mark_unread hash (acc : Shard * Displaced * Z) slot : res (Shard * Displaced * Z) :=
  let '(sh, settled, slack) := acc in
  '(sh, marked) ← Writing_mark_displaced sh hash slot;
  if (marked : bool) then Ok (sh, mkDisplaced (dp_booked settled) (dp_classed settled ++ [(Loc_new (sl_segment slot) (sl_offset slot) (Slot_middle slot), Slot_least slot)]) (dp_rebooked settled), as_u64 (slack + Slot_width slot))
  else Ok acc.

Definition SpotColumn_settle_versions c key (newer : Lsn) (owed : bool) : res (SpotColumn * Displaced) :=
  match records with
  | None => Ok (c, Displaced_default)
  | Some source =>
      let hash := hash_key key in
      seen ← look c hash;
      if len seen =? 0 then Ok (c, Displaced_default)
      else
        let must_read := owed || (SETTLE_AT <=? len seen) in
        sorted ← foldm (sort_candidate source key newer owed must_read) (map pl_slot seen) (mkSorting [] [] []);
        sh ← shard_get c hash;
        sh ← foldm (fun sh slot => '(sh, _) ← Writing_take sh hash slot; Ok sh) (so_gone sorted) sh;
        '(sh, settled, unslacked) ← foldm (take_older hash) (so_older sorted) (sh, Displaced_default, []);
        let slack := fold_left (fun slack s => saturating_sub slack (Slot_width s)) unslacked (sc_slack c) in
        '(sh, settled, slack) ← foldm (mark_unread hash) (so_unread sorted) (sh, settled, slack);
        c ← shard_set c hash sh;
        Ok (with_slack c slack, settled)
  end.

Definition SpotColumn_displace c key (newer : Lsn) : res (SpotColumn * Displaced) :=
  '(c, settled) ← SpotColumn_settle_versions c key newer false;
  let c := if negb (len (dp_classed settled) =? 0) && (len (sc_owed c) <? MAX_OWED) then with_owed c (sc_owed c ++ [(key, newer)]) else c in
  Ok (c, settled).

(** Up to [budget] owed keys; a read that fails leaves its key owed and ends the run. *)
Fixpoint SpotColumn_rebook_owed (budget : nat) c (settled : list (RecordKey * Displaced)) : res (SpotColumn * list (RecordKey * Displaced)) :=
  match budget with
  | O => Ok (c, settled)
  | S budget =>
      match sc_owed c with
      | [] => Ok (c, settled)
      | (key, newer) :: owed =>
          let c := with_owed c owed in
          match SpotColumn_settle_versions c key newer true with
          | Ok (c, displaced) => SpotColumn_rebook_owed budget c (settled ++ [(key, displaced)])
          | Err _ => Ok (with_owed c (sc_owed c ++ [(key, newer)]), settled)
          | Panic => Panic
          end
      end
  end.

(** ** Lookups *)

Record Candidate := mkCandidate { cd_segment : SegmentId; cd_offset : Z; cd_bound : Z; cd_alone : bool; cd_slot : Slot }.

Definition candidate_of slot (alone : bool) : Candidate := mkCandidate (sl_segment slot) (sl_offset slot) (Slot_bound slot) alone slot.

Record Pick := mkPick {
  pk_hash : Z;
  pk_ordered : list (option Lsn * Slot);
  pk_next : nat;
  pk_best : option (Head * option bytes);
  pk_best_displaced : bool;
  pk_takes_newest : bool;
  pk_is_versionless : bool;
  pk_stale : list (Slot * Z);
}.

Inductive Offered := OfferNext | OfferAgain | OfferUnsettled.

Inductive Lookup := LookupFound (lsn : Lsn) (value : bytes) | LookupNewest (value : bytes) | LookupMissing | LookupUnsettled.

Inductive Settled := SettledEntry (entry : option Entry) | SettledFooters.

(** [(right.0, right.1.segment).cmp(&(left.0, left.1.segment))]: no ceiling comes last. *)
Definition ceiling_le (a b : option Lsn) : bool := match a, b with None, _ => true | Some _, None => false | Some a, Some b => a <=? b end.
Definition newest_first (a b : option Lsn * Slot) : Prop :=
  if ceiling_le a.1 b.1 then (if ceiling_le b.1 a.1 then sl_segment b.2 <= sl_segment a.2 else False) else True.

#[export] Instance newest_first_dec a b : Decision (newest_first a b).
Proof. unfold newest_first; destruct (ceiling_le a.1 b.1), (ceiling_le b.1 a.1); apply _. Defined.

Definition SpotColumn_ordered c key : res (Z * list (option Lsn * Slot)) :=
  let hash := hash_key key in
  seen ← look c hash;
  let slots := map pl_slot seen in
  Ok (hash, if (1 <? length slots)%nat then merge_sort newest_first (map (fun s => (max_lsn_of (sl_segment s), s)) slots) else map (fun s => (None, s)) slots).

Definition sole_live (ordered : list (option Lsn * Slot)) : option Slot :=
  match List.filter (fun '(_, s) => negb (Slot_is_displaced s)) ordered with [(_, s)] => Some s | _ => None end.

(** Nothing until the column is attached. *)
Definition SpotColumn_pick c key : res (option Pick) :=
  match records with
  | None => Ok None
  | Some _ => '(hash, ordered) ← SpotColumn_ordered c key; Ok (Some (mkPick hash ordered 0 None false true false []))
  end.

Definition pick_at (p : Pick) (next : nat) : Pick := mkPick (pk_hash p) (pk_ordered p) next (pk_best p) (pk_best_displaced p) (pk_takes_newest p) (pk_is_versionless p) (pk_stale p).

(** Past every candidate whose segment's ceiling is below the best version read. *)
Fixpoint next_from (left_ : list (option Lsn * Slot)) (at_ : nat) (best : option (Head * option bytes)) : nat * option Candidate :=
  match left_ with
  | [] => (at_, None)
  | (ceiling, slot) :: left_ =>
      let ruled_out := match best, ceiling with Some (head, _), Some ceiling => ceiling <? hd_lsn head | _, _ => false end in
      if ruled_out then next_from left_ (S at_) best else (S at_, Some (candidate_of slot false))
  end.

Definition SpotColumn_next (p : Pick) : Pick * option Candidate :=
  match (if pk_takes_newest p then match sole_live (pk_ordered p) with Some s => if Slot_is_grave s then None else Some s | None => None end else None) with
  | Some slot => (pick_at p (length (pk_ordered p)), if (pk_next p =? 0)%nat then Some (candidate_of slot true) else None)
  | None => let '(next, found) := next_from (drop (pk_next p) (pk_ordered p)) (pk_next p) (pk_best p) in (pick_at p next, found)
  end.

Definition fold_in (p : Pick) (candidate : Candidate) (head : Head) (value : option bytes) : Pick :=
  match pk_best p with
  | Some (current, _) =>
      if hd_lsn head <=? hd_lsn current then
        (if hd_lsn head <? hd_lsn current then mkPick (pk_hash p) (pk_ordered p) (pk_next p) (pk_best p) (pk_best_displaced p) (pk_takes_newest p) (pk_is_versionless p) (pk_stale p ++ [(cd_slot candidate, hd_len head)]) else p)
      else mkPick (pk_hash p) (pk_ordered p) (pk_next p) (Some (head, value)) (Slot_is_displaced (cd_slot candidate)) (pk_takes_newest p) (pk_is_versionless p) (pk_stale p)
  | None => mkPick (pk_hash p) (pk_ordered p) (pk_next p) (Some (head, value)) (Slot_is_displaced (cd_slot candidate)) (pk_takes_newest p) (pk_is_versionless p) (pk_stale p)
  end.

Definition SpotColumn_offer c (p : Pick) (candidate : Candidate) (read : SpotRead) : res (SpotColumn * Pick * Offered) :=
  match read with
  | ReadFound head value => Ok (c, fold_in p candidate head (Some value), OfferNext)
  | ReadNewest len_ value =>
      if negb (cd_alone candidate) || match pk_best p with Some _ => true | None => false end then Ok (c, p, OfferUnsettled)
      else Ok (c, mkPick (pk_hash p) (pk_ordered p) (pk_next p) (Some (mkHead Lsn_NONE len_ false, Some value)) false (pk_takes_newest p) true (pk_stale p), OfferNext)
  | ReadTombstone head => Ok (c, fold_in p candidate head None, OfferNext)
  | ReadOther => Ok (c, p, OfferNext)
  | ReadGone =>
      let '(c, keeps) := SpotColumn_keeps_gone c (cd_slot candidate) in
      if (keeps : bool) then Ok (c, p, OfferUnsettled)
      else '(c, _) ← on_shard c (pk_hash p) (fun sh => Writing_take sh (pk_hash p) (cd_slot candidate)); Ok (c, p, OfferAgain)
  | ReadUnsure => Ok (c, p, OfferUnsettled)
  end.

Definition SpotColumn_queue c (stale : Stale) : SpotColumn :=
  if len (sc_stale c) <? MAX_STALE then with_stale c (sc_stale c ++ [stale]) (as_u64 (sc_beside c + 1)) else c.

Definition SpotColumn_settle c key (p : Pick) : SpotColumn * Lookup :=
  let c := fold_left (fun c '(slot, len_) => SpotColumn_queue c (mkStale key (pk_hash p) slot len_)) (List.filter (fun '(slot, _) => negb (Slot_is_displaced slot)) (pk_stale p)) c in
  (c, match pk_best p with
      | Some (head, value) =>
          if pk_best_displaced p then LookupUnsettled
          else match value with
               | Some value => if pk_is_versionless p then LookupNewest value else LookupFound (hd_lsn head) value
               | None => LookupMissing
               end
      | None => LookupMissing
      end).

(** The candidates read one by one: an answer, or nothing where a segment went. *)
Fixpoint read_candidates (fuel : nat) (source : RecordSource) c key (p : Pick) : res (SpotColumn * option Lookup) :=
  match fuel with
  | O => Panic
  | S fuel =>
      match SpotColumn_next p with
      | (p, None) => let '(c, found) := SpotColumn_settle c key p in Ok (c, Some found)
      | (p, Some candidate) =>
          read ← rs_record key (cd_segment candidate) (cd_offset candidate) (cd_bound candidate) (cd_alone candidate);
          '(c, p, offered) ← SpotColumn_offer c p candidate read;
          match offered with
          | OfferNext => read_candidates fuel source c key p
          | OfferAgain => Ok (c, None)
          | OfferUnsettled => Ok (c, Some LookupUnsettled)
          end
      end
  end.

Fixpoint read_tries (tries : nat) (source : RecordSource) c key (takes_newest : bool) : res (SpotColumn * Lookup) :=
  match tries with
  | O => Ok (c, LookupUnsettled)
  | S tries =>
      picked ← SpotColumn_pick c key;
      match picked with
      | None => Ok (c, LookupUnsettled)
      | Some p =>
          let p := mkPick (pk_hash p) (pk_ordered p) (pk_next p) (pk_best p) (pk_best_displaced p) takes_newest (pk_is_versionless p) (pk_stale p) in
          '(c, found) ← read_candidates (S (S (length (pk_ordered p)))) source c key p;
          match found with Some found => Ok (c, found) | None => read_tries tries source c key takes_newest end
      end
  end.

Definition SpotColumn_read_taking c key (takes_newest : bool) : res (SpotColumn * Lookup) :=
  match records with None => Ok (c, LookupUnsettled) | Some source => read_tries LOOKUP_TRIES source c key takes_newest end.

Definition SpotColumn_read c key : res (SpotColumn * Lookup) := SpotColumn_read_taking c key true.
Definition SpotColumn_read_versioned c key : res (SpotColumn * Lookup) := SpotColumn_read_taking c key false.

(** A started lookup carried on; a segment that goes leaves it unsettled. *)
Definition SpotColumn_read_on c key (p : Pick) : res (SpotColumn * Lookup) :=
  match records with
  | None => Ok (c, LookupUnsettled)
  | Some source =>
      '(c, found) ← read_candidates (S (S (length (pk_ordered p)))) source c key p;
      Ok (c, default LookupUnsettled found)
  end.

Definition SpotColumn_sole c key : res (option Candidate) :=
  picked ← SpotColumn_pick c key;
  Ok (match picked with
      | Some p => match sole_live (pk_ordered p) with Some slot => Some (candidate_of slot (negb (Slot_is_grave slot))) | None => None end
      | None => None
      end).

(** Nothing known of the segments before the column is attached, so anything may be newer. *)
Definition SpotColumn_may_hold_newer c (key : bytes) (lsn : Lsn) : res bool :=
  match records with
  | None => Ok true
  | Some _ =>
      seen ← look c (hash_of key);
      Ok (existsb (fun place => negb (Slot_is_displaced (pl_slot place)) && match max_lsn_of (sl_segment (pl_slot place)) with Some max => lsn <? max | None => true end) seen)
  end.

Fixpoint newer_among (source : RecordSource) (key : KeyRef) (lsn : Lsn) (seen : list Slot) : res bool :=
  match seen with
  | [] => Ok false
  | s :: seen =>
      if match max_lsn_of (sl_segment s) with Some max => max <=? lsn | None => false end then newer_among source key lsn seen
      else
        read ← rs_head key (sl_segment s) (sl_offset s);
        match read with HeadSame head => if lsn <? hd_lsn head then Ok true else newer_among source key lsn seen | _ => newer_among source key lsn seen end
  end.

Definition SpotColumn_holds_newer c (key : KeyRef) (lsn : Lsn) : res bool :=
  match records with
  | None => Ok false
  | Some source => seen ← look c (hash_of (kr_bytes key)); newer_among source key lsn (map pl_slot seen)
  end.

Record Since := mkSince { si_shard : Z; si_taken : Z }.

Definition SpotColumn_since c key : res Since := sh ← shard_get c (hash_key key); Ok (mkSince (spot_shard_of (hash_key key)) (sh_taken sh)).

Definition SpotColumn_moved c (since : Since) : res bool := sh ← idx (sc_shards c) (Z.to_nat (si_shard since)); Ok (negb (sh_taken sh =? si_taken since)).

(** The headers of the candidates in order; nothing where a segment went and its slot was dropped. *)
Fixpoint entry_walk (source : RecordSource) c key hash (ordered : list (option Lsn * Slot)) (best : option (Head * Slot)) : res (SpotColumn * option (option (Head * Slot))) :=
  match ordered with
  | [] => Ok (c, Some best)
  | (ceiling, slot) :: ordered =>
      let ruled_out := match best, ceiling with Some (head, _), Some ceiling => ceiling <? hd_lsn head | _, _ => false end in
      if ruled_out then entry_walk source c key hash ordered best
      else
        read ← rs_head (RecordKey_as_ref key) (sl_segment slot) (sl_offset slot);
        match read with
        | HeadSame head => entry_walk source c key hash ordered (if match best with Some (current, _) => hd_lsn current <? hd_lsn head | None => true end then Some (head, slot) else best)
        | HeadMissing =>
            let '(c, keeps) := SpotColumn_keeps_gone c slot in
            if (keeps : bool) then entry_walk source c key hash ordered best
            else '(c, _) ← on_shard c hash (fun sh => Writing_take sh hash slot); Ok (c, None)
        | HeadOther | HeadCold => entry_walk source c key hash ordered best
        end
  end.

Definition SpotColumn_entry_once (source : RecordSource) c key : res (SpotColumn * option Settled) :=
  '(hash, ordered) ← SpotColumn_ordered c key;
  '(c, best) ← entry_walk source c key hash ordered None;
  Ok (c, match best with
         | None => None
         | Some None => Some (SettledEntry None)
         | Some (Some (head, slot)) =>
             Some (if Slot_is_displaced slot then SettledFooters
                   else SettledEntry (Some (if hd_is_tombstone head then Entry_grave (hd_lsn head)
                     else Entry_stamped (Entry_new (Loc_new (sl_segment slot) (sl_offset slot) (hd_len head)) (hd_lsn head)) (incarnation_of (sl_segment slot)))))
         end).

Fixpoint entry_tries (tries : nat) (source : RecordSource) c key : res (SpotColumn * Settled) :=
  match tries with
  | O => Ok (c, SettledFooters)
  | S tries => '(c, settled) ← SpotColumn_entry_once source c key; match settled with Some settled => Ok (c, settled) | None => entry_tries tries source c key end
  end.

Definition SpotColumn_entry c key : res (SpotColumn * Settled) :=
  match records with None => Ok (c, SettledEntry None) | Some source => entry_tries LOOKUP_TRIES source c key end.
End records.

(** ** Cleaning *)

(** Up to [budget] older versions lookups passed over, each taken out unless it was booked. *)
Fixpoint SpotColumn_scrub (budget : nat) c (taken : list (RecordKey * Loc)) : res (SpotColumn * list (RecordKey * Loc)) :=
  match budget with
  | O => Ok (c, taken)
  | S budget =>
      match sc_stale c with
      | [] => Ok (c, taken)
      | stale :: queue =>
          let c := with_stale c queue (as_u64 (sc_beside c - 1)) in
          '(c, took) ← on_shard c (st_hash stale) (fun sh => Writing_take_unbooked sh (st_hash stale) (st_slot stale));
          SpotColumn_scrub budget c (if (took : bool) then taken ++ [(st_key stale, Loc_new (sl_segment (st_slot stale)) (sl_offset (st_slot stale)) (st_len stale))] else taken)
      end
  end.

Record Rebooked := mkRebooked { rb_key : RecordKey; rb_booked : Z; rb_actual : Z }.

(** A retiring segment's row: its displaced entry taken out, with the length its class stood for. *)
Definition settle_displaced_row (segment : SegmentId) (partition : FooterPartition) (acc : SpotColumn * list Rebooked) (at_ : Z) : res (SpotColumn * list Rebooked) :=
  let '(c, rebooked) := acc in
  entry ← FooterPartition_entry_at partition at_;
  if FooterEntry_is_tombstone entry || FooterEntry_is_range_tombstone entry then Ok acc
  else
    let hash := hash_key (fe_key entry) in
    sh ← shard_get c hash;
    if sh_displaced sh =? 0 then Ok acc
    else
      let loc := Loc_new segment (fe_offset entry) (fe_len entry) in
      found ← Table_matches (sh_table sh) hash;
      match List.find (fun place => Slot_at (pl_slot place) loc && Slot_is_displaced (pl_slot place)) (places found) with
      | None => Ok acc
      | Some place =>
          '(c, took) ← on_shard c hash (fun sh => Writing_take_slot sh hash (pl_slot place));
          match took with
          | Some _ => Ok (SpotColumn_unslack c (pl_slot place), rebooked ++ [mkRebooked (fe_key entry) (Slot_least (pl_slot place)) (fe_len entry)])
          | None => Ok (c, rebooked)
          end
      end.

Definition SpotColumn_settle_displaced_in c (segment : SegmentId) (partition : FooterPartition) : res (SpotColumn * list Rebooked) :=
  if SpotColumn_displaced c =? 0 then Ok (c, []) else foldm (settle_displaced_row segment partition) (seqZ 0 (FooterPartition_len partition)) (c, []).

(** The live entries dropped with their segments. *)
Definition SpotColumn_forget_retired c (is_standing : SegmentId -> bool) : SpotColumn * Z :=
  let swept := map (fun sh => Writing_retain sh (fun slot => is_standing (sl_segment slot))) (sc_shards c) in
  (with_shards c (map fst swept), fold_left (fun live '(_, (dropped, displaced)) => as_u64 (live + (dropped - displaced))) swept 0).

Definition SpotColumn_clear c : SpotColumn :=
  let fresh at_ sh := Writing_count_taken (mkShard (Table_with_buckets (first_rung at_) at_) (sh_taken sh) (sh_displaced sh)) (tb_held (sh_table sh)) (sh_displaced sh) in
  mkSpotColumn (map (fun '(at_, sh) => fresh at_ sh) (zip (seqZ 0 SPOT_SHARDS) (sc_shards c))) [] 0 0 [] [] (sc_follows c) (sc_behind c).

(** The rebuilt column's tables and queues swapped in; the old slots count as taken. *)
Definition SpotColumn_install c (fresh : SpotColumn) : SpotColumn * SpotColumn :=
  let shards := map (fun '(live, built) =>
    (mkShard (sh_table built) (as_u64 (sh_taken live + Z.max (tb_held (sh_table live)) 1)) (sh_displaced built), mkShard (sh_table live) (sh_taken built) (sh_displaced built))) (zip (sc_shards c) (sc_shards fresh)) in
  (mkSpotColumn (map fst shards) (sc_stale fresh) (sc_beside fresh) (sc_slack fresh) (sc_owed fresh) (sc_set_aside fresh) (sc_follows c) (sc_behind c),
   mkSpotColumn (map snd shards) (sc_stale c) (sc_beside fresh) (sc_slack fresh) (sc_owed c) (sc_set_aside c) (sc_follows fresh) (sc_behind fresh)).
End column.
