(* ===== verification/SpotLookup.v ===== *)
(** * What a lookup of the spot index answers ([index/spot.rs])

    Against a record source that tells the truth about the records it reads, a lookup gives the newest
    version among a key's slots, drops only slots whose record is gone, and hands the cleaner only
    versions an answer beat. *)
From S2P Require Import Prelude Error Arrays Bytes Lsn Column IndexEntry SpotSlot SpotTable SpotTableRep SpotShard SpotColumn.

Section lookup.
Context `{Ladder}.
Variables (hash_of : bytes -> Z) (max_lsn_of : SegmentId -> option Lsn) (source : RecordSource) (key : RecordKey).

(** The records as they are on disk: whose key, which version, what bytes. *)
Variable truth : SegmentId -> Z -> option (RecordKey * Head * bytes).

Abbreviation hash := (hash_key hash_of key).

Definition rec (s : Slot) : option (RecordKey * Head * bytes) := truth (sl_segment s) (sl_offset s).

(** The slot's record is a version of the key. *)
Definition version (s : Slot) (h : Head) (v : bytes) : Prop := rec s = Some (key, h, v).

Lemma version_unique s h v h' v' : version s h v -> version s h' v' -> h = h'.
Proof. unfold version; congruence. Qed.

(** What the source says of a record is so; only a key's lone candidate may answer unversioned. *)
Definition honest : Prop := forall segment offset bound alone,
  match rs_record key segment offset bound alone with
  | Ok (ReadFound h v) => truth segment offset = Some (key, h, v) /\ hd_is_tombstone h = false
  | Ok (ReadTombstone h) => hd_is_tombstone h = true /\ exists v, truth segment offset = Some (key, h, v)
  | Ok (ReadNewest n v) => alone = true /\ exists h, truth segment offset = Some (key, h, v) /\ hd_is_tombstone h = false
  | Ok ReadOther => forall h v, truth segment offset <> Some (key, h, v)
  | Ok ReadGone => truth segment offset = None
  | Ok ReadUnsure | Err _ => True
  | Panic => False
  end.

(** A segment's ceiling is no record's to pass. *)
Definition ceilings : Prop := forall segment offset k h v ceiling, truth segment offset = Some (k, h, v) -> max_lsn_of segment = Some ceiling -> hd_lsn h <= ceiling.

Hypotheses (Hhonest : honest) (Hceil : ceilings).

(** ** Picking *)

Definition slots_of (p : Pick) : list Slot := map snd (pk_ordered p).

(** The best version among some slots read, if any is the key's. *)
Definition best_of (p : Pick) (seen : list Slot) : Prop :=
  match pk_best p with
  | None => forall s h v, s ∈ seen -> ~ version s h v
  | Some (head, value) => exists s v, s ∈ seen /\ version s head v /\ value = (if hd_is_tombstone head then None else Some v) /\ pk_best_displaced p = Slot_is_displaced s
      /\ forall s' h' v', s' ∈ seen -> version s' h' v' -> hd_lsn h' <= hd_lsn head
  end.

(** What is handed on as stale: versions of the key, at their length, older than the best. *)
Definition stale_of (p : Pick) : Prop := forall s n, (s, n) ∈ pk_stale p -> exists h v head value, s ∈ slots_of p /\ version s h v /\ hd_len h = n /\ pk_best p = Some (head, value) /\ hd_lsn h < hd_lsn head.

Record pick_ok (p : Pick) : Prop := {
  po_next : (pk_next p <= length (pk_ordered p))%nat;
  po_ceilings : Forall (fun x => x.1 = None \/ x.1 = max_lsn_of (sl_segment x.2)) (pk_ordered p);
  po_best : best_of p (take (pk_next p) (slots_of p));
  po_stale : stale_of p;
  po_versioned : pk_is_versionless p = false;
}.

Definition ruled_out (best : option (Head * option bytes)) (x : option Lsn * Slot) : bool := match best, x.1 with Some (head, _), Some ceiling => ceiling <? hd_lsn head | _, _ => false end.

Lemma next_from_ok left_ : forall at_ best, match next_from left_ at_ best with
  | (next, None) => next = (at_ + length left_)%nat /\ Forall (fun x => ruled_out best x = true) left_
  | (next, Some candidate) => exists pre x post, left_ = pre ++ x :: post /\ next = (at_ + length pre + 1)%nat /\ Forall (fun x => ruled_out best x = true) pre /\ candidate = candidate_of x.2 false
  end.
Proof.
  induction left_ as [|[ceiling slot] left_ IH]; intros at_ best; cbn [next_from length]; [split; [lia | constructor]|].
  change (match best, ceiling with Some (head, _), Some ceiling => ceiling <? hd_lsn head | _, _ => false end) with (ruled_out best (ceiling, slot)); destruct (ruled_out best (ceiling, slot)) eqn:Er.
  - specialize (IH (S at_) best); destruct (next_from left_ (S at_) best) as [next [candidate|]].
    + destruct IH as (pre & x & post & -> & -> & Hpre & ->); exists ((ceiling, slot) :: pre), x, post; split_and!; [done | cbn [length]; lia | by constructor | done].
    + destruct IH as [-> Hall]; split; [lia | by constructor].
  - exists [], (ceiling, slot), left_; split_and!; [done | cbn; lia | constructor | done].
Qed.

(** Slots a ceiling rules out hold nothing newer than the best. *)
Lemma ruled_out_older p x h v : ruled_out (pk_best p) x = true -> (x.1 = None \/ x.1 = max_lsn_of (sl_segment x.2)) -> version x.2 h v -> exists head value, pk_best p = Some (head, value) /\ hd_lsn h < hd_lsn head.
Proof.
  unfold ruled_out; destruct (pk_best p) as [[head value]|]; [| done]; destruct x as [[ceiling|] s]; cbn [fst snd]; [| done]; intros Hlt%Z.ltb_lt [|Hc] Hv; [done|]; exists head, value; split; [done|].
  pose proof (Hceil _ _ _ _ _ _ Hv (eq_sym Hc)); lia.
Qed.

(** Passing over what is ruled out keeps the best. *)
Lemma best_past p seen more : best_of p seen -> Forall (fun x => ruled_out (pk_best p) x = true) more -> Forall (fun x => x.1 = None \/ x.1 = max_lsn_of (sl_segment x.2)) more -> best_of p (seen ++ map snd more).
Proof.
  intros Hb Hr Hc; assert (forall s h v, s ∈ map snd more -> version s h v -> exists head value, pk_best p = Some (head, value) /\ hd_lsn h < hd_lsn head) as Hm.
  { intros s h v Hs Hv; apply list_elem_of_fmap in Hs as (x & -> & Hx); rewrite Forall_forall in Hr, Hc; by apply (ruled_out_older p x h v); [apply Hr | apply Hc |]. }
  unfold best_of in *; destruct (pk_best p) as [[head value]|].
  - destruct Hb as (s & v & Hs & Hv & Hval & Hd & Hmax); exists s, v; split_and!; try done; [rewrite elem_of_app; by left|]; intros s' h' v' [Hs'|Hs']%elem_of_app Hv'; [by eapply Hmax|]; destruct (Hm s' h' v' Hs' Hv') as (? & ? & [= <- <-] & ?); lia.
  - intros s h v [Hs|Hs]%elem_of_app Hv; [by eapply Hb | destruct (Hm s h v Hs Hv) as (? & ? & ? & _); done].
Qed.

(** ** Folding a read in *)

Lemma fold_in_ok p slot alone head v seen : version slot head v -> slot ∈ slots_of p -> best_of p seen -> stale_of p ->
  let p' := fold_in p (candidate_of slot alone) head (if hd_is_tombstone head then None else Some v) in
  best_of p' (seen ++ [slot]) /\ stale_of p' /\ pk_ordered p' = pk_ordered p /\ pk_next p' = pk_next p /\ pk_hash p' = pk_hash p /\ pk_takes_newest p' = pk_takes_newest p /\ pk_is_versionless p' = pk_is_versionless p.
Proof.
  intros Hv Hin Hb Hs; unfold fold_in; destruct (pk_best p) as [[current value]|] eqn:Eb; [destruct (Z.leb_spec (hd_lsn head) (hd_lsn current)) as [Hle|Hgt]; [destruct (Z.ltb_spec (hd_lsn head) (hd_lsn current)) as [Hlt|Hge]|]|]; cbn [pk_ordered pk_next pk_hash pk_takes_newest pk_is_versionless]; split_and!; try done.
  1,3: unfold best_of in *; cbn [pk_best pk_best_displaced]; rewrite ?Eb in *; destruct Hb as (s & v' & H1 & H2 & H3 & H4 & H5); exists s, v'; split_and!; try done; [rewrite elem_of_app; by left|]; intros s' h' v'' [Hs'|Hs'%list_elem_of_singleton]%elem_of_app Hv'; [by eapply H5 | subst s'; rewrite (version_unique _ _ _ _ _ Hv' Hv); lia].
  - intros s n [Hn|Hn%list_elem_of_singleton]%elem_of_app; cbn [pk_best]; [destruct (Hs s n Hn) as (h & v' & hd & val & ? & ? & ? & ? & ?); exists h, v', hd, val; rewrite <- Eb; done|]; injection Hn as -> ->; exists head, v, current, value; split_and!; [exact Hin | done | done | done | done].
  - unfold best_of in *; cbn [pk_best pk_best_displaced]; rewrite Eb in Hb; destruct Hb as (s & v' & H1 & H2 & H3 & H4 & H5); exists slot, v; split_and!; try done; [set_solver|]; intros s' h' v'' [Hs'|Hs'%list_elem_of_singleton]%elem_of_app Hv'; [specialize (H5 s' h' v'' Hs' Hv'); lia | subst s'; rewrite (version_unique _ _ _ _ _ Hv' Hv); lia].
  - intros s n Hn; cbn [pk_best pk_stale] in *; destruct (Hs s n Hn) as (h & v' & hd & val & ? & ? & ? & E & ?); rewrite Eb in E; injection E as <- <-; exists h, v', head, (if hd_is_tombstone head then None else Some v); split_and!; [done | done | done | done | lia].
  - unfold best_of in *; cbn [pk_best pk_best_displaced]; rewrite Eb in Hb; exists slot, v; split_and!; try done; [set_solver|]; intros s' h' v'' [Hs'|Hs'%list_elem_of_singleton]%elem_of_app Hv'; [by apply Hb in Hv' | subst s'; rewrite (version_unique _ _ _ _ _ Hv' Hv); lia].
  - intros s n Hn; cbn [pk_best pk_stale] in *; destruct (Hs s n Hn) as (h & v' & hd & val & ? & ? & ? & E & ?); by rewrite Eb in E.
Qed.

(** ** The shard looked at *)

Definition holder (l : list Slot) (s : Slot) : Prop := s ∈ l /\ Slot_holds s hash = true.

(** A column whose shard of the key stands for some slots. *)
Definition at_shard (c : SpotColumn) (l : list Slot) : Prop := exists sh, shard_get c hash = Ok sh /\ shard_ok sh l /\ tb_homes (sh_table sh) < U64.

Lemma look_ok c l : at_shard c l -> exists seen, look c hash = Ok seen /\ Permutation (map norm (map pl_slot seen)) (List.filter (fun s => Slot_holds s hash) l).
Proof. intros (sh & E & Hok & _); unfold look; rewrite E; res_simpl; destruct (shard_matches sh l hash Hok) as (found & -> & Hp); res_simpl; by exists (places found). Qed.

Lemma at_shard_perm c l l' : Permutation l l' -> at_shard c l -> at_shard c l'.
Proof. intros Hp (sh & E & [H1 H2 H3] & Hh); exists sh; split_and!; [done | split; [done | by rewrite H2 | by rewrite <- (filter_len_perm _ _ _ Hp)] | done]. Qed.

Lemma shard_set_stands c (sh0 sh : Shard) : shard_get c hash = Ok sh0 -> exists c', shard_set c hash sh = Ok c' /\ shard_get c' hash = Ok sh /\ sc_stale c' = sc_stale c /\ sc_follows c' = sc_follows c.
Proof.
  unfold shard_get, shard_set; generalize (Z.to_nat (spot_shard_of hash)); intros n E%idx_Ok; apply lookup_lt_Some in E; rewrite set_idx_Ok by done; res_simpl; eexists; split; [reflexivity|]; cbn [with_shards sc_shards sc_stale sc_follows]; split_and!; [| done | done].
  apply idx_Ok; by apply list_lookup_insert_eq.
Qed.

Lemma norm_rec s : rec (norm s) = rec s.
Proof. done. Qed.

(** A slot seen whose record is gone, taken out of its shard. *)
Lemma take_gone c l slot seen : at_shard c l -> Permutation (map norm seen) (List.filter (fun s => Slot_holds s hash) l) -> slot ∈ seen -> rec slot = None ->
  exists c' did rest s, on_shard c hash (fun sh => Writing_take sh hash slot) = Ok (c', did) /\ Permutation l (s :: rest) /\ rec s = None /\ at_shard c' rest /\ sc_stale c' = sc_stale c /\ sc_follows c' = sc_follows c.
Proof.
  intros (sh & E & Hok & Hsz) Hp Hin Hr; unfold on_shard; rewrite E; res_simpl; destruct (take_slot_ok sh l hash slot Hok Hsz) as (sh' & [s|] & Et & [_ Hss] & Hout); unfold Writing_take; rewrite Et; res_simpl.
  - destruct Hout as (rest & Hl & Hs & Hok' & _); destruct (shard_set_stands c sh sh' E) as (c' & -> & Hg & Hst & Hf); res_simpl; eexists c', true, rest, (norm s); split_and!; try done; [| exists sh'; split_and!; [done | done | lia]].
    rewrite norm_rec; unfold sought, Slot_same_place in Hs; rewrite !andb_true_iff, !Z.eqb_eq in Hs; destruct Hs as (_ & (Ha & Hb) & _); unfold rec in *; by rewrite Ha, Hb.
  - destruct Hout as [_ Hno]; exfalso; assert (norm slot ∈ List.filter (fun s => Slot_holds s hash) l) as Hin' by (rewrite <- Hp; by apply (list_elem_of_fmap_2 norm)); apply list_elem_of_In, filter_In in Hin' as [H1 H2].
    assert (existsb (sought hash slot) l = true) as Ht by (apply existsb_exists; exists (norm slot); split; [done|]; unfold sought; rewrite H2; unfold Slot_same_place; by rewrite !Z.eqb_refl); congruence.
Qed.

(** ** What a lookup promises *)

Definition of_key (l : list Slot) (s : Slot) (h : Head) (v : bytes) : Prop := s ∈ l /\ Slot_holds s hash = true /\ version s h v.

Definition newest_in (l : list Slot) (s : Slot) (h : Head) (v : bytes) : Prop := of_key l s h v /\ forall s' h' v', of_key l s' h' v' -> hd_lsn h' <= hd_lsn h.

(** The slots that are not displaced. *)
Definition live (l : list Slot) : list Slot := List.filter (fun s => negb (Slot_is_displaced s)) l.

Lemma of_key_live l s h v : of_key (live l) s h v <-> of_key l s h v /\ Slot_is_displaced s = false.
Proof. unfold of_key, live; rewrite list_elem_of_In, filter_In, <- list_elem_of_In, negb_true_iff; tauto. Qed.

(** Every displaced version of the key is beaten by one that is not. *)
Definition covered (l : list Slot) : Prop := forall s h v, of_key l s h v -> Slot_is_displaced s = true -> exists s' h' v', of_key l s' h' v' /\ Slot_is_displaced s' = false /\ hd_lsn h < hd_lsn h'.

Definition unsure_read : Prop := exists segment offset bound alone, rs_record key segment offset bound alone = Ok ReadUnsure.

Definition failed_read (e : ReelError) : Prop := exists segment offset bound alone, rs_record key segment offset bound alone = Err e.

(** The newest version is past beating, so only the footers know. *)
Definition newest_displaced (l : list Slot) : Prop := exists s h v, newest_in l s h v /\ Slot_is_displaced s = true.

Definition answered (c : SpotColumn) (l : list Slot) (found : Lookup) : Prop :=
  match found with
  | LookupFound lsn value => exists s h, newest_in l s h value /\ lsn = hd_lsn h /\ hd_is_tombstone h = false /\ Slot_is_displaced s = false
  | LookupNewest value => exists s h, newest_in l s h value /\ hd_is_tombstone h = false /\ Slot_is_displaced s = false
  | LookupMissing => (forall s h v, ~ of_key l s h v) \/ exists s h v, newest_in l s h v /\ hd_is_tombstone h = true /\ Slot_is_displaced s = false
  | LookupUnsettled => sc_follows c = true \/ unsure_read \/ newest_displaced l
  end.

(** The read that takes a lone candidate on its word passes over displaced slots where one live slot
    stands; it answers then as the live slots alone do. *)
Definition answers_as (takes_newest : bool) (c : SpotColumn) (l : list Slot) (found : Lookup) : Prop :=
  answered c l found \/ (takes_newest = true /\ answered c (live l) found).

(** Where displaced versions are beaten, the live slots answer as all of them do. *)
Lemma live_newest l s h v : covered l -> newest_in (live l) s h v -> newest_in l s h v.
Proof.
  intros Hcov [[Hk Hd]%of_key_live Hmax]; split; [done|]; intros s' h' v' Hk'; destruct (Slot_is_displaced s') eqn:Ed; [| apply (Hmax s' h' v'); by apply of_key_live].
  destruct (Hcov s' h' v' Hk' Ed) as (s1 & h1 & v1 & Hk1 & Hd1 & Hlt); specialize (Hmax s1 h1 v1 (proj2 (of_key_live _ _ _ _) (conj Hk1 Hd1))); lia.
Qed.

Lemma live_answers c l found : covered l -> answered c (live l) found -> answered c l found.
Proof.
  intros Hcov; destruct found; cbn [answered].
  - intros (s & h & Hn & ?); exists s, h; split; [by apply live_newest | done].
  - intros (s & h & Hn & ?); exists s, h; split; [by apply live_newest | done].
  - intros [Hno|(s & h & v & Hn & ?)]; [left | right; exists s, h, v; split; [by apply live_newest | done]]; intros s h v Hk; destruct (Slot_is_displaced s) eqn:Ed; [| apply (Hno s h v); by apply of_key_live].
    destruct (Hcov s h v Hk Ed) as (s1 & h1 & v1 & Hk1 & Hd1 & _); apply (Hno s1 h1 v1); by apply of_key_live.
  - intros [?|[?|(s & h & v & Hn & ?)]]; [by left | right; by left | right; right; exists s, h, v; split; [by apply live_newest | done]].
Qed.

(** What the cleaner is handed: versions of the key at their length, each with a newer one standing. *)
Definition beaten (l : list Slot) (st : Stale) : Prop := st_key st = key /\ st_hash st = hash /\ Slot_is_displaced (st_slot st) = false
  /\ exists h v s h' v', version (st_slot st) h v /\ hd_len h = st_len st /\ of_key l s h' v' /\ hd_lsn h < hd_lsn h'.

(** Only the queue of the cleaner changed. *)
Definition queued (c c' : SpotColumn) (l : list Slot) : Prop := exists more, sc_stale c' = sc_stale c ++ more /\ Forall (beaten l) more.

Lemma queued_same c c' l : sc_stale c' = sc_stale c -> queued c c' l.
Proof. intros E; exists []; by rewrite app_nil_r. Qed.

(** ** The slots seen against the shard's *)

Definition sees (p : Pick) (l : list Slot) : Prop := pk_hash p = hash /\ Permutation (map norm (slots_of p)) (List.filter (fun s => Slot_holds s hash) l).

Lemma sees_in p l s : sees p l -> s ∈ slots_of p -> norm s ∈ l /\ Slot_holds (norm s) hash = true.
Proof. intros [_ Hp] Hs; apply (list_elem_of_fmap_2 norm) in Hs; change (norm <$> slots_of p) with (map norm (slots_of p)) in Hs; rewrite Hp in Hs; apply list_elem_of_In, filter_In in Hs as [H1%list_elem_of_In H2]; done. Qed.

Lemma sees_of_key p l s h v : sees p l -> s ∈ slots_of p -> version s h v -> of_key l (norm s) h v.
Proof. intros Hs Hin Hv; destruct (sees_in p l s Hs Hin); by split_and!. Qed.

Lemma key_seen p l s h v : sees p l -> of_key l s h v -> exists s', s' ∈ slots_of p /\ s = norm s' /\ version s' h v.
Proof.
  intros [_ Hp] (H1 & H2 & H3); assert (s ∈ map norm (slots_of p)) as Hin by (rewrite Hp; apply list_elem_of_In, filter_In; split; [by apply list_elem_of_In | done]).
  apply list_elem_of_fmap in Hin as (s' & -> & Hin); by exists s'.
Qed.

Lemma seen_newest p l s h v : sees p l -> s ∈ slots_of p -> version s h v -> (forall s' h' v', s' ∈ slots_of p -> version s' h' v' -> hd_lsn h' <= hd_lsn h) -> newest_in l (norm s) h v.
Proof. intros Hs Hin Hv Hmax; split; [by apply (sees_of_key p)|]; intros s' h' v' Hk; destruct (key_seen p l s' h' v' Hs Hk) as (s1 & ? & _ & ?); by eapply Hmax. Qed.

(** ** Settling *)

Lemma queue_all stale : forall c, exists more, sc_stale (fold_left (fun c '(slot, len_) => SpotColumn_queue c (mkStale key hash slot len_)) stale c) = sc_stale c ++ more /\ (forall st, st ∈ more -> exists slot n, (slot, n) ∈ stale /\ st = mkStale key hash slot n).
Proof.
  induction stale as [|[slot n] stale IH]; intros c; cbn [fold_left]; [exists []; split; [by rewrite app_nil_r | intros st Hst; by apply not_elem_of_nil in Hst]|].
  destruct (IH (SpotColumn_queue c (mkStale key hash slot n))) as (more & -> & Hm); unfold SpotColumn_queue; destruct (len (sc_stale c) <? MAX_STALE).
  - exists (mkStale key hash slot n :: more); split; [cbn [with_stale sc_stale]; by rewrite <- app_assoc|]; intros st [->|Hst]%elem_of_cons; [exists slot, n; split; [left | done] | destruct (Hm st Hst) as (? & ? & ? & ?); eexists _, _; split; [by right | done]].
  - exists more; split; [done|]; intros st Hst; destruct (Hm st Hst) as (? & ? & ? & ?); eexists _, _; split; [by right | done].
Qed.

Lemma queue_shards (stale : list (Slot * Z)) h' : forall c, let c' := fold_left (fun c '(slot, len_) => SpotColumn_queue c (mkStale key h' slot len_)) stale c in sc_shards c' = sc_shards c /\ sc_follows c' = sc_follows c.
Proof.
  induction stale as [|[slot n] stale IH]; intros c; cbn [fold_left]; [done|]; destruct (IH (SpotColumn_queue c (mkStale key h' slot n))) as [-> ->]; unfold SpotColumn_queue; by destruct (len (sc_stale c) <? MAX_STALE).
Qed.

Lemma at_shard_same c c' l : sc_shards c' = sc_shards c -> at_shard c l -> at_shard c' l.
Proof. intros E (sh & Hg & Hr); exists sh; split; [| done]; unfold shard_get in *; by rewrite E. Qed.

(** ** Reading the candidates *)

(** One pass over the candidates: an answer with the shard as it was, or one slot of a segment that
    went taken out. *)
Definition read_ok (takes_newest : bool) (c : SpotColumn) (l : list Slot) (r : res (SpotColumn * option Lookup)) : Prop :=
  match r with
  | Ok (c', Some found) => at_shard c' l /\ sc_follows c' = sc_follows c /\ queued c c' l /\ answers_as takes_newest c l found
  | Ok (c', None) => exists rest s, Permutation l (s :: rest) /\ rec s = None /\ at_shard c' rest /\ sc_follows c' = sc_follows c /\ sc_stale c' = sc_stale c
  | Err e => failed_read e
  | Panic => False
  end.

(** With the best of every candidate in hand, the answer. *)
Lemma settle_queues c l p : at_shard c l -> sees p l -> best_of p (slots_of p) -> stale_of p -> let c' := (SpotColumn_settle c key p).1 in at_shard c' l /\ sc_follows c' = sc_follows c /\ queued c c' l.
Proof.
  intros Hat Hs Hb Hst; unfold SpotColumn_settle; cbn [fst]; pose proof (proj1 Hs) as Eh; rewrite Eh; set (stale := List.filter _ _); destruct (queue_shards stale hash c) as [E1 E2]; split_and!; [by apply (at_shard_same c) | done|].
  destruct (queue_all stale c) as (more & E & Hm); exists more; split; [done|]; apply Forall_forall; intros st (slot & n & Hin & ->)%Hm; apply list_elem_of_In, filter_In in Hin as [Hin%list_elem_of_In Hd%negb_true_iff].
  destruct (Hst slot n Hin) as (h & v & head & value & _ & Hv & Hl & Hbest & Hlt); unfold best_of in Hb; rewrite Hbest in Hb; destruct Hb as (s & v' & Hsin & Hsv & _); split_and!; try done; exists h, v, (norm s), head, v'; split_and!; try done; by apply (sees_of_key p).
Qed.

Lemma settle_answers c l p : sees p l -> best_of p (slots_of p) -> pk_is_versionless p = false -> answered c l (SpotColumn_settle c key p).2.
Proof.
  intros Hs Hb Hver; unfold SpotColumn_settle; cbn [snd]; rewrite Hver; unfold best_of in Hb; destruct (pk_best p) as [[head value]|].
  - destruct Hb as (s & v & Hin & Hv & -> & -> & Hmax); pose proof (seen_newest p l s head v Hs Hin Hv Hmax) as Hn; assert (Slot_is_displaced (norm s) = Slot_is_displaced s) as Ed by apply in_second_displaced.
    destruct (Slot_is_displaced s) eqn:Esd; [right; right; exists (norm s), head, v; by rewrite Ed|]; destruct (hd_is_tombstone head) eqn:Et; [right; exists (norm s), head, v; by rewrite Ed | exists (norm s), head; by rewrite Ed].
  - left; intros s h v (s' & Hin & -> & Hv)%(key_seen p l _ _ _ Hs); by eapply Hb.
Qed.

(** No short cut: candidates are read in their order. *)
Definition in_order (p : Pick) : Prop := (if pk_takes_newest p then match sole_live (pk_ordered p) with Some s => if Slot_is_grave s then None else Some s | None => None end else None) = None.

Lemma next_in_order p : in_order p -> SpotColumn_next p = let '(next, found) := next_from (drop (pk_next p) (pk_ordered p)) (pk_next p) (pk_best p) in (pick_at p next, found).
Proof. unfold in_order, SpotColumn_next; by intros ->. Qed.

Lemma take_slots p n : (n <= length (pk_ordered p))%nat -> take n (slots_of p) = map snd (take n (pk_ordered p)).
Proof. intros _; unfold slots_of; change (map snd (pk_ordered p)) with (snd <$> pk_ordered p); by rewrite <- fmap_take. Qed.

(** The candidate a pick comes to, with the best of everything before it. *)
Lemma next_candidate p : pick_ok p -> in_order p ->
  match SpotColumn_next p with
  | (p', None) => p' = pick_at p (length (pk_ordered p)) /\ best_of p (slots_of p)
  | (p', Some candidate) => exists n x, pk_ordered p !! n = Some x /\ (pk_next p <= n)%nat /\ p' = pick_at p (S n) /\ candidate = candidate_of x.2 false /\ best_of p (take n (slots_of p))
  end.
Proof.
  intros [H1 H2 H3 H4 H5] Ho; rewrite next_in_order by done; pose proof (next_from_ok (drop (pk_next p) (pk_ordered p)) (pk_next p) (pk_best p)) as Hn; pose proof (take_drop (pk_next p) (pk_ordered p)) as Etd.
  destruct (next_from _ _ _) as [next [candidate|]].
  - destruct Hn as (pre & x & post & Ed & -> & Hpre & ->); assert (pk_ordered p = (take (pk_next p) (pk_ordered p) ++ pre) ++ x :: post) as El by (rewrite <- app_assoc, <- Ed; by rewrite take_drop); assert (length (take (pk_next p) (pk_ordered p) ++ pre) = (pk_next p + length pre)%nat) as Elen by (rewrite length_app, length_take; lia).
    assert (pk_ordered p !! (pk_next p + length pre)%nat = Some x) as Ex by (rewrite El, <- Elen; by rewrite list_lookup_middle); exists (pk_next p + length pre)%nat, x; split_and!; [done | lia | f_equal; lia | done|].
    assert (take (pk_next p + length pre) (slots_of p) = take (pk_next p) (slots_of p) ++ map snd pre) as ->.
    { rewrite !take_slots by (apply lookup_lt_Some in Ex; lia); rewrite <- map_app; f_equal; rewrite El at 1; rewrite <- Elen, take_app_length; done. }
    apply best_past; [done | done|]; rewrite El in H2; apply Forall_app in H2 as [H2 _]; by apply Forall_app in H2 as [_ H2].
  - destruct Hn as [-> Hall]; rewrite length_drop; split; [f_equal; lia|]; assert (slots_of p = take (pk_next p) (slots_of p) ++ map snd (drop (pk_next p) (pk_ordered p))) as -> by (rewrite take_slots, <- map_app, Etd by lia; done).
    apply best_past; [done | done|]; rewrite <- Etd in H2; by apply Forall_app in H2 as [_ H2].
Qed.

(** A slot of a segment that went: kept by a follower, taken out otherwise. *)
Lemma gone_ok takes c l p slot alone : at_shard c l -> sees p l -> slot ∈ slots_of p -> rec slot = None ->
  match SpotColumn_offer c p (candidate_of slot alone) ReadGone with
  | Ok (c', p', OfferUnsettled) => read_ok takes c l (Ok (c', Some LookupUnsettled))
  | Ok (c', p', OfferAgain) => read_ok takes c l (Ok (c', None))
  | _ => False
  end.
Proof.
  intros Hat Hs Hin Hr; cbn [SpotColumn_offer candidate_of cd_slot]; unfold SpotColumn_keeps_gone; destruct (sc_follows c) eqn:Ef; cbn [andb]; [destruct (Slot_is_displaced slot) eqn:Ed; cbn [negb]|].
  2: split_and!; [by apply (at_shard_same c) | done | by apply queued_same | left; by left].
  all: rewrite (proj1 Hs); destruct (take_gone c l slot (slots_of p) Hat (proj2 Hs) Hin Hr) as (c' & did & rest & s & -> & Hp & Hrs & Hat' & Hst & Hf); res_simpl; exists rest, s; split_and!; congruence.
Qed.

Lemma unsettled_ok takes c l : at_shard c l -> unsure_read -> read_ok takes c l (Ok (c, Some LookupUnsettled)).
Proof. intros Hat Hu; split_and!; [done | done | by apply queued_same | left; right; by left]. Qed.

(** A candidate read, the best of one more slot is known. *)
Lemma pick_advances p n x p' : pk_ordered p !! n = Some x -> pick_ok p -> best_of p' (take n (slots_of p) ++ [x.2]) -> stale_of p' -> pk_ordered p' = pk_ordered p -> pk_next p' = S n -> pk_is_versionless p' = pk_is_versionless p -> pick_ok p'.
Proof.
  intros Hx Hok Hb Hs Eo En Ev; pose proof (lookup_lt_Some _ _ _ Hx); destruct Hok; split; [rewrite Eo, En; lia | by rewrite Eo | | done | congruence].
  rewrite En; unfold slots_of; rewrite Eo; change (take (S n) (slots_of p)) with (take (S n) (snd <$> pk_ordered p)); erewrite take_S_r; [exact Hb|]; change (map snd (pk_ordered p)) with (snd <$> pk_ordered p); by rewrite list_lookup_fmap, Hx.
Qed.

Lemma best_not_key p seen s : best_of p seen -> (forall h v, ~ version s h v) -> best_of p (seen ++ [s]).
Proof.
  intros Hb Hno; unfold best_of in *; destruct (pk_best p) as [[head value]|].
  - destruct Hb as (s0 & v & Hin & Hv & Hval & Hd & Hmax); exists s0, v; split_and!; try done; [rewrite elem_of_app; by left|]; intros s' h' v' [Hs|Hs%list_elem_of_singleton]%elem_of_app Hv'; [by eapply Hmax | subst s'; by apply Hno in Hv'].
  - intros s' h' v' [Hs|Hs%list_elem_of_singleton]%elem_of_app Hv'; [by eapply Hb | subst s'; by apply Hno in Hv'].
Qed.

(** A version read in order is folded in. *)
Lemma fold_advances p n x head v value : pick_ok p -> pk_ordered p !! n = Some x -> best_of p (take n (slots_of p)) -> version x.2 head v -> value = (if hd_is_tombstone head then None else Some v) ->
  let p' := fold_in (pick_at p (S n)) (candidate_of x.2 false) head value in pick_ok p' /\ pk_ordered p' = pk_ordered p /\ pk_next p' = S n /\ pk_hash p' = pk_hash p /\ pk_takes_newest p' = pk_takes_newest p.
Proof.
  intros Hok Hx Hb Hv ->; assert (x.2 ∈ slots_of p) as Hin by (apply (list_elem_of_fmap_2 snd); by eapply list_elem_of_lookup_2).
  destruct (fold_in_ok (pick_at p (S n)) x.2 false head v (take n (slots_of p)) Hv Hin Hb (po_stale _ Hok)) as (H1 & H2 & H3 & H4 & H5 & H6 & H7); split_and!; try done; by apply (pick_advances p n x).
Qed.

Lemma read_in_order takes fuel : forall c l p, at_shard c l -> sees p l -> pick_ok p -> in_order p -> (length (pk_ordered p) - pk_next p < fuel)%nat -> read_ok takes c l (read_candidates fuel source c key p).
Proof.
  induction fuel as [|fuel IH]; intros c l p Hat Hs Hok Ho Hf; [lia|]; cbn [read_candidates]; pose proof (next_candidate p Hok Ho) as Hn; destruct (SpotColumn_next p) as [p' [candidate|]].
  - destruct Hn as (n & x & Hx & Hle & -> & -> & Hb); assert (x.2 ∈ slots_of p) as Hin by (apply (list_elem_of_fmap_2 snd); by eapply list_elem_of_lookup_2); pose proof (lookup_lt_Some _ _ _ Hx).
    assert (forall p', pick_ok p' -> pk_ordered p' = pk_ordered p -> pk_next p' = S n -> pk_hash p' = pk_hash p -> pk_takes_newest p' = pk_takes_newest p -> read_ok takes c l (read_candidates fuel source c key p')) as Hgo.
    { intros p' Hok' E1 E2 E3 E4; apply IH; [done | unfold sees, slots_of in *; by rewrite E1, E3 | done | unfold in_order in *; by rewrite E1, E4 | rewrite E1, E2; lia]. }
    cbn [candidate_of cd_segment cd_offset cd_alone]; pose proof (Hhonest (sl_segment x.2) (sl_offset x.2) (cd_bound (candidate_of x.2 false)) false) as Hh; destruct (rs_record _ _ _ _ _) as [[head value|n0 value|head| | |]|e|] eqn:Er; res_simpl; cbn [SpotColumn_offer candidate_of]; res_simpl.
    + destruct Hh as [Hv Ht]; destruct (fold_advances p n x head value (Some value) Hok Hx Hb Hv) as (? & ? & ? & ? & ?); [by rewrite Ht | by apply Hgo].
    + by destruct Hh.
    + destruct Hh as [Ht [v Hv]]; destruct (fold_advances p n x head v None Hok Hx Hb Hv) as (? & ? & ? & ? & ?); [by rewrite Ht | by apply Hgo].
    + apply Hgo; try done; apply (pick_advances p n x); try done; [by apply best_not_key | apply Hok].
    + pose proof (gone_ok takes c l (pick_at p (S n)) x.2 false Hat Hs Hin Hh) as Hg; cbn [SpotColumn_offer candidate_of] in Hg; destruct (SpotColumn_keeps_gone _ _) as [c1 keeps]; destruct keeps; res_simpl; [done|]; destruct (on_shard _ _ _) as [[c2 did]|e|]; res_simpl; done.
    + apply unsettled_ok; [done|]; by eexists _, _, _, _.
    + by eexists _, _, _, _.
    + done.
  - destruct Hn as [-> Hb]; pose proof (settle_queues c l (pick_at p (length (pk_ordered p))) Hat Hs Hb (po_stale _ Hok)) as Hq; pose proof (settle_answers c l (pick_at p (length (pk_ordered p))) Hs Hb (po_versioned _ Hok)) as Ha.
    destruct (SpotColumn_settle c key _) as [c' found]; destruct Hq as (? & ? & ?); split_and!; [done | done | done | by left].
Qed.

(** ** The lone live candidate *)

Lemma sole_seen p s : sole_live (pk_ordered p) = Some s -> s ∈ slots_of p /\ Slot_is_displaced s = false /\ forall s', s' ∈ slots_of p -> Slot_is_displaced s' = false -> s' = s.
Proof.
  unfold sole_live, slots_of; intros E; destruct (List.filter _ _) as [|[ceiling s1] [|]] eqn:Ef; try done; injection E as ->; set (q := fun '(_, s) => _) in Ef.
  assert ((ceiling, s) ∈ List.filter q (pk_ordered p)) as Hin by (rewrite Ef; left); apply list_elem_of_In, filter_In in Hin as [Hin Hd]; split_and!; [by apply (list_elem_of_fmap_2 snd _ (ceiling, s)), list_elem_of_In | by apply negb_true_iff|].
  intros s' Hs' Hd'; apply list_elem_of_fmap in Hs' as ([c' s''] & -> & Hin'); cbn [snd] in *; assert ((c', s'') ∈ List.filter q (pk_ordered p)) as Hx by (apply list_elem_of_In, filter_In; split; [by apply list_elem_of_In | cbn; by rewrite Hd']); rewrite Ef in Hx; apply list_elem_of_singleton in Hx; congruence.
Qed.

Lemma live_is_sole p l s s' h' v' : sees p l -> sole_live (pk_ordered p) = Some s -> of_key l s' h' v' -> Slot_is_displaced s' = false -> s' = norm s /\ version s h' v'.
Proof.
  intros Hs He Hk Hd; destruct (sole_seen p s He) as (_ & _ & Hu); destruct (key_seen p l s' h' v' Hs Hk) as (s1 & Hin & -> & Hv); unfold norm in Hd; rewrite in_second_displaced in Hd; by rewrite <- (Hu s1 Hin Hd).
Qed.

(** The lone live version is the newest of the live, and where it is not the key's no live one is. *)
Lemma sole_newest p l s h v : sees p l -> sole_live (pk_ordered p) = Some s -> version s h v -> newest_in (live l) (norm s) h v.
Proof.
  intros Hs He Hv; destruct (sole_seen p s He) as (Hin & Hd & _); split; [apply of_key_live; split; [by apply (sees_of_key p) | unfold norm; by rewrite in_second_displaced]|]; intros s' h' v' [Hk Ed]%of_key_live.
  destruct (live_is_sole p l s s' h' v' Hs He Hk Ed) as [_ Hv1]; by rewrite (version_unique _ _ _ _ _ Hv Hv1).
Qed.

Lemma sole_none p l s : sees p l -> sole_live (pk_ordered p) = Some s -> (forall h v, ~ version s h v) -> forall s' h' v', ~ of_key (live l) s' h' v'.
Proof.
  intros Hs He Hno s' h' v' [Hk Ed]%of_key_live; destruct (live_is_sole p l s s' h' v' Hs He Hk Ed) as [_ Hv]; by apply Hno in Hv.
Qed.

Definition fresh_pick (ordered : list (option Lsn * Slot)) (takes_newest : bool) : Pick := mkPick hash ordered 0 None false takes_newest false [].

(** After the lone candidate the lookup settles on what it read. *)
Lemma settle_alone fuel c p s : pk_takes_newest p = true -> sole_live (pk_ordered p) = Some s -> Slot_is_grave s = false -> pk_next p <> O -> pk_stale p = [] ->
  exists found, read_candidates (S fuel) source c key p = Ok (c, Some found) /\ found = (SpotColumn_settle c key p).2.
Proof.
  intros Ht He Hg Hn Hst; cbn [read_candidates]; unfold SpotColumn_next; rewrite Ht, He, Hg, (proj2 (Nat.eqb_neq _ _) Hn); unfold SpotColumn_settle; cbn [pick_at pk_stale pk_best pk_best_displaced pk_is_versionless pk_hash]; rewrite Hst; cbn [List.filter fold_left snd]; eauto.
Qed.

Lemma read_alone fuel c l ordered s : let p := fresh_pick ordered true in at_shard c l -> sees p l -> sole_live ordered = Some s -> Slot_is_grave s = false -> read_ok true c l (read_candidates (S (S fuel)) source c key p).
Proof.
  intros p Hat Hs He Hg; destruct (sole_seen p s He) as (Hin & Hd & _); assert (length ordered <> O) as Hne by (intros E; apply length_zero_iff_nil in E; subst ordered; by apply not_elem_of_nil in Hin); assert (Slot_is_displaced (norm s) = false) as Hdn by (unfold norm; by rewrite in_second_displaced).
  assert (SpotColumn_next p = (pick_at p (length ordered), Some (candidate_of s true))) as En by (unfold SpotColumn_next; cbn [p fresh_pick pk_takes_newest pk_ordered pk_next]; by rewrite He, Hg).
  assert (forall p' found, pk_takes_newest p' = true -> pk_ordered p' = ordered -> pk_next p' = length ordered -> pk_stale p' = [] -> (SpotColumn_settle c key p').2 = found -> answered c (live l) found -> read_ok true c l (read_candidates (S fuel) source c key p')) as Hgo.
  { intros p' found H1 H2 H3 H4 H5 Ha; destruct (settle_alone fuel c p' s) as (f & -> & ->); try congruence; split_and!; [done | done | by apply queued_same | right; split; [done | by rewrite H5]]. }
  remember (S fuel) as more; cbn [read_candidates]; rewrite En; cbn [candidate_of cd_segment cd_offset cd_alone]; pose proof (Hhonest (sl_segment s) (sl_offset s) (cd_bound (candidate_of s true)) true) as Hh; destruct (rs_record _ _ _ _ _) as [[head value|n0 value|head| | |]|e|] eqn:Er; res_simpl; cbn [SpotColumn_offer candidate_of cd_alone]; res_simpl.
  - destruct Hh as [Hv Ht]; apply (Hgo _ (LookupFound (hd_lsn head) value)); try done; [cbn; by rewrite Hd|]; exists (norm s), head; split_and!; try done; by apply (sole_newest p).
  - destruct Hh as [_ (h & Hv & Ht)]; apply (Hgo _ (LookupNewest value)); try done; exists (norm s), h; split_and!; try done; by apply (sole_newest p).
  - destruct Hh as [Ht [v Hv]]; apply (Hgo _ LookupMissing); try done; [cbn; by rewrite Hd|]; right; exists (norm s), head, v; split_and!; try done; by apply (sole_newest p).
  - apply (Hgo _ LookupMissing); try done; left; by apply (sole_none p l s).
  - pose proof (gone_ok true c l (pick_at p (length ordered)) s true Hat Hs Hin Hh) as Hgo'; cbn [SpotColumn_offer candidate_of] in Hgo'; destruct (SpotColumn_keeps_gone _ _) as [c1 keeps]; destruct keeps; res_simpl; [done|]; destruct (on_shard _ _ _) as [[c2 did]|e|]; res_simpl; done.
  - apply unsettled_ok; [done|]; by eexists _, _, _, _.
  - by eexists _, _, _, _.
  - done.
Qed.

(** ** Trying again *)

Lemma pick_fresh c l takes : at_shard c l -> exists ordered, SpotColumn_pick hash_of max_lsn_of (Some source) c key = Ok (Some (fresh_pick ordered true)) /\ sees (fresh_pick ordered takes) l /\ pick_ok (fresh_pick ordered takes).
Proof.
  intros Hat; destruct (look_ok c l Hat) as (seen & El & Hp); unfold SpotColumn_pick, SpotColumn_ordered; rewrite El; res_simpl; eexists; split; [done|]; set (ordered := if (1 <? _)%nat then _ else _); assert (Permutation (map snd ordered) (map pl_slot seen) /\ Forall (fun x => x.1 = None \/ x.1 = max_lsn_of (sl_segment x.2)) ordered) as [Hord Hc].
  { subst ordered; destruct (1 <? _)%nat.
    - split; [rewrite (merge_sort_Permutation newest_first), map_map; cbn [snd]; by rewrite map_id|]; apply Forall_forall; intros x Hx; rewrite (merge_sort_Permutation newest_first) in Hx; apply list_elem_of_fmap in Hx as (s & -> & _); by right.
    - split; [rewrite map_map; cbn [snd]; by rewrite map_id|]; apply Forall_forall; intros x (s & -> & _)%list_elem_of_fmap; by left. }
  split; [split; [done|]; unfold slots_of; cbn [fresh_pick pk_ordered]; by rewrite Hord|]; split; cbn [fresh_pick pk_next pk_ordered pk_best]; [lia | done | | intros ? ? Hx; by apply not_elem_of_nil in Hx | done].
  intros s h v Hx; by apply not_elem_of_nil in Hx.
Qed.

Lemma read_pass c l takes : at_shard c l -> exists ordered, SpotColumn_pick hash_of max_lsn_of (Some source) c key = Ok (Some (fresh_pick ordered true)) /\ read_ok takes c l (read_candidates (S (S (length ordered))) source c key (fresh_pick ordered takes)).
Proof.
  intros Hat; destruct (pick_fresh c l takes Hat) as (ordered & E & Hs & Hok); exists ordered; split; [done|].
  destruct takes; [destruct (sole_live ordered) as [s|] eqn:Es; [destruct (Slot_is_grave s) eqn:Eg|]|].
  2: by eapply read_alone.
  all: apply read_in_order; [done | done | done | unfold in_order; cbn [fresh_pick pk_takes_newest pk_ordered]; by rewrite ?Es, ?Eg | cbn [fresh_pick pk_ordered pk_next]; lia].
Qed.

Lemma of_key_gone l s rest : Permutation l (s :: rest) -> rec s = None -> forall a h v, of_key l a h v <-> of_key rest a h v.
Proof.
  intros Hp Hr a h v; unfold of_key; rewrite Hp, elem_of_cons; split; [| intros (? & ? & ?); split_and!; [by right | done | done]]; intros ([->|Ha] & Hh & Hv); [| done]; unfold version in Hv; congruence.
Qed.

Section same_versions.
Context (l l' : list Slot) (Hsame : forall a h v, of_key l a h v <-> of_key l' a h v).

Lemma newest_same s h v : newest_in l s h v <-> newest_in l' s h v.
Proof. unfold newest_in; rewrite Hsame; split; intros [H1 H2]; (split; [done|]); intros s' h' v' Hk; apply (H2 s' h' v'); by apply Hsame. Qed.

Lemma beaten_same st : beaten l st -> beaten l' st.
Proof. intros (H1 & H2 & H3 & h & v & s & h' & v' & H4 & H5 & H6 & H7); split_and!; try done; exists h, v, s, h', v'; split_and!; try done; by apply Hsame. Qed.

Lemma answered_same c c' found : sc_follows c' = sc_follows c -> answered c l found -> answered c' l' found.
Proof.
  intros Ef; destruct found; cbn [answered].
  - intros (s & h & Hn & ?); exists s, h; split; [by apply newest_same | done].
  - intros (s & h & Hn & ?); exists s, h; split; [by apply newest_same | done].
  - intros [Hno|(s & h & v & Hn & ?)]; [left; intros s h v Hk; by apply (Hno s h v), Hsame | right; exists s, h, v; split; [by apply newest_same | done]].
  - rewrite Ef; intros [?|[?|(s & h & v & Hn & ?)]]; [by left | right; by left | right; right; exists s, h, v; split; [by apply newest_same | done]].
Qed.
End same_versions.

Lemma live_same l l' : (forall a h v, of_key l a h v <-> of_key l' a h v) -> forall a h v, of_key (live l) a h v <-> of_key (live l') a h v.
Proof. intros Hsame a h v; by rewrite !of_key_live, Hsame. Qed.

Lemma answers_as_same takes l l' c c' found : (forall a h v, of_key l a h v <-> of_key l' a h v) -> sc_follows c' = sc_follows c -> answers_as takes c l found -> answers_as takes c' l' found.
Proof. intros Hsame Ef [Ha|[Ht Ha]]; [left; by apply (answered_same l l' Hsame c) | right; split; [done | by apply (answered_same _ _ (live_same l l' Hsame) c)]]. Qed.

(** What a lookup leaves: the slots that stood less some whose records are gone, and the answer. *)
Definition looked_up (answers : Lookup -> Prop) (tries : nat) (c : SpotColumn) (l : list Slot) (r : res (SpotColumn * Lookup)) : Prop :=
  match r with
  | Ok (c', found) => exists gone l', Permutation l (gone ++ l') /\ Forall (fun s => rec s = None) gone /\ (length gone <= tries)%nat /\ at_shard c' l' /\ queued c c' l /\ (answers found \/ (found = LookupUnsettled /\ length gone = tries))
  | Err e => failed_read e
  | Panic => False
  end.

Lemma looked_up_mono (P Q : Lookup -> Prop) tries c l r : (forall found, P found -> Q found) -> looked_up P tries c l r -> looked_up Q tries c l r.
Proof.
  intros HPQ; destruct r as [[c' found]|e|]; cbn [looked_up]; [| done | done]; intros (gone & l' & H1 & H2 & H3 & H4 & H5 & [H6|H6]); exists gone, l'; split_and!; auto.
Qed.

Lemma read_tries_ok tries takes : forall c l, at_shard c l -> looked_up (answers_as takes c l) tries c l (read_tries hash_of max_lsn_of (Some source) tries source c key takes).
Proof.
  induction tries as [|tries IH]; intros c l Hat; cbn [read_tries]; [exists [], l; split_and!; [done | constructor | done | done | by apply queued_same | by right]|].
  destruct (read_pass c l takes Hat) as (ordered & E & Hr); rewrite E; res_simpl; change (mkPick _ _ _ _ _ takes _ _) with (fresh_pick ordered takes); destruct (read_candidates _ _ _ _ _) as [[c' [found|]]|e|]; res_simpl; cbn [read_ok] in Hr.
  - destruct Hr as (H1 & _ & H3 & H4); exists [], l; split_and!; [done | constructor | cbn; lia | done | done | by left].
  - destruct Hr as (rest & s & Hp & Hrs & Hat' & Ef & Est); pose proof (of_key_gone l s rest Hp Hrs) as Hsame; specialize (IH c' rest Hat'); destruct (read_tries _ _ _ _ _ _ _) as [[c2 found]|e|]; cbn [looked_up] in *; [| done | done].
    destruct IH as (gone & l' & Hp' & Hg & Hn & Hat2 & (more & Eq & Hm) & Ha); assert (forall a h v, of_key rest a h v <-> of_key l a h v) as Hback by (intros; by rewrite Hsame); exists (s :: gone), l'; split_and!; [by rewrite Hp, Hp' | by constructor | cbn; lia | done | | ].
    + exists more; split; [congruence|]; eapply Forall_impl; [exact Hm|]; intros st; by apply beaten_same.
    + destruct Ha as [Ha|[-> En]]; [left; by apply (answers_as_same takes rest l c') | right; split; [done | cbn; lia]].
  - done.
  - done.
Qed.

End lookup.

(** ** At a concrete column *)

Definition demo_spot_ops : list ShardOp := [DoPut 77 (mkLoc 3 4096 1500); DoPut 77 (mkLoc 4 64 10); DoPut 78 (mkLoc 6 0 12); DoPut 77 (mkLoc 5 128 9); DoMark 77 (Slot_new 77 (mkLoc 3 4096 1500))].

Definition demo_spot_shard : Shard := match shard_run (H := demo_ladder) (Shard_new (H := demo_ladder) 0) demo_spot_ops with Ok (sh, _) => sh | _ => Shard_new (H := demo_ladder) 0 end.

Definition demo_spots : SpotColumn := with_shards (SpotColumn_new (H := demo_ladder)) (demo_spot_shard :: drop 1 (sc_shards (SpotColumn_new (H := demo_ladder)))).

(** Two versions of a key, the older one's slot displaced; the segment of a third went. *)
Definition demo_truth (segment : SegmentId) (offset : Z) : option (RecordKey * Head * bytes) :=
  if (segment =? 3) && (offset =? 4096) then Some (RecordKey_none, mkHead 10 1500 false, [Byte.x01])
  else if (segment =? 5) && (offset =? 128) then Some (RecordKey_none, mkHead 12 9 false, [Byte.x02; Byte.x03]) else None.

Definition demo_source : RecordSource := {|
  rs_head := fun _ _ _ => Ok HeadCold;
  rs_cached_head := fun _ _ _ => Ok HeadCold;
  rs_checked_len := fun _ _ _ _ => Ok None;
  rs_record := fun key segment offset _ _ => match demo_truth segment offset with
    | Some (_, h, v) => if RecordKey_width key =? 0 then Ok (ReadFound h v) else Ok ReadOther
    | None => Ok ReadGone
    end |}.

Definition demo_ceiling (segment : SegmentId) : option Lsn := if segment =? 3 then Some 11 else None.

Lemma demo_honest : honest demo_source RecordKey_none demo_truth.
Proof.
  intros segment offset bound alone; cbn [rs_record demo_source]; destruct (demo_truth segment offset) as [[[k h] v]|] eqn:E; [| done]; change (RecordKey_width RecordKey_none =? 0) with true; cbv iota; unfold demo_truth in E; destruct (_ && _) in E; [by injection E as <- <- <- | destruct (_ && _) in E; [by injection E as <- <- <- | done]].
Qed.

Lemma demo_ceilings : ceilings demo_ceiling demo_truth.
Proof.
  intros segment offset k h v ceiling E; unfold demo_truth in E; destruct (Z.eqb_spec segment 3) as [->|]; cbn [andb] in E; [destruct (_ =? _); [| done]; injection E as <- <- <-; intros [= <-]; done|]; unfold demo_ceiling; intros Hc; destruct (Z.eqb_spec segment 3); done.
Qed.

(** Every displaced slot of a list is of the older version, and the newer one's stands there live. *)
Definition demo_beaten (slots : list Slot) : bool :=
  forallb (fun s => negb (Slot_is_displaced s) || match demo_truth (sl_segment s) (sl_offset s) with Some (_, h, _) => hd_lsn h =? 10 | None => true end) slots
  && existsb (fun s => Slot_holds s (hash_key (fun _ => 77) RecordKey_none) && negb (Slot_is_displaced s) && (sl_segment s =? 5) && (sl_offset s =? 128)) slots.

Lemma demo_covered l : demo_beaten l = true -> covered (fun _ => 77) RecordKey_none demo_truth l.
Proof.
  unfold demo_beaten; rewrite andb_true_iff, forallb_forall, existsb_exists; intros [Hall (s' & Hin' & Hs')] s h v (Hin%list_elem_of_In & _ & Hv) Hd; specialize (Hall s Hin); rewrite Hd in Hall; cbn [negb orb] in Hall.
  unfold version, rec in Hv; rewrite Hv in Hall; apply Z.eqb_eq in Hall; rewrite !andb_true_iff, negb_true_iff, !Z.eqb_eq in Hs'; destruct Hs' as (((Hh & Hd') & Hseg) & Hoff).
  exists s', (mkHead 12 9 false), [Byte.x02; Byte.x03]; split; [split_and!; [by apply list_elem_of_In | done | unfold version, rec; by rewrite Hseg, Hoff]|]; split; [done | rewrite Hall; done].
Qed.

Lemma demo_at_shard : exists l, at_shard (fun _ => 77) RecordKey_none demo_spots l /\ covered (fun _ => 77) RecordKey_none demo_truth l /\ exists s, s ∈ l /\ Slot_is_displaced s = true.
Proof.
  destruct (shard_run_ok (H := demo_ladder) demo_spot_ops (Shard_new (H := demo_ladder) 0) []) as (sh & answers & l & E & _ & Hok); [intros phase homes; cbn; unfold LADDER_TOP; lia | apply shard_new_ok | repeat constructor; done | vm_compute; reflexivity|].
  assert (sh = demo_spot_shard) as -> by (unfold demo_spot_shard; by rewrite E); exists (contents (sh_table demo_spot_shard)); split_and!.
  - assert (at_shard (fun _ => 77) RecordKey_none demo_spots l) as Hl by (exists demo_spot_shard; split_and!; [done | done | vm_compute; reflexivity]).
    exact (at_shard_perm (fun _ => 77) RecordKey_none demo_spots _ _ (Permutation_sym (ho_slots _ _ Hok)) Hl).
  - apply demo_covered; vm_compute; reflexivity.
  - assert (existsb Slot_is_displaced (contents (sh_table demo_spot_shard)) = true) as (s & Hs%list_elem_of_In & Hd)%existsb_exists by (vm_compute; reflexivity); exists s; split; [exact Hs | exact Hd].
Qed.

